(* ===== verification/_CoqProject ===== *)
-Q . S2P
Prelude.v
Ids.v
Value.v
Codec.v
CodecFacts.v
CodecFrame.v
BorrowedDecode.v
Policy.v
PolicyFacts.v
GraphRecord.v
GraphCodec.v
GraphCodecFacts.v
GraphCodecExact.v
StoredRecord.v
GraphIndex.v
GraphState.v
GraphValidity.v
GraphCheckpoint.v
GraphOperations.v
GraphPublish.v
GraphReachable.v
GraphSamples.v
GraphQuery.v
GraphGuarantees.v
GraphAuthorization.v
GraphDurable.v
TimeModel.v
TimeNormalize.v
TimeCalendar.v
TimeFacts.v
FieldCodec.v
TimeCodec.v
TimeEnvelope.v
Storage.v
Blob.v
Journal.v
TxnGroup.v
TxnCoordinator.v
TxnGuarantees.v
TxnGraph.v
TxnRecovery.v
TxnRecoveryFacts.v
TxnSamples.v
Envelope.v
FileSystem.v
MemoryFs.v
FaultFs.v
FileSystemFacts.v
JournalFormat.v
JournalStore.v
JournalRecovery.v
StoreDisk.v
StoreCalls.v
StoreLog.v
StoreScan.v
StoreOpen.v
StoreAppend.v
StoreLifetime.v
StoreSamples.v
SpatialModel.v
SpatialCodec.v
SpatialCodecExact.v
SpatialCatalog.v
SpatialAdmit.v
SpatialInvariant.v
SpatialState.v
SpatialDurable.v
SpatialGuarantees.v
TxnSpatial.v
SpatialSamples.v
IngestModel.v
IngestCodec.v
IngestState.v
IngestCheckpoint.v
IngestInvariant.v
IngestCommit.v
IngestDurable.v
IngestGuarantees.v
IngestSamples.v
