(* ===== verification/Prelude.v ===== *)
(** * A verification development for USTE

    USTE is an embedded bitemporal graph engine: a canonical value model
    ([crates/uste-types]), a default-deny policy kernel ([crates/uste-policy]),
    reducers for the graph ([crates/uste-graph]), for space
    ([crates/uste-spatial]) and for imports that change both
    ([crates/uste-ingest]), and the transaction coordinator that drives them
    ([crates/uste-txn]) over an encrypted journal ([crates/uste-storage]).  A
    commit decodes a canonical request, derives its authorization requirements,
    prepares a delta against the current snapshot and publishes it; a reader evaluates projections of a snapshot under the
    policy kernel; a checkpoint serializes the whole state and is validated on
    load.

    ** Files
    - [Prelude]: results, machine integers, bytes, ordered maps and sets
      ([BTreeMap]/[BTreeSet] iterate in key order), fallible loops; the shared
      tactics, the [uste] hint database and the [uste_len] rewrite database.
    - [Ids]: [uste-types/src/{id,instant,revision}.rs] - identities and their
      text form, scoped references with their derived order, instants, revisions.
    - [Value]: [uste-types/src/value.rs] - the value tree, its limits, UTF-8 and
      the canonical map.
    - [Codec], with [CodecFacts], [CodecFrame]:
      [uste-types/src/codec.rs] - ULEB128, frames, encoder and strict decoder.
      The decoder recurses under the nesting limit; [DECODE_FUEL] is that limit
      and [decode_payload_fuel] shows that more fuel changes nothing.
    - [BorrowedDecode]: the zero-copy map decoders of the same file.
    - [Policy], [PolicyFacts]: [uste-policy/src/lib.rs] - permission sets,
      quotas, grants, policies, leases and the kernel.
    - [GraphRecord]: [uste-graph/src/record.rs] - records, operations and
      transactions.
    - [GraphCodec], with [GraphCodecFacts], [GraphCodecExact],
      [StoredRecord]: [uste-graph/src/codec.rs].
    - [GraphIndex]: the derived indexes of
      [uste-graph/src/state.rs].
    - [GraphState]: the reducer of that file - validation, preconditions,
      operations, preparation, publication.
    - [GraphValidity], [GraphOperations], [GraphPublish]: lemmas about the overlay
      and valid states, about each operation, and about version histories, the
      operation loop and publication.
    - [GraphCheckpoint]: histories, states from persisted parts, the checkpoint
      format.
    - [GraphQuery]: traversal, authorized projections ([query.rs]) and the read
      facade of [uste-txn/src/authorized.rs].

    - [TimeModel], [TimeNormalize]: [uste-time/src/{model,normalize}.rs] -
      timestamp envelopes and normalization; [TimeCalendar]: the calendar is the
      proleptic Gregorian one, and decimal text; [TimeFacts]: normalization is total
      and exact, printed instants parse back.
    - [FieldCodec]: the helpers of map-shaped codecs, over the
      error type of the codec that uses them; [TimeCodec], [TimeEnvelope]:
      [uste-time/src/codec.rs] and its exactness.

    - [GraphReachable]: the state invariant [graph_inv] and that a commit keeps
      it; [GraphGuarantees]: states reachable by commits and what holds of them -
      restorable, records follow their life cycle, history is immutable, no
      dangling references, deletion is exact, traversals are exact;
      [GraphAuthorization]: reads and commits are authorized;
      [GraphDurable]: checkpoints round-trip; [GraphSamples]: the worked graph
      the witnesses use.

    - [Storage]: fixed binary layouts and the errors of [uste-storage] and
      [uste-crypto]; [Blob]: [uste-storage/src/blob.rs] - blob
      references and canonical inventories.
    - [Journal]: the data that cross the interface of
      [uste-storage/src/journal.rs], the class [JournalStore] of its operations and
      the class [JournalLaws] of its promises.
    - [TxnGroup]: the transaction group codec of
      [uste-txn/src/lib.rs]; [TxnCoordinator]: that file and
      [commit_admission.rs] - admission, commit, outcomes, replay, opening;
      [TxnRecovery]: opening from a checkpoint seed and from a prepared suffix.
    - [TxnGuarantees]: the memory of a coordinator is the replay of its durable
      log, commits are atomic and exactly-once, recovery is exact;
      [TxnRecoveryFacts]: a seeded recovery is a full replay; [TxnGraph]: the graph
      reducer under the coordinator; [TxnSamples]: a journal
      in memory with a script of faults that keeps [JournalLaws], and the
      executions of the witnesses.

    - [Envelope]: [uste-crypto/src/{context,key,envelope}.rs] -
      contexts, padded envelopes, key vaults; what is sealed opens, nonces are
      unique.
    - [FileSystem]: the adapter interface and checked loops of
      [uste-storage/src/adapter.rs]; [MemoryFs]: [memory.rs] - volatile and durable
      contents, restart; [FaultFs]: [fault.rs] - planned faults and crashes;
      [FileSystemFacts]: what a checked write leaves under any faults.
    - [JournalFormat]: the records, contexts and names of
      [uste-storage/src/journal.rs]; [JournalStore]: its writer - append, rollover,
      inventories, with the blob verification of [blob.rs]; [JournalRecovery]:
      creation, the recovery scan and reopening.
    - Crash safety of that journal: [StoreDisk]: the class of file systems that do
      what the memory file system does or fail, with the memory file system and
      its fault-injecting wrapper as instances, and what the files of a
      directory hold in memory and durably, and what each call changes;
      [StoreCalls]: weakest preconditions of journal programs and a rule per call;
      [StoreLog]: the files a log of commits builds and when a directory holds
      them, and when changes of files keep that; [StoreScan],
      [StoreOpen], [StoreAppend]: the recovery scan, reopening,
      appending and creation over it; [StoreLifetime]: every history of creation,
      appends, faults, restarts and reopenings is explained by the log read back;
      [StoreSamples]: the run of its witnesses.  These theorems are about groups
      without blobs.

    - [SpatialModel]: [uste-types/src/spatial.rs] - versions and fixed-point
      coordinates - and [uste-spatial/src/model.rs] - worlds, frames, geometries,
      observations; [SpatialCodec]: [codec.rs], with
      [SpatialCodecExact]: a record has one encoding.
    - [SpatialCatalog]: [catalog.rs] - batches staged as an overlay, validation,
      publication, reads as of a revision; [SpatialAdmit]: the overlay computes
      what admitting the records one by one would; [SpatialInvariant]: histories
      are chains of versions and every record passes its check in the catalog as of
      its revision.
    - [SpatialState]: [state.rs] - transactions, the reducer, checkpoints;
      [SpatialDurable]: a checkpoint rebuilds the catalog batch by
      batch; [SpatialGuarantees]: reachable states, restored
      ones included, and what holds of them - frames are rooted, history is stable,
      retries change nothing, checkpoints round-trip; [TxnSpatial]: the spatial
      reducer under the coordinator; [SpatialSamples]: the space the witnesses use.
      [rebuild] takes as many iterations as there are entries, and
      [spatial_restore_total] shows that they are enough.

    - [IngestModel]: [uste-ingest/src/model.rs] - bindings, import checkpoints and
      batches; [IngestCodec]: [codec.rs] - engine transactions and the exactness of
      their codec; [IngestState], [IngestCheckpoint]: [state.rs] - the reducer that
      commits a graph transaction, a spatial transaction and the ledger of import
      jobs together, its requirements, reads and checkpoints.
    - [IngestInvariant]: the invariant of the reducer - what a graph commit does
      to it, the receipts of a job, the ledger, the references of the retained
      spatial records; [IngestCommit]: every transaction that was prepared
      publishes, keeps it and has exactly its effect; [IngestDurable]: what the
      checkpoint encoder writes the decoder reads; [IngestGuarantees]: reachable
      states - commits are exact, the ledger accounts for every row, no row is
      imported twice, checkpoints restore - and the reducer under the coordinator;
      [IngestSamples]: the import its witnesses run.

    ** Modelling conventions
    - A [w]-bit integer is a [Z]; [checked_add], [saturating_add] and the like
      carry the width.  [usize] is 64 bits wide.
    - [Result] is [result E T]; a panic ([expect], [assert!]) is the [None] of an
      [option].  Allocation failure is not modelled.
    - Mutable structures are passed and returned.  A write through [get_mut] is
      an insertion at the same key.
    - SHA-256 is third-party code: a section variable [sha256] over which the
      theorems quantify.  The jiff time library is the class [Jiff], with the
      behaviour its documentation promises in [JiffLaws]; [TimeFacts] gives an
      instance that satisfies the laws.
    - A bounded search or loop of the code keeps its own bound as fuel
      ([search_local] the four rounds of the code, [dec_loop] the twenty digits of
      a 64-bit number).
    - The coordinator is generic in its reducer (class [TransactionState], laws
      [TransactionStateLaws]) and its journal ([JournalStore], [JournalLaws]).
      The clock and the cancellation source are arguments: their answers in the
      order the code asks.  An append may fail before or after its group became
      durable; the laws say no more than that, and a log in use is opened again only
      after its handle was closed, which is where Rust drops the guard.  The laws are
      assumptions of the theorems about the coordinator: they also speak of appends
      with blob inventories, which the crash-safety theorems of [StoreLifetime] leave
      out, so the modelled store is not declared an instance of them.

    - The cipher and the key derivation are the class [Aead] (laws [AeadLaws]),
      random bytes the class [EntropySource] (laws [EntropyLaws]), the key wrapping
      the class [KeyAdapter]; sample instances keep the laws.  The checked read and
      write loops of the storage adapter may be interrupted any number of times and
      take fuel; under a plan of faults the length of the data and the size of the
      plan bound it.  Journal programs are in [eff], a state with failures where
      [None] is fuel that ran out.  A guard is dropped by [drop_guard] where Rust
      drops it.

    ** Not modelled
    Storage indexes, the disk-backed and bounded modes of the journal and the
    coordinator, password wrapping, the Linux adapter,
    the memory layer, replay, command-line tools, tests and experiments; the
    manifest lists each with its reason. *)

From Stdlib Require Export Strings.Byte ZArith Lia Sorted.
From stdpp Require Export strings base tactics decidable numbers option list lexico
  sorting gmap sets fin_maps fin_map_dom.

#[global] Open Scope Z_scope.
#[global] Set Default Goal Selector "!".

(** ** Results

    Rust's [Result<T, E>], with the error type first so that [result E] is a
    monad and stdpp's [x ← e; k] notation is the [?] operator. *)
Inductive result (E T : Type) : Type :=
| Ok (t : T)
| Err (e : E).
Arguments Ok {E T} t.
Arguments Err {E T} e.

#[global] Instance result_ret {E} : MRet (result E) := λ T t, Ok t.
#[global] Instance result_bind {E} : MBind (result E) := λ T U f m,
  match m with Ok t => f t | Err e => Err e end.
Lemma result_bind_Ok {E T U} (t : T) (f : T → result E U) : (Ok t ≫= f) = f t.
Proof. done. Qed.
#[global] Instance result_fmap {E} : FMap (result E) := λ T U f m,
  match m with Ok t => Ok (f t) | Err e => Err e end.

(** [Result::map_err] and [Option::ok_or]. *)
Definition map_err {E E' T} (f : E → E') (m : result E T) : result E' T :=
  match m with Ok t => Ok t | Err e => Err (f e) end.
Definition ok_or {E T} (o : option T) (e : E) : result E T :=
  match o with Some t => Ok t | None => Err e end.
Definition is_ok {E T} (m : result E T) : bool :=
  match m with Ok _ => true | Err _ => false end.

#[global] Instance result_eq_dec {E T} `{EqDecision E, EqDecision T} :
  EqDecision (result E T).
Proof. solve_decision. Defined.

Section result_lemmas.
Context {E T U : Type}.
Implicit Types (m : result E T) (f : T → result E U).

Lemma bind_Ok m f u : m ≫= f = Ok u ↔ ∃ t, m = Ok t ∧ f t = Ok u.
Proof. destruct m; simpl; naive_solver. Qed.
Lemma bind_Err m f e :
  m ≫= f = Err e ↔ m = Err e ∨ ∃ t, m = Ok t ∧ f t = Err e.
Proof. destruct m; simpl; naive_solver. Qed.
Lemma fmap_Ok m (g : T → U) u : g <$> m = Ok u ↔ ∃ t, m = Ok t ∧ u = g t.
Proof. destruct m; simpl; naive_solver. Qed.
Lemma map_err_Ok {E'} m (g : E → E') t : map_err g m = Ok t ↔ m = Ok t.
Proof. destruct m; simpl; naive_solver. Qed.
Lemma ok_or_Ok (o : option T) (e : E) t : ok_or o e = Ok t ↔ o = Some t.
Proof. destruct o; simpl; naive_solver. Qed.
End result_lemmas.

(** Invert every successful bind, [map], [map_err], [ok_or] and guard of the
    context. *)
Ltac inv_step :=
  match goal with
  | H : mbind _ _ = Ok _ |- _ =>
      apply bind_Ok in H; destruct H as (? & ? & ?)
  | H : fmap _ _ = Ok _ |- _ =>
      apply fmap_Ok in H; destruct H as (? & ? & ?)
  | H : map_err _ _ = Ok _ |- _ => apply map_err_Ok in H
  | H : ok_or _ _ = Ok _ |- _ => apply ok_or_Ok in H
  | H : Ok _ = Ok _ |- _ => injection H as H
  | H : Err _ = Err _ |- _ => injection H as H
  | H : Ok _ = Err _ |- _ => discriminate H
  | H : Err _ = Ok _ |- _ => discriminate H
  | H : context [if ?b then _ else _] |- _ =>
      match type of H with
      | _ = Ok _ => destruct b eqn:?
      end
  end.
Ltac inv_ok := repeat (inv_step; simplify_eq).

(** ** Machine integers

    A [w]-bit integer is a [Z]; the width only appears where the source
    checks, saturates or truncates.  [usize] is 64 bits wide. *)
Definition U64_MAX : Z := 2 ^ 64 - 1.
Definition USIZE_MAX : Z := U64_MAX.
Definition U32_MAX : Z := 2 ^ 32 - 1.
Definition U128_MAX : Z := 2 ^ 128 - 1.
Definition I128_MAX : Z := 2 ^ 127 - 1.
Definition I64_MIN : Z := - 2 ^ 63.
Definition I64_MAX : Z := 2 ^ 63 - 1.

(** [checked_add], [checked_sub] and [saturating_add] on [u64]/[usize]. *)
Definition checked_add (a b : Z) : option Z :=
  if a + b <=? U64_MAX then Some (a + b) else None.
Definition checked_sub (a b : Z) : option Z :=
  if b <=? a then Some (a - b) else None.
Definition saturating_add (a b : Z) : Z := Z.min (a + b) U64_MAX.

(** The length of a [Vec] or slice as a [usize]. *)
Definition zlen {A} (l : list A) : Z := Z.of_nat (length l).

Lemma zlen_nonneg {A} (l : list A) : 0 ≤ zlen l.
Proof. unfold zlen. lia. Qed.
Lemma zlen_nil {A} : zlen (@nil A) = 0.
Proof. done. Qed.
Lemma zlen_cons {A} (x : A) l : zlen (x :: l) = 1 + zlen l.
Proof. unfold zlen. simpl. lia. Qed.
Lemma zlen_app {A} (l k : list A) : zlen (l ++ k) = zlen l + zlen k.
Proof. unfold zlen. rewrite length_app. lia. Qed.

(** Lengths in statements, in a scope of their own. *)
Declare Scope uste_scope.
Delimit Scope uste_scope with uste.
Notation "'‖' l '‖'" := (zlen l) (at level 0, format "'‖' l '‖'") : uste_scope.

(** [uste]: facts that close side conditions; [uste_len]: computes lengths. *)
Create HintDb uste discriminated.
#[export] Hint Resolve zlen_nonneg : uste.
Create Rewrite HintDb uste_len.
#[export] Hint Rewrite @zlen_nil @zlen_cons @zlen_app : uste_len.
(** Solve a goal about lengths of concatenations. *)
Ltac lens :=
  autorewrite with uste_len in *;
  repeat match goal with
  | l : list _ |- _ => learn_nonneg l
  end; lia
with learn_nonneg l :=
  lazymatch goal with
  | H : 0 ≤ zlen l |- _ => fail
  | _ => pose proof (zlen_nonneg l)
  end.

(** ** Bytes *)
#[global] Instance byte_eq_dec : EqDecision byte := Byte.byte_eq_dec.
#[global] Instance byte_countable : Countable byte.
Proof. by apply (inj_countable Byte.to_N Byte.of_N), Byte.of_to_N. Defined.
#[global] Instance byte_lexico : Lexico byte := λ a b,
  (Byte.to_N a < Byte.to_N b)%N.
#[global] Instance byte_lexico_po : StrictOrder (@lexico byte _).
Proof.
  unfold lexico, byte_lexico. split.
  - intros a Ha. lia.
  - intros a b c ??. lia.
Qed.
#[global] Instance byte_lexico_trichotomy : TrichotomyT (@lexico byte _).
Proof.
  red; refine (λ a b,
    match N.compare (Byte.to_N a) (Byte.to_N b) as c
      return N.compare (Byte.to_N a) (Byte.to_N b) = c → _ with
    | Lt => λ H, inleft (left (proj2 (N.compare_lt_iff _ _) H))
    | Eq => λ H, inleft (right _)
    | Gt => λ H, inright (proj1 (N.compare_gt_iff _ _) H)
    end eq_refl).
  abstract (apply N.compare_eq in H; apply (f_equal Byte.of_N) in H;
    rewrite !Byte.of_to_N in H; congruence).
Defined.

(** [u8 b] is the byte as an integer, [byte_of z] the truncating cast
    [z as u8]. *)
Definition u8 (b : byte) : Z := Z.of_N (Byte.to_N b).
Definition byte_of (z : Z) : byte :=
  default x00 (Byte.of_N (Z.to_N (z mod 256))).

Lemma u8_range b : 0 ≤ u8 b < 256.
Proof. unfold u8. pose proof (Byte.to_N_bounded b). lia. Qed.
Lemma byte_of_u8 b : byte_of (u8 b) = b.
Proof.
  unfold byte_of. rewrite Z.mod_small by apply u8_range.
  unfold u8. by rewrite N2Z.id, Byte.of_to_N.
Qed.
Lemma u8_byte_of z : u8 (byte_of z) = z mod 256.
Proof.
  unfold byte_of, u8. pose proof (Z.mod_pos_bound z 256 ltac:(lia)).
  destruct (Byte.of_N _) as [b|] eqn:Hb; simpl.
  - apply Byte.to_of_N in Hb. lia.
  - apply Byte.of_N_None_iff in Hb. lia.
Qed.
Lemma u8_inj a b : u8 a = u8 b → a = b.
Proof. intros H. by rewrite <-(byte_of_u8 a), H, byte_of_u8. Qed.

(** ** Ordered iteration

    [BTreeMap] and [BTreeSet] are [gmap] and [gset]; where the source iterates
    in key order, [btree_entries] and [btree_elements] list the contents
    sorted by the key order [lexico] (the derived [Ord] of the key type). *)
Section btree.
Context `{Countable K, Lexico K, !TrichotomyT (@lexico K _),
  !StrictOrder (@lexico K _)}.

Definition key_le (x y : K) : Prop := ¬ lexico y x.
#[global] Instance key_le_dec : RelDecision key_le.
Proof. unfold key_le. solve_decision. Defined.
#[global] Instance key_le_trans : Transitive key_le.
Proof.
  intros x y z Hxy Hyz Hzx. unfold key_le in *.
  destruct (trichotomyT lexico x y) as [[?| ->]|?]; [|tauto..].
  apply Hyz. by trans x.
Qed.
#[global] Instance key_le_total : Total key_le.
Proof.
  intros x y. unfold key_le. destruct (decide (lexico y x)) as [Hyx|]; [|auto].
  right. intros Hxy. apply (irreflexivity lexico x). by trans y.
Qed.
#[global] Instance key_le_antisym : AntiSymm (=) key_le.
Proof.
  intros x y. unfold key_le. destruct (trichotomyT lexico x y) as [[?| ->]|?]; tauto.
Qed.
Lemma key_le_ne x y : key_le x y → x ≠ y → lexico x y.
Proof.
  unfold key_le. destruct (trichotomyT lexico x y) as [[?| ->]|?]; tauto.
Qed.

Definition btree_elements (s : gset K) : list K :=
  merge_sort key_le (elements s).

Lemma btree_elements_Permutation s : btree_elements s ≡ₚ elements s.
Proof. apply merge_sort_Permutation. Qed.
Lemma elem_of_btree_elements s x : x ∈ btree_elements s ↔ x ∈ s.
Proof. by rewrite btree_elements_Permutation, elem_of_elements. Qed.
Lemma btree_elements_NoDup s : NoDup (btree_elements s).
Proof. rewrite btree_elements_Permutation. apply NoDup_elements. Qed.

Lemma key_le_sorted_strict (l : list K) :
  StronglySorted key_le l → NoDup l → StronglySorted lexico l.
Proof.
  induction 1 as [|x l Hl IH Hx]; [constructor|].
  rewrite NoDup_cons. intros [Hnin ?]. constructor; [auto|].
  rewrite Forall_forall in Hx |- *. intros y Hy. apply key_le_ne; [auto|].
  by intros ->.
Qed.
Lemma btree_elements_sorted s : StronglySorted lexico (btree_elements s).
Proof.
  apply key_le_sorted_strict; [|apply btree_elements_NoDup].
  apply StronglySorted_merge_sort; apply _.
Qed.

Lemma sorted_strict_NoDup (l : list K) : StronglySorted lexico l → NoDup l.
Proof.
  induction 1 as [|x l Hl IH Hx]; constructor; [|done].
  intros Hin. rewrite Forall_forall in Hx.
  by apply (irreflexivity lexico x), Hx.
Qed.
Lemma sorted_strict_le (l : list K) : StronglySorted lexico l → StronglySorted key_le l.
Proof.
  induction 1 as [|x l Hl IH Hx]; constructor; [done|].
  apply (Forall_impl _ _ _ Hx). intros y Hxy Hyx.
  apply (irreflexivity lexico x). by trans y.
Qed.
(** A strictly sorted list is determined by its elements. *)
Lemma sorted_strict_unique (l k : list K) :
  StronglySorted lexico l → StronglySorted lexico k →
  (∀ x, x ∈ l ↔ x ∈ k) → l = k.
Proof.
  intros Hl Hk Hlk.
  apply (StronglySorted_unique key_le); [by apply sorted_strict_le..|].
  apply NoDup_Permutation; [by apply sorted_strict_NoDup..|done].
Qed.

Context {V : Type}.
Implicit Types (m : gmap K V).

Definition entry_le (x y : K * V) : Prop := key_le x.1 y.1.
#[global] Instance entry_le_dec : RelDecision entry_le.
Proof. unfold entry_le. solve_decision. Defined.
#[global] Instance entry_le_trans : Transitive entry_le.
Proof. intros x y z ??. unfold entry_le in *. by trans (y.1). Qed.
#[global] Instance entry_le_total : Total entry_le.
Proof. intros x y. apply (total key_le). Qed.

Definition btree_entries m : list (K * V) :=
  merge_sort entry_le (map_to_list m).
Definition btree_keys m : list K := (btree_entries m).*1.
Definition btree_values m : list V := (btree_entries m).*2.

Lemma btree_entries_Permutation m : btree_entries m ≡ₚ map_to_list m.
Proof. apply merge_sort_Permutation. Qed.
Lemma elem_of_btree_entries m k v : (k, v) ∈ btree_entries m ↔ m !! k = Some v.
Proof. by rewrite btree_entries_Permutation, elem_of_map_to_list. Qed.
Lemma btree_keys_NoDup m : NoDup (btree_keys m).
Proof.
  unfold btree_keys. rewrite btree_entries_Permutation.
  apply NoDup_fst_map_to_list.
Qed.
Lemma elem_of_btree_keys m k : k ∈ btree_keys m ↔ is_Some (m !! k).
Proof.
  unfold btree_keys. rewrite list_elem_of_fmap. split.
  - intros ([k' v] & -> & ?%elem_of_btree_entries). by eexists.
  - intros [v ?%elem_of_btree_entries]. by exists (k, v).
Qed.
Lemma elem_of_btree_values m v : v ∈ btree_values m ↔ ∃ k, m !! k = Some v.
Proof.
  unfold btree_values. rewrite list_elem_of_fmap. split.
  - intros ([k' v'] & -> & ?%elem_of_btree_entries). by eexists.
  - intros [k ?%elem_of_btree_entries]. by exists (k, v).
Qed.
Lemma btree_keys_sorted m : StronglySorted lexico (btree_keys m).
Proof.
  apply key_le_sorted_strict; [|apply btree_keys_NoDup].
  unfold btree_keys, btree_entries.
  assert (StronglySorted entry_le (merge_sort entry_le (map_to_list m))) as Hs
    by (apply StronglySorted_merge_sort; apply _).
  induction Hs as [|x l Hl IH Hx]; simpl; constructor; [done|].
  rewrite Forall_fmap. apply (Forall_impl _ _ _ Hx). intros y. done.
Qed.
Lemma length_btree_entries m : length (btree_entries m) = size m.
Proof. by rewrite btree_entries_Permutation, length_map_to_list. Qed.
Lemma btree_entries_NoDup m : NoDup (btree_entries m).
Proof. rewrite btree_entries_Permutation. apply NoDup_map_to_list. Qed.
End btree.

(** ** Loops with early return

    [for x in l { ... ? }] over a mutable accumulator. *)
Section try_fold.
Context {E A S : Type} (f : S → A → result E S).
Fixpoint try_fold (l : list A) (s : S) : result E S :=
  match l with
  | [] => Ok s
  | a :: l => s' ← f s a; try_fold l s'
  end.
Lemma try_fold_app l k s :
  try_fold (l ++ k) s = (s' ← try_fold l s; try_fold k s').
Proof.
  revert s. induction l as [|a l IH]; intros s; [done|]. simpl.
  destruct (f s a); simpl; [apply IH|done].
Qed.
End try_fold.

(** [for x in l { check(x)?; }] without an accumulator. *)
Section try_each.
Context {E A : Type} (f : A → result E unit).
Fixpoint try_each (l : list A) : result E unit :=
  match l with
  | [] => Ok tt
  | a :: l => f a;; try_each l
  end.
Lemma try_each_Ok l : try_each l = Ok tt ↔ Forall (λ a, f a = Ok tt) l.
Proof.
  induction l as [|a l IH]; simpl; [by split|].
  rewrite Forall_cons, <-IH, bind_Ok. split; [|naive_solver].
  by intros ([] & -> & ->).
Qed.
Lemma try_each_app l k : try_each (l ++ k) = (try_each l;; try_each k).
Proof.
  induction l as [|a l IH]; simpl; [done|].
  destruct (f a); simpl; [apply IH|done].
Qed.
End try_each.

(** [slice.windows(2).any(p)]. *)
Fixpoint windows2_any {A} (p : A → A → bool) (l : list A) : bool :=
  match l with
  | a :: (b :: _) as rest => p a b || windows2_any p rest
  | _ => false
  end.
Lemma windows2_any_false {A} (p : A → A → bool) l :
  windows2_any p l = false ↔ Sorted (λ a b, p a b = false) l.
Proof.
  induction l as [|a [|b l] IH]; simpl; [split; auto..|].
  rewrite orb_false_iff. cbn in IH. split.
  - intros [? ?]. constructor; [by apply IH|]. by constructor.
  - intros [? Hhd]%Sorted_inv. apply HdRel_inv in Hhd. by rewrite IH.
Qed.

(** ** Lists of checked elements *)
Lemma forallb_Forall {A} (f : A → bool) l : forallb f l = true ↔ Forall (λ x, f x = true) l.
Proof.
  rewrite forallb_forall, Forall_forall. by setoid_rewrite <-list_elem_of_In.
Qed.
Lemma Forall_mp {A} (P Q : A → Prop) l : Forall (λ x, P x → Q x) l → Forall P l → Forall Q l.
Proof. intros H1 H2. induction H1; decompose_Forall_hyps; auto. Qed.

(** ** Text literals and fixed-width byte strings *)
Definition lit (s : string) : list byte := String.list_byte_of_string s.
Arguments lit s%_string_scope.

(** [uN::to_be_bytes] and [uN::from_be_bytes] for [n] bytes. *)
Fixpoint be_bytes (n : nat) (z : Z) : list byte :=
  match n with
  | O => []
  | S n => byte_of (z / 256 ^ Z.of_nat n) :: be_bytes n z
  end.
Definition of_be_bytes (bytes : list byte) : Z :=
  foldl (λ acc b, acc * 256 + u8 b) 0 bytes.

(** [slice.chunks_exact(n)]: the full chunks, the remainder dropped. *)
Fixpoint chunks_exact_loop {A} (fuel n : nat) (l : list A) : list (list A) :=
  match fuel with
  | O => []
  | S fuel =>
      if decide (n ≤ length l)%nat then take n l :: chunks_exact_loop fuel n (drop n l) else []
  end.
Definition chunks_exact {A} (n : nat) (l : list A) : list (list A) :=
  chunks_exact_loop (length l) n l.

(** [Vec::swap_remove]. *)
Definition swap_remove {A} (i : nat) (l : list A) : list A :=
  match last l with
  | Some x => take (length l - 1) (<[i := x]> l)
  | None => []
  end.

Lemma length_be_bytes n z : length (be_bytes n z) = n.
Proof. induction n as [|n IH]; simpl; congruence. Qed.
Lemma of_be_bytes_app l k :
  of_be_bytes (l ++ k) = of_be_bytes l * 256 ^ zlen k + of_be_bytes k.
Proof.
  unfold of_be_bytes. rewrite foldl_app. generalize (foldl (λ acc b, acc * 256 + u8 b) 0 l).
  induction k as [|b k IH] using rev_ind; intros z; [simpl; rewrite Z.mul_1_r; lia|].
  rewrite !foldl_app. simpl. rewrite IH, zlen_app. change (zlen [b]) with 1.
  rewrite Z.pow_add_r by (pose proof (zlen_nonneg k); lia). lia.
Qed.
Lemma of_be_bytes_be n z : 0 ≤ z < 256 ^ Z.of_nat n → of_be_bytes (be_bytes n z) = z.
Proof.
  revert z. induction n as [|n IH]; intros z Hz; [simpl in Hz; unfold of_be_bytes; simpl; lia|].
  rewrite Nat2Z.inj_succ, Z.pow_succ_r in Hz by lia.
  set (P := 256 ^ Z.of_nat n) in *. assert (0 < P) by (apply Z.pow_pos_nonneg; lia).
  assert (∀ k y, be_bytes k y = be_bytes k (y mod 256 ^ Z.of_nat k)) as Hmod.
  { clear. induction k as [|k IH]; intros y; [done|]. cbn [be_bytes]. f_equal.
    - assert (0 < 256 ^ Z.of_nat k) by (apply Z.pow_pos_nonneg; lia).
      rewrite Nat2Z.inj_succ, Z.pow_succ_r by lia.
      apply u8_inj. rewrite !u8_byte_of.
      rewrite (Z.mul_comm 256), Z.rem_mul_r by lia.
      rewrite (Z.mul_comm (256 ^ Z.of_nat k)), Z.div_add by lia.
      rewrite (Z.div_small (y mod _)) by (apply Z.mod_pos_bound; lia).
      rewrite Z.add_0_l, Z.mod_mod by lia. done.
    - rewrite (IH y), (IH (y mod 256 ^ Z.of_nat (S k))). apply (f_equal (be_bytes k)).
      rewrite Nat2Z.inj_succ, Z.pow_succ_r by lia.
      assert (0 < 256 ^ Z.of_nat k) by (apply Z.pow_pos_nonneg; lia).
      rewrite (Z.mul_comm 256), Z.rem_mul_r by lia.
      rewrite (Z.mul_comm (256 ^ Z.of_nat k)), Z.mod_add, Z.mod_mod by lia. done. }
  cbn [be_bytes]. change (byte_of (z / 256 ^ Z.of_nat n) :: be_bytes n z) with
    ([byte_of (z / P)] ++ be_bytes n z).
  rewrite of_be_bytes_app, (Hmod n z), IH by (apply Z.mod_pos_bound; lia).
  unfold zlen. rewrite length_be_bytes. fold P.
  change (of_be_bytes [byte_of (z / P)]) with (u8 (byte_of (z / P))).
  rewrite u8_byte_of, Z.mod_small.
  - rewrite (Z.div_mod z P) at 3 by lia. lia.
  - split; [apply Z.div_pos; lia|]. apply Z.div_lt_upper_bound; lia.
Qed.

Lemma of_be_bytes_range l : 0 ≤ of_be_bytes l < 256 ^ zlen l.
Proof.
  induction l as [|b l IH] using rev_ind; [by split|].
  rewrite of_be_bytes_app, zlen_app. change (zlen [b]) with 1.
  rewrite Z.pow_add_r by (pose proof (zlen_nonneg l); lia).
  change (of_be_bytes [b]) with (u8 b). pose proof (u8_range b). lia.
Qed.
Lemma of_be_bytes_inj l k : length l = length k → of_be_bytes l = of_be_bytes k → l = k.
Proof.
  revert k. induction l as [|b l IH] using rev_ind; intros k Hlen Heq.
  { by destruct k. }
  destruct k as [|c k _] using rev_ind; [rewrite length_app in Hlen; simpl in Hlen; lia|].
  rewrite !length_app in Hlen. rewrite !of_be_bytes_app in Heq. simpl in Hlen.
  change (zlen [b]) with 1 in Heq. change (zlen [c]) with 1 in Heq.
  change (of_be_bytes [b]) with (u8 b) in Heq. change (of_be_bytes [c]) with (u8 c) in Heq.
  pose proof (u8_range b). pose proof (u8_range c).
  f_equal; [apply IH; lia|]. f_equal. apply u8_inj. lia.
Qed.
Lemma be_bytes_of_be l : be_bytes (length l) (of_be_bytes l) = l.
Proof.
  apply of_be_bytes_inj; [apply length_be_bytes|]. apply of_be_bytes_be.
  pose proof (of_be_bytes_range l). unfold zlen in *. lia.
Qed.

(** ** Building sorted maps *)
Section btree_build.
Context `{Countable K, Lexico K, !TrichotomyT (@lexico K _), !StrictOrder (@lexico K _)}.
Context {V : Type}.
Implicit Types (m : gmap K V).

(** A strictly sorted entry list is determined by its elements. *)
Lemma sorted_entries_eq (l k : list (K * V)) :
  StronglySorted lexico l.*1 → StronglySorted lexico k.*1 → l ≡ₚ k → l = k.
Proof.
  revert k. induction l as [|[x v] l IH]; intros k Hl Hk Hp.
  { by apply Permutation_nil_l in Hp. }
  destruct k as [|[x' v'] k]; [by apply Permutation_nil_r in Hp|].
  rewrite !fmap_cons in *. apply StronglySorted_cons in Hl as [Hx Hl].
  apply StronglySorted_cons in Hk as [Hx' Hk]. rewrite Forall_forall in Hx, Hx'.
  assert (x = x') as <-.
  { destruct (decide (x = x')) as [|Hne]; [done|]. exfalso.
    assert (x ∈ ((x', v') :: k).*1) as H1' by (rewrite <-Hp; set_solver).
    assert (x' ∈ ((x, v) :: l).*1) as H2' by (rewrite Hp; set_solver).
    cbn in H1', H2'. apply elem_of_cons in H1' as [?|H1'], H2' as [?|H2']; try congruence.
    apply (irreflexivity lexico x). trans x'; [by apply Hx|by apply Hx']. }
  assert (v = v') as <-.
  { assert ((x, v) ∈ (x, v') :: k) as Hin by (rewrite <-Hp; set_solver).
    apply elem_of_cons in Hin as [?|Hin]; [congruence|]. exfalso.
    apply (irreflexivity lexico x), Hx'. apply list_elem_of_fmap. by exists (x, v). }
  f_equal. apply IH; [done..|]. by apply Permutation_cons_inv in Hp.
Qed.
Lemma btree_entries_unique m l :
  StronglySorted lexico l.*1 → l ≡ₚ map_to_list m → btree_entries m = l.
Proof.
  intros Hl Hp. apply sorted_entries_eq; [apply btree_keys_sorted|done|].
  by rewrite btree_entries_Permutation.
Qed.
(** Inserting above every key appends. *)
Lemma btree_entries_snoc m k v :
  Forall (λ k', lexico k' k) (btree_keys m) →
  btree_entries (<[k := v]> m) = btree_entries m ++ [(k, v)].
Proof.
  intros Hk. apply btree_entries_unique.
  - rewrite fmap_app. pose proof (btree_keys_sorted m) as Hs. unfold btree_keys in *.
    revert Hs Hk. generalize (btree_entries m). intros l Hs Hk.
    induction l as [|[k' v'] l IH]; [by repeat constructor|].
    rewrite fmap_cons in *. cbn [app]. apply StronglySorted_cons in Hs as [Hh Hs].
    apply Forall_cons in Hk as [Hk' Hk]. apply StronglySorted_cons. split; [|by apply IH].
    apply Forall_app. split; [done|]. by repeat constructor.
  - rewrite map_to_list_insert.
    + by rewrite btree_entries_Permutation, Permutation_app_comm.
    + destruct (m !! k) as [v'|] eqn:Hm; [|done].
      rewrite Forall_forall in Hk. exfalso. apply (irreflexivity lexico k), Hk.
      apply elem_of_btree_keys. by eexists.
Qed.
Lemma btree_entries_empty : btree_entries (∅ : gmap K V) = [].
Proof. unfold btree_entries. by rewrite map_to_list_empty. Qed.
Lemma btree_entries_inj m1 m2 : btree_entries m1 = btree_entries m2 → m1 = m2.
Proof.
  intros Heq. apply map_eq. intros k. apply option_eq. intros v.
  by rewrite <-!elem_of_btree_entries, Heq.
Qed.
End btree_build.

(** ** Exact chunks *)
Lemma chunks_exact_loop_app {A} fuel n (l k : list A) :
  (0 < n)%nat → length l = n → (length l + length k ≤ fuel)%nat →
  chunks_exact_loop fuel n (l ++ k) = l :: chunks_exact_loop (fuel - 1) n k.
Proof.
  intros Hn Hl Hf. destruct fuel as [|fuel]; [lia|]. cbn [chunks_exact_loop].
  rewrite decide_True by (rewrite length_app; lia).
  rewrite <-Hl, take_app_length, drop_app_length. do 2 f_equal. lia.
Qed.
Lemma chunks_exact_loop_fuel {A} f1 f2 n (l : list A) :
  (0 < n)%nat → (length l ≤ f1)%nat → (length l ≤ f2)%nat →
  chunks_exact_loop f1 n l = chunks_exact_loop f2 n l.
Proof.
  intros Hn. revert f2 l. induction f1 as [|f1 IH]; intros [|f2] l H1 H2; try done.
  - cbn. rewrite decide_False by lia. done.
  - cbn. rewrite decide_False by lia. done.
  - cbn. case_decide; [|done]. f_equal. apply IH; rewrite length_drop; lia.
Qed.
Lemma chunks_exact_concat {A} n (ls : list (list A)) :
  (0 < n)%nat → Forall (λ l, length l = n) ls → chunks_exact n (concat ls) = ls.
Proof.
  intros Hn Hls. unfold chunks_exact. induction Hls as [|l ls Hl Hls IH]; [done|].
  cbn [concat]. rewrite chunks_exact_loop_app by (try done; rewrite length_app; lia).
  f_equal. etransitivity; [|exact IH]. apply chunks_exact_loop_fuel; [done| |done].
  rewrite length_app. lia.
Qed.
Lemma chunks_exact_inv {A} n (l : list A) :
  (0 < n)%nat → (Nat.modulo (length l) n = 0)%nat →
  concat (chunks_exact n l) = l ∧ Forall (λ c, length c = n) (chunks_exact n l).
Proof.
  intros Hn. unfold chunks_exact.
  assert (∀ fuel (l : list A), (length l ≤ fuel)%nat → (length l mod n = 0)%nat →
    concat (chunks_exact_loop fuel n l) = l ∧
    Forall (λ c, length c = n) (chunks_exact_loop fuel n l)) as Hgen; [|by apply Hgen].
  clear l. induction fuel as [|fuel IH]; intros l Hf Hm; cbn.
  - destruct l; [|simpl in Hf; lia]. split; [done|constructor].
  - case_decide as Hd.
    + destruct (IH (drop n l)) as [Hc Hall].
      * rewrite length_drop. lia.
      * rewrite length_drop. apply Nat.Div0.mod_divides in Hm as [q Hq].
        apply Nat.Div0.mod_divides. exists (q - 1)%nat. nia.
      * cbn. rewrite Hc, take_drop. split; [done|]. constructor; [|done].
        rewrite length_take. lia.
    + rewrite Nat.mod_small in Hm by lia. destruct l; [|simpl in Hm; lia].
      split; [done|constructor].
Qed.

(** In a sorted list the last element bounds the others. *)
Lemma sorted_last_below {K} (R : relation K) `{!StrictOrder R} (l : list K) k :
  StronglySorted R l →
  match last l with Some x => R x k | None => True end ↔ Forall (λ x, R x k) l.
Proof.
  intros Hs. destruct l as [|y l _] using rev_ind; [by split|].
  rewrite last_snoc, Forall_app, Forall_singleton. split; [|tauto]. intros Hy. split; [|done].
  rewrite Forall_forall. intros x Hx.
  assert (R x y); [|by trans y]. clear Hy.
  induction l as [|z l IH]; [by apply not_elem_of_nil in Hx|].
  cbn in Hs. apply StronglySorted_cons in Hs as [Hz Hs].
  apply elem_of_cons in Hx as [->|Hx]; [|by apply IH].
  rewrite Forall_forall in Hz. apply Hz. set_solver.
Qed.
