(* ===== verification/Ids.v ===== *)
(** * Identities, revisions and instants

    Models [crates/uste-types/src/id.rs], [revision.rs] and [instant.rs]: the
    six opaque 128-bit identities generated by [identity_type!], their textual
    form, the scoped references of [scoped_reference!], the committed revision
    counter and the [posix-utc-v1] instant.

    Every [identity_type!] instance is one kind of [identity]; the kind carries
    the macro's prefix and tag.  The [u8; 16] payload is a byte list;
    [identity_ok] is its length, which the array type gives in the source. *)
From S2P Require Import Prelude.


(** ** The identity kinds of [identity_type!] *)
Inductive id_kind : Set :=
| KDatabase | KNamespace | KRecord | KTransaction | KSourceEvent | KIdempotency.

Definition id_prefix (k : id_kind) : list byte :=
  String.list_byte_of_string
    match k with
    | KDatabase => "db_"%string
    | KNamespace => "ns_"%string
    | KRecord => "rec_"%string
    | KTransaction => "txn_"%string
    | KSourceEvent => "src_"%string
    | KIdempotency => "idem_"%string
    end.
Definition id_tag (k : id_kind) : byte :=
  match k with
  | KDatabase => x01
  | KNamespace => x02
  | KRecord => x03
  | KTransaction => x04
  | KSourceEvent => x05
  | KIdempotency => x06
  end.

(** [pub struct $name([u8; 16])], indexed by its kind so that two identity
    types are never interchanged. *)
Record identity (k : id_kind) : Set := from_bytes { as_bytes : list byte }.
Arguments from_bytes {k} _.
Arguments as_bytes {k} _.
Abbreviation DatabaseId := (identity KDatabase).
Abbreviation NamespaceId := (identity KNamespace).
Abbreviation RecordId := (identity KRecord).
Abbreviation TransactionId := (identity KTransaction).
Abbreviation SourceEventId := (identity KSourceEvent).
Abbreviation IdempotencyKey := (identity KIdempotency).

Definition identity_ok {k} (i : identity k) : Prop := length (as_bytes i) = 16%nat.

#[global] Instance identity_eq_dec k : EqDecision (identity k).
Proof. solve_decision. Defined.
#[global] Instance identity_countable k : Countable (identity k).
Proof. by apply (inj_countable' as_bytes from_bytes); intros []. Defined.
#[global] Instance identity_ok_dec {k} (i : identity k) : Decision (identity_ok i).
Proof. unfold identity_ok. apply _. Defined.

(** The derived [Ord]: lexicographic on the bytes. *)
#[global] Instance identity_lexico k : Lexico (identity k) := λ a b,
  lexico (as_bytes a) (as_bytes b).
#[global] Instance identity_lexico_po k : StrictOrder (@lexico (identity k) _).
Proof.
  unfold lexico, identity_lexico. split.
  - intros a Ha. by apply (irreflexivity lexico (as_bytes a)).
  - intros a b c ??. by trans (as_bytes b).
Qed.
#[global] Instance identity_lexico_trichotomy k : TrichotomyT (@lexico (identity k) _).
Proof.
  red; refine (λ a b, cast_trichotomy (trichotomyT lexico (as_bytes a) (as_bytes b)));
    abstract (destruct a, b; simpl in *; unfold lexico, identity_lexico; simpl;
      congruence || done).
Defined.

(** ** Text form *)
Inductive IdentityParseError : Set := IdentityParseError_.

(** [{byte:02x}]: two lowercase hexadecimal digits. *)
Definition hex_digit (n : Z) : byte :=
  if n <? 10 then byte_of (u8 x30 + n) else byte_of (u8 x61 + (n - 10)).
Definition byte_hex (b : byte) : list byte :=
  [hex_digit (u8 b / 16); hex_digit (u8 b mod 16)].
Definition identity_display {k} (i : identity k) : list byte :=
  id_prefix k ++ flat_map byte_hex (as_bytes i).

Definition lowercase_hex (b : byte) : option Z :=
  let c := u8 b in
  if (u8 x30 <=? c) && (c <=? u8 x39) then Some (c - u8 x30)
  else if (u8 x61 <=? c) && (c <=? u8 x66) then Some (c - u8 x61 + 10)
  else None.

Fixpoint strip_prefix (p s : list byte) : option (list byte) :=
  match p, s with
  | [], _ => Some s
  | b :: p, c :: s => if decide (b = c) then strip_prefix p s else None
  | _ :: _, [] => None
  end.

(** The loop over [chunks_exact(2)]; a trailing odd byte is not visited. *)
Fixpoint parse_hex_pairs (digits : list byte) : result IdentityParseError (list byte) :=
  match digits with
  | a :: b :: rest =>
      high ← ok_or (lowercase_hex a) IdentityParseError_;
      low ← ok_or (lowercase_hex b) IdentityParseError_;
      bytes ← parse_hex_pairs rest;
      Ok (byte_of (Z.lor (Z.shiftl high 4) low) :: bytes)
  | _ => Ok []
  end.

Definition parse_identity (value prefix : list byte) :
    result IdentityParseError (list byte) :=
  encoded ← ok_or
    (digits ← strip_prefix prefix value;
     if decide (length digits = 32%nat) then Some digits else None)
    IdentityParseError_;
  parse_hex_pairs encoded.

Definition identity_from_str (k : id_kind) (value : list byte) :
    result IdentityParseError (identity k) :=
  from_bytes <$> parse_identity value (id_prefix k).

(** ** Scoped references *)
Record NamespaceRef : Set := NamespaceRef_new {
  ns_database : DatabaseId;
  ns_namespace : NamespaceId
}.

(** [scoped_reference!]: a scope and one identity. *)
Record scoped_ref (k : id_kind) : Set := scoped {
  ref_scope : NamespaceRef;
  ref_id : identity k
}.
Arguments scoped {k} _ _.
Arguments ref_scope {k} _.
Arguments ref_id {k} _.
Abbreviation RecordRef := (scoped_ref KRecord).
Abbreviation TransactionRef := (scoped_ref KTransaction).
Abbreviation SourceEventRef := (scoped_ref KSourceEvent).

Definition scoped_ref_new {k} (d : DatabaseId) (n : NamespaceId) (i : identity k) :
    scoped_ref k := scoped (NamespaceRef_new d n) i.
Definition ref_database {k} (r : scoped_ref k) : DatabaseId := ns_database (ref_scope r).
Definition ref_namespace {k} (r : scoped_ref k) : NamespaceId := ns_namespace (ref_scope r).

Definition scope_ok (n : NamespaceRef) : Prop :=
  identity_ok (ns_database n) ∧ identity_ok (ns_namespace n).
Definition ref_ok {k} (r : scoped_ref k) : Prop :=
  scope_ok (ref_scope r) ∧ identity_ok (ref_id r).
#[global] Instance scope_ok_dec n : Decision (scope_ok n).
Proof. unfold scope_ok. apply _. Defined.
#[global] Instance ref_ok_dec {k} (r : scoped_ref k) : Decision (ref_ok r).
Proof. unfold ref_ok. apply _. Defined.

#[global] Instance NamespaceRef_eq_dec : EqDecision NamespaceRef.
Proof. solve_decision. Defined.
#[global] Instance NamespaceRef_countable : Countable NamespaceRef.
Proof.
  by apply (inj_countable' (λ n, (ns_database n, ns_namespace n))
    (λ p, NamespaceRef_new p.1 p.2)); intros [].
Defined.
#[global] Instance scoped_ref_eq_dec k : EqDecision (scoped_ref k).
Proof. solve_decision. Defined.
#[global] Instance scoped_ref_countable k : Countable (scoped_ref k).
Proof.
  by apply (inj_countable' (λ r, (ref_scope r, ref_id r))
    (λ p, scoped p.1 p.2)); intros [].
Defined.

#[global] Instance NamespaceRef_lexico : Lexico NamespaceRef := λ a b,
  lexico (ns_database a, ns_namespace a) (ns_database b, ns_namespace b).
#[global] Instance NamespaceRef_lexico_po : StrictOrder (@lexico NamespaceRef _).
Proof.
  split.
  - intros a. apply (irreflexivity (@lexico (DatabaseId * NamespaceId) _)).
  - intros a b c. apply (transitivity (R := @lexico (DatabaseId * NamespaceId) _)).
Qed.
#[global] Instance NamespaceRef_lexico_trichotomy : TrichotomyT (@lexico NamespaceRef _).
Proof.
  red; refine (λ a b, cast_trichotomy (trichotomyT lexico
    (ns_database a, ns_namespace a) (ns_database b, ns_namespace b)));
    abstract (first [assumption | destruct a, b; simpl in *; congruence]).
Defined.
#[global] Instance scoped_ref_lexico k : Lexico (scoped_ref k) := λ a b,
  lexico (ref_scope a, ref_id a) (ref_scope b, ref_id b).
#[global] Instance scoped_ref_lexico_po k : StrictOrder (@lexico (scoped_ref k) _).
Proof.
  split.
  - intros a. apply (irreflexivity (@lexico (NamespaceRef * identity k) _)).
  - intros a b c. apply (transitivity (R := @lexico (NamespaceRef * identity k) _)).
Qed.
#[global] Instance scoped_ref_lexico_trichotomy k : TrichotomyT (@lexico (scoped_ref k) _).
Proof.
  red; refine (λ a b, cast_trichotomy (trichotomyT lexico
    (ref_scope a, ref_id a) (ref_scope b, ref_id b)));
    abstract (first [assumption | destruct a, b; simpl in *; congruence]).
Defined.

(** ** Revisions

    A [NonZeroU64] newtype is a [Z] with [nonzero_u64] as its type invariant;
    [CommitRevision], [RecordVersion], [SpatialVersion] and [PolicyVersion]
    all have this shape. *)
Definition nonzero_u64 (z : Z) : Prop := 1 ≤ z ≤ U64_MAX.
#[global] Instance nonzero_u64_dec z : Decision (nonzero_u64 z).
Proof. unfold nonzero_u64. apply _. Defined.
Abbreviation CommitRevision := Z (only parsing).

Inductive CommitRevisionError : Set :=
| RevisionZero
| RevisionExhausted.

Definition CommitRevision_FIRST : CommitRevision := 1.
Definition CommitRevision_new (value : Z) : result CommitRevisionError CommitRevision :=
  if value =? 0 then Err RevisionZero else Ok value.
Definition CommitRevision_checked_next (r : CommitRevision) :
    result CommitRevisionError CommitRevision :=
  match checked_add r 1 with
  | Some value => CommitRevision_new value
  | None => Err RevisionExhausted
  end.

(** ** Instants *)
Definition MIN_EPOCH_SECONDS : Z := -62135596800.
Definition MAX_EPOCH_SECONDS : Z := 253402300799.

Record UtcInstant : Set := mk_instant {
  inst_seconds : Z;
  inst_nanoseconds : Z
}.
Definition instant_ok (i : UtcInstant) : Prop :=
  MIN_EPOCH_SECONDS ≤ inst_seconds i ≤ MAX_EPOCH_SECONDS ∧
  0 ≤ inst_nanoseconds i ≤ 999999999.
#[global] Instance instant_ok_dec i : Decision (instant_ok i).
Proof. unfold instant_ok. apply _. Defined.
#[global] Instance UtcInstant_eq_dec : EqDecision UtcInstant.
Proof. solve_decision. Defined.

(** [UtcInstant::new]; [None] is [ValidationError::InvalidInstant]. *)
Definition UtcInstant_new (seconds nanoseconds : Z) : option UtcInstant :=
  if (seconds <? MIN_EPOCH_SECONDS) || (MAX_EPOCH_SECONDS <? seconds)
     || (999999999 <? nanoseconds)
  then None else Some (mk_instant seconds nanoseconds).

(** The derived [Ord] on the pair. *)
Definition instant_lt (a b : UtcInstant) : bool :=
  (inst_seconds a <? inst_seconds b)
  || ((inst_seconds a =? inst_seconds b) && (inst_nanoseconds a <? inst_nanoseconds b)).

(** ** Properties *)

(** Enumerate a variable known to be in [0, 16). *)
Ltac nibble_cases h :=
  let p := fresh in
  destruct h as [|p|p]; [|do 4 (try destruct p as [p|p|])|]; try lia.

Section text.
Lemma lowercase_hex_inv b h :
  lowercase_hex b = Some h → hex_digit h = b ∧ 0 ≤ h < 16.
Proof.
  unfold lowercase_hex, hex_digit.
  change (u8 x30) with 48. change (u8 x39) with 57.
  change (u8 x61) with 97. change (u8 x66) with 102.
  intros Hh. repeat case_match; simplify_eq; try lia; (split; [|lia]).
  all: rewrite <-(byte_of_u8 b); f_equal; rewrite ?byte_of_u8; lia.
Qed.
Lemma byte_hex_parse b :
  lowercase_hex (hex_digit (u8 b / 16)) = Some (u8 b / 16) ∧
  lowercase_hex (hex_digit (u8 b mod 16)) = Some (u8 b mod 16) ∧
  byte_of (Z.lor (Z.shiftl (u8 b / 16) 4) (u8 b mod 16)) = b.
Proof. destruct b; vm_compute; done. Qed.
(** Two parsed digits print back as the digits of the assembled byte. *)
Lemma hex_pair_print a b h l :
  lowercase_hex a = Some h → lowercase_hex b = Some l →
  byte_hex (byte_of (Z.lor (Z.shiftl h 4) l)) = [a; b].
Proof.
  intros [<- Hh]%lowercase_hex_inv [<- Hl]%lowercase_hex_inv.
  nibble_cases h; nibble_cases l; done.
Qed.

Lemma parse_hex_pairs_print bs :
  parse_hex_pairs (flat_map byte_hex bs) = Ok bs.
Proof.
  induction bs as [|b bs IH]; [done|].
  change (flat_map byte_hex (b :: bs)) with
    (hex_digit (u8 b / 16) :: hex_digit (u8 b mod 16) :: flat_map byte_hex bs).
  cbn [parse_hex_pairs]. destruct (byte_hex_parse b) as (-> & -> & Hb).
  rewrite IH. cbn. by rewrite Hb.
Qed.
Lemma parse_hex_pairs_inv n ds bs :
  length ds = (2 * n)%nat → parse_hex_pairs ds = Ok bs →
  length bs = n ∧ ds = flat_map byte_hex bs.
Proof.
  revert ds bs. induction n as [|n IH]; intros ds bs Hlen Hp.
  { destruct ds; [|done]. by simplify_eq/=. }
  destruct ds as [|a [|b ds]]; simpl in Hlen; [lia..|]. cbn in Hp. inv_ok.
  match goal with H : parse_hex_pairs _ = Ok _ |- _ =>
    apply IH in H as [<- ->]; [|lia] end.
  split; [done|]. cbn -[byte_hex]. by erewrite hex_pair_print by done.
Qed.

Lemma strip_prefix_Some p s r : strip_prefix p s = Some r ↔ s = p ++ r.
Proof.
  revert s. induction p as [|b p IH]; intros [|c s]; simpl; try naive_solver.
  case_decide; [subst; rewrite IH|]; naive_solver.
Qed.
Lemma length_hex bs : length (flat_map byte_hex bs) = (2 * length bs)%nat.
Proof.
  induction bs as [|b bs IH]; [done|]. simpl. lia.
Qed.

Lemma parse_identity_spec s p bs :
  parse_identity s p = Ok bs ↔
  length bs = 16%nat ∧ s = p ++ flat_map byte_hex bs.
Proof.
  unfold parse_identity. split.
  - intros H. inv_ok. apply bind_Some in H. destruct H as (ds & Hs & Hd).
    apply strip_prefix_Some in Hs. case_decide; simplify_eq.
    match goal with H : parse_hex_pairs _ = Ok _ |- _ =>
      apply (parse_hex_pairs_inv 16) in H as [? ->] end; done.
  - intros [Hlen ->].
    rewrite (proj2 (strip_prefix_Some p _ _) eq_refl). simpl.
    rewrite decide_True by (rewrite length_hex; lia). simpl.
    apply parse_hex_pairs_print.
Qed.
End text.

(** The text form of an identity is exact: a string parses as an identity of a
    kind exactly when it is that identity's [Display] output. *)
Theorem identity_text_canonical k s i :
  identity_from_str k s = Ok i ↔ identity_ok i ∧ s = identity_display i.
Proof.
  unfold identity_from_str. rewrite fmap_Ok. split.
  - intros (bs & [? ->]%parse_identity_spec & ->). done.
  - intros [Hi ->]. exists (as_bytes i). rewrite parse_identity_spec.
    by destruct i.
Qed.

(** Identity text is typed: no string parses as identities of two kinds. *)
Theorem identity_text_typed k1 k2 s i1 i2 :
  identity_from_str k1 s = Ok i1 → identity_from_str k2 s = Ok i2 → k1 = k2.
Proof.
  unfold identity_from_str. rewrite !fmap_Ok.
  intros (? & [_ ->]%parse_identity_spec & _) (? & [_ H2]%parse_identity_spec & _).
  by destruct k1, k2.
Qed.

(** The revision counter: [checked_next] is the exact successor on every
    [NonZeroU64] but the last, and fails rather than wrapping there. *)
Theorem checked_next_spec r :
  nonzero_u64 r →
  CommitRevision_checked_next r =
    (if decide (r = U64_MAX) then Err RevisionExhausted else Ok (r + 1)) ∧
  (∀ r', CommitRevision_checked_next r = Ok r' → nonzero_u64 r' ∧ r < r').
Proof.
  unfold nonzero_u64, CommitRevision_checked_next, checked_add, CommitRevision_new.
  intros Hr. case_decide as Hd; (destruct (Z.leb_spec (r + 1) U64_MAX); [|]);
    try lia; (destruct (Z.eqb_spec (r + 1) 0); [lia|]);
    (split; [done|]); intros r' ?; simplify_eq; lia.
Qed.

Lemma instant_new_spec s n i :
  0 ≤ n → UtcInstant_new s n = Some i ↔ i = mk_instant s n ∧ instant_ok i.
Proof.
  intros Hn. unfold UtcInstant_new, instant_ok.
  destruct (Z.ltb_spec s MIN_EPOCH_SECONDS), (Z.ltb_spec MAX_EPOCH_SECONDS s),
    (Z.ltb_spec 999999999 n); simpl; (split; [try done|]);
    try (intros [= <-]; simpl; split; [done|lia]);
    intros [-> Hok]; simpl in Hok; try lia; done.
Qed.
