(* ===== verification/Value.v ===== *)
(** * Validated generic values

    Models [crates/uste-types/src/value.rs] and the [ValidationError] of
    [error.rs]: the closed value set of canonical format 1.0, its bounded
    constructors and the depth/node limits.

    A Rust [String]/[&str] is its UTF-8 byte list; [utf8_valid] is the
    well-formedness test of [core::str::from_utf8].  [value_valid] collects
    the invariants that the private fields of the source guarantee. *)
From S2P Require Import Prelude Ids.

Definition MAX_INLINE_BYTES : Z := 1048576.
Definition MAX_COLLECTION_ENTRIES : Z := 65536.
Definition MAX_NESTING_DEPTH : Z := 32.
Definition MAX_VALUE_NODES : Z := 262144.

Module ValidationError.
Inductive validation_error : Set :=
| InlineValueTooLarge (actual maximum : Z)
| CollectionTooLarge (actual maximum : Z)
| NestingTooDeep (actual maximum : Z)
| TooManyValueNodes (actual maximum : Z)
| DuplicateMapKey
| InvalidInstant.
End ValidationError.
Abbreviation ValidationError := ValidationError.validation_error.

(** ** UTF-8 well-formedness *)
Definition byte_in (lo hi : Z) (b : byte) : bool := (lo <=? u8 b) && (u8 b <=? hi).
Definition utf8_cont : byte → bool := byte_in 128 191.

(** The byte-sequence table of [core::str::from_utf8]: shortest forms only,
    no surrogates, nothing above U+10FFFF. *)
Fixpoint utf8_valid (l : list byte) : bool :=
  match l with
  | [] => true
  | b0 :: r =>
      if byte_in 0 127 b0 then utf8_valid r
      else match r with
      | [] => false
      | b1 :: r =>
          if byte_in 194 223 b0 then utf8_cont b1 && utf8_valid r
          else match r with
          | [] => false
          | b2 :: r =>
              if byte_in 224 239 b0 then
                byte_in (if u8 b0 =? 224 then 160 else 128)
                        (if u8 b0 =? 237 then 159 else 191) b1
                && utf8_cont b2 && utf8_valid r
              else match r with
              | [] => false
              | b3 :: r =>
                  byte_in 240 244 b0
                  && byte_in (if u8 b0 =? 240 then 144 else 128)
                             (if u8 b0 =? 244 then 143 else 191) b1
                  && utf8_cont b2 && utf8_cont b3 && utf8_valid r
              end
          end
      end
  end.

(** ** Values

    [BoundedBytes], [BoundedString], [BoundedList] and [CanonicalMap] are
    newtypes over their contents. *)
#[local] Unset Elimination Schemes.
Inductive Value : Set :=
| VNull
| VBool (b : bool)
| VUnsigned (n : Z)
| VSigned (n : Z)
| VBytes (bytes : list byte)
| VString (str : list byte)
| VList (items : list Value)
| VMap (entries : list (list byte * Value))
| VInstant (i : UtcInstant)
| VRecordRef (r : RecordRef).

#[local] Set Elimination Schemes.

(** Structural induction with hypotheses for the children. *)
Lemma Value_rect' (P : Value → Prop) :
  P VNull → (∀ b, P (VBool b)) → (∀ n, P (VUnsigned n)) → (∀ n, P (VSigned n)) →
  (∀ bs, P (VBytes bs)) → (∀ s, P (VString s)) →
  (∀ l, Forall P l → P (VList l)) →
  (∀ m, Forall (λ e, P e.2) m → P (VMap m)) →
  (∀ i, P (VInstant i)) → (∀ r, P (VRecordRef r)) →
  ∀ v, P v.
Proof.
  intros Hnull Hbool Huns Hsig Hbytes Hstr Hlist Hmap Hinst Href.
  fix IH 1. intros [|b|n|n|bs|s|l|m|i|r].
  - exact Hnull.
  - apply Hbool.
  - apply Huns.
  - apply Hsig.
  - apply Hbytes.
  - apply Hstr.
  - apply Hlist. induction l as [|v l IHl]; constructor; [apply IH|apply IHl].
  - apply Hmap. induction m as [|[k v] m IHm]; constructor; [apply IH|apply IHm].
  - apply Hinst.
  - apply Href.
Qed.

#[global] Instance Value_eq_dec : EqDecision Value.
Proof.
  red. fix IH 1. intros a b.
  destruct a as [|x|x|x|x|x|l|m|x|x], b as [|y|y|y|y|y|l'|m'|y|y];
    try (right; discriminate); try (left; reflexivity);
    try (destruct (decide (x = y)) as [->|Hne];
      [by left|right; intros Heq; apply Hne; by injection Heq]).
  - assert (Decision (l = l')) as [->|Hne]; [|by left|right; congruence].
    revert l'. induction l as [|x l IHl]; intros [|y l'];
      [by left|by right|by right|].
    destruct (IH x y) as [->|]; [|right; congruence].
    destruct (IHl l') as [->|]; [by left|right; congruence].
  - assert (Decision (m = m')) as [->|Hne]; [|by left|right; congruence].
    revert m'. induction m as [|[k x] m IHm]; intros [|[k' y] m'];
      [by left|by right|by right|].
    destruct (decide (k = k')) as [->|]; [|right; congruence].
    destruct (IH x y) as [->|]; [|right; congruence].
    destruct (IHm m') as [->|]; [by left|right; congruence].
Defined.

(** ** Constructors *)
Definition check_inline_length (length : Z) : result ValidationError unit :=
  if MAX_INLINE_BYTES <? length
  then Err (ValidationError.InlineValueTooLarge length MAX_INLINE_BYTES) else Ok tt.
Definition check_collection_length (length : Z) : result ValidationError unit :=
  if MAX_COLLECTION_ENTRIES <? length
  then Err (ValidationError.CollectionTooLarge length MAX_COLLECTION_ENTRIES) else Ok tt.

Definition BoundedBytes_new (bytes : list byte) : result ValidationError (list byte) :=
  check_inline_length (zlen bytes);; Ok bytes.
Definition BoundedString_new (value : list byte) : result ValidationError (list byte) :=
  check_inline_length (zlen value);; Ok value.

(** [Value::validate_limits]; the result is the updated node counter. *)
Fixpoint validate_limits (v : Value) (parent_depth nodes : Z) :
    result ValidationError Z :=
  let nodes := saturating_add nodes 1 in
  if MAX_VALUE_NODES <? nodes then Err (ValidationError.TooManyValueNodes nodes MAX_VALUE_NODES)
  else
    let depth := saturating_add parent_depth 1 in
    let too_deep := MAX_NESTING_DEPTH <? depth in
    match v with
    | VList items =>
        if too_deep then Err (ValidationError.NestingTooDeep depth MAX_NESTING_DEPTH)
        else try_fold (λ n child, validate_limits child depth n) items nodes
    | VMap entries =>
        if too_deep then Err (ValidationError.NestingTooDeep depth MAX_NESTING_DEPTH)
        else try_fold (λ n '(_, child), validate_limits child depth n) entries nodes
    | _ => Ok nodes
    end.

Definition BoundedList_new (values : list Value) : result ValidationError (list Value) :=
  check_collection_length (zlen values);;
  try_fold (λ n value, validate_limits value 1 n) values 1;;
  Ok values.

(** [sort_by] on the key bytes, then the duplicate check on neighbours. *)
Definition CanonicalMap_new (entries : list (list byte * Value)) :
    result ValidationError (list (list byte * Value)) :=
  check_collection_length (zlen entries);;
  let entries := merge_sort entry_le entries in
  if windows2_any (λ a b, bool_decide (a.1 = b.1)) entries then Err ValidationError.DuplicateMapKey
  else
    try_fold (λ n '(_, value), validate_limits value 1 n) entries 1;;
    Ok entries.

Definition Value_bytes (bytes : list byte) : result ValidationError Value :=
  VBytes <$> BoundedBytes_new bytes.
Definition Value_string (value : list byte) : result ValidationError Value :=
  VString <$> BoundedString_new value.
Definition Value_list (values : list Value) : result ValidationError Value :=
  VList <$> BoundedList_new values.
Definition Value_map (entries : list (list byte * Value)) : result ValidationError Value :=
  VMap <$> CanonicalMap_new entries.

(** ** The value invariant *)

(** Node count and container depth of a tree. *)
Fixpoint value_nodes (v : Value) : Z :=
  match v with
  | VList items => 1 + foldr (λ c n, value_nodes c + n) 0 items
  | VMap entries => 1 + foldr (λ e n, value_nodes e.2 + n) 0 entries
  | _ => 1
  end.
Fixpoint value_depth (v : Value) : Z :=
  match v with
  | VList items => 1 + foldr (λ c d, Z.max (value_depth c) d) 0 items
  | VMap entries => 1 + foldr (λ e d, Z.max (value_depth e.2) d) 0 entries
  | _ => 0
  end.

Definition inline_okb (bytes : list byte) : bool := zlen bytes <=? MAX_INLINE_BYTES.
Definition str_okb (s : list byte) : bool := inline_okb s && utf8_valid s.

(** Node-local invariants of a value and of all its children. *)
Fixpoint value_okb (v : Value) : bool :=
  match v with
  | VNull | VBool _ => true
  | VUnsigned n => (0 <=? n) && (n <=? U128_MAX)
  | VSigned n => (- 2 ^ 127 <=? n) && (n <=? I128_MAX)
  | VBytes bytes => inline_okb bytes
  | VString s => str_okb s
  | VList items => (zlen items <=? MAX_COLLECTION_ENTRIES) && forallb value_okb items
  | VMap entries =>
      (zlen entries <=? MAX_COLLECTION_ENTRIES)
      && bool_decide (Sorted lexico entries.*1)
      && forallb (λ e, str_okb e.1 && value_okb e.2) entries
  | VInstant i => bool_decide (instant_ok i)
  | VRecordRef r => bool_decide (ref_ok r)
  end.

(** The invariant of a constructed [Value]: node-local bounds plus the
    tree-wide depth and node limits. *)
Definition value_valid (v : Value) : Prop :=
  value_okb v = true ∧ value_depth v ≤ MAX_NESTING_DEPTH ∧ value_nodes v ≤ MAX_VALUE_NODES.

Lemma value_nodes_pos v : 1 ≤ value_nodes v.
Proof.
  induction v as [| | | | | |l IH|m IH| |] using Value_rect'; simpl; try lia.
  - induction IH; simpl; lia.
  - induction IH; simpl; lia.
Qed.
Lemma value_depth_nonneg v : 0 ≤ value_depth v.
Proof.
  induction v as [| | | | | |l IH|m IH| |] using Value_rect'; simpl; try lia.
  - induction IH; simpl; lia.
  - induction IH; simpl; lia.
Qed.
#[global] Hint Resolve value_nodes_pos value_depth_nonneg : core.

Lemma saturating_add_small a b : a + b ≤ U64_MAX → saturating_add a b = a + b.
Proof. unfold saturating_add. lia. Qed.

(** [validate_limits] counts the nodes of the tree exactly and succeeds
    exactly when the counter stays within the cap and no container is too
    deep below [parent_depth]. *)
Definition fits (v : Value) (d n : Z) : Prop :=
  n + value_nodes v ≤ MAX_VALUE_NODES ∧
  (value_depth v = 0 ∨ d + value_depth v ≤ MAX_NESTING_DEPTH).

Section validate_fold.
Context {A : Type} (g : A → Value).
Definition sum_nodes (l : list A) : Z := foldr (λ a s, value_nodes (g a) + s) 0 l.
Definition max_depth (l : list A) : Z := foldr (λ a s, Z.max (value_depth (g a)) s) 0 l.
Definition limits_exact (a : A) : Prop := ∀ d n n',
  0 ≤ d ≤ MAX_NESTING_DEPTH → 0 ≤ n ≤ MAX_VALUE_NODES →
  validate_limits (g a) d n = Ok n' ↔ fits (g a) d n ∧ n' = n + value_nodes (g a).

Lemma sum_nodes_nonneg l : 0 ≤ sum_nodes l.
Proof.
  induction l as [|a l IH]; simpl; [lia|].
  pose proof (value_nodes_pos (g a)). lia.
Qed.
Lemma max_depth_nonneg l : 0 ≤ max_depth l.
Proof. induction l as [|a l IH]; simpl; lia. Qed.

Lemma validate_limits_fold l d n n' :
  Forall limits_exact l → 0 ≤ d ≤ MAX_NESTING_DEPTH → 0 ≤ n ≤ MAX_VALUE_NODES →
  try_fold (λ n a, validate_limits (g a) d n) l n = Ok n' ↔
    (n + sum_nodes l ≤ MAX_VALUE_NODES ∧ d + max_depth l ≤ MAX_NESTING_DEPTH) ∧
    n' = n + sum_nodes l.
Proof.
  intros Hall Hd. revert n n'. induction Hall as [|a l Ha Hall IH]; intros n n' Hn; simpl.
  { split; [intros [= <-]; lia|]. intros [_ ->]. f_equal. lia. }
  pose proof (sum_nodes_nonneg l). pose proof (value_nodes_pos (g a)).
  pose proof (value_depth_nonneg (g a)). rewrite bind_Ok. split.
  - intros (n1 & [[Hn1 Hd1] ->]%Ha & Hrest); [|lia..]. apply IH in Hrest; lia.
  - intros [[??] ->]. exists (n + value_nodes (g a)). split.
    + apply Ha; [lia..|]. split; [|done]. unfold fits. lia.
    + apply IH; lia.
Qed.

(** The container case shared by lists and maps. *)
Lemma validate_limits_container l d n n' :
  Forall limits_exact l → 0 ≤ d ≤ MAX_NESTING_DEPTH → 0 ≤ n ≤ MAX_VALUE_NODES →
  (if MAX_VALUE_NODES <? saturating_add n 1
   then Err (ValidationError.TooManyValueNodes (saturating_add n 1) MAX_VALUE_NODES)
   else if MAX_NESTING_DEPTH <? saturating_add d 1
   then Err (ValidationError.NestingTooDeep (saturating_add d 1) MAX_NESTING_DEPTH)
   else try_fold (λ n a, validate_limits (g a) (saturating_add d 1) n) l
          (saturating_add n 1)) = Ok n' ↔
    (n + (1 + sum_nodes l) ≤ MAX_VALUE_NODES ∧
     (1 + max_depth l = 0 ∨ d + (1 + max_depth l) ≤ MAX_NESTING_DEPTH)) ∧
    n' = n + (1 + sum_nodes l).
Proof.
  intros Hall Hd Hn. pose proof (sum_nodes_nonneg l). pose proof (max_depth_nonneg l).
  unfold MAX_VALUE_NODES, MAX_NESTING_DEPTH in *.
  rewrite !saturating_add_small by (unfold U64_MAX; lia).
  destruct (Z.ltb_spec 262144 (n + 1)); [split; [done|lia]|].
  destruct (Z.ltb_spec 32 (d + 1)); [split; [done|lia]|].
  rewrite validate_limits_fold by (done || unfold MAX_VALUE_NODES, MAX_NESTING_DEPTH; lia).
  unfold MAX_VALUE_NODES, MAX_NESTING_DEPTH. lia.
Qed.
End validate_fold.

Lemma validate_limits_spec v : limits_exact id v.
Proof.
  induction v as [|b0|n0|n0|bs|s|l IH|m IH|i|r] using Value_rect'; intros d n n' Hd Hn.
  7: exact (validate_limits_container id l d n n' IH Hd Hn).
  7: { pose proof (validate_limits_container snd m d n n' IH Hd Hn) as Hc.
       unfold fits. simpl. rewrite <-Hc. clear.
       enough (∀ e k, try_fold (λ n '(_, c), validate_limits c e n) m k =
         try_fold (λ n a, validate_limits a.2 e n) m k) as -> by done.
       intros e. induction m as [|[k' v] m IH]; intros k; [done|]. simpl.
       destruct (validate_limits v e k); simpl; [apply IH|done]. }
  all: simpl; unfold fits; simpl;
    rewrite (saturating_add_small n) by (unfold MAX_VALUE_NODES, U64_MAX in *; lia);
    (destruct (Z.ltb_spec MAX_VALUE_NODES (n + 1)); [split; [done|lia]|]);
    split; [intros [= <-]; lia|intros [_ ->]; done].
Qed.

(** ** Constructor correctness *)

Lemma forallb_value_ok l : Forall value_valid l → forallb value_okb l = true.
Proof. intros Hl. apply forallb_forall. intros v Hv%list_elem_of_In.
  by apply (proj1 (Forall_forall _ _) Hl) in Hv as [? _]. Qed.

Lemma check_collection_length_Ok n u :
  check_collection_length n = Ok u ↔ (n <=? MAX_COLLECTION_ENTRIES) = true.
Proof.
  unfold check_collection_length. destruct u, (Z.ltb_spec MAX_COLLECTION_ENTRIES n),
    (Z.leb_spec n MAX_COLLECTION_ENTRIES); try lia; done.
Qed.

Lemma limits_exact_all {A} (g : A → Value) l : Forall (limits_exact g) l.
Proof. apply Forall_forall. intros a _. apply (validate_limits_spec (g a)). Qed.

(** The limits a container constructor checks from the root. *)
Lemma root_limits_Ok {A} (g : A → Value) l :
  (∃ n, try_fold (λ n a, validate_limits (g a) 1 n) l 1 = Ok n) ↔
  1 + max_depth g l ≤ MAX_NESTING_DEPTH ∧ 1 + sum_nodes g l ≤ MAX_VALUE_NODES.
Proof.
  pose proof (λ n, validate_limits_fold g l 1 1 n (limits_exact_all g l)) as Hf.
  split.
  - intros [n Hn]. apply Hf in Hn; unfold MAX_NESTING_DEPTH, MAX_VALUE_NODES in *; lia.
  - intros [??]. eexists. apply Hf; [..|split; [|done]];
      unfold MAX_NESTING_DEPTH, MAX_VALUE_NODES in *; lia.
Qed.

Lemma try_fold_pair {K} (m : list (K * Value)) d n :
  try_fold (λ n '(_, c), validate_limits c d n) m n =
  try_fold (λ n e, validate_limits e.2 d n) m n.
Proof.
  revert n. induction m as [|[k v] m IH]; intros n; [done|]. simpl.
  destruct (validate_limits v d n); simpl; [apply IH|done].
Qed.

Lemma Value_list_Ok l v :
  Forall value_valid l → Value_list l = Ok v ↔ v = VList l ∧ value_valid v.
Proof.
  intros Hl. unfold Value_list, BoundedList_new. rewrite fmap_Ok. split.
  - intros (l' & H & ->). inv_ok.
    apply check_collection_length_Ok in H.
    destruct (proj1 (root_limits_Ok id l')); [eauto|].
    split; [done|]. split; [|done]. simpl. by rewrite H, forallb_value_ok.
  - intros [-> (Hok & Hd & Hn)]. simpl in Hok. apply andb_true_iff in Hok as [Hlen _].
    exists l. split; [|done].
    rewrite (proj2 (check_collection_length_Ok _ tt) Hlen). simpl.
    destruct (proj2 (root_limits_Ok id l)) as [n Hr]; [done|].
    unfold id in Hr. by rewrite Hr.
Qed.

Section map_new.
Implicit Types (m : list (list byte * Value)).

Lemma merge_sort_keys_sorted m : StronglySorted key_le (merge_sort entry_le m).*1.
Proof.
  assert (StronglySorted entry_le (merge_sort entry_le m)) as Hs
    by (apply StronglySorted_merge_sort; apply _).
  induction Hs as [|e l Hl IH He]; simpl; constructor; [done|].
  rewrite Forall_fmap. apply (Forall_impl _ _ _ He). done.
Qed.
(** After sorting, no equal neighbours means strictly increasing keys. *)
Lemma no_equal_neighbours m :
  StronglySorted key_le m.*1 →
  windows2_any (λ a b, bool_decide (a.1 = b.1)) m = false ↔ Sorted lexico m.*1.
Proof.
  rewrite windows2_any_false. induction m as [|a [|b m] IH]; simpl; intros Hs.
  { split; constructor. }
  { split; repeat constructor. }
  apply StronglySorted_cons in Hs as [Ha Hs]. apply Forall_cons in Ha as [Hab _].
  split; intros [Ht Hh]%Sorted_inv; apply HdRel_inv in Hh.
  - constructor; [by apply IH|]. constructor. apply key_le_ne; [done|].
    by apply bool_decide_eq_false in Hh.
  - constructor; [by apply IH|]. constructor. apply bool_decide_eq_false.
    intros Heq. rewrite Heq in Hh. by apply (irreflexivity lexico b.1).
Qed.
End map_new.

Definition entry_valid (e : list byte * Value) : Prop :=
  str_okb e.1 = true ∧ value_valid e.2.

Lemma Value_map_Ok m v :
  Forall entry_valid m →
  Value_map m = Ok v ↔ v = VMap (merge_sort entry_le m) ∧ value_valid v.
Proof.
  intros Hm. set (m' := merge_sort entry_le m).
  assert (m' ≡ₚ m) as Hp by apply merge_sort_Permutation.
  assert (forallb (λ e, str_okb e.1 && value_okb e.2) m' = true) as Hok.
  { apply forallb_forall. intros e He%list_elem_of_In. rewrite Hp in He.
    apply (proj1 (Forall_forall _ _) Hm) in He as [-> [-> _]]. done. }
  assert (zlen m' = zlen m) as Hlen by (unfold zlen; by rewrite Hp).
  unfold Value_map, CanonicalMap_new. rewrite fmap_Ok. fold m'. split.
  - intros (m0 & H & ->). apply bind_Ok in H as ([] & Hl & H).
    destruct (windows2_any _ m') eqn:Hw; [done|].
    apply bind_Ok in H as (n & Hn & [= <-]). rewrite try_fold_pair in Hn.
    split; [done|]. destruct (proj1 (root_limits_Ok snd m')); [eauto|].
    split; [|done]. simpl. rewrite Hok, andb_true_r, Hlen.
    apply andb_true_iff. split; [by eapply check_collection_length_Ok|].
    apply bool_decide_eq_true, no_equal_neighbours; [apply merge_sort_keys_sorted|done].
  - intros [-> (Hv & Hd & Hn)]. simpl in Hv. rewrite Hok, andb_true_r, Hlen in Hv.
    apply andb_true_iff in Hv as [Hl Hs%bool_decide_eq_true].
    exists m'. split; [|done].
    rewrite (proj2 (check_collection_length_Ok _ tt) Hl). simpl.
    rewrite (proj2 (no_equal_neighbours m' (merge_sort_keys_sorted m)) Hs), try_fold_pair.
    destruct (proj2 (root_limits_Ok snd m')) as [n ->]; done.
Qed.

Lemma Value_map_Permutation m1 m2 v :
  Forall entry_valid m1 → m1 ≡ₚ m2 → Value_map m1 = Ok v → Value_map m2 = Ok v.
Proof.
  intros Hm1 Hp [-> Hv]%Value_map_Ok; [|done].
  assert (Forall entry_valid m2) as Hm2 by by rewrite <-Hp.
  apply Value_map_Ok; [done|]. split; [|done]. f_equal.
  destruct Hv as [Hv _]. simpl in Hv. apply andb_true_iff in Hv as [Hv _].
  apply andb_true_iff in Hv as [_ Hs%bool_decide_eq_true].
  apply Sorted_StronglySorted in Hs; [|apply _].
  assert (merge_sort entry_le m1 ≡ₚ merge_sort entry_le m2) as Hs12
    by by rewrite !merge_sort_Permutation.
  apply (StronglySorted_unique_strong entry_le); [| | |done].
  - intros [k1 v1] [k2 v2] H1 H2 H12 H21.
    assert (k1 = k2) as -> by by apply (anti_symm key_le).
    f_equal. rewrite <-Hs12 in H2.
    apply sorted_strict_NoDup in Hs.
    apply list_elem_of_lookup in H1 as [i Hi], H2 as [j Hj].
    assert (i = j) as ->; [|by simplify_eq].
    eapply (NoDup_lookup _ _ _ k2 Hs); rewrite list_lookup_fmap; [by rewrite Hi|by rewrite Hj].
  - apply StronglySorted_merge_sort; apply _.
  - apply StronglySorted_merge_sort; apply _.
Qed.

Lemma check_inline_Ok (b : list byte) u : check_inline_length (zlen b) = Ok u ↔ inline_okb b = true.
Proof.
  unfold check_inline_length, inline_okb. rewrite Z.leb_antisym, negb_true_iff.
  by destruct (MAX_INLINE_BYTES <? zlen b), u.
Qed.
(** A value without children keeps the depth and node bounds. *)
Lemma leaf_valid v : value_depth v = 0 → value_nodes v = 1 → value_valid v ↔ value_okb v = true.
Proof. intros Hd Hn. unfold value_valid. rewrite Hd, Hn. unfold MAX_NESTING_DEPTH, MAX_VALUE_NODES. naive_solver lia. Qed.
Lemma Value_bytes_Ok b v : Value_bytes b = Ok v ↔ v = VBytes b ∧ value_valid v.
Proof.
  unfold Value_bytes, BoundedBytes_new. pose proof (check_inline_Ok b tt) as Hc. split.
  - destruct (check_inline_length (zlen b)) as [[]|]; [|done]. intros [= <-]. split; [done|]. by apply leaf_valid, Hc.
  - intros [-> Hv%leaf_valid]; [|done..]. by rewrite (proj2 Hc Hv).
Qed.
Lemma Value_string_Ok s v : utf8_valid s = true → Value_string s = Ok v ↔ v = VString s ∧ value_valid v.
Proof.
  intros Hu. unfold Value_string, BoundedString_new. pose proof (check_inline_Ok s tt) as Hc.
  assert (value_okb (VString s) = inline_okb s) as Hk by (cbn; unfold str_okb; by rewrite Hu, andb_true_r). split.
  - destruct (check_inline_length (zlen s)) as [[]|]; [|done]. intros [= <-]. split; [done|].
    apply leaf_valid; [done..|]. rewrite Hk. by apply Hc.
  - intros [-> Hv%leaf_valid]; [|done..]. rewrite Hk in Hv. by rewrite (proj2 Hc Hv).
Qed.

(** ** Properties *)

(** The value constructors establish the value invariant and nothing else.
    [Value::bytes] and [Value::string] accept exactly the contents within the inline
    limit, [Value::list] and [Value::map] exactly the valid children whose container
    keeps the invariant (collection bound, distinct keys, depth, total node count);
    the contents come back unchanged, map entries sorted by key, and contents over
    the inline limit are refused with their length. *)
Theorem value_constructors_spec :
  (∀ b v, Value_bytes b = Ok v ↔ v = VBytes b ∧ value_valid v) ∧
  (∀ s v, utf8_valid s = true → Value_string s = Ok v ↔ v = VString s ∧ value_valid v) ∧
  (∀ l v, Forall value_valid l → Value_list l = Ok v ↔ v = VList l ∧ value_valid v) ∧
  (∀ m v, Forall entry_valid m →
    Value_map m = Ok v ↔ v = VMap (merge_sort entry_le m) ∧ value_valid v) ∧
  ∀ b, MAX_INLINE_BYTES < zlen b →
    Value_bytes b = Err (ValidationError.InlineValueTooLarge (zlen b) MAX_INLINE_BYTES) ∧
    Value_string b = Err (ValidationError.InlineValueTooLarge (zlen b) MAX_INLINE_BYTES).
Proof.
  split; [apply Value_bytes_Ok|]. split; [apply Value_string_Ok|].
  split; [apply Value_list_Ok|]. split; [apply Value_map_Ok|].
  intros b Hb. unfold Value_bytes, Value_string, BoundedBytes_new, BoundedString_new, check_inline_length.
  by rewrite (proj2 (Z.ltb_lt _ _) Hb).
Qed.
Lemma value_constructors_spec_witness :
  Forall value_valid [VNull; VBool true] ∧
  Value_list [VNull; VBool true] = Ok (VList [VNull; VBool true]) ∧
  Value_string (lit "id") = Ok (VString (lit "id")).
Proof.
  assert (Forall value_valid [VNull; VBool true]) as Hf by (repeat constructor; by vm_compute).
  split; [done|]. split.
  - apply (proj1 (proj2 (proj2 value_constructors_spec)) _ _ Hf). split; [done|]. by vm_compute.
  - apply (proj1 (proj2 value_constructors_spec)); [by vm_compute|]. split; [done|]. by vm_compute.
Defined.

(** Canonical maps do not depend on the order in which a caller lists the
    entries: any permutation of an accepted entry list builds the same value. *)
Theorem Value_map_order_independent m1 m2 v :
  Forall entry_valid m1 → m1 ≡ₚ m2 → Value_map m1 = Ok v → Value_map m2 = Ok v.
Proof. apply Value_map_Permutation. Qed.
Lemma Value_map_order_independent_witness :
  let a := (lit "a", VNull) in let b := (lit "b", VBool true) in
  Forall entry_valid [b; a] ∧ Value_map [b; a] = Ok (VMap [a; b]) ∧
  Value_map [a; b] = Ok (VMap [a; b]).
Proof.
  intros a b.
  assert (Forall entry_valid [b; a]) as Hf by (repeat constructor; by vm_compute).
  assert (Value_map [b; a] = Ok (VMap [a; b])) as Hm by (vm_compute; reflexivity).
  split; [done|]. split; [done|].
  apply (Value_map_order_independent [b; a] [a; b]); [done|constructor|done].
Defined.

(** ** Children of valid values *)
Lemma sum_nodes_elem {A} (g : A → Value) x l : x ∈ l → value_nodes (g x) ≤ sum_nodes g l.
Proof.
  induction 1 as [x l|x y l _ IH]; simpl.
  - pose proof (sum_nodes_nonneg g l). lia.
  - pose proof (value_nodes_pos (g y)). lia.
Qed.
Lemma max_depth_elem {A} (g : A → Value) x l : x ∈ l → value_depth (g x) ≤ max_depth g l.
Proof. induction 1 as [x l|x y l _ IH]; simpl; lia. Qed.
Lemma value_valid_list l : value_valid (VList l) → Forall value_valid l.
Proof.
  intros (Hok & Hd & Hn). simpl in Hok. apply andb_true_iff in Hok as [_ Hok].
  apply forallb_Forall in Hok. rewrite Forall_forall in Hok |- *. intros v Hv.
  pose proof (sum_nodes_elem id v l Hv) as H1. pose proof (max_depth_elem id v l Hv) as H2.
  change (value_nodes (VList l)) with (1 + sum_nodes id l) in Hn.
  change (value_depth (VList l)) with (1 + max_depth id l) in Hd. unfold id in *.
  split; [by apply Hok|lia].
Qed.
Lemma value_valid_map m :
  value_valid (VMap m) → Sorted lexico m.*1 ∧ Forall entry_valid m.
Proof.
  intros (Hok & Hd & Hn). simpl in Hok. rewrite !andb_true_iff in Hok.
  destruct Hok as [[_ Hs%bool_decide_eq_true] Hok]. split; [done|].
  apply forallb_Forall in Hok. rewrite Forall_forall in Hok |- *. intros [k v] Hv.
  pose proof (sum_nodes_elem snd _ m Hv) as H1. pose proof (max_depth_elem snd _ m Hv) as H2.
  change (value_nodes (VMap m)) with (1 + sum_nodes snd m) in Hn.
  change (value_depth (VMap m)) with (1 + max_depth snd m) in Hd. simpl in *.
  apply Hok, andb_true_iff in Hv as [??]. split; [done|]. split; [done|]. simpl. lia.
Qed.
