(* ===== verification/Codec.v ===== *)
(** * The canonical value codec

    Models [crates/uste-types/src/codec.rs] and the [EncodeError]/[DecodeError]
    of [error.rs]: the canonical frame writer, the strict decoder and the
    borrowing root-map decoders.

    A [Cursor] is the source's pair of a slice and an offset; a decoder takes
    and returns the cursor and the [DecodeBudget] counter.  Allocation
    ([try_reserve_exact]) always succeeds, so [ResourceLimit] is never raised
    here.  The recursion of [decode_payload] is bounded by the nesting cap: its
    fuel is the number of container levels that may still be opened, and
    [decode_payload_fuel] in [CodecFacts] shows that 32 levels are enough. *)
From S2P Require Import Prelude Ids Value.

Module EncodeError.
Inductive encode_error : Set :=
| PayloadTooLarge (actual maximum : Z)
| TooManyValueNodes (actual maximum : Z)
| ResourceLimit.
End EncodeError.
Abbreviation EncodeError := EncodeError.encode_error.

Module DecodeError.
Inductive decode_error : Set :=
| UnexpectedEof
| InvalidMagic
| UnsupportedVersion (record_kind major minor : byte)
| NonMinimalInteger
| IntegerOverflow
| PayloadTooLarge (actual maximum : Z)
| InvalidValueTag (tag : byte)
| InvalidSignedInteger
| InvalidUtf8
| InlineValueTooLarge (actual maximum : Z)
| CollectionTooLarge (actual maximum : Z)
| NestingTooDeep (actual maximum : Z)
| TooManyValueNodes (actual maximum : Z)
| ResourceLimit
| MapKeysOutOfOrder
| InvalidInstant
| InvalidIdentityTag (expected actual : byte)
| TrailingBytes.
End DecodeError.
Abbreviation DecodeError := DecodeError.decode_error.

(** ** Format constants *)
Definition MAGIC : list byte := String.list_byte_of_string "USTE".
Definition VALUE_RECORD_KIND : byte := x01.
Definition FORMAT_MAJOR : byte := x01.
Definition FORMAT_MINOR : byte := x00.
Definition MAX_VALUE_PAYLOAD : Z := 16 * 1024 * 1024.

Definition NULL_TAG : byte := x00.
Definition FALSE_TAG : byte := x01.
Definition TRUE_TAG : byte := x02.
Definition UNSIGNED_TAG : byte := x03.
Definition SIGNED_TAG : byte := x04.
Definition BYTES_TAG : byte := x05.
Definition STRING_TAG : byte := x06.
Definition LIST_TAG : byte := x07.
Definition MAP_TAG : byte := x08.
Definition INSTANT_TAG : byte := x09.
Definition RECORD_REF_TAG : byte := x0a.

(** ** Writing integers

    A [u128] has at most 19 groups of seven bits: 19 is the loop bound. *)
Fixpoint uleb_len_loop (fuel : nat) (value length : Z) : Z :=
  match fuel with
  | O => length
  | S fuel =>
      if 128 <=? value then uleb_len_loop fuel (Z.shiftr value 7) (length + 1) else length
  end.
Definition uleb_len (value : Z) : Z := uleb_len_loop 19 value 1.

Fixpoint write_uleb_loop (fuel : nat) (value : Z) (output : list byte) : list byte :=
  match fuel with
  | O => output
  | S fuel =>
      let b := Z.land value 127 in
      let value := Z.shiftr value 7 in
      if value =? 0 then output ++ [byte_of b]
      else write_uleb_loop fuel value (output ++ [byte_of (Z.lor b 128)])
  end.
Definition write_uleb (value : Z) (output : list byte) : list byte :=
  write_uleb_loop 19 value output.

Definition signed_parts (value : Z) : byte * Z :=
  if value <? 0 then (x01, Z.abs value) else (x00, value).
Definition write_signed (value : Z) (output : list byte) : list byte :=
  let '(sign, magnitude) := signed_parts value in
  write_uleb magnitude (output ++ [sign]).
Definition write_identity (tag : byte) (bytes : list byte) (output : list byte) : list byte :=
  (output ++ [tag]) ++ bytes.

(** ** Measuring *)

(** [payload_len::add]. *)
Definition payload_add (total amount : Z) : result EncodeError Z :=
  total ← ok_or (checked_add total amount)
    (EncodeError.PayloadTooLarge USIZE_MAX MAX_VALUE_PAYLOAD);
  if MAX_VALUE_PAYLOAD <? total
  then Err (EncodeError.PayloadTooLarge total MAX_VALUE_PAYLOAD) else Ok total.

(** [payload_len::measure] on the pair of the running total and node count. *)
Fixpoint measure (v : Value) (st : Z * Z) : result EncodeError (Z * Z) :=
  let '(total, nodes) := st in
  let nodes := saturating_add nodes 1 in
  if MAX_VALUE_NODES <? nodes then Err (EncodeError.TooManyValueNodes nodes MAX_VALUE_NODES)
  else
    total ← payload_add total 1;
    match v with
    | VNull | VBool _ => Ok (total, nodes)
    | VUnsigned number =>
        total ← payload_add total (uleb_len number); Ok (total, nodes)
    | VSigned number =>
        total ← payload_add total (1 + uleb_len (signed_parts number).2);
        Ok (total, nodes)
    | VBytes bytes | VString bytes =>
        total ← payload_add total (uleb_len (zlen bytes));
        total ← payload_add total (zlen bytes);
        Ok (total, nodes)
    | VList items =>
        total ← payload_add total (uleb_len (zlen items));
        try_fold (λ st child, measure child st) items (total, nodes)
    | VMap entries =>
        total ← payload_add total (uleb_len (zlen entries));
        try_fold (λ st e,
          t ← payload_add st.1 (uleb_len (zlen e.1));
          t ← payload_add t (zlen e.1);
          measure e.2 (t, st.2)) entries (total, nodes)
    | VInstant i =>
        total ← payload_add total (1 + uleb_len (signed_parts (inst_seconds i)).2);
        total ← payload_add total (uleb_len (inst_nanoseconds i));
        Ok (total, nodes)
    | VRecordRef _ => total ← payload_add total (3 * 17); Ok (total, nodes)
    end.
Definition payload_len (v : Value) : result EncodeError Z :=
  st ← measure v (0, 0); Ok st.1.

(** ** Encoding *)
Fixpoint encode_payload (v : Value) (output : list byte) : list byte :=
  match v with
  | VNull => output ++ [NULL_TAG]
  | VBool false => output ++ [FALSE_TAG]
  | VBool true => output ++ [TRUE_TAG]
  | VUnsigned number => write_uleb number (output ++ [UNSIGNED_TAG])
  | VSigned number => write_signed number (output ++ [SIGNED_TAG])
  | VBytes bytes => write_uleb (zlen bytes) (output ++ [BYTES_TAG]) ++ bytes
  | VString str => write_uleb (zlen str) (output ++ [STRING_TAG]) ++ str
  | VList items =>
      foldl (λ output child, encode_payload child output)
        (write_uleb (zlen items) (output ++ [LIST_TAG])) items
  | VMap entries =>
      foldl (λ output e, encode_payload e.2 (write_uleb (zlen e.1) output ++ e.1))
        (write_uleb (zlen entries) (output ++ [MAP_TAG])) entries
  | VInstant i =>
      write_uleb (inst_nanoseconds i)
        (write_signed (inst_seconds i) (output ++ [INSTANT_TAG]))
  | VRecordRef r =>
      let output := output ++ [RECORD_REF_TAG] in
      let output := write_identity (id_tag KDatabase) (as_bytes (ref_database r)) output in
      let output := write_identity (id_tag KNamespace) (as_bytes (ref_namespace r)) output in
      write_identity (id_tag KRecord) (as_bytes (ref_id r)) output
  end.

Definition encoded_len (v : Value) : result EncodeError Z :=
  payload ← payload_len v;
  let header := zlen MAGIC + 3 + uleb_len payload in
  ok_or (checked_add header payload)
    (EncodeError.PayloadTooLarge USIZE_MAX MAX_VALUE_PAYLOAD).

Definition encode_value (v : Value) : result EncodeError (list byte) :=
  payload ← payload_len v;
  let output := [] ++ MAGIC in
  let output := output ++ [VALUE_RECORD_KIND; FORMAT_MAJOR; FORMAT_MINOR] in
  let output := write_uleb payload output in
  Ok (encode_payload v output).

(** ** The cursor *)
Record Cursor : Set := mk_cursor { c_bytes : list byte; c_offset : Z }.
Definition Cursor_new (bytes : list byte) : Cursor := mk_cursor bytes 0.
Definition remaining (c : Cursor) : Z := zlen (c_bytes c) - c_offset c.

Definition peek (c : Cursor) : result DecodeError byte :=
  ok_or (c_bytes c !! Z.to_nat (c_offset c)) DecodeError.UnexpectedEof.
Definition cursor_byte (c : Cursor) : result DecodeError (byte * Cursor) :=
  b ← ok_or (c_bytes c !! Z.to_nat (c_offset c)) DecodeError.UnexpectedEof;
  Ok (b, mk_cursor (c_bytes c) (c_offset c + 1)).
Definition cursor_take (length : Z) (c : Cursor) : result DecodeError (list byte * Cursor) :=
  end_ ← ok_or (checked_add (c_offset c) length) DecodeError.IntegerOverflow;
  if end_ <=? zlen (c_bytes c)
  then Ok (take (Z.to_nat length) (drop (Z.to_nat (c_offset c)) (c_bytes c)),
           mk_cursor (c_bytes c) end_)
  else Err DecodeError.UnexpectedEof.

(** ** Reading integers, lengths, strings and identities *)

(** [for index in 0..19]: running out of iterations is the overflow error
    after the loop. *)
Fixpoint read_uleb_loop (iterations : nat) (index value : Z) (c : Cursor) :
    result DecodeError (Z * Cursor) :=
  match iterations with
  | O => Err DecodeError.IntegerOverflow
  | S iterations =>
      '(b, c) ← cursor_byte c;
      let low := Z.land (u8 b) 127 in
      if (index =? 18) && (3 <? low) then Err DecodeError.IntegerOverflow
      else
        let value := Z.lor value (Z.shiftl low (index * 7)) in
        if Z.land (u8 b) 128 =? 0 then
          if (0 <? index) && (low =? 0) then Err DecodeError.NonMinimalInteger
          else Ok (value, c)
        else read_uleb_loop iterations (index + 1) value c
  end.
Definition read_uleb (c : Cursor) : result DecodeError (Z * Cursor) :=
  read_uleb_loop 19 0 0 c.

Definition read_length (c : Cursor) : result DecodeError (Z * Cursor) :=
  '(value, c) ← read_uleb c;
  if value <=? USIZE_MAX then Ok (value, c) else Err DecodeError.IntegerOverflow.
Definition read_inline_length (c : Cursor) : result DecodeError (Z * Cursor) :=
  '(length, c) ← read_length c;
  if MAX_INLINE_BYTES <? length
  then Err (DecodeError.InlineValueTooLarge length MAX_INLINE_BYTES) else Ok (length, c).
Definition read_collection_length (c : Cursor) : result DecodeError (Z * Cursor) :=
  '(length, c) ← read_length c;
  if MAX_COLLECTION_ENTRIES <? length
  then Err (DecodeError.CollectionTooLarge length MAX_COLLECTION_ENTRIES)
  else Ok (length, c).

Definition read_signed (c : Cursor) : result DecodeError (Z * Cursor) :=
  '(sign, c) ← cursor_byte c;
  '(magnitude, c) ← read_uleb c;
  if (u8 sign =? 0) && (magnitude <=? I128_MAX) then Ok (magnitude, c)
  else if (u8 sign =? 1) && (magnitude =? 0) then Err DecodeError.InvalidSignedInteger
  else if (u8 sign =? 1) && (magnitude =? Z.shiftl 1 127) then Ok (- 2 ^ 127, c)
  else if (u8 sign =? 1) && (magnitude <=? I128_MAX) then Ok (- magnitude, c)
  else Err DecodeError.InvalidSignedInteger.

Definition read_str (c : Cursor) : result DecodeError (list byte * Cursor) :=
  '(length, c) ← read_inline_length c;
  '(bytes, c) ← cursor_take length c;
  if utf8_valid bytes then Ok (bytes, c) else Err DecodeError.InvalidUtf8.
Definition read_string (c : Cursor) : result DecodeError (list byte * Cursor) :=
  read_str c.

Definition read_identity (tag : byte) (c : Cursor) : result DecodeError (list byte * Cursor) :=
  '(actual, c) ← cursor_byte c;
  if decide (actual = tag) then cursor_take 16 c
  else Err (DecodeError.InvalidIdentityTag tag actual).
Definition read_record_ref (c : Cursor) : result DecodeError (RecordRef * Cursor) :=
  '(database, c) ← read_identity (id_tag KDatabase) c;
  '(namespace, c) ← read_identity (id_tag KNamespace) c;
  '(record, c) ← read_identity (id_tag KRecord) c;
  Ok (scoped_ref_new (from_bytes database) (from_bytes namespace) (from_bytes record), c).

(** ** Budget and depth *)
Definition require_nodes (used minimum_more : Z) : result DecodeError unit :=
  let actual := saturating_add used minimum_more in
  if MAX_VALUE_NODES <? actual
  then Err (DecodeError.TooManyValueNodes actual MAX_VALUE_NODES) else Ok tt.
Definition take_node (used : Z) : result DecodeError Z :=
  require_nodes used 1;; Ok (used + 1).
Definition check_depth (parent : Z) : result DecodeError Z :=
  let depth := saturating_add parent 1 in
  if MAX_NESTING_DEPTH <? depth
  then Err (DecodeError.NestingTooDeep depth MAX_NESTING_DEPTH) else Ok depth.

(** ** Decoding

    Decoder state: the cursor and the budget's [used_nodes]. *)
Abbreviation dstate := (Cursor * Z)%type.
Abbreviation decoder A := (dstate → result DecodeError (A * dstate)).

(** [for _ in 0..count { values.push(decode(..)?) }]. *)
Fixpoint repeat_decode {A} (dec : decoder A) (count : nat) (s : dstate) :
    result DecodeError (list A * dstate) :=
  match count with
  | O => Ok ([], s)
  | S count =>
      '(x, s) ← dec s;
      '(xs, s) ← repeat_decode dec count s;
      Ok (x :: xs, s)
  end.

(** The map loop: read a key, require it above the previous one, decode the
    entry's value. *)
Fixpoint entries_decode {A} (dec : list byte → decoder A) (count : nat)
    (previous : option (list byte)) (s : dstate) :
    result DecodeError (list (list byte * A) * dstate) :=
  match count with
  | O => Ok ([], s)
  | S count =>
      '(key, c) ← read_string s.1;
      if match previous with
         | Some old => bool_decide (¬ lexico old key)
         | None => false
         end
      then Err DecodeError.MapKeysOutOfOrder
      else
        '(value, s) ← dec key (c, s.2);
        '(rest, s) ← entries_decode dec count (Some key) s;
        Ok ((key, value) :: rest, s)
  end.

(** The header both container decoders read: the new depth and the checked
    element count. *)
Definition container_header (parent_depth : Z) (s : dstate) :
    result DecodeError (Z * Z * dstate) :=
  depth ← check_depth parent_depth;
  '(count, c) ← read_collection_length s.1;
  if remaining c <? count then Err DecodeError.UnexpectedEof
  else require_nodes s.2 count;; Ok (depth, count, (c, s.2)).

Definition decode_list (rec : Z → decoder Value) (parent_depth : Z) : decoder Value := λ s,
  '(depth, count, s) ← container_header parent_depth s;
  '(values, s) ← repeat_decode (rec depth) (Z.to_nat count) s;
  Ok (VList values, s).
Definition decode_map (rec : Z → decoder Value) (parent_depth : Z) : decoder Value := λ s,
  '(depth, count, s) ← container_header parent_depth s;
  '(entries, s) ← entries_decode (λ _, rec depth) (Z.to_nat count) None s;
  Ok (VMap entries, s).

Fixpoint decode_payload (fuel : nat) (parent_depth : Z) (s : dstate) :
    result DecodeError (Value * dstate) :=
  let rec := match fuel with
             | O => λ _ _, Err DecodeError.ResourceLimit
             | S fuel => decode_payload fuel
             end in
  '(tag, c) ← cursor_byte s.1;
  used ← take_node s.2;
  match tag with
  | x00 => Ok (VNull, (c, used))
  | x01 => Ok (VBool false, (c, used))
  | x02 => Ok (VBool true, (c, used))
  | x03 => '(n, c) ← read_uleb c; Ok (VUnsigned n, (c, used))
  | x04 => '(n, c) ← read_signed c; Ok (VSigned n, (c, used))
  | x05 =>
      '(length, c) ← read_inline_length c;
      '(bytes, c) ← cursor_take length c;
      Ok (VBytes bytes, (c, used))
  | x06 => '(str, c) ← read_string c; Ok (VString str, (c, used))
  | x07 => decode_list rec parent_depth (c, used)
  | x08 => decode_map rec parent_depth (c, used)
  | x09 =>
      '(seconds, c) ← read_signed c;
      if (I64_MIN <=? seconds) && (seconds <=? I64_MAX) then
        '(nanoseconds, c) ← read_uleb c;
        if nanoseconds <=? U32_MAX then
          i ← ok_or (UtcInstant_new seconds nanoseconds) DecodeError.InvalidInstant;
          Ok (VInstant i, (c, used))
        else Err DecodeError.InvalidInstant
      else Err DecodeError.InvalidInstant
  | x0a => '(r, c) ← read_record_ref c; Ok (VRecordRef r, (c, used))
  | tag => Err (DecodeError.InvalidValueTag tag)
  end.

(** Container levels below the root. *)
Definition DECODE_FUEL : nat := 32.

Definition frame_payload (input : list byte) : result DecodeError (list byte) :=
  let frame := Cursor_new input in
  '(magic, frame) ← cursor_take (zlen MAGIC) frame;
  if decide (magic ≠ MAGIC) then Err DecodeError.InvalidMagic
  else
    '(record_kind, frame) ← cursor_byte frame;
    '(major, frame) ← cursor_byte frame;
    '(minor, frame) ← cursor_byte frame;
    if negb (u8 record_kind =? u8 VALUE_RECORD_KIND) || negb (u8 major =? u8 FORMAT_MAJOR)
       || (u8 FORMAT_MINOR <? u8 minor)
    then Err (DecodeError.UnsupportedVersion record_kind major minor)
    else
      '(declared, frame) ← read_length frame;
      if MAX_VALUE_PAYLOAD <? declared
      then Err (DecodeError.PayloadTooLarge declared MAX_VALUE_PAYLOAD)
      else
        '(payload_bytes, frame) ← cursor_take declared frame;
        if negb (remaining frame =? 0) then Err DecodeError.TrailingBytes
        else Ok payload_bytes.

Definition decode_value (input : list byte) : result DecodeError Value :=
  payload_bytes ← frame_payload input;
  '(value, s) ← decode_payload DECODE_FUEL 0 (Cursor_new payload_bytes, 0);
  if negb (remaining s.1 =? 0) then Err DecodeError.TrailingBytes else Ok value.

(** ** Borrowing root-map decoders *)
#[local] Unset Elimination Schemes.
Inductive BorrowedMapValue : Set :=
| BString (s : list byte)
| BSingletonStringMap (key value : list byte)
| BMap (entries : list (list byte * BorrowedMapValue))
| BRecordRefs (refs : list RecordRef)
| BValue (v : Value).
#[local] Set Elimination Schemes.

(** [decode_map_entries_with], specialised to the collecting closures of
    [decode_map_entries]. *)
Definition decode_map_entries {A} (decode_entry : list byte → Z → decoder A)
    (input : list byte) : result DecodeError (option (list (list byte * A))) :=
  payload_bytes ← frame_payload input;
  if decide (head payload_bytes = Some MAP_TAG) then
    '(_, payload) ← cursor_byte (Cursor_new payload_bytes);
    used ← take_node 0;
    '(depth, count, s) ← container_header 0 (payload, used);
    '(entries, s) ← entries_decode (λ key, decode_entry key depth) (Z.to_nat count) None s;
    if negb (remaining s.1 =? 0) then Err DecodeError.TrailingBytes
    else Ok (Some entries)
  else decode_value input;; Ok None.

(** Entries are decoded one level below the root map. *)
Definition ENTRY_FUEL : nat := 31.

Definition decode_map_value (input : list byte) :
    result DecodeError (option (list (list byte * Value))) :=
  decode_map_entries (λ _ depth, decode_payload ENTRY_FUEL depth) input.

Definition decode_borrowed_map_payload (fuel : nat) (depth : Z) : decoder BorrowedMapValue := λ s,
  tag ← peek s.1;
  if decide (tag ≠ STRING_TAG) then
    '(v, s) ← decode_payload fuel depth s; Ok (BValue v, s)
  else
    used ← take_node s.2;
    '(_, c) ← cursor_byte s.1;
    '(str, c) ← read_str c;
    Ok (BString str, (c, used)).

Fixpoint decode_borrowed_map_tree (fuel : nat) (depth : Z) (s : dstate) :
    result DecodeError (BorrowedMapValue * dstate) :=
  let rec := match fuel with
             | O => λ _ _, Err DecodeError.ResourceLimit
             | S fuel => decode_borrowed_map_tree fuel
             end in
  tag ← peek s.1;
  if decide (tag = STRING_TAG) then decode_borrowed_map_payload fuel depth s
  else if decide (tag = MAP_TAG) then
    used ← take_node s.2;
    '(_, c) ← cursor_byte s.1;
    '(depth, count, s) ← container_header depth (c, used);
    if count =? 1 then
      '(key, c) ← read_str s.1;
      tag ← peek c;
      if decide (tag = STRING_TAG) then
        used ← take_node s.2;
        '(_, c) ← cursor_byte c;
        '(value, c) ← read_str c;
        Ok (BSingletonStringMap key value, (c, used))
      else
        '(value, s) ← rec depth (c, s.2);
        Ok (BMap [(key, value)], s)
    else
      '(entries, s) ← entries_decode (λ _, rec depth) (Z.to_nat count) None s;
      Ok (BMap entries, s)
  else '(v, s) ← decode_payload fuel depth s; Ok (BValue v, s).

(** The reference loop; [None] on the first element that is not a record
    reference. *)
Fixpoint record_refs_loop (count : nat) (s : dstate) :
    result DecodeError (option (list RecordRef * dstate)) :=
  match count with
  | O => Ok (Some ([], s))
  | S count =>
      tag ← peek s.1;
      if decide (tag ≠ RECORD_REF_TAG) then Ok None
      else
        used ← take_node s.2;
        '(_, c) ← cursor_byte s.1;
        '(r, c) ← read_record_ref c;
        rest ← record_refs_loop count (c, used);
        Ok (match rest with
            | Some (rs, s) => Some (r :: rs, s)
            | None => None
            end)
  end.

(** [None] leaves the caller at the original offset and node count. *)
Definition decode_borrowed_record_refs (depth : Z) (s : dstate) :
    result DecodeError (option (list RecordRef * dstate)) :=
  tag ← peek s.1;
  if decide (tag ≠ LIST_TAG) then Ok None
  else
    used ← take_node s.2;
    '(_, c) ← cursor_byte s.1;
    '(_, count, s) ← container_header depth (c, used);
    record_refs_loop (Z.to_nat count) s.

Definition decode_selected_borrowed_payload (borrowed_map_fields record_ref_list_fields :
    list (list byte)) (key : list byte) (depth : Z) : decoder BorrowedMapValue := λ s,
  is_map ← (if decide (key ∈ borrowed_map_fields)
            then tag ← peek s.1; Ok (bool_decide (tag = MAP_TAG)) else Ok false);
  if is_map : bool then decode_borrowed_map_tree ENTRY_FUEL depth s
  else if decide (key ∈ record_ref_list_fields) then
    refs ← decode_borrowed_record_refs depth s;
    match refs with
    | Some (references, s) => Ok (BRecordRefs references, s)
    | None => decode_borrowed_map_payload ENTRY_FUEL depth s
    end
  else decode_borrowed_map_payload ENTRY_FUEL depth s.

Definition decode_borrowed_map_value (input : list byte) :
    result DecodeError (option (list (list byte * BorrowedMapValue))) :=
  decode_map_entries (λ _, decode_borrowed_map_payload ENTRY_FUEL) input.

Definition decode_borrowed_map_value_with_fields_and_record_refs (input : list byte)
    (borrowed_map_fields record_ref_list_fields : list (list byte)) :
    result DecodeError (option (list (list byte * BorrowedMapValue))) :=
  decode_map_entries
    (decode_selected_borrowed_payload borrowed_map_fields record_ref_list_fields) input.

Definition decode_borrowed_map_value_with_fields (input : list byte)
    (borrowed_map_fields : list (list byte)) :
    result DecodeError (option (list (list byte * BorrowedMapValue))) :=
  decode_borrowed_map_value_with_fields_and_record_refs input borrowed_map_fields [].

(** The visitor variant: [visit] runs on each entry in key order.  On an error
    the source has already called [visit] on a prefix of the entries; its
    caller drops that state with the error, so only a successful run's state is
    returned. *)
Definition visit_borrowed_map_value_with_fields_and_record_refs {S} (input : list byte)
    (borrowed_map_fields record_ref_list_fields : list (list byte))
    (visit : list byte → BorrowedMapValue → S → S) (st : S) : result DecodeError (option S) :=
  entries ← decode_borrowed_map_value_with_fields_and_record_refs input
    borrowed_map_fields record_ref_list_fields;
  Ok (option_map (foldl (λ st e, visit e.1 e.2 st) st) entries).
