(* ===== verification/CodecFacts.v ===== *)
(** * Correctness of the canonical codec

    The reader/writer pairs of [Codec] are exact inverses: a reader accepts
    precisely the bytes its writer produces for a valid result.  [exact]
    states this once, as an equivalence, and every reader's lemma composes the
    lemmas of the readers it calls. *)
From S2P Require Import Prelude Ids Value Codec.

#[local] Arguments write_uleb : simpl never.
#[local] Arguments read_uleb : simpl never.

(** ** Cursors *)

(** The cursor [c] stands before the unread bytes [l]. *)
Definition cur_at (c : Cursor) (l : list byte) : Prop :=
  0 ≤ c_offset c ∧ c_offset c + zlen l = zlen (c_bytes c) ∧
  zlen (c_bytes c) ≤ I64_MAX ∧ drop (Z.to_nat (c_offset c)) (c_bytes c) = l.
Definition adv (n : Z) (c : Cursor) : Cursor := mk_cursor (c_bytes c) (c_offset c + n).

Lemma cur_at_new l : zlen l ≤ I64_MAX → cur_at (Cursor_new l) l.
Proof. intros. by repeat split. Qed.
Lemma cur_at_adv c l1 l2 : cur_at c (l1 ++ l2) → cur_at (adv (zlen l1) c) l2.
Proof.
  intros (H0 & Hlen & Hmax & Hd). pose proof (zlen_nonneg l1). rewrite zlen_app in Hlen.
  repeat split; simpl; [lia|lia|done|].
  rewrite Z2Nat.inj_add, <-drop_drop, Hd by lia.
  unfold zlen. by rewrite Nat2Z.id, drop_app_length.
Qed.
Lemma cur_at_remaining c l : cur_at c l → remaining c = zlen l.
Proof. intros (?&?&?&?). unfold remaining. lia. Qed.
Lemma adv_adv a b c : adv a (adv b c) = adv (b + a) c.
Proof. unfold adv. simpl. f_equal. lia. Qed.
Lemma adv_0 c : adv 0 c = c.
Proof. destruct c. unfold adv. simpl. f_equal. lia. Qed.

Lemma cur_at_lookup c l : cur_at c l → c_bytes c !! Z.to_nat (c_offset c) = head l.
Proof.
  intros (?&?&?&<-). rewrite <-(Nat.add_0_r (Z.to_nat _)) at 1.
  rewrite <-lookup_drop. by destruct (drop _ _).
Qed.
Lemma cursor_byte_nil c : cur_at c [] → cursor_byte c = Err DecodeError.UnexpectedEof.
Proof. intros Hc. unfold cursor_byte. by rewrite (cur_at_lookup _ _ Hc). Qed.
Lemma cursor_byte_cons c b l : cur_at c (b :: l) → cursor_byte c = Ok (b, adv 1 c).
Proof. intros Hc. unfold cursor_byte. by rewrite (cur_at_lookup _ _ Hc). Qed.
Lemma peek_nil c : cur_at c [] → peek c = Err DecodeError.UnexpectedEof.
Proof. intros Hc. unfold peek. by rewrite (cur_at_lookup _ _ Hc). Qed.
Lemma peek_cons c b l : cur_at c (b :: l) → peek c = Ok b.
Proof. intros Hc. unfold peek. by rewrite (cur_at_lookup _ _ Hc). Qed.
Lemma cur_at_tail c b l : cur_at c (b :: l) → cur_at (adv 1 c) l.
Proof. apply (cur_at_adv c [b] l). Qed.

(** ** Exact readers *)
Definition exact {A} (R : Cursor → result DecodeError (A * Cursor))
    (W : A → list byte) (ok : A → Prop) : Prop :=
  ∀ c l a c', cur_at c l →
    R c = Ok (a, c') ↔ ∃ l', l = W a ++ l' ∧ ok a ∧ c' = adv (zlen (W a)) c.

Lemma exact_byte : exact cursor_byte (λ b, [b]) (λ _, True).
Proof.
  intros c l b c' Hc. destruct l as [|b' l].
  { rewrite (cursor_byte_nil _ Hc). split; [done|]. by intros (?&?&_). }
  rewrite (cursor_byte_cons _ _ _ Hc). split.
  - intros [= -> <-]. by exists l.
  - by intros (?&[= -> ->]&_&->).
Qed.
Lemma cursor_take_spec n c l bs c' :
  0 ≤ n ≤ I64_MAX → cur_at c l →
  cursor_take n c = Ok (bs, c') ↔ ∃ l', l = bs ++ l' ∧ zlen bs = n ∧ c' = adv n c.
Proof.
  intros Hn (H0 & Hlen & Hmax & Hd). unfold cursor_take, checked_add.
  pose proof (zlen_nonneg l).
  destruct (Z.leb_spec (c_offset c + n) U64_MAX); [|unfold I64_MAX, U64_MAX in *; lia].
  simpl. rewrite Hd.
  destruct (Z.leb_spec (c_offset c + n) (zlen (c_bytes c))); split.
  - intros [= <- <-]. exists (drop (Z.to_nat n) l). rewrite take_drop.
    split; [done|]. split; [|done]. unfold zlen in *. rewrite length_take. lia.
  - intros (l' & -> & <- & ->). unfold zlen. by rewrite Nat2Z.id, take_app_length.
  - done.
  - intros (l' & -> & <- & _). rewrite zlen_app in *. pose proof (zlen_nonneg l'). lia.
Qed.

(** ** ULEB128 *)
Definition uleb_enc (fuel : nat) (m : Z) : list byte := write_uleb_loop fuel m [].

Lemma write_uleb_loop_out fuel m out :
  write_uleb_loop fuel m out = out ++ uleb_enc fuel m.
Proof.
  unfold uleb_enc. revert m out. induction fuel as [|fuel IH]; intros m out; simpl.
  { by rewrite app_nil_r. }
  destruct (_ =? 0); [done|]. rewrite IH, (IH _ [_]). by rewrite app_assoc.
Qed.
Lemma land_127 z : Z.land z 127 = z mod 128.
Proof. apply (Z.land_ones z 7). lia. Qed.
Lemma shiftr_7 z : Z.shiftr z 7 = z / 128.
Proof. by rewrite Z.shiftr_div_pow2 by lia. Qed.
Lemma lor_disjoint a b n : 0 ≤ a < 2 ^ n → 0 ≤ n → Z.lor a (Z.shiftl b n) = a + b * 2 ^ n.
Proof.
  intros Ha Hn. rewrite <-Z.shiftl_mul_pow2 by done.
  rewrite Z.add_nocarry_lxor, Z.lxor_lor; [done|..].
  all: apply Z.bits_inj'; intros i Hi; rewrite Z.land_spec, Z.bits_0.
  all: destruct (decide (i < n)); [by rewrite Z.shiftl_spec_low, andb_false_r by lia|].
  all: destruct (decide (a = 0)) as [->|]; [by rewrite Z.bits_0|].
  all: rewrite (Z.bits_above_log2 a); [done|lia|].
  all: apply Z.log2_lt_pow2; [lia|]; apply Z.lt_le_trans with (2 ^ n); [lia|];
    apply Z.pow_le_mono_r; lia.
Qed.
Lemma lor_128 a : 0 ≤ a < 128 → Z.lor a 128 = a + 128.
Proof. intros. exact (lor_disjoint a 1 7 ltac:(lia) ltac:(lia)). Qed.

Lemma uleb_enc_S fuel m : 0 ≤ m →
  uleb_enc (S fuel) m =
  if decide (m < 128) then [byte_of m] else byte_of (m mod 128 + 128) :: uleb_enc fuel (m / 128).
Proof.
  intros Hm. unfold uleb_enc at 1. cbn -[Z.land Z.shiftr Z.lor].
  rewrite land_127, shiftr_7. case_decide as Hd.
  - by rewrite Z.div_small, Z.mod_small by lia.
  - assert (1 ≤ m / 128) by (apply Z.div_le_lower_bound; lia).
    destruct (Z.eqb_spec (m / 128) 0); [lia|].
    rewrite lor_128 by (apply Z.mod_pos_bound; lia).
    by rewrite write_uleb_loop_out.
Qed.

Lemma byte_of_small m b : 0 ≤ m < 256 → byte_of m = b ↔ m = u8 b.
Proof.
  intros Hm. split; intros Hb.
  - rewrite <-Hb, u8_byte_of, Z.mod_small; lia.
  - by rewrite Hb, byte_of_u8.
Qed.
Lemma land_128 b : (Z.land (u8 b) 128 =? 0) = (u8 b <? 128).
Proof. by destruct b. Qed.

(** The powers of the group at [index]: [P] weighs it, [Q] bounds what is left. *)
Lemma uleb_group_bounds i : 0 ≤ i ≤ 18 →
  0 < 2 ^ (i * 7) ∧ 2 ^ ((i + 1) * 7) = 128 * 2 ^ (i * 7) ∧
  (i = 18 ∧ 2 ^ (128 - i * 7) = 4 ∧ 2 ^ (128 - (i + 1) * 7) = 0 ∨
   i ≤ 17 ∧ 2 ^ (128 - i * 7) = 128 * 2 ^ (128 - (i + 1) * 7) ∧
   4 ≤ 2 ^ (128 - (i + 1) * 7)).
Proof.
  intros Hi. split; [apply Z.pow_pos_nonneg; lia|]. split.
  { replace ((i + 1) * 7) with (7 + i * 7) by lia. by rewrite Z.pow_add_r by lia. }
  destruct (decide (i = 18)) as [->|]; [by left|right]. split; [lia|]. split.
  - replace (128 - i * 7) with (7 + (128 - (i + 1) * 7)) by lia.
    by rewrite Z.pow_add_r by lia.
  - change 4 with (2 ^ 2). apply Z.pow_le_mono_r; lia.
Qed.

Lemma read_uleb_loop_spec k i acc c l n c' :
  i = 19 - Z.of_nat k → 0 ≤ i → 0 ≤ acc < 2 ^ (i * 7) → cur_at c l →
  read_uleb_loop k i acc c = Ok (n, c') ↔
  ∃ m l', 0 ≤ m < 2 ^ (128 - i * 7) ∧ (i = 0 ∨ m ≠ 0) ∧ n = acc + m * 2 ^ (i * 7) ∧
    l = uleb_enc k m ++ l' ∧ c' = adv (zlen (uleb_enc k m)) c.
Proof.
  revert i acc c l. induction k as [|k IH]; intros i acc c l Hi Hi0 Hacc Hc.
  { replace i with 19 by lia. split; [done|]. intros (m & l' & Hm & _).
    change (2 ^ (128 - 19 * 7)) with 0 in Hm. lia. }
  destruct (uleb_group_bounds i) as (HP & HP' & HQ); [lia|].
  set (P := 2 ^ (i * 7)) in *. set (Q := 2 ^ (128 - i * 7)) in *.
  set (Q' := 2 ^ (128 - (i + 1) * 7)) in *.
  cbn [read_uleb_loop]. destruct l as [|b l].
  { rewrite (cursor_byte_nil _ Hc). split; [done|].
    intros (m & l' & Hm & _ & _ & Hl & _). rewrite uleb_enc_S in Hl by lia.
    by case_decide. }
  rewrite (cursor_byte_cons _ _ _ Hc). cbn -[Z.land Z.lor Z.shiftl uleb_enc Z.mul].
  rewrite land_127, land_128, lor_disjoint by lia. fold P. pose proof (u8_range b) as Hb.
  assert (0 ≤ u8 b mod 128 < 128) as Hlow by (apply Z.mod_pos_bound; lia).
  destruct (Z.ltb_spec (u8 b) 128) as [Hstop|Hmore].
  - (* the last group *)
    rewrite Z.mod_small by lia.
    assert (∀ m l', 0 ≤ m < Q → b :: l = uleb_enc (S k) m ++ l' → m = u8 b ∧ l' = l) as Hinv.
    { intros m l' Hm Hl. rewrite uleb_enc_S in Hl by lia. case_decide.
      - injection Hl as Hl ->. split; [|done]. apply byte_of_small; [lia|done].
      - injection Hl as Hl _. pose proof (Z.mod_pos_bound m 128 ltac:(lia)).
        symmetry in Hl. apply byte_of_small in Hl; lia. }
    destruct ((i =? 18) && (3 <? u8 b)) eqn:H18.
    { split; [done|]. intros (m & l' & Hm & _ & _ & Hl & _).
      apply Hinv in Hl; lia. }
    destruct ((0 <? i) && (u8 b =? 0)) eqn:H0.
    { split; [done|]. intros (m & l' & Hm & Hnz & _ & Hl & _).
      apply Hinv in Hl; lia. }
    split.
    + intros [= <- <-]. exists (u8 b), l. rewrite (uleb_enc_S k) by lia.
      rewrite decide_True, byte_of_u8 by lia. split_and!; done || lia.
    + intros (m & l' & Hm & _ & -> & Hl & ->). apply Hinv in Hl as [-> ->]; [|lia].
      rewrite uleb_enc_S, decide_True by lia. done.
  - (* a continuation byte *)
    assert (u8 b mod 128 = u8 b - 128) as ->.
    { symmetry. apply (Z.mod_unique_pos _ _ 1); lia. }
    assert (∀ m l', 0 ≤ m < Q → b :: l = uleb_enc (S k) m ++ l' →
      128 ≤ m ∧ m mod 128 = u8 b - 128 ∧ l = uleb_enc k (m / 128) ++ l') as Hinv.
    { intros m l' Hm Hl. rewrite uleb_enc_S in Hl by lia. case_decide.
      - injection Hl as Hl ->. symmetry in Hl. apply byte_of_small in Hl; lia.
      - injection Hl as Hl ->. pose proof (Z.mod_pos_bound m 128 ltac:(lia)).
        symmetry in Hl. apply byte_of_small in Hl; [|lia]. split; [lia|]. split; [lia|done]. }
    destruct ((i =? 18) && (3 <? u8 b - 128)) eqn:H18.
    { split; [done|]. intros (m & l' & Hm & _ & _ & Hl & _). apply Hinv in Hl; lia. }
    rewrite IH; [..|by apply (cur_at_tail c b)]; [|lia|lia|nia]. fold Q'. rewrite HP'. split.
    + intros (m' & l' & Hm' & Hnz & -> & -> & ->).
      exists (u8 b - 128 + 128 * m'), l'.
      assert ((u8 b - 128 + 128 * m') / 128 = m') as Hdiv.
      { symmetry. apply (Z.div_unique_pos _ _ _ (u8 b - 128)); lia. }
      assert ((u8 b - 128 + 128 * m') mod 128 = u8 b - 128) as Hmod.
      { symmetry. apply (Z.mod_unique_pos _ _ m'); lia. }
      rewrite uleb_enc_S, decide_False, Hdiv, Hmod by lia.
      replace (u8 b - 128 + 128) with (u8 b) by lia. rewrite byte_of_u8.
      rewrite adv_adv, zlen_cons. split_and!; done || lia.
    + intros (m & l' & Hm & Hnz & -> & Hl & ->).
      pose proof (Hinv _ _ Hm Hl) as (H128 & Hmod & ->).
      pose proof (Z.div_mod m 128 ltac:(lia)) as Hdm. rewrite Hmod in Hdm.
      exists (m / 128), l'. rewrite uleb_enc_S, decide_False by lia.
      rewrite adv_adv, zlen_cons. split_and!; first [done|lia|nia].
Qed.

Lemma exact_uleb : exact read_uleb (λ n, write_uleb n []) (λ n, 0 ≤ n ≤ U128_MAX).
Proof.
  intros c l n c' Hc. unfold read_uleb.
  rewrite (read_uleb_loop_spec 19 0 0) by (done || lia).
  change (2 ^ (128 - 0 * 7)) with (U128_MAX + 1). change (2 ^ (0 * 7)) with 1. split.
  - intros (m & l' & Hm & _ & -> & -> & ->). exists l'.
    replace (0 + m * 1) with m by lia. split; [done|]. split; [lia|done].
  - intros (l' & -> & Hn & ->). exists n, l'. split_and!; first [done|lia|auto].
Qed.

(** ** Composing readers *)
Section exact_bind.
Context {A B : Type} (R : Cursor → result DecodeError (A * Cursor))
  (W : A → list byte) (ok : A → Prop) (He : exact R W ok).

Lemma exact_bind (k : A → Cursor → result DecodeError B) c l b :
  cur_at c l →
  ('(a, c) ← R c; k a c) = Ok b ↔
  ∃ a l', l = W a ++ l' ∧ ok a ∧ cur_at (adv (zlen (W a)) c) l' ∧
    k a (adv (zlen (W a)) c) = Ok b.
Proof using He.
  intros Hc. rewrite bind_Ok. split.
  - intros ([a c1] & HR & Hk). apply (He _ _ _ _ Hc) in HR as (l' & -> & Ha & ->).
    exists a, l'. split_and!; [done..| |done]. by apply cur_at_adv.
  - intros (a & l' & -> & Ha & _ & Hk). exists (a, adv (zlen (W a)) c).
    split; [|done]. apply (He _ _ _ _ Hc). eauto.
Qed.
End exact_bind.

Abbreviation uleb n := (write_uleb n []).
Lemma write_uleb_out n out : write_uleb n out = out ++ uleb n.
Proof. apply write_uleb_loop_out. Qed.

(** A reader followed by a guard on its result. *)
Lemma exact_guard {A} (R : Cursor → result DecodeError (A * Cursor)) W ok
    (p : A → bool) (e : A → DecodeError) (ok' : A → Prop) :
  exact R W ok → (∀ a, ok' a ↔ ok a ∧ p a = true) →
  exact (λ c, '(a, c) ← R c; if p a then Ok (a, c) else Err (e a)) W ok'.
Proof.
  intros He Hp c l a c' Hc. rewrite (exact_bind R W ok He) by done. split.
  - intros (a1 & l' & -> & Ha & Hc' & Hk). destruct (p a1) eqn:Hpa; [|done].
    injection Hk as -> <-. exists l'. by rewrite Hp.
  - intros (l' & -> & [Ha Hpa]%Hp & ->). exists a, l'. rewrite Hpa.
    split_and!; [done..| |done]. by apply cur_at_adv.
Qed.
Lemma exact_ext {A} (R R' : Cursor → result DecodeError (A * Cursor)) W ok :
  (∀ c, R c = R' c) → exact R W ok → exact R' W ok.
Proof. intros HR He c l a c' Hc. rewrite <-HR. by apply He. Qed.

Lemma exact_length : exact read_length (λ n, uleb n) (λ n, 0 ≤ n ≤ USIZE_MAX).
Proof.
  apply (exact_guard _ _ _ (λ n, n <=? USIZE_MAX) _ _ exact_uleb).
  intros n. unfold USIZE_MAX, U64_MAX, U128_MAX. lia.
Qed.
Lemma exact_inline_length :
  exact read_inline_length (λ n, uleb n) (λ n, 0 ≤ n ≤ MAX_INLINE_BYTES).
Proof.
  eapply exact_ext; [|eapply (exact_guard _ _ _ (λ n, n <=? MAX_INLINE_BYTES)
    (λ n, DecodeError.InlineValueTooLarge n MAX_INLINE_BYTES) _ exact_length)].
  - intros c. unfold read_inline_length. destruct (read_length c) as [[n c1]|]; [|done].
    simpl. by rewrite Z.ltb_antisym; destruct (n <=? MAX_INLINE_BYTES).
  - intros n. unfold MAX_INLINE_BYTES, USIZE_MAX, U64_MAX. lia.
Qed.
Lemma exact_collection_length :
  exact read_collection_length (λ n, uleb n) (λ n, 0 ≤ n ≤ MAX_COLLECTION_ENTRIES).
Proof.
  eapply exact_ext; [|eapply (exact_guard _ _ _ (λ n, n <=? MAX_COLLECTION_ENTRIES)
    (λ n, DecodeError.CollectionTooLarge n MAX_COLLECTION_ENTRIES) _ exact_length)].
  - intros c. unfold read_collection_length. destruct (read_length c) as [[n c1]|]; [|done].
    simpl. by rewrite Z.ltb_antisym; destruct (n <=? MAX_COLLECTION_ENTRIES).
  - intros n. unfold MAX_COLLECTION_ENTRIES, USIZE_MAX, U64_MAX. lia.
Qed.

(** Length-prefixed bytes, shared by byte strings and text. *)
Definition enc_inline (bs : list byte) : list byte := uleb (zlen bs) ++ bs.
Lemma exact_inline :
  exact (λ c, '(n, c) ← read_inline_length c; cursor_take n c)
    enc_inline (λ bs, inline_okb bs = true).
Proof.
  intros c l bs c' Hc. rewrite (exact_bind _ _ _ exact_inline_length) by done.
  unfold enc_inline, inline_okb. split.
  - intros (n & l1 & -> & Hn & Hc1 & Hk).
    apply (cursor_take_spec n _ _ _ _ ltac:(unfold MAX_INLINE_BYTES, I64_MAX in *; lia) Hc1)
      in Hk as (l' & -> & <- & ->).
    exists l'. rewrite <-app_assoc, adv_adv, zlen_app. split_and!; [done|lia|done].
  - intros (l' & -> & Hok & ->). pose proof (zlen_nonneg bs).
    exists (zlen bs), (bs ++ l'). rewrite <-app_assoc. split_and!; [done|lia|lia| |].
    + rewrite <-app_assoc in Hc. by apply cur_at_adv.
    + rewrite <-app_assoc in Hc. apply cur_at_adv in Hc.
      apply (cursor_take_spec (zlen bs) _ _ _ _
        ltac:(unfold MAX_INLINE_BYTES, I64_MAX in *; lia) Hc).
      exists l'. by rewrite adv_adv, zlen_app.
Qed.
Lemma exact_str : exact read_str enc_inline (λ s, str_okb s = true).
Proof.
  eapply exact_ext; [|apply (exact_guard _ _ _ utf8_valid (λ _, DecodeError.InvalidUtf8) _
    exact_inline)].
  - intros c. unfold read_str. by destruct (read_inline_length c) as [[n c1]|].
  - intros s. unfold str_okb. by rewrite andb_true_iff.
Qed.

Definition enc_signed (n : Z) : list byte := (signed_parts n).1 :: uleb (signed_parts n).2.
Lemma write_signed_out n out : write_signed n out = out ++ enc_signed n.
Proof.
  unfold write_signed, enc_signed. destruct (signed_parts n) as [s m]. simpl.
  by rewrite write_uleb_out, <-app_assoc.
Qed.
Lemma exact_signed :
  exact read_signed enc_signed (λ n, - 2 ^ 127 ≤ n ≤ I128_MAX).
Proof.
  intros c l n c' Hc. unfold read_signed. rewrite (exact_bind _ _ _ exact_byte) by done.
  change (Z.shiftl 1 127) with (2 ^ 127). unfold enc_signed, signed_parts. split.
  - intros (s & l1 & -> & _ & Hc1 & Hk).
    apply (exact_bind _ _ _ exact_uleb _ _ _ _ Hc1) in Hk as (m & l2 & -> & Hm & _ & Hk).
    rewrite adv_adv in Hk. unfold I128_MAX in *. exists l2.
    destruct (Z.eqb_spec (u8 s) 0) as [Hs|Hs], (Z.eqb_spec (u8 s) 1) as [Hs1|Hs1];
      simpl in Hk; try lia; [apply (u8_inj s x00) in Hs|apply (u8_inj s x01) in Hs1|];
      [| |repeat case_match; done]; subst s.
    + destruct (Z.leb_spec m (2 ^ 127 - 1)); [|done]. simplify_eq/=.
      destruct (Z.ltb_spec n 0); [lia|]. simpl. rewrite !zlen_cons. split_and!; [done|lia..|done].
    + destruct (Z.eqb_spec m 0); [done|].
      assert (n = - m ∧ c' = adv (zlen [x01] + zlen (uleb m)) c ∧ m ≤ 2 ^ 127) as (-> & -> & ?).
      { destruct (Z.eqb_spec m (2 ^ 127)); [injection Hk as <- <-; split_and!; [lia|done|lia]|].
        destruct (Z.leb_spec m (2 ^ 127 - 1)); [|done].
        injection Hk as <- <-. split_and!; [done|done|lia]. }
      destruct (Z.ltb_spec (- m) 0); [|lia]. simpl. rewrite Z.abs_opp, Z.abs_eq, !zlen_cons by lia.
      split_and!; [done|lia..|done].
  - intros (l' & -> & Hn & ->). unfold I128_MAX in *.
    assert (∀ b m, cur_at c ((b :: uleb m) ++ l') → 0 ≤ m ≤ U128_MAX →
      read_uleb (adv 1 c) = Ok (m, adv (zlen (b :: uleb m)) c)) as Hread.
    { intros b m Hcm Hm. apply (cur_at_adv c [b]) in Hcm.
      apply (exact_uleb _ _ _ _ Hcm). exists l'. split_and!; [done|lia..|].
      by rewrite adv_adv, zlen_cons. }
    destruct (Z.ltb_spec n 0); simpl in *.
    + exists x01. eexists. split_and!; [done|done|by apply (cur_at_adv c [x01])|].
      change (zlen [x01]) with 1.
      rewrite (Hread x01 (Z.abs n)) by (done || unfold U128_MAX; lia). simpl.
      destruct (Z.eqb_spec (Z.abs n) 0); [lia|].
      destruct (Z.eqb_spec (Z.abs n) (2 ^ 127)); [do 2 f_equal; lia|].
      destruct (Z.leb_spec (Z.abs n) (2 ^ 127 - 1)); [do 2 f_equal; lia|lia].
    + exists x00. eexists. split_and!; [done|done|by apply (cur_at_adv c [x00])|].
      change (zlen [x00]) with 1.
      rewrite (Hread x00 n) by (done || unfold U128_MAX; lia). simpl.
      by destruct (Z.leb_spec n (2 ^ 127 - 1)); [|lia].
Qed.

(** ** Identities and references *)
Lemma exact_identity tag :
  exact (read_identity tag) (λ bs, tag :: bs) (λ bs, length bs = 16%nat).
Proof.
  intros c l bs c' Hc. unfold read_identity. rewrite (exact_bind _ _ _ exact_byte) by done.
  assert (∀ t l1, cur_at (adv (zlen [t]) c) l1 →
    cursor_take 16 (adv (zlen [t]) c) = Ok (bs, c') ↔
    ∃ l', l1 = bs ++ l' ∧ length bs = 16%nat ∧ c' = adv (zlen (t :: bs)) c) as Htake.
  { intros t l1 Hc1. rewrite (cursor_take_spec 16 _ _ _ _ ltac:(unfold I64_MAX; lia) Hc1).
    rewrite adv_adv, zlen_cons. unfold zlen. split; intros (l' & -> & Hl & ->);
      exists l'; (split_and!; [done|lia|f_equal; simpl; lia]). }
  split.
  - intros (t & l1 & -> & _ & Hc1 & Hk). case_decide; [subst|done].
    apply (Htake _ _ Hc1) in Hk as (l' & -> & ? & ->). by exists l'.
  - intros (l' & -> & Hlen & ->). exists tag, (bs ++ l').
    assert (cur_at (adv (zlen [tag]) c) (bs ++ l')) as Hc1 by by apply (cur_at_adv c [tag]).
    rewrite decide_True by done. split_and!; [done..|].
    apply (Htake _ _ Hc1). by exists l'.
Qed.

Definition enc_ref (r : RecordRef) : list byte :=
  (id_tag KDatabase :: as_bytes (ref_database r)) ++
  (id_tag KNamespace :: as_bytes (ref_namespace r)) ++
  (id_tag KRecord :: as_bytes (ref_id r)).
Lemma exact_record_ref : exact read_record_ref enc_ref ref_ok.
Proof.
  intros c l r c' Hc. unfold read_record_ref, enc_ref.
  rewrite (exact_bind _ _ _ (exact_identity _)) by done. split.
  - intros (d & l1 & -> & Hd & Hc1 & Hk).
    apply (exact_bind _ _ _ (exact_identity _) _ _ _ _ Hc1) in Hk
      as (n & l2 & -> & Hn & Hc2 & Hk).
    apply (exact_bind _ _ _ (exact_identity _) _ _ _ _ Hc2) in Hk
      as (i & l3 & -> & Hi & _ & Hk).
    injection Hk as <- <-. exists l3. rewrite !adv_adv, !zlen_app, <-!app_assoc.
    split_and!; [done| |f_equal; simpl; lia]. done.
  - intros (l' & -> & [[Hd Hn] Hi] & ->). destruct r as [[[d] [n]] [i]].
    unfold identity_ok in *. cbn [ref_id ref_scope ref_database ref_namespace ns_database
      ns_namespace as_bytes] in *. unfold ref_database, ref_namespace in *.
    cbn [ref_id ref_scope ns_database ns_namespace as_bytes] in *.
    rewrite <-!app_assoc in Hc |- *.
    exists d. eexists. split_and!; [done|done|by apply cur_at_adv|].
    apply (cur_at_adv c (id_tag KDatabase :: d)) in Hc.
    apply (exact_bind _ _ _ (exact_identity _) _ _ _ _ Hc). exists n. eexists.
    split_and!; [done|done|by apply (cur_at_adv _ (id_tag KNamespace :: n))|].
    apply (cur_at_adv _ (id_tag KNamespace :: n)) in Hc.
    apply (exact_bind _ _ _ (exact_identity _) _ _ _ _ Hc). exists i. eexists.
    split_and!; [done|done|by apply (cur_at_adv _ (id_tag KRecord :: i))|].
    unfold scoped_ref_new. rewrite !adv_adv. do 3 f_equal.
    rewrite !zlen_app. lia.
Qed.

(** ** Budgeted decoders *)

(** [dexact]: an exact reader that also charges [nd a] nodes to the budget. *)
Definition dexact {A} (dec : decoder A) (W : A → list byte) (ok : A → Prop)
    (nd : A → Z) : Prop :=
  ∀ u c l a c' u', 0 ≤ u ≤ MAX_VALUE_NODES → cur_at c l →
    dec (c, u) = Ok (a, (c', u')) ↔
    ∃ l', l = W a ++ l' ∧ ok a ∧ u + nd a ≤ MAX_VALUE_NODES ∧
      c' = adv (zlen (W a)) c ∧ u' = u + nd a.

Lemma take_node_Ok u u' : 0 ≤ u ≤ MAX_VALUE_NODES →
  take_node u = Ok u' ↔ u + 1 ≤ MAX_VALUE_NODES ∧ u' = u + 1.
Proof.
  intros Hu. unfold take_node, require_nodes, saturating_add, MAX_VALUE_NODES, U64_MAX in *.
  destruct (Z.ltb_spec 262144 (Z.min (u + 1) (2 ^ 64 - 1))); simpl; split; try done; try lia.
  - intros [= <-]. lia.
  - by intros [_ ->].
Qed.
Lemma require_nodes_Ok u n : 0 ≤ u ≤ MAX_VALUE_NODES → 0 ≤ n →
  require_nodes u n = Ok tt ↔ u + n ≤ MAX_VALUE_NODES.
Proof.
  intros Hu Hn. unfold require_nodes, saturating_add, MAX_VALUE_NODES, U64_MAX in *.
  destruct (Z.ltb_spec 262144 (Z.min (u + n) (2 ^ 64 - 1))); split; try done; lia.
Qed.
Lemma check_depth_Ok d e : 0 ≤ d ≤ MAX_NESTING_DEPTH →
  check_depth d = Ok e ↔ d + 1 ≤ MAX_NESTING_DEPTH ∧ e = d + 1.
Proof.
  intros Hd. unfold check_depth, saturating_add, MAX_NESTING_DEPTH, U64_MAX in *.
  destruct (Z.ltb_spec 32 (Z.min (d + 1) (2 ^ 64 - 1))); split; try done; try lia.
  - intros [= <-]. lia.
  - intros [_ ->]. f_equal. lia.
Qed.

Lemma container_header_Ok d c u l depth count s :
  0 ≤ d ≤ MAX_NESTING_DEPTH → 0 ≤ u ≤ MAX_VALUE_NODES → cur_at c l →
  container_header d (c, u) = Ok (depth, count, s) ↔
  d + 1 ≤ MAX_NESTING_DEPTH ∧ depth = d + 1 ∧
  ∃ l', l = uleb count ++ l' ∧ 0 ≤ count ≤ MAX_COLLECTION_ENTRIES ∧ count ≤ zlen l' ∧
    u + count ≤ MAX_VALUE_NODES ∧ s = (adv (zlen (uleb count)) c, u).
Proof.
  intros Hd Hu Hc. unfold container_header. rewrite bind_Ok. simpl. split.
  - intros (e & [Hd1 ->]%check_depth_Ok & Hk); [|done]. split; [done|].
    apply (exact_bind _ _ _ exact_collection_length _ _ _ _ Hc) in Hk
      as (n & l' & -> & Hn & Hc' & Hk).
    rewrite (cur_at_remaining _ _ Hc') in Hk. destruct (Z.ltb_spec (zlen l') n); [done|].
    apply bind_Ok in Hk as ([] & Hr & [= <- <- <-]).
    apply require_nodes_Ok in Hr; [|lia..]. split; [done|]. by exists l'.
  - intros (Hd1 & -> & l' & -> & Hn & Hl & Hb & ->). exists (d + 1).
    rewrite check_depth_Ok by done. split; [done|].
    pose proof (cur_at_adv _ _ _ Hc) as Hc'.
    apply (exact_bind _ _ _ exact_collection_length _ _ _ _ Hc). exists count, l'.
    rewrite (cur_at_remaining _ _ Hc'). destruct (Z.ltb_spec (zlen l') count); [lia|].
    rewrite (proj2 (require_nodes_Ok u count Hu ltac:(lia))) by done. done.
Qed.

Definition sum_nd {B} (f : B → Z) (l : list B) : Z := foldr (λ x n, f x + n) 0 l.
Lemma sum_nd_nonneg {B} (f : B → Z) l : (∀ x, 0 ≤ f x) → 0 ≤ sum_nd f l.
Proof.
  intros Hf. unfold sum_nd. induction l as [|x l IH]; simpl; [lia|].
  specialize (Hf x). lia.
Qed.

Section loops.
Context {A : Type} (dec : decoder A) (W : A → list byte) (ok : A → Prop) (nd : A → Z).
Context (Hdec : dexact dec W ok nd) (Hnd : ∀ a, 0 ≤ nd a).

Lemma repeat_exact n u c l xs c' u' :
  0 ≤ u ≤ MAX_VALUE_NODES → cur_at c l →
  repeat_decode dec n (c, u) = Ok (xs, (c', u')) ↔
  ∃ l', l = flat_map W xs ++ l' ∧ length xs = n ∧ Forall ok xs ∧
    u + sum_nd nd xs ≤ MAX_VALUE_NODES ∧
    c' = adv (zlen (flat_map W xs)) c ∧ u' = u + sum_nd nd xs.
Proof using Hdec Hnd.
  revert u c l xs. induction n as [|n IH]; intros u c l xs Hu Hc; cbn [repeat_decode].
  { split.
    - intros [= <- <- <-]. exists l. rewrite adv_0. unfold sum_nd.
      split_and!; [done..|constructor|simpl; lia|done|simpl; lia].
    - intros (l' & -> & ?%nil_length_inv & _ & _ & -> & ->). subst xs. simpl.
      rewrite adv_0. do 3 f_equal. unfold sum_nd. simpl. lia. }
  rewrite bind_Ok. split.
  - intros ([x [c1 u1]] & Hx & Hk).
    apply (Hdec _ _ _ _ _ _ Hu Hc) in Hx as (l1 & -> & Hok & Hn & -> & ->).
    pose proof (Hnd x). apply bind_Ok in Hk as ([ys [c2 u2]] & Hys & [= <- <- <-]).
    apply IH with (l := l1) in Hys as (l' & -> & <- & Hall & Hs & -> & ->);
      [|lia|by apply cur_at_adv].
    exists l'. rewrite adv_adv. unfold sum_nd in *. simpl. rewrite <-app_assoc, zlen_app.
    split_and!; [done..|by constructor|lia|done|lia].
  - intros (l' & -> & Hlen & Hall & Hs & -> & ->).
    destruct xs as [|x xs]; [done|]. apply Forall_cons in Hall as [Hx Hall].
    change (sum_nd nd (x :: xs)) with (nd x + sum_nd nd xs) in *.
    cbn [flat_map length] in *. rewrite <-app_assoc in Hc. pose proof (Hnd x).
    pose proof (sum_nd_nonneg nd xs Hnd) as Hpos.
    exists (x, (adv (zlen (W x)) c, u + nd x)). split.
    + apply (Hdec _ _ _ _ _ _ Hu Hc). eexists. split_and!; [done..|lia|done|done].
    + rewrite (proj2 (IH (u + nd x) (adv (zlen (W x)) c) (flat_map W xs ++ l') xs
        ltac:(lia) (cur_at_adv _ _ _ Hc))); [done|].
      exists l'. rewrite adv_adv, zlen_app. split_and!; first [done|lia].
Qed.
End loops.

Section entries.
Context {A : Type} (dec : decoder A) (W : A → list byte) (ok : A → Prop) (nd : A → Z).
Context (Hdec : dexact dec W ok nd) (Hnd : ∀ a, 0 ≤ nd a).

Definition enc_entry (e : list byte * A) : list byte := enc_inline e.1 ++ W e.2.
Lemma enc_entry_pair k x : enc_entry (k, x) = enc_inline k ++ W x.
Proof. done. Qed.
Definition entry_ok (e : list byte * A) : Prop := str_okb e.1 = true ∧ ok e.2.
Abbreviation entry_nd := (λ e : list byte * A, nd e.2).
(** Keys strictly increase, starting above [previous]. *)
Definition chain (previous : option (list byte)) (keys : list (list byte)) : Prop :=
  match previous with Some p => Sorted lexico (p :: keys) | None => Sorted lexico keys end.

Lemma chain_cons p k ks :
  chain p (k :: ks) ↔
  match p with Some old => lexico old k | None => True end ∧ chain (Some k) ks.
Proof.
  destruct p as [p|]; simpl; [|tauto]. split.
  - intros [Hs Hh]%Sorted_inv. by apply HdRel_inv in Hh.
  - intros [??]. constructor; [done|]. by constructor.
Qed.

Lemma entries_exact n p u c l es c' u' :
  0 ≤ u ≤ MAX_VALUE_NODES → cur_at c l →
  entries_decode (λ _, dec) n p (c, u) = Ok (es, (c', u')) ↔
  ∃ l', l = flat_map enc_entry es ++ l' ∧ length es = n ∧ Forall entry_ok es ∧
    chain p es.*1 ∧ u + sum_nd entry_nd es ≤ MAX_VALUE_NODES ∧
    c' = adv (zlen (flat_map enc_entry es)) c ∧ u' = u + sum_nd entry_nd es.
Proof using Hdec Hnd.
  revert p u c l es. induction n as [|n IH]; intros p u c l es Hu Hc; cbn [entries_decode].
  { split.
    - intros [= <- <- <-]. exists l. rewrite adv_0. unfold sum_nd. cbn.
      split_and!; [done..|constructor|destruct p; repeat constructor|lia|done|lia].
    - intros (l' & -> & ?%nil_length_inv & _ & _ & _ & -> & ->). subst es. cbn.
      rewrite adv_0. do 3 f_equal. lia. }
  cbn [fst snd]. rewrite (exact_bind read_string _ _ exact_str) by done. split.
  - intros (k & l1 & -> & Hk & Hc1 & Hrun).
    destruct (match p with Some _ => _ | None => _ end) eqn:Hp; [done|].
    apply bind_Ok in Hrun as ([x [c1 u1]] & Hx & Hrun).
    apply (Hdec _ _ _ _ _ _ Hu Hc1) in Hx as (l2 & -> & Hok & Hn & -> & ->).
    pose proof (Hnd x). apply bind_Ok in Hrun as ([ys [c2 u2]] & Hys & [= <- <- <-]).
    apply IH with (l := l2) in Hys as (l' & -> & <- & Hall & Hch & Hs & -> & ->);
      [|lia|by apply cur_at_adv].
    exists l'. rewrite !adv_adv. cbn [flat_map length fmap list_fmap].
    change (sum_nd entry_nd ((k, x) :: ys)) with (nd x + sum_nd entry_nd ys).
    rewrite !enc_entry_pair, <-!app_assoc, !zlen_app, chain_cons.
    split_and!; try first [done|lia|f_equal; lia].
    + by constructor.
    + destruct p; [|done]. by apply bool_decide_eq_false, dec_stable in Hp.
  - intros (l' & -> & Hlen & Hall & Hch & Hs & -> & ->).
    destruct es as [|[k x] es]; [done|]. apply Forall_cons in Hall as [[Hk Hx] Hall].
    rewrite fmap_cons, chain_cons in Hch. destruct Hch as [Hp Hch]. cbn [fst snd] in *.
    change (sum_nd entry_nd ((k, x) :: es)) with (nd x + sum_nd entry_nd es) in *.
    cbn [flat_map length] in *. rewrite enc_entry_pair in *.
    rewrite <-!app_assoc in Hc. pose proof (Hnd x).
    pose proof (sum_nd_nonneg entry_nd es (λ e, Hnd e.2)) as Hpos.
    exists k. eexists. split_and!; [by rewrite <-!app_assoc|done|by apply cur_at_adv|].
    destruct (match p with Some _ => _ | None => _ end) eqn:Hp'.
    { destruct p; [|done]. by apply bool_decide_eq_true in Hp'. }
    pose proof (cur_at_adv _ _ _ Hc) as Hc1. apply bind_Ok.
    exists (x, (adv (zlen (W x)) (adv (zlen (enc_inline k)) c), u + nd x)). split.
    + apply (Hdec _ _ _ _ _ _ Hu Hc1). eexists. split_and!; [done..|lia|done|done].
    + rewrite (proj2 (IH (Some k) (u + nd x) _ (flat_map enc_entry es ++ l') es
        ltac:(lia) (cur_at_adv _ _ _ Hc1))); [done|].
      exists l'. rewrite !adv_adv, !zlen_app.
      split_and!; first [done|lia|f_equal; lia].
Qed.
End entries.

(** ** Round trip and canonicity of the value codec

    [decode_value] accepts exactly the frames that [encode_value] produces for
    valid values: one equivalence that contains both the round trip and the
    uniqueness of encodings. *)


(** ** The bytes of a payload *)
Definition enc (v : Value) : list byte := encode_payload v [].

Lemma foldl_out {A} (f : list byte → A → list byte) (g : A → list byte) xs out :
  Forall (λ x, ∀ out, f out x = out ++ g x) xs →
  foldl f out xs = out ++ flat_map g xs.
Proof.
  intros Hf. revert out. induction Hf as [|x xs Hx Hf IH]; intros out; simpl.
  - by rewrite app_nil_r.
  - by rewrite IH, Hx, <-app_assoc.
Qed.
Lemma write_identity_out tag bs out : write_identity tag bs out = out ++ tag :: bs.
Proof. unfold write_identity. by rewrite <-app_assoc. Qed.

(** The payload, written without an output buffer. *)
Definition enc_shape (v : Value) : list byte :=
  match v with
  | VNull => [NULL_TAG]
  | VBool false => [FALSE_TAG]
  | VBool true => [TRUE_TAG]
  | VUnsigned n => UNSIGNED_TAG :: uleb n
  | VSigned n => SIGNED_TAG :: enc_signed n
  | VBytes bs => BYTES_TAG :: enc_inline bs
  | VString s => STRING_TAG :: enc_inline s
  | VList l => LIST_TAG :: uleb (zlen l) ++ flat_map enc l
  | VMap m => MAP_TAG :: uleb (zlen m) ++ flat_map (enc_entry enc) m
  | VInstant i => INSTANT_TAG :: enc_signed (inst_seconds i) ++ uleb (inst_nanoseconds i)
  | VRecordRef r => RECORD_REF_TAG :: enc_ref r
  end.

Lemma encode_payload_shape v out : encode_payload v out = out ++ enc_shape v.
Proof.
  revert out. induction v as [|b|num|num|bs|s|l IH|m IH|i|r] using Value_rect'; intros out;
    cbn [encode_payload enc_shape]; cbv zeta.
  - done.
  - by destruct b.
  - by rewrite write_uleb_out, <-app_assoc.
  - by rewrite write_signed_out, <-app_assoc.
  - rewrite write_uleb_out. unfold enc_inline. by rewrite <-!app_assoc.
  - rewrite write_uleb_out. unfold enc_inline. by rewrite <-!app_assoc.
  - rewrite (foldl_out _ enc).
    + by rewrite write_uleb_out, <-!app_assoc.
    + apply (Forall_impl _ _ _ IH). intros v Hv out'. unfold enc. by rewrite !Hv.
  - rewrite (foldl_out _ (enc_entry enc)).
    + by rewrite write_uleb_out, <-!app_assoc.
    + apply (Forall_impl _ _ _ IH). intros [k v] Hv out'. cbn [fst snd] in *.
      rewrite Hv, write_uleb_out, enc_entry_pair. unfold enc_inline, enc.
      by rewrite Hv, <-!app_assoc.
  - by rewrite write_uleb_out, write_signed_out, <-!app_assoc.
  - rewrite !write_identity_out. unfold enc_ref. by rewrite <-!app_assoc.
Qed.
Lemma enc_eq v : enc v = enc_shape v.
Proof. apply encode_payload_shape. Qed.
Lemma encode_payload_out v out : encode_payload v out = out ++ enc v.
Proof. by rewrite enc_eq, encode_payload_shape. Qed.
Lemma zlen_enc_pos v : 1 ≤ zlen (enc v).
Proof.
  rewrite enc_eq. destruct v as [|[]| | | | | | | |]; simpl; rewrite ?zlen_cons;
    match goal with |- context [zlen ?l] => pose proof (zlen_nonneg l) end; lia.
Qed.

(** ** Payload decoding *)
Definition depth_ok (d : Z) (v : Value) : Prop :=
  value_depth v = 0 ∨ d + value_depth v ≤ MAX_NESTING_DEPTH.
Definition payload_ok (d : Z) (v : Value) : Prop := value_okb v = true ∧ depth_ok d v.

(** The decoder one level below, as [decode_payload] passes it down. *)
Definition payload_rec (fuel : nat) : Z → decoder Value :=
  match fuel with
  | O => λ _ _, Err DecodeError.ResourceLimit
  | S fuel => decode_payload fuel
  end.
Definition rec_exact (rec : Z → decoder Value) (d : Z) : Prop :=
  d + 1 ≤ MAX_NESTING_DEPTH → dexact (rec (d + 1)) enc (payload_ok (d + 1)) value_nodes.

Lemma value_nodes_nonneg v : 0 ≤ value_nodes v.
Proof. pose proof (value_nodes_pos v). lia. Qed.
Lemma flat_map_zlen {A} (g : A → list byte) l :
  (∀ x, 1 ≤ zlen (g x)) → zlen l ≤ zlen (flat_map g l).
Proof.
  intros Hg. induction l as [|x l IH]; [done|]. simpl. rewrite zlen_cons, zlen_app.
  specialize (Hg x). lia.
Qed.
Lemma sum_nd_ge {A} (g : A → Z) l : (∀ x, 1 ≤ g x) → zlen l ≤ sum_nd g l.
Proof.
  intros Hg. unfold sum_nd. induction l as [|x l IH]; [done|]. simpl. rewrite zlen_cons.
  specialize (Hg x). lia.
Qed.
Lemma max_depth_le {A} (g : A → Value) l d : 0 ≤ d →
  max_depth g l ≤ d ↔ Forall (λ x, value_depth (g x) ≤ d) l.
Proof.
  intros Hd. unfold max_depth. induction l as [|x l IH]; simpl.
  - split; [constructor|lia].
  - rewrite Forall_cons, <-IH. lia.
Qed.
Lemma depth_ok_children {A} (g : A → Value) l d :
  d + 1 ≤ MAX_NESTING_DEPTH →
  d + (1 + max_depth g l) ≤ MAX_NESTING_DEPTH ↔ Forall (λ x, depth_ok (d + 1) (g x)) l.
Proof.
  intros Hd. transitivity (max_depth g l ≤ MAX_NESTING_DEPTH - (d + 1)); [lia|].
  rewrite max_depth_le by lia. unfold depth_ok. apply Forall_iff. intros x.
  pose proof (value_depth_nonneg (g x)). lia.
Qed.

Section containers.
Context {B : Type} (loop : Z → nat → decoder (list B)).
Context (g : B → list byte) (nd : B → Z) (okl : list B → Prop).
Context (Hg : ∀ x, 1 ≤ zlen (g x)) (Hnd : ∀ x, 1 ≤ nd x).
Context (d : Z) (Hd : 0 ≤ d ≤ MAX_NESTING_DEPTH).
Context (Hloop : d + 1 ≤ MAX_NESTING_DEPTH → ∀ n u c l xs c' u',
  0 ≤ u ≤ MAX_VALUE_NODES → cur_at c l →
  loop (d + 1) n (c, u) = Ok (xs, (c', u')) ↔
  ∃ l', l = flat_map g xs ++ l' ∧ length xs = n ∧ okl xs ∧
    u + sum_nd nd xs ≤ MAX_VALUE_NODES ∧
    c' = adv (zlen (flat_map g xs)) c ∧ u' = u + sum_nd nd xs).

(** A container body: its header, then as many elements as it counts.  The
    two early checks (enough bytes, enough nodes left) never reject a body
    that the loop would accept. *)
Lemma container_exact u c l xs c' u' :
  0 ≤ u ≤ MAX_VALUE_NODES → cur_at c l →
  ('(depth, count, s) ← container_header d (c, u); loop depth (Z.to_nat count) s)
    = Ok (xs, (c', u')) ↔
  ∃ l', l = (uleb (zlen xs) ++ flat_map g xs) ++ l' ∧ d + 1 ≤ MAX_NESTING_DEPTH ∧
    zlen xs ≤ MAX_COLLECTION_ENTRIES ∧ okl xs ∧
    u + sum_nd nd xs ≤ MAX_VALUE_NODES ∧
    c' = adv (zlen (uleb (zlen xs) ++ flat_map g xs)) c ∧ u' = u + sum_nd nd xs.
Proof using Hg Hnd Hd Hloop.
  intros Hu Hc. rewrite bind_Ok. split.
  - intros ([[e n] s] & Hh & Hk).
    apply (container_header_Ok _ _ _ _ _ _ _ Hd Hu Hc) in Hh
      as (Hd1 & -> & l1 & -> & Hn & Hnl & Hun & ->).
    apply (Hloop Hd1 _ _ _ _ _ _ _ Hu (cur_at_adv _ _ _ Hc)) in Hk
      as (l' & -> & Hlen & Hok & Hs & -> & ->).
    assert (n = zlen xs) as -> by (unfold zlen; lia).
    exists l'. rewrite <-app_assoc, adv_adv, zlen_app. split_and!; first [done|lia].
  - intros (l' & -> & Hd1 & Hlen & Hok & Hs & -> & ->).
    rewrite <-app_assoc in Hc. pose proof (sum_nd_ge nd xs Hnd).
    pose proof (flat_map_zlen g xs Hg). pose proof (zlen_nonneg xs).
    pose proof (zlen_nonneg l').
    exists (d + 1, zlen xs, (adv (zlen (uleb (zlen xs))) c, u)). split.
    + apply (container_header_Ok _ _ _ _ _ _ _ Hd Hu Hc).
      split_and!; [done..|]. eexists. rewrite zlen_app. split_and!; [done|lia..|done].
    + apply (Hloop Hd1 _ _ _ _ _ _ _ Hu (cur_at_adv _ _ _ Hc)).
      exists l'. rewrite adv_adv, zlen_app.
      split_and!; try done. unfold zlen. lia.
Qed.
End containers.

Section container_values.
Context (rec : Z → decoder Value) (d : Z).
Context (Hd : 0 ≤ d ≤ MAX_NESTING_DEPTH) (Hrec : rec_exact rec d).

(** What a container decoder accepts after the tag byte. *)
Definition body_exact (dec : decoder Value) (P : Value → Prop) : Prop :=
  ∀ u c l v c' u', 0 ≤ u ≤ MAX_VALUE_NODES → cur_at c l →
  dec (c, u) = Ok (v, (c', u')) ↔ P v ∧
  ∃ l', l = drop 1 (enc v) ++ l' ∧ payload_ok d v ∧
    u + (value_nodes v - 1) ≤ MAX_VALUE_NODES ∧
    c' = adv (zlen (drop 1 (enc v))) c ∧ u' = u + (value_nodes v - 1).

Lemma payload_ok_list xs : d + 1 ≤ MAX_NESTING_DEPTH →
  payload_ok d (VList xs) ↔
  zlen xs ≤ MAX_COLLECTION_ENTRIES ∧ Forall (payload_ok (d + 1)) xs.
Proof using Hd.
  intros Hd1. unfold payload_ok at 1, depth_ok.
  change (value_depth (VList xs)) with (1 + max_depth id xs). cbn [value_okb].
  pose proof (max_depth_nonneg id xs).
  rewrite andb_true_iff, Z.leb_le. unfold payload_ok. rewrite Forall_and.
  rewrite <-(depth_ok_children id xs d Hd1). rewrite forallb_forall, Forall_forall.
  setoid_rewrite <-list_elem_of_In. split; [|tauto].
  intros [[? ?] [?|?]]; [lia|done].
Qed.
Lemma payload_ok_map es : d + 1 ≤ MAX_NESTING_DEPTH →
  payload_ok d (VMap es) ↔
  zlen es ≤ MAX_COLLECTION_ENTRIES ∧ Sorted lexico es.*1 ∧
  Forall (entry_ok (payload_ok (d + 1))) es.
Proof using Hd.
  intros Hd1. unfold payload_ok at 1, depth_ok.
  change (value_depth (VMap es)) with (1 + max_depth snd es). cbn [value_okb].
  pose proof (max_depth_nonneg snd es).
  rewrite !andb_true_iff, Z.leb_le, bool_decide_eq_true, forallb_forall.
  assert (Forall (entry_ok (payload_ok (d + 1))) es ↔
    (∀ e, e ∈ es → (str_okb e.1 && value_okb e.2) = true) ∧
    Forall (λ e, depth_ok (d + 1) e.2) es) as ->.
  { rewrite <-(Forall_forall (λ e, (str_okb e.1 && value_okb e.2) = true)), <-Forall_and.
    apply Forall_iff. intros [k v]. unfold entry_ok, payload_ok. cbn [fst snd].
    rewrite andb_true_iff. tauto. }
  rewrite <-(depth_ok_children snd es d Hd1). setoid_rewrite <-list_elem_of_In.
  split; [|tauto]. intros [[[? ?] ?] [?|?]]; [lia|done].
Qed.

Lemma enc_list_tail xs : drop 1 (enc (VList xs)) = uleb (zlen xs) ++ flat_map enc xs.
Proof. by rewrite enc_eq. Qed.
Lemma enc_map_tail es :
  drop 1 (enc (VMap es)) = uleb (zlen es) ++ flat_map (enc_entry enc) es.
Proof. by rewrite enc_eq. Qed.
Lemma zlen_enc_entry_pos e : 1 ≤ zlen (enc_entry enc e).
Proof.
  unfold enc_entry. rewrite zlen_app. pose proof (zlen_enc_pos e.2).
  pose proof (zlen_nonneg (enc_inline e.1)). lia.
Qed.

Lemma container_depth {A} (g : A → Value) l v :
  value_depth v = 1 + max_depth g l → payload_ok d v → d + 1 ≤ MAX_NESTING_DEPTH.
Proof.
  intros Hv [_ H]. unfold depth_ok in H. rewrite Hv in H.
  pose proof (max_depth_nonneg g l). lia.
Qed.

Lemma list_exact : body_exact (decode_list rec d) (λ v, ∃ xs, v = VList xs).
Proof using Hd Hrec.
  intros u c l v c' u' Hu Hc.
  transitivity (∃ xs, v = VList xs ∧
    ('(depth, count, s) ← container_header d (c, u);
     repeat_decode (rec depth) (Z.to_nat count) s) = Ok (xs, (c', u'))).
  { unfold decode_list. destruct (container_header d (c, u)) as [[[e n] s]|]; cbn.
    - destruct (repeat_decode (rec e) (Z.to_nat n) s) as [[xs s']|]; cbn; naive_solver.
    - naive_solver. }
  setoid_rewrite (container_exact (λ d, repeat_decode (rec d)) enc value_nodes
    (Forall (payload_ok (d + 1))) zlen_enc_pos value_nodes_pos d Hd
    (λ Hd1, repeat_exact _ _ _ _ (Hrec Hd1) value_nodes_nonneg) u c l _ _ _ Hu Hc).
  split.
  - intros (xs & -> & l' & -> & Hd1 & Hlen & Hok & Hs & -> & ->).
    split; [by eexists|]. exists l'. rewrite enc_list_tail, payload_ok_list by done.
    change (value_nodes (VList xs)) with (1 + sum_nd value_nodes xs).
    split_and!; [done..|lia|done|lia].
  - intros ([xs ->] & l' & -> & Hok & Hs & -> & ->). exists xs. split; [done|].
    exists l'. rewrite enc_list_tail.
    change (value_nodes (VList xs)) with (1 + sum_nd value_nodes xs) in *.
    pose proof (container_depth id xs (VList xs) eq_refl Hok) as Hd1.
    apply payload_ok_list in Hok as [??]; [|done]. split_and!; [done..|lia|done|lia].
Qed.

Lemma map_exact : body_exact (decode_map rec d) (λ v, ∃ es, v = VMap es).
Proof using Hd Hrec.
  intros u c l v c' u' Hu Hc.
  transitivity (∃ es, v = VMap es ∧
    ('(depth, count, s) ← container_header d (c, u);
     entries_decode (λ _, rec depth) (Z.to_nat count) None s) = Ok (es, (c', u'))).
  { unfold decode_map. destruct (container_header d (c, u)) as [[[e n] s]|]; cbn.
    - destruct (entries_decode (λ _, rec e) (Z.to_nat n) None s) as [[es s']|]; cbn;
        naive_solver.
    - naive_solver. }
  assert (∀ Hd1 : d + 1 ≤ MAX_NESTING_DEPTH, ∀ n u c l es c' u',
    0 ≤ u ≤ MAX_VALUE_NODES → cur_at c l →
    entries_decode (λ _, rec (d + 1)) n None (c, u) = Ok (es, (c', u')) ↔
    ∃ l', l = flat_map (enc_entry enc) es ++ l' ∧ length es = n ∧
      (Sorted lexico es.*1 ∧ Forall (entry_ok (payload_ok (d + 1))) es) ∧
      u + sum_nd (λ e, value_nodes e.2) es ≤ MAX_VALUE_NODES ∧
      c' = adv (zlen (flat_map (enc_entry enc) es)) c ∧
      u' = u + sum_nd (λ e, value_nodes e.2) es) as Hloop.
  { intros Hd1 n0 u0 c0 l0 es0 c1 u1 Hu0 Hc0.
    rewrite (entries_exact _ _ _ _ (Hrec Hd1) value_nodes_nonneg _ _ _ _ _ _ _ _ Hu0 Hc0).
    cbn [chain]. naive_solver. }
  setoid_rewrite (container_exact (λ d n, entries_decode (λ _, rec d) n None)
    (enc_entry enc) (λ e, value_nodes e.2) _ zlen_enc_entry_pos
    (λ e, value_nodes_pos e.2) d Hd Hloop u c l _ _ _ Hu Hc).
  split.
  - intros (es & -> & l' & -> & Hd1 & Hlen & [Hsort Hok] & Hs & -> & ->).
    split; [by eexists|]. exists l'. rewrite enc_map_tail, payload_ok_map by done.
    change (value_nodes (VMap es)) with (1 + sum_nd (λ e, value_nodes e.2) es).
    split_and!; [done..|lia|done|lia].
  - intros ([es ->] & l' & -> & Hok & Hs & -> & ->). exists es. split; [done|].
    exists l'. rewrite enc_map_tail.
    change (value_nodes (VMap es)) with (1 + sum_nd (λ e, value_nodes e.2) es) in *.
    pose proof (container_depth snd es (VMap es) eq_refl Hok) as Hd1.
    apply payload_ok_map in Hok as (?&?&?); [|done]. split_and!; [done..|lia|done|lia].
Qed.
End container_values.

(** ** Leaves *)
Definition value_tag (v : Value) : byte :=
  match v with
  | VNull => NULL_TAG
  | VBool false => FALSE_TAG
  | VBool true => TRUE_TAG
  | VUnsigned _ => UNSIGNED_TAG
  | VSigned _ => SIGNED_TAG
  | VBytes _ => BYTES_TAG
  | VString _ => STRING_TAG
  | VList _ => LIST_TAG
  | VMap _ => MAP_TAG
  | VInstant _ => INSTANT_TAG
  | VRecordRef _ => RECORD_REF_TAG
  end.
Lemma enc_tag v : enc v = value_tag v :: drop 1 (enc v).
Proof. rewrite enc_eq. by destruct v as [|[]| | | | | | | |]. Qed.

Lemma body_exact_ext d dec P Q :
  (∀ v, P v ↔ Q v) → body_exact d dec P → body_exact d dec Q.
Proof. intros HPQ Hb u c l v c' u' Hu Hc. rewrite <-HPQ. by apply Hb. Qed.

(** A leaf: a reader under a constructor. *)
Lemma leaf_exact {A} d (R : Cursor → result DecodeError (A * Cursor)) W ok (K : A → Value)
    (dec : decoder Value) (P : Value → Prop) :
  exact R W ok →
  (∀ s, dec s = '(a, c) ← R s.1; Ok (K a, (c, s.2))) →
  (∀ v, P v ↔ ∃ a, v = K a) →
  (∀ a, drop 1 (enc (K a)) = W a) → (∀ a, value_okb (K a) = true ↔ ok a) →
  (∀ a, value_nodes (K a) = 1) → (∀ a, value_depth (K a) = 0) →
  body_exact d dec P.
Proof.
  intros He Hdec HP HW Hok Hn Hdep u c l v c' u' Hu Hc. rewrite Hdec, HP. cbn [fst snd].
  rewrite (exact_bind R W ok He) by done. split.
  - intros (a & l' & -> & Ha & _ & [= <- <- <-]). split; [by eexists|]. exists l'.
    rewrite HW, Hn. unfold payload_ok, depth_ok. rewrite Hok, Hdep. split_and!; [done..|by left|lia|done|lia].
  - intros ([a ->] & l' & -> & [Ha%Hok _] & _ & -> & ->). exists a, l'.
    rewrite HW, Hn in *. split_and!; [done..|by apply cur_at_adv|]. do 3 f_equal. lia.
Qed.
Lemma exact_unit : exact (λ c, Ok (tt, c)) (λ _, []) (λ _, True).
Proof.
  intros c l [] c' Hc. split.
  - intros [= <-]. exists l. by rewrite adv_0.
  - intros (l' & -> & _ & ->). by rewrite adv_0.
Qed.

Definition read_instant (c : Cursor) : result DecodeError (UtcInstant * Cursor) :=
  '(seconds, c) ← read_signed c;
  if (I64_MIN <=? seconds) && (seconds <=? I64_MAX) then
    '(nanoseconds, c) ← read_uleb c;
    if nanoseconds <=? U32_MAX then
      i ← ok_or (UtcInstant_new seconds nanoseconds) DecodeError.InvalidInstant;
      Ok (i, c)
    else Err DecodeError.InvalidInstant
  else Err DecodeError.InvalidInstant.
Lemma exact_instant :
  exact read_instant (λ i, enc_signed (inst_seconds i) ++ uleb (inst_nanoseconds i)) instant_ok.
Proof.
  intros c l i c' Hc. unfold read_instant. rewrite (exact_bind _ _ _ exact_signed) by done.
  split.
  - intros (s & l1 & -> & Hs & Hc1 & Hk).
    destruct ((I64_MIN <=? s) && (s <=? I64_MAX)); [|done].
    apply (exact_bind _ _ _ exact_uleb _ _ _ _ Hc1) in Hk as (n & l2 & -> & Hn & Hc2 & Hk).
    destruct (n <=? U32_MAX); [|done].
    apply bind_Ok in Hk as (i' & Hi%ok_or_Ok & [= <- <-]).
    apply instant_new_spec in Hi as [-> Hok]; [|lia]. exists l2. cbn [inst_seconds inst_nanoseconds].
    by rewrite <-app_assoc, adv_adv, zlen_app.
  - intros (l' & -> & Hok & ->). destruct i as [s n]. cbn [inst_seconds inst_nanoseconds] in *.
    pose proof Hok as [Hs Hn]. cbn [inst_seconds inst_nanoseconds] in *.
    rewrite <-app_assoc in Hc |- *. exists s. eexists. pose proof (cur_at_adv _ _ _ Hc) as Hc1.
    unfold MIN_EPOCH_SECONDS, MAX_EPOCH_SECONDS, I128_MAX in *. split_and!; [done|lia|lia|done|].
    rewrite (proj2 (andb_true_iff _ _)) by (unfold I64_MIN, I64_MAX; lia).
    apply (exact_bind _ _ _ exact_uleb _ _ _ _ Hc1). exists n. eexists.
    unfold U128_MAX. split_and!; [done|lia|lia|by apply cur_at_adv|].
    rewrite (proj2 (Z.leb_le _ _)) by (unfold U32_MAX; lia).
    rewrite (proj2 (instant_new_spec s n (mk_instant s n) ltac:(lia))) by done.
    by rewrite adv_adv, zlen_app.
Qed.

(** ** The payload decoder *)

(** [decode_payload] after the tag byte, one level unfolded. *)
Definition payload_body (rec : Z → decoder Value) (d : Z) (tag : byte) : decoder Value :=
  λ '(c, used),
  match tag with
  | x00 => Ok (VNull, (c, used))
  | x01 => Ok (VBool false, (c, used))
  | x02 => Ok (VBool true, (c, used))
  | x03 => '(n, c) ← read_uleb c; Ok (VUnsigned n, (c, used))
  | x04 => '(n, c) ← read_signed c; Ok (VSigned n, (c, used))
  | x05 => '(bs, c) ← ('(n, c) ← read_inline_length c; cursor_take n c); Ok (VBytes bs, (c, used))
  | x06 => '(str, c) ← read_str c; Ok (VString str, (c, used))
  | x07 => decode_list rec d (c, used)
  | x08 => decode_map rec d (c, used)
  | x09 => '(i, c) ← read_instant c; Ok (VInstant i, (c, used))
  | x0a => '(r, c) ← read_record_ref c; Ok (VRecordRef r, (c, used))
  | tag => Err (DecodeError.InvalidValueTag tag)
  end.

Lemma decode_payload_unfold fuel d s :
  decode_payload fuel d s =
  '(tag, c) ← cursor_byte s.1; used ← take_node s.2;
  payload_body (payload_rec fuel) d tag (c, used).
Proof.
  destruct fuel; cbn [decode_payload payload_rec];
    (destruct (cursor_byte s.1) as [[tag c]|]; [|done]);
    destruct (take_node s.2) as [u|]; (done || destruct tag); try done.
  all: unfold mbind, result_bind, payload_body, read_instant.
  1,3: by destruct (read_inline_length c) as [[]|].
  all: destruct (read_signed c) as [[sec c1]|]; [|done]; unfold mbind, result_bind.
  all: destruct (_ && _); [|done]; destruct (read_uleb c1) as [[n c2]|]; [|done].
  all: unfold mbind, result_bind; destruct (n <=? U32_MAX); [|done].
  all: by destruct (UtcInstant_new sec n).
Qed.

Lemma body_exact_err d tag e :
  tag ∉ [x00; x01; x02; x03; x04; x05; x06; x07; x08; x09; x0a] →
  body_exact d (λ _, Err e) (λ v, value_tag v = tag).
Proof.
  intros Htag u c l v c' u' Hu Hc. split; [done|]. intros [<- _]. destruct Htag.
  destruct v as [|[]| | | | | | | |]; set_solver.
Qed.

(** A leaf tag: constructor [K] over the exact reader [He]. *)
Ltac leaf_tag d K He :=
  apply (leaf_exact d _ _ _ K _ _ He);
    [ by intros []
    | intros v; destruct v as [|[]| | | | | | | |]; naive_solver
    | by intros; rewrite enc_eq
    | intros; cbn [value_okb]; first [done|lia|apply bool_decide_eq_true]
    | done | done ].

Lemma payload_body_exact rec d tag :
  0 ≤ d ≤ MAX_NESTING_DEPTH → rec_exact rec d →
  body_exact d (payload_body rec d tag) (λ v, value_tag v = tag).
Proof.
  intros Hd Hrec.
  destruct (decide (tag ∈ [x00; x01; x02; x03; x04; x05; x06; x07; x08; x09; x0a])) as [Hin|Hout].
  - repeat (apply elem_of_cons in Hin as [->|Hin]); [..|by apply not_elem_of_nil in Hin].
    + leaf_tag d (λ _ : unit, VNull) exact_unit.
    + leaf_tag d (λ _ : unit, VBool false) exact_unit.
    + leaf_tag d (λ _ : unit, VBool true) exact_unit.
    + leaf_tag d VUnsigned exact_uleb.
    + leaf_tag d VSigned exact_signed.
    + leaf_tag d VBytes exact_inline.
    + leaf_tag d VString exact_str.
    + apply (body_exact_ext d _ (λ v, ∃ xs, v = VList xs)).
      * intros v. destruct v as [|[]| | | | | | | |]; naive_solver.
      * intros u c l v c' u'. by apply list_exact.
    + apply (body_exact_ext d _ (λ v, ∃ xs, v = VMap xs)).
      * intros v. destruct v as [|[]| | | | | | | |]; naive_solver.
      * intros u c l v c' u'. by apply map_exact.
    + leaf_tag d VInstant exact_instant.
    + leaf_tag d VRecordRef exact_record_ref.
  - pose proof (body_exact_err d tag (DecodeError.InvalidValueTag tag) Hout) as He.
    intros u c l v c' u' Hu Hc. rewrite <-(He u c l v c' u' Hu Hc).
    destruct tag; try done; destruct Hout; set_solver.
Qed.

Lemma payload_exact_step fuel d :
  0 ≤ d ≤ MAX_NESTING_DEPTH → rec_exact (payload_rec fuel) d →
  dexact (decode_payload fuel d) enc (payload_ok d) value_nodes.
Proof.
  intros Hd Hrec u c l v c' u' Hu Hc. rewrite decode_payload_unfold. cbn [fst snd].
  rewrite (exact_bind _ _ _ exact_byte) by done. split.
  - intros (tag & l1 & -> & _ & Hc1 & Hk). change (zlen [tag]) with 1 in *.
    apply bind_Ok in Hk as (used & [Hu1 ->]%take_node_Ok & Hk); [|done].
    apply (payload_body_exact _ d tag Hd Hrec (u + 1) _ _ _ _ _ ltac:(lia) Hc1) in Hk
      as (<- & l' & -> & Hok & Hn & -> & ->).
    exists l'. rewrite adv_adv. split_and!; [|done|lia| |lia].
    + by rewrite (enc_tag v).
    + rewrite (enc_tag v). cbn [drop]. by rewrite drop_0, zlen_cons.
  - intros (l' & -> & Hok & Hn & -> & ->). rewrite (enc_tag v) in Hc |- *.
    exists (value_tag v). eexists. pose proof (cur_at_adv c [value_tag v] _ Hc) as Hc1.
    split_and!; [done..|]. pose proof (value_nodes_pos v).
    change (zlen [value_tag v]) with 1 in *. apply bind_Ok. exists (u + 1).
    rewrite take_node_Ok by done. split; [lia|].
    apply (payload_body_exact _ d _ Hd Hrec (u + 1) _ _ _ _ _ ltac:(lia) Hc1). split; [done|].
    exists l'. rewrite zlen_cons, adv_adv. split_and!; [done..|lia|done|lia].
Qed.

(** With fuel for the remaining nesting levels the decoder is exact. *)
Lemma payload_exact fuel d :
  0 ≤ d ≤ MAX_NESTING_DEPTH → MAX_NESTING_DEPTH - d ≤ Z.of_nat fuel →
  dexact (decode_payload fuel d) enc (payload_ok d) value_nodes.
Proof.
  revert d. induction fuel as [|fuel IH]; intros d Hd Hf; apply payload_exact_step; try done.
  - intros Hd1. lia.
  - intros Hd1. cbn [payload_rec]. apply IH; lia.
Qed.

(** ** Fuel is never exhausted

    [decode_payload] recurses below a successful [check_depth], so any fuel of
    at least the remaining levels gives the same result, errors included. *)
Lemma repeat_decode_ext {A} (f g : decoder A) n s :
  (∀ s, f s = g s) → repeat_decode f n s = repeat_decode g n s.
Proof.
  intros Hfg. revert s. induction n as [|n IH]; intros s; cbn; [done|].
  rewrite Hfg. destruct (g s) as [[x s']|]; [|done]. cbn. by rewrite IH.
Qed.
Lemma entries_decode_ext {A} (f g : list byte → decoder A) n p s :
  (∀ k s, f k s = g k s) → entries_decode f n p s = entries_decode g n p s.
Proof.
  intros Hfg. revert p s. induction n as [|n IH]; intros p s; cbn; [done|].
  destruct (read_string s.1) as [[k c]|]; [|done]. cbn. destruct (match p with Some _ => _ | None => _ end); [done|].
  rewrite Hfg. destruct (g k (c, s.2)) as [[x s']|]; [|done]. cbn. by rewrite IH.
Qed.
Lemma container_header_depth d s e n s' :
  0 ≤ d ≤ MAX_NESTING_DEPTH → container_header d s = Ok (e, n, s') →
  d + 1 ≤ MAX_NESTING_DEPTH ∧ e = d + 1.
Proof.
  intros Hd Hh. unfold container_header in Hh.
  apply bind_Ok in Hh as (e' & [He ->]%check_depth_Ok & Hh); [|done].
  apply bind_Ok in Hh as ([n1 c1] & _ & Hh). destruct (_ <? _); [done|].
  by apply bind_Ok in Hh as ([] & _ & [= <- <- <-]).
Qed.
Lemma payload_body_ext r1 r2 d tag s :
  0 ≤ d ≤ MAX_NESTING_DEPTH →
  (d + 1 ≤ MAX_NESTING_DEPTH → ∀ s, r1 (d + 1) s = r2 (d + 1) s) →
  payload_body r1 d tag s = payload_body r2 d tag s.
Proof.
  intros Hd Hr. destruct s as [c u]. unfold payload_body.
  destruct (decide (tag = x07)) as [->|]; [|destruct (decide (tag = x08)) as [->|]; [|by destruct tag]].
  - unfold decode_list. destruct (container_header d (c, u)) as [[[e k] s]|] eqn:Hh; [|done].
    apply container_header_depth in Hh as [Hd1 ->]; [|done]. cbn.
    by rewrite (repeat_decode_ext _ _ _ _ (Hr Hd1)).
  - unfold decode_map. destruct (container_header d (c, u)) as [[[e k] s]|] eqn:Hh; [|done].
    apply container_header_depth in Hh as [Hd1 ->]; [|done]. cbn.
    by rewrite (entries_decode_ext _ _ _ _ _ (λ _, Hr Hd1)).
Qed.
Lemma decode_payload_fuel f1 f2 d s :
  0 ≤ d ≤ MAX_NESTING_DEPTH →
  MAX_NESTING_DEPTH - d ≤ Z.of_nat f1 → MAX_NESTING_DEPTH - d ≤ Z.of_nat f2 →
  decode_payload f1 d s = decode_payload f2 d s.
Proof.
  revert f2 d s. induction f1 as [|f1 IH]; intros f2 d s Hd H1 H2.
  all: rewrite !decode_payload_unfold; destruct (cursor_byte s.1) as [[tag c]|]; [|done].
  all: unfold mbind, result_bind; destruct (take_node s.2) as [u|]; [|done].
  all: apply payload_body_ext; [done|]; intros Hd1 s'.
  - lia.
  - destruct f2 as [|f2]; [lia|]. cbn [payload_rec]. apply IH; lia.
Qed.
