(* ===== verification/CodecFrame.v ===== *)
(** * Frames: measuring, encoding and decoding whole values

    [payload_len] computes the exact payload length without encoding;
    [encode_value] and [decode_value] are inverse bijections between the
    valid values whose payload fits and the canonical frames. *)
From S2P Require Import Prelude Ids Value Codec CodecFacts.

#[local] Arguments write_uleb : simpl never.
#[local] Arguments read_uleb : simpl never.

(** ** Measuring *)
Lemma uleb_len_loop_spec k m len :
  (1 ≤ k)%nat → 0 ≤ m < 128 ^ Z.of_nat k →
  uleb_len_loop k m len = len - 1 + zlen (uleb_enc k m).
Proof.
  revert m len. induction k as [|k IH]; intros m len Hk Hm; [lia|].
  rewrite uleb_enc_S by lia. cbn [uleb_len_loop]. rewrite shiftr_7.
  rewrite Nat2Z.inj_succ, Z.pow_succ_r in Hm by lia.
  case_decide; destruct (Z.leb_spec 128 m); try lia.
  - rewrite zlen_cons. change (zlen []) with 0. lia.
  - destruct (decide (k = 0%nat)) as [->|]; [simpl in Hm; lia|].
    rewrite IH; [|lia|].
    + rewrite zlen_cons. lia.
    + split; [apply Z.div_pos; lia|]. apply Z.div_lt_upper_bound; lia.
Qed.
Lemma uleb_len_spec n : 0 ≤ n ≤ U128_MAX → uleb_len n = zlen (uleb n).
Proof.
  intros Hn. unfold uleb_len. rewrite uleb_len_loop_spec; [unfold uleb_enc, write_uleb; lia|lia|].
  change (Z.of_nat 19) with 19. unfold U128_MAX in Hn. split; [lia|].
  apply Z.le_lt_trans with (2 ^ 128 - 1); [lia|]. done.
Qed.

Lemma payload_add_Ok t a t' : 0 ≤ t ≤ MAX_VALUE_PAYLOAD → 0 ≤ a ≤ I64_MAX →
  payload_add t a = Ok t' ↔ t' = t + a ∧ t' ≤ MAX_VALUE_PAYLOAD.
Proof.
  intros Ht Ha. unfold payload_add, checked_add, MAX_VALUE_PAYLOAD, I64_MAX, U64_MAX in *.
  destruct (Z.leb_spec (t + a) (2 ^ 64 - 1)); [|lia]. cbn -[Z.mul Z.pow].
  destruct (Z.ltb_spec (16 * 1024 * 1024) (t + a)); split; try done; try lia.
  - intros [= <-]. lia.
  - by intros [-> _].
Qed.

(** The measuring step [M] adds [len] bytes and [nd] nodes, exactly when both
    totals stay within their caps. *)
Definition adds (M : Z * Z → result EncodeError (Z * Z)) (len nd : Z) : Prop :=
  ∀ t n t' n', 0 ≤ t ≤ MAX_VALUE_PAYLOAD → 0 ≤ n ≤ MAX_VALUE_NODES →
    M (t, n) = Ok (t', n') ↔
    t' = t + len ∧ n' = n + nd ∧ t' ≤ MAX_VALUE_PAYLOAD ∧ n' ≤ MAX_VALUE_NODES.

Lemma adds_bytes a : 0 ≤ a ≤ I64_MAX →
  adds (λ st, total ← payload_add st.1 a; Ok (total, st.2)) a 0.
Proof.
  intros Ha t n t' n' Ht Hn. cbn [fst snd]. rewrite bind_Ok.
  setoid_rewrite payload_add_Ok; [|done..]. split.
  - intros (t1 & [-> ?] & [= <- <-]). lia.
  - intros (-> & -> & ?). exists (t + a). split; [lia|]. do 2 f_equal. lia.
Qed.
Lemma adds_bind M1 M2 l1 n1 l2 n2 : 0 ≤ l1 → 0 ≤ n1 → 0 ≤ l2 → 0 ≤ n2 →
  adds M1 l1 n1 → adds M2 l2 n2 →
  adds (λ st, st ← M1 st; M2 st) (l1 + l2) (n1 + n2).
Proof.
  intros Hl1 Hn1 Hl2 Hn2 H1 H2 t n t' n' Ht Hn. rewrite bind_Ok. split.
  - intros ([t1 m1] & Hm1 & Hm2). apply H1 in Hm1 as (-> & -> & ? & ?); [|done..].
    apply H2 in Hm2 as (-> & -> & ? & ?); lia.
  - intros (-> & -> & ? & ?). exists (t + l1, n + n1). split; [apply H1; lia|].
    apply H2; lia.
Qed.
Lemma adds_ret : adds (λ st, Ok st) 0 0.
Proof.
  intros t n t' n' Ht Hn. split; [intros [= <- <-]; lia|].
  intros (-> & -> & _). do 2 f_equal; lia.
Qed.
Lemma adds_ext M M' l n : (∀ st, M st = M' st) → adds M l n → adds M' l n.
Proof. intros HM H t k t' k' Ht Hk. rewrite <-HM. by apply H. Qed.

Lemma adds_fold {A} (f : Z * Z → A → result EncodeError (Z * Z)) (W : A → list byte) nd xs :
  (∀ x, 0 ≤ nd x) → Forall (λ x, adds (λ st, f st x) (zlen (W x)) (nd x)) xs →
  adds (try_fold f xs) (zlen (flat_map W xs)) (sum_nd nd xs).
Proof.
  intros Hnd Hall. induction Hall as [|x xs Hx Hall IH]; [apply adds_ret|].
  cbn [flat_map]. rewrite zlen_app.
  apply (adds_bind (λ st, f st x) (try_fold f xs));
    first [done|apply zlen_nonneg|apply Hnd|by apply sum_nd_nonneg].
Qed.

Lemma zlen_le_I64 (bs : list byte) : inline_okb bs = true → 0 ≤ zlen bs ≤ I64_MAX.
Proof.
  unfold inline_okb, MAX_INLINE_BYTES, I64_MAX. pose proof (zlen_nonneg bs). lia.
Qed.
Lemma zlen_uleb_le n : 0 ≤ zlen (uleb n) ≤ 19.
Proof.
  split; [apply zlen_nonneg|]. unfold write_uleb. fold (uleb_enc 19 n).
  assert (∀ k m, zlen (uleb_enc k m) ≤ Z.of_nat k) as Hk; [|apply (Hk 19%nat)].
  induction k as [|k IH]; intros m; [done|]. unfold uleb_enc. cbn [write_uleb_loop].
  destruct (_ =? 0); [unfold zlen; simpl; lia|].
  rewrite write_uleb_loop_out, zlen_app. specialize (IH (Z.shiftr m 7)).
  change (zlen ([] ++ [byte_of (Z.lor (Z.land m 127) 128)])) with 1. lia.
Qed.
Lemma adds_uleb n : 0 ≤ n ≤ U128_MAX →
  adds (λ st, total ← payload_add st.1 (uleb_len n); Ok (total, st.2)) (zlen (uleb n)) 0.
Proof.
  intros Hn. rewrite <-uleb_len_spec by done. apply adds_bytes.
  rewrite uleb_len_spec by done. pose proof (zlen_uleb_le n). unfold I64_MAX. lia.
Qed.
Lemma adds_inline bs : inline_okb bs = true →
  adds (λ st, total ← payload_add st.1 (uleb_len (zlen bs));
              total ← payload_add total (zlen bs); Ok (total, st.2))
       (zlen (enc_inline bs)) 0.
Proof.
  intros Hbs%zlen_le_I64. unfold enc_inline. rewrite zlen_app.
  apply (adds_ext (λ st, st ← (total ← payload_add st.1 (uleb_len (zlen bs)); Ok (total, st.2));
                         total ← payload_add st.1 (zlen bs); Ok (total, st.2))).
  { intros st. by destruct (payload_add st.1 (uleb_len (zlen bs))). }
  apply (adds_bind _ (λ st, total ← payload_add st.1 (zlen bs); Ok (total, st.2)) _ 0 _ 0);
    auto using zlen_nonneg; try lia.
  - apply adds_uleb. unfold U128_MAX, I64_MAX in *. lia.
  - by apply adds_bytes.
Qed.
Lemma adds_signed n : - 2 ^ 127 ≤ n ≤ I128_MAX →
  adds (λ st, total ← payload_add st.1 (1 + uleb_len (signed_parts n).2); Ok (total, st.2))
       (zlen (enc_signed n)) 0.
Proof.
  intros Hn. unfold enc_signed. rewrite zlen_cons.
  assert (0 ≤ (signed_parts n).2 ≤ U128_MAX) as Hp.
  { unfold signed_parts, I128_MAX, U128_MAX in *. destruct (Z.ltb_spec n 0); simpl; lia. }
  rewrite <-uleb_len_spec by done. apply adds_bytes. rewrite uleb_len_spec by done.
  pose proof (zlen_uleb_le (signed_parts n).2). unfold I64_MAX. lia.
Qed.

(** The part of [measure] common to all nodes. *)
Definition measure_node (st : Z * Z) : result EncodeError (Z * Z) :=
  let nodes := saturating_add st.2 1 in
  if MAX_VALUE_NODES <? nodes then Err (EncodeError.TooManyValueNodes nodes MAX_VALUE_NODES)
  else total ← payload_add st.1 1; Ok (total, nodes).
Lemma adds_node : adds measure_node 1 1.
Proof.
  intros t n t' n' Ht Hn. unfold measure_node. cbn [fst snd].
  rewrite saturating_add_small by (unfold MAX_VALUE_NODES, U64_MAX in *; lia).
  destruct (Z.ltb_spec MAX_VALUE_NODES (n + 1)); [split; [done|lia]|].
  rewrite bind_Ok. setoid_rewrite payload_add_Ok; [|done|unfold I64_MAX; lia]. split.
  - intros (t1 & [-> ?] & [= <- <-]). lia.
  - intros (-> & -> & ?). exists (t + 1). split; [lia|done].
Qed.
(** The rest of a node, by its constructor. *)
Definition measure_rest (v : Value) (st : Z * Z) : result EncodeError (Z * Z) :=
  match v with
  | VNull | VBool _ => Ok st
  | VUnsigned number => total ← payload_add st.1 (uleb_len number); Ok (total, st.2)
  | VSigned number =>
      total ← payload_add st.1 (1 + uleb_len (signed_parts number).2); Ok (total, st.2)
  | VBytes bytes | VString bytes =>
      total ← payload_add st.1 (uleb_len (zlen bytes));
      total ← payload_add total (zlen bytes); Ok (total, st.2)
  | VList items =>
      st ← (total ← payload_add st.1 (uleb_len (zlen items)); Ok (total, st.2));
      try_fold (λ st child, measure child st) items st
  | VMap entries =>
      st ← (total ← payload_add st.1 (uleb_len (zlen entries)); Ok (total, st.2));
      try_fold (λ st e,
        st ← (t ← payload_add st.1 (uleb_len (zlen e.1));
              t ← payload_add t (zlen e.1); Ok (t, st.2));
        measure e.2 st) entries st
  | VInstant i =>
      st ← (total ← payload_add st.1 (1 + uleb_len (signed_parts (inst_seconds i)).2);
            Ok (total, st.2));
      total ← payload_add st.1 (uleb_len (inst_nanoseconds i)); Ok (total, st.2)
  | VRecordRef _ => total ← payload_add st.1 (3 * 17); Ok (total, st.2)
  end.
Lemma try_fold_ext {E A S} (f g : S → A → result E S) l s :
  (∀ s x, f s x = g s x) → try_fold f l s = try_fold g l s.
Proof.
  intros Hfg. revert s. induction l as [|x l IH]; intros s; [done|]. cbn.
  rewrite Hfg. destruct (g s x); [apply IH|done].
Qed.
Lemma measure_unfold v st : measure v st = (st ← measure_node st; measure_rest v st).
Proof.
  destruct st as [t n], v; cbn [measure]; unfold measure_node; cbn [fst snd]; cbv zeta;
    (destruct (_ <? _); [done|]); (destruct (payload_add t 1) as [t1|]; [|done]);
    unfold mbind, result_bind; cbn [measure_rest fst snd]; try done; unfold mbind, result_bind;
    destruct (payload_add t1 _) as [t2|]; try done.
  apply try_fold_ext. intros [t3 n3] [k v]. cbn [fst snd].
  destruct (payload_add t3 _) as [t4|]; [|done]. by destruct (payload_add t4 _).
Qed.

Lemma zlen_enc_ref r : ref_ok r → zlen (enc_ref r) = 51.
Proof.
  intros [[Hd Hn] Hi]. unfold enc_ref, identity_ok, zlen in *.
  unfold ref_database, ref_namespace. rewrite !length_app. cbn [length]. lia.
Qed.
Lemma collection_u128 {A} (l : list A) :
  (zlen l <=? MAX_COLLECTION_ENTRIES) = true → 0 ≤ zlen l ≤ U128_MAX.
Proof.
  unfold MAX_COLLECTION_ENTRIES, U128_MAX. pose proof (zlen_nonneg l). lia.
Qed.


Lemma adds_measure v W nd :
  drop 1 (enc v) = W → value_nodes v = 1 + nd → 0 ≤ nd →
  adds (measure_rest v) (zlen W) nd → adds (measure v) (zlen (enc v)) (value_nodes v).
Proof.
  intros HW Hn Hnd H. eapply adds_ext; [intros st; symmetry; apply measure_unfold|].
  rewrite enc_tag, zlen_cons, HW, Hn.
  apply (adds_bind measure_node); auto using adds_node, zlen_nonneg; lia.
Qed.
Lemma measure_list l :
  (zlen l <=? MAX_COLLECTION_ENTRIES) = true →
  Forall (λ v, adds (measure v) (zlen (enc v)) (value_nodes v)) l →
  adds (measure_rest (VList l)) (zlen (uleb (zlen l) ++ flat_map enc l)) (sum_nd value_nodes l).
Proof.
  intros Hlen IH. rewrite zlen_app.
  apply (adds_bind (λ st, total ← payload_add st.1 (uleb_len (zlen l)); Ok (total, st.2))
    (try_fold (λ st child, measure child st) l) _ 0);
    first [done|apply zlen_nonneg|apply sum_nd_nonneg, value_nodes_nonneg|idtac].
  - by apply adds_uleb, collection_u128.
  - apply adds_fold; [apply value_nodes_nonneg|done].
Qed.
Lemma measure_map m :
  (zlen m <=? MAX_COLLECTION_ENTRIES) = true →
  Forall (λ e, inline_okb e.1 = true ∧ adds (measure e.2) (zlen (enc e.2)) (value_nodes e.2)) m →
  adds (measure_rest (VMap m)) (zlen (uleb (zlen m) ++ flat_map (enc_entry enc) m))
    (sum_nd (λ e, value_nodes e.2) m).
Proof.
  intros Hlen IH. rewrite zlen_app.
  apply (adds_bind (λ st, total ← payload_add st.1 (uleb_len (zlen m)); Ok (total, st.2))
    (try_fold (λ st e,
        st ← (t ← payload_add st.1 (uleb_len (zlen e.1));
              t ← payload_add t (zlen e.1); Ok (t, st.2));
        measure e.2 st) m) _ 0);
    first [done|apply zlen_nonneg|apply sum_nd_nonneg; intros []; apply value_nodes_nonneg|idtac].
  - by apply adds_uleb, collection_u128.
  - apply (adds_fold _ (enc_entry enc)); [intros []; apply value_nodes_nonneg|].
    apply (Forall_impl _ _ _ IH). intros [k v] [Hk Hv]. rewrite enc_entry_pair, zlen_app.
    apply (adds_bind (λ st, t ← payload_add st.1 (uleb_len (zlen k));
              t ← payload_add t (zlen k); Ok (t, st.2)) (measure v) _ 0);
      auto using zlen_nonneg, value_nodes_nonneg, adds_inline; lia.
Qed.
Lemma measure_instant i : instant_ok i →
  adds (measure_rest (VInstant i))
    (zlen (enc_signed (inst_seconds i) ++ uleb (inst_nanoseconds i))) 0.
Proof.
  intros [Hs Hn]. rewrite zlen_app.
  unfold MIN_EPOCH_SECONDS, MAX_EPOCH_SECONDS, I128_MAX in *.
  apply (adds_bind (λ st, total ← payload_add st.1 (1 + uleb_len (signed_parts (inst_seconds i)).2);
            Ok (total, st.2))
     (λ st, total ← payload_add st.1 (uleb_len (inst_nanoseconds i)); Ok (total, st.2)) _ 0 _ 0);
     first [lia|apply zlen_nonneg|idtac].
  - apply adds_signed. unfold I128_MAX. lia.
  - apply adds_uleb. unfold U128_MAX. lia.
Qed.

(** [measure] adds exactly the length and the node count of the value. *)
Lemma measure_spec v : value_okb v = true → adds (measure v) (zlen (enc v)) (value_nodes v).
Proof.
  induction v as [|b|num|num|bs|s|l IH|m IH|i|r] using Value_rect'; cbn [value_okb]; intros Hok.
  - apply (adds_measure _ [] 0); [done|done|done|apply adds_ret].
  - apply (adds_measure _ [] 0); [by destruct b|done|done|apply adds_ret].
  - apply (adds_measure _ (uleb num) 0); [by rewrite enc_eq|done|done|apply adds_uleb; lia].
  - apply (adds_measure _ (enc_signed num) 0); [by rewrite enc_eq|done|done|].
    apply adds_signed. lia.
  - apply (adds_measure _ (enc_inline bs) 0); [by rewrite enc_eq|done|done|by apply adds_inline].
  - apply andb_true_iff in Hok as [Hok _].
    apply (adds_measure _ (enc_inline s) 0); [by rewrite enc_eq|done|done|by apply adds_inline].
  - apply andb_true_iff in Hok as [Hlen Hoks].
    apply (adds_measure _ _ (sum_nd value_nodes l) (enc_list_tail l)); [done|..].
    + apply sum_nd_nonneg, value_nodes_nonneg.
    + apply measure_list; [done|]. apply forallb_Forall in Hoks.
      by apply (Forall_mp _ _ _ IH).
  - rewrite !andb_true_iff in Hok. destruct Hok as [[Hlen _] Hoks].
    apply (adds_measure _ _ (sum_nd (λ e, value_nodes e.2) m) (enc_map_tail m)); [done|..].
    + apply sum_nd_nonneg. intros []. apply value_nodes_nonneg.
    + apply measure_map; [done|]. apply forallb_Forall in Hoks.
      revert Hoks. apply Forall_mp. apply (Forall_impl _ _ _ IH).
      intros [k v] Hv [[Hk _]%andb_true_iff Hokv]%andb_true_iff. split; [done|by apply Hv].
  - apply bool_decide_eq_true in Hok.
    apply (adds_measure _ (enc_signed (inst_seconds i) ++ uleb (inst_nanoseconds i)) 0);
      [by rewrite enc_eq|done|done|by apply measure_instant].
  - apply bool_decide_eq_true in Hok.
    apply (adds_measure _ (enc_ref r) 0); [by rewrite enc_eq|done|done|].
    rewrite zlen_enc_ref by done. apply adds_bytes. unfold I64_MAX. lia.
Qed.

Lemma payload_len_spec v n : value_valid v →
  payload_len v = Ok n ↔ n = zlen (enc v) ∧ n ≤ MAX_VALUE_PAYLOAD.
Proof.
  intros (Hok & _ & Hnodes). unfold payload_len. rewrite bind_Ok. split.
  - intros ([t k] & Hm & [= <-]). apply measure_spec in Hm; [|done|done|done]. simpl. lia.
  - intros [-> Hlen]. exists (zlen (enc v), value_nodes v). split; [|done].
    apply (measure_spec v Hok 0 0); [done|done|lia].
Qed.

(** ** Frames *)
Definition frame_header : list byte := MAGIC ++ [VALUE_RECORD_KIND; FORMAT_MAJOR; FORMAT_MINOR].
Definition frame (payload : list byte) : list byte :=
  frame_header ++ uleb (zlen payload) ++ payload.

Lemma encode_value_frame v b : value_valid v →
  encode_value v = Ok b ↔ zlen (enc v) ≤ MAX_VALUE_PAYLOAD ∧ b = frame (enc v).
Proof.
  intros Hv. unfold encode_value. rewrite bind_Ok.
  setoid_rewrite (payload_len_spec v _ Hv). cbv zeta. split.
  - intros (n & [-> Hn] & [= <-]). split; [done|].
    by rewrite encode_payload_out, write_uleb_out, <-app_assoc.
  - intros [Hn ->]. exists (zlen (enc v)). split; [done|].
    by rewrite encode_payload_out, write_uleb_out, <-app_assoc.
Qed.

Lemma exact_eof {B} c l (x b : B) (e : DecodeError) :
  cur_at c l → (if negb (remaining c =? 0) then Err e else Ok x) = Ok b ↔ l = [] ∧ x = b.
Proof.
  intros Hc. rewrite (cur_at_remaining _ _ Hc). pose proof (zlen_nonneg l).
  destruct (Z.eqb_spec (zlen l) 0) as [Hz|Hz]; simpl.
  - destruct l; [naive_solver|]. rewrite zlen_cons in Hz. pose proof (zlen_nonneg l). lia.
  - split; [done|]. intros [-> _]. done.
Qed.
Lemma frame_payload_Ok input p : zlen input ≤ I64_MAX →
  frame_payload input = Ok p ↔ input = frame p ∧ zlen p ≤ MAX_VALUE_PAYLOAD.
Proof.
  intros Hlen. pose proof (cur_at_new input Hlen) as Hc. unfold frame_payload. cbv zeta.
  split.
  - intros Hk. apply bind_Ok in Hk as ([magic c1] & Hm & Hk).
    apply (cursor_take_spec _ _ input) in Hm as (l1 & -> & Hl1 & ->); [|done|done].
    case_decide as Hmagic; [done|]. subst magic.
    apply cur_at_adv in Hc.
    apply (exact_bind _ _ _ exact_byte _ _ _ _ Hc) in Hk as (k & l2 & -> & _ & Hc2 & Hk).
    apply (exact_bind _ _ _ exact_byte _ _ _ _ Hc2) in Hk as (mj & l3 & -> & _ & Hc3 & Hk).
    apply (exact_bind _ _ _ exact_byte _ _ _ _ Hc3) in Hk as (mn & l4 & -> & _ & Hc4 & Hk).
    destruct (_ || _) eqn:Hver; [done|].
    apply orb_false_iff in Hver as [[Hk1 Hk2]%orb_false_iff Hk3].
    apply negb_false_iff, Z.eqb_eq, u8_inj in Hk1 as ->.
    apply negb_false_iff, Z.eqb_eq, u8_inj in Hk2 as ->.
    assert (mn = FORMAT_MINOR) as ->.
    { apply u8_inj. pose proof (u8_range mn). change (u8 FORMAT_MINOR) with 0 in *. lia. }
    apply (exact_bind _ _ _ exact_length _ _ _ _ Hc4) in Hk as (n & l5 & -> & Hn & Hc5 & Hk).
    destruct (Z.ltb_spec MAX_VALUE_PAYLOAD n); [done|].
    apply bind_Ok in Hk as ([bs c6] & Ht & Hk).
    apply (cursor_take_spec n _ _ _ _ ltac:(unfold MAX_VALUE_PAYLOAD, I64_MAX in *; lia) Hc5)
      in Ht as (l6 & -> & <- & ->).
    apply cur_at_adv in Hc5. apply (exact_eof _ _ _ _ _ Hc5) in Hk as [-> ->].
    split; [|done]. unfold frame, frame_header. by rewrite app_nil_r, <-!app_assoc.
  - intros [-> Hp]. unfold frame, frame_header in *. rewrite <-!app_assoc in *.
    set (input := MAGIC ++ _) in *.
    apply bind_Ok. exists (MAGIC, adv (zlen MAGIC) (Cursor_new input)). split.
    { apply (cursor_take_spec (zlen MAGIC) _ _ _ _ ltac:(done) Hc). by eexists. }
    apply cur_at_adv in Hc. rewrite decide_False by tauto.
    do 3 (rewrite (cursor_byte_cons _ _ _ Hc); apply cur_at_tail in Hc; unfold mbind, result_bind).
    cbn [u8 negb orb]. change (_ || _) with false.
    apply (exact_bind _ _ _ exact_length _ _ _ _ Hc). exists (zlen p), p.
    pose proof (zlen_nonneg p). unfold MAX_VALUE_PAYLOAD in *.
    unfold USIZE_MAX, U64_MAX. split_and!; [done|lia|lia|by apply cur_at_adv|].
    destruct (Z.ltb_spec (16 * 1024 * 1024) (zlen p)); [lia|].
    apply cur_at_adv in Hc. apply bind_Ok.
    eexists (p, _). split.
    { apply (cursor_take_spec (zlen p) _ _ _ _ ltac:(unfold I64_MAX; lia) Hc).
      exists []. by rewrite app_nil_r. }
    rewrite <-(app_nil_r p) in Hc at 2. apply cur_at_adv in Hc. by apply (exact_eof _ _ _ _ _ Hc).
Qed.

Lemma valid_payload_ok v :
  value_valid v ↔ payload_ok 0 v ∧ value_nodes v ≤ MAX_VALUE_NODES.
Proof.
  unfold value_valid, payload_ok, depth_ok, MAX_NESTING_DEPTH.
  pose proof (value_depth_nonneg v). split; intros; split_and!; try tauto; try lia.
Qed.
Lemma decode_value_frame b v : zlen b ≤ I64_MAX →
  decode_value b = Ok v ↔
  value_valid v ∧ zlen (enc v) ≤ MAX_VALUE_PAYLOAD ∧ b = frame (enc v).
Proof.
  intros Hb. unfold decode_value. rewrite bind_Ok, valid_payload_ok.
  pose proof (payload_exact DECODE_FUEL 0 ltac:(done) ltac:(done)) as Hex.
  assert (∀ p, zlen p ≤ MAX_VALUE_PAYLOAD → cur_at (Cursor_new p) p) as Hnew.
  { intros p Hp. apply cur_at_new. unfold MAX_VALUE_PAYLOAD, I64_MAX in *. lia. }
  split.
  - intros (p & [-> Hp]%frame_payload_Ok & Hk); [|done].
    apply bind_Ok in Hk as ([w [c u]] & Hw & Hk). pose proof (Hnew p Hp) as Hc.
    apply (Hex _ _ _ _ _ _ ltac:(done) Hc) in Hw as (l' & -> & Hok & Hn & -> & ->).
    apply cur_at_adv in Hc. apply (exact_eof _ _ _ _ _ Hc) in Hk as [-> ->].
    rewrite app_nil_r in *. by split_and!.
  - intros ([Hok Hn] & Hlen & ->). exists (enc v). split.
    { by apply frame_payload_Ok. }
    pose proof (Hnew _ Hlen) as Hc. apply bind_Ok.
    exists (v, (adv (zlen (enc v)) (Cursor_new (enc v)), 0 + value_nodes v)). split.
    + apply (Hex _ _ _ _ _ _ ltac:(done) Hc). exists []. by rewrite app_nil_r.
    + rewrite <-(app_nil_r (enc v)) in Hc at 2. apply cur_at_adv in Hc.
      by apply (exact_eof _ _ _ _ _ Hc).
Qed.

(** C28: the strict decoder and the canonical encoder are mutually inverse.  For
    every byte string that fits a Rust slice, [decode_value] returns [v] exactly
    when [v] satisfies every value invariant (inline and collection bounds,
    UTF-8, sorted unique keys, depth, node count) and the bytes are the one
    frame [encode_value] writes for it: encode/decode is a round trip, a value
    has one encoding, and decoding never yields an invalid value. *)
Theorem decode_value_iff_encode b v : zlen b ≤ I64_MAX →
  decode_value b = Ok v ↔ value_valid v ∧ encode_value v = Ok b.
Proof.
  intros Hb. rewrite decode_value_frame by done. split.
  - intros (Hv & Hlen & ->). by rewrite encode_value_frame.
  - intros [Hv He]. by apply encode_value_frame in He.
Qed.
Definition sample_value : Value :=
  VMap [(String.list_byte_of_string "a", VList [VNull; VSigned (-5); VBool true]);
        (String.list_byte_of_string "b", VUnsigned 300)].
Lemma decode_value_iff_encode_witness :
  ∃ b, encode_value sample_value = Ok b ∧ zlen b ≤ I64_MAX ∧ decode_value b = Ok sample_value.
Proof.
  eexists. split; [vm_compute; reflexivity|]. split; [done|].
  apply decode_value_iff_encode; [done|]. split; [by vm_compute|vm_compute; reflexivity].
Defined.

(** [encoded_len] is the length of the encoding: it fails with the same error
    as [encode_value] and otherwise returns the number of bytes written. *)
Theorem encoded_len_spec v : value_valid v →
  encoded_len v = (b ← encode_value v; Ok (zlen b)).
Proof.
  intros Hv. unfold encoded_len, encode_value.
  destruct (payload_len v) as [n|] eqn:Hn; [|done]. unfold mbind, result_bind. cbv zeta.
  apply payload_len_spec in Hn as [-> Hn]; [|done].
  rewrite encode_payload_out, write_uleb_out, !zlen_app. pose proof (zlen_nonneg (enc v)).
  unfold MAX_VALUE_PAYLOAD in *. pose proof (zlen_uleb_le (zlen (enc v))).
  rewrite uleb_len_spec by (unfold U128_MAX; lia). unfold checked_add, U64_MAX.
  change (zlen ([] ++ MAGIC)) with 4. change (zlen MAGIC) with 4.
  change (zlen [VALUE_RECORD_KIND; FORMAT_MAJOR; FORMAT_MINOR]) with 3.
  destruct (Z.leb_spec (4 + 3 + zlen (uleb (zlen (enc v))) + zlen (enc v)) (2 ^ 64 - 1)); [done|lia].
Qed.
Lemma encoded_len_spec_witness :
  value_valid sample_value ∧ encoded_len sample_value = Ok 24.
Proof.
  assert (value_valid sample_value) as Hv by by vm_compute.
  split; [done|]. rewrite (encoded_len_spec _ Hv). vm_compute. reflexivity.
Defined.
