(* ===== verification/BorrowedDecode.v ===== *)
(** * The borrowing decoders agree with the strict decoder

    [decode_map_value] and the [decode_borrowed_map_value*] family skip
    allocations and materialise selected fields in other shapes.  [erase] maps
    each shape back to the value it stands for; the decoders commute with it on
    every input, errors included. *)
From S2P Require Import Prelude Ids Value Codec CodecFacts CodecFrame.

#[local] Arguments read_uleb : simpl never.

Fixpoint erase (b : BorrowedMapValue) : Value :=
  match b with
  | BString s => VString s
  | BSingletonStringMap key value => VMap [(key, VString value)]
  | BMap entries => VMap (map (λ e, (e.1, erase e.2)) entries)
  | BRecordRefs refs => VList (map VRecordRef refs)
  | BValue v => v
  end.

(** [db] computes what [dv] computes, up to the map [f] on the result. *)
Definition agrees {A B} (f : A → B) (db : decoder A) (dv : decoder B) : Prop :=
  ∀ s, ('(a, s) ← db s; Ok (f a, s)) = dv s.

Lemma agrees_id {A} (d : decoder A) : agrees id d d.
Proof. intros s. by destruct (d s) as [[]|]. Qed.
Lemma agrees_entries {A B} (f : A → B) (db : list byte → decoder A) (dv : decoder B) n p :
  (∀ k, agrees f (db k) dv) →
  agrees (map (λ e, (e.1, f e.2))) (entries_decode db n p) (entries_decode (λ _, dv) n p).
Proof.
  intros H. revert p. induction n as [|n IH]; intros p s; [done|]. cbn [entries_decode].
  destruct (read_string s.1) as [[k c]|]; [|done]. unfold mbind, result_bind.
  destruct (match p with Some _ => _ | None => _ end); [done|].
  rewrite <-(H k). destruct (db k (c, s.2)) as [[x s1]|]; [|done].
  unfold mbind, result_bind in *. rewrite <-(IH (Some k) s1).
  by destruct (entries_decode db n (Some k) s1) as [[ys s2]|].
Qed.

Lemma peek_cursor_byte c :
  cursor_byte c = (b ← peek c; Ok (b, mk_cursor (c_bytes c) (c_offset c + 1))).
Proof. unfold cursor_byte, peek. by destruct (c_bytes c !! _). Qed.

(** [decode_payload] after peeking the tag. *)
Lemma decode_payload_peek fuel d c u :
  decode_payload fuel d (c, u) =
  (tag ← peek c; used ← take_node u; '(_, c) ← cursor_byte c;
   payload_body (payload_rec fuel) d tag (c, used)).
Proof.
  rewrite decode_payload_unfold. cbn [fst snd]. rewrite peek_cursor_byte.
  destruct (peek c); [|done]. unfold mbind, result_bind. by destruct (take_node u).
Qed.

Lemma borrowed_payload_agrees fuel d :
  agrees erase (decode_borrowed_map_payload fuel d) (decode_payload fuel d).
Proof.
  intros [c u]. unfold decode_borrowed_map_payload. cbn [fst snd].
  destruct (peek c) as [tag|e] eqn:Ht; unfold mbind, result_bind at 1 2.
  - case_decide as Htag.
    + by destruct (decode_payload fuel d (c, u)) as [[v s]|].
    + subst tag. rewrite decode_payload_peek, Ht.
      unfold mbind, result_bind. destruct (take_node u); [|done].
      destruct (cursor_byte c) as [[b c1]|]; [|done]. cbn [payload_body STRING_TAG].
      unfold mbind, result_bind. by destruct (read_str c1) as [[str c2]|].
  - by rewrite decode_payload_peek, Ht.
Qed.

Lemma entries_decode_1 {A} (dec : decoder A) s :
  entries_decode (λ _, dec) 1 None s =
  ('(key, c) ← read_str s.1; '(x, s) ← dec (c, s.2); Ok ([(key, x)], s)).
Proof.
  cbn [entries_decode]. unfold read_string. destruct (read_str s.1) as [[k c]|]; [|done].
  unfold mbind, result_bind. by destruct (dec (c, s.2)) as [[x s1]|].
Qed.

(** The singleton shortcut of [decode_borrowed_map_tree]. *)
Lemma singleton_agrees (rb : decoder BorrowedMapValue) (rv : decoder Value) s :
  agrees erase rb rv →
  (∀ c u, peek c = Ok STRING_TAG →
    rv (c, u) = (used ← take_node u; '(_, c) ← cursor_byte c;
                 '(v, c) ← read_str c; Ok (VString v, (c, used)))) →
  (∀ c u e, peek c = Err e → rv (c, u) = Err e) →
  ('(b, s) ← ('(key, c) ← read_str s.1;
    tag ← peek c;
    if decide (tag = STRING_TAG) then
      used ← take_node s.2; '(_, c) ← cursor_byte c; '(value, c) ← read_str c;
      Ok (BSingletonStringMap key value, (c, used))
    else '(value, s) ← rb (c, s.2); Ok (BMap [(key, value)], s)); Ok (erase b, s))
  = ('(es, s) ← entries_decode (λ _, rv) 1 None s; Ok (VMap es, s)).
Proof.
  intros Hr Hstr Heof. rewrite entries_decode_1. destruct s as [c u]. cbn [fst snd].
  destruct (read_str c) as [[k c1]|]; [|done]. unfold mbind, result_bind.
  destruct (peek c1) as [tag|e] eqn:Ht; [|by rewrite (Heof _ _ _ Ht)].
  case_decide as Htag.
  - subst tag. rewrite (Hstr _ _ Ht). unfold mbind, result_bind. destruct (take_node u); [|done].
    destruct (cursor_byte c1) as [[b c2]|]; [|done]. by destruct (read_str c2) as [[v c3]|].
  - rewrite <-(Hr (c1, u)). unfold mbind, result_bind. by destruct (rb (c1, u)) as [[x s1]|].
Qed.

Lemma decode_payload_string fuel d c u :
  peek c = Ok STRING_TAG →
  decode_payload fuel d (c, u) =
  (used ← take_node u; '(_, c) ← cursor_byte c;
   '(v, c) ← read_str c; Ok (VString v, (c, used))).
Proof. intros Ht. by rewrite decode_payload_peek, Ht. Qed.
Lemma decode_payload_eof fuel d c u e :
  peek c = Err e → decode_payload fuel d (c, u) = Err e.
Proof. intros Ht. by rewrite decode_payload_peek, Ht. Qed.

(** The tree decoder one level unfolded, over the decoder of the level below. *)
Definition tree_rec (fuel : nat) : Z → decoder BorrowedMapValue :=
  match fuel with
  | O => λ _ _, Err DecodeError.ResourceLimit
  | S fuel => decode_borrowed_map_tree fuel
  end.
Definition tree_map (rec : Z → decoder BorrowedMapValue) (d : Z) : decoder BorrowedMapValue := λ s,
  '(depth, count, s) ← container_header d s;
  if count =? 1 then
    '(key, c) ← read_str s.1;
    tag ← peek c;
    if decide (tag = STRING_TAG) then
      used ← take_node s.2; '(_, c) ← cursor_byte c; '(value, c) ← read_str c;
      Ok (BSingletonStringMap key value, (c, used))
    else '(value, s) ← rec depth (c, s.2); Ok (BMap [(key, value)], s)
  else
    '(entries, s) ← entries_decode (λ _, rec depth) (Z.to_nat count) None s;
    Ok (BMap entries, s).
Lemma tree_unfold fuel d c u :
  decode_borrowed_map_tree fuel d (c, u) =
  (tag ← peek c;
   if decide (tag = STRING_TAG) then decode_borrowed_map_payload fuel d (c, u)
   else if decide (tag = MAP_TAG) then
     used ← take_node u; '(_, c) ← cursor_byte c; tree_map (tree_rec fuel) d (c, used)
   else '(v, s) ← decode_payload fuel d (c, u); Ok (BValue v, s)).
Proof. by destruct fuel. Qed.

Lemma tree_map_agrees (rb : Z → decoder BorrowedMapValue) fuel d :
  0 ≤ d ≤ MAX_NESTING_DEPTH →
  (d + 1 ≤ MAX_NESTING_DEPTH → agrees erase (rb (d + 1)) (decode_payload fuel (d + 1))) →
  agrees erase (tree_map rb d) (decode_map (decode_payload fuel) d).
Proof.
  intros Hd Hr s. unfold tree_map, decode_map.
  destruct (container_header d s) as [[[e n] s1]|] eqn:Hh; [|done].
  apply container_header_depth in Hh as [Hd1 ->]; [|done]. specialize (Hr Hd1).
  destruct (Z.eqb_spec n 1) as [->|].
  - apply singleton_agrees; [done|..].
    + intros c u. apply decode_payload_string.
    + intros c u err. apply decode_payload_eof.
  - unfold mbind, result_bind. rewrite (proj2 (Z.eqb_neq n 1)) by done.
    rewrite <-(agrees_entries erase (λ _, rb (d + 1)) _ _ _ (λ _, Hr) s1).
    unfold mbind, result_bind.
    by destruct (entries_decode (λ _, rb (d + 1)) (Z.to_nat n) None s1) as [[es s2]|].
Qed.

Lemma payload_rec_depth fuel d :
  0 ≤ d ≤ MAX_NESTING_DEPTH → MAX_NESTING_DEPTH - d ≤ Z.of_nat fuel →
  ∀ s, decode_map (payload_rec fuel) d s = decode_map (decode_payload (pred fuel)) d s.
Proof.
  intros Hd Hf [c u].
  apply (payload_body_ext (payload_rec fuel) (decode_payload (pred fuel)) d x08 (c, u) Hd).
  intros Hd1 s. destruct fuel; [lia|done].
Qed.

Lemma tree_agrees fuel d :
  0 ≤ d ≤ MAX_NESTING_DEPTH → MAX_NESTING_DEPTH - d ≤ Z.of_nat fuel →
  agrees erase (decode_borrowed_map_tree fuel d) (decode_payload fuel d).
Proof.
  revert d. induction fuel as [|fuel IH]; intros d Hd Hf [c u]; rewrite tree_unfold.
  all: destruct (peek c) as [tag|] eqn:Ht; [|by rewrite (decode_payload_eof _ _ _ _ _ Ht)].
  all: unfold mbind, result_bind at 1 2; case_decide; [apply borrowed_payload_agrees|].
  all: case_decide; [subst tag|by destruct (decode_payload _ d (c, u)) as [[v s]|]].
  all: rewrite (decode_payload_peek _ d), Ht; unfold mbind, result_bind.
  all: destruct (take_node u) as [used|]; [|done].
  all: destruct (cursor_byte c) as [[b c1]|]; [|done]; cbn [payload_body MAP_TAG].
  all: rewrite payload_rec_depth by done; apply tree_map_agrees; try done; intros Hd1.
  - lia.
  - apply IH; lia.
Qed.

(** ** Record-reference lists *)
Lemma record_refs_loop_agrees fuel d n s :
  match record_refs_loop n s with
  | Ok (Some (rs, s')) =>
      repeat_decode (decode_payload fuel d) n s = Ok (map VRecordRef rs, s')
  | Ok None => True
  | Err e => repeat_decode (decode_payload fuel d) n s = Err e
  end.
Proof.
  revert s. induction n as [|n IH]; intros [c u]; [done|]. cbn [record_refs_loop repeat_decode fst snd].
  rewrite decode_payload_peek.
  destruct (peek c) as [tag|]; [|done]. unfold mbind, result_bind. case_decide; [done|].
  subst tag. destruct (take_node u) as [used|]; [|done].
  destruct (cursor_byte c) as [[b c1]|]; [|done]. cbn [payload_body RECORD_REF_TAG].
  unfold mbind, result_bind. destruct (read_record_ref c1) as [[r c2]|]; [|done].
  specialize (IH (c2, used)).
  destruct (record_refs_loop n (c2, used)) as [[[rs s']|]|]; [| |]; try done; by rewrite IH.
Qed.
Lemma record_refs_agrees fuel d s :
  0 ≤ d ≤ MAX_NESTING_DEPTH → MAX_NESTING_DEPTH - d ≤ Z.of_nat fuel →
  match decode_borrowed_record_refs d s with
  | Ok (Some (rs, s')) => decode_payload fuel d s = Ok (VList (map VRecordRef rs), s')
  | Ok None => True
  | Err e => decode_payload fuel d s = Err e
  end.
Proof.
  intros Hd Hf. destruct s as [c u]. unfold decode_borrowed_record_refs. cbn [fst snd].
  rewrite decode_payload_peek. destruct (peek c) as [tag|]; [|done].
  unfold mbind, result_bind. case_decide; [done|]. subst tag.
  destruct (take_node u) as [used|]; [|done]. destruct (cursor_byte c) as [[b c1]|]; [|done].
  cbn [payload_body LIST_TAG]. unfold decode_list.
  destruct (container_header d (c1, used)) as [[[e n] s1]|] eqn:Hh; [|done].
  apply container_header_depth in Hh as [Hd1 ->]; [|done]. destruct fuel as [|fuel]; [lia|].
  unfold mbind, result_bind. cbn [payload_rec].
  pose proof (record_refs_loop_agrees fuel (d + 1) (Z.to_nat n) s1) as Hl.
  destruct (record_refs_loop (Z.to_nat n) s1) as [[[rs s']|]|]; [| |]; try done; by rewrite Hl.
Qed.

Lemma selected_agrees mf rf key d :
  1 ≤ d ≤ MAX_NESTING_DEPTH →
  agrees erase (decode_selected_borrowed_payload mf rf key d) (decode_payload ENTRY_FUEL d).
Proof.
  intros Hd s. unfold decode_selected_borrowed_payload.
  assert (MAX_NESTING_DEPTH - d ≤ Z.of_nat ENTRY_FUEL) as Hf.
  { change (Z.of_nat ENTRY_FUEL) with 31. unfold MAX_NESTING_DEPTH. lia. }
  set (rest := if decide (key ∈ rf) then _ else _).
  assert (('(a, s) ← rest; Ok (erase a, s)) = decode_payload ENTRY_FUEL d s) as Hrest.
  { unfold rest. case_decide; [|apply borrowed_payload_agrees].
    pose proof (record_refs_agrees ENTRY_FUEL d s ltac:(lia) Hf) as Hr.
    destruct (decode_borrowed_record_refs d s) as [[[rs s']|]|]; [by rewrite Hr| |by rewrite Hr].
    apply borrowed_payload_agrees. }
  case_decide; [|done]. unfold mbind at 2, result_bind at 2. unfold mbind at 2, result_bind at 2.
  destruct (peek s.1) as [tag|] eqn:Ht.
  - case_bool_decide; [|done]. apply tree_agrees; lia.
  - destruct s as [c u]. by rewrite (decode_payload_eof _ _ _ _ _ Ht).
Qed.

(** ** Whole inputs *)

(** The strict decoder restricted to maps, as the contract of the family. *)
Definition map_of_value (v : Value) : option (list (list byte * Value)) :=
  match v with VMap entries => Some entries | _ => None end.
Definition map_result (r : result DecodeError Value) :
    result DecodeError (option (list (list byte * Value))) :=
  match r with Ok v => Ok (map_of_value v) | Err e => Err e end.
Definition erase_result {A} (f : A → Value)
    (r : result DecodeError (option (list (list byte * A)))) :
    result DecodeError (option (list (list byte * Value))) :=
  match r with
  | Ok es => Ok (option_map (map (λ e, (e.1, f e.2))) es)
  | Err e => Err e
  end.

Lemma peek_new p : peek (Cursor_new p) = ok_or (head p) DecodeError.UnexpectedEof.
Proof. by destruct p. Qed.
Lemma take_node_0 : take_node 0 = Ok 1.
Proof. done. Qed.
Lemma payload_rec_S fuel : payload_rec (S fuel) = decode_payload fuel.
Proof. done. Qed.
Lemma payload_rec_root : payload_rec DECODE_FUEL = decode_payload ENTRY_FUEL.
Proof. apply (payload_rec_S ENTRY_FUEL). Qed.
(** The root is a map: both decoders run the same header and entry loop. *)
Lemma decode_root_map p :
  head p = Some MAP_TAG →
  decode_payload DECODE_FUEL 0 (Cursor_new p, 0) =
  ('(_, c) ← cursor_byte (Cursor_new p); decode_map (decode_payload ENTRY_FUEL) 0 (c, 1)).
Proof.
  intros Hhead. rewrite decode_payload_peek, peek_new, Hhead, take_node_0, payload_rec_root.
  by unfold mbind, result_bind.
Qed.
Lemma decode_root_not_map fuel p es s :
  decode_payload fuel 0 (Cursor_new p, 0) = Ok (VMap es, s) → head p = Some MAP_TAG.
Proof.
  rewrite decode_payload_peek, peek_new.
  intros (tag & Htag%ok_or_Ok & Hw)%bind_Ok. rewrite Htag. f_equal.
  apply bind_Ok in Hw as (u & _ & Hw). apply bind_Ok in Hw as ([b c] & _ & Hw).
  clear -Hw. destruct tag; try done; cbn [payload_body] in Hw;
    try (apply bind_Ok in Hw as ([x c'] & _ & Hw); done).
  unfold decode_list in Hw. apply bind_Ok in Hw as ([[? ?] ?] & _ & Hw).
  by apply bind_Ok in Hw as ([? ?] & _ & Hw).
Qed.

Lemma map_entries_agree {A} (f : A → Value) (dec : list byte → Z → decoder A) input :
  (∀ k, agrees f (dec k 1) (decode_payload ENTRY_FUEL 1)) →
  erase_result f (decode_map_entries dec input) = map_result (decode_value input).
Proof.
  intros Hdec.
  assert (decode_value input = (p ← frame_payload input;
    '(value, s) ← decode_payload DECODE_FUEL 0 (Cursor_new p, 0);
    if negb (remaining s.1 =? 0) then Err DecodeError.TrailingBytes else Ok value)) as Hdv by done.
  unfold decode_map_entries. rewrite Hdv.
  destruct (frame_payload input) as [p|] eqn:Hp; [rewrite !result_bind_Ok|done].
  case_decide as Hhead.
  - rewrite (decode_root_map p Hhead), take_node_0.
    destruct (cursor_byte (Cursor_new p)) as [[b c1]|]; [rewrite !result_bind_Ok|done].
    unfold decode_map.
    destruct (container_header 0 (c1, 1)) as [[[e n] s]|] eqn:Hh; [rewrite !result_bind_Ok|done].
    apply container_header_depth in Hh as [_ ->]; [|done].
    rewrite Z.add_0_l, <-(agrees_entries f (λ k, dec k 1) _ (Z.to_nat n) None Hdec s).
    destruct (entries_decode (λ k, dec k 1) (Z.to_nat n) None s) as [[es s1]|]; [|done].
    rewrite !result_bind_Ok. by destruct (negb (remaining s1.1 =? 0)).
  - destruct (decode_payload DECODE_FUEL 0 (Cursor_new p, 0)) as [[v s]|] eqn:Hv; [|done].
    rewrite result_bind_Ok. destruct (negb _); [done|].
    rewrite result_bind_Ok. cbn [erase_result map_result option_map].
    destruct v; try done. by apply decode_root_not_map in Hv.
Qed.

Lemma erase_result_id (r : result DecodeError (option (list (list byte * Value)))) :
  erase_result id r = r.
Proof.
  destruct r as [[es|]|]; [|done|done]. cbn. do 2 f_equal.
  induction es as [|[k v] es IH]; [done|]. cbn. by f_equal.
Qed.

(** On every input [decode_map_value] is [decode_value] restricted to maps (same
    errors, [None] exactly for a valid frame whose root is not a map), and
    whatever fields are selected for borrowed subtrees or reference lists, the
    borrowing decoders return the same entries in another shape: erasing the
    shape gives the strict decoder's result, with the same errors. *)
Theorem map_decoders_agree input borrowed_map_fields record_ref_list_fields :
  decode_map_value input = map_result (decode_value input) ∧
  erase_result erase (decode_borrowed_map_value input) = map_result (decode_value input) ∧
  erase_result erase (decode_borrowed_map_value_with_fields input borrowed_map_fields)
    = map_result (decode_value input) ∧
  erase_result erase (decode_borrowed_map_value_with_fields_and_record_refs input
    borrowed_map_fields record_ref_list_fields) = map_result (decode_value input).
Proof.
  split; [rewrite <-(erase_result_id (decode_map_value input))|split_and!];
    apply map_entries_agree; intros k.
  - apply agrees_id.
  - apply borrowed_payload_agrees.
  - by apply selected_agrees.
  - by apply selected_agrees.
Qed.
