(* ===== verification/Policy.v ===== *)
(** * Authorization and quota policy

    Models [crates/uste-policy/src/lib.rs]: permission sets, quota limits,
    namespace policies and the default-deny [PolicyKernel].

    The [Arc<PolicyAuthority>] that ties principals and leases to one kernel is
    a token; [Arc::ptr_eq] compares tokens.  [BTreeMap] is [gmap].  Methods on
    [&mut self] return the updated receiver on success; on an error the source
    leaves the receiver as it was. *)
From S2P Require Import Prelude Ids.

Definition MAX_PRINCIPALS_PER_NAMESPACE : Z := 65536.
Definition MAX_RECORD_RULES_PER_GRANT : Z := 100000.
Definition MAX_AUTHORIZATION_REQUIREMENTS_PER_REQUEST : Z := 100000.
Definition HARD_MAX_REQUEST_BYTES : Z := 16 * 1024 * 1024.
Definition HARD_MAX_STAGED_BLOB_BYTES : Z := 1024 * 1024 * 1024 * 1024.
Definition HARD_MAX_COMMITTED_BLOB_BYTES : Z := 1024 * 1024 * 1024 * 1024.
Definition HARD_MAX_LIVE_UPLOADS : Z := 32.
Definition HARD_MAX_BLOB_READ_BYTES : Z := 1024 * 1024.

Inductive PolicyError : Set :=
| Unauthorized | ResourceLimit | InvalidPolicy | StalePolicy.

(** [PrincipalDigest([u8; 32])]. *)
Record PrincipalDigest : Set := PrincipalDigest_from_bytes { principal_bytes : list byte }.
#[global] Instance PrincipalDigest_eq_dec : EqDecision PrincipalDigest.
Proof. solve_decision. Defined.
#[global] Instance PrincipalDigest_countable : Countable PrincipalDigest.
Proof. by apply (inj_countable' principal_bytes PrincipalDigest_from_bytes); intros []. Defined.

(** The derived [Ord]: lexicographic on the bytes. *)
#[global] Instance PrincipalDigest_lexico : Lexico PrincipalDigest := λ a b,
  lexico (principal_bytes a) (principal_bytes b).
#[global] Instance PrincipalDigest_lexico_po : StrictOrder (@lexico PrincipalDigest _).
Proof.
  unfold lexico, PrincipalDigest_lexico. split.
  - intros a Ha. by apply (irreflexivity lexico (principal_bytes a)).
  - intros a b c ??. by trans (principal_bytes b).
Qed.
#[global] Instance PrincipalDigest_lexico_trichotomy : TrichotomyT (@lexico PrincipalDigest _).
Proof.
  red; refine (λ a b, cast_trichotomy (trichotomyT lexico (principal_bytes a) (principal_bytes b)));
    abstract (destruct a, b; simpl in *; unfold lexico, PrincipalDigest_lexico; simpl;
      congruence || done).
Defined.

Abbreviation PolicyVersion := Z (only parsing).
Definition PolicyVersion_new (value : Z) : result PolicyError PolicyVersion :=
  if value =? 0 then Err InvalidPolicy else Ok value.

(** ** Permissions *)
Inductive Action : Set :=
| ReadRecord | ReadHistory | ExpandGraph | Search | Aggregate | ReadBlob | Export | Commit
| StartUpload | ResumeUpload | WriteUpload | FinishUpload | AbortUpload | ReadOwnOutcome
| ReadAllOutcomes | InspectQuota | EvaluateBranch | Subscribe | ManagePolicy | ManageSchema
| Import | Promote | ManageRetention | ManageKeys | ExecuteProcedure.

(** [action as u8]: the discriminants count from zero. *)
Definition action_index (a : Action) : Z :=
  match a with
  | ReadRecord => 0 | ReadHistory => 1 | ExpandGraph => 2 | Search => 3 | Aggregate => 4
  | ReadBlob => 5 | Export => 6 | Commit => 7 | StartUpload => 8 | ResumeUpload => 9
  | WriteUpload => 10 | FinishUpload => 11 | AbortUpload => 12 | ReadOwnOutcome => 13
  | ReadAllOutcomes => 14 | InspectQuota => 15 | EvaluateBranch => 16 | Subscribe => 17
  | ManagePolicy => 18 | ManageSchema => 19 | Import => 20 | Promote => 21
  | ManageRetention => 22 | ManageKeys => 23 | ExecuteProcedure => 24
  end.
#[global] Instance Action_eq_dec : EqDecision Action.
Proof. solve_decision. Defined.

Definition ACTION_COUNT : Z := action_index ExecuteProcedure + 1.
Definition VALID_PERMISSION_BITS : Z := Z.shiftl 1 ACTION_COUNT - 1.

Record PermissionSet : Set := mk_permissions { bits : Z }.
#[global] Instance PermissionSet_eq_dec : EqDecision PermissionSet.
Proof. solve_decision. Defined.

Definition PermissionSet_from_actions (actions : list Action) : PermissionSet :=
  mk_permissions
    (foldl (λ bits action, Z.lor bits (Z.shiftl 1 (action_index action))) 0 actions).
Definition contains (p : PermissionSet) (action : Action) : bool :=
  negb (Z.land (bits p) (Z.shiftl 1 (action_index action)) =? 0).
Definition PermissionSet_is_empty (p : PermissionSet) : bool := bits p =? 0.
(** [!VALID_PERMISSION_BITS] on [u64]. *)
Definition u64_not (z : Z) : Z := Z.lxor z U64_MAX.
Definition PermissionSet_from_bits (bits : Z) : result PolicyError PermissionSet :=
  if Z.land bits (u64_not VALID_PERMISSION_BITS) =? 0
  then Ok (mk_permissions bits) else Err InvalidPolicy.

(** ** Quotas *)
Record QuotaLimits : Set := mk_quotas {
  max_request_bytes : Z;
  max_staged_blob_bytes : Z;
  max_committed_blob_bytes : Z;
  max_live_uploads : Z;
  max_blob_read_bytes_per_call : Z
}.
#[global] Instance QuotaLimits_eq_dec : EqDecision QuotaLimits.
Proof. solve_decision. Defined.

Definition within_hard_caps (q : QuotaLimits) : bool :=
  (max_request_bytes q <=? HARD_MAX_REQUEST_BYTES)
  && (max_staged_blob_bytes q <=? HARD_MAX_STAGED_BLOB_BYTES)
  && (max_committed_blob_bytes q <=? HARD_MAX_COMMITTED_BLOB_BYTES)
  && (max_live_uploads q <=? HARD_MAX_LIVE_UPLOADS)
  && (max_blob_read_bytes_per_call q <=? HARD_MAX_BLOB_READ_BYTES).
Definition QuotaLimits_new (request staged committed uploads read : Z) :
    result PolicyError QuotaLimits :=
  let limits := mk_quotas request staged committed uploads read in
  if within_hard_caps limits then Ok limits else Err InvalidPolicy.
Definition QuotaLimits_min (a b : QuotaLimits) : QuotaLimits :=
  mk_quotas
    (if max_request_bytes a <? max_request_bytes b
     then max_request_bytes a else max_request_bytes b)
    (if max_staged_blob_bytes a <? max_staged_blob_bytes b
     then max_staged_blob_bytes a else max_staged_blob_bytes b)
    (if max_committed_blob_bytes a <? max_committed_blob_bytes b
     then max_committed_blob_bytes a else max_committed_blob_bytes b)
    (if max_live_uploads a <? max_live_uploads b
     then max_live_uploads a else max_live_uploads b)
    (if max_blob_read_bytes_per_call a <? max_blob_read_bytes_per_call b
     then max_blob_read_bytes_per_call a else max_blob_read_bytes_per_call b).

(** ** Grants and namespace policies *)
Record RecordRule : Set := mk_rule { deny : PermissionSet }.
Record NamespaceGrant : Set := mk_grant {
  permissions : PermissionSet;
  grant_quotas : QuotaLimits;
  record_rules : gmap RecordId RecordRule
}.
#[global] Instance RecordRule_eq_dec : EqDecision RecordRule.
Proof. solve_decision. Defined.
#[global] Instance NamespaceGrant_eq_dec : EqDecision NamespaceGrant.
Proof. solve_decision. Defined.
Definition NamespaceGrant_new (p : PermissionSet) (q : QuotaLimits) : NamespaceGrant :=
  mk_grant p q ∅.
Definition map_len {K V} `{Countable K} (m : gmap K V) : Z := Z.of_nat (size m).
Definition deny_record (record : RecordId) (d : PermissionSet) (g : NamespaceGrant) :
    result PolicyError NamespaceGrant :=
  if negb (bool_decide (is_Some (record_rules g !! record)))
     && (MAX_RECORD_RULES_PER_GRANT <=? map_len (record_rules g))
  then Err ResourceLimit
  else Ok (mk_grant (permissions g) (grant_quotas g)
             (<[record := mk_rule d]> (record_rules g))).

Record NamespacePolicy : Set := mk_policy {
  policy_scope : NamespaceRef;
  policy_version : PolicyVersion;
  policy_quotas : QuotaLimits;
  grants : gmap PrincipalDigest NamespaceGrant
}.
#[global] Instance NamespacePolicy_eq_dec : EqDecision NamespacePolicy.
Proof. solve_decision. Defined.
Definition NamespacePolicy_new (scope : NamespaceRef) (version : PolicyVersion)
    (q : QuotaLimits) : NamespacePolicy := mk_policy scope version q ∅.
(** [NamespacePolicy::grant]. *)
Definition policy_grant (principal : PrincipalDigest) (g : NamespaceGrant)
    (p : NamespacePolicy) : result PolicyError NamespacePolicy :=
  if negb (bool_decide (is_Some (grants p !! principal)))
     && (MAX_PRINCIPALS_PER_NAMESPACE <=? map_len (grants p))
  then Err ResourceLimit
  else if decide (QuotaLimits_min (grant_quotas g) (policy_quotas p) ≠ grant_quotas g)
  then Err InvalidPolicy
  else Ok (mk_policy (policy_scope p) (policy_version p) (policy_quotas p)
             (<[principal := g]> (grants p))).

(** ** Targets and requirements *)
Inductive Target : Set :=
| TNamespace (scope : NamespaceRef)
| TRecord (record : RecordRef).
Definition Target_scope (t : Target) : NamespaceRef :=
  match t with
  | TNamespace scope => scope
  | TRecord record => NamespaceRef_new (ref_database record) (ref_namespace record)
  end.

Record AuthorizationRequirement : Set := mk_requirement {
  req_action : Action;
  req_target : Target
}.
(** [AuthorizationRequirements::new]: the bound is checked before each push. *)
Definition AuthorizationRequirements_new (requirements : list AuthorizationRequirement) :
    result PolicyError (list AuthorizationRequirement) :=
  try_fold (λ bounded requirement,
    if zlen bounded =? MAX_AUTHORIZATION_REQUIREMENTS_PER_REQUEST
    then Err ResourceLimit else Ok (bounded ++ [requirement])) requirements [].

(** ** The kernel *)
Definition PolicyAuthority : Set := nat.

Record AuthenticatedPrincipal : Set := mk_principal {
  digest : PrincipalDigest;
  principal_authority : PolicyAuthority
}.
Record AuthorizationLease : Set := mk_lease {
  lease_principal : PrincipalDigest;
  lease_scope : NamespaceRef;
  lease_action : Action;
  lease_version : PolicyVersion;
  lease_authority : PolicyAuthority
}.
Record PolicyKernel : Set := mk_kernel {
  policies : gmap NamespaceRef NamespacePolicy;
  kernel_authority : PolicyAuthority
}.
Record AuthorizationEvaluator : Set := mk_evaluator {
  eval_scope : NamespaceRef;
  eval_version : PolicyVersion;
  eval_grant : NamespaceGrant
}.

(** [AuthorizationEvaluator::authorize]. *)
Definition evaluator_authorize (e : AuthorizationEvaluator) (action : Action) (target : Target) :
    result PolicyError unit :=
  if negb (bool_decide (Target_scope target = eval_scope e))
     || negb (contains (permissions (eval_grant e)) action)
  then Err Unauthorized
  else
    match target with
    | TRecord record =>
        if match record_rules (eval_grant e) !! ref_id record with
           | Some rule => contains (deny rule) action
           | None => false
           end
        then Err Unauthorized else Ok tt
    | TNamespace _ => Ok tt
    end.

(** [PolicyKernel::new]; [Arc::new] supplies the token. *)
Definition PolicyKernel_new (token : PolicyAuthority) : PolicyKernel := mk_kernel ∅ token.

(** [authenticate]: the adapter's answer, a value of a trait the embedder
    implements, is a parameter. *)
Definition authenticate {AuthenticationError} (k : PolicyKernel)
    (adapter : result AuthenticationError PrincipalDigest) :
    result AuthenticationError AuthenticatedPrincipal :=
  (λ d, mk_principal d (kernel_authority k)) <$> adapter.

Definition install_initial_policy (p : NamespacePolicy) (k : PolicyKernel) :
    result PolicyError PolicyKernel :=
  if decide (is_Some (policies k !! policy_scope p)) then Err InvalidPolicy
  else Ok (mk_kernel (<[policy_scope p := p]> (policies k)) (kernel_authority k)).

Definition authorization_evaluator (k : PolicyKernel) (principal : AuthenticatedPrincipal)
    (scope : NamespaceRef) : result PolicyError AuthorizationEvaluator :=
  if decide (kernel_authority k ≠ principal_authority principal) then Err Unauthorized
  else
    policy ← ok_or (policies k !! scope) Unauthorized;
    grant ← ok_or (grants policy !! digest principal) Unauthorized;
    Ok (mk_evaluator scope (policy_version policy) grant).

(** [PolicyKernel::authorize]. *)
Definition authorize (k : PolicyKernel) (principal : AuthenticatedPrincipal) (action : Action)
    (target : Target) : result PolicyError AuthorizationLease :=
  evaluator ← authorization_evaluator k principal (Target_scope target);
  evaluator_authorize evaluator action target;;
  Ok (mk_lease (digest principal) (eval_scope evaluator) action (eval_version evaluator)
        (kernel_authority k)).

Definition revalidate (k : PolicyKernel) (lease : AuthorizationLease) : result PolicyError unit :=
  if decide (kernel_authority k ≠ lease_authority lease) then Err Unauthorized
  else
    policy ← ok_or (policies k !! lease_scope lease) Unauthorized;
    if negb (policy_version policy =? lease_version lease) then Err StalePolicy
    else
      grant ← ok_or (grants policy !! lease_principal lease) Unauthorized;
      if negb (contains (permissions grant) (lease_action lease)) then Err Unauthorized
      else Ok tt.

(** [PolicyKernel::quotas]. *)
Definition quotas (k : PolicyKernel) (principal : AuthenticatedPrincipal) (scope : NamespaceRef) :
    result PolicyError QuotaLimits :=
  if decide (kernel_authority k ≠ principal_authority principal) then Err Unauthorized
  else
    policy ← ok_or (policies k !! scope) Unauthorized;
    grant ← ok_or (grants policy !! digest principal) Unauthorized;
    Ok (QuotaLimits_min (policy_quotas policy) (grant_quotas grant)).
Definition namespace_quotas (k : PolicyKernel) (scope : NamespaceRef) :
    result PolicyError QuotaLimits :=
  ok_or (policy_quotas <$> policies k !! scope) Unauthorized.
Definition namespace_policy (k : PolicyKernel) (scope : NamespaceRef) : option NamespacePolicy :=
  policies k !! scope.

Definition replace_namespace_policy (authority : AuthenticatedPrincipal)
    (expected : PolicyVersion) (next : NamespacePolicy) (k : PolicyKernel) :
    result PolicyError PolicyKernel :=
  if decide (kernel_authority k ≠ principal_authority authority) then Err Unauthorized
  else
    current ← ok_or (policies k !! policy_scope next) Unauthorized;
    if negb (policy_version current =? expected)
       || (policy_version next <=? policy_version current)
    then Err StalePolicy
    else
      grant ← ok_or (grants current !! digest authority) Unauthorized;
      if negb (contains (permissions grant) ManagePolicy) then Err Unauthorized
      else Ok (mk_kernel (<[policy_scope next := next]> (policies k)) (kernel_authority k)).
