(* ===== verification/PolicyFacts.v ===== *)
(** * Correctness of the policy kernel

    Permission sets are sets of actions; authorization is default-deny and has
    one specification, [allowed]; leases die exactly when their namespace's
    policy is replaced; quotas stay within the hard caps. *)
From S2P Require Import Prelude Ids Policy.

(** ** Permission sets *)
Definition all_actions : list Action :=
  [ReadRecord; ReadHistory; ExpandGraph; Search; Aggregate; ReadBlob; Export; Commit;
   StartUpload; ResumeUpload; WriteUpload; FinishUpload; AbortUpload; ReadOwnOutcome;
   ReadAllOutcomes; InspectQuota; EvaluateBranch; Subscribe; ManagePolicy; ManageSchema;
   Import; Promote; ManageRetention; ManageKeys; ExecuteProcedure].
Lemma elem_of_all_actions a : a ∈ all_actions.
Proof. destruct a; unfold all_actions; set_solver. Qed.
Lemma action_index_range a : 0 ≤ action_index a < ACTION_COUNT.
Proof. by destruct a. Qed.
Lemma action_index_inj a b : action_index a = action_index b → a = b.
Proof. by destruct a, b. Qed.
Lemma action_of_index i : 0 ≤ i < ACTION_COUNT → ∃ a, action_index a = i.
Proof.
  intros Hi. destruct (decide (Exists (λ a, action_index a = i) all_actions)) as [He|Hn].
  - apply Exists_exists in He as (a & _ & Ha). by exists a.
  - exfalso. rewrite <-Forall_Exists_neg in Hn. change ACTION_COUNT with 25 in Hi.
    unfold all_actions in Hn. repeat (apply Forall_cons in Hn as [? Hn]; simpl in *). lia.
Qed.

Lemma contains_testbit p a : contains p a = Z.testbit (bits p) (action_index a).
Proof.
  unfold contains. pose proof (action_index_range a) as [Ha _].
  destruct (Z.testbit (bits p) (action_index a)) eqn:Hb.
  - apply negb_true_iff, Z.eqb_neq. intros H0.
    assert (Z.testbit (Z.land (bits p) (Z.shiftl 1 (action_index a))) (action_index a) = true) as Ht.
    { by rewrite Z.land_spec, Hb, Z.shiftl_spec, Z.sub_diag by done. }
    by rewrite H0, Z.bits_0 in Ht.
  - apply negb_false_iff, Z.eqb_eq, Z.bits_inj'. intros n Hn.
    rewrite Z.land_spec, Z.bits_0. destruct (decide (n = action_index a)) as [->|Hne].
    + by rewrite Hb.
    + rewrite Z.shiftl_1_l, Z.pow2_bits_false by done. apply andb_false_r.
Qed.
Lemma PermissionSet_ext p q :
  (∀ i, 0 ≤ i → Z.testbit (bits p) i = Z.testbit (bits q) i) → p = q.
Proof. destruct p, q. intros H. f_equal. by apply Z.bits_inj'. Qed.
Lemma from_actions_testbit l i : 0 ≤ i →
  Z.testbit (bits (PermissionSet_from_actions l)) i = true ↔ ∃ a, a ∈ l ∧ action_index a = i.
Proof.
  intros Hi. unfold PermissionSet_from_actions. simpl.
  assert (∀ acc, Z.testbit (foldl (λ bits a, Z.lor bits (Z.shiftl 1 (action_index a))) acc l) i = true
    ↔ Z.testbit acc i = true ∨ ∃ a, a ∈ l ∧ action_index a = i) as Hgen.
  { induction l as [|a l IH]; intros acc; simpl.
    - set_solver.
    - rewrite IH, Z.lor_spec, orb_true_iff, Z.shiftl_1_l, Z.pow2_bits_eqb, Z.eqb_eq
        by apply action_index_range.
      set_solver. }
  rewrite Hgen, Z.bits_0. naive_solver.
Qed.
Lemma valid_bits b : 0 ≤ b ≤ U64_MAX →
  Z.land b (u64_not VALID_PERMISSION_BITS) = 0 ↔ ∀ i, ACTION_COUNT ≤ i → Z.testbit b i = false.
Proof.
  intros Hb.
  assert (∀ i, 0 ≤ i → Z.testbit (u64_not VALID_PERMISSION_BITS) i
    = bool_decide (ACTION_COUNT ≤ i < 64)) as Hnot.
  { intros i Hi. unfold u64_not. rewrite Z.lxor_spec. unfold VALID_PERMISSION_BITS, U64_MAX.
    rewrite Z.shiftl_1_l, !Z.sub_1_r, <-!Z.ones_equiv.
    rewrite !Z.testbit_ones by done. change ACTION_COUNT with 25.
    destruct (Z.leb_spec 0 i), (Z.ltb_spec i 25), (Z.ltb_spec i 64); simpl;
      symmetry; first [apply bool_decide_eq_true; lia|apply bool_decide_eq_false; lia]. }
  split.
  - intros H0 i Hi. change ACTION_COUNT with 25 in *. destruct (decide (i < 64)).
    + assert (Z.testbit (Z.land b (u64_not VALID_PERMISSION_BITS)) i = false) as Hf
        by by rewrite H0, Z.bits_0.
      rewrite Z.land_spec, Hnot, bool_decide_eq_true_2, andb_true_r in Hf by lia. done.
    + destruct (decide (b = 0)) as [->|]; [apply Z.bits_0|].
      apply Z.bits_above_log2; [lia|].
      apply Z.log2_lt_pow2; [lia|]. unfold U64_MAX in Hb.
      apply Z.lt_le_trans with (2 ^ 64); [lia|]. apply Z.pow_le_mono_r; lia.
  - intros Hbits. apply Z.bits_inj'. intros i Hi. rewrite Z.land_spec, Hnot, Z.bits_0 by done.
    case_bool_decide; [|apply andb_false_r]. by rewrite Hbits by lia.
Qed.

(** Permission sets are sets of actions: membership after [from_actions] is
    membership in the list, so no permission implies another, and [from_bits]
    accepts exactly the bit patterns of such sets. *)
Theorem permission_set_spec :
  (∀ actions a, contains (PermissionSet_from_actions actions) a = true ↔ a ∈ actions) ∧
  (∀ b p, 0 ≤ b ≤ U64_MAX →
    PermissionSet_from_bits b = Ok p ↔
    bits p = b ∧ ∃ actions, p = PermissionSet_from_actions actions).
Proof.
  split.
  - intros l a. rewrite contains_testbit, from_actions_testbit by apply action_index_range.
    split; [|by eauto]. by intros (a' & Ha & ->%action_index_inj).
  - intros b p Hb. unfold PermissionSet_from_bits.
    transitivity (bits p = b ∧ Z.land b (u64_not VALID_PERMISSION_BITS) = 0).
    { destruct (Z.eqb_spec (Z.land b (u64_not VALID_PERMISSION_BITS)) 0), p; naive_solver. }
    rewrite valid_bits by done.
    assert (∀ P Q R : Prop, (P → (Q ↔ R)) → (P ∧ Q ↔ P ∧ R)) as Hand by tauto.
    apply Hand. intros <-. split.
    + intros Hbits. exists (filter (λ a, contains p a = true) all_actions).
      apply PermissionSet_ext. intros i Hi. apply Bool.eq_iff_eq_true.
      rewrite (from_actions_testbit _ i Hi). setoid_rewrite list_elem_of_filter.
      setoid_rewrite contains_testbit. split; [|by intros (a & [??] & <-)].
      intros Ht. destruct (decide (i < ACTION_COUNT)) as [Hlt|Hge].
      * destruct (action_of_index i) as [a <-]; [done|]. eauto using elem_of_all_actions.
      * rewrite Hbits in Ht by lia. done.
    + intros [l ->] i Hi. apply not_true_iff_false. rewrite from_actions_testbit.
      * intros (a & _ & <-). pose proof (action_index_range a). lia.
      * change ACTION_COUNT with 25 in Hi. lia.
Qed.

(** ** Authorization *)

(** What the namespace's current policy says about a request, as one
    predicate: the principal belongs to this kernel, its grant holds the
    action, and no rule on the target record denies it. *)
Definition allowed (k : PolicyKernel) (pr : AuthenticatedPrincipal) (a : Action) (t : Target) : Prop :=
  kernel_authority k = principal_authority pr ∧
  ∃ policy grant,
    policies k !! Target_scope t = Some policy ∧ grants policy !! digest pr = Some grant ∧
    contains (permissions grant) a = true ∧
    ∀ r rule, t = TRecord r → record_rules grant !! ref_id r = Some rule →
      contains (deny rule) a = false.

Definition grant_allows (g : NamespaceGrant) (a : Action) (t : Target) : Prop :=
  contains (permissions g) a = true ∧
  ∀ r rule, t = TRecord r → record_rules g !! ref_id r = Some rule →
    contains (deny rule) a = false.

Lemma evaluator_authorize_spec e a t :
  (evaluator_authorize e a t = Ok tt ↔ Target_scope t = eval_scope e ∧ grant_allows (eval_grant e) a t)
  ∧ (evaluator_authorize e a t = Ok tt ∨ evaluator_authorize e a t = Err Unauthorized).
Proof.
  unfold evaluator_authorize, grant_allows. case_bool_decide; simpl; [|naive_solver].
  destruct (contains _ a); simpl; [|naive_solver].
  destruct t as [s|r]; [naive_solver|].
  destruct (record_rules (eval_grant e) !! ref_id r) as [rule|] eqn:Hr; [|naive_solver].
  destruct (contains (deny rule) a) eqn:Hd.
  - split; [|by right]. split; [done|]. intros (_ & _ & Hall).
    by rewrite (Hall r rule) in Hd.
  - split; [|by left]. split; [|done]. intros _. split_and!; [done..|]. intros r' rule' [= <-]. naive_solver.
Qed.
Lemma evaluator_spec k pr s :
  (∀ e, authorization_evaluator k pr s = Ok e ↔
    kernel_authority k = principal_authority pr ∧ ∃ p g,
      policies k !! s = Some p ∧ grants p !! digest pr = Some g ∧
      e = mk_evaluator s (policy_version p) g)
  ∧ (is_ok (authorization_evaluator k pr s) = true ∨
     authorization_evaluator k pr s = Err Unauthorized).
Proof.
  unfold authorization_evaluator. case_decide as Ha; [naive_solver|].
  destruct (policies k !! s) as [p|] eqn:Hp; simpl; [|naive_solver].
  destruct (grants p !! digest pr) as [g|] eqn:Hg; simpl; naive_solver.
Qed.

(** A bind of [unit] checks. *)
Lemma authorize_Ok k pr a t lease :
  authorize k pr a t = Ok lease ↔
  ∃ e, authorization_evaluator k pr (Target_scope t) = Ok e ∧
    evaluator_authorize e a t = Ok tt ∧
    lease = mk_lease (digest pr) (eval_scope e) a (eval_version e) (kernel_authority k).
Proof.
  unfold authorize. rewrite bind_Ok. apply exist_proper. intros e.
  rewrite bind_Ok. split.
  - by intros (? & [] & ? & [= <-]).
  - intros (? & ? & ->). split; [done|]. by exists tt.
Qed.

Lemma authorize_iff k pr a t lease : authorize k pr a t = Ok lease ↔
  allowed k pr a t ∧ ∃ policy, policies k !! Target_scope t = Some policy ∧
  lease = mk_lease (digest pr) (Target_scope t) a (policy_version policy) (kernel_authority k).
Proof.
  pose proof (evaluator_spec k pr (Target_scope t)) as [Hev _]. rewrite authorize_Ok. split.
  - intros (e & (Hk & p & g & Hp & Hg & ->)%Hev & He%evaluator_authorize_spec & ->).
    simpl in He. destruct He as [_ [Hc Hd]]. split; [split; [done|]; naive_solver|]. by exists p.
  - intros ((Hk & p & g & Hp & Hg & Hc & Hd) & p' & Hp' & ->). simplify_eq.
    exists (mk_evaluator (Target_scope t) (policy_version p) g).
    split_and!; [|by apply evaluator_authorize_spec|done]. apply Hev. naive_solver.
Qed.
Lemma authorize_allowed k pr a t : is_ok (authorize k pr a t) = true → allowed k pr a t.
Proof.
  destruct (authorize k pr a t) as [lease|] eqn:H; [|done]. intros _.
  by apply authorize_iff in H as [? _].
Qed.

(** C38: authorization is default-deny and exact.  [authorize] succeeds exactly
    when the kernel that authenticated the principal holds, for the target's
    namespace, a grant with the action and no record rule denying it; the lease
    then names the principal, namespace, action and current policy version.
    Every other request fails with [Unauthorized], so a caller learns nothing
    about why. *)
Theorem authorize_spec k pr a t :
  (∀ lease, authorize k pr a t = Ok lease ↔
    allowed k pr a t ∧ ∃ policy, policies k !! Target_scope t = Some policy ∧
    lease = mk_lease (digest pr) (Target_scope t) a (policy_version policy) (kernel_authority k))
  ∧ (¬ allowed k pr a t → authorize k pr a t = Err Unauthorized).
Proof.
  pose proof (evaluator_spec k pr (Target_scope t)) as [Hev Hev'].
  pose proof (authorize_iff k pr a t) as Hiff.
  split; [done|]. intros Hna. unfold authorize.
  destruct (authorization_evaluator k pr (Target_scope t)) as [e|] eqn:He; [|by destruct Hev'; simplify_eq].
  destruct (proj2 (evaluator_authorize_spec e a t)) as [Hok|Herr].
  - destruct Hna. apply (proj1 (Hiff (mk_lease (digest pr) (eval_scope e) a (eval_version e) (kernel_authority k)))).
    apply authorize_Ok. by exists e.
  - unfold mbind, result_bind. by rewrite Herr.
Qed.

(** The borrowed evaluator decides every target exactly as [authorize] does
    while the kernel is unchanged, targets outside its namespace excepted: those
    it always refuses. *)
Theorem evaluator_equivalent k pr s e a t :
  authorization_evaluator k pr s = Ok e →
  evaluator_authorize e a t =
  if decide (Target_scope t = s)
  then (authorize k pr a t;; Ok tt) else Err Unauthorized.
Proof.
  intros He. pose proof (proj1 (proj1 (evaluator_spec k pr s) e) He) as (_ & p & g & _ & _ & ->).
  case_decide as Hs.
  - unfold authorize. rewrite Hs, He. unfold mbind, result_bind.
    by destruct (evaluator_authorize _ a t) as [[]|].
  - destruct (evaluator_authorize_spec (mk_evaluator s (policy_version p) g) a t) as [Hok [H|H]]; [|done].
    by apply Hok in H as [? _].
Qed.

(** ** The kernel as a state machine

    The only operations on [&mut PolicyKernel] are installing and replacing a
    namespace's policy; a failed one leaves the kernel unchanged. *)
Inductive kernel_step : PolicyKernel → PolicyKernel → Prop :=
| step_install policy k k' :
    install_initial_policy policy k = Ok k' → kernel_step k k'
| step_replace authority expected next k k' :
    replace_namespace_policy authority expected next k = Ok k' → kernel_step k k'.

(** Policies are never removed, and change only to a higher version. *)
Definition kernel_le (k k' : PolicyKernel) : Prop :=
  kernel_authority k' = kernel_authority k ∧
  ∀ s p, policies k !! s = Some p →
    ∃ p', policies k' !! s = Some p' ∧ (p' = p ∨ policy_version p < policy_version p').
#[global] Instance kernel_le_preorder : PreOrder kernel_le.
Proof.
  split.
  - intros k. split; [done|]. eauto.
  - intros k1 k2 k3 [H1 Hp1] [H2 Hp2]. split; [congruence|].
    intros s p (p2 & H & Hv)%Hp1. apply Hp2 in H as (p3 & ? & Hv').
    exists p3. split; [done|]. destruct Hv as [->|], Hv' as [->|]; auto with lia.
Qed.

Lemma replace_Ok au v next k k' :
  replace_namespace_policy au v next k = Ok k' ↔
  kernel_authority k = principal_authority au ∧ ∃ current grant,
    policies k !! policy_scope next = Some current ∧
    policy_version current = v ∧ policy_version current < policy_version next ∧
    grants current !! digest au = Some grant ∧
    contains (permissions grant) ManagePolicy = true ∧
    k' = mk_kernel (<[policy_scope next := next]> (policies k)) (kernel_authority k).
Proof.
  unfold replace_namespace_policy. case_decide as Ha; [naive_solver|].
  destruct (policies k !! policy_scope next) as [cur|] eqn:Hc; simpl; [|naive_solver].
  destruct (Z.eqb_spec (policy_version cur) v); simpl; [|naive_solver].
  destruct (Z.leb_spec (policy_version next) (policy_version cur)); simpl.
  { split; [done|]. intros (_ & c & g & ? & _ & ? & _). simplify_eq. lia. }
  destruct (grants cur !! digest au) as [g|] eqn:Hg; simpl; [|naive_solver].
  destruct (contains (permissions g) ManagePolicy) eqn:Hm; simpl; split.
  - intros [= <-]. naive_solver.
  - intros (_ & c & g' & ? & _ & _ & ? & ? & ->). done.
  - done.
  - intros (_ & c & g' & ? & _ & _ & ? & ? & _). simplify_eq. congruence.
Qed.
Lemma install_Ok p k k' :
  install_initial_policy p k = Ok k' ↔
  policies k !! policy_scope p = None ∧
  k' = mk_kernel (<[policy_scope p := p]> (policies k)) (kernel_authority k).
Proof.
  unfold install_initial_policy. case_decide as Hs.
  - destruct Hs as [? Hs]. naive_solver.
  - apply eq_None_not_Some in Hs. naive_solver.
Qed.

Lemma kernel_step_le k k' : kernel_step k k' → kernel_le k k'.
Proof.
  destruct 1 as [p k k' [Hn ->]%install_Ok|au v next k k' Hr].
  - split; [done|]. intros s q Hq. simpl. destruct (decide (s = policy_scope p)) as [->|].
    + by rewrite Hn in Hq.
    + rewrite lookup_insert_ne by done. eauto.
  - apply replace_Ok in Hr as (_ & cur & g & Hc & _ & Hlt & _ & _ & ->).
    split; [done|]. intros s q Hq. simpl. destruct (decide (s = policy_scope next)) as [->|].
    + rewrite lookup_insert_eq. simplify_eq. eauto.
    + rewrite lookup_insert_ne by done. eauto.
Qed.
Lemma kernel_steps_le k k' : rtc kernel_step k k' → kernel_le k k'.
Proof.
  induction 1 as [|k1 k2 k3 Hstep _ IH]; [reflexivity|].
  etransitivity; [by apply kernel_step_le|done].
Qed.

(** C39: a lease lives exactly as long as the policy it was issued under.  After any
    sequence of policy installations and replacements, [revalidate] accepts the
    lease if and only if the namespace's policy is still the very same one, in
    which case the original request is still allowed and yields the same lease;
    otherwise it reports [StalePolicy]. *)
Theorem lease_lifecycle k k' pr a t lease :
  authorize k pr a t = Ok lease → rtc kernel_step k k' →
  if decide (policies k' !! Target_scope t = policies k !! Target_scope t)
  then revalidate k' lease = Ok tt ∧ authorize k' pr a t = Ok lease
  else revalidate k' lease = Err StalePolicy.
Proof.
  intros (e & He & Ha & ->)%authorize_Ok [Hk Hp]%kernel_steps_le.
  pose proof (proj1 (proj1 (evaluator_spec _ _ _) e) He) as (Hauth & p & g & Hlp & Hlg & ->).
  destruct (Hp _ _ Hlp) as (p' & Hp' & Hv). unfold revalidate. simpl.
  destruct (decide (kernel_authority k' ≠ kernel_authority k)); [done|]. rewrite Hp', Hlp. simpl. case_decide as Hsame.
  - injection Hsame as ->. rewrite Z.eqb_refl, Hlg. simpl.
    pose proof (proj1 (proj1 (evaluator_authorize_spec _ a t)) Ha) as (_ & Hc & _). simpl in Hc.
    rewrite Hc. simpl. split; [done|]. apply authorize_Ok.
    exists (mk_evaluator (Target_scope t) (policy_version p) g). split_and!; [|done|simpl; congruence].
    apply evaluator_spec. split; [congruence|]. naive_solver.
  - destruct Hv as [->|Hlt]; [congruence|].
    by destruct (Z.eqb_spec (policy_version p') (policy_version p)); [lia|].
Qed.

(** Replacing a policy takes a principal of this kernel that holds [ManagePolicy]
    under the current policy, names the current version, and supplies a strictly
    higher one; it changes that namespace only.  In any execution versions of a
    namespace never decrease and a policy is never removed. *)
Theorem replace_namespace_policy_spec au v next k :
  (∀ k', replace_namespace_policy au v next k = Ok k' ↔
    allowed k au ManagePolicy (TNamespace (policy_scope next)) ∧
    (∃ current, policies k !! policy_scope next = Some current ∧
      policy_version current = v ∧ policy_version current < policy_version next) ∧
    k' = mk_kernel (<[policy_scope next := next]> (policies k)) (kernel_authority k))
  ∧ (∀ k', rtc kernel_step k k' → kernel_le k k').
Proof.
  split; [|apply kernel_steps_le]. intros k'. rewrite replace_Ok. unfold allowed. split.
  - intros (Hk & cur & g & Hc & Hv & Hlt & Hg & Hm & ->). naive_solver.
  - intros ((Hk & cur & g & Hc & Hg & Hm & _) & (cur' & Hc' & Hv & Hlt) & ->).
    simpl in Hc. naive_solver.
Qed.

(** ** Quotas *)
Definition quotas_le (a b : QuotaLimits) : Prop :=
  max_request_bytes a ≤ max_request_bytes b ∧
  max_staged_blob_bytes a ≤ max_staged_blob_bytes b ∧
  max_committed_blob_bytes a ≤ max_committed_blob_bytes b ∧
  max_live_uploads a ≤ max_live_uploads b ∧
  max_blob_read_bytes_per_call a ≤ max_blob_read_bytes_per_call b.
Definition hard_caps : QuotaLimits :=
  mk_quotas HARD_MAX_REQUEST_BYTES HARD_MAX_STAGED_BLOB_BYTES HARD_MAX_COMMITTED_BLOB_BYTES
    HARD_MAX_LIVE_UPLOADS HARD_MAX_BLOB_READ_BYTES.

Ltac quota_cases := repeat match goal with
  | |- context [?a <? ?b] => destruct (Z.ltb_spec a b)
  | H : context [?a <? ?b] |- _ => destruct (Z.ltb_spec a b)
  end.
Lemma within_hard_caps_le q : within_hard_caps q = true ↔ quotas_le q hard_caps.
Proof. unfold within_hard_caps, quotas_le. rewrite !andb_true_iff, !Z.leb_le. simpl. tauto. Qed.
Lemma min_eq_l a b : QuotaLimits_min a b = a ↔ quotas_le a b.
Proof.
  destruct a, b. unfold QuotaLimits_min, quotas_le. simpl. split.
  - intros [= H1 H2 H3 H4 H5]. quota_cases; lia.
  - intros. f_equal; quota_cases; lia.
Qed.
Lemma min_eq_r a b : quotas_le b a → QuotaLimits_min a b = b.
Proof.
  destruct a, b. unfold QuotaLimits_min, quotas_le. simpl. intros. f_equal; quota_cases; lia.
Qed.
#[global] Instance quotas_le_trans : Transitive quotas_le.
Proof. intros a b c. unfold quotas_le. lia. Qed.

(** Well-formed grants, policies and kernels: what the constructors promise. *)
Definition grant_ok (limit : QuotaLimits) (g : NamespaceGrant) : Prop :=
  quotas_le (grant_quotas g) limit ∧ map_len (record_rules g) ≤ MAX_RECORD_RULES_PER_GRANT.
Definition policy_ok (p : NamespacePolicy) : Prop :=
  quotas_le (policy_quotas p) hard_caps ∧
  map_len (grants p) ≤ MAX_PRINCIPALS_PER_NAMESPACE ∧
  map_Forall (λ _, grant_ok (policy_quotas p)) (grants p).
Definition kernel_ok (k : PolicyKernel) : Prop :=
  map_Forall (λ s p, policy_scope p = s ∧ policy_ok p) (policies k).

Lemma map_len_insert {K V} `{Countable K} (m : gmap K V) x v bound :
  map_len m ≤ bound →
  negb (bool_decide (is_Some (m !! x))) && (bound <=? map_len m) = false →
  map_len (<[x := v]> m) ≤ bound.
Proof.
  unfold map_len. intros Hm Hb. case_bool_decide as Hx; simpl in Hb.
  - rewrite map_size_insert_Some by done. done.
  - rewrite map_size_insert_None by by apply eq_None_not_Some. lia.
Qed.

Lemma QuotaLimits_new_Ok r s c u b q :
  QuotaLimits_new r s c u b = Ok q ↔ q = mk_quotas r s c u b ∧ quotas_le q hard_caps.
Proof.
  unfold QuotaLimits_new. rewrite <-within_hard_caps_le.
  set (limits := mk_quotas r s c u b). destruct (within_hard_caps limits) eqn:Hw; split.
  - by intros [= <-].
  - by intros [-> _].
  - done.
  - intros [-> H]. congruence.
Qed.

(** The values a caller can hold: the fields of these types are private, so each was
    made by the public constructors. *)
Inductive built_quotas : QuotaLimits → Prop :=
| quotas_new request staged committed uploads read q :
    QuotaLimits_new request staged committed uploads read = Ok q → built_quotas q
| quotas_min a b : built_quotas a → built_quotas b → built_quotas (QuotaLimits_min a b).
Inductive built_grant : NamespaceGrant → Prop :=
| grant_new permissions q : built_quotas q → built_grant (NamespaceGrant_new permissions q)
| grant_deny record denied g g' : built_grant g → deny_record record denied g = Ok g' → built_grant g'.
Inductive built_policy : NamespacePolicy → Prop :=
| policy_new scope value version q : PolicyVersion_new value = Ok version → built_quotas q →
    built_policy (NamespacePolicy_new scope version q)
| policy_granted principal g p p' : built_policy p → built_grant g → policy_grant principal g p = Ok p' → built_policy p'.
(** A kernel built from [PolicyKernel_new] by steps with such policies. *)
Inductive kernel_reachable (token : PolicyAuthority) : PolicyKernel → Prop :=
| reach_new : kernel_reachable token (PolicyKernel_new token)
| reach_install p k k' :
    kernel_reachable token k → built_policy p → install_initial_policy p k = Ok k' →
    kernel_reachable token k'
| reach_replace au v next k k' :
    kernel_reachable token k → built_policy next →
    replace_namespace_policy au v next k = Ok k' → kernel_reachable token k'.

Lemma quotas_le_min a b c : quotas_le a c → quotas_le (QuotaLimits_min a b) c.
Proof. destruct a, b, c. unfold quotas_le, QuotaLimits_min. simpl. intros. quota_cases; lia. Qed.
Lemma built_quotas_capped q : built_quotas q → quotas_le q hard_caps.
Proof.
  induction 1 as [request staged committed uploads read q [_ Hq]%QuotaLimits_new_Ok|a b _ Ha _ _]; [done|].
  by apply quotas_le_min.
Qed.
Lemma deny_record_bounded record denied g g' : deny_record record denied g = Ok g' →
  map_len (record_rules g) ≤ MAX_RECORD_RULES_PER_GRANT → map_len (record_rules g') ≤ MAX_RECORD_RULES_PER_GRANT.
Proof.
  unfold deny_record. destruct (_ && _) eqn:Hb; [done|]. intros [= <-] Hl. by apply map_len_insert.
Qed.
Lemma built_grant_bounded g : built_grant g → map_len (record_rules g) ≤ MAX_RECORD_RULES_PER_GRANT.
Proof.
  induction 1 as [permissions q _|record denied g g' _ IH Hd]; [done|]. by eapply deny_record_bounded.
Qed.
Lemma policy_new_ok s v q : quotas_le q hard_caps → policy_ok (NamespacePolicy_new s v q).
Proof.
  intros Hq. split_and!; [done| |apply map_Forall_empty].
  unfold map_len, NamespacePolicy_new. simpl. by rewrite map_size_empty.
Qed.
Lemma policy_grant_ok pr g p p' : policy_ok p → map_len (record_rules g) ≤ MAX_RECORD_RULES_PER_GRANT →
  policy_grant pr g p = Ok p' → policy_ok p'.
Proof.
  intros (Hq & Hl & Hg) Hr Hp. unfold policy_grant in Hp.
  destruct (_ && _) eqn:Hb; [done|]. case_decide as Hm; [done|]. injection Hp as <-.
  apply min_eq_l in Hm. split_and!; simpl; [done|by apply map_len_insert|].
  by apply map_Forall_insert_2.
Qed.
Lemma built_policy_ok p : built_policy p → policy_ok p.
Proof.
  induction 1 as [scope value version q _ Hq|principal g p p' _ IH Hg Hp].
  - by apply policy_new_ok, built_quotas_capped.
  - by eapply policy_grant_ok; [exact IH|apply built_grant_bounded|exact Hp].
Qed.
Lemma kernel_reachable_ok token k :
  kernel_reachable token k → kernel_authority k = token ∧ kernel_ok k.
Proof.
  induction 1 as [|p k k' _ [<- Hk] Hp%built_policy_ok [_ ->]%install_Ok|au v next k k' _ [<- Hk] Hp%built_policy_ok Hr].
  - split; [done|]. apply map_Forall_empty.
  - split; [done|]. by apply map_Forall_insert_2.
  - apply replace_Ok in Hr as (_ & cur & g & _ & _ & _ & _ & _ & ->).
    split; [done|]. by apply map_Forall_insert_2.
Qed.

(** C40: quotas hold end to end.  In every kernel reached by installing and replacing
    policies that were built with the public constructors - quota limits, grants
    with their record rules, policies with their grants - each policy is filed under
    its own namespace, the effective quotas of a principal are exactly those of its
    grant, and they exceed neither the namespace's quotas nor the hard caps; the
    numbers of principals and of record rules are within their bounds. *)
Theorem effective_quotas token k pr s q :
  kernel_reachable token k → quotas k pr s = Ok q →
  ∃ p g, namespace_policy k s = Some p ∧ policy_scope p = s ∧
    grants p !! digest pr = Some g ∧ q = grant_quotas g ∧
    namespace_quotas k s = Ok (policy_quotas p) ∧
    quotas_le q (policy_quotas p) ∧ quotas_le (policy_quotas p) hard_caps ∧
    map_len (grants p) ≤ MAX_PRINCIPALS_PER_NAMESPACE ∧
    map_len (record_rules g) ≤ MAX_RECORD_RULES_PER_GRANT.
Proof.
  intros [_ Hk]%kernel_reachable_ok Hq. unfold quotas in Hq.
  case_decide; [done|]. apply bind_Ok in Hq as (p & Hp%ok_or_Ok & Hq).
  apply bind_Ok in Hq as (g & Hg%ok_or_Ok & [= <-]).
  destruct (Hk _ _ Hp) as (Hs & Hcaps & Hlen & Hgs). pose proof (Hgs _ _ Hg) as [Hle Hrules].
  exists p, g. unfold namespace_policy, namespace_quotas. rewrite Hp, min_eq_r by done.
  by split_and!.
Qed.

(** A request's requirement list is accepted unchanged up to the bound and refused
    beyond it. *)
Theorem AuthorizationRequirements_new_spec requirements :
  AuthorizationRequirements_new requirements =
  if decide (zlen requirements ≤ MAX_AUTHORIZATION_REQUIREMENTS_PER_REQUEST)
  then Ok requirements else Err ResourceLimit.
Proof.
  unfold AuthorizationRequirements_new.
  set (M := MAX_AUTHORIZATION_REQUIREMENTS_PER_REQUEST).
  assert (∀ bounded, zlen bounded ≤ M →
    try_fold (λ bounded requirement,
      if zlen bounded =? M then Err ResourceLimit else Ok (bounded ++ [requirement]))
      requirements bounded =
    if decide (zlen bounded + zlen requirements ≤ M) then Ok (bounded ++ requirements)
    else Err ResourceLimit) as Hgen; [|apply (Hgen []); done].
  induction requirements as [|r rs IH]; intros bounded Hb; simpl.
  - rewrite decide_True by (rewrite zlen_nil; lia). by rewrite app_nil_r.
  - rewrite zlen_cons. pose proof (zlen_nonneg rs). destruct (Z.eqb_spec (zlen bounded) M); simpl.
    + by rewrite decide_False by lia.
    + rewrite IH by (rewrite zlen_app, zlen_cons, zlen_nil; lia).
      rewrite <-app_assoc, zlen_app, zlen_cons, zlen_nil.
      by repeat case_decide; try lia.
Qed.

(** ** A concrete kernel *)
Section sample.
Definition sample_scope : NamespaceRef :=
  NamespaceRef_new (from_bytes [x01]) (from_bytes [x02]).
Definition sample_record : RecordRef := scoped sample_scope (from_bytes [x03]).
Definition sample_digest : PrincipalDigest := PrincipalDigest_from_bytes [x07].
Definition sample_quotas : QuotaLimits := mk_quotas 1024 2048 2048 4 512.
Definition sample_grant : NamespaceGrant :=
  mk_grant (PermissionSet_from_actions [ReadRecord; ManagePolicy]) sample_quotas ∅.
Definition sample_policy (version : Z) : NamespacePolicy :=
  mk_policy sample_scope version sample_quotas {[ sample_digest := sample_grant ]}.
Definition sample_kernel (version : Z) : PolicyKernel :=
  mk_kernel {[ sample_scope := sample_policy version ]} 5%nat.
Definition sample_principal : AuthenticatedPrincipal := mk_principal sample_digest 5%nat.
Definition sample_lease : AuthorizationLease :=
  mk_lease sample_digest sample_scope ReadRecord 1 5%nat.
End sample.

Lemma permission_set_spec_witness :
  0 ≤ 5 ≤ U64_MAX ∧ ∃ actions, mk_permissions 5 = PermissionSet_from_actions actions.
Proof.
  split; [done|].
  apply (proj1 (proj2 permission_set_spec 5 (mk_permissions 5) ltac:(done)) eq_refl).
Defined.
Lemma authorize_spec_witness :
  authorize (sample_kernel 1) (mk_principal sample_digest 6%nat) ReadRecord
    (TRecord sample_record) = Err Unauthorized ∧
  authorize (sample_kernel 1) sample_principal ReadRecord (TRecord sample_record)
    = Ok sample_lease.
Proof.
  split.
  - apply authorize_spec. intros [H _]. discriminate H.
  - vm_compute. reflexivity.
Defined.
Lemma evaluator_equivalent_witness :
  ∃ e, authorization_evaluator (sample_kernel 1) sample_principal sample_scope = Ok e ∧
    evaluator_authorize e ReadRecord (TRecord sample_record) = Ok tt.
Proof.
  eexists. split; [vm_compute; reflexivity|].
  rewrite (evaluator_equivalent (sample_kernel 1) sample_principal sample_scope)
    by (vm_compute; reflexivity).
  vm_compute. reflexivity.
Defined.
Lemma sample_lookup v : policies (sample_kernel v) !! sample_scope = Some (sample_policy v).
Proof. apply lookup_singleton_eq. Qed.
Lemma sample_step : rtc kernel_step (sample_kernel 1) (sample_kernel 2).
Proof.
  apply rtc_once, (step_replace sample_principal 1 (sample_policy 2)), replace_Ok.
  split; [done|]. exists (sample_policy 1), sample_grant.
  split_and!; [apply sample_lookup|done|done|apply lookup_singleton_eq|done|].
  unfold sample_kernel. f_equal.
Qed.
Lemma sample_reachable : kernel_reachable 5%nat (sample_kernel 1).
Proof.
  apply (reach_install 5%nat (sample_policy 1) (PolicyKernel_new 5%nat)); [constructor| |].
  - assert (built_quotas sample_quotas) as Hq by (by apply (quotas_new 1024 2048 2048 4 512)).
    apply (policy_granted sample_digest sample_grant (NamespacePolicy_new sample_scope 1 sample_quotas)); [|by apply grant_new|done].
    by apply (policy_new _ 1).
  - by apply install_Ok.
Qed.
Lemma lease_lifecycle_witness :
  authorize (sample_kernel 1) sample_principal ReadRecord (TRecord sample_record)
    = Ok sample_lease ∧
  rtc kernel_step (sample_kernel 1) (sample_kernel 2) ∧
  revalidate (sample_kernel 2) sample_lease = Err StalePolicy.
Proof.
  assert (authorize (sample_kernel 1) sample_principal ReadRecord (TRecord sample_record)
    = Ok sample_lease) as Ha by (vm_compute; reflexivity).
  split; [done|]. split; [apply sample_step|].
  pose proof (lease_lifecycle _ _ _ _ _ _ Ha sample_step) as H.
  destruct (decide _) as [He|_]; [|done]. exfalso.
  change (Target_scope (TRecord sample_record)) with sample_scope in He.
  rewrite !sample_lookup in He. by apply (f_equal (fmap policy_version)) in He.
Defined.
Lemma effective_quotas_witness :
  kernel_reachable 5%nat (sample_kernel 1) ∧
  quotas (sample_kernel 1) sample_principal sample_scope = Ok sample_quotas ∧
  quotas_le sample_quotas hard_caps.
Proof.
  assert (quotas (sample_kernel 1) sample_principal sample_scope = Ok sample_quotas) as Hq
    by (vm_compute; reflexivity).
  split; [apply sample_reachable|]. split; [done|].
  destruct (effective_quotas 5%nat _ _ _ _ sample_reachable Hq)
    as (p & g & _ & _ & _ & _ & _ & H1 & H2 & _).
  by trans (policy_quotas p).
Defined.
Lemma replace_namespace_policy_spec_witness :
  rtc kernel_step (sample_kernel 1) (sample_kernel 2) ∧
  kernel_le (sample_kernel 1) (sample_kernel 2).
Proof.
  split; [apply sample_step|].
  apply (proj2 (replace_namespace_policy_spec sample_principal 1 (sample_policy 2)
    (sample_kernel 1))), sample_step.
Defined.
