(* ===== verification/GraphRecord.v ===== *)
(** * Graph records and mutations

    Models [crates/uste-graph/src/record.rs]: record versions, valid-time
    intervals, the four record kinds, preconditions and operations.  A
    [BoundedString] is its bytes; a [NonZeroU64] version is a [Z] (see
    [nonzero_u64] in [Ids]). *)
From S2P Require Import Prelude Ids Value Policy.

Abbreviation RecordVersion := Z (only parsing).
Inductive RecordVersionError : Set := VersionZero | VersionExhausted.
Definition RecordVersion_FIRST : RecordVersion := 1.
Definition RecordVersion_new (value : Z) : result RecordVersionError RecordVersion :=
  if value =? 0 then Err VersionZero else Ok value.
Definition RecordVersion_checked_next (v : RecordVersion) :
    result RecordVersionError RecordVersion :=
  match checked_add v 1 with
  | Some value => RecordVersion_new value
  | None => Err VersionExhausted
  end.

(** ** Valid time *)
Inductive IntervalBound : Set := Unbounded | Bounded (i : UtcInstant).
Inductive ValidTime : Set := Unknown | HalfOpen (start end_ : IntervalBound).

(** [ValidTime::contains]: [None] when the interval is unknown. *)
Definition valid_time_contains (t : ValidTime) (instant : UtcInstant) : option bool :=
  match t with
  | Unknown => None
  | HalfOpen start end_ =>
      let after_start :=
        match start with
        | Unbounded => true
        | Bounded value => negb (instant_lt instant value)
        end in
      Some (after_start &&
        match end_ with
        | Unbounded => true
        | Bounded value => instant_lt instant value
        end)
  end.
Definition valid_time_is_valid (t : ValidTime) : bool :=
  match t with
  | Unknown => true
  | HalfOpen (Bounded start) (Bounded end_) => instant_lt start end_
  | HalfOpen _ _ => true
  end.

(** ** Statuses *)
Inductive AssertionStatus : Set :=
| Proposed | Accepted | Rejected | Disputed | Superseded | Retracted | Expired.
Inductive AssertionAction : Set :=
| Accept | Reject | Dispute | Supersede | Retract | Expire | Correct.
Inductive EntityLifecycle : Set := Active | Deleted.
Inductive DeletePolicy : Set :=
| DeleteReject
| CascadeAndRetract (maximum_affected : Z).

(** ** New records *)
Record NewEntity : Set := mk_new_entity {
  ne_id : RecordRef;
  ne_entity_type : list byte;
  ne_schema_version : Z;
  ne_properties : Value
}.
Record NewEvidence : Set := mk_new_evidence {
  nev_id : RecordRef;
  nev_digest : list byte;
  nev_locator : list byte
}.
Record NewAssertion : Set := mk_new_assertion {
  na_id : RecordRef;
  na_subject : RecordRef;
  na_predicate : list byte;
  na_object : Value;
  na_evidence : list RecordRef;
  na_valid_time : ValidTime
}.
Record NewRelationship : Set := mk_new_relationship {
  nr_id : RecordRef;
  nr_from : RecordRef;
  nr_to : RecordRef;
  nr_relationship_type : list byte;
  nr_properties : Value;
  nr_evidence : list RecordRef;
  nr_valid_time : ValidTime
}.
Inductive NewRecord : Set :=
| NEntity (e : NewEntity)
| NEvidence (e : NewEvidence)
| NAssertion (a : NewAssertion)
| NRelationship (r : NewRelationship).
Definition new_record_id (n : NewRecord) : RecordRef :=
  match n with
  | NEntity e => ne_id e
  | NEvidence e => nev_id e
  | NAssertion a => na_id a
  | NRelationship r => nr_id r
  end.

(** ** Stored records *)
Record EntityRecord : Set := mk_entity {
  e_id : RecordRef;
  e_version : RecordVersion;
  e_lifecycle : EntityLifecycle;
  e_entity_type : list byte;
  e_schema_version : Z;
  e_properties : Value;
  e_created_revision : CommitRevision;
  e_modified_revision : CommitRevision
}.
Record EvidenceRecord : Set := mk_evidence {
  ev_id : RecordRef;
  ev_version : RecordVersion;
  ev_digest : list byte;
  ev_locator : list byte;
  ev_created_revision : CommitRevision
}.
Record AssertionRecord : Set := mk_assertion {
  a_id : RecordRef;
  a_version : RecordVersion;
  a_subject : RecordRef;
  a_predicate : list byte;
  a_object : Value;
  a_evidence : list RecordRef;
  a_status : AssertionStatus;
  a_valid_time : ValidTime;
  a_correction_of : option RecordRef;
  a_recorded_revision : CommitRevision;
  a_modified_revision : CommitRevision
}.
Record RelationshipRecord : Set := mk_relationship {
  r_id : RecordRef;
  r_version : RecordVersion;
  r_from : RecordRef;
  r_to : RecordRef;
  r_relationship_type : list byte;
  r_properties : Value;
  r_evidence : list RecordRef;
  r_status : AssertionStatus;
  r_valid_time : ValidTime;
  r_correction_of : option RecordRef;
  r_recorded_revision : CommitRevision;
  r_modified_revision : CommitRevision
}.
(** The enum [Record]. *)
Inductive GRecord : Set :=
| REntity (e : EntityRecord)
| REvidence (e : EvidenceRecord)
| RAssertion (a : AssertionRecord)
| RRelationship (r : RelationshipRecord).
Definition record_id (r : GRecord) : RecordRef :=
  match r with
  | REntity e => e_id e
  | REvidence e => ev_id e
  | RAssertion a => a_id a
  | RRelationship r => r_id r
  end.
Definition record_version (r : GRecord) : RecordVersion :=
  match r with
  | REntity e => e_version e
  | REvidence e => ev_version e
  | RAssertion a => a_version a
  | RRelationship r => r_version r
  end.
Definition modified_revision (r : GRecord) : CommitRevision :=
  match r with
  | REntity e => e_modified_revision e
  | REvidence e => ev_created_revision e
  | RAssertion a => a_modified_revision a
  | RRelationship r => r_modified_revision r
  end.

(** ** Preconditions, operations and transactions *)
Inductive Predicate : Set :=
| RecordAbsent (record : RecordRef)
| RecordVisible (record : RecordRef)
| PRecordVersion (record : RecordRef) (version : RecordVersion).
Inductive Expected : Set :=
| Absent
| EVersion (version : RecordVersion)
| ReadView (revision : CommitRevision) (predicate : Predicate).

Inductive Operation : Set :=
| Create (expected : Expected) (record : NewRecord)
| ReplaceEntity (target : RecordRef) (expected : Expected) (properties : Value)
| ActOnAssertion (target : RecordRef) (expected : Expected) (action : AssertionAction)
    (correction : option NewAssertion) (correction_expected : option Expected)
| ActOnRelationship (target : RecordRef) (expected : Expected) (action : AssertionAction)
    (correction : option NewRelationship) (correction_expected : option Expected)
| DeleteEntity (target : RecordRef) (expected : Expected) (policy : DeletePolicy)
    (affected : list RecordRef).
Definition operation_target (o : Operation) : RecordRef :=
  match o with
  | Create _ record => new_record_id record
  | ReplaceEntity target _ _ => target
  | ActOnAssertion target _ _ _ _ => target
  | ActOnRelationship target _ _ _ _ => target
  | DeleteEntity target _ _ _ => target
  end.
Definition operation_expected (o : Operation) : Expected :=
  match o with
  | Create expected _ => expected
  | ReplaceEntity _ expected _ => expected
  | ActOnAssertion _ expected _ _ _ => expected
  | ActOnRelationship _ expected _ _ _ => expected
  | DeleteEntity _ expected _ _ => expected
  end.

Inductive DurablePolicyMutation : Set :=
| Install (policy : NamespacePolicy)
| Replace (expected : PolicyVersion) (policy : NamespacePolicy).

Record GraphTransaction : Set := mk_transaction {
  tx_scope : NamespaceRef;
  tx_operations : list Operation;
  tx_policy_mutation : option DurablePolicyMutation
}.
Definition GraphTransaction_new (scope : NamespaceRef) (operations : list Operation) :
    GraphTransaction := mk_transaction scope operations None.
Definition GraphTransaction_with_policy_mutation (scope : NamespaceRef)
    (operations : list Operation) (mutation : DurablePolicyMutation) : GraphTransaction :=
  mk_transaction scope operations (Some mutation).

(** ** Decidable equality: the derived [Eq] *)
#[global] Instance IntervalBound_eq_dec : EqDecision IntervalBound.
Proof. solve_decision. Defined.
#[global] Instance ValidTime_eq_dec : EqDecision ValidTime.
Proof. solve_decision. Defined.
#[global] Instance AssertionStatus_eq_dec : EqDecision AssertionStatus.
Proof. solve_decision. Defined.
#[global] Instance AssertionAction_eq_dec : EqDecision AssertionAction.
Proof. solve_decision. Defined.
#[global] Instance EntityLifecycle_eq_dec : EqDecision EntityLifecycle.
Proof. solve_decision. Defined.
#[global] Instance EntityRecord_eq_dec : EqDecision EntityRecord.
Proof. solve_decision. Defined.
#[global] Instance EvidenceRecord_eq_dec : EqDecision EvidenceRecord.
Proof. solve_decision. Defined.
#[global] Instance AssertionRecord_eq_dec : EqDecision AssertionRecord.
Proof. solve_decision. Defined.
#[global] Instance RelationshipRecord_eq_dec : EqDecision RelationshipRecord.
Proof. solve_decision. Defined.
#[global] Instance GRecord_eq_dec : EqDecision GRecord.
Proof. solve_decision. Defined.

(** ** Valid-time semantics *)
Lemma instant_lt_trans a b c : instant_lt a b = true → instant_lt b c = true → instant_lt a c = true.
Proof. unfold instant_lt. lia. Qed.
Lemma instant_lt_irrefl a : instant_lt a a = false.
Proof. unfold instant_lt. lia. Qed.

(** An interval is valid exactly when it is unknown or contains some instant
    between its bounds: its start, or any instant when it has no start. *)
Lemma valid_interval_nonempty t :
  valid_time_is_valid t = true →
  valid_time_contains t (mk_instant 0 0) = None ∨
  ∃ i, valid_time_contains t i = Some true.
Proof.
  destruct t as [|[|s] [|e]]; simpl; intros H; auto; right.
  - by exists (mk_instant 0 0).
  - exists (mk_instant (inst_seconds e - 1) 0). f_equal. unfold instant_lt. simpl. lia.
  - exists s. by rewrite instant_lt_irrefl.
  - exists s. by rewrite instant_lt_irrefl, H.
Qed.
