(* ===== verification/GraphCodec.v ===== *)
(** * The canonical graph codec

    Models [crates/uste-graph/src/codec.rs]: transactions, stored records and
    policies as canonical value maps, and the two record decoders (owned fields
    and borrowed fields) behind one [RecordFields] interface.

    Field names are the source's string literals.  A struct literal evaluates
    its fields in the order the source writes them, so the first failing field
    decides the error. *)
From S2P Require Import Prelude Ids Value Codec Policy GraphRecord.

Module GraphCodecError.
Inductive graph_codec_error : Set :=
| Decode (e : DecodeError)
| Encode (e : EncodeError)
| MissingField (name : list byte)
| UnknownField
| WrongType
| InvalidEnum
| InvalidNumber
| InvalidDigest
| InvalidIdentity
| InvalidPolicy
| ResourceLimit.
End GraphCodecError.
Abbreviation GraphCodecError := GraphCodecError.graph_codec_error.
Import GraphCodecError.

Definition PROFILE : list byte := lit "uste-graph-request-v1".
Definition RECORD_RULE_ENTRY_BYTES : Z := 24.
Definition RECORD_RULE_ENTRIES_PER_CHUNK : Z := MAX_INLINE_BYTES / RECORD_RULE_ENTRY_BYTES.
Definition RECORD_RULE_CHUNK_BYTES : Z :=
  RECORD_RULE_ENTRIES_PER_CHUNK * RECORD_RULE_ENTRY_BYTES.

(** ** Building and taking values *)

(** [.map(f).collect::<Result<Vec<_>, _>>()]. *)
Fixpoint try_map {E A B} (f : A → result E B) (l : list A) : result E (list B) :=
  match l with
  | [] => Ok []
  | a :: l => b ← f a; bs ← try_map f l; Ok (b :: bs)
  end.

Definition resource_limit {A} (r : result ValidationError A) : result GraphCodecError A :=
  map_err (λ _, ResourceLimit) r.
Definition codec_map (entries : list (list byte * Value)) : result GraphCodecError Value :=
  entries ← try_map (λ e, resource_limit ((λ key, (key, e.2)) <$> BoundedString_new e.1)) entries;
  resource_limit (VMap <$> CanonicalMap_new entries).
Definition codec_list (values : list Value) : result GraphCodecError Value :=
  resource_limit (VList <$> BoundedList_new values).
Definition text (value : list byte) : result GraphCodecError Value :=
  resource_limit (VString <$> BoundedString_new value).
(** [Value::Bytes(BoundedBytes::new(..).map_err(ResourceLimit)?)]. *)
Definition codec_bytes (value : list byte) : result GraphCodecError Value :=
  resource_limit (VBytes <$> BoundedBytes_new value).

Definition take_list (value : Value) : result GraphCodecError (list Value) :=
  match value with VList values => Ok values | _ => Err WrongType end.
Definition take_bounded_text (value : Value) : result GraphCodecError (list byte) :=
  match value with VString value => Ok value | _ => Err WrongType end.
Definition take_text (value : Value) : result GraphCodecError (list byte) :=
  take_bounded_text value.
Definition expect_text (value : Value) (expected : list byte) : result GraphCodecError unit :=
  actual ← take_text value;
  if decide (actual = expected) then Ok tt else Err InvalidEnum.
Definition take_record (value : Value) : result GraphCodecError RecordRef :=
  match value with VRecordRef value => Ok value | _ => Err WrongType end.
Definition take_instant (value : Value) : result GraphCodecError UtcInstant :=
  match value with VInstant value => Ok value | _ => Err WrongType end.
Definition take_u64 (value : Value) : result GraphCodecError Z :=
  match value with
  | VUnsigned value => if value <=? U64_MAX then Ok value else Err InvalidNumber
  | _ => Err WrongType
  end.
Definition take_u32 (value : Value) : result GraphCodecError Z :=
  match value with
  | VUnsigned value => if value <=? U32_MAX then Ok value else Err InvalidNumber
  | _ => Err WrongType
  end.
Definition take_revision (value : Value) : result GraphCodecError CommitRevision :=
  n ← take_u64 value; map_err (λ _, InvalidNumber) (CommitRevision_new n).
Definition take_record_version (value : Value) : result GraphCodecError RecordVersion :=
  n ← take_u64 value; map_err (λ _, InvalidNumber) (RecordVersion_new n).
(** [into_vec().try_into()] to an array of [n] bytes. *)
Definition take_array (n : Z) (e : GraphCodecError) (value : Value) :
    result GraphCodecError (list byte) :=
  match value with
  | VBytes value => if zlen value =? n then Ok value else Err e
  | _ => Err WrongType
  end.
Definition take_digest : Value → result GraphCodecError (list byte) := take_array 32 InvalidDigest.
Definition take_identity : Value → result GraphCodecError (list byte) :=
  take_array 16 InvalidIdentity.
Definition take_principal : Value → result GraphCodecError (list byte) :=
  take_array 32 InvalidPolicy.

(** ** Consumed fields *)
Abbreviation Fields := (list (list byte * Value)).
Definition Fields_new (value : Value) : result GraphCodecError Fields :=
  match value with VMap map => Ok map | _ => Err WrongType end.
(** [Fields::take] and [BorrowedFields::take]: linear search, then
    [swap_remove]. *)
Definition fields_take {V} (name : list byte) (fs : list (list byte * V)) :
    result GraphCodecError (V * list (list byte * V)) :=
  match list_find (λ e, e.1 = name) fs with
  | Some (index, (_, v)) => Ok (v, swap_remove index fs)
  | None => Err (MissingField name)
  end.
Definition fields_finish {V} (fs : list (list byte * V)) : result GraphCodecError unit :=
  match fs with [] => Ok tt | _ => Err UnknownField end.
(** [decode(fields.take(name)?)?]. *)
Definition take_with {A} (name : list byte) (dec : Value → result GraphCodecError A) (fs : Fields) :
    result GraphCodecError (A * Fields) :=
  '(v, fs) ← fields_take name fs; a ← dec v; Ok (a, fs).
Definition take_any (name : list byte) (fs : Fields) : result GraphCodecError (Value * Fields) :=
  fields_take name fs.

Definition decode_optional {T} (decode : Value → result GraphCodecError T) (value : Value) :
    result GraphCodecError (option T) :=
  if decide (value = VNull) then Ok None else Some <$> decode value.
Definition encode_optional {T} (encode : T → result GraphCodecError Value) (o : option T) :
    result GraphCodecError Value :=
  match o with Some t => encode t | None => Ok VNull end.

(** ** Scopes and references *)
Definition encode_scope (scope : NamespaceRef) : result GraphCodecError Value :=
  database ← codec_bytes (as_bytes (ns_database scope));
  namespace ← codec_bytes (as_bytes (ns_namespace scope));
  codec_map [(lit "database", database); (lit "namespace", namespace)].
Definition decode_scope (value : Value) : result GraphCodecError NamespaceRef :=
  fields ← Fields_new value;
  '(database, fields) ← take_with (lit "database") take_identity fields;
  '(namespace, fields) ← take_with (lit "namespace") take_identity fields;
  fields_finish fields;;
  Ok (NamespaceRef_new (from_bytes database) (from_bytes namespace)).

Definition encode_refs (references : list RecordRef) : result GraphCodecError Value :=
  codec_list (map VRecordRef references).
Definition decode_refs (value : Value) : result GraphCodecError (list RecordRef) :=
  values ← take_list value; try_map take_record values.

(** ** Valid time *)
Definition encode_bound (bound : IntervalBound) : result GraphCodecError Value :=
  match bound with
  | Unbounded => kind ← text (lit "unbounded"); codec_map [(lit "kind", kind)]
  | Bounded instant =>
      kind ← text (lit "bounded");
      codec_map [(lit "instant", VInstant instant); (lit "kind", kind)]
  end.
Definition decode_bound (value : Value) : result GraphCodecError IntervalBound :=
  fields ← Fields_new value;
  '(kind, fields) ← take_with (lit "kind") take_text fields;
  '(bound, fields) ←
    (if decide (kind = lit "unbounded") then Ok (Unbounded, fields)
     else if decide (kind = lit "bounded") then
       '(i, fields) ← take_with (lit "instant") take_instant fields; Ok (Bounded i, fields)
     else Err InvalidEnum);
  fields_finish fields;; Ok bound.

Definition encode_valid_time (valid_time : ValidTime) : result GraphCodecError Value :=
  match valid_time with
  | Unknown => kind ← text (lit "unknown"); codec_map [(lit "kind", kind)]
  | HalfOpen start end_ =>
      end_ ← encode_bound end_;
      kind ← text (lit "half_open");
      start ← encode_bound start;
      codec_map [(lit "end", end_); (lit "kind", kind); (lit "start", start)]
  end.
Definition decode_valid_time (value : Value) : result GraphCodecError ValidTime :=
  fields ← Fields_new value;
  '(kind, fields) ← take_with (lit "kind") take_text fields;
  '(valid_time, fields) ←
    (if decide (kind = lit "unknown") then Ok (Unknown, fields)
     else if decide (kind = lit "half_open") then
       '(start, fields) ← take_with (lit "start") decode_bound fields;
       '(end_, fields) ← take_with (lit "end") decode_bound fields;
       Ok (HalfOpen start end_, fields)
     else Err InvalidEnum);
  fields_finish fields;; Ok valid_time.

(** ** Enumerations *)
Definition assertion_status_name (status : AssertionStatus) : list byte :=
  match status with
  | Proposed => lit "proposed"
  | Accepted => lit "accepted"
  | Rejected => lit "rejected"
  | Disputed => lit "disputed"
  | Superseded => lit "superseded"
  | Retracted => lit "retracted"
  | Expired => lit "expired"
  end.
Definition assertion_status (value : list byte) : result GraphCodecError AssertionStatus :=
  if decide (value = lit "proposed") then Ok Proposed
  else if decide (value = lit "accepted") then Ok Accepted
  else if decide (value = lit "rejected") then Ok Rejected
  else if decide (value = lit "disputed") then Ok Disputed
  else if decide (value = lit "superseded") then Ok Superseded
  else if decide (value = lit "retracted") then Ok Retracted
  else if decide (value = lit "expired") then Ok Expired
  else Err InvalidEnum.
Definition action_name (action : AssertionAction) : list byte :=
  match action with
  | Accept => lit "accept"
  | Reject => lit "reject"
  | Dispute => lit "dispute"
  | Supersede => lit "supersede"
  | Retract => lit "retract"
  | Expire => lit "expire"
  | Correct => lit "correct"
  end.
Definition decode_action (value : Value) : result GraphCodecError AssertionAction :=
  value ← take_text value;
  if decide (value = lit "accept") then Ok Accept
  else if decide (value = lit "reject") then Ok Reject
  else if decide (value = lit "dispute") then Ok Dispute
  else if decide (value = lit "supersede") then Ok Supersede
  else if decide (value = lit "retract") then Ok Retract
  else if decide (value = lit "expire") then Ok Expire
  else if decide (value = lit "correct") then Ok Correct
  else Err InvalidEnum.
Definition encode_delete_policy (policy : DeletePolicy) : result GraphCodecError Value :=
  match policy with
  | DeleteReject => kind ← text (lit "reject"); codec_map [(lit "kind", kind)]
  | CascadeAndRetract maximum_affected =>
      kind ← text (lit "cascade_retract");
      codec_map [(lit "kind", kind); (lit "maximum_affected", VUnsigned maximum_affected)]
  end.
Definition decode_delete_policy (value : Value) : result GraphCodecError DeletePolicy :=
  fields ← Fields_new value;
  '(kind, fields) ← take_with (lit "kind") take_text fields;
  '(policy, fields) ←
    (if decide (kind = lit "reject") then Ok (DeleteReject, fields)
     else if decide (kind = lit "cascade_retract") then
       '(n, fields) ← take_with (lit "maximum_affected") take_u32 fields;
       Ok (CascadeAndRetract n, fields)
     else Err InvalidEnum);
  fields_finish fields;; Ok policy.

(** ** Preconditions *)
Definition encode_predicate (predicate : Predicate) : result GraphCodecError Value :=
  match predicate with
  | RecordAbsent record =>
      kind ← text (lit "absent");
      codec_map [(lit "kind", kind); (lit "record", VRecordRef record)]
  | RecordVisible record =>
      kind ← text (lit "visible");
      codec_map [(lit "kind", kind); (lit "record", VRecordRef record)]
  | PRecordVersion record version =>
      kind ← text (lit "version");
      codec_map [(lit "kind", kind); (lit "record", VRecordRef record);
                 (lit "version", VUnsigned version)]
  end.
Definition decode_predicate (value : Value) : result GraphCodecError Predicate :=
  fields ← Fields_new value;
  '(kind, fields) ← take_with (lit "kind") take_text fields;
  '(record, fields) ← take_with (lit "record") take_record fields;
  '(predicate, fields) ←
    (if decide (kind = lit "absent") then Ok (RecordAbsent record, fields)
     else if decide (kind = lit "visible") then Ok (RecordVisible record, fields)
     else if decide (kind = lit "version") then
       '(v, fields) ← take_with (lit "version") take_record_version fields;
       Ok (PRecordVersion record v, fields)
     else Err InvalidEnum);
  fields_finish fields;; Ok predicate.
Definition encode_expected (expected : Expected) : result GraphCodecError Value :=
  match expected with
  | Absent => kind ← text (lit "absent"); codec_map [(lit "kind", kind)]
  | EVersion version =>
      kind ← text (lit "version");
      codec_map [(lit "kind", kind); (lit "version", VUnsigned version)]
  | ReadView revision predicate =>
      kind ← text (lit "read_view");
      predicate ← encode_predicate predicate;
      codec_map [(lit "kind", kind); (lit "predicate", predicate);
                 (lit "revision", VUnsigned revision)]
  end.
Definition decode_expected (value : Value) : result GraphCodecError Expected :=
  fields ← Fields_new value;
  '(kind, fields) ← take_with (lit "kind") take_text fields;
  '(expected, fields) ←
    (if decide (kind = lit "absent") then Ok (Absent, fields)
     else if decide (kind = lit "version") then
       '(v, fields) ← take_with (lit "version") take_record_version fields;
       Ok (EVersion v, fields)
     else if decide (kind = lit "read_view") then
       '(revision, fields) ← take_with (lit "revision") take_revision fields;
       '(predicate, fields) ← take_with (lit "predicate") decode_predicate fields;
       Ok (ReadView revision predicate, fields)
     else Err InvalidEnum);
  fields_finish fields;; Ok expected.

(** ** New records *)
Definition encode_assertion (assertion : NewAssertion) : result GraphCodecError Value :=
  evidence ← encode_refs (na_evidence assertion);
  kind ← text (lit "assertion");
  valid_time ← encode_valid_time (na_valid_time assertion);
  codec_map [(lit "evidence", evidence); (lit "id", VRecordRef (na_id assertion));
             (lit "kind", kind); (lit "object", na_object assertion);
             (lit "predicate", VString (na_predicate assertion));
             (lit "subject", VRecordRef (na_subject assertion));
             (lit "valid_time", valid_time)].
Definition decode_assertion_fields (fields : Fields) : result GraphCodecError NewAssertion :=
  '(id, fields) ← take_with (lit "id") take_record fields;
  '(subject, fields) ← take_with (lit "subject") take_record fields;
  '(predicate, fields) ← take_with (lit "predicate") take_bounded_text fields;
  '(object, fields) ← take_any (lit "object") fields;
  '(evidence, fields) ← take_with (lit "evidence") decode_refs fields;
  '(valid_time, fields) ← take_with (lit "valid_time") decode_valid_time fields;
  fields_finish fields;;
  Ok (mk_new_assertion id subject predicate object evidence valid_time).
Definition decode_assertion (value : Value) : result GraphCodecError NewAssertion :=
  fields ← Fields_new value;
  '(kind, fields) ← take_any (lit "kind") fields;
  expect_text kind (lit "assertion");;
  decode_assertion_fields fields.

Definition encode_relationship (relationship : NewRelationship) : result GraphCodecError Value :=
  evidence ← encode_refs (nr_evidence relationship);
  kind ← text (lit "relationship");
  valid_time ← encode_valid_time (nr_valid_time relationship);
  codec_map [(lit "evidence", evidence); (lit "from", VRecordRef (nr_from relationship));
             (lit "id", VRecordRef (nr_id relationship)); (lit "kind", kind);
             (lit "properties", nr_properties relationship);
             (lit "relationship_type", VString (nr_relationship_type relationship));
             (lit "to", VRecordRef (nr_to relationship)); (lit "valid_time", valid_time)].
Definition decode_relationship_fields (fields : Fields) : result GraphCodecError NewRelationship :=
  '(id, fields) ← take_with (lit "id") take_record fields;
  '(from, fields) ← take_with (lit "from") take_record fields;
  '(to, fields) ← take_with (lit "to") take_record fields;
  '(relationship_type, fields) ← take_with (lit "relationship_type") take_bounded_text fields;
  '(properties, fields) ← take_any (lit "properties") fields;
  '(evidence, fields) ← take_with (lit "evidence") decode_refs fields;
  '(valid_time, fields) ← take_with (lit "valid_time") decode_valid_time fields;
  fields_finish fields;;
  Ok (mk_new_relationship id from to relationship_type properties evidence valid_time).
Definition decode_relationship (value : Value) : result GraphCodecError NewRelationship :=
  fields ← Fields_new value;
  '(kind, fields) ← take_any (lit "kind") fields;
  expect_text kind (lit "relationship");;
  decode_relationship_fields fields.

Definition encode_new_record (record : NewRecord) : result GraphCodecError Value :=
  match record with
  | NEntity entity =>
      kind ← text (lit "entity");
      codec_map [(lit "entity_type", VString (ne_entity_type entity));
                 (lit "id", VRecordRef (ne_id entity)); (lit "kind", kind);
                 (lit "properties", ne_properties entity);
                 (lit "schema_version", VUnsigned (ne_schema_version entity))]
  | NEvidence evidence =>
      digest ← codec_bytes (nev_digest evidence);
      kind ← text (lit "evidence");
      codec_map [(lit "digest", digest); (lit "id", VRecordRef (nev_id evidence));
                 (lit "kind", kind); (lit "locator", VString (nev_locator evidence))]
  | NAssertion assertion => encode_assertion assertion
  | NRelationship relationship => encode_relationship relationship
  end.
Definition decode_new_record (value : Value) : result GraphCodecError NewRecord :=
  fields ← Fields_new value;
  '(kind, fields) ← take_with (lit "kind") take_text fields;
  if decide (kind = lit "entity") then
    '(id, fields) ← take_with (lit "id") take_record fields;
    '(entity_type, fields) ← take_with (lit "entity_type") take_bounded_text fields;
    '(schema_version, fields) ← take_with (lit "schema_version") take_u64 fields;
    '(properties, fields) ← take_any (lit "properties") fields;
    fields_finish fields;;
    Ok (NEntity (mk_new_entity id entity_type schema_version properties))
  else if decide (kind = lit "evidence") then
    '(id, fields) ← take_with (lit "id") take_record fields;
    '(digest, fields) ← take_with (lit "digest") take_digest fields;
    '(locator, fields) ← take_with (lit "locator") take_bounded_text fields;
    fields_finish fields;;
    Ok (NEvidence (mk_new_evidence id digest locator))
  else if decide (kind = lit "assertion") then NAssertion <$> decode_assertion_fields fields
  else if decide (kind = lit "relationship") then
    NRelationship <$> decode_relationship_fields fields
  else Err InvalidEnum.

(** ** Policies *)
Definition encode_quotas (q : QuotaLimits) : result GraphCodecError Value :=
  codec_map
    [(lit "max_blob_read_bytes_per_call", VUnsigned (max_blob_read_bytes_per_call q));
     (lit "max_committed_blob_bytes", VUnsigned (max_committed_blob_bytes q));
     (lit "max_live_uploads", VUnsigned (max_live_uploads q));
     (lit "max_request_bytes", VUnsigned (max_request_bytes q));
     (lit "max_staged_blob_bytes", VUnsigned (max_staged_blob_bytes q))].
Definition invalid_policy {A} (r : result PolicyError A) : result GraphCodecError A :=
  map_err (λ _, GraphCodecError.InvalidPolicy) r.
Definition decode_quotas (value : Value) : result GraphCodecError QuotaLimits :=
  fields ← Fields_new value;
  '(request, fields) ← take_with (lit "max_request_bytes") take_u64 fields;
  '(staged, fields) ← take_with (lit "max_staged_blob_bytes") take_u64 fields;
  '(committed, fields) ← take_with (lit "max_committed_blob_bytes") take_u64 fields;
  '(uploads, fields) ← take_with (lit "max_live_uploads") take_u32 fields;
  '(read, fields) ← take_with (lit "max_blob_read_bytes_per_call") take_u32 fields;
  quotas ← invalid_policy (QuotaLimits_new request staged committed uploads read);
  fields_finish fields;; Ok quotas.

(** The loop of [encode_record_rules]: full chunks are flushed before the next
    entry is appended. *)
Definition push_rule (st : list Value * list byte) (rule : RecordId * RecordRule) :
    result GraphCodecError (list Value * list byte) :=
  let '(chunks, bytes) := st in
  '(chunks, bytes) ←
    (if zlen bytes =? RECORD_RULE_CHUNK_BYTES
     then chunk ← codec_bytes bytes; Ok (chunks ++ [chunk], [])
     else Ok (chunks, bytes));
  Ok (chunks, (bytes ++ as_bytes rule.1) ++ be_bytes 8 (bits (deny rule.2))).
Definition encode_record_rules (grant : NamespaceGrant) : result GraphCodecError Value :=
  '(chunks, bytes) ← try_fold push_rule (btree_entries (record_rules grant)) ([], []);
  chunks ← (match bytes with
            | [] => Ok chunks
            | _ => chunk ← codec_bytes bytes; Ok (chunks ++ [chunk])
            end);
  codec_list chunks.

(** One 24-byte entry. *)
Definition decode_rule_entry (st : option RecordId * NamespaceGrant) (entry : list byte) :
    result GraphCodecError (option RecordId * NamespaceGrant) :=
  let '(previous, grant) := st in
  let record := from_bytes (take 16 entry) in
  if match previous with Some value => bool_decide (key_le record value) | None => false end
  then Err GraphCodecError.InvalidPolicy
  else
    let bits := of_be_bytes (drop 16 entry) in
    deny ← invalid_policy (PermissionSet_from_bits bits);
    grant ← invalid_policy (deny_record record deny grant);
    Ok (Some record, grant).
Fixpoint decode_rule_chunks (chunks : list Value) (st : option RecordId * NamespaceGrant) :
    result GraphCodecError (option RecordId * NamespaceGrant) :=
  match chunks with
  | [] => Ok st
  | VBytes bytes :: rest =>
      if bool_decide (bytes = []) || negb (zlen bytes mod RECORD_RULE_ENTRY_BYTES =? 0)
         || (negb (bool_decide (rest = [])) && negb (zlen bytes =? RECORD_RULE_CHUNK_BYTES))
      then Err GraphCodecError.InvalidPolicy
      else
        st ← try_fold decode_rule_entry
               (chunks_exact (Z.to_nat RECORD_RULE_ENTRY_BYTES) bytes) st;
        decode_rule_chunks rest st
  | _ :: _ => Err WrongType
  end.
Definition decode_record_rules (value : Value) (grant : NamespaceGrant) :
    result GraphCodecError NamespaceGrant :=
  chunks ← take_list value;
  st ← decode_rule_chunks chunks (None, grant); Ok st.2.

Definition encode_grant (e : PrincipalDigest * NamespaceGrant) : result GraphCodecError Value :=
  let '(principal, grant) := e in
  principal ← codec_bytes (principal_bytes principal);
  quotas ← encode_quotas (grant_quotas grant);
  rules ← encode_record_rules grant;
  codec_map [(lit "permissions", VUnsigned (bits (permissions grant)));
             (lit "principal", principal); (lit "quotas", quotas); (lit "record_rules", rules)].
Definition encode_policy (policy : NamespacePolicy) : result GraphCodecError Value :=
  grants ← try_map encode_grant (btree_entries (grants policy));
  grants ← codec_list grants;
  quotas ← encode_quotas (policy_quotas policy);
  scope ← encode_scope (policy_scope policy);
  codec_map [(lit "grants", grants); (lit "quotas", quotas); (lit "scope", scope);
             (lit "version", VUnsigned (policy_version policy))].

(** One iteration of the grant loop of [decode_policy]. *)
Definition decode_grant (st : option PrincipalDigest * NamespacePolicy) (encoded : Value) :
    result GraphCodecError (option PrincipalDigest * NamespacePolicy) :=
  let '(previous, policy) := st in
  fields ← Fields_new encoded;
  '(principal, fields) ← take_with (lit "principal") take_principal fields;
  let principal := PrincipalDigest_from_bytes principal in
  if match previous with Some value => bool_decide (key_le principal value) | None => false end
  then Err GraphCodecError.InvalidPolicy
  else
    '(permission_bits, fields) ← take_with (lit "permissions") take_u64 fields;
    permissions ← invalid_policy (PermissionSet_from_bits permission_bits);
    '(quotas, fields) ← take_with (lit "quotas") decode_quotas fields;
    let grant := NamespaceGrant_new permissions quotas in
    '(rules, fields) ← take_any (lit "record_rules") fields;
    grant ← decode_record_rules rules grant;
    fields_finish fields;;
    policy ← invalid_policy (policy_grant principal grant policy);
    Ok (Some principal, policy).
Definition take_policy_version (value : Value) : result GraphCodecError PolicyVersion :=
  n ← take_u64 value; invalid_policy (PolicyVersion_new n).
Definition decode_policy (value : Value) : result GraphCodecError NamespacePolicy :=
  fields ← Fields_new value;
  '(scope, fields) ← take_with (lit "scope") decode_scope fields;
  '(version, fields) ← take_with (lit "version") take_policy_version fields;
  '(quotas, fields) ← take_with (lit "quotas") decode_quotas fields;
  '(grants, fields) ← take_with (lit "grants") take_list fields;
  fields_finish fields;;
  st ← try_fold decode_grant grants (None, NamespacePolicy_new scope version quotas);
  Ok st.2.

Definition encode_policy_mutation (mutation : DurablePolicyMutation) :
    result GraphCodecError Value :=
  match mutation with
  | Install policy =>
      kind ← text (lit "install");
      policy ← encode_policy policy;
      codec_map [(lit "kind", kind); (lit "policy", policy)]
  | Replace expected policy =>
      kind ← text (lit "replace");
      policy ← encode_policy policy;
      codec_map [(lit "expected", VUnsigned expected); (lit "kind", kind); (lit "policy", policy)]
  end.
Definition decode_policy_mutation (value : Value) : result GraphCodecError DurablePolicyMutation :=
  fields ← Fields_new value;
  '(kind, fields) ← take_with (lit "kind") take_text fields;
  '(mutation, fields) ←
    (if decide (kind = lit "install") then
       '(policy, fields) ← take_with (lit "policy") decode_policy fields;
       Ok (Install policy, fields)
     else if decide (kind = lit "replace") then
       '(expected, fields) ← take_with (lit "expected") take_policy_version fields;
       '(policy, fields) ← take_with (lit "policy") decode_policy fields;
       Ok (Replace expected policy, fields)
     else Err InvalidEnum);
  fields_finish fields;; Ok mutation.

Definition encode_frame (value : Value) : result GraphCodecError (list byte) :=
  map_err Encode (encode_value value).
Definition decode_frame (input : list byte) : result GraphCodecError Value :=
  map_err Decode (decode_value input).
Definition encode_result_policy (policy : option NamespacePolicy) :
    result GraphCodecError (list byte) :=
  value ← encode_optional encode_policy policy; encode_frame value.
Definition decode_result_policy (input : list byte) :
    result GraphCodecError (option NamespacePolicy) :=
  value ← decode_frame input; decode_optional decode_policy value.

(** ** Operations and transactions *)
Definition encode_operation (operation : Operation) : result GraphCodecError Value :=
  match operation with
  | Create expected record =>
      expected ← encode_expected expected;
      kind ← text (lit "create");
      record ← encode_new_record record;
      codec_map [(lit "expected", expected); (lit "kind", kind); (lit "record", record)]
  | ReplaceEntity target expected properties =>
      expected ← encode_expected expected;
      kind ← text (lit "replace_entity");
      codec_map [(lit "expected", expected); (lit "kind", kind); (lit "properties", properties);
                 (lit "target", VRecordRef target)]
  | ActOnAssertion target expected action correction correction_expected =>
      action ← text (action_name action);
      correction ← encode_optional encode_assertion correction;
      correction_expected ← encode_optional encode_expected correction_expected;
      expected ← encode_expected expected;
      kind ← text (lit "act_assertion");
      codec_map [(lit "action", action); (lit "correction", correction);
                 (lit "correction_expected", correction_expected); (lit "expected", expected);
                 (lit "kind", kind); (lit "target", VRecordRef target)]
  | ActOnRelationship target expected action correction correction_expected =>
      action ← text (action_name action);
      correction ← encode_optional encode_relationship correction;
      correction_expected ← encode_optional encode_expected correction_expected;
      expected ← encode_expected expected;
      kind ← text (lit "act_relationship");
      codec_map [(lit "action", action); (lit "correction", correction);
                 (lit "correction_expected", correction_expected); (lit "expected", expected);
                 (lit "kind", kind); (lit "target", VRecordRef target)]
  | DeleteEntity target expected policy affected =>
      affected ← encode_refs affected;
      expected ← encode_expected expected;
      kind ← text (lit "delete_entity");
      policy ← encode_delete_policy policy;
      codec_map [(lit "affected", affected); (lit "expected", expected); (lit "kind", kind);
                 (lit "policy", policy); (lit "target", VRecordRef target)]
  end.
Definition decode_operation (value : Value) : result GraphCodecError Operation :=
  fields ← Fields_new value;
  '(kind, fields) ← take_with (lit "kind") take_text fields;
  '(operation, fields) ←
    (if decide (kind = lit "create") then
       '(expected, fields) ← take_with (lit "expected") decode_expected fields;
       '(record, fields) ← take_with (lit "record") decode_new_record fields;
       Ok (Create expected record, fields)
     else if decide (kind = lit "replace_entity") then
       '(target, fields) ← take_with (lit "target") take_record fields;
       '(expected, fields) ← take_with (lit "expected") decode_expected fields;
       '(properties, fields) ← take_any (lit "properties") fields;
       Ok (ReplaceEntity target expected properties, fields)
     else if decide (kind = lit "act_assertion") then
       '(target, fields) ← take_with (lit "target") take_record fields;
       '(expected, fields) ← take_with (lit "expected") decode_expected fields;
       '(action, fields) ← take_with (lit "action") decode_action fields;
       '(correction, fields) ← take_with (lit "correction") (decode_optional decode_assertion) fields;
       '(correction_expected, fields) ←
         take_with (lit "correction_expected") (decode_optional decode_expected) fields;
       Ok (ActOnAssertion target expected action correction correction_expected, fields)
     else if decide (kind = lit "act_relationship") then
       '(target, fields) ← take_with (lit "target") take_record fields;
       '(expected, fields) ← take_with (lit "expected") decode_expected fields;
       '(action, fields) ← take_with (lit "action") decode_action fields;
       '(correction, fields) ←
         take_with (lit "correction") (decode_optional decode_relationship) fields;
       '(correction_expected, fields) ←
         take_with (lit "correction_expected") (decode_optional decode_expected) fields;
       Ok (ActOnRelationship target expected action correction correction_expected, fields)
     else if decide (kind = lit "delete_entity") then
       '(affected, fields) ← take_with (lit "affected") decode_refs fields;
       '(target, fields) ← take_with (lit "target") take_record fields;
       '(expected, fields) ← take_with (lit "expected") decode_expected fields;
       '(policy, fields) ← take_with (lit "policy") decode_delete_policy fields;
       Ok (DeleteEntity target expected policy affected, fields)
     else Err InvalidEnum);
  fields_finish fields;; Ok operation.

Definition encode_transaction_value (transaction : GraphTransaction) : result GraphCodecError Value :=
  operations ← try_map encode_operation (tx_operations transaction);
  operations ← codec_list operations;
  policy_mutation ← encode_optional encode_policy_mutation (tx_policy_mutation transaction);
  profile ← text PROFILE;
  scope ← encode_scope (tx_scope transaction);
  codec_map [(lit "operations", operations); (lit "policy_mutation", policy_mutation);
             (lit "profile", profile); (lit "scope", scope)].
Definition encode_transaction (transaction : GraphTransaction) :
    result GraphCodecError (list byte) :=
  value ← encode_transaction_value transaction; encode_frame value.
Definition decode_transaction_value (value : Value) : result GraphCodecError GraphTransaction :=
  root ← Fields_new value;
  '(profile, root) ← take_any (lit "profile") root;
  expect_text profile PROFILE;;
  '(operations, root) ←
    take_with (lit "operations") (λ v, vs ← take_list v; try_map decode_operation vs) root;
  '(policy_mutation, root) ←
    take_with (lit "policy_mutation") (decode_optional decode_policy_mutation) root;
  '(scope, root) ← take_with (lit "scope") decode_scope root;
  fields_finish root;;
  Ok (match policy_mutation with
      | Some mutation => GraphTransaction_with_policy_mutation scope operations mutation
      | None => GraphTransaction_new scope operations
      end).
Definition decode_transaction (input : list byte) : result GraphCodecError GraphTransaction :=
  value ← decode_frame input; decode_transaction_value value.

(** ** Stored records *)
Definition lifecycle_name (l : EntityLifecycle) : list byte :=
  match l with Active => lit "active" | Deleted => lit "deleted" end.
Definition opt_ref (o : option RecordRef) : Value :=
  match o with Some r => VRecordRef r | None => VNull end.

Definition encode_record_value (record : GRecord) : result GraphCodecError Value :=
  match record with
  | REntity entity =>
      kind ← text (lit "entity");
      lifecycle ← text (lifecycle_name (e_lifecycle entity));
      codec_map
        [(lit "created_revision", VUnsigned (e_created_revision entity));
         (lit "entity_type", VString (e_entity_type entity));
         (lit "id", VRecordRef (e_id entity)); (lit "kind", kind);
         (lit "lifecycle", lifecycle);
         (lit "modified_revision", VUnsigned (e_modified_revision entity));
         (lit "properties", e_properties entity);
         (lit "schema_version", VUnsigned (e_schema_version entity));
         (lit "version", VUnsigned (e_version entity))]
  | REvidence evidence =>
      digest ← codec_bytes (ev_digest evidence);
      kind ← text (lit "evidence");
      codec_map
        [(lit "created_revision", VUnsigned (ev_created_revision evidence));
         (lit "digest", digest); (lit "id", VRecordRef (ev_id evidence)); (lit "kind", kind);
         (lit "locator", VString (ev_locator evidence));
         (lit "version", VUnsigned (ev_version evidence))]
  | RAssertion assertion =>
      evidence ← encode_refs (a_evidence assertion);
      kind ← text (lit "assertion");
      status ← text (assertion_status_name (a_status assertion));
      valid_time ← encode_valid_time (a_valid_time assertion);
      codec_map
        [(lit "correction_of", opt_ref (a_correction_of assertion)); (lit "evidence", evidence);
         (lit "id", VRecordRef (a_id assertion)); (lit "kind", kind);
         (lit "modified_revision", VUnsigned (a_modified_revision assertion));
         (lit "object", a_object assertion);
         (lit "predicate", VString (a_predicate assertion));
         (lit "recorded_revision", VUnsigned (a_recorded_revision assertion));
         (lit "status", status); (lit "subject", VRecordRef (a_subject assertion));
         (lit "valid_time", valid_time); (lit "version", VUnsigned (a_version assertion))]
  | RRelationship relationship =>
      evidence ← encode_refs (r_evidence relationship);
      kind ← text (lit "relationship");
      status ← text (assertion_status_name (r_status relationship));
      valid_time ← encode_valid_time (r_valid_time relationship);
      codec_map
        [(lit "correction_of", opt_ref (r_correction_of relationship));
         (lit "evidence", evidence); (lit "from", VRecordRef (r_from relationship));
         (lit "id", VRecordRef (r_id relationship)); (lit "kind", kind);
         (lit "modified_revision", VUnsigned (r_modified_revision relationship));
         (lit "properties", r_properties relationship);
         (lit "recorded_revision", VUnsigned (r_recorded_revision relationship));
         (lit "relationship_type", VString (r_relationship_type relationship));
         (lit "status", status); (lit "to", VRecordRef (r_to relationship));
         (lit "valid_time", valid_time); (lit "version", VUnsigned (r_version relationship))]
  end.
Definition encode_result_record (record : GRecord) : result GraphCodecError (list byte) :=
  value ← encode_record_value record; encode_frame value.
Definition encode_stored_record (record : GRecord) : result GraphCodecError (list byte) :=
  encode_result_record record.

(** The trait [RecordFields]. *)
Class RecordFields (F : Type) := {
  rf_take_value : list byte → F → result GraphCodecError (Value * F);
  rf_take_text : list byte → F → result GraphCodecError (list byte * F);
  rf_take_refs : list byte → F → result GraphCodecError (list RecordRef * F);
  rf_take_valid_time : list byte → F → result GraphCodecError (ValidTime * F);
  rf_finish : F → result GraphCodecError unit
}.
(** [decode(fields.take_value(name)?)?]. *)
Definition rf_take_with {F A} `{RecordFields F} (name : list byte)
    (dec : Value → result GraphCodecError A) (fs : F) : result GraphCodecError (A * F) :=
  '(v, fs) ← rf_take_value name fs; a ← dec v; Ok (a, fs).

Definition lifecycle_of_name (value : list byte) : result GraphCodecError EntityLifecycle :=
  if decide (value = lit "active") then Ok Active
  else if decide (value = lit "deleted") then Ok Deleted
  else Err InvalidEnum.

Definition decode_record_fields {F} `{RecordFields F} (fields : F) :
    result GraphCodecError GRecord :=
  '(kind, fields) ← rf_take_text (lit "kind") fields;
  '(record, fields) ←
    (if decide (kind = lit "entity") then
       '(id, fields) ← rf_take_with (lit "id") take_record fields;
       '(version, fields) ← rf_take_with (lit "version") take_record_version fields;
       '(lifecycle, fields) ← rf_take_text (lit "lifecycle") fields;
       lifecycle ← lifecycle_of_name lifecycle;
       '(entity_type, fields) ← rf_take_with (lit "entity_type") take_bounded_text fields;
       '(schema_version, fields) ← rf_take_with (lit "schema_version") take_u64 fields;
       '(properties, fields) ← rf_take_value (lit "properties") fields;
       '(created, fields) ← rf_take_with (lit "created_revision") take_revision fields;
       '(modified, fields) ← rf_take_with (lit "modified_revision") take_revision fields;
       Ok (REntity (mk_entity id version lifecycle entity_type schema_version properties
                      created modified), fields)
     else if decide (kind = lit "evidence") then
       '(id, fields) ← rf_take_with (lit "id") take_record fields;
       '(version, fields) ← rf_take_with (lit "version") take_record_version fields;
       '(digest, fields) ← rf_take_with (lit "digest") take_digest fields;
       '(locator, fields) ← rf_take_with (lit "locator") take_bounded_text fields;
       '(created, fields) ← rf_take_with (lit "created_revision") take_revision fields;
       Ok (REvidence (mk_evidence id version digest locator created), fields)
     else if decide (kind = lit "assertion") then
       '(id, fields) ← rf_take_with (lit "id") take_record fields;
       '(version, fields) ← rf_take_with (lit "version") take_record_version fields;
       '(subject, fields) ← rf_take_with (lit "subject") take_record fields;
       '(predicate, fields) ← rf_take_with (lit "predicate") take_bounded_text fields;
       '(object, fields) ← rf_take_value (lit "object") fields;
       '(evidence, fields) ← rf_take_refs (lit "evidence") fields;
       '(status, fields) ← rf_take_text (lit "status") fields;
       status ← assertion_status status;
       '(valid_time, fields) ← rf_take_valid_time (lit "valid_time") fields;
       '(correction, fields) ←
         rf_take_with (lit "correction_of") (decode_optional take_record) fields;
       '(recorded, fields) ← rf_take_with (lit "recorded_revision") take_revision fields;
       '(modified, fields) ← rf_take_with (lit "modified_revision") take_revision fields;
       Ok (RAssertion (mk_assertion id version subject predicate object evidence status
                         valid_time correction recorded modified), fields)
     else if decide (kind = lit "relationship") then
       '(id, fields) ← rf_take_with (lit "id") take_record fields;
       '(version, fields) ← rf_take_with (lit "version") take_record_version fields;
       '(from, fields) ← rf_take_with (lit "from") take_record fields;
       '(to, fields) ← rf_take_with (lit "to") take_record fields;
       '(relationship_type, fields) ←
         rf_take_with (lit "relationship_type") take_bounded_text fields;
       '(properties, fields) ← rf_take_value (lit "properties") fields;
       '(evidence, fields) ← rf_take_refs (lit "evidence") fields;
       '(status, fields) ← rf_take_text (lit "status") fields;
       status ← assertion_status status;
       '(valid_time, fields) ← rf_take_valid_time (lit "valid_time") fields;
       '(correction, fields) ←
         rf_take_with (lit "correction_of") (decode_optional take_record) fields;
       '(recorded, fields) ← rf_take_with (lit "recorded_revision") take_revision fields;
       '(modified, fields) ← rf_take_with (lit "modified_revision") take_revision fields;
       Ok (RRelationship (mk_relationship id version from to relationship_type properties
                            evidence status valid_time correction recorded modified), fields)
     else Err InvalidEnum);
  rf_finish fields;; Ok record.

(** [impl RecordFields for Fields]. *)
#[global] Instance Fields_RecordFields : RecordFields Fields := {
  rf_take_value := take_any;
  rf_take_text name := take_with name take_text;
  rf_take_refs name := take_with name decode_refs;
  rf_take_valid_time name := take_with name decode_valid_time;
  rf_finish := fields_finish
}.
Definition decode_result_record (input : list byte) : result GraphCodecError GRecord :=
  value ← decode_frame input;
  fields ← Fields_new value;
  decode_record_fields fields.

(** ** Borrowed fields *)

(** [impl RecordFields for BorrowedFields] and [BorrowedRecordFields] share
    the conversions of one taken value. *)
Definition borrowed_value (v : BorrowedMapValue) : result GraphCodecError Value :=
  match v with
  | BString value => resource_limit (VString <$> BoundedString_new value)
  | BValue value => Ok value
  | BSingletonStringMap _ _ | BMap _ | BRecordRefs _ => Err WrongType
  end.
Definition borrowed_text (v : BorrowedMapValue) : result GraphCodecError (list byte) :=
  match v with
  | BString value => Ok value
  | BValue value => take_text value
  | BSingletonStringMap _ _ | BMap _ | BRecordRefs _ => Err WrongType
  end.
Definition borrowed_refs (v : BorrowedMapValue) : result GraphCodecError (list RecordRef) :=
  match v with
  | BRecordRefs references => Ok references
  | BValue value => decode_refs value
  | BString _ | BSingletonStringMap _ _ | BMap _ => Err WrongType
  end.

Abbreviation BorrowedFields := (list (list byte * BorrowedMapValue)).
Definition borrowed_take_with {A} (name : list byte)
    (dec : BorrowedMapValue → result GraphCodecError A) (fs : BorrowedFields) :
    result GraphCodecError (A * BorrowedFields) :=
  '(v, fs) ← fields_take name fs; a ← dec v; Ok (a, fs).

Definition decode_borrowed_bound (value : BorrowedMapValue) :
    result GraphCodecError IntervalBound :=
  match value with
  | BMap fields =>
      '(kind, fields) ← borrowed_take_with (lit "kind") borrowed_text fields;
      '(bound, fields) ←
        (if decide (kind = lit "unbounded") then Ok (Unbounded, fields)
         else if decide (kind = lit "bounded") then
           '(i, fields) ← borrowed_take_with (lit "instant")
             (λ v, v ← borrowed_value v; take_instant v) fields;
           Ok (Bounded i, fields)
         else Err InvalidEnum);
      fields_finish fields;; Ok bound
  | BValue value => decode_bound value
  | BSingletonStringMap key value =>
      if decide (key ≠ lit "kind") then Err (MissingField (lit "kind"))
      else if decide (value = lit "unbounded") then Ok Unbounded
      else if decide (value = lit "bounded") then Err (MissingField (lit "instant"))
      else Err InvalidEnum
  | BString _ | BRecordRefs _ => Err WrongType
  end.
Definition decode_borrowed_valid_time (fields : BorrowedFields) :
    result GraphCodecError ValidTime :=
  '(kind, fields) ← borrowed_take_with (lit "kind") borrowed_text fields;
  '(valid_time, fields) ←
    (if decide (kind = lit "unknown") then Ok (Unknown, fields)
     else if decide (kind = lit "half_open") then
       '(start, fields) ← borrowed_take_with (lit "start") decode_borrowed_bound fields;
       '(end_, fields) ← borrowed_take_with (lit "end") decode_borrowed_bound fields;
       Ok (HalfOpen start end_, fields)
     else Err InvalidEnum);
  fields_finish fields;; Ok valid_time.
Definition decode_borrowed_singleton_valid_time (key value : list byte) :
    result GraphCodecError ValidTime :=
  if decide (key ≠ lit "kind") then Err (MissingField (lit "kind"))
  else if decide (value = lit "unknown") then Ok Unknown
  else if decide (value = lit "half_open") then Err (MissingField (lit "start"))
  else Err InvalidEnum.
Definition borrowed_valid_time (v : BorrowedMapValue) : result GraphCodecError ValidTime :=
  match v with
  | BMap fields => decode_borrowed_valid_time fields
  | BSingletonStringMap key value => decode_borrowed_singleton_valid_time key value
  | BValue value => decode_valid_time value
  | BString _ | BRecordRefs _ => Err WrongType
  end.

(** The fixed slots of [borrowed_record_field_index]. *)
Definition borrowed_record_fields : list (list byte) :=
  [lit "correction_of"; lit "created_revision"; lit "digest"; lit "entity_type"; lit "evidence";
   lit "from"; lit "id"; lit "kind"; lit "lifecycle"; lit "locator"; lit "modified_revision";
   lit "object"; lit "predicate"; lit "properties"; lit "recorded_revision";
   lit "relationship_type"; lit "schema_version"; lit "status"; lit "subject"; lit "to";
   lit "valid_time"; lit "version"].
Definition borrowed_record_field_index (name : list byte) : option nat :=
  fst <$> list_find (λ n, n = name) borrowed_record_fields.

Record BorrowedRecordFields : Set := mk_borrowed_fields {
  brf_fields : list (option BorrowedMapValue);
  brf_remaining : Z;
  brf_unknown : bool
}.
Definition BorrowedRecordFields_new : BorrowedRecordFields :=
  mk_borrowed_fields (replicate (length borrowed_record_fields) None) 0 false.
(** [self.fields[index]]; the array has a slot for every index. *)
Definition brf_slot (index : nat) (f : BorrowedRecordFields) : option BorrowedMapValue :=
  default None (brf_fields f !! index).
Definition brf_insert (name : list byte) (value : BorrowedMapValue) (f : BorrowedRecordFields) :
    BorrowedRecordFields :=
  match borrowed_record_field_index name with
  | None => mk_borrowed_fields (brf_fields f) (brf_remaining f) true
  | Some index =>
      let fields := <[index := Some value]> (brf_fields f) in
      match brf_slot index f with
      | Some _ => mk_borrowed_fields fields (brf_remaining f) true
      | None => mk_borrowed_fields fields (brf_remaining f + 1) (brf_unknown f)
      end
  end.
(** [take].  A name outside the fixed schema panics in the source and is reported
    here as a missing field; no decoder requests one: the comparison of the two
    decoders in [StoredRecord] goes through [take_sim], whose premise [known] says of
    each name requested that it is in the schema. *)
Definition brf_take (name : list byte) (f : BorrowedRecordFields) :
    result GraphCodecError (BorrowedMapValue * BorrowedRecordFields) :=
  match borrowed_record_field_index name with
  | None => Err (MissingField name)
  | Some index =>
      v ← ok_or (brf_slot index f) (MissingField name);
      Ok (v, mk_borrowed_fields (<[index := None]> (brf_fields f)) (brf_remaining f - 1)
               (brf_unknown f))
  end.
Definition brf_take_with {A} (dec : BorrowedMapValue → result GraphCodecError A)
    (name : list byte) (f : BorrowedRecordFields) :
    result GraphCodecError (A * BorrowedRecordFields) :=
  '(v, f) ← brf_take name f; a ← dec v; Ok (a, f).
#[global] Instance BorrowedRecordFields_RecordFields : RecordFields BorrowedRecordFields := {
  rf_take_value := brf_take_with borrowed_value;
  rf_take_text := brf_take_with borrowed_text;
  rf_take_refs := brf_take_with borrowed_refs;
  rf_take_valid_time := brf_take_with borrowed_valid_time;
  rf_finish f :=
    if (brf_remaining f =? 0) && negb (brf_unknown f) then Ok tt else Err UnknownField
}.
Definition decode_stored_record (input : list byte) : result GraphCodecError GRecord :=
  visited ← map_err Decode (visit_borrowed_map_value_with_fields_and_record_refs input
    [lit "valid_time"] [lit "evidence"] brf_insert BorrowedRecordFields_new);
  fields ← ok_or visited WrongType;
  decode_record_fields fields.
