(* ===== verification/GraphCodecFacts.v ===== *)
(** * Exactness of the graph codec

    Every encoder/decoder pair of [GraphCodec] is exact on valid values:
    [vexact] states both that decoding an encoding returns the original and that
    a decoder accepts nothing but encodings.  The lemmas for maps reduce a
    decoder that consumes fields one by one to the field list it must have
    started from. *)
From S2P Require Import Prelude Ids Value Codec CodecFacts CodecFrame Policy GraphRecord GraphCodec.
Import GraphCodecError.

Definition vexact {E A} (enc : A → result E Value)
    (dec : Value → result E A) (ok : A → Prop) : Prop :=
  (∀ a v, ok a → enc a = Ok v → value_valid v ∧ dec v = Ok a) ∧
  (∀ a v, value_valid v → dec v = Ok a → ok a ∧ enc a = Ok v).

(** ** Canonical maps over sorted literal keys *)
Lemma sorted_entries_unique {V} (es fs : list (list byte * V)) :
  Sorted lexico es.*1 → Sorted lexico fs.*1 → es ≡ₚ fs → es = fs.
Proof. intros He Hf. apply sorted_entries_eq; by apply (Sorted_StronglySorted _). Qed.
Lemma merge_sort_perm {V} (es fs : list (list byte * V)) : es ≡ₚ fs → Sorted lexico fs.*1 → merge_sort entry_le es = fs.
Proof.
  intros Hp Hs. apply (Sorted_StronglySorted _) in Hs. apply sorted_entries_eq; [|done|by rewrite merge_sort_Permutation].
  apply key_le_sorted_strict; [|rewrite merge_sort_Permutation, Hp; by apply sorted_strict_NoDup].
  assert (StronglySorted entry_le (merge_sort entry_le es)) as Hm
    by (apply StronglySorted_merge_sort; apply _).
  induction Hm as [|e l Hl IH He]; [constructor|]. rewrite fmap_cons.
  apply StronglySorted_cons. split; [|done]. rewrite Forall_fmap.
  apply (Forall_impl _ _ _ He). done.
Qed.
Lemma merge_sort_sorted {V} (es : list (list byte * V)) :
  Sorted lexico es.*1 → merge_sort entry_le es = es.
Proof. by apply merge_sort_perm. Qed.

(** The keys of a schema: sorted and bounded, decided by evaluation. *)
Definition schema_ok (keys : list (list byte)) : bool :=
  bool_decide (Sorted lexico keys) && forallb str_okb keys
  && (zlen keys <=? MAX_COLLECTION_ENTRIES).

Lemma BoundedString_new_Ok s s' : BoundedString_new s = Ok s' ↔ s' = s ∧ inline_okb s = true.
Proof.
  unfold BoundedString_new, check_inline_length, inline_okb.
  destruct (Z.ltb_spec MAX_INLINE_BYTES (zlen s)); simpl; split; try done.
  - intros [_ H0]. lia.
  - intros [= <-]. split; [done|lia].
  - by intros [-> _].
Qed.
Lemma try_map_keys (es : list (list byte * Value)) :
  forallb str_okb es.*1 = true →
  try_map (λ e, resource_limit ((λ key, (key, e.2)) <$> BoundedString_new e.1)) es = Ok es.
Proof.
  induction es as [|[k v] es IH]; [done|]. cbn [fmap list_fmap forallb fst snd try_map].
  intros [[Hk _]%andb_true_iff Hks]%andb_true_iff.
  rewrite (proj2 (BoundedString_new_Ok k k)) by done. unfold mbind at 1, result_bind at 1.
  cbn [resource_limit map_err]. by rewrite IH.
Qed.
Lemma codec_map_Ok (es : list (list byte * Value)) v :
  schema_ok es.*1 = true → Forall value_valid es.*2 →
  codec_map es = Ok v ↔ v = VMap es ∧ value_valid v.
Proof.
  intros [[Hs%bool_decide_eq_true Hk]%andb_true_iff _]%andb_true_iff Hv. unfold codec_map.
  rewrite try_map_keys by done. cbn [mbind result_bind]. unfold resource_limit.
  rewrite map_err_Ok. fold (Value_map es). rewrite Value_map_Ok.
  - by rewrite merge_sort_sorted.
  - apply forallb_Forall in Hk. rewrite Forall_fmap in Hk. rewrite Forall_fmap in Hv.
    rewrite Forall_forall in Hk, Hv |- *. intros e He. split; [by apply Hk|by apply Hv].
Qed.
Lemma codec_list_Ok l v :
  Forall value_valid l → codec_list l = Ok v ↔ v = VList l ∧ value_valid v.
Proof.
  intros Hl. unfold codec_list, resource_limit. rewrite map_err_Ok. by apply Value_list_Ok.
Qed.
Lemma codec_bytes_Ok bs v :
  codec_bytes bs = Ok v ↔ v = VBytes bs ∧ inline_okb bs = true.
Proof.
  unfold codec_bytes, resource_limit. rewrite map_err_Ok, fmap_Ok.
  setoid_rewrite BoundedString_new_Ok. naive_solver.
Qed.
Lemma text_Ok s v : text s = Ok v ↔ v = VString s ∧ inline_okb s = true.
Proof.
  unfold text, resource_limit. rewrite map_err_Ok, fmap_Ok.
  setoid_rewrite BoundedString_new_Ok. naive_solver.
Qed.

(** ** Taking fields *)
Lemma swap_remove_perm {A} i (l : list A) x : l !! i = Some x → l ≡ₚ x :: swap_remove i l.
Proof.
  intros Hi. unfold swap_remove. destruct l as [|y l _] using rev_ind; [done|].
  rewrite last_snoc, length_app. cbn [length].
  replace (length l + 1 - 1)%nat with (length l) by lia.
  pose proof (lookup_lt_Some _ _ _ Hi) as Hlt. rewrite length_app in Hlt. cbn in Hlt.
  destruct (decide (i = length l)) as [->|Hne].
  - rewrite lookup_app_r, Nat.sub_diag in Hi by done. injection Hi as ->.
    rewrite insert_app_r_alt, Nat.sub_diag, take_app_length by done. by rewrite Permutation_app_comm.
  - rewrite lookup_app_l in Hi by lia. rewrite insert_app_l by lia.
    rewrite take_app_length' by (rewrite length_insert; lia).
    rewrite <-(take_drop_middle l i x Hi) at 1.
    rewrite insert_take_drop by lia. rewrite <-!app_assoc. cbn. 
    rewrite <-Permutation_middle. rewrite (Permutation_app_comm (drop (S i) l)). cbn.
    constructor. by rewrite <-Permutation_middle.
Qed.
Lemma fields_take_Ok {V} name (fs : list (list byte * V)) v fs' :
  fields_take name fs = Ok (v, fs') → fs ≡ₚ (name, v) :: fs'.
Proof.
  unfold fields_take. destruct (list_find _ fs) as [[i [k w]]|] eqn:Hf; [|done].
  intros [= <- <-]. apply list_find_Some in Hf as (Hi & Hk & _). cbn in Hk. subst k.
  by apply swap_remove_perm.
Qed.
Lemma take_bind {A B} name (dec : Value → result GraphCodecError A) fs
    (k : A → Fields → result GraphCodecError B) b :
  ('(a, fs) ← take_with name dec fs; k a fs) = Ok b →
  ∃ v a fs', fs ≡ₚ (name, v) :: fs' ∧ dec v = Ok a ∧ k a fs' = Ok b.
Proof.
  intros H. apply bind_Ok in H as ([a fs'] & Ht & Hk). unfold take_with in Ht.
  apply bind_Ok in Ht as ([v fs1] & Hf & Ht). apply bind_Ok in Ht as (a' & Hd & [= -> ->]).
  apply fields_take_Ok in Hf. eauto 6.
Qed.
Lemma any_bind {B} name fs (k : Value → Fields → result GraphCodecError B) b :
  ('(a, fs) ← take_any name fs; k a fs) = Ok b →
  ∃ v fs', fs ≡ₚ (name, v) :: fs' ∧ k v fs' = Ok b.
Proof.
  intros H. apply bind_Ok in H as ([a fs'] & Ht & Hk). apply fields_take_Ok in Ht. eauto.
Qed.
Lemma finish_bind {B} (fs : Fields) (r : result GraphCodecError B) b :
  (fields_finish fs;; r) = Ok b → fs = [] ∧ r = Ok b.
Proof. by destruct fs. Qed.
Lemma Fields_bind {B} v (k : Fields → result GraphCodecError B) b :
  (fs ← Fields_new v; k fs) = Ok b → ∃ es, v = VMap es ∧ k es = Ok b.
Proof. destruct v; try done. eauto. Qed.
(** The branch on a [kind] string ends with [finish] in every arm. *)
Lemma arm_bind {A B} (r : result GraphCodecError (A * Fields))
    (k : A → Fields → result GraphCodecError B) b :
  ('(a, fs) ← r; k a fs) = Ok b → ∃ a fs, r = Ok (a, fs) ∧ k a fs = Ok b.
Proof. intros H. apply bind_Ok in H as ([a fs] & ? & ?). eauto. Qed.

(** ** Leaf decoders *)
Lemma take_text_Ok v s : take_text v = Ok s ↔ v = VString s.
Proof. destruct v; simpl; naive_solver. Qed.
Lemma take_bounded_text_Ok v s : take_bounded_text v = Ok s ↔ v = VString s.
Proof. destruct v; simpl; naive_solver. Qed.
Lemma expect_text_Ok v s u : expect_text v s = Ok u ↔ v = VString s.
Proof.
  unfold expect_text. rewrite bind_Ok. setoid_rewrite take_text_Ok. split.
  - intros (s' & -> & H). by case_decide; simplify_eq.
  - intros ->. exists s. rewrite decide_True by done. by destruct u.
Qed.
Lemma take_record_Ok v r : take_record v = Ok r ↔ v = VRecordRef r.
Proof. destruct v; simpl; naive_solver. Qed.
Lemma take_instant_Ok v i : take_instant v = Ok i ↔ v = VInstant i.
Proof. destruct v; simpl; naive_solver. Qed.
Lemma take_list_Ok v l : take_list v = Ok l ↔ v = VList l.
Proof. destruct v; simpl; naive_solver. Qed.
Lemma take_u64_Ok v n : take_u64 v = Ok n ↔ v = VUnsigned n ∧ n ≤ U64_MAX.
Proof.
  destruct v; simpl; try naive_solver. destruct (Z.leb_spec n0 U64_MAX); split.
  - intros [= <-]. done.
  - by intros [[= ->] _].
  - done.
  - intros [[= ->] ?]. lia.
Qed.
Lemma take_u32_Ok v n : take_u32 v = Ok n ↔ v = VUnsigned n ∧ n ≤ U32_MAX.
Proof.
  destruct v; simpl; try naive_solver. destruct (Z.leb_spec n0 U32_MAX); split.
  - intros [= <-]. done.
  - by intros [[= ->] _].
  - done.
  - intros [[= ->] ?]. lia.
Qed.
Lemma nonzero_bind {E} v n (new : Z → result E Z) (e : E → GraphCodecError) :
  (∀ z, is_ok (new z) = negb (z =? 0)) → (∀ z z', new z = Ok z' → z' = z) →
  (m ← take_u64 v; map_err e (new m)) = Ok n ↔ v = VUnsigned n ∧ n ≠ 0 ∧ n ≤ U64_MAX.
Proof.
  intros Hok Hid. rewrite bind_Ok. setoid_rewrite take_u64_Ok. setoid_rewrite map_err_Ok. split.
  - intros (m & [-> Hm] & Hn). pose proof (Hid _ _ Hn) as ->. specialize (Hok m).
    rewrite Hn in Hok. simpl in Hok. split; [done|]. lia.
  - intros (-> & Hz & Hm). exists n. split; [done|]. specialize (Hok n).
    destruct (new n) as [n'|] eqn:Hn; simpl in Hok; [by rewrite (Hid _ _ Hn)|lia].
Qed.
Lemma take_revision_Ok v n : take_revision v = Ok n ↔ v = VUnsigned n ∧ n ≠ 0 ∧ n ≤ U64_MAX.
Proof.
  apply nonzero_bind; intros z; unfold CommitRevision_new; destruct (z =? 0); naive_solver.
Qed.
Lemma take_record_version_Ok v n :
  take_record_version v = Ok n ↔ v = VUnsigned n ∧ n ≠ 0 ∧ n ≤ U64_MAX.
Proof.
  apply nonzero_bind; intros z; unfold RecordVersion_new; destruct (z =? 0); naive_solver.
Qed.
Lemma take_policy_version_Ok v n :
  take_policy_version v = Ok n ↔ v = VUnsigned n ∧ n ≠ 0 ∧ n ≤ U64_MAX.
Proof.
  apply nonzero_bind; intros z; unfold PolicyVersion_new; destruct (z =? 0); naive_solver.
Qed.
Lemma take_array_Ok n e v bs : take_array n e v = Ok bs ↔ v = VBytes bs ∧ zlen bs = n.
Proof.
  destruct v as [| | | |bytes| | | | |]; simpl; try naive_solver.
  destruct (Z.eqb_spec (zlen bytes) n); naive_solver.
Qed.

(** ** Map assembly *)
Lemma codec_map_perm es L :
  value_valid (VMap es) → es ≡ₚ L → schema_ok L.*1 = true → codec_map L = Ok (VMap es).
Proof.
  intros Hv Hp Hs. pose proof Hs as [[Hs'%bool_decide_eq_true _]%andb_true_iff _]%andb_true_iff.
  pose proof (value_valid_map _ Hv) as [Hsort Hent].
  assert (es = L) as -> by by apply sorted_entries_unique.
  apply codec_map_Ok; [done| |done]. rewrite Forall_fmap.
  apply (Forall_impl _ _ _ Hent). by intros ? [].
Qed.
Lemma entries_valid es L :
  value_valid (VMap es) → es ≡ₚ L → Forall value_valid L.*2.
Proof.
  intros [_ Hent]%value_valid_map Hp. rewrite <-Hp, Forall_fmap.
  apply (Forall_impl _ _ _ Hent). by intros ? [].
Qed.

(** Solve a permutation of two literal entry lists. *)
Lemma perm_extract {A} (x : A) l r1 r2 : l ≡ₚ r1 ++ r2 → x :: l ≡ₚ r1 ++ x :: r2.
Proof. intros ->. by rewrite Permutation_middle. Qed.
Ltac perm_split x r acc k :=
  lazymatch r with
  | x :: ?r2 => k acc r2
  | ?y :: ?r2 => let acc' := eval cbn [app] in (acc ++ [y]) in perm_split x r2 acc' k
  end.
Ltac solve_perm :=
  repeat lazymatch goal with
  | |- [] ≡ₚ [] => reflexivity
  | |- (?x :: ?l) ≡ₚ ?r =>
      let A := type of x in
      perm_split x r (@nil A) ltac:(fun r1 r2 => apply (perm_extract x l r1 r2); cbn [app])
  end.

(** ** Proof automation

    Backward: peel the reads of a decoder into facts on the field list. *)
Ltac inv_fields H :=
  repeat first
    [ apply Fields_bind in H; let es := fresh "es" in destruct H as (es & ? & H); subst
    | apply take_bind in H;
      let v := fresh "v" in let a := fresh "a" in let fs := fresh "fs" in
      let Hp := fresh "Hp" in let Hd := fresh "Hd" in
      destruct H as (v & a & fs & Hp & Hd & H)
    | apply any_bind in H;
      let v := fresh "v" in let fs := fresh "fs" in let Hp := fresh "Hp" in
      destruct H as (v & fs & Hp & H)
    | apply finish_bind in H; destruct H as [? H]; subst ].
Ltac chain_perm :=
  repeat match goal with
  | H1 : ?es ≡ₚ _ :: ?fs, H2 : ?fs ≡ₚ _ |- _ => rewrite H2 in H1; clear H2
  end.
Ltac inv_leaves :=
  repeat match goal with
  | H : take_text _ = Ok _ |- _ => apply take_text_Ok in H; subst
  | H : take_bounded_text _ = Ok _ |- _ => apply take_bounded_text_Ok in H; subst
  | H : expect_text _ _ = Ok _ |- _ => apply expect_text_Ok in H; subst
  | H : take_record _ = Ok _ |- _ => apply take_record_Ok in H; subst
  | H : take_instant _ = Ok _ |- _ => apply take_instant_Ok in H; subst
  | H : take_list _ = Ok _ |- _ => apply take_list_Ok in H; subst
  | H : take_u64 _ = Ok _ |- _ => apply take_u64_Ok in H; destruct H as [? ?]; subst
  | H : take_u32 _ = Ok _ |- _ => apply take_u32_Ok in H; destruct H as [? ?]; subst
  | H : take_revision _ = Ok _ |- _ => apply take_revision_Ok in H; destruct H as (? & ? & ?); subst
  | H : take_record_version _ = Ok _ |- _ =>
      apply take_record_version_Ok in H; destruct H as (? & ? & ?); subst
  | H : take_policy_version _ = Ok _ |- _ =>
      apply take_policy_version_Ok in H; destruct H as (? & ? & ?); subst
  | H : take_identity _ = Ok _ |- _ => apply take_array_Ok in H; destruct H as [? ?]; subst
  | H : take_digest _ = Ok _ |- _ => apply take_array_Ok in H; destruct H as [? ?]; subst
  | H : take_principal _ = Ok _ |- _ => apply take_array_Ok in H; destruct H as [? ?]; subst
  end.
Ltac split_valid :=
  repeat match goal with
  | H : Forall value_valid (_ :: _) |- _ =>
      let H1 := fresh "Hval" in apply Forall_cons in H; destruct H as [H1 H]
  | H : Forall value_valid [] |- _ => clear H
  end.
(** The children of the decoded map are valid. *)
Ltac children_valid :=
  match goal with
  | Hv : value_valid (VMap ?es), Hp : ?es ≡ₚ _ |- _ =>
      let Hall := fresh "Hall" in
      pose proof (entries_valid _ _ Hv Hp) as Hall; cbn [fmap list_fmap snd] in Hall; split_valid
  end.
Ltac close_map :=
  match goal with
  | Hv : value_valid (VMap ?es), Hp : ?es ≡ₚ _ |- codec_map _ = Ok (VMap ?es) =>
      apply (codec_map_perm _ _ Hv); [rewrite Hp; solve_perm|vm_compute; reflexivity]
  end.

Lemma valid_unsigned n : value_valid (VUnsigned n) ↔ 0 ≤ n ≤ U128_MAX.
Proof.
  unfold value_valid, MAX_NESTING_DEPTH, MAX_VALUE_NODES. simpl. lia.
Qed.
Lemma valid_ref r : value_valid (VRecordRef r) ↔ ref_ok r.
Proof.
  unfold value_valid, MAX_NESTING_DEPTH, MAX_VALUE_NODES. simpl.
  rewrite bool_decide_eq_true. naive_solver lia.
Qed.
Lemma valid_instant i : value_valid (VInstant i) ↔ instant_ok i.
Proof.
  unfold value_valid, MAX_NESTING_DEPTH, MAX_VALUE_NODES. simpl.
  rewrite bool_decide_eq_true. naive_solver lia.
Qed.
Lemma valid_string s : value_valid (VString s) ↔ str_okb s = true.
Proof.
  unfold value_valid, MAX_NESTING_DEPTH, MAX_VALUE_NODES. simpl. naive_solver lia.
Qed.
Lemma valid_bytes s : value_valid (VBytes s) ↔ inline_okb s = true.
Proof.
  unfold value_valid, MAX_NESTING_DEPTH, MAX_VALUE_NODES. simpl. naive_solver lia.
Qed.

(** Forward: peel an encoder, then run the decoder on the literal fields. *)
Lemma take_with_eval {A} name (dec : Value → result GraphCodecError A) fs v fs' :
  fields_take name fs = Ok (v, fs') → take_with name dec fs = (a ← dec v; Ok (a, fs')).
Proof. unfold take_with. by intros ->. Qed.
Ltac step_bind := rewrite ?result_bind_Ok; cbv beta iota.
Ltac run_take :=
  match goal with
  | |- context [take_with ?n ?dec ?fs] =>
      let r := eval vm_compute in (fields_take n fs) in
      lazymatch r with
      | Ok (?v, ?fs') =>
          rewrite (take_with_eval n dec fs v fs') by (vm_compute; reflexivity)
      end
  | |- context [take_any ?n ?fs] =>
      let r := eval vm_compute in (fields_take n fs) in change (take_any n fs) with r
  end.
Ltac run_leaf :=
  match goal with
  | |- context [take_text (VString ?s)] =>
      change (take_text (VString s)) with (Ok (E:=GraphCodecError) s)
  | |- context [take_bounded_text (VString ?s)] =>
      change (take_bounded_text (VString s)) with (Ok (E:=GraphCodecError) s)
  | |- context [take_record (VRecordRef ?s)] =>
      change (take_record (VRecordRef s)) with (Ok (E:=GraphCodecError) s)
  | |- context [take_instant (VInstant ?s)] =>
      change (take_instant (VInstant s)) with (Ok (E:=GraphCodecError) s)
  | |- context [take_list (VList ?s)] =>
      change (take_list (VList s)) with (Ok (E:=GraphCodecError) s)
  | |- context [take_u64 (VUnsigned ?n)] =>
      rewrite (proj2 (take_u64_Ok (VUnsigned n) n)) by (split; [done|lia])
  | |- context [take_u32 (VUnsigned ?n)] =>
      rewrite (proj2 (take_u32_Ok (VUnsigned n) n)) by (split; [done|lia])
  | |- context [take_revision (VUnsigned ?n)] =>
      rewrite (proj2 (take_revision_Ok (VUnsigned n) n)) by (split; [done|lia])
  | |- context [take_record_version (VUnsigned ?n)] =>
      rewrite (proj2 (take_record_version_Ok (VUnsigned n) n)) by (split; [done|lia])
  | |- context [take_policy_version (VUnsigned ?n)] =>
      rewrite (proj2 (take_policy_version_Ok (VUnsigned n) n)) by (split; [done|lia])
  | |- context [take_array ?k ?e (VBytes ?n)] =>
      rewrite (proj2 (take_array_Ok k e (VBytes n) n)) by (split; [done|lia])
  | |- context [take_identity (VBytes ?n)] =>
      change (take_identity (VBytes n)) with (take_array 16 InvalidIdentity (VBytes n))
  | |- context [take_digest (VBytes ?n)] =>
      change (take_digest (VBytes n)) with (take_array 32 InvalidDigest (VBytes n))
  | |- context [take_principal (VBytes ?n)] =>
      change (take_principal (VBytes n)) with
        (take_array 32 GraphCodecError.InvalidPolicy (VBytes n))
  | |- context [expect_text (VString ?s) ?t] =>
      rewrite (proj2 (expect_text_Ok (VString s) t tt)) by (vm_compute; reflexivity)
  | H : ?dec ?v = Ok _ |- context [?dec ?v] => rewrite H
  end.
Ltac run_decide :=
  match goal with
  | |- context [decide (?a = ?b)] =>
      let r := eval vm_compute in (bool_decide (a = b)) in
      lazymatch r with
      | true => rewrite (decide_True (P := a = b)) by (vm_compute; reflexivity)
      | false => rewrite (decide_False (P := a = b)) by (vm_compute; discriminate)
      end
  end.
Ltac run_dec :=
  cbn [Fields_new]; step_bind;
  repeat (first [run_decide | run_take; first [run_leaf|idtac] | run_leaf]; step_bind).
Ltac inv_enc H :=
  repeat match type of H with
  | mbind _ _ = Ok _ =>
      let v := fresh "v" in let Hx := fresh "Hx" in
      apply bind_Ok in H; destruct H as (v & Hx & H)
  end;
  repeat match goal with
  | Hx : text _ = Ok _ |- _ => apply text_Ok in Hx; destruct Hx as [? _]; subst
  | Hx : codec_bytes _ = Ok _ |- _ => apply codec_bytes_Ok in Hx; destruct Hx as [? ?]; subst
  end.
(** Validity of the children of an encoded map. *)
Ltac leaf_valid :=
  first [ done | eassumption
        | apply valid_unsigned; unfold U128_MAX, U64_MAX, U32_MAX in *; lia
        | apply valid_ref; done | apply valid_instant; done | apply valid_bytes; done
        | apply valid_string; first [done|vm_compute; reflexivity] ].
Ltac open_enc H :=
  apply codec_map_Ok in H;
    [ let Hv := fresh "Hv" in destruct H as [-> Hv]
    | vm_compute; reflexivity
    | cbn [fmap list_fmap snd]; repeat (apply Forall_cons; split); [..|by apply Forall_nil];
      try leaf_valid ].
Ltac close_enc H :=
  open_enc H; [split; [assumption|]|..].

(** Run an encoder whose children are known. *)
Ltac run_enc :=
  repeat (first
    [ match goal with
      | |- context [text ?s] =>
          rewrite (proj2 (text_Ok s (VString s))) by (split; [done|vm_compute; reflexivity])
      | |- context [codec_bytes ?b] =>
          rewrite (proj2 (codec_bytes_Ok b (VBytes b))) by (split; [done|apply (proj1 (valid_bytes b)); assumption])
      | H : ?enc ?a = Ok _ |- context [?enc ?a] => rewrite H
      end ]; step_bind).

#[local] Arguments codec_map : simpl never.
#[local] Arguments codec_list : simpl never.
#[local] Arguments codec_bytes : simpl never.
#[local] Arguments text : simpl never.
#[local] Arguments lit : simpl never.
#[local] Arguments fields_take : simpl never.
#[local] Arguments take_with : simpl never.

(** ** Scopes *)
Lemma bytes_zlen (bs : list byte) n : length bs = n → zlen bs = Z.of_nat n.
Proof. unfold zlen. lia. Qed.
Lemma encode_scope_exact : vexact encode_scope decode_scope scope_ok.
Proof.
  split.
  - intros [[d] [n]] v [Hd Hn] He. unfold encode_scope in He. unfold identity_ok in *. cbn in *.
    apply bytes_zlen in Hd, Hn. inv_enc He. close_enc He. unfold decode_scope.
    run_dec. done.
  - intros a v Hv Hdec. unfold decode_scope in Hdec. inv_fields Hdec. chain_perm. inv_leaves.
    injection Hdec as <-. children_valid.
    split; [split; unfold identity_ok, zlen in *; cbn; lia|].
    unfold encode_scope. cbn. run_enc. close_map.
Qed.

(** ** Reference lists *)
Lemma try_map_records l : try_map take_record (map VRecordRef l) = Ok l.
Proof. induction l as [|r l IH]; [done|]. cbn. by rewrite IH. Qed.
Lemma try_map_records_inv vs l : try_map take_record vs = Ok l → vs = map VRecordRef l.
Proof.
  revert l. induction vs as [|v vs IH]; intros l H; cbn in H; [by injection H as <-|].
  apply bind_Ok in H as (r & ->%take_record_Ok & H). apply bind_Ok in H as (l' & Hl & [= <-]).
  by rewrite (IH l').
Qed.
Lemma valid_refs l : Forall value_valid (map VRecordRef l) ↔ Forall ref_ok l.
Proof.
  induction l as [|r l IH]; cbn; [by split; constructor|].
  by rewrite !Forall_cons, IH, valid_ref.
Qed.
Lemma encode_refs_exact : vexact encode_refs decode_refs (Forall ref_ok).
Proof.
  split.
  - intros l v Hl He. apply codec_list_Ok in He as [-> Hv]; [|by apply valid_refs].
    split; [done|]. apply try_map_records.
  - intros l v Hv Hd. unfold decode_refs in Hd.
    apply bind_Ok in Hd as (vs & ->%take_list_Ok & Hd%try_map_records_inv). subst vs.
    pose proof (value_valid_list _ Hv) as Hc. split; [by apply valid_refs|].
    by apply codec_list_Ok.
Qed.

(** ** Valid time *)
Definition bound_ok (b : IntervalBound) : Prop :=
  match b with Unbounded => True | Bounded i => instant_ok i end.
Definition valid_time_ok (t : ValidTime) : Prop :=
  match t with Unknown => True | HalfOpen s e => bound_ok s ∧ bound_ok e end.
(** Branch on the decoded [kind]. *)
Ltac inv_arm H :=
  apply arm_bind in H; let a := fresh "a" in let fs := fresh "fs" in let Ha := fresh "Ha" in
  destruct H as (a & fs & Ha & H); apply finish_bind in H; destruct H as [? H];
  injection H as H; subst;
  repeat (case_decide; [subst|]); [..|done]; inv_fields Ha; injection Ha as ? ?; subst;
  chain_perm; inv_leaves; children_valid.

(** The final goal of a backward case: the result is well-formed and encodes to
    the map it was read from. *)
Ltac leaf_ok :=
  repeat match goal with
  | H : value_valid (VUnsigned _) |- _ => apply valid_unsigned in H
  | H : value_valid (VRecordRef _) |- _ => apply valid_ref in H
  | H : value_valid (VInstant _) |- _ => apply valid_instant in H
  | H : value_valid (VString _) |- _ => apply valid_string in H
  end.

(** Use the exactness of a nested codec on every hypothesis that runs it. *)
Ltac use_bwd E :=
  lazymatch type of E with
  | vexact _ ?dec _ =>
      repeat match goal with
      | H : dec ?v = Ok _ |- _ => apply (proj2 E) in H; [destruct H as [? ?]|assumption]
      end
  end.
Ltac use_fwd E :=
  lazymatch type of E with
  | vexact ?enc _ _ =>
      repeat match goal with
      | H : enc _ = Ok _ |- _ => apply (proj1 E) in H; [destruct H as [? ?]|assumption]
      end
  end.

Lemma encode_bound_exact : vexact encode_bound decode_bound bound_ok.
Proof.
  split.
  - intros [|i] v Hok He; cbn [encode_bound] in He; inv_enc He; close_enc He;
      unfold decode_bound; run_dec; done.
  - intros b v Hv Hd. unfold decode_bound in Hd. inv_fields Hd. inv_arm Hd.
    all: leaf_ok; split; [done|]; cbn [encode_bound]; run_enc; close_map.
Qed.
Lemma encode_valid_time_exact : vexact encode_valid_time decode_valid_time valid_time_ok.
Proof.
  split.
  - intros [|s e] v Hok He; cbn [encode_valid_time] in He; inv_enc He.
    + close_enc He. unfold decode_valid_time. run_dec. done.
    + destruct Hok as [Hs He']. use_fwd encode_bound_exact. close_enc He. unfold decode_valid_time. run_dec. done.
  - intros t v Hv Hd. unfold decode_valid_time in Hd. inv_fields Hd. inv_arm Hd.
    + split; [done|]. cbn [encode_valid_time]. run_enc. close_map.
    + use_bwd encode_bound_exact. split; [done|]. cbn [encode_valid_time]. run_enc. close_map.
Qed.

(** ** Preconditions *)
Definition predicate_ok (p : Predicate) : Prop :=
  match p with
  | RecordAbsent r | RecordVisible r => ref_ok r
  | PRecordVersion r v => ref_ok r ∧ nonzero_u64 v
  end.
Definition expected_ok (e : Expected) : Prop :=
  match e with
  | Absent => True
  | EVersion v => nonzero_u64 v
  | ReadView r p => nonzero_u64 r ∧ predicate_ok p
  end.
Definition delete_policy_ok (p : DeletePolicy) : Prop :=
  match p with DeleteReject => True | CascadeAndRetract n => 0 ≤ n ≤ U32_MAX end.

Lemma encode_delete_policy_exact :
  vexact encode_delete_policy decode_delete_policy delete_policy_ok.
Proof.
  split.
  - intros [|k] v Hok He; cbn [encode_delete_policy delete_policy_ok] in *; inv_enc He;
      close_enc He; unfold decode_delete_policy; run_dec; done.
  - intros b v Hv Hd. unfold decode_delete_policy in Hd. inv_fields Hd. inv_arm Hd.
    all: leaf_ok; split; [cbn; lia || done|]; cbn [encode_delete_policy]; run_enc; close_map.
Qed.
Lemma encode_predicate_exact : vexact encode_predicate decode_predicate predicate_ok.
Proof.
  split.
  - intros [r|r|r k] v Hok He; cbn [encode_predicate predicate_ok] in *; inv_enc He;
      unfold nonzero_u64 in *; try destruct Hok as [Hr Hk]; close_enc He;
      unfold decode_predicate; run_dec; done.
  - intros b v Hv Hd. unfold decode_predicate in Hd. inv_fields Hd. inv_arm Hd.
    all: leaf_ok; split; [unfold predicate_ok, nonzero_u64; split_and?; done || lia|];
      cbn [encode_predicate]; run_enc; close_map.
Qed.
Lemma encode_expected_exact : vexact encode_expected decode_expected expected_ok.
Proof.
  split.
  - intros [|k|r p] v Hok He; cbn [encode_expected expected_ok] in *; inv_enc He;
      unfold nonzero_u64 in *.
    + close_enc He. unfold decode_expected. run_dec. done.
    + close_enc He. unfold decode_expected. run_dec. done.
    + destruct Hok as [Hr Hp]. use_fwd encode_predicate_exact. close_enc He.
      unfold decode_expected. run_dec. done.
  - intros e v Hv Hd. unfold decode_expected in Hd. inv_fields Hd. inv_arm Hd.
    1-2: leaf_ok; split; [unfold expected_ok, nonzero_u64; lia || done|];
      cbn [encode_expected]; run_enc; close_map.
    use_bwd encode_predicate_exact. leaf_ok.
    split; [split; [unfold nonzero_u64; lia|done]|]. cbn [encode_expected]. run_enc. close_map.
Qed.

(** ** New records *)
Definition new_assertion_ok (a : NewAssertion) : Prop :=
  ref_ok (na_id a) ∧ ref_ok (na_subject a) ∧ str_okb (na_predicate a) = true ∧
  value_valid (na_object a) ∧ Forall ref_ok (na_evidence a) ∧ valid_time_ok (na_valid_time a).
Definition new_relationship_ok (r : NewRelationship) : Prop :=
  ref_ok (nr_id r) ∧ ref_ok (nr_from r) ∧ ref_ok (nr_to r) ∧
  str_okb (nr_relationship_type r) = true ∧ value_valid (nr_properties r) ∧
  Forall ref_ok (nr_evidence r) ∧ valid_time_ok (nr_valid_time r).
Definition new_record_ok (n : NewRecord) : Prop :=
  match n with
  | NEntity e => ref_ok (ne_id e) ∧ str_okb (ne_entity_type e) = true ∧
      0 ≤ ne_schema_version e ≤ U64_MAX ∧ value_valid (ne_properties e)
  | NEvidence e => ref_ok (nev_id e) ∧ zlen (nev_digest e) = 32 ∧ str_okb (nev_locator e) = true
  | NAssertion a => new_assertion_ok a
  | NRelationship r => new_relationship_ok r
  end.

Lemma encode_assertion_exact : vexact encode_assertion decode_assertion new_assertion_ok.
Proof.
  split.
  - intros [id subject predicate object evidence t] v (?&?&?&?&?&?) He. cbn in *.
    unfold encode_assertion in He. cbn in He. inv_enc He.
    use_fwd encode_refs_exact. use_fwd encode_valid_time_exact. close_enc He.
    unfold decode_assertion, decode_assertion_fields. run_dec. done.
  - intros a v Hv Hd. unfold decode_assertion, decode_assertion_fields in Hd. inv_fields Hd.
    apply bind_Ok in Hd as ([] & Hk & Hd). inv_fields Hd. injection Hd as <-. chain_perm.
    inv_leaves. children_valid. use_bwd encode_refs_exact. use_bwd encode_valid_time_exact.
    leaf_ok. split; [by split_and!|]. unfold encode_assertion. cbn. run_enc. close_map.
Qed.
Lemma encode_relationship_exact :
  vexact encode_relationship decode_relationship new_relationship_ok.
Proof.
  split.
  - intros [id from to ty properties evidence t] v (?&?&?&?&?&?&?) He. cbn in *.
    unfold encode_relationship in He. cbn in He. inv_enc He.
    use_fwd encode_refs_exact. use_fwd encode_valid_time_exact. close_enc He.
    unfold decode_relationship, decode_relationship_fields. run_dec. done.
  - intros a v Hv Hd. unfold decode_relationship, decode_relationship_fields in Hd. inv_fields Hd.
    apply bind_Ok in Hd as ([] & Hk & Hd). inv_fields Hd. injection Hd as <-. chain_perm.
    inv_leaves. children_valid. use_bwd encode_refs_exact. use_bwd encode_valid_time_exact.
    leaf_ok. split; [by split_and!|]. unfold encode_relationship. cbn. run_enc. close_map.
Qed.

(** [decode_new_record] reads the kind first and then behaves as the decoder of
    that kind. *)
Lemma decode_new_assertion v a :
  decode_assertion v = Ok a → decode_new_record v = Ok (NAssertion a).
Proof.
  unfold decode_assertion, decode_new_record. destruct v; try done. cbn [Fields_new].
  rewrite !result_bind_Ok. unfold take_any, take_with.
  destruct (fields_take (lit "kind") entries) as [[k fs]|]; [|done]. rewrite !result_bind_Ok.
  intros ([] & ->%expect_text_Ok & Hd)%bind_Ok. run_dec. done.
Qed.
Lemma decode_new_relationship v a :
  decode_relationship v = Ok a → decode_new_record v = Ok (NRelationship a).
Proof.
  unfold decode_relationship, decode_new_record. destruct v; try done. cbn [Fields_new].
  rewrite !result_bind_Ok. unfold take_any, take_with.
  destruct (fields_take (lit "kind") entries) as [[k fs]|]; [|done]. rewrite !result_bind_Ok.
  intros ([] & ->%expect_text_Ok & Hd)%bind_Ok. run_dec. done.
Qed.
Lemma encode_new_record_exact : vexact encode_new_record decode_new_record new_record_ok.
Proof.
  split.
  - intros [[id ty sv props]|[id dig loc]|a|r] v Hok He; cbn [encode_new_record new_record_ok] in *;
      cbn in Hok, He.
    + destruct Hok as (?&?&?&?). inv_enc He. close_enc He. unfold decode_new_record. run_dec. done.
    + destruct Hok as (?&?&?). inv_enc He. close_enc He. unfold decode_new_record. run_dec. done.
    + use_fwd encode_assertion_exact. split; [done|]. by apply decode_new_assertion.
    + use_fwd encode_relationship_exact. split; [done|]. by apply decode_new_relationship.
  - intros n v Hv Hd. unfold decode_new_record, decode_assertion_fields,
      decode_relationship_fields in Hd. inv_fields Hd.
    repeat (case_decide; [subst|]); [..|done].
    3-4: apply fmap_Ok in Hd as (x & Hd & ->).
    all: inv_fields Hd; injection Hd as <-; chain_perm; inv_leaves; children_valid;
      use_bwd encode_refs_exact; use_bwd encode_valid_time_exact; leaf_ok;
      (split; [unfold new_record_ok, new_assertion_ok, new_relationship_ok; cbn;
               split_and!; done || lia|]);
      unfold encode_new_record, encode_assertion, encode_relationship; cbn; run_enc; close_map.
Qed.

(** ** Optional values *)
Lemma codec_map_not_null es v : codec_map es = Ok v → v ≠ VNull.
Proof.
  unfold codec_map. intros (es' & _ & H)%bind_Ok. unfold resource_limit in H.
  by apply map_err_Ok, fmap_Ok in H as (? & _ & ->).
Qed.
Definition opt_ok {A} (ok : A → Prop) (o : option A) : Prop :=
  match o with Some a => ok a | None => True end.
Lemma valid_null : value_valid VNull.
Proof. by vm_compute. Qed.
Lemma optional_exact {A} (enc : A → result GraphCodecError Value) dec ok :
  vexact enc dec ok → (∀ a v, enc a = Ok v → v ≠ VNull) →
  vexact (encode_optional enc) (decode_optional dec) (opt_ok ok).
Proof.
  intros [Hf Hb] Hn. split.
  - intros [a|] v Hok He; cbn in *.
    + pose proof (Hn _ _ He). apply Hf in He as [Hv Hd]; [|done]. split; [done|].
      unfold decode_optional. rewrite decide_False by done. by rewrite Hd.
    + injection He as <-. split; [apply valid_null|done].
  - intros o v Hv Hd. unfold decode_optional in Hd. case_decide.
    + injection Hd as <-. by subst.
    + apply fmap_Ok in Hd as (a & Ha & ->). by apply Hb in Ha.
Qed.
Lemma encode_assertion_not_null a v : encode_assertion a = Ok v → v ≠ VNull.
Proof.
  unfold encode_assertion. intros H. inv_enc H. by apply codec_map_not_null in H.
Qed.
Lemma encode_relationship_not_null a v : encode_relationship a = Ok v → v ≠ VNull.
Proof.
  unfold encode_relationship. intros H. inv_enc H. by apply codec_map_not_null in H.
Qed.
Lemma encode_expected_not_null a v : encode_expected a = Ok v → v ≠ VNull.
Proof.
  destruct a; cbn [encode_expected]; intros H; inv_enc H; by apply codec_map_not_null in H.
Qed.

(** ** Actions and statuses *)
Lemma decode_action_name action :
  decode_action (VString (action_name action)) = Ok action.
Proof. destruct action; vm_compute; reflexivity. Qed.
Lemma decode_action_Ok v action :
  decode_action v = Ok action ↔ v = VString (action_name action).
Proof.
  split; [|intros ->; apply decode_action_name].
  unfold decode_action. intros (s & ->%take_text_Ok & H)%bind_Ok.
  repeat case_decide; simplify_eq; done.
Qed.
Lemma assertion_status_Ok s status :
  assertion_status s = Ok status ↔ s = assertion_status_name status.
Proof.
  split.
  - unfold assertion_status. intros H. repeat case_decide; simplify_eq; done.
  - intros ->. by destruct status; vm_compute.
Qed.
Lemma lifecycle_Ok s l : lifecycle_of_name s = Ok l ↔ s = lifecycle_name l.
Proof.
  split.
  - unfold lifecycle_of_name. intros H. repeat case_decide; simplify_eq; done.
  - intros ->. by destruct l; vm_compute.
Qed.
