(* ===== verification/GraphCodecExact.v ===== *)
(** * Exactness of the graph codec

    First the policies, then operations, transactions and records.

    Record rules travel as packed 24-byte entries in full chunks; grants and
    rules must arrive in strictly increasing order.  Decoding therefore rebuilds
    exactly the maps whose ordered entries were encoded. *)
From S2P Require Import Prelude Ids Value Codec CodecFacts CodecFrame Policy PolicyFacts GraphRecord GraphCodec GraphCodecFacts.
Import GraphCodecError.

#[local] Arguments codec_map : simpl never.
#[local] Arguments codec_list : simpl never.
#[local] Arguments codec_bytes : simpl never.
#[local] Arguments text : simpl never.
#[local] Arguments lit : simpl never.
#[local] Arguments fields_take : simpl never.
#[local] Arguments take_with : simpl never.

(** ** Folds that build a sorted map

    A decoder that accepts entries above the last key only, and appends each to
    the map of its state, accepts exactly the encodings of the new entries. *)
Lemma map_len_entries {K V} `{Countable K, Lexico K, !TrichotomyT (@lexico K _),
    !StrictOrder (@lexico K _)} (m : gmap K V) : map_len m = zlen (btree_entries m).
Proof. unfold map_len, zlen. by rewrite length_btree_entries. Qed.
Lemma sorted_app_cons {K} (R : relation K) l x k :
  StronglySorted R (l ++ x :: k) ↔
  StronglySorted R ((l ++ [x]) ++ k) ∧ Forall (λ y, R y x) l.
Proof.
  rewrite <-app_assoc. cbn [app]. split; [|tauto]. intros H. split; [done|].
  induction l as [|y l IH]; [constructor|]. cbn in H. apply StronglySorted_cons in H as [Hy H].
  apply Forall_app in Hy as [_ Hy]. constructor; [|by apply IH].
  by apply Forall_cons in Hy as [? _].
Qed.

Section sorted_fold.
Context `{Countable K, Lexico K, !TrichotomyT (@lexico K _), !StrictOrder (@lexico K _)}.
Context {V S A E : Type} (ents : S → gmap K V) (add : K * V → S → S) (bound : Z).
Context (shape : A → Prop) (encoded : K * V → A → Prop) (ok : S → K * V → Prop).
Context (step : option K * S → A → result E (option K * S)).
Definition last_key (s : S) : option K := last (btree_keys (ents s)).
Hypothesis ents_add : ∀ r s, ents (add r s) = <[r.1 := r.2]> (ents s).
Hypothesis ok_add : ∀ r r' s, ok (add r s) r' ↔ ok s r'.
Hypothesis step_Ok : ∀ s a st, shape a → step (last_key s, s) a = Ok st ↔
  ∃ r, encoded r a ∧ ok s r ∧ Forall (λ x, lexico x r.1) (btree_keys (ents s)) ∧
    map_len (ents s) < bound ∧ st = (Some r.1, add r s).

Definition add_all (rs : list (K * V)) (s : S) : S := foldl (λ s r, add r s) s rs.
Definition fits (rs : list (K * V)) (s : S) : Prop :=
  Forall (ok s) rs ∧ StronglySorted lexico (btree_keys (ents s) ++ rs.*1) ∧
  (rs = [] ∨ map_len (ents s) + zlen rs ≤ bound).
Lemma add_entries r s : Forall (λ x, lexico x r.1) (btree_keys (ents s)) →
  btree_entries (ents (add r s)) = btree_entries (ents s) ++ [r].
Proof. intros ?. rewrite ents_add, btree_entries_snoc by done. by destruct r. Qed.
Lemma last_key_add r s : Forall (λ x, lexico x r.1) (btree_keys (ents s)) →
  last_key (add r s) = Some r.1.
Proof.
  intros ?. unfold last_key, btree_keys. rewrite add_entries by done.
  rewrite fmap_app. apply last_snoc.
Qed.
Lemma fits_cons r rs s :
  fits (r :: rs) s ↔ ok s r ∧ Forall (λ x, lexico x r.1) (btree_keys (ents s)) ∧
    map_len (ents s) < bound ∧ fits rs (add r s).
Proof.
  unfold fits. rewrite fmap_cons, sorted_app_cons, Forall_cons, zlen_cons.
  pose proof (zlen_nonneg rs).
  assert (Forall (ok s) rs ↔ Forall (ok (add r s)) rs) as ->
    by (apply Forall_proper; [intros ?; by rewrite ok_add|done]).
  assert (Forall (λ x, lexico x r.1) (btree_keys (ents s)) →
    btree_keys (ents (add r s)) = btree_keys (ents s) ++ [r.1] ∧
    map_len (ents (add r s)) = map_len (ents s) + 1) as Hadd.
  { intros Hall. unfold btree_keys. rewrite !map_len_entries, add_entries by done.
    by rewrite fmap_app, zlen_app. }
  split.
  - intros ([Hr Hrs] & [Hs Hall] & [?|Hlen]); [done|]. destruct (Hadd Hall) as [-> ->].
    split_and!; [done|done|lia|done|done|]. right. lia.
  - intros (Hr & Hall & Hlt & Hrs & Hs & Hlen). destruct (Hadd Hall) as [Hk Hl].
    rewrite Hk in Hs. rewrite Hl in Hlen. split_and!; [done|done|done|done|]. right.
    destruct Hlen as [->|]; [rewrite zlen_nil|]; lia.
Qed.
Lemma sorted_fold_Ok l s st : Forall shape l →
  try_fold step l (last_key s, s) = Ok st ↔
  ∃ rs, Forall2 encoded rs l ∧ fits rs s ∧ st = (last_key (add_all rs s), add_all rs s).
Proof.
  intros Hl. revert s. induction Hl as [|a l Ha Hl IH]; intros s; cbn [try_fold].
  - split.
    + intros [= <-]. exists []. split_and!; [constructor| |done].
      split_and!; [constructor| |by left]. cbn. rewrite app_nil_r. apply btree_keys_sorted.
    + by intros (rs & ->%Forall2_nil_inv_r & _ & ->).
  - rewrite bind_Ok. setoid_rewrite step_Ok; [|done]. split.
    + intros (st' & (r & Hr & Hok & Hall & Hlt & ->) & Hf).
      rewrite <-(last_key_add r s Hall) in Hf. apply IH in Hf as (rs & Hrs & Hfit & ->).
      exists (r :: rs). split_and!; [by constructor| |done]. by apply fits_cons.
    + intros (rs & Hrs & Hfit & ->). apply Forall2_cons_inv_r in Hrs as (r & rs' & Hr & Hrs & ->).
      apply fits_cons in Hfit as (Hok & Hall & Hlt & Hfit). eexists. split; [by eauto 10|].
      rewrite <-(last_key_add r s Hall). apply IH. eauto.
Qed.
Lemma add_all_entries rs s : fits rs s →
  btree_entries (ents (add_all rs s)) = btree_entries (ents s) ++ rs.
Proof.
  revert s. induction rs as [|r rs IH]; intros s Hfit; [by rewrite app_nil_r|].
  apply fits_cons in Hfit as (_ & Hall & _ & Hfit). change (add_all (r :: rs) s) with
    (add_all rs (add r s)). rewrite IH, add_entries by done. by rewrite <-app_assoc.
Qed.
(** From an empty map. *)
Lemma fits_empty rs s : ents s = ∅ → 0 ≤ bound →
  fits rs s ↔ Forall (ok s) rs ∧ StronglySorted lexico rs.*1 ∧ zlen rs ≤ bound.
Proof.
  intros He Hb. unfold fits. rewrite map_len_entries. unfold btree_keys.
  rewrite He, btree_entries_empty. change (zlen []) with 0. cbn [fmap list_fmap app].
  assert (rs = [] ∨ 0 + zlen rs ≤ bound ↔ zlen rs ≤ bound) as ->; [|done].
  split; [intros [->|?]; [by rewrite zlen_nil|lia]|]. right. lia.
Qed.
End sorted_fold.

(** ** Packed rules *)
Definition permissions_ok (p : PermissionSet) : Prop :=
  0 ≤ bits p ≤ U64_MAX ∧ PermissionSet_from_bits (bits p) = Ok p.
Definition rule_ok (r : RecordId * RecordRule) : Prop :=
  identity_ok r.1 ∧ permissions_ok (deny r.2).
Definition rule_bytes (r : RecordId * RecordRule) : list byte :=
  as_bytes r.1 ++ be_bytes 8 (bits (deny r.2)).
Lemma length_rule_bytes r : rule_ok r → length (rule_bytes r) = 24%nat.
Proof.
  intros [Hid _]. unfold rule_bytes. rewrite length_app, length_be_bytes, Hid. done.
Qed.

Lemma from_bits_inv b p : PermissionSet_from_bits b = Ok p → p = mk_permissions b.
Proof. unfold PermissionSet_from_bits. destruct (_ =? 0); naive_solver. Qed.
Definition add_rule (r : RecordId * RecordRule) (g : NamespaceGrant) : NamespaceGrant :=
  mk_grant (permissions g) (grant_quotas g) (<[r.1 := r.2]> (record_rules g)).
Abbreviation last_rule := (last_key record_rules).

Lemma above_last {K V} `{Countable K, Lexico K, !TrichotomyT (@lexico K _),
    !StrictOrder (@lexico K _)} (m : gmap K V) k :
  match last (btree_keys m) with Some x => bool_decide (key_le k x) | None => false end = false ↔
  Forall (λ x, lexico x k) (btree_keys m).
Proof.
  rewrite <-(sorted_last_below lexico _ k (btree_keys_sorted m)).
  destruct (last (btree_keys m)) as [x|]; [|by split].
  rewrite bool_decide_eq_false. unfold key_le. split; [apply dec_stable|tauto].
Qed.
Lemma above_last_fresh {K V} `{Countable K, Lexico K, !TrichotomyT (@lexico K _),
    !StrictOrder (@lexico K _)} (m : gmap K V) k :
  Forall (λ x, lexico x k) (btree_keys m) → m !! k = None.
Proof.
  intros Hk. destruct (m !! k) as [v|] eqn:Hm; [|done]. exfalso.
  rewrite Forall_forall in Hk. apply (irreflexivity lexico k), Hk, elem_of_btree_keys. by eexists.
Qed.

Lemma rule_entry_step g entry st : length entry = 24%nat →
  decode_rule_entry (last_rule g, g) entry = Ok st ↔
  ∃ r, entry = rule_bytes r ∧ rule_ok r ∧
    Forall (λ x, lexico x r.1) (btree_keys (record_rules g)) ∧
    map_len (record_rules g) < MAX_RECORD_RULES_PER_GRANT ∧
    st = (Some r.1, add_rule r g).
Proof.
  intros Hlen. unfold decode_rule_entry, last_key. cbv zeta.
  assert (length (drop 16 entry) = 8%nat) as H8 by (rewrite length_drop; lia).
  pose proof (of_be_bytes_range (drop 16 entry)) as Hr. unfold zlen in Hr. rewrite H8 in Hr.
  change (256 ^ Z.of_nat 8) with (U64_MAX + 1) in Hr.
  assert (∀ r, rule_ok r → entry = rule_bytes r →
    take 16 entry = as_bytes r.1 ∧ of_be_bytes (drop 16 entry) = bits (deny r.2)) as Hparts.
  { intros r [Hid [Hb _]] ->. unfold rule_bytes. rewrite <-Hid, take_app_length, drop_app_length.
    split; [done|]. apply of_be_bytes_be. unfold U64_MAX in Hb. lia. }
  split.
  - intros H. destruct (match last _ with Some _ => _ | None => _ end) eqn:Hprev; [done|].
    apply above_last in Hprev. apply bind_Ok in H as (p & Hp%map_err_Ok & H).
    apply bind_Ok in H as (g' & Hg%map_err_Ok & [= <-]).
    pose proof (from_bits_inv _ _ Hp) as ->.
    exists (from_bytes (take 16 entry), mk_rule (mk_permissions (of_be_bytes (drop 16 entry)))).
    unfold deny_record in Hg. rewrite bool_decide_eq_false_2 in Hg.
    2:{ rewrite (above_last_fresh _ _ Hprev). by intros []. }
    cbn in Hg. destruct (Z.leb_spec MAX_RECORD_RULES_PER_GRANT (map_len (record_rules g))); [done|].
    injection Hg as <-. split_and!; [| |done|done|done].
    + unfold rule_bytes. cbn. rewrite <-(take_drop 16 entry) at 1. f_equal.
      pose proof (be_bytes_of_be (drop 16 entry)) as Hbe. by rewrite H8 in Hbe.
    + split; [|split; [cbn; lia|done]]. unfold identity_ok. cbn. rewrite length_take. lia.
  - intros (r & He & Hok & Hall & Hlt & ->). destruct (Hparts r Hok He) as [-> ->].
    destruct r as [[id] [p]]. destruct Hok as [Hid [Hb Hp]]. cbn in *.
    rewrite (proj2 (above_last _ _) Hall), Hp. cbn. unfold deny_record.
    rewrite bool_decide_eq_false_2.
    2:{ rewrite (above_last_fresh _ _ Hall). by intros []. }
    cbn. destruct (Z.leb_spec MAX_RECORD_RULES_PER_GRANT (map_len (record_rules g))); [lia|done].
Qed.

(** ** Folded rules *)
Abbreviation rules_fit := (fits record_rules MAX_RECORD_RULES_PER_GRANT (λ _, rule_ok)).
Abbreviation add_rules := (add_all add_rule).
Lemma rules_fold E g st : Forall (λ e, length e = 24%nat) E →
  try_fold decode_rule_entry E (last_rule g, g) = Ok st ↔
  ∃ rules, E = map rule_bytes rules ∧ rules_fit rules g ∧
    st = (last_rule (add_rules rules g), add_rules rules g).
Proof.
  intros HE. rewrite (sorted_fold_Ok record_rules add_rule MAX_RECORD_RULES_PER_GRANT
    (λ e, length e = 24%nat) (λ r e, e = rule_bytes r) (λ _, rule_ok)); [|done|done| |done].
  - apply exist_proper. intros rules. f_equiv. split.
    + induction 1 as [|r e rules E' -> _ IH]; [done|]. cbn. f_equal. apply IH.
      by apply Forall_cons in HE as [_ ?].
    + intros ->. clear. induction rules; by constructor.
  - intros s a st' Ha. by apply rule_entry_step.
Qed.
Lemma add_rules_entries rules g : rules_fit rules g →
  btree_entries (record_rules (add_rules rules g)) = btree_entries (record_rules g) ++ rules.
Proof. by apply add_all_entries. Qed.
Lemma add_rules_kept rules g :
  permissions (add_rules rules g) = permissions g ∧
  grant_quotas (add_rules rules g) = grant_quotas g.
Proof.
  revert g. induction rules as [|r rules IH]; intros g; [done|].
  apply (IH (add_rule r g)).
Qed.

(** ** Chunks *)
Fixpoint chunked (cs : list (list byte)) : Prop :=
  match cs with
  | [] => True
  | c :: rest =>
      c ≠ [] ∧ zlen c mod RECORD_RULE_ENTRY_BYTES = 0 ∧ zlen c ≤ RECORD_RULE_CHUNK_BYTES ∧
      (rest = [] ∨ zlen c = RECORD_RULE_CHUNK_BYTES) ∧ chunked rest
  end.
Lemma chunked_unique cs ds : chunked cs → chunked ds → concat cs = concat ds → cs = ds.
Proof.
  revert ds. induction cs as [|c cs IH]; intros [|d ds] Hc Hd Heq; cbn in *; [done| | |].
  - destruct Hd as [Hne _]. by destruct d.
  - destruct Hc as [Hne _]. by destruct c.
  - destruct Hc as (Hcn & Hcm & Hcl & Hcr & Hc), Hd as (Hdn & Hdm & Hdl & Hdr & Hd).
    assert (length c = length d) as Hlen.
    { apply (f_equal length) in Heq as Hl. rewrite !length_app in Hl. unfold zlen in *.
      assert (length c ≠ 0%nat) by (by destruct c). assert (length d ≠ 0%nat) by (by destruct d).
      destruct Hcr as [->|Hcr], Hdr as [->|Hdr]; cbn in Hl; lia. }
    apply app_inj_1 in Heq as [-> Heq]; [|done]. f_equal. by apply IH.
Qed.

Definition entries_of (cs : list (list byte)) : list (list byte) :=
  concat (map (chunks_exact (Z.to_nat RECORD_RULE_ENTRY_BYTES)) cs).
Lemma entries_of_chunked cs : chunked cs →
  concat (entries_of cs) = concat cs ∧ Forall (λ e, length e = 24%nat) (entries_of cs).
Proof.
  unfold entries_of. change (Z.to_nat RECORD_RULE_ENTRY_BYTES) with 24%nat.
  induction cs as [|c cs IH]; [by split; [|constructor]|]. cbn [chunked].
  intros (_ & Hm & _ & _ & Hcs). destruct (IH Hcs) as [IH1 IH2].
  destruct (chunks_exact_inv 24 c) as [H1 H2]; [lia| |].
  { unfold zlen, RECORD_RULE_ENTRY_BYTES in Hm. change 24 with (Z.of_nat 24) in Hm.
    rewrite <-Nat2Z.inj_mod in Hm. lia. }
  cbn [map concat]. rewrite concat_app, H1, IH1. split; [done|]. by apply Forall_app.
Qed.
Lemma entries_of_bytes cs rules : chunked cs →
  Forall rule_ok rules → concat cs = concat (map rule_bytes rules) →
  entries_of cs = map rule_bytes rules.
Proof.
  intros Hcs Hr Heq. destruct (entries_of_chunked cs Hcs) as [Hc Hall].
  assert (Forall (λ e, length e = 24%nat) (map rule_bytes rules)) as Hlen.
  { apply Forall_fmap. apply (Forall_impl _ _ _ Hr). intros r. apply length_rule_bytes. }
  rewrite <-(chunks_exact_concat 24 (entries_of cs)), Hc, Heq by (done || lia).
  apply chunks_exact_concat; [lia|done].
Qed.

Lemma chunk_bytes : RECORD_RULE_CHUNK_BYTES = 1048560.
Proof. done. Qed.
(** A chunk of a valid value is within the chunk size. *)
Lemma chunk_bound c : inline_okb c = true → zlen c mod RECORD_RULE_ENTRY_BYTES = 0 →
  zlen c ≤ RECORD_RULE_CHUNK_BYTES.
Proof.
  unfold inline_okb. rewrite Z.leb_le. intros Hc Hm.
  pose proof (Z.div_mod (zlen c) RECORD_RULE_ENTRY_BYTES ltac:(done)).
  rewrite chunk_bytes. unfold RECORD_RULE_ENTRY_BYTES, MAX_INLINE_BYTES in *. lia.
Qed.
Lemma decode_rule_chunks_Ok chunks st st' : Forall value_valid chunks →
  decode_rule_chunks chunks st = Ok st' ↔
  ∃ cs, chunks = map VBytes cs ∧ chunked cs ∧ try_fold decode_rule_entry (entries_of cs) st = Ok st'.
Proof.
  intros Hv. revert st. induction Hv as [|v chunks Hv Hvs IH]; intros st; cbn [decode_rule_chunks].
  { split; [intros [= <-]; by exists []|]. by intros ([] & ? & _ & H). }
  split.
  - destruct v as [| | | |c| | | | |]; try done. destruct (_ || _) eqn:Hg; [done|].
    apply orb_false_iff in Hg as [[Hn Hm]%orb_false_iff Hr].
    apply bool_decide_eq_false in Hn. apply negb_false_iff, Z.eqb_eq in Hm.
    rewrite bind_Ok. intros (s1 & H1 & H). apply IH in H as (cs & -> & Hcs & H).
    exists (c :: cs). split_and!; [done| |].
    + cbn [chunked]. split_and!; [done|done| | |done].
      * apply chunk_bound; [|done]. by apply (proj1 (valid_bytes c)).
      * destruct cs; [by left|right]. rewrite bool_decide_eq_false_2 in Hr by done. cbn in Hr.
        apply negb_false_iff in Hr. lia.
    + unfold entries_of in *. cbn [map concat]. by rewrite try_fold_app, H1.
  - intros ([|c cs] & [= -> ->] & (Hn & Hm & Hl & Hr & Hcs) & H).
    rewrite bool_decide_eq_false_2 by done. rewrite (proj2 (Z.eqb_eq _ _) Hm). cbn [negb orb].
    unfold entries_of in H. cbn [map concat] in H. rewrite try_fold_app in H.
    apply bind_Ok in H as (s1 & H1 & H).
    assert (negb (bool_decide (map VBytes cs = [])) && negb (zlen c =? RECORD_RULE_CHUNK_BYTES)
      = false) as ->.
    { destruct Hr as [->|Hr]; [done|]. rewrite (proj2 (Z.eqb_eq _ _) Hr). apply andb_false_r. }
    rewrite H1, result_bind_Ok. apply IH. by exists cs.
Qed.

(** ** The encoder's loop *)
Definition full_chunks (cs : list (list byte)) : Prop :=
  Forall (λ c, zlen c = RECORD_RULE_CHUNK_BYTES) cs.
Definition loop_inv (flat : list byte) (cs : list (list byte)) (bytes : list byte) : Prop :=
  full_chunks cs ∧ concat cs ++ bytes = flat ∧ zlen bytes ≤ RECORD_RULE_CHUNK_BYTES ∧
  zlen bytes mod RECORD_RULE_ENTRY_BYTES = 0 ∧ (bytes = [] → cs = []).
Lemma chunk_inline bytes : zlen bytes ≤ RECORD_RULE_CHUNK_BYTES → inline_okb bytes = true.
Proof.
  unfold inline_okb. rewrite Z.leb_le, chunk_bytes. unfold MAX_INLINE_BYTES. lia.
Qed.
Lemma push_rule_step flat cs bytes r : rule_ok r → loop_inv flat cs bytes →
  ∃ cs' bytes', push_rule (map VBytes cs, bytes) r = Ok (map VBytes cs', bytes') ∧
    loop_inv (flat ++ rule_bytes r) cs' bytes'.
Proof.
  intros Hr (Hf & Hc & Hl & Hm & Hn). pose proof (length_rule_bytes r Hr) as Hlen.
  unfold push_rule.
  assert (zlen (rule_bytes r) = RECORD_RULE_ENTRY_BYTES) as Hz by (unfold zlen; rewrite Hlen; done).
  destruct (Z.eqb_spec (zlen bytes) RECORD_RULE_CHUNK_BYTES) as [He|He].
  - rewrite (proj2 (codec_bytes_Ok bytes (VBytes bytes))).
    2:{ split; [done|]. apply chunk_inline. lia. }
    rewrite !result_bind_Ok. cbv beta iota.
    exists (cs ++ [bytes]), (rule_bytes r). rewrite <-app_assoc. fold (rule_bytes r).
    split; [by rewrite map_app|].
    split_and!.
    + apply Forall_app. split; [done|]. by constructor.
    + rewrite concat_app. cbn. rewrite app_nil_r. by rewrite Hc.
    + rewrite Hz. done.
    + by rewrite Hz.
    + intros Hnil. by rewrite Hnil in Hlen.
  - rewrite result_bind_Ok. cbv beta iota. rewrite <-app_assoc. fold (rule_bytes r).
    exists cs, (bytes ++ rule_bytes r). split; [done|]. unfold loop_inv. rewrite !zlen_app, Hz.
    rewrite chunk_bytes in *.
    split_and!; [done|by rewrite app_assoc, Hc| | |].
    + pose proof (Z.div_mod (zlen bytes) RECORD_RULE_ENTRY_BYTES ltac:(done)).
      unfold RECORD_RULE_ENTRY_BYTES in *. lia.
    + rewrite <-Z.add_mod_idemp_l, Hm by done. done.
    + intros Hnil. apply (f_equal length) in Hnil. rewrite length_app, Hlen in Hnil. cbn in Hnil. lia.
Qed.

Lemma push_rules rules flat cs bytes : Forall rule_ok rules → loop_inv flat cs bytes →
  ∃ cs' bytes', try_fold push_rule rules (map VBytes cs, bytes) = Ok (map VBytes cs', bytes') ∧
    loop_inv (flat ++ concat (map rule_bytes rules)) cs' bytes'.
Proof.
  intros Hr. revert flat cs bytes. induction Hr as [|r rules Hr Hrs IH]; intros flat cs bytes Hi.
  { exists cs, bytes. cbn. by rewrite app_nil_r. }
  destruct (push_rule_step _ _ _ r Hr Hi) as (cs1 & b1 & H1 & Hi1).
  destruct (IH _ _ _ Hi1) as (cs2 & b2 & H2 & Hi2). exists cs2, b2. cbn [try_fold map concat].
  rewrite H1, result_bind_Ok, H2. by rewrite app_assoc.
Qed.
Lemma full_chunked cs bytes : full_chunks cs → bytes ≠ [] →
  zlen bytes ≤ RECORD_RULE_CHUNK_BYTES → zlen bytes mod RECORD_RULE_ENTRY_BYTES = 0 →
  chunked (cs ++ [bytes]).
Proof.
  intros Hf Hn Hl Hm. induction Hf as [|c cs Hc Hcs IH]; cbn [app chunked].
  - split_and!; auto.
  - split_and!; [|by rewrite Hc|by rewrite Hc|by right|done].
    intros ->. rewrite chunk_bytes in Hc. done.
Qed.
(** The encoder writes the one chunking of the packed rules. *)
Lemma encode_record_rules_chunks g : Forall rule_ok (btree_entries (record_rules g)) →
  ∃ cs, chunked cs ∧ concat cs = concat (map rule_bytes (btree_entries (record_rules g))) ∧
    encode_record_rules g = codec_list (map VBytes cs).
Proof.
  intros Hr. destruct (push_rules _ [] [] [] Hr) as (cs & bytes & Hp & Hf & Hc & Hl & Hm & Hn).
  { split_and!; try done. constructor. }
  unfold encode_record_rules. cbn [map] in Hp. rewrite Hp, result_bind_Ok. cbv beta iota.
  destruct (decide (bytes = [])) as [->|Hne].
  - rewrite Hn in * by done. exists []. split_and!; done.
  - exists (cs ++ [bytes]). split; [by apply full_chunked|]. split.
    + rewrite concat_app. cbn. by rewrite app_nil_r.
    + rewrite (proj2 (codec_bytes_Ok bytes (VBytes bytes))) by
        (split; [done|by apply chunk_inline]).
      destruct bytes; [done|]. rewrite result_bind_Ok. by rewrite map_app.
Qed.
Lemma chunks_valid cs : chunked cs → Forall value_valid (map VBytes cs).
Proof.
  induction cs as [|c cs IH]; [constructor|]. cbn [chunked map].
  intros (_ & _ & Hl & _ & Hcs). constructor; [|by apply IH].
  apply valid_bytes. by apply chunk_inline.
Qed.

Definition rules_ok (g : NamespaceGrant) : Prop :=
  Forall rule_ok (btree_entries (record_rules g)) ∧
  map_len (record_rules g) ≤ MAX_RECORD_RULES_PER_GRANT.
Lemma grant_ext g h : permissions g = permissions h → grant_quotas g = grant_quotas h →
  btree_entries (record_rules g) = btree_entries (record_rules h) → g = h.
Proof.
  destruct g, h. cbn. intros -> -> H. f_equal. by apply btree_entries_inj.
Qed.
Lemma new_grant_last p q : last_rule (NamespaceGrant_new p q) = None.
Proof. unfold last_key, btree_keys. cbn. by rewrite btree_entries_empty. Qed.
Lemma rules_fit_new p q rules : rules_fit rules (NamespaceGrant_new p q) ↔
  Forall rule_ok rules ∧ StronglySorted lexico rules.*1 ∧
  zlen rules ≤ MAX_RECORD_RULES_PER_GRANT.
Proof. by apply fits_empty. Qed.
Lemma record_rules_exact p q g v :
  value_valid v ∧ decode_record_rules v (NamespaceGrant_new p q) = Ok g ↔
  permissions g = p ∧ grant_quotas g = q ∧ rules_ok g ∧ encode_record_rules g = Ok v.
Proof.
  unfold decode_record_rules. split.
  - intros [Hv H]. apply bind_Ok in H as (chunks & ->%take_list_Ok & H).
    apply bind_Ok in H as (st & H & [= <-]). pose proof (value_valid_list _ Hv) as Hvs.
    apply decode_rule_chunks_Ok in H as (cs & -> & Hcs & H); [|done].
    rewrite <-(new_grant_last p q) in H. pose proof (entries_of_chunked cs Hcs) as [Hc Hlen].
    apply rules_fold in H as (rules & He & Hfit & ->); [|done]. cbn [snd].
    pose proof (add_rules_entries _ _ Hfit) as Hent. destruct (add_rules_kept rules (NamespaceGrant_new p q)) as [-> ->].
    cbn [NamespaceGrant_new record_rules] in Hent. rewrite btree_entries_empty in Hent.
    cbn [app] in Hent. apply rules_fit_new in Hfit as (Hr & Hs & Hl).
    assert (rules_ok (add_rules rules (NamespaceGrant_new p q))) as Hok.
    { split; [by rewrite Hent|]. by rewrite map_len_entries, Hent. }
    split_and!; [done|done|done|].
    destruct (encode_record_rules_chunks _ (proj1 Hok)) as (ds & Hds & Hd & ->).
    assert (ds = cs) as ->.
    { apply chunked_unique; [done|done|]. by rewrite Hd, Hent, <-Hc, He. }
    by apply codec_list_Ok.
  - intros (<- & <- & [Hr Hl] & He).
    destruct (encode_record_rules_chunks g Hr) as (cs & Hcs & Hc & Heq). rewrite Heq in He.
    apply codec_list_Ok in He as [-> Hv]; [|by apply chunks_valid]. split; [done|].
    cbn [take_list]. rewrite result_bind_Ok.
    set (g0 := NamespaceGrant_new (permissions g) (grant_quotas g)).
    set (rules := btree_entries (record_rules g)) in *.
    assert (rules_fit rules g0) as Hfit.
    { apply rules_fit_new. split_and!; [done|apply btree_keys_sorted|].
      unfold rules. by rewrite <-map_len_entries. }
    pose proof (add_rules_entries _ _ Hfit) as Hent. destruct (add_rules_kept rules g0) as [Hp Hq].
    assert (decode_rule_chunks (map VBytes cs) (None, g0) =
      Ok (last_rule (add_rules rules g0), add_rules rules g0)) as ->.
    { apply decode_rule_chunks_Ok; [by apply chunks_valid|]. exists cs. split_and!; [done|done|].
      rewrite <-(new_grant_last (permissions g) (grant_quotas g)).
      apply rules_fold; [by apply entries_of_chunked|]. exists rules. split_and!; [|done|done].
      by apply entries_of_bytes. }
    rewrite result_bind_Ok. cbn [snd]. f_equal. apply grant_ext; [done|done|].
    rewrite Hent. unfold g0. cbn [NamespaceGrant_new record_rules]. by rewrite btree_entries_empty.
Qed.

(** ** Quotas *)
Definition quotas_ok (q : QuotaLimits) : Prop :=
  quotas_le (mk_quotas 0 0 0 0 0) q ∧ quotas_le q hard_caps.
Lemma encode_quotas_exact : vexact encode_quotas decode_quotas quotas_ok.
Proof.
  split.
  - intros [a b c d e] v Hok He. assert (quotas_le (mk_quotas a b c d e) hard_caps) as Hle by apply Hok.
    unfold quotas_ok, quotas_le, hard_caps, HARD_MAX_REQUEST_BYTES,
      HARD_MAX_STAGED_BLOB_BYTES, HARD_MAX_COMMITTED_BLOB_BYTES, HARD_MAX_LIVE_UPLOADS,
      HARD_MAX_BLOB_READ_BYTES in Hok. cbn in Hok, He. unfold encode_quotas in He. cbn in He.
    close_enc He. unfold decode_quotas.
    assert (2 ^ 40 ≤ U64_MAX ∧ 2 ^ 20 ≤ U32_MAX) as [??] by (vm_compute; done). cbn in *.
    run_dec. unfold invalid_policy.
    rewrite (proj2 (QuotaLimits_new_Ok a b c d e (mk_quotas a b c d e))) by done. done.
  - intros q v Hv Hd. unfold decode_quotas in Hd. inv_fields Hd.
    apply bind_Ok in Hd as (q' & Hq & Hd). inv_fields Hd. injection Hd as <-. chain_perm.
    unfold invalid_policy in Hq. apply map_err_Ok, QuotaLimits_new_Ok in Hq as [-> Hle].
    inv_leaves. children_valid. leaf_ok. split.
    + split; [|done]. unfold quotas_le. cbn. lia.
    + unfold encode_quotas. cbn. run_enc. close_map.
Qed.

(** ** Grants *)
Definition grant_entry_ok (limit : QuotaLimits) (e : PrincipalDigest * NamespaceGrant) : Prop :=
  zlen (principal_bytes e.1) = 32 ∧ permissions_ok (permissions e.2) ∧
  quotas_ok (grant_quotas e.2) ∧ quotas_le (grant_quotas e.2) limit ∧ rules_ok e.2.
Definition add_grant (e : PrincipalDigest * NamespaceGrant) (p : NamespacePolicy) :
    NamespacePolicy :=
  mk_policy (policy_scope p) (policy_version p) (policy_quotas p) (<[e.1 := e.2]> (grants p)).
Lemma policy_grant_fresh pr g p : grants p !! pr = None →
  ∀ p', policy_grant pr g p = Ok p' ↔
    map_len (grants p) < MAX_PRINCIPALS_PER_NAMESPACE ∧
    quotas_le (grant_quotas g) (policy_quotas p) ∧ p' = add_grant (pr, g) p.
Proof.
  intros Hn p'. unfold policy_grant. rewrite bool_decide_eq_false_2 by (rewrite Hn; by intros []).
  cbn [negb andb]. destruct (Z.leb_spec MAX_PRINCIPALS_PER_NAMESPACE (map_len (grants p))).
  { split; [done|]. lia. }
  case_decide as Hm.
  - split; [done|]. intros (_ & Hq%min_eq_l & _). done.
  - apply min_eq_l in Hm. split; [intros [= <-]; done|]. by intros (_ & _ & ->).
Qed.
Abbreviation last_grant := (last_key grants).
Lemma decode_grant_step p v st : value_valid v →
  decode_grant (last_grant p, p) v = Ok st ↔
  ∃ e, encode_grant e = Ok v ∧ grant_entry_ok (policy_quotas p) e ∧
    Forall (λ x, lexico x e.1) (btree_keys (grants p)) ∧
    map_len (grants p) < MAX_PRINCIPALS_PER_NAMESPACE ∧ st = (Some e.1, add_grant e p).
Proof.
  intros Hv. unfold last_key. split.
  - intros Hd. unfold decode_grant in Hd. inv_fields Hd.
    destruct (match last _ with Some _ => _ | None => _ end) eqn:Hprev; [done|].
    apply above_last in Hprev. inv_fields Hd. apply bind_Ok in Hd as (p1 & Hp1 & Hd).
    inv_fields Hd. apply bind_Ok in Hd as (g & Hg & Hd). inv_fields Hd.
    apply bind_Ok in Hd as (p' & Hp' & [= <-]). chain_perm.
    unfold invalid_policy in *. apply map_err_Ok in Hp1, Hp'. inv_leaves. children_valid.
    use_bwd encode_quotas_exact. leaf_ok. pose proof (from_bits_inv _ _ Hp1) as ->.
    pose proof (proj1 (record_rules_exact _ _ _ _) (conj ltac:(eassumption) Hg)) as
      (Hgp & Hgq & Hrules & Hgv).
    apply policy_grant_fresh in Hp' as (Hlt & Hle & ->); [|by apply above_last_fresh].
    eexists (_, g). split_and!; [| |done|done|done].
    + unfold encode_grant. rewrite Hgp, Hgq. cbn [bits principal_bytes]. run_enc. close_map.
    + rewrite <-Hgq in *. unfold grant_entry_ok, permissions_ok. cbn. rewrite Hgp.
      split_and!; try done; cbn; lia.
  - intros ([[pr] g] & He & (Hpr & Hperm & Hq & Hle & Hrules) & Hall & Hlt & ->).
    cbn [fst snd principal_bytes] in *. unfold encode_grant in He. inv_enc He.
    destruct (proj2 (record_rules_exact (permissions g) (grant_quotas g) g v2)) as [Hv2 Hr].
    { by split_and!. }
    use_fwd encode_quotas_exact. destruct Hperm as [Hb Hbits].
    remember (bits (permissions g)) as pb eqn:Hpb. open_enc He.
    unfold decode_grant. run_dec.
    rewrite (proj2 (above_last _ _) Hall). run_dec.
    change (invalid_policy (Ok (permissions g))) with (Ok (E:=GraphCodecError) (permissions g)).
    run_dec. step_bind. cbn [fields_finish]. step_bind.
    unfold invalid_policy.
    rewrite (proj2 (policy_grant_fresh _ _ _ (above_last_fresh _ _ Hall)
      (add_grant (PrincipalDigest_from_bytes pr, g) p))); [|by split_and!].
    done.
Qed.

Abbreviation grants_fit :=
  (fits grants MAX_PRINCIPALS_PER_NAMESPACE (λ p, grant_entry_ok (policy_quotas p))).
Abbreviation add_grants := (add_all add_grant).
Lemma grants_fold vs p st : Forall value_valid vs →
  try_fold decode_grant vs (last_grant p, p) = Ok st ↔
  ∃ es, Forall2 (λ e v, encode_grant e = Ok v) es vs ∧ grants_fit es p ∧
    st = (last_grant (add_grants es p), add_grants es p).
Proof.
  apply (sorted_fold_Ok grants add_grant MAX_PRINCIPALS_PER_NAMESPACE value_valid
    (λ e v, encode_grant e = Ok v) (λ p, grant_entry_ok (policy_quotas p))); [done|done|].
  intros s a st' Ha. by apply decode_grant_step.
Qed.
Lemma add_grants_kept es p :
  policy_scope (add_grants es p) = policy_scope p ∧
  policy_version (add_grants es p) = policy_version p ∧
  policy_quotas (add_grants es p) = policy_quotas p.
Proof.
  revert p. induction es as [|e es IH]; intros p; [done|]. apply (IH (add_grant e p)).
Qed.
Lemma try_map_Ok {E A B} (f : A → result E B) l k :
  try_map f l = Ok k ↔ Forall2 (λ a b, f a = Ok b) l k.
Proof.
  split.
  - revert k. induction l as [|a l IH]; intros k H; cbn in H; [injection H as <-; constructor|].
    apply bind_Ok in H as (b & Hb & H). apply bind_Ok in H as (bs & Hbs & [= <-]).
    constructor; auto.
  - induction 1 as [|a b l k Hb _ IH]; [done|]. cbn. by rewrite Hb, result_bind_Ok, IH.
Qed.

(** ** Policies *)
Definition codec_policy_ok (p : NamespacePolicy) : Prop :=
  scope_ok (policy_scope p) ∧ nonzero_u64 (policy_version p) ∧ quotas_ok (policy_quotas p) ∧
  Forall (grant_entry_ok (policy_quotas p)) (btree_entries (grants p)) ∧
  map_len (grants p) ≤ MAX_PRINCIPALS_PER_NAMESPACE.
Lemma policy_ext p q : policy_scope p = policy_scope q → policy_version p = policy_version q →
  policy_quotas p = policy_quotas q → btree_entries (grants p) = btree_entries (grants q) → p = q.
Proof. destruct p, q. cbn. intros -> -> -> H. f_equal. by apply btree_entries_inj. Qed.
Lemma new_policy_last s v q : last_grant (NamespacePolicy_new s v q) = None.
Proof. unfold last_key, btree_keys. cbn. by rewrite btree_entries_empty. Qed.
Lemma encode_grant_valid limit e v :
  grant_entry_ok limit e → encode_grant e = Ok v → value_valid v.
Proof.
  destruct e as [[pr] g]. intros (Hpr & [Hperm _] & Hq & _ & Hrules) He.
  cbn [fst snd principal_bytes] in *. unfold encode_grant in He. inv_enc He.
  destruct (proj2 (record_rules_exact (permissions g) (grant_quotas g) g v2)) as [Hv2 Hr].
  { by split_and!. }
  use_fwd encode_quotas_exact. by open_enc He.
Qed.
Lemma grants_valid limit es vs : Forall (grant_entry_ok limit) es →
  Forall2 (λ e v, encode_grant e = Ok v) es vs → Forall value_valid vs.
Proof.
  intros Hes H2. induction H2 as [|e v es vs He _ IH]; [constructor|].
  apply Forall_cons in Hes as [? ?]. constructor; [by eapply encode_grant_valid|auto].
Qed.
Lemma encode_policy_exact : vexact encode_policy decode_policy codec_policy_ok.
Proof.
  split.
  - intros p v (Hs & Hn & Hq & Hg & Hl) He. unfold encode_policy in He. inv_enc He.
    apply try_map_Ok in Hx. pose proof (grants_valid _ _ _ Hg Hx) as Hvs.
    apply codec_list_Ok in Hx0 as [-> Hvl]; [|done].
    use_fwd encode_quotas_exact. use_fwd encode_scope_exact. unfold nonzero_u64 in Hn.
    remember (policy_version p) as version. close_enc He. unfold decode_policy. run_dec.
    cbn [fields_finish]. step_bind. subst version.
    set (p0 := NamespacePolicy_new (policy_scope p) (policy_version p) (policy_quotas p)).
    set (es := btree_entries (grants p)) in *.
    assert (grants_fit es p0) as Hfit.
    { apply fits_empty; [done|done|]. split_and!; [done|apply btree_keys_sorted|].
      unfold es. by rewrite <-map_len_entries. }
    assert (try_fold decode_grant v0 (None, p0) =
      Ok (last_grant (add_grants es p0), add_grants es p0)) as ->.
    { rewrite <-(new_policy_last (policy_scope p) (policy_version p) (policy_quotas p)).
      apply grants_fold; [done|]. by exists es. }
    rewrite result_bind_Ok. cbn [snd]. f_equal.
    destruct (add_grants_kept es p0) as (H1' & H2' & H3').
    apply policy_ext; [done|done|done|].
    rewrite (add_all_entries grants add_grant MAX_PRINCIPALS_PER_NAMESPACE
      (λ p, grant_entry_ok (policy_quotas p))) by done.
    unfold p0. cbn [NamespacePolicy_new grants]. by rewrite btree_entries_empty.
  - intros p v Hv Hd. unfold decode_policy in Hd. inv_fields Hd.
    apply bind_Ok in Hd as (st & Hst & [= <-]). chain_perm. inv_leaves. children_valid.
    use_bwd encode_quotas_exact. use_bwd encode_scope_exact. leaf_ok.
    rewrite <-new_policy_last with (s := a) (v := a0) (q := a1) in Hst.
    assert (Forall value_valid a2) as Hvs by (by apply value_valid_list).
    apply grants_fold in Hst as (ges & H2' & Hfit & ->); [|done]. cbn [snd].
    pose proof (add_all_entries grants add_grant MAX_PRINCIPALS_PER_NAMESPACE
      (λ p, grant_entry_ok (policy_quotas p)) ltac:(done) ltac:(done) _ _ Hfit) as Hent.
    destruct (add_grants_kept ges (NamespacePolicy_new a a0 a1)) as (Hs & Hver & Hq).
    apply fits_empty in Hfit as (Hok & Hsort & Hlen); [|done|done].
    cbn [NamespacePolicy_new grants policy_scope policy_version policy_quotas] in *.
    rewrite btree_entries_empty in Hent. cbn [app] in Hent.
    split.
    + unfold codec_policy_ok. rewrite map_len_entries, Hent, Hs, Hver, Hq.
      split_and!; try done. unfold nonzero_u64. lia.
    + unfold encode_policy. rewrite Hent, Hs, Hver, Hq.
      rewrite (proj2 (try_map_Ok _ _ _) H2'), result_bind_Ok.
      rewrite (proj2 (codec_list_Ok _ (VList a2) Hvs)) by done. step_bind. run_enc. close_map.
Qed.

Definition mutation_ok (m : DurablePolicyMutation) : Prop :=
  match m with
  | Install p => codec_policy_ok p
  | Replace expected p => nonzero_u64 expected ∧ codec_policy_ok p
  end.
Lemma encode_policy_mutation_exact :
  vexact encode_policy_mutation decode_policy_mutation mutation_ok.
Proof.
  split.
  - intros [p|expected p] v Hok He; cbn [encode_policy_mutation mutation_ok] in *; inv_enc He;
      [|destruct Hok as [Hn Hok]; unfold nonzero_u64 in Hn];
      use_fwd encode_policy_exact; close_enc He; unfold decode_policy_mutation; run_dec; done.
  - intros m v Hv Hd. unfold decode_policy_mutation in Hd. inv_fields Hd. inv_arm Hd.
    all: use_bwd encode_policy_exact; leaf_ok;
      (split; [unfold mutation_ok, nonzero_u64; split_and?; done || lia|]);
      cbn [encode_policy_mutation]; run_enc; close_map.
Qed.
Lemma encode_policy_mutation_not_null a v : encode_policy_mutation a = Ok v → v ≠ VNull.
Proof.
  destruct a; cbn [encode_policy_mutation]; intros H; inv_enc H; by apply codec_map_not_null in H.
Qed.
Lemma encode_policy_not_null a v : encode_policy a = Ok v → v ≠ VNull.
Proof. unfold encode_policy; intros H; inv_enc H; by apply codec_map_not_null in H. Qed.

(** ** Operations, transactions and records

    The frame formats of [GraphCodec] are canonical: a byte string is accepted
    exactly when it is the encoding of the well-formed value it decodes to. *)


(** ** Operations *)
Definition operation_ok (o : Operation) : Prop :=
  match o with
  | Create e n => expected_ok e ∧ new_record_ok n
  | ReplaceEntity t e p => ref_ok t ∧ expected_ok e ∧ value_valid p
  | ActOnAssertion t e _ c ce =>
      ref_ok t ∧ expected_ok e ∧ opt_ok new_assertion_ok c ∧ opt_ok expected_ok ce
  | ActOnRelationship t e _ c ce =>
      ref_ok t ∧ expected_ok e ∧ opt_ok new_relationship_ok c ∧ opt_ok expected_ok ce
  | DeleteEntity t e p a =>
      ref_ok t ∧ expected_ok e ∧ delete_policy_ok p ∧ Forall ref_ok a
  end.

Lemma opt_assertion_exact :
  vexact (encode_optional encode_assertion) (decode_optional decode_assertion)
    (opt_ok new_assertion_ok).
Proof. apply optional_exact; [apply encode_assertion_exact|apply encode_assertion_not_null]. Qed.
Lemma opt_relationship_exact :
  vexact (encode_optional encode_relationship) (decode_optional decode_relationship)
    (opt_ok new_relationship_ok).
Proof.
  apply optional_exact; [apply encode_relationship_exact|apply encode_relationship_not_null].
Qed.
Lemma opt_expected_exact :
  vexact (encode_optional encode_expected) (decode_optional decode_expected) (opt_ok expected_ok).
Proof. apply optional_exact; [apply encode_expected_exact|apply encode_expected_not_null]. Qed.

Ltac use_fwds := use_fwd encode_expected_exact; use_fwd encode_new_record_exact;
  use_fwd opt_assertion_exact; use_fwd opt_relationship_exact; use_fwd opt_expected_exact;
  use_fwd encode_refs_exact; use_fwd encode_delete_policy_exact; use_fwd encode_valid_time_exact.
Ltac use_bwds := use_bwd encode_expected_exact; use_bwd encode_new_record_exact;
  use_bwd opt_assertion_exact; use_bwd opt_relationship_exact; use_bwd opt_expected_exact;
  use_bwd encode_refs_exact; use_bwd encode_delete_policy_exact; use_bwd encode_valid_time_exact.

Lemma action_text action : str_okb (action_name action) = true.
Proof. by destruct action; vm_compute. Qed.
Lemma action_text_Ok action : text (action_name action) = Ok (VString (action_name action)).
Proof. by destruct action; vm_compute. Qed.
Lemma encode_operation_exact : vexact encode_operation decode_operation operation_ok.
Proof.
  split.
  - intros [e n|t e p|t e a c ce|t e a c ce|t e p a] v Hok He;
      cbn [encode_operation operation_ok] in *; inv_enc He; destruct_and? Hok; use_fwds;
      try (pose proof (action_text a); pose proof (decode_action_name a);
           generalize dependent (action_name a); intros aname He ??);
      close_enc He; unfold decode_operation; run_dec; done.
  - intros o v Hv Hd. unfold decode_operation in Hd. inv_fields Hd. inv_arm Hd.
    all: use_bwds; leaf_ok; split; [by cbn; split_and!|].
    all: repeat match goal with
      | H : decode_action _ = Ok ?a |- _ => apply decode_action_Ok in H; subst
      end.
    all: cbn [encode_operation].
    3-4: rewrite action_text_Ok, result_bind_Ok.
    all: run_enc; close_map.
Qed.

(** ** Transactions *)
Definition transaction_ok (t : GraphTransaction) : Prop :=
  scope_ok (tx_scope t) ∧ Forall operation_ok (tx_operations t) ∧
  opt_ok mutation_ok (tx_policy_mutation t).
Lemma try_map_exact {A} (enc : A → result GraphCodecError Value) dec ok :
  vexact enc dec ok → ∀ l vs, Forall ok l → try_map enc l = Ok vs →
  Forall value_valid vs ∧ try_map dec vs = Ok l.
Proof.
  intros [Hf _] l vs Hl H%try_map_Ok. rewrite try_map_Ok.
  induction H as [|a v l vs Hv _ IH]; [by split; constructor|].
  apply Forall_cons in Hl as [Ha Hl]. destruct (Hf _ _ Ha Hv), (IH Hl). split; by constructor.
Qed.
Lemma try_map_exact_inv {A} (enc : A → result GraphCodecError Value) dec ok :
  vexact enc dec ok → ∀ l vs, Forall value_valid vs → try_map dec vs = Ok l →
  Forall ok l ∧ try_map enc l = Ok vs.
Proof.
  intros [_ Hb] l vs Hl H%try_map_Ok. rewrite try_map_Ok.
  induction H as [|v a vs l Hv _ IH]; [by split; constructor|].
  apply Forall_cons in Hl as [Ha Hl]. destruct (Hb _ _ Ha Hv), (IH Hl). split; by constructor.
Qed.
Lemma opt_mutation_exact :
  vexact (encode_optional encode_policy_mutation) (decode_optional decode_policy_mutation)
    (opt_ok mutation_ok).
Proof.
  apply optional_exact; [apply encode_policy_mutation_exact|apply encode_policy_mutation_not_null].
Qed.
Lemma encode_transaction_exact :
  vexact encode_transaction_value decode_transaction_value transaction_ok.
Proof.
  split.
  - intros [s ops m] v (Hs & Hops & Hm) He. unfold encode_transaction_value in He. cbn in *.
    inv_enc He. apply (try_map_exact _ _ _ encode_operation_exact) in Hx as [Hvs Hdec]; [|done].
    apply codec_list_Ok in Hx0 as [-> Hvl]; [|done].
    use_fwd opt_mutation_exact. use_fwd encode_scope_exact. close_enc He.
    unfold decode_transaction_value. run_dec. by destruct m.
  - intros t v Hv Hd. unfold decode_transaction_value in Hd. inv_fields Hd.
    apply bind_Ok in Hd as ([] & Hprof & Hd). inv_fields Hd. injection Hd as <-. chain_perm.
    apply bind_Ok in Hd0 as (vs & Hvs & Hops). inv_leaves. children_valid.
    use_bwd opt_mutation_exact. use_bwd encode_scope_exact.
    assert (Forall value_valid vs) as Hvs by by apply value_valid_list.
    apply (try_map_exact_inv _ _ _ encode_operation_exact) in Hops as [Hops Henc]; [|done].
    set (t := match a0 with Some _ => _ | None => _ end).
    assert (t = mk_transaction a1 a a0) as -> by (by destruct a0).
    split; [by split_and!|]. unfold encode_transaction_value. cbn.
    rewrite Henc, result_bind_Ok, (proj2 (codec_list_Ok _ (VList vs) Hvs)) by done.
    step_bind. run_enc. close_map.
Qed.

(** ** Framed values *)
Lemma framed_exact {A} (enc : A → result GraphCodecError Value) dec ok b a :
  vexact enc dec ok → zlen b ≤ I64_MAX →
  (v ← decode_frame b; dec v) = Ok a ↔ ok a ∧ (v ← enc a; encode_frame v) = Ok b.
Proof.
  intros [Hf Hb] Hlen. unfold decode_frame, encode_frame. rewrite !bind_Ok.
  setoid_rewrite map_err_Ok. split.
  - intros (v & (Hv & Hl & ->)%decode_value_frame & Hd); [|done].
    apply Hb in Hd as [Hok He]; [|done]. split; [done|]. exists v. split; [done|].
    by apply encode_value_frame.
  - intros (Hok & v & He & Hfr). destruct (Hf _ _ Hok He) as [Hv Hd]. exists v. split; [|done].
    apply encode_value_frame in Hfr as [Hl ->]; [|done]. by apply decode_value_frame.
Qed.

(** C29: the transaction codec is exact: bytes decode to a transaction exactly when they
    are its canonical encoding, so no two byte strings mean the same request and
    re-encoding a decoded request reproduces it. *)
Theorem decode_transaction_iff_encode b t : zlen b ≤ I64_MAX →
  decode_transaction b = Ok t ↔ transaction_ok t ∧ encode_transaction t = Ok b.
Proof. apply framed_exact, encode_transaction_exact. Qed.

(** The durable policy codec is exact. *)
Theorem decode_policy_iff_encode b p : zlen b ≤ I64_MAX →
  decode_result_policy b = Ok p ↔ opt_ok codec_policy_ok p ∧ encode_result_policy p = Ok b.
Proof.
  apply framed_exact, optional_exact; [apply encode_policy_exact|apply encode_policy_not_null].
Qed.

(** ** Stored records *)
Definition record_ok (r : GRecord) : Prop :=
  match r with
  | REntity e => ref_ok (e_id e) ∧ nonzero_u64 (e_version e) ∧ str_okb (e_entity_type e) = true ∧
      0 ≤ e_schema_version e ≤ U64_MAX ∧ value_valid (e_properties e) ∧
      nonzero_u64 (e_created_revision e) ∧ nonzero_u64 (e_modified_revision e)
  | REvidence e => ref_ok (ev_id e) ∧ nonzero_u64 (ev_version e) ∧ zlen (ev_digest e) = 32 ∧
      str_okb (ev_locator e) = true ∧ nonzero_u64 (ev_created_revision e)
  | RAssertion a => ref_ok (a_id a) ∧ nonzero_u64 (a_version a) ∧ ref_ok (a_subject a) ∧
      str_okb (a_predicate a) = true ∧ value_valid (a_object a) ∧ Forall ref_ok (a_evidence a) ∧
      valid_time_ok (a_valid_time a) ∧ opt_ok ref_ok (a_correction_of a) ∧
      nonzero_u64 (a_recorded_revision a) ∧ nonzero_u64 (a_modified_revision a)
  | RRelationship r => ref_ok (r_id r) ∧ nonzero_u64 (r_version r) ∧ ref_ok (r_from r) ∧
      ref_ok (r_to r) ∧ str_okb (r_relationship_type r) = true ∧ value_valid (r_properties r) ∧
      Forall ref_ok (r_evidence r) ∧ valid_time_ok (r_valid_time r) ∧
      opt_ok ref_ok (r_correction_of r) ∧
      nonzero_u64 (r_recorded_revision r) ∧ nonzero_u64 (r_modified_revision r)
  end.
Definition decode_record_value (v : Value) : result GraphCodecError GRecord :=
  fields ← Fields_new v; decode_record_fields fields.
Lemma opt_ref_exact :
  vexact (λ o, Ok (opt_ref o)) (decode_optional take_record) (opt_ok ref_ok).
Proof.
  split.
  - intros [r|] v Hok [= <-]; cbn in *; [|by split; [apply valid_null|]].
    split; [by apply valid_ref|]. done.
  - intros o v Hv Hd. unfold decode_optional in Hd. case_decide.
    + injection Hd as <-. by subst.
    + apply fmap_Ok in Hd as (a & ->%take_record_Ok & ->). split; [|done]. cbn. by apply valid_ref.
Qed.
Lemma status_text_Ok s : text (assertion_status_name s) = Ok (VString (assertion_status_name s)).
Proof. by destruct s; vm_compute. Qed.
Lemma lifecycle_text_Ok s : text (lifecycle_name s) = Ok (VString (lifecycle_name s)).
Proof. by destruct s; vm_compute. Qed.
Lemma status_str s : str_okb (assertion_status_name s) = true.
Proof. by destruct s; vm_compute. Qed.
Lemma lifecycle_str s : str_okb (lifecycle_name s) = true.
Proof. by destruct s; vm_compute. Qed.

(** The record decoder over owned fields, in terms of [take_with]. *)
Ltac run_owned :=
  repeat (match goal with
  | |- context [@rf_take_with Fields ?A ?i ?n ?dec ?fs] =>
      change (@rf_take_with Fields A i n dec fs) with (take_with n dec fs)
  | |- context [@rf_take_value Fields ?i ?n ?fs] =>
      change (@rf_take_value Fields i n fs) with (take_any n fs)
  | |- context [@rf_take_text Fields ?i ?n ?fs] =>
      change (@rf_take_text Fields i n fs) with (take_with n take_text fs)
  | |- context [@rf_take_refs Fields ?i ?n ?fs] =>
      change (@rf_take_refs Fields i n fs) with (take_with n decode_refs fs)
  | |- context [@rf_take_valid_time Fields ?i ?n ?fs] =>
      change (@rf_take_valid_time Fields i n fs) with (take_with n decode_valid_time fs)
  end; run_dec).
Section owned_bind.
Context {A B : Type} (name : list byte) (fs : Fields).
Lemma rf_with_bind (dec : Value → result GraphCodecError A) (k : A → Fields → result _ B) b :
  ('(a, fs) ← rf_take_with name dec fs; k a fs) = Ok b →
  ∃ v a fs', fs ≡ₚ (name, v) :: fs' ∧ dec v = Ok a ∧ k a fs' = Ok b.
Proof. apply take_bind. Qed.
Lemma rf_value_bind (k : Value → Fields → result _ B) b :
  ('(a, fs) ← rf_take_value name fs; k a fs) = Ok b →
  ∃ v fs', fs ≡ₚ (name, v) :: fs' ∧ k v fs' = Ok b.
Proof. apply any_bind. Qed.
Lemma rf_text_bind (k : list byte → Fields → result _ B) b :
  ('(a, fs) ← rf_take_text name fs; k a fs) = Ok b →
  ∃ v a fs', fs ≡ₚ (name, v) :: fs' ∧ take_text v = Ok a ∧ k a fs' = Ok b.
Proof. apply take_bind. Qed.
Lemma rf_refs_bind (k : list RecordRef → Fields → result _ B) b :
  ('(a, fs) ← rf_take_refs name fs; k a fs) = Ok b →
  ∃ v a fs', fs ≡ₚ (name, v) :: fs' ∧ decode_refs v = Ok a ∧ k a fs' = Ok b.
Proof. apply take_bind. Qed.
Lemma rf_valid_time_bind (k : ValidTime → Fields → result _ B) b :
  ('(a, fs) ← rf_take_valid_time name fs; k a fs) = Ok b →
  ∃ v a fs', fs ≡ₚ (name, v) :: fs' ∧ decode_valid_time v = Ok a ∧ k a fs' = Ok b.
Proof. apply take_bind. Qed.
End owned_bind.
Ltac inv_owned H :=
  repeat (
    let v := fresh "v" in let a := fresh "a" in let fs := fresh "fs" in
    let Hp := fresh "Hp" in let Hd := fresh "Hd" in
      lazymatch type of H with
      | (x ← rf_take_with _ _ _; _) = _ =>
          apply rf_with_bind in H; destruct H as (v & a & fs & Hp & Hd & H)
      | (x ← rf_take_value _ _; _) = _ =>
          apply rf_value_bind in H; destruct H as (v & fs & Hp & H)
      | (x ← rf_take_text _ _; _) = _ =>
          apply rf_text_bind in H; destruct H as (v & a & fs & Hp & Hd & H)
      | (x ← rf_take_refs _ _; _) = _ =>
          apply rf_refs_bind in H; destruct H as (v & a & fs & Hp & Hd & H)
      | (x ← rf_take_valid_time _ _; _) = _ =>
          apply rf_valid_time_bind in H; destruct H as (v & a & fs & Hp & Hd & H)
      | (x ← assertion_status _; _) = _ => apply bind_Ok in H; destruct H as (a & Hd & H)
      | (x ← lifecycle_of_name _; _) = _ => apply bind_Ok in H; destruct H as (a & Hd & H)
      end).

Lemma encode_record_fwd r v : record_ok r → encode_record_value r = Ok v →
  value_valid v ∧ decode_record_value v = Ok r.
Proof.
  destruct r as [[id ver lc ty sv pr cr mr]|[id ver dg lo cr]
      |[id ver su p o ev st vt co rr mr]|[id ver fr to ty p ev st vt co rr mr]]; intros Hok He;
      cbn [encode_record_value record_ok] in *; cbn in Hok, He; inv_enc He; destruct_and? Hok;
      unfold nonzero_u64 in *; use_fwds;
      try (pose proof (proj2 (lifecycle_Ok _ lc) eq_refl); pose proof (lifecycle_str lc);
           generalize dependent (lifecycle_name lc); intros lname He ??);
      try (pose proof (proj2 (assertion_status_Ok _ st) eq_refl); pose proof (status_str st);
           generalize dependent (assertion_status_name st); intros sname He ??);
      try (match goal with Hc : opt_ok ref_ok co |- _ =>
             pose proof (proj1 opt_ref_exact co (opt_ref co) Hc eq_refl) as [? ?] end;
           generalize dependent (opt_ref co); intros covalue He ??);
      close_enc He; unfold decode_record_value, decode_record_fields; run_dec; run_owned; done.
Qed.
Lemma encode_record_bwd r v : value_valid v → decode_record_value v = Ok r →
  record_ok r ∧ encode_record_value r = Ok v.
Proof.
  intros Hv Hd. unfold decode_record_value in Hd. apply Fields_bind in Hd as (es & -> & Hd).
  unfold decode_record_fields in Hd. inv_owned Hd.
  apply arm_bind in Hd as (rec & fs' & Ha & Hd). apply finish_bind in Hd as [-> [= ->]].
  repeat (case_decide; [subst|]); [..|done]; inv_owned Ha; injection Ha as ? ?; subst;
    chain_perm; inv_leaves; children_valid; use_bwds; use_bwd opt_ref_exact; leaf_ok;
    repeat match goal with
    | H : assertion_status _ = Ok _ |- _ => apply assertion_status_Ok in H; subst
    | H : lifecycle_of_name _ = Ok _ |- _ => apply lifecycle_Ok in H; subst
    | H : Ok (opt_ref _) = Ok _ |- _ => injection H as <-
    end.
  all: split; [cbn; unfold nonzero_u64; split_and!; done || lia|].
  all: cbn [encode_record_value]; cbn; try (rewrite status_text_Ok); try rewrite lifecycle_text_Ok;
    run_enc; close_map.
Qed.
Lemma encode_record_exact : vexact encode_record_value decode_record_value record_ok.
Proof. split; intros; [by apply encode_record_fwd|by apply encode_record_bwd]. Qed.

(** The record codec is exact: bytes decode to a record exactly when they are its
    canonical encoding. *)
Theorem decode_record_iff_encode b r : zlen b ≤ I64_MAX →
  decode_result_record b = Ok r ↔ record_ok r ∧ encode_result_record r = Ok b.
Proof. apply framed_exact, encode_record_exact. Qed.

(** ** Witnesses *)
Definition codec_scope : NamespaceRef :=
  NamespaceRef_new (from_bytes (be_bytes 16 1)) (from_bytes (be_bytes 16 2)).
Definition codec_ref (n : Z) : RecordRef := scoped codec_scope (from_bytes (be_bytes 16 n)).
Definition codec_transaction : GraphTransaction :=
  GraphTransaction_new codec_scope
    [Create Absent (NEntity (mk_new_entity (codec_ref 3) (lit "person") 1 VNull));
     DeleteEntity (codec_ref 3) (EVersion 1) (CascadeAndRetract 2) [codec_ref 4]].
Definition codec_record : GRecord :=
  RAssertion (mk_assertion (codec_ref 5) 2 (codec_ref 3) (lit "age") (VUnsigned 41) [codec_ref 4]
    Accepted (HalfOpen Unbounded (Bounded (mk_instant 7 0))) None 1 2).
Definition ok_bytes {E} (r : result E (list byte)) : list byte :=
  match r with Ok b => b | Err _ => [] end.

Lemma decode_transaction_iff_encode_witness :
  transaction_ok codec_transaction ∧
  decode_transaction (ok_bytes (encode_transaction codec_transaction)) = Ok codec_transaction.
Proof.
  assert (transaction_ok codec_transaction) as Hok.
  { split; [by vm_compute|]. split; [|done]. repeat constructor; by vm_compute. }
  split; [done|]. apply decode_transaction_iff_encode; [by vm_compute|].
  split; [done|]. vm_compute. reflexivity.
Defined.
Definition codec_quotas : QuotaLimits := mk_quotas 1024 2048 2048 4 512.
Definition codec_grant : NamespaceGrant :=
  mk_grant (PermissionSet_from_actions [ReadRecord]) codec_quotas
    {[ from_bytes (be_bytes 16 9) := mk_rule (PermissionSet_from_actions [ReadRecord]) ]}.
Definition codec_policy : NamespacePolicy :=
  mk_policy codec_scope 3 codec_quotas
    {[ PrincipalDigest_from_bytes (be_bytes 32 7) := codec_grant ]}.
Lemma btree_entries_singleton {K V} `{Countable K, Lexico K, !TrichotomyT (@lexico K _),
    !StrictOrder (@lexico K _)} (k : K) (v : V) : btree_entries {[ k := v ]} = [(k, v)].
Proof.
  apply btree_entries_unique; [by repeat constructor|]. by rewrite map_to_list_singleton.
Qed.
Lemma decode_policy_iff_encode_witness :
  codec_policy_ok codec_policy ∧
  ∃ b, encode_result_policy (Some codec_policy) = Ok b ∧
    decode_result_policy b = Ok (Some codec_policy).
Proof.
  assert (codec_policy_ok codec_policy) as Hok.
  { unfold codec_policy_ok, codec_policy. rewrite map_len_entries.
    cbn [policy_scope policy_version policy_quotas grants]. rewrite btree_entries_singleton.
    split_and!; [by vm_compute..| |by vm_compute]. apply Forall_singleton.
    split_and!; [by vm_compute..|]. unfold rules_ok, codec_grant. rewrite map_len_entries.
    cbn [snd record_rules]. rewrite btree_entries_singleton. split; [|by vm_compute].
    apply Forall_singleton. by vm_compute. }
  split; [done|]. eexists. split; [vm_compute; reflexivity|].
  apply decode_policy_iff_encode; [by vm_compute|]. split; [done|]. vm_compute. reflexivity.
Defined.
Lemma decode_record_iff_encode_witness :
  record_ok codec_record ∧
  decode_result_record (ok_bytes (encode_result_record codec_record)) = Ok codec_record.
Proof.
  assert (record_ok codec_record) as Hok.
  { unfold record_ok, codec_record. cbn. split_and!; try (by vm_compute).
    repeat constructor; by vm_compute. }
  split; [done|]. apply decode_record_iff_encode; [by vm_compute|].
  split; [done|]. vm_compute. reflexivity.
Defined.
