(* ===== verification/StoredRecord.v ===== *)
(** * The borrowed record decoder

    [decode_stored_record] reads the same records as [decode_result_record]
    through fixed field slots and borrowed values.  The two field stores are
    related by [fields_rel]; every operation of the [RecordFields] interface
    preserves the relation and fails with the same error, so the decoders
    agree on every input. *)
From S2P Require Import Prelude Ids Value Codec CodecFacts CodecFrame BorrowedDecode GraphRecord GraphCodec GraphCodecFacts GraphCodecExact.
Import GraphCodecError.

#[local] Arguments lit : simpl never.
#[local] Arguments fields_take : simpl never.

(** ** Borrowed values and the values they stand for *)
Lemma borrowed_text_erase b : borrowed_text b = take_text (erase b).
Proof. by destruct b. Qed.
Lemma borrowed_refs_erase b : borrowed_refs b = decode_refs (erase b).
Proof. destruct b; try done. cbn. by rewrite try_map_records. Qed.
(** Fields outside [valid_time] and [evidence] are decoded whole. *)
Definition whole (b : BorrowedMapValue) : Prop :=
  match b with BString _ | BValue _ => True | _ => False end.
Lemma valid_inline s : value_valid (VString s) → BoundedString_new s = Ok s.
Proof.
  intros [Hs _]%valid_string%andb_true_iff. by apply BoundedString_new_Ok.
Qed.
Lemma borrowed_value_erase b : whole b → value_valid (erase b) → borrowed_value b = Ok (erase b).
Proof. destruct b; try done. intros _ Hv. cbn. by rewrite (valid_inline _ Hv). Qed.
Lemma borrowed_instant_erase b : value_valid (erase b) →
  (v ← borrowed_value b; take_instant v) = take_instant (erase b).
Proof. destruct b; try done. intros Hv. cbn. by rewrite (valid_inline _ Hv). Qed.

Definition erase_fields (fs : BorrowedFields) : Fields := map (λ e, (e.1, erase e.2)) fs.
#[global] Instance erase_fields_proper : Proper ((≡ₚ) ==> (≡ₚ)) erase_fields.
Proof. intros fs gs H. unfold erase_fields. by apply Permutation_map. Qed.
Lemma list_find_fmap' {A B} (f : A → B) (P : B → Prop) (Q : A → Prop)
    `{∀ x, Decision (P x), ∀ x, Decision (Q x)} l :
  (∀ x, P (f x) ↔ Q x) →
  list_find P (map f l) = (λ p, (p.1, f p.2)) <$> list_find Q l.
Proof.
  intros HPQ. induction l as [|x l IH]; [done|]. cbn.
  destruct (decide (Q x)) as [Hq|Hq].
  - by rewrite decide_True by by apply HPQ.
  - rewrite decide_False by by rewrite HPQ. rewrite IH. by destruct (list_find Q l) as [[]|].
Qed.
Lemma swap_remove_map {A B} (f : A → B) i l : swap_remove i (map f l) = map f (swap_remove i l).
Proof.
  unfold swap_remove. rewrite length_map.
  destruct l as [|x l _] using rev_ind; [done|]. rewrite map_app at 1. cbn [map]. rewrite !last_snoc.
  change (map f (l ++ [x])) with (f <$> (l ++ [x])). rewrite <-list_fmap_insert.
  change (map f) with (fmap f (M := list)). by rewrite fmap_take.
Qed.
Lemma fields_take_erase name fs :
  fields_take name (erase_fields fs) =
  ('(b, fs) ← fields_take name fs; Ok (erase b, erase_fields fs)).
Proof.
  unfold fields_take, erase_fields.
  rewrite (list_find_fmap' _ (λ e, e.1 = name) (λ e, e.1 = name)) by done.
  destruct (list_find (λ e, e.1 = name) fs) as [[i [k b]]|]; [|done].
  cbn [fmap option_fmap option_map fst snd]. by rewrite swap_remove_map.
Qed.
(** A step over borrowed fields is the step over the erased fields. *)
Lemma borrowed_take_bind {A B} name (db : BorrowedMapValue → result GraphCodecError A)
    (dv : Value → result GraphCodecError A) (fs : BorrowedFields)
    (kb : A → BorrowedFields → result GraphCodecError B) kv :
  Forall (λ e, db e.2 = dv (erase e.2)) fs →
  (∀ a fs', (∀ e, e ∈ fs' → e ∈ fs) → kb a fs' = kv a (erase_fields fs')) →
  ('(a, fs) ← borrowed_take_with name db fs; kb a fs) =
  ('(a, fs) ← take_with name dv (erase_fields fs); kv a fs).
Proof.
  intros Hd Hk. unfold borrowed_take_with, take_with. rewrite fields_take_erase.
  destruct (fields_take name fs) as [[b fs']|] eqn:Ht; [|done]. rewrite !result_bind_Ok.
  cbv beta iota. apply fields_take_Ok in Ht.
  assert (db b = dv (erase b)) as ->.
  { rewrite Forall_forall in Hd. apply (Hd (name, b)). rewrite Ht. set_solver. }
  destruct (dv (erase b)) as [a|]; [|done]. rewrite !result_bind_Ok. cbv beta iota. apply Hk.
  intros e He. rewrite Ht. set_solver.
Qed.
Lemma erase_finish {B} fs (r : result GraphCodecError B) :
  (fields_finish fs;; r) = (fields_finish (erase_fields fs);; r).
Proof. by destruct fs. Qed.

Lemma erased_valid fs : value_valid (VMap (erase_fields fs)) →
  ∀ e, e ∈ fs → value_valid (erase e.2).
Proof.
  intros [_ Hv]%value_valid_map e He. rewrite Forall_forall in Hv.
  destruct (Hv (e.1, erase e.2)); [|done]. apply list_elem_of_fmap. by exists e.
Qed.
Lemma bind_assoc {E A B C} (m : result E A) (f : A → result E B) (g : B → result E C) :
  ((m ≫= f) ≫= g) = (m ≫= λ a, f a ≫= g).
Proof. by destruct m. Qed.

Lemma decode_borrowed_bound_erase b : value_valid (erase b) →
  decode_borrowed_bound b = decode_bound (erase b).
Proof.
  intros Hv. destruct b as [s|key value|fs|rs|v]; try done.
  - cbn [decode_borrowed_bound erase]. unfold decode_bound. cbn [Fields_new]. rewrite result_bind_Ok.
    unfold take_with, fields_take. cbn [list_find fst]. case_decide as Hk.
    + rewrite decide_False by (intros H; by apply Hk). done.
    + subst key. rewrite (decide_True (P := lit "kind" = lit "kind")) by done.
      cbn [fmap option_fmap option_map]. rewrite !result_bind_Ok. cbv beta iota.
      cbn [take_text take_bounded_text]. rewrite !result_bind_Ok. cbv beta iota.
      case_decide; [done|]. case_decide; [done|done].
  - pose proof (erased_valid fs Hv) as Hc. cbn [decode_borrowed_bound erase].
    unfold decode_bound. cbn [Fields_new]. rewrite result_bind_Ok.
    apply borrowed_take_bind; [apply Forall_forall; intros; apply borrowed_text_erase|].
    intros kind fs' Hfs'. case_decide; [apply erase_finish|]. case_decide; [|done].
    rewrite !bind_assoc. 
    transitivity ('(i, fields) ← borrowed_take_with (lit "instant")
      (λ v, v ← borrowed_value v; take_instant v) fs'; fields_finish fields;; Ok (Bounded i)).
    { by destruct (borrowed_take_with _ _ fs') as [[]|]. }
    rewrite (borrowed_take_bind _ _ take_instant _ _ (λ i fs, fields_finish fs;; Ok (Bounded i)));
      [| |intros a fs2 _; apply erase_finish].
    + by destruct (take_with _ _ _) as [[]|].
    + apply Forall_forall. intros e He. apply borrowed_instant_erase. auto.
Qed.
Lemma decode_borrowed_valid_time_erase b : value_valid (erase b) →
  borrowed_valid_time b = decode_valid_time (erase b).
Proof.
  intros Hv. destruct b as [s|key value|fs|rs|v]; try done.
  - cbn [borrowed_valid_time erase]. unfold decode_borrowed_singleton_valid_time, decode_valid_time.
    cbn [Fields_new]. rewrite result_bind_Ok.
    unfold take_with, fields_take. cbn [list_find fst]. case_decide as Hk.
    + rewrite decide_False by (intros H; by apply Hk). done.
    + subst key. rewrite (decide_True (P := lit "kind" = lit "kind")) by done.
      cbn [fmap option_fmap option_map]. rewrite !result_bind_Ok. cbv beta iota.
      cbn [take_text take_bounded_text]. rewrite !result_bind_Ok. cbv beta iota.
      case_decide; [done|]. case_decide; [done|done].
  - pose proof (erased_valid fs Hv) as Hc. cbn [borrowed_valid_time erase].
    unfold decode_borrowed_valid_time, decode_valid_time. cbn [Fields_new]. rewrite result_bind_Ok.
    apply borrowed_take_bind; [apply Forall_forall; intros; apply borrowed_text_erase|].
    intros kind fs' Hfs'. case_decide; [apply erase_finish|]. case_decide; [|done].
    set (kb := λ p : ValidTime * BorrowedFields, _). set (kv := λ p : ValidTime * Fields, _).
    assert (∀ s e fs, kb (HalfOpen s e, fs) = kv (HalfOpen s e, erase_fields fs)) as Hkb
      by (intros; apply erase_finish).
    rewrite !bind_assoc.
    transitivity ('(start, fields) ← borrowed_take_with (lit "start") decode_borrowed_bound fs';
      '(end_, fields) ← borrowed_take_with (lit "end") decode_borrowed_bound fields;
      kb (HalfOpen start end_, fields)).
    { destruct (borrowed_take_with _ _ fs') as [[? f1]|]; [|done]. cbn [mbind result_bind].
      by destruct (borrowed_take_with _ _ f1) as [[]|]. }
    rewrite (borrowed_take_bind _ _ decode_bound _ _ (λ start fields,
      '(end_, fields) ← take_with (lit "end") decode_bound fields;
      kv (HalfOpen start end_, fields))).
    2:{ apply Forall_forall; intros; apply decode_borrowed_bound_erase; auto. }
    2:{ intros s f1 Hf1. apply borrowed_take_bind; [|intros; apply Hkb].
        apply Forall_forall. intros. apply decode_borrowed_bound_erase. auto. }
    destruct (take_with (lit "start") _ _) as [[? f1]|]; [|done]. cbn [mbind result_bind].
    by destruct (take_with _ _ f1) as [[]|].
Qed.

(** ** The slot store *)
Lemma field_index_Some name i :
  borrowed_record_field_index name = Some i ↔ borrowed_record_fields !! i = Some name.
Proof.
  unfold borrowed_record_field_index. split.
  - destruct (list_find _ _) as [[j n]|] eqn:Hf; [|done]. intros [= <-].
    by apply list_find_Some in Hf as (? & -> & _).
  - intros Hi. assert (NoDup borrowed_record_fields) as Hnd by (apply (bool_decide_unpack _); vm_compute; done).
    assert (list_find (λ n, n = name) borrowed_record_fields = Some (i, name)) as ->; [|done].
    apply list_find_Some. split_and!; [done|done|]. intros j y Hj Hlt ->.
    pose proof (NoDup_lookup _ _ _ _ Hnd Hi Hj). lia.
Qed.
Definition known (name : list byte) : Prop := name ∈ borrowed_record_fields.
#[global] Instance known_dec name : Decision (known name) := decide (name ∈ borrowed_record_fields).
Lemma field_index_None name : borrowed_record_field_index name = None ↔ ¬ known name.
Proof.
  unfold known. rewrite list_elem_of_lookup. setoid_rewrite <-field_index_Some.
  destruct (borrowed_record_field_index name); naive_solver.
Qed.

Record slots_hold (f : BorrowedRecordFields) (es : BorrowedFields) : Prop := {
  sh_length : length (brf_fields f) = length borrowed_record_fields;
  sh_slot : ∀ i name b, borrowed_record_fields !! i = Some name →
    brf_slot i f = Some b ↔ (name, b) ∈ es;
  sh_remaining : brf_remaining f = zlen (filter (λ e, known e.1) es);
  sh_unknown : brf_unknown f = true ↔ Exists (λ e, ¬ known e.1) es
}.
Lemma slots_hold_perm f es es' : es ≡ₚ es' → slots_hold f es → slots_hold f es'.
Proof.
  intros Hp [H1 H2 H3 H4]. split; [done| | |].
  - intros i name b Hi. by rewrite <-Hp, H2.
  - unfold zlen in *. by rewrite <-Hp.
  - by rewrite <-Hp.
Qed.
Lemma slots_hold_new : slots_hold BorrowedRecordFields_new [].
Proof.
  split; [done| |done|].
  - intros i name b Hi. split; [|set_solver]. unfold brf_slot. cbn [brf_fields BorrowedRecordFields_new].
    rewrite lookup_replicate_2 by by apply lookup_lt_Some in Hi. done.
  - cbn. by rewrite Exists_nil.
Qed.
Lemma fresh_slot f es i name : slots_hold f es → borrowed_record_fields !! i = Some name →
  name ∉ es.*1 → brf_slot i f = None.
Proof.
  intros Hf Hi Hn. destruct (brf_slot i f) as [b|] eqn:Hs; [|done].
  apply (sh_slot _ _ Hf _ _ _ Hi) in Hs. destruct Hn. apply list_elem_of_fmap. by exists (name, b).
Qed.
Lemma slot_insert f i j v r u : length (brf_fields f) = length borrowed_record_fields →
  (i < length borrowed_record_fields)%nat →
  brf_slot j (mk_borrowed_fields (<[i := v]> (brf_fields f)) r u) =
  if decide (i = j) then v else brf_slot j f.
Proof.
  intros Hl Hi. unfold brf_slot. cbn [brf_fields]. case_decide as Hij.
  - subst j. by rewrite list_lookup_insert_eq by lia.
  - by rewrite list_lookup_insert_ne.
Qed.
Lemma names_inj i j name : borrowed_record_fields !! i = Some name →
  borrowed_record_fields !! j = Some name → i = j.
Proof. intros Hi%field_index_Some Hj%field_index_Some. congruence. Qed.

Lemma slots_hold_insert f es k b : slots_hold f es → k ∉ es.*1 →
  slots_hold (brf_insert k b f) ((k, b) :: es).
Proof.
  intros Hf Hk. pose proof Hf as [H1 H2 H3 H4]. unfold brf_insert.
  destruct (borrowed_record_field_index k) as [i|] eqn:Hi.
  - apply field_index_Some in Hi. rewrite (fresh_slot _ _ _ _ Hf Hi Hk).
    pose proof (lookup_lt_Some _ _ _ Hi) as Hlt.
    assert (known k) as Hkn by (apply list_elem_of_lookup; by exists i). split.
    + cbn. by rewrite length_insert.
    + intros j name c Hj. rewrite slot_insert by done. case_decide as Hij.
      * subst j. assert (name = k) as -> by congruence.
        split; [intros [= ->]; set_solver|]. intros [[= ->]|Hin]%elem_of_cons; [done|].
        destruct Hk. apply list_elem_of_fmap. by exists (k, c).
      * rewrite (H2 _ _ _ Hj). split; [set_solver|]. intros [[= -> ->]|?]%elem_of_cons; [|done].
        destruct Hij. by eapply names_inj.
    + cbn [brf_remaining]. rewrite filter_cons_True by done. rewrite zlen_cons. lia.
    + cbn [brf_unknown]. rewrite Exists_cons, H4. cbn. tauto.
  - apply field_index_None in Hi. split; [done| | |].
    + intros j name c Hj. cbn [brf_fields]. rewrite elem_of_cons.
      etransitivity; [apply (H2 _ _ _ Hj)|]. split; [by right|]. intros [[= -> ->]|?]; [|done].
      destruct Hi. apply list_elem_of_lookup. by exists j.
    + cbn [brf_remaining]. by rewrite filter_cons_False by done.
    + cbn [brf_unknown]. rewrite Exists_cons. cbn. tauto.
Qed.
Lemma slots_hold_fold es f es0 : slots_hold f es0 → NoDup (es0.*1 ++ es.*1) →
  ∃ es', es' ≡ₚ es0 ++ es ∧
    slots_hold (foldl (λ st e, brf_insert e.1 e.2 st) f es) es'.
Proof.
  revert f es0. induction es as [|[k b] es IH]; intros f es0 Hf Hnd.
  { exists es0. by rewrite app_nil_r. }
  rewrite fmap_cons, <-Permutation_middle in Hnd. cbn in Hnd. apply NoDup_cons in Hnd as [Hk Hnd].
  destruct (IH (brf_insert k b f) ((k, b) :: es0)) as (es' & Hp & H).
  - apply slots_hold_insert; [done|]. set_solver.
  - cbn. apply NoDup_cons. done.
  - exists es'. split; [|done]. rewrite Hp. cbn. by rewrite Permutation_middle.
Qed.

Lemma slots_hold_take f es i name b : slots_hold f ((name, b) :: es) →
  NoDup (name :: es.*1) → borrowed_record_fields !! i = Some name →
  slots_hold (mk_borrowed_fields (<[i := None]> (brf_fields f)) (brf_remaining f - 1)
    (brf_unknown f)) es.
Proof.
  intros [H1 H2 H3 H4] [Hn _]%NoDup_cons Hi. pose proof (lookup_lt_Some _ _ _ Hi) as Hlt.
  assert (known name) as Hkn by (apply list_elem_of_lookup; by exists i). split.
  - cbn. by rewrite length_insert.
  - intros j n c Hj. rewrite slot_insert by done. case_decide as Hij.
    + subst j. assert (n = name) as -> by congruence. split; [done|]. intros Hin.
      destruct Hn. apply list_elem_of_fmap. by exists (name, c).
    + rewrite (H2 _ _ _ Hj), elem_of_cons. split; [|by right]. intros [[= -> ->]|?]; [|done].
      destruct Hij. by eapply names_inj.
  - cbn [brf_remaining]. rewrite H3, filter_cons_True, zlen_cons by done. lia.
  - cbn [brf_unknown]. rewrite H4, Exists_cons. cbn. tauto.
Qed.

(** ** The two stores *)
Definition entry_ok (e : list byte * BorrowedMapValue) : Prop :=
  value_valid (erase e.2) ∧ (e.1 = lit "valid_time" ∨ e.1 = lit "evidence" ∨ whole e.2).
Definition fields_rel (f : BorrowedRecordFields) (fs : Fields) : Prop :=
  ∃ es, NoDup es.*1 ∧ slots_hold f es ∧ Forall entry_ok es ∧ fs ≡ₚ erase_fields es.
(** Equal results, up to the store they leave. *)
Definition sim {A} (r1 : result GraphCodecError (A * BorrowedRecordFields))
    (r2 : result GraphCodecError (A * Fields)) : Prop :=
  match r1, r2 with
  | Ok (a, f), Ok (b, fs) => a = b ∧ fields_rel f fs
  | Err e, Err e' => e = e'
  | _, _ => False
  end.
Lemma sim_bind {A B} r1 r2 (k1 : A → BorrowedRecordFields → result GraphCodecError (B * _)) k2 :
  sim r1 r2 → (∀ a f fs, fields_rel f fs → sim (k1 a f) (k2 a fs)) →
  sim ('(a, f) ← r1; k1 a f) ('(a, fs) ← r2; k2 a fs).
Proof.
  intros Hr Hk. destruct r1 as [[a f]|], r2 as [[b g]|]; try done. destruct Hr as [-> ?].
  by apply Hk.
Qed.
Lemma sim_end {A B} r1 r2 (k1 : A → BorrowedRecordFields → result GraphCodecError B) k2 :
  sim r1 r2 → (∀ a f fs, fields_rel f fs → k1 a f = k2 a fs) →
  ('(a, f) ← r1; k1 a f) = ('(a, fs) ← r2; k2 a fs).
Proof.
  intros Hr Hk. destruct r1 as [[a f]|], r2 as [[b g]|]; try done; cbn; [|by rewrite Hr].
  destruct Hr as [-> ?]. by apply Hk.
Qed.
Lemma sim_pure {A B} (r : result GraphCodecError A)
    (k1 : A → result GraphCodecError (B * BorrowedRecordFields)) k2 :
  (∀ a, sim (k1 a) (k2 a)) → sim (a ← r; k1 a) (a ← r; k2 a).
Proof. intros Hk. by destruct r; cbn. Qed.

Lemma fields_take_unique {V} name v (fs fs' : list (list byte * V)) : NoDup fs.*1 →
  fs ≡ₚ (name, v) :: fs' → ∃ fs2, fields_take name fs = Ok (v, fs2) ∧ fs2 ≡ₚ fs'.
Proof.
  intros Hnd Hp. destruct (fields_take name fs) as [[w fs2]|e] eqn:Ht.
  - apply fields_take_Ok in Ht as Hp2. exists fs2.
    assert (w = v) as ->.
    { assert ((name, w) ∈ (name, v) :: fs') as Hin by (rewrite <-Hp, Hp2; set_solver).
      apply elem_of_cons in Hin as [[= ->]|Hin]; [done|]. rewrite Hp in Hnd. cbn in Hnd.
      apply NoDup_cons in Hnd as [Hn _]. destruct Hn. apply list_elem_of_fmap. by exists (name, w). }
    split; [done|]. rewrite Hp2 in Hp. by apply Permutation_cons_inv in Hp.
  - exfalso. unfold fields_take in Ht. destruct (list_find _ fs) as [[i [k w]]|] eqn:Hf; [done|].
    apply list_find_None in Hf. rewrite Forall_forall in Hf. apply (Hf (name, v)); [|done].
    rewrite Hp. set_solver.
Qed.
Lemma fields_take_absent {V} name (fs : list (list byte * V)) :
  name ∉ fs.*1 → fields_take name fs = Err (MissingField name).
Proof.
  intros Hn. unfold fields_take. destruct (list_find _ fs) as [[i [k w]]|] eqn:Hf; [|done].
  apply list_find_Some in Hf as (Hi & Hk & _). cbn in Hk. subst k. destruct Hn.
  apply list_elem_of_fmap. exists (name, w). split; [done|]. by eapply list_elem_of_lookup_2.
Qed.
Lemma erase_fields_keys es : (erase_fields es).*1 = es.*1.
Proof. induction es as [|e es IH]; [done|]. cbn. by f_equal. Qed.

(** One [take] followed by a conversion. *)
Lemma take_sim {A} name (db : BorrowedMapValue → result GraphCodecError A) dv f fs :
  known name → fields_rel f fs →
  (∀ b, entry_ok (name, b) → db b = dv (erase b)) →
  sim (brf_take_with db name f) (take_with name dv fs).
Proof.
  intros [i Hi]%list_elem_of_lookup (es & Hnd & Hf & Hok & Hfs) Hd.
  unfold brf_take_with, brf_take, take_with. rewrite (proj2 (field_index_Some _ _) Hi).
  assert (fs.*1 ≡ₚ es.*1) as Hkeys by (rewrite Hfs; by rewrite erase_fields_keys).
  destruct (brf_slot i f) as [b|] eqn:Hs.
  - apply (sh_slot _ _ Hf _ _ _ Hi) in Hs. apply elem_of_Permutation in Hs as [es' Hp].
    destruct (fields_take_unique name (erase b) fs (erase_fields es')) as (fs2 & Ht & Hfs2).
    { by rewrite Hkeys. }
    { by rewrite Hfs, Hp. }
    rewrite Ht. cbn [ok_or]. rewrite !result_bind_Ok. cbv beta iota.
    rewrite Hp in Hnd, Hok. apply Forall_cons in Hok as [Hb Hok]. rewrite Hd by done.
    destruct (dv (erase b)); [|done]. rewrite !result_bind_Ok. split; [done|].
    exists es'. split_and!; [|by eapply slots_hold_take, Hi; [eapply slots_hold_perm|]|done|done].
    by apply NoDup_cons in Hnd as [_ ?].
  - rewrite fields_take_absent; [done|]. rewrite Hkeys. intros Hin.
    apply list_elem_of_fmap in Hin as ([n b] & -> & Hin).
    apply (sh_slot _ _ Hf _ _ _ Hi) in Hin. congruence.
Qed.

Lemma finish_rel f fs : fields_rel f fs →
  rf_finish (F := BorrowedRecordFields) f = rf_finish (F := Fields) fs.
Proof.
  intros (es & _ & [_ _ Hr Hu] & _ & Hfs).
  assert ((brf_remaining f =? 0) && negb (brf_unknown f) = bool_decide (es = [])) as Hb.
  { destruct es as [|e es].
    - destruct (brf_unknown f); [by destruct (proj1 (Exists_nil _) (proj1 Hu eq_refl))|].
      by rewrite Hr.
    - rewrite (bool_decide_eq_false_2 (e :: es = [])) by done.
      destruct (decide (known e.1)) as [Hk|Hk].
      + rewrite Hr, filter_cons_True, zlen_cons by done.
        pose proof (zlen_nonneg (filter (λ e, known e.1) es)).
        by rewrite (proj2 (Z.eqb_neq _ _)) by lia.
      + rewrite (proj2 Hu); [apply andb_false_r|]. by left. }
  cbn [rf_finish BorrowedRecordFields_RecordFields Fields_RecordFields]. rewrite Hb.
  destruct es as [|e es]; cbn [erase_fields map] in Hfs.
  - apply Permutation_nil_r in Hfs as ->. done.
  - destruct fs; [by apply Permutation_nil_l in Hfs|done].
Qed.

Section interface.
Context (f : BorrowedRecordFields) (fs : Fields) (Hrel : fields_rel f fs).
Lemma text_sim name : known name →
  sim (rf_take_text (F := BorrowedRecordFields) name f) (rf_take_text (F := Fields) name fs).
Proof. intros Hk. apply take_sim; [done|done|]. intros b _. apply borrowed_text_erase. Qed.
Lemma refs_sim name : known name →
  sim (rf_take_refs (F := BorrowedRecordFields) name f) (rf_take_refs (F := Fields) name fs).
Proof. intros Hk. apply take_sim; [done|done|]. intros b _. apply borrowed_refs_erase. Qed.
Lemma valid_time_sim name : known name →
  sim (rf_take_valid_time (F := BorrowedRecordFields) name f)
    (rf_take_valid_time (F := Fields) name fs).
Proof.
  intros Hk. apply take_sim; [done|done|]. intros b [Hv _].
  by apply decode_borrowed_valid_time_erase.
Qed.
Definition whole_field (name : list byte) : Prop :=
  known name ∧ name ≠ lit "valid_time" ∧ name ≠ lit "evidence".
Lemma value_sim name : whole_field name →
  sim (rf_take_value (F := BorrowedRecordFields) name f) (rf_take_value (F := Fields) name fs).
Proof.
  intros (Hk & H1 & H2).
  assert (rf_take_value (F := Fields) name fs = take_with name Ok fs) as ->.
  { cbn [rf_take_value Fields_RecordFields]. unfold take_any, take_with.
    by destruct (fields_take name fs) as [[]|]. }
  apply take_sim; [done|done|]. intros b [Hv Hw]. apply borrowed_value_erase; [|done].
  naive_solver.
Qed.
Lemma with_sim {A} name (dec : Value → result GraphCodecError A) : whole_field name →
  sim (rf_take_with (F := BorrowedRecordFields) name dec f)
    (rf_take_with (F := Fields) name dec fs).
Proof.
  intros Hw. unfold rf_take_with. pose proof (value_sim name Hw) as Hs.
  destruct (rf_take_value (F := BorrowedRecordFields) name f) as [[v1 f1]|],
    (rf_take_value (F := Fields) name fs) as [[v2 f2]|]; try done. destruct Hs as [-> ?].
  cbn. by destruct (dec v2); cbn.
Qed.
End interface.

Ltac whole_tac :=
  split_and!; [apply (bool_decide_unpack _); vm_compute; reflexivity|vm_compute; discriminate..].
Ltac sim_step :=
  match goal with
  | |- sim (x ← assertion_status _; _) _ => apply sim_pure; intros ?
  | |- sim (x ← lifecycle_of_name _; _) _ => apply sim_pure; intros ?
  | |- sim (Ok _) (Ok _) => by split
  | |- sim (Err _) (Err _) => done
  | |- sim (if decide ?P then _ else _) _ => destruct (decide P)
  | |- sim (x ← rf_take_with _ _ _; _) _ =>
      apply sim_bind; [apply with_sim; [assumption|whole_tac]|clear; intros ????]
  | |- sim (x ← rf_take_value _ _; _) _ =>
      apply sim_bind; [apply value_sim; [assumption|whole_tac]|clear; intros ????]
  | |- sim (x ← rf_take_text _ _; _) _ =>
      apply sim_bind; [apply text_sim; [assumption|apply (bool_decide_unpack _); vm_compute; reflexivity]
        |clear; intros ????]
  | |- sim (x ← rf_take_refs _ _; _) _ =>
      apply sim_bind; [apply refs_sim; [assumption|apply (bool_decide_unpack _); vm_compute; reflexivity]
        |clear; intros ????]
  | |- sim (x ← rf_take_valid_time _ _; _) _ =>
      apply sim_bind; [apply valid_time_sim;
        [assumption|apply (bool_decide_unpack _); vm_compute; reflexivity]|clear; intros ????]
  end.
(** The generic record decoder gives the same result over related stores. *)
Lemma decode_record_fields_rel f fs : fields_rel f fs →
  decode_record_fields (F := BorrowedRecordFields) f = decode_record_fields (F := Fields) fs.
Proof.
  intros Hrel. unfold decode_record_fields. 
  apply sim_end.
  { apply text_sim; [done|]. apply (bool_decide_unpack _). vm_compute. reflexivity. }
  clear. intros kind f fs Hrel. apply sim_end.
  2:{ clear. intros rec f fs Hrel. by rewrite (finish_rel f fs Hrel). }
  repeat sim_step.
Qed.

(** ** Shapes of decoded entries *)
Lemma entries_decode_from {A} (dec : list byte → decoder A) n p s es s' :
  entries_decode dec n p s = Ok (es, s') →
  Forall (λ e, ∃ s1 s2, dec e.1 s1 = Ok (e.2, s2)) es.
Proof.
  revert p s es. induction n as [|n IH]; intros p s es H; cbn [entries_decode] in H.
  { injection H as <- _. constructor. }
  apply bind_Ok in H as ([k c] & _ & H).
  destruct (match p with Some _ => _ | None => _ end); [done|].
  apply bind_Ok in H as ([a s1] & Ha & H). apply bind_Ok in H as ([es' s2] & Hes & [= <- <-]).
  constructor; [by exists (c, s.2), s1|by eapply IH].
Qed.
Lemma payload_whole fuel d s b s' :
  decode_borrowed_map_payload fuel d s = Ok (b, s') → whole b.
Proof.
  unfold decode_borrowed_map_payload. intros (tag & _ & H)%bind_Ok. case_decide.
  - apply bind_Ok in H as ([v s1] & _ & [= <- _]). done.
  - apply bind_Ok in H as (u & _ & H). apply bind_Ok in H as ([x c] & _ & H).
    by apply bind_Ok in H as ([str c'] & _ & [= <- _]).
Qed.
Lemma selected_whole key d s b s' : key ≠ lit "valid_time" → key ≠ lit "evidence" →
  decode_selected_borrowed_payload [lit "valid_time"] [lit "evidence"] key d s = Ok (b, s') →
  whole b.
Proof.
  intros H1 H2. unfold decode_selected_borrowed_payload.
  rewrite !decide_False by (by rewrite list_elem_of_singleton).
  apply payload_whole.
Qed.
Lemma selected_entries input es :
  decode_borrowed_map_value_with_fields_and_record_refs input [lit "valid_time"] [lit "evidence"]
    = Ok (Some es) →
  Forall (λ e, e.1 = lit "valid_time" ∨ e.1 = lit "evidence" ∨ whole e.2) es.
Proof.
  unfold decode_borrowed_map_value_with_fields_and_record_refs, decode_map_entries.
  intros (p & _ & H)%bind_Ok. case_decide; [|by apply bind_Ok in H as (v & _ & H)].
  apply bind_Ok in H as ([b c] & _ & H). apply bind_Ok in H as (u & _ & H).
  apply bind_Ok in H as ([[d n] s] & _ & H). apply bind_Ok in H as ([es' s'] & He & H).
  destruct (negb _); [done|]. injection H as <-. apply entries_decode_from in He.
  apply (Forall_impl _ _ _ He). intros [k b'] (s1 & s2 & Hs). cbn in *.
  destruct (decide (k = lit "valid_time")); [by left|].
  destruct (decide (k = lit "evidence")); [by right; left|]. right; right.
  by eapply selected_whole.
Qed.

(** C35: the borrowed decoder of stored records is the owned one: on every input, the
    same record or the same error. *)
Theorem decode_stored_record_equiv input : zlen input ≤ I64_MAX →
  decode_stored_record input = decode_result_record input.
Proof.
  intros Hlen. unfold decode_stored_record, decode_result_record, decode_frame,
    visit_borrowed_map_value_with_fields_and_record_refs.
  pose proof (map_entries_agree erase (decode_selected_borrowed_payload [lit "valid_time"]
    [lit "evidence"]) input (λ k, selected_agrees _ _ k 1 ltac:(done))) as Hagree.
  fold (decode_borrowed_map_value_with_fields_and_record_refs input [lit "valid_time"]
    [lit "evidence"]) in Hagree.
  destruct (decode_borrowed_map_value_with_fields_and_record_refs _ _ _) as [[es|]|e] eqn:Hes;
    destruct (decode_value input) as [v|] eqn:Hv; try done;
    cbn [erase_result map_result option_map] in Hagree.
  - injection Hagree as Hes'. destruct v; try done. injection Hes' as <-.
    apply decode_value_frame in Hv as [Hv _]; [|done].
    apply selected_entries in Hes. pose proof (erased_valid es Hv) as Hvalid.
    apply value_valid_map in Hv as [Hsort _]. fold (erase_fields es) in *.
    rewrite erase_fields_keys in Hsort.
    assert (NoDup es.*1) as Hnd by (by apply sorted_strict_NoDup, (Sorted_StronglySorted _)).
    destruct (slots_hold_fold es BorrowedRecordFields_new [] slots_hold_new) as (es' & Hp & Hh);
      [done|]. cbn [app] in Hp.
    cbn [map_err mbind result_bind ok_or option_map Fields_new].
    apply decode_record_fields_rel. exists es'. split_and!; [by rewrite Hp|done| |by rewrite Hp].
    rewrite Hp. apply Forall_forall. intros e He. rewrite Forall_forall in Hes.
    split; [by apply Hvalid|by apply Hes].
  - injection Hagree as Hv'. destruct v; done.
  - injection Hagree as <-. done.
Qed.
Lemma decode_stored_record_equiv_witness :
  decode_stored_record (ok_bytes (encode_result_record codec_record)) = Ok codec_record.
Proof.
  rewrite decode_stored_record_equiv by (by vm_compute). vm_compute. reflexivity.
Defined.
