(* ===== verification/GraphIndex.v ===== *)
(** * Graph references and derived indexes

    Models the index half of [crates/uste-graph/src/state.rs]: the references a
    record makes, the reverse-reference summaries, the four derived indexes of a
    [GraphSnapshot] and their incremental maintenance, and the version lookup
    [record_at].

    A recursion over a [Value] with a visitor calls the visitor on the value's
    record references from left to right; [value_references] is that sequence
    and a visitor is a fold over it.  [BTreeMap]s are [gmap]s; the four derived
    maps of [GraphSnapshot] are grouped in [GraphIndexes]. *)
From S2P Require Import Prelude Ids Value Policy GraphRecord.

(** ** References of a record *)
Fixpoint value_references (v : Value) : list RecordRef :=
  match v with
  | VRecordRef r => [r]
  | VList items => foldr (λ c rs, value_references c ++ rs) [] items
  | VMap entries => foldr (λ e rs, value_references e.2 ++ rs) [] entries
  | _ => []
  end.

Definition REVERSE_KIND_ENTITY : Z := 1.
Definition REVERSE_KIND_ASSERTION : Z := 2.
Definition REVERSE_KIND_RELATIONSHIP : Z := 3.
Definition REVERSE_STATE_ACTIVE : Z := 1.
Definition REVERSE_STATE_DELETED : Z := 2.
Definition REVERSE_STATE_PROPOSED : Z := 1.
Definition REVERSE_STATE_ACCEPTED : Z := 2.
Definition REVERSE_STATE_REJECTED : Z := 3.
Definition REVERSE_STATE_DISPUTED : Z := 4.
Definition REVERSE_STATE_SUPERSEDED : Z := 5.
Definition REVERSE_STATE_RETRACTED : Z := 6.
Definition REVERSE_STATE_EXPIRED : Z := 7.
Definition REVERSE_ROLE_ENTITY_PROPERTY : Z := Z.shiftl 1 0.
Definition REVERSE_ROLE_ASSERTION_SUBJECT : Z := Z.shiftl 1 1.
Definition REVERSE_ROLE_ASSERTION_OBJECT : Z := Z.shiftl 1 2.
Definition REVERSE_ROLE_RELATIONSHIP_FROM : Z := Z.shiftl 1 3.
Definition REVERSE_ROLE_RELATIONSHIP_TO : Z := Z.shiftl 1 4.
Definition REVERSE_ROLE_RELATIONSHIP_PROPERTY : Z := Z.shiftl 1 5.
Definition REVERSE_ROLE_EVIDENCE : Z := Z.shiftl 1 6.
Definition REVERSE_ROLE_CORRECTION_OF : Z := Z.shiftl 1 7.

(** [try_visit_value_references] and [try_visit_record_references]: the calls
    [visitor(target, role)] in order. *)
Definition visit_value_references (v : Value) (role : Z) : list (RecordRef * Z) :=
  map (λ r, (r, role)) (value_references v).
Definition visit_record_references (record : GRecord) : list (RecordRef * Z) :=
  match record with
  | REntity entity => visit_value_references (e_properties entity) REVERSE_ROLE_ENTITY_PROPERTY
  | REvidence _ => []
  | RAssertion assertion =>
      (a_subject assertion, REVERSE_ROLE_ASSERTION_SUBJECT)
      :: visit_value_references (a_object assertion) REVERSE_ROLE_ASSERTION_OBJECT
      ++ map (λ e, (e, REVERSE_ROLE_EVIDENCE)) (a_evidence assertion)
      ++ match a_correction_of assertion with
         | Some previous => [(previous, REVERSE_ROLE_CORRECTION_OF)]
         | None => []
         end
  | RRelationship relationship =>
      (r_from relationship, REVERSE_ROLE_RELATIONSHIP_FROM)
      :: (r_to relationship, REVERSE_ROLE_RELATIONSHIP_TO)
      :: visit_value_references (r_properties relationship) REVERSE_ROLE_RELATIONSHIP_PROPERTY
      ++ map (λ e, (e, REVERSE_ROLE_EVIDENCE)) (r_evidence relationship)
      ++ match r_correction_of relationship with
         | Some previous => [(previous, REVERSE_ROLE_CORRECTION_OF)]
         | None => []
         end
  end.

Record ReverseReference : Set := mk_reverse {
  owner_kind : Z;
  owner_state : Z;
  roles : Z;
  owner_version : RecordVersion;
  owner_revision : CommitRevision
}.
#[global] Instance ReverseReference_eq_dec : EqDecision ReverseReference.
Proof. solve_decision. Defined.

Definition reverse_assertion_state (status : AssertionStatus) : Z :=
  match status with
  | Proposed => REVERSE_STATE_PROPOSED
  | Accepted => REVERSE_STATE_ACCEPTED
  | Rejected => REVERSE_STATE_REJECTED
  | Disputed => REVERSE_STATE_DISPUTED
  | Superseded => REVERSE_STATE_SUPERSEDED
  | Retracted => REVERSE_STATE_RETRACTED
  | Expired => REVERSE_STATE_EXPIRED
  end.
(** Evidence is unreachable in the source: it makes no references, so its
    summary is never built. *)
Definition reverse_reference (record : GRecord) (roles : Z) : ReverseReference :=
  let '(kind, state) :=
    match record with
    | REntity entity =>
        (REVERSE_KIND_ENTITY,
         match e_lifecycle entity with
         | Active => REVERSE_STATE_ACTIVE
         | Deleted => REVERSE_STATE_DELETED
         end)
    | RAssertion assertion =>
        (REVERSE_KIND_ASSERTION, reverse_assertion_state (a_status assertion))
    | RRelationship relationship =>
        (REVERSE_KIND_RELATIONSHIP, reverse_assertion_state (r_status relationship))
    | REvidence _ => (0, 0)
    end in
  mk_reverse kind state roles (record_version record) (modified_revision record).

Definition record_reverse_references (record : GRecord) : gmap RecordRef ReverseReference :=
  foldl (λ references '(target, role),
    match references !! target with
    | Some reference =>
        <[target := mk_reverse (owner_kind reference) (owner_state reference)
                      (Z.lor (roles reference) role) (owner_version reference)
                      (owner_revision reference)]> references
    | None => <[target := reverse_reference record role]> references
    end) ∅ (visit_record_references record).
Definition reverse_reference_for_target (record : GRecord) (expected : RecordRef) :
    option ReverseReference :=
  let roles := foldl (λ roles '(target, role),
    if decide (target = expected) then Z.lor roles role else roles) 0
    (visit_record_references record) in
  if roles =? 0 then None else Some (reverse_reference record roles).

(** ** Derived indexes *)
Abbreviation SetIndex := (gmap RecordRef (gset RecordRef)).
Abbreviation ReverseIndex := (gmap RecordRef (gmap RecordRef ReverseReference)).
Record GraphIndexes : Set := mk_indexes {
  outgoing : SetIndex;
  incoming : SetIndex;
  provenance : SetIndex;
  reverse : ReverseIndex
}.
#[global] Instance GraphIndexes_eq_dec : EqDecision GraphIndexes.
Proof. solve_decision. Defined.
Definition empty_indexes : GraphIndexes := mk_indexes ∅ ∅ ∅ ∅.

(** [index.entry(key).or_default().insert(value)]. *)
Definition insert_index_value (key value : RecordRef) (index : SetIndex) : SetIndex :=
  <[key := {[ value ]} ∪ default ∅ (index !! key)]> index.
Definition remove_index_value (key value : RecordRef) (index : SetIndex) : SetIndex :=
  match index !! key with
  | Some values =>
      let values := values ∖ {[ value ]} in
      if decide (values = ∅) then delete key index else <[key := values]> index
  | None => index
  end.
Definition add_reverse_contributions (record : GRecord) (reverse : ReverseIndex) : ReverseIndex :=
  foldl (λ reverse '(target, reference),
    <[target := <[record_id record := reference]> (default ∅ (reverse !! target))]> reverse)
    reverse (btree_entries (record_reverse_references record)).
Definition remove_reverse_contributions (record : GRecord) (reverse : ReverseIndex) :
    ReverseIndex :=
  foldl (λ reverse target,
    match reverse !! target with
    | Some owners =>
        let owners := delete (record_id record) owners in
        if decide (owners = ∅) then delete target reverse else <[target := owners]> reverse
    | None => reverse
    end) reverse (btree_keys (record_reverse_references record)).

Definition add_index_contributions (record : GRecord) (s : GraphIndexes) : GraphIndexes :=
  let s :=
    match record with
    | RRelationship relationship =>
        let id := r_id relationship in
        let '(out, inc) :=
          if decide (r_status relationship = Accepted)
          then (insert_index_value (r_from relationship) id (outgoing s),
                insert_index_value (r_to relationship) id (incoming s))
          else (outgoing s, incoming s) in
        mk_indexes out inc
          (foldl (λ p evidence, insert_index_value evidence id p) (provenance s)
             (r_evidence relationship)) (reverse s)
    | RAssertion assertion =>
        mk_indexes (outgoing s) (incoming s)
          (foldl (λ p evidence, insert_index_value evidence (a_id assertion) p) (provenance s)
             (a_evidence assertion)) (reverse s)
    | _ => s
    end in
  mk_indexes (outgoing s) (incoming s) (provenance s)
    (add_reverse_contributions record (reverse s)).
Definition remove_index_contributions (record : GRecord) (s : GraphIndexes) : GraphIndexes :=
  let s :=
    match record with
    | RRelationship relationship =>
        let id := r_id relationship in
        let '(out, inc) :=
          if decide (r_status relationship = Accepted)
          then (remove_index_value (r_from relationship) id (outgoing s),
                remove_index_value (r_to relationship) id (incoming s))
          else (outgoing s, incoming s) in
        mk_indexes out inc
          (foldl (λ p evidence, remove_index_value evidence id p) (provenance s)
             (r_evidence relationship)) (reverse s)
    | RAssertion assertion =>
        mk_indexes (outgoing s) (incoming s)
          (foldl (λ p evidence, remove_index_value evidence (a_id assertion) p) (provenance s)
             (a_evidence assertion)) (reverse s)
    | _ => s
    end in
  mk_indexes (outgoing s) (incoming s) (provenance s)
    (remove_reverse_contributions record (reverse s)).
(** [rebuild_indexes] clears the four maps and repeats the insertions of
    [add_index_contributions] for every record in key order. *)
Definition rebuild_indexes (records : gmap RecordRef GRecord) : GraphIndexes :=
  foldl (λ s record, add_index_contributions record s) empty_indexes (btree_values records).

(** ** Versions *)

(** [versions.partition_point(|r| r.modified_revision() <= revision)]: binary
    search; on the sorted histories of the graph it counts the leading versions
    at or before the revision. *)
Fixpoint partition_point {A} (p : A → bool) (l : list A) : nat :=
  match l with
  | x :: l => if p x then S (partition_point p l) else O
  | [] => O
  end.
Definition record_at (history : gmap RecordRef (list GRecord)) (id : RecordRef)
    (revision : CommitRevision) : option GRecord :=
  versions ← history !! id;
  match partition_point (λ r, modified_revision r <=? revision) versions with
  | O => None
  | S index => versions !! index
  end.

(** ** The derived indexes are functions of the records

    [indexes_ok] states what the four indexes hold.  It determines them, every
    incremental update keeps it, and [rebuild_indexes] establishes it, so
    incremental maintenance and rebuilding agree. *)

Abbreviation Records := (gmap RecordRef GRecord).
(** Records are filed under their own identifier. *)
Definition keyed (records : Records) : Prop :=
  map_Forall (λ id r, record_id r = id) records.

(** ** Reverse references of one record *)
Lemma visit_roles record : Forall (λ p, 0 < p.2) (visit_record_references record).
Proof.
  assert (∀ v role, 0 < role → Forall (λ p, 0 < p.2) (visit_value_references v role)) as Hv.
  { intros v role Hr. unfold visit_value_references. apply Forall_fmap, Forall_forall. done. }
  assert (∀ l role, 0 < role → Forall (λ p : RecordRef * Z, 0 < p.2) (map (λ e, (e, role)) l)) as Hm.
  { intros l role Hr. apply Forall_fmap, Forall_forall. done. }
  destruct record as [e|e|a|r]; cbn [visit_record_references]; [by apply Hv|constructor| |].
  - constructor; [done|]. apply Forall_app. split; [by apply Hv|]. apply Forall_app.
    split; [by apply Hm|]. destruct (a_correction_of a); by repeat constructor.
  - constructor; [done|]. constructor; [done|]. apply Forall_app. split; [by apply Hv|].
    apply Forall_app. split; [by apply Hm|]. destruct (r_correction_of r); by repeat constructor.
Qed.
(** The roles under which a list of visits reaches [target]. *)
Definition roles_of (target : RecordRef) (visits : list (RecordRef * Z)) : Z :=
  foldl (λ roles '(t, role), if decide (t = target) then Z.lor roles role else roles) 0 visits.
Lemma roles_of_nonneg t l : Forall (λ p, 0 < p.2) l → 0 ≤ roles_of t l.
Proof.
  unfold roles_of. induction l as [|[t' role] l IH] using rev_ind; [done|].
  intros [Hl Hr]%Forall_app. apply Forall_cons in Hr as [Hr _]. cbn [snd] in Hr.
  rewrite foldl_app. cbn. case_decide; [|by apply IH]. apply Z.lor_nonneg. split; [by apply IH|lia].
Qed.
Lemma roles_of_snoc t l t' role :
  roles_of t (l ++ [(t', role)]) = if decide (t' = t) then Z.lor (roles_of t l) role else roles_of t l.
Proof. unfold roles_of. by rewrite foldl_app. Qed.
Lemma roles_of_pos t l : Forall (λ p, 0 < p.2) l → roles_of t l ≠ 0 ↔ t ∈ l.*1.
Proof.
  induction l as [|[t' role] l IH] using rev_ind; [cbn; intros _; set_solver|].
  intros [Hl Hr]%Forall_app. apply Forall_cons in Hr as [Hr _]. cbn [snd] in Hr.
  rewrite roles_of_snoc, fmap_app. cbn. specialize (IH Hl). pose proof (roles_of_nonneg t l Hl).
  case_decide as Ht.
  - split; [set_solver|]. intros _ H0%Z.lor_eq_0_iff. lia.
  - rewrite IH. set_solver.
Qed.
(** The role bits are those of the visits. *)
Lemma roles_of_testbit t l i : 0 ≤ i →
  Z.testbit (roles_of t l) i = true ↔ ∃ role, (t, role) ∈ l ∧ Z.testbit role i = true.
Proof.
  intros Hi. induction l as [|[t' role] l IH] using rev_ind.
  { cbn. rewrite Z.testbit_0_l. set_solver. }
  rewrite roles_of_snoc. case_decide as Ht.
  - subst t'. rewrite Z.lor_spec, orb_true_iff, IH. set_solver.
  - rewrite IH. set_solver.
Qed.

(** The two ways to summarise a record's references agree. *)
Lemma record_reverse_references_lookup record target :
  record_reverse_references record !! target = reverse_reference_for_target record target.
Proof.
  unfold record_reverse_references, reverse_reference_for_target.
  fold (roles_of target (visit_record_references record)).
  pose proof (visit_roles record) as Hpos. revert Hpos.
  induction (visit_record_references record) as [|[t role] l IH] using rev_ind; [done|].
  intros [Hl Hr]%Forall_app. apply Forall_cons in Hr as [Hr _]. cbn [snd] in Hr. specialize (IH Hl).
  rewrite foldl_app. cbn [foldl]. rewrite roles_of_snoc.
  set (m := foldl _ ∅ l) in *. pose proof (roles_of_nonneg target l Hl) as Hn.
  case_decide as Ht.
  - subst t. rewrite IH. destruct (Z.eqb_spec (roles_of target l) 0) as [H0|H0].
    + rewrite lookup_insert_eq, H0, Z.lor_0_l. by rewrite (proj2 (Z.eqb_neq role 0)) by lia.
    + rewrite lookup_insert_eq. rewrite (proj2 (Z.eqb_neq (Z.lor (roles_of target l) role) 0)).
      * unfold reverse_reference. by destruct record.
      * intros H1%Z.lor_eq_0_iff. lia.
  - rewrite <-IH. destruct (m !! t); by rewrite lookup_insert_ne.
Qed.

(** ** Set indexes *)
Definition index_ids (m : SetIndex) (k : RecordRef) : gset RecordRef := default ∅ (m !! k).
Definition no_empty (m : SetIndex) : Prop := map_Forall (λ _ ids, ids ≠ ∅) m.
Definition set_index_ok (keys : GRecord → list RecordRef) (records : Records) (m : SetIndex) :
    Prop :=
  no_empty m ∧
  ∀ k id, id ∈ index_ids m k ↔ ∃ r, records !! id = Some r ∧ k ∈ keys r.
Lemma set_index_unique keys records m1 m2 :
  set_index_ok keys records m1 → set_index_ok keys records m2 → m1 = m2.
Proof.
  intros [He1 H1] [He2 H2]. apply map_eq. intros k.
  assert (index_ids m1 k = index_ids m2 k) as Hk.
  { apply set_eq. intros id. by rewrite H1, H2. }
  unfold index_ids in Hk. specialize (He1 k). specialize (He2 k).
  destruct (m1 !! k) as [s1|], (m2 !! k) as [s2|]; cbn in Hk; subst; try done.
  - by destruct (He1 _ eq_refl).
  - by destruct (He2 _ eq_refl).
Qed.
Definition add_keys (ks : list RecordRef) (id : RecordRef) (m : SetIndex) : SetIndex :=
  foldl (λ p k, insert_index_value k id p) m ks.
Definition remove_keys (ks : list RecordRef) (id : RecordRef) (m : SetIndex) : SetIndex :=
  foldl (λ p k, remove_index_value k id p) m ks.
Lemma add_keys_ids ks id m k :
  index_ids (add_keys ks id m) k =
  if decide (k ∈ ks) then {[ id ]} ∪ index_ids m k else index_ids m k.
Proof.
  revert m. induction ks as [|k' ks IH]; intros m; [by rewrite decide_False by set_solver|].
  cbn [add_keys foldl]. fold (add_keys ks id (insert_index_value k' id m)). rewrite IH.
  unfold index_ids, insert_index_value. destruct (decide (k = k')) as [->|Hk].
  - rewrite lookup_insert_eq. cbn. rewrite (decide_True (P := k' ∈ k' :: ks)) by set_solver.
    case_decide; set_solver.
  - rewrite lookup_insert_ne by done. destruct (decide (k ∈ ks)), (decide (k ∈ k' :: ks)); set_solver.
Qed.
Lemma add_keys_no_empty ks id m : no_empty m → no_empty (add_keys ks id m).
Proof.
  revert m. induction ks as [|k ks IH]; intros m Hm; [done|]. apply IH.
  apply map_Forall_insert_2; [set_solver|done].
Qed.
Lemma remove_keys_ids ks id m k :
  index_ids (remove_keys ks id m) k =
  if decide (k ∈ ks) then index_ids m k ∖ {[ id ]} else index_ids m k.
Proof.
  revert m. induction ks as [|k' ks IH]; intros m; [by rewrite decide_False by set_solver|].
  cbn [remove_keys foldl]. fold (remove_keys ks id (remove_index_value k' id m)). rewrite IH.
  assert (index_ids (remove_index_value k' id m) k =
    if decide (k = k') then index_ids m k ∖ {[ id ]} else index_ids m k) as ->.
  { unfold index_ids, remove_index_value. destruct (m !! k') as [ids|] eqn:Hk'.
    - cbv zeta. destruct (decide (ids ∖ {[ id ]} = ∅)) as [He|He], (decide (k = k')) as [->|Hk].
      + rewrite lookup_delete_eq, Hk'. cbn. by rewrite He.
      + by rewrite lookup_delete_ne.
      + by rewrite lookup_insert_eq, Hk'.
      + by rewrite lookup_insert_ne.
    - destruct (decide (k = k')) as [->|Hk]; [|done]. rewrite Hk'. set_solver. }
  destruct (decide (k = k')), (decide (k ∈ ks)), (decide (k ∈ k' :: ks)); set_solver.
Qed.
Lemma remove_keys_no_empty ks id m : no_empty m → no_empty (remove_keys ks id m).
Proof.
  revert m. induction ks as [|k ks IH]; intros m Hm; [done|]. apply IH.
  unfold remove_index_value. destruct (m !! k) as [ids|]; [|done]. cbv zeta. case_decide.
  - by apply map_Forall_delete.
  - by apply map_Forall_insert_2.
Qed.
Lemma set_index_add keys records m id r :
  records !! id = None → set_index_ok keys records m →
  set_index_ok keys (<[id := r]> records) (add_keys (keys r) id m).
Proof.
  intros Hid [He Hm]. split; [by apply add_keys_no_empty|]. intros k id'.
  rewrite add_keys_ids. destruct (decide (id = id')) as [<-|Hne].
  - rewrite lookup_insert_eq. case_decide as Hk.
    + split; [by eauto|set_solver].
    + rewrite Hm, Hid. naive_solver.
  - rewrite lookup_insert_ne by done. rewrite <-Hm. case_decide; set_solver.
Qed.
Lemma set_index_remove keys records m id r :
  records !! id = Some r → set_index_ok keys records m →
  set_index_ok keys (delete id records) (remove_keys (keys r) id m).
Proof.
  intros Hid [He Hm]. split; [by apply remove_keys_no_empty|]. intros k id'.
  rewrite remove_keys_ids. destruct (decide (id = id')) as [<-|Hne].
  - rewrite lookup_delete_eq. case_decide as Hk.
    + set_solver.
    + rewrite Hm, Hid. naive_solver.
  - rewrite lookup_delete_ne by done. rewrite <-Hm. case_decide; set_solver.
Qed.

(** ** The reverse index *)
Definition index_owners (m : ReverseIndex) (k : RecordRef) : gmap RecordRef ReverseReference :=
  default ∅ (m !! k).
Definition no_empty_owners (m : ReverseIndex) : Prop := map_Forall (λ _ owners, owners ≠ ∅) m.
Definition reverse_ok (records : Records) (m : ReverseIndex) : Prop :=
  no_empty_owners m ∧
  ∀ k id, index_owners m k !! id = r ← records !! id; reverse_reference_for_target r k.
Lemma reverse_unique records m1 m2 : reverse_ok records m1 → reverse_ok records m2 → m1 = m2.
Proof.
  intros [He1 H1] [He2 H2]. apply map_eq. intros k.
  assert (index_owners m1 k = index_owners m2 k) as Hk.
  { apply map_eq. intros id. by rewrite H1, H2. }
  unfold index_owners in Hk. specialize (He1 k). specialize (He2 k).
  destruct (m1 !! k) as [s1|], (m2 !! k) as [s2|]; cbn in Hk; subst; try done.
  - by destruct (He1 _ eq_refl).
  - by destruct (He2 _ eq_refl).
Qed.

Lemma add_reverse_owners es id m k : NoDup es.*1 →
  index_owners (foldl (λ rev '(target, reference),
    <[target := <[id := reference]> (default ∅ (rev !! target))]> rev) m es) k =
  match (list_to_map es : gmap RecordRef ReverseReference) !! k with
  | Some reference => <[id := reference]> (index_owners m k)
  | None => index_owners m k
  end.
Proof.
  revert m. induction es as [|[t ref] es IH]; intros m Hnd; [done|]. cbn [foldl].
  rewrite fmap_cons in Hnd. apply NoDup_cons in Hnd as [Hn Hnd]. rewrite IH by done.
  cbn [list_to_map foldr uncurry]. unfold index_owners. destruct (decide (k = t)) as [->|Hk].
  - rewrite lookup_insert_eq. change (list_to_map ((t, ref) :: es)) with
      (<[t := ref]> (list_to_map es : gmap RecordRef ReverseReference)).
    rewrite lookup_insert_eq, not_elem_of_list_to_map_1 by done. done.
  - rewrite lookup_insert_ne by done. change (list_to_map ((t, ref) :: es)) with
      (<[t := ref]> (list_to_map es : gmap RecordRef ReverseReference)).
    by rewrite lookup_insert_ne.
Qed.
Lemma entries_list_to_map {K V} `{Countable K, Lexico K, !TrichotomyT (@lexico K _),
    !StrictOrder (@lexico K _)} (m : gmap K V) : list_to_map (btree_entries m) = m.
Proof.
  rewrite <-(list_to_map_to_list m) at 2. apply list_to_map_proper.
  - apply btree_keys_NoDup.
  - apply btree_entries_Permutation.
Qed.
Lemma add_reverse_contributions_owners r m k :
  index_owners (add_reverse_contributions r m) k =
  match reverse_reference_for_target r k with
  | Some reference => <[record_id r := reference]> (index_owners m k)
  | None => index_owners m k
  end.
Proof.
  unfold add_reverse_contributions. rewrite add_reverse_owners by apply btree_keys_NoDup.
  by rewrite entries_list_to_map, record_reverse_references_lookup.
Qed.
Lemma add_reverse_no_empty r m :
  no_empty_owners m → no_empty_owners (add_reverse_contributions r m).
Proof.
  unfold add_reverse_contributions. generalize (btree_entries (record_reverse_references r)).
  intros es. revert m. induction es as [|[t ref] es IH]; intros m Hm; [done|]. apply IH.
  apply map_Forall_insert_2; [|done]. apply insert_non_empty.
Qed.
Definition remove_owner (id : RecordRef) (m : ReverseIndex) (target : RecordRef) : ReverseIndex :=
  match m !! target with
  | Some owners =>
      if decide (delete id owners = ∅) then delete target m
      else <[target := delete id owners]> m
  | None => m
  end.
Lemma remove_owner_owners id m t k :
  index_owners (remove_owner id m t) k =
  if decide (k = t) then delete id (index_owners m k) else index_owners m k.
Proof.
  unfold index_owners, remove_owner. destruct (m !! t) as [o|] eqn:Ht.
  - destruct (decide (delete id o = ∅)) as [He|He], (decide (k = t)) as [->|Hk].
    + rewrite lookup_delete_eq, Ht. cbn. by rewrite He.
    + by rewrite lookup_delete_ne.
    + by rewrite lookup_insert_eq, Ht.
    + by rewrite lookup_insert_ne.
  - destruct (decide (k = t)) as [->|Hk]; [|done]. rewrite Ht. cbn. by rewrite delete_empty.
Qed.
Lemma remove_reverse_contributions_owners r m k :
  index_owners (remove_reverse_contributions r m) k =
  match reverse_reference_for_target r k with
  | Some _ => delete (record_id r) (index_owners m k)
  | None => index_owners m k
  end.
Proof.
  unfold remove_reverse_contributions. rewrite <-record_reverse_references_lookup.
  assert (∀ ts m, index_owners (foldl (remove_owner (record_id r)) m ts) k =
    if decide (k ∈ ts) then delete (record_id r) (index_owners m k) else index_owners m k) as Hgen.
  { clear. intros ts. induction ts as [|t ts IH]; intros m; [by rewrite decide_False by set_solver|].
    cbn [foldl]. rewrite IH, remove_owner_owners.
    destruct (decide (k = t)), (decide (k ∈ ts)), (decide (k ∈ t :: ts)); try set_solver;
      try done; by rewrite delete_delete_eq. }
  change (foldl _ m _) with (foldl (remove_owner (record_id r)) m
    (btree_keys (record_reverse_references r))). rewrite Hgen.
  case_decide as Hk; rewrite elem_of_btree_keys in Hk.
  - by destruct Hk as [? ->].
  - by rewrite (proj2 (eq_None_not_Some _)).
Qed.
Lemma remove_reverse_no_empty r m :
  no_empty_owners m → no_empty_owners (remove_reverse_contributions r m).
Proof.
  unfold remove_reverse_contributions. generalize (btree_keys (record_reverse_references r)).
  intros ts. revert m. induction ts as [|t ts IH]; intros m Hm; [done|]. cbn [foldl]. apply IH.
  destruct (m !! t) as [o|]; [|done]. case_decide.
  - by apply map_Forall_delete.
  - by apply map_Forall_insert_2.
Qed.
Lemma reverse_add records m id r : records !! id = None → record_id r = id →
  reverse_ok records m → reverse_ok (<[id := r]> records) (add_reverse_contributions r m).
Proof.
  intros Hid Hr [He Hm]. split; [by apply add_reverse_no_empty|]. intros k id'.
  rewrite add_reverse_contributions_owners, Hr. destruct (decide (id = id')) as [<-|Hne].
  - rewrite lookup_insert_eq. cbn. specialize (Hm k id). rewrite Hid in Hm. cbn in Hm.
    destruct (reverse_reference_for_target r k) eqn:Hk; rewrite ?Hk, ?lookup_insert_eq; done.
  - rewrite lookup_insert_ne, <-Hm by done.
    destruct (reverse_reference_for_target r k); by rewrite ?lookup_insert_ne.
Qed.
Lemma reverse_remove records m id r : records !! id = Some r → record_id r = id →
  reverse_ok records m → reverse_ok (delete id records) (remove_reverse_contributions r m).
Proof.
  intros Hid Hr [He Hm]. split; [by apply remove_reverse_no_empty|]. intros k id'.
  rewrite remove_reverse_contributions_owners, Hr. destruct (decide (id = id')) as [<-|Hne].
  - rewrite lookup_delete_eq. specialize (Hm k id). rewrite Hid in Hm. cbn in Hm.
    destruct (reverse_reference_for_target r k) eqn:Hk; [by rewrite lookup_delete_eq|done].
  - rewrite lookup_delete_ne, <-Hm by done.
    destruct (reverse_reference_for_target r k); by rewrite ?lookup_delete_ne.
Qed.

(** ** All four *)
Definition out_keys (r : GRecord) : list RecordRef :=
  match r with
  | RRelationship x => if decide (r_status x = Accepted) then [r_from x] else []
  | _ => []
  end.
Definition in_keys (r : GRecord) : list RecordRef :=
  match r with
  | RRelationship x => if decide (r_status x = Accepted) then [r_to x] else []
  | _ => []
  end.
Definition evidence_keys (r : GRecord) : list RecordRef :=
  match r with
  | RRelationship x => r_evidence x
  | RAssertion x => a_evidence x
  | _ => []
  end.
Definition indexes_ok (records : Records) (s : GraphIndexes) : Prop :=
  set_index_ok out_keys records (outgoing s) ∧ set_index_ok in_keys records (incoming s) ∧
  set_index_ok evidence_keys records (provenance s) ∧ reverse_ok records (reverse s).
Lemma indexes_unique records s1 s2 : indexes_ok records s1 → indexes_ok records s2 → s1 = s2.
Proof.
  destruct s1, s2. intros (H1 & H2 & H3 & H4) (H1' & H2' & H3' & H4'). cbn in *.
  f_equal; first [by eapply set_index_unique|by eapply reverse_unique].
Qed.
Lemma add_index_contributions_eq r s :
  add_index_contributions r s =
  mk_indexes (add_keys (out_keys r) (record_id r) (outgoing s))
    (add_keys (in_keys r) (record_id r) (incoming s))
    (add_keys (evidence_keys r) (record_id r) (provenance s))
    (add_reverse_contributions r (reverse s)).
Proof.
  destruct r as [e|e|a|x]; try done. unfold add_index_contributions, out_keys, in_keys.
  by destruct (decide (r_status x = Accepted)).
Qed.
Lemma remove_index_contributions_eq r s :
  remove_index_contributions r s =
  mk_indexes (remove_keys (out_keys r) (record_id r) (outgoing s))
    (remove_keys (in_keys r) (record_id r) (incoming s))
    (remove_keys (evidence_keys r) (record_id r) (provenance s))
    (remove_reverse_contributions r (reverse s)).
Proof.
  destruct r as [e|e|a|x]; try done. unfold remove_index_contributions, out_keys, in_keys.
  by destruct (decide (r_status x = Accepted)).
Qed.
Lemma indexes_add records s id r : records !! id = None → record_id r = id →
  indexes_ok records s → indexes_ok (<[id := r]> records) (add_index_contributions r s).
Proof.
  intros Hid Hr (H1 & H2 & H3 & H4). rewrite add_index_contributions_eq, Hr.
  split_and!; cbn [outgoing incoming provenance reverse]; by first [apply set_index_add|apply reverse_add].
Qed.
Lemma indexes_remove records s id r : records !! id = Some r → record_id r = id →
  indexes_ok records s → indexes_ok (delete id records) (remove_index_contributions r s).
Proof.
  intros Hid Hr (H1 & H2 & H3 & H4). rewrite remove_index_contributions_eq, Hr.
  split_and!; cbn [outgoing incoming provenance reverse]; by first [apply set_index_remove|apply reverse_remove].
Qed.
Lemma indexes_empty : indexes_ok ∅ empty_indexes.
Proof.
  assert (∀ keys, set_index_ok keys ∅ ∅).
  { intros keys. split; [apply map_Forall_empty|]. intros k id. unfold index_ids.
    rewrite !lookup_empty. cbn. set_solver. }
  split_and!; [done..|]. split; [apply map_Forall_empty|]. intros k id.
  unfold index_owners. by rewrite !lookup_empty.
Qed.

Lemma rebuild_ok records : keyed records → indexes_ok records (rebuild_indexes records).
Proof.
  intros Hk. unfold rebuild_indexes, btree_values.
  assert (∀ es (m : Records) s, indexes_ok m s → NoDup es.*1 →
    Forall (λ e, record_id e.2 = e.1 ∧ m !! e.1 = None) es →
    indexes_ok (list_to_map es ∪ m) (foldl (λ s r, add_index_contributions r s) s es.*2)) as Hgen.
  { clear. induction es as [|[id r] es IH]; intros m s Hs Hnd Hes.
    { cbn. by rewrite map_empty_union. }
    apply Forall_cons in Hes as [[Hid Hm] Hes]. cbn in Hid, Hm.
    rewrite fmap_cons in Hnd. apply NoDup_cons in Hnd as [Hn Hnd].
    assert (list_to_map ((id, r) :: es) ∪ m = list_to_map es ∪ <[id := r]> m) as ->.
    { cbn. rewrite <-insert_union_l. rewrite insert_union_r; [done|].
      by apply not_elem_of_list_to_map_1. }
    cbn [fmap list_fmap snd foldl]. apply IH; [by apply indexes_add|done|].
    apply Forall_forall. intros [id' r'] He. cbn. rewrite Forall_forall in Hes.
    destruct (Hes _ He) as [? Hm']. split; [done|]. cbn in Hm'. rewrite lookup_insert_ne; [done|].
    intros ->. apply Hn, list_elem_of_fmap. by exists (id', r'). }
  rewrite <-(entries_list_to_map records) at 1. rewrite <-(map_union_empty (list_to_map _)).
  apply Hgen; [apply indexes_empty|apply btree_keys_NoDup|].
  apply Forall_forall. intros [id r] He%elem_of_btree_entries. split; [by apply (Hk id)|].
  apply lookup_empty.
Qed.
