(* ===== verification/GraphState.v ===== *)
(** * The graph reducer

    Models the reducer half of [crates/uste-graph/src/state.rs]: snapshots, the
    transaction-local [RecordOverlay], request limits, preconditions, the five
    operations, validation of the changed records, [prepare_transaction],
    [publish] and the [TransactionState] entry points.

    A function on [&mut RecordOverlay] and [&mut affected] returns both; on an
    error the source drops them with the failed preparation.  [Sha256] is
    third-party code: the section variable [sha256].  [expect] and [assert!]
    failures are panics, the [None] of an [option]. *)
From S2P Require Import Prelude Ids Value Codec Policy GraphRecord GraphCodec GraphIndex.

Definition MAX_TRANSACTION_OPERATIONS : Z := 10000.
Definition MAX_TRANSACTION_REFERENCES : Z := 100000.
Definition MAX_TRAVERSAL_RESULTS : Z := 100000.
Definition MAX_TRAVERSAL_VISITS : Z := 1000000.

(** [uste_txn::ApplyError]. *)
Module ApplyError.
Inductive apply_error : Set :=
| Conflict | SourceChanged | InvalidRequest | ResourceLimit | UnsupportedPredicate.
End ApplyError.
Abbreviation ApplyError := ApplyError.apply_error.

Module GraphError.
Inductive graph_error : Set :=
| EmptyTransaction
| TooManyOperations (actual maximum : Z)
| TooManyReferences (actual maximum : Z)
| ScopeMismatch (r : RecordRef)
| TransactionScopeMismatch
| PreconditionFailed (r : RecordRef)
| UnknownReadView (revision : CommitRevision)
| PredicateWasFalse (revision : CommitRevision)
| PredicateChanged (revision : CommitRevision)
| RevisionExhausted
| RevisionMismatch (expected actual : CommitRevision)
| RecordVersionExhausted (r : RecordRef)
| DuplicateMutation (r : RecordRef)
| AlreadyExists (r : RecordRef)
| NotFound (r : RecordRef)
| NotVisible (r : RecordRef)
| WrongRecordKind (target : RecordRef) (expected : list byte)
| InvalidInterval (r : RecordRef)
| InvalidTransition (status : AssertionStatus) (action : AssertionAction)
| CorrectionRequired
| CorrectionPreconditionRequired
| UnexpectedCorrection
| EvidenceRequired (r : RecordRef)
| DuplicateEvidence (r : RecordRef)
| MissingEvidence (r : RecordRef)
| ReferenceNotVisible (r : RecordRef)
| DeleteRestricted (record : RecordRef) (dependents : Z)
| ProposedClaimBlocksDelete (record : RecordRef) (dependents : Z)
| UncascadeableReferences (record : RecordRef) (dependents : Z)
| CascadeLimitExceeded (actual maximum : Z)
| InvalidCascadeDeclaration
| CascadeDeclarationChanged
| InvalidSchemaVersion (r : RecordRef)
| PolicyConflict
| ResultLimit (actual maximum : Z)
| IndexCorrupt (r : RecordRef)
| DerivedIndexMismatch
| PreparedStateMismatch
| ResourceLimit.
End GraphError.
Abbreviation GraphError := GraphError.graph_error.
Import GraphError.

Definition into_apply_error (e : GraphError) : ApplyError :=
  match e with
  | PreconditionFailed _ | PredicateWasFalse _ | PredicateChanged _ | AlreadyExists _
  | DuplicateMutation _ | NotFound _ | NotVisible _ | DeleteRestricted _ _
  | ProposedClaimBlocksDelete _ _ | UncascadeableReferences _ _ | CascadeLimitExceeded _ _
  | CascadeDeclarationChanged | PolicyConflict | RevisionMismatch _ _ => ApplyError.Conflict
  | TooManyOperations _ _ | TooManyReferences _ _ | ResultLimit _ _ | ResourceLimit =>
      ApplyError.ResourceLimit
  | UnknownReadView _ => ApplyError.UnsupportedPredicate
  | _ => ApplyError.InvalidRequest
  end.

(** ** Snapshots *)
Abbreviation Records := (gmap RecordRef GRecord).
Abbreviation History := (gmap RecordRef (list GRecord)).
Record GraphSnapshot : Set := mk_snapshot {
  scope : NamespaceRef;
  revision : option CommitRevision;
  records : Records;
  history : History;
  indexes : GraphIndexes;
  policy : option NamespacePolicy;
  policy_history : gmap CommitRevision NamespacePolicy
}.
(** [GraphState] wraps its snapshot. *)
Abbreviation GraphState := GraphSnapshot.
Definition GraphState_new (scope : NamespaceRef) : GraphState :=
  mk_snapshot scope None ∅ ∅ empty_indexes None ∅.

Definition validate_scope (scope : NamespaceRef) (record : RecordRef) : result GraphError unit :=
  if bool_decide (ref_database record = ns_database scope)
     && bool_decide (ref_namespace record = ns_namespace scope)
  then Ok tt else Err (ScopeMismatch record).
Definition is_visible_record (record : GRecord) : bool :=
  match record with
  | REntity entity => bool_decide (e_lifecycle entity = Active)
  | _ => true
  end.
(** [self.revision.is_none_or(|current| revision > current)]. *)
Definition unknown_view (current : option CommitRevision) (revision : CommitRevision) : bool :=
  match current with Some current => current <? revision | None => true end.
Definition snapshot_record_at (s : GraphSnapshot) (revision_ : CommitRevision) (id : RecordRef) :
    result GraphError (option GRecord) :=
  validate_scope (scope s) id;;
  if unknown_view (revision s) revision_ then Err (UnknownReadView revision_)
  else Ok (record_at (history s) id revision_).
(** [policy_history.range(..=revision).next_back()]. *)
#[global] Instance Z_lexico : Lexico Z := Z.lt.
#[global] Instance Z_lexico_po : StrictOrder (@lexico Z _).
Proof. unfold lexico, Z_lexico. apply _. Qed.
#[global] Instance Z_lexico_trichotomy : TrichotomyT (@lexico Z _).
Proof.
  red; refine (λ a b,
    match Z.compare a b as c return Z.compare a b = c → _ with
    | Lt => λ H, inleft (left H)
    | Eq => λ H, inleft (right (proj1 (Z.compare_eq_iff a b) H))
    | Gt => λ H, inright (proj1 (Z.compare_gt_iff a b) H)
    end eq_refl).
Defined.
Definition namespace_policy_at (s : GraphSnapshot) (revision_ : CommitRevision) :
    result GraphError (option NamespacePolicy) :=
  if unknown_view (revision s) revision_ then Err (UnknownReadView revision_)
  else Ok (snd <$> last (filter (λ e, e.1 ≤ revision_) (btree_entries (policy_history s)))).

(** ** Prepared changes *)
Record RecordChange : Set := mk_change {
  change_id : RecordRef;
  change_before : option GRecord;
  change_after : GRecord
}.
Record PreparedGraph : Set := mk_prepared {
  p_scope : NamespaceRef;
  p_base_revision : option CommitRevision;
  p_base_policy_version : option PolicyVersion;
  p_revision : CommitRevision;
  p_changes : list RecordChange;
  p_policy_change : option NamespacePolicy;
  p_request_digest : list byte;
  p_result_digest : list byte
}.
Record PreparedGraphView : Set := mk_view {
  view_base : GraphSnapshot;
  view_changes : list RecordChange
}.
Definition prepared_view (s : GraphState) (p : PreparedGraph) :
    result GraphError PreparedGraphView :=
  if negb (bool_decide (p_scope p = scope s))
     || negb (bool_decide (p_base_revision p = revision s))
     || negb (bool_decide (p_base_policy_version p = (policy_version <$> policy s)))
     || existsb (λ change, negb (bool_decide
          (records s !! change_id change = change_before change))) (p_changes p)
  then Err PreparedStateMismatch
  else Ok (mk_view s (p_changes p)).
Definition can_publish (s : GraphState) (p : PreparedGraph) : bool := is_ok (prepared_view s p).
(** [binary_search_by_key] on changes sorted by identifier. *)
Definition view_record (v : PreparedGraphView) (id : RecordRef) : option GRecord :=
  match list_find (λ change, change_id change = id) (view_changes v) with
  | Some (_, change) => Some (change_after change)
  | None => records (view_base v) !! id
  end.

(** ** The overlay *)
Record RecordOverlay : Set := mk_overlay {
  ov_base : Records;
  ov_base_reverse : ReverseIndex;
  ov_changed : Records
}.
Definition overlay_new (base : Records) (base_reverse : ReverseIndex) : RecordOverlay :=
  mk_overlay base base_reverse ∅.
Definition overlay_get (ov : RecordOverlay) (id : RecordRef) : option GRecord :=
  match ov_changed ov !! id with Some r => Some r | None => ov_base ov !! id end.
Definition overlay_contains (ov : RecordOverlay) (id : RecordRef) : bool :=
  bool_decide (is_Some (ov_changed ov !! id)) || bool_decide (is_Some (ov_base ov !! id)).
Definition overlay_insert (id : RecordRef) (record : GRecord) (ov : RecordOverlay) :
    RecordOverlay :=
  mk_overlay (ov_base ov) (ov_base_reverse ov) (<[id := record]> (ov_changed ov)).
(** [get_mut]: the current record, copied into [changed]; a write through the
    reference is an [overlay_insert]. *)
Definition overlay_get_mut (id : RecordRef) (ov : RecordOverlay) :
    option (GRecord * RecordOverlay) :=
  match ov_changed ov !! id with
  | Some record => Some (record, ov)
  | None => record ← ov_base ov !! id; Some (record, overlay_insert id record ov)
  end.

(** The merge of [for_each_reverse_reference]: the visitor's calls in order. *)
Definition changed_reference (target : RecordRef) (c : RecordRef * GRecord) :
    list (RecordRef * ReverseReference) :=
  match reverse_reference_for_target c.2 target with
  | Some reference => [(c.1, reference)]
  | None => []
  end.
Fixpoint merge_references (target : RecordRef) (base : list (RecordRef * ReverseReference))
    : list (RecordRef * GRecord) → list (RecordRef * ReverseReference) :=
  fix inner changed :=
    match base, changed with
    | b :: base', c :: changed' =>
        if decide (lexico b.1 c.1) then b :: merge_references target base' changed
        else if decide (b.1 = c.1)
        then changed_reference target c ++ merge_references target base' changed'
        else changed_reference target c ++ inner changed'
    | [], c :: changed' => changed_reference target c ++ inner changed'
    | b :: base', [] => b :: merge_references target base' changed
    | [], [] => []
    end.
Definition for_each_reverse_reference (ov : RecordOverlay) (target : RecordRef) :
    list (RecordRef * ReverseReference) :=
  merge_references target (btree_entries (default ∅ (ov_base_reverse ov !! target)))
    (btree_entries (ov_changed ov)).
Definition into_changes (ov : RecordOverlay) : list RecordChange :=
  map (λ '(id, after), mk_change id (ov_base ov !! id) after) (btree_entries (ov_changed ov)).

(** ** Validation of records *)

(** The trait [RecordLookup]. *)
Class RecordLookup (L : Type) := lookup_record : L → RecordRef → option GRecord.
#[global] Instance Records_RecordLookup : RecordLookup Records := λ records id, records !! id.
#[global] Instance Overlay_RecordLookup : RecordLookup RecordOverlay := overlay_get.

Section validate.
Context {L} `{RecordLookup L} (records : L) (scope : NamespaceRef).

Definition validate_value_scope (value : Value) : result GraphError unit :=
  try_each (validate_scope scope) (value_references value).
Definition validate_value (value : Value) : result GraphError unit :=
  try_each (λ record,
    validate_scope scope record;;
    if match lookup_record records record with
       | Some r => is_visible_record r
       | None => false
       end
    then Ok tt else Err (ReferenceNotVisible record)) (value_references value).
Definition require_active_entity (id : RecordRef) : result GraphError unit :=
  match lookup_record records id with
  | Some (REntity entity) =>
      if decide (e_lifecycle entity = Active) then Ok tt else Err (ReferenceNotVisible id)
  | _ => Err (ReferenceNotVisible id)
  end.
(** One iteration of the loop of [validate_evidence]. *)
Definition check_evidence (unique : gset RecordRef) (e : RecordRef) :
    result GraphError (gset RecordRef) :=
  validate_scope scope e;;
  if decide (e ∈ unique) then Err (DuplicateEvidence e)
  else match lookup_record records e with
       | Some (REvidence _) => Ok ({[ e ]} ∪ unique)
       | _ => Err (MissingEvidence e)
       end.
Definition validate_evidence (owner : RecordRef) (evidence : list RecordRef) :
    result GraphError unit :=
  match evidence with
  | [] => Err (EvidenceRequired owner)
  | _ => try_fold check_evidence evidence ∅;; Ok tt
  end.
Definition is_open (status : AssertionStatus) : bool :=
  match status with Proposed | Accepted => true | _ => false end.
Definition validate_record (id : RecordRef) (record : GRecord) : result GraphError unit :=
  validate_scope scope id;;
  match record with
  | REntity entity =>
      if e_schema_version entity =? 0 then Err (InvalidSchemaVersion (e_id entity))
      else
        validate_value_scope (e_properties entity);;
        if decide (e_lifecycle entity = Active) then validate_value (e_properties entity)
        else Ok tt
  | REvidence _ => Ok tt
  | RAssertion assertion =>
      validate_scope scope (a_subject assertion);;
      validate_value_scope (a_object assertion);;
      validate_evidence (a_id assertion) (a_evidence assertion);;
      if negb (valid_time_is_valid (a_valid_time assertion))
      then Err (InvalidInterval (a_id assertion))
      else
        (if is_open (a_status assertion)
         then require_active_entity (a_subject assertion);; validate_value (a_object assertion)
         else Ok tt);;
        match a_correction_of assertion with
        | Some previous =>
            match lookup_record records previous with
            | Some (RAssertion _) => Ok tt
            | _ => Err (ReferenceNotVisible previous)
            end
        | None => Ok tt
        end
  | RRelationship relationship =>
      validate_scope scope (r_from relationship);;
      validate_scope scope (r_to relationship);;
      validate_value_scope (r_properties relationship);;
      validate_evidence (r_id relationship) (r_evidence relationship);;
      if negb (valid_time_is_valid (r_valid_time relationship))
      then Err (InvalidInterval (r_id relationship))
      else
        (if is_open (r_status relationship)
         then require_active_entity (r_from relationship);;
              require_active_entity (r_to relationship);;
              validate_value (r_properties relationship)
         else Ok tt);;
        match r_correction_of relationship with
        | Some previous =>
            match lookup_record records previous with
            | Some (RRelationship _) => Ok tt
            | _ => Err (ReferenceNotVisible previous)
            end
        | None => Ok tt
        end
  end.
End validate.

Definition validate_state (scope : NamespaceRef) (records : Records) : result GraphError unit :=
  try_each (λ '(id, record), validate_record records scope id record) (btree_entries records).
Definition validate_changed_state (scope : NamespaceRef) (records : RecordOverlay)
    (affected : gset RecordRef) : result GraphError unit :=
  try_each (λ id,
    record ← ok_or (overlay_get records id) (IndexCorrupt id);
    validate_record records scope id record) (btree_elements affected).

(** ** Request limits *)
Definition expected_reference_count (expected : Expected) : Z :=
  match expected with ReadView _ _ => 1 | _ => 0 end.
Fixpoint value_reference_count (value : Value) : Z :=
  match value with
  | VRecordRef _ => 1
  | VList values => foldl (λ count v, saturating_add count (value_reference_count v)) 0 values
  | VMap values => foldl (λ count e, saturating_add count (value_reference_count e.2)) 0 values
  | _ => 0
  end.
Definition new_assertion_reference_count (assertion : NewAssertion) : Z :=
  saturating_add (saturating_add 2 (zlen (na_evidence assertion)))
    (value_reference_count (na_object assertion)).
Definition new_relationship_reference_count (relationship : NewRelationship) : Z :=
  saturating_add (saturating_add 3 (zlen (nr_evidence relationship)))
    (value_reference_count (nr_properties relationship)).
Definition new_record_reference_count (record : NewRecord) : Z :=
  match record with
  | NEntity entity => saturating_add 1 (value_reference_count (ne_properties entity))
  | NEvidence _ => 1
  | NAssertion assertion => new_assertion_reference_count assertion
  | NRelationship relationship => new_relationship_reference_count relationship
  end.
(** [option.map_or(0, f)]. *)
Definition map_or_0 {A} (f : A → Z) (o : option A) : Z :=
  match o with Some a => f a | None => 0 end.
Definition operation_reference_count (operation : Operation) : Z :=
  let expected := expected_reference_count (operation_expected operation) in
  match operation with
  | Create _ record => saturating_add expected (new_record_reference_count record)
  | ReplaceEntity _ _ properties =>
      saturating_add (saturating_add expected 1) (value_reference_count properties)
  | ActOnAssertion _ _ _ correction correction_expected =>
      saturating_add (saturating_add (saturating_add expected 1)
        (map_or_0 expected_reference_count correction_expected))
        (map_or_0 new_assertion_reference_count correction)
  | ActOnRelationship _ _ _ correction correction_expected =>
      saturating_add (saturating_add (saturating_add expected 1)
        (map_or_0 expected_reference_count correction_expected))
        (map_or_0 new_relationship_reference_count correction)
  | DeleteEntity _ _ _ affected => saturating_add (saturating_add expected 1) (zlen affected)
  end.
Definition validate_request_limits (transaction : GraphTransaction) : result GraphError unit :=
  let count := zlen (tx_operations transaction) in
  if (count =? 0) && bool_decide (tx_policy_mutation transaction = None) then Err EmptyTransaction
  else if MAX_TRANSACTION_OPERATIONS <? count
  then Err (TooManyOperations count MAX_TRANSACTION_OPERATIONS)
  else
    let references := foldl (λ count operation,
      saturating_add count (operation_reference_count operation)) 0 (tx_operations transaction) in
    if MAX_TRANSACTION_REFERENCES <? references
    then Err (TooManyReferences references MAX_TRANSACTION_REFERENCES)
    else Ok tt.

(** ** Preconditions *)
Definition predicate_record (predicate : Predicate) : RecordRef :=
  match predicate with
  | RecordAbsent record | RecordVisible record | PRecordVersion record _ => record
  end.
Definition predicate_holds (predicate : Predicate) (candidate : option GRecord) : bool :=
  match predicate with
  | RecordAbsent _ => bool_decide (candidate = None)
  | RecordVisible _ => match candidate with Some r => is_visible_record r | None => false end
  | PRecordVersion _ version =>
      match candidate with Some r => record_version r =? version | None => false end
  end.
Definition evaluate_predicate_at (s : GraphSnapshot) (revision : CommitRevision)
    (predicate : Predicate) : bool :=
  predicate_holds predicate (record_at (history s) (predicate_record predicate) revision).
Definition evaluate_predicate_current (s : GraphSnapshot) (predicate : Predicate) : bool :=
  predicate_holds predicate (records s !! predicate_record predicate).
Definition validate_predicate_scope (scope : NamespaceRef) (predicate : Predicate) :
    result GraphError unit := validate_scope scope (predicate_record predicate).
Definition validate_expected (s : GraphSnapshot) (target : RecordRef) (expected : Expected) :
    result GraphError unit :=
  match expected with
  | Absent =>
      if bool_decide (is_Some (records s !! target)) then Err (PreconditionFailed target)
      else Ok tt
  | EVersion version =>
      match records s !! target with
      | Some record =>
          if record_version record =? version then Ok tt else Err (PreconditionFailed target)
      | None => Err (PreconditionFailed target)
      end
  | ReadView view predicate =>
      validate_predicate_scope (scope s) predicate;;
      if unknown_view (revision s) view then Err (UnknownReadView view)
      else if negb (evaluate_predicate_at s view predicate) then Err (PredicateWasFalse view)
      else if negb (evaluate_predicate_current s predicate) then Err (PredicateChanged view)
      else Ok tt
  end.
Definition validate_correction (s : GraphSnapshot) (action : AssertionAction)
    (correction : option RecordRef) (expected : option Expected) : result GraphError unit :=
  if decide (action = Correct) then
    correction ← ok_or correction CorrectionRequired;
    expected ← ok_or expected CorrectionPreconditionRequired;
    validate_scope (scope s) correction;;
    validate_expected s correction expected
  else
    match correction, expected with
    | None, None => Ok tt
    | _, _ => Err UnexpectedCorrection
    end.
Definition validate_correction_precondition (s : GraphSnapshot) (operation : Operation) :
    result GraphError unit :=
  match operation with
  | ActOnAssertion _ _ action correction expected =>
      validate_correction s action (na_id <$> correction) expected
  | ActOnRelationship _ _ action correction expected =>
      validate_correction s action (nr_id <$> correction) expected
  | _ => Ok tt
  end.
Definition validate_policy_mutation (scope : NamespaceRef) (current : option NamespacePolicy)
    (mutation : option DurablePolicyMutation) : result GraphError unit :=
  match mutation with
  | None => Ok tt
  | Some mutation =>
      next ←
        (match mutation with
         | Install policy =>
             match current with Some _ => Err PolicyConflict | None => Ok policy end
         | Replace expected policy =>
             match current with
             | None => Err PolicyConflict
             | Some current =>
                 if negb (policy_version current =? expected)
                    || (policy_version policy <=? expected)
                 then Err PolicyConflict else Ok policy
             end
         end);
      if decide (policy_scope next = scope) then Ok tt else Err TransactionScopeMismatch
  end.

(** ** Operations

    After a successful kind check the source destructures [get_mut] with an
    [unreachable!] arm; those arms return an error here and are never taken. *)
Definition next_version (version : RecordVersion) (record : RecordRef) :
    result GraphError RecordVersion :=
  map_err (λ _, RecordVersionExhausted record) (RecordVersion_checked_next version).
Definition wrong_kind_or_missing (ov : RecordOverlay) (target : RecordRef)
    (expected : list byte) : GraphError :=
  if overlay_contains ov target then WrongRecordKind target expected else NotFound target.

(** The state threaded through a transaction: the overlay and the operation's
    [affected] set. *)
Abbreviation ostate := (RecordOverlay * gset RecordRef)%type.
Definition ostate_put (id : RecordRef) (record : GRecord) (st : ostate) : ostate :=
  (overlay_insert id record st.1, {[ id ]} ∪ st.2).

Definition assertion_record (assertion : NewAssertion) (correction_of : option RecordRef)
    (revision : CommitRevision) : AssertionRecord :=
  mk_assertion (na_id assertion) RecordVersion_FIRST (na_subject assertion)
    (na_predicate assertion) (na_object assertion) (na_evidence assertion) Proposed
    (na_valid_time assertion) correction_of revision revision.
Definition relationship_record (relationship : NewRelationship)
    (correction_of : option RecordRef) (revision : CommitRevision) : RelationshipRecord :=
  mk_relationship (nr_id relationship) RecordVersion_FIRST (nr_from relationship)
    (nr_to relationship) (nr_relationship_type relationship) (nr_properties relationship)
    (nr_evidence relationship) Proposed (nr_valid_time relationship) correction_of revision
    revision.
Definition create_record (new : NewRecord) (revision : CommitRevision) (st : ostate) :
    result GraphError ostate :=
  let id := new_record_id new in
  if overlay_contains st.1 id then Err (AlreadyExists id)
  else
    record ←
      (match new with
       | NEntity entity =>
           Ok (REntity (mk_entity id RecordVersion_FIRST Active (ne_entity_type entity)
                 (ne_schema_version entity) (ne_properties entity) revision revision))
       | NEvidence evidence =>
           Ok (REvidence (mk_evidence id RecordVersion_FIRST (nev_digest evidence)
                 (nev_locator evidence) revision))
       | NAssertion assertion =>
           if negb (valid_time_is_valid (na_valid_time assertion)) then Err (InvalidInterval id)
           else Ok (RAssertion (assertion_record assertion None revision))
       | NRelationship relationship =>
           if negb (valid_time_is_valid (nr_valid_time relationship))
           then Err (InvalidInterval id)
           else Ok (RRelationship (relationship_record relationship None revision))
       end);
    Ok (ostate_put id record st).

Definition transition (status : AssertionStatus) (action : AssertionAction) :
    result GraphError AssertionStatus :=
  match status, action with
  | Proposed, Accept => Ok Accepted
  | Proposed, Reject => Ok Rejected
  | Accepted, Dispute => Ok Disputed
  | Accepted, Supersede => Ok Superseded
  | Accepted, Retract => Ok Retracted
  | Accepted, Expire => Ok Expired
  | _, _ => Err (InvalidTransition status action)
  end.

(** Field updates through [get_mut]. *)
Definition assertion_set_status (a : AssertionRecord) (status : AssertionStatus)
    (version : RecordVersion) (revision : CommitRevision) : AssertionRecord :=
  mk_assertion (a_id a) version (a_subject a) (a_predicate a) (a_object a) (a_evidence a) status
    (a_valid_time a) (a_correction_of a) (a_recorded_revision a) revision.
Definition relationship_set_status (r : RelationshipRecord) (status : AssertionStatus)
    (version : RecordVersion) (revision : CommitRevision) : RelationshipRecord :=
  mk_relationship (r_id r) version (r_from r) (r_to r) (r_relationship_type r) (r_properties r)
    (r_evidence r) status (r_valid_time r) (r_correction_of r) (r_recorded_revision r) revision.
Definition entity_update (e : EntityRecord) (lifecycle : EntityLifecycle) (properties : Value)
    (version : RecordVersion) (revision : CommitRevision) : EntityRecord :=
  mk_entity (e_id e) version lifecycle (e_entity_type e) (e_schema_version e) properties
    (e_created_revision e) revision.

Definition apply_assertion_action (target : RecordRef) (action : AssertionAction)
    (correction : option NewAssertion) (revision : CommitRevision) (st : ostate) :
    result GraphError ostate :=
  status ←
    (match overlay_get st.1 target with
     | Some (RAssertion assertion) => Ok (a_status assertion)
     | _ => Err (wrong_kind_or_missing st.1 target (lit "assertion"))
     end);
  if decide (action = Correct) then
    if negb (bool_decide (status = Accepted)) then Err (InvalidTransition status action)
    else
      correction ← ok_or correction CorrectionRequired;
      if overlay_contains st.1 (na_id correction) then Err (AlreadyExists (na_id correction))
      else if negb (valid_time_is_valid (na_valid_time correction))
      then Err (InvalidInterval (na_id correction))
      else Ok (ostate_put (na_id correction)
                 (RAssertion (assertion_record correction (Some target) revision)) st)
  else
    match correction with
    | Some _ => Err UnexpectedCorrection
    | None =>
        next ← transition status action;
        match overlay_get_mut target st.1 with
        | Some (RAssertion assertion, ov) =>
            version ← next_version (a_version assertion) target;
            Ok (ostate_put target
                  (RAssertion (assertion_set_status assertion next version revision)) (ov, st.2))
        | _ => Err (wrong_kind_or_missing st.1 target (lit "assertion"))
        end
    end.
Definition apply_relationship_action (target : RecordRef) (action : AssertionAction)
    (correction : option NewRelationship) (revision : CommitRevision) (st : ostate) :
    result GraphError ostate :=
  status ←
    (match overlay_get st.1 target with
     | Some (RRelationship relationship) => Ok (r_status relationship)
     | _ => Err (wrong_kind_or_missing st.1 target (lit "relationship"))
     end);
  if decide (action = Correct) then
    if negb (bool_decide (status = Accepted)) then Err (InvalidTransition status action)
    else
      correction ← ok_or correction CorrectionRequired;
      if overlay_contains st.1 (nr_id correction) then Err (AlreadyExists (nr_id correction))
      else if negb (valid_time_is_valid (nr_valid_time correction))
      then Err (InvalidInterval (nr_id correction))
      else Ok (ostate_put (nr_id correction)
                 (RRelationship (relationship_record correction (Some target) revision)) st)
  else
    match correction with
    | Some _ => Err UnexpectedCorrection
    | None =>
        next ← transition status action;
        match overlay_get_mut target st.1 with
        | Some (RRelationship relationship, ov) =>
            version ← next_version (r_version relationship) target;
            Ok (ostate_put target
                  (RRelationship (relationship_set_status relationship next version revision))
                  (ov, st.2))
        | _ => Err (wrong_kind_or_missing st.1 target (lit "relationship"))
        end
    end.

(** ** Deletion *)
Record DeleteScan : Set := mk_scan {
  scan_accepted : Z;
  scan_proposed : Z;
  scan_entity_references : Z;
  scan_accepted_are_declared : bool
}.
(** The visitor of [delete_entity].  [declared.binary_search(&owner).is_ok()]
    is membership when [declared] is sorted; the flag is only read after the
    sort check. *)
Definition scan_reference (target : RecordRef) (declared : list RecordRef) (scan : DeleteScan)
    (o : RecordRef * ReverseReference) : DeleteScan :=
  let '(owner, reference) := o in
  let claim_roles :=
    if owner_kind reference =? REVERSE_KIND_ASSERTION
    then Z.lor REVERSE_ROLE_ASSERTION_SUBJECT REVERSE_ROLE_ASSERTION_OBJECT
    else if owner_kind reference =? REVERSE_KIND_RELATIONSHIP
    then Z.lor (Z.lor REVERSE_ROLE_RELATIONSHIP_FROM REVERSE_ROLE_RELATIONSHIP_TO)
           REVERSE_ROLE_RELATIONSHIP_PROPERTY
    else 0 in
  let is_claim_dependency := negb (Z.land (roles reference) claim_roles =? 0) in
  let is_accepted := is_claim_dependency && (owner_state reference =? REVERSE_STATE_ACCEPTED) in
  let is_proposed := is_claim_dependency && (owner_state reference =? REVERSE_STATE_PROPOSED) in
  let is_entity :=
    (owner_kind reference =? REVERSE_KIND_ENTITY)
    && (owner_state reference =? REVERSE_STATE_ACTIVE)
    && negb (Z.land (roles reference) REVERSE_ROLE_ENTITY_PROPERTY =? 0)
    && negb (bool_decide (owner = target)) in
  mk_scan
    (if is_accepted then saturating_add (scan_accepted scan) 1 else scan_accepted scan)
    (saturating_add (scan_proposed scan) (if is_proposed then 1 else 0))
    (if is_entity then saturating_add (scan_entity_references scan) 1
     else scan_entity_references scan)
    (if is_accepted
     then scan_accepted_are_declared scan && bool_decide (owner ∈ declared)
     else scan_accepted_are_declared scan).

(** One step of the retraction loop: the record of the pass's kind is retracted,
    others are skipped. *)
Definition retract_declared (revision : CommitRevision) (relationships : bool) (st : ostate)
    (id : RecordRef) : result GraphError ostate :=
  match relationships, overlay_get st.1 id with
  | true, Some (RRelationship _) | false, Some (RAssertion _) =>
      match overlay_get_mut id st.1 with
      | Some (RAssertion assertion, ov) =>
          version ← next_version (a_version assertion) id;
          Ok (ostate_put id
                (RAssertion (assertion_set_status assertion Retracted version revision)) (ov, st.2))
      | Some (RRelationship relationship, ov) =>
          version ← next_version (r_version relationship) id;
          Ok (ostate_put id
                (RRelationship (relationship_set_status relationship Retracted version revision))
                (ov, st.2))
      | _ => Ok st
      end
  | _, _ => Ok st
  end.

Definition delete_entity (target : RecordRef) (policy : DeletePolicy)
    (declared : list RecordRef) (revision : CommitRevision) (st : ostate) :
    result GraphError ostate :=
  (match overlay_get st.1 target with
   | Some (REntity entity) =>
       if decide (e_lifecycle entity = Active) then Ok tt else Err (NotVisible target)
   | _ => Err (wrong_kind_or_missing st.1 target (lit "entity"))
   end);;
  let scan := foldl (scan_reference target declared) (mk_scan 0 0 0 true)
    (for_each_reverse_reference st.1 target) in
  let accepted := scan_accepted scan in
  let proposed := scan_proposed scan in
  let dependents := saturating_add accepted (scan_entity_references scan) in
  st ←
    (match policy with
     | DeleteReject =>
         if negb (dependents =? 0) || negb (proposed =? 0)
         then Err (DeleteRestricted target (saturating_add dependents proposed))
         else if negb (bool_decide (declared = [])) then Err InvalidCascadeDeclaration
         else Ok st
     | CascadeAndRetract maximum =>
         if windows2_any (λ a b, bool_decide (key_le b a)) declared
         then Err InvalidCascadeDeclaration
         else if negb (proposed =? 0) then Err (ProposedClaimBlocksDelete target proposed)
         else if negb (scan_entity_references scan =? 0)
         then Err (UncascadeableReferences target (scan_entity_references scan))
         else if maximum <? dependents then Err (CascadeLimitExceeded dependents maximum)
         else if negb (zlen declared =? accepted) || negb (scan_accepted_are_declared scan)
         then Err CascadeDeclarationChanged
         else try_fold (λ st relationships,
                try_fold (retract_declared revision relationships) declared st) [true; false] st
     end);
  match overlay_get_mut target st.1 with
  | Some (REntity entity, ov) =>
      version ← next_version (e_version entity) target;
      Ok (ostate_put target
            (REntity (entity_update entity Deleted (e_properties entity) version revision))
            (ov, st.2))
  | _ => Err (wrong_kind_or_missing st.1 target (lit "entity"))
  end.

Definition apply_operation (operation : Operation) (revision : CommitRevision) (st : ostate) :
    result GraphError ostate :=
  match operation with
  | Create _ record => create_record record revision st
  | ReplaceEntity target _ properties =>
      match overlay_get_mut target st.1 with
      | Some (REntity entity, ov) =>
          if negb (bool_decide (e_lifecycle entity = Active)) then Err (NotVisible target)
          else
            version ← next_version (e_version entity) target;
            Ok (ostate_put target
                  (REntity (entity_update entity (e_lifecycle entity) properties version revision))
                  (ov, st.2))
      | _ => Err (wrong_kind_or_missing st.1 target (lit "entity"))
      end
  | ActOnAssertion target _ action correction _ =>
      apply_assertion_action target action correction revision st
  | ActOnRelationship target _ action correction _ =>
      apply_relationship_action target action correction revision st
  | DeleteEntity target _ policy declared => delete_entity target policy declared revision st
  end.

(** ** Preparation and publication *)

(** The target of a correction in an operation. *)
Definition correction_target (operation : Operation) : option RecordRef :=
  match operation with
  | ActOnAssertion target _ Correct _ _ | ActOnRelationship target _ Correct _ _ => Some target
  | _ => None
  end.

Record PrepareState : Set := mk_pstate {
  ps_records : RecordOverlay;
  ps_affected : gset RecordRef;
  ps_protected : gset RecordRef
}.
(** One iteration of the operation loop of [prepare_transaction_with_digest]. *)
Definition prepare_operation (revision : CommitRevision) (ps : PrepareState)
    (operation : Operation) : result GraphError PrepareState :=
  (match correction_target operation with
   | Some target =>
       if decide (target ∈ ps_affected ps) then Err (DuplicateMutation target) else Ok tt
   | None => Ok tt
   end);;
  '(records, operation_affected) ← apply_operation operation revision (ps_records ps, ∅);
  match list_find (λ record, record ∈ ps_affected ps ∨ record ∈ ps_protected ps)
          (btree_elements operation_affected) with
  | Some (_, duplicate) => Err (DuplicateMutation duplicate)
  | None =>
      Ok (mk_pstate records (ps_affected ps ∪ operation_affected)
            (match correction_target operation with
             | Some target => {[ target ]} ∪ ps_protected ps
             | None => ps_protected ps
             end))
  end.
Definition mutation_policy (mutation : DurablePolicyMutation) : NamespacePolicy :=
  match mutation with Install policy | Replace _ policy => policy end.

(** The checks before any operation runs. *)
Definition check_operation (s : GraphState) (operation : Operation) : result GraphError unit :=
  validate_scope (scope s) (operation_target operation);;
  validate_expected s (operation_target operation) (operation_expected operation);;
  validate_correction_precondition s operation.

Section digests.
Context (sha256 : list byte → list byte).

Definition graph_request_digest (transaction : GraphTransaction) :
    result GraphError (list byte) :=
  encoded ← map_err (λ _, ResourceLimit) (encode_transaction transaction);
  Ok (sha256 encoded).
(** [u64::to_be_bytes] of a length, then the bytes. *)
Definition framed (bytes : list byte) : list byte := be_bytes 8 (zlen bytes) ++ bytes.
(** [None] when an [expect] on an encoding panics. *)
Definition graph_result_digest (revision : CommitRevision) (records : list GRecord)
    (policy : option NamespacePolicy) : option (list byte) :=
  match try_map encode_result_record records, encode_result_policy policy with
  | Ok encoded, Ok policy =>
      Some (sha256 (lit "USTE-GRAPH-RESULT-V1" ++ [x00] ++ be_bytes 8 revision
        ++ be_bytes 8 (zlen records) ++ concat (map framed encoded) ++ framed policy))
  | _, _ => None
  end.

(** Everything of [prepare_transaction_with_digest] before the result digest:
    the request digest, the changes and the policy change. *)
Definition plan_transaction (s : GraphState) (transaction : GraphTransaction)
    (revision_ : CommitRevision) (request_digest : option (list byte)) :
    result GraphError (list byte * list RecordChange * option NamespacePolicy) :=
  if negb (bool_decide (tx_scope transaction = scope s)) then Err TransactionScopeMismatch
  else
    expected_revision ←
      (match revision s with
       | Some current => map_err (λ _, RevisionExhausted) (CommitRevision_checked_next current)
       | None => Ok CommitRevision_FIRST
       end);
    if negb (revision_ =? expected_revision)
    then Err (RevisionMismatch expected_revision revision_)
    else
      validate_request_limits transaction;;
      request_digest ←
        (match request_digest with
         | Some digest => Ok digest
         | None => graph_request_digest transaction
         end);
      try_each (check_operation s) (tx_operations transaction);;
      validate_policy_mutation (scope s) (policy s) (tx_policy_mutation transaction);;
      ps ← try_fold (prepare_operation revision_) (tx_operations transaction)
             (mk_pstate (overlay_new (records s) (reverse (indexes s))) ∅ ∅);
      validate_changed_state (scope s) (ps_records ps) (ps_affected ps);;
      Ok (request_digest, into_changes (ps_records ps),
          mutation_policy <$> tx_policy_mutation transaction).
Definition prepare_transaction_with_digest (s : GraphState) (transaction : GraphTransaction)
    (revision_ : CommitRevision) (request_digest : option (list byte)) :
    option (result GraphError PreparedGraph) :=
  match plan_transaction s transaction revision_ request_digest with
  | Err e => Some (Err e)
  | Ok (request_digest, changes, policy_change) =>
      let next_policy :=
        match policy_change with Some p => Some p | None => policy s end in
      result_digest ← graph_result_digest revision_ (map change_after changes) next_policy;
      Some (Ok (mk_prepared (scope s) (revision s) (policy_version <$> policy s) revision_
                  changes policy_change request_digest result_digest))
  end.
Definition prepare_transaction (s : GraphState) (transaction : GraphTransaction)
    (revision_ : CommitRevision) : option (result GraphError PreparedGraph) :=
  prepare_transaction_with_digest s transaction revision_ None.

(** One change of [publish]. *)
Definition publish_change (s : GraphState) (change : RecordChange) : GraphState :=
  let idx := match change_before change with
             | Some before => remove_index_contributions before (indexes s)
             | None => indexes s
             end in
  let id := change_id change in
  mk_snapshot (scope s) (revision s) (<[id := change_after change]> (records s))
    (<[id := default [] (history s !! id) ++ [change_after change]]> (history s))
    (add_index_contributions (change_after change) idx) (policy s) (policy_history s).
(** [publish]; [None] when the [assert!] on the base state fails. *)
Definition publish (p : PreparedGraph) (s : GraphState) : option GraphState :=
  if can_publish s p then
    let s := foldl publish_change s (p_changes p) in
    let '(policy_, policy_history_) :=
      match p_policy_change p with
      | Some policy_ => (Some policy_, <[p_revision p := policy_]> (policy_history s))
      | None => (policy s, policy_history s)
      end in
    Some (mk_snapshot (scope s) (Some (p_revision p)) (records s) (history s) (indexes s)
            policy_ policy_history_)
  else None.

(** [TransactionState::prepare]; the blob inventory is only tested for
    presence. *)
Definition prepare {B} (s : GraphState) (canonical_request : list byte)
    (blob_inventory : option B) (revision_ : CommitRevision) :
    option (result ApplyError PreparedGraph) :=
  match blob_inventory with
  | Some _ => Some (Err ApplyError.InvalidRequest)
  | None =>
      match decode_transaction canonical_request with
      | Err _ => Some (Err ApplyError.InvalidRequest)
      | Ok transaction =>
          if negb (bool_decide (tx_scope transaction = scope s))
          then Some (Err ApplyError.InvalidRequest)
          else
            r ← prepare_transaction_with_digest s transaction revision_
                  (Some (sha256 canonical_request));
            Some (map_err into_apply_error r)
      end
  end.
Definition validate_external_request {B} (p : PreparedGraph) (canonical_request : list byte)
    (blob_inventory : option B) (revision_ : CommitRevision) : result ApplyError unit :=
  if bool_decide (is_Some blob_inventory)
     || negb (bool_decide (p_request_digest p = sha256 canonical_request))
  then Err ApplyError.InvalidRequest
  else if negb (p_revision p =? revision_) then Err ApplyError.Conflict
  else Ok tt.
Definition validate_external_prepared {B} (s : GraphState) (canonical_request : list byte)
    (blob_inventory : option B) (revision_ : CommitRevision) (p : PreparedGraph) :
    result ApplyError unit :=
  validate_external_request p canonical_request blob_inventory revision_;;
  if negb (can_publish s p) then Err ApplyError.Conflict else Ok tt.
End digests.
