(* ===== verification/GraphValidity.v ===== *)
(** * Valid graph states

    First the overlay and its reverse-reference merge, then what record validation
    establishes.

    [ov_map] is the record map an overlay stands for.  Merging the base reverse
    index with the changed records visits exactly the reverse references of that
    map, in key order. *)
From S2P Require Import Prelude Ids Value Codec Policy GraphRecord GraphCodec GraphIndex GraphState.
Import GraphError.

Definition ov_map (ov : RecordOverlay) : Records := ov_changed ov ∪ ov_base ov.
Lemma overlay_get_map ov id : overlay_get ov id = ov_map ov !! id.
Proof.
  unfold overlay_get, ov_map. rewrite lookup_union.
  destruct (ov_changed ov !! id), (ov_base ov !! id); done.
Qed.
Lemma overlay_contains_map ov id : overlay_contains ov id = bool_decide (is_Some (ov_map ov !! id)).
Proof.
  unfold overlay_contains, ov_map. rewrite lookup_union.
  destruct (ov_changed ov !! id), (ov_base ov !! id); done.
Qed.
Lemma ov_map_insert id r ov : ov_map (overlay_insert id r ov) = <[id := r]> (ov_map ov).
Proof. unfold ov_map. cbn. by rewrite insert_union_l. Qed.
(** [get_mut] reads the current record; writing through it is an insertion. *)
Lemma overlay_get_mut_Some id ov r ov' : overlay_get_mut id ov = Some (r, ov') →
  ov_map ov !! id = Some r ∧ ∀ r', overlay_insert id r' ov' = overlay_insert id r' ov.
Proof.
  unfold overlay_get_mut. rewrite <-overlay_get_map. unfold overlay_get.
  destruct (ov_changed ov !! id) as [c|] eqn:Hc; [by intros [= -> ->]|].
  destruct (ov_base ov !! id) as [b|]; cbn; [|done]. intros [= <- <-]. split; [done|].
  intros r'. unfold overlay_insert. cbn. by rewrite insert_insert_eq.
Qed.
Lemma overlay_get_mut_map id ov r : ov_map ov !! id = Some r →
  ∃ ov', overlay_get_mut id ov = Some (r, ov').
Proof.
  rewrite <-overlay_get_map. unfold overlay_get, overlay_get_mut.
  destruct (ov_changed ov !! id); [intros [= ->]; by eauto|]. intros ->. cbn. by eauto.
Qed.

(** ** The merge *)
Lemma elem_of_entry_cons {A B} (x : A) (y : B) c l :
  (x, y) ∈ c :: l ↔ (x = c.1 ∧ y = c.2) ∨ (x, y) ∈ l.
Proof. rewrite elem_of_cons. destruct c as [a b]. cbn. naive_solver. Qed.
Section merge.
Context (target : RecordRef).
Abbreviation merge := (merge_references target).
Lemma merge_nil_l changed : merge [] changed = flat_map (changed_reference target) changed.
Proof. induction changed as [|c changed IH]; [done|]. cbn. by rewrite <-IH. Qed.
Lemma merge_nil_r base : merge base [] = base.
Proof. induction base as [|b base IH]; [done|]. cbn. by rewrite IH. Qed.
Lemma merge_cons b base c changed :
  merge (b :: base) (c :: changed) =
  if decide (lexico b.1 c.1) then b :: merge base (c :: changed)
  else if decide (b.1 = c.1) then changed_reference target c ++ merge base changed
  else changed_reference target c ++ merge (b :: base) changed.
Proof. done. Qed.
Definition merged (base : list (RecordRef * ReverseReference))
    (changed : list (RecordRef * GRecord)) (o : RecordRef * ReverseReference) : Prop :=
  (o ∈ base ∧ o.1 ∉ changed.*1) ∨
  ∃ r, (o.1, r) ∈ changed ∧ reverse_reference_for_target r target = Some o.2.
Lemma elem_of_changed_reference c o :
  o ∈ changed_reference target c ↔
  o.1 = c.1 ∧ reverse_reference_for_target c.2 target = Some o.2.
Proof.
  unfold changed_reference. destruct o as [o ref].
  destruct (reverse_reference_for_target c.2 target) as [ref'|]; cbn.
  - rewrite list_elem_of_singleton. naive_solver.
  - split; [intros ?%not_elem_of_nil; done|naive_solver].
Qed.
Lemma lexico_ne (a b : RecordRef) : lexico a b → a ≠ b.
Proof. intros H ->. by apply (irreflexivity lexico b). Qed.
Lemma lexico_tri (a b : RecordRef) : ¬ lexico a b → a ≠ b → lexico b a.
Proof. destruct (trichotomyT lexico a b) as [[?| ->]|?]; tauto. Qed.

Lemma elem_of_merge base changed o :
  StronglySorted lexico base.*1 → StronglySorted lexico changed.*1 →
  o ∈ merge base changed ↔ merged base changed o.
Proof.
  revert changed. induction base as [|b base IHb]; intros changed Hb Hc.
  { rewrite merge_nil_l. unfold merged. clear Hb Hc. induction changed as [|c changed IHc]; cbn.
    - split; [by intros ?%not_elem_of_nil|]. intros [[? _]|(? & ? & _)]; set_solver.
    - rewrite elem_of_app, IHc, elem_of_changed_reference. destruct o as [o ref], c as [c r].
      cbn. set_solver. }
  rewrite fmap_cons in Hb. apply StronglySorted_cons in Hb as [Hbh Hb].
  rewrite Forall_forall in Hbh.
  induction changed as [|c changed IHc].
  { rewrite merge_nil_r. unfold merged. split; [set_solver|]. intros [[? _]|(? & ? & _)]; set_solver. }
  pose proof Hc as Hc0. rewrite fmap_cons in Hc. apply StronglySorted_cons in Hc as [Hch Hc].
  rewrite Forall_forall in Hch.
  assert (∀ x, x ∈ changed → lexico c.1 x.1) as Hch'.
  { intros x Hx. apply Hch, list_elem_of_fmap. by exists x. }
  assert (∀ x, x ∈ base → lexico b.1 x.1) as Hbh'.
  { intros x Hx. apply Hbh, list_elem_of_fmap. by exists x. }
  rewrite merge_cons. case_decide as Hlt; [|case_decide as Heq].
  - rewrite elem_of_cons, (IHb _ Hb Hc0). unfold merged. rewrite elem_of_cons.
    assert (b.1 ∉ (c :: changed).*1).
    { rewrite fmap_cons. intros [He|Hin]%elem_of_cons; [by apply lexico_ne in Hlt|].
      apply Hch in Hin. apply (irreflexivity lexico b.1). by trans c.1. }
    naive_solver.
  - rewrite elem_of_app, (IHb _ Hb Hc), elem_of_changed_reference. unfold merged.
    rewrite fmap_cons, not_elem_of_cons, elem_of_cons.
    setoid_rewrite elem_of_entry_cons. split.
    + intros [[Ho Hr]|[[Hob Hn]|(r & Hr & Ht)]]; [right; by eauto| |right; by eauto].
      left. split_and!; [by right| |done]. intros He. apply Hbh' in Hob.
      rewrite He, <-Heq in Hob. by apply lexico_ne in Hob.
    + intros [[[->|Hob] [Hne Hn]]|(r & [[Ho ->]|Hr] & Ht)]; [done|by auto|by auto|].
      right; right. by eauto.
  - rewrite elem_of_app, (IHc Hc), elem_of_changed_reference. unfold merged.
    rewrite fmap_cons, !not_elem_of_cons.
    setoid_rewrite elem_of_entry_cons. pose proof (lexico_tri _ _ Hlt Heq) as Hcb. split.
    + intros [[Ho Hr]|[[Hob Hn]|(r & Hr & Ht)]]; [right; by eauto| |right; by eauto].
      left. split_and!; [done| |done]. intros He. apply elem_of_cons in Hob as [->|Hob].
      * by apply Heq.
      * apply Hbh' in Hob. rewrite He in Hob. apply (irreflexivity lexico b.1). by trans c.1.
    + intros [[Hob [Hne Hn]]|(r & [[Ho ->]|Hr] & Ht)]; [by auto|by auto|].
      right; right. by eauto.
Qed.

Lemma changed_reference_keys c : Forall (λ o, o.1 = c.1) (changed_reference target c).
Proof. apply Forall_forall. by intros o [? _]%elem_of_changed_reference. Qed.
Lemma merge_sorted base changed :
  StronglySorted lexico base.*1 → StronglySorted lexico changed.*1 →
  StronglySorted lexico (merge base changed).*1.
Proof.
  assert (∀ c l, StronglySorted lexico l.*1 → (∀ o, o ∈ l → lexico c.1 o.1) →
    StronglySorted lexico (changed_reference target c ++ l).*1) as Hcons.
  { intros c l Hl Hlt. unfold changed_reference.
    destruct (reverse_reference_for_target c.2 target); [|done]. cbn. apply StronglySorted_cons.
    split; [|done]. apply Forall_forall. intros x ([o ref] & -> & Ho)%list_elem_of_fmap.
    by apply Hlt in Ho. }
  revert changed. induction base as [|b base IHb]; intros changed Hb Hc.
  { rewrite merge_nil_l. clear Hb. induction changed as [|c changed IHc]; [constructor|].
    rewrite fmap_cons in Hc. apply StronglySorted_cons in Hc as [Hch Hc].
    rewrite Forall_forall in Hch. cbn [flat_map]. apply Hcons; [by apply IHc|].
    intros o Ho. rewrite <-merge_nil_l in Ho. apply elem_of_merge in Ho; [|constructor|done].
    destruct Ho as [[? _]|(r & Hr & _)]; [set_solver|]. apply Hch, list_elem_of_fmap. by exists (o.1, r). }
  pose proof Hb as Hb0. rewrite fmap_cons in Hb. apply StronglySorted_cons in Hb as [Hbh Hb].
  rewrite Forall_forall in Hbh.
  induction changed as [|c changed IHc]; [by rewrite merge_nil_r|].
  pose proof Hc as Hc0. rewrite fmap_cons in Hc. apply StronglySorted_cons in Hc as [Hch Hc].
  rewrite Forall_forall in Hch.
  assert (∀ o base', (∀ x, x ∈ base'.*1 → lexico c.1 x) → StronglySorted lexico base'.*1 →
    o ∈ merge base' changed → lexico c.1 o.1) as Habove.
  { intros o base' Hbase Hs Ho. apply elem_of_merge in Ho; [|done|done].
    destruct Ho as [[Ho _]|(r & Hr & _)].
    - apply Hbase, list_elem_of_fmap. by exists o.
    - apply Hch, list_elem_of_fmap. by exists (o.1, r). }
  rewrite merge_cons. case_decide as Hlt; [|case_decide as Heq].
  - rewrite fmap_cons. apply StronglySorted_cons. split; [|by apply IHb].
    apply Forall_forall. intros x (o & -> & Ho)%list_elem_of_fmap.
    apply elem_of_merge in Ho; [|done|done]. destruct Ho as [[Ho _]|(r & Hr & _)].
    + apply Hbh, list_elem_of_fmap. by exists o.
    + apply elem_of_entry_cons in Hr as [[-> _]|Hr]; [done|]. trans c.1; [done|].
      apply Hch, list_elem_of_fmap. by exists (o.1, r).
  - apply Hcons; [by apply IHb|]. intros o. apply Habove; [|done]. intros x Hx.
    rewrite <-Heq. by apply Hbh.
  - apply Hcons; [by apply IHc|]. pose proof (lexico_tri _ _ Hlt Heq) as Hcb.
    intros o. apply Habove; [|done]. rewrite fmap_cons.
    intros x [->|Hx]%elem_of_cons; [done|]. trans b.1; [done|by apply Hbh].
Qed.
End merge.

(** The merged visit is the ordered reverse-reference map of the overlay's
    records. *)
Lemma for_each_reverse_reference_eq ov target :
  reverse_ok (ov_base ov) (ov_base_reverse ov) →
  for_each_reverse_reference ov target =
  btree_entries (omap (λ r, reverse_reference_for_target r target) (ov_map ov)).
Proof.
  intros [_ Hrev]. unfold for_each_reverse_reference.
  pose proof (btree_keys_sorted (default ∅ (ov_base_reverse ov !! target))) as Hb.
  pose proof (btree_keys_sorted (ov_changed ov)) as Hc. symmetry.
  pose proof (merge_sorted target _ _ Hb Hc) as Hs.
  apply btree_entries_unique; [done|].
  apply NoDup_Permutation; [|apply NoDup_map_to_list|].
  { apply (NoDup_fmap_1 fst). by apply sorted_strict_NoDup. }
  intros [o ref]. rewrite (elem_of_merge target _ _ _ Hb Hc). unfold merged. cbn.
  rewrite elem_of_map_to_list, lookup_omap, elem_of_btree_entries.
  setoid_rewrite elem_of_btree_entries. fold (btree_keys (ov_changed ov)).
  rewrite elem_of_btree_keys. fold (index_owners (ov_base_reverse ov) target).
  rewrite Hrev. unfold ov_map. rewrite lookup_union.
  destruct (ov_changed ov !! o) as [r|], (ov_base ov !! o) as [b|]; cbn;
    split; try naive_solver.
Qed.

(** ** What record validation establishes

    Propositional readings of the validators of [GraphState], the references a
    record needs alive, and how the reverse-reference summaries expose them to
    the deletion scan. *)

(** ** Validators as propositions *)
Lemma validate_scope_Ok s r u : validate_scope s r = Ok u ↔ ref_scope r = s.
Proof.
  unfold validate_scope, ref_database, ref_namespace. destruct u, r as [[d n] i], s as [d' n']. cbn.
  case_bool_decide; case_bool_decide; cbn; naive_solver.
Qed.

Abbreviation lookup_fn := (RecordRef → option GRecord).
Definition visible (f : lookup_fn) (t : RecordRef) : Prop :=
  ∃ r, f t = Some r ∧ is_visible_record r = true.
Definition active (f : lookup_fn) (t : RecordRef) : Prop :=
  ∃ e, f t = Some (REntity e) ∧ e_lifecycle e = Active.
Definition is_evidence (f : lookup_fn) (t : RecordRef) : Prop := ∃ e, f t = Some (REvidence e).

(** References that must stay visible, and entities that must stay active. *)
Definition live_visible (r : GRecord) : list RecordRef :=
  match r with
  | REntity e => if decide (e_lifecycle e = Active) then value_references (e_properties e) else []
  | REvidence _ => []
  | RAssertion a => if is_open (a_status a) then value_references (a_object a) else []
  | RRelationship x => if is_open (r_status x) then value_references (r_properties x) else []
  end.
Definition live_active (r : GRecord) : list RecordRef :=
  match r with
  | RAssertion a => if is_open (a_status a) then [a_subject a] else []
  | RRelationship x => if is_open (r_status x) then [r_from x; r_to x] else []
  | _ => []
  end.
Definition correction_kept (f : lookup_fn) (r : GRecord) : Prop :=
  match r with
  | RAssertion a => ∀ c, a_correction_of a = Some c → ∃ x, f c = Some (RAssertion x)
  | RRelationship x => ∀ c, r_correction_of x = Some c → ∃ y, f c = Some (RRelationship y)
  | _ => True
  end.
(** What does not depend on other records. *)
Definition record_shape (s : NamespaceRef) (r : GRecord) : Prop :=
  match r with
  | REntity e => e_schema_version e ≠ 0 ∧
      Forall (λ t, ref_scope t = s) (value_references (e_properties e))
  | REvidence _ => True
  | RAssertion a => ref_scope (a_subject a) = s ∧
      Forall (λ t, ref_scope t = s) (value_references (a_object a)) ∧
      a_evidence a ≠ [] ∧ NoDup (a_evidence a) ∧ Forall (λ t, ref_scope t = s) (a_evidence a) ∧
      valid_time_is_valid (a_valid_time a) = true
  | RRelationship x => ref_scope (r_from x) = s ∧ ref_scope (r_to x) = s ∧
      Forall (λ t, ref_scope t = s) (value_references (r_properties x)) ∧
      r_evidence x ≠ [] ∧ NoDup (r_evidence x) ∧ Forall (λ t, ref_scope t = s) (r_evidence x) ∧
      valid_time_is_valid (r_valid_time x) = true
  end.
Definition record_valid (f : lookup_fn) (s : NamespaceRef) (id : RecordRef) (r : GRecord) : Prop :=
  ref_scope id = s ∧ record_shape s r ∧ Forall (visible f) (live_visible r) ∧
  Forall (active f) (live_active r) ∧ Forall (is_evidence f) (evidence_keys r) ∧
  correction_kept f r.

Lemma then_Ok {E A} (m : result E unit) (k : result E A) (a : A) :
  (m;; k) = Ok a ↔ m = Ok tt ∧ k = Ok a.
Proof.
  rewrite bind_Ok. split; [by intros ([] & ? & ?)|]. intros [? ?]. by exists tt.
Qed.
Section lookups.
Context {L} `{RecordLookup L} (records : L) (s : NamespaceRef).
Abbreviation f := (lookup_record records).

Lemma validate_value_scope_Ok v :
  validate_value_scope s v = Ok tt ↔ Forall (λ t, ref_scope t = s) (value_references v).
Proof.
  unfold validate_value_scope. rewrite try_each_Ok. apply Forall_proper; [|done].
  intros t. apply validate_scope_Ok.
Qed.
Lemma validate_value_Ok v :
  validate_value records s v = Ok tt ↔
  Forall (λ t, ref_scope t = s) (value_references v) ∧ Forall (visible f) (value_references v).
Proof.
  unfold validate_value. rewrite try_each_Ok, <-Forall_and. apply Forall_proper; [|done].
  intros t. rewrite then_Ok, validate_scope_Ok. f_equiv. unfold visible.
  destruct (f t) as [r|]; [|split; [done|by intros (? & ? & _)]].
  destruct (is_visible_record r) eqn:Hr; (split; [try done|]); [by exists r|done|].
  intros (r' & [= <-] & Hr'). congruence.
Qed.
Lemma require_active_Ok t : require_active_entity records t = Ok tt ↔ active f t.
Proof.
  unfold require_active_entity, active. destruct (f t) as [[e| | |]|]; try naive_solver.
  case_decide; naive_solver.
Qed.
Lemma check_evidence_fold evidence u u' :
  try_fold (check_evidence records s) evidence u = Ok u' ↔
  u' = list_to_set evidence ∪ u ∧ NoDup evidence ∧
  (∀ e, e ∈ evidence → (e ∉ u) ∧ ref_scope e = s ∧ is_evidence f e).
Proof.
  revert u. induction evidence as [|e evidence IH]; intros u; cbn [try_fold].
  { cbn. split; [intros [= <-]; split_and!; [set_solver|constructor|set_solver]|].
    intros (-> & _ & _). f_equal. set_solver. }
  rewrite bind_Ok. unfold check_evidence at 1. setoid_rewrite then_Ok.
  setoid_rewrite validate_scope_Ok. setoid_rewrite IH. rewrite NoDup_cons, list_to_set_cons. split.
  - intros (u1 & [Hs H1] & -> & Hnd & Hall). case_decide as Hu; [done|].
    destruct (f e) as [[]|] eqn:He; try done. injection H1 as <-. split_and!.
    + set_solver.
    + intros Hin. destruct (Hall e Hin). set_solver.
    + done.
    + intros x [->|Hx]%elem_of_cons; [split_and!; [done|done|by eexists]|].
      destruct (Hall x Hx) as (? & ? & ?). set_solver.
  - intros (-> & [Hn Hnd] & Hall). destruct (Hall e) as (Hu & Hs & ev & He); [set_solver|].
    exists ({[ e ]} ∪ u). rewrite decide_False by done. rewrite He. split_and!; [done|done| |done|].
    + set_solver.
    + intros x Hx. destruct (Hall x) as (? & ? & ?); set_solver.
Qed.
Lemma validate_evidence_Ok owner evidence :
  validate_evidence records s owner evidence = Ok tt ↔
  evidence ≠ [] ∧ NoDup evidence ∧ Forall (λ t, ref_scope t = s) evidence ∧
  Forall (is_evidence f) evidence.
Proof.
  destruct evidence as [|e evidence]; [naive_solver|]. unfold validate_evidence.
  rewrite bind_Ok. setoid_rewrite check_evidence_fold. rewrite !Forall_forall. split.
  - intros (u & (-> & Hnd & Hall) & _). split_and!; [done|done|..]; intros x Hx; by apply Hall.
  - intros (_ & Hnd & Hs & He). eexists. split; [|done]. split_and!; [done|done|].
    intros x Hx. split_and!; [set_solver|by apply Hs|by apply He].
Qed.
Lemma correction_Ok {A} (o : option A) (p : A → Prop) (k : A → result GraphError unit) :
  (∀ a, k a = Ok tt ↔ p a) →
  match o with Some a => k a | None => Ok tt end = Ok tt ↔ ∀ a, o = Some a → p a.
Proof. intros Hk. destruct o; [rewrite Hk|]; naive_solver. Qed.
Lemma open_Ok (b : bool) (r : result GraphError unit) :
  (if b then r else Ok tt) = Ok tt ↔ (b = true → r = Ok tt).
Proof. destruct b; naive_solver. Qed.
Lemma negb_Ok (b : bool) e (r : result GraphError unit) :
  (if negb b then Err e else r) = Ok tt ↔ b = true ∧ r = Ok tt.
Proof. destruct b; cbn; naive_solver. Qed.

Lemma validate_record_Ok id r : validate_record records s id r = Ok tt ↔ record_valid f s id r.
Proof.
  unfold validate_record, record_valid. rewrite then_Ok, validate_scope_Ok. f_equiv.
  destruct r as [e|e|a|x]; cbn [record_shape live_visible live_active evidence_keys correction_kept].
  - destruct (Z.eqb_spec (e_schema_version e) 0); [naive_solver|].
    rewrite then_Ok, validate_value_scope_Ok. case_decide.
    + rewrite validate_value_Ok. naive_solver.
    + naive_solver.
  - naive_solver.
  - rewrite !then_Ok, validate_scope_Ok, validate_value_scope_Ok, validate_evidence_Ok, negb_Ok.
    rewrite then_Ok, open_Ok.
    rewrite (correction_Ok _ (λ c, ∃ x, f c = Some (RAssertion x))).
    2:{ intros c. destruct (f c) as [[]|]; naive_solver. }
    destruct (is_open (a_status a)).
    + rewrite then_Ok, require_active_Ok, validate_value_Ok, Forall_singleton. naive_solver.
    + naive_solver.
  - rewrite !then_Ok, !validate_scope_Ok, validate_value_scope_Ok, validate_evidence_Ok, negb_Ok.
    rewrite then_Ok, open_Ok.
    rewrite (correction_Ok _ (λ c, ∃ x, f c = Some (RRelationship x))).
    2:{ intros c. destruct (f c) as [[]|]; naive_solver. }
    destruct (is_open (r_status x)).
    + rewrite !then_Ok, !require_active_Ok, validate_value_Ok, Forall_cons, Forall_singleton.
      naive_solver.
    + naive_solver.
Qed.
End lookups.

Definition state_valid (s : NamespaceRef) (m : Records) : Prop :=
  map_Forall (record_valid (λ t, m !! t) s) m.
Lemma validate_state_Ok s m : validate_state s m = Ok tt ↔ state_valid s m.
Proof.
  unfold validate_state, state_valid. rewrite try_each_Ok, Forall_forall. split.
  - intros H id r Hr. apply elem_of_btree_entries in Hr. apply H in Hr.
    by apply (validate_record_Ok m) in Hr.
  - intros H [id r] Hr%elem_of_btree_entries. by apply (validate_record_Ok m), H.
Qed.
(** Validity only depends on the references the record keeps alive. *)
Lemma record_valid_mono (f g : lookup_fn) s id r :
  (∀ t, t ∈ live_visible r → visible f t → visible g t) →
  (∀ t, t ∈ live_active r → active f t → active g t) →
  (∀ t, is_evidence f t → is_evidence g t) →
  (correction_kept f r → correction_kept g r) →
  record_valid f s id r → record_valid g s id r.
Proof.
  intros Hv Ha He Hc (H1 & H2 & H3 & H4 & H5 & H6). rewrite Forall_forall in H3, H4, H5.
  split_and!; [done|done|..|by apply Hc]; apply Forall_forall; auto.
Qed.
Lemma record_valid_ext (f g : lookup_fn) s id r :
  (∀ t, f t = g t) → record_valid f s id r → record_valid g s id r.
Proof.
  intros Hfg. apply record_valid_mono.
  - intros t _ (x & Hx & ?). exists x. by rewrite <-Hfg.
  - intros t _ (x & Hx & ?). exists x. by rewrite <-Hfg.
  - intros t (x & Hx). exists x. by rewrite <-Hfg.
  - destruct r; cbn; try done; intros H c Hc; rewrite <-Hfg; by apply H.
Qed.
Lemma validate_changed_Ok s ov affected : validate_changed_state s ov affected = Ok tt ↔
  ∀ id, id ∈ affected → ∃ r, ov_map ov !! id = Some r ∧ record_valid (λ t, ov_map ov !! t) s id r.
Proof.
  unfold validate_changed_state. rewrite try_each_Ok, Forall_forall.
  setoid_rewrite elem_of_btree_elements. setoid_rewrite bind_Ok. setoid_rewrite ok_or_Ok.
  setoid_rewrite (validate_record_Ok ov). setoid_rewrite overlay_get_map.
  unfold lookup_record, Overlay_RecordLookup.
  split; intros H id Hid; destruct (H id Hid) as (r & Hr & Hv); exists r; (split; [done|]);
    revert Hv; apply record_valid_ext; intros t; by rewrite overlay_get_map.
Qed.

(** ** References exposed to the deletion scan *)
Definition claim_targets (r : GRecord) : list RecordRef :=
  match r with
  | RAssertion a => a_subject a :: value_references (a_object a)
  | RRelationship x => r_from x :: r_to x :: value_references (r_properties x)
  | _ => []
  end.
Definition claim_status (r : GRecord) : option AssertionStatus :=
  match r with
  | RAssertion a => Some (a_status a)
  | RRelationship x => Some (r_status x)
  | _ => None
  end.
Lemma land_nonzero a b : 0 ≤ a → 0 ≤ b →
  Z.land a b ≠ 0 ↔ ∃ i, 0 ≤ i ∧ Z.testbit a i = true ∧ Z.testbit b i = true.
Proof.
  intros Ha Hb. split.
  - intros Hn. assert (0 ≤ Z.land a b) as Hp by (apply Z.land_nonneg; lia).
    exists (Z.log2 (Z.land a b)). split; [apply Z.log2_nonneg|].
    apply andb_true_iff. rewrite <-Z.land_spec. apply Z.bit_log2. lia.
  - intros (i & Hi & H1 & H2) H0. assert (Z.testbit (Z.land a b) i = true) as H
      by (by rewrite Z.land_spec, H1, H2). by rewrite H0, Z.testbit_0_l in H.
Qed.
Lemma roles_land t l mask : 0 ≤ mask → Forall (λ p, 0 < p.2) l →
  Z.land (roles_of t l) mask ≠ 0 ↔ ∃ role, (t, role) ∈ l ∧ Z.land role mask ≠ 0.
Proof.
  intros Hm Hl. rewrite land_nonzero by (done || by apply roles_of_nonneg).
  assert (∀ role, (t, role) ∈ l → 0 ≤ role) as Hpos.
  { intros role Hin. rewrite Forall_forall in Hl. apply Hl in Hin. cbn [snd] in Hin. lia. }
  split.
  - intros (i & Hi & Hb & Hmi). apply roles_of_testbit in Hb as (role & Hin & Hr); [|done].
    exists role. split; [done|]. apply land_nonzero; [by apply Hpos|done|]. by exists i.
  - intros (role & Hin & Hr). apply land_nonzero in Hr as (i & Hi & Hb & Hmi);
      [|by apply Hpos|done]. exists i. split_and!; [done| |done].
    apply roles_of_testbit; [done|]. by exists role.
Qed.

(** The three tests of the scan. *)
Definition claim_mask (reference : ReverseReference) : Z :=
  if owner_kind reference =? REVERSE_KIND_ASSERTION
  then Z.lor REVERSE_ROLE_ASSERTION_SUBJECT REVERSE_ROLE_ASSERTION_OBJECT
  else if owner_kind reference =? REVERSE_KIND_RELATIONSHIP
  then Z.lor (Z.lor REVERSE_ROLE_RELATIONSHIP_FROM REVERSE_ROLE_RELATIONSHIP_TO)
         REVERSE_ROLE_RELATIONSHIP_PROPERTY
  else 0.
Definition claim_dep (state : Z) (reference : ReverseReference) : bool :=
  negb (Z.land (roles reference) (claim_mask reference) =? 0) && (owner_state reference =? state).
Definition entity_dep (reference : ReverseReference) : bool :=
  (owner_kind reference =? REVERSE_KIND_ENTITY) && (owner_state reference =? REVERSE_STATE_ACTIVE)
  && negb (Z.land (roles reference) REVERSE_ROLE_ENTITY_PROPERTY =? 0).

Lemma elem_of_visit_value t role v role' :
  (t, role') ∈ visit_value_references v role ↔ t ∈ value_references v ∧ role' = role.
Proof. unfold visit_value_references. rewrite list_elem_of_fmap. set_solver. Qed.
Lemma elem_of_tagged (t : RecordRef) (role role' : Z) l :
  (t, role') ∈ map (λ e, (e, role)) l ↔ t ∈ l ∧ role' = role.
Proof. rewrite list_elem_of_fmap. set_solver. Qed.
Lemma elem_of_opt_tag (t : RecordRef) (role role' : Z) (o : option RecordRef) :
  (t, role') ∈ match o with Some p => [(p, role)] | None => [] end ↔ o = Some t ∧ role' = role.
Proof. destruct o; rewrite ?list_elem_of_singleton; set_solver. Qed.

Lemma claim_roles_assertion a t :
  Z.land (roles_of t (visit_record_references (RAssertion a)))
    (Z.lor REVERSE_ROLE_ASSERTION_SUBJECT REVERSE_ROLE_ASSERTION_OBJECT) ≠ 0 ↔
  t ∈ claim_targets (RAssertion a).
Proof.
  rewrite roles_land by (done || apply visit_roles). cbn [visit_record_references claim_targets].
  rewrite elem_of_cons. split.
  - intros (role & Hin & Hr). rewrite elem_of_cons, !elem_of_app, elem_of_visit_value,
      elem_of_tagged, elem_of_opt_tag in Hin.
    destruct Hin as [[= -> ->]|[[? ->]|[[? ->]|[? ->]]]]; [by left|by right| |]; by destruct Hr.
  - intros [->|Hin].
    + exists REVERSE_ROLE_ASSERTION_SUBJECT. split; [by apply elem_of_cons; left|done].
    + exists REVERSE_ROLE_ASSERTION_OBJECT. split; [|done].
      rewrite elem_of_cons, elem_of_app, elem_of_visit_value. auto.
Qed.
Lemma claim_roles_relationship x t :
  Z.land (roles_of t (visit_record_references (RRelationship x)))
    (Z.lor (Z.lor REVERSE_ROLE_RELATIONSHIP_FROM REVERSE_ROLE_RELATIONSHIP_TO)
       REVERSE_ROLE_RELATIONSHIP_PROPERTY) ≠ 0 ↔ t ∈ claim_targets (RRelationship x).
Proof.
  rewrite roles_land by (done || apply visit_roles). cbn [visit_record_references claim_targets].
  rewrite !elem_of_cons. split.
  - intros (role & Hin & Hr). rewrite !elem_of_cons, !elem_of_app, elem_of_visit_value,
      elem_of_tagged, elem_of_opt_tag in Hin.
    destruct Hin as [[= -> ->]|[[= -> ->]|[[? ->]|[[? ->]|[? ->]]]]];
      [by left|by right; left|by right; right| |]; by destruct Hr.
  - intros [->|[->|Hin]].
    + exists REVERSE_ROLE_RELATIONSHIP_FROM. split; [by apply elem_of_cons; left|done].
    + exists REVERSE_ROLE_RELATIONSHIP_TO. split; [|done]. rewrite !elem_of_cons. auto.
    + exists REVERSE_ROLE_RELATIONSHIP_PROPERTY. split; [|done].
      rewrite !elem_of_cons, elem_of_app, elem_of_visit_value. auto.
Qed.
Lemma entity_roles e t :
  Z.land (roles_of t (visit_record_references (REntity e))) REVERSE_ROLE_ENTITY_PROPERTY ≠ 0 ↔
  t ∈ value_references (e_properties e).
Proof.
  rewrite roles_land by (done || apply visit_roles). cbn [visit_record_references]. split.
  - intros (role & Hin & _). by apply elem_of_visit_value in Hin as [? _].
  - intros Hin. exists REVERSE_ROLE_ENTITY_PROPERTY. by rewrite elem_of_visit_value.
Qed.
Lemma reverse_reference_for_target_Some r t ref :
  reverse_reference_for_target r t = Some ref ↔
  roles_of t (visit_record_references r) ≠ 0 ∧
  ref = reverse_reference r (roles_of t (visit_record_references r)).
Proof.
  unfold reverse_reference_for_target. fold (roles_of t (visit_record_references r)).
  destruct (Z.eqb_spec (roles_of t (visit_record_references r)) 0); naive_solver.
Qed.
Lemma negb_eqb0 z : negb (z =? 0) = true ↔ z ≠ 0.
Proof. destruct (Z.eqb_spec z 0); cbn; naive_solver. Qed.
Lemma status_state st st' : reverse_assertion_state st = reverse_assertion_state st' ↔ st = st'.
Proof. destruct st, st'; cbn; naive_solver. Qed.

Lemma claim_dep_spec r t ref st : reverse_reference_for_target r t = Some ref →
  claim_dep (reverse_assertion_state st) ref = true ↔
  claim_status r = Some st ∧ t ∈ claim_targets r.
Proof.
  intros [Hn ->]%reverse_reference_for_target_Some. unfold claim_dep.
  rewrite andb_true_iff, negb_eqb0, Z.eqb_eq. destruct r as [e|e|a|x].
  - cbn. rewrite Z.land_0_r. split; by intros [? _].
  - done.
  - unfold claim_mask. cbn [reverse_reference owner_kind owner_state roles claim_status].
    change (REVERSE_KIND_ASSERTION =? REVERSE_KIND_ASSERTION) with true. cbn iota.
    rewrite claim_roles_assertion, status_state.
    split; [by intros [? <-]|by intros [[= <-] ?]].
  - unfold claim_mask. cbn [reverse_reference owner_kind owner_state roles claim_status].
    change (REVERSE_KIND_RELATIONSHIP =? REVERSE_KIND_ASSERTION) with false.
    change (REVERSE_KIND_RELATIONSHIP =? REVERSE_KIND_RELATIONSHIP) with true. cbn iota.
    rewrite claim_roles_relationship, status_state.
    split; [by intros [? <-]|by intros [[= <-] ?]].
Qed.
Lemma entity_dep_spec r t ref : reverse_reference_for_target r t = Some ref →
  entity_dep ref = true ↔
  ∃ e, r = REntity e ∧ e_lifecycle e = Active ∧ t ∈ value_references (e_properties e).
Proof.
  intros [Hn ->]%reverse_reference_for_target_Some. unfold entity_dep.
  rewrite !andb_true_iff, negb_eqb0, !Z.eqb_eq. destruct r as [e|e|a|x].
  - cbn [reverse_reference owner_kind owner_state roles]. rewrite entity_roles.
    split.
    + intros [[_ Hl] Ht]. exists e. split_and!; [done| |done]. by destruct (e_lifecycle e).
    + by intros (e' & [= <-] & -> & Ht).
  - done.
  - split; [by intros [[? _] _]|by intros (? & ? & _)].
  - split; [by intros [[? _] _]|by intros (? & ? & _)].
Qed.
(** A claim or entity target is always summarised. *)
Lemma target_summarised r t :
  t ∈ claim_targets r ∨ (∃ e, r = REntity e ∧ t ∈ value_references (e_properties e)) →
  is_Some (reverse_reference_for_target r t).
Proof.
  intros Ht. eexists. apply reverse_reference_for_target_Some. split; [|done].
  apply roles_of_pos; [apply visit_roles|]. apply list_elem_of_fmap.
  destruct Ht as [Ht|(e & -> & Ht)].
  - destruct r as [e|e|a|x]; cbn [claim_targets visit_record_references] in *;
      [by apply not_elem_of_nil in Ht..| |].
    + apply elem_of_cons in Ht as [->|Ht]; [eexists (_, _); split; [|by apply elem_of_cons; left]; done|].
      exists (t, REVERSE_ROLE_ASSERTION_OBJECT). split; [done|].
      rewrite elem_of_cons, elem_of_app, elem_of_visit_value. auto.
    + apply elem_of_cons in Ht as [->|Ht]; [eexists (_, _); split; [|by apply elem_of_cons; left]; done|].
      apply elem_of_cons in Ht as [->|Ht].
      * exists (r_to x, REVERSE_ROLE_RELATIONSHIP_TO). split; [done|]. rewrite !elem_of_cons. auto.
      * exists (t, REVERSE_ROLE_RELATIONSHIP_PROPERTY). split; [done|].
        rewrite !elem_of_cons, elem_of_app, elem_of_visit_value. auto.
  - exists (t, REVERSE_ROLE_ENTITY_PROPERTY). split; [done|]. cbn. by rewrite elem_of_visit_value.
Qed.
