(* ===== verification/GraphCheckpoint.v ===== *)
(** * Graph checkpoints

    Models the persistence half of [crates/uste-graph/src/state.rs]: validation
    of version histories and of historical references, construction of a state
    from persisted parts, and the checkpoint encoder and decoder.

    The functions that walk reference requirements with a fallible visitor
    return the requirement sequence; the one failing visitor of this file
    returns the first requirement that does not match.  The encoder's sink is
    the byte list it appends to. *)
From S2P Require Import Prelude Ids Value Codec Policy GraphRecord GraphCodec GraphIndex GraphState.

(** [uste_txn::CheckpointStateError]. *)
Module CheckpointStateError.
Inductive checkpoint_state_error : Set := Invalid | ResourceLimit | UnsupportedProfile.
End CheckpointStateError.
Abbreviation CheckpointStateError := CheckpointStateError.checkpoint_state_error.
Import CheckpointStateError.

Definition MAX_GRAPH_CHECKPOINT_BYTES : Z := 256 * 1024 * 1024.
Definition MAX_GRAPH_CHECKPOINT_RECORDS : Z := 1000000.
Definition MAX_GRAPH_CHECKPOINT_VERSIONS : Z := 10000000.
(** [b"UGCP\0\x01\0\0"]. *)
Definition GRAPH_CHECKPOINT_MAGIC : list byte := lit "UGCP" ++ [x00; x01; x00; x00].

Definition invalid {A} (r : result GraphError A) : result CheckpointStateError A :=
  map_err (λ _, Invalid) r.
Definition checkpoint_codec_error (error : GraphCodecError) : CheckpointStateError :=
  match error with GraphCodecError.ResourceLimit => ResourceLimit | _ => Invalid end.

(** ** Shapes *)
Definition check_reference (scope : NamespaceRef) (unique : gset RecordRef)
    (reference : RecordRef) : result CheckpointStateError (gset RecordRef) :=
  invalid (validate_scope scope reference);;
  if decide (reference ∈ unique) then Err Invalid else Ok ({[ reference ]} ∪ unique).
Definition validate_historical_references (scope : NamespaceRef) (references : list RecordRef) :
    result CheckpointStateError unit :=
  try_fold (check_reference scope) references ∅;; Ok tt.
Definition validate_correction_scope (scope : NamespaceRef) (correction : option RecordRef) :
    result CheckpointStateError unit :=
  match correction with
  | Some correction => invalid (validate_scope scope correction)
  | None => Ok tt
  end.
Definition validate_historical_record_shape (scope : NamespaceRef) (record : GRecord) :
    result CheckpointStateError unit :=
  invalid (validate_scope scope (record_id record));;
  match record with
  | REntity entity =>
      if (e_schema_version entity =? 0)
         || (e_modified_revision entity <? e_created_revision entity)
      then Err Invalid
      else invalid (validate_value_scope scope (e_properties entity))
  | REvidence _ => Ok tt
  | RAssertion assertion =>
      if (a_modified_revision assertion <? a_recorded_revision assertion)
         || bool_decide (a_evidence assertion = [])
         || negb (valid_time_is_valid (a_valid_time assertion))
      then Err Invalid
      else
        invalid (validate_scope scope (a_subject assertion));;
        invalid (validate_value_scope scope (a_object assertion));;
        validate_historical_references scope (a_evidence assertion);;
        validate_correction_scope scope (a_correction_of assertion)
  | RRelationship relationship =>
      if (r_modified_revision relationship <? r_recorded_revision relationship)
         || bool_decide (r_evidence relationship = [])
         || negb (valid_time_is_valid (r_valid_time relationship))
      then Err Invalid
      else
        invalid (validate_scope scope (r_from relationship));;
        invalid (validate_scope scope (r_to relationship));;
        invalid (validate_value_scope scope (r_properties relationship));;
        validate_historical_references scope (r_evidence relationship);;
        validate_correction_scope scope (r_correction_of relationship)
  end.

(** ** Version histories *)
Definition valid_checkpoint_status_transition (previous next : AssertionStatus) : bool :=
  match previous, next with
  | Proposed, Accepted | Proposed, Rejected | Accepted, Disputed | Accepted, Superseded
  | Accepted, Retracted | Accepted, Expired => true
  | _, _ => false
  end.
Definition validate_history_first (scope : NamespaceRef) (record : GRecord) :
    result CheckpointStateError unit :=
  validate_historical_record_shape scope record;;
  if match record with
     | REntity r => bool_decide (e_lifecycle r = Active)
                    && (e_created_revision r =? e_modified_revision r)
     | REvidence r => ev_version r =? RecordVersion_FIRST
     | RAssertion r => bool_decide (a_status r = Proposed)
                       && (a_recorded_revision r =? a_modified_revision r)
     | RRelationship r => bool_decide (r_status r = Proposed)
                          && (r_recorded_revision r =? r_modified_revision r)
     end
  then Ok tt else Err Invalid.
Definition history_successor_matches (previous next : GRecord) : bool :=
  match previous, next with
  | REntity p, REntity n =>
      bool_decide (e_id p = e_id n) && bool_decide (e_entity_type p = e_entity_type n)
      && (e_schema_version p =? e_schema_version n)
      && (e_created_revision p =? e_created_revision n)
      && bool_decide (e_lifecycle p = Active)
      && (bool_decide (e_lifecycle n = Active) || bool_decide (e_lifecycle n = Deleted))
      && (bool_decide (e_lifecycle n = Active) || bool_decide (e_properties p = e_properties n))
  | RAssertion p, RAssertion n =>
      bool_decide (a_id p = a_id n) && bool_decide (a_subject p = a_subject n)
      && bool_decide (a_predicate p = a_predicate n) && bool_decide (a_object p = a_object n)
      && bool_decide (a_evidence p = a_evidence n)
      && bool_decide (a_valid_time p = a_valid_time n)
      && bool_decide (a_correction_of p = a_correction_of n)
      && (a_recorded_revision p =? a_recorded_revision n)
      && valid_checkpoint_status_transition (a_status p) (a_status n)
  | RRelationship p, RRelationship n =>
      bool_decide (r_id p = r_id n) && bool_decide (r_from p = r_from n)
      && bool_decide (r_to p = r_to n)
      && bool_decide (r_relationship_type p = r_relationship_type n)
      && bool_decide (r_properties p = r_properties n)
      && bool_decide (r_evidence p = r_evidence n)
      && bool_decide (r_valid_time p = r_valid_time n)
      && bool_decide (r_correction_of p = r_correction_of n)
      && (r_recorded_revision p =? r_recorded_revision n)
      && valid_checkpoint_status_transition (r_status p) (r_status n)
  | _, _ => false
  end.
Definition validate_history_successor (scope : NamespaceRef) (previous next : GRecord) :
    result CheckpointStateError unit :=
  validate_historical_record_shape scope next;;
  if history_successor_matches previous next then Ok tt else Err Invalid.
(** [versions.windows(2)]. *)
Fixpoint validate_successors (scope : NamespaceRef) (previous : GRecord) (rest : list GRecord) :
    result CheckpointStateError unit :=
  match rest with
  | [] => Ok tt
  | next :: rest =>
      validate_history_successor scope previous next;; validate_successors scope next rest
  end.
Definition validate_record_history (scope : NamespaceRef) (versions : list GRecord) :
    result CheckpointStateError unit :=
  match versions with
  | [] => Err Invalid
  | first :: rest => validate_history_first scope first;; validate_successors scope first rest
  end.

(** ** Historical references *)
Inductive RequiredRecordKind : Set :=
| KVisible | KActiveEntity | KEvidence | KAssertion | KRelationship
| KAcceptedAssertion | KAcceptedRelationship.
Record ReferenceRequirement : Set := mk_reference_requirement {
  rq_target : RecordRef;
  rq_revision : CommitRevision;
  rq_kind : RequiredRecordKind
}.
Definition value_requirements (value : Value) (revision : CommitRevision)
    (kind : RequiredRecordKind) : list ReferenceRequirement :=
  map (λ target, mk_reference_requirement target revision kind) (value_references value).
Definition evidence_requirements (evidence : list RecordRef) (revision : CommitRevision) :
    list ReferenceRequirement :=
  map (λ target, mk_reference_requirement target revision KEvidence) evidence.
Definition preceding_revision (revision : CommitRevision) :
    result CheckpointStateError CommitRevision :=
  match checked_sub revision 1 with
  | Some value => map_err (λ _, Invalid) (CommitRevision_new value)
  | None => Err Invalid
  end.
(** The correction requirement comes last: everything before it is visited
    before [preceding_revision] can fail. *)
Definition correction_requirement (correction : option RecordRef) (recorded : CommitRevision)
    (kind : RequiredRecordKind) : result CheckpointStateError (list ReferenceRequirement) :=
  match correction with
  | Some target =>
      revision ← preceding_revision recorded;
      Ok [mk_reference_requirement target revision kind]
  | None => Ok []
  end.
Definition history_first_requirements (record : GRecord) :
    list ReferenceRequirement * result CheckpointStateError (list ReferenceRequirement) :=
  match record with
  | REntity entity =>
      (value_requirements (e_properties entity) (e_modified_revision entity) KVisible, Ok [])
  | REvidence _ => ([], Ok [])
  | RAssertion assertion =>
      let recorded := a_recorded_revision assertion in
      (mk_reference_requirement (a_subject assertion) recorded KActiveEntity
         :: value_requirements (a_object assertion) recorded KVisible
         ++ evidence_requirements (a_evidence assertion) recorded,
       correction_requirement (a_correction_of assertion) recorded KAcceptedAssertion)
  | RRelationship relationship =>
      let recorded := r_recorded_revision relationship in
      (mk_reference_requirement (r_from relationship) recorded KActiveEntity
         :: mk_reference_requirement (r_to relationship) recorded KActiveEntity
         :: value_requirements (r_properties relationship) recorded KVisible
         ++ evidence_requirements (r_evidence relationship) recorded,
       correction_requirement (r_correction_of relationship) recorded KAcceptedRelationship)
  end.
Definition history_successor_requirements (record : GRecord) : list ReferenceRequirement :=
  match record with
  | REntity entity =>
      if decide (e_lifecycle entity = Active)
      then value_requirements (e_properties entity) (e_modified_revision entity) KVisible
      else []
  | _ => []
  end.
Definition reference_requirement_matches (requirement : ReferenceRequirement)
    (record : option GRecord) : bool :=
  match rq_kind requirement, record with
  | KVisible, Some record => is_visible_record record
  | KActiveEntity, Some (REntity entity) => bool_decide (e_lifecycle entity = Active)
  | KEvidence, Some (REvidence _) => true
  | KAssertion, Some (RAssertion _) => true
  | KRelationship, Some (RRelationship _) => true
  | KAcceptedAssertion, Some (RAssertion assertion) => bool_decide (a_status assertion = Accepted)
  | KAcceptedRelationship, Some (RRelationship relationship) =>
      bool_decide (r_status relationship = Accepted)
  | _, _ => false
  end.
Definition validate_reference_requirement (history : History)
    (requirement : ReferenceRequirement) : result CheckpointStateError unit :=
  if reference_requirement_matches requirement
       (record_at history (rq_target requirement) (rq_revision requirement))
  then Ok tt else Err Invalid.
Definition validate_versions_closure (history : History) (versions : list GRecord) :
    result CheckpointStateError unit :=
  match versions with
  | [] => Err Invalid
  | first :: rest =>
      let '(requirements, correction) := history_first_requirements first in
      try_each (validate_reference_requirement history) requirements;;
      correction ← correction;
      try_each (validate_reference_requirement history) correction;;
      try_each (λ record, try_each (validate_reference_requirement history)
        (history_successor_requirements record)) rest
  end.
Definition validate_historical_reference_closure (history : History) :
    result CheckpointStateError unit :=
  try_each (validate_versions_closure history) (btree_values history).

(** ** States from persisted parts *)
(** The version loop of one history; [previous] is [versions[index - 1]]. *)
Fixpoint check_versions (id : RecordRef) (revision : CommitRevision) (index : Z)
    (previous : option GRecord) (versions : list GRecord) : result CheckpointStateError unit :=
  match versions with
  | [] => Ok tt
  | record :: rest =>
      expected_version ← ok_or (checked_add index 1) ResourceLimit;
      if negb (bool_decide (record_id record = id))
         || negb (record_version record =? expected_version)
         || (revision <? modified_revision record)
         || match previous with
            | Some p => modified_revision record <=? modified_revision p
            | None => false
            end
      then Err Invalid
      else check_versions id revision (index + 1) (Some record) rest
  end.
Definition check_history (scope : NamespaceRef) (revision : CommitRevision) (records : Records)
    (h : RecordRef * list GRecord) : result CheckpointStateError unit :=
  let '(id, versions) := h in
  if bool_decide (versions = []) then Err Invalid
  else
    check_versions id revision 0 None versions;;
    validate_record_history scope versions;;
    if bool_decide (records !! id = last versions) then Ok tt else Err Invalid.
(** The policy loop; [previous] is the version before. *)
Fixpoint check_policy_history (scope : NamespaceRef) (revision : CommitRevision)
    (previous : option PolicyVersion) (entries : list (CommitRevision * NamespacePolicy)) :
    result CheckpointStateError unit :=
  match entries with
  | [] => Ok tt
  | (policy_revision, historical) :: rest =>
      if (revision <? policy_revision)
         || negb (bool_decide (policy_scope historical = scope))
         || match previous with
            | Some value => policy_version historical <=? value
            | None => false
            end
      then Err Invalid
      else check_policy_history scope revision (Some (policy_version historical)) rest
  end.

(** [validate_derived_entry_counts]. *)
Record DerivedCounts : Set := mk_counts {
  count_outgoing : Z;
  count_incoming : Z;
  count_provenance : Z;
  count_reverse : Z
}.
#[global] Instance DerivedCounts_eq_dec : EqDecision DerivedCounts.
Proof. solve_decision. Defined.
Definition checked_count (a b : Z) : result CheckpointStateError Z :=
  ok_or (checked_add a b) ResourceLimit.
(** The visitor over one owner's targets: each distinct target counts once;
    [None] once the expected total would be exceeded. *)
Definition count_target (expected : Z) (st : gset RecordRef * Z * bool) (t : RecordRef * Z) :
    gset RecordRef * Z * bool :=
  let '(owner_targets, reverse, overflow) := st in
  if decide (t.1 ∈ owner_targets) then st
  else if reverse =? expected then (owner_targets, reverse, true)
  else ({[ t.1 ]} ∪ owner_targets, reverse + 1, overflow).
Definition count_record (expected : DerivedCounts) (c : DerivedCounts) (record : GRecord) :
    result CheckpointStateError DerivedCounts :=
  c ←
    (match record with
     | RRelationship relationship =>
         '(out, inc) ←
           (if decide (r_status relationship = Accepted)
            then out ← checked_count (count_outgoing c) 1;
                 inc ← checked_count (count_incoming c) 1; Ok (out, inc)
            else Ok (count_outgoing c, count_incoming c));
         prov ← checked_count (count_provenance c) (zlen (r_evidence relationship));
         Ok (mk_counts out inc prov (count_reverse c))
     | RAssertion assertion =>
         prov ← checked_count (count_provenance c) (zlen (a_evidence assertion));
         Ok (mk_counts (count_outgoing c) (count_incoming c) prov (count_reverse c))
     | REntity _ | REvidence _ => Ok c
     end);
  if (count_outgoing expected <? count_outgoing c) || (count_incoming expected <? count_incoming c)
     || (count_provenance expected <? count_provenance c)
  then Err Invalid
  else
    let '(_, rev, overflow) :=
      foldl (count_target (count_reverse expected)) (∅, count_reverse c, false)
        (visit_record_references record) in
    if overflow : bool then Err Invalid
    else Ok (mk_counts (count_outgoing c) (count_incoming c) (count_provenance c) rev).
Definition validate_derived_entry_counts (records : Records) (expected : DerivedCounts) :
    result CheckpointStateError unit :=
  c ← try_fold (count_record expected) (btree_values records) (mk_counts 0 0 0 0);
  if decide (c = expected) then Ok tt else Err Invalid.

Definition from_persisted_parts_inner (scope : NamespaceRef) (revision : CommitRevision)
    (records : Records) (history : History) (policy : option NamespacePolicy)
    (policy_history : gmap CommitRevision NamespacePolicy)
    (expected_derived_counts : option DerivedCounts) : result CheckpointStateError GraphState :=
  if negb (map_len records =? map_len history)
     || negb (forallb (λ p, bool_decide (p.1 = p.2)) (zip (btree_keys records) (btree_keys history)))
  then Err Invalid
  else if existsb (λ '(id, record), negb (bool_decide (record_id record = id))
            || (revision <? modified_revision record)) (btree_entries records)
  then Err Invalid
  else
    try_each (check_history scope revision records) (btree_entries history);;
    validate_historical_reference_closure history;;
    if match policy with
       | Some value => negb (bool_decide (policy_scope value = scope))
       | None => false
       end
    then Err Invalid
    else
      check_policy_history scope revision None (btree_entries policy_history);;
      if negb (bool_decide (last (btree_values policy_history) = policy)) then Err Invalid
      else
        invalid (validate_state scope records);;
        (match expected_derived_counts with
         | Some expected => validate_derived_entry_counts records expected
         | None => Ok tt
         end);;
        Ok (mk_snapshot scope (Some revision) records history (rebuild_indexes records)
              policy policy_history).
Definition from_persisted_parts (scope : NamespaceRef) (revision : CommitRevision)
    (records : Records) (history : History) (policy : option NamespacePolicy)
    (policy_history : gmap CommitRevision NamespacePolicy) :
    result CheckpointStateError GraphState :=
  from_persisted_parts_inner scope revision records history policy policy_history None.
Definition from_persisted_parts_with_derived_counts (scope : NamespaceRef)
    (revision : CommitRevision) (records : Records) (history : History)
    (policy : option NamespacePolicy) (policy_history : gmap CommitRevision NamespacePolicy)
    (expected : DerivedCounts) : result CheckpointStateError GraphState :=
  from_persisted_parts_inner scope revision records history policy policy_history (Some expected).

(** ** The encoder *)
Definition out_extend (value output : list byte) : result CheckpointStateError (list byte) :=
  if MAX_GRAPH_CHECKPOINT_BYTES <? zlen output + zlen value then Err ResourceLimit
  else Ok (output ++ value).
Definition out_usize (value : Z) (output : list byte) : result CheckpointStateError (list byte) :=
  out_extend (be_bytes 8 value) output.
Definition out_frame (value output : list byte) : result CheckpointStateError (list byte) :=
  output ← out_usize (zlen value) output; out_extend value output.
Definition out_record (output : list byte) (record : GRecord) :
    result CheckpointStateError (list byte) :=
  encoded ← map_err checkpoint_codec_error (encode_result_record record);
  out_frame encoded output.
Definition out_policy (policy : option NamespacePolicy) (output : list byte) :
    result CheckpointStateError (list byte) :=
  encoded ← map_err checkpoint_codec_error (encode_result_policy policy);
  out_frame encoded output.
Definition out_record_entry (output : list byte) (e : RecordRef * GRecord) :
    result CheckpointStateError (list byte) :=
  output ← out_extend (as_bytes (ref_id e.1)) output; out_record output e.2.
Definition out_history_entry (output : list byte) (e : RecordRef * list GRecord) :
    result CheckpointStateError (list byte) :=
  output ← out_extend (as_bytes (ref_id e.1)) output;
  output ← out_usize (zlen e.2) output;
  try_fold out_record e.2 output.
Definition out_policy_entry (output : list byte) (e : CommitRevision * NamespacePolicy) :
    result CheckpointStateError (list byte) :=
  output ← out_extend (be_bytes 8 e.1) output; out_policy (Some e.2) output.
Definition encode_graph_checkpoint (s : GraphSnapshot) : result CheckpointStateError (list byte) :=
  revision ← ok_or (revision s) Invalid;
  if (MAX_GRAPH_CHECKPOINT_RECORDS <? map_len (records s))
     || (MAX_GRAPH_CHECKPOINT_RECORDS <? map_len (history s))
     || (MAX_GRAPH_CHECKPOINT_RECORDS <? map_len (policy_history s))
  then Err ResourceLimit
  else
    version_count ← try_fold (λ total versions, checked_count total (zlen versions))
      (btree_values (history s)) 0;
    if MAX_GRAPH_CHECKPOINT_VERSIONS <? version_count then Err ResourceLimit
    else
      output ← out_extend GRAPH_CHECKPOINT_MAGIC [];
      output ← out_extend (as_bytes (ns_database (scope s))) output;
      output ← out_extend (as_bytes (ns_namespace (scope s))) output;
      output ← out_extend (be_bytes 8 revision) output;
      output ← out_usize (map_len (records s)) output;
      output ← try_fold out_record_entry (btree_entries (records s)) output;
      output ← out_usize (map_len (history s)) output;
      output ← try_fold out_history_entry (btree_entries (history s)) output;
      output ← out_policy (policy s) output;
      output ← out_usize (map_len (policy_history s)) output;
      try_fold out_policy_entry (btree_entries (policy_history s)) output.

(** ** The decoder *)
Abbreviation cursor := (list byte).
Definition cp_read (length : Z) (c : cursor) : result CheckpointStateError (list byte * cursor) :=
  if length <=? zlen c then Ok (take (Z.to_nat length) c, drop (Z.to_nat length) c) else Err Invalid.
Definition cp_read_u64 (c : cursor) : result CheckpointStateError (Z * cursor) :=
  '(bytes, c) ← cp_read 8 c; Ok (of_be_bytes bytes, c).
Definition cp_read_count (maximum : Z) (c : cursor) : result CheckpointStateError (Z * cursor) :=
  '(count, c) ← cp_read_u64 c;
  if maximum <? count then Err ResourceLimit else Ok (count, c).
Definition cp_read_frame (c : cursor) : result CheckpointStateError (list byte * cursor) :=
  '(length, c) ← cp_read_u64 c; cp_read length c.
Definition checkpoint_record (scope : NamespaceRef) (record : list byte) : RecordRef :=
  scoped_ref_new (ns_database scope) (ns_namespace scope) (from_bytes record).
Definition cp_read_record (c : cursor) : result CheckpointStateError (GRecord * cursor) :=
  '(frame, c) ← cp_read_frame c;
  record ← map_err checkpoint_codec_error (decode_result_record frame);
  Ok (record, c).
(** The next identifier, above the previous one. *)
Definition cp_read_id (scope : NamespaceRef) (previous : option RecordRef) (c : cursor) :
    result CheckpointStateError (RecordRef * cursor) :=
  '(bytes, c) ← cp_read 16 c;
  let id := checkpoint_record scope bytes in
  if match previous with Some prior => bool_decide (key_le id prior) | None => false end
  then Err Invalid else Ok (id, c).
Fixpoint decode_records (scope : NamespaceRef) (revision : CommitRevision) (count : nat)
    (previous : option RecordRef) (records : Records) (c : cursor) :
    result CheckpointStateError (Records * cursor) :=
  match count with
  | O => Ok (records, c)
  | S count =>
      '(id, c) ← cp_read_id scope previous c;
      '(record, c) ← cp_read_record c;
      if negb (bool_decide (record_id record = id)) || (revision <? modified_revision record)
      then Err Invalid
      else decode_records scope revision count (Some id) (<[id := record]> records) c
  end.
Fixpoint decode_versions (id : RecordRef) (revision : CommitRevision) (count : nat) (index : Z)
    (versions : list GRecord) (c : cursor) :
    result CheckpointStateError (list GRecord * cursor) :=
  match count with
  | O => Ok (versions, c)
  | S count =>
      '(record, c) ← cp_read_record c;
      expected_version ← ok_or (checked_add index 1) ResourceLimit;
      if negb (bool_decide (record_id record = id))
         || negb (record_version record =? expected_version)
         || (revision <? modified_revision record)
         || match last versions with
            | Some prior => modified_revision record <=? modified_revision prior
            | None => false
            end
      then Err Invalid
      else decode_versions id revision count (index + 1) (versions ++ [record]) c
  end.
Fixpoint decode_histories (scope : NamespaceRef) (revision : CommitRevision) (records : Records)
    (count : nat) (previous : option RecordRef) (total_versions : Z) (history : History)
    (c : cursor) : result CheckpointStateError (History * cursor) :=
  match count with
  | O => Ok (history, c)
  | S n =>
      '(id, c) ← cp_read_id scope previous c;
      '(count, c) ← cp_read_count MAX_GRAPH_CHECKPOINT_VERSIONS c;
      if count =? 0 then Err Invalid
      else
        total_versions ← ok_or (checked_add total_versions count) ResourceLimit;
        if MAX_GRAPH_CHECKPOINT_VERSIONS <? total_versions then Err ResourceLimit
        else
          '(versions, c) ← decode_versions id revision (Z.to_nat count) 0 [] c;
          validate_record_history scope versions;;
          if negb (bool_decide (records !! id = last versions)) then Err Invalid
          else decode_histories scope revision records n (Some id) total_versions
                 (<[id := versions]> history) c
  end.
Definition cp_read_policy (c : cursor) :
    result CheckpointStateError (option NamespacePolicy * cursor) :=
  '(frame, c) ← cp_read_frame c;
  policy ← map_err checkpoint_codec_error (decode_result_policy frame);
  Ok (policy, c).
Fixpoint decode_policies (scope : NamespaceRef) (revision : CommitRevision) (count : nat)
    (previous_revision : option CommitRevision) (previous_version : option PolicyVersion)
    (policies : gmap CommitRevision NamespacePolicy) (c : cursor) :
    result CheckpointStateError (gmap CommitRevision NamespacePolicy * cursor) :=
  match count with
  | O => Ok (policies, c)
  | S count =>
      '(bits, c) ← cp_read_u64 c;
      policy_revision ← map_err (λ _, Invalid) (CommitRevision_new bits);
      '(decoded, c) ← cp_read_policy c;
      decoded ← ok_or decoded Invalid;
      if (revision <? policy_revision)
         || match previous_revision with Some v => policy_revision <=? v | None => false end
         || negb (bool_decide (policy_scope decoded = scope))
         || match previous_version with Some v => policy_version decoded <=? v | None => false end
      then Err Invalid
      else decode_policies scope revision count (Some policy_revision)
             (Some (policy_version decoded)) (<[policy_revision := decoded]> policies) c
  end.
Definition decode_graph_checkpoint (expected_scope : NamespaceRef)
    (expected_revision : CommitRevision) (encoded : list byte) :
    result CheckpointStateError GraphState :=
  if MAX_GRAPH_CHECKPOINT_BYTES <? zlen encoded then Err ResourceLimit
  else
    '(magic, c) ← cp_read 8 encoded;
    if negb (bool_decide (magic = GRAPH_CHECKPOINT_MAGIC)) then Err UnsupportedProfile
    else
      '(database, c) ← cp_read 16 c;
      '(namespace, c) ← cp_read 16 c;
      let scope := NamespaceRef_new (from_bytes database) (from_bytes namespace) in
      '(bits, c) ← cp_read_u64 c;
      revision ← map_err (λ _, Invalid) (CommitRevision_new bits);
      if negb (bool_decide (scope = expected_scope)) || negb (revision =? expected_revision)
      then Err Invalid
      else
        '(record_count, c) ← cp_read_count MAX_GRAPH_CHECKPOINT_RECORDS c;
        '(records, c) ← decode_records scope revision (Z.to_nat record_count) None ∅ c;
        '(history_count, c) ← cp_read_count MAX_GRAPH_CHECKPOINT_RECORDS c;
        '(history, c) ←
          decode_histories scope revision records (Z.to_nat history_count) None 0 ∅ c;
        '(policy, c) ← cp_read_policy c;
        if match policy with
           | Some value => negb (bool_decide (policy_scope value = scope))
           | None => false
           end
        then Err Invalid
        else
          '(policy_count, c) ← cp_read_count MAX_GRAPH_CHECKPOINT_RECORDS c;
          '(policy_history, c) ←
            decode_policies scope revision (Z.to_nat policy_count) None None ∅ c;
          if negb (bool_decide (c = [])) then Err Invalid
          else from_persisted_parts scope revision records history policy policy_history.

(** ** The logical-state digest *)
Section digest.
Context (sha256 : list byte → list byte).
Definition digest_record (record : GRecord) : result CheckpointStateError (list byte) :=
  encoded ← map_err checkpoint_codec_error (encode_result_record record); Ok (framed encoded).
Definition digest_policy (policy : option NamespacePolicy) :
    result CheckpointStateError (list byte) :=
  encoded ← map_err checkpoint_codec_error (encode_result_policy policy); Ok (framed encoded).
(** The bytes absorbed by the hasher, in order. *)
Definition digest_bytes (s : GraphSnapshot) : result CheckpointStateError (list byte) :=
  records_ ← try_map (λ e : RecordRef * GRecord,
    r ← digest_record e.2; Ok (as_bytes (ref_id e.1) ++ r)) (btree_entries (records s));
  history_ ← try_map (λ e : RecordRef * list GRecord,
    versions ← try_map digest_record e.2;
    Ok (as_bytes (ref_id e.1) ++ be_bytes 8 (zlen e.2) ++ concat versions))
    (btree_entries (history s));
  policy_ ← digest_policy (policy s);
  policies_ ← try_map (λ e : CommitRevision * NamespacePolicy,
    p ← digest_policy (Some e.2); Ok (be_bytes 8 e.1 ++ p)) (btree_entries (policy_history s));
  Ok (lit "USTE-GRAPH-LOGICAL-STATE-V1" ++ [x00] ++ as_bytes (ns_database (scope s))
      ++ as_bytes (ns_namespace (scope s)) ++ be_bytes 8 (default 0 (revision s))
      ++ be_bytes 8 (map_len (records s)) ++ concat records_
      ++ be_bytes 8 (map_len (history s)) ++ concat history_
      ++ policy_ ++ be_bytes 8 (map_len (policy_history s)) ++ concat policies_).
Definition digest_graph_snapshot (s : GraphSnapshot) : result CheckpointStateError (list byte) :=
  sha256 <$> digest_bytes s.
End digest.
