(* ===== verification/GraphOperations.v ===== *)
(** * What one operation does

    An operation leaves the base of the overlay alone, creates records in their
    first form or moves existing ones along [record_step], and reports exactly
    the records it wrote.  A deletion leaves no live reference to the deleted
    entity outside the records it wrote. *)
From S2P Require Import Prelude Ids Value Codec Policy GraphRecord GraphCodec GraphIndex GraphState GraphValidity GraphCheckpoint.
Import GraphError.

(** ** The deletion scan *)
Definition count_of {A} (p : A → bool) (l : list A) : Z :=
  zlen (List.filter p l).
Lemma count_snoc {A} (p : A → bool) l x :
  count_of p (l ++ [x]) = count_of p l + if p x then 1 else 0.
Proof.
  unfold count_of. rewrite List.filter_app, zlen_app. cbn. by destruct (p x).
Qed.
Lemma count_nonneg {A} (p : A → bool) l : 0 ≤ count_of p l.
Proof. apply zlen_nonneg. Qed.
Definition accepted_dep (o : RecordRef * ReverseReference) : bool :=
  claim_dep REVERSE_STATE_ACCEPTED o.2.
Definition proposed_dep (o : RecordRef * ReverseReference) : bool :=
  claim_dep REVERSE_STATE_PROPOSED o.2.
Definition property_dep (target : RecordRef) (o : RecordRef * ReverseReference) : bool :=
  entity_dep o.2 && negb (bool_decide (o.1 = target)).
Lemma scan_spec target declared l :
  foldl (scan_reference target declared) (mk_scan 0 0 0 true) l =
  mk_scan (Z.min (count_of accepted_dep l) U64_MAX) (Z.min (count_of proposed_dep l) U64_MAX)
    (Z.min (count_of (property_dep target) l) U64_MAX)
    (forallb (λ o, bool_decide (o.1 ∈ declared)) (List.filter accepted_dep l)).
Proof.
  induction l as [|[o ref] l IH] using rev_ind; [done|].
  rewrite foldl_app. cbn [foldl]. rewrite IH, !count_snoc, List.filter_app, forallb_app.
  unfold scan_reference. cbn [scan_accepted scan_proposed scan_entity_references
    scan_accepted_are_declared].
  fold (claim_mask ref). fold (claim_dep REVERSE_STATE_ACCEPTED ref).
  fold (claim_dep REVERSE_STATE_PROPOSED ref). fold (entity_dep ref).
  change (claim_dep REVERSE_STATE_ACCEPTED ref) with (accepted_dep (o, ref)).
  change (claim_dep REVERSE_STATE_PROPOSED ref) with (proposed_dep (o, ref)).
  change (entity_dep ref && negb (bool_decide (o = target))) with (property_dep target (o, ref)).
  pose proof (count_nonneg accepted_dep l). pose proof (count_nonneg proposed_dep l).
  pose proof (count_nonneg (property_dep target) l). unfold saturating_add.
  f_equal.
  - destruct (accepted_dep (o, ref)); unfold U64_MAX; lia.
  - destruct (proposed_dep (o, ref)); unfold U64_MAX; lia.
  - destruct (property_dep target (o, ref)); unfold U64_MAX; lia.
  - cbn [List.filter]. destruct (accepted_dep (o, ref)); cbn; by rewrite ?andb_true_r.
Qed.
Lemma count_zero {A} (p : A → bool) l :
  (Z.min (count_of p l) U64_MAX =? 0) = true ↔ ∀ x, x ∈ l → p x = false.
Proof.
  rewrite Z.eqb_eq. unfold count_of. pose proof (zlen_nonneg (List.filter p l)). split.
  - intros H0 x Hx. destruct (p x) eqn:Hp; [|done]. exfalso.
    assert (zlen (List.filter p l) = 0) as Hz by (unfold U64_MAX in H0; lia).
    assert (List.filter p l = []) as He.
    { destruct (List.filter p l); [done|]. rewrite zlen_cons in Hz.
      pose proof (zlen_nonneg l0). lia. }
    apply list_elem_of_In in Hx.
    assert (List.In x (List.filter p l)) as Hin by (by apply filter_In).
    by rewrite He in Hin.
  - intros Hall. assert (List.filter p l = []) as ->; [|done].
    induction l as [|x l IH]; [done|]. cbn. rewrite Hall by set_solver.
    apply IH; [apply zlen_nonneg|]. set_solver.
Qed.

(** ** Steps of one record *)
Definition next_of (v v' : RecordVersion) : Prop := v' = v + 1 ∧ v + 1 ≤ U64_MAX.
Lemma next_version_Ok v id v' : next_version v id = Ok v' → next_of v v'.
Proof.
  unfold next_version, RecordVersion_checked_next, checked_add, next_of.
  rewrite map_err_Ok. destruct (Z.leb_spec (v + 1) U64_MAX); [|done].
  unfold RecordVersion_new. destruct (v + 1 =? 0); [done|]. by intros [= <-].
Qed.
Inductive record_step (rev : CommitRevision) : GRecord → GRecord → Prop :=
| step_replace e props v' :
    e_lifecycle e = Active → next_of (e_version e) v' →
    record_step rev (REntity e) (REntity (entity_update e Active props v' rev))
| step_delete e v' :
    e_lifecycle e = Active → next_of (e_version e) v' →
    record_step rev (REntity e) (REntity (entity_update e Deleted (e_properties e) v' rev))
| step_assertion a st v' :
    valid_checkpoint_status_transition (a_status a) st = true → next_of (a_version a) v' →
    record_step rev (RAssertion a) (RAssertion (assertion_set_status a st v' rev))
| step_relationship x st v' :
    valid_checkpoint_status_transition (r_status x) st = true → next_of (r_version x) v' →
    record_step rev (RRelationship x) (RRelationship (relationship_set_status x st v' rev)).
Inductive record_first (rev : CommitRevision) : GRecord → Prop :=
| first_entity id ty sv props :
    record_first rev (REntity (mk_entity id RecordVersion_FIRST Active ty sv props rev rev))
| first_evidence id digest locator :
    record_first rev (REvidence (mk_evidence id RecordVersion_FIRST digest locator rev))
| first_assertion n c : record_first rev (RAssertion (assertion_record n c rev))
| first_relationship n c : record_first rev (RRelationship (relationship_record n c rev)).

Lemma record_step_id rev r r' : record_step rev r r' → record_id r' = record_id r.
Proof. by destruct 1. Qed.
Definition same_kind (r r' : GRecord) : bool :=
  match r, r' with
  | REntity _, REntity _ | REvidence _, REvidence _ | RAssertion _, RAssertion _
  | RRelationship _, RRelationship _ => true
  | _, _ => false
  end.
Lemma record_step_kind rev r r' : record_step rev r r' → same_kind r r' = true.
Proof. by destruct 1. Qed.

Definition record_correction (r : GRecord) : option RecordRef :=
  match r with
  | RAssertion a => a_correction_of a
  | RRelationship x => r_correction_of x
  | _ => None
  end.
(** A correction is of an accepted claim of its own kind. *)
Definition corrects (f : lookup_fn) (r : GRecord) : Prop :=
  ∀ c, record_correction r = Some c →
    ∃ x, f c = Some x ∧ same_kind r x = true ∧ claim_status x = Some Accepted.

(** What an operation may have written so far. *)
Record written (rev : CommitRevision) (op : Operation) (ov ov' : RecordOverlay)
    (aff : gset RecordRef) : Prop := {
  wr_base : ov_base ov' = ov_base ov;
  wr_reverse : ov_base_reverse ov' = ov_base_reverse ov;
  wr_kept : ∀ id, id ∉ aff → ov_changed ov' !! id = ov_changed ov !! id;
  wr_written : ∀ id, id ∈ aff → ∃ r', ov_changed ov' !! id = Some r' ∧ record_id r' = id ∧
    (ov_map ov !! id = None ∧ record_first rev r' ∧ corrects (λ t, ov_map ov !! t) r' ∧
       (∀ c, record_correction r' = Some c → correction_target op = Some c) ∨
     ∃ r, ov_map ov !! id = Some r ∧ record_step rev r r')
}.
Section written.
Context (rev : CommitRevision) (op : Operation) (ov : RecordOverlay).
Lemma written_refl : written rev op ov ov ∅.
Proof. split; [done..|]. set_solver. Qed.
Lemma written_map ov' aff id : written rev op ov ov' aff → id ∉ aff →
  ov_map ov' !! id = ov_map ov !! id.
Proof.
  intros [Hb _ Hk _] Hid. unfold ov_map. rewrite !lookup_union, Hb, Hk by done. done.
Qed.
Lemma written_lookup ov' aff id : written rev op ov ov' aff → id ∈ aff →
  ∃ r', ov_map ov' !! id = Some r' ∧ record_id r' = id ∧
    (ov_map ov !! id = None ∧ record_first rev r' ∧ corrects (λ t, ov_map ov !! t) r' ∧
       (∀ c, record_correction r' = Some c → correction_target op = Some c) ∨
     ∃ r, ov_map ov !! id = Some r ∧ record_step rev r r').
Proof.
  intros [_ _ _ Hw] Hid. destruct (Hw id Hid) as (r' & Hc & Hr). exists r'. split; [|done].
  unfold ov_map. rewrite lookup_union, Hc. by destruct (ov_base ov' !! id).
Qed.
Lemma written_kind ov' aff id r : written rev op ov ov' aff → ov_map ov !! id = Some r →
  ∃ r', ov_map ov' !! id = Some r' ∧ same_kind r r' = true.
Proof.
  intros Hw Hr. destruct (decide (id ∈ aff)) as [Hin|Hn].
  - destruct (written_lookup _ _ _ Hw Hin) as (r' & Hr' & _ & [[Hn _]|(r0 & H0 & Hs)]); [congruence|].
    exists r'. split; [done|]. assert (r0 = r) as -> by congruence. by eapply record_step_kind.
  - exists r. rewrite (written_map _ _ _ Hw Hn). split; [done|]. by destruct r.
Qed.
Lemma written_put ov' aff id r' : written rev op ov ov' aff → id ∉ aff → record_id r' = id →
  (ov_map ov !! id = None ∧ record_first rev r' ∧ corrects (λ t, ov_map ov !! t) r' ∧
     (∀ c, record_correction r' = Some c → correction_target op = Some c) ∨
   ∃ r, ov_map ov !! id = Some r ∧ record_step rev r r') →
  written rev op ov (overlay_insert id r' ov') ({[ id ]} ∪ aff).
Proof.
  intros [Hb Hr Hk Hw] Hid Hrid Hstep. split; [done|done| |].
  - intros id' Hn. cbn. rewrite lookup_insert_ne by set_solver. apply Hk. set_solver.
  - intros id' Hin. cbn. destruct (decide (id = id')) as [<-|Hne].
    + exists r'. by rewrite lookup_insert_eq.
    + rewrite lookup_insert_ne by done. apply Hw. set_solver.
Qed.
(** A write through [get_mut]. *)
Lemma written_step ov' aff id r ov1 r' : keyed (ov_map ov) → written rev op ov ov' aff →
  id ∉ aff → overlay_get_mut id ov' = Some (r, ov1) → record_step rev r r' →
  written rev op ov (overlay_insert id r' ov1) ({[ id ]} ∪ aff) ∧ ov_map ov !! id = Some r.
Proof.
  intros Hkey Hw Hid [Hr Hins]%overlay_get_mut_Some Hs.
  rewrite (written_map _ _ _ Hw Hid) in Hr. split; [|done]. rewrite Hins.
  apply written_put; [done|done| |right; by eauto].
  rewrite (record_step_id _ _ _ Hs). by apply (Hkey id).
Qed.
End written.

(** ** Creation, replacement and status actions *)
Section apply.
Context (rev : CommitRevision) (ov : RecordOverlay) (Hkey : keyed (ov_map ov)).

Lemma create_record_written op n ov' aff : correction_target op = None →
  create_record n rev (ov, ∅) = Ok (ov', aff) → written rev op ov ov' aff ∧ aff = {[ new_record_id n ]}.
Proof.
  intros Hop H. unfold create_record in H. cbn [fst] in H. rewrite overlay_contains_map in H.
  case_bool_decide as Hc; [done|]. apply eq_None_not_Some in Hc.
  apply bind_Ok in H as (r & Hr & [= <- <-]). split; [|set_solver].
  apply written_put; [apply written_refl|set_solver|..].
  - destruct n as [e|e|a|x]; cbn in *; repeat (destruct (negb _); [done|]); by injection Hr as <-.
  - left. split; [done|].
    destruct n as [e|e|a|x]; cbn in Hr; repeat (destruct (negb _); [done|]);
      injection Hr as <-; (split; [constructor|]); by split; [intros c|].
Qed.
Lemma transition_checkpoint st action st' :
  transition st action = Ok st' → valid_checkpoint_status_transition st st' = true.
Proof. by destruct st, action; intros [= <-]. Qed.

Lemma replace_written op target props ov' aff :
  apply_operation (ReplaceEntity target op props) rev (ov, ∅) = Ok (ov', aff) →
  written rev (ReplaceEntity target op props) ov ov' aff ∧ aff = {[ target ]} ∧
  ∃ e', ov_map ov' !! target = Some (REntity e') ∧ e_lifecycle e' = Active.
Proof.
  cbn [apply_operation fst snd]. intros H.
  destruct (overlay_get_mut target ov) as [[[e|e|a|x] ov1]|] eqn:Hg; try done.
  case_bool_decide as Hl; [|done]. cbn [negb] in H.
  apply bind_Ok in H as (v & Hv%next_version_Ok & [= <- <-]). rewrite Hl.
  destruct (written_step rev (ReplaceEntity target op props) ov ov ∅ target (REntity e) ov1
    (REntity (entity_update e Active props v rev))) as [Hw _]; [done|apply written_refl|set_solver|
    done|by constructor|].
  split_and!; [done|set_solver|]. cbn [fst]. rewrite ov_map_insert, lookup_insert_eq. by eexists.
Qed.

Lemma assertion_action_written target exp action correction cexp ov' aff :
  let op := ActOnAssertion target exp action correction cexp in
  apply_assertion_action target action correction rev (ov, ∅) = Ok (ov', aff) →
  written rev op ov ov' aff ∧
  ∀ id r, id ∈ aff → ov_map ov' !! id = Some r → ∃ a, r = RAssertion a.
Proof.
  intros op H. unfold apply_assertion_action in H. cbn [fst snd] in H.
  apply bind_Ok in H as (st & Hst & H). rewrite overlay_get_map in Hst.
  destruct (ov_map ov !! target) as [[e|e|a|x]|] eqn:Ht; try done. injection Hst as <-.
  case_decide as Hc.
  - destruct (negb _) eqn:Hacc; [done|]. apply negb_false_iff, bool_decide_eq_true in Hacc.
    apply bind_Ok in H as (n & Hn%ok_or_Ok & H). rewrite overlay_contains_map in H.
    case_bool_decide as Hid; [done|]. apply eq_None_not_Some in Hid.
    destruct (negb _); [done|]. injection H as <- <-. split.
    + apply written_put; [apply written_refl|set_solver|done|left]. split_and!; [done|constructor|..].
      * intros c [= <-]. exists (RAssertion a). split_and!; [done|done|]. cbn. by rewrite Hacc.
      * intros c [= <-]. unfold op. by rewrite Hc.
    + intros id r Hin Hr. assert (id = na_id n) as -> by set_solver. cbn [fst] in Hr.
      rewrite ov_map_insert, lookup_insert_eq in Hr. injection Hr as <-. by eexists.
  - destruct correction; [done|]. apply bind_Ok in H as (next & Hnext & H).
    destruct (overlay_get_mut target ov) as [[[e|e|a'|x] ov1]|] eqn:Hg; try done.
    apply bind_Ok in H as (v & Hv%next_version_Ok & [= <- <-]).
    pose proof (overlay_get_mut_Some _ _ _ _ Hg) as [Ha _]. rewrite Ht in Ha. injection Ha as <-.
    destruct (written_step rev op ov ov ∅ target (RAssertion a) ov1
      (RAssertion (assertion_set_status a next v rev))) as [Hw _];
      [done|apply written_refl|set_solver|done|
       constructor; [by eapply transition_checkpoint|done]|].
    split; [done|]. intros id r Hin Hr. assert (id = target) as -> by set_solver. cbn [fst] in Hr.
    rewrite ov_map_insert, lookup_insert_eq in Hr. injection Hr as <-. by eexists.
Qed.
Lemma relationship_action_written target exp action correction cexp ov' aff :
  let op := ActOnRelationship target exp action correction cexp in
  apply_relationship_action target action correction rev (ov, ∅) = Ok (ov', aff) →
  written rev op ov ov' aff ∧
  ∀ id r, id ∈ aff → ov_map ov' !! id = Some r → ∃ a, r = RRelationship a.
Proof.
  intros op H. unfold apply_relationship_action in H. cbn [fst snd] in H.
  apply bind_Ok in H as (st & Hst & H). rewrite overlay_get_map in Hst.
  destruct (ov_map ov !! target) as [[e|e|a|x]|] eqn:Ht; try done. injection Hst as <-.
  case_decide as Hc.
  - destruct (negb _) eqn:Hacc; [done|]. apply negb_false_iff, bool_decide_eq_true in Hacc.
    apply bind_Ok in H as (n & Hn%ok_or_Ok & H). rewrite overlay_contains_map in H.
    case_bool_decide as Hid; [done|]. apply eq_None_not_Some in Hid.
    destruct (negb _); [done|]. injection H as <- <-. split.
    + apply written_put; [apply written_refl|set_solver|done|left]. split_and!; [done|constructor|..].
      * intros c [= <-]. exists (RRelationship x). split_and!; [done|done|]. cbn. by rewrite Hacc.
      * intros c [= <-]. unfold op. by rewrite Hc.
    + intros id r Hin Hr. assert (id = nr_id n) as -> by set_solver. cbn [fst] in Hr.
      rewrite ov_map_insert, lookup_insert_eq in Hr. injection Hr as <-. by eexists.
  - destruct correction; [done|]. apply bind_Ok in H as (next & Hnext & H).
    destruct (overlay_get_mut target ov) as [[[e|e|a'|x'] ov1]|] eqn:Hg; try done.
    apply bind_Ok in H as (v & Hv%next_version_Ok & [= <- <-]).
    pose proof (overlay_get_mut_Some _ _ _ _ Hg) as [Ha _]. rewrite Ht in Ha. injection Ha as <-.
    destruct (written_step rev op ov ov ∅ target (RRelationship x) ov1
      (RRelationship (relationship_set_status x next v rev))) as [Hw _];
      [done|apply written_refl|set_solver|done|
       constructor; [by eapply transition_checkpoint|done]|].
    split; [done|]. intros id r Hin Hr. assert (id = target) as -> by set_solver. cbn [fst] in Hr.
    rewrite ov_map_insert, lookup_insert_eq in Hr. injection Hr as <-. by eexists.
Qed.
End apply.

(** ** Deletion *)
Definition live_ref (r : GRecord) (t : RecordRef) : Prop := t ∈ live_visible r ∨ t ∈ live_active r.
Lemma live_ref_cases r t : live_ref r t →
  (∃ e, r = REntity e ∧ e_lifecycle e = Active ∧ t ∈ value_references (e_properties e)) ∨
  ((claim_status r = Some Proposed ∨ claim_status r = Some Accepted) ∧ t ∈ claim_targets r).
Proof.
  unfold live_ref. destruct r as [e|e|a|x]; cbn.
  - case_decide; [|set_solver]. intros [?|?]; [|set_solver]. left. by eexists.
  - set_solver.
  - destruct (a_status a); cbn; intros Ht; try set_solver; right; (split; [by auto|]); set_solver.
  - destruct (r_status x); cbn; intros Ht; try set_solver; right; (split; [by auto|]); set_solver.
Qed.

Lemma accepted_live_ref r t : claim_status r = Some Accepted ∧ t ∈ claim_targets r → live_ref r t.
Proof.
  unfold live_ref. destruct r as [e|e|a|x]; cbn; try naive_solver; intros [[= ->] Ht]; set_solver.
Qed.

(** The kind a retraction pass selects. *)
Definition pass_kind (relationships : bool) (r : GRecord) : bool :=
  match relationships, r with
  | true, RRelationship _ | false, RAssertion _ => true
  | _, _ => false
  end.
Lemma same_kind_pass b r r' : same_kind r r' = true → pass_kind b r' = pass_kind b r.
Proof. by destruct b, r, r'. Qed.
Section delete.
Context (rev : CommitRevision) (op : Operation) (ov : RecordOverlay) (Hkey : keyed (ov_map ov)).

Lemma retract_step b ov1 aff1 id r ov2 aff2 :
  ov_map ov !! id = Some r → claim_status r = Some Accepted →
  written rev op ov ov1 aff1 → (pass_kind b r = true → id ∉ aff1) →
  retract_declared rev b (ov1, aff1) id = Ok (ov2, aff2) →
  written rev op ov ov2 aff2 ∧
  (∀ x, x ∈ aff2 ↔ x ∈ aff1 ∨ (x = id ∧ pass_kind b r = true)).
Proof.
  intros Hr Hacc Hw Hn H. unfold retract_declared in H. cbn [fst snd] in H.
  destruct (written_kind _ _ _ _ _ _ _ Hw Hr) as (r1 & Hr1 & Hk).
  rewrite overlay_get_map, Hr1 in H.
  assert (pass_kind b r = true → ∃ st ov' v, overlay_get_mut id ov1 = Some (r, ov') ∧
    next_of (record_version r) v ∧ record_step rev r st ∧
    Ok (E := GraphError) (ov2, aff2) = Ok (ostate_put id st (ov', aff1))) as Hmatch.
  { intros Hp. specialize (Hn Hp). rewrite (written_map _ _ _ _ _ _ Hw Hn), Hr in Hr1.
    injection Hr1 as <-. rewrite <-(written_map _ _ _ _ _ _ Hw Hn) in Hr.
    destruct (overlay_get_mut_map _ _ _ Hr) as [ov' Hg].
    rewrite Hg in H. destruct b, r as [e|e|a|x]; try done; cbn in H, Hacc;
      injection Hacc as Hacc;
      apply bind_Ok in H as (v & Hv%next_version_Ok & H); eexists _, ov', v;
      (split_and!; [done|done| |by symmetry]); (constructor; [by rewrite Hacc|done]). }
  destruct (pass_kind b r) eqn:Hp.
  - destruct (Hmatch eq_refl) as (st & ov' & v & Hg & Hv & Hs & [= -> ->]).
    destruct (written_step rev op ov ov1 aff1 id r ov' st) as [Hw' _]; [done|done|by apply Hn|done|done|].
    split; [done|]. intros x. set_solver.
  - rewrite <-(same_kind_pass b _ _ Hk) in Hp.
    destruct b, r1; try done; injection H as <- <-; (split; [done|]); intros x; naive_solver.
Qed.
Lemma retract_pass b l ov1 aff1 ov2 aff2 : NoDup l →
  (∀ id, id ∈ l → ∃ r, ov_map ov !! id = Some r ∧ claim_status r = Some Accepted ∧
     (pass_kind b r = true → id ∉ aff1)) →
  written rev op ov ov1 aff1 →
  try_fold (retract_declared rev b) l (ov1, aff1) = Ok (ov2, aff2) →
  written rev op ov ov2 aff2 ∧
  (∀ x, x ∈ aff2 ↔ x ∈ aff1 ∨
     (x ∈ l ∧ ∃ r, ov_map ov !! x = Some r ∧ pass_kind b r = true)).
Proof.
  revert ov1 aff1. induction l as [|id l IH]; intros ov1 aff1 Hnd Hl Hw H.
  { injection H as <- <-. split; [done|]. set_solver. }
  apply NoDup_cons in Hnd as [Hnin Hnd]. cbn [try_fold] in H.
  apply bind_Ok in H as ([ov' aff'] & Hs & H).
  destruct (Hl id) as (r & Hr & Hacc & Hn); [set_solver|].
  destruct (retract_step _ _ _ _ _ _ _ Hr Hacc Hw Hn Hs) as [Hw' Haff'].
  destruct (IH ov' aff' Hnd) as [Hw2 Haff2]; [|done|done|].
  { intros id' Hid'. destruct (Hl id') as (r' & ? & ? & Hn'); [set_solver|]. exists r'.
    split_and!; [done|done|]. intros Hp Hin%Haff'. destruct Hin as [Hin|[-> _]]; [by apply Hn'|done]. }
  split; [done|]. intros x. rewrite Haff2, Haff', elem_of_cons. split.
  - intros [[?|[-> ?]]|[? ?]]; [by left|right; split; [by left|by exists r]|right; by auto].
  - intros [?|[[->|?] (r' & Hr' & ?)]]; [by auto| |by right; eauto].
    left. right. split; [done|]. congruence.
Qed.
Lemma retract_passes declared ov' aff' : NoDup declared →
  (∀ id, id ∈ declared → ∃ r, ov_map ov !! id = Some r ∧ claim_status r = Some Accepted) →
  try_fold (λ st b, try_fold (retract_declared rev b) declared st) [true; false] (ov, ∅)
    = Ok (ov', aff') →
  written rev op ov ov' aff' ∧ ∀ x, x ∈ aff' ↔ x ∈ declared.
Proof.
  intros Hnd Hall H. cbn [try_fold] in H. apply bind_Ok in H as ([ov1 aff1] & H1 & H).
  apply bind_Ok in H as ([ov2 aff2] & H2 & [= <- <-]).
  destruct (retract_pass true declared ov ∅ ov1 aff1) as [Hw1 Haff1]; [done| | |done|].
  { intros id Hid. destruct (Hall id Hid) as (r & ? & ?). exists r. split_and!; [done|done|set_solver]. }
  { apply written_refl. }
  destruct (retract_pass false declared ov1 aff1 ov2 aff2) as [Hw2 Haff2]; [done| |done|done|].
  { intros id Hid. destruct (Hall id Hid) as (r & Hr & ?). exists r. split_and!; [done|done|].
    intros Hp [?|(_ & r' & Hr' & Hp')]%Haff1; [set_solver|].
    assert (r' = r) as -> by congruence. by destruct r. }
  split; [done|]. intros x. rewrite Haff2, Haff1. split; [set_solver|]. intros Hx.
  destruct (Hall x Hx) as (r & Hr & Hc). destruct r as [e|e|a|y]; try done.
  - right. split; [done|]. by eexists.
  - left; right. split; [done|]. by eexists.
Qed.

(** What the retraction passes leave behind. *)
Definition retracted (ov : RecordOverlay) (aff : gset RecordRef) : Prop :=
  ∀ id, id ∈ aff → ∃ r, ov_map ov !! id = Some r ∧ claim_status r = Some Retracted.
Lemma retracted_put id r ov1 ov' aff : retracted ov1 aff → claim_status r = Some Retracted →
  (∀ id, ov_map ov' !! id = ov_map ov1 !! id) → retracted (overlay_insert id r ov') ({[ id ]} ∪ aff).
Proof.
  intros Ha Hr Hov id' Hid. rewrite ov_map_insert. destruct (decide (id = id')) as [<-|Hne].
  - rewrite lookup_insert_eq. by eauto.
  - rewrite lookup_insert_ne, Hov by done. apply Ha. set_solver.
Qed.
Lemma get_mut_same id ov1 r ov' : overlay_get_mut id ov1 = Some (r, ov') →
  ∀ id', ov_map ov' !! id' = ov_map ov1 !! id'.
Proof.
  unfold overlay_get_mut. destruct (ov_changed ov1 !! id) eqn:Hc; [by intros [= -> ->]|].
  destruct (ov_base ov1 !! id) as [b|] eqn:Hb; [|done]. cbn. intros [= <- <-] id'.
  rewrite ov_map_insert. destruct (decide (id = id')) as [<-|Hne]; [|by rewrite lookup_insert_ne].
  unfold ov_map. by rewrite lookup_insert_eq, lookup_union, Hc, Hb.
Qed.
Lemma retract_declared_retracted b st id st' : retract_declared rev b st id = Ok st' →
  retracted st.1 st.2 → retracted st'.1 st'.2.
Proof.
  unfold retract_declared. intros H Hret.
  destruct (overlay_get_mut id st.1) as [[[e|e|a|x] ov']|] eqn:Hg;
    destruct b, (overlay_get st.1 id) as [[]|]; try (by injection H as <-);
    apply bind_Ok in H as (v & _ & [= <-]); cbn [fst snd ostate_put];
    (eapply retracted_put; [done|done|by eapply get_mut_same]).
Qed.
Lemma retract_passes_retracted declared ov1 ov' aff' :
  try_fold (λ st b, try_fold (retract_declared rev b) declared st) [true; false] (ov1, ∅)
    = Ok (ov', aff') → retracted ov' aff'.
Proof.
  assert (∀ b l st st', try_fold (retract_declared rev b) l st = Ok st' →
    retracted st.1 st.2 → retracted st'.1 st'.2) as Hp.
  { intros b l. induction l as [|id l IH]; intros st st' H; [by injection H as <-|].
    cbn [try_fold] in H. apply bind_Ok in H as (st1 & H1 & H). intros Hr. eapply IH; [done|].
    by eapply retract_declared_retracted. }
  intros H. cbn [try_fold] in H. apply bind_Ok in H as (st1 & H1 & H).
  apply bind_Ok in H as (st2 & H2 & [= ->]).
  eapply (Hp _ _ _ _ H2), (Hp _ _ _ _ H1). by intros id ?%elem_of_empty.
Qed.

Lemma elem_of_references t o ref : reverse_ok (ov_base ov) (ov_base_reverse ov) →
  (o, ref) ∈ for_each_reverse_reference ov t ↔
  ∃ r, ov_map ov !! o = Some r ∧ reverse_reference_for_target r t = Some ref.
Proof.
  intros Hrev. rewrite for_each_reverse_reference_eq by done.
  rewrite elem_of_btree_entries, lookup_omap. destruct (ov_map ov !! o); cbn; naive_solver.
Qed.
End delete.

Lemma windows_sorted (l : list RecordRef) :
  windows2_any (λ a b, bool_decide (key_le b a)) l = false → NoDup l.
Proof.
  intros Hw%windows2_any_false. apply sorted_strict_NoDup, (Sorted_StronglySorted _).
  induction Hw as [|a l Hl IH Ha]; constructor; [done|].
  destruct Ha as [|b l Hb]; constructor. apply bool_decide_eq_false in Hb.
  by apply dec_stable.
Qed.
Section delete_entity.
Context (rev : CommitRevision) (target : RecordRef) (exp : Expected) (dpolicy : DeletePolicy)
  (declared : list RecordRef) (ov : RecordOverlay) (Hkey : keyed (ov_map ov))
  (Hrev : reverse_ok (ov_base ov) (ov_base_reverse ov)).
Abbreviation op := (DeleteEntity target exp dpolicy declared).
Abbreviation refs := (for_each_reverse_reference ov target).

(** Owners with a live reference show up in the scan. *)
Lemma live_owner_scanned o r : ov_map ov !! o = Some r → o ≠ target → live_ref r target →
  ∃ ref, (o, ref) ∈ refs ∧
    (property_dep target (o, ref) = true ∨ proposed_dep (o, ref) = true ∨
     accepted_dep (o, ref) = true).
Proof.
  intros Hr Hne Hl.
  assert (is_Some (reverse_reference_for_target r target)) as [ref Href].
  { apply target_summarised. apply live_ref_cases in Hl as [(e & -> & _ & Ht)|[_ Ht]]; [|by left].
    right. by exists e. }
  exists ref. split; [apply elem_of_references; [done|]; by exists r|].
  apply live_ref_cases in Hl as [(e & -> & Ha & Ht)|[[Hs|Hs] Ht]].
  - left. unfold property_dep. rewrite bool_decide_eq_false_2 by done. rewrite andb_true_r.
    apply (entity_dep_spec _ _ _ Href). by exists e.
  - right; left. by apply (claim_dep_spec _ _ _ Proposed Href).
  - right; right. by apply (claim_dep_spec _ _ _ Accepted Href).
Qed.
(** The declared list is exactly the set of accepted dependents. *)
Lemma declared_accepted : NoDup declared →
  zlen declared = Z.min (count_of accepted_dep refs) U64_MAX →
  forallb (λ o, bool_decide (o.1 ∈ declared)) (List.filter accepted_dep refs) = true →
  declared ≡ₚ (List.filter accepted_dep refs).*1.
Proof.
  intros Hnd Hlen Hall. symmetry. apply submseteq_length_Permutation.
  - apply NoDup_submseteq.
    + assert (NoDup refs.*1) as Hrefs.
      { rewrite for_each_reverse_reference_eq by done. apply btree_keys_NoDup. }
      revert Hrefs. generalize refs. intros l. induction l as [|o l IH]; [done|]. rewrite fmap_cons.
      intros [Hn Hl]%NoDup_cons. cbn. destruct (accepted_dep o); [|by apply IH]. rewrite fmap_cons.
      apply NoDup_cons. split; [|by apply IH]. intros (x & Hx & Hin)%list_elem_of_fmap.
      apply list_elem_of_In, filter_In in Hin as [Hin _]. apply Hn, list_elem_of_fmap.
      exists x. split; [done|]. by apply list_elem_of_In.
    + intros x (o & -> & Ho)%list_elem_of_fmap. rewrite forallb_forall in Hall.
      apply list_elem_of_In in Ho. apply Hall in Ho. by apply bool_decide_eq_true in Ho.
  - rewrite length_fmap. unfold count_of, zlen in Hlen. lia.
Qed.
Lemma accepted_claims id : id ∈ (List.filter accepted_dep refs).*1 →
  ∃ r, ov_map ov !! id = Some r ∧ claim_status r = Some Accepted ∧ target ∈ claim_targets r.
Proof.
  intros ([o ref] & -> & Ho)%list_elem_of_fmap. apply list_elem_of_In, filter_In in Ho as [Ho Ha].
  apply list_elem_of_In in Ho. apply elem_of_references in Ho as (r & Hr & Href); [|done].
  exists r. split; [done|]. by apply (claim_dep_spec _ _ _ Accepted Href) in Ha.
Qed.

(** The cascade: its guards, and what the retraction writes. *)
Lemma delete_cascade ov1 aff1 :
  (match dpolicy with
   | DeleteReject =>
       if negb (saturating_add (Z.min (count_of accepted_dep refs) U64_MAX)
                  (Z.min (count_of (property_dep target) refs) U64_MAX) =? 0)
          || negb (Z.min (count_of proposed_dep refs) U64_MAX =? 0)
       then Err (DeleteRestricted target (saturating_add
              (saturating_add (Z.min (count_of accepted_dep refs) U64_MAX)
                 (Z.min (count_of (property_dep target) refs) U64_MAX))
              (Z.min (count_of proposed_dep refs) U64_MAX)))
       else if negb (bool_decide (declared = [])) then Err InvalidCascadeDeclaration
       else Ok (ov, ∅)
   | CascadeAndRetract maximum =>
       if windows2_any (λ a b, bool_decide (key_le b a)) declared
       then Err InvalidCascadeDeclaration
       else if negb (Z.min (count_of proposed_dep refs) U64_MAX =? 0)
       then Err (ProposedClaimBlocksDelete target (Z.min (count_of proposed_dep refs) U64_MAX))
       else if negb (Z.min (count_of (property_dep target) refs) U64_MAX =? 0)
       then Err (UncascadeableReferences target
              (Z.min (count_of (property_dep target) refs) U64_MAX))
       else if maximum <? saturating_add (Z.min (count_of accepted_dep refs) U64_MAX)
              (Z.min (count_of (property_dep target) refs) U64_MAX)
       then Err (CascadeLimitExceeded (saturating_add (Z.min (count_of accepted_dep refs) U64_MAX)
              (Z.min (count_of (property_dep target) refs) U64_MAX)) maximum)
       else if negb (zlen declared =? Z.min (count_of accepted_dep refs) U64_MAX)
               || negb (forallb (λ o, bool_decide (o.1 ∈ declared))
                          (List.filter accepted_dep refs))
       then Err CascadeDeclarationChanged
       else try_fold (λ st b, try_fold (retract_declared rev b) declared st) [true; false] (ov, ∅)
   end) = Ok (ov1, aff1) →
  written rev op ov ov1 aff1 ∧
  (∀ id, id ∈ aff1 → ∃ r, ov_map ov !! id = Some r ∧ claim_status r = Some Accepted ∧
     target ∈ claim_targets r) ∧
  retracted ov1 aff1 ∧
  (∀ o ref, (o, ref) ∈ refs → property_dep target (o, ref) = false ∧
     proposed_dep (o, ref) = false ∧ (accepted_dep (o, ref) = true → o ∈ aff1)).
Proof.
  pose proof (count_nonneg accepted_dep refs). pose proof (count_nonneg (property_dep target) refs).
  destruct dpolicy as [|maximum]; intros Hd.
  - destruct (_ || _) eqn:Hg; [done|]. apply orb_false_iff in Hg as [Hg1 Hg2].
    apply negb_false_iff in Hg1, Hg2. apply (proj1 (Z.eqb_eq _ _)) in Hg1.
    unfold saturating_add in Hg1. destruct (negb _); [done|]. injection Hd as <- <-.
    split; [apply written_refl|]. split; [set_solver|]. split; [by intros id ?%elem_of_empty|].
    assert ((Z.min (count_of accepted_dep refs) U64_MAX =? 0) = true) as Ha
      by (apply Z.eqb_eq; unfold U64_MAX in *; lia).
    assert ((Z.min (count_of (property_dep target) refs) U64_MAX =? 0) = true) as Hp
      by (apply Z.eqb_eq; unfold U64_MAX in *; lia).
    rewrite count_zero in Ha, Hp, Hg2. intros o ref Ho. split_and!; [by apply Hp|by apply Hg2|].
    by rewrite Ha.
  - destruct (windows2_any _ declared) eqn:Hw; [done|]. apply windows_sorted in Hw.
    destruct (negb _) eqn:Hg; [done|]. apply negb_false_iff in Hg. rewrite count_zero in Hg.
    destruct (negb _) eqn:Hp in Hd; [done|]. apply negb_false_iff in Hp. rewrite count_zero in Hp.
    destruct (_ <? _) in Hd; [done|]. destruct (_ || _) eqn:Hdec in Hd; [done|].
    apply orb_false_iff in Hdec as [Hlen%negb_false_iff Hall%negb_false_iff].
    apply Z.eqb_eq in Hlen. pose proof (declared_accepted Hw Hlen Hall) as Hperm.
    pose proof (retract_passes_retracted rev ov Hkey _ _ _ _ Hd) as Hret.
    apply retract_passes with (op := DeleteEntity target exp (CascadeAndRetract maximum) declared) in Hd as [Hwr Haff]; [|done|done|].
    2:{ intros id Hid. destruct (accepted_claims id) as (r & ? & ? & _); [by rewrite <-Hperm|by eauto]. }
    split; [done|]. split; [|split; [done|]].
    + intros id Hid%Haff. apply accepted_claims. by rewrite <-Hperm.
    + intros o ref Ho. split_and!; [by apply Hp|by apply Hg|]. intros Ha. apply Haff.
      rewrite Hperm. apply list_elem_of_fmap. exists (o, ref). split; [done|].
      apply list_elem_of_In, filter_In. split; [by apply list_elem_of_In|done].
Qed.
Lemma delete_entity_written ov' aff :
  delete_entity target dpolicy declared rev (ov, ∅) = Ok (ov', aff) →
  written rev op ov ov' aff ∧ target ∈ aff ∧
  (∃ e, ov_map ov' !! target = Some (REntity e) ∧ e_lifecycle e = Deleted) ∧
  (∀ id, id ∈ aff → id ≠ target →
     (∃ r, ov_map ov !! id = Some r ∧ claim_status r = Some Accepted ∧ target ∈ claim_targets r) ∧
     ∃ r, ov_map ov' !! id = Some r ∧ claim_status r = Some Retracted) ∧
  (∀ o r, o ∉ aff → ov_map ov !! o = Some r → ¬ live_ref r target).
Proof.
  unfold delete_entity. cbn [fst]. rewrite overlay_get_map, scan_spec. cbv zeta.
  cbn [scan_accepted scan_proposed scan_entity_references scan_accepted_are_declared].
  intros H. apply then_Ok in H as [Ht H].
  destruct (ov_map ov !! target) as [[e|e|a|x]|] eqn:Htm; try done. case_decide as Hact; [|done].
  apply bind_Ok in H as ([ov1 aff1] & Hd & H).
  apply delete_cascade in Hd as (Hw & Hclaims & Hret & Hscan).
  assert (target ∉ aff1) as Hnt.
  { intros (r & Hr & Hs & _)%Hclaims. rewrite Htm in Hr. by injection Hr as <-. }
  cbn [fst snd] in H.
  destruct (overlay_get_mut target ov1) as [[[e'|e'|a|x] ov2]|] eqn:Hg; try done.
  apply bind_Ok in H as (v & Hv%next_version_Ok & [= <- <-]).
  pose proof (get_mut_same _ _ _ _ Hg) as Hsame.
  pose proof (overlay_get_mut_Some _ _ _ _ Hg) as [He' _].
  rewrite (written_map _ _ _ _ _ _ Hw Hnt), Htm in He'. injection He' as <-.
  destruct (written_step rev op ov ov1 aff1 target (REntity e) ov2
    (REntity (entity_update e Deleted (e_properties e) v rev))) as [Hw' _];
    [done|done|done|done|by constructor|].
  cbn [fst snd]. split_and!; [done|set_solver| | |].
  - rewrite ov_map_insert, lookup_insert_eq. by eauto.
  - intros id Hin Hne. assert (id ∈ aff1) as Hin1 by set_solver. split; [by apply Hclaims|].
    rewrite ov_map_insert, lookup_insert_ne, Hsame by done. by apply Hret.
  - intros o r Ho Hr Hl. destruct (live_owner_scanned o r Hr) as (ref & Hin & Hdep);
      [set_solver|done|]. destruct (Hscan o ref Hin) as (H1 & H2 & H3).
    destruct Hdep as [?|[?|Ha]]; [congruence|congruence|]. apply H3 in Ha. set_solver.
Qed.
End delete_entity.

(** ** Every operation *)

(** A deleted entity among the records an operation wrote has no live reference
    from the records it left alone. *)
Definition deletions_safe (ov ov' : RecordOverlay) (aff : gset RecordRef) : Prop :=
  ∀ t e o r, t ∈ aff → ov_map ov' !! t = Some (REntity e) → e_lifecycle e ≠ Active →
    o ∉ aff → ov_map ov !! o = Some r → ¬ live_ref r t.
Lemma claims_safe ov ov' aff :
  (∀ id r, id ∈ aff → ov_map ov' !! id = Some r → ∀ e, r = REntity e → e_lifecycle e = Active) →
  deletions_safe ov ov' aff.
Proof. intros H t e o r Ht He Hn. by destruct Hn; eapply H. Qed.

Section operation.
Context (rev : CommitRevision) (ov : RecordOverlay) (Hkey : keyed (ov_map ov))
  (Hrev : reverse_ok (ov_base ov) (ov_base_reverse ov)).

Lemma create_safe n ov' aff : create_record n rev (ov, ∅) = Ok (ov', aff) →
  deletions_safe ov ov' aff.
Proof.
  intros H. apply claims_safe. unfold create_record in H. cbn [fst] in H.
  destruct (overlay_contains _ _); [done|]. apply bind_Ok in H as (r & Hr & [= <- <-]).
  cbn [fst snd]. intros id x Hid Hx e ->. assert (id = new_record_id n) as -> by set_solver.
  rewrite ov_map_insert, lookup_insert_eq in Hx. injection Hx as ->.
  destruct n; cbn in Hr; repeat (destruct (negb _); [done|]); by simplify_eq.
Qed.
Lemma delete_safe target exp dpolicy declared ov' aff :
  delete_entity target dpolicy declared rev (ov, ∅) = Ok (ov', aff) →
  written rev (DeleteEntity target exp dpolicy declared) ov ov' aff ∧ deletions_safe ov ov' aff.
Proof.
  intros H. eapply delete_entity_written in H as (Hw & Ht & _ & Hcl & Hsafe); [|done|done].
  split; [exact Hw|]. intros t e o r Hin He Hn Ho Hr.
  destruct (decide (t = target)) as [->|Hne]; [by eapply Hsafe|]. exfalso.
  destruct (Hcl t Hin Hne) as [(c & Hc & Hst & _) _].
  destruct (written_kind _ _ _ _ _ _ _ Hw Hc) as (c' & Hc' & Hk).
  rewrite He in Hc'. injection Hc' as <-. by destruct c.
Qed.
Lemma apply_operation_written op ov' aff : apply_operation op rev (ov, ∅) = Ok (ov', aff) →
  written rev op ov ov' aff ∧ deletions_safe ov ov' aff.
Proof.
  destruct op as [exp n|t exp props|t exp act corr cexp|t exp act corr cexp|t exp p d]; intros H.
  - split; [by eapply create_record_written in H as [? _]|by eapply create_safe].
  - eapply replace_written in H as (Hw & -> & e & He & Ha); [|done]. split; [done|].
    apply claims_safe. intros id r Hid%elem_of_singleton Hr e' ->. subst id. congruence.
  - eapply assertion_action_written in H as (Hw & Hk); [|done]. split; [done|].
    apply claims_safe. intros id r Hid Hr e' ->. by destruct (Hk _ _ Hid Hr).
  - eapply relationship_action_written in H as (Hw & Hk); [|done]. split; [done|].
    apply claims_safe. intros id r Hid Hr e' ->. by destruct (Hk _ _ Hid Hr).
  - by eapply delete_safe.
Qed.
(** The target of a correction exists and is not written. *)
Lemma correction_target_kept op ov' aff c : apply_operation op rev (ov, ∅) = Ok (ov', aff) →
  correction_target op = Some c → c ∉ aff.
Proof.
  destruct op as [exp n|t exp props|t exp act corr cexp|t exp act corr cexp|t exp p d]; try done;
    cbn [correction_target apply_operation]; destruct act; try done; intros H [= <-].
  - unfold apply_assertion_action in H. cbn [fst snd] in H. apply bind_Ok in H as (st & Hst & H).
    rewrite overlay_get_map in Hst. destruct (ov_map ov !! t) eqn:Ht; [|done]. cbn in H.
    destruct (negb _); [done|]. apply bind_Ok in H as (n & _ & H). rewrite overlay_contains_map in H.
    case_bool_decide as Hc; [done|]. destruct (negb _); [done|]. injection H as _ <-.
    intros Hin. assert (t = na_id n) as -> by set_solver. rewrite Ht in Hc. by destruct Hc.
  - unfold apply_relationship_action in H. cbn [fst snd] in H. apply bind_Ok in H as (st & Hst & H).
    rewrite overlay_get_map in Hst. destruct (ov_map ov !! t) eqn:Ht; [|done]. cbn in H.
    destruct (negb _); [done|]. apply bind_Ok in H as (n & _ & H). rewrite overlay_contains_map in H.
    case_bool_decide as Hc; [done|]. destruct (negb _); [done|]. injection H as _ <-.
    intros Hin. assert (t = nr_id n) as -> by set_solver. rewrite Ht in Hc. by destruct Hc.
Qed.
End operation.
