(* ===== verification/GraphPublish.v ===== *)
(** * Preparation and publication

    Version histories, what a prepared transaction contains and what its
    publication does.

    ** Version histories

    Propositional readings of the history validators of [GraphCheckpoint] and
    how they extend when a version is appended. *)
From S2P Require Import Prelude Ids Value Codec Policy GraphRecord GraphCodec GraphIndex GraphState GraphValidity GraphCheckpoint GraphOperations.
Import CheckpointStateError.

(** ** Lookups at a revision *)
Definition version_at (versions : list GRecord) (revision : CommitRevision) : option GRecord :=
  match partition_point (λ r, modified_revision r <=? revision) versions with
  | O => None
  | S index => versions !! index
  end.
Lemma record_at_eq h id q : record_at h id q = vs ← h !! id; version_at vs q.
Proof. done. Qed.
Lemma partition_point_le {A} (p : A → bool) l : (partition_point p l <= length l)%nat.
Proof. induction l as [|x l IH]; cbn; [lia|]. destruct (p x); lia. Qed.
Lemma partition_point_all {A} (p : A → bool) l :
  Forall (λ x, p x = true) l → partition_point p l = length l.
Proof. induction 1 as [|x l Hx Hl IH]; [done|]. cbn. by rewrite Hx, IH. Qed.
Lemma partition_point_snoc {A} (p : A → bool) l x :
  p x = false → partition_point p (l ++ [x]) = partition_point p l.
Proof. intros Hx. induction l as [|y l IH]; cbn; [by rewrite Hx|]. by rewrite IH. Qed.
Lemma version_at_snoc vs r q : q < modified_revision r → version_at (vs ++ [r]) q = version_at vs q.
Proof.
  intros Hq. unfold version_at. rewrite partition_point_snoc by lia.
  pose proof (partition_point_le (λ r, modified_revision r <=? q) vs) as Hle.
  destruct (partition_point _ vs) as [|i]; [done|]. by rewrite lookup_app_l by lia.
Qed.
Lemma version_at_last vs q : Forall (λ r, modified_revision r ≤ q) vs → version_at vs q = last vs.
Proof.
  intros H. unfold version_at. rewrite partition_point_all.
  - destruct vs as [|r vs] using rev_ind; [done|].
    rewrite length_app, Nat.add_comm. cbn. by rewrite list_lookup_middle, last_snoc.
  - apply (Forall_impl _ _ _ H). lia.
Qed.

(** ** The version loop *)
Lemma check_versions_snoc id rev i prev vs r :
  check_versions id rev i prev (vs ++ [r]) =
  (check_versions id rev i prev vs;;
   check_versions id rev (i + zlen vs) (match last vs with Some p => Some p | None => prev end) [r]).
Proof.
  revert i prev. induction vs as [|v vs IH]; intros i prev.
  { cbn [app last]. rewrite zlen_nil, Z.add_0_r. done. }
  cbn [app check_versions]. destruct (ok_or _ _); [|done]. cbn [mbind result_bind].
  destruct (_ || _); [done|]. rewrite IH, zlen_cons. rewrite <-Z.add_assoc.
  by destruct vs as [|w vs] using rev_ind; [|rewrite app_comm_cons, !last_snoc].
Qed.
(** One iteration of the loop. *)
Lemma check_version_Ok id rev i prev v vs : check_versions id rev i prev (v :: vs) = Ok tt ↔
  i + 1 ≤ U64_MAX ∧ record_id v = id ∧ record_version v = i + 1 ∧ modified_revision v ≤ rev ∧
  match prev with Some p => modified_revision p < modified_revision v | None => True end ∧
  check_versions id rev (i + 1) (Some v) vs = Ok tt.
Proof.
  cbn [check_versions]. unfold checked_add. destruct (Z.leb_spec (i + 1) U64_MAX); cbn; [|split; [done|lia]].
  case_bool_decide; cbn; [|naive_solver].
  destruct (Z.eqb_spec (record_version v) (i + 1)); cbn; [|naive_solver].
  destruct (Z.ltb_spec rev (modified_revision v)); cbn; [split; [done|lia]|].
  destruct prev as [p|]; cbn.
  - destruct (Z.leb_spec (modified_revision v) (modified_revision p)); cbn; [split; [done|lia]|].
    naive_solver.
  - naive_solver.
Qed.
Lemma check_versions_mono id rev rev' i prev vs : rev ≤ rev' →
  check_versions id rev i prev vs = Ok tt → check_versions id rev' i prev vs = Ok tt.
Proof.
  intros Hle. revert i prev. induction vs as [|v vs IH]; intros i prev; [done|].
  rewrite !check_version_Ok. intros (? & ? & ? & ? & ? & ?). split_and!; [done..|lia|done|by apply IH].
Qed.
Lemma check_versions_all id rev i prev vs : check_versions id rev i prev vs = Ok tt →
  Forall (λ r, modified_revision r ≤ rev ∧ record_id r = id) vs.
Proof.
  revert i prev. induction vs as [|v vs IH]; intros i prev; [done|].
  rewrite check_version_Ok. intros (? & ? & ? & ? & ? & ?). constructor; [done|]. by eapply IH.
Qed.
Lemma check_versions_last id rev i prev vs r : check_versions id rev i prev vs = Ok tt →
  last vs = Some r → record_version r = i + zlen vs.
Proof.
  destruct vs as [|v vs _] using rev_ind; [done|].
  rewrite check_versions_snoc, last_snoc, zlen_app. intros [_ H]%then_Ok [= ->].
  apply check_version_Ok in H as (? & ? & -> & ?). change (zlen [r]) with 1. lia.
Qed.

(** ** The history chain *)
Lemma validate_successors_snoc s p vs r : validate_successors s p (vs ++ [r]) =
  (validate_successors s p vs;; validate_history_successor s (default p (last vs)) r).
Proof.
  revert p. induction vs as [|v vs IH]; intros p.
  { cbn. by destruct (validate_history_successor s p r) as [[]|]. }
  cbn [app validate_successors]. rewrite IH. destruct (validate_history_successor s p v); [|done].
  cbn [mbind result_bind]. f_equal. by destruct vs as [|w vs] using rev_ind; [|rewrite app_comm_cons, !last_snoc].
Qed.
Lemma validate_record_history_snoc s vs p r : last vs = Some p →
  validate_record_history s (vs ++ [r]) =
  (validate_record_history s vs;; validate_history_successor s p r).
Proof.
  destruct vs as [|v vs]; [done|]. intros Hl. cbn [app validate_record_history].
  assert (default v (last vs) = p) as Hd.
  { destruct vs as [|w vs _] using rev_ind; [by injection Hl|].
    rewrite app_comm_cons, last_snoc in Hl. rewrite last_snoc. by injection Hl. }
  rewrite validate_successors_snoc, Hd. by destruct (validate_history_first s v).
Qed.

(** ** Shapes *)
Definition revisions_ordered (r : GRecord) : Prop :=
  match r with
  | REntity e => e_created_revision e ≤ e_modified_revision e
  | REvidence _ => True
  | RAssertion a => a_recorded_revision a ≤ a_modified_revision a
  | RRelationship x => r_recorded_revision x ≤ r_modified_revision x
  end.
Definition correction_scoped (s : NamespaceRef) (r : GRecord) : Prop :=
  ∀ c, record_correction r = Some c → ref_scope c = s.
Lemma invalid_Ok {A} (r : result GraphError A) a : invalid r = Ok a ↔ r = Ok a.
Proof. apply map_err_Ok. Qed.
Lemma historical_references_Ok s l :
  validate_historical_references s l = Ok tt ↔ NoDup l ∧ Forall (λ t, ref_scope t = s) l.
Proof.
  assert (∀ u, (∃ u', try_fold (check_reference s) l u = Ok u') ↔
    NoDup l ∧ Forall (λ t, ref_scope t = s) l ∧ ∀ e, e ∈ l → e ∉ u) as H.
  { induction l as [|e l IH]; intros u; cbn [try_fold].
    { split; [|by eauto]. intros _. split_and!; [constructor|done|set_solver]. }
    setoid_rewrite bind_Ok. rewrite NoDup_cons, Forall_cons. unfold check_reference at 1.
    setoid_rewrite then_Ok. setoid_rewrite invalid_Ok. setoid_rewrite validate_scope_Ok. split.
    - intros (u' & u1 & [Hs H1] & H). case_decide as Hu; [done|]. injection H1 as <-.
      destruct (proj1 (IH _) (ex_intro _ _ H)) as (Hnd & Hl & Hn).
      split_and!; [|done|done|done|set_solver]. intros He%Hn. set_solver.
    - intros ([Hn Hnd] & [Hs Hl] & Hu).
      destruct (proj2 (IH ({[ e ]} ∪ u))) as [u' Hu']; [split_and!; [done|done|set_solver]|].
      exists u', ({[ e ]} ∪ u). rewrite decide_False; [done|]. apply Hu. set_solver. }
  unfold validate_historical_references. rewrite bind_Ok. specialize (H ∅). split.
  - intros (u & Hu & _). destruct (proj1 H) as (? & ? & _); [by eauto|done].
  - intros [? ?]. destruct (proj2 H) as [u Hu]; [|by eauto]. split_and!; [done|done|set_solver].
Qed.
Lemma correction_scope_Ok s o :
  validate_correction_scope s o = Ok tt ↔ ∀ c, o = Some c → ref_scope c = s.
Proof.
  unfold validate_correction_scope. destruct o as [c|]; [|naive_solver].
  rewrite invalid_Ok, validate_scope_Ok. naive_solver.
Qed.
Lemma orb3_Ok (a : bool) (b : bool) (c : bool) (k : result CheckpointStateError unit) :
  (if a || b || negb c then Err Invalid else k) = Ok tt ↔
  a = false ∧ b = false ∧ c = true ∧ k = Ok tt.
Proof. destruct a, b, c; cbn; naive_solver. Qed.
Lemma historical_shape_Ok s r : validate_historical_record_shape s r = Ok tt ↔
  ref_scope (record_id r) = s ∧ record_shape s r ∧ revisions_ordered r ∧ correction_scoped s r.
Proof.
  unfold validate_historical_record_shape, correction_scoped.
  rewrite then_Ok, invalid_Ok, validate_scope_Ok. f_equiv.
  destruct r as [e|e|a|x]; cbn [record_shape revisions_ordered record_correction].
  - destruct (Z.eqb_spec (e_schema_version e) 0); cbn; [naive_solver|].
    destruct (Z.ltb_spec (e_modified_revision e) (e_created_revision e)); [naive_solver lia|].
    rewrite invalid_Ok, validate_value_scope_Ok. naive_solver.
  - naive_solver.
  - rewrite orb3_Ok, !then_Ok, !invalid_Ok, validate_scope_Ok, validate_value_scope_Ok,
      historical_references_Ok, correction_scope_Ok, bool_decide_eq_false, Z.ltb_ge. naive_solver.
  - rewrite orb3_Ok, !then_Ok, !invalid_Ok, !validate_scope_Ok, validate_value_scope_Ok,
      historical_references_Ok, correction_scope_Ok, bool_decide_eq_false, Z.ltb_ge. naive_solver.
Qed.

(** ** First versions and successors *)
Lemma record_first_valid s rev r : record_first rev r →
  validate_historical_record_shape s r = Ok tt → validate_history_first s r = Ok tt.
Proof.
  intros Hf Hs. unfold validate_history_first. rewrite Hs. cbn [mbind result_bind].
  destruct Hf; cbn; by rewrite ?Z.eqb_refl.
Qed.
Lemma record_step_matches rev r r' : record_step rev r r' → history_successor_matches r r' = true.
Proof.
  destruct 1 as [e props v Ha _|e v Ha _|a st v Ht _|x st v Ht _]; cbn [history_successor_matches];
    repeat (apply andb_true_iff; split); try apply orb_true_iff;
    first [by apply bool_decide_eq_true_2|apply Z.eqb_refl|done
          |left; by apply bool_decide_eq_true_2|right; by apply bool_decide_eq_true_2].
Qed.
Lemma record_step_version rev r r' : record_step rev r r' →
  record_version r' = record_version r + 1 ∧ record_version r + 1 ≤ U64_MAX ∧
  modified_revision r' = rev ∧ record_correction r' = record_correction r.
Proof. destruct 1 as [e p v Ha [-> ?]|e v Ha [-> ?]|a st v Ht [-> ?]|x st v Ht [-> ?]]; done. Qed.
Lemma record_first_version rev r : record_first rev r →
  record_version r = 1 ∧ modified_revision r = rev.
Proof. by destruct 1. Qed.
Lemma record_first_ordered rev r : record_first rev r → revisions_ordered r.
Proof. destruct 1; cbn; try done; lia. Qed.
Lemma record_step_ordered rev r r' : record_step rev r r' → modified_revision r ≤ rev →
  revisions_ordered r → revisions_ordered r'.
Proof. destruct 1; cbn; lia. Qed.

(** ** Reference closure *)
Definition requirement_ok (h : History) (q : ReferenceRequirement) : Prop :=
  reference_requirement_matches q (record_at h (rq_target q) (rq_revision q)) = true.
Lemma requirements_Ok h l :
  try_each (validate_reference_requirement h) l = Ok tt ↔ Forall (requirement_ok h) l.
Proof.
  rewrite try_each_Ok. apply Forall_proper; [|done]. intros q.
  unfold validate_reference_requirement, requirement_ok.
  destruct (reference_requirement_matches _ _); naive_solver.
Qed.
Lemma versions_closure_Ok h first rest : validate_versions_closure h (first :: rest) = Ok tt ↔
  Forall (requirement_ok h) (history_first_requirements first).1 ∧
  (∃ cs, (history_first_requirements first).2 = Ok cs ∧ Forall (requirement_ok h) cs) ∧
  Forall (λ r, Forall (requirement_ok h) (history_successor_requirements r)) rest.
Proof.
  cbn [validate_versions_closure]. destruct (history_first_requirements first) as [l c]. cbn [fst snd].
  rewrite then_Ok, requirements_Ok, bind_Ok. setoid_rewrite then_Ok. setoid_rewrite requirements_Ok.
  setoid_rewrite try_each_Ok. setoid_rewrite requirements_Ok. naive_solver.
Qed.
Lemma versions_closure_snoc h vs r : vs ≠ [] →
  validate_versions_closure h (vs ++ [r]) = Ok tt ↔
  validate_versions_closure h vs = Ok tt ∧
  Forall (requirement_ok h) (history_successor_requirements r).
Proof.
  destruct vs as [|v vs]; [done|]. intros _. cbn [app].
  rewrite !versions_closure_Ok, Forall_app, Forall_singleton. naive_solver.
Qed.

(** ** What a prepared transaction contains

    The operation loop of [prepare_transaction_with_digest] writes each affected
    record once, from its base version, keeps the targets of corrections as they
    were, and leaves no live reference to a deleted entity; with the final
    validation of the changed records the next state is valid as a whole. *)
Import GraphError.

(** ** The operation loop *)

(** A record a transaction wrote: new, or one step from its base version. *)
Definition delta_ok (rev : CommitRevision) (base : Records) (protected : gset RecordRef)
    (id : RecordRef) (r' : GRecord) : Prop :=
  record_id r' = id ∧
  (base !! id = None ∧ record_first rev r' ∧ corrects (λ t, base !! t) r' ∧
     (∀ c, record_correction r' = Some c → c ∈ protected) ∨
   ∃ r, base !! id = Some r ∧ record_step rev r r').
Lemma delta_ok_mono rev base p p' id r : p ⊆ p' → delta_ok rev base p id r → delta_ok rev base p' id r.
Proof.
  intros Hp [Hid [(H1 & H2 & H3 & H4)|H]]; (split; [done|]); [left|by right].
  split_and!; [done..|]. set_solver.
Qed.

Record loop_ok (rev : CommitRevision) (base : Records) (base_reverse : ReverseIndex)
    (ps : PrepareState) : Prop := {
  lo_base : ov_base (ps_records ps) = base;
  lo_reverse : ov_base_reverse (ps_records ps) = base_reverse;
  lo_dom : dom (ov_changed (ps_records ps)) = ps_affected ps;
  lo_delta : map_Forall (delta_ok rev base (ps_protected ps)) (ov_changed (ps_records ps));
  lo_protected : ps_protected ps ## ps_affected ps;
  lo_safe : ∀ t e o r, ov_changed (ps_records ps) !! t = Some (REntity e) →
    e_lifecycle e ≠ Active → o ∉ ps_affected ps → base !! o = Some r → ¬ live_ref r t
}.
Section loop.
Context (rev : CommitRevision) (base : Records) (base_reverse : ReverseIndex)
  (Hkey : keyed base) (Hrev : reverse_ok base base_reverse).

Lemma loop_start : loop_ok rev base base_reverse (mk_pstate (overlay_new base base_reverse) ∅ ∅).
Proof.
  split; cbn; [done|done|by rewrite dom_empty_L|apply map_Forall_empty|set_solver|].
  intros t e o r H. by rewrite lookup_empty in H.
Qed.
Lemma loop_unchanged ps id : loop_ok rev base base_reverse ps → id ∉ ps_affected ps →
  ov_map (ps_records ps) !! id = base !! id ∧ ov_changed (ps_records ps) !! id = None.
Proof.
  intros [Hb _ Hd _ _ _] Hid. assert (ov_changed (ps_records ps) !! id = None) as Hn
    by (apply not_elem_of_dom; by rewrite Hd).
  split; [|done]. unfold ov_map. by rewrite lookup_union, Hn, Hb, (left_id_L None _).
Qed.
Lemma loop_keyed ps : loop_ok rev base base_reverse ps → keyed (ov_map (ps_records ps)).
Proof.
  intros Hl id r. unfold ov_map. rewrite lookup_union_Some_raw. intros [Hc|[_ Hb]].
  - by destruct (lo_delta _ _ _ _ Hl id r Hc).
  - rewrite (lo_base _ _ _ _ Hl) in Hb. by apply Hkey.
Qed.
Lemma affected_fresh ps aff :
  list_find (λ r, r ∈ ps_affected ps ∨ r ∈ ps_protected ps) (btree_elements aff) = None →
  ∀ id, id ∈ aff → (id ∉ ps_affected ps) ∧ (id ∉ ps_protected ps).
Proof.
  intros Hf%list_find_None id Hid. rewrite Forall_forall in Hf.
  specialize (Hf id). rewrite elem_of_btree_elements in Hf. apply Hf in Hid. naive_solver.
Qed.

(** The next set of protected correction targets. *)
Definition protect (op : Operation) (protected : gset RecordRef) : gset RecordRef :=
  match correction_target op with
  | Some target => {[ target ]} ∪ protected
  | None => protected
  end.
Lemma prepare_operation_Ok ps op ps' : prepare_operation rev ps op = Ok ps' →
  ∃ ov aff, apply_operation op rev (ps_records ps, ∅) = Ok (ov, aff) ∧
    (∀ id, id ∈ aff → (id ∉ ps_affected ps) ∧ (id ∉ ps_protected ps)) ∧
    (∀ c, correction_target op = Some c → c ∉ ps_affected ps) ∧
    ps' = mk_pstate ov (ps_affected ps ∪ aff) (protect op (ps_protected ps)).
Proof.
  unfold prepare_operation. intros [Hc H]%then_Ok. apply bind_Ok in H as ([ov aff] & Ha & H).
  destruct (list_find _ _) as [[]|] eqn:Hf; [done|]. injection H as <-. exists ov, aff.
  split_and!; [done|by apply affected_fresh| |done].
  intros c Hct. rewrite Hct in Hc. by case_decide.
Qed.
Section step.
Context (ps : PrepareState) (op : Operation) (ov : RecordOverlay) (aff : gset RecordRef)
  (Hl : loop_ok rev base base_reverse ps)
  (Hw : written rev op (ps_records ps) ov aff)
  (Hfresh : ∀ id, id ∈ aff → (id ∉ ps_affected ps) ∧ (id ∉ ps_protected ps))
  (Hct : ∀ c, correction_target op = Some c → c ∉ ps_affected ps).

Lemma step_delta id r' : id ∈ aff → ov_changed ov !! id = Some r' →
  delta_ok rev base (protect op (ps_protected ps)) id r'.
Proof.
  intros Hid Hr. destruct (wr_written _ _ _ _ _ Hw id Hid) as (r & Hr2 & Hrid & Hcase).
  rewrite Hr in Hr2. injection Hr2 as <-. split; [done|].
  destruct (Hfresh id Hid) as [Hna _]. destruct (loop_unchanged ps id Hl Hna) as [Hb _].
  rewrite Hb in Hcase. destruct Hcase as [(H1 & H2 & H3 & H4)|H]; [left|by right].
  split_and!; [done|done| |].
  - intros c Hc. destruct (H3 c Hc) as (x & Hx & Hk). exists x. split; [|done].
    rewrite <-Hx. symmetry. apply (loop_unchanged ps c Hl). by apply Hct, H4.
  - intros c Hc%H4. unfold protect. rewrite Hc. set_solver.
Qed.
Lemma step_changed id : id ∉ aff → ov_changed ov !! id = ov_changed (ps_records ps) !! id.
Proof. apply (wr_kept _ _ _ _ _ Hw). Qed.
Lemma step_dom : dom (ov_changed ov) = ps_affected ps ∪ aff.
Proof.
  apply set_eq. intros id. rewrite elem_of_dom, elem_of_union, <-(lo_dom _ _ _ _ Hl), elem_of_dom.
  destruct (decide (id ∈ aff)) as [Hin|Hn].
  - destruct (wr_written _ _ _ _ _ Hw id Hin) as (r & Hr & _). rewrite Hr. split; [by right|done].
  - rewrite step_changed by done. split; [by left|]. by intros [?|?].
Qed.
Lemma step_ok : deletions_safe (ps_records ps) ov aff →
  (∀ c, correction_target op = Some c → c ∉ aff) →
  loop_ok rev base base_reverse
    (mk_pstate ov (ps_affected ps ∪ aff) (protect op (ps_protected ps))).
Proof.
  intros Hsafe Hcaff. split; cbn.
  - by rewrite (wr_base _ _ _ _ _ Hw), (lo_base _ _ _ _ Hl).
  - by rewrite (wr_reverse _ _ _ _ _ Hw), (lo_reverse _ _ _ _ Hl).
  - apply step_dom.
  - intros id r Hr. destruct (decide (id ∈ aff)) as [Hin|Hn]; [by apply step_delta|].
    rewrite step_changed in Hr by done. apply (lo_delta _ _ _ _ Hl) in Hr. revert Hr.
    apply delta_ok_mono. unfold protect. destruct (correction_target op); set_solver.
  - pose proof (lo_protected _ _ _ _ Hl). unfold protect.
    destruct (correction_target op) as [c|]; [pose proof (Hct c eq_refl); pose proof (Hcaff c eq_refl)|];
      set_solver.
  - intros t e o r Ht He Ho Hr. apply not_elem_of_union in Ho as [Hoa Hon].
    destruct (decide (t ∈ aff)) as [Hin|Hn].
    + eapply Hsafe; [done| |done|done|].
      * unfold ov_map. rewrite lookup_union, Ht. by destruct (ov_base ov !! t).
      * by rewrite (proj1 (loop_unchanged ps o Hl Hoa)).
    + rewrite step_changed in Ht by done. by eapply (lo_safe _ _ _ _ Hl).
Qed.
End step.

Lemma loop_step ps op ps' : loop_ok rev base base_reverse ps →
  prepare_operation rev ps op = Ok ps' → loop_ok rev base base_reverse ps'.
Proof.
  intros Hl (ov & aff & Ha & Hf & Hc & ->)%prepare_operation_Ok.
  assert (reverse_ok (ov_base (ps_records ps)) (ov_base_reverse (ps_records ps))) as Hr
    by (by rewrite (lo_base _ _ _ _ Hl), (lo_reverse _ _ _ _ Hl)).
  pose proof (loop_keyed ps Hl) as Hk.
  destruct (apply_operation_written rev _ Hk Hr op ov aff Ha) as [Hw Hs].
  apply step_ok; [done..|]. intros c. by eapply correction_target_kept.
Qed.
Lemma loop_all ops ps ps' : loop_ok rev base base_reverse ps →
  try_fold (prepare_operation rev) ops ps = Ok ps' → loop_ok rev base base_reverse ps'.
Proof.
  revert ps. induction ops as [|op ops IH]; intros ps Hl H; [by injection H as <-|].
  cbn [try_fold] in H. apply bind_Ok in H as (ps1 & H1 & H). eapply IH; [|done].
  by eapply loop_step.
Qed.
End loop.

(** ** The next state is valid *)
Lemma step_visible rev r r' : record_step rev r r' → is_visible_record r' = true ∨
  ∃ e, r' = REntity e ∧ e_lifecycle e ≠ Active.
Proof. destruct 1; cbn; [by left|right|by left|by left]. eexists. by split. Qed.
Section next.
Context (rev : CommitRevision) (base : Records) (base_reverse : ReverseIndex) (ps : PrepareState)
  (Hl : loop_ok rev base base_reverse ps).
Abbreviation next := (ov_map (ps_records ps)).

(** What happened to a record of the base. *)
Lemma next_cases id r : base !! id = Some r →
  ((id ∉ ps_affected ps) ∧ next !! id = Some r) ∨
  (id ∈ ps_affected ps ∧ ∃ r', ov_changed (ps_records ps) !! id = Some r' ∧
     next !! id = Some r' ∧ record_step rev r r').
Proof.
  intros Hr. destruct (decide (id ∈ ps_affected ps)) as [Hin|Hn].
  - right. split; [done|]. rewrite <-(lo_dom _ _ _ _ Hl), elem_of_dom in Hin.
    destruct Hin as [r' Hr']. exists r'. split; [done|]. split.
    + unfold ov_map. rewrite lookup_union, Hr'. by destruct (ov_base _ !! id).
    + destruct (lo_delta _ _ _ _ Hl id r' Hr') as [_ [(Hb & _)|(r0 & Hb & Hs)]]; congruence.
  - left. split; [done|]. by rewrite (proj1 (loop_unchanged _ _ _ _ _ Hl Hn)).
Qed.
Lemma next_kind id r : base !! id = Some r → ∃ r', next !! id = Some r' ∧ same_kind r r' = true.
Proof.
  intros [[_ H]|(_ & r' & _ & H & Hs)]%next_cases.
  - exists r. split; [done|]. by destruct r.
  - exists r'. split; [done|]. by eapply record_step_kind.
Qed.
Lemma next_visible o r t : base !! o = Some r → o ∉ ps_affected ps → live_ref r t →
  visible (λ t, base !! t) t → visible (λ t, next !! t) t.
Proof.
  intros Ho Hn Hlive (x & Hx & Hv). apply next_cases in Hx as [[_ H]|(_ & x' & Hc & H & Hs)].
  - by exists x.
  - exists x'. split; [done|]. destruct (step_visible _ _ _ Hs) as [|(e & -> & He)]; [done|].
    by destruct (lo_safe _ _ _ _ Hl t e o r).
Qed.
Lemma next_active o r t : base !! o = Some r → o ∉ ps_affected ps → live_ref r t →
  active (λ t, base !! t) t → active (λ t, next !! t) t.
Proof.
  intros Ho Hn Hlive (e & He & Ha).
  assert (visible (λ t, next !! t) t) as (x & Hx & Hv).
  { apply (next_visible o r); [done..|]. exists (REntity e). split; [done|]. cbn. by rewrite Ha. }
  apply next_kind in He as (x' & Hx' & Hk). rewrite Hx in Hx'. injection Hx' as <-.
  destruct x as [e'| | |]; try done. exists e'. split; [done|]. by apply bool_decide_eq_true in Hv.
Qed.
Lemma next_evidence t : is_evidence (λ t, base !! t) t → is_evidence (λ t, next !! t) t.
Proof. intros (e & (r' & H & Hk)%next_kind). destruct r'; try done. by eexists. Qed.
Lemma next_correction r : correction_kept (λ t, base !! t) r → correction_kept (λ t, next !! t) r.
Proof.
  destruct r; cbn; try done; intros H c (x & (r' & Hr' & Hk)%next_kind)%H;
    destruct r'; try done; by eexists.
Qed.
Lemma next_valid s : state_valid s base →
  validate_changed_state s (ps_records ps) (ps_affected ps) = Ok tt → state_valid s next.
Proof.
  rewrite validate_changed_Ok. intros Hb Hc id r Hr.
  destruct (decide (id ∈ ps_affected ps)) as [Hin|Hn].
  - destruct (Hc id Hin) as (r' & Hr' & Hv). assert (r' = r) as -> by congruence. done.
  - rewrite (proj1 (loop_unchanged _ _ _ _ _ Hl Hn)) in Hr. generalize (Hb id r Hr).
    apply record_valid_mono.
    + intros t Ht. apply (next_visible id r); [done..|by left].
    + intros t Ht. apply (next_active id r); [done..|by right].
    + apply next_evidence.
    + apply next_correction.
Qed.
End next.

(** ** The plan *)
Lemma plan_Ok sha256 s tx rev d digest changes pol : plan_transaction sha256 s tx rev d = Ok (digest, changes, pol) →
  tx_scope tx = scope s ∧
  match revision s with
  | Some current => CommitRevision_checked_next current = Ok rev
  | None => rev = CommitRevision_FIRST
  end ∧
  validate_request_limits tx = Ok tt ∧
  Forall (λ op, check_operation s op = Ok tt) (tx_operations tx) ∧
  validate_policy_mutation (scope s) (policy s) (tx_policy_mutation tx) = Ok tt ∧
  pol = mutation_policy <$> tx_policy_mutation tx ∧
  ∃ ps, try_fold (prepare_operation rev) (tx_operations tx)
      (mk_pstate (overlay_new (records s) (reverse (indexes s))) ∅ ∅) = Ok ps ∧
    validate_changed_state (scope s) (ps_records ps) (ps_affected ps) = Ok tt ∧
    changes = into_changes (ps_records ps).
Proof.
  unfold plan_transaction. case_bool_decide as Hs; [|done]. cbn [negb]. intros H.
  apply bind_Ok in H as (exp & Hexp & H). destruct (Z.eqb_spec rev exp) as [->|]; [|done].
  cbn [negb] in H. apply then_Ok in H as [Hlim H]. apply bind_Ok in H as (dg & Hd & H).
  apply then_Ok in H as [Hop H]. apply then_Ok in H as [Hpol H].
  apply bind_Ok in H as (ps & Hps & H). apply then_Ok in H as [Hv [= <- <- <-]].
  rewrite try_each_Ok in Hop. split_and!; [done| |done|done|done|done|by exists ps].
  destruct (revision s); [by rewrite map_err_Ok in Hexp|by injection Hexp].
Qed.

(** ** Publication and version histories

    Publishing a prepared delta on its base state replaces the changed records,
    appends one version to each of their histories and keeps the indexes those
    of the records; lookups at a revision read the version that was current
    then. *)

(** ** The publication loop *)
Definition changes_map (changes : list RecordChange) : Records :=
  list_to_map ((λ c, (change_id c, change_after c)) <$> changes).
(** A history with the new versions appended. *)
Definition append_versions (m : Records) (h : History) : History :=
  merge (λ r vs, match r with Some r => Some (default [] vs ++ [r]) | None => vs end) m h.
Lemma lookup_append_versions m h id : append_versions m h !! id =
  match m !! id with Some r => Some (default [] (h !! id) ++ [r]) | None => h !! id end.
Proof. unfold append_versions. rewrite lookup_merge. by destruct (m !! id), (h !! id). Qed.

Lemma publish_change_indexes s c : keyed (records s) → indexes_ok (records s) (indexes s) →
  records s !! change_id c = change_before c → record_id (change_after c) = change_id c →
  indexes_ok (<[change_id c := change_after c]> (records s)) (indexes (publish_change s c)).
Proof.
  intros Hk Hi Hb Hid. unfold publish_change. cbn. destruct (change_before c) as [b|].
  - rewrite <-insert_delete_eq. apply indexes_add; [by rewrite lookup_delete_eq|done|].
    apply indexes_remove; [done|by apply Hk|done].
  - by apply indexes_add.
Qed.
Lemma keyed_insert m id r : keyed m → record_id r = id → keyed (<[id := r]> m).
Proof. intros Hm Hr. by apply map_Forall_insert_2. Qed.
Record published (s s' : GraphState) (m : Records) : Prop := {
  pb_scope : scope s' = scope s;
  pb_revision : revision s' = revision s;
  pb_policy : policy s' = policy s;
  pb_policy_history : policy_history s' = policy_history s;
  pb_records : records s' = m ∪ records s;
  pb_history : history s' = append_versions m (history s);
  pb_indexes : indexes_ok (records s') (indexes s');
  pb_keyed : keyed (records s')
}.
Lemma publish_changes cs s : keyed (records s) → indexes_ok (records s) (indexes s) →
  NoDup (change_id <$> cs) →
  Forall (λ c, records s !! change_id c = change_before c ∧
    record_id (change_after c) = change_id c) cs →
  published s (foldl publish_change s cs) (changes_map cs).
Proof.
  revert s. induction cs as [|c cs IH]; intros s Hk Hi Hnd Hall.
  { split; cbn; [done..| | |done|done].
    - unfold changes_map. cbn. by rewrite (left_id_L ∅ _).
    - apply map_eq. intros id. unfold changes_map. cbn.
      by rewrite lookup_append_versions, lookup_empty. }
  rewrite fmap_cons in Hnd. apply NoDup_cons in Hnd as [Hn Hnd].
  apply Forall_cons in Hall as [[Hb Hid] Hall]. cbn [foldl].
  assert (∀ c', c' ∈ cs → change_id c' ≠ change_id c) as Hne.
  { intros c' Hc' Heq. apply Hn, list_elem_of_fmap. by exists c'. }
  destruct (IH (publish_change s c)) as [P1 P2 P3 P4 P5 P6 P7 P8].
  - by apply keyed_insert.
  - by apply publish_change_indexes.
  - done.
  - rewrite Forall_forall in Hall |- *. intros c' Hc'. destruct (Hall c' Hc') as [Hb' ?].
    split; [|done]. cbn. rewrite lookup_insert_ne; [done|]. apply not_eq_sym. by apply Hne.
  - assert (changes_map cs !! change_id c = None) as Hfresh.
    { apply not_elem_of_list_to_map_1. rewrite <-list_fmap_compose. exact Hn. }
    assert (changes_map (c :: cs) = <[change_id c := change_after c]> (changes_map cs)) as Hm
      by done.
    split; [done..| | |done|done].
    + rewrite P5, Hm. cbn. rewrite <-insert_union_r by done. by rewrite insert_union_l.
    + rewrite P6, Hm. apply map_eq. intros id. rewrite !lookup_append_versions. cbn.
      destruct (decide (change_id c = id)) as [<-|Hne'].
      * by rewrite Hfresh, !lookup_insert_eq.
      * by rewrite !lookup_insert_ne by done.
Qed.

(** ** The changes of an overlay *)
Lemma into_changes_map ov : changes_map (into_changes ov) = ov_changed ov.
Proof.
  unfold changes_map, into_changes. rewrite <-list_fmap_compose.
  rewrite <-(entries_list_to_map (ov_changed ov)) at 2. f_equal.
  induction (btree_entries (ov_changed ov)) as [|[id r] l IH]; [done|]. cbn. by rewrite IH.
Qed.
Lemma into_changes_ids ov : change_id <$> into_changes ov = btree_keys (ov_changed ov).
Proof.
  unfold into_changes, btree_keys. induction (btree_entries (ov_changed ov)) as [|[id r] l IH]; [done|].
  cbn. by rewrite IH.
Qed.
Lemma elem_of_into_changes ov c : c ∈ into_changes ov →
  ov_changed ov !! change_id c = Some (change_after c) ∧ change_before c = ov_base ov !! change_id c.
Proof.
  unfold into_changes. intros ([id r] & -> & Hin)%list_elem_of_fmap. cbn.
  by apply elem_of_btree_entries in Hin.
Qed.
