(* ===== verification/GraphReachable.v ===== *)
(** * Reachable graph states

    The invariant of every state built by preparing and publishing transactions,
    and its consequences: a reachable state passes the validation its checkpoint
    is subjected to on load, its indexes are those of its records, and what a
    reader saw at a revision never changes. *)
From S2P Require Import Prelude Ids Value Codec Policy GraphRecord GraphCodec GraphIndex GraphState GraphValidity GraphCheckpoint GraphOperations GraphPublish.
Import CheckpointStateError.

(** ** History checks *)
Lemma check_history_Ok s rev recs id vs : check_history s rev recs (id, vs) = Ok tt ↔
  vs ≠ [] ∧ check_versions id rev 0 None vs = Ok tt ∧ validate_record_history s vs = Ok tt ∧
  recs !! id = last vs.
Proof.
  unfold check_history. case_bool_decide; [naive_solver|]. rewrite !then_Ok.
  case_bool_decide; naive_solver.
Qed.
Lemma value_requirements_bound v rev k : Forall (λ q, rq_revision q ≤ rev) (value_requirements v rev k).
Proof. apply Forall_forall. intros q (t & -> & _)%list_elem_of_fmap. cbn. lia. Qed.
Lemma evidence_requirements_bound l rev : Forall (λ q, rq_revision q ≤ rev) (evidence_requirements l rev).
Proof. apply Forall_forall. intros q (t & -> & _)%list_elem_of_fmap. cbn. lia. Qed.
Lemma correction_requirement_Ok o rev k cs : correction_requirement o rev k = Ok cs →
  cs = match o with Some c => [mk_reference_requirement c (rev - 1) k] | None => [] end.
Proof.
  destruct o as [c|]; cbn; [|by intros [= <-]]. intros (q & Hq & [= <-])%bind_Ok.
  unfold preceding_revision, checked_sub in Hq. destruct (1 <=? rev); [|done].
  unfold CommitRevision_new in Hq. destruct (_ =? 0); [done|]. by injection Hq as <-.
Qed.
#[local] Hint Resolve value_requirements_bound evidence_requirements_bound : uste.
Lemma first_requirements_bound s r cs : validate_history_first s r = Ok tt →
  (history_first_requirements r).2 = Ok cs →
  Forall (λ q, rq_revision q ≤ modified_revision r) ((history_first_requirements r).1 ++ cs).
Proof.
  unfold validate_history_first. intros [_ H]%then_Ok Hcs. apply Forall_app.
  destruct r as [e|e|a|x]; cbn in H, Hcs |- *.
  - injection Hcs as <-. auto with uste.
  - injection Hcs as <-. auto.
  - apply correction_requirement_Ok in Hcs as ->. case_bool_decide; [|done].
    destruct (Z.eqb_spec (a_recorded_revision a) (a_modified_revision a)) as [<-|]; [|done].
    split; [constructor; [done|]; apply Forall_app; auto with uste|].
    destruct (a_correction_of a); repeat constructor. cbn. lia.
  - apply correction_requirement_Ok in Hcs as ->. case_bool_decide; [|done].
    destruct (Z.eqb_spec (r_recorded_revision x) (r_modified_revision x)) as [<-|]; [|done].
    split; [do 2 (constructor; [done|]); apply Forall_app; auto with uste|].
    destruct (r_correction_of x); repeat constructor. cbn. lia.
Qed.
Lemma successor_requirements_bound r :
  Forall (λ q, rq_revision q ≤ modified_revision r) (history_successor_requirements r).
Proof. destruct r; cbn; auto. case_decide; auto with uste. Qed.
(** Requirements of recorded versions only look at revisions already committed. *)
Lemma closure_stable s rev recs id vs h h' : check_history s rev recs (id, vs) = Ok tt →
  (∀ t q, q ≤ rev → record_at h' t q = record_at h t q) →
  validate_versions_closure h vs = Ok tt → validate_versions_closure h' vs = Ok tt.
Proof.
  intros (Hne & Hv%check_versions_all & Hh & _)%check_history_Ok Heq.
  destruct vs as [|v vs]; [done|]. apply Forall_cons in Hv as [[Hvr _] Hvs].
  cbn [validate_record_history] in Hh. apply then_Ok in Hh as [Hf _].
  assert (∀ q, rq_revision q ≤ rev → requirement_ok h q → requirement_ok h' q) as Hq.
  { intros q Hq. unfold requirement_ok. by rewrite Heq. }
  rewrite !versions_closure_Ok. intros (H1 & (cs & Hcs & H2) & H3).
  pose proof (first_requirements_bound _ _ _ Hf Hcs) as [B1 B2]%Forall_app.
  split_and!.
  - apply Forall_forall. intros q Hin. rewrite Forall_forall in H1, B1.
    apply Hq; [specialize (B1 q Hin); lia|by apply H1].
  - exists cs. split; [done|]. apply Forall_forall. intros q Hin. rewrite Forall_forall in H2, B2.
    apply Hq; [specialize (B2 q Hin); lia|by apply H2].
  - apply Forall_forall. intros r Hr. rewrite Forall_forall in H3, Hvs.
    destruct (Hvs r Hr) as [Hrr _]. specialize (H3 r Hr). apply Forall_forall. intros q Hin.
    pose proof (successor_requirements_bound r) as B. rewrite Forall_forall in H3, B.
    apply Hq; [specialize (B q Hin); lia|by apply H3].
Qed.

(** ** Requirements of a new version *)
Section requirements.
Context (f : lookup_fn) (s : NamespaceRef) (h : History) (rev : CommitRevision)
  (Hat : ∀ t, record_at h t rev = f t).
Lemma visible_requirements l : Forall (visible f) l →
  Forall (requirement_ok h) (map (λ t, mk_reference_requirement t rev KVisible) l).
Proof.
  intros Hl. apply Forall_forall. intros q (t & -> & Ht)%list_elem_of_fmap.
  rewrite Forall_forall in Hl. destruct (Hl t Ht) as (r & Hr & Hv).
  unfold requirement_ok. cbn. by rewrite Hat, Hr.
Qed.
Lemma evidence_requirements_ok l : Forall (is_evidence f) l →
  Forall (requirement_ok h) (evidence_requirements l rev).
Proof.
  intros Hl. apply Forall_forall. intros q (t & -> & Ht)%list_elem_of_fmap.
  rewrite Forall_forall in Hl. destruct (Hl t Ht) as (e & He).
  unfold requirement_ok. cbn. by rewrite Hat, He.
Qed.
Lemma active_requirement t : active f t →
  requirement_ok h (mk_reference_requirement t rev KActiveEntity).
Proof.
  intros (e & He & Ha). unfold requirement_ok. cbn. rewrite Hat, He. by apply bool_decide_eq_true_2.
Qed.
Lemma first_requirements_ok id r : record_first rev r → record_valid f s id r →
  Forall (requirement_ok h) (history_first_requirements r).1.
Proof.
  intros Hf (_ & _ & Hv & Ha & He & _).
  destruct Hf as [i ty sv props|i d l|n c|n c]; cbn in Hv, Ha, He |- *.
  - by apply visible_requirements.
  - done.
  - apply Forall_cons in Ha as [Ha _]. constructor; [by apply active_requirement|].
    apply Forall_app. split; [by apply visible_requirements|by apply evidence_requirements_ok].
  - apply Forall_cons in Ha as [Ha1 [Ha2 _]%Forall_cons].
    do 2 (constructor; [by apply active_requirement|]).
    apply Forall_app. split; [by apply visible_requirements|by apply evidence_requirements_ok].
Qed.
Lemma successor_requirements_ok id r : modified_revision r = rev → record_valid f s id r →
  Forall (requirement_ok h) (history_successor_requirements r).
Proof.
  intros Hm (_ & _ & Hv & _). destruct r as [e| | |]; cbn in Hm, Hv |- *; try done.
  case_decide; [|done]. rewrite Hm. by apply visible_requirements.
Qed.
End requirements.
Lemma correction_requirements_ok base h rev r : record_first rev r →
  corrects base r → (record_correction r ≠ None → 1 < rev) →
  (∀ t, record_at h t (rev - 1) = base t) →
  ∃ cs, (history_first_requirements r).2 = Ok cs ∧ Forall (requirement_ok h) cs.
Proof.
  intros Hf Hc Hrev Hat.
  assert (∀ o k, (∀ c, o = Some c → 1 < rev ∧ reference_requirement_matches
      (mk_reference_requirement c (rev - 1) k) (base c) = true) →
    ∃ cs, correction_requirement o rev k = Ok cs ∧ Forall (requirement_ok h) cs) as Hgen.
  { intros [c|] k Ho; cbn; [|by eexists]. destruct (Ho c eq_refl) as [Hlt Hm].
    exists [mk_reference_requirement c (rev - 1) k]. split.
    - unfold preceding_revision, checked_sub, CommitRevision_new.
      destruct (Z.leb_spec 1 rev); [|lia]. destruct (Z.eqb_spec (rev - 1) 0); [lia|]. done.
    - apply Forall_singleton. unfold requirement_ok. cbn [rq_target rq_revision]. by rewrite Hat. }
  destruct Hf as [i ty sv props|i d l|n o|n o]; cbn; [by eexists|by eexists| |];
    apply Hgen; intros c ->; (split; [by apply Hrev|]);
    destruct (Hc c eq_refl) as (x & Hx & Hk & Hst); rewrite Hx; destruct x; try done;
    cbn in Hst |- *; injection Hst as ->; by apply bool_decide_eq_true_2.
Qed.

(** ** The invariant *)
Definition current (s : GraphState) : Z := default 0 (revision s).
Record graph_inv (s : GraphState) : Prop := {
  gi_keyed : keyed (records s);
  gi_indexes : indexes_ok (records s) (indexes s);
  gi_valid : state_valid (scope s) (records s);
  gi_dom : dom (history s) = dom (records s);
  gi_history : map_Forall (λ id vs, check_history (scope s) (current s) (records s) (id, vs) = Ok tt ∧
    validate_versions_closure (history s) vs = Ok tt) (history s);
  gi_policy_scope : ∀ p, policy s = Some p → policy_scope p = scope s;
  gi_policies : check_policy_history (scope s) (current s) None (btree_entries (policy_history s)) = Ok tt;
  gi_policy_last : last (btree_values (policy_history s)) = policy s;
  gi_revision : match revision s with
                | Some rev => 1 ≤ rev ≤ U64_MAX
                | None => records s = ∅ ∧ policy s = None
                end
}.
Lemma graph_inv_new scope : graph_inv (GraphState_new scope).
Proof.
  split; cbn.
  - apply map_Forall_empty.
  - apply indexes_empty.
  - apply map_Forall_empty.
  - by rewrite !dom_empty_L.
  - apply map_Forall_empty.
  - done.
  - by rewrite btree_entries_empty.
  - unfold btree_values. by rewrite btree_entries_empty.
  - done.
Qed.
(** The latest version is the record, and every version is recorded by now. *)
Lemma record_at_current s id : graph_inv s → record_at (history s) id (current s) = records s !! id.
Proof.
  intros Hi. rewrite record_at_eq. destruct (history s !! id) as [vs|] eqn:Hh; cbn.
  - destruct (gi_history _ Hi id vs Hh) as [(_ & Hv & _ & ->)%check_history_Ok _].
    apply version_at_last. apply check_versions_all in Hv. apply (Forall_impl _ _ _ Hv). by intros r [? _].
  - symmetry. apply not_elem_of_dom. rewrite <-(gi_dom _ Hi). by apply not_elem_of_dom.
Qed.
Lemma history_last_shape s vs r : validate_record_history s vs = Ok tt → last vs = Some r →
  validate_historical_record_shape s r = Ok tt.
Proof.
  destruct vs as [|v vs _] using rev_ind; [done|]. rewrite last_snoc. intros H [= ->].
  destruct vs as [|w vs _] using rev_ind.
  - cbn [app validate_record_history] in H. apply then_Ok in H as [H _].
    by apply then_Ok in H as [H _].
  - rewrite (validate_record_history_snoc _ _ w) in H by apply last_snoc.
    apply then_Ok in H as [_ H]. by apply then_Ok in H as [H _].
Qed.

(** ** One committed transaction *)
Section advance.
Context (s : GraphState) (Hi : graph_inv s) (rev : CommitRevision) (Hrev : rev = current s + 1)
  (ps : PrepareState) (Hl : loop_ok rev (records s) (reverse (indexes s)) ps)
  (Hv : state_valid (scope s) (ov_map (ps_records ps))).
Abbreviation m := (ov_changed (ps_records ps)).
Abbreviation next := (ov_map (ps_records ps)).
Abbreviation h' := (append_versions m (history s)).

Lemma delta_modified id r' : m !! id = Some r' → modified_revision r' = rev.
Proof.
  intros H. destruct (lo_delta _ _ _ _ Hl id r' H) as [_ [(_ & Hf & _)|(r & _ & Hs)]].
  - by apply record_first_version.
  - by apply record_step_version in Hs as (_ & _ & ? & _).
Qed.
Lemma next_changed id r' : m !! id = Some r' → next !! id = Some r'.
Proof. intros H. unfold ov_map. rewrite lookup_union, H. by destruct (ov_base _ !! id). Qed.
Lemma next_same id : m !! id = None → next !! id = records s !! id.
Proof. intros H. unfold ov_map. by rewrite lookup_union, H, (lo_base _ _ _ _ Hl), (left_id_L None _). Qed.
Lemma history_None id : records s !! id = None ↔ history s !! id = None.
Proof. by rewrite <-!not_elem_of_dom, (gi_dom _ Hi). Qed.
Lemma history_Some id vs : history s !! id = Some vs →
  vs ≠ [] ∧ check_versions id (current s) 0 None vs = Ok tt ∧
  validate_record_history (scope s) vs = Ok tt ∧ records s !! id = last vs.
Proof. intros [H _]%(gi_history _ Hi). by apply check_history_Ok. Qed.
Lemma versions_past id vs q : history s !! id = Some vs → current s ≤ q →
  Forall (λ r, modified_revision r ≤ q) vs.
Proof.
  intros (_ & Hc%check_versions_all & _)%history_Some Hq. apply (Forall_impl _ _ _ Hc).
  intros r [? _]. lia.
Qed.
Lemma at_past t q : q ≤ current s → record_at h' t q = record_at (history s) t q.
Proof.
  intros Hq. rewrite !record_at_eq, lookup_append_versions.
  destruct (m !! t) as [r'|] eqn:Hm; [|done]. apply delta_modified in Hm.
  cbn. rewrite version_at_snoc by lia. by destruct (history s !! t).
Qed.
Lemma at_now t : record_at h' t rev = next !! t.
Proof.
  rewrite record_at_eq, lookup_append_versions. destruct (m !! t) as [r'|] eqn:Hm.
  - rewrite (next_changed _ _ Hm). cbn. rewrite version_at_last; [by rewrite last_snoc|].
    apply Forall_app. split; [|constructor; [by rewrite (delta_modified _ _ Hm)|done]].
    destruct (history s !! t) as [vs|] eqn:Hh; [|done]. eapply versions_past; [done|lia].
  - rewrite (next_same _ Hm). destruct (history s !! t) as [vs|] eqn:Hh; cbn.
    + rewrite version_at_last by (eapply versions_past; [done|lia]).
      by apply history_Some in Hh as (_ & _ & _ & ->).
    + symmetry. by apply history_None.
Qed.
Lemma new_shape id r' : m !! id = Some r' → validate_historical_record_shape (scope s) r' = Ok tt.
Proof.
  intros Hm. apply historical_shape_Ok. destruct (Hv id r' (next_changed _ _ Hm)) as (Hs & Hsh & _).
  destruct (lo_delta _ _ _ _ Hl id r' Hm) as [Hid [(_ & Hf & Hc & _)|(r & Hr & Hst)]].
  - rewrite Hid. split_and!; [done|done|by eapply record_first_ordered|].
    intros c (x & Hx & _)%Hc. by destruct (gi_valid _ Hi c x Hx).
  - destruct (history s !! id) as [vs|] eqn:Hh.
    2:{ apply history_None in Hh. congruence. }
    pose proof (versions_past id vs _ Hh (Z.le_refl _)) as Hp.
    apply history_Some in Hh as (_ & _ & Hvr & Hlast). rewrite Hr in Hlast. symmetry in Hlast.
    pose proof (history_last_shape _ _ _ Hvr Hlast) as (_ & _ & Ho & Hcs)%historical_shape_Ok.
    assert (modified_revision r ≤ rev).
    { rewrite Forall_forall in Hp. specialize (Hp r (last_Some_elem_of _ _ Hlast)). cbn in Hp. lia. }
    rewrite Hid. split_and!; [done|done|by eapply record_step_ordered|].
    intros c. rewrite (proj2 (proj2 (proj2 (record_step_version _ _ _ Hst)))). apply Hcs.
Qed.
(** A new record starts its history. *)
Lemma first_history id r' : m !! id = Some r' → records s !! id = None →
  check_history (scope s) rev next (id, [r']) = Ok tt ∧ validate_versions_closure h' [r'] = Ok tt.
Proof.
  intros Hm Hn. pose proof (next_changed _ _ Hm) as Hnext.
  destruct (lo_delta _ _ _ _ Hl id r' Hm) as [Hid [(_ & Hf & Hc & _)|(r & Hr & _)]]; [|congruence].
  destruct (record_first_version _ _ Hf) as [Hver Hmod]. split.
  - apply check_history_Ok. split_and!; [done| | |done].
    + apply check_version_Ok. rewrite Hver, Hmod. split_and!; try done; unfold U64_MAX; lia.
    + cbn [validate_record_history validate_successors].
      rewrite (record_first_valid _ _ _ Hf (new_shape _ _ Hm)). done.
  - apply versions_closure_Ok. split_and!; [|eapply correction_requirements_ok; [done|exact Hc| |]|done].
    + eapply first_requirements_ok; [apply at_now|done|by apply Hv].
    + intros Hcor. destruct (record_correction r') as [c|] eqn:Hrc; [|done].
      destruct (Hc c Hrc) as (x & Hx & _). pose proof (gi_revision _ Hi) as Hr. unfold current in *.
      destruct (revision s); cbn in *; [lia|]. destruct Hr as [Hr _]. by rewrite Hr, lookup_empty in Hx.
    + intros t. replace (rev - 1) with (current s) by lia. rewrite at_past by lia.
      by apply record_at_current.
Qed.
(** A changed record extends its history by one step. *)
Lemma step_history id vs r' : m !! id = Some r' → history s !! id = Some vs →
  check_history (scope s) rev next (id, vs ++ [r']) = Ok tt ∧
  validate_versions_closure h' (vs ++ [r']) = Ok tt.
Proof.
  intros Hm Hh. pose proof (next_changed _ _ Hm) as Hnext.
  pose proof (gi_history _ Hi id vs Hh) as [Hch Hcl].
  apply history_Some in Hh as (Hne & Hcv & Hvr & Hlast).
  destruct (lo_delta _ _ _ _ Hl id r' Hm) as [Hid [(Hr & _)|(r & Hr & Hst)]].
  { rewrite Hr in Hlast. symmetry in Hlast. by apply last_None in Hlast. }
  rewrite Hr in Hlast. symmetry in Hlast.
  destruct (record_step_version _ _ _ Hst) as (Hver & Hmax & Hmod & _).
  pose proof (check_versions_last _ _ _ _ _ _ Hcv Hlast) as Hrv.
  pose proof (check_versions_all _ _ _ _ _ Hcv) as Hall. split.
  - apply check_history_Ok. split_and!; [by destruct vs| | |by rewrite last_snoc].
    + rewrite check_versions_snoc, then_Ok. split; [eapply check_versions_mono; [|done]; lia|].
      rewrite Hlast. apply check_version_Ok. rewrite Forall_forall in Hall.
      destruct (Hall r (last_Some_elem_of _ _ Hlast)) as [Hrm _].
      split_and!; [lia|done|lia|lia|lia|done].
    + rewrite (validate_record_history_snoc _ _ r) by done. apply then_Ok. split; [done|].
      unfold validate_history_successor. rewrite (new_shape _ _ Hm). cbn [mbind result_bind].
      by rewrite (record_step_matches _ _ _ Hst).
  - apply versions_closure_snoc; [done|]. split.
    + eapply closure_stable; [exact Hch|intros; by apply at_past|done].
    + eapply successor_requirements_ok; [apply at_now|done|by apply Hv].
Qed.
Lemma advance_history : map_Forall (λ id vs, check_history (scope s) rev next (id, vs) = Ok tt ∧
  validate_versions_closure h' vs = Ok tt) h'.
Proof.
  intros id vs. rewrite lookup_append_versions. destruct (m !! id) as [r'|] eqn:Hm.
  - destruct (history s !! id) as [vs0|] eqn:Hh; intros [= <-]; [by apply step_history|].
    apply first_history; [done|by apply history_None].
  - intros Hh. pose proof (gi_history _ Hi id vs Hh) as [Hch Hcl]. split.
    + apply check_history_Ok in Hch as (? & Hc & ? & Hlast). apply check_history_Ok.
      split_and!; [done| |done|by rewrite next_same].
      eapply check_versions_mono; [|done]. lia.
    + eapply closure_stable; [exact Hch|intros; by apply at_past|done].
Qed.
Lemma advance_dom : dom h' = dom next.
Proof.
  apply set_eq. intros id. rewrite !elem_of_dom, lookup_append_versions.
  destruct (m !! id) as [r'|] eqn:Hm.
  - rewrite (next_changed _ _ Hm). by split.
  - rewrite (next_same _ Hm), <-!elem_of_dom. by rewrite (gi_dom _ Hi).
Qed.
End advance.

(** ** Policies *)
Lemma check_policy_snoc s rev prev l q p :
  check_policy_history s rev prev (l ++ [(q, p)]) = Ok tt ↔
  check_policy_history s rev prev l = Ok tt ∧ q ≤ rev ∧ policy_scope p = s ∧
  match last l with
  | Some e => policy_version e.2 < policy_version p
  | None => ∀ v, prev = Some v → v < policy_version p
  end.
Proof.
  revert prev. induction l as [|[q' p'] l IH]; intros prev.
  - cbn. destruct (Z.ltb_spec rev q); cbn; [naive_solver lia|]. case_bool_decide; cbn; [|naive_solver].
    destruct prev as [v|]; [destruct (Z.leb_spec (policy_version p) v)|]; naive_solver lia.
  - cbn [app check_policy_history]. destruct (_ || _); [naive_solver|]. rewrite IH.
    destruct l as [|e l _] using rev_ind; [naive_solver|]. by rewrite app_comm_cons, !last_snoc.
Qed.
Lemma check_policy_bound s rev prev l : check_policy_history s rev prev l = Ok tt →
  Forall (λ e, e.1 ≤ rev) l.
Proof.
  revert prev. induction l as [|[q p] l IH]; intros prev H; [done|]. cbn [check_policy_history] in H.
  destruct (Z.ltb_spec rev q); [done|]. destruct (_ || _); [done|]. constructor; [done|]. by eapply IH.
Qed.
Lemma check_policy_mono s rev rev' prev l : rev ≤ rev' →
  check_policy_history s rev prev l = Ok tt → check_policy_history s rev' prev l = Ok tt.
Proof.
  intros Hle. revert prev. induction l as [|[q p] l IH]; intros prev H; [done|].
  cbn [check_policy_history] in H |- *. destruct (Z.ltb_spec rev q); [done|].
  destruct (Z.ltb_spec rev' q); [lia|]. cbn [orb] in *. destruct (_ || _); [done|]. by apply IH.
Qed.
Lemma last_values (g : gmap CommitRevision NamespacePolicy) :
  last (btree_values g) = snd <$> last (btree_entries g).
Proof. unfold btree_values. by rewrite fmap_last. Qed.
Section policies.
Context (s : GraphState) (Hi : graph_inv s) (rev : CommitRevision) (Hrev : rev = current s + 1).
Lemma policies_snoc p : btree_entries (<[rev := p]> (policy_history s)) =
  btree_entries (policy_history s) ++ [(rev, p)].
Proof.
  apply btree_entries_snoc. unfold btree_keys. apply Forall_fmap.
  pose proof (check_policy_bound _ _ _ _ (gi_policies _ Hi)) as Hb.
  apply (Forall_impl _ _ _ Hb). intros [q x]. cbn. unfold lexico, Z_lexico. lia.
Qed.
Lemma mutation_spec mutation :
  validate_policy_mutation (scope s) (policy s) (Some mutation) = Ok tt →
  policy_scope (mutation_policy mutation) = scope s ∧
  ∀ p, policy s = Some p → policy_version p < policy_version (mutation_policy mutation).
Proof.
  cbn [validate_policy_mutation]. intros (next & Hn & H)%bind_Ok. case_decide as Hs; [|done].
  destruct mutation as [p|v p]; cbn [mutation_policy].
  - destruct (policy s); [done|]. injection Hn as <-. split; [done|]. done.
  - destruct (policy s) as [c|]; [|done]. destruct (Z.eqb_spec (policy_version c) v); [|done].
    destruct (Z.leb_spec (policy_version p) v); [done|]. injection Hn as <-. split; [done|].
    intros c' [= <-]. lia.
Qed.
Lemma advance_policies p : policy_scope p = scope s →
  (∀ c, policy s = Some c → policy_version c < policy_version p) →
  check_policy_history (scope s) rev None (btree_entries (<[rev := p]> (policy_history s))) = Ok tt ∧
  last (btree_values (<[rev := p]> (policy_history s))) = Some p.
Proof.
  intros Hs Hlt. rewrite last_values, policies_snoc, last_snoc. split; [|done].
  apply check_policy_snoc. split_and!; [|done|done|].
  - eapply check_policy_mono; [|apply (gi_policies _ Hi)]. lia.
  - pose proof (gi_policy_last _ Hi) as Hlast. rewrite last_values in Hlast.
    destruct (last (btree_entries (policy_history s))) as [e|]; [by apply Hlt|done].
Qed.
End policies.

(** ** Commits *)
Section commits.
Context (sha256 : list byte → list byte).

(** A prepared transaction, opened. *)
Lemma prepared_Ok s tx rev d p :
  prepare_transaction_with_digest sha256 s tx rev d = Some (Ok p) →
  ∃ digest changes pol, plan_transaction sha256 s tx rev d = Ok (digest, changes, pol) ∧
    p_scope p = scope s ∧ p_base_revision p = revision s ∧
    p_base_policy_version p = policy_version <$> policy s ∧ p_revision p = rev ∧
    p_changes p = changes ∧ p_policy_change p = pol.
Proof.
  unfold prepare_transaction_with_digest.
  destruct (plan_transaction _ _ _ _ _) as [[[digest changes] pol]|]; [|done].
  destruct (graph_result_digest _ _ _ _); [|done]. cbn. intros [= <-]. by eauto 10.
Qed.
Lemma can_publish_spec s p : can_publish s p = true ↔
  p_scope p = scope s ∧ p_base_revision p = revision s ∧
  p_base_policy_version p = policy_version <$> policy s ∧
  Forall (λ c, records s !! change_id c = change_before c) (p_changes p).
Proof.
  unfold can_publish, prepared_view. do 3 (case_bool_decide; [|cbn; naive_solver]). cbn [orb negb].
  destruct (existsb _ _) eqn:He; cbn.
  - split; [done|]. intros (_ & _ & _ & Hall). apply existsb_exists in He as (c & Hin & Hc).
    rewrite Forall_forall in Hall. apply list_elem_of_In in Hin. apply negb_true_iff in Hc.
    apply bool_decide_eq_false in Hc. by destruct Hc; apply Hall.
  - split; [|done]. intros _. split_and!; [done..|]. apply Forall_forall. intros c Hin.
    apply dec_stable. intros Hc. apply not_true_iff_false in He. apply He, existsb_exists.
    exists c. split; [by apply list_elem_of_In|]. by apply negb_true_iff, bool_decide_eq_false.
Qed.
Lemma next_revision s rev :
  match revision s with
  | Some current => CommitRevision_checked_next current = Ok rev
  | None => rev = CommitRevision_FIRST
  end → rev = current s + 1 ∧ rev ≤ U64_MAX.
Proof.
  unfold current. destruct (revision s) as [c|]; cbn.
  - unfold CommitRevision_checked_next, checked_add, CommitRevision_new.
    destruct (Z.leb_spec (c + 1) U64_MAX); [|done]. destruct (_ =? 0); [done|]. by intros [= <-].
  - intros ->. unfold CommitRevision_FIRST, U64_MAX. lia.
Qed.
(** What publishing a fresh prepared transaction does. *)
Record commit_effect (s : GraphState) (tx : GraphTransaction) (rev : CommitRevision)
    (p : PreparedGraph) (ps : PrepareState) (s' : GraphState) : Prop := {
  ce_loop : loop_ok rev (records s) (reverse (indexes s)) ps;
  ce_fold : try_fold (prepare_operation rev) (tx_operations tx)
    (mk_pstate (overlay_new (records s) (reverse (indexes s))) ∅ ∅) = Ok ps;
  ce_changes : p_changes p = into_changes (ps_records ps);
  ce_revision : rev = current s + 1 ∧ rev ≤ U64_MAX;
  ce_valid : state_valid (scope s) (ov_map (ps_records ps));
  ce_scope : scope s' = scope s;
  ce_revision' : revision s' = Some rev;
  ce_records : records s' = ov_map (ps_records ps);
  ce_history : history s' = append_versions (ov_changed (ps_records ps)) (history s);
  ce_indexes : indexes_ok (records s') (indexes s');
  ce_keyed : keyed (records s');
  ce_policy : match tx_policy_mutation tx with
    | Some mutation => policy s' = Some (mutation_policy mutation) ∧
        policy_history s' = <[rev := mutation_policy mutation]> (policy_history s) ∧
        validate_policy_mutation (scope s) (policy s) (Some mutation) = Ok tt
    | None => policy s' = policy s ∧ policy_history s' = policy_history s
    end
}.
Lemma fresh_publishable s p ps rv : p_scope p = scope s → p_base_revision p = revision s →
  p_base_policy_version p = policy_version <$> policy s →
  p_changes p = into_changes (ps_records ps) →
  loop_ok (p_revision p) (records s) rv ps → can_publish s p = true.
Proof.
  intros Hs Hr Hv Hc Hl. apply can_publish_spec. split_and!; [done..|]. rewrite Hc.
  apply Forall_forall. intros c [_ ->]%elem_of_into_changes. by rewrite (lo_base _ _ _ _ Hl).
Qed.
Lemma commit_publish s tx rev d p : graph_inv s →
  prepare_transaction_with_digest sha256 s tx rev d = Some (Ok p) →
  ∃ ps s', publish p s = Some s' ∧ commit_effect s tx rev p ps s'.
Proof.
  intros Hi (dg & cs & pol & Hplan & Hps & Hpb & Hpv & Hpr & Hpc & Hpp)%prepared_Ok.
  apply plan_Ok in Hplan as (_ & Hnx & _ & _ & Hpol & -> & ps & Hfold & Hval & ->).
  pose proof (next_revision _ _ Hnx) as Hnext.
  assert (loop_ok rev (records s) (reverse (indexes s)) ps) as Hl.
  { destruct (gi_indexes _ Hi) as (_ & _ & _ & Hrv).
    eapply (loop_all rev _ _ (gi_keyed _ Hi) Hrv); [exact (loop_start rev _ _ (gi_keyed _ Hi) Hrv)|done]. }
  assert (can_publish s p = true) as Hcan by (eapply fresh_publishable; [done..|by rewrite Hpr]).
  assert (published s (foldl publish_change s (p_changes p)) (changes_map (p_changes p))) as Hpub.
  { apply can_publish_spec in Hcan as (_ & _ & _ & Hb).
    apply publish_changes; [apply (gi_keyed _ Hi)|apply (gi_indexes _ Hi)|..].
    - rewrite Hpc, into_changes_ids. apply btree_keys_NoDup.
    - apply Forall_forall. intros c Hc. rewrite Forall_forall in Hb. split; [by apply Hb|].
      rewrite Hpc in Hc. apply elem_of_into_changes in Hc as [Hc _].
      by destruct (lo_delta _ _ _ _ Hl _ _ Hc). }
  rewrite Hpc, into_changes_map in Hpub. destruct Hpub as [P1 P2 P3 P4 P5 P6 P7 P8].
  exists ps. unfold publish. rewrite Hcan, Hpp, Hpr, Hpc.
  assert (ov_changed (ps_records ps) ∪ records s = ov_map (ps_records ps)) as Hmap
    by (unfold ov_map; by rewrite (lo_base _ _ _ _ Hl)).
  rewrite Hmap in P5.
  destruct (tx_policy_mutation tx) as [mut|] eqn:Hmut; cbn [fmap option_fmap option_map];
    (eexists; split; [reflexivity|]; split; cbn; try done; rewrite ?Hmut, ?P3, ?P4; try done;
     by eapply next_valid; [| |]; [exact Hl|apply (gi_valid _ Hi)|]).
Qed.
Lemma commit_inv s tx rev p ps s' : graph_inv s → commit_effect s tx rev p ps s' → graph_inv s'.
Proof.
  intros Hi [Hl _ Hc [Hrev Hmax] Hv C1 C2 C3 C4 C5 C6 C7].
  assert (current s' = rev) as Hcur by (unfold current; by rewrite C2).
  assert (0 ≤ current s) as H0.
  { pose proof (gi_revision _ Hi) as H. unfold current. destruct (revision s); cbn; lia. }
  assert ((∀ q, policy s' = Some q → policy_scope q = scope s) ∧
    check_policy_history (scope s) rev None (btree_entries (policy_history s')) = Ok tt ∧
    last (btree_values (policy_history s')) = policy s') as (Q1 & Q2 & Q3).
  { destruct (tx_policy_mutation tx) as [mut|].
    - destruct C7 as (-> & -> & Hm). destruct (mutation_spec _ _ Hm) as [Hs Hlt].
      destruct (advance_policies s Hi rev Hrev _ Hs Hlt) as [? ?].
      split_and!; [by intros q [= <-]|done|done].
    - destruct C7 as [-> ->]. split_and!; [apply (gi_policy_scope _ Hi)| |apply (gi_policy_last _ Hi)].
      eapply check_policy_mono; [|apply (gi_policies _ Hi)]. lia. }
  split; rewrite ?C1, ?Hcur; try done.
  - by rewrite C3.
  - rewrite C3, C4. by eapply advance_dom.
  - rewrite C3, C4. by eapply advance_history.
  - rewrite C2. lia.
Qed.
End commits.

