(* ===== verification/GraphSamples.v ===== *)
(** * A worked graph

    Three transactions that create a small graph, accept a relationship and
    delete one of its ends with a cascade.  The theorems of the reducer are
    instantiated at the states they lead to. *)
From S2P Require Import Prelude Ids Value Codec Policy GraphRecord GraphCodec GraphIndex GraphState.

(** Prepare against the state, then publish. *)
Definition commit (sha256 : list byte → list byte) (s : GraphState) (tx : GraphTransaction)
    (rev : CommitRevision) : option GraphState :=
  match prepare_transaction sha256 s tx rev with
  | Some (Ok p) => publish p s
  | _ => None
  end.
(** Transactions at successive revisions. *)
Fixpoint run (sha256 : list byte → list byte) (s : GraphState) (txs : list GraphTransaction)
    (rev : CommitRevision) : option GraphState :=
  match txs with
  | [] => Some s
  | tx :: txs => s ← commit sha256 s tx rev; run sha256 s txs (rev + 1)
  end.

Definition graph_scope : NamespaceRef :=
  NamespaceRef_new (from_bytes (repeat x01 16)) (from_bytes (repeat x02 16)).
Definition graph_ref (b : byte) : RecordRef :=
  scoped_ref_new (ns_database graph_scope) (ns_namespace graph_scope) (from_bytes (repeat b 16)).
(** A stand-in for the hash: any function will do. *)
Definition graph_sha (bytes : list byte) : list byte := be_bytes 32 (zlen bytes).
Definition tx_create : GraphTransaction := GraphTransaction_new graph_scope
  [Create Absent (NEntity (mk_new_entity (graph_ref x01) (lit "person") 1 (VMap [])));
   Create Absent (NEntity (mk_new_entity (graph_ref x02) (lit "place") 1 (VMap [])));
   Create Absent (NEvidence (mk_new_evidence (graph_ref x03) (repeat x05 32) (lit "doc")));
   Create Absent (NRelationship (mk_new_relationship (graph_ref x04) (graph_ref x01)
     (graph_ref x02) (lit "at") (VMap []) [graph_ref x03] Unknown))].
Definition tx_accept : GraphTransaction := GraphTransaction_new graph_scope
  [ActOnRelationship (graph_ref x04) (EVersion 1) Accept None None].
Definition tx_delete : GraphTransaction := GraphTransaction_new graph_scope
  [DeleteEntity (graph_ref x02) (EVersion 1) (CascadeAndRetract 5) [graph_ref x04]].
Definition graph_at (txs : list GraphTransaction) : GraphState :=
  default (GraphState_new graph_scope) (run graph_sha (GraphState_new graph_scope) txs 1).
Definition graph_created : GraphState := graph_at [tx_create].
Definition graph_accepted : GraphState := graph_at [tx_create; tx_accept].
Definition graph_deleted : GraphState := graph_at [tx_create; tx_accept; tx_delete].
Lemma some_default {A} (d : A) (o : option A) :
  (if o is Some _ then true else false) = true → o = Some (default d o).
Proof. by destruct o. Qed.
Lemma graph_at_run txs :
  (if run graph_sha (GraphState_new graph_scope) txs 1 is Some _ then true else false) = true →
  run graph_sha (GraphState_new graph_scope) txs 1 = Some (graph_at txs).
Proof. apply some_default. Qed.
Lemma run_app sha256 s txs txs' rev :
  run sha256 s (txs ++ txs') rev = s' ← run sha256 s txs rev; run sha256 s' txs' (rev + zlen txs).
Proof.
  revert s rev. induction txs as [|tx txs IH]; intros s rev.
  { cbn [app]. by rewrite zlen_nil, Z.add_0_r. }
  cbn [app run]. destruct (commit sha256 s tx rev) as [s1|]; [|done]. cbn.
  rewrite IH, zlen_cons. by replace (rev + 1 + zlen txs) with (rev + (1 + zlen txs)) by lia.
Qed.
Lemma graph_created_run :
  run graph_sha (GraphState_new graph_scope) [tx_create] 1 = Some graph_created.
Proof. apply graph_at_run. vm_compute. reflexivity. Qed.
Lemma graph_accepted_run :
  run graph_sha (GraphState_new graph_scope) [tx_create; tx_accept] 1 = Some graph_accepted.
Proof. apply graph_at_run. vm_compute. reflexivity. Qed.
Lemma graph_deleted_run :
  run graph_sha (GraphState_new graph_scope) [tx_create; tx_accept; tx_delete] 1 = Some graph_deleted.
Proof. apply graph_at_run. vm_compute. reflexivity. Qed.
(** The later states continue the first. *)
Lemma run_split sha256 s txs txs' rev s1 s2 : run sha256 s txs rev = Some s1 →
  run sha256 s (txs ++ txs') rev = Some s2 → run sha256 s1 txs' (rev + zlen txs) = Some s2.
Proof. intros H1. by rewrite run_app, H1. Qed.
Lemma graph_continues :
  run graph_sha graph_created [tx_accept; tx_delete] (1 + zlen [tx_create]) = Some graph_deleted.
Proof. exact (run_split _ _ _ _ _ _ _ graph_created_run graph_deleted_run). Qed.
