(* ===== verification/GraphQuery.v ===== *)
(** * Graph reads and authorization requirements

    Models the traversal methods of [GraphSnapshot] and the
    [AuthorizedTransactionState] implementation of
    [crates/uste-graph/src/state.rs], the authorized projections of
    [crates/uste-graph/src/query.rs], and the read facade of
    [crates/uste-txn/src/authorized.rs] that supplies the candidate check.

    [authorize_candidate] is a pure predicate: the facade's closure only changes
    state on cancellation, and then the result is dropped. *)
From S2P Require Import Prelude Ids Value Codec Policy GraphRecord GraphCodec GraphIndex GraphState.
Import GraphError.

(** ** Traversal *)
Inductive AdjacencyDirection : Set := Outgoing | Incoming | Either.
#[global] Instance AdjacencyDirection_eq_dec : EqDecision AdjacencyDirection.
Proof. solve_decision. Defined.

(** The candidate sets of a direction, [None]s flattened away. *)
Definition candidate_sets (s : GraphSnapshot) (entity : RecordRef)
    (direction : AdjacencyDirection) : list (gset RecordRef) :=
  omap id
    [ (if decide (direction = Outgoing ∨ direction = Either)
       then outgoing (indexes s) !! entity else None);
      (if decide (direction = Incoming ∨ direction = Either)
       then incoming (indexes s) !! entity else None) ].
(** One visit: the counter saturates and the visit limit is checked before the
    insertion. *)
Definition visit_candidate (st : gset RecordRef * Z) (id : RecordRef) :
    result GraphError (gset RecordRef * Z) :=
  let visits := saturating_add st.2 1 in
  if MAX_TRAVERSAL_VISITS <? visits then Err ResourceLimit
  else Ok ({[ id ]} ∪ st.1, visits).
Definition candidate_relationship (s : GraphSnapshot) (id : RecordRef) :
    result GraphError RelationshipRecord :=
  match records s !! id with
  | Some (RRelationship relationship) => Ok relationship
  | _ => Err (IndexCorrupt id)
  end.
Definition adjacent_candidates (s : GraphSnapshot) (entity : RecordRef)
    (direction : AdjacencyDirection) : result GraphError (list RelationshipRecord) :=
  validate_scope (scope s) entity;;
  st ← try_fold (λ st candidates, try_fold visit_candidate (btree_elements candidates) st)
         (candidate_sets s entity direction) (∅, 0);
  try_map (candidate_relationship s) (btree_elements st.1).
Definition adjacent (s : GraphSnapshot) (entity : RecordRef) (direction : AdjacencyDirection)
    (maximum : Z) : result GraphError (list RelationshipRecord) :=
  validate_scope (scope s) entity;;
  if MAX_TRAVERSAL_RESULTS <? maximum then Err ResourceLimit
  else
    records ← adjacent_candidates s entity direction;
    if maximum <? zlen records then Err (ResultLimit (zlen records) maximum) else Ok records.
(** The enumerated loop over the provenance set. *)
Fixpoint collect_supported (s : GraphSnapshot) (index : Z) (ids : list RecordRef) :
    result GraphError (list GRecord) :=
  match ids with
  | [] => Ok []
  | id :: ids =>
      if index =? MAX_TRAVERSAL_VISITS then Err ResourceLimit
      else
        record ← ok_or (records s !! id) (IndexCorrupt id);
        rest ← collect_supported s (index + 1) ids;
        Ok (record :: rest)
  end.
Definition supported_candidates (s : GraphSnapshot) (evidence : RecordRef) :
    result GraphError (list GRecord) :=
  validate_scope (scope s) evidence;;
  match provenance (indexes s) !! evidence with
  | None => Ok []
  | Some ids => collect_supported s 0 (btree_elements ids)
  end.
Definition supported_by (s : GraphSnapshot) (evidence : RecordRef) (maximum : Z) :
    result GraphError (list GRecord) :=
  validate_scope (scope s) evidence;;
  if MAX_TRAVERSAL_RESULTS <? maximum then Err ResourceLimit
  else
    records ← supported_candidates s evidence;
    if maximum <? zlen records then Err (ResultLimit (zlen records) maximum) else Ok records.
Definition validate_derived_indexes (s : GraphSnapshot) : result GraphError unit :=
  if decide (rebuild_indexes (records s) = indexes s) then Ok tt else Err DerivedIndexMismatch.

(** ** Reference authorization *)
Definition value_references_are_authorized (value : Value) (authorize : RecordRef → bool) : bool :=
  forallb authorize (value_references value).
(** [option.is_none_or(f)]. *)
Definition is_none_or {A} (f : A → bool) (o : option A) : bool :=
  match o with Some a => f a | None => true end.

Section reads.
Context (authorize_candidate : Action → Target → bool).
Definition record_references_are_authorized (record : GRecord) : bool :=
  let authorize r := authorize_candidate ReadRecord (TRecord r) in
  match record with
  | REntity entity => value_references_are_authorized (e_properties entity) authorize
  | REvidence _ => true
  | RAssertion assertion =>
      authorize (a_subject assertion) && forallb authorize (a_evidence assertion)
      && is_none_or authorize (a_correction_of assertion)
      && value_references_are_authorized (a_object assertion) authorize
  | RRelationship relationship =>
      authorize (r_from relationship) && authorize (r_to relationship)
      && forallb authorize (r_evidence relationship)
      && is_none_or authorize (r_correction_of relationship)
      && value_references_are_authorized (r_properties relationship) authorize
  end.
Definition visible_record (record : option GRecord) : option GRecord :=
  r ← record; if record_references_are_authorized r then Some r else None.
End reads.

Inductive GraphReadRequest : Set :=
| ReqRecord (id : RecordRef)
| ReqRecordAt (id : RecordRef) (revision : CommitRevision)
| ReqAdjacent (entity : RecordRef) (direction : AdjacencyDirection) (maximum : Z)
| ReqSupportedBy (evidence : RecordRef) (maximum : Z).
Record GraphNeighbor : Set := mk_neighbor {
  neighbor_relationship : RelationshipRecord;
  neighbor_entity : EntityRecord
}.
Inductive GraphReadOutput : Set :=
| OutRecord (record : option GRecord)
| OutAdjacent (neighbors : list GraphNeighbor)
| OutSupported (records : list GRecord).

Section read_authorized.
Context (s : GraphSnapshot) (authorize_candidate : Action → Target → bool).

(** One candidate of the adjacency loop. *)
Definition adjacent_step (entity : RecordRef) (maximum : Z) (visible : list GraphNeighbor)
    (relationship : RelationshipRecord) : result GraphError (list GraphNeighbor) :=
  let allowed r := authorize_candidate ReadRecord (TRecord r)
                   && authorize_candidate ExpandGraph (TRecord r) in
  if negb (record_references_are_authorized authorize_candidate (RRelationship relationship))
  then Ok visible
  else if negb (allowed (r_id relationship)) then Ok visible
  else
    let neighbor := if decide (r_from relationship = entity) then r_to relationship
                    else r_from relationship in
    if negb (allowed neighbor) then Ok visible
    else
      match records s !! neighbor with
      | Some (REntity entity_record) =>
          if negb (record_references_are_authorized authorize_candidate (REntity entity_record))
          then Ok visible
          else if zlen visible =? maximum
          then Err (ResultLimit (saturating_add (zlen visible) 1) maximum)
          else Ok (visible ++ [mk_neighbor relationship entity_record])
      | _ => Err (IndexCorrupt neighbor)
      end.
Definition supported_step (maximum : Z) (visible : list GRecord) (record : GRecord) :
    result GraphError (list GRecord) :=
  if authorize_candidate ReadRecord (TRecord (record_id record))
     && record_references_are_authorized authorize_candidate record
  then if zlen visible =? maximum
       then Err (ResultLimit (saturating_add (zlen visible) 1) maximum)
       else Ok (visible ++ [record])
  else Ok visible.
Definition read_authorized (request : GraphReadRequest) : result GraphError GraphReadOutput :=
  match request with
  | ReqRecord id => Ok (OutRecord (visible_record authorize_candidate (records s !! id)))
  | ReqRecordAt id revision_ =>
      record ← snapshot_record_at s revision_ id;
      Ok (OutRecord (visible_record authorize_candidate record))
  | ReqAdjacent entity direction maximum =>
      if MAX_TRAVERSAL_RESULTS <? maximum then Err ResourceLimit
      else
        candidates ← adjacent_candidates s entity direction;
        visible ← try_fold (adjacent_step entity maximum) candidates [];
        Ok (OutAdjacent visible)
  | ReqSupportedBy evidence maximum =>
      if MAX_TRAVERSAL_RESULTS <? maximum then Err ResourceLimit
      else
        candidates ← supported_candidates s evidence;
        visible ← try_fold (supported_step maximum) candidates [];
        Ok (OutSupported visible)
  end.
End read_authorized.

(** ** Requirements *)

(** The derived [Ord] of [Action] follows the discriminants. *)
#[global] Instance Action_countable : Countable Action.
Proof.
  apply (inj_countable (λ a, Z.to_N (action_index a)) (λ n, list_find (λ a,
    Z.to_N (action_index a) = n) [ReadRecord; ReadHistory; ExpandGraph; Search; Aggregate; ReadBlob;
      Export; Commit; StartUpload; ResumeUpload; WriteUpload; FinishUpload; AbortUpload;
      ReadOwnOutcome; ReadAllOutcomes; InspectQuota; EvaluateBranch; Subscribe; ManagePolicy;
      ManageSchema; Import; Promote; ManageRetention; ManageKeys; ExecuteProcedure] ≫=
    λ p, Some p.2)).
  by intros [].
Defined.
#[global] Instance Action_lexico : Lexico Action := λ a b, lexico (action_index a) (action_index b).
#[global] Instance Action_lexico_po : StrictOrder (@lexico Action _).
Proof.
  split.
  - intros a Ha. by apply (irreflexivity Z.lt (action_index a)).
  - intros a b c Hab Hbc. by apply (Z.lt_trans _ (action_index b)).
Qed.
#[global] Instance Action_lexico_trichotomy : TrichotomyT (@lexico Action _).
Proof.
  red; refine (λ a b, cast_trichotomy (trichotomyT lexico (action_index a) (action_index b)));
    abstract (first [done | destruct a, b; first [reflexivity|discriminate]]).
Defined.
Abbreviation requirement_set := (gset (Action * RecordRef)).
(** Insert each pair of a list. *)
Definition require (pairs : list (Action * RecordRef)) (output : requirement_set) :
    requirement_set := foldl (λ out p, {[ p ]} ∪ out) output pairs.
Definition collect_value (value : Value) : requirement_set → requirement_set :=
  require (map (λ r, (ReadRecord, r)) (value_references value)).
Definition collect_expected (expected : Expected) : requirement_set → requirement_set :=
  match expected with
  | ReadView _ predicate =>
      let record := predicate_record predicate in
      require [(ReadRecord, record); (ReadHistory, record)]
  | _ => λ output, output
  end.
Definition collect_assertion (assertion : NewAssertion) (output : requirement_set) :
    requirement_set :=
  collect_value (na_object assertion)
    (require ((ReadRecord, na_subject assertion)
                :: map (λ r, (ReadRecord, r)) (na_evidence assertion)) output).
Definition collect_relationship (relationship : NewRelationship) (output : requirement_set) :
    requirement_set :=
  collect_value (nr_properties relationship)
    (require ((ReadRecord, nr_from relationship) :: (ReadRecord, nr_to relationship)
                :: map (λ r, (ReadRecord, r)) (nr_evidence relationship)) output).
Definition collect_new_record (record : NewRecord) (output : requirement_set) : requirement_set :=
  match record with
  | NEntity entity => collect_value (ne_properties entity) output
  | NEvidence _ => output
  | NAssertion assertion => collect_assertion assertion output
  | NRelationship relationship => collect_relationship relationship output
  end.
Definition collect_operation_references (operation : Operation) (output : requirement_set) :
    requirement_set :=
  let output := collect_expected (operation_expected operation) output in
  match operation with
  | Create _ record => collect_new_record record output
  | ReplaceEntity _ _ properties => collect_value properties output
  | ActOnAssertion _ _ _ correction correction_expected =>
      let output :=
        match correction with
        | Some correction =>
            collect_assertion correction
              (require [(Commit, na_id correction); (ReadRecord, na_id correction)] output)
        | None => output
        end in
      match correction_expected with
      | Some expected => collect_expected expected output
      | None => output
      end
  | ActOnRelationship _ _ _ correction correction_expected =>
      let output :=
        match correction with
        | Some correction =>
            collect_relationship correction
              (require [(Commit, nr_id correction); (ReadRecord, nr_id correction)] output)
        | None => output
        end in
      match correction_expected with
      | Some expected => collect_expected expected output
      | None => output
      end
  | DeleteEntity _ _ _ affected =>
      require (flat_map (λ r, [(ReadRecord, r); (Commit, r)]) affected) output
  end.
Definition operation_requirements (output : requirement_set) (operation : Operation) :
    requirement_set :=
  let target := operation_target operation in
  collect_operation_references operation (require [(Commit, target); (ReadRecord, target)] output).
Definition to_requirement (p : Action * RecordRef) : AuthorizationRequirement :=
  mk_requirement p.1 (TRecord p.2).
Definition authorization_requirements {B} (canonical_request : list byte)
    (blob_inventory : option B) : result ApplyError (list AuthorizationRequirement) :=
  match blob_inventory with
  | Some _ => Err ApplyError.InvalidRequest
  | None =>
      transaction ← map_err (λ _, ApplyError.InvalidRequest) (decode_transaction canonical_request);
      map_err into_apply_error (validate_request_limits transaction);;
      let requirements := foldl operation_requirements ∅ (tx_operations transaction) in
      let policy_requirement :=
        match tx_policy_mutation transaction with
        | Some _ => [mk_requirement ManagePolicy (TNamespace (tx_scope transaction))]
        | None => []
        end in
      map_err (λ _, ApplyError.ResourceLimit)
        (AuthorizationRequirements_new
           (map to_requirement (btree_elements requirements) ++ policy_requirement))
  end.
Definition durable_policy_change (canonical_request : list byte) :
    result ApplyError (option (PolicyVersion * NamespacePolicy)) :=
  transaction ← map_err (λ _, ApplyError.InvalidRequest) (decode_transaction canonical_request);
  match tx_policy_mutation transaction with
  | Some (Install _) => Err ApplyError.InvalidRequest
  | Some (Replace expected policy) => Ok (Some (expected, policy))
  | None => Ok None
  end.
Definition read_requirement_set (request : GraphReadRequest) : requirement_set :=
  match request with
  | ReqRecord id => require [(ReadRecord, id)] ∅
  | ReqRecordAt id _ => require [(ReadRecord, id); (ReadHistory, id)] ∅
  | ReqAdjacent entity _ _ => require [(ReadRecord, entity); (ExpandGraph, entity)] ∅
  | ReqSupportedBy evidence _ => require [(ReadRecord, evidence); (ExpandGraph, evidence)] ∅
  end.
Definition read_authorization_requirements (request : GraphReadRequest) :
    result ApplyError (list AuthorizationRequirement) :=
  map_err (λ _, ApplyError.ResourceLimit)
    (AuthorizationRequirements_new (map to_requirement (btree_elements (read_requirement_set request)))).

(** ** The read facade

    [AuthorizedCoordinator::read]: [read_cancellable] with [NeverCancel].  The
    coordinator is reduced to what a read consults: its policy kernel, the scope
    of its state, whether its last outcome is uncertain, and the instance token
    that ties a view to it. *)
Inductive TransactionError (StorageError : Type) : Type :=
| TxConflict | TxSourceChanged | TxInvalidRequest | TxResourceLimit | TxUnsupportedPredicate
| TxCancelled | TxOutcomeUnknown | TxIdempotencyExpired | TxRevisionExhausted
| TxIntegrityFailure | TxRetryableUnavailable | TxStorage (e : StorageError).
Arguments TxConflict {_}. Arguments TxSourceChanged {_}. Arguments TxInvalidRequest {_}.
Arguments TxResourceLimit {_}. Arguments TxUnsupportedPredicate {_}. Arguments TxCancelled {_}.
Arguments TxOutcomeUnknown {_}. Arguments TxIdempotencyExpired {_}.
Arguments TxRevisionExhausted {_}. Arguments TxIntegrityFailure {_}.
Arguments TxRetryableUnavailable {_}. Arguments TxStorage {_} e.
Inductive AuthorizedError (StorageError : Type) : Type :=
| AuthUnauthorized | AuthResourceLimit | AuthStalePolicy | AuthInvalidPolicy
| AuthIntegrityFailure | AuthTransaction (e : TransactionError StorageError).
Arguments AuthUnauthorized {_}. Arguments AuthResourceLimit {_}. Arguments AuthStalePolicy {_}.
Arguments AuthInvalidPolicy {_}. Arguments AuthIntegrityFailure {_}.
Arguments AuthTransaction {_} e.
Inductive AuthorizedReadError (StorageError : Type) : Type :=
| ReadAuthorization (e : AuthorizedError StorageError)
| ReadDomain (e : GraphError).
Arguments ReadAuthorization {_} e. Arguments ReadDomain {_} e.

Section facade.
Context {StorageError : Type}.
Definition from_policy_error (e : PolicyError) : AuthorizedError StorageError :=
  match e with
  | Unauthorized => AuthUnauthorized
  | Policy.ResourceLimit => AuthResourceLimit
  | InvalidPolicy => AuthInvalidPolicy
  | StalePolicy => AuthStalePolicy
  end.
Definition map_requirement_error (e : ApplyError) : AuthorizedError StorageError :=
  AuthTransaction
    (match e with
     | ApplyError.Conflict => TxConflict
     | ApplyError.SourceChanged => TxSourceChanged
     | ApplyError.InvalidRequest => TxInvalidRequest
     | ApplyError.ResourceLimit => TxResourceLimit
     | ApplyError.UnsupportedPredicate => TxUnsupportedPredicate
     end).
Record ReadCoordinator : Set := mk_coordinator {
  co_policy : PolicyKernel;
  co_scope : NamespaceRef;
  co_uncertain : bool;
  co_instance : nat
}.
Record AuthorizedReadView : Set := mk_read_view {
  rv_state : GraphSnapshot;
  rv_lease : AuthorizationLease;
  rv_instance : nat
}.
Definition authorization {A} (r : result PolicyError A) :
    result (AuthorizedReadError StorageError) A :=
  map_err (λ e, ReadAuthorization (from_policy_error e)) r.
Definition check_requirement (co : ReadCoordinator) (principal : AuthenticatedPrincipal)
    (requirement : AuthorizationRequirement) : result (AuthorizedReadError StorageError) unit :=
  if negb (bool_decide (Target_scope (req_target requirement) = co_scope co))
  then Err (ReadAuthorization AuthUnauthorized)
  else authorization (authorize (co_policy co) principal (req_action requirement)
         (req_target requirement));; Ok tt.
Definition candidate_authorized (co : ReadCoordinator) (principal : AuthenticatedPrincipal)
    (action : Action) (target : Target) : bool :=
  bool_decide (Target_scope target = co_scope co)
  && is_ok (authorize (co_policy co) principal action target).
Definition coordinator_read (co : ReadCoordinator) (principal : AuthenticatedPrincipal)
    (view : AuthorizedReadView) (request : GraphReadRequest) :
    result (AuthorizedReadError StorageError) GraphReadOutput :=
  if co_uncertain co then Err (ReadAuthorization (AuthTransaction TxOutcomeUnknown))
  else if negb (bool_decide (co_instance co = rv_instance view))
  then Err (ReadAuthorization AuthUnauthorized)
  else
    authorization (revalidate (co_policy co) (rv_lease view));;
    requirements ← map_err (λ e, ReadAuthorization (map_requirement_error e))
      (read_authorization_requirements request);
    try_each (check_requirement co principal) requirements;;
    map_err ReadDomain
      (read_authorized (rv_state view) (candidate_authorized co principal) request).
End facade.
