(* ===== verification/GraphGuarantees.v ===== *)
(** * What the graph reducer guarantees

    States reachable from an empty graph by preparing and publishing
    transactions, and the theorems about them. *)
From S2P Require Import Prelude Ids Value Codec Policy GraphRecord GraphCodec GraphIndex GraphState GraphValidity GraphCheckpoint GraphOperations GraphPublish GraphReachable GraphSamples GraphQuery.

Inductive commits (sha256 : list byte → list byte) : GraphState → GraphState → Prop :=
| commits_refl s : commits sha256 s s
| commits_step s s1 s2 tx rev d p :
    commits sha256 s s1 →
    prepare_transaction_with_digest sha256 s1 tx rev d = Some (Ok p) →
    publish p s1 = Some s2 → commits sha256 s s2.
(** Reachable from the empty graph of a scope. *)
Definition reachable (sha256 : list byte → list byte) (sc : NamespaceRef) (s : GraphState) : Prop :=
  commits sha256 (GraphState_new sc) s.

Section reachable.
Context (sha256 : list byte → list byte).
Lemma commits_inv s s' : graph_inv s → commits sha256 s s' → graph_inv s' ∧ scope s' = scope s.
Proof.
  intros Hi. induction 1 as [|s s1 s2 tx rev d p _ IH Hp Hpub]; [done|].
  destruct (IH Hi) as [Hi1 <-]. destruct (commit_publish _ _ _ _ _ _ Hi1 Hp) as (ps & s2' & H2 & Hc).
  rewrite Hpub in H2. injection H2 as <-. split; [by eapply commit_inv|]. by apply (ce_scope _ _ _ _ _ _ Hc).
Qed.
Lemma reachable_inv sc s : reachable sha256 sc s → graph_inv s ∧ scope s = sc.
Proof. apply commits_inv, graph_inv_new. Qed.
Lemma reachable_commit sc s tx rev d p s' : reachable sha256 sc s →
  prepare_transaction_with_digest sha256 s tx rev d = Some (Ok p) → publish p s = Some s' →
  reachable sha256 sc s'.
Proof. intros Hr Hp Hpub. by eapply commits_step. Qed.
End reachable.

(** ** Restoring a reachable state *)
Lemma zip_same {A} (l : list A) `{EqDecision A} :
  forallb (λ p, bool_decide (p.1 = p.2)) (zip l l) = true.
Proof. induction l as [|x l IH]; [done|]. cbn. by rewrite bool_decide_eq_true_2. Qed.
Lemma same_dom_keys {V W} (m1 : gmap RecordRef V) (m2 : gmap RecordRef W) :
  dom m1 = dom m2 → btree_keys m1 = btree_keys m2 ∧ map_len m1 = map_len m2.
Proof.
  intros Hd. split.
  - apply sorted_strict_unique; [apply btree_keys_sorted..|].
    intros k. rewrite !elem_of_btree_keys, <-!elem_of_dom. by rewrite Hd.
  - unfold map_len. by rewrite <-!size_dom, Hd.
Qed.
Lemma inv_restores s rev : graph_inv s → revision s = Some rev →
  from_persisted_parts (scope s) rev (records s) (history s) (policy s) (policy_history s) = Ok s.
Proof.
  intros Hi Hrev. assert (current s = rev) as Hcur by (unfold current; by rewrite Hrev).
  unfold from_persisted_parts, from_persisted_parts_inner.
  destruct (same_dom_keys (history s) (records s) (gi_dom _ Hi)) as [Hkeys Hlen].
  rewrite Hkeys, Hlen, Z.eqb_refl, zip_same. cbn [orb negb].
  destruct (existsb _ _) eqn:He.
  { exfalso. apply existsb_exists in He as ([id r] & Hin%list_elem_of_In%elem_of_btree_entries & He).
    rewrite (gi_keyed _ Hi id r Hin), bool_decide_eq_true_2 in He by done.
    destruct (history s !! id) as [vs|] eqn:Hh.
    2:{ apply (history_None _ Hi) in Hh. congruence. }
    destruct (history_Some _ Hi _ _ Hh) as (_ & Hc%check_versions_all & _ & Hlast).
    rewrite Hin in Hlast. symmetry in Hlast. rewrite Forall_forall in Hc.
    destruct (Hc r (last_Some_elem_of _ _ Hlast)) as [? _]. cbn [negb orb] in He. lia. }
  assert (try_each (check_history (scope s) rev (records s)) (btree_entries (history s)) = Ok tt) as ->.
  { apply try_each_Ok, Forall_forall. intros [id vs] Hin%elem_of_btree_entries.
    rewrite <-Hcur. by apply (gi_history _ Hi) in Hin as [? _]. }
  assert (validate_historical_reference_closure (history s) = Ok tt) as ->.
  { apply try_each_Ok, Forall_forall. intros vs (id & Hin)%elem_of_btree_values.
    by apply (gi_history _ Hi) in Hin as [_ ?]. }
  cbn [mbind result_bind].
  destruct (match policy s with Some _ => _ | None => _ end) eqn:Hps.
  { destruct (policy s) as [p|] eqn:Hp; [|done].
    by rewrite (gi_policy_scope _ Hi p Hp), bool_decide_eq_true_2 in Hps. }
  rewrite <-Hcur, (gi_policies _ Hi), (gi_policy_last _ Hi), bool_decide_eq_true_2 by done.
  cbn [mbind result_bind negb].
  rewrite (proj2 (validate_state_Ok _ _) (gi_valid _ Hi)). cbn [invalid map_err mbind result_bind].
  rewrite (indexes_unique _ _ _ (rebuild_ok _ (gi_keyed _ Hi)) (gi_indexes _ Hi)), Hcur, <-Hrev.
  by destruct s.
Qed.
(** ** Lemmas for single commits *)
Section commit_lemmas.
Context (sha256 : list byte → list byte).
Lemma commit_known s tx rev d p s' : graph_inv s →
  prepare_transaction_with_digest sha256 s tx rev d = Some (Ok p) → publish p s = Some s' →
  ∃ ps, commit_effect s tx rev p ps s'.
Proof.
  intros Hi Hp Hpub. destruct (commit_publish _ _ _ _ _ _ Hi Hp) as (ps & s2 & H2 & Hc).
  rewrite Hpub in H2. injection H2 as <-. by exists ps.
Qed.
Lemma commit_record s tx rev p ps s' id : commit_effect s tx rev p ps s' →
  match records s !! id with
  | None => records s' !! id = None ∨ ∃ r', records s' !! id = Some r' ∧ record_first rev r'
  | Some r => ∃ r', records s' !! id = Some r' ∧ (r' = r ∨ record_step rev r r')
  end.
Proof.
  intros Hc. pose proof (ce_loop _ _ _ _ _ _ Hc) as Hl. rewrite (ce_records _ _ _ _ _ _ Hc).
  destruct (records s !! id) as [r|] eqn:Hr.
  - destruct (next_cases _ _ _ _ Hl id r Hr) as [[_ H]|(_ & r' & _ & H & Hs)]; eauto.
  - destruct (ov_changed (ps_records ps) !! id) as [r'|] eqn:Hm.
    + right. exists r'. split; [by apply next_changed|].
      destruct (lo_delta _ _ _ _ Hl id r' Hm) as [_ [(_ & Hf & _)|(r & Hr' & _)]]; [done|congruence].
    + left. by rewrite (next_same _ _ _ Hl _ Hm).
Qed.
Lemma commit_past s tx rev p ps s' : graph_inv s → commit_effect s tx rev p ps s' →
  ∀ q id, q ≤ current s → record_at (history s') id q = record_at (history s) id q.
Proof.
  intros Hi Hc q id Hq. rewrite (ce_history _ _ _ _ _ _ Hc).
  destruct (ce_revision _ _ _ _ _ _ Hc) as [Hr _]. eapply at_past; [done|apply Hc|done].
Qed.
Lemma commit_policies s tx rev p ps s' q : graph_inv s → commit_effect s tx rev p ps s' →
  q ≤ current s →
  filter (λ e, e.1 ≤ q) (btree_entries (policy_history s')) =
  filter (λ e, e.1 ≤ q) (btree_entries (policy_history s)).
Proof.
  intros Hi Hc Hq. pose proof (ce_policy _ _ _ _ _ _ Hc) as Hp.
  destruct (ce_revision _ _ _ _ _ _ Hc) as [Hr _]. destruct (tx_policy_mutation tx) as [mut|].
  - destruct Hp as (_ & -> & _). rewrite (policies_snoc s Hi rev Hr), filter_app.
    rewrite filter_cons_False by (cbn; lia). by rewrite filter_nil, app_nil_r.
  - by destruct Hp as [_ ->].
Qed.
Lemma commit_current s tx rev p ps s' : commit_effect s tx rev p ps s' →
  current s' = current s + 1.
Proof.
  intros Hc. destruct (ce_revision _ _ _ _ _ _ Hc) as [Hr _].
  unfold current at 1. by rewrite (ce_revision' _ _ _ _ _ _ Hc).
Qed.
Lemma run_commits s txs rev s' : run sha256 s txs rev = Some s' → commits sha256 s s'.
Proof.
  assert (∀ s0 s, commits sha256 s0 s → run sha256 s txs rev = Some s' → commits sha256 s0 s') as H.
  { revert rev. induction txs as [|tx txs IH]; intros rev s0 s1 H0 H; [by injection H as <-|].
    cbn in H. unfold commit in H.
    destruct (prepare_transaction sha256 s1 tx rev) as [[p|]|] eqn:Hp; try done.
    destruct (publish p s1) as [s2|] eqn:Hpub; [|done]. cbn in H. eapply IH; [|done].
    by eapply commits_step. }
  apply H, commits_refl.
Qed.
End commit_lemmas.
Lemma modified_past s id r : graph_inv s → records s !! id = Some r → modified_revision r ≤ current s.
Proof.
  intros Hi Hr. destruct (history s !! id) as [vs|] eqn:Hh.
  2:{ apply (history_None _ Hi) in Hh. congruence. }
  destruct (history_Some _ Hi _ _ Hh) as (_ & Hc%check_versions_all & _ & Hlast).
  rewrite Hr in Hlast. symmetry in Hlast. rewrite Forall_forall in Hc.
  by destruct (Hc r (last_Some_elem_of _ _ Hlast)).
Qed.
(** A revision that may be read. *)
Lemma known_view {A} s q (e k : A) :
  (if unknown_view (revision s) q then e else k) =
  (if decide (revision s ≠ None ∧ q ≤ current s) then k else e).
Proof.
  unfold unknown_view, current. destruct (revision s) as [c|]; cbn.
  - destruct (Z.ltb_spec c q); [rewrite decide_False by (intros [_ ?]; lia)|rewrite decide_True by (by split)];
      done.
  - rewrite decide_False; [done|]. by intros [? _].
Qed.
Lemma reads_known s q id r : snapshot_record_at s q id = Ok r ↔
  ref_scope id = scope s ∧ (revision s ≠ None ∧ q ≤ current s) ∧ record_at (history s) id q = r.
Proof.
  unfold snapshot_record_at. rewrite then_Ok, validate_scope_Ok, known_view. case_decide; naive_solver.
Qed.
Lemma commits_past sha256 s s' : graph_inv s → commits sha256 s s' →
  current s ≤ current s' ∧
  (∀ q id, q ≤ current s → record_at (history s') id q = record_at (history s) id q) ∧
  (∀ q, q ≤ current s → filter (λ e, e.1 ≤ q) (btree_entries (policy_history s')) =
     filter (λ e, e.1 ≤ q) (btree_entries (policy_history s))) ∧
  (revision s ≠ None → revision s' ≠ None).
Proof.
  intros Hi Hc. induction Hc as [s|s s1 s2 tx rev d p Hc IH Hp Hpub]; [done|].
  destruct (IH Hi) as (Hle & Hat & Hpol & Hne). destruct (commits_inv _ _ _ Hi Hc) as [Hi1 _].
  destruct (commit_known _ _ _ _ _ _ _ Hi1 Hp Hpub) as (ps & Heff).
  pose proof (commit_current _ _ _ _ _ _ Heff) as Hcur. split_and!; [lia|..].
  - intros q id Hq. rewrite (commit_past _ _ _ _ _ _ Hi1 Heff) by lia. by apply Hat.
  - intros q Hq. rewrite (commit_policies _ _ _ _ _ _ q Hi1 Heff) by lia. by apply Hpol.
  - by rewrite (ce_revision' _ _ _ _ _ _ Heff).
Qed.
Lemma published_view p s s' : publish p s = Some s' → prepared_view s p = Ok (mk_view s (p_changes p)).
Proof.
  unfold publish, can_publish. destruct (prepared_view s p) as [v|] eqn:Hv; [|done]. intros _.
  unfold prepared_view in Hv. destruct (_ || _); [done|]. by injection Hv as <-.
Qed.
Lemma find_change ov id :
  match list_find (λ c, change_id c = id) (into_changes ov) with
  | Some (_, c) => change_id c = id ∧ ov_changed ov !! id = Some (change_after c)
  | None => ov_changed ov !! id = None
  end.
Proof.
  destruct (list_find _ _) as [[i c]|] eqn:Hf.
  - apply list_find_Some in Hf as (Hl & Hid & _). split; [done|].
    apply list_elem_of_lookup_2, elem_of_into_changes in Hl as [Hl _]. by rewrite <-Hid.
  - apply list_find_None in Hf. destruct (ov_changed ov !! id) as [r|] eqn:Hm; [|done].
    rewrite Forall_forall in Hf. destruct (Hf (mk_change id (ov_base ov !! id) r)); [|done].
    unfold into_changes. apply list_elem_of_fmap. exists (id, r). split; [done|].
    by apply elem_of_btree_entries.
Qed.

(** ** The guarantees *)

(** C1: every reachable state is restorable.  Handing the parts a checkpoint
    persists to [from_persisted_parts] - which re-validates version numbering,
    history chains, historical reference closure, policy history and the whole
    record state, and rebuilds the indexes - returns exactly the live state. *)
Theorem reachable_restores sha256 sc s rev : reachable sha256 sc s → revision s = Some rev →
  from_persisted_parts sc rev (records s) (history s) (policy s) (policy_history s) = Ok s.
Proof.
  intros Hr Hrev. destruct (reachable_inv _ _ _ Hr) as [Hi <-]. by apply inv_restores.
Qed.
Lemma graph_deleted_reachable : reachable graph_sha graph_scope graph_deleted.
Proof. exact (run_commits _ _ _ _ _ graph_deleted_run). Qed.
Lemma graph_accepted_reachable : reachable graph_sha graph_scope graph_accepted.
Proof. exact (run_commits _ _ _ _ _ graph_accepted_run). Qed.
Lemma graph_created_reachable : reachable graph_sha graph_scope graph_created.
Proof. exact (run_commits _ _ _ _ _ graph_created_run). Qed.
Lemma reachable_restores_witness :
  from_persisted_parts graph_scope 3 (records graph_deleted) (history graph_deleted)
    (policy graph_deleted) (policy_history graph_deleted) = Ok graph_deleted.
Proof.
  apply (reachable_restores graph_sha); [exact graph_deleted_reachable|]. vm_compute. reflexivity.
Defined.

(** C10: a prepared transaction publishes on its base state and its view shows the
    outcome.  The changes are in strict identifier order, the revision is the
    next one, publication cannot hit its assertion, the prepared view reads
    every record as it is after publication, and each changed record gains
    exactly one version. *)
Theorem commit_exact sha256 sc s tx rev d p : reachable sha256 sc s →
  prepare_transaction_with_digest sha256 s tx rev d = Some (Ok p) →
  ∃ v s', prepared_view s p = Ok v ∧ publish p s = Some s' ∧
    revision s' = Some rev ∧ rev = default 0 (revision s) + 1 ∧
    StronglySorted lexico (change_id <$> p_changes p) ∧
    ∀ id, records s' !! id = view_record v id ∧
      history s' !! id =
        match list_find (λ c, change_id c = id) (p_changes p) with
        | Some (_, c) => Some (default [] (history s !! id) ++ [change_after c])
        | None => history s !! id
        end.
Proof.
  intros Hr Hp. destruct (reachable_inv _ _ _ Hr) as [Hi <-].
  destruct (commit_publish _ _ _ _ _ _ Hi Hp) as (ps & s' & Hpub & Hc).
  exists (mk_view s (p_changes p)), s'. split; [by eapply published_view|].
  split_and!; [done|apply Hc|apply (ce_revision _ _ _ _ _ _ Hc)| |].
  - rewrite (ce_changes _ _ _ _ _ _ Hc), into_changes_ids. apply btree_keys_sorted.
  - intros id. unfold view_record. cbn [view_changes view_base].
    rewrite (ce_records _ _ _ _ _ _ Hc), (ce_history _ _ _ _ _ _ Hc).
    rewrite lookup_append_versions, (ce_changes _ _ _ _ _ _ Hc).
    pose proof (ce_loop _ _ _ _ _ _ Hc) as Hl. pose proof (find_change (ps_records ps) id) as Hf.
    destruct (list_find _ _) as [[i c]|].
    + destruct Hf as [_ Hm]. rewrite Hm. split; [by apply next_changed|done].
    + rewrite Hf. split; [by eapply next_same|done].
Qed.
Lemma commit_exact_witness : ∃ p s',
  prepare_transaction graph_sha graph_accepted tx_delete 3 = Some (Ok p) ∧
  publish p graph_accepted = Some s' ∧
  revision s' = Some 3.
Proof.
  pose proof (some_default (Err GraphError.ResourceLimit)
    (prepare_transaction graph_sha graph_accepted tx_delete 3)) as Hp.
  assert (is_ok (default (Err GraphError.ResourceLimit)
    (prepare_transaction graph_sha graph_accepted tx_delete 3)) = true) as Hok
    by (vm_compute; reflexivity).
  specialize (Hp ltac:(vm_compute; reflexivity)).
  destruct (default _ _) as [p|]; [|done].
  destruct (commit_exact graph_sha graph_scope graph_accepted tx_delete 3 None p) as
    (v & s' & _ & Hpub & Hrev & _).
  - exact graph_accepted_reachable.
  - exact Hp.
  - exists p, s'. split; [exact Hp|]. split; [exact Hpub|exact Hrev].
Defined.

(** No step leaves these records. *)
Definition terminal (r : GRecord) : bool :=
  match r with
  | REntity e => bool_decide (e_lifecycle e = Deleted)
  | REvidence _ => true
  | RAssertion a => negb (is_open (a_status a))
  | RRelationship x => negb (is_open (r_status x))
  end.
Lemma terminal_no_step rev r r' : record_step rev r r' → terminal r = false.
Proof.
  destruct 1 as [e p v Ha _|e v Ha _|a st v Ht _|x st v Ht _]; cbn.
  - rewrite Ha. by apply bool_decide_eq_false_2.
  - rewrite Ha. by apply bool_decide_eq_false_2.
  - by destruct (a_status a).
  - by destruct (r_status x).
Qed.
(** C13: records live by their state machine.  Over any sequence of commits a record
    never disappears and keeps its identity and kind, its version never
    decreases and its modification revision never moves back; and a deleted
    entity, an evidence record or a closed claim (rejected, disputed,
    superseded, retracted or expired) never changes again. *)
Theorem record_lifecycle sha256 sc s s' id r : reachable sha256 sc s → commits sha256 s s' →
  records s !! id = Some r →
  ∃ r', records s' !! id = Some r' ∧ record_id r' = id ∧ same_kind r r' = true ∧
    record_version r ≤ record_version r' ∧ modified_revision r ≤ modified_revision r' ∧
    (terminal r = true → r' = r).
Proof.
  intros Hr Hc Hrec. destruct (reachable_inv _ _ _ Hr) as [Hi _].
  induction Hc as [s|s s1 s2 tx rev d p Hc IH Hp Hpub].
  { exists r. split_and!; try done; [by apply (gi_keyed _ Hi)|by destruct r]. }
  destruct (IH Hr Hrec Hi) as (r1 & Hr1 & Hid1 & Hk1 & Hv1 & Hm1 & Ht1).
  destruct (commits_inv _ _ _ Hi Hc) as [Hi1 _].
  destruct (commit_known _ _ _ _ _ _ _ Hi1 Hp Hpub) as (ps & Heff).
  pose proof (commit_record _ _ _ _ _ _ id Heff) as Hstep. rewrite Hr1 in Hstep.
  destruct Hstep as (r2 & Hr2 & [->|Hs]); [by exists r1|].
  exists r2. pose proof (record_step_version _ _ _ Hs) as (Hv & _ & Hm & _).
  split_and!; [done|by rewrite (record_step_id _ _ _ Hs)| |lia| |].
  - pose proof (record_step_kind _ _ _ Hs). by destruct r, r1, r2.
  - pose proof (modified_past _ _ _ Hi1 Hr1) as Hpast.
    destruct (ce_revision _ _ _ _ _ _ Heff). lia.
  - intros Ht. rewrite (Ht1 Ht) in Hs. apply terminal_no_step in Hs. congruence.
Qed.
Lemma graph_commits : commits graph_sha graph_created graph_deleted.
Proof. exact (run_commits _ _ _ _ _ graph_continues). Qed.
Lemma record_lifecycle_witness : ∃ r r',
  records graph_created !! graph_ref x04 = Some r ∧
  records graph_deleted !! graph_ref x04 = Some r' ∧ same_kind r r' = true.
Proof.
  assert ((if records graph_created !! graph_ref x04 is Some _ then true else false) = true) as Hs
    by (vm_compute; reflexivity).
  destruct (records graph_created !! graph_ref x04) as [r|] eqn:Hr; [|discriminate].
  destruct (record_lifecycle graph_sha graph_scope graph_created graph_deleted (graph_ref x04) r
    graph_created_reachable graph_commits Hr) as (r' & Hr' & _ & Hk & _).
  exists r, r'. split; [reflexivity|]. split; [exact Hr'|exact Hk].
Defined.

(** C14: what was readable at a revision stays readable unchanged.  A successful
    historical read of a record or of the namespace policy returns the same
    answer in every later state, and reading at the current revision is reading
    the current record. *)
Theorem history_immutable sha256 sc s s' : reachable sha256 sc s → commits sha256 s s' →
  (∀ q id r, snapshot_record_at s q id = Ok r → snapshot_record_at s' q id = Ok r) ∧
  (∀ q p, namespace_policy_at s q = Ok p → namespace_policy_at s' q = Ok p) ∧
  (∀ rev id, revision s = Some rev → ref_scope id = sc →
     snapshot_record_at s rev id = Ok (records s !! id)).
Proof.
  intros Hr Hc. destruct (reachable_inv _ _ _ Hr) as [Hi Hsc]. split_and!.
  - intros q id r H. apply reads_known in H as (Hs & Hq & <-). apply reads_known.
    destruct (commits_past _ _ _ Hi Hc) as (Hle & Hat & _ & Hne).
    rewrite Hat by tauto. destruct (commits_inv _ _ _ Hi Hc) as [_ ->].
    split_and!; [done|tauto|lia|done].
  - intros q p. unfold namespace_policy_at. rewrite !known_view.
    destruct (commits_past _ _ _ Hi Hc) as (Hle & _ & Hpol & Hne).
    destruct (decide (revision s ≠ None ∧ q ≤ current s)) as [[Hn Hq]|]; [|done].
    rewrite decide_True by (split; [tauto|lia]). by rewrite Hpol.
  - intros rev id Hrev Hid. apply reads_known. rewrite Hsc. unfold current.
    rewrite Hrev. split_and!; [done|done|done|].
    rewrite <-(record_at_current s id Hi). unfold current. by rewrite Hrev.
Qed.
Lemma history_immutable_witness :
  snapshot_record_at graph_created 1 (graph_ref x04) = snapshot_record_at graph_deleted 1 (graph_ref x04).
Proof.
  assert (is_ok (snapshot_record_at graph_created 1 (graph_ref x04)) = true) as Hok
    by (vm_compute; reflexivity).
  destruct (snapshot_record_at graph_created 1 (graph_ref x04)) as [r|] eqn:Hr; [|discriminate].
  symmetry. exact (proj1 (history_immutable graph_sha graph_scope graph_created graph_deleted
    graph_created_reachable graph_commits) _ _ _ Hr).
Defined.

(** C15: no live record dangles.  In every reachable state each live record - an active
    entity, a proposed or accepted claim - refers only to visible records,
    its subjects and ends are active entities, every claim cites distinct
    evidence records that exist, and every correction points at a record of
    its own kind; all of them in the state's scope. *)
Theorem no_dangling_references sha256 sc s id r : reachable sha256 sc s →
  records s !! id = Some r →
  ref_scope id = sc ∧
  Forall (λ t, ref_scope t = sc ∧ ∃ x, records s !! t = Some x ∧ is_visible_record x = true)
    (live_visible r) ∧
  Forall (λ t, ref_scope t = sc ∧ ∃ e, records s !! t = Some (REntity e) ∧ e_lifecycle e = Active)
    (live_active r) ∧
  NoDup (evidence_keys r) ∧
  Forall (λ t, ref_scope t = sc ∧ ∃ e, records s !! t = Some (REvidence e)) (evidence_keys r) ∧
  (∀ c, record_correction r = Some c → ∃ x, records s !! c = Some x ∧ same_kind r x = true).
Proof.
  intros Hr Hrec. destruct (reachable_inv _ _ _ Hr) as [Hi <-].
  destruct (gi_valid _ Hi id r Hrec) as (Hs & _ & Hv & Ha & He & Hc).
  assert (∀ t x, records s !! t = Some x → ref_scope t = scope s) as Hscope
    by (intros t x Hx; by destruct (gi_valid _ Hi t x Hx)).
  split_and!; [done|..].
  - apply (Forall_impl _ _ _ Hv). intros t (x & Hx & ?). split; [by eapply Hscope|by eauto].
  - apply (Forall_impl _ _ _ Ha). intros t (x & Hx & ?). split; [by eapply Hscope|by eauto].
  - destruct (gi_valid _ Hi id r Hrec) as (_ & Hsh & _). destruct r; cbn in *; try constructor; tauto.
  - apply (Forall_impl _ _ _ He). intros t (x & Hx). split; [by eapply Hscope|by eauto].
  - intros c. destruct r as [e|e|a|x]; cbn in Hc |- *; try done; intros (y & Hy)%Hc; by eauto.
Qed.
Lemma no_dangling_references_witness : ∃ r,
  records graph_accepted !! graph_ref x04 = Some r ∧ live_active r = [graph_ref x01; graph_ref x02] ∧
  Forall (λ t, ref_scope t = graph_scope ∧
    ∃ e, records graph_accepted !! t = Some (REntity e) ∧ e_lifecycle e = Active) (live_active r).
Proof.
  assert ((if records graph_accepted !! graph_ref x04 is Some r
           then bool_decide (live_active r = [graph_ref x01; graph_ref x02]) else false) = true) as Hs
    by (vm_compute; reflexivity).
  destruct (records graph_accepted !! graph_ref x04) as [r|] eqn:Hr; [|discriminate].
  apply bool_decide_eq_true in Hs. exists r. split; [reflexivity|]. split; [exact Hs|].
  apply (no_dangling_references graph_sha graph_scope graph_accepted _ _ graph_accepted_reachable Hr).
Defined.

(** C17: a prepared delta publishes on its own base only.  Once anything else has been
    committed on top of the state it was prepared against, it is refused: the
    view reports the mismatch, external preparation reports a conflict and
    publication stops at its assertion. *)
Theorem stale_prepared_refused sha256 sc s tx rev d p tx1 rev1 d1 p1 s1 s2 :
  reachable sha256 sc s → prepare_transaction_with_digest sha256 s tx rev d = Some (Ok p) →
  prepare_transaction_with_digest sha256 s tx1 rev1 d1 = Some (Ok p1) → publish p1 s = Some s1 →
  commits sha256 s1 s2 →
  prepared_view s2 p = Err GraphError.PreparedStateMismatch ∧ publish p s2 = None ∧
  ∀ B request (inventory : option B) revision,
    is_ok (validate_external_prepared sha256 s2 request inventory revision p) = false.
Proof.
  intros Hr Hp Hp1 Hpub Hc. destruct (reachable_inv _ _ _ Hr) as [Hi _].
  destruct (commit_known _ _ _ _ _ _ _ Hi Hp1 Hpub) as (ps & Heff).
  pose proof (commit_current _ _ _ _ _ _ Heff) as Hcur.
  pose proof (commit_inv _ _ _ _ _ _ Hi Heff) as Hi1.
  destruct (commits_past _ _ _ Hi1 Hc) as (Hle & _).
  destruct (prepared_Ok _ _ _ _ _ _ Hp) as (dg & cs & pol & _ & _ & Hbase & _).
  assert (can_publish s2 p = false) as Hcan.
  { apply not_true_iff_false. intros (_ & Hrev & _)%can_publish_spec.
    rewrite Hbase in Hrev. unfold current in *. rewrite <-Hrev in Hle. lia. }
  unfold publish, validate_external_prepared. rewrite Hcan. split_and!; [|done|].
  - unfold can_publish, prepared_view in Hcan |- *. by destruct (_ || _).
  - intros B request inventory revision. by destruct (validate_external_request _ _ _ _ _).
Qed.
Lemma stale_prepared_refused_witness : ∃ p s1,
  prepare_transaction graph_sha graph_created tx_accept 2 = Some (Ok p) ∧
  publish p graph_created = Some s1 ∧ publish p s1 = None.
Proof.
  assert ((if commit graph_sha graph_created tx_accept 2 is Some _ then true else false) = true) as Hs
    by (vm_compute; reflexivity).
  unfold commit in Hs.
  destruct (prepare_transaction graph_sha graph_created tx_accept 2) as [[p|]|] eqn:Hp; [|discriminate|discriminate].
  destruct (publish p graph_created) as [s1|] eqn:Hpub; [|discriminate].
  exists p, s1. split; [reflexivity|]. split; [exact Hpub|].
  exact (proj1 (proj2 (stale_prepared_refused graph_sha graph_scope graph_created tx_accept 2 None p
    tx_accept 2 None p s1 s1 graph_created_reachable Hp Hp Hpub (commits_refl _ _)))).
Defined.

(** What the deletion of [target] makes of a record: the entity itself is marked
    deleted, an accepted claim that depends on it is retracted - both keep every
    other field, at the next version and the revision of the commit - and any other
    record stays as it was. *)
Definition after_deletion (target : RecordRef) (rev : CommitRevision) (id : RecordRef) (r : GRecord) : GRecord :=
  if decide (id = target) then
    match r with
    | REntity e => REntity (entity_update e Deleted (e_properties e) (e_version e + 1) rev)
    | _ => r
    end
  else if decide (claim_status r = Some Accepted ∧ target ∈ claim_targets r) then
    match r with
    | RAssertion a => RAssertion (assertion_set_status a Retracted (a_version a + 1) rev)
    | RRelationship x => RRelationship (relationship_set_status x Retracted (r_version x + 1) rev)
    | _ => r
    end
  else r.
Lemma delete_entity_after ov ov' aff target dpolicy declared rev :
  keyed (ov_map ov) → reverse_ok (ov_base ov) (ov_base_reverse ov) →
  delete_entity target dpolicy declared rev (ov, ∅) = Ok (ov', aff) →
  (∃ e, ov_map ov !! target = Some (REntity e) ∧ e_lifecycle e = Active) ∧
  ∀ id, ov_map ov' !! id = after_deletion target rev id <$> ov_map ov !! id.
Proof.
  intros Hk Hrv Hd. eapply delete_entity_written with (exp := EVersion 1) in Hd as (Hw & Ht & Hdel & Hret & Hsafe); [|done..].
  assert (∃ e, ov_map ov !! target = Some (REntity e) ∧ e_lifecycle e = Active ∧ ∃ v', next_of (e_version e) v' ∧
    ov_map ov' !! target = Some (REntity (entity_update e Deleted (e_properties e) v' rev))) as (e & He & Hact & v' & [-> _] & He').
  { destruct Hdel as (e' & He' & Hl).
    destruct (written_lookup _ _ _ _ _ _ Hw Ht) as (r' & Hr' & _ & [(_ & Hf & _)|(r & Hr & Hs)]); simplify_eq.
    - inversion Hf; subst. done.
    - inversion Hs; subst; [done|]. by eauto 10. }
  split; [by eauto|]. intros id. destruct (decide (id = target)) as [->|Hne].
  { rewrite He, He'. cbn. unfold after_deletion. by rewrite decide_True. }
  destruct (decide (id ∈ aff)) as [Hin|Hn].
  - destruct (Hret id Hin Hne) as [(r & Hr & Hacc & Hdep) (r' & Hr' & Hst)].
    destruct (written_lookup _ _ _ _ _ _ Hw Hin) as (r2 & Hr2 & _ & [(Hnone & _)|(r0 & Hr0 & Hs)]); simplify_eq.
    rewrite Hr, Hr'. cbn. unfold after_deletion. rewrite decide_False, decide_True by done. f_equal.
    inversion Hs as [| |a st w _ [-> _]|x st w _ [-> _]]; subst; cbn in Hst; simplify_eq; done.
  - rewrite (written_map _ _ _ _ _ _ Hw Hn). destruct (ov_map ov !! id) as [r|] eqn:Hr; [|done].
    cbn. unfold after_deletion. rewrite decide_False by done. rewrite decide_False; [done|].
    intros [Hacc Hdep]. apply (Hsafe _ _ Hn Hr). by apply accepted_live_ref.
Qed.

(** C16: deletion does exactly what it promises.  A committed transaction whose only
    operation deletes an entity deletes an active entity and nothing else happens
    than the retraction of the accepted claims with the entity as subject, end or
    value reference: the records after the commit are exactly the records before
    it, the entity marked deleted and those claims retracted, each with its other
    fields kept at its next version and the revision of the commit; no record
    appears or goes, the scope stays, and so do the policy and its history unless
    the transaction changes the policy as well. *)
Theorem delete_exact sha256 sc s tx target exp pol declared rev d p s' : reachable sha256 sc s →
  tx_operations tx = [DeleteEntity target exp pol declared] →
  prepare_transaction_with_digest sha256 s tx rev d = Some (Ok p) → publish p s = Some s' →
  (∃ e, records s !! target = Some (REntity e) ∧ e_lifecycle e = Active) ∧
  (∀ id, records s' !! id = after_deletion target rev id <$> records s !! id) ∧
  scope s' = scope s ∧ revision s' = Some rev ∧
  (tx_policy_mutation tx = None → policy s' = policy s ∧ policy_history s' = policy_history s).
Proof.
  intros Hr Htx Hp Hpub. destruct (reachable_inv _ _ _ Hr) as [Hi _].
  destruct (commit_known _ _ _ _ _ _ _ Hi Hp Hpub) as (ps & Heff).
  pose proof (ce_fold _ _ _ _ _ _ Heff) as Hfold. rewrite Htx in Hfold. cbn [try_fold] in Hfold.
  apply bind_Ok in Hfold as (ps1 & (ov & aff & Ha & _ & _ & ->)%prepare_operation_Ok & [= <-]).
  cbn [ps_records apply_operation] in *. rewrite (ce_records _ _ _ _ _ _ Heff). cbn [ps_records].
  assert (ov_map (overlay_new (records s) (reverse (indexes s))) = records s) as Hstart by apply (left_id_L ∅ _).
  destruct (gi_indexes _ Hi) as (_ & _ & _ & Hrv).
  apply delete_entity_after in Ha as [He Hafter]; [|rewrite Hstart; apply (gi_keyed _ Hi)|done]. rewrite Hstart in He, Hafter.
  split; [done|]. split; [done|]. split; [apply (ce_scope _ _ _ _ _ _ Heff)|]. split; [apply (ce_revision' _ _ _ _ _ _ Heff)|].
  intros Hm. pose proof (ce_policy _ _ _ _ _ _ Heff) as Hpol. by rewrite Hm in Hpol.
Qed.
Lemma graph_accepted_claim : ∃ x, records graph_accepted !! graph_ref x04 = Some (RRelationship x) ∧
  r_status x = Accepted ∧ r_to x = graph_ref x02.
Proof.
  assert ((if records graph_accepted !! graph_ref x04 is Some (RRelationship x)
           then bool_decide (r_status x = Accepted ∧ r_to x = graph_ref x02) else false) = true) as Hx
    by (vm_compute; reflexivity).
  destruct (records graph_accepted !! graph_ref x04) as [[| | |x]|]; try discriminate Hx.
  apply bool_decide_eq_true in Hx. by exists x.
Qed.
Lemma delete_exact_witness : ∃ p s' r',
  prepare_transaction graph_sha graph_accepted tx_delete 3 = Some (Ok p) ∧
  publish p graph_accepted = Some s' ∧
  records s' !! graph_ref x04 = Some r' ∧ claim_status r' = Some Retracted.
Proof.
  assert ((if commit graph_sha graph_accepted tx_delete 3 is Some _ then true else false) = true) as Hs
    by (vm_compute; reflexivity).
  unfold commit in Hs.
  destruct (prepare_transaction graph_sha graph_accepted tx_delete 3) as [[p|]|] eqn:Hp; [|discriminate|discriminate].
  destruct (publish p graph_accepted) as [s'|] eqn:Hpub; [|discriminate].
  pose proof (proj1 (proj2 (delete_exact graph_sha graph_scope graph_accepted tx_delete (graph_ref x02) (EVersion 1)
    (CascadeAndRetract 5) [graph_ref x04] 3 None p s' graph_accepted_reachable eq_refl Hp Hpub)) (graph_ref x04)) as Hafter.
  destruct graph_accepted_claim as (x & Hx & Hacc & Hto). rewrite Hx in Hafter.
  exists p, s', (RRelationship (relationship_set_status x Retracted (r_version x + 1) 3)).
  split; [reflexivity|]. split; [exact Hpub|]. split; [|reflexivity]. rewrite Hafter. cbn [fmap option_fmap option_map].
  unfold after_deletion. rewrite decide_False by (intros Heq; discriminate Heq).
  rewrite decide_True by (cbn [claim_status claim_targets]; rewrite Hacc, Hto; split; [reflexivity|constructor 2; constructor]). reflexivity.
Defined.

(** ** Traversal and authorized reads

    On the states of the reducer, adjacency and support queries return exactly
    the matching records in identifier order, or refuse with a resource limit;
    an authorized read never shows a record whose references the reader may not
    see. *)
Import GraphError.

Section traversal.
Context (s : GraphState) (Hi : graph_inv s).

End traversal.


(** ** Support *)
Definition supports (evidence : RecordRef) (r : GRecord) : Prop := evidence ∈ evidence_keys r.
Lemma collect_supported_spec s index ids : 0 ≤ index ≤ MAX_TRAVERSAL_VISITS →
  (∀ id, id ∈ ids → is_Some (records s !! id)) →
  if decide (index + zlen ids ≤ MAX_TRAVERSAL_VISITS)
  then ∃ rs, collect_supported s index ids = Ok rs ∧ Some <$> rs = (λ id, records s !! id) <$> ids
  else collect_supported s index ids = Err ResourceLimit.
Proof.
  revert index. induction ids as [|id ids IH]; intros index Hn Hall.
  { rewrite zlen_nil, Z.add_0_r, decide_True by lia. by exists []. }
  cbn [collect_supported]. rewrite zlen_cons. pose proof (zlen_nonneg ids).
  destruct (Z.eqb_spec index MAX_TRAVERSAL_VISITS) as [->|Hne]; [by rewrite decide_False by lia|].
  destruct (Hall id) as [r Hr]; [set_solver|]. rewrite Hr. cbn [ok_or mbind result_bind].
  specialize (IH (index + 1) ltac:(lia)). replace (index + 1 + zlen ids) with (index + (1 + zlen ids)) in IH by lia.
  case_decide.
  - destruct IH as (rs & -> & Hrs); [set_solver|]. exists (r :: rs). cbn [mbind result_bind].
    split; [done|]. by rewrite !fmap_cons, Hr, Hrs.
  - rewrite IH; [done|set_solver].
Qed.
Section supported.
Context (s : GraphState) (Hi : graph_inv s) (evidence : RecordRef) (Hsc : ref_scope evidence = scope s).
Abbreviation ids := (index_ids (provenance (indexes s)) evidence).
Lemma elem_of_provenance id : id ∈ ids ↔ ∃ r, records s !! id = Some r ∧ supports evidence r.
Proof. destruct (gi_indexes _ Hi) as (_ & _ & [_ H] & _). apply H. Qed.
Lemma supported_candidates_spec :
  match supported_candidates s evidence with
  | Ok rs => Z.of_nat (size ids) ≤ MAX_TRAVERSAL_VISITS ∧
      StronglySorted lexico (record_id <$> rs) ∧
      ∀ r, r ∈ rs ↔ records s !! record_id r = Some r ∧ supports evidence r
  | Err e => e = ResourceLimit ∧ MAX_TRAVERSAL_VISITS < Z.of_nat (size ids)
  end.
Proof.
  unfold supported_candidates. rewrite (proj2 (validate_scope_Ok _ _ tt) Hsc). cbn [mbind result_bind].
  assert (match provenance (indexes s) !! evidence with
    | Some ids => collect_supported s 0 (btree_elements ids) | None => Ok [] end =
    collect_supported s 0 (btree_elements ids)) as ->.
  { unfold index_ids. by destruct (provenance (indexes s) !! evidence). }
  assert (zlen (btree_elements ids) = Z.of_nat (size ids)) as Hlen.
  { unfold zlen, size, set_size. cbn. by rewrite btree_elements_Permutation. }
  pose proof (collect_supported_spec s 0 (btree_elements ids) ltac:(unfold MAX_TRAVERSAL_VISITS; lia)) as Hc.
  rewrite Z.add_0_l, Hlen in Hc. case_decide.
  - destruct Hc as (rs & -> & Hrs).
    { intros id (r & -> & _)%elem_of_btree_elements%elem_of_provenance. by eexists. }
    assert (record_id <$> rs = btree_elements ids) as Hid.
    { revert Hrs. generalize (btree_elements ids). clear -Hi. induction rs as [|r rs IH]; intros [|id l]; try done.
      rewrite !fmap_cons. intros [= Hr Hl]. rewrite (IH l Hl). f_equal. by apply (gi_keyed _ Hi). }
    split_and!; [done|rewrite Hid; apply btree_elements_sorted|].
    intros r. split.
    + intros Hr. assert (Some r ∈ Some <$> rs) as Hs by (apply list_elem_of_fmap; by exists r).
      rewrite Hrs in Hs. apply list_elem_of_fmap in Hs as (id & Hid' & Hin).
      apply elem_of_btree_elements, elem_of_provenance in Hin as (r' & Hr' & Hsup).
      assert (r' = r) as -> by congruence. by rewrite (gi_keyed _ Hi id r Hr').
    + intros [Hr Hsup]. assert (record_id r ∈ btree_elements ids) as Hin
        by (apply elem_of_btree_elements, elem_of_provenance; by exists r).
      assert (records s !! record_id r ∈ (λ id, records s !! id) <$> btree_elements ids) as Hs
        by (apply list_elem_of_fmap; by exists (record_id r)).
      rewrite <-Hrs, Hr in Hs. apply list_elem_of_fmap in Hs as (r' & [= <-] & ?). done.
  - rewrite Hc; [split; [done|lia]|]. intros id (r & -> & _)%elem_of_btree_elements%elem_of_provenance. by eexists.
Qed.
End supported.

(** Support queries are exact.  In every reachable state the query for an
    evidence record answers with the assertions and relationships that cite it,
    in identifier order, or refuses with the limit that was exceeded. *)
Theorem supported_by_exact sha256 sc s evidence maximum : reachable sha256 sc s →
  ref_scope evidence = sc →
  match supported_by s evidence maximum with
  | Ok rs => zlen rs ≤ maximum ∧ StronglySorted lexico (record_id <$> rs) ∧
      ∀ r, r ∈ rs ↔ records s !! record_id r = Some r ∧ supports evidence r
  | Err e => e = ResourceLimit ∧ (MAX_TRAVERSAL_RESULTS < maximum ∨
        MAX_TRAVERSAL_VISITS < Z.of_nat (size (index_ids (provenance (indexes s)) evidence)))
      ∨ ∃ n, e = ResultLimit n maximum ∧ maximum < n
  end.
Proof.
  intros Hr Hsc. destruct (reachable_inv _ _ _ Hr) as [Hi Hs].
  assert (ref_scope evidence = scope s) as Hsc' by congruence.
  pose proof (supported_candidates_spec s Hi evidence Hsc') as Hspec.
  unfold supported_by. rewrite (proj2 (validate_scope_Ok _ _ tt) Hsc'). cbn [mbind result_bind].
  destruct (Z.ltb_spec MAX_TRAVERSAL_RESULTS maximum); [left; by auto|].
  destruct (supported_candidates s evidence) as [rs|e]; cbn [mbind result_bind].
  - destruct (Z.ltb_spec maximum (zlen rs)); [right; by eauto|]. split; [done|]. apply Hspec.
  - left. destruct Hspec as [-> ?]. by auto.
Qed.
Lemma supported_by_exact_witness : ∃ rs, supported_by graph_deleted (graph_ref x03) 10 = Ok rs ∧
  ∀ r, r ∈ rs ↔ records graph_deleted !! record_id r = Some r ∧ supports (graph_ref x03) r.
Proof.
  pose proof (supported_by_exact graph_sha graph_scope graph_deleted (graph_ref x03) 10
    graph_deleted_reachable eq_refl) as H.
  assert (is_ok (supported_by graph_deleted (graph_ref x03) 10) = true) as Hok
    by (vm_compute; reflexivity).
  destruct (supported_by graph_deleted (graph_ref x03) 10) as [rs|]; [|discriminate].
  exists rs. split; [reflexivity|]. apply H.
Defined.
