(* ===== verification/GraphAuthorization.v ===== *)
(** * Authorization of graph reads and writes

    The read facade shows a record only when the policy kernel lets the reader
    see it and everything it mentions; the requirements of a commit cover every
    record it writes and every reference it introduces. *)
From S2P Require Import Prelude Ids Value Codec Policy PolicyFacts GraphRecord GraphCodec GraphCodecExact GraphIndex GraphState GraphValidity GraphCheckpoint GraphOperations GraphPublish GraphReachable GraphSamples GraphQuery GraphGuarantees.
Import GraphError.

(** ** What a record mentions *)
Definition mentions (r : GRecord) : list RecordRef := (visit_record_references r).*1.
Lemma mentions_value v role : (visit_value_references v role).*1 = value_references v.
Proof.
  unfold visit_value_references. induction (value_references v) as [|t l IH]; [done|]. cbn. by rewrite IH.
Qed.
Lemma mentions_tagged (l : list RecordRef) (role : Z) : (map (λ e, (e, role)) l).*1 = l.
Proof. induction l as [|t l IH]; [done|]. cbn. by rewrite IH. Qed.
Lemma mentions_option (o : option RecordRef) (role : Z) :
  (match o with Some p => [(p, role)] | None => [] end).*1 = option_list o.
Proof. by destruct o. Qed.
Lemma mentions_entity e : mentions (REntity e) = value_references (e_properties e).
Proof. apply mentions_value. Qed.
Lemma mentions_assertion a : mentions (RAssertion a) =
  a_subject a :: value_references (a_object a) ++ a_evidence a ++ option_list (a_correction_of a).
Proof. unfold mentions. cbn. by rewrite !fmap_app, mentions_value, mentions_tagged, mentions_option. Qed.
Lemma mentions_relationship x : mentions (RRelationship x) =
  r_from x :: r_to x :: value_references (r_properties x) ++ r_evidence x ++ option_list (r_correction_of x).
Proof. unfold mentions. cbn. by rewrite !fmap_app, mentions_value, mentions_tagged, mentions_option. Qed.

Section authorized.
Context (auth : Action → Target → bool).
Abbreviation readable t := (auth ReadRecord (TRecord t) = true).
Lemma value_references_authorized v :
  value_references_are_authorized v (λ r, auth ReadRecord (TRecord r)) = true ↔
  Forall (λ t, readable t) (value_references v).
Proof. apply forallb_Forall. Qed.
Lemma none_or_authorized o :
  is_none_or (λ r, auth ReadRecord (TRecord r)) o = true ↔ Forall (λ t, readable t) (option_list o).
Proof. destruct o; cbn; rewrite ?Forall_singleton; naive_solver. Qed.
Lemma references_authorized r :
  record_references_are_authorized auth r = true ↔ Forall (λ t, readable t) (mentions r).
Proof.
  destruct r as [e|e|a|x]; cbn [record_references_are_authorized].
  - unfold mentions. cbn. rewrite mentions_value. apply value_references_authorized.
  - done.
  - rewrite mentions_assertion, !andb_true_iff, forallb_Forall, none_or_authorized,
      value_references_authorized, Forall_cons, !Forall_app. tauto.
  - rewrite mentions_relationship, !andb_true_iff, forallb_Forall, none_or_authorized,
      value_references_authorized, !Forall_cons, !Forall_app. tauto.
Qed.
End authorized.

(** ** Reads *)
Definition shown (out : GraphReadOutput) : list GRecord :=
  match out with
  | OutRecord r => option_list r
  | OutAdjacent ns => flat_map (λ n, [RRelationship (neighbor_relationship n); REntity (neighbor_entity n)]) ns
  | OutSupported rs => rs
  end.
(** The identifiers a request names, with the actions it takes on them. *)
Lemma elem_of_require pairs out p : p ∈ require pairs out ↔ p ∈ pairs ∨ p ∈ out.
Proof.
  unfold require. revert out. induction pairs as [|q pairs IH]; intros out; cbn [foldl]; [set_solver|].
  rewrite IH. set_solver.
Qed.
Section read_steps.
Context (s : GraphState) (Hi : graph_inv s) (auth : Action → Target → bool).
Abbreviation readable t := (auth ReadRecord (TRecord t) = true).
Definition may_show (r : GRecord) : Prop :=
  readable (record_id r) ∧ Forall (λ t, readable t) (mentions r).

Lemma adjacent_fold entity maximum candidates visible out :
  try_fold (adjacent_step s auth entity maximum) candidates visible = Ok out →
  Forall may_show (shown (OutAdjacent visible)) → Forall may_show (shown (OutAdjacent out)).
Proof.
  revert visible. induction candidates as [|x l IH]; intros visible H Hv; [by injection H as <-|].
  cbn [try_fold] in H. apply bind_Ok in H as (v1 & H1 & H). apply (IH v1 H). clear IH H.
  unfold adjacent_step in H1.
  destruct (record_references_are_authorized auth (RRelationship x)) eqn:Hx; [|by injection H1 as <-].
  destruct (auth ReadRecord (TRecord (r_id x))) eqn:Hid; [|by injection H1 as <-].
  destruct (auth ExpandGraph (TRecord (r_id x))); [|by injection H1 as <-]. cbn [negb andb] in H1.
  set (neighbor := if decide _ then _ else _) in H1.
  destruct (auth ReadRecord (TRecord neighbor)) eqn:Hn; [|by injection H1 as <-].
  destruct (auth ExpandGraph (TRecord neighbor)); [|by injection H1 as <-]. cbn [negb andb] in H1.
  destruct (records s !! neighbor) as [[e|e|a|y]|] eqn:Hr; try done.
  destruct (record_references_are_authorized auth (REntity e)) eqn:He; [|by injection H1 as <-].
  cbn [negb] in H1. destruct (_ =? _); [done|]. injection H1 as <-.
  cbn [shown] in Hv |- *. rewrite flat_map_app, Forall_app. split; [done|]. cbn.
  apply references_authorized in Hx, He. pose proof (gi_keyed _ Hi _ _ Hr) as Hek. cbn in Hek.
  constructor; [|constructor; [|done]]; (split; cbn [record_id]; [|done]); [done|by rewrite Hek].
Qed.
Lemma supported_fold maximum candidates visible out :
  try_fold (supported_step auth maximum) candidates visible = Ok out →
  Forall may_show visible → Forall may_show out.
Proof.
  revert visible. induction candidates as [|r l IH]; intros visible H Hv; [by injection H as <-|].
  cbn [try_fold] in H. apply bind_Ok in H as (v1 & H1 & H). apply (IH v1 H). clear IH H.
  unfold supported_step in H1. destruct (auth ReadRecord (TRecord (record_id r))) eqn:Hid; [|by injection H1 as <-].
  destruct (record_references_are_authorized auth r) eqn:Hr; [|by injection H1 as <-]. cbn in H1.
  destruct (_ =? _); [done|]. injection H1 as <-. apply Forall_app. split; [done|].
  constructor; [|done]. split; [done|]. by apply references_authorized.
Qed.
Lemma visible_record_shown o id : (∀ r, o = Some r → record_id r = id) → readable id →
  Forall may_show (option_list (visible_record auth o)).
Proof.
  intros Ho Hid. unfold visible_record. destruct o as [r|]; cbn; [|done].
  destruct (record_references_are_authorized auth r) eqn:Hr; [|done]. constructor; [|done].
  split; [by rewrite (Ho r eq_refl)|]. by apply references_authorized.
Qed.
Lemma record_at_id id q r : record_at (history s) id q = Some r → record_id r = id.
Proof.
  rewrite record_at_eq. destruct (history s !! id) as [vs|] eqn:Hh; [|done]. cbn. unfold version_at.
  destruct (partition_point _ vs) as [|i]; [done|]. intros Hv%list_elem_of_lookup_2.
  destruct (history_Some _ Hi _ _ Hh) as (_ & Hc%check_versions_all & _).
  rewrite Forall_forall in Hc. by destruct (Hc r Hv).
Qed.
(** Every record an authorized projection shows may be shown. *)
Lemma read_shown request out : read_authorized s auth request = Ok out →
  (∀ a t, (a, t) ∈ read_requirement_set request → auth a (TRecord t) = true) →
  Forall may_show (shown out).
Proof.
  intros H Hreq. destruct request as [id|id q|entity dir maximum|evidence maximum];
    cbn [read_authorized read_requirement_set] in H, Hreq.
  - injection H as <-. cbn [shown]. apply (visible_record_shown _ id); [by apply (gi_keyed _ Hi)|].
    apply Hreq, elem_of_require. set_solver.
  - apply bind_Ok in H as (o & Ho & [= <-]). apply reads_known in Ho as (_ & _ & Ho). cbn [shown].
    apply (visible_record_shown _ id); [intros r ->; by eapply record_at_id|].
    apply Hreq, elem_of_require. set_solver.
  - destruct (_ <? _); [done|]. apply bind_Ok in H as (cs & _ & H).
    apply bind_Ok in H as (v & Hv & [= <-]). eapply adjacent_fold; [done|]. constructor.
  - destruct (_ <? _); [done|]. apply bind_Ok in H as (cs & _ & H).
    apply bind_Ok in H as (v & Hv & [= <-]). eapply supported_fold; [done|]. constructor.
Qed.
End read_steps.
Lemma requirements_new_Ok l reqs : AuthorizationRequirements_new l = Ok reqs → reqs = l.
Proof.
  unfold AuthorizationRequirements_new.
  assert (∀ acc, try_fold (λ bounded requirement,
      if zlen bounded =? MAX_AUTHORIZATION_REQUIREMENTS_PER_REQUEST
      then Err Policy.ResourceLimit else Ok (bounded ++ [requirement])) l acc = Ok reqs →
    reqs = acc ++ l) as H; [|apply H].
  induction l as [|q l IH]; intros acc H; [injection H as <-; by rewrite app_nil_r|].
  cbn [try_fold] in H. destruct (_ =? _); [done|]. apply IH in H. by rewrite <-app_assoc in H.
Qed.

(** ** The read facade *)
Section facade_read.
Context {StorageError : Type} (co : ReadCoordinator) (pr : AuthenticatedPrincipal).
Abbreviation auth := (candidate_authorized co pr).
Lemma candidate_allowed a t : auth a (TRecord t) = true →
  ref_scope t = co_scope co ∧ allowed (co_policy co) pr a (TRecord t).
Proof.
  unfold candidate_authorized. intros [Hs%bool_decide_eq_true Ha]%andb_true_iff.
  split; [|by apply authorize_allowed]. rewrite <-Hs. by destruct t as [[]].
Qed.
Lemma requirement_checked q :
  check_requirement (StorageError := StorageError) co pr q = Ok tt →
  auth (req_action q) (req_target q) = true.
Proof.
  unfold check_requirement, candidate_authorized. case_bool_decide; [|done]. cbn [negb].
  unfold authorization. by destruct (authorize _ _ _ _).
Qed.
Lemma read_requirements_checked request reqs a t :
  read_authorization_requirements request = Ok reqs →
  Forall (λ q, check_requirement (StorageError := StorageError) co pr q = Ok tt) reqs →
  (a, t) ∈ read_requirement_set request → auth a (TRecord t) = true.
Proof.
  unfold read_authorization_requirements. rewrite map_err_Ok. intros Hn Hall Hin.
  apply requirements_new_Ok in Hn as ->. rewrite Forall_forall in Hall.
  apply (requirement_checked (to_requirement (a, t))), Hall, list_elem_of_fmap.
  exists (a, t). split; [done|]. by apply elem_of_btree_elements.
Qed.
End facade_read.

(** C11: reads are authorized end to end.  When the coordinator answers a read over a
    reachable state, the policy kernel allows the reader to read every record
    in the answer and every record any of them mentions - subjects, objects,
    ends, evidence, corrections and nested value references - all within the
    coordinator's namespace; and the view's lease was still valid. *)
Theorem coordinator_read_authorized {StorageError} sha256 sc co pr view request out :
  reachable sha256 sc (rv_state view) →
  coordinator_read (StorageError := StorageError) co pr view request = Ok out →
  revalidate (co_policy co) (rv_lease view) = Ok tt ∧
  ∀ r t, r ∈ shown out → t ∈ record_id r :: mentions r →
    ref_scope t = co_scope co ∧ allowed (co_policy co) pr ReadRecord (TRecord t).
Proof.
  intros Hr. destruct (reachable_inv _ _ _ Hr) as [Hi _]. unfold coordinator_read.
  destruct (co_uncertain co); [done|]. case_bool_decide as Hinst; [|done]. cbn [negb].
  intros [Hrev H]%then_Ok. unfold authorization in Hrev. rewrite map_err_Ok in Hrev. split; [done|].
  apply bind_Ok in H as (reqs & Hreqs & H). rewrite map_err_Ok in Hreqs.
  apply then_Ok in H as [Hall%try_each_Ok Hread]. rewrite map_err_Ok in Hread.
  assert (Forall (may_show (candidate_authorized co pr)) (shown out)) as Hshow.
  { eapply read_shown; [done|done|]. intros a t.
    by apply (read_requirements_checked (StorageError := StorageError) co pr request reqs). }
  intros r t Hin Ht. rewrite Forall_forall in Hshow. destruct (Hshow r Hin) as [Hid Hm].
  apply elem_of_cons in Ht as [->|Ht].
  - by apply candidate_allowed in Hid.
  - rewrite Forall_forall in Hm. by apply Hm, candidate_allowed in Ht.
Qed.

(** A kernel whose one principal may read the graph. *)
Definition reader_principal : AuthenticatedPrincipal :=
  mk_principal (PrincipalDigest_from_bytes (repeat x07 32)) 1%nat.
Definition reader_policy : NamespacePolicy :=
  mk_policy graph_scope 1 (mk_quotas 1024 2048 2048 4 512)
    {[ digest reader_principal := mk_grant (PermissionSet_from_actions [ReadRecord; ExpandGraph])
         (mk_quotas 1024 2048 2048 4 512) ∅ ]}.
Definition reader_kernel : PolicyKernel := mk_kernel {[ graph_scope := reader_policy ]} 1%nat.
Definition reader_coordinator : ReadCoordinator := mk_coordinator reader_kernel graph_scope false 5%nat.
Definition reader_view : AuthorizedReadView :=
  mk_read_view graph_accepted
    (mk_lease (digest reader_principal) graph_scope ReadRecord 1 1%nat) 5%nat.
Lemma coordinator_read_authorized_witness : ∃ out,
  coordinator_read (StorageError := unit) reader_coordinator reader_principal reader_view
    (ReqAdjacent (graph_ref x01) Outgoing 4) = Ok out ∧
  ∀ r t, r ∈ shown out → t ∈ record_id r :: mentions r →
    ref_scope t = graph_scope ∧ allowed reader_kernel reader_principal ReadRecord (TRecord t).
Proof.
  assert (is_ok (coordinator_read (StorageError := unit) reader_coordinator reader_principal
    reader_view (ReqAdjacent (graph_ref x01) Outgoing 4)) = true) as Hok by (vm_compute; reflexivity).
  destruct (coordinator_read (StorageError := unit) reader_coordinator reader_principal
    reader_view (ReqAdjacent (graph_ref x01) Outgoing 4)) as [out|] eqn:Hout; [|discriminate].
  exists out. split; [reflexivity|].
  exact (proj2 (coordinator_read_authorized graph_sha graph_scope reader_coordinator reader_principal
    reader_view (ReqAdjacent (graph_ref x01) Outgoing 4) out graph_accepted_reachable Hout)).
Defined.

(** ** Writes *)

(** The records an operation may write, and the references it introduces. *)
Definition operation_writes (op : Operation) : list RecordRef :=
  match op with
  | Create _ n => [new_record_id n]
  | ReplaceEntity target _ _ => [target]
  | ActOnAssertion target _ _ correction _ => target :: option_list (na_id <$> correction)
  | ActOnRelationship target _ _ correction _ => target :: option_list (nr_id <$> correction)
  | DeleteEntity target _ _ declared => target :: declared
  end.
Lemma retract_writes rev b l st st' : try_fold (retract_declared rev b) l st = Ok st' →
  ∀ id, id ∈ st'.2 → id ∈ st.2 ∨ id ∈ l.
Proof.
  revert st. induction l as [|x l IH]; intros st H id Hid; [injection H as <-; by left|].
  cbn [try_fold] in H. apply bind_Ok in H as (st1 & H1 & H).
  assert (∀ id, id ∈ st1.2 → id ∈ st.2 ∨ id = x) as Hx.
  { clear IH H. unfold retract_declared in H1.
    destruct (overlay_get_mut x st.1) as [[[]]|], b, (overlay_get st.1 x) as [[]|];
      try (injection H1 as <-; by left); apply bind_Ok in H1 as (v & _ & [= <-]); set_solver. }
  destruct (IH st1 H id Hid) as [Hin|Hin]; [|set_solver]. apply Hx in Hin. set_solver.
Qed.
Lemma delete_writes target pol declared rev ov ov' aff :
  delete_entity target pol declared rev (ov, ∅) = Ok (ov', aff) → ∀ id, id ∈ aff → id ∈ target :: declared.
Proof.
  unfold delete_entity. intros [_ H]%then_Ok id Hid. apply bind_Ok in H as (st & Hd & H).
  assert (∀ id, id ∈ st.2 → id ∈ declared) as Hst.
  { destruct pol as [|maximum].
    - destruct (_ || _); [done|]. destruct (negb _); [done|]. injection Hd as <-. set_solver.
    - repeat (destruct (if _ : bool then _ else _) eqn:? in Hd; [done|]).
      repeat match type of Hd with (if ?b then _ else _) = _ => destruct b; [done|] end.
      cbn [try_fold] in Hd. apply bind_Ok in Hd as (st1 & H1 & Hd).
      apply bind_Ok in Hd as (st2 & H2 & [= <-]).
      intros x Hx. destruct (retract_writes _ _ _ _ _ H2 x Hx) as [Hx1|]; [|done].
      destruct (retract_writes _ _ _ _ _ H1 x Hx1) as [Hx0|]; [|done]. cbn in Hx0. set_solver. }
  destruct (overlay_get_mut target st.1) as [[[e|e|a|x] ov2]|]; try done.
  apply bind_Ok in H as (v & _ & [= <- <-]). cbn in Hid. set_solver.
Qed.
Lemma apply_operation_writes op rev ov ov' aff : apply_operation op rev (ov, ∅) = Ok (ov', aff) →
  ∀ id, id ∈ aff → id ∈ operation_writes op.
Proof.
  destruct op as [exp n|t exp props|t exp act corr cexp|t exp act corr cexp|t exp p dl];
    cbn [apply_operation operation_writes]; intros H id Hid.
  - unfold create_record in H. destruct (overlay_contains _ _); [done|].
    apply bind_Ok in H as (r & _ & [= <- <-]). cbn in Hid. set_solver.
  - destruct (overlay_get_mut t _) as [[[]]|]; try done. destruct (negb _); [done|].
    apply bind_Ok in H as (v & _ & [= <- <-]). cbn in Hid. set_solver.
  - unfold apply_assertion_action in H. apply bind_Ok in H as (st & _ & H). case_decide.
    + destruct (negb _); [done|]. apply bind_Ok in H as (c & ->%ok_or_Ok & H).
      destruct (overlay_contains _ _); [done|]. destruct (negb _); [done|].
      injection H as <- <-. cbn in Hid |- *. set_solver.
    + destruct corr; [done|]. apply bind_Ok in H as (next & _ & H).
      destruct (overlay_get_mut t _) as [[[]]|]; try done.
      apply bind_Ok in H as (v & _ & [= <- <-]). cbn in Hid |- *. set_solver.
  - unfold apply_relationship_action in H. apply bind_Ok in H as (st & _ & H). case_decide.
    + destruct (negb _); [done|]. apply bind_Ok in H as (c & ->%ok_or_Ok & H).
      destruct (overlay_contains _ _); [done|]. destruct (negb _); [done|].
      injection H as <- <-. cbn in Hid |- *. set_solver.
    + destruct corr; [done|]. apply bind_Ok in H as (next & _ & H).
      destruct (overlay_get_mut t _) as [[[]]|]; try done.
      apply bind_Ok in H as (v & _ & [= <- <-]). cbn in Hid |- *. set_solver.
  - by eapply delete_writes.
Qed.
Definition assertion_mentions (a : NewAssertion) : list RecordRef :=
  na_subject a :: value_references (na_object a) ++ na_evidence a.
Definition relationship_mentions (x : NewRelationship) : list RecordRef :=
  nr_from x :: nr_to x :: value_references (nr_properties x) ++ nr_evidence x.
Definition operation_mentions (op : Operation) : list RecordRef :=
  match op with
  | Create _ (NEntity e) => value_references (ne_properties e)
  | Create _ (NEvidence _) => []
  | Create _ (NAssertion a) => assertion_mentions a
  | Create _ (NRelationship x) => relationship_mentions x
  | ReplaceEntity _ _ properties => value_references properties
  | ActOnAssertion target _ _ correction _ => target :: from_option assertion_mentions [] correction
  | ActOnRelationship target _ _ correction _ => target :: from_option relationship_mentions [] correction
  | DeleteEntity _ _ _ _ => []
  end.
Section introduced.
Context (rev : CommitRevision) (ov : RecordOverlay).
(** The references of a written record come from the operation or were there. *)
Definition introduced (op : Operation) (ov' : RecordOverlay) (aff : gset RecordRef) : Prop :=
  ∀ id r' t, id ∈ aff → ov_map ov' !! id = Some r' → t ∈ mentions r' →
    t ∈ operation_mentions op ∨ ∃ r, ov_map ov !! id = Some r ∧ t ∈ mentions r.
Lemma introduced_put op id r' ov1 :
  (∀ t, t ∈ mentions r' → t ∈ operation_mentions op ∨ ∃ r, ov_map ov !! id = Some r ∧ t ∈ mentions r) →
  introduced op (overlay_insert id r' ov1) ({[ id ]} ∪ ∅).
Proof.
  intros H id' r t Hid Hr Ht. assert (id' = id) as -> by set_solver.
  rewrite ov_map_insert, lookup_insert_eq in Hr. injection Hr as <-. by apply H.
Qed.
Lemma elem_of_mentions_assertion n c t : t ∈ mentions (RAssertion (assertion_record n c rev)) ↔
  t ∈ assertion_mentions n ∨ c = Some t.
Proof.
  rewrite mentions_assertion. unfold assertion_mentions. cbn. destruct c; cbn; set_solver.
Qed.
Lemma elem_of_mentions_relationship n c t :
  t ∈ mentions (RRelationship (relationship_record n c rev)) ↔
  t ∈ relationship_mentions n ∨ c = Some t.
Proof.
  rewrite mentions_relationship. unfold relationship_mentions. cbn. destruct c; cbn; set_solver.
Qed.
Lemma create_introduced exp n ov' aff : create_record n rev (ov, ∅) = Ok (ov', aff) →
  introduced (Create exp n) ov' aff.
Proof.
  unfold create_record. destruct (overlay_contains _ _); [done|]. intros (r & Hr & [= <- <-])%bind_Ok.
  apply introduced_put. intros t Ht. left. destruct n as [e|e|a|x]; cbn in Hr |- *.
  - injection Hr as <-. by rewrite mentions_entity in Ht.
  - injection Hr as <-. by apply elem_of_nil in Ht.
  - destruct (negb _); [done|]. injection Hr as <-. apply elem_of_mentions_assertion in Ht. naive_solver.
  - destruct (negb _); [done|]. injection Hr as <-. apply elem_of_mentions_relationship in Ht. naive_solver.
Qed.
Lemma replace_introduced target exp props ov' aff :
  apply_operation (ReplaceEntity target exp props) rev (ov, ∅) = Ok (ov', aff) →
  introduced (ReplaceEntity target exp props) ov' aff.
Proof.
  cbn [apply_operation fst snd]. destruct (overlay_get_mut target ov) as [[[] ov1]|]; try done.
  destruct (negb _); [done|]. intros (v & _ & [= <- <-])%bind_Ok. apply introduced_put.
  intros t Ht. left. by rewrite mentions_entity in Ht.
Qed.
Lemma assertion_introduced target exp act corr cexp ov' aff :
  apply_assertion_action target act corr rev (ov, ∅) = Ok (ov', aff) →
  introduced (ActOnAssertion target exp act corr cexp) ov' aff.
Proof.
  unfold apply_assertion_action. cbn [fst snd]. intros (st & _ & H)%bind_Ok. case_decide.
  - destruct (negb _); [done|]. apply bind_Ok in H as (c & ->%ok_or_Ok & H).
    destruct (overlay_contains _ _); [done|]. destruct (negb _); [done|]. injection H as <- <-.
    apply introduced_put. intros t Ht%elem_of_mentions_assertion. left. cbn. set_solver.
  - destruct corr; [done|]. apply bind_Ok in H as (next & _ & H).
    destruct (overlay_get_mut target ov) as [[[e|e|a|x] ov1]|] eqn:Hg; try done.
    apply bind_Ok in H as (v & _ & [= <- <-]). apply introduced_put. intros t Ht. right.
    apply overlay_get_mut_Some in Hg as [Hg _]. by exists (RAssertion a).
Qed.
Lemma relationship_introduced target exp act corr cexp ov' aff :
  apply_relationship_action target act corr rev (ov, ∅) = Ok (ov', aff) →
  introduced (ActOnRelationship target exp act corr cexp) ov' aff.
Proof.
  unfold apply_relationship_action. cbn [fst snd]. intros (st & _ & H)%bind_Ok. case_decide.
  - destruct (negb _); [done|]. apply bind_Ok in H as (c & ->%ok_or_Ok & H).
    destruct (overlay_contains _ _); [done|]. destruct (negb _); [done|]. injection H as <- <-.
    apply introduced_put. intros t Ht%elem_of_mentions_relationship. left. cbn. set_solver.
  - destruct corr; [done|]. apply bind_Ok in H as (next & _ & H).
    destruct (overlay_get_mut target ov) as [[[e|e|a|x] ov1]|] eqn:Hg; try done.
    apply bind_Ok in H as (v & _ & [= <- <-]). apply introduced_put. intros t Ht. right.
    apply overlay_get_mut_Some in Hg as [Hg _]. by exists (RRelationship x).
Qed.
Lemma delete_introduced target exp pol declared ov' aff : keyed (ov_map ov) →
  reverse_ok (ov_base ov) (ov_base_reverse ov) →
  delete_entity target pol declared rev (ov, ∅) = Ok (ov', aff) →
  introduced (DeleteEntity target exp pol declared) ov' aff.
Proof.
  intros Hk Hrv H. eapply delete_entity_written with (exp := exp) in H
    as (Hw & Ht & (e & He & Hd) & Hret & _); [|done|done].
  intros id r' t Hin Hr Hm. right.
  destruct (written_lookup _ _ _ _ _ _ Hw Hin) as (r2 & Hr2 & _ & Hcase). simplify_eq.
  destruct (decide (id = target)) as [->|Hne].
  - destruct Hcase as [(Hn & Hf & _)|(r & Hr' & Hs)].
    + simplify_eq. by inversion Hf; subst.
    + exists r. split; [done|]. simplify_eq. inversion Hs; subst; [done|done].
  - destruct (Hret id Hin Hne) as [(r & Hr' & Hacc & _) (r3 & Hr3 & Hst)]. simplify_eq.
    destruct Hcase as [(Hn & _)|(r0 & Hr0 & Hs)]; [congruence|]. simplify_eq.
    exists r0. split; [done|]. by inversion Hs; subst.
Qed.
Lemma apply_operation_introduced op ov' aff : keyed (ov_map ov) →
  reverse_ok (ov_base ov) (ov_base_reverse ov) →
  apply_operation op rev (ov, ∅) = Ok (ov', aff) → introduced op ov' aff.
Proof.
  intros Hk Hrv. destruct op; [apply create_introduced|apply replace_introduced|
    apply assertion_introduced|apply relationship_introduced|by apply delete_introduced].
Qed.
End introduced.

(** ** Coverage over a transaction *)
Section covered.
Context (rev : CommitRevision) (base : Records) (base_reverse : ReverseIndex)
  (Hkey : keyed base) (Hrev : reverse_ok base base_reverse) (W M : RecordRef → Prop).
Definition covered (ps : PrepareState) : Prop :=
  ∀ id r', ov_changed (ps_records ps) !! id = Some r' →
    W id ∧ ∀ t, t ∈ mentions r' → M t ∨ ∃ r, base !! id = Some r ∧ t ∈ mentions r.
Lemma covered_step ps op ps' : loop_ok rev base base_reverse ps →
  prepare_operation rev ps op = Ok ps' →
  (∀ id, id ∈ operation_writes op → W id) → (∀ t, t ∈ operation_mentions op → M t) →
  covered ps → covered ps'.
Proof.
  intros Hl Hstep HW HM Hc.
  destruct (prepare_operation_Ok _ _ _ _ Hstep) as (ov & aff & Ha & Hf & _ & ->).
  assert (reverse_ok (ov_base (ps_records ps)) (ov_base_reverse (ps_records ps))) as Hr
    by (by rewrite (lo_base _ _ _ _ Hl), (lo_reverse _ _ _ _ Hl)).
  pose proof (loop_keyed _ _ _ Hkey ps Hl) as Hk.
  pose proof (apply_operation_introduced rev _ op ov aff Hk Hr Ha) as Hintro.
  destruct (apply_operation_written rev _ Hk Hr op ov aff Ha) as [Hw _].
  intros id r' Hr'. cbn [ps_records] in Hr'. destruct (decide (id ∈ aff)) as [Hin|Hn].
  - split; [by eapply HW, apply_operation_writes|]. intros t Ht.
    assert (ov_map ov !! id = Some r') as Hov
      by (unfold ov_map; rewrite lookup_union, Hr'; by destruct (ov_base ov !! id)).
    destruct (Hintro id r' t Hin Hov Ht) as [|(r & Hb & Hm)]; [left; by apply HM|right].
    rewrite (proj1 (loop_unchanged _ _ _ _ _ Hl (proj1 (Hf id Hin)))) in Hb. by eauto.
  - rewrite (wr_kept _ _ _ _ _ Hw id Hn) in Hr'. by apply Hc.
Qed.
Lemma covered_all ops ps ps' : loop_ok rev base base_reverse ps →
  try_fold (prepare_operation rev) ops ps = Ok ps' →
  (∀ op, op ∈ ops → (∀ id, id ∈ operation_writes op → W id) ∧ ∀ t, t ∈ operation_mentions op → M t) →
  covered ps → covered ps'.
Proof.
  revert ps. induction ops as [|op ops IH]; intros ps Hl H Hops Hc; [by injection H as <-|].
  cbn [try_fold] in H. apply bind_Ok in H as (ps1 & H1 & H).
  destruct (Hops op) as [HW HM]; [set_solver|]. eapply IH; [|done| |].
  - exact (loop_step _ _ _ Hkey Hrev _ _ _ Hl H1).
  - intros op' Hop'. apply Hops. set_solver.
  - exact (covered_step ps op ps1 Hl H1 HW HM Hc).
Qed.
End covered.

(** ** The requirements of an operation *)
Lemma elem_of_collect_value v out p :
  p ∈ collect_value v out ↔ (p.1 = ReadRecord ∧ p.2 ∈ value_references v) ∨ p ∈ out.
Proof.
  unfold collect_value. rewrite elem_of_require, list_elem_of_fmap. destruct p as [a t]. cbn. naive_solver.
Qed.
Lemma elem_of_reads (l : list RecordRef) p :
  p ∈ map (λ r, (ReadRecord, r)) l ↔ p.1 = ReadRecord ∧ p.2 ∈ l.
Proof. rewrite list_elem_of_fmap. destruct p. cbn. naive_solver. Qed.
Lemma collect_expected_mono e out p : p ∈ out → p ∈ collect_expected e out.
Proof. destruct e; cbn [collect_expected]; rewrite ?elem_of_require; auto. Qed.
Lemma elem_of_collect_assertion a out p :
  p ∈ collect_assertion a out ↔ (p.1 = ReadRecord ∧ p.2 ∈ assertion_mentions a) ∨ p ∈ out.
Proof.
  unfold collect_assertion, assertion_mentions.
  rewrite elem_of_collect_value, elem_of_require, !elem_of_cons, elem_of_app, elem_of_reads.
  destruct p. cbn. naive_solver.
Qed.
Lemma elem_of_collect_relationship x out p :
  p ∈ collect_relationship x out ↔ (p.1 = ReadRecord ∧ p.2 ∈ relationship_mentions x) ∨ p ∈ out.
Proof.
  unfold collect_relationship, relationship_mentions.
  rewrite elem_of_collect_value, elem_of_require, !elem_of_cons, elem_of_app, elem_of_reads.
  destruct p. cbn. naive_solver.
Qed.
Lemma collect_optional_expected (o : option Expected) out p : p ∈ out →
  p ∈ match o with Some e => collect_expected e out | None => out end.
Proof. destruct o; [apply collect_expected_mono|done]. Qed.
#[local] Hint Resolve collect_expected_mono collect_optional_expected : uste.
(** Nothing collected is lost, every written record needs [Commit], and every
    introduced reference needs [ReadRecord]. *)
Lemma operation_requirements_cover op out :
  out ⊆ operation_requirements out op ∧
  (∀ id, id ∈ operation_writes op → (Commit, id) ∈ operation_requirements out op) ∧
  (∀ t, t ∈ operation_mentions op → (ReadRecord, t) ∈ operation_requirements out op).
Proof.
  unfold operation_requirements, collect_operation_references.
  assert (∀ target e p, p ∈ out ∨ p = (Commit, target) ∨ p = (ReadRecord, target) →
    p ∈ collect_expected e (require [(Commit, target); (ReadRecord, target)] out)) as Hbase.
  { intros target e p Hp. apply collect_expected_mono, elem_of_require. set_solver. }
  destruct op as [exp n|t exp props|t exp act corr cexp|t exp act corr cexp|t exp pol dl];
    cbn [operation_target operation_expected operation_writes operation_mentions].
  - destruct n; cbn [collect_new_record new_record_id]; split_and!;
      intros p; rewrite ?elem_of_collect_value, ?elem_of_collect_assertion, ?elem_of_collect_relationship;
      set_solver.
  - split_and!; intros p; rewrite elem_of_collect_value; set_solver.
  - split_and!; intros p Hp; apply collect_optional_expected; destruct corr as [c|];
      rewrite ?elem_of_collect_assertion, ?elem_of_require; set_solver.
  - split_and!; intros p Hp; apply collect_optional_expected; destruct corr as [c|];
      rewrite ?elem_of_collect_relationship, ?elem_of_require; set_solver.
  - split_and!; intros p; rewrite ?elem_of_require; [set_solver| |set_solver].
    intros [->|Hp]%elem_of_cons; [set_solver|]. left. apply list_elem_of_In, in_flat_map.
    exists p. split; [by apply list_elem_of_In|]. cbn. auto.
Qed.
Lemma requirements_cover_all ops out op : op ∈ ops →
  out ⊆ foldl operation_requirements out ops ∧
  (∀ id, id ∈ operation_writes op → (Commit, id) ∈ foldl operation_requirements out ops) ∧
  (∀ t, t ∈ operation_mentions op → (ReadRecord, t) ∈ foldl operation_requirements out ops).
Proof.
  assert (∀ ops out, out ⊆ foldl operation_requirements out ops) as Hmono.
  { clear. induction ops as [|op ops IH]; intros out; [done|]. cbn [foldl].
    etransitivity; [|apply IH]. apply operation_requirements_cover. }
  revert out. induction ops as [|op' ops IH]; intros out Hin; [by apply elem_of_nil in Hin|].
  cbn [foldl]. apply elem_of_cons in Hin as [<-|Hin].
  - destruct (operation_requirements_cover op out) as (H0 & H1 & H2).
    pose proof (Hmono ops (operation_requirements out op)). set_solver.
  - destruct (IH (operation_requirements out op') Hin) as (H0 & H1 & H2). split; [|done].
    etransitivity; [|exact H0]. apply operation_requirements_cover.
Qed.
Lemma requirements_opened {B} request reqs :
  authorization_requirements (B := B) request None = Ok reqs →
  ∃ tx, decode_transaction request = Ok tx ∧
    (∀ p, p ∈ foldl operation_requirements ∅ (tx_operations tx) → to_requirement p ∈ reqs) ∧
    (tx_policy_mutation tx ≠ None → mk_requirement ManagePolicy (TNamespace (tx_scope tx)) ∈ reqs).
Proof.
  unfold authorization_requirements. intros (tx & Htx & H)%bind_Ok. rewrite map_err_Ok in Htx.
  exists tx. split; [done|]. apply then_Ok in H as [_ H]. rewrite map_err_Ok in H.
  apply requirements_new_Ok in H as ->. split.
  - intros p Hp. apply elem_of_app. left. apply list_elem_of_fmap. exists p.
    split; [done|]. by apply elem_of_btree_elements.
  - intros Hm. apply elem_of_app. right. destruct (tx_policy_mutation tx); [set_solver|done].
Qed.

(** C12: the requirements derived from a request cover the commit.  If a request's
    requirements are checked and the request prepares against a reachable
    state, then every record it changes is covered by a [Commit] requirement,
    every reference a changed record makes was already in its previous
    version or is covered by a [ReadRecord] requirement, and a policy change
    is covered by [ManagePolicy] on the namespace. *)
Theorem commit_requirements_cover {B} sha256 sc s request rev p reqs : reachable sha256 sc s →
  authorization_requirements (B := B) request None = Ok reqs →
  prepare sha256 (B := B) s request None rev = Some (Ok p) →
  Forall (λ c, mk_requirement Commit (TRecord (change_id c)) ∈ reqs ∧
    ∀ t, t ∈ mentions (change_after c) →
      (∃ b, change_before c = Some b ∧ t ∈ mentions b) ∨
      mk_requirement ReadRecord (TRecord t) ∈ reqs) (p_changes p) ∧
  (p_policy_change p ≠ None → mk_requirement ManagePolicy (TNamespace sc) ∈ reqs).
Proof.
  intros Hr (tx & Htx & Hreq & Hpol)%requirements_opened Hp.
  destruct (reachable_inv _ _ _ Hr) as [Hi <-]. unfold prepare in Hp. rewrite Htx in Hp.
  case_bool_decide as Hs; [|done]. cbn [negb] in Hp.
  destruct (prepare_transaction_with_digest _ _ _ _ _) as [[p'|]|] eqn:Hprep; try done.
  injection Hp as ->. pose proof (prepared_Ok _ _ _ _ _ _ Hprep) as (dg & cs & pol & Hplan & _ & _ & _ & _ & _ & Hpc).
  apply plan_Ok in Hplan as (_ & _ & _ & _ & _ & -> & _).
  destruct (commit_publish _ _ _ _ _ _ Hi Hprep) as (ps & s' & _ & Hc).
  destruct (gi_indexes _ Hi) as (_ & _ & _ & Hrv).
  assert (covered (records s) (λ id, mk_requirement Commit (TRecord id) ∈ reqs)
    (λ t, mk_requirement ReadRecord (TRecord t) ∈ reqs) ps) as Hcov.
  { eapply (covered_all rev _ _ (gi_keyed _ Hi) Hrv); [|apply (ce_fold _ _ _ _ _ _ Hc)| |].
    - exact (loop_start rev _ _ (gi_keyed _ Hi) Hrv).
    - intros op Hop. destruct (requirements_cover_all _ ∅ op Hop) as (_ & HW & HM).
      split; intros x Hx; [apply (Hreq (Commit, x)); by apply HW|apply (Hreq (ReadRecord, x)); by apply HM].
    - intros id r. cbn. by rewrite lookup_empty. }
  split.
  - rewrite (ce_changes _ _ _ _ _ _ Hc). apply Forall_forall.
    intros c [Ha Hb]%elem_of_into_changes. destruct (Hcov _ _ Ha) as [HW HM]. split; [done|].
    intros t Ht. rewrite Hb, (lo_base _ _ _ _ (ce_loop _ _ _ _ _ _ Hc)).
    destruct (HM t Ht) as [?|(r & Hr' & ?)]; [by right|left]. by exists r.
  - rewrite Hpc, <-Hs. intros Hn. apply Hpol. by destruct (tx_policy_mutation tx).
Qed.
Definition delete_request : list byte := ok_bytes (encode_transaction tx_delete).
Lemma commit_requirements_cover_witness : ∃ reqs p,
  authorization_requirements (B := unit) delete_request None = Ok reqs ∧
  prepare graph_sha (B := unit) graph_accepted delete_request None 3 = Some (Ok p) ∧
  Forall (λ c, mk_requirement Commit (TRecord (change_id c)) ∈ reqs) (p_changes p).
Proof.
  assert (is_ok (authorization_requirements (B := unit) delete_request None) = true)
    as Hreq by (vm_compute; reflexivity).
  assert ((if prepare graph_sha (B := unit) graph_accepted delete_request None 3
           is Some r then is_ok r else false) = true) as Hprep by (vm_compute; reflexivity).
  destruct (authorization_requirements (B := unit) delete_request None)
    as [reqs|] eqn:Hr; [|discriminate Hreq].
  destruct (prepare graph_sha (B := unit) graph_accepted delete_request None 3)
    as [[p|]|] eqn:Hp; [|discriminate Hprep|discriminate Hprep].
  exists reqs, p. split; [reflexivity|]. split; [reflexivity|].
  destruct (commit_requirements_cover graph_sha graph_scope graph_accepted delete_request 3 p reqs
    graph_accepted_reachable Hr Hp) as [H _].
  apply (Forall_impl _ _ _ H). intros c Hc. exact (proj1 Hc).
Defined.
