(* ===== verification/GraphDurable.v ===== *)
(** * Durable graph states

    States reached by committing encoded requests contain only records and
    policies that have a canonical encoding; their checkpoints decode back to
    the state. *)
From S2P Require Import Prelude Ids Value Codec Policy GraphRecord GraphCodec GraphCodecFacts GraphCodecExact GraphIndex GraphState GraphValidity GraphCheckpoint GraphOperations GraphPublish GraphReachable GraphSamples GraphQuery GraphGuarantees.
Import CheckpointStateError.

(** ** Well-formed records are preserved *)
Definition records_ok (ov : RecordOverlay) : Prop := map_Forall (λ _ r, record_ok r) (ov_map ov).
Section records_ok.
Context (rev : CommitRevision) (Hrev : nonzero_u64 rev).
Lemma records_ok_put id r ov ov1 : records_ok ov → record_ok r →
  (∀ id, ov_map ov1 !! id = ov_map ov !! id) → records_ok (overlay_insert id r ov1).
Proof.
  intros Hov Hr Hsame id' r'. rewrite ov_map_insert. destruct (decide (id = id')) as [<-|Hne].
  - rewrite lookup_insert_eq. by intros [= <-].
  - rewrite lookup_insert_ne, Hsame by done. apply Hov.
Qed.
Lemma next_version_ok v id v' : nonzero_u64 v → next_version v id = Ok v' → nonzero_u64 v'.
Proof. intros Hv [-> ?]%next_version_Ok. unfold nonzero_u64 in *. lia. Qed.
Lemma first_version_ok : nonzero_u64 RecordVersion_FIRST.
Proof. unfold nonzero_u64, RecordVersion_FIRST, U64_MAX. lia. Qed.
Lemma assertion_status_ok a st v : record_ok (RAssertion a) → nonzero_u64 v →
  record_ok (RAssertion (assertion_set_status a st v rev)).
Proof. cbn. tauto. Qed.
Lemma relationship_status_ok x st v : record_ok (RRelationship x) → nonzero_u64 v →
  record_ok (RRelationship (relationship_set_status x st v rev)).
Proof. cbn. tauto. Qed.
Lemma entity_update_ok e l props v : record_ok (REntity e) → value_valid props → nonzero_u64 v →
  record_ok (REntity (entity_update e l props v rev)).
Proof. cbn. tauto. Qed.
Lemma assertion_record_ok n c : new_assertion_ok n → opt_ok ref_ok c →
  record_ok (RAssertion (assertion_record n c rev)).
Proof. pose proof first_version_ok. unfold new_assertion_ok. cbn. tauto. Qed.
Lemma relationship_record_ok n c : new_relationship_ok n → opt_ok ref_ok c →
  record_ok (RRelationship (relationship_record n c rev)).
Proof. pose proof first_version_ok. unfold new_relationship_ok. cbn. tauto. Qed.
Lemma record_ok_version r : record_ok r → nonzero_u64 (record_version r).
Proof. destruct r; cbn; tauto. Qed.
(** The record read through [get_mut] is well-formed. *)
Lemma get_mut_ok id ov r ov1 : records_ok ov → overlay_get_mut id ov = Some (r, ov1) →
  record_ok r ∧ ∀ id, ov_map ov1 !! id = ov_map ov !! id.
Proof.
  intros Hov Hg. split; [|by eapply get_mut_same].
  apply overlay_get_mut_Some in Hg as [Hg _]. by apply (Hov id).
Qed.
Lemma create_ok n st st' : new_record_ok n → records_ok st.1 →
  create_record n rev st = Ok st' → records_ok st'.1.
Proof.
  intros Hn Hov. unfold create_record. destruct (overlay_contains _ _); [done|].
  intros (r & Hr & [= <-])%bind_Ok. cbn [fst ostate_put]. eapply records_ok_put; [done| |done].
  pose proof first_version_ok. destruct n as [e|e|a|x]; cbn in Hn, Hr.
  - injection Hr as <-. cbn. tauto.
  - injection Hr as <-. cbn. tauto.
  - destruct (negb _); [done|]. injection Hr as <-. by apply assertion_record_ok.
  - destruct (negb _); [done|]. injection Hr as <-. by apply relationship_record_ok.
Qed.
Lemma assertion_action_ok target act corr st st' : ref_ok target → opt_ok new_assertion_ok corr →
  records_ok st.1 → apply_assertion_action target act corr rev st = Ok st' → records_ok st'.1.
Proof.
  intros Ht Hc Hov. unfold apply_assertion_action. intros (status & _ & H)%bind_Ok. case_decide.
  - destruct (negb _); [done|]. apply bind_Ok in H as (n & ->%ok_or_Ok & H).
    destruct (overlay_contains _ _); [done|]. destruct (negb _); [done|]. injection H as <-.
    cbn [fst ostate_put]. eapply records_ok_put; [done| |done]. by apply assertion_record_ok.
  - destruct corr; [done|]. apply bind_Ok in H as (next & _ & H).
    destruct (overlay_get_mut target st.1) as [[[e|e|a|x] ov1]|] eqn:Hg; try done.
    destruct (get_mut_ok _ _ _ _ Hov Hg) as [Ha Hs].
    apply bind_Ok in H as (v & Hv & [= <-]). cbn [fst ostate_put].
    eapply records_ok_put; [done| |done]. apply assertion_status_ok; [done|].
    eapply next_version_ok; [|done]. by apply (record_ok_version (RAssertion a)).
Qed.
Lemma relationship_action_ok target act corr st st' : ref_ok target → opt_ok new_relationship_ok corr →
  records_ok st.1 → apply_relationship_action target act corr rev st = Ok st' → records_ok st'.1.
Proof.
  intros Ht Hc Hov. unfold apply_relationship_action. intros (status & _ & H)%bind_Ok. case_decide.
  - destruct (negb _); [done|]. apply bind_Ok in H as (n & ->%ok_or_Ok & H).
    destruct (overlay_contains _ _); [done|]. destruct (negb _); [done|]. injection H as <-.
    cbn [fst ostate_put]. eapply records_ok_put; [done| |done]. by apply relationship_record_ok.
  - destruct corr; [done|]. apply bind_Ok in H as (next & _ & H).
    destruct (overlay_get_mut target st.1) as [[[e|e|a|x] ov1]|] eqn:Hg; try done.
    destruct (get_mut_ok _ _ _ _ Hov Hg) as [Ha Hs].
    apply bind_Ok in H as (v & Hv & [= <-]). cbn [fst ostate_put].
    eapply records_ok_put; [done| |done]. apply relationship_status_ok; [done|].
    eapply next_version_ok; [|done]. by apply (record_ok_version (RRelationship x)).
Qed.
Lemma retract_ok b st id st' : records_ok st.1 → retract_declared rev b st id = Ok st' → records_ok st'.1.
Proof.
  intros Hov H. unfold retract_declared in H.
  destruct (overlay_get_mut id st.1) as [[r ov1]|] eqn:Hg.
  2:{ destruct b, (overlay_get st.1 id) as [[]|]; by injection H as <-. }
  destruct (get_mut_ok _ _ _ _ Hov Hg) as [Ha Hs].
  pose proof (record_ok_version _ Ha) as Hv0.
  destruct b, (overlay_get st.1 id) as [[]|], r as []; try (by injection H as <-);
    apply bind_Ok in H as (v & Hv & [= <-]); cbn [fst ostate_put];
    (eapply records_ok_put; [done| |done]); pose proof (next_version_ok _ _ _ Hv0 Hv);
    by first [apply assertion_status_ok|apply relationship_status_ok].
Qed.
Lemma retract_all_ok b l st st' : records_ok st.1 →
  try_fold (retract_declared rev b) l st = Ok st' → records_ok st'.1.
Proof.
  revert st. induction l as [|id l IH]; intros st Hov H; [by injection H as <-|].
  cbn [try_fold] in H. apply bind_Ok in H as (st1 & H1 & H). eapply IH; [|done]. by eapply retract_ok.
Qed.
Lemma delete_ok target pol declared st st' : records_ok st.1 →
  delete_entity target pol declared rev st = Ok st' → records_ok st'.1.
Proof.
  intros Hov. unfold delete_entity. intros [_ H]%then_Ok. apply bind_Ok in H as (st1 & Hd & H).
  assert (records_ok st1.1) as Hst.
  { destruct pol as [|maximum].
    - destruct (_ || _); [done|]. destruct (negb _); [done|]. by injection Hd as <-.
    - repeat match type of Hd with (if ?b then _ else _) = _ => destruct b; [done|] end.
      cbn [try_fold] in Hd. apply bind_Ok in Hd as (s1 & H1 & Hd).
      apply bind_Ok in Hd as (s2 & H2 & [= <-]).
      eapply retract_all_ok; [|done]. by eapply retract_all_ok. }
  destruct (overlay_get_mut target st1.1) as [[[e|e|a|x] ov2]|] eqn:Hg; try done.
  destruct (get_mut_ok _ _ _ _ Hst Hg) as [He Hs].
  apply bind_Ok in H as (v & Hv & [= <-]). cbn [fst ostate_put].
  eapply records_ok_put; [done| |done]. apply entity_update_ok; [done|cbn in He; tauto|].
  eapply next_version_ok; [|done]. by apply (record_ok_version (REntity e)).
Qed.
Lemma apply_operation_ok op st st' : operation_ok op → records_ok st.1 →
  apply_operation op rev st = Ok st' → records_ok st'.1.
Proof.
  intros Hop Hov H. destruct op as [exp n|t exp props|t exp act corr cexp|t exp act corr cexp|t exp p d];
    cbn [operation_ok apply_operation] in *.
  - eapply create_ok; [|done|done]. tauto.
  - destruct (overlay_get_mut t st.1) as [[[e|e|a|x] ov2]|] eqn:Hg; try done.
    destruct (negb _); [done|]. destruct (get_mut_ok _ _ _ _ Hov Hg) as [He Hs].
    apply bind_Ok in H as (v & Hv & [= <-]). cbn [fst ostate_put].
    eapply records_ok_put; [done| |done]. apply entity_update_ok; [done|tauto|].
    eapply next_version_ok; [|done]. by apply (record_ok_version (REntity e)).
  - eapply assertion_action_ok; [| |done|done]; tauto.
  - eapply relationship_action_ok; [| |done|done]; tauto.
  - by eapply delete_ok.
Qed.
Lemma prepare_operations_ok ops ps ps' : Forall operation_ok ops → records_ok (ps_records ps) →
  try_fold (prepare_operation rev) ops ps = Ok ps' → records_ok (ps_records ps').
Proof.
  revert ps. induction ops as [|op ops IH]; intros ps Hops Hov H; [by injection H as <-|].
  apply Forall_cons in Hops as [Hop Hops]. cbn [try_fold] in H. apply bind_Ok in H as (ps1 & H1 & H).
  eapply IH; [done| |done]. apply prepare_operation_Ok in H1 as (ov & aff & Ha & _ & _ & ->).
  by eapply (apply_operation_ok _ (ps_records ps, ∅)) in Ha.
Qed.
End records_ok.

(** ** Durable states *)
Record durable (s : GraphState) : Prop := {
  du_records : map_Forall (λ _ r, record_ok r) (records s);
  du_history : map_Forall (λ _ vs, Forall record_ok vs) (history s);
  du_policies : map_Forall (λ rev p, nonzero_u64 rev ∧ codec_policy_ok p) (policy_history s)
}.
Lemma durable_new sc : durable (GraphState_new sc).
Proof. split; apply map_Forall_empty. Qed.
Lemma mutation_policy_ok m : mutation_ok m → codec_policy_ok (mutation_policy m).
Proof. destruct m; cbn; tauto. Qed.
Lemma commit_durable s tx rev p ps s' : graph_inv s → durable s → transaction_ok tx →
  commit_effect s tx rev p ps s' → durable s'.
Proof.
  intros Hi Hd (_ & Hops & Hmut) Hc. destruct (ce_revision _ _ _ _ _ _ Hc) as [Hrev Hmax].
  assert (nonzero_u64 rev) as Hnz.
  { pose proof (gi_revision _ Hi) as H. unfold current in *. unfold nonzero_u64.
    destruct (revision s); cbn in *; lia. }
  assert (records_ok (ps_records ps)) as Hps.
  { eapply prepare_operations_ok; [done|exact Hops| |exact (ce_fold _ _ _ _ _ _ Hc)].
    unfold records_ok, ov_map. cbn. rewrite (left_id_L ∅ _). apply (du_records _ Hd). }
  split.
  - rewrite (ce_records _ _ _ _ _ _ Hc). apply Hps.
  - rewrite (ce_history _ _ _ _ _ _ Hc). intros id vs. rewrite lookup_append_versions.
    destruct (ov_changed (ps_records ps) !! id) as [r|] eqn:Hr.
    + intros [= <-]. apply Forall_app. split.
      * destruct (history s !! id) as [vs'|] eqn:Hh; [|constructor]. by apply (du_history _ Hd id).
      * repeat constructor. apply (Hps id). unfold ov_map. by apply lookup_union_Some_l.
    + apply (du_history _ Hd id).
  - pose proof (ce_policy _ _ _ _ _ _ Hc) as Hp. destruct (tx_policy_mutation tx) as [m|].
    + destruct Hp as (_ & -> & _). apply map_Forall_insert_2; [|apply (du_policies _ Hd)].
      split; [done|]. by apply mutation_policy_ok.
    + destruct Hp as [_ ->]. apply (du_policies _ Hd).
Qed.

(** States reached by committing encoded requests: each request is decoded and
    prepared as the transaction layer does, then published. *)
Inductive served (sha256 : list byte → list byte) (sc : NamespaceRef) : GraphState → Prop :=
| served_new : served sha256 sc (GraphState_new sc)
| served_commit s request rev p s' :
    served sha256 sc s → zlen request ≤ I64_MAX →
    prepare sha256 (B := unit) s request None rev = Some (Ok p) →
    publish p s = Some s' → served sha256 sc s'.
Lemma prepare_request sha256 s request rev p :
  prepare sha256 (B := unit) s request None rev = Some (Ok p) →
  ∃ tx, decode_transaction request = Ok tx ∧
    prepare_transaction_with_digest sha256 s tx rev (Some (sha256 request)) = Some (Ok p).
Proof.
  unfold prepare. destruct (decode_transaction request) as [tx|]; [|done].
  destruct (negb _); [done|]. intros ([p'|e] & Hp & Heq)%bind_Some; [|done].
  injection Heq as <-. by exists tx.
Qed.
Lemma served_durable sha256 sc s : served sha256 sc s → graph_inv s ∧ durable s ∧ scope s = sc.
Proof.
  induction 1 as [|s request rev p s' _ (Hi & Hd & Hs) Hlen Hp Hpub].
  { split_and!; [apply graph_inv_new|apply durable_new|done]. }
  apply prepare_request in Hp as (tx & Htx & Hp).
  apply (framed_exact _ _ _ _ _ encode_transaction_exact Hlen) in Htx as [Htx _].
  destruct (commit_publish _ _ _ _ _ _ Hi Hp) as (ps & s2 & H2 & Hc).
  rewrite Hpub in H2. injection H2 as <-. rewrite <-Hs.
  split_and!; [by eapply commit_inv|by eapply commit_durable|apply (ce_scope _ _ _ _ _ _ Hc)].
Qed.

(** ** What the encoder writes, the decoder reads *)

(** A step of the encoder appends bytes, within the limit, that a step of the
    decoder reads back as [a]. *)
Definition emits {A} (write : list byte → result CheckpointStateError (list byte))
    (read : cursor → result CheckpointStateError (A * cursor)) (a : A) : Prop :=
  ∀ out out', write out = Ok out' →
    (zlen out ≤ MAX_GRAPH_CHECKPOINT_BYTES → zlen out' ≤ MAX_GRAPH_CHECKPOINT_BYTES) ∧
    ∃ bytes, out' = out ++ bytes ∧ ∀ rest, read (bytes ++ rest) = Ok (a, rest).
Lemma out_extend_Ok v out out' : out_extend v out = Ok out' →
  out' = out ++ v ∧ zlen out' ≤ MAX_GRAPH_CHECKPOINT_BYTES.
Proof.
  unfold out_extend. destruct (_ <? _) eqn:Hl; [done|]. intros [= <-]. split; [done|]. rewrite zlen_app. lia.
Qed.
Lemma cp_read_app v rest : cp_read (zlen v) (v ++ rest) = Ok (v, rest).
Proof.
  unfold cp_read. rewrite (proj2 (Z.leb_le _ _)) by (rewrite zlen_app; pose proof (zlen_nonneg rest); lia).
  unfold zlen. by rewrite Nat2Z.id, take_app_length, drop_app_length.
Qed.
Lemma emits_extend v n : zlen v = n → emits (out_extend v) (cp_read n) v.
Proof.
  intros <- out out' [-> ?]%out_extend_Ok. split; [done|]. exists v. split; [done|]. intros. apply cp_read_app.
Qed.
Lemma emits_bind {A B} w1 (r1 : cursor → result CheckpointStateError (A * cursor)) a
    w2 (r2 : A → cursor → result CheckpointStateError (B * cursor)) b :
  emits w1 r1 a → emits w2 (r2 a) b →
  emits (λ out, out ← w1 out; w2 out) (λ c, '(a, c) ← r1 c; r2 a c) b.
Proof.
  intros H1 H2 out out' (mid & Hw1 & Hw2)%bind_Ok.
  destruct (H1 _ _ Hw1) as (Hl1 & b1 & -> & Hr1). destruct (H2 _ _ Hw2) as (Hl & b2 & -> & Hr2).
  split; [by auto|]. exists (b1 ++ b2). rewrite <-!(assoc_L _). split; [done|]. intros rest.
  by rewrite <-(assoc_L _), Hr1, result_bind_Ok, Hr2.
Qed.
(** The decoder may compute on what it has read. *)
Lemma emits_pure {A B} w (r : cursor → result CheckpointStateError (A * cursor)) a
    (f : A → result CheckpointStateError B) b :
  emits w r a → f a = Ok b → emits w (λ c, '(a, c) ← r c; b ← f a; Ok (b, c)) b.
Proof.
  intros H Hf out out' Hw. destruct (H _ _ Hw) as (Hl & bs & -> & Hr). split; [done|].
  exists bs. split; [done|]. intros rest. by rewrite Hr, result_bind_Ok, Hf.
Qed.
Lemma emits_ext {A} w w' (r r' : cursor → result CheckpointStateError (A * cursor)) a :
  (∀ o, w' o = w o) → (∀ c, r c = r' c) → emits w r a → emits w' r' a.
Proof.
  intros Hw Hr He out out' H. rewrite Hw in H. destruct (He _ _ H) as (? & bs & ? & Hb).
  split; [done|]. exists bs. split; [done|]. intros. by rewrite <-Hr.
Qed.
Lemma emits_usize n : 0 ≤ n ≤ U64_MAX → emits (out_usize n) cp_read_u64 n.
Proof.
  intros Hn. assert (zlen (be_bytes 8 n) = 8) as Hl by (unfold zlen; by rewrite length_be_bytes).
  apply (emits_pure _ _ _ (λ b, Ok (of_be_bytes b)) n (emits_extend _ _ Hl)).
  rewrite of_be_bytes_be; [done|]. unfold U64_MAX in Hn. lia.
Qed.
Lemma emits_count n maximum : 0 ≤ n ≤ maximum → n ≤ U64_MAX → emits (out_usize n) (cp_read_count maximum) n.
Proof.
  intros Hn Hm. unfold cp_read_count.
  assert (emits (out_usize n) cp_read_u64 n) as H by (apply emits_usize; lia).
  intros out out' Hw. destruct (H _ _ Hw) as (Hl & bs & -> & Hr). split; [done|].
  exists bs. split; [done|]. intros rest. rewrite Hr, result_bind_Ok.
  by rewrite (proj2 (Z.ltb_ge _ _)) by lia.
Qed.
Lemma out_frame_bound v out out' : out_frame v out = Ok out' → zlen v ≤ MAX_GRAPH_CHECKPOINT_BYTES.
Proof.
  intros (o1 & _ & [-> Hl]%out_extend_Ok)%bind_Ok. rewrite zlen_app in Hl.
  pose proof (zlen_nonneg o1). lia.
Qed.
Lemma emits_frame v : emits (out_frame v) cp_read_frame v.
Proof.
  intros out out' Hw. pose proof (out_frame_bound _ _ _ Hw) as Hv. revert out out' Hw.
  apply (emits_bind _ _ (zlen v) _ (λ n, cp_read n)); [|by apply emits_extend].
  apply emits_usize. pose proof (zlen_nonneg v). unfold MAX_GRAPH_CHECKPOINT_BYTES, U64_MAX in *. lia.
Qed.
(** Encoding a value with an exact codec into a frame. *)
Lemma emits_encoded {A} (enc : A → result GraphCodecError Value) dec ok a : vexact enc dec ok → ok a →
  emits (λ out, encoded ← map_err checkpoint_codec_error (v ← enc a; encode_frame v); out_frame encoded out)
    (λ c, '(frame, c) ← cp_read_frame c;
      a ← map_err checkpoint_codec_error (v ← decode_frame frame; dec v); Ok (a, c)) a.
Proof.
  intros He Ha out out' (b & Hb%map_err_Ok & Hw)%bind_Ok. pose proof (out_frame_bound _ _ _ Hw) as Hl.
  assert ((v ← decode_frame b; dec v) = Ok a) as Hd.
  { apply (framed_exact _ _ _ _ _ He); [|done]. unfold MAX_GRAPH_CHECKPOINT_BYTES, I64_MAX in *. lia. }
  revert out out' Hw. apply (emits_pure _ _ b (λ f, map_err checkpoint_codec_error (v ← decode_frame f; dec v)));
    [apply emits_frame|]. by rewrite Hd.
Qed.
Lemma emits_record r : record_ok r → emits (λ out, out_record out r) cp_read_record r.
Proof.
  intros Hr. eapply emits_ext; [| |exact (emits_encoded _ _ _ _ encode_record_exact Hr)]; done.
Qed.
Lemma emits_policy p : opt_ok codec_policy_ok p → emits (out_policy p) cp_read_policy p.
Proof.
  intros Hp. eapply emits_ext; [| |refine (emits_encoded _ _ _ _ (optional_exact _ _ _ encode_policy_exact _) Hp)];
    [done..|apply encode_policy_not_null].
Qed.

(** ** The loops of the decoder *)

(** Entries above a previous key, in order. *)
Definition ascending {K V} `{Lexico K} (previous : option K) (l : list (K * V)) : Prop :=
  StronglySorted lexico l.*1 ∧ match previous with Some k => Forall (lexico k) l.*1 | None => True end.
Lemma ascending_cons {K V} `{Lexico K} (prev : option K) (k : K) (v : V) l : ascending prev ((k, v) :: l) →
  ascending (Some k) l ∧ match prev with Some p => lexico p k | None => True end.
Proof.
  intros [[Hk Hs]%StronglySorted_cons Hp]. split; [by split|].
  destruct prev; [|done]. by apply Forall_cons in Hp as [? _].
Qed.
Definition load_entries {K V} `{Countable K} (l : list (K * V)) (m : gmap K V) : gmap K V :=
  foldl (λ m e, <[e.1 := e.2]> m) m l.
Lemma load_entries_all {K V} `{Countable K, Lexico K, !TrichotomyT (@lexico K _),
    !StrictOrder (@lexico K _)} (m : gmap K V) : load_entries (btree_entries m) ∅ = m.
Proof.
  assert (∀ l, NoDup l.*1 → load_entries l (∅ : gmap K V) = list_to_map l) as Hgen.
  { induction l as [|[k v] l IH] using rev_ind; [done|]. rewrite fmap_app. intros Hnd.
    apply NoDup_app in Hnd as (Hnd & Hk & _). rewrite list_to_map_snoc.
    - unfold load_entries in *. by rewrite foldl_app, IH.
    - intros Hin. apply (Hk k Hin). by left. }
  rewrite Hgen by apply btree_keys_NoDup. rewrite <-(list_to_map_to_list m) at 2.
  apply list_to_map_proper; [apply btree_keys_NoDup|apply btree_entries_Permutation].
Qed.
Lemma emits_id sc prev id : ref_ok id → ref_scope id = sc →
  match prev with Some p => lexico p id | None => True end →
  emits (out_extend (as_bytes (ref_id id))) (cp_read_id sc prev) id.
Proof.
  intros [_ Hid] Hsc Hp. assert (zlen (as_bytes (ref_id id)) = 16) as Hl by (unfold zlen; by rewrite Hid).
  intros out out' Hw. destruct (emits_extend _ _ Hl _ _ Hw) as (Hb & bs & -> & Hr).
  split; [done|]. exists bs. split; [done|]. intros rest. unfold cp_read_id.
  rewrite Hr, result_bind_Ok. cbv zeta.
  assert (checkpoint_record sc (as_bytes (ref_id id)) = id) as ->.
  { destruct id as [[d n] [b]]. by subst sc. }
  destruct prev as [p|]; [|done]. rewrite bool_decide_eq_false_2; [done|]. unfold key_le. tauto.
Qed.
Lemma record_ok_id r : record_ok r → ref_ok (record_id r).
Proof. destruct r; cbn; tauto. Qed.

(** Uses of [emits]: the bytes a step appended, and their concatenation. *)
Ltac take_bytes pf W R :=
  let L := fresh "L" in let b := fresh "b" in
  destruct (pf _ _ W) as (L & b & -> & R); clear W.
Ltac emitted :=
  split; [by auto|]; eexists; split; [by rewrite <-!(assoc_L _)|]; intros rest; rewrite <-!(assoc_L _).
Section loops.
Context (sc : NamespaceRef) (rev : CommitRevision).
Definition entry_durable (e : RecordRef * GRecord) : Prop :=
  record_ok e.2 ∧ record_id e.2 = e.1 ∧ ref_scope e.1 = sc ∧ modified_revision e.2 ≤ rev.
(** An empty loop writes and reads nothing. *)
Lemma emits_nothing {A} (a : A) : emits Ok (λ c, Ok (a, c)) a.
Proof. intros out out' [= <-]. split; [done|]. exists []. by rewrite app_nil_r. Qed.
Lemma emits_records l prev m : ascending prev l → Forall entry_durable l →
  emits (try_fold out_record_entry l) (decode_records sc rev (length l) prev m) (load_entries l m).
Proof.
  revert prev m. induction l as [|[id r] l IH]; intros prev m Ha Hl; [apply emits_nothing|].
  apply ascending_cons in Ha as [Ha Hp]. apply Forall_cons in Hl as [(Hr & Hid & Hs & Hrv) Hl].
  cbn [fst snd] in *. intros out out' (o2 & (o1 & W1 & W2)%bind_Ok & W3)%bind_Ok. cbn [fst snd] in W1, W2.
  assert (ref_ok id) as Href by (rewrite <-Hid; by apply record_ok_id).
  take_bytes (emits_id sc prev id Href Hs Hp) W1 R1. take_bytes (emits_record r Hr) W2 R2.
  take_bytes (IH (Some id) (<[id := r]> m) Ha Hl) W3 R3. emitted. cbn [length decode_records].
  rewrite R1, result_bind_Ok, R2, result_bind_Ok, bool_decide_eq_true_2, (proj2 (Z.ltb_ge _ _)) by done.
  apply R3.
Qed.
Lemma emits_versions id vs versions index : Forall record_ok vs →
  check_versions id rev index (last versions) vs = Ok tt →
  emits (try_fold out_record vs) (decode_versions id rev (length vs) index versions) (versions ++ vs).
Proof.
  revert versions index. induction vs as [|r vs IH]; intros versions index Hok Hc.
  { rewrite app_nil_r. apply emits_nothing. }
  apply Forall_cons in Hok as [Hr Hok]. cbn [check_versions] in Hc.
  apply bind_Ok in Hc as (v & Hv & Hc). destruct (_ || _) eqn:Hg in Hc; [done|].
  rewrite <-(last_snoc r versions) in Hc.
  intros out out' (o1 & W1 & W2)%bind_Ok. take_bytes (emits_record r Hr) W1 R1.
  take_bytes (IH (versions ++ [r]) (index + 1) Hok Hc) W2 R2. emitted. cbn [length decode_versions].
  rewrite R1, result_bind_Ok, Hv, result_bind_Ok, Hg, R2, <-(assoc_L _). done.
Qed.
Definition history_durable (recs : Records) (e : RecordRef * list GRecord) : Prop :=
  Forall record_ok e.2 ∧ check_history sc rev recs e = Ok tt ∧ ref_ok e.1 ∧ ref_scope e.1 = sc.
Definition versions_total (l : list (RecordRef * list GRecord)) : Z :=
  foldr (λ e total, zlen e.2 + total) 0 l.
Lemma emits_histories recs l prev total m : ascending prev l → Forall (history_durable recs) l →
  0 ≤ total → total + versions_total l ≤ MAX_GRAPH_CHECKPOINT_VERSIONS →
  emits (try_fold out_history_entry l) (decode_histories sc rev recs (length l) prev total m) (load_entries l m).
Proof.
  revert prev total m. induction l as [|[id vs] l IH]; intros prev total m Ha Hl H0 Ht; [apply emits_nothing|].
  apply ascending_cons in Ha as [Ha Hp]. apply Forall_cons in Hl as [(Hr & Hh & Hid & Hs) Hl].
  apply check_history_Ok in Hh as (Hne & Hv & Hval & Hlast).
  cbn [versions_total foldr fst snd] in Ht, Hr, Hid, Hs. fold (versions_total l) in Ht.
  assert (0 ≤ versions_total l) as Htl.
  { clear. induction l as [|e l IH]; cbn; [done|]. pose proof (zlen_nonneg e.2). unfold versions_total in IH. lia. }
  assert (0 < zlen vs) as Hz by (destruct vs; [done|]; rewrite zlen_cons; pose proof (zlen_nonneg vs); lia).
  assert (total + zlen vs ≤ MAX_GRAPH_CHECKPOINT_VERSIONS) as Hsum by lia.
  assert (zlen vs ≤ U64_MAX ∧ total + zlen vs ≤ U64_MAX) as [Hu1 Hu2]
    by (unfold MAX_GRAPH_CHECKPOINT_VERSIONS, U64_MAX in *; lia).
  intros out out' (o3 & (o1 & W1 & (o2 & W2 & W3)%bind_Ok)%bind_Ok & W4)%bind_Ok. cbn [fst snd] in W1, W2, W3.
  take_bytes (emits_id sc prev id Hid Hs Hp) W1 R1.
  take_bytes (emits_count (zlen vs) MAX_GRAPH_CHECKPOINT_VERSIONS ltac:(lia) Hu1) W2 R2.
  take_bytes (emits_versions id vs [] 0 Hr Hv) W3 R3.
  take_bytes (IH (Some id) (total + zlen vs) (<[id := vs]> m) Ha Hl ltac:(lia) ltac:(lia)) W4 R4.
  emitted. cbn [length decode_histories].
  rewrite R1, result_bind_Ok, R2, result_bind_Ok, (proj2 (Z.eqb_neq _ _)) by lia.
  unfold checked_add. rewrite (proj2 (Z.leb_le _ _)) by lia. cbn [ok_or].
  rewrite result_bind_Ok, (proj2 (Z.ltb_ge _ _)) by lia.
  replace (Z.to_nat (zlen vs)) with (length vs) by (unfold zlen; lia).
  rewrite R3, result_bind_Ok. cbn [app].
  rewrite Hval, result_bind_Ok, bool_decide_eq_true_2 by done. apply R4.
Qed.
Lemma emits_policies l prev previous m : ascending prev l →
  Forall (λ e, nonzero_u64 e.1 ∧ codec_policy_ok e.2) l → check_policy_history sc rev previous l = Ok tt →
  emits (try_fold out_policy_entry l) (decode_policies sc rev (length l) prev previous m) (load_entries l m).
Proof.
  revert prev previous m. induction l as [|[q p] l IH]; intros prev previous m Ha Hl Hc; [apply emits_nothing|].
  apply ascending_cons in Ha as [Ha Hp]. apply Forall_cons in Hl as [[Hq Hpol] Hl]. cbn [fst snd] in Hq, Hpol.
  cbn [check_policy_history] in Hc. destruct (_ || _) eqn:Hg in Hc; [done|].
  unfold nonzero_u64 in Hq. assert (0 ≤ q ≤ U64_MAX) as Hqr by lia.
  intros out out' (o2 & (o1 & W1 & W2)%bind_Ok & W3)%bind_Ok. cbn [fst snd] in W1, W2.
  take_bytes (emits_usize q Hqr) W1 R1. take_bytes (emits_policy (Some p) Hpol) W2 R2.
  take_bytes (IH (Some q) (Some (policy_version p)) (<[q := p]> m) Ha Hl Hc) W3 R3.
  emitted. cbn [length decode_policies].
  rewrite R1, result_bind_Ok. unfold CommitRevision_new. rewrite (proj2 (Z.eqb_neq _ _)) by lia.
  cbn [map_err]. rewrite result_bind_Ok, R2, result_bind_Ok. cbn [ok_or]. rewrite result_bind_Ok.
  assert (match prev with Some v => q <=? v | None => false end = false) as ->.
  { destruct prev; [|done]. apply Z.leb_gt, Hp. }
  rewrite orb_false_r, Hg. apply R3.
Qed.
End loops.

(** ** The round trip *)
Lemma validate_scope_eq sc id : validate_scope sc id = Ok tt → ref_scope id = sc.
Proof.
  unfold validate_scope. destruct (_ && _) eqn:H; [|done]. intros _.
  apply andb_true_iff in H as [H1%bool_decide_eq_true H2%bool_decide_eq_true].
  destruct id as [[d n] i], sc. unfold ref_database, ref_namespace in *. cbn in *. congruence.
Qed.
Lemma check_versions_id id rev index prev vs : check_versions id rev index prev vs = Ok tt →
  Forall (λ r, record_id r = id ∧ modified_revision r ≤ rev) vs.
Proof.
  revert index prev. induction vs as [|r vs IH]; intros index prev H; [constructor|].
  cbn [check_versions] in H. apply bind_Ok in H as (v & _ & H). destruct (_ || _) eqn:Hg in H; [done|].
  constructor; [|by eapply IH].
  apply orb_false_iff in Hg as [[[Hid _]%orb_false_iff Hm]%orb_false_iff _].
  apply negb_false_iff, bool_decide_eq_true in Hid. apply Z.ltb_ge in Hm. done.
Qed.
Section roundtrip.
Context (s : GraphState) (Hi : graph_inv s) (Hd : durable s).
Lemma history_keys id vs : history s !! id = Some vs → ref_ok id ∧ ref_scope id = scope s ∧
  ∃ r, last vs = Some r ∧ record_id r = id ∧ modified_revision r ≤ current s.
Proof.
  intros Hh. destruct (gi_history _ Hi _ _ Hh) as [(Hne & Hv%check_versions_id & Hval & _)%check_history_Ok _].
  destruct (last vs) as [r|] eqn:Hl; [|by apply last_None in Hl].
  pose proof (history_last_shape _ _ _ Hval Hl) as Hs. apply last_Some_elem_of in Hl.
  pose proof (du_history _ Hd _ _ Hh) as Hok. rewrite Forall_forall in Hv, Hok.
  destruct (Hv r Hl) as [Hid Hm]. split_and!.
  - rewrite <-Hid. by apply record_ok_id, Hok.
  - apply then_Ok in Hs as [Hs _]. apply map_err_Ok in Hs. rewrite <-Hid. by apply validate_scope_eq.
  - by exists r.
Qed.
Lemma records_durable : Forall (entry_durable (scope s) (current s)) (btree_entries (records s)).
Proof.
  apply Forall_forall. intros [id r] Hin%elem_of_btree_entries.
  destruct (history s !! id) as [vs|] eqn:Hh; [|apply (history_None _ Hi) in Hh; congruence].
  destruct (history_keys _ _ Hh) as (_ & Hs & r' & Hl & Hid & Hm).
  destruct (history_Some _ Hi _ _ Hh) as (_ & _ & _ & Hlast).
  assert (r' = r) as -> by congruence. split_and!; try done. by apply (du_records _ Hd id).
Qed.
Lemma histories_durable :
  Forall (history_durable (scope s) (current s) (records s)) (btree_entries (history s)).
Proof.
  apply Forall_forall. intros [id vs] Hh%elem_of_btree_entries.
  destruct (history_keys _ _ Hh) as (Hid & Hs & _). split_and!; try done.
  - by apply (du_history _ Hd id).
  - by apply (gi_history _ Hi).
Qed.
Lemma policies_durable :
  Forall (λ e, nonzero_u64 e.1 ∧ codec_policy_ok e.2) (btree_entries (policy_history s)).
Proof. apply Forall_forall. intros [q p] Hp%elem_of_btree_entries. by apply (du_policies _ Hd q). Qed.
Lemma policy_durable : opt_ok codec_policy_ok (policy s).
Proof.
  rewrite <-(gi_policy_last _ Hi). destruct (last _) as [p|] eqn:Hl; [|done].
  apply last_Some_elem_of in Hl as (q & Hq)%elem_of_btree_values. by apply (du_policies _ Hd q).
Qed.
Lemma ascending_entries {K V} `{Countable K, Lexico K, !TrichotomyT (@lexico K _),
    !StrictOrder (@lexico K _)} (m : gmap K V) : ascending None (btree_entries m).
Proof. split; [apply btree_keys_sorted|done]. Qed.
Lemma versions_total_Ok (l : list (RecordRef * list GRecord)) acc total :
  try_fold (λ total versions, checked_count total (zlen versions)) l.*2 acc = Ok total →
  acc + versions_total l = total.
Proof.
  revert acc. induction l as [|[id vs] l IH]; intros acc H.
  { injection H as <-. cbn. lia. }
  rewrite fmap_cons in H. apply bind_Ok in H as (acc' & Ha & H). apply IH in H.
  unfold checked_count, checked_add in Ha. destruct (_ <=? _); [|done]. injection Ha as <-.
  cbn [versions_total foldr fst snd] in *. unfold versions_total in *. cbn in *. lia.
Qed.
Lemma zlen_entries {K V} `{Countable K, Lexico K, !TrichotomyT (@lexico K _),
    !StrictOrder (@lexico K _)} (m : gmap K V) : Z.to_nat (map_len m) = length (btree_entries m).
Proof. rewrite length_btree_entries. unfold map_len. lia. Qed.
Lemma map_len_count {K V} `{Countable K} (m : gmap K V) : map_len m ≤ MAX_GRAPH_CHECKPOINT_RECORDS →
  emits (out_usize (map_len m)) (cp_read_count MAX_GRAPH_CHECKPOINT_RECORDS) (map_len m).
Proof.
  intros Hm. apply emits_count; unfold map_len, MAX_GRAPH_CHECKPOINT_RECORDS, U64_MAX in *; lia.
Qed.
Lemma encoded_decodes rev b : scope_ok (scope s) → revision s = Some rev →
  encode_graph_checkpoint s = Ok b → decode_graph_checkpoint (scope s) rev b = Ok s.
Proof.
  intros [Hdb Hns] Hrev Henc. unfold encode_graph_checkpoint in Henc. rewrite Hrev in Henc.
  cbn [ok_or] in Henc. rewrite result_bind_Ok in Henc. destruct (_ || _) eqn:Hg in Henc; [done|].
  apply orb_false_iff in Hg as [[Hn1%Z.ltb_ge Hn2%Z.ltb_ge]%orb_false_iff Hn3%Z.ltb_ge].
  apply bind_Ok in Henc as (total & Htotal%versions_total_Ok & Henc).
  destruct (_ <? total) eqn:Ht in Henc; [done|]. apply Z.ltb_ge in Ht.
  assert (current s = rev) as Hcur by (unfold current; by rewrite Hrev).
  assert (1 ≤ rev ≤ U64_MAX) as Hr by (pose proof (gi_revision _ Hi) as H; by rewrite Hrev in H).
  repeat match type of Henc with
  | (_ ← _; _) = _ => let W := fresh "W" in apply bind_Ok in Henc as (? & W & Henc)
  end.
  take_bytes (emits_extend GRAPH_CHECKPOINT_MAGIC 8 eq_refl) W R1.
  assert (zlen (as_bytes (ns_database (scope s))) = 16) as Hl1 by (unfold zlen; by rewrite Hdb).
  take_bytes (emits_extend _ 16 Hl1) W0 R2.
  assert (zlen (as_bytes (ns_namespace (scope s))) = 16) as Hl2 by (unfold zlen; by rewrite Hns).
  take_bytes (emits_extend _ 16 Hl2) W1 R3. take_bytes (emits_usize rev ltac:(lia)) W2 R4.
  take_bytes (map_len_count (records s) Hn1) W3 R5.
  take_bytes (emits_records (scope s) (current s) _ None ∅ (ascending_entries _) records_durable) W4 R6.
  take_bytes (map_len_count (history s) Hn2) W5 R7.
  take_bytes (emits_histories (scope s) (current s) (records s) _ None 0 ∅ (ascending_entries _)
    histories_durable ltac:(lia) ltac:(lia)) W6 R8.
  take_bytes (emits_policy (policy s) policy_durable) W7 R9.
  take_bytes (map_len_count (policy_history s) Hn3) W8 R10.
  take_bytes (emits_policies (scope s) (current s) _ None None ∅ (ascending_entries _) policies_durable
    (gi_policies _ Hi)) Henc R11.
  rewrite !load_entries_all in *. rewrite <-!zlen_entries, Hcur in *.
  assert (zlen (@nil byte) ≤ MAX_GRAPH_CHECKPOINT_BYTES) as Hz by done.
  unfold decode_graph_checkpoint. rewrite (proj2 (Z.ltb_ge _ _)) by auto 20.
  rewrite <-!(assoc_L _), (left_id_L [] _).
  rewrite R1, result_bind_Ok, bool_decide_eq_true_2 by done. cbn [negb].
  rewrite R2, result_bind_Ok, R3, result_bind_Ok. cbv zeta. rewrite R4, result_bind_Ok.
  unfold CommitRevision_new. rewrite (proj2 (Z.eqb_neq rev 0)) by lia. cbn [map_err]. rewrite result_bind_Ok.
  rewrite bool_decide_eq_true_2, Z.eqb_refl by (by destruct (scope s) as [[?] [?]]). cbn [negb orb].
  rewrite R5, result_bind_Ok.
  assert (NamespaceRef_new (from_bytes (as_bytes (ns_database (scope s))))
    (from_bytes (as_bytes (ns_namespace (scope s)))) = scope s) as -> by (by destruct (scope s) as [[?] [?]]).
  rewrite R6, result_bind_Ok, R7, result_bind_Ok, R8, result_bind_Ok, R9, result_bind_Ok.
  assert (match policy s with Some value => negb (bool_decide (policy_scope value = scope s)) | None => false end
    = false) as ->.
  { destruct (policy s) as [p|] eqn:Hp; [|done]. by rewrite (gi_policy_scope _ Hi p Hp), bool_decide_eq_true_2. }
  specialize (R11 []). rewrite app_nil_r in R11. rewrite R10, result_bind_Ok, R11, result_bind_Ok. cbn [negb].
  rewrite bool_decide_eq_true_2 by done. by apply inv_restores.
Qed.
End roundtrip.

(** C2: checkpoints round-trip: for every state reached by committing encoded
    requests, decoding the bytes of its checkpoint under its scope and revision
    gives back exactly that state, records, histories, policies and rebuilt
    indexes included. *)
Theorem checkpoint_roundtrip sha256 sc s rev b : scope_ok sc → served sha256 sc s →
  revision s = Some rev → encode_graph_checkpoint s = Ok b → decode_graph_checkpoint sc rev b = Ok s.
Proof.
  intros Hsc (Hi & Hd & Hs)%served_durable Hrev Henc. subst sc. by apply encoded_decodes.
Qed.

(** ** Witness: a state served from two encoded requests *)
Definition serve (sha256 : list byte → list byte) (s : GraphState) (request : list byte)
    (rev : CommitRevision) : option GraphState :=
  match prepare sha256 (B := unit) s request None rev with Some (Ok p) => publish p s | _ => None end.
Lemma served_serve sha256 sc s request rev s' : served sha256 sc s → zlen request ≤ I64_MAX →
  serve sha256 s request rev = Some s' → served sha256 sc s'.
Proof.
  unfold serve. intros Hs Hl H. destruct (prepare _ _ _ _ _) as [[p|e]|] eqn:Hp; try done.
  by eapply served_commit.
Qed.
Definition request_create : list byte := ok_bytes (encode_transaction tx_create).
Definition request_accept : list byte := ok_bytes (encode_transaction tx_accept).
Definition served_created : GraphState :=
  default (GraphState_new graph_scope) (serve graph_sha (GraphState_new graph_scope) request_create 1).
Definition served_accepted : GraphState :=
  default (GraphState_new graph_scope) (serve graph_sha served_created request_accept 2).
Lemma served_accepted_served : served graph_sha graph_scope served_accepted.
Proof.
  apply (served_serve _ _ served_created request_accept 2).
  - apply (served_serve _ _ (GraphState_new graph_scope) request_create 1); [apply served_new| |].
    + vm_compute. discriminate.
    + apply some_default. vm_compute. reflexivity.
  - vm_compute. discriminate.
  - apply some_default. vm_compute. reflexivity.
Qed.
Definition checkpoint_bytes : list byte := ok_bytes (encode_graph_checkpoint served_accepted).
Lemma ok_bytes_Ok {E} (r : result E (list byte)) :
  (if r is Ok _ then true else false) = true → r = Ok (ok_bytes r).
Proof. by destruct r. Qed.
Lemma checkpoint_roundtrip_witness :
  decode_graph_checkpoint graph_scope 2 checkpoint_bytes = Ok served_accepted.
Proof.
  apply (checkpoint_roundtrip graph_sha).
  - by split.
  - exact served_accepted_served.
  - vm_compute. reflexivity.
  - apply ok_bytes_Ok. vm_compute. reflexivity.
Defined.
