(* ===== verification/TimeModel.v ===== *)
(** * Timestamp envelopes

    Models [crates/uste-time/src/model.rs]: the vocabulary of source timestamps
    and the checked constructor of [TimestampEnvelope].  Strings are byte lists
    in UTF-8, as elsewhere; a [BoundedString] is its bytes. *)
From S2P Require Import Prelude Ids Value.

Definition ENVELOPE_PROFILE : list byte := lit "uste-time-envelope-v1".
Definition NORMALIZATION_PROFILE : list byte := lit "posix-utc-v1".
Definition PARSER_PROFILE : list byte := lit "strict-rfc3339-v1".
Definition CALENDAR_PROFILE : list byte := lit "proleptic-gregorian-v1".
Definition FORMAT_PROFILE : list byte := lit "uste-local-presentation-v1".
Definition TZDB_VERSION : list byte := lit "2026c".
Definition TZDB_PROFILE_DIGEST : list byte :=
  [x8e; x18; xc4; xfd; x3a; xad; x2c; x58; xd4; x53; x40; xe3; x56; xa0; x22; x29;
   xce; x68; x11; xc8; x34; x27; xc5; xb0; x86; xad; x44; x68; xb7; x58; x22; x09].

Definition MAX_ORIGINAL_BYTES : Z := 4096.
Definition MAX_LOCATOR_BYTES : Z := 4096.
Definition MAX_ZONE_BYTES : Z := 255.
Definition MAX_ASSUMPTION_BYTES : Z := 1024.
Definition MAX_ASSUMPTIONS : Z := 16.

(** ** Vocabulary *)
Inductive TimestampRole : Set :=
| SourceEvent | SourceCreated | SourceModified | SourcePublished | Received
| CommitObservation | DerivationAvailable | SimulationAnchor.
Inductive EpochUnit : Set := Seconds | Milliseconds | Microseconds | Nanoseconds.
Inductive TimeScale : Set := PosixUtc | UtcLeapAware | Tai | Gps | Smeared | UnknownScale.
Inductive FoldChoice : Set := Earlier | Later.
Inductive SourcePrecision : Set :=
| UnknownPrecision
| DatePrecision
| SecondPrecision
| FractionDigits (digits : Z)
| EpochUnitPrecision (unit : EpochUnit).
Inductive ClockUncertainty : Set :=
| UnknownUncertainty
| BoundedNanoseconds (before after : Z).
Inductive ResolutionStatus : Set :=
| StatusResolved | StatusMissing | StatusAmbiguous | StatusInvalid | StatusUnsupported.
Inductive ResolutionReason : Set :=
| ReasonAccepted | MissingValue | MissingZone | DateOnlyWithoutPolicy | UnitRequired
| InvalidSyntax | OutOfRange | UnknownOffset | LeapSecond | UnsupportedTimeScale | UnknownZone
| FoldChoiceRequired | UnnecessaryFoldChoice | NonexistentLocalTime | OffsetZoneConflict.
#[global] Instance TimestampRole_eq_dec : EqDecision TimestampRole.
Proof. solve_decision. Defined.
#[global] Instance EpochUnit_eq_dec : EqDecision EpochUnit.
Proof. solve_decision. Defined.
#[global] Instance TimeScale_eq_dec : EqDecision TimeScale.
Proof. solve_decision. Defined.
#[global] Instance FoldChoice_eq_dec : EqDecision FoldChoice.
Proof. solve_decision. Defined.
#[global] Instance SourcePrecision_eq_dec : EqDecision SourcePrecision.
Proof. solve_decision. Defined.
#[global] Instance ClockUncertainty_eq_dec : EqDecision ClockUncertainty.
Proof. solve_decision. Defined.
#[global] Instance ResolutionReason_eq_dec : EqDecision ResolutionReason.
Proof. solve_decision. Defined.

Record TimezoneProfile : Set := mk_timezone_profile {
  tz_version : list byte;
  tz_digest : list byte
}.
Definition TimezoneProfile_PINNED : TimezoneProfile :=
  mk_timezone_profile TZDB_VERSION TZDB_PROFILE_DIGEST.
#[global] Instance TimezoneProfile_eq_dec : EqDecision TimezoneProfile.
Proof. solve_decision. Defined.

Module TimeError.
Inductive time_error : Set :=
| FieldTooLarge (field : list byte) (actual maximum : Z)
| InvalidEnvelope
| InvalidEncoding
| UnsupportedProfile
| PinnedProfileUnavailable
| ResourceLimit.
End TimeError.
Abbreviation TimeError := TimeError.time_error.
Import TimeError.

(** [bounded] and [bounded_borrowed] differ only in who owns the string. *)
Definition bounded (value : list byte) (maximum : Z) (field : list byte) :
    result TimeError (list byte) :=
  if maximum <? zlen value then Err (FieldTooLarge field (zlen value) maximum)
  else map_err (λ _, ResourceLimit) (BoundedString_new value).
(** [offset % 60 == 0] with Rust's truncating remainder. *)
Definition valid_offset (offset : Z) : bool :=
  (-86340 <=? offset) && (offset <=? 86340) && (Z.rem offset 60 =? 0).

Record SourceDescriptor : Set := mk_source {
  src_artifact : RecordRef;
  src_artifact_version : Z;
  src_locator : list byte
}.
Definition SourceDescriptor_new (artifact : RecordRef) (artifact_version : Z)
    (locator : list byte) : result TimeError SourceDescriptor :=
  if artifact_version =? 0 then Err InvalidEnvelope
  else
    locator ← bounded locator MAX_LOCATOR_BYTES (lit "locator");
    Ok (mk_source artifact artifact_version locator).
Record AuthorizedAssumption : Set := mk_assumption {
  as_statement : list byte;
  as_authority : RecordRef
}.
Definition AuthorizedAssumption_new (statement : list byte) (authority : RecordRef) :
    result TimeError AuthorizedAssumption :=
  statement ← bounded statement MAX_ASSUMPTION_BYTES (lit "assumption");
  Ok (mk_assumption statement authority).

Record TimeInterpretation : Set := mk_interpretation {
  ti_scale : TimeScale;
  ti_epoch_unit : option EpochUnit;
  ti_supplied_offset_seconds : option Z;
  ti_zone : option (list byte);
  ti_fold : option FoldChoice
}.

(** ** Resolutions *)
Inductive Resolution : Set :=
| Resolved (instant : UtcInstant) (effective_offset_seconds : Z)
| Missing (reason : ResolutionReason)
| Ambiguous (reason : ResolutionReason)
| Invalid (reason : ResolutionReason)
| Unsupported (reason : ResolutionReason).
#[global] Instance Resolution_eq_dec : EqDecision Resolution.
Proof. solve_decision. Defined.
Definition res_status (r : Resolution) : ResolutionStatus :=
  match r with
  | Resolved _ _ => StatusResolved
  | Missing _ => StatusMissing
  | Ambiguous _ => StatusAmbiguous
  | Invalid _ => StatusInvalid
  | Unsupported _ => StatusUnsupported
  end.
Definition res_reason (r : Resolution) : ResolutionReason :=
  match r with
  | Resolved _ _ => ReasonAccepted
  | Missing reason | Ambiguous reason | Invalid reason | Unsupported reason => reason
  end.
Definition res_instant (r : Resolution) : option UtcInstant :=
  match r with Resolved instant _ => Some instant | _ => None end.
Definition res_effective_offset_seconds (r : Resolution) : option Z :=
  match r with Resolved _ offset => Some offset | _ => None end.
Definition is_resolved (r : Resolution) : bool :=
  match r with Resolved _ _ => true | _ => false end.

Record TimestampEnvelope : Set := mk_envelope {
  env_source : SourceDescriptor;
  env_role : TimestampRole;
  env_original : list byte;
  env_interpretation : TimeInterpretation;
  env_resolution : Resolution;
  env_precision : SourcePrecision;
  env_uncertainty : ClockUncertainty;
  env_assumptions : list AuthorizedAssumption;
  env_timezone_profile : option TimezoneProfile
}.
#[global] Instance SourceDescriptor_eq_dec : EqDecision SourceDescriptor.
Proof. solve_decision. Defined.
#[global] Instance AuthorizedAssumption_eq_dec : EqDecision AuthorizedAssumption.
Proof. solve_decision. Defined.
#[global] Instance TimeInterpretation_eq_dec : EqDecision TimeInterpretation.
Proof. solve_decision. Defined.
#[global] Instance TimestampEnvelope_eq_dec : EqDecision TimestampEnvelope.
Proof. solve_decision. Defined.

(** ** The consistency check *)
Definition opt_is_some {A} (o : option A) : bool := match o with Some _ => true | None => false end.
Definition is_some_and {A} (f : A → bool) (o : option A) : bool :=
  match o with Some a => f a | None => false end.

Definition resolution_reason_matches (resolution : Resolution) : bool :=
  match resolution with
  | Resolved _ _ => true
  | Missing MissingValue => true
  | Ambiguous (MissingZone | DateOnlyWithoutPolicy | UnknownOffset | FoldChoiceRequired) => true
  | Invalid (UnitRequired | InvalidSyntax | OutOfRange | UnknownZone | UnnecessaryFoldChoice
             | NonexistentLocalTime | OffsetZoneConflict) => true
  | Unsupported (LeapSecond | UnsupportedTimeScale) => true
  | _ => false
  end.
Definition wall_precision (precision : SourcePrecision) : bool :=
  match precision with SecondPrecision | FractionDigits _ => true | _ => false end.
Definition semantic_shape_matches (i : TimeInterpretation) (resolution : Resolution)
    (precision : SourcePrecision) (original : list byte) : bool :=
  let empty_interpretation :=
    negb (opt_is_some (ti_epoch_unit i)) && negb (opt_is_some (ti_supplied_offset_seconds i))
    && negb (opt_is_some (ti_zone i)) && negb (opt_is_some (ti_fold i)) in
  if decide (resolution = Missing MissingValue) then
    bool_decide (original = []) && bool_decide (ti_scale i = UnknownScale) && empty_interpretation
    && bool_decide (precision = UnknownPrecision)
  else if decide (precision = DatePrecision) then
    bool_decide (ti_scale i = PosixUtc) && empty_interpretation
    && match resolution with
       | Ambiguous DateOnlyWithoutPolicy | Invalid InvalidSyntax => true
       | _ => false
       end
  else if decide (ti_scale i ≠ PosixUtc) then
    negb (opt_is_some (ti_supplied_offset_seconds i)) && negb (opt_is_some (ti_zone i))
    && negb (opt_is_some (ti_fold i)) && bool_decide (resolution = Unsupported UnsupportedTimeScale)
  else if decide (resolution = Unsupported UnsupportedTimeScale) then false
  else if opt_is_some (ti_epoch_unit i) then
    match resolution with
    | Resolved _ offset => offset =? 0
    | Invalid OutOfRange => true
    | _ => false
    end
  else
    match resolution with
    | Invalid UnitRequired => empty_interpretation && bool_decide (precision = UnknownPrecision)
    | Unsupported LeapSecond => wall_precision precision
    | Ambiguous UnknownOffset => empty_interpretation && wall_precision precision
    | Ambiguous MissingZone => empty_interpretation && wall_precision precision
    | Ambiguous FoldChoiceRequired =>
        opt_is_some (ti_zone i) && negb (opt_is_some (ti_fold i)) && wall_precision precision
    | Invalid UnknownZone | Invalid NonexistentLocalTime =>
        opt_is_some (ti_zone i) && wall_precision precision
    | Invalid UnnecessaryFoldChoice => opt_is_some (ti_fold i) && wall_precision precision
    | Invalid OffsetZoneConflict =>
        opt_is_some (ti_zone i) && opt_is_some (ti_supplied_offset_seconds i)
        && wall_precision precision
    | Invalid InvalidSyntax => bool_decide (precision = UnknownPrecision)
    | Invalid OutOfRange =>
        (opt_is_some (ti_zone i) || opt_is_some (ti_supplied_offset_seconds i))
        && wall_precision precision
    | Resolved _ _ => wall_precision precision
    | _ => false
    end.

(** The disjunction at the head of [TimestampEnvelope::checked]. *)
Definition envelope_inconsistent (original : list byte) (i : TimeInterpretation)
    (resolution : Resolution) (precision : SourcePrecision)
    (assumptions : list AuthorizedAssumption) (timezone_profile : option TimezoneProfile) : bool :=
  (MAX_ASSUMPTIONS <? zlen assumptions)
  || match precision with FractionDigits d => (d =? 0) || (10 <=? d) | _ => false end
  || match precision, ti_epoch_unit i with
     | EpochUnitPrecision unit, Some epoch_unit => bool_decide (unit ≠ epoch_unit)
     | _, _ => false
     end
  || negb (Bool.eqb match precision with EpochUnitPrecision _ => true | _ => false end
             (opt_is_some (ti_epoch_unit i)))
  || is_some_and (λ offset, negb (valid_offset offset)) (ti_supplied_offset_seconds i)
     && bool_decide (resolution ≠ Invalid InvalidSyntax)
  || is_some_and (λ zone, MAX_ZONE_BYTES <? zlen zone) (ti_zone i)
  || is_some_and (λ profile, bool_decide (profile ≠ TimezoneProfile_PINNED)) timezone_profile
  || negb (Bool.eqb (opt_is_some timezone_profile) (opt_is_some (ti_zone i)))
  || is_some_and (λ offset, negb ((-93599 <=? offset) && (offset <=? 93599)))
       (res_effective_offset_seconds resolution)
  || is_resolved resolution && bool_decide (ti_scale i ≠ PosixUtc)
  || is_resolved resolution
     && match precision with UnknownPrecision | DatePrecision => true | _ => false end
  || is_resolved resolution
     && is_some_and (λ supplied, bool_decide (res_effective_offset_seconds resolution ≠ Some supplied))
          (ti_supplied_offset_seconds i)
  || match precision with DatePrecision => true | _ => false end
     && negb match resolution with
             | Ambiguous DateOnlyWithoutPolicy | Invalid InvalidSyntax => true
             | _ => false
             end
  || match resolution with Missing _ => true | _ => false end
     && bool_decide (precision ≠ UnknownPrecision)
  || opt_is_some (ti_epoch_unit i)
     && (opt_is_some (ti_zone i) || opt_is_some (ti_fold i)
         || opt_is_some (ti_supplied_offset_seconds i)
         || match resolution with Resolved _ offset => negb (offset =? 0) | _ => false end)
  || negb (opt_is_some (ti_epoch_unit i)) && is_resolved resolution
     && negb (opt_is_some (ti_zone i)) && negb (opt_is_some (ti_supplied_offset_seconds i))
  || is_resolved resolution && opt_is_some (ti_fold i) && negb (opt_is_some (ti_zone i))
  || negb (semantic_shape_matches i resolution precision original)
  || negb (resolution_reason_matches resolution).
Definition TimestampEnvelope_checked (source : SourceDescriptor) (role : TimestampRole)
    (original : list byte) (interpretation : TimeInterpretation) (resolution : Resolution)
    (precision : SourcePrecision) (uncertainty : ClockUncertainty)
    (assumptions : list AuthorizedAssumption) (timezone_profile : option TimezoneProfile) :
    result TimeError TimestampEnvelope :=
  if envelope_inconsistent original interpretation resolution precision assumptions timezone_profile
  then Err InvalidEnvelope
  else
    original ← bounded original MAX_ORIGINAL_BYTES (lit "original");
    Ok (mk_envelope source role original interpretation resolution precision uncertainty
          assumptions timezone_profile).

(** ** Inputs and presentations *)
Inductive TimeInput : Set :=
| MissingInput
| Rfc3339 (original : list byte)
| Numeric (token : list byte) (value : Z) (unit : option EpochUnit) (scale : TimeScale)
| Local (text : list byte) (zone : option (list byte)) (offset_seconds : option Z)
    (fold : option FoldChoice)
| DateOnly (original : list byte).
Record LocalPresentation : Set := mk_presentation {
  lp_text : list byte;
  lp_zone : list byte;
  lp_offset_seconds : Z;
  lp_timezone_profile : TimezoneProfile
}.
Definition LocalPresentation_new (text zone : list byte) (offset_seconds : Z) : LocalPresentation :=
  mk_presentation text zone offset_seconds TimezoneProfile_PINNED.
