(* ===== verification/TimeNormalize.v ===== *)
(** * Time normalization

    Models [crates/uste-time/src/normalize.rs]: the strict RFC 3339 parser, the
    proleptic Gregorian calendar arithmetic, the resolution of numeric, offset
    and named-zone times, and the two formatters.

    The civil date-time and time-zone library [jiff] and the embedded zone table
    [jiff_tzdb] are third-party: [Jiff] is the interface the source uses and
    [JiffLaws] what their documentation promises about it.  Integer casts and
    checked operations keep their widths; plain arithmetic that cannot leave
    its type is written without them. *)
From S2P Require Import Prelude Ids Value TimeModel.
Import TimeError.

(** ** The interface to [jiff] *)

(** [jiff::tz::AmbiguousOffset], offsets in seconds. *)
Inductive AmbiguousOffset : Set :=
| Unambiguous (offset : Z)
| Gap (before after : Z)
| Fold (before after : Z).
Class Jiff := {
  DateTime : Type;
  (** [DateTime::new(year, month, day, hour, minute, second, subsec_nanosecond).ok()] *)
  DateTime_new : Z → Z → Z → Z → Z → Z → Z → option DateTime;
  dt_year : DateTime → Z;
  dt_month : DateTime → Z;
  dt_day : DateTime → Z;
  dt_hour : DateTime → Z;
  dt_minute : DateTime → Z;
  dt_second : DateTime → Z;
  dt_subsec_nanosecond : DateTime → Z;
  TimeZone : Type;
  (** [TimeZone::tzif(name, data).ok()] *)
  TimeZone_tzif : list byte → list byte → option TimeZone;
  (** [to_ambiguous_timestamp(datetime).offset()] *)
  ambiguous_offset : TimeZone → DateTime → AmbiguousOffset;
  (** [jiff_tzdb::get], [jiff_tzdb::available] and [jiff_tzdb::VERSION]; the
      first result is the canonical name. *)
  tzdb_get : list byte → option (list byte * list byte);
  tzdb_available : list (list byte);
  tzdb_VERSION : option (list byte)
}.

(** The Gregorian rules, as the reference for what a civil date is. *)
Definition is_leap (year : Z) : bool :=
  (year mod 4 =? 0) && (negb (year mod 100 =? 0) || (year mod 400 =? 0)).
Definition days_in_month (year month : Z) : Z :=
  if month =? 2 then (if is_leap year then 29 else 28)
  else if (month =? 4) || (month =? 6) || (month =? 9) || (month =? 11) then 30 else 31.
Definition civil_ok (year month day : Z) : Prop :=
  1 ≤ month ≤ 12 ∧ 1 ≤ day ≤ days_in_month year month.
Definition time_ok (hour minute second nanosecond : Z) : Prop :=
  0 ≤ hour ≤ 23 ∧ 0 ≤ minute ≤ 59 ∧ 0 ≤ second ≤ 59 ∧ 0 ≤ nanosecond ≤ 999999999.
(** [DateTime::new] accepts exactly the years -9999 to 9999, the Gregorian dates
    and the wall-clock times without leap seconds, and the accessors return what
    was given; a date-time has no other components, and offsets are within
    25:59:59 of UTC. *)
Class JiffLaws `{Jiff} : Prop := {
  datetime_new_Some year month day hour minute second nanosecond :
    is_Some (DateTime_new year month day hour minute second nanosecond) ↔
    -9999 ≤ year ≤ 9999 ∧ civil_ok year month day ∧ time_ok hour minute second nanosecond;
  datetime_fields year month day hour minute second nanosecond dt :
    DateTime_new year month day hour minute second nanosecond = Some dt →
    dt_year dt = year ∧ dt_month dt = month ∧ dt_day dt = day ∧ dt_hour dt = hour ∧
    dt_minute dt = minute ∧ dt_second dt = second ∧ dt_subsec_nanosecond dt = nanosecond;
  offsets_bounded zone dt :
    match ambiguous_offset zone dt with
    | Unambiguous offset => -93599 ≤ offset ≤ 93599
    | Gap before after | Fold before after =>
        -93599 ≤ before ≤ 93599 ∧ -93599 ≤ after ≤ 93599
    end
}.

(** ** Integers *)
Definition i8_try_from (z : Z) : option Z := if (-128 <=? z) && (z <=? 127) then Some z else None.
Definition i16_try_from (z : Z) : option Z := if (-32768 <=? z) && (z <=? 32767) then Some z else None.
Definition i32_try_from (z : Z) : option Z :=
  if (- 2 ^ 31 <=? z) && (z <=? 2 ^ 31 - 1) then Some z else None.
Definition u32_try_from (z : Z) : option Z := if (0 <=? z) && (z <=? U32_MAX) then Some z else None.
Definition i64_checked (z : Z) : option Z := if (I64_MIN <=? z) && (z <=? I64_MAX) then Some z else None.
Definition i128_checked (z : Z) : option Z :=
  if (- 2 ^ 127 <=? z) && (z <=? I128_MAX) then Some z else None.

(** ** The calendar *)
Definition days_from_civil (year month day : Z) : Z :=
  let adjusted_year := year - (if month <=? 2 then 1 else 0) in
  let era := adjusted_year / 400 in
  let year_of_era := adjusted_year - era * 400 in
  let shifted_month := month + (if 2 <? month then -3 else 9) in
  let day_of_year := Z.quot (153 * shifted_month + 2) 5 + day - 1 in
  let day_of_era :=
    year_of_era * 365 + Z.quot year_of_era 4 - Z.quot year_of_era 100 + day_of_year in
  era * 146097 + day_of_era - 719468.
Definition civil_from_epoch (seconds : Z) : Z * Z * Z * Z * Z * Z :=
  let days := seconds / 86400 in
  let seconds_of_day := seconds mod 86400 in
  let shifted_days := days + 719468 in
  let era := shifted_days / 146097 in
  let day_of_era := shifted_days - era * 146097 in
  let year_of_era :=
    Z.quot (day_of_era - Z.quot day_of_era 1460 + Z.quot day_of_era 36524
            - Z.quot day_of_era 146096) 365 in
  let year := year_of_era + era * 400 in
  let day_of_year :=
    day_of_era - (365 * year_of_era + Z.quot year_of_era 4 - Z.quot year_of_era 100) in
  let month_prime := Z.quot (5 * day_of_year + 2) 153 in
  let day := day_of_year - Z.quot (153 * month_prime + 2) 5 + 1 in
  let month := month_prime + (if month_prime <? 10 then 3 else -9) in
  let year := year + (if month <=? 2 then 1 else 0) in
  (year, month, day, Z.quot seconds_of_day 3600, Z.quot (Z.rem seconds_of_day 3600) 60,
   Z.rem seconds_of_day 60).

(** ** Text *)
Definition is_ascii_digit (b : byte) : bool := byte_in 48 57 b.
Definition is_ascii (bytes : list byte) : bool := forallb (λ b, u8 b <? 128) bytes.
Definition digit_step (value : option Z) (b : byte) : option Z :=
  value ← value;
  if negb (is_ascii_digit b) then None
  else
    v ← u32_try_from (value * 10);
    u32_try_from (v + (u8 b - 48)).
Definition digits (bytes : list byte) (start count : Z) : option Z :=
  if zlen bytes <? start + count then None
  else foldl digit_step (Some 0) (take (Z.to_nat count) (drop (Z.to_nat start) bytes)).
(** The run of digits at the front: [while bytes.get(cursor).is_some_and(..)]. *)
Fixpoint digit_run (bytes : list byte) : Z :=
  match bytes with
  | b :: bytes => if is_ascii_digit b then 1 + digit_run bytes else 0
  | [] => 0
  end.
Definition byte_at (bytes : list byte) (index : Z) (b : byte) : bool :=
  bool_decide (bytes !! Z.to_nat index = Some b).

(** [{:0w}] of an integer: the sign counts towards the width. *)
Fixpoint dec_loop (fuel : nat) (value : Z) (out : list byte) : list byte :=
  match fuel with
  | O => out
  | S fuel =>
      let out := byte_of (48 + value mod 10) :: out in
      if value / 10 =? 0 then out else dec_loop fuel (value / 10) out
  end.
(** Twenty digits hold every 64-bit integer. *)
Definition dec_digits (value : Z) : list byte := dec_loop 20 value [].
Definition zero_pad (width : nat) (text : list byte) : list byte :=
  repeat x30 (width - length text) ++ text.
Definition fmt_padded (width : nat) (value : Z) : list byte :=
  if value <? 0 then x2d :: zero_pad (width - 1) (dec_digits (- value))
  else zero_pad width (dec_digits value).
(** [while fraction.ends_with('0') { fraction.pop(); }] *)
Fixpoint strip_zeros (reversed : list byte) : list byte :=
  match reversed with
  | b :: rest => if decide (b = x30) then strip_zeros rest else reversed
  | [] => []
  end.
Definition trim_zeros (text : list byte) : list byte := rev (strip_zeros (rev text)).
Definition fmt_civil (year month day hour minute second : Z) : list byte :=
  fmt_padded 4 year ++ lit "-" ++ fmt_padded 2 month ++ lit "-" ++ fmt_padded 2 day ++ lit "T"
  ++ fmt_padded 2 hour ++ lit ":" ++ fmt_padded 2 minute ++ lit ":" ++ fmt_padded 2 second.
Definition fmt_fraction (nanoseconds : Z) : list byte :=
  if nanoseconds =? 0 then [] else lit "." ++ trim_zeros (fmt_padded 9 nanoseconds).
Definition format_utc (instant : UtcInstant) : result TimeError (list byte) :=
  let '(year, month, day, hour, minute, second) := civil_from_epoch (inst_seconds instant) in
  Ok (fmt_civil year month day hour minute second ++ fmt_fraction (inst_nanoseconds instant)
      ++ lit "Z").
Definition format_offset (offset : Z) : list byte :=
  let sign := if offset <? 0 then x2d else x2b in
  let absolute := Z.abs offset in
  let hours := Z.quot absolute 3600 in
  let minutes := Z.quot (Z.rem absolute 3600) 60 in
  let seconds := Z.rem absolute 60 in
  sign :: fmt_padded 2 hours ++ lit ":" ++ fmt_padded 2 minutes
  ++ (if seconds =? 0 then [] else lit ":" ++ fmt_padded 2 seconds).

(** ** Numeric times *)
Definition numeric_instant (value : Z) (unit : EpochUnit) : option UtcInstant :=
  let '(divisor, nanos_per_remainder) :=
    match unit with
    | Seconds => (1, 0)
    | Milliseconds => (1000, 1000000)
    | Microseconds => (1000000, 1000)
    | Nanoseconds => (1000000000, 1)
    end in
  let seconds := value / divisor in
  nanos ← (if divisor =? 1 then Some 0 else i128_checked (value mod divisor * nanos_per_remainder));
  seconds ← i64_checked seconds;
  nanos ← u32_try_from nanos;
  UtcInstant_new seconds nanos.

Record ParseFailure : Set := mk_parse_failure {
  pf_resolution : Resolution;
  pf_precision : SourcePrecision;
  pf_offset : option Z
}.
Definition parse_invalid : ParseFailure :=
  mk_parse_failure (Invalid InvalidSyntax) UnknownPrecision None.

Section jiff.
Context `{Jiff}.

Record ParsedDateTime := mk_parsed {
  pd_datetime : DateTime;
  pd_offset : option Z;
  pd_precision : SourcePrecision
}.

(** ** Parsing *)
Definition valid_date_only (input : list byte) : bool :=
  if negb (is_ascii input) || negb (zlen input =? 10) || negb (byte_at input 4 x2d)
     || negb (byte_at input 7 x2d)
  then false
  else
    match (year ← digits input 0 4; i16_try_from year) with
    | None => false
    | Some year =>
        if year <? 1 then false
        else
          match (month ← digits input 5 2; i8_try_from month) with
          | None => false
          | Some month =>
              match (day ← digits input 8 2; i8_try_from day) with
              | None => false
              | Some day => opt_is_some (DateTime_new year month day 0 0 0 0)
              end
          end
    end.

(** The fraction after the seconds: the digits consumed, the nanoseconds and
    the precision. *)
Definition parse_fraction (bytes : list byte) : result ParseFailure (Z * Z * SourcePrecision) :=
  if byte_at bytes 19 x2e then
    let start := 20 in
    let count := digit_run (drop 20 bytes) in
    if (count =? 0) || (9 <? count) then Err parse_invalid
    else
      fraction ← ok_or (digits bytes start count) parse_invalid;
      nanos ← ok_or (u32_try_from (fraction * 10 ^ (9 - count))) parse_invalid;
      Ok (start + count, nanos, FractionDigits count)
  else Ok (19, 0, SecondPrecision).
(** The offset suffix: the offset, and whether it was [-00:00]. *)
Definition parse_offset (suffix : list byte) : result ParseFailure (option Z * bool) :=
  if decide (suffix = lit "Z") then Ok (Some 0, false)
  else if (zlen suffix =? 6) && (byte_at suffix 0 x2b || byte_at suffix 0 x2d)
          && byte_at suffix 3 x3a
  then
    hours ← ok_or (digits suffix 1 2) parse_invalid;
    minutes ← ok_or (digits suffix 4 2) parse_invalid;
    if (23 <? hours) || (59 <? minutes) then Err parse_invalid
    else if decide (suffix = lit "-00:00") then Ok (None, true)
    else
      seconds ← ok_or (i32_try_from (hours * 3600 + minutes * 60)) parse_invalid;
      Ok (Some (if byte_at suffix 0 x2d then - seconds else seconds), false)
  else Err parse_invalid.
Definition parse_datetime (input : list byte) (require_offset : bool) :
    result ParseFailure ParsedDateTime :=
  let bytes := input in
  if negb (is_ascii input) || (zlen bytes <? 19) || negb (byte_at bytes 4 x2d)
     || negb (byte_at bytes 7 x2d) || negb (byte_at bytes 10 x54) || negb (byte_at bytes 13 x3a)
     || negb (byte_at bytes 16 x3a)
  then Err parse_invalid
  else
    year ← ok_or (digits bytes 0 4) parse_invalid;
    month ← ok_or (digits bytes 5 2) parse_invalid;
    day ← ok_or (digits bytes 8 2) parse_invalid;
    hour ← ok_or (digits bytes 11 2) parse_invalid;
    minute ← ok_or (digits bytes 14 2) parse_invalid;
    second ← ok_or (digits bytes 17 2) parse_invalid;
    if year =? 0 then Err parse_invalid
    else
      let leap_second := second =? 60 in
      '(cursor, nanos, precision) ← parse_fraction bytes;
      '(offset, unknown_offset) ←
        (if require_offset : bool then parse_offset (drop (Z.to_nat cursor) bytes)
         else if cursor =? zlen bytes then Ok (None, false)
         else Err parse_invalid);
      year ← ok_or (i16_try_from year) parse_invalid;
      month ← ok_or (i8_try_from month) parse_invalid;
      day ← ok_or (i8_try_from day) parse_invalid;
      hour ← ok_or (i8_try_from hour) parse_invalid;
      minute ← ok_or (i8_try_from minute) parse_invalid;
      second ← ok_or (i8_try_from (if leap_second then 59 else second)) parse_invalid;
      nanos ← ok_or (i32_try_from nanos) parse_invalid;
      datetime ← ok_or (DateTime_new year month day hour minute second nanos) parse_invalid;
      if leap_second then Err (mk_parse_failure (Unsupported LeapSecond) precision offset)
      else if unknown_offset : bool
      then Err (mk_parse_failure (Ambiguous UnknownOffset) precision None)
      else Ok (mk_parsed datetime offset precision).

(** ** Resolution *)
Definition instant_from_datetime_offset (datetime : DateTime) (offset_seconds : Z) :
    option UtcInstant :=
  let days := days_from_civil (dt_year datetime) (dt_month datetime) (dt_day datetime) in
  s ← i64_checked (days * 86400);
  s ← i64_checked (s + dt_hour datetime * 3600);
  s ← i64_checked (s + dt_minute datetime * 60);
  s ← i64_checked (s + dt_second datetime);
  seconds ← i64_checked (s - offset_seconds);
  nanos ← u32_try_from (dt_subsec_nanosecond datetime);
  UtcInstant_new seconds nanos.
Definition timestamp_from_offset : DateTime → Z → option UtcInstant := instant_from_datetime_offset.
(** [.map(|instant| Resolved { .. }).unwrap_or(Invalid(OutOfRange))]. *)
Definition resolved_or_out_of_range (instant : option UtcInstant) (offset : Z) : Resolution :=
  match instant with Some instant => Resolved instant offset | None => Invalid OutOfRange end.
Definition resolve_named_zone (datetime : DateTime) (zone : list byte)
    (supplied_offset : option Z) (fold : option FoldChoice) : Resolution :=
  match tzdb_get zone with
  | None => Invalid UnknownZone
  | Some (canonical, bytes) =>
      match TimeZone_tzif canonical bytes with
      | None => Invalid UnknownZone
      | Some timezone =>
          let resolve effective_offset :=
            if is_some_and (λ offset, negb (offset =? effective_offset)) supplied_offset
            then Invalid OffsetZoneConflict
            else resolved_or_out_of_range
                   (instant_from_datetime_offset datetime effective_offset) effective_offset in
          match ambiguous_offset timezone datetime with
          | Gap _ _ => Invalid NonexistentLocalTime
          | Fold before after =>
              match fold with
              | None => Ambiguous FoldChoiceRequired
              | Some Earlier => resolve before
              | Some Later => resolve after
              end
          | Unambiguous offset =>
              if opt_is_some fold then Invalid UnnecessaryFoldChoice else resolve offset
          end
      end
  end.

Definition datetime_from_epoch (seconds nanoseconds : Z) : option DateTime :=
  let '(year, month, day, hour, minute, second) := civil_from_epoch seconds in
  year ← i16_try_from year;
  month ← i8_try_from month;
  day ← i8_try_from day;
  hour ← i8_try_from hour;
  minute ← i8_try_from minute;
  second ← i8_try_from second;
  nanoseconds ← i32_try_from nanoseconds;
  DateTime_new year month day hour minute second nanoseconds.
Definition offsets (ambiguous : AmbiguousOffset) : list Z :=
  match ambiguous with
  | Unambiguous offset => [offset]
  | Gap before after | Fold before after =>
      if decide (before = after) then [before] else [before; after]
  end.
(** The nested search loop.  An [Err] is a [return]: of a local time, or of the
    [None] of a failed [?]. *)
Definition try_offset (instant : UtcInstant) (local : DateTime) (next : list Z) (actual : Z) :
    result (option (DateTime * Z)) (list Z) :=
  if decide (instant_from_datetime_offset local actual = Some instant) then Err (Some (local, actual))
  else if decide (actual ∈ next) then Ok next else Ok (next ++ [actual]).
Definition try_candidate (timezone : TimeZone) (instant : UtcInstant) (next : list Z)
    (candidate : Z) : result (option (DateTime * Z)) (list Z) :=
  local_seconds ← ok_or (i64_checked (inst_seconds instant + candidate)) None;
  match datetime_from_epoch local_seconds (inst_nanoseconds instant) with
  | None => Ok next
  | Some local =>
      try_fold (try_offset instant local) (offsets (ambiguous_offset timezone local)) next
  end.
Fixpoint search_local (timezone : TimeZone) (instant : UtcInstant) (rounds : nat)
    (candidates : list Z) : option (DateTime * Z) :=
  match rounds with
  | O => None
  | S rounds =>
      match try_fold (try_candidate timezone instant) candidates [] with
      | Err answer => answer
      | Ok next =>
          if bool_decide (next = []) then None else search_local timezone instant rounds next
      end
  end.
Definition local_datetime_for_instant (timezone : TimeZone) (instant : UtcInstant) :
    option (DateTime * Z) :=
  utc ← datetime_from_epoch (inst_seconds instant) (inst_nanoseconds instant);
  search_local timezone instant 4 (offsets (ambiguous_offset timezone utc)).

(** ** The normalizer *)
Definition make_envelope (source : SourceDescriptor) (role : TimestampRole)
    (original : list byte) (interpretation : TimeInterpretation) (resolution : Resolution)
    (precision : SourcePrecision) (uncertainty : ClockUncertainty)
    (assumptions : list AuthorizedAssumption) (timezone_profile : option TimezoneProfile) :
    result TimeError TimestampEnvelope :=
  TimestampEnvelope_checked source role original interpretation resolution precision uncertainty
    assumptions timezone_profile.
Definition preflight_original (value : list byte) : result TimeError unit :=
  if MAX_ORIGINAL_BYTES <? zlen value
  then Err (FieldTooLarge (lit "original") (zlen value) MAX_ORIGINAL_BYTES) else Ok tt.
(** [parsed.offset.expect(..)]: the parser with a required offset returns one;
    [None] is the panic. *)
Definition normalize_rfc3339 (source : SourceDescriptor) (role : TimestampRole)
    (original : list byte) (uncertainty : ClockUncertainty)
    (assumptions : list AuthorizedAssumption) : option (result TimeError TimestampEnvelope) :=
  match parse_datetime original true with
  | Err failure =>
      Some (make_envelope source role original
        (mk_interpretation PosixUtc None (pf_offset failure) None None) (pf_resolution failure)
        (pf_precision failure) uncertainty assumptions None)
  | Ok parsed =>
      offset ← pd_offset parsed;
      Some (make_envelope source role original
        (mk_interpretation PosixUtc None (Some offset) None None)
        (resolved_or_out_of_range (timestamp_from_offset (pd_datetime parsed) offset) offset)
        (pd_precision parsed) uncertainty assumptions None)
  end.
Definition normalize_numeric (source : SourceDescriptor) (role : TimestampRole)
    (token : list byte) (value : Z) (unit : option EpochUnit) (scale : TimeScale)
    (uncertainty : ClockUncertainty) (assumptions : list AuthorizedAssumption) :
    result TimeError TimestampEnvelope :=
  let resolution :=
    if decide (scale ≠ PosixUtc) then Unsupported UnsupportedTimeScale
    else match unit with
         | Some unit => resolved_or_out_of_range (numeric_instant value unit) 0
         | None => Invalid UnitRequired
         end in
  make_envelope source role token (mk_interpretation scale unit None None None) resolution
    (match unit with Some unit => EpochUnitPrecision unit | None => UnknownPrecision end)
    uncertainty assumptions None.
Definition normalize_local (source : SourceDescriptor) (role : TimestampRole)
    (original : list byte) (zone : option (list byte)) (supplied_offset : option Z)
    (fold : option FoldChoice) (uncertainty : ClockUncertainty)
    (assumptions : list AuthorizedAssumption) : result TimeError TimestampEnvelope :=
  if is_some_and (λ zone, MAX_ZONE_BYTES <? zlen zone) zone
  then Err (FieldTooLarge (lit "zone") (default 0 (zlen <$> zone)) MAX_ZONE_BYTES)
  else
    zone_value ← match zone with
                 | Some value => Some <$> bounded value MAX_ZONE_BYTES (lit "zone")
                 | None => Ok None
                 end;
    let base_interpretation := mk_interpretation PosixUtc None supplied_offset zone_value fold in
    let pinned := (λ _, TimezoneProfile_PINNED) <$> zone in
    if is_some_and (λ offset, negb (valid_offset offset)) supplied_offset
    then make_envelope source role original base_interpretation (Invalid InvalidSyntax)
           UnknownPrecision uncertainty assumptions pinned
    else
      match parse_datetime original false with
      | Err failure =>
          make_envelope source role original base_interpretation (pf_resolution failure)
            (pf_precision failure) uncertainty assumptions pinned
      | Ok parsed =>
          let '(resolution, timezone_profile) :=
            match zone with
            | None =>
                match supplied_offset, fold with
                | Some offset, None =>
                    (resolved_or_out_of_range
                       (timestamp_from_offset (pd_datetime parsed) offset) offset, None)
                | _, Some _ => (Invalid UnnecessaryFoldChoice, None)
                | None, None => (Ambiguous MissingZone, None)
                end
            | Some name =>
                (resolve_named_zone (pd_datetime parsed) name supplied_offset fold,
                 Some TimezoneProfile_PINNED)
            end in
          make_envelope source role original base_interpretation resolution
            (pd_precision parsed) uncertainty assumptions timezone_profile
      end.
Definition normalize (source : SourceDescriptor) (role : TimestampRole) (input : TimeInput)
    (uncertainty : ClockUncertainty) (assumptions : list AuthorizedAssumption) :
    option (result TimeError TimestampEnvelope) :=
  if MAX_ASSUMPTIONS <? zlen assumptions
  then Some (Err (FieldTooLarge (lit "assumptions") (zlen assumptions) MAX_ASSUMPTIONS))
  else
    match input with
    | MissingInput =>
        Some (make_envelope source role [] (mk_interpretation UnknownScale None None None None)
          (Missing MissingValue) UnknownPrecision uncertainty assumptions None)
    | Rfc3339 original =>
        match preflight_original original with
        | Err e => Some (Err e)
        | Ok _ => normalize_rfc3339 source role original uncertainty assumptions
        end
    | Numeric token value unit scale =>
        Some (preflight_original token;;
              normalize_numeric source role token value unit scale uncertainty assumptions)
    | Local text zone offset_seconds fold =>
        Some (preflight_original text;;
              normalize_local source role text zone offset_seconds fold uncertainty assumptions)
    | DateOnly original =>
        Some (preflight_original original;;
              let resolution :=
                if valid_date_only original then Ambiguous DateOnlyWithoutPolicy
                else Invalid InvalidSyntax in
              make_envelope source role original (mk_interpretation PosixUtc None None None None)
                resolution DatePrecision uncertainty assumptions None)
    end.

(** ** Presentation *)
Definition format_datetime (datetime : DateTime) : list byte :=
  fmt_civil (dt_year datetime) (dt_month datetime) (dt_day datetime) (dt_hour datetime)
    (dt_minute datetime) (dt_second datetime) ++ fmt_fraction (dt_subsec_nanosecond datetime).
Definition present_in_zone (instant : UtcInstant) (zone : list byte) :
    result TimeError LocalPresentation :=
  if MAX_ZONE_BYTES <? zlen zone
  then Err (FieldTooLarge (lit "zone") (zlen zone) MAX_ZONE_BYTES)
  else
    '(canonical, bytes) ← ok_or (tzdb_get zone) InvalidEnvelope;
    timezone ← ok_or (TimeZone_tzif canonical bytes) InvalidEnvelope;
    '(datetime, offset) ← ok_or (local_datetime_for_instant timezone instant) InvalidEnvelope;
    Ok (LocalPresentation_new
          (format_datetime datetime ++ format_offset offset ++ lit "[" ++ canonical ++ lit "]")
          canonical offset).

(** ** The pinned profile *)
Section profile.
Context (sha256 : list byte → list byte).
Definition hash_part (absorbed value : list byte) : list byte :=
  absorbed ++ be_bytes 8 (zlen value) ++ value.
Definition embedded_tzdb_digest : option (list byte) :=
  let names := merge_sort key_le tzdb_available in
  absorbed ← foldl (λ absorbed name,
      absorbed ← absorbed;
      '(_, data) ← tzdb_get name;
      Some (hash_part (hash_part absorbed name) data))
    (Some (hash_part (lit "uste-tzdb-profile-v1" ++ [x00]) TZDB_VERSION)) names;
  Some (sha256 absorbed).
(** [TimeNormalizer::posix_utc_v1]; the verdict is computed once. *)
Definition posix_utc_v1 : result TimeError unit :=
  if bool_decide (tzdb_VERSION = Some TZDB_VERSION)
     && is_some_and (λ digest, bool_decide (digest = TZDB_PROFILE_DIGEST)) embedded_tzdb_digest
  then Ok tt else Err PinnedProfileUnavailable.
End profile.
End jiff.
