(* ===== verification/TimeCalendar.v ===== *)
(** * The calendar of time normalization

    The day-count arithmetic of [normalize.rs] agrees with the Gregorian rules:
    it counts days one by one from 1970-01-01 and its two directions are
    inverse, for every date and every second. *)
From S2P Require Import Prelude Ids Value TimeModel TimeNormalize.

(** Linear arithmetic with division by constants. *)
Ltac divlia := Z.to_euclidean_division_equations; lia.

(** The day after, by the Gregorian rules. *)
Definition next_day (year month day : Z) : Z * Z * Z :=
  if day <? days_in_month year month then (year, month, day + 1)
  else if month <? 12 then (year, month + 1, 1)
  else (year + 1, 1, 1).

(** ** Days from dates *)

(** Days before the first of March of a year, from the first of March of 0. *)
Definition march_days (year : Z) : Z := 365 * year + year / 4 - year / 100 + year / 400.
Definition march_year (year month : Z) : Z := year - (if month <=? 2 then 1 else 0).
(** Days from the first of March to the first of a month. *)
Definition month_days (month : Z) : Z := (153 * (month + (if 2 <? month then -3 else 9)) + 2) / 5.
Lemma days_from_civil_eq year month day : 1 ≤ month ≤ 12 →
  days_from_civil year month day =
  march_days (march_year year month) + month_days month + day - 1 - 719468.
Proof.
  intros Hm. unfold days_from_civil. fold (march_year year month).
  generalize (march_year year month). intros y. unfold march_days, month_days. cbv zeta.
  assert (0 ≤ 153 * (month + (if 2 <? month then -3 else 9)) + 2) by (destruct (Z.ltb_spec 2 month); lia).
  rewrite !Z.quot_div_nonneg by divlia. divlia.
Qed.
Lemma march_days_next year : march_days (year + 1) = march_days year + (if is_leap (year + 1) then 366 else 365).
Proof.
  unfold march_days, is_leap.
  destruct (Z.eqb_spec ((year + 1) mod 4) 0), (Z.eqb_spec ((year + 1) mod 100) 0),
    (Z.eqb_spec ((year + 1) mod 400) 0); cbn [andb orb negb]; divlia.
Qed.
(** Decide the integer comparisons of the goal. *)
Ltac zcases :=
  repeat match goal with
  | |- context [?a <=? ?b] => destruct (Z.leb_spec a b); try lia
  | |- context [?a <? ?b] => destruct (Z.ltb_spec a b); try lia
  | |- context [?a =? ?b] => destruct (Z.eqb_spec a b); try lia
  end.
(** The length of a month is the distance to the next. *)
Lemma month_length year month : 1 ≤ month < 12 →
  march_days (march_year year (month + 1)) + month_days (month + 1) =
  march_days (march_year year month) + month_days month + days_in_month year month.
Proof.
  intros Hm. pose proof (march_days_next (year - 1)) as Hn.
  replace (year - 1 + 1) with year in Hn by lia. assert (month ≠ 12) by lia.
  assert (march_year year month = if month <=? 2 then year - 1 else year) as ->
    by (unfold march_year; destruct (_ <=? _); lia).
  assert (march_year year (month + 1) = if month + 1 <=? 2 then year - 1 else year) as ->
    by (unfold march_year; destruct (_ <=? _); lia).
  unfold days_in_month, month_days. clear - Hm Hn.
  destruct (is_leap year); zcases; cbn [orb]; divlia.
Qed.
Lemma days_in_month_pos year month : 28 ≤ days_in_month year month ≤ 31.
Proof. unfold days_in_month. repeat case_match; lia. Qed.
Lemma next_day_count year month day : civil_ok year month day →
  let '(year', month', day') := next_day year month day in
  civil_ok year' month' day' ∧ days_from_civil year' month' day' = days_from_civil year month day + 1.
Proof.
  intros [Hm Hd]. unfold next_day.
  destruct (Z.ltb_spec day (days_in_month year month)) as [Hlt|Hge].
  { split; [by split; [|lia]|]. rewrite !days_from_civil_eq by done. lia. }
  assert (day = days_in_month year month) as -> by lia. clear Hge Hd.
  destruct (Z.ltb_spec month 12) as [H12|H12].
  - pose proof (days_in_month_pos year (month + 1)). split; [split; lia|].
    rewrite !days_from_civil_eq by lia. pose proof (month_length year month). lia.
  - assert (month = 12) as -> by lia. split; [by split|].
    rewrite !days_from_civil_eq by lia. unfold march_year. cbn -[march_days].
    replace (year + 1 - 1) with (year - 0) by lia.
    change (month_days 1) with 306. change (month_days 12) with 275. lia.
Qed.

(** ** Dates from days *)
Lemma era_split days : let era := days / 146097 in let doe := days - era * 146097 in
  let yoe := (doe - doe / 1460 + doe / 36524 - doe / 146096) / 365 in
  let doy := doe - (365 * yoe + yoe / 4 - yoe / 100) in
  0 ≤ doe ≤ 146096 ∧ 0 ≤ yoe ≤ 399 ∧ 0 ≤ doy ≤ 365 ∧
  (doy = 365 → is_leap (yoe + 1) = true) ∧ march_days (yoe + era * 400) + doy = days.
Proof.
  intros era doe yoe doy. assert (0 ≤ doe ≤ 146096) as Hdoe by (unfold doe, era; divlia).
  assert (0 ≤ yoe ≤ 399) as Hyoe by (unfold yoe; divlia).
  assert (0 ≤ doy ≤ 365) as Hdoy by (unfold doy, yoe; divlia).
  split_and!; try lia.
  - intros H. unfold is_leap. apply andb_true_iff. rewrite orb_true_iff, negb_true_iff.
    rewrite !Z.eqb_eq, Z.eqb_neq. split; unfold doy, yoe in *; divlia.
  - assert (march_days (yoe + era * 400) = 146097 * era + 365 * yoe + yoe / 4 - yoe / 100) as ->.
    { clear - Hyoe. clearbody yoe era. unfold march_days. divlia. }
    unfold doy, doe. lia.
Qed.
Lemma month_split doy : 0 ≤ doy ≤ 365 → let mp := (5 * doy + 2) / 153 in
  0 ≤ mp ≤ 11 ∧ 1 ≤ doy - (153 * mp + 2) / 5 + 1 ∧
  (mp < 11 → doy < (153 * (mp + 1) + 2) / 5) ∧ month_days (mp + (if mp <? 10 then 3 else -9)) = (153 * mp + 2) / 5.
Proof.
  intros Hd mp. assert (0 ≤ mp ≤ 11) as Hmp by (unfold mp; divlia). split_and!; try lia.
  - unfold mp. divlia.
  - unfold mp. divlia.
  - unfold month_days. destruct (Z.ltb_spec mp 10), (Z.ltb_spec 2 (mp + 3)), (Z.ltb_spec 2 (mp + -9)); f_equal; lia.
Qed.
(** A date of the March-based calendar as a civil date. *)
Lemma march_date y mp doy : 0 ≤ mp ≤ 11 → 0 ≤ doy ≤ 365 → (doy = 365 → is_leap (y + 1) = true) →
  (153 * mp + 2) / 5 ≤ doy → (mp < 11 → doy < (153 * (mp + 1) + 2) / 5) →
  let month := mp + (if mp <? 10 then 3 else -9) in
  let year := y + (if month <=? 2 then 1 else 0) in
  let day := doy - (153 * mp + 2) / 5 + 1 in
  civil_ok year month day ∧ march_year year month = y.
Proof.
  intros Hmp Hdoy Hleap Hlo Hhi month year day.
  assert (march_year year month = y) as Hy by (unfold year, march_year; destruct (_ <=? _); lia).
  split; [|done]. unfold civil_ok, days_in_month. subst month. destruct (Z.ltb_spec mp 10).
  - unfold day. split; [lia|]. zcases; cbn [orb]; divlia.
  - assert (year = y + 1) as -> by (unfold year; zcases). unfold day. split; [lia|].
    destruct (Z.eqb_spec (mp + -9) 2); [|zcases; cbn [orb]; divlia].
    assert (mp = 11) as -> by lia. destruct (decide (doy = 365)) as [->|].
    + rewrite Hleap by done. divlia.
    + destruct (is_leap (y + 1)); divlia.
Qed.
Lemma civil_from_epoch_ok seconds :
  let '(year, month, day, hour, minute, second) := civil_from_epoch seconds in
  civil_ok year month day ∧ time_ok hour minute second 0 ∧
  days_from_civil year month day * 86400 + hour * 3600 + minute * 60 + second = seconds.
Proof.
  unfold civil_from_epoch. pose proof (era_split (seconds / 86400 + 719468)) as Hs. cbv zeta in Hs |- *.
  set (days := seconds / 86400 + 719468) in *. set (era := days / 146097) in *.
  set (doe := days - era * 146097) in *. destruct Hs as (Hdoe & Hs).
  rewrite (Z.quot_div_nonneg doe 1460), (Z.quot_div_nonneg doe 36524), (Z.quot_div_nonneg doe 146096) by lia.
  assert (0 ≤ doe - doe / 1460 + doe / 36524 - doe / 146096) as Hn by (clear - Hdoe; divlia).
  rewrite (Z.quot_div_nonneg _ 365) by lia.
  set (yoe := (doe - doe / 1460 + doe / 36524 - doe / 146096) / 365) in *. destruct Hs as (Hyoe & Hs).
  rewrite (Z.quot_div_nonneg yoe 4), (Z.quot_div_nonneg yoe 100) by lia.
  set (doy := doe - (365 * yoe + yoe / 4 - yoe / 100)) in *. destruct Hs as (Hdoy & Hleap & Hdays).
  rewrite (Z.quot_div_nonneg (5 * doy + 2) 153) by lia.
  destruct (month_split doy Hdoy) as (Hmp & Hlo & Hhi & Hmonth).
  set (mp := (5 * doy + 2) / 153) in *. rewrite (Z.quot_div_nonneg (153 * mp + 2) 5) by lia.
  assert (is_leap (yoe + era * 400 + 1) = is_leap (yoe + 1)) as Hl.
  { unfold is_leap. f_equal; [|f_equal; [f_equal|]]; f_equal; clear; divlia. }
  destruct (march_date (yoe + era * 400) mp doy) as [Hc Hy]; [lia..|by rewrite Hl|lia|lia|].
  split_and!; [done| |].
  - clear. split_and!; try done; divlia.
  - rewrite days_from_civil_eq, Hy, Hmonth by apply Hc.
    assert (march_days (yoe + era * 400) + (153 * mp + 2) / 5 + (doy - (153 * mp + 2) / 5 + 1) - 1 - 719468
      = seconds / 86400) as -> by (unfold days in Hdays; lia). clear. divlia.
Qed.

(** ** Both directions *)
Lemma march_days_mono a b : a ≤ b → march_days a ≤ march_days b.
Proof. intros Hab. unfold march_days. divlia. Qed.
(** The day of the March-based year, and the month it falls in. *)
Lemma day_of_year year month day : civil_ok year month day →
  0 ≤ month_days month + day - 1 ≤ (if is_leap (march_year year month + 1) then 365 else 364) ∧
  (5 * (month_days month + day - 1) + 2) / 153 = month + (if 2 <? month then -3 else 9).
Proof.
  intros [Hm Hd]. unfold days_in_month in Hd. destruct (Z.eqb_spec month 2) as [->|Hne].
  - change (month_days 2) with 337. change (2 <? 2) with false. unfold march_year.
    change (2 <=? 2) with true. cbv iota. replace (year - 1 + 1) with year by lia. clear Hm.
    destruct (is_leap year); divlia.
  - unfold month_days. clear - Hm Hne Hd. revert Hd.
    destruct (is_leap _); zcases; cbn [orb]; intros Hd; divlia.
Qed.
Lemma days_from_civil_inj y m d y' m' d' : civil_ok y m d → civil_ok y' m' d' →
  days_from_civil y m d = days_from_civil y' m' d' → y = y' ∧ m = m' ∧ d = d'.
Proof.
  intros Hc Hc' Heq. rewrite !days_from_civil_eq in Heq by (apply Hc || apply Hc').
  destruct (day_of_year _ _ _ Hc) as [Hr Hmp]. destruct (day_of_year _ _ _ Hc') as [Hr' Hmp'].
  assert (march_year y m = march_year y' m') as Hy.
  { pose proof (march_days_next (march_year y m)). pose proof (march_days_next (march_year y' m')).
    destruct (Z.lt_trichotomy (march_year y m) (march_year y' m')) as [Hlt|[?|Hlt]]; [|done|].
    - pose proof (march_days_mono (march_year y m + 1) (march_year y' m')) as Hmono.
      destruct (is_leap (march_year y m + 1)); lia.
    - pose proof (march_days_mono (march_year y' m' + 1) (march_year y m)) as Hmono.
      destruct (is_leap (march_year y' m' + 1)); lia. }
  assert (month_days m + d - 1 = month_days m' + d' - 1) as Hdoy by (rewrite Hy in Heq; lia).
  rewrite Hdoy, Hmp' in Hmp. destruct Hc as [Hm _], Hc' as [Hm' _].
  assert (m = m') as <- by (destruct (Z.ltb_spec 2 m), (Z.ltb_spec 2 m'); lia).
  unfold march_year in Hy. split_and!; lia.
Qed.
Lemma civil_from_epoch_days year month day hour minute second : civil_ok year month day →
  time_ok hour minute second 0 →
  civil_from_epoch (days_from_civil year month day * 86400 + hour * 3600 + minute * 60 + second) =
  (year, month, day, hour, minute, second).
Proof.
  intros Hc Ht. set (s := _ + second). pose proof (civil_from_epoch_ok s) as H.
  destruct (civil_from_epoch s) as [[[[[y m] d] h] mi] se]. destruct H as (Hc' & Ht' & Heq).
  unfold s in Heq. unfold time_ok in *.
  assert (days_from_civil y m d = days_from_civil year month day) as Hdays by lia.
  destruct (days_from_civil_inj _ _ _ _ _ _ Hc' Hc Hdays) as (-> & -> & ->).
  repeat f_equal; lia.
Qed.

(** The calendar is the proleptic Gregorian one.  Every second since the epoch
    is a valid civil date and time of day that counts back to it, every valid
    date and time is recovered from its count, 1970-01-01 is day zero, and the
    day after a date - by month lengths and leap years - has the next number. *)
Theorem calendar_exact :
  (∀ seconds, let '(year, month, day, hour, minute, second) := civil_from_epoch seconds in
    civil_ok year month day ∧ time_ok hour minute second 0 ∧
    days_from_civil year month day * 86400 + hour * 3600 + minute * 60 + second = seconds) ∧
  (∀ year month day hour minute second, civil_ok year month day → time_ok hour minute second 0 →
    civil_from_epoch (days_from_civil year month day * 86400 + hour * 3600 + minute * 60 + second) =
    (year, month, day, hour, minute, second)) ∧
  days_from_civil 1970 1 1 = 0 ∧
  (∀ year month day, civil_ok year month day →
    let '(year', month', day') := next_day year month day in
    civil_ok year' month' day' ∧
    days_from_civil year' month' day' = days_from_civil year month day + 1).
Proof.
  split_and!; [apply civil_from_epoch_ok|apply civil_from_epoch_days|done|apply next_day_count].
Qed.
Lemma calendar_exact_witness :
  civil_from_epoch (days_from_civil 2024 2 29 * 86400 + 23 * 3600 + 59 * 60 + 59) =
    (2024, 2, 29, 23, 59, 59) ∧ next_day 2024 2 29 = (2024, 3, 1).
Proof.
  split; [|reflexivity]. destruct calendar_exact as (_ & H & _). apply H.
  - vm_compute. by repeat split.
  - vm_compute. by repeat split.
Defined.

(** ** Decimal text of times

    Printing a number with zero padding and reading its digits back. *)

(** ** Digits *)
Definition digit (z : Z) : byte := byte_of (48 + z mod 10).
(** The last [width] decimal digits. *)
Fixpoint decimal (width : nat) (value : Z) : list byte :=
  match width with
  | O => []
  | S width => decimal width (value / 10) ++ [digit value]
  end.
(** The number a digit string denotes. *)
Definition decimal_value (l : list byte) : Z := foldl (λ acc b, acc * 10 + (u8 b - 48)) 0 l.
Definition all_digits (l : list byte) : Prop := Forall (λ b, is_ascii_digit b = true) l.

Lemma u8_digit z : u8 (digit z) = 48 + z mod 10.
Proof. unfold digit. rewrite u8_byte_of, Z.mod_small; [done|]. pose proof (Z.mod_pos_bound z 10). lia. Qed.
Lemma is_digit_range b : is_ascii_digit b = true ↔ 48 ≤ u8 b ≤ 57.
Proof. unfold is_ascii_digit, byte_in. rewrite andb_true_iff, !Z.leb_le. done. Qed.
Lemma digit_is_digit z : is_ascii_digit (digit z) = true.
Proof. apply is_digit_range. rewrite u8_digit. pose proof (Z.mod_pos_bound z 10). lia. Qed.
Lemma length_decimal width value : length (decimal width value) = width.
Proof. revert value. induction width as [|w IH]; intros v; [done|]. cbn. rewrite length_app, IH. cbn. lia. Qed.
Lemma decimal_digits width value : all_digits (decimal width value).
Proof.
  revert value. induction width as [|w IH]; intros v; [constructor|]. cbn. apply Forall_app. split; [apply IH|].
  repeat constructor. apply digit_is_digit.
Qed.
Lemma decimal_zero width : decimal width 0 = repeat x30 width.
Proof.
  induction width as [|w IH]; [done|]. cbn [decimal]. change (0 / 10) with 0. rewrite IH.
  change (digit 0) with x30. symmetry. apply (repeat_cons w x30).
Qed.
Lemma decimal_value_snoc l b : decimal_value (l ++ [b]) = decimal_value l * 10 + (u8 b - 48).
Proof. unfold decimal_value. by rewrite foldl_app. Qed.
Lemma decimal_value_decimal width value : 0 ≤ value < 10 ^ Z.of_nat width →
  decimal_value (decimal width value) = value.
Proof.
  revert value. induction width as [|w IH]; intros v Hv; [cbn in *; unfold decimal_value; cbn; lia|].
  cbn [decimal]. rewrite Nat2Z.inj_succ, Z.pow_succ_r in Hv by lia.
  rewrite decimal_value_snoc, u8_digit, IH by divlia. divlia.
Qed.
Lemma decimal_value_range l : all_digits l → 0 ≤ decimal_value l < 10 ^ zlen l.
Proof.
  induction l as [|b l IH] using rev_ind; [by intros _|]. intros [Hl Hb]%Forall_app.
  apply Forall_singleton, is_digit_range in Hb. specialize (IH Hl).
  rewrite decimal_value_snoc, zlen_app. change (zlen [b]) with 1.
  rewrite Z.pow_add_r by (pose proof (zlen_nonneg l); lia). lia.
Qed.

(** ** Printing *)
Lemma dec_loop_decimal width : ∀ fuel value out, (S width ≤ fuel)%nat → 0 ≤ value < 10 ^ Z.of_nat (S width) →
  ∃ l, dec_loop fuel value out = l ++ out ∧ (length l ≤ S width)%nat ∧
    repeat x30 (S width - length l) ++ l = decimal (S width) value.
Proof.
  induction width as [|w IH]; intros fuel value out Hf Hv; (destruct fuel as [|fuel]; [lia|]);
    cbn [dec_loop]; fold (digit value).
  - cbn in Hv. rewrite (proj2 (Z.eqb_eq _ _)) by divlia. by exists [digit value].
  - rewrite Nat2Z.inj_succ, Z.pow_succ_r in Hv by lia. destruct (Z.eqb_spec (value / 10) 0) as [H0|H0].
    + exists [digit value]. split_and!; [done|cbn; lia|]. cbn [decimal]. rewrite H0.
      change (decimal w (0 / 10) ++ [digit 0]) with (decimal (S w) 0). by rewrite decimal_zero.
    + destruct (IH fuel (value / 10) (digit value :: out)) as (l & -> & Hl & Hd); [lia|divlia|].
      exists (l ++ [digit value]). rewrite <-app_assoc, length_app. split_and!; [done|cbn; lia|].
      cbn [decimal length]. cbn [decimal] in Hd. rewrite <-Hd, <-app_assoc. f_equal. f_equal. lia.
Qed.
Lemma fmt_padded_decimal width value : (1 ≤ width ≤ 20)%nat → 0 ≤ value < 10 ^ Z.of_nat width →
  fmt_padded width value = decimal width value.
Proof.
  intros Hw Hv. unfold fmt_padded. rewrite (proj2 (Z.ltb_ge _ _)) by lia. unfold zero_pad, dec_digits.
  destruct width as [|w]; [lia|]. destruct (dec_loop_decimal w 20 value []) as (l & -> & _ & <-); [lia|done|].
  by rewrite app_nil_r.
Qed.

(** ** Reading *)
Lemma digit_step_Some acc b : 0 ≤ acc → acc * 10 + 9 ≤ U32_MAX → is_ascii_digit b = true →
  digit_step (Some acc) b = Some (acc * 10 + (u8 b - 48)).
Proof.
  intros H0 Hmax Hb. unfold digit_step. cbn [mbind option_bind]. rewrite Hb. cbn [negb].
  apply is_digit_range in Hb. unfold u32_try_from.
  rewrite (proj2 (Z.leb_le 0 _)), (proj2 (Z.leb_le (acc * 10) _)) by lia. cbn [andb mbind option_bind].
  rewrite (proj2 (Z.leb_le 0 _)), (proj2 (Z.leb_le _ U32_MAX)) by lia. done.
Qed.
(** Up to nine digits fit. *)
Lemma digits_fold l : all_digits l → zlen l ≤ 9 → foldl digit_step (Some 0) l = Some (decimal_value l).
Proof.
  induction l as [|b l IH] using rev_ind; intros Hd Hl; [done|].
  apply Forall_app in Hd as [Hd [Hb _]%Forall_cons]. rewrite zlen_app in Hl. change (zlen [b]) with 1 in Hl.
  rewrite foldl_app, IH, decimal_value_snoc by (done || lia). cbn [foldl].
  pose proof (decimal_value_range l Hd) as Hr.
  assert (10 ^ zlen l ≤ 10 ^ 8) by (apply Z.pow_le_mono_r; lia).
  apply digit_step_Some; unfold U32_MAX; [lia|lia|done].
Qed.
Lemma digits_at pre l post start count : start = zlen pre → count = zlen l → all_digits l → count ≤ 9 →
  digits (pre ++ l ++ post) start count = Some (decimal_value l).
Proof.
  intros -> -> Hd Hl. unfold digits. rewrite (proj2 (Z.ltb_ge _ _)) by lens.
  unfold zlen. rewrite !Nat2Z.id, drop_app_length, take_app_length. by apply digits_fold.
Qed.
Lemma digit_run_app l b post : all_digits l → is_ascii_digit b = false →
  digit_run (l ++ b :: post) = zlen l.
Proof.
  intros Hd Hb. induction Hd as [|c l Hc Hl IH]; cbn; [by rewrite Hb|].
  rewrite Hc, IH, zlen_cons. done.
Qed.

(** ** Trimmed fractions *)
Lemma strip_zeros_spec l : ∃ k, l = repeat x30 k ++ strip_zeros l ∧
  match strip_zeros l with b :: _ => b ≠ x30 | [] => True end.
Proof.
  induction l as [|b l (k & Hk & Hh)]; [by exists O|]. cbn [strip_zeros]. destruct (decide (b = x30)) as [->|Hb].
  - exists (S k). cbn. by rewrite <-Hk.
  - by exists O.
Qed.
Lemma trim_zeros_spec l : ∃ k, l = trim_zeros l ++ repeat x30 k.
Proof.
  destruct (strip_zeros_spec (rev l)) as (k & Hk & _). exists k. unfold trim_zeros.
  apply (f_equal (@rev _)) in Hk. rewrite rev_involutive, rev_app_distr in Hk. rewrite Hk at 1. f_equal.
  clear. induction k as [|k IH]; [done|]. cbn. rewrite IH. symmetry. apply (repeat_cons k x30).
Qed.
Lemma decimal_value_zeros l k : decimal_value (l ++ repeat x30 k) = decimal_value l * 10 ^ Z.of_nat k.
Proof.
  induction k as [|k IH]; [cbn; rewrite app_nil_r; lia|].
  rewrite Nat2Z.inj_succ, Z.pow_succ_r by lia. replace (repeat x30 (S k)) with (repeat x30 k ++ [x30])
    by (symmetry; apply (repeat_cons k x30)). rewrite app_assoc, decimal_value_snoc, IH. change (u8 x30) with 48. lia.
Qed.
(** The printed fraction denotes the nanoseconds at nine places. *)
Lemma fraction_text n : 0 < n ≤ 999999999 → ∃ l k, fmt_fraction n = x2e :: l ∧ all_digits l ∧
  1 ≤ zlen l ∧ zlen l + k = 9 ∧ 0 ≤ k ∧ decimal_value l * 10 ^ k = n.
Proof.
  intros Hn. unfold fmt_fraction. rewrite (proj2 (Z.eqb_neq _ _)) by lia.
  rewrite fmt_padded_decimal by (lia || (cbn; lia)).
  destruct (trim_zeros_spec (decimal 9 n)) as (k & Hk). set (l := trim_zeros _) in *.
  pose proof (decimal_value_decimal 9 n) as Hval. rewrite Hk, decimal_value_zeros in Hval.
  pose proof (length_decimal 9 n) as Hlen. rewrite Hk, length_app, repeat_length in Hlen.
  exists l, (Z.of_nat k). split_and!; [done| | |unfold zlen; lia|lia|apply Hval; cbn; lia].
  - pose proof (decimal_digits 9 n) as Hd. rewrite Hk in Hd. by apply Forall_app in Hd as [? _].
  - destruct l; [|rewrite zlen_cons; pose proof (zlen_nonneg l); lia]. exfalso.
    unfold decimal_value in Hval. cbn in Hval. lia.
Qed.
