(* ===== verification/TimeFacts.v ===== *)
(** * What the time normalizer guarantees

    Numeric times resolve exactly, printed instants parse back, and every input
    within the size limits normalizes to a consistent envelope. *)
From S2P Require Import Prelude Ids Value TimeModel TimeNormalize TimeCalendar.
Import TimeError.

(** ** Numeric times *)
Definition unit_nanos (unit : EpochUnit) : Z :=
  match unit with
  | Seconds => 1000000000 | Milliseconds => 1000000 | Microseconds => 1000 | Nanoseconds => 1
  end.
Lemma i64_checked_Some z : I64_MIN ≤ z ≤ I64_MAX → i64_checked z = Some z.
Proof. intros H. unfold i64_checked. by rewrite !(proj2 (Z.leb_le _ _)) by lia. Qed.
Lemma i64_checked_inv z r : i64_checked z = Some r → r = z.
Proof. unfold i64_checked. destruct (_ && _); congruence. Qed.
Lemma u32_checked_Some z : 0 ≤ z ≤ U32_MAX → u32_try_from z = Some z.
Proof. intros H. unfold u32_try_from. by rewrite !(proj2 (Z.leb_le _ _)) by lia. Qed.
Lemma u32_checked_inv z r : u32_try_from z = Some r → r = z ∧ 0 ≤ z.
Proof. unfold u32_try_from. destruct (Z.leb_spec 0 z); [|done]. destruct (_ <=? _); cbn; [intros [= <-]|]; done. Qed.
Lemma instant_new_Some s n i : 0 ≤ n → UtcInstant_new s n = Some i ↔ i = mk_instant s n ∧ instant_ok i.
Proof.
  intros Hn. unfold UtcInstant_new, instant_ok. destruct (_ || _) eqn:Hb.
  - split; [done|]. intros [-> [H1 H2]]. cbn in *. lia.
  - split; [intros [= <-]|by intros [-> _]]. split; [done|]. cbn. lia.
Qed.
Lemma numeric_parts value unit : numeric_instant value unit =
  UtcInstant_new (value * unit_nanos unit / 1000000000) (value * unit_nanos unit mod 1000000000)
  ∨ (numeric_instant value unit = None ∧ ¬ I64_MIN ≤ value * unit_nanos unit / 1000000000 ≤ I64_MAX).
Proof.
  assert (∀ d k, 0 < d → d * k = 1000000000 → value / d = value * k / 1000000000 ∧
    (value mod d) * k = (value * k) mod 1000000000) as Hdk.
  { intros d k Hd Hk. assert (0 < k) by nia. rewrite <-Hk. rewrite Z.div_mul_cancel_r by lia. split; [done|].
    symmetry. apply Z.mul_mod_distr_r; lia. }
  assert (∃ d k, 0 < d ∧ d * k = 1000000000 ∧ unit_nanos unit = k ∧ numeric_instant value unit =
    (s ← i64_checked (value / d); n ← u32_try_from (value mod d * k); UtcInstant_new s n)) as (d & k & Hd & Hk & -> & ->).
  { unfold numeric_instant. destruct unit; [exists 1, 1000000000|exists 1000, 1000000|exists 1000000, 1000|
      exists 1000000000, 1]; (split_and!; [lia|lia|done|]).
    - cbn -[i64_checked]. by rewrite Z.mod_1_r.
    - cbn -[i64_checked Z.div Z.modulo Z.mul i128_checked u32_try_from UtcInstant_new].
      unfold i128_checked at 1. pose proof (Z.mod_pos_bound value 1000).
      rewrite !(proj2 (Z.leb_le _ _)) by (unfold I128_MAX; lia). done.
    - cbn -[i64_checked Z.div Z.modulo Z.mul i128_checked u32_try_from UtcInstant_new].
      unfold i128_checked at 1. pose proof (Z.mod_pos_bound value 1000000).
      rewrite !(proj2 (Z.leb_le _ _)) by (unfold I128_MAX; lia). done.
    - cbn -[i64_checked Z.div Z.modulo Z.mul i128_checked u32_try_from UtcInstant_new].
      unfold i128_checked at 1. pose proof (Z.mod_pos_bound value 1000000000).
      rewrite !(proj2 (Z.leb_le _ _)) by (unfold I128_MAX; lia). done. }
  destruct (Hdk d k Hd Hk) as [-> ->].
  destruct (decide (I64_MIN ≤ value * k / 1000000000 ≤ I64_MAX)) as [Hr|Hr].
  - left. rewrite i64_checked_Some by done. cbn [mbind option_bind].
    pose proof (Z.mod_pos_bound (value * k) 1000000000). by rewrite u32_checked_Some by (unfold U32_MAX; lia).
  - right. split; [|done]. unfold i64_checked. destruct (_ && _) eqn:Hb; [|done].
    exfalso. apply Hr. apply andb_true_iff in Hb. lia.
Qed.
Lemma numeric_exact value unit i : numeric_instant value unit = Some i ↔
  instant_ok i ∧ inst_seconds i * 1000000000 + inst_nanoseconds i = value * unit_nanos unit.
Proof.
  pose proof (Z.mod_pos_bound (value * unit_nanos unit) 1000000000 ltac:(lia)) as Hmod.
  pose proof (Z.div_mod (value * unit_nanos unit) 1000000000 ltac:(lia)) as Hdiv.
  destruct (numeric_parts value unit) as [-> |[-> Hr]].
  - rewrite instant_new_Some by lia. split.
    + intros [-> Hok]. split; [done|]. cbn. lia.
    + intros [Hok Heq]. split; [|done]. destruct i as [s n]. unfold instant_ok in Hok. cbn in *. f_equal; divlia.
  - split; [done|]. intros [Hok Heq]. exfalso. apply Hr. destruct i as [s n].
    unfold instant_ok, MIN_EPOCH_SECONDS, MAX_EPOCH_SECONDS, I64_MIN, I64_MAX in *. cbn in *. divlia.
Qed.

(** ** What the parser returns *)
Definition wall_ok (precision : SourcePrecision) : Prop :=
  match precision with SecondPrecision => True | FractionDigits d => 1 ≤ d ≤ 9 | _ => False end.
Lemma parse_fraction_Ok bytes cursor nanos precision :
  parse_fraction bytes = Ok (cursor, nanos, precision) → wall_ok precision.
Proof.
  unfold parse_fraction. destruct (byte_at _ _ _); [|by intros [= _ _ <-]].
  cbv zeta. destruct (_ || _) eqn:Hc; [done|]. intros (f & _ & (n & _ & [= _ _ <-])%bind_Ok)%bind_Ok.
  cbn. assert (0 ≤ digit_run (drop 20 bytes)) by (generalize (drop 20 bytes); intros l; induction l; cbn; [lia|]; destruct (is_ascii_digit _); lia).
  lia.
Qed.
Lemma digit_step_None l : foldl digit_step None l = None.
Proof. induction l as [|b l IH]; [done|exact IH]. Qed.
Lemma digits_nonneg bytes start count v : digits bytes start count = Some v → 0 ≤ v.
Proof.
  unfold digits. destruct (_ <? _); [done|]. generalize (take (Z.to_nat count) (drop (Z.to_nat start) bytes)).
  intros l. assert (∀ acc, 0 ≤ acc → foldl digit_step (Some acc) l = Some v → 0 ≤ v) as Hgen; [|by apply Hgen].
  induction l as [|b l IH]; intros acc Hacc H; [by injection H as <-|]. cbn [foldl] in H.
  destruct (digit_step (Some acc) b) as [acc'|] eqn:Hs; [|by rewrite digit_step_None in H].
  apply (IH acc'); [|done]. unfold digit_step in Hs. cbn in Hs. destruct (negb _); [done|].
  apply bind_Some in Hs as (v1 & _ & [-> H1]%u32_checked_inv). done.
Qed.
Lemma parse_offset_Ok suffix offset unknown : parse_offset suffix = Ok (offset, unknown) →
  if unknown : bool then offset = None else ∃ o, offset = Some o ∧ valid_offset o = true.
Proof.
  unfold parse_offset. case_decide; [by intros [= <- <-]; exists 0|]. destruct (_ && _); [|done].
  intros (h & Hh%ok_or_Ok%digits_nonneg & (m & Hm%ok_or_Ok%digits_nonneg & Ho)%bind_Ok)%bind_Ok.
  destruct (_ || _) eqn:Hb; [done|]. case_decide; [by injection Ho as <- <-|].
  apply bind_Ok in Ho as (s & Hs%ok_or_Ok & [= <- <-]). eexists. split; [done|].
  unfold i32_try_from in Hs. destruct (_ && _); [|done]. injection Hs as <-. unfold valid_offset.
  assert (0 ≤ h ≤ 23 ∧ 0 ≤ m ≤ 59) as [? ?] by lia.
  assert (Z.rem (h * 3600 + m * 60) 60 = 0) by divlia.
  destruct (byte_at _ _ _); rewrite ?Z.rem_opp_l by lia; lia.
Qed.

Section parser.
Context `{Jiff}.
Definition failure_ok (require_offset : bool) (f : ParseFailure) : Prop :=
  f = parse_invalid ∨
  (wall_ok (pf_precision f) ∧
   ((pf_resolution f = Unsupported LeapSecond ∧
     match pf_offset f with Some o => valid_offset o = true | None => True end) ∨
    (require_offset = true ∧ pf_resolution f = Ambiguous UnknownOffset ∧ pf_offset f = None))).
Definition parsed_ok (require_offset : bool) (p : ParsedDateTime) : Prop :=
  wall_ok (pd_precision p) ∧
  if require_offset then ∃ o, pd_offset p = Some o ∧ valid_offset o = true else pd_offset p = None.
(** A chain of fallible reads that fail alike. *)
Lemma bind_same {E A B} (m : result E A) (k : A → result E B) (P : result E B → Prop) e :
  (∀ e', m = Err e' → e' = e) → P (Err e) → (∀ a, m = Ok a → P (k a)) → P (m ≫= k).
Proof. intros He HP Hk. destruct m as [a|e'] eqn:Hm; cbn; [by apply Hk|by rewrite (He e')]. Qed.
Lemma ok_or_Err {E A} (o : option A) (e e' : E) : ok_or o e = Err e' → e' = e.
Proof. destruct o; [done|]. by intros [= <-]. Qed.
Lemma parse_fraction_Err bytes e : parse_fraction bytes = Err e → e = parse_invalid.
Proof.
  unfold parse_fraction. destruct (byte_at _ _ _); [|done]. cbv zeta. destruct (_ || _); [by intros [= <-]|].
  intros [?%ok_or_Err|(f & _ & [?%ok_or_Err|(n & _ & ?)]%bind_Err)]%bind_Err; done.
Qed.
Lemma parse_offset_Err suffix e : parse_offset suffix = Err e → e = parse_invalid.
Proof.
  unfold parse_offset. case_decide; [done|]. destruct (_ && _); [|by intros [= <-]].
  intros [?%ok_or_Err|(h & _ & [?%ok_or_Err|(m & _ & Hr)]%bind_Err)]%bind_Err; [done..|].
  destruct (_ || _); [by injection Hr as <-|]. case_decide; [done|].
  apply bind_Err in Hr as [?%ok_or_Err|(s & _ & ?)]; done.
Qed.
Lemma parse_datetime_spec input require_offset :
  match parse_datetime input require_offset with
  | Ok p => parsed_ok require_offset p
  | Err f => failure_ok require_offset f
  end.
Proof.
  set (P := λ r, match r with Ok p => parsed_ok require_offset p | Err f => failure_ok require_offset f end).
  change (P (parse_datetime input require_offset)).
  assert (P (Err parse_invalid)) as Hinv by (by left). unfold parse_datetime. cbv zeta.
  destruct (_ || _); [done|].
  do 6 (eapply bind_same; [apply ok_or_Err|done|intros ? _]). destruct (_ =? 0); [done|].
  eapply bind_same; [apply parse_fraction_Err|done|intros [[cursor nanos] precision] Hw%parse_fraction_Ok].
  eapply (bind_same _ _ _ parse_invalid); [|done|].
  { intros e. destruct require_offset; [apply parse_offset_Err|]. destruct (_ =? _); [done|]. by intros [= <-]. }
  intros [offset unknown] Ho.
  assert (if unknown : bool then require_offset = true ∧ offset = None
    else if require_offset then ∃ o, offset = Some o ∧ valid_offset o = true else offset = None) as Hoff.
  { destruct require_offset.
    - apply parse_offset_Ok in Ho. by destruct unknown.
    - destruct (_ =? _); [|done]. by injection Ho as <- <-. }
  do 8 (eapply bind_same; [apply ok_or_Err|done|intros ? _]).
  destruct (_ =? 60); [|destruct unknown].
  - right. split; [done|]. left. split; [done|]. cbn.
    destruct unknown, require_offset; naive_solver.
  - right. split; [done|]. right. by destruct Hoff.
  - by split.
Qed.
End parser.

(** ** Consistent envelopes *)
Definition within (limit : Z) (o : option (list byte)) : Prop :=
  match o with Some s => zlen s ≤ limit | None => True end.
Definition offset_ok (o : option Z) : Prop :=
  match o with Some offset => valid_offset offset = true | None => True end.
(** Which resolutions a wall-clock time may have. *)
Definition wall_resolution (supplied : option Z) (zone : option (list byte)) (fold : option FoldChoice)
    (resolution : Resolution) : Prop :=
  match resolution with
  | Resolved _ o => -93599 ≤ o ≤ 93599 ∧ (supplied = None ∨ supplied = Some o) ∧
      (is_Some zone ∨ is_Some supplied) ∧ (fold = None ∨ is_Some zone)
  | Ambiguous UnknownOffset | Ambiguous MissingZone => supplied = None ∧ zone = None ∧ fold = None
  | Ambiguous FoldChoiceRequired => is_Some zone ∧ fold = None
  | Invalid UnknownZone | Invalid NonexistentLocalTime => is_Some zone
  | Invalid UnnecessaryFoldChoice => is_Some fold
  | Invalid OffsetZoneConflict => is_Some zone ∧ is_Some supplied
  | Invalid OutOfRange => is_Some zone ∨ is_Some supplied
  | Unsupported LeapSecond => True
  | _ => False
  end.
Lemma opt_is_some_Some {A} (o : option A) : is_Some o → opt_is_some o = true.
Proof. by intros [? ->]. Qed.
Lemma wall_consistent original supplied zone fold resolution precision assumptions :
  zlen assumptions ≤ MAX_ASSUMPTIONS → wall_ok precision → offset_ok supplied →
  within MAX_ZONE_BYTES zone → wall_resolution supplied zone fold resolution →
  envelope_inconsistent original (mk_interpretation PosixUtc None supplied zone fold) resolution
    precision assumptions ((λ _, TimezoneProfile_PINNED) <$> zone) = false.
Proof.
  intros Ha Hp Ho Hz Hr. unfold envelope_inconsistent. rewrite (proj2 (Z.ltb_ge _ _)) by done.
  cbn [ti_scale ti_epoch_unit ti_supplied_offset_seconds ti_zone ti_fold].
  assert (∀ o, offset_ok (Some o) → is_some_and (λ offset, negb (valid_offset offset)) (Some o) = false) as Hoff
    by (intros o Hv; cbn in *; by rewrite Hv).
  assert (is_some_and (λ offset, negb (valid_offset offset)) supplied = false) as ->
    by (destruct supplied; [by apply Hoff|done]).
  assert (is_some_and (λ zone, MAX_ZONE_BYTES <? zlen zone) zone = false) as ->
    by (destruct zone; cbn in *; [by apply Z.ltb_ge|done]).
  assert (match precision with FractionDigits d => (d =? 0) || (10 <=? d) | _ => false end = false) as ->
    by (destruct precision; cbn in *; try done; lia).
  assert (is_some_and (λ profile, bool_decide (profile ≠ TimezoneProfile_PINNED))
    ((λ _, TimezoneProfile_PINNED) <$> zone) = false) as -> by (by destruct zone).
  assert (is_some_and (λ offset, negb ((-93599 <=? offset) && (offset <=? 93599)))
    (res_effective_offset_seconds resolution) = false) as ->
    by (destruct resolution; cbn in *; try done; lia).
  assert (is_resolved resolution && is_some_and (λ s, bool_decide (res_effective_offset_seconds resolution ≠ Some s))
    supplied = false) as ->.
  { destruct resolution as [i o|? |? |? |?]; try done. cbn in *. destruct supplied as [s|]; [|done]. cbn.
    destruct Hr as (_ & [?|[= ->]] & _); [done|]. by rewrite bool_decide_eq_false_2 by naive_solver. }
  destruct precision; try done; destruct supplied, zone, fold, resolution as [? ?|[]|[]|[]|[]]; cbn in *;
    first [done|exfalso; naive_solver|idtac].
Qed.

(** ** Every input normalizes *)
Lemma bounded_Ok s limit field : zlen s ≤ limit → limit ≤ MAX_INLINE_BYTES → bounded s limit field = Ok s.
Proof.
  intros Hs Hl. unfold bounded. rewrite (proj2 (Z.ltb_ge _ _)) by done.
  unfold BoundedString_new, check_inline_length. by rewrite (proj2 (Z.ltb_ge _ _)) by lia.
Qed.
Lemma checked_Ok source role original i resolution precision u assumptions profile :
  zlen original ≤ MAX_ORIGINAL_BYTES →
  envelope_inconsistent original i resolution precision assumptions profile = false →
  TimestampEnvelope_checked source role original i resolution precision u assumptions profile =
  Ok (mk_envelope source role original i resolution precision u assumptions profile).
Proof. intros Hl Hc. unfold TimestampEnvelope_checked. rewrite Hc, bounded_Ok by done. done. Qed.

Section total.
Context `{JiffLaws}.
Implicit Types (source : SourceDescriptor) (role : TimestampRole) (u : ClockUncertainty).
Definition input_text (input : TimeInput) : list byte :=
  match input with
  | MissingInput => [] | Rfc3339 t | DateOnly t | Numeric t _ _ _ | Local t _ _ _ => t
  end.
Definition input_within (input : TimeInput) : Prop :=
  zlen (input_text input) ≤ MAX_ORIGINAL_BYTES ∧
  match input with Local _ zone _ _ => within MAX_ZONE_BYTES zone | _ => True end.
Lemma resolved_wall supplied zone fold i o : -93599 ≤ o ≤ 93599 → (supplied = None ∨ supplied = Some o) →
  (is_Some zone ∨ is_Some supplied) → (fold = None ∨ is_Some zone) →
  wall_resolution supplied zone fold (resolved_or_out_of_range i o).
Proof. intros. destruct i; cbn; tauto. Qed.
Lemma valid_offset_range o : valid_offset o = true → -93599 ≤ o ≤ 93599.
Proof. unfold valid_offset. lia. Qed.
Lemma named_zone_wall datetime name supplied fold :
  wall_resolution supplied (Some name) fold (resolve_named_zone datetime name supplied fold).
Proof.
  unfold resolve_named_zone. destruct (tzdb_get name) as [[canonical bytes]|]; [|by eexists].
  destruct (TimeZone_tzif canonical bytes) as [tz|]; [|by eexists].
  pose proof (offsets_bounded tz datetime) as Hb.
  assert (∀ o, -93599 ≤ o ≤ 93599 → wall_resolution supplied (Some name) fold
    (if is_some_and (λ offset, negb (offset =? o)) supplied then Invalid OffsetZoneConflict
     else resolved_or_out_of_range (instant_from_datetime_offset datetime o) o)) as Hres.
  { intros o Ho. destruct supplied as [s|]; cbn [is_some_and].
    - destruct (Z.eqb_spec s o) as [->|]; cbn [negb]; [|by split; eexists].
      apply resolved_wall; eauto.
    - apply resolved_wall; eauto. }
  destruct (ambiguous_offset tz datetime) as [o|before after|before after].
  - destruct fold; cbn [opt_is_some]; [by eexists|]. by apply Hres.
  - by eexists.
  - destruct fold as [[]|]; [apply Hres; tauto..|]. split; [by eexists|done].
Qed.
Lemma failure_wall f supplied zone fold : failure_ok false f → f ≠ parse_invalid →
  wall_ok (pf_precision f) ∧ wall_resolution supplied zone fold (pf_resolution f).
Proof. intros [?|(Hw & [[-> _]|[? _]])] Hne; [done| |done]. split; done. Qed.
(** Unreadable text: the syntax verdict carries no precision. *)
Lemma invalid_consistent original supplied zone fold assumptions : zlen assumptions ≤ MAX_ASSUMPTIONS →
  within MAX_ZONE_BYTES zone →
  envelope_inconsistent original (mk_interpretation PosixUtc None supplied zone fold) (Invalid InvalidSyntax)
    UnknownPrecision assumptions ((λ _, TimezoneProfile_PINNED) <$> zone) = false.
Proof.
  intros Ha Hz. unfold envelope_inconsistent. rewrite (proj2 (Z.ltb_ge _ _)) by done. cbn.
  assert (is_some_and (λ zone, MAX_ZONE_BYTES <? zlen zone) zone = false) as ->
    by (destruct zone; cbn in *; [by apply Z.ltb_ge|done]).
  rewrite andb_false_r. by destruct zone.
Qed.
Definition made source role (input : TimeInput) u assumptions (r : option (result TimeError TimestampEnvelope)) : Prop :=
  ∃ i resolution precision profile, r = Some (Ok (mk_envelope source role (input_text input) i resolution
    precision u assumptions profile)).
Lemma rfc3339_total source role t u assumptions : zlen t ≤ MAX_ORIGINAL_BYTES → zlen assumptions ≤ MAX_ASSUMPTIONS →
  made source role (Rfc3339 t) u assumptions (normalize_rfc3339 source role t u assumptions).
Proof.
  intros Ht Ha. unfold normalize_rfc3339. pose proof (parse_datetime_spec t true) as Hp.
  destruct (parse_datetime t true) as [p|f].
  - destruct Hp as (Hw & o & -> & Ho). cbn [mbind option_bind]. do 4 eexists. unfold make_envelope.
    rewrite checked_Ok; [done..|].
    apply (wall_consistent t (Some o) None None _ _ _ Ha Hw Ho I). apply resolved_wall; eauto using valid_offset_range.
  - do 4 eexists. unfold make_envelope. rewrite checked_Ok; [done..|].
    destruct Hp as [-> |(Hw & [[-> Ho]|(_ & -> & ->)])].
    + by apply (invalid_consistent t None None None).
    + by apply (wall_consistent t _ None None).
    + by apply (wall_consistent t None None None).
Qed.
Lemma local_total source role t zone offset fold u assumptions : zlen t ≤ MAX_ORIGINAL_BYTES →
  within MAX_ZONE_BYTES zone → zlen assumptions ≤ MAX_ASSUMPTIONS →
  made source role (Local t zone offset fold) u assumptions
    (Some (normalize_local source role t zone offset fold u assumptions)).
Proof.
  intros Ht Hz Ha. unfold normalize_local.
  assert (is_some_and (λ zone, MAX_ZONE_BYTES <? zlen zone) zone = false) as ->
    by (destruct zone; cbn in *; [by apply Z.ltb_ge|done]).
  assert (match zone with Some value => Some <$> bounded value MAX_ZONE_BYTES (lit "zone") | None => Ok None end
    = Ok zone) as -> by (destruct zone; [by rewrite bounded_Ok|done]).
  rewrite result_bind_Ok. cbv zeta. unfold make_envelope.
  destruct (is_some_and _ offset) eqn:Hoff.
  { do 4 eexists. rewrite checked_Ok; [done..|]. by apply invalid_consistent. }
  assert (offset_ok offset) as Ho by (destruct offset; [by apply negb_false_iff|done]).
  pose proof (parse_datetime_spec t false) as Hp. destruct (parse_datetime t false) as [p|f].
  - destruct Hp as [Hw _]. destruct zone as [name|].
    + do 4 eexists. rewrite checked_Ok; [done..|]. by apply (wall_consistent t offset (Some name)), named_zone_wall.
    + destruct offset as [o|], fold as [c|]; do 4 eexists; (rewrite checked_Ok; [done..|]);
        apply (wall_consistent t _ None); try done; try (by eexists).
      apply resolved_wall; eauto using valid_offset_range.
  - do 4 eexists. rewrite checked_Ok; [done..|].
    destruct (decide (pf_resolution f = Invalid InvalidSyntax)) as [Hi|Hi].
    + destruct Hp as [-> |(_ & [[Hl _]|(_ & Hl & _)])]; [|congruence..]. by apply invalid_consistent.
    + destruct (failure_wall f offset zone fold Hp) as [? ?]; [by intros ->|]. by apply wall_consistent.
Qed.
Lemma numeric_total source role t v unit scale u assumptions : zlen t ≤ MAX_ORIGINAL_BYTES →
  zlen assumptions ≤ MAX_ASSUMPTIONS →
  made source role (Numeric t v unit scale) u assumptions
    (Some (normalize_numeric source role t v unit scale u assumptions)).
Proof.
  intros Ht Ha. unfold normalize_numeric, make_envelope. cbv zeta. do 4 eexists. rewrite checked_Ok; [done..|].
  unfold envelope_inconsistent. rewrite (proj2 (Z.ltb_ge _ _)) by done.
  destruct unit as [unit|], scale; cbn; try done; destruct unit; try done; destruct (numeric_instant v _); done.
Qed.
Lemma date_only_total source role t u assumptions : zlen t ≤ MAX_ORIGINAL_BYTES →
  zlen assumptions ≤ MAX_ASSUMPTIONS →
  made source role (DateOnly t) u assumptions (normalize source role (DateOnly t) u assumptions).
Proof.
  intros Ht Ha. unfold normalize, preflight_original. rewrite !(proj2 (Z.ltb_ge _ _)) by done.
  cbn [mbind result_bind]. do 4 eexists. unfold make_envelope. rewrite checked_Ok; [done..|].
  unfold envelope_inconsistent. rewrite (proj2 (Z.ltb_ge _ _)) by done. by destruct (valid_date_only t).
Qed.
Lemma normalize_made source role input u assumptions : zlen assumptions ≤ MAX_ASSUMPTIONS →
  input_within input → made source role input u assumptions (normalize source role input u assumptions).
Proof.
  intros Ha [Ht Hz]. destruct input as [|t|t v unit scale|t zone o fold|t]; [| | | |by apply date_only_total];
    unfold normalize, preflight_original; rewrite !(proj2 (Z.ltb_ge _ _)) by done.
  - do 4 eexists. unfold make_envelope. rewrite checked_Ok; [done..|].
    unfold envelope_inconsistent. by rewrite (proj2 (Z.ltb_ge _ _)) by done.
  - by apply rfc3339_total.
  - by apply numeric_total.
  - by apply local_total.
Qed.
Lemma normalize_too_large source role input u assumptions :
  ¬ (zlen assumptions ≤ MAX_ASSUMPTIONS ∧ input_within input) →
  ∃ field actual maximum, maximum < actual ∧
    normalize source role input u assumptions = Some (Err (FieldTooLarge field actual maximum)).
Proof.
  intros Hn. unfold normalize. destruct (Z.ltb_spec MAX_ASSUMPTIONS (zlen assumptions)) as [Ha|Ha]; [eauto|].
  unfold input_within, preflight_original in *.
  destruct input as [|t|t v unit scale|t zone o fold|t]; cbn [input_text] in Hn.
  - exfalso. apply Hn. by split_and!.
  - destruct (Z.ltb_spec MAX_ORIGINAL_BYTES (zlen t)); [eauto|tauto].
  - destruct (Z.ltb_spec MAX_ORIGINAL_BYTES (zlen t)); [cbn; eauto|tauto].
  - destruct (Z.ltb_spec MAX_ORIGINAL_BYTES (zlen t)); [cbn; eauto|].
    destruct zone as [z|]; [|exfalso; apply Hn; by split_and!]. cbn [within] in Hn.
    destruct (Z.ltb_spec MAX_ZONE_BYTES (zlen z)) as [Hz|]; [|tauto]. unfold normalize_local. cbn [is_some_and].
    rewrite (proj2 (Z.ltb_lt _ _)) by done. cbn. eauto.
  - destruct (Z.ltb_spec MAX_ORIGINAL_BYTES (zlen t)); [cbn; eauto|tauto].
Qed.
End total.

(** C36: Normalization is total.  Whatever the source wrote - any text, number, zone,
    offset or fold choice - an input within the size limits yields an envelope
    that passes every consistency check and keeps the source, role, original
    text, uncertainty and assumptions; an oversized one is refused as such.  It
    never panics and never reports an inconsistent envelope. *)
Theorem normalize_total `{JiffLaws} source role input u assumptions :
  (zlen assumptions ≤ MAX_ASSUMPTIONS → input_within input →
    ∃ env, normalize source role input u assumptions = Some (Ok env) ∧
      env_source env = source ∧ env_role env = role ∧ env_original env = input_text input ∧
      env_uncertainty env = u ∧ env_assumptions env = assumptions) ∧
  (¬ (zlen assumptions ≤ MAX_ASSUMPTIONS ∧ input_within input) →
    ∃ field actual maximum, maximum < actual ∧
      normalize source role input u assumptions = Some (Err (FieldTooLarge field actual maximum))).
Proof.
  split; [|apply normalize_too_large]. intros Ha Hi.
  destruct (normalize_made source role input u assumptions Ha Hi) as (i & r & p & tz & ->). by eexists.
Qed.

(** Numeric times resolve exactly.  A value in a unit of the POSIX scale
    resolves to an instant precisely when that instant is in range and is the
    same number of nanoseconds from the epoch, negative values included; all
    other values are reported out of range. *)
Theorem normalize_numeric_exact `{JiffLaws} source role token value unit u assumptions :
  zlen assumptions ≤ MAX_ASSUMPTIONS → zlen token ≤ MAX_ORIGINAL_BYTES →
  ∃ env, normalize source role (Numeric token value (Some unit) PosixUtc) u assumptions = Some (Ok env) ∧
    (∀ i, env_resolution env = Resolved i 0 ↔
      instant_ok i ∧ inst_seconds i * 1000000000 + inst_nanoseconds i = value * unit_nanos unit) ∧
    ((∀ i, env_resolution env ≠ Resolved i 0) → env_resolution env = Invalid OutOfRange).
Proof.
  intros Ha Ht. unfold normalize, preflight_original. rewrite !(proj2 (Z.ltb_ge _ _)) by done.
  cbn [mbind result_bind].
  destruct (numeric_total source role token value (Some unit) PosixUtc u assumptions Ht Ha)
    as (i & r & p & tz & Heq). injection Heq as Heq. rewrite Heq. eexists. split; [done|]. cbn [env_resolution].
  assert (r = resolved_or_out_of_range (numeric_instant value unit) 0) as ->.
  { unfold normalize_numeric, make_envelope, TimestampEnvelope_checked in Heq.
    destruct (envelope_inconsistent _ _ _ _ _ _); [done|]. by apply bind_Ok in Heq as (? & _ & [= _ _ <- _ _]). }
  split.
  - intros j. rewrite <-numeric_exact. destruct (numeric_instant value unit) as [k|]; cbn; [|done].
    split; [by intros [= <-]|by intros [= <-]].
  - intros Hno. destruct (numeric_instant value unit) as [k|]; [|done]. by destruct (Hno k).
Qed.

(** ** Printed instants parse back

    The round trip of [format_utc] through the RFC 3339 parser, and a concrete
    civil date-time library that satisfies the laws the theorems of the
    normalizer assume. *)

(** ** Years of the supported range *)
Lemma year_start_le year month day : civil_ok year month day →
  days_from_civil year 1 1 ≤ days_from_civil year month day < days_from_civil (year + 1) 1 1.
Proof.
  intros Hc. pose proof (day_of_year _ _ _ Hc) as [Hd _]. destruct Hc as [Hm Hdays].
  rewrite !days_from_civil_eq by lia. change (month_days 1) with 306.
  unfold march_year in *. change (1 <=? 2) with true. cbv iota.
  pose proof (march_days_next (year - 1)) as H1. pose proof (march_days_next year) as H2.
  replace (year - 1 + 1) with year in * by lia. replace (year + 1 - 1) with year by lia.
  destruct (Z.leb_spec month 2) as [Hle|Hgt].
  - replace (year - 1 + 1) with year in Hd by lia.
    assert (306 ≤ month_days month) by (assert (month = 1 ∨ month = 2) as [-> | ->] by lia; done).
    destruct (is_leap year); lia.
  - replace (year - 0) with year in * by lia.
    assert (month_days month + days_in_month year month ≤ 306).
    { unfold month_days, days_in_month. zcases; cbn [orb]; divlia. }
    destruct (is_leap year); lia.
Qed.
Lemma year_start_mono a b : a ≤ b → days_from_civil a 1 1 ≤ days_from_civil b 1 1.
Proof.
  intros Hab. rewrite !days_from_civil_eq by lia. unfold march_year. change (1 <=? 2) with true. cbv iota.
  pose proof (march_days_mono (a - 1) (b - 1)). lia.
Qed.
Lemma instant_year i : instant_ok i →
  let '(year, _, _, _, _, _) := civil_from_epoch (inst_seconds i) in 1 ≤ year ≤ 9999.
Proof.
  intros [Hs _]. pose proof (civil_from_epoch_ok (inst_seconds i)) as H.
  destruct (civil_from_epoch _) as [[[[[y m] d] h] mi] se]. destruct H as (Hc & Ht & Heq).
  pose proof (year_start_le _ _ _ Hc) as Hy. unfold time_ok in Ht.
  assert (days_from_civil 1 1 1 = -719162) as E1 by done.
  assert (days_from_civil 10000 1 1 = 2932897) as E2 by done.
  unfold MIN_EPOCH_SECONDS, MAX_EPOCH_SECONDS in Hs. split.
  - destruct (Z.le_gt_cases 1 y); [done|]. pose proof (year_start_mono (y + 1) 1). lia.
  - destruct (Z.le_gt_cases y 9999); [done|]. pose proof (year_start_mono 10000 y). lia.
Qed.

(** ** Reading a printed instant *)
Lemma zlen_decimal width value : zlen (decimal width value) = Z.of_nat width.
Proof. unfold zlen. by rewrite length_decimal. Qed.
Lemma fmt_civil_decimal y m d h mi s : 0 ≤ y ≤ 9999 → 0 ≤ m ≤ 99 → 0 ≤ d ≤ 99 → 0 ≤ h ≤ 99 →
  0 ≤ mi ≤ 99 → 0 ≤ s ≤ 99 →
  fmt_civil y m d h mi s = decimal 4 y ++ [x2d] ++ decimal 2 m ++ [x2d] ++ decimal 2 d ++ [x54]
    ++ decimal 2 h ++ [x3a] ++ decimal 2 mi ++ [x3a] ++ decimal 2 s.
Proof. intros. unfold fmt_civil. rewrite !fmt_padded_decimal by (lia || (cbn; lia)). done. Qed.
Lemma digits_slice bytes start count l : start + count ≤ zlen bytes → count ≤ 9 →
  take (Z.to_nat count) (drop (Z.to_nat start) bytes) = l → all_digits l → zlen l ≤ 9 →
  digits bytes start count = Some (decimal_value l).
Proof.
  intros Hlen Hc Hl Hd H9. unfold digits. rewrite (proj2 (Z.ltb_ge _ _)), Hl by lia. by apply digits_fold.
Qed.
Lemma all_digits_ascii l : all_digits l → is_ascii l = true.
Proof.
  intros Hl. unfold is_ascii. apply forallb_Forall. apply (Forall_impl _ _ _ Hl). intros b Hb%is_digit_range. lia.
Qed.
Lemma decimal_ascii width value : is_ascii (decimal width value) = true.
Proof. apply all_digits_ascii, decimal_digits. Qed.
Lemma is_ascii_app l k : is_ascii (l ++ k) = is_ascii l && is_ascii k.
Proof. apply forallb_app. Qed.

(** The date and time of day, then anything. *)
Definition wall_text (y m d h mi s : Z) (rest : list byte) : list byte :=
  decimal 4 y ++ [x2d] ++ decimal 2 m ++ [x2d] ++ decimal 2 d ++ [x54]
    ++ decimal 2 h ++ [x3a] ++ decimal 2 mi ++ [x3a] ++ decimal 2 s ++ rest.
Lemma zlen_wall_text y m d h mi s rest : zlen (wall_text y m d h mi s rest) = 19 + zlen rest.
Proof. unfold wall_text. autorewrite with uste_len. rewrite !zlen_decimal. lia. Qed.
Lemma wall_text_ascii y m d h mi s rest : is_ascii (wall_text y m d h mi s rest) = is_ascii rest.
Proof.
  unfold wall_text. rewrite !is_ascii_app, !decimal_ascii.
  change (is_ascii [x2d]) with true. change (is_ascii [x54]) with true. by change (is_ascii [x3a]) with true.
Qed.
Lemma wall_field y m d h mi s rest start width value : start + Z.of_nat width ≤ 19 → (width ≤ 9)%nat →
  take width (drop (Z.to_nat start) (wall_text y m d h mi s rest)) = decimal width value →
  0 ≤ value < 10 ^ Z.of_nat width →
  digits (wall_text y m d h mi s rest) start (Z.of_nat width) = Some value.
Proof.
  intros Hs Hw Ht Hv. rewrite <-(decimal_value_decimal width value Hv) at 1.
  apply digits_slice; [rewrite zlen_wall_text; pose proof (zlen_nonneg rest); lia|lia|by rewrite Nat2Z.id|
    apply decimal_digits|rewrite zlen_decimal; lia].
Qed.
Lemma parse_fraction_printed y m d h mi s n : 0 ≤ n ≤ 999999999 →
  ∃ cursor precision, wall_ok precision ∧
    parse_fraction (wall_text y m d h mi s (fmt_fraction n ++ lit "Z")) = Ok (cursor, n, precision) ∧
    drop (Z.to_nat cursor) (wall_text y m d h mi s (fmt_fraction n ++ lit "Z")) = lit "Z" ∧
    is_ascii (fmt_fraction n ++ lit "Z") = true.
Proof.
  intros Hn. destruct (decide (n = 0)) as [->|Hn0].
  { exists 19, SecondPrecision. by split_and!. }
  destruct (fraction_text n) as (l & k & -> & Hd & Hl1 & Hl9 & Hk & Hval); [lia|].
  exists (20 + zlen l), (FractionDigits (zlen l)).
  assert (∀ rest, drop 20 (wall_text y m d h mi s (x2e :: rest)) = rest) as Hdrop by done.
  assert (drop (Z.to_nat (20 + zlen l)) (wall_text y m d h mi s ((x2e :: l) ++ lit "Z")) = lit "Z") as Hrest.
  { replace (Z.to_nat (20 + zlen l)) with (20 + length l)%nat by (unfold zlen; lia).
    rewrite <-drop_drop. change ((x2e :: l) ++ lit "Z") with (x2e :: (l ++ lit "Z")).
    by rewrite Hdrop, drop_app_length. }
  split_and!; [cbn; lia| |done|].
  - unfold parse_fraction. change (byte_at _ 19 x2e) with true. cbv iota zeta.
    change ((x2e :: l) ++ lit "Z") with (x2e :: (l ++ lit "Z")). rewrite Hdrop.
    change (lit "Z") with [x5a]. rewrite digit_run_app by done.
    rewrite (proj2 (Z.eqb_neq _ _)), (proj2 (Z.ltb_ge _ _)) by lia. cbn [orb].
    rewrite (digits_slice _ 20 (zlen l) l).
    + cbn [ok_or]. rewrite result_bind_Ok. replace (9 - zlen l) with k by lia. rewrite Hval.
      by rewrite u32_checked_Some by (unfold U32_MAX; lia).
    + rewrite zlen_wall_text, zlen_cons, zlen_app. change (zlen [x5a]) with 1. lia.
    + lia.
    + rewrite Hdrop. unfold zlen. by rewrite Nat2Z.id, take_app_length.
    + done.
    + lia.
  - change ((x2e :: l) ++ lit "Z") with ([x2e] ++ l ++ lit "Z").
    by rewrite !is_ascii_app, (all_digits_ascii l).
Qed.

Section roundtrip.
Context `{JiffLaws}.
Lemma i8_checked z : -128 ≤ z ≤ 127 → i8_try_from z = Some z.
Proof. intros Hz. unfold i8_try_from. by rewrite !(proj2 (Z.leb_le _ _)) by lia. Qed.
Lemma parse_printed y m d h mi s n : 1 ≤ y ≤ 9999 → civil_ok y m d → time_ok h mi s n →
  ∃ dt precision, wall_ok precision ∧ DateTime_new y m d h mi s n = Some dt ∧
    parse_datetime (wall_text y m d h mi s (fmt_fraction n ++ lit "Z")) true =
    Ok (mk_parsed dt (Some 0) precision).
Proof.
  intros Hy Hc Ht. destruct (proj2 (datetime_new_Some y m d h mi s n)) as [dt Hdt]; [split_and!; (lia || done)|].
  destruct Ht as (Hh & Hmi & Hs & Hn). destruct Hc as [Hm Hd]. pose proof (days_in_month_pos y m).
  destruct (parse_fraction_printed y m d h mi s n Hn) as (cursor & precision & Hw & Hf & Hrest & Hascii).
  exists dt, precision. split_and!; [done..|]. unfold parse_datetime. cbv zeta.
  set (rest := fmt_fraction n ++ lit "Z") in *. rewrite wall_text_ascii, Hascii, zlen_wall_text.
  rewrite (proj2 (Z.ltb_ge _ _)) by (pose proof (zlen_nonneg rest); lia).
  change (byte_at _ 4 x2d) with true. change (byte_at _ 7 x2d) with true.
  change (byte_at _ 10 x54) with true. change (byte_at _ 13 x3a) with true.
  change (byte_at _ 16 x3a) with true. cbn [negb orb].
  rewrite (wall_field _ _ _ _ _ _ _ 0 4 y) by (done || (cbn; lia)). cbn [ok_or]. rewrite result_bind_Ok.
  rewrite (wall_field _ _ _ _ _ _ _ 5 2 m) by (done || (cbn; lia)). cbn [ok_or]. rewrite result_bind_Ok.
  rewrite (wall_field _ _ _ _ _ _ _ 8 2 d) by (done || (cbn; lia)). cbn [ok_or]. rewrite result_bind_Ok.
  rewrite (wall_field _ _ _ _ _ _ _ 11 2 h) by (done || (cbn; lia)). cbn [ok_or]. rewrite result_bind_Ok.
  rewrite (wall_field _ _ _ _ _ _ _ 14 2 mi) by (done || (cbn; lia)). cbn [ok_or]. rewrite result_bind_Ok.
  rewrite (wall_field _ _ _ _ _ _ _ 17 2 s) by (done || (cbn; lia)). cbn [ok_or]. rewrite result_bind_Ok.
  rewrite (proj2 (Z.eqb_neq y 0)), (proj2 (Z.eqb_neq s 60)) by lia.
  rewrite Hf, result_bind_Ok, Hrest. change (parse_offset (lit "Z")) with (Ok (E:=ParseFailure) (Some 0, false)).
  rewrite result_bind_Ok. unfold i16_try_from, i32_try_from.
  rewrite !i8_checked, !(proj2 (Z.leb_le _ _)) by lia. cbn [andb ok_or]. rewrite !result_bind_Ok.
  by rewrite Hdt.
Qed.
Lemma instant_of_civil i dt y m d h mi s : instant_ok i → civil_from_epoch (inst_seconds i) = (y, m, d, h, mi, s) →
  DateTime_new y m d h mi s (inst_nanoseconds i) = Some dt → instant_from_datetime_offset dt 0 = Some i.
Proof.
  intros [Hs Hn] Heq (E1 & E2 & E3 & E4 & E5 & E6 & E7)%datetime_fields.
  pose proof (civil_from_epoch_ok (inst_seconds i)) as Hc. rewrite Heq in Hc.
  destruct Hc as (_ & (Hh & Hmi & Hse & _) & Hsum). unfold instant_from_datetime_offset.
  rewrite E1, E2, E3, E4, E5, E6, E7. clear E1 E2 E3 E4 E5 E6 E7.
  set (D := days_from_civil y m d) in *. clearbody D. unfold MIN_EPOCH_SECONDS, MAX_EPOCH_SECONDS in Hs.
  rewrite (i64_checked_Some (D * 86400)) by (unfold I64_MIN, I64_MAX; lia). cbn [mbind option_bind].
  rewrite (i64_checked_Some (D * 86400 + h * 3600)) by (unfold I64_MIN, I64_MAX; lia). cbn [mbind option_bind].
  rewrite (i64_checked_Some (_ + mi * 60)) by (unfold I64_MIN, I64_MAX; lia). cbn [mbind option_bind].
  rewrite Hsum, (i64_checked_Some (inst_seconds i)) by (unfold I64_MIN, I64_MAX; lia). cbn [mbind option_bind].
  rewrite Z.sub_0_r, (i64_checked_Some (inst_seconds i)) by (unfold I64_MIN, I64_MAX; lia). cbn [mbind option_bind].
  rewrite u32_checked_Some by (unfold U32_MAX; lia). cbn [mbind option_bind].
  apply instant_new_Some; [lia|]. split; [by destruct i|]. by split.
Qed.
End roundtrip.

(** Printed instants parse back.  [format_utc] prints every supported instant in
    the accepted RFC 3339 form, and normalizing that text resolves to the very
    same instant, to the nanosecond, at offset zero. *)
Theorem format_utc_roundtrip `{JiffLaws} source role i text u assumptions : instant_ok i →
  format_utc i = Ok text → zlen assumptions ≤ MAX_ASSUMPTIONS →
  ∃ env, normalize source role (Rfc3339 text) u assumptions = Some (Ok env) ∧
    env_resolution env = Resolved i 0.
Proof.
  intros Hi Hf Ha. pose proof (instant_year i Hi) as Hy. pose proof (civil_from_epoch_ok (inst_seconds i)) as Hc.
  unfold format_utc in Hf. destruct (civil_from_epoch _) as [[[[[y m] d] h] mi] s] eqn:Heq.
  destruct Hc as (Hc & (Hh & Hmi & Hs & _) & _). injection Hf as <-. pose proof (days_in_month_pos y m) as Hdm.
  destruct Hc as [Hm Hd]. rewrite fmt_civil_decimal by lia.
  destruct (parse_printed y m d h mi s (inst_nanoseconds i)) as (dt & precision & Hw & Hdt & Hp);
    [done|by split|by destruct Hi|].
  pose proof (instant_of_civil _ _ _ _ _ _ _ _ Hi Heq Hdt) as Hinst.
  unfold wall_text in Hp. rewrite <-!(assoc_L (++)).
  assert (zlen (fmt_fraction (inst_nanoseconds i)) ≤ 10) as Hlen.
  { destruct (decide (inst_nanoseconds i = 0)) as [->|]; [done|].
    destruct (fraction_text (inst_nanoseconds i)) as (l & k & -> & _ & _ & ? & ? & _); [destruct Hi; lia|].
    rewrite zlen_cons. lia. }
  unfold normalize, preflight_original. rewrite (proj2 (Z.ltb_ge _ _)) by done.
  rewrite (proj2 (Z.ltb_ge _ _)).
  2:{ autorewrite with uste_len. rewrite !zlen_decimal. change (zlen (lit "Z")) with 1.
      unfold MAX_ORIGINAL_BYTES. lia. }
  unfold normalize_rfc3339. rewrite Hp. cbn [pd_offset pd_datetime pd_precision mbind option_bind].
  unfold timestamp_from_offset, make_envelope. rewrite Hinst. cbn [resolved_or_out_of_range].
  rewrite checked_Ok; [by eexists| |].
  - autorewrite with uste_len. rewrite !zlen_decimal. change (zlen (lit "Z")) with 1. unfold MAX_ORIGINAL_BYTES. lia.
  - apply (wall_consistent _ (Some 0) None None); try done. cbn. split_and!; eauto; lia.
Qed.

(** ** A concrete library *)
Record sample_datetime : Set := mk_sample_datetime {
  sd_year : Z; sd_month : Z; sd_day : Z; sd_hour : Z; sd_minute : Z; sd_second : Z; sd_nanosecond : Z
}.
#[global] Instance civil_ok_dec y m d : Decision (civil_ok y m d).
Proof. unfold civil_ok. apply _. Defined.
#[global] Instance time_ok_dec h m s n : Decision (time_ok h m s n).
Proof. unfold time_ok. apply _. Defined.
Definition sample_datetime_new (y m d h mi s n : Z) : option sample_datetime :=
  if decide (-9999 ≤ y ≤ 9999 ∧ civil_ok y m d ∧ time_ok h mi s n)
  then Some (mk_sample_datetime y m d h mi s n) else None.
(** One zone, one hour ahead, with a gap and a fold each year. *)
Definition sample_offset (dt : sample_datetime) : AmbiguousOffset :=
  if bool_decide (sd_month dt = 3 ∧ sd_day dt = 31 ∧ sd_hour dt = 2) then Gap 3600 7200
  else if bool_decide (sd_month dt = 10 ∧ sd_day dt = 27 ∧ sd_hour dt = 2) then Fold 7200 3600
  else Unambiguous 3600.
#[local] Instance sample_jiff : Jiff := {
  DateTime := sample_datetime;
  DateTime_new := sample_datetime_new;
  dt_year := sd_year; dt_month := sd_month; dt_day := sd_day; dt_hour := sd_hour;
  dt_minute := sd_minute; dt_second := sd_second; dt_subsec_nanosecond := sd_nanosecond;
  TimeZone := unit;
  TimeZone_tzif _ _ := Some tt;
  ambiguous_offset _ := sample_offset;
  tzdb_get name := if decide (name = lit "Europe/Paris") then Some (name, []) else None;
  tzdb_available := [lit "Europe/Paris"];
  tzdb_VERSION := Some TZDB_VERSION
}.
#[local] Instance sample_jiff_laws : JiffLaws.
Proof.
  split; cbn.
  - intros. unfold sample_datetime_new. case_decide; (split; [try done; by intros [? ?]|done]).
  - intros y m d h mi s n dt. unfold sample_datetime_new. case_decide; [|done]. by intros [= <-].
  - intros _ dt. unfold sample_offset. repeat case_bool_decide; lia.
Qed.
Definition sample_source : SourceDescriptor :=
  mk_source (scoped_ref_new (from_bytes (repeat x01 16)) (from_bytes (repeat x02 16)) (from_bytes (repeat x03 16)))
    1 (lit "row 7").
Definition sample_instant : UtcInstant := mk_instant 1709210096 120000000.
Lemma format_utc_roundtrip_witness :
  format_utc sample_instant = Ok (lit "2024-02-29T12:34:56.12Z") ∧
  ∃ env, normalize sample_source SourceEvent (Rfc3339 (lit "2024-02-29T12:34:56.12Z"))
    UnknownUncertainty [] = Some (Ok env) ∧ env_resolution env = Resolved sample_instant 0.
Proof.
  assert (format_utc sample_instant = Ok (lit "2024-02-29T12:34:56.12Z")) as Hf by (vm_compute; reflexivity).
  split; [exact Hf|].
  refine (format_utc_roundtrip sample_source SourceEvent sample_instant _ UnknownUncertainty [] _ Hf _).
  - unfold instant_ok, MIN_EPOCH_SECONDS, MAX_EPOCH_SECONDS. cbn. lia.
  - discriminate.
Defined.
Lemma normalize_total_witness :
  ∃ env, normalize sample_source Received
    (Local (lit "2024-10-27T02:30:00") (Some (lit "Europe/Paris")) None (Some Later)) UnknownUncertainty []
    = Some (Ok env) ∧ env_source env = sample_source ∧ env_role env = Received ∧
    env_original env = lit "2024-10-27T02:30:00" ∧ env_uncertainty env = UnknownUncertainty ∧
    env_assumptions env = [].
Proof.
  apply (proj1 (normalize_total sample_source Received
    (Local (lit "2024-10-27T02:30:00") (Some (lit "Europe/Paris")) None (Some Later)) UnknownUncertainty [])).
  - by vm_compute.
  - by split; vm_compute.
Defined.
Lemma normalize_numeric_exact_witness :
  ∃ env, normalize sample_source Received (Numeric (lit "-1500") (-1500) (Some Milliseconds) PosixUtc)
    UnknownUncertainty [] = Some (Ok env) ∧ env_resolution env = Resolved (mk_instant (-2) 500000000) 0.
Proof.
  destruct (normalize_numeric_exact sample_source Received (lit "-1500") (-1500) Milliseconds
    UnknownUncertainty []) as (env & Henv & Hr & _); [by vm_compute..|].
  exists env. split; [exact Henv|]. apply Hr. by vm_compute.
Defined.
