(* ===== verification/FieldCodec.v ===== *)
(** * Records as canonical maps

    The helpers that [crates/uste-time/src/codec.rs] and
    [crates/uste-spatial/src/codec.rs] share in shape: building canonical maps
    and reading their fields by name, each with its crate's error type.

    [Fields] is a [BTreeMap] filled from the entries of a canonical map.  Those
    are strictly ordered by key, so the map is the same sequence of entries, and
    [remove] takes the entry out. *)
From S2P Require Import Prelude Ids Value Codec CodecFacts CodecFrame GraphCodec GraphCodecFacts.

(** The errors of a codec: a value of the wrong shape, a limit, a profile this
    build does not know. *)
Class FieldError (E : Set) := {
  shape_error : E;
  limit_error : E;
  profile_error : E
}.

Abbreviation FieldMap := (list (list byte * Value)).

Section codec.
Context {E : Set} `{FieldError E}.

(** ** Building *)
Definition field_limit {A} (r : result ValidationError A) : result E A := map_err (λ _, limit_error) r.
Definition value_map (entries : list (list byte * Value)) : result E Value :=
  entries ← try_map (λ e, field_limit ((λ key, (key, e.2)) <$> BoundedString_new e.1)) entries;
  field_limit (VMap <$> CanonicalMap_new entries).
Definition value_list (values : list Value) : result E Value :=
  field_limit (VList <$> BoundedList_new values).
Definition value_text (value : list byte) : result E Value :=
  field_limit (VString <$> BoundedString_new value).
Definition value_bytes (value : list byte) : result E Value :=
  field_limit (VBytes <$> BoundedBytes_new value).

(** ** Reading *)
Definition field_map (value : Value) : result E FieldMap :=
  match value with VMap map => Ok map | _ => Err shape_error end.
Definition remove_field (name : list byte) (fields : FieldMap) : result E (Value * FieldMap) :=
  match list_find (λ e, e.1 = name) fields with
  | Some (index, (_, value)) => Ok (value, delete index fields)
  | None => Err shape_error
  end.
Definition finish_fields (fields : FieldMap) : result E unit :=
  match fields with [] => Ok tt | _ => Err shape_error end.
(** [decode(fields.take(name)?)?]. *)
Definition read_field {A} (name : list byte) (decode : Value → result E A) (fields : FieldMap) :
    result E (A * FieldMap) :=
  '(value, fields) ← remove_field name fields; a ← decode value; Ok (a, fields).

Definition read_value (value : Value) : result E Value := Ok value.
Definition read_text (value : Value) : result E (list byte) :=
  match value with VString value => Ok value | _ => Err shape_error end.
Definition read_bytes (value : Value) : result E (list byte) :=
  match value with VBytes value => Ok value | _ => Err shape_error end.
Definition read_record (value : Value) : result E RecordRef :=
  match value with VRecordRef value => Ok value | _ => Err shape_error end.
Definition read_u128 (value : Value) : result E Z :=
  match value with VUnsigned value => Ok value | _ => Err shape_error end.
Definition read_u64 (value : Value) : result E Z :=
  value ← read_u128 value; if value <=? U64_MAX then Ok value else Err shape_error.
Definition read_i128 (value : Value) : result E Z :=
  match value with VSigned value => Ok value | _ => Err shape_error end.
Definition read_profile (expected : list byte) (value : Value) : result E unit :=
  actual ← read_text value; if decide (actual = expected) then Ok tt else Err profile_error.
(** [Null] for an absent value. *)
Definition read_optional {A} (decode : Value → result E A) (value : Value) : result E (option A) :=
  match value with VNull => Ok None | _ => Some <$> decode value end.
Definition write_optional {A} (encode : A → result E Value) (o : option A) : result E Value :=
  match o with Some a => encode a | None => Ok VNull end.
End codec.

(** ** Exactness of map-shaped codecs

    Lemmas and tactics that prove an encoder and decoder built from the helpers
    above exact.  [exact_parts] collects the exactness of the parts a
    codec is made of. *)

Section facts.
Context {E : Set} `{FieldError E}.

(** ** Building *)
Lemma try_map_field_keys (es : list (list byte * Value)) : forallb str_okb es.*1 = true →
  try_map (λ e, field_limit (E := E) ((λ key, (key, e.2)) <$> BoundedString_new e.1)) es = Ok es.
Proof.
  induction es as [|[k v] es IH]; [done|]. cbn [fmap list_fmap forallb fst snd try_map].
  intros [[Hk _]%andb_true_iff Hks]%andb_true_iff.
  rewrite (proj2 (BoundedString_new_Ok k k)) by done. unfold mbind at 1, result_bind at 1.
  cbn [field_limit map_err]. by rewrite IH.
Qed.
Lemma value_map_Ok (es : list (list byte * Value)) v : schema_ok es.*1 = true → Forall value_valid es.*2 →
  value_map (E := E) es = Ok v ↔ v = VMap es ∧ value_valid v.
Proof.
  intros [[Hs%bool_decide_eq_true Hk]%andb_true_iff _]%andb_true_iff Hv. unfold value_map.
  rewrite try_map_field_keys by done. cbn [mbind result_bind]. unfold field_limit.
  rewrite map_err_Ok. fold (Value_map es). rewrite Value_map_Ok.
  - by rewrite merge_sort_sorted.
  - apply forallb_Forall in Hk. rewrite Forall_fmap in Hk. rewrite Forall_fmap in Hv.
    rewrite Forall_forall in Hk, Hv |- *. intros e He. split; [by apply Hk|by apply Hv].
Qed.
Lemma value_map_perm es L : value_valid (VMap es) → es ≡ₚ L → schema_ok L.*1 = true →
  value_map (E := E) L = Ok (VMap es).
Proof.
  intros Hv Hp Hs. pose proof Hs as [[Hs'%bool_decide_eq_true _]%andb_true_iff _]%andb_true_iff.
  pose proof (value_valid_map _ Hv) as [Hsort Hent].
  assert (es = L) as -> by by apply sorted_entries_unique.
  apply value_map_Ok; [done| |done]. rewrite Forall_fmap. apply (Forall_impl _ _ _ Hent). by intros ? [].
Qed.
(** The order in which the entries are listed does not matter. *)
Lemma value_map_swap es L : es ≡ₚ L → schema_ok L.*1 = true → value_map (E := E) es = value_map L.
Proof.
  intros Hp [[Hs%bool_decide_eq_true Hk]%andb_true_iff _]%andb_true_iff. unfold value_map.
  rewrite (try_map_field_keys L), (try_map_field_keys es) by (done || (apply forallb_Forall; rewrite Hp; by apply forallb_Forall)).
  rewrite !result_bind_Ok. unfold CanonicalMap_new. rewrite (merge_sort_sorted L), (merge_sort_perm es L) by done.
  unfold zlen. by rewrite Hp.
Qed.
Lemma value_map_not_null es v : value_map (E := E) es = Ok v → v ≠ VNull.
Proof.
  unfold value_map. intros (es' & _ & Hm)%bind_Ok. unfold field_limit in Hm.
  by apply map_err_Ok, fmap_Ok in Hm as (? & _ & ->).
Qed.
Lemma value_text_Ok s v : value_text (E := E) s = Ok v ↔ v = VString s ∧ inline_okb s = true.
Proof.
  unfold value_text, field_limit. rewrite map_err_Ok, fmap_Ok. setoid_rewrite BoundedString_new_Ok. naive_solver.
Qed.
Lemma value_bytes_Ok s v : value_bytes (E := E) s = Ok v ↔ v = VBytes s ∧ inline_okb s = true.
Proof.
  unfold value_bytes, field_limit. rewrite map_err_Ok, fmap_Ok. setoid_rewrite BoundedString_new_Ok. naive_solver.
Qed.
Lemma value_list_Ok l v : Forall value_valid l → value_list (E := E) l = Ok v ↔ v = VList l ∧ value_valid v.
Proof. intros Hl. unfold value_list, field_limit. rewrite map_err_Ok. by apply Value_list_Ok. Qed.

(** ** Reading *)
Lemma remove_field_Ok name fs v fs' : remove_field (E := E) name fs = Ok (v, fs') → fs ≡ₚ (name, v) :: fs'.
Proof.
  unfold remove_field. destruct (list_find _ fs) as [[i [k w]]|] eqn:Hf; [|done].
  intros [= <- <-]. apply list_find_Some in Hf as (Hi & Hk & _). cbn in Hk. subst k.
  by apply delete_Permutation.
Qed.
Lemma read_bind {A B} name (dec : Value → result E A) fs (k : A * FieldMap → result E B) b :
  (read_field name dec fs ≫= k) = Ok b →
  ∃ v a fs', fs ≡ₚ (name, v) :: fs' ∧ dec v = Ok a ∧ k (a, fs') = Ok b.
Proof.
  intros ([a fs'] & Ht & Hk)%bind_Ok. unfold read_field in Ht.
  apply bind_Ok in Ht as ([v fs1] & Hf & Ht). apply bind_Ok in Ht as (a' & Hd & [= -> ->]).
  apply remove_field_Ok in Hf. eauto 6.
Qed.
Lemma field_map_bind {B} v (k : FieldMap → result E B) b :
  (field_map v ≫= k) = Ok b → ∃ es, v = VMap es ∧ k es = Ok b.
Proof. destruct v; try done. eauto. Qed.
Lemma finish_fields_bind {B} (fs : FieldMap) (r : result E B) b :
  (finish_fields fs;; r) = Ok b → fs = [] ∧ r = Ok b.
Proof. by destruct fs. Qed.
Lemma read_field_eval {A} name (dec : Value → result E A) fs v fs' :
  remove_field (E := E) name fs = Ok (v, fs') → read_field name dec fs = (a ← dec v; Ok (a, fs')).
Proof. unfold read_field. by intros ->. Qed.

(** ** Exact leaves *)
Lemma value_exact : vexact (E := E) Ok read_value value_valid.
Proof. split; [by intros a v ? [= <-]|]. intros a v ? [= <-]. done. Qed.
Lemma text_exact : vexact (E := E) value_text read_text (λ s, str_okb s = true).
Proof.
  split.
  - intros s v Hs [-> _]%value_text_Ok. split; [by apply valid_string|done].
  - intros s v Hv Hd. destruct v; try done. injection Hd as <-. apply valid_string in Hv. split; [done|].
    apply value_text_Ok. split; [done|]. by apply andb_true_iff in Hv as [? _].
Qed.
Lemma bytes_exact : vexact (E := E) value_bytes read_bytes (λ s, inline_okb s = true).
Proof.
  split.
  - intros s v Hs [-> _]%value_bytes_Ok. split; [by apply valid_bytes|done].
  - intros s v Hv Hd. destruct v; try done. injection Hd as <-. apply valid_bytes in Hv. split; [done|].
    by apply value_bytes_Ok.
Qed.
Lemma record_exact : vexact (E := E) (λ r, Ok (VRecordRef r)) read_record ref_ok.
Proof.
  split.
  - intros r v Hr [= <-]. split; [by apply valid_ref|done].
  - intros r v Hv Hd. destruct v; try done. injection Hd as <-. by apply valid_ref in Hv.
Qed.
Lemma u128_exact : vexact (E := E) (λ n, Ok (VUnsigned n)) read_u128 (λ n, 0 ≤ n ≤ U128_MAX).
Proof.
  split.
  - intros n v Hn [= <-]. split; [by apply valid_unsigned|done].
  - intros n v Hv Hd. destruct v; try done. injection Hd as <-. by apply valid_unsigned in Hv.
Qed.
Lemma u64_exact : vexact (E := E) (λ n, Ok (VUnsigned n)) read_u64 (λ n, 0 ≤ n ≤ U64_MAX).
Proof.
  split.
  - intros n v Hn [= <-]. split; [apply valid_unsigned; unfold U128_MAX, U64_MAX in *; lia|].
    unfold read_u64. cbn. by rewrite (proj2 (Z.leb_le _ _)) by lia.
  - intros n v Hv Hd. unfold read_u64 in Hd. destruct v; try done. cbn in Hd.
    destruct (Z.leb_spec n0 U64_MAX); [|done]. injection Hd as <-. apply valid_unsigned in Hv. split; [lia|done].
Qed.
Lemma valid_signed n : value_valid (VSigned n) ↔ - 2 ^ 127 ≤ n ≤ I128_MAX.
Proof. unfold value_valid, MAX_NESTING_DEPTH, MAX_VALUE_NODES. simpl. lia. Qed.
Lemma i128_exact : vexact (E := E) (λ n, Ok (VSigned n)) read_i128 (λ n, - 2 ^ 127 ≤ n ≤ I128_MAX).
Proof.
  split.
  - intros n v Hn [= <-]. split; [by apply valid_signed|done].
  - intros n v Hv Hd. destruct v; try done. injection Hd as <-. by apply valid_signed in Hv.
Qed.
Lemma read_u64_put n : 0 ≤ n ≤ U64_MAX → read_u64 (E := E) (VUnsigned n) = Ok n.
Proof. intros Hn. by apply (proj1 u64_exact n). Qed.
(** A constant field. *)
Lemma profile_exact s : str_okb s = true →
  vexact (E := E) (λ _ : unit, value_text s) (read_profile s) (λ _, True).
Proof.
  intros Hs. split.
  - intros [] v _ [-> _]%value_text_Ok. split; [by apply valid_string|].
    unfold read_profile. cbn. by rewrite decide_True.
  - intros [] v Hv Hd. unfold read_profile in Hd. destruct v; try done. cbn in Hd. case_decide; [|done]. subst.
    split; [done|]. apply value_text_Ok. split; [done|]. by apply andb_true_iff in Hs as [? _].
Qed.
(** A name of an enumeration. *)
Lemma name_exact {A} (name : A → list byte) (dec : list byte → result E A) :
  (∀ a, str_okb (name a) = true) → (∀ a, dec (name a) = Ok a) → (∀ s a, dec s = Ok a → s = name a) →
  vexact (E := E) (λ a, value_text (name a)) (λ v, s ← read_text v; dec s) (λ _, True).
Proof.
  intros Hok Hd1 Hd2. split.
  - intros a v _ [-> _]%value_text_Ok. split; [by apply valid_string|]. cbn. apply Hd1.
  - intros a v Hv Hd. apply bind_Ok in Hd as (s & Hs & Hd). destruct v; try done. injection Hs as ->.
    apply Hd2 in Hd as ->. split; [done|]. apply value_text_Ok. split; [done|].
    specialize (Hok a). by apply andb_true_iff in Hok as [? _].
Qed.
Lemma field_optional_exact {A} (enc : A → result E Value) dec ok : vexact enc dec ok →
  (∀ a v, enc a = Ok v → v ≠ VNull) → vexact (write_optional enc) (read_optional dec) (opt_ok ok).
Proof.
  intros [Hf Hb] Hn. split.
  - intros [a|] v Hok He; cbn in *.
    + pose proof (Hn _ _ He). apply Hf in He as [Hv Hd]; [|done]. split; [done|].
      unfold read_optional. destruct v; try done; by rewrite Hd.
    + injection He as <-. split; [apply valid_null|done].
  - intros o v Hv Hd. unfold read_optional in Hd.
    destruct v; [by injection Hd as <-|..]; apply fmap_Ok in Hd as (a & Ha & ->); by apply Hb in Ha.
Qed.
(** A codec followed by a check that keeps the value. *)
Lemma checked_exact {A} (enc : A → result E Value) dec ok (check : A → result E A) (good : A → Prop) :
  vexact enc dec ok → (∀ a b, check a = Ok b ↔ b = a ∧ good a) →
  vexact enc (λ v, a ← dec v; check a) (λ a, ok a ∧ good a).
Proof.
  intros [Hf Hb] Hc. split.
  - intros a v [Hok Hg] He. destruct (Hf _ _ Hok He) as [Hv Hd]. split; [done|].
    rewrite Hd. cbn. by apply Hc.
  - intros a v Hv (b & Hd & [-> Hg]%Hc)%bind_Ok. destruct (Hb _ _ Hv Hd). done.
Qed.
Lemma map_exact_all {A} (enc : A → result E Value) dec ok l vs : vexact enc dec ok → Forall ok l →
  try_map enc l = Ok vs → Forall value_valid vs ∧ try_map dec vs = Ok l.
Proof.
  intros [Hf _] Hl. revert vs. induction Hl as [|a l Ha Hl IH]; intros vs Hm; [by injection Hm as <-|].
  cbn in Hm. apply bind_Ok in Hm as (v & Hv & Hm). apply bind_Ok in Hm as (vs' & Hvs & [= <-]).
  destruct (Hf _ _ Ha Hv) as [Hval Hd]. destruct (IH _ Hvs) as [Hvals Hds].
  split; [by constructor|]. cbn. by rewrite Hd, result_bind_Ok, Hds.
Qed.
Lemma map_exact_all_inv {A} (enc : A → result E Value) dec ok l vs : vexact enc dec ok → Forall value_valid vs →
  try_map dec vs = Ok l → Forall ok l ∧ try_map enc l = Ok vs.
Proof.
  intros [_ Hb] Hvs. revert l. induction Hvs as [|v vs Hv Hvs IH]; intros l Hm; [by injection Hm as <-|].
  cbn in Hm. apply bind_Ok in Hm as (a & Ha & Hm). apply bind_Ok in Hm as (l' & Hl & [= <-]).
  destruct (Hb _ _ Hv Ha) as [Hok He]. destruct (IH _ Hl) as [Hoks Hes].
  split; [by constructor|]. cbn. by rewrite He, result_bind_Ok, Hes.
Qed.
End facts.

(** ** Proof automation *)

(** Backward: the reads of a decoder, the parts they decode, and the map they
    were read from. *)
Ltac open_read H :=
  repeat first
    [ apply field_map_bind in H; let es := fresh "es" in destruct H as (es & ? & H); subst
    | apply read_bind in H;
      let v := fresh "v" in let a := fresh "a" in let fs := fresh "fs" in
      let Hp := fresh "Hp" in let Hd := fresh "Hd" in
      destruct H as (v & a & fs & Hp & Hd & H); cbv beta iota in H
    | apply finish_fields_bind in H; destruct H as [? H]; subst ].
(** Use one part's exactness on every decoded field it explains. *)
Ltac use_bwd P Hd a :=
  let Hx := fresh "Hx" in let Hok := fresh "Hok" in let He := fresh "He" in
  pose proof (λ Hv, proj2 P a _ Hv Hd) as Hx; destruct Hx as [Hok He]; [assumption|clear Hd; cbv beta in Hok, He].
Ltac part_bwd P :=
  let T := type of P in
  lazymatch T with
  | vexact _ (λ _, _) _ => repeat match goal with Hd : _ = Ok ?a |- _ => use_bwd P Hd a end
  | vexact _ ?dec _ => repeat match goal with Hd : dec _ = Ok ?a |- _ => use_bwd P Hd a end
  end.
Ltac close_value_map :=
  match goal with
  | Hv : value_valid (VMap ?es), Hp : ?es ≡ₚ _ |- value_map _ = Ok (VMap ?es) =>
      apply (value_map_perm _ _ Hv); [rewrite Hp; solve_perm|vm_compute; reflexivity]
  end.
(** Forward: the parts an encoder writes. *)
Ltac open_write H :=
  repeat match type of H with
  | mbind _ _ = Ok _ =>
      let v := fresh "v" in let Hx := fresh "Hx" in
      apply bind_Ok in H; destruct H as (v & Hx & H); cbv beta in Hx
  end.
Ltac use_fwd P He v :=
  let Hx := fresh "Hx" in let Hval := fresh "Hval" in let Hd := fresh "Hd" in
  pose proof (λ Hok, proj1 P _ v Hok He) as Hx;
  destruct Hx as [Hval Hd]; [first [assumption|exact I]|clear He; cbv beta in Hd].
Ltac part_fwd P :=
  let T := type of P in
  lazymatch T with
  | vexact (λ _, _) _ _ => repeat match goal with He : _ = Ok ?v |- _ => use_fwd P He v end
  | vexact ?enc _ _ => repeat match goal with He : enc _ = Ok ?v |- _ => use_fwd P He v end
  end.
Ltac open_value_map H :=
  apply value_map_Ok in H;
    [ let Hv := fresh "Hv" in destruct H as [-> Hv]
    | vm_compute; reflexivity
    | cbn [fmap list_fmap snd]; repeat (apply Forall_cons; split); [..|by apply Forall_nil];
      try leaf_valid ].
Ltac run_read :=
  cbn [field_map]; step_bind;
  repeat (match goal with
  | |- context [read_field ?n ?dec ?fs] =>
      let r := eval vm_compute in (list_find (λ e, e.1 = n) fs) in
      lazymatch r with
      | Some (?i, (_, ?v)) =>
          let fs' := eval cbv [delete list_delete] in (delete i fs) in
          rewrite (read_field_eval n dec fs v fs') by (vm_compute; reflexivity)
      end
  | H : ?dec ?v = Ok _ |- context [?dec ?v] => rewrite H
  | |- context [read_u64 (VUnsigned ?n)] => rewrite (read_u64_put n) by lia
  | |- context [@read_text ?E ?F (VString ?s)] => change (@read_text E F (VString s)) with (Ok (E := E) s)
  | |- context [@read_record ?E ?F (VRecordRef ?s)] => change (@read_record E F (VRecordRef s)) with (Ok (E := E) s)
  | |- context [@read_value ?E ?s] => change (@read_value E s) with (Ok (E := E) s)
  | |- context [@read_i128 ?E ?F (VSigned ?n)] => change (@read_i128 E F (VSigned n)) with (Ok (E := E) n)
  end; step_bind); cbn [finish_fields]; step_bind.
(** Re-encode the parts and reassemble the map. *)
Ltac close_write :=
  repeat match goal with
  | He : Ok _ = Ok _ |- _ => injection He as He; subst
  end;
  repeat (match goal with
  | He : ?e = Ok _ |- context [?e] => rewrite He
  | |- context [@value_text ?E ?F ?s] =>
      rewrite (proj2 (@value_text_Ok E F s (VString s))) by (split; [done|vm_compute; reflexivity])
  end; step_bind); close_value_map.
