(* ===== verification/TimeCodec.v ===== *)
(** * The timestamp envelope codec

    Models [crates/uste-time/src/codec.rs]. *)
From S2P Require Import Prelude Ids Value Codec GraphCodec TimeModel FieldCodec.
Import TimeError.

#[global] Instance time_field_error : FieldError TimeError := {
  shape_error := InvalidEnvelope;
  limit_error := ResourceLimit;
  profile_error := UnsupportedProfile
}.

(** ** Names *)
Definition role_name (value : TimestampRole) : list byte :=
  match value with
  | SourceEvent => lit "source_event"
  | SourceCreated => lit "source_created"
  | SourceModified => lit "source_modified"
  | SourcePublished => lit "source_published"
  | Received => lit "received"
  | CommitObservation => lit "commit_observation"
  | DerivationAvailable => lit "derivation_available"
  | SimulationAnchor => lit "simulation_anchor"
  end.
Definition decode_role (value : list byte) : result TimeError TimestampRole :=
  if decide (value = lit "source_event") then Ok SourceEvent
  else if decide (value = lit "source_created") then Ok SourceCreated
  else if decide (value = lit "source_modified") then Ok SourceModified
  else if decide (value = lit "source_published") then Ok SourcePublished
  else if decide (value = lit "received") then Ok Received
  else if decide (value = lit "commit_observation") then Ok CommitObservation
  else if decide (value = lit "derivation_available") then Ok DerivationAvailable
  else if decide (value = lit "simulation_anchor") then Ok SimulationAnchor
  else Err InvalidEnvelope.
Definition epoch_unit_name (value : EpochUnit) : list byte :=
  match value with
  | Seconds => lit "seconds"
  | Milliseconds => lit "milliseconds"
  | Microseconds => lit "microseconds"
  | Nanoseconds => lit "nanoseconds"
  end.
Definition decode_epoch_unit (value : list byte) : result TimeError EpochUnit :=
  if decide (value = lit "seconds") then Ok Seconds
  else if decide (value = lit "milliseconds") then Ok Milliseconds
  else if decide (value = lit "microseconds") then Ok Microseconds
  else if decide (value = lit "nanoseconds") then Ok Nanoseconds
  else Err InvalidEnvelope.
Definition scale_name (value : TimeScale) : list byte :=
  match value with
  | PosixUtc => lit "posix_utc"
  | UtcLeapAware => lit "utc_leap_aware"
  | Tai => lit "tai"
  | Gps => lit "gps"
  | Smeared => lit "smeared"
  | UnknownScale => lit "unknown"
  end.
Definition decode_scale (value : list byte) : result TimeError TimeScale :=
  if decide (value = lit "posix_utc") then Ok PosixUtc
  else if decide (value = lit "utc_leap_aware") then Ok UtcLeapAware
  else if decide (value = lit "tai") then Ok Tai
  else if decide (value = lit "gps") then Ok Gps
  else if decide (value = lit "smeared") then Ok Smeared
  else if decide (value = lit "unknown") then Ok UnknownScale
  else Err InvalidEnvelope.
Definition fold_name (value : FoldChoice) : list byte :=
  match value with Earlier => lit "earlier" | Later => lit "later" end.
Definition decode_fold (value : list byte) : result TimeError FoldChoice :=
  if decide (value = lit "earlier") then Ok Earlier
  else if decide (value = lit "later") then Ok Later
  else Err InvalidEnvelope.
Definition status_name (value : ResolutionStatus) : list byte :=
  match value with
  | StatusResolved => lit "resolved"
  | StatusMissing => lit "missing"
  | StatusAmbiguous => lit "ambiguous"
  | StatusInvalid => lit "invalid"
  | StatusUnsupported => lit "unsupported"
  end.
Definition decode_status (value : list byte) : result TimeError ResolutionStatus :=
  if decide (value = lit "resolved") then Ok StatusResolved
  else if decide (value = lit "missing") then Ok StatusMissing
  else if decide (value = lit "ambiguous") then Ok StatusAmbiguous
  else if decide (value = lit "invalid") then Ok StatusInvalid
  else if decide (value = lit "unsupported") then Ok StatusUnsupported
  else Err InvalidEnvelope.
Definition reason_name (value : ResolutionReason) : list byte :=
  match value with
  | ReasonAccepted => lit "accepted"
  | MissingValue => lit "missing_value"
  | MissingZone => lit "missing_zone"
  | DateOnlyWithoutPolicy => lit "date_only_without_policy"
  | UnitRequired => lit "unit_required"
  | InvalidSyntax => lit "invalid_syntax"
  | OutOfRange => lit "out_of_range"
  | UnknownOffset => lit "unknown_offset"
  | LeapSecond => lit "leap_second"
  | UnsupportedTimeScale => lit "unsupported_time_scale"
  | UnknownZone => lit "unknown_zone"
  | FoldChoiceRequired => lit "fold_choice_required"
  | UnnecessaryFoldChoice => lit "unnecessary_fold_choice"
  | NonexistentLocalTime => lit "nonexistent_local_time"
  | OffsetZoneConflict => lit "offset_zone_conflict"
  end.
Definition decode_reason (value : list byte) : result TimeError ResolutionReason :=
  if decide (value = lit "accepted") then Ok ReasonAccepted
  else if decide (value = lit "missing_value") then Ok MissingValue
  else if decide (value = lit "missing_zone") then Ok MissingZone
  else if decide (value = lit "date_only_without_policy") then Ok DateOnlyWithoutPolicy
  else if decide (value = lit "unit_required") then Ok UnitRequired
  else if decide (value = lit "invalid_syntax") then Ok InvalidSyntax
  else if decide (value = lit "out_of_range") then Ok OutOfRange
  else if decide (value = lit "unknown_offset") then Ok UnknownOffset
  else if decide (value = lit "leap_second") then Ok LeapSecond
  else if decide (value = lit "unsupported_time_scale") then Ok UnsupportedTimeScale
  else if decide (value = lit "unknown_zone") then Ok UnknownZone
  else if decide (value = lit "fold_choice_required") then Ok FoldChoiceRequired
  else if decide (value = lit "unnecessary_fold_choice") then Ok UnnecessaryFoldChoice
  else if decide (value = lit "nonexistent_local_time") then Ok NonexistentLocalTime
  else if decide (value = lit "offset_zone_conflict") then Ok OffsetZoneConflict
  else Err InvalidEnvelope.

(** ** Parts *)
Definition signed (value : Z) : result TimeError Value := Ok (VSigned value).
Definition read_i32 (value : Value) : result TimeError Z :=
  value ← read_i128 value;
  if (- 2 ^ 31 <=? value) && (value <=? 2 ^ 31 - 1) then Ok value else Err InvalidEnvelope.
Definition take_optional_i32 : Value → result TimeError (option Z) := read_optional read_i32.
Definition read_instant (value : Value) : result TimeError UtcInstant :=
  match value with VInstant value => Ok value | _ => Err InvalidEnvelope end.
Definition take_optional_instant : Value → result TimeError (option UtcInstant) :=
  read_optional read_instant.
(** [take_optional_text(..)?.map(decode).transpose()?]. *)
Definition take_optional_name {A} (decode : list byte → result TimeError A) :
    Value → result TimeError (option A) := read_optional (λ value, text ← read_text value; decode text).

Definition encode_source (source : SourceDescriptor) : result TimeError Value :=
  locator ← value_text (src_locator source);
  value_map [(lit "artifact", VRecordRef (src_artifact source));
             (lit "artifact_version", VUnsigned (src_artifact_version source));
             (lit "locator", locator)].
Definition decode_source (value : Value) : result TimeError SourceDescriptor :=
  fields ← field_map value;
  '(artifact, fields) ← read_field (lit "artifact") read_record fields;
  '(version, fields) ← read_field (lit "artifact_version") read_u64 fields;
  '(locator, fields) ← read_field (lit "locator") read_text fields;
  finish_fields fields;;
  SourceDescriptor_new artifact version locator.

Definition encode_interpretation (i : TimeInterpretation) : result TimeError Value :=
  epoch_unit ← write_optional (λ unit, value_text (epoch_unit_name unit)) (ti_epoch_unit i);
  fold ← write_optional (λ fold, value_text (fold_name fold)) (ti_fold i);
  scale ← value_text (scale_name (ti_scale i));
  supplied_offset_seconds ← write_optional signed (ti_supplied_offset_seconds i);
  zone ← write_optional value_text (ti_zone i);
  value_map [(lit "epoch_unit", epoch_unit); (lit "fold", fold); (lit "scale", scale);
             (lit "supplied_offset_seconds", supplied_offset_seconds); (lit "zone", zone)].
Definition decode_interpretation (value : Value) : result TimeError TimeInterpretation :=
  fields ← field_map value;
  '(epoch_unit, fields) ← read_field (lit "epoch_unit") (take_optional_name decode_epoch_unit) fields;
  '(fold, fields) ← read_field (lit "fold") (take_optional_name decode_fold) fields;
  '(scale, fields) ← read_field (lit "scale") (λ value, text ← read_text value; decode_scale text) fields;
  '(supplied_offset_seconds, fields) ←
    read_field (lit "supplied_offset_seconds") take_optional_i32 fields;
  '(zone, fields) ←
    read_field (lit "zone") (take_optional_name (λ value, bounded value MAX_ZONE_BYTES (lit "zone"))) fields;
  finish_fields fields;;
  Ok (mk_interpretation scale epoch_unit supplied_offset_seconds zone fold).

Definition encode_resolution (resolution : Resolution) : result TimeError Value :=
  effective ← write_optional signed (res_effective_offset_seconds resolution);
  instant ← write_optional (λ instant, Ok (VInstant instant)) (res_instant resolution);
  reason ← value_text (reason_name (res_reason resolution));
  status ← value_text (status_name (res_status resolution));
  value_map [(lit "effective_offset_seconds", effective); (lit "instant", instant);
             (lit "reason", reason); (lit "status", status)].
Definition decode_resolution (value : Value) : result TimeError Resolution :=
  fields ← field_map value;
  '(offset, fields) ← read_field (lit "effective_offset_seconds") take_optional_i32 fields;
  '(instant, fields) ← read_field (lit "instant") take_optional_instant fields;
  '(reason, fields) ← read_field (lit "reason") (λ value, text ← read_text value; decode_reason text) fields;
  '(status, fields) ← read_field (lit "status") (λ value, text ← read_text value; decode_status text) fields;
  finish_fields fields;;
  match status, reason, instant, offset with
  | StatusResolved, ReasonAccepted, Some instant, Some effective_offset_seconds =>
      Ok (Resolved instant effective_offset_seconds)
  | StatusMissing, reason, None, None => Ok (Missing reason)
  | StatusAmbiguous, reason, None, None => Ok (Ambiguous reason)
  | StatusInvalid, reason, None, None => Ok (Invalid reason)
  | StatusUnsupported, reason, None, None => Ok (Unsupported reason)
  | _, _, _, _ => Err InvalidEnvelope
  end.

Definition encode_precision (precision : SourcePrecision) : result TimeError Value :=
  '(kind, detail) ←
    match precision with
    | UnknownPrecision => Ok (lit "unknown", VNull)
    | DatePrecision => Ok (lit "date", VNull)
    | SecondPrecision => Ok (lit "second", VNull)
    | FractionDigits digits => Ok (lit "fraction_digits", VUnsigned digits)
    | EpochUnitPrecision unit =>
        detail ← value_text (epoch_unit_name unit); Ok (lit "epoch_unit", detail)
    end;
  kind ← value_text kind;
  value_map [(lit "detail", detail); (lit "kind", kind)].
Definition decode_precision (value : Value) : result TimeError SourcePrecision :=
  fields ← field_map value;
  '(detail, fields) ← read_field (lit "detail") read_value fields;
  '(kind, fields) ← read_field (lit "kind") read_text fields;
  finish_fields fields;;
  match detail with
  | VNull =>
      if decide (kind = lit "unknown") then Ok UnknownPrecision
      else if decide (kind = lit "date") then Ok DatePrecision
      else if decide (kind = lit "second") then Ok SecondPrecision
      else Err InvalidEnvelope
  | VUnsigned digits =>
      if decide (kind = lit "fraction_digits") then
        if digits <=? 255 then Ok (FractionDigits digits) else Err InvalidEnvelope
      else Err InvalidEnvelope
  | VString unit =>
      if decide (kind = lit "epoch_unit") then EpochUnitPrecision <$> decode_epoch_unit unit
      else Err InvalidEnvelope
  | _ => Err InvalidEnvelope
  end.

Definition encode_uncertainty (uncertainty : ClockUncertainty) : result TimeError Value :=
  let '(kind, before, after) :=
    match uncertainty with
    | UnknownUncertainty => (lit "unknown", VNull, VNull)
    | BoundedNanoseconds before after =>
        (lit "bounded_nanoseconds", VUnsigned before, VUnsigned after)
    end in
  kind ← value_text kind;
  value_map [(lit "after", after); (lit "before", before); (lit "kind", kind)].
Definition decode_uncertainty (value : Value) : result TimeError ClockUncertainty :=
  fields ← field_map value;
  '(after, fields) ← read_field (lit "after") read_value fields;
  '(before, fields) ← read_field (lit "before") read_value fields;
  '(kind, fields) ← read_field (lit "kind") read_text fields;
  finish_fields fields;;
  match before, after with
  | VNull, VNull => if decide (kind = lit "unknown") then Ok UnknownUncertainty else Err InvalidEnvelope
  | VUnsigned before, VUnsigned after =>
      if decide (kind = lit "bounded_nanoseconds") then
        if (before <=? U64_MAX) && (after <=? U64_MAX) then Ok (BoundedNanoseconds before after)
        else Err InvalidEnvelope
      else Err InvalidEnvelope
  | _, _ => Err InvalidEnvelope
  end.

Definition encode_assumption (assumption : AuthorizedAssumption) : result TimeError Value :=
  statement ← value_text (as_statement assumption);
  value_map [(lit "authority", VRecordRef (as_authority assumption)); (lit "statement", statement)].
Definition encode_assumptions (assumptions : list AuthorizedAssumption) : result TimeError Value :=
  values ← try_map encode_assumption assumptions; value_list values.
Definition decode_assumption (value : Value) : result TimeError AuthorizedAssumption :=
  fields ← field_map value;
  '(authority, fields) ← read_field (lit "authority") read_record fields;
  '(statement, fields) ← read_field (lit "statement") read_text fields;
  finish_fields fields;;
  AuthorizedAssumption_new statement authority.
Definition decode_assumptions (value : Value) : result TimeError (list AuthorizedAssumption) :=
  match value with
  | VList values =>
      if MAX_ASSUMPTIONS <? zlen values then Err InvalidEnvelope
      else try_map decode_assumption values
  | _ => Err InvalidEnvelope
  end.

Definition encode_timezone (profile : option TimezoneProfile) : result TimeError Value :=
  match profile with
  | None => Ok VNull
  | Some profile =>
      if decide (profile = TimezoneProfile_PINNED) then
        digest ← value_bytes (tz_digest profile);
        version ← value_text (tz_version profile);
        value_map [(lit "digest", digest); (lit "version", version)]
      else Err UnsupportedProfile
  end.
Definition decode_timezone (value : Value) : result TimeError (option TimezoneProfile) :=
  if decide (value = VNull) then Ok None
  else
    fields ← field_map value;
    '(digest, fields) ← read_field (lit "digest") read_bytes fields;
    '(version, fields) ← read_field (lit "version") read_text fields;
    finish_fields fields;;
    if bool_decide (version ≠ TZDB_VERSION) || bool_decide (digest ≠ TZDB_PROFILE_DIGEST)
    then Err UnsupportedProfile
    else Ok (Some TimezoneProfile_PINNED).

(** ** Envelopes *)
Definition envelope_to_value (envelope : TimestampEnvelope) : result TimeError Value :=
  assumptions ← encode_assumptions (env_assumptions envelope);
  calendar_profile ← value_text CALENDAR_PROFILE;
  envelope_profile ← value_text ENVELOPE_PROFILE;
  interpretation ← encode_interpretation (env_interpretation envelope);
  normalization_profile ← value_text NORMALIZATION_PROFILE;
  original ← value_text (env_original envelope);
  parser_profile ← value_text PARSER_PROFILE;
  precision ← encode_precision (env_precision envelope);
  resolution ← encode_resolution (env_resolution envelope);
  role ← value_text (role_name (env_role envelope));
  source ← encode_source (env_source envelope);
  timezone_profile ← encode_timezone (env_timezone_profile envelope);
  uncertainty ← encode_uncertainty (env_uncertainty envelope);
  value_map [(lit "assumptions", assumptions); (lit "calendar_profile", calendar_profile);
             (lit "envelope_profile", envelope_profile); (lit "interpretation", interpretation);
             (lit "normalization_profile", normalization_profile); (lit "original", original);
             (lit "parser_profile", parser_profile); (lit "precision", precision);
             (lit "resolution", resolution); (lit "role", role); (lit "source", source);
             (lit "timezone_profile", timezone_profile); (lit "uncertainty", uncertainty)].
Definition envelope_from_value (value : Value) : result TimeError TimestampEnvelope :=
  root ← field_map value;
  '(_, root) ← read_field (lit "calendar_profile") (read_profile CALENDAR_PROFILE) root;
  '(_, root) ← read_field (lit "envelope_profile") (read_profile ENVELOPE_PROFILE) root;
  '(_, root) ← read_field (lit "normalization_profile") (read_profile NORMALIZATION_PROFILE) root;
  '(_, root) ← read_field (lit "parser_profile") (read_profile PARSER_PROFILE) root;
  '(assumptions, root) ← read_field (lit "assumptions") decode_assumptions root;
  '(interpretation, root) ← read_field (lit "interpretation") decode_interpretation root;
  '(original, root) ← read_field (lit "original") read_text root;
  '(precision, root) ← read_field (lit "precision") decode_precision root;
  '(resolution, root) ← read_field (lit "resolution") decode_resolution root;
  '(role, root) ← read_field (lit "role") (λ value, text ← read_text value; decode_role text) root;
  '(source, root) ← read_field (lit "source") decode_source root;
  '(timezone_profile, root) ← read_field (lit "timezone_profile") decode_timezone root;
  '(uncertainty, root) ← read_field (lit "uncertainty") decode_uncertainty root;
  finish_fields root;;
  TimestampEnvelope_checked source role original interpretation resolution precision uncertainty
    assumptions timezone_profile.
Definition encode_envelope (envelope : TimestampEnvelope) : result TimeError (list byte) :=
  value ← envelope_to_value envelope;
  map_err (λ error, match error with
                    | EncodeError.ResourceLimit => ResourceLimit
                    | _ => InvalidEnvelope
                    end) (encode_value value).
Definition decode_envelope (input : list byte) : result TimeError TimestampEnvelope :=
  value ← map_err (λ _, InvalidEncoding) (decode_value input); envelope_from_value value.
