(* ===== verification/TimeEnvelope.v ===== *)
(** * The envelope codec is exact

    A lemma per encoder and decoder, then the codec as a whole. *)
From S2P Require Import Prelude Ids Value Codec CodecFacts CodecFrame GraphCodec GraphCodecFacts TimeModel TimeNormalize TimeFacts FieldCodec TimeCodec.
Import TimeError.

#[local] Arguments value_map : simpl never.
#[local] Arguments value_list : simpl never.
#[local] Arguments value_text : simpl never.
#[local] Arguments value_bytes : simpl never.
#[local] Arguments lit : simpl never.
#[local] Arguments read_field : simpl never.

(** ** Names *)
Ltac name_exactness :=
  apply name_exact;
  [ intros []; vm_compute; reflexivity
  | intros []; vm_compute; reflexivity
  | intros s a Hs; repeat (destruct (decide _) in Hs; [by injection Hs as <-|]); done ].
Lemma role_exact : vexact (λ r, value_text (role_name r)) (λ v, s ← read_text v; decode_role s) (λ _, True).
Proof. unfold decode_role. name_exactness. Qed.
Lemma unit_exact : vexact (λ r, value_text (epoch_unit_name r)) (λ v, s ← read_text v; decode_epoch_unit s) (λ _, True).
Proof. unfold decode_epoch_unit. name_exactness. Qed.
Lemma scale_exact : vexact (λ r, value_text (scale_name r)) (λ v, s ← read_text v; decode_scale s) (λ _, True).
Proof. unfold decode_scale. name_exactness. Qed.
Lemma fold_exact : vexact (λ r, value_text (fold_name r)) (λ v, s ← read_text v; decode_fold s) (λ _, True).
Proof. unfold decode_fold. name_exactness. Qed.
Lemma status_exact : vexact (λ r, value_text (status_name r)) (λ v, s ← read_text v; decode_status s) (λ _, True).
Proof. unfold decode_status. name_exactness. Qed.
Lemma reason_exact : vexact (λ r, value_text (reason_name r)) (λ v, s ← read_text v; decode_reason s) (λ _, True).
Proof. unfold decode_reason. name_exactness. Qed.
Lemma value_text_not_null (s : list byte) v : value_text (E := TimeError) s = Ok v → v ≠ VNull.
Proof. by intros [-> _]%value_text_Ok. Qed.

(** ** Leaves *)
Definition i32_ok (z : Z) : Prop := - 2 ^ 31 ≤ z ≤ 2 ^ 31 - 1.
Lemma i32_exact : vexact signed read_i32 i32_ok.
Proof.
  split.
  - intros z v Hz [= <-]. unfold i32_ok in Hz. split; [apply valid_signed; unfold I128_MAX; lia|].
    unfold read_i32. cbn. by rewrite !(proj2 (Z.leb_le _ _)) by lia.
  - intros z v Hv Hd. unfold read_i32 in Hd. destruct v; try done. cbn in Hd.
    destruct (_ && _) eqn:Hb; [|done]. injection Hd as <-. split; [unfold i32_ok; lia|done].
Qed.
Lemma optional_i32_exact : vexact (write_optional signed) take_optional_i32 (opt_ok i32_ok).
Proof. apply field_optional_exact; [apply i32_exact|]. by intros a v [= <-]. Qed.
Lemma instant_exact : vexact (λ i, Ok (VInstant i)) read_instant instant_ok.
Proof.
  split.
  - intros i v Hi [= <-]. split; [by apply valid_instant|done].
  - intros i v Hv Hd. destruct v; try done. injection Hd as <-. by apply valid_instant in Hv.
Qed.
Lemma optional_instant_exact :
  vexact (write_optional (λ i, Ok (VInstant i))) take_optional_instant (opt_ok instant_ok).
Proof. apply field_optional_exact; [apply instant_exact|]. by intros a v [= <-]. Qed.
Lemma optional_unit_exact :
  vexact (write_optional (λ u, value_text (epoch_unit_name u))) (take_optional_name decode_epoch_unit) (opt_ok (λ _, True)).
Proof. apply field_optional_exact; [apply unit_exact|]. intros a v. apply value_text_not_null. Qed.
Lemma optional_fold_exact :
  vexact (write_optional (λ u, value_text (fold_name u))) (take_optional_name decode_fold) (opt_ok (λ _, True)).
Proof. apply field_optional_exact; [apply fold_exact|]. intros a v. apply value_text_not_null. Qed.
Lemma bounded_inv s limit field s' : limit ≤ MAX_INLINE_BYTES →
  bounded s limit field = Ok s' ↔ s' = s ∧ zlen s ≤ limit.
Proof.
  intros Hl. split.
  - unfold bounded. destruct (Z.ltb_spec limit (zlen s)); [done|].
    intros Hb%map_err_Ok. apply BoundedString_new_Ok in Hb as [-> _]. done.
  - intros [-> Hs]. by apply bounded_Ok.
Qed.
(** A text of limited length. *)
Definition short (limit : Z) (s : list byte) : Prop := str_okb s = true ∧ zlen s ≤ limit.
Lemma optional_zone_exact :
  vexact (write_optional value_text) (take_optional_name (λ s, bounded s MAX_ZONE_BYTES (lit "zone")))
    (opt_ok (short MAX_ZONE_BYTES)).
Proof.
  apply field_optional_exact; [|intros a v; apply value_text_not_null].
  apply checked_exact; [apply text_exact|]. intros a b. by apply bounded_inv.
Qed.

(** ** Parts *)
Definition source_ok (s : SourceDescriptor) : Prop :=
  ref_ok (src_artifact s) ∧ nonzero_u64 (src_artifact_version s) ∧ short MAX_LOCATOR_BYTES (src_locator s).
Lemma encode_source_exact : vexact encode_source decode_source source_ok.
Proof.
  split.
  - intros [a n l] v (Ha & Hn & Hl & Hlen) He. unfold encode_source in He. cbn [src_artifact src_artifact_version src_locator] in *.
    open_write He. part_fwd text_exact. unfold nonzero_u64 in Hn. open_value_map He. split; [done|].
    unfold decode_source. run_read. unfold SourceDescriptor_new. rewrite (proj2 (Z.eqb_neq _ _)) by lia.
    by rewrite (proj2 (bounded_inv l MAX_LOCATOR_BYTES (lit "locator") l ltac:(done))).
  - intros s v Hv Hd. unfold decode_source in Hd. open_read Hd. chain_perm. children_valid.
    unfold SourceDescriptor_new in Hd. destruct (Z.eqb_spec a0 0); [done|].
    apply bind_Ok in Hd as (l & Hl & [= <-]). apply bounded_inv in Hl as [-> Hl]; [|done].
    part_bwd (record_exact (E := TimeError)). part_bwd (u64_exact (E := TimeError)). part_bwd (text_exact (E := TimeError)).
    split; [split_and!; cbn; [done|unfold nonzero_u64; lia|by split]|].
    unfold encode_source. cbn [src_artifact src_artifact_version src_locator]. close_write.
Qed.
Definition interpretation_ok (i : TimeInterpretation) : Prop :=
  opt_ok i32_ok (ti_supplied_offset_seconds i) ∧ opt_ok (short MAX_ZONE_BYTES) (ti_zone i).
Lemma opt_any {A} (o : option A) : opt_ok (λ _, True) o.
Proof. by destruct o. Qed.
Lemma encode_interpretation_exact : vexact encode_interpretation decode_interpretation interpretation_ok.
Proof.
  split.
  - intros [sc eu off zone fold] v [Ho Hz] He. unfold encode_interpretation in He.
    cbn [ti_scale ti_epoch_unit ti_supplied_offset_seconds ti_zone ti_fold] in *.
    pose proof (opt_any eu). pose proof (opt_any fold). open_write He.
    part_fwd optional_unit_exact. part_fwd optional_fold_exact. part_fwd scale_exact.
    part_fwd optional_i32_exact. part_fwd optional_zone_exact. open_value_map He. split; [done|].
    unfold decode_interpretation. run_read. done.
  - intros i v Hv Hd. unfold decode_interpretation in Hd. open_read Hd. injection Hd as <-. chain_perm. children_valid.
    part_bwd optional_unit_exact. part_bwd optional_fold_exact. part_bwd scale_exact.
    part_bwd optional_i32_exact. part_bwd optional_zone_exact. split; [by split|].
    unfold encode_interpretation. cbn [ti_scale ti_epoch_unit ti_supplied_offset_seconds ti_zone ti_fold]. close_write.
Qed.
Definition resolution_ok (r : Resolution) : Prop :=
  opt_ok i32_ok (res_effective_offset_seconds r) ∧ opt_ok instant_ok (res_instant r).
Lemma encode_resolution_exact : vexact encode_resolution decode_resolution resolution_ok.
Proof.
  split.
  - intros r v [Ho Hi] He. unfold encode_resolution in He. open_write He.
    part_fwd optional_i32_exact. part_fwd optional_instant_exact. part_fwd reason_exact. part_fwd status_exact.
    open_value_map He. split; [done|]. unfold decode_resolution. run_read. by destruct r.
  - intros r v Hv Hd. unfold decode_resolution in Hd. open_read Hd. chain_perm. children_valid.
    part_bwd optional_i32_exact. part_bwd optional_instant_exact. part_bwd reason_exact. part_bwd status_exact.
    assert (a = res_effective_offset_seconds r ∧ a0 = res_instant r ∧ a1 = res_reason r ∧ a2 = res_status r)
      as (-> & -> & -> & ->) by (destruct a2, a1, a0, a; try done; by injection Hd as <-).
    split; [by split|]. unfold encode_resolution. close_write.
Qed.
Definition precision_ok (p : SourcePrecision) : Prop :=
  match p with FractionDigits digits => 0 ≤ digits ≤ 255 | _ => True end.
Lemma decode_epoch_unit_name s u : decode_epoch_unit s = Ok u ↔ s = epoch_unit_name u.
Proof.
  split; [|intros ->; by destruct u].
  unfold decode_epoch_unit. intros Hs. repeat (destruct (decide _) in Hs; [by injection Hs as <-|]); done.
Qed.
Lemma encode_precision_exact : vexact encode_precision decode_precision precision_ok.
Proof.
  split.
  - intros p v Hp He. unfold encode_precision in He. apply bind_Ok in He as ([kind detail] & Hk & He).
    open_write He. apply value_text_Ok in Hx as [-> _].
    destruct p as [| | |digits|u]; cbn in Hp; try injection Hk as <- <-.
    5: apply bind_Ok in Hk as (d & Hu & [= <- <-]); apply value_text_Ok in Hu as [-> _]; destruct u.
    all: open_value_map He; try (apply valid_unsigned; unfold U128_MAX; lia).
    all: split; [done|]; unfold decode_precision; run_read; try done.
    rewrite decide_True by done. by rewrite (proj2 (Z.leb_le _ _)) by lia.
  - intros p v Hv Hd. unfold decode_precision in Hd. open_read Hd. chain_perm. children_valid.
    apply text_exact in Hd1 as [_ Hk]; [|done]. injection Hd0 as ->. unfold encode_precision.
    destruct a as [| |z| | |s| | | |]; try done.
    + repeat (destruct (decide _) as [->|] in Hd; [injection Hd as <-; split; [done|]; step_bind; close_write|]). done.
    + destruct (decide _) as [->|] in Hd; [|done]. destruct (Z.leb_spec z 255); [|done].
      injection Hd as <-. apply valid_unsigned in Hval. split; [cbn; lia|]. step_bind. close_write.
    + destruct (decide _) as [->|] in Hd; [|done]. apply fmap_Ok in Hd as (u & Hu%decode_epoch_unit_name & ->).
      subst. split; [done|]. rewrite (proj2 (value_text_Ok _ (VString (epoch_unit_name u)))) by (by destruct u).
      step_bind. close_write.
Qed.
Definition uncertainty_ok (u : ClockUncertainty) : Prop :=
  match u with
  | UnknownUncertainty => True
  | BoundedNanoseconds before after => 0 ≤ before ≤ U64_MAX ∧ 0 ≤ after ≤ U64_MAX
  end.
Lemma encode_uncertainty_exact : vexact encode_uncertainty decode_uncertainty uncertainty_ok.
Proof.
  split.
  - intros u v Hu He. unfold encode_uncertainty in He.
    destruct u as [|before after]; cbn in Hu; open_write He; apply value_text_Ok in Hx as [-> _];
      open_value_map He; try (apply valid_unsigned; unfold U128_MAX, U64_MAX in *; lia);
      (split; [done|]); unfold decode_uncertainty; run_read; [done|].
    rewrite decide_True by done. by rewrite !(proj2 (Z.leb_le _ _)) by lia.
  - intros u v Hv Hd. unfold decode_uncertainty in Hd. open_read Hd. chain_perm. children_valid.
    apply text_exact in Hd2 as [_ Hk]; [|done]. injection Hd0 as ->. injection Hd1 as ->.
    unfold encode_uncertainty. destruct a0, a; try done.
    + destruct (decide _) as [->|] in Hd; [|done]. injection Hd as <-. split; [done|]. close_write.
    + destruct (decide _) as [->|] in Hd; [|done]. destruct (_ && _) eqn:Hb in Hd; [|done].
      injection Hd as <-. apply valid_unsigned in Hval, Hval0. split; [cbn; lia|]. close_write.
Qed.
Definition assumption_ok (a : AuthorizedAssumption) : Prop :=
  ref_ok (as_authority a) ∧ short MAX_ASSUMPTION_BYTES (as_statement a).
Lemma encode_assumption_exact : vexact encode_assumption decode_assumption assumption_ok.
Proof.
  split.
  - intros [s r] v (Hr & Hs & Hlen) He. unfold encode_assumption in He. cbn [as_statement as_authority] in *.
    open_write He. part_fwd text_exact. open_value_map He. split; [done|].
    unfold decode_assumption. run_read. unfold AuthorizedAssumption_new.
    by rewrite (proj2 (bounded_inv s MAX_ASSUMPTION_BYTES (lit "assumption") s ltac:(done))).
  - intros s v Hv Hd. unfold decode_assumption in Hd. open_read Hd. chain_perm. children_valid.
    unfold AuthorizedAssumption_new in Hd.
    apply bind_Ok in Hd as (l & Hl & [= <-]). apply bounded_inv in Hl as [-> Hl]; [|done].
    part_bwd (record_exact (E := TimeError)). part_bwd (text_exact (E := TimeError)).
    split; [split; [done|by split]|]. unfold encode_assumption. cbn [as_statement as_authority]. close_write.
Qed.
Definition assumptions_ok (l : list AuthorizedAssumption) : Prop :=
  Forall assumption_ok l ∧ zlen l ≤ MAX_ASSUMPTIONS.
Lemma try_map_zlen {E A B : Type} (f : A → result E B) l l' : try_map f l = Ok l' → zlen l' = zlen l.
Proof.
  revert l'. induction l as [|a l IH]; intros l' Hm; [by injection Hm as <-|]. cbn in Hm.
  apply bind_Ok in Hm as (b & _ & Hm). apply bind_Ok in Hm as (k & Hk%IH & [= <-]). unfold zlen in *. cbn. lia.
Qed.
Lemma encode_assumptions_exact : vexact encode_assumptions decode_assumptions assumptions_ok.
Proof.
  split.
  - intros l v [Hl Hlen] (vs & Hm & Hv)%bind_Ok. pose proof (try_map_zlen _ _ _ Hm) as Hz.
    apply (map_exact_all _ _ _ _ _ encode_assumption_exact Hl) in Hm as [Hvs Hd].
    apply value_list_Ok in Hv as [-> Hv]; [|done]. split; [done|].
    unfold decode_assumptions. by rewrite (proj2 (Z.ltb_ge _ _)) by lia.
  - intros l v Hv Hd. unfold decode_assumptions in Hd. destruct v as [| | | | | |vs| | |]; try done.
    destruct (Z.ltb_spec MAX_ASSUMPTIONS (zlen vs)); [done|]. pose proof (try_map_zlen _ _ _ Hd) as Hz.
    pose proof (value_valid_list _ Hv) as Hvs.
    apply (map_exact_all_inv _ _ _ _ _ encode_assumption_exact Hvs) in Hd as [Hl He].
    split; [split; [done|lia]|]. unfold encode_assumptions. rewrite He. step_bind. by apply value_list_Ok.
Qed.
Definition timezone_ok (p : option TimezoneProfile) : Prop := opt_ok (λ p, p = TimezoneProfile_PINNED) p.
Lemma encode_timezone_exact : vexact encode_timezone decode_timezone timezone_ok.
Proof.
  split.
  - intros [p|] v Hp He; cbn in Hp, He; [|injection He as <-; split; [apply valid_null|done]]. subst p.
    rewrite decide_True in He by done. open_write He.
    apply value_bytes_Ok in Hx as [-> _]. apply value_text_Ok in Hx0 as [-> _].
    open_value_map He. split; [done|]. unfold decode_timezone. rewrite decide_False by done. run_read. by vm_compute.
  - intros p v Hv Hd. unfold decode_timezone in Hd. case_decide as Hn; [subst; injection Hd as <-; done|].
    open_read Hd. chain_perm. children_valid. destruct (_ || _) eqn:Hb in Hd; [done|].
    injection Hd as <-. apply orb_false_iff in Hb as [Hb1%bool_decide_eq_false Hb2%bool_decide_eq_false].
    apply dec_stable in Hb1, Hb2. subst. part_bwd (bytes_exact (E := TimeError)). part_bwd (text_exact (E := TimeError)).
    split; [done|]. unfold encode_timezone. rewrite decide_True by done.
    change (tz_digest _) with TZDB_PROFILE_DIGEST. change (tz_version _) with TZDB_VERSION. close_write.
Qed.

(** ** Envelopes *)


(** The envelopes the crate can hold: every part within its bounds, and the whole
    consistent. *)
Definition envelope_ok (e : TimestampEnvelope) : Prop :=
  source_ok (env_source e) ∧ short MAX_ORIGINAL_BYTES (env_original e)
  ∧ interpretation_ok (env_interpretation e) ∧ resolution_ok (env_resolution e)
  ∧ precision_ok (env_precision e) ∧ uncertainty_ok (env_uncertainty e)
  ∧ assumptions_ok (env_assumptions e) ∧ timezone_ok (env_timezone_profile e)
  ∧ envelope_inconsistent (env_original e) (env_interpretation e) (env_resolution e) (env_precision e)
      (env_assumptions e) (env_timezone_profile e) = false.
Lemma envelope_checked_iff s r o i res p u a tz e :
  TimestampEnvelope_checked s r o i res p u a tz = Ok e ↔
  e = mk_envelope s r o i res p u a tz ∧ envelope_inconsistent o i res p a tz = false ∧ zlen o ≤ MAX_ORIGINAL_BYTES.
Proof.
  unfold TimestampEnvelope_checked. destruct (envelope_inconsistent _ _ _ _ _ _).
  { split; [done|]. by intros (_ & ? & _). }
  rewrite bind_Ok. setoid_rewrite bounded_inv; [|done]. naive_solver.
Qed.
Lemma role_bwd v s r : value_valid v → read_text v = Ok s → decode_role s = Ok r →
  value_text (role_name r) = Ok v.
Proof.
  intros Hv Hs Hr. apply (proj2 role_exact r v Hv). by rewrite Hs.
Qed.
Lemma profile_fwd s v : str_okb s = true → value_text s = Ok v →
  value_valid v ∧ read_profile (E := TimeError) s v = Ok tt.
Proof. intros Hs. by apply (proj1 (profile_exact (E := TimeError) s Hs) tt). Qed.
Lemma profile_bwd s v u : str_okb s = true → value_valid v → read_profile (E := TimeError) s v = Ok u →
  value_text (E := TimeError) s = Ok v.
Proof. intros Hs Hv Hr. by apply (proj2 (profile_exact (E := TimeError) s Hs) u v Hv). Qed.
Ltac profiles_fwd :=
  repeat match goal with
  | He : value_text ?s = Ok ?v |- _ =>
      lazymatch s with env_original _ => fail | _ => idtac end;
      apply profile_fwd in He; [destruct He as [? ?]|reflexivity]
  end.
Ltac profiles_bwd :=
  repeat match goal with
  | He : read_profile _ _ = Ok _ |- _ => apply profile_bwd in He; [|reflexivity|assumption]
  end.
Lemma envelope_exact : vexact envelope_to_value envelope_from_value envelope_ok.
Proof.
  split.
  - intros e v (Hs & [Ho Hlen] & Hi & Hr & Hp & Hu & Ha & Ht & Hc) He. unfold envelope_to_value in He. open_write He.
    part_fwd encode_assumptions_exact. part_fwd encode_interpretation_exact. part_fwd encode_precision_exact.
    part_fwd encode_resolution_exact. part_fwd encode_source_exact. part_fwd encode_timezone_exact.
    part_fwd encode_uncertainty_exact. part_fwd role_exact.
    profiles_fwd. part_fwd (text_exact (E := TimeError)). open_value_map He. split; [done|].
    unfold envelope_from_value. run_read. apply envelope_checked_iff. by destruct e.
  - intros e v Hv Hd. unfold envelope_from_value in Hd. open_read Hd. chain_perm. children_valid.
    apply envelope_checked_iff in Hd as (-> & Hc & Hlen). profiles_bwd.
    part_bwd encode_assumptions_exact. part_bwd encode_interpretation_exact. part_bwd encode_precision_exact.
    part_bwd encode_resolution_exact. part_bwd encode_source_exact. part_bwd encode_timezone_exact.
    part_bwd encode_uncertainty_exact. part_bwd role_exact. part_bwd (text_exact (E := TimeError)).
    split; [by split_and!|]. unfold envelope_to_value.
    cbn [env_source env_role env_original env_interpretation env_resolution env_precision env_uncertainty env_assumptions env_timezone_profile].
    close_write.
Qed.

(** The envelope codec is exact: bytes decode to an envelope exactly when the
    envelope is consistent with every part within its bounds and the bytes are its
    canonical encoding.  No envelope has two encodings, and no inconsistent or
    oversized envelope is ever decoded. *)
Theorem decode_envelope_iff_encode b e : zlen b ≤ I64_MAX →
  decode_envelope b = Ok e ↔ envelope_ok e ∧ encode_envelope e = Ok b.
Proof.
  intros Hlen. destruct envelope_exact as [Hf Hb]. unfold decode_envelope, encode_envelope.
  rewrite !bind_Ok. setoid_rewrite map_err_Ok. split.
  - intros (v & (Hv & Hl & ->)%decode_value_frame & Hd); [|done].
    apply Hb in Hd as [Hok He]; [|done]. split; [done|]. exists v. split; [done|].
    by apply encode_value_frame.
  - intros (Hok & v & He & Hfr). destruct (Hf _ _ Hok He) as [Hv Hd]. exists v. split; [|done].
    apply encode_value_frame in Hfr as [Hl ->]; [|done]. by apply decode_value_frame.
Qed.
(** One and a half seconds before the epoch, as a millisecond count. *)
Definition sample_envelope : TimestampEnvelope :=
  mk_envelope
    (mk_source (scoped_ref_new (from_bytes (repeat x01 16)) (from_bytes (repeat x02 16)) (from_bytes (repeat x03 16)))
       1 (lit "page 3"))
    Received (lit "-1500")
    (mk_interpretation PosixUtc (Some Milliseconds) None None None)
    (Resolved (mk_instant (-2) 500000000) 0) (EpochUnitPrecision Milliseconds) UnknownUncertainty [] None.
Lemma decode_envelope_iff_encode_witness :
  ∃ b, encode_envelope sample_envelope = Ok b ∧ zlen b ≤ I64_MAX ∧ decode_envelope b = Ok sample_envelope.
Proof.
  eexists. split; [vm_compute; reflexivity|]. split; [by vm_compute|].
  apply decode_envelope_iff_encode; [by vm_compute|]. split; [|vm_compute; reflexivity].
  unfold envelope_ok, source_ok, short, interpretation_ok, resolution_ok, instant_ok, nonzero_u64.
  cbn [env_source env_original env_interpretation env_resolution env_precision env_uncertainty env_assumptions
       env_timezone_profile sample_envelope opt_ok].
  split_and!; first [done | by split; [constructor|] | by vm_compute].
Defined.
