(* ===== verification/Storage.v ===== *)
(** * Byte layouts and errors of storage

    ** Fixed byte layouts

    Storage objects are byte arrays with fields at fixed offsets: the encoder
    fills a zeroed buffer field by field, the decoder reads the same ranges.  The
    models write such a buffer as the concatenation of its fields, and read with
    [slice] and [read_array]. *)
From S2P Require Import Prelude.

(** [bytes[off..off + n]]. *)
Definition slice (off n : nat) (bytes : list byte) : list byte := take n (drop off bytes).
(** [read_array::<N>(bytes, offset)]: [bytes.get(offset..offset + N)]. *)
Definition read_array (n : nat) (bytes : list byte) (off : nat) : option (list byte) :=
  if (off + n <=? length bytes)%nat then Some (slice off n bytes) else None.
(** A zeroed range. *)
Definition zeros (n : nat) : list byte := replicate n x00.
Definition all_zero (bytes : list byte) : bool := forallb (λ b, bool_decide (b = x00)) bytes.
(** The byte at an index that is in range. *)
Definition byte_is (bytes : list byte) (i : nat) (b : byte) : bool := bool_decide (bytes !! i = Some b).

(** ** Slices *)
Lemma length_slice off n bytes : (off + n ≤ length bytes)%nat → length (slice off n bytes) = n.
Proof. intros H. unfold slice. rewrite length_take, length_drop. lia. Qed.
Lemma slice_all bytes : slice 0 (length bytes) bytes = bytes.
Proof. unfold slice. by rewrite drop_0, firstn_all. Qed.
Lemma slice_split off n m bytes : slice off (n + m) bytes = slice off n bytes ++ slice (off + n) m bytes.
Proof.
  unfold slice. rewrite Nat.add_comm, <-drop_drop.
  rewrite <-(take_drop n (take (m + n) (drop off bytes))) at 1.
  rewrite take_take, Nat.min_l by lia. f_equal. rewrite skipn_firstn_comm. f_equal. lia.
Qed.
Lemma slice_app_here a n l : length a = n → slice 0 n (a ++ l) = a.
Proof. intros <-. unfold slice. by rewrite drop_0, take_app_length. Qed.
Lemma slice_app_end a n : length a = n → slice 0 n a = a.
Proof. intros <-. apply slice_all. Qed.
Lemma slice_app_skip a k off n l : length a = k → (k ≤ off)%nat → slice off n (a ++ l) = slice (off - k) n l.
Proof. intros <- H. unfold slice. by rewrite drop_app_ge. Qed.
Lemma read_array_Some n bytes off a : read_array n bytes off = Some a ↔
  a = slice off n bytes ∧ (off + n ≤ length bytes)%nat.
Proof. unfold read_array. destruct (Nat.leb_spec (off + n) (length bytes)); naive_solver lia. Qed.
Lemma read_array_in n bytes off : (off + n ≤ length bytes)%nat → read_array n bytes off = Some (slice off n bytes).
Proof. intros H. by apply read_array_Some. Qed.
Lemma length_zeros n : length (zeros n) = n.
Proof. apply length_replicate. Qed.
Lemma all_zero_iff bytes : all_zero bytes = true ↔ bytes = zeros (length bytes).
Proof.
  unfold all_zero, zeros. induction bytes as [|b l IH]; [done|]. cbn.
  rewrite andb_true_iff, bool_decide_eq_true, IH. split; [intros [-> H]; by f_equal|by intros [= -> H]].
Qed.
Lemma all_zero_zeros n : all_zero (zeros n) = true.
Proof. apply all_zero_iff. by rewrite length_zeros. Qed.
Lemma byte_is_slice bytes i b : byte_is bytes i b = true ↔ slice i 1 bytes = [b].
Proof.
  unfold byte_is, slice. rewrite bool_decide_eq_true. split.
  - intros H. by rewrite (drop_S _ _ _ H).
  - intros H. rewrite <-(Nat.add_0_r i), <-lookup_drop. by destruct (drop i bytes); [|injection H as ->].
Qed.
Lemma of_be_slice n bytes off : (off + n ≤ length bytes)%nat →
  be_bytes n (of_be_bytes (slice off n bytes)) = slice off n bytes.
Proof.
  intros H. pose proof (length_slice off n bytes H) as Hl.
  rewrite <-Hl at 1. apply be_bytes_of_be.
Qed.
Lemma of_be_slice_range n bytes off : (off + n ≤ length bytes)%nat →
  0 ≤ of_be_bytes (slice off n bytes) < 256 ^ Z.of_nat n.
Proof.
  intros H. pose proof (of_be_bytes_range (slice off n bytes)) as Hr. unfold zlen in Hr.
  by rewrite length_slice in Hr.
Qed.
(** Two's complement, for [i64::to_be_bytes] and [i64::from_be_bytes]. *)
Definition be_i64 (z : Z) : list byte := be_bytes 8 (z mod 2 ^ 64).
Definition of_be_i64 (bytes : list byte) : Z :=
  let n := of_be_bytes bytes in if n <? 2 ^ 63 then n else n - 2 ^ 64.
Lemma of_be_i64_be z : I64_MIN ≤ z ≤ I64_MAX → of_be_i64 (be_i64 z) = z.
Proof.
  unfold I64_MIN, I64_MAX, of_be_i64, be_i64. intros Hz.
  pose proof (Z.mod_pos_bound z (2 ^ 64)) as Hm. rewrite of_be_bytes_be by (change (256 ^ Z.of_nat 8) with (2 ^ 64); lia).
  destruct (Z.ltb_spec (z mod 2 ^ 64) (2 ^ 63)); destruct (Z.leb_spec 0 z).
  - by rewrite Z.mod_small by lia.
  - rewrite <-(Z_mod_plus_full z 1), Z.mod_small in * by lia. lia.
  - rewrite Z.mod_small in * by lia. lia.
  - rewrite <-(Z_mod_plus_full z 1), Z.mod_small in * by lia. lia.
Qed.
Lemma be_i64_of_be bytes : length bytes = 8%nat → be_i64 (of_be_i64 bytes) = bytes.
Proof.
  intros Hl. unfold be_i64, of_be_i64. pose proof (of_be_bytes_range bytes) as Hr. unfold zlen in Hr.
  rewrite Hl in Hr. change (256 ^ Z.of_nat 8) with (2 ^ 64) in Hr.
  assert ((if of_be_bytes bytes <? 2 ^ 63 then of_be_bytes bytes else of_be_bytes bytes - 2 ^ 64) mod 2 ^ 64
    = of_be_bytes bytes) as ->.
  { destruct (Z.ltb_spec (of_be_bytes bytes) (2 ^ 63)); [by apply Z.mod_small|].
    rewrite <-(Z_mod_plus_full _ 1). rewrite Z.mod_small by lia. lia. }
  rewrite <-Hl. apply be_bytes_of_be.
Qed.
Lemma of_be_i64_range bytes : length bytes = 8%nat → I64_MIN ≤ of_be_i64 bytes ≤ I64_MAX.
Proof.
  intros Hl. unfold of_be_i64, I64_MIN, I64_MAX. pose proof (of_be_bytes_range bytes) as Hr. unfold zlen in Hr.
  rewrite Hl in Hr. change (256 ^ Z.of_nat 8) with (2 ^ 64) in Hr. destruct (Z.ltb_spec (of_be_bytes bytes) (2 ^ 63)); lia.
Qed.
Lemma slice_slice off m k n bytes : (k + n ≤ m)%nat → slice k n (slice off m bytes) = slice (off + k) n bytes.
Proof.
  intros H. unfold slice. rewrite skipn_firstn_comm, take_take, Nat.min_l, drop_drop by lia. done.
Qed.
Lemma slice_app_drop a k n l : length a = k → slice k n (a ++ l) = take n l.
Proof. intros <-. unfold slice. by rewrite drop_app_length. Qed.

(** Consecutive fields of the given widths. *)
Definition widths_sum : list nat → nat := foldr Nat.add 0%nat.
Fixpoint slices (off : nat) (widths : list nat) (bytes : list byte) : list (list byte) :=
  match widths with
  | [] => []
  | w :: widths => slice off w bytes :: slices (off + w) widths bytes
  end.
Lemma slice_cut off widths bytes : slice off (widths_sum widths) bytes = concat (slices off widths bytes).
Proof.
  revert off. induction widths as [|w ws IH]; intros off; [done|]. cbn [widths_sum foldr slices concat].
  by rewrite slice_split, IH.
Qed.
Lemma layout_cut widths bytes : length bytes = widths_sum widths → bytes = concat (slices 0 widths bytes).
Proof. intros Hl. rewrite <-slice_cut, <-Hl. by rewrite slice_all. Qed.

(** ** Proof automation *)

(** [part_length a]: the length of a part, from a hypothesis or its shape. *)
Ltac part_length :=
  first [ eassumption | apply length_be_bytes | apply length_zeros | unfold be_i64; apply length_be_bytes
        | match goal with |- length ?a = _ => let k := eval vm_compute in (length a) in exact (eq_refl k) end ].
(** Evaluate the slices of concatenations whose parts have known lengths. *)
Ltac step_slice :=
  match goal with
  | |- context [slice ?off ?n (?a ++ ?l)] =>
      let H := fresh "Hlen" in
      eassert (length a = _) as H by part_length;
      first
        [ rewrite (slice_app_here a n l H)
        | rewrite (slice_app_skip a _ off n l H) by lia;
          match goal with
          | |- context [slice (off - ?k) n l] =>
              let o := eval vm_compute in (off - k)%nat in change (off - k)%nat with o
          end ];
      clear H
  | |- context [slice 0 ?n ?a] =>
      let H := fresh "Hlen" in
      assert (length a = n) as H by part_length; rewrite (slice_app_end a n H); clear H
  end.

(** ** Storage errors

    The error types of the storage and cryptography crates
    ([crates/uste-storage/src/{adapter,journal}.rs],
    [crates/uste-crypto/src/error.rs]) that its clients see. *)

Inductive AdapterErrorKind : Set :=
| Interrupted | NoSpace | QuotaExceeded | PermissionDenied | OwnershipConflict | WrongEntryType | CrossDevice
| AlreadyExists | NotFound | UnexpectedEof | ZeroProgress | AdapterResourceLimit | UnsupportedOperation
| AdapterContract | InjectedCrash | StaleHandle | ScriptExhausted | Io.
#[global] Instance AdapterErrorKind_eq_dec : EqDecision AdapterErrorKind.
Proof. solve_decision. Defined.

Module CryptoError.
Inductive crypto_error : Set :=
| IntegrityFailure | RetryableUnavailable | KeyUnavailable | Locked | UnsupportedProfile | ResourceLimit
| NonceSessionExhausted | InvalidEnvelope | InvalidContext | InvalidCredential.
End CryptoError.
Abbreviation CryptoError := CryptoError.crypto_error.
#[global] Instance CryptoError_eq_dec : EqDecision CryptoError.
Proof. solve_decision. Defined.

Module StorageError.
Inductive storage_error : Set :=
| Adapter (kind : AdapterErrorKind)
| Crypto (error : CryptoError)
| IntegrityFailure
| UnsupportedProfile
| ResourceLimit
| InvalidState
| NeedsRecovery
| RevisionExhausted.
End StorageError.
Abbreviation StorageError := StorageError.storage_error.
#[global] Instance StorageError_eq_dec : EqDecision StorageError.
Proof. solve_decision. Defined.
