(* ===== verification/Blob.v ===== *)
(** * Blob references and inventories

    Models the part of [crates/uste-storage/src/blob.rs] that transactions bind:
    blob identities and references, and the canonical inventory a commit
    certificate carries. *)
From S2P Require Import Prelude Ids Storage.
Import StorageError.

Definition BLOB_CHUNK_BYTES : Z := 1024 * 1024.
Definition MAX_BLOB_BYTES : Z := 16 * 1024 * 1024 * 1024.
Definition MAX_BLOBS_PER_INVENTORY : Z := 100000.
Definition MAX_COMMITTED_BLOBS_PER_JOURNAL : Z := 1000000.
Definition MAX_BLOB_REFERENCE_BINDINGS_PER_JOURNAL : Z := 10000000.
Definition MAX_NAMESPACE_BLOB_BYTES : Z := 1024 * 1024 * 1024 * 1024.
Definition INVENTORY_HEADER_BYTES : nat := 32.
Definition INVENTORY_ENTRY_BYTES : nat := 64.
Definition BLOB_FORMAT_MAJOR : byte := x01.
Definition BLOB_FORMAT_MINOR : byte := x00.
Definition EMPTY_BLOB_INVENTORY_DIGEST : list byte :=
  [xe3; xb0; xc4; x42; x98; xfc; x1c; x14; x9a; xfb; xf4; xc8; x99; x6f; xb9; x24;
   x27; xae; x41; xe4; x64; x9b; x93; x4c; xa4; x95; x99; x1b; x78; x52; xb8; x55].

(** [BlobId([u8; 16])], with the derived order. *)
Record BlobId : Set := BlobId_from_bytes { blob_bytes : list byte }.
#[global] Instance BlobId_eq_dec : EqDecision BlobId.
Proof. solve_decision. Defined.
#[global] Instance BlobId_countable : Countable BlobId.
Proof. by apply (inj_countable' blob_bytes BlobId_from_bytes); intros []. Defined.
#[global] Instance BlobId_lexico : Lexico BlobId := λ a b, lexico (blob_bytes a) (blob_bytes b).
#[global] Instance BlobId_lexico_po : StrictOrder (@lexico BlobId _).
Proof.
  unfold lexico, BlobId_lexico. split.
  - intros a Ha. by apply (irreflexivity lexico (blob_bytes a)).
  - intros a b c ??. by trans (blob_bytes b).
Qed.
#[global] Instance BlobId_lexico_trichotomy : TrichotomyT (@lexico BlobId _).
Proof.
  red; refine (λ a b, cast_trichotomy (trichotomyT lexico (blob_bytes a) (blob_bytes b)));
    abstract (destruct a, b; simpl in *; unfold lexico, BlobId_lexico; simpl; congruence || done).
Defined.

Record BlobReference : Set := mk_blob_reference {
  blob_scope : NamespaceRef;
  blob_id : BlobId;
  byte_len : Z;
  chunk_count : Z;
  content_digest : list byte
}.
#[global] Instance BlobReference_eq_dec : EqDecision BlobReference.
Proof. solve_decision. Defined.

Definition valid_reference_shape (reference : BlobReference) : bool :=
  if (MAX_BLOB_BYTES <? byte_len reference) || bool_decide (blob_bytes (blob_id reference) = zeros 16)
  then false
  else
    let expected :=
      if byte_len reference =? 0 then 0 else (byte_len reference - 1) / BLOB_CHUNK_BYTES + 1 in
    chunk_count reference =? expected.
Definition BlobReference_new (scope : NamespaceRef) (id : BlobId) (byte_len chunk_count : Z)
    (content_digest : list byte) : result StorageError BlobReference :=
  let reference := mk_blob_reference scope id byte_len chunk_count content_digest in
  if valid_reference_shape reference then Ok reference else Err InvalidState.

(** The cached [encoded] and [digest] fields are kept, as in the code. *)
Record BlobInventory : Set := mk_inventory {
  inv_scope : NamespaceRef;
  inv_references : list BlobReference;
  inv_encoded : list byte;
  inv_digest : list byte
}.
#[global] Instance BlobInventory_eq_dec : EqDecision BlobInventory.
Proof. solve_decision. Defined.
Definition inventory_is_empty (inventory : BlobInventory) : bool :=
  match inv_references inventory with [] => true | _ => false end.

(** One 64-byte entry: identity, length, chunk count, four zero bytes, digest. *)
Definition encode_inventory_entry (reference : BlobReference) : list byte :=
  blob_bytes (blob_id reference) ++ be_bytes 8 (byte_len reference) ++ be_bytes 4 (chunk_count reference)
  ++ zeros 4 ++ content_digest reference.
Definition encode_inventory (scope : NamespaceRef) (references : list BlobReference) :
    result StorageError (list byte) :=
  if USIZE_MAX <? Z.of_nat INVENTORY_HEADER_BYTES + zlen references * Z.of_nat INVENTORY_ENTRY_BYTES
  then Err ResourceLimit
  else if U32_MAX <? zlen references then Err ResourceLimit
  else
    Ok (lit "UBIN" ++ [BLOB_FORMAT_MAJOR; BLOB_FORMAT_MINOR] ++ zeros 2
        ++ as_bytes (ns_namespace scope) ++ be_bytes 4 (zlen references) ++ zeros 4
        ++ concat (map encode_inventory_entry references)).

Definition blob_le (a b : BlobReference) : Prop := key_le (blob_id a) (blob_id b).
#[global] Instance blob_le_dec : RelDecision blob_le.
Proof. intros a b. unfold blob_le. apply _. Defined.
#[global] Instance blob_le_total : Total blob_le.
Proof. intros a b. unfold blob_le. apply (total key_le). Qed.
#[global] Instance blob_le_trans : Transitive blob_le.
Proof. intros a b c. unfold blob_le. apply (transitivity (R := key_le)). Qed.

Section digests.
Context (sha256 : list byte → list byte).
(** [BlobInventory::new]; the loop that copies the references refuses the one
    past the limit. *)
Definition BlobInventory_new (scope : NamespaceRef) (references : list BlobReference) :
    result StorageError BlobInventory :=
  if MAX_BLOBS_PER_INVENTORY <? zlen references then Err ResourceLimit
  else if existsb (λ reference, negb (bool_decide (blob_scope reference = scope))
                     || negb (valid_reference_shape reference)) references
  then Err InvalidState
  else
    let references := merge_sort blob_le references in
    if windows2_any (λ a b, bool_decide (blob_id a = blob_id b)) references then Err InvalidState
    else
      encoded ← match references with [] => Ok [] | _ => encode_inventory scope references end;
      Ok (mk_inventory scope references encoded (sha256 encoded)).

Definition decode_inventory_entry (scope : NamespaceRef) (bytes : list byte) (offset : nat) :
    result StorageError BlobReference :=
  if negb (all_zero (slice (offset + 28) 4 bytes)) then Err IntegrityFailure
  else
    id ← ok_or (read_array 16 bytes offset) IntegrityFailure;
    byte_len ← ok_or (read_array 8 bytes (offset + 16)) IntegrityFailure;
    chunk_count ← ok_or (read_array 4 bytes (offset + 24)) IntegrityFailure;
    content_digest ← ok_or (read_array 32 bytes (offset + 32)) IntegrityFailure;
    Ok (mk_blob_reference scope (BlobId_from_bytes id) (of_be_bytes byte_len) (of_be_bytes chunk_count)
          content_digest).
(** One step of the loop over [0..count]: the entry must have a valid shape and
    an identity above the last one's. *)
Definition decode_inventory_step (scope : NamespaceRef) (bytes : list byte)
    (references : list BlobReference) (index : nat) : result StorageError (list BlobReference) :=
  reference ← decode_inventory_entry scope bytes (INVENTORY_HEADER_BYTES + index * INVENTORY_ENTRY_BYTES);
  if negb (valid_reference_shape reference)
     || match last references with
        | Some previous => negb (bool_decide (lexico (blob_id previous) (blob_id reference)))
        | None => false
        end
  then Err IntegrityFailure
  else Ok (references ++ [reference]).
Definition BlobInventory_decode_bounded (database : DatabaseId) (bytes : list byte)
    (maximum_references : Z) : result StorageError BlobInventory :=
  if (length bytes <? INVENTORY_HEADER_BYTES)%nat
     || negb (bool_decide (slice 0 4 bytes = lit "UBIN"))
     || negb (byte_is bytes 4 BLOB_FORMAT_MAJOR) || negb (byte_is bytes 5 BLOB_FORMAT_MINOR)
     || negb (bool_decide (slice 6 2 bytes = zeros 2))
     || negb (all_zero (slice 28 4 bytes))
  then Err IntegrityFailure
  else
    count_bytes ← ok_or (read_array 4 bytes 24) IntegrityFailure;
    let count := of_be_bytes count_bytes in
    let expected := Z.of_nat INVENTORY_HEADER_BYTES + count * Z.of_nat INVENTORY_ENTRY_BYTES in
    if (count =? 0) || (MAX_BLOBS_PER_INVENTORY <? count) || negb (zlen bytes =? expected)
    then Err IntegrityFailure
    else if maximum_references <? count then Err ResourceLimit
    else
      namespace ← ok_or (read_array 16 bytes 8) IntegrityFailure;
      let scope := NamespaceRef_new database (from_bytes namespace) in
      references ← try_fold (decode_inventory_step scope bytes) (seq 0 (Z.to_nat count)) [];
      Ok (mk_inventory scope references bytes (sha256 bytes)).
Definition BlobInventory_decode (database : DatabaseId) (bytes : list byte) :
    result StorageError BlobInventory :=
  BlobInventory_decode_bounded database bytes MAX_BLOBS_PER_INVENTORY.
End digests.

(** ** Blob inventories are canonical *)

(** What the types of the code guarantee of a reference. *)
Definition blob_reference_ok (scope : NamespaceRef) (r : BlobReference) : Prop :=
  blob_scope r = scope ∧ length (blob_bytes (blob_id r)) = 16%nat ∧ 0 ≤ byte_len r ≤ U64_MAX
  ∧ 0 ≤ chunk_count r ≤ U32_MAX ∧ length (content_digest r) = 32%nat.

Section digests.
Context (sha256 : list byte → list byte).
(** A canonical, nonempty inventory. *)
Definition inventory_ok (inv : BlobInventory) : Prop :=
  scope_ok (inv_scope inv) ∧ Forall (blob_reference_ok (inv_scope inv)) (inv_references inv)
  ∧ Forall (λ r, valid_reference_shape r = true) (inv_references inv)
  ∧ StronglySorted lexico (blob_id <$> inv_references inv)
  ∧ 0 < zlen (inv_references inv) ≤ MAX_BLOBS_PER_INVENTORY
  ∧ encode_inventory (inv_scope inv) (inv_references inv) = Ok (inv_encoded inv)
  ∧ inv_digest inv = sha256 (inv_encoded inv).

(** ** One entry *)
Lemma length_inventory_entry scope r : blob_reference_ok scope r → length (encode_inventory_entry r) = 64%nat.
Proof.
  intros (_ & Hid & _ & _ & Hd). unfold encode_inventory_entry.
  by rewrite !length_app, !length_be_bytes, length_zeros, Hid, Hd.
Qed.
Lemma decode_inventory_entry_Ok scope bytes off r : (off + 64 ≤ length bytes)%nat →
  decode_inventory_entry scope bytes off = Ok r ↔
  blob_reference_ok scope r ∧ slice off 64 bytes = encode_inventory_entry r.
Proof.
  intros Hlen. unfold decode_inventory_entry. rewrite !read_array_in by lia. cbn [ok_or].
  rewrite !result_bind_Ok.
  rewrite <-(slice_slice off 64 28 4), <-(slice_slice off 64 16 8), <-(slice_slice off 64 24 4),
    <-(slice_slice off 64 32 32) by lia.
  replace (slice off 16 bytes) with (slice 0 16 (slice off 64 bytes)) by (by rewrite slice_slice, Nat.add_0_r by lia).
  pose proof (length_slice off 64 bytes Hlen) as Hl. set (e := slice off 64 bytes) in *. clearbody e. split.
  - destruct (all_zero (slice 28 4 e)) eqn:Hz; [|done]. intros [= <-].
    apply all_zero_iff in Hz. rewrite length_slice in Hz by lia. split.
    + pose proof (of_be_slice_range 8 e 16 ltac:(lia)). pose proof (of_be_slice_range 4 e 24 ltac:(lia)).
      unfold blob_reference_ok. cbn. rewrite !length_slice by lia.
      unfold U64_MAX, U32_MAX. change (256 ^ Z.of_nat 8) with (2 ^ 64) in *.
      change (256 ^ Z.of_nat 4) with (2 ^ 32) in *. split_and!; first [done|lia].
    + unfold encode_inventory_entry. cbn [blob_bytes blob_id byte_len chunk_count content_digest].
      rewrite !of_be_slice by lia. rewrite <-Hz.
      rewrite (layout_cut [16;8;4;4;32]%nat e Hl) at 1. cbn [slices concat Nat.add]. by rewrite app_nil_r.
  - intros [(Hs & Hid & Hb & Hc & Hd) ->]. unfold encode_inventory_entry.
    repeat step_slice. rewrite all_zero_zeros. cbn [negb].
    rewrite !of_be_bytes_be; [|unfold U32_MAX in Hc; change (256 ^ Z.of_nat 4) with (2 ^ 32); lia
                              |unfold U64_MAX in Hb; change (256 ^ Z.of_nat 8) with (2 ^ 64); lia].
    destruct r as [? [] ? ? ?]; cbn in *. by subst.
Qed.

(** ** The entries *)
Definition entries_ok (scope : NamespaceRef) (bytes : list byte) (n : nat) (refs : list BlobReference) : Prop :=
  length refs = n ∧ Forall (blob_reference_ok scope) refs ∧ Forall (λ r, valid_reference_shape r = true) refs
  ∧ StronglySorted lexico (blob_id <$> refs) ∧ slice 32 (n * 64) bytes = concat (map encode_inventory_entry refs).
Lemma sorted_snoc_last (refs : list BlobReference) r : StronglySorted lexico (blob_id <$> refs) →
  StronglySorted lexico (blob_id <$> refs ++ [r]) ↔
  match last refs with Some p => lexico (blob_id p) (blob_id r) | None => True end.
Proof.
  intros Hs. rewrite fmap_app, StronglySorted_app. pose proof (sorted_last_below _ _ (blob_id r) Hs) as Hl.
  rewrite fmap_last in Hl. rewrite Forall_forall in Hl. cbn [fmap list_fmap].
  assert ((∀ x1 x2, x1 ∈ blob_id <$> refs → x2 ∈ [blob_id r] → lexico x1 x2) ↔
          ∀ x, x ∈ blob_id <$> refs → lexico x (blob_id r)) as -> by set_solver.
  rewrite <-Hl. destruct (last refs); cbn; split; try tauto; intros; split_and!; try done; by repeat constructor.
Qed.
Lemma decode_inventory_step_Ok scope bytes n refs refs' : entries_ok scope bytes n refs →
  (32 + S n * 64 ≤ length bytes)%nat →
  decode_inventory_step scope bytes refs n = Ok refs' ↔ ∃ r, refs' = refs ++ [r] ∧ entries_ok scope bytes (S n) refs'.
Proof.
  intros (Hn & Hok & Hsh & Hso & Hsl) Hlen. unfold decode_inventory_step. rewrite bind_Ok.
  setoid_rewrite decode_inventory_entry_Ok; [|unfold INVENTORY_HEADER_BYTES, INVENTORY_ENTRY_BYTES; lia].
  assert (∀ r, entries_ok scope bytes (S n) (refs ++ [r]) ↔
    (blob_reference_ok scope r ∧ slice (32 + n * 64) 64 bytes = encode_inventory_entry r) ∧
    valid_reference_shape r = true ∧ match last refs with Some p => lexico (blob_id p) (blob_id r) | None => True end) as Hsnoc.
  { intros r. unfold entries_ok. rewrite length_app, !Forall_app, !Forall_singleton, (sorted_snoc_last refs r Hso).
    replace (S n * 64)%nat with (n * 64 + 64)%nat by lia. rewrite slice_split, Hsl, map_app, concat_app.
    cbn [map concat]. rewrite app_nil_r. split.
    2: { intros ((? & Hsl') & ? & ?). rewrite <-Hsl'. split_and!; try done; simpl; lia. }
    intros (_ & (_ & ?) & (_ & ?) & ? & ?%app_inv_head). done. }
  change (INVENTORY_HEADER_BYTES + n * INVENTORY_ENTRY_BYTES)%nat with (32 + n * 64)%nat. split.
  - intros (r & Hr & Hc). destruct (_ || _) eqn:Hb in Hc; [done|]. injection Hc as <-. exists r. split; [done|].
    apply Hsnoc. apply orb_false_iff in Hb as [Hs%negb_false_iff Hl]. split_and!; [apply Hr..|done|].
    destruct (last refs); [|done]. by apply negb_false_iff, bool_decide_eq_true in Hl.
  - intros (r & -> & (Hr & Hs & Hl)%Hsnoc). exists r. split; [done|]. rewrite Hs. cbn [negb orb].
    destruct (last refs); [|done]. by rewrite bool_decide_true.
Qed.
Lemma decode_inventory_entries scope bytes n refs : (32 + n * 64 ≤ length bytes)%nat →
  try_fold (decode_inventory_step scope bytes) (seq 0 n) [] = Ok refs ↔ entries_ok scope bytes n refs.
Proof.
  revert refs. induction n as [|n IH]; intros refs Hlen.
  - cbn. split.
    + intros [= <-]. split_and!; try done; constructor.
    + intros [Hn _]. by destruct refs.
  - rewrite seq_S, try_fold_app, bind_Ok. setoid_rewrite IH; [|lia]. cbn [Nat.add try_fold]. split.
    + intros (refs0 & H0 & (refs1 & H1 & [= <-])%bind_Ok).
      apply (decode_inventory_step_Ok _ _ _ _ _ H0) in H1 as (r & -> & H1); [done|lia].
    + intros H1. destruct refs as [|r refs0 _] using rev_ind; [by destruct H1|].
      exists refs0. assert (entries_ok scope bytes n refs0) as H0.
      { destruct H1 as (Hn & Hok & Hsh & Hso & Hsl). rewrite length_app in Hn. cbn in Hn.
        apply Forall_app in Hok as [Hok [Hr _]%Forall_cons], Hsh as [Hsh _]. rewrite fmap_app in Hso.
        apply StronglySorted_app in Hso as (_ & Hso & _). split_and!; try done; [lia|].
        replace (S n * 64)%nat with (n * 64 + 64)%nat in Hsl by lia. rewrite slice_split, map_app, concat_app in Hsl.
        apply app_inj_1 in Hsl as [Hsl _]; [done|]. rewrite length_slice by lia.
        replace n with (length refs0) by lia. clear -Hok.
        induction Hok as [|x l Hx Hl IHl]; [done|]. cbn. rewrite length_app, <-IHl, (length_inventory_entry _ _ Hx). lia. }
      split; [done|]. apply bind_Ok. exists (refs0 ++ [r]). split; [|done].
      apply (decode_inventory_step_Ok _ _ _ _ _ H0); [lia|]. by exists r.
Qed.

(** ** Sorting *)
Lemma blob_ids_strict refs : StronglySorted blob_le refs →
  windows2_any (λ a b, bool_decide (blob_id a = blob_id b)) refs = false ↔ StronglySorted lexico (blob_id <$> refs).
Proof.
  rewrite windows2_any_false. intros Hs. split.
  - intros Hn. apply Sorted_StronglySorted; [apply _|].
    induction Hs as [|a l Hl IH Ha]; [constructor|]. apply Sorted_inv in Hn as [Hn Hh]. constructor; [by apply IH|].
    destruct l as [|b l]; constructor. apply HdRel_inv in Hh. apply bool_decide_eq_false in Hh.
    apply Forall_cons in Ha as [Hab _]. by apply key_le_ne.
  - induction Hs as [|a l Hl IH Ha]; intros Hst; constructor; cbn in Hst; apply StronglySorted_cons in Hst as [Hal Hst].
    + by apply IH.
    + destruct l as [|b l]; constructor. apply bool_decide_eq_false. intros Heq.
      cbn in Hal. apply Forall_cons in Hal as [Hab _]. rewrite Heq in Hab. by apply (irreflexivity lexico (blob_id b)).
Qed.
Lemma sorted_blobs_unique l k : StronglySorted lexico (blob_id <$> l) → StronglySorted lexico (blob_id <$> k) →
  l ≡ₚ k → l = k.
Proof.
  intros Hl Hk Hp. pose (f := λ r : BlobReference, (blob_id r, r)).
  assert (f <$> l = f <$> k) as Hf.
  { apply sorted_entries_eq; [by rewrite <-list_fmap_compose..|by rewrite Hp]. }
  assert (∀ m, (f <$> m).*2 = m) as Hsnd.
  { intros m. rewrite <-list_fmap_compose. apply list_fmap_id. }
  by rewrite <-(Hsnd l), Hf, Hsnd.
Qed.
Lemma concat_entries_length scope refs : Forall (blob_reference_ok scope) refs →
  length (concat (map encode_inventory_entry refs)) = (length refs * 64)%nat.
Proof.
  induction 1 as [|x l Hx Hl IH]; [done|]. cbn. rewrite length_app, IH, (length_inventory_entry _ _ Hx). lia.
Qed.
Lemma encode_inventory_Ok scope refs : zlen refs ≤ MAX_BLOBS_PER_INVENTORY →
  encode_inventory scope refs =
  Ok (lit "UBIN" ++ [BLOB_FORMAT_MAJOR; BLOB_FORMAT_MINOR] ++ zeros 2 ++ as_bytes (ns_namespace scope)
      ++ be_bytes 4 (zlen refs) ++ zeros 4 ++ concat (map encode_inventory_entry refs)).
Proof.
  intros Hn. pose proof (zlen_nonneg refs). unfold encode_inventory.
  unfold MAX_BLOBS_PER_INVENTORY, INVENTORY_HEADER_BYTES, INVENTORY_ENTRY_BYTES in *.
  rewrite !(proj2 (Z.ltb_ge _ _)); [done|unfold U32_MAX; lia|unfold USIZE_MAX, U64_MAX; lia].
Qed.
Lemma inventory_new_Ok scope refs inv : scope_ok scope → refs ≠ [] → Forall (λ r, blob_reference_ok (blob_scope r) r) refs →
  BlobInventory_new sha256 scope refs = Ok inv ↔
  inventory_ok inv ∧ inv_scope inv = scope ∧ inv_references inv ≡ₚ refs.
Proof.
  intros Hsc Hne Hty. unfold BlobInventory_new. set (srt := merge_sort blob_le refs).
  assert (srt ≡ₚ refs) as Hp by apply merge_sort_Permutation.
  assert (StronglySorted blob_le srt) as Hso by (apply StronglySorted_merge_sort; apply _).
  assert (zlen srt = zlen refs) as Hlen by (unfold zlen; by rewrite Hp).
  assert (existsb (λ r, negb (bool_decide (blob_scope r = scope)) || negb (valid_reference_shape r)) refs = false ↔
    Forall (blob_reference_ok scope) refs ∧ Forall (λ r, valid_reference_shape r = true) refs) as Hex.
  { rewrite <-Forall_and, <-not_true_iff_false, existsb_exists. rewrite Forall_forall in Hty. rewrite Forall_forall.
    setoid_rewrite orb_true_iff. setoid_rewrite negb_true_iff. setoid_rewrite bool_decide_eq_false. split.
    - intros Hn r Hr. pose proof (Hty r Hr) as Ht.
      destruct (decide (blob_scope r = scope)) as [<-|]; [|contradict Hn; exists r; split; [by apply list_elem_of_In|tauto]].
      split; [done|]. destruct (valid_reference_shape r) eqn:Hv; [done|].
      contradict Hn; exists r; split; [by apply list_elem_of_In|tauto].
    - intros Ha (r & Hr%list_elem_of_In & Hb). destruct (Ha r Hr) as [[Hs _] Hv]. destruct Hb; congruence. }
  pose proof (zlen_nonneg refs). assert (0 < zlen refs) as Hpos by (destruct refs; [done|rewrite zlen_cons; pose proof (zlen_nonneg refs); lia]).
  split.
  - destruct (Z.ltb_spec MAX_BLOBS_PER_INVENTORY (zlen refs)); [done|].
    destruct (existsb _ _); [done|]. destruct Hex as [[Hok Hsh] _]; [done|].
    destruct (windows2_any _ _) eqn:Hw; [done|]. apply blob_ids_strict in Hw; [|done].
    intros (enc & He & [= <-])%bind_Ok.
    assert (encode_inventory scope srt = Ok enc) as He' by (destruct srt; [by rewrite zlen_nil in Hlen; lia|done]).
    split; [|done]. unfold inventory_ok. cbn. split_and!; try done; [by rewrite Hp..|lia|lia].
  - intros ((_ & Hok & Hsh & Hst & Hn & He & Hd) & Hs & Hperm). destruct inv as [sc rs en di]; cbn in *. subst sc di.
    assert (srt = rs) as Hsrt.
    { apply sorted_blobs_unique; [|done|by rewrite Hp, Hperm].
      apply blob_ids_strict; [done|]. apply windows2_any_false.
      assert (NoDup (blob_id <$> srt)) as Hnd.
      { rewrite Hp, <-Hperm. by apply sorted_strict_NoDup. }
      clear -Hnd. induction srt as [|a [|b l] IH]; [constructor|repeat constructor|].
      apply NoDup_cons in Hnd as [Ha Hnd]. constructor; [by apply IH|]. constructor. apply bool_decide_eq_false.
      intros Heq. apply Ha. rewrite Heq. set_solver. }
    rewrite (proj2 (Z.ltb_ge _ _)) by (unfold zlen in *; rewrite <-Hperm; lia).
    rewrite (proj2 Hex) by (by rewrite <-Hperm). rewrite Hsrt in Hso |- *.
    rewrite (proj2 (blob_ids_strict rs Hso) Hst).
    replace (match rs with [] => Ok [] | _ => encode_inventory scope rs end) with (Ok (E := StorageError) en); [done|].
    destruct rs; [by apply Permutation_nil_l in Hperm; subst|done].
Qed.

(** ** The header *)
Lemma inventory_decode_Ok database bytes inv : identity_ok database →
  BlobInventory_decode sha256 database bytes = Ok inv ↔
  inventory_ok inv ∧ ns_database (inv_scope inv) = database ∧ inv_encoded inv = bytes.
Proof.
  intros Hdb. unfold BlobInventory_decode, BlobInventory_decode_bounded, INVENTORY_HEADER_BYTES, INVENTORY_ENTRY_BYTES.
  change (Z.of_nat 32) with 32. change (Z.of_nat 64) with 64. split.
  - destruct (Nat.ltb_spec (length bytes) 32); [done|]. cbn [orb].
    destruct (bool_decide_reflect (slice 0 4 bytes = lit "UBIN")) as [Hm|]; [|done].
    destruct (byte_is bytes 4 _) eqn:Hmaj; [|done]. destruct (byte_is bytes 5 _) eqn:Hmin; [|done].
    destruct (bool_decide_reflect (slice 6 2 bytes = zeros 2)) as [Hr|]; [|done].
    destruct (all_zero (slice 28 4 bytes)) eqn:Hz; [|done]. cbn [negb orb].
    rewrite !read_array_in by lia. cbn [ok_or]. rewrite !result_bind_Ok.
    set (count := of_be_bytes (slice 24 4 bytes)).
    destruct (Z.eqb_spec count 0); [done|]. destruct (Z.ltb_spec MAX_BLOBS_PER_INVENTORY count); [done|].
    destruct (Z.eqb_spec (zlen bytes) (32 + count * 64)) as [Hlen|]; [|done]. cbn [negb orb].
    intros (refs & (Hn & Hok & Hsh & Hso & Hsl)%decode_inventory_entries & [= <-])%bind_Ok;
      [|unfold zlen in Hlen; lia].
    pose proof (of_be_slice_range 4 bytes 24 ltac:(lia)) as Hrange. fold count in Hrange.
    assert (zlen refs = count) as Hcount by (unfold zlen; lia).
    unfold inventory_ok. cbn [inv_scope inv_references inv_encoded inv_digest].
    split; [|done]. split_and!; try done; [split; [done|]; apply length_slice; lia|lia|lia|].
    rewrite encode_inventory_Ok by lia. f_equal. cbn [ns_namespace as_bytes]. rewrite <-Hsl, <-Hm.
    change [BLOB_FORMAT_MAJOR; BLOB_FORMAT_MINOR] with ([BLOB_FORMAT_MAJOR] ++ [BLOB_FORMAT_MINOR]).
    apply byte_is_slice in Hmaj, Hmin. apply all_zero_iff in Hz. rewrite length_slice in Hz by lia.
    rewrite <-Hmaj, <-Hmin, <-Hr, Hcount. subst count. rewrite of_be_slice, <-Hz by lia.
    assert (length bytes = widths_sum [4; 1; 1; 2; 16; 4; 4; Z.to_nat (of_be_bytes (slice 24 4 bytes)) * 64])%nat as Hl
      by (cbn [widths_sum foldr]; unfold zlen in Hlen; lia).
    etrans; [|symmetry; exact (layout_cut _ _ Hl)]. cbn [slices concat Nat.add]. by rewrite <-!app_assoc, app_nil_r.
  - intros ((Hsc & Hok & Hsh & Hst & Hn & He & Hd) & Hdbs & <-). destruct inv as [sc refs en di]; cbn [inv_scope inv_references inv_encoded inv_digest] in *.
    subst di. rewrite encode_inventory_Ok in He by lia.
    pose proof (concat_entries_length _ _ Hok) as Hcl. destruct Hsc as [_ Hns]. unfold identity_ok in Hns.
    set (tail := concat (map encode_inventory_entry refs)) in *.
    set (bytes := lit "UBIN" ++ [BLOB_FORMAT_MAJOR; BLOB_FORMAT_MINOR] ++ zeros 2 ++ as_bytes (ns_namespace sc)
      ++ be_bytes 4 (zlen refs) ++ zeros 4 ++ tail) in *.
    assert (en = bytes) as -> by congruence. clear He.
    assert (length bytes = 32 + length refs * 64)%nat as Hlen.
    { unfold bytes. rewrite !length_app, !length_zeros, length_be_bytes, Hns, Hcl. cbn. lia. }
    rewrite (proj2 (Nat.ltb_ge _ _)) by lia.
    assert (slice 0 4 bytes = lit "UBIN") as -> by (unfold bytes; by repeat step_slice).
    assert (byte_is bytes 4 BLOB_FORMAT_MAJOR = true) as -> by done.
    assert (byte_is bytes 5 BLOB_FORMAT_MINOR = true) as -> by done.
    assert (slice 6 2 bytes = zeros 2) as -> by done.
    assert (slice 28 4 bytes = zeros 4) as -> by (unfold bytes; by repeat step_slice).
    rewrite all_zero_zeros, !bool_decide_true by done. cbn [negb orb].
    rewrite !read_array_in by lia. cbn [ok_or]. rewrite !result_bind_Ok.
    assert (slice 24 4 bytes = be_bytes 4 (zlen refs)) as -> by (unfold bytes; by repeat step_slice).
    assert (slice 8 16 bytes = as_bytes (ns_namespace sc)) as -> by (unfold bytes; by repeat step_slice).
    rewrite of_be_bytes_be by (unfold MAX_BLOBS_PER_INVENTORY in Hn; change (256 ^ Z.of_nat 4) with (2 ^ 32); lia).
    rewrite (proj2 (Z.eqb_neq _ _)), (proj2 (Z.ltb_ge _ _)) by lia.
    replace (zlen bytes =? 32 + zlen refs * 64) with true by (symmetry; apply Z.eqb_eq; unfold zlen; lia). cbn [negb orb].
    assert (NamespaceRef_new database (from_bytes (as_bytes (ns_namespace sc))) = sc) as ->
      by (subst database; by destruct sc as [? []]).
    replace (Z.to_nat (zlen refs)) with (length refs) by (unfold zlen; lia).
    rewrite (proj2 (decode_inventory_entries sc bytes (length refs) refs ltac:(lia))); [done|].
    split_and!; try done. unfold bytes.
    rewrite !app_assoc, slice_app_drop by (by rewrite !length_app, !length_zeros, length_be_bytes, Hns).
    fold tail. rewrite <-Hcl. apply firstn_all.
Qed.

(** Blob inventories are canonical.  References given in any order make one
    inventory, sorted by identity, or none when an identity repeats, a shape is
    wrong or a reference is of another namespace; and the decoder accepts exactly
    the encodings of such inventories and returns them. *)
Theorem inventory_canonical database scope refs inv bytes : identity_ok database → scope_ok scope →
  refs ≠ [] → Forall (λ r, blob_reference_ok (blob_scope r) r) refs →
  (BlobInventory_new sha256 scope refs = Ok inv ↔
   inventory_ok inv ∧ inv_scope inv = scope ∧ inv_references inv ≡ₚ refs) ∧
  (BlobInventory_decode sha256 database bytes = Ok inv ↔
   inventory_ok inv ∧ ns_database (inv_scope inv) = database ∧ inv_encoded inv = bytes).
Proof.
  intros Hdb Hsc Hne Hty. split; [by apply inventory_new_Ok|by apply inventory_decode_Ok].
Qed.
End digests.

Definition sample_blob_scope : NamespaceRef :=
  NamespaceRef_new (from_bytes (be_bytes 16 1)) (from_bytes (be_bytes 16 2)).
Definition sample_blob (n : Z) : BlobReference :=
  mk_blob_reference sample_blob_scope (BlobId_from_bytes (be_bytes 16 n)) (n * 1000000) (n * 1000000 / 1048576 + 1)
    (be_bytes 32 n).
Lemma sample_blob_ok n : 0 < n < 1000 → blob_reference_ok sample_blob_scope (sample_blob n).
Proof.
  intros Hn. unfold blob_reference_ok, sample_blob. cbn [blob_scope blob_id byte_len chunk_count content_digest blob_bytes].
  rewrite !length_be_bytes. unfold U64_MAX, U32_MAX.
  pose proof (Z.div_le_upper_bound (n * 1000000) 1048576 1000000).
  pose proof (Z.div_pos (n * 1000000) 1048576). split_and!; first [done|lia].
Qed.
(** Two references, given in the wrong order. *)
Lemma inventory_canonical_witness :
  ∃ inv, BlobInventory_new (λ b, take 32 b) sample_blob_scope [sample_blob 2; sample_blob 1] = Ok inv ∧
    inv_references inv ≡ₚ [sample_blob 2; sample_blob 1] ∧
    BlobInventory_decode (λ b, take 32 b) (ns_database sample_blob_scope) (inv_encoded inv) = Ok inv.
Proof.
  eassert (BlobInventory_new (λ b, take 32 b) sample_blob_scope [sample_blob 2; sample_blob 1] = Ok _) as Hn
    by (vm_compute; reflexivity).
  match type of Hn with _ = Ok ?inv =>
    pose proof (inventory_canonical (λ b, take 32 b) (ns_database sample_blob_scope) sample_blob_scope
      [sample_blob 2; sample_blob 1] inv (inv_encoded inv) ltac:(done) ltac:(done) ltac:(done)
      ltac:(repeat constructor; apply sample_blob_ok; lia)) as [Hnew Hdec]
  end.
  destruct (proj1 Hnew Hn) as (Hok & _ & Hp). eexists. split; [exact Hn|]. split; [exact Hp|].
  apply (proj2 Hdec). split; [exact Hok|split; reflexivity].
Defined.
