(* ===== verification/Journal.v ===== *)
(** * The journal as its clients see it

    The data of [crates/uste-storage/src/journal.rs] that cross its interface,
    the class of its operations the coordinator calls, and what the journal
    promises: after any append the durable log is the old one or the old one with
    exactly the new group, an acknowledged group is durable, and opening replays
    the durable log in order. *)
From S2P Require Import Prelude Ids Storage Blob.
Import StorageError.

Record CommitInput : Set := mk_commit_input {
  ci_encoded_group : list byte;
  ci_logical_event_digest : list byte
}.
Record DurableCommit : Set := mk_durable_commit {
  dc_revision : CommitRevision;
  dc_certificate_digest : list byte
}.
Record RecoveredGroup : Set := mk_recovered_group {
  rg_revision : CommitRevision;
  rg_certificate_digest : list byte;
  rg_encoded_group : list byte;
  rg_blob_inventory_digest : list byte;
  rg_blob_inventory : option BlobInventory;
  rg_logical_event_digest : list byte
}.
Record RecoveryReport : Set := mk_recovery_report {
  rr_frontier : option CommitRevision;
  rr_certificate_digest : list byte;
  rr_repaired_certificate_tail_bytes : Z;
  rr_ignored_uncommitted_journal_bytes : Z
}.

(** A loop over groups whose body may fail or panic. *)
Section visit.
Context {E A B : Type} (f : A → B → option (result E A)).
Fixpoint visit_all (l : list B) (a : A) : option (result E A) :=
  match l with
  | [] => Some (Ok a)
  | b :: l =>
      match f a b with
      | Some (Ok a') => visit_all l a'
      | Some (Err e) => Some (Err e)
      | None => None
      end
  end.
Lemma visit_all_app l k a :
  visit_all (l ++ k) a =
  match visit_all l a with Some (Ok a') => visit_all k a' | r => r end.
Proof.
  revert a. induction l as [|b l IH]; intros a; [done|]. cbn. destruct (f a b) as [[a'|e]|]; [apply IH|done..].
Qed.
End visit.

(** The operations of a [JournalStore] handle [J] over a file system [F].  [open]
    runs its callback, which may panic, over the recovered groups. *)
Class JournalStore (J F : Type) := {
  journal_frontier : J → option CommitRevision;
  journal_append_group : J → F → CommitInput → J * F * result StorageError DurableCommit;
  journal_append_group_with_inventory :
    J → F → CommitInput → BlobInventory → J * F * result StorageError DurableCommit;
  DiskBlobAppendLimits : Type;
  journal_append_group_with_disk_inventory :
    J → F → CommitInput → BlobInventory → DiskBlobAppendLimits → J * F * result StorageError DurableCommit;
  (** The handle goes out of scope: its guard releases the lock of the directory. *)
  journal_close : J → F → F;
  (** The first component of [blob_metadata_residency]. *)
  journal_blob_metadata_resident : J → bool;
  journal_open : ∀ {A : Type}, F → (A → RecoveredGroup → option (result StorageError A)) → A →
    option (F * result StorageError (J * RecoveryReport * A))
}.

Definition revision_after (frontier : option CommitRevision) : CommitRevision :=
  match frontier with Some r => r + 1 | None => CommitRevision_FIRST end.
Definition log_frontier (log : list RecoveredGroup) : option CommitRevision := rg_revision <$> last log.
Definition log_inventory_digest (inventory : option BlobInventory) : list byte :=
  match inventory with Some inventory => inv_digest inventory | None => EMPTY_BLOB_INVENTORY_DIGEST end.
(** [group] is what appending [input] to [log] makes durable. *)
Definition appended (log : list RecoveredGroup) (input : CommitInput) (inventory : option BlobInventory)
    (group : RecoveredGroup) : Prop :=
  rg_revision group = revision_after (log_frontier log)
  ∧ rg_encoded_group group = ci_encoded_group input
  ∧ rg_logical_event_digest group = ci_logical_event_digest input
  ∧ rg_blob_inventory group = inventory
  ∧ rg_blob_inventory_digest group = log_inventory_digest inventory.
(** Revisions count up from one. *)
Definition log_numbered (log : list RecoveredGroup) : Prop :=
  ∀ i g, log !! i = Some g → rg_revision g = Z.of_nat i + 1.

(** What an append may leave behind. *)
Definition append_outcome `{JournalStore J F} (owns : J → F → list RecoveredGroup → Prop)
    (durable : F → list RecoveredGroup → Prop) (log : list RecoveredGroup) (input : CommitInput)
    (inventory : option BlobInventory) (out : J * F * result StorageError DurableCommit) : Prop :=
  match out with
  | (j, f, Ok commit) =>
      ∃ g, appended log input inventory g ∧ dc_revision commit = rg_revision g
        ∧ dc_certificate_digest commit = rg_certificate_digest g ∧ owns j f (log ++ [g])
  | (j, f, Err (ResourceLimit | RevisionExhausted)) => owns j f log
  | (j, f, Err _) =>
      durable (journal_close j f) log ∨ ∃ g, appended log input inventory g ∧ durable (journal_close j f) (log ++ [g])
  end.

(** The promises of the journal.  [durable f log]: the certified log on [f] is
    [log], no handle holds it, and opening reads it.  [owns j f log]: [j] is the open
    handle whose frontier is the end of that log; after a refused append it may only
    refuse.  A log in use is opened again only after its handle has been closed. *)
Class JournalLaws (J F : Type) `{JournalStore J F} := {
  durable : F → list RecoveredGroup → Prop;
  owns : J → F → list RecoveredGroup → Prop;
  durable_numbered f log : durable f log → log_numbered log;
  owns_closes j f log : owns j f log → durable (journal_close j f) log;
  owns_frontier j f log : owns j f log → journal_frontier j = log_frontier log;
  append_law j f log input : owns j f log →
    append_outcome owns durable log input None (journal_append_group j f input);
  append_inventory_law j f log input inventory : owns j f log → inv_references inventory ≠ [] →
    append_outcome owns durable log input (Some inventory)
      (journal_append_group_with_inventory j f input inventory);
  append_disk_inventory_law j f log input inventory limits : owns j f log → inv_references inventory ≠ [] →
    append_outcome owns durable log input (Some inventory)
      (journal_append_group_with_disk_inventory j f input inventory limits);
  open_law f log : durable f log → ∃ f' j report, owns j f' log ∧ rr_frontier report = log_frontier log ∧
    ∀ (A : Type) (visit : A → RecoveredGroup → option (result StorageError A)) (a : A),
      match visit_all visit log a with
      | Some (Ok a') => journal_open f visit a = Some (f', Ok (j, report, a'))
      | Some (Err e) => ∃ f'', journal_open f visit a = Some (f'', Err e) ∧ durable f'' log
      | None => journal_open f visit a = None
      end
}.

(** ** Numbered logs *)
Lemma log_numbered_nil : log_numbered [].
Proof. by intros i g. Qed.
Lemma log_frontier_length log : log_numbered log →
  revision_after (log_frontier log) = zlen log + 1.
Proof.
  intros Hn. unfold log_frontier. destruct log as [|g log _] using rev_ind; [done|].
  rewrite last_snoc. cbn. rewrite (Hn (length log) g) by (by rewrite list_lookup_middle).
  unfold zlen. rewrite length_app. cbn. lia.
Qed.
Lemma log_numbered_snoc log g : log_numbered log → rg_revision g = revision_after (log_frontier log) →
  log_numbered (log ++ [g]).
Proof.
  intros Hn Hg i g' Hi. rewrite (log_frontier_length _ Hn) in Hg.
  apply lookup_snoc_Some in Hi as [[_ Hi]|[-> ->]]; [by apply Hn|]. unfold zlen in Hg. lia.
Qed.
