(* ===== verification/TxnGroup.v ===== *)
(** * The transaction group

    Models the group format of [crates/uste-txn/src/lib.rs]: the bytes one
    commit appends to the journal, which bind the request, its retry key and its
    outcome. *)
From S2P Require Import Prelude Ids Policy GraphState GraphQuery Storage Blob.

Abbreviation TxError := (TransactionError StorageError).

Definition GROUP_HEADER_BYTES : nat := 192.
Definition GROUP_MAGIC : list byte := lit "UTXN".
Definition GROUP_MAJOR : byte := x01.
Definition GROUP_MINOR : byte := x00.
Definition SECONDS_PER_DAY : Z := 86400.
Definition MIN_RETENTION_DAYS : Z := 30.
Definition MAX_RETENTION_DAYS : Z := 365.
Definition MAX_REQUEST_BYTES : Z := 16 * 1024 * 1024 - 192.
Definition MAX_OUTCOMES_PER_NAMESPACE : Z := 10000000.

(** [RetentionDays(u16)]. *)
Definition RetentionDays_new (days : Z) : result TxError Z :=
  if (days <? MIN_RETENTION_DAYS) || (MAX_RETENTION_DAYS <? days) then Err TxInvalidRequest else Ok days.

Record TransactionRequest : Set := mk_request {
  tr_principal : PrincipalDigest;
  tr_idempotency_key : IdempotencyKey;
  tr_transaction_id : TransactionId;
  tr_canonical_request : list byte;
  tr_blob_inventory : option BlobInventory
}.
Record TransactionOutcome : Set := mk_outcome {
  out_transaction_id : TransactionId;
  out_revision : CommitRevision;
  out_request_digest : list byte;
  out_result_digest : list byte;
  out_expires_at : UtcInstant
}.
#[global] Instance TransactionOutcome_eq_dec : EqDecision TransactionOutcome.
Proof. solve_decision. Defined.
Record RetryKey : Set := mk_retry_key {
  rk_principal : PrincipalDigest;
  rk_key : IdempotencyKey
}.
#[global] Instance RetryKey_eq_dec : EqDecision RetryKey.
Proof. solve_decision. Defined.
#[global] Instance RetryKey_countable : Countable RetryKey.
Proof.
  by apply (inj_countable' (λ k, (rk_principal k, rk_key k)) (λ p, mk_retry_key p.1 p.2)); intros [].
Defined.
Record DecodedGroup : Set := mk_decoded {
  dg_retry_key : RetryKey;
  dg_outcome : TransactionOutcome;
  dg_request : list byte;
  dg_blob_inventory : option BlobInventory
}.

Definition inventory_digest (inventory : option BlobInventory) : list byte :=
  match inventory with Some inventory => inv_digest inventory | None => EMPTY_BLOB_INVENTORY_DIGEST end.
Definition i64_checked_add (a b : Z) : option Z :=
  if (I64_MIN <=? a + b) && (a + b <=? I64_MAX) then Some (a + b) else None.
Definition i64_checked_sub (a b : Z) : option Z :=
  if (I64_MIN <=? a - b) && (a - b <=? I64_MAX) then Some (a - b) else None.
Definition i64_checked_mul (a b : Z) : option Z :=
  if (I64_MIN <=? a * b) && (a * b <=? I64_MAX) then Some (a * b) else None.

Definition expiration (accepted_at : UtcInstant) (retention : Z) : result TxError UtcInstant :=
  delta ← ok_or (i64_checked_mul retention SECONDS_PER_DAY) TxResourceLimit;
  seconds ← ok_or (i64_checked_add (inst_seconds accepted_at) delta) TxResourceLimit;
  ok_or (UtcInstant_new seconds (inst_nanoseconds accepted_at)) TxResourceLimit.

Definition group_array (n : nat) (bytes : list byte) (offset : nat) : result TxError (list byte) :=
  ok_or (read_array n bytes offset) TxIntegrityFailure.
Definition read_instant (bytes : list byte) (seconds_at nanos_at : nat) : result TxError UtcInstant :=
  seconds ← group_array 8 bytes seconds_at;
  nanos ← group_array 4 bytes nanos_at;
  ok_or (UtcInstant_new (of_be_i64 seconds) (of_be_bytes nanos)) TxIntegrityFailure.

(** The offsets of the header are those of the fields before: 4 magic, 6 version,
    8 reserved, 24 namespace, 56 principal, 72 retry key, 88 transaction, 100
    acceptance, 112 expiry, 120 length, 152 and 184 digests, 192 reserved. *)
Definition encode_group (scope : NamespaceRef) (request : TransactionRequest) (accepted_at : UtcInstant)
    (outcome : TransactionOutcome) : result TxError (list byte) :=
  if U64_MAX <? zlen (tr_canonical_request request) then Err TxResourceLimit
  else
    Ok (GROUP_MAGIC ++ [GROUP_MAJOR] ++ [GROUP_MINOR] ++ zeros 2
        ++ as_bytes (ns_namespace scope)
        ++ principal_bytes (tr_principal request)
        ++ as_bytes (tr_idempotency_key request)
        ++ as_bytes (tr_transaction_id request)
        ++ be_i64 (inst_seconds accepted_at) ++ be_bytes 4 (inst_nanoseconds accepted_at)
        ++ be_i64 (inst_seconds (out_expires_at outcome))
        ++ be_bytes 4 (inst_nanoseconds (out_expires_at outcome))
        ++ be_bytes 8 (zlen (tr_canonical_request request))
        ++ out_request_digest outcome ++ out_result_digest outcome ++ zeros 8
        ++ tr_canonical_request request).

Section digests.
Context (sha256 : list byte → list byte).
Definition transaction_request_digest (request blob_inventory_digest : list byte) : list byte :=
  if decide (blob_inventory_digest = EMPTY_BLOB_INVENTORY_DIGEST) then sha256 request
  else
    sha256 (lit "USTE transaction request+blob inventory v1"
            ++ be_bytes 8 (Z.min (zlen request) U64_MAX) ++ request ++ blob_inventory_digest).

(** [matches!(retention_seconds, Some(value) if ...)]. *)
Definition retention_valid (retention_seconds : option Z) : bool :=
  match retention_seconds with
  | Some value =>
      (MIN_RETENTION_DAYS * SECONDS_PER_DAY <=? value) && (value <=? MAX_RETENTION_DAYS * SECONDS_PER_DAY)
      && (Z.rem value SECONDS_PER_DAY =? 0)
  | None => false
  end.
Definition decode_group (scope : NamespaceRef) (bytes : list byte) (revision : CommitRevision)
    (blob_inventory_digest : list byte) (blob_inventory : option BlobInventory) :
    result TxError DecodedGroup :=
  if (length bytes <? GROUP_HEADER_BYTES)%nat
     || negb (bool_decide (slice 0 4 bytes = GROUP_MAGIC))
     || negb (byte_is bytes 4 GROUP_MAJOR) || negb (byte_is bytes 5 GROUP_MINOR)
     || negb (bool_decide (slice 6 2 bytes = zeros 2))
     || negb (bool_decide (slice 8 16 bytes = as_bytes (ns_namespace scope)))
     || negb (all_zero (slice 184 8 bytes))
  then Err TxIntegrityFailure
  else if match blob_inventory with
          | Some inventory => negb (bool_decide (inv_scope inventory = scope))
          | None => false
          end
  then Err TxIntegrityFailure
  else
    request_len ← group_array 8 bytes 112;
    let request_len := of_be_bytes request_len in
    if (request_len =? 0) || (MAX_REQUEST_BYTES <? request_len)
       || negb (bool_decide (checked_add (Z.of_nat GROUP_HEADER_BYTES) request_len = Some (zlen bytes)))
    then Err TxIntegrityFailure
    else
      let request := drop GROUP_HEADER_BYTES bytes in
      request_digest ← group_array 32 bytes 120;
      if negb (bool_decide (inventory_digest blob_inventory = blob_inventory_digest))
         || negb (bool_decide (transaction_request_digest request blob_inventory_digest = request_digest))
      then Err TxIntegrityFailure
      else
        accepted_at ← read_instant bytes 88 96;
        expires_at ← read_instant bytes 100 108;
        let retention_seconds := i64_checked_sub (inst_seconds expires_at) (inst_seconds accepted_at) in
        if negb (inst_nanoseconds expires_at =? inst_nanoseconds accepted_at)
           || negb (retention_valid retention_seconds)
        then Err TxIntegrityFailure
        else
          principal ← group_array 32 bytes 24;
          idempotency_key ← group_array 16 bytes 56;
          transaction_id ← group_array 16 bytes 72;
          result_digest ← group_array 32 bytes 152;
          Ok (mk_decoded (mk_retry_key (PrincipalDigest_from_bytes principal) (from_bytes idempotency_key))
                (mk_outcome (from_bytes transaction_id) revision request_digest result_digest expires_at)
                request blob_inventory).
End digests.

(** ** The group format is exact *)

(** The fixed widths of the fields of a request and an outcome. *)
Definition request_ok (r : TransactionRequest) : Prop :=
  length (principal_bytes (tr_principal r)) = 32%nat ∧ identity_ok (tr_idempotency_key r)
  ∧ identity_ok (tr_transaction_id r).
Definition outcome_ok (o : TransactionOutcome) : Prop :=
  identity_ok (out_transaction_id o) ∧ length (out_request_digest o) = 32%nat
  ∧ length (out_result_digest o) = 32%nat ∧ instant_ok (out_expires_at o).
Definition request_of (d : DecodedGroup) : TransactionRequest :=
  mk_request (rk_principal (dg_retry_key d)) (rk_key (dg_retry_key d)) (out_transaction_id (dg_outcome d))
    (dg_request d) (dg_blob_inventory d).
(** Acceptance and expiry are whole days of retention apart. *)
Definition retained (accepted expires : UtcInstant) (days : Z) : Prop :=
  MIN_RETENTION_DAYS ≤ days ≤ MAX_RETENTION_DAYS ∧ instant_ok accepted ∧ instant_ok expires ∧
  expires = mk_instant (inst_seconds accepted + days * SECONDS_PER_DAY) (inst_nanoseconds accepted).

Lemma expiration_Ok accepted days expires : MIN_RETENTION_DAYS ≤ days ≤ MAX_RETENTION_DAYS → instant_ok accepted →
  expiration accepted days = Ok expires ↔ retained accepted expires days.
Proof.
  intros Hd Ha. destruct Ha as [Hs Hn] eqn:Heq. clear Heq. unfold expiration, i64_checked_mul, i64_checked_add, retained.
  unfold MIN_RETENTION_DAYS, MAX_RETENTION_DAYS, SECONDS_PER_DAY, I64_MIN, I64_MAX in *.
  rewrite (proj2 (andb_true_iff _ _)) by lia. cbn [ok_or]. rewrite result_bind_Ok.
  unfold MIN_EPOCH_SECONDS, MAX_EPOCH_SECONDS in *.
  rewrite (proj2 (andb_true_iff _ _)) by lia. cbn [ok_or]. rewrite result_bind_Ok, ok_or_Ok, instant_new_spec by lia.
  naive_solver.
Qed.
Lemma retention_valid_iff accepted expires : instant_ok accepted → instant_ok expires →
  (inst_nanoseconds expires =? inst_nanoseconds accepted)
  && retention_valid (i64_checked_sub (inst_seconds expires) (inst_seconds accepted)) = true ↔
  ∃ days, retained accepted expires days.
Proof.
  intros Ha He. destruct Ha as [Hs Hn] eqn:Heq, He as [Hs' Hn'] eqn:Heq'. clear Heq Heq'.
  unfold retention_valid, i64_checked_sub, retained, MIN_RETENTION_DAYS, MAX_RETENTION_DAYS, SECONDS_PER_DAY, I64_MIN, I64_MAX.
  unfold MIN_EPOCH_SECONDS, MAX_EPOCH_SECONDS in *.
  rewrite (proj2 (andb_true_iff (_ <=? inst_seconds expires - _) _)) by lia.
  rewrite !andb_true_iff, !Z.leb_le, !Z.eqb_eq. split.
  - intros (Hnn & (Hlo & Hhi) & Hr). exists ((inst_seconds expires - inst_seconds accepted) / 86400).
    rewrite Z.rem_mod_nonneg in Hr by lia.
    pose proof (Z.div_mod (inst_seconds expires - inst_seconds accepted) 86400 ltac:(lia)).
    split_and!; try done; try lia. destruct expires; cbn in *; f_equal; lia.
  - intros (days & Hd & _ & _ & ->). cbn [inst_seconds inst_nanoseconds]. split_and!; try done; try lia.
    replace (_ - _) with (days * 86400) by lia. by rewrite Z.rem_mul.
Qed.
Lemma read_instant_Ok bytes off off' i : (off + 8 ≤ length bytes)%nat → (off' + 4 ≤ length bytes)%nat →
  read_instant bytes off off' = Ok i ↔
  instant_ok i ∧ slice off 8 bytes = be_i64 (inst_seconds i) ∧ slice off' 4 bytes = be_bytes 4 (inst_nanoseconds i).
Proof.
  intros H1 H2. unfold read_instant, group_array. rewrite !read_array_in by done. cbn [ok_or].
  rewrite !result_bind_Ok, ok_or_Ok. pose proof (of_be_slice_range 4 bytes off' H2) as Hr.
  change (256 ^ Z.of_nat 4) with (2 ^ 32) in Hr. rewrite instant_new_spec by lia. split.
  - intros [-> Hok]. cbn [inst_seconds inst_nanoseconds]. split; [done|].
    rewrite be_i64_of_be by (by apply length_slice). by rewrite of_be_slice.
  - intros (Hok & -> & ->). pose proof Hok as [Hs Hn]. unfold MIN_EPOCH_SECONDS, MAX_EPOCH_SECONDS in Hs.
    rewrite of_be_i64_be, of_be_bytes_be; [by destruct i|change (256 ^ Z.of_nat 4) with (2 ^ 32); lia|unfold I64_MIN, I64_MAX; lia].
Qed.

Section digests.
Context (sha256 : list byte → list byte).
(** The groups the coordinator writes. *)
Definition group_ok (scope : NamespaceRef) (revision : CommitRevision) (digest : list byte)
    (inventory : option BlobInventory) (d : DecodedGroup) (accepted : UtcInstant) (days : Z) : Prop :=
  request_ok (request_of d) ∧ outcome_ok (dg_outcome d) ∧ 0 < zlen (dg_request d) ≤ MAX_REQUEST_BYTES
  ∧ dg_blob_inventory d = inventory ∧ (∀ i, inventory = Some i → inv_scope i = scope)
  ∧ inventory_digest inventory = digest ∧ out_revision (dg_outcome d) = revision
  ∧ out_request_digest (dg_outcome d) = transaction_request_digest sha256 (dg_request d) digest
  ∧ retained accepted (out_expires_at (dg_outcome d)) days.

Definition GROUP_WIDTHS : list nat := [4; 1; 1; 2; 16; 32; 16; 16; 8; 4; 8; 4; 8; 32; 32; 8]%nat.
Lemma group_layout bytes : (192 ≤ length bytes)%nat → bytes = concat (slices 0 GROUP_WIDTHS bytes) ++ drop 192 bytes.
Proof.
  intros Hl. rewrite <-(take_drop 192 bytes) at 1. f_equal.
  rewrite (layout_cut GROUP_WIDTHS (take 192 bytes)) at 1 by (rewrite length_take; change (widths_sum GROUP_WIDTHS) with 192%nat; lia).
  change (take 192 bytes) with (slice 0 192 bytes). unfold GROUP_WIDTHS. cbn [slices Nat.add].
  by rewrite !slice_slice by lia.
Qed.
Lemma decode_group_sound scope bytes revision digest inventory d : scope_ok scope →
  decode_group sha256 scope bytes revision digest inventory = Ok d →
  ∃ accepted days, group_ok scope revision digest inventory d accepted days ∧
    encode_group scope (request_of d) accepted (dg_outcome d) = Ok bytes.
Proof.
  intros Hsc. unfold decode_group, GROUP_HEADER_BYTES, group_array.
  destruct (Nat.ltb_spec (length bytes) 192); [done|]. cbn [orb]. rewrite !read_array_in by lia. cbn [ok_or].
  destruct (bool_decide_reflect (slice 0 4 bytes = GROUP_MAGIC)) as [Hm|]; [|done].
  destruct (byte_is bytes 4 _) eqn:Hmaj; [|done]. destruct (byte_is bytes 5 _) eqn:Hmin; [|done].
  destruct (bool_decide_reflect (slice 6 2 bytes = zeros 2)) as [Hr|]; [|done].
  destruct (bool_decide_reflect (slice 8 16 bytes = as_bytes (ns_namespace scope))) as [Hns|]; [|done].
  destruct (all_zero (slice 184 8 bytes)) eqn:Hz; [|done]. cbn [negb orb].
  destruct (match inventory with Some _ => _ | None => _ end) eqn:Hinv; [done|]. rewrite !result_bind_Ok.
  destruct (_ || _) eqn:Hlen; [done|]. apply orb_false_iff in Hlen as [[Hl0%Z.eqb_neq Hl1%Z.ltb_ge]%orb_false_iff Hl2].
  apply negb_false_iff, bool_decide_eq_true in Hl2. unfold checked_add in Hl2.
  destruct (_ <=? _); [|done]. injection Hl2 as Hl2.
  destruct (_ || _) eqn:Hdig; [done|]. apply orb_false_iff in Hdig as [Hd1 Hd2].
  apply negb_false_iff, bool_decide_eq_true in Hd1, Hd2.
  intros (acc & Hacc & (exp & Hexp & Hk)%bind_Ok)%bind_Ok. apply read_instant_Ok in Hacc as (Ha & Ha1 & Ha2); [|lia..].
  apply read_instant_Ok in Hexp as (He & He1 & He2); [|lia..]. rewrite <-negb_andb in Hk.
  destruct (_ && _) eqn:Hret in Hk; [|done]. cbn [negb] in Hk. injection Hk as <-.
  apply retention_valid_iff in Hret as [days Hret]; [|done..]. exists acc, days.
  pose proof (of_be_slice_range 8 bytes 112 ltac:(lia)) as Hrange.
  assert (zlen (drop 192 bytes) = of_be_bytes (slice 112 8 bytes)) as Hzl.
  { unfold zlen in *. rewrite length_drop. lia. }
  split.
  - unfold group_ok, request_ok, outcome_ok, request_of, identity_ok. cbn.
    rewrite !length_slice by lia. split_and!; try done; try lia.
    intros i ->. by apply negb_false_iff, bool_decide_eq_true in Hinv.
  - unfold encode_group, request_of. cbn [tr_canonical_request dg_request tr_principal tr_idempotency_key tr_transaction_id
      rk_principal rk_key dg_retry_key dg_outcome out_transaction_id out_request_digest out_result_digest out_expires_at
      principal_bytes as_bytes].
    rewrite Hzl, (proj2 (Z.ltb_ge _ _)) by (unfold MAX_REQUEST_BYTES, U64_MAX in *; lia). f_equal.
    apply byte_is_slice in Hmaj, Hmin. apply all_zero_iff in Hz. rewrite length_slice in Hz by lia.
    rewrite <-Hm, <-Hmaj, <-Hmin, <-Hr, <-Hns, <-Ha1, <-Ha2, <-He1, <-He2, <-Hz, of_be_slice by lia.
    etrans; [|symmetry; apply group_layout; lia]. unfold GROUP_WIDTHS. cbn [slices concat Nat.add].
    by rewrite <-!app_assoc.
Qed.
Lemma decode_group_complete scope bytes revision digest inventory d accepted days : scope_ok scope →
  group_ok scope revision digest inventory d accepted days →
  encode_group scope (request_of d) accepted (dg_outcome d) = Ok bytes →
  decode_group sha256 scope bytes revision digest inventory = Ok d.
Proof.
  intros [_ Hns] (Hreq & Hout & Hlen & <- & Hsc & <- & <- & Hdig & Hret) He.
  destruct d as [[p k] [t rev qd rd ex] req inv]. unfold request_of, request_ok, outcome_ok, identity_ok in *. cbn in *.
  destruct Hreq as (Hp & Hk & Ht), Hout as (_ & Hqd & Hrd & Hex).
  unfold encode_group in He. cbn [tr_canonical_request tr_principal tr_idempotency_key tr_transaction_id
    out_request_digest out_result_digest out_expires_at] in He.
  rewrite (proj2 (Z.ltb_ge _ _)) in He by (unfold MAX_REQUEST_BYTES, U64_MAX in *; lia).
  match type of He with Ok ?b = _ => assert (bytes = b) as Hbytes by congruence end. clear He.
  assert (length bytes = 192 + length req)%nat as Hbl.
  { rewrite Hbytes. rewrite !length_app, !length_zeros. unfold be_i64. rewrite !length_be_bytes, Hns, Hp, Hk, Ht, Hqd, Hrd.
    cbn. lia. }
  assert (drop 192 bytes = req) as Hdrop.
  { rewrite Hbytes, !app_assoc, drop_app_length'; [done|]. rewrite <-!app_assoc.
    rewrite !length_app, !length_zeros. unfold be_i64. by rewrite !length_be_bytes, Hns, Hp, Hk, Ht, Hqd, Hrd. }
  unfold decode_group, GROUP_HEADER_BYTES, group_array.
  rewrite (proj2 (Nat.ltb_ge _ _)), !read_array_in by lia. cbn [ok_or orb]. rewrite Hdrop.
  assert (∀ off n v, slice off n bytes = v → slice off n bytes = v) as Hs by done.
  rewrite (Hs 0 4 GROUP_MAGIC)%nat by (rewrite Hbytes; by repeat step_slice).
  rewrite (proj2 (byte_is_slice bytes 4 GROUP_MAJOR)) by (rewrite Hbytes; by repeat step_slice).
  rewrite (proj2 (byte_is_slice bytes 5 GROUP_MINOR)) by (rewrite Hbytes; by repeat step_slice).
  rewrite (Hs 6 2 (zeros 2))%nat by (rewrite Hbytes; by repeat step_slice).
  rewrite (Hs 8 16 (as_bytes (ns_namespace scope)))%nat by (rewrite Hbytes; by repeat step_slice).
  rewrite (Hs 184 8 (zeros 8))%nat by (rewrite Hbytes; by repeat step_slice).
  rewrite (Hs 112 8 (be_bytes 8 (zlen req)))%nat by (rewrite Hbytes; by repeat step_slice).
  rewrite (Hs 120 32 qd)%nat by (rewrite Hbytes; by repeat step_slice).
  rewrite (Hs 24 32 (principal_bytes p))%nat by (rewrite Hbytes; by repeat step_slice).
  rewrite (Hs 56 16 (as_bytes k))%nat by (rewrite Hbytes; by repeat step_slice).
  rewrite (Hs 72 16 (as_bytes t))%nat by (rewrite Hbytes; by repeat step_slice).
  rewrite (Hs 152 32 rd)%nat by (rewrite Hbytes; by repeat step_slice).
  rewrite !bool_decide_true, all_zero_zeros by done. cbn [negb orb].
  destruct (match inv with Some _ => _ | None => _ end) eqn:Hinv.
  { destruct inv as [i|]; [|done]. by rewrite bool_decide_true in Hinv by by apply Hsc. }
  rewrite !result_bind_Ok, of_be_bytes_be by
    (unfold MAX_REQUEST_BYTES in Hlen; change (256 ^ Z.of_nat 8) with (2 ^ 64); lia).
  rewrite (proj2 (Z.eqb_neq _ _)), (proj2 (Z.ltb_ge _ _)) by lia. unfold checked_add.
  rewrite (proj2 (Z.leb_le _ _)) by (unfold MAX_REQUEST_BYTES, U64_MAX in *; lia).
  rewrite bool_decide_true by (f_equal; unfold zlen; lia). cbn [negb orb].
  rewrite <-Hdig, !bool_decide_true by done. cbn [negb orb].
  pose proof Hret as (Hdays & Ha & _ & Hexp).
  rewrite (proj2 (read_instant_Ok bytes 88 96 accepted ltac:(lia) ltac:(lia))), result_bind_Ok
    by (split_and!; [done|rewrite Hbytes; by repeat step_slice..]).
  rewrite (proj2 (read_instant_Ok bytes 100 108 ex ltac:(lia) ltac:(lia))), result_bind_Ok
    by (split_and!; [done|rewrite Hbytes; by repeat step_slice..]).
  rewrite <-negb_andb, (proj2 (retention_valid_iff accepted ex Ha Hex)) by (by exists days). cbn [negb].
  by destruct p, k, t.
Qed.

(** C30: the transaction group format is exact.  Bytes decode to a group - retry
    key, outcome, request and inventory - exactly when the group satisfies the
    coordinator's bounds and the bytes are its encoding, so a replayed group is the
    one that was committed and nothing else is accepted. *)
Theorem decode_group_iff_encode scope bytes revision digest inventory d : scope_ok scope →
  decode_group sha256 scope bytes revision digest inventory = Ok d ↔
  ∃ accepted days, group_ok scope revision digest inventory d accepted days ∧
    encode_group scope (request_of d) accepted (dg_outcome d) = Ok bytes.
Proof.
  intros Hsc. split; [by apply decode_group_sound|].
  intros (accepted & days & Hok & He). by apply (decode_group_complete _ _ _ _ _ _ accepted days).
Qed.
End digests.

Definition sample_digest32 (b : list byte) : list byte := take 32 (b ++ zeros 32).
Definition sample_txn_scope : NamespaceRef :=
  NamespaceRef_new (from_bytes (be_bytes 16 1)) (from_bytes (be_bytes 16 2)).
Definition sample_group : DecodedGroup :=
  mk_decoded (mk_retry_key (PrincipalDigest_from_bytes (be_bytes 32 7)) (from_bytes (be_bytes 16 8)))
    (mk_outcome (from_bytes (be_bytes 16 9)) 4 (sample_digest32 (lit "request")) (be_bytes 32 10)
       (mk_instant (1700000000 + 30 * 86400) 5))
    (lit "request") None.
Lemma decode_group_iff_encode_witness :
  ∃ bytes, encode_group sample_txn_scope (request_of sample_group) (mk_instant 1700000000 5) (dg_outcome sample_group) = Ok bytes ∧
    decode_group sample_digest32 sample_txn_scope bytes 4 EMPTY_BLOB_INVENTORY_DIGEST None = Ok sample_group.
Proof.
  eexists. split; [vm_compute; reflexivity|].
  apply (decode_group_iff_encode sample_digest32 sample_txn_scope); [done|].
  exists (mk_instant 1700000000 5), 30. split; [|vm_compute; reflexivity].
  unfold group_ok, request_ok, outcome_ok, retained, instant_ok. split_and!; done.
Defined.
