(* ===== verification/TxnCoordinator.v ===== *)
(** * The commit coordinator

    Models [CommitCoordinator] of [crates/uste-txn/src/lib.rs] and
    [commit_admission.rs]: admission, commit, replay and the ways to reopen.  The
    domain reducer is the class [TransactionState], the journal the class
    [JournalStore].  A panic of the reducer is the [None] of an [option]. *)
From S2P Require Import Prelude Ids Policy GraphState GraphCheckpoint GraphQuery Storage Blob Journal TxnGroup.

(** ** Reducers *)
Class TransactionState (S : Type) := {
  Prepared : Type;
  Snapshot : Type;
  state_prepare : S → list byte → option BlobInventory → CommitRevision → option (result ApplyError Prepared);
  state_result_digest : Prepared → list byte;
  state_publish : Prepared → S → option S;
  state_snapshot : S → Snapshot
}.
Class ExternallyPreparedTransactionState (S : Type) `{TransactionState S} := {
  state_validate_external_prepared :
    S → list byte → option BlobInventory → CommitRevision → Prepared → result ApplyError unit
}.
Class JournalAnchoredTransactionState (S : Type) := {
  state_journal_base_anchor : S → result ApplyError (NamespaceRef * CommitRevision * list byte)
}.
Class CheckpointState (S : Type) := {
  REDUCER_PROFILE : list byte;
  current_checkpoint_scope : S → NamespaceRef;
  current_checkpoint_revision : S → option CommitRevision;
  current_logical_state_digest : S → result CheckpointStateError (list byte)
}.

(** ** Metadata maps *)
Abbreviation OutcomeMap := (gmap RetryKey TransactionOutcome).
Abbreviation TransactionMap := (gmap TransactionId (PrincipalDigest * TransactionOutcome)).
Abbreviation OwnerMap := (gmap (NamespaceRef * BlobId) (BlobReference * PrincipalDigest)).
Definition owner_key (reference : BlobReference) : NamespaceRef * BlobId := (blob_scope reference, blob_id reference).
Definition inventory_references (inventory : option BlobInventory) : list BlobReference :=
  match inventory with Some inventory => inv_references inventory | None => [] end.
(** [owners.entry(key).or_insert((reference, principal))]. *)
Definition own_first (principal : PrincipalDigest) (owners : OwnerMap) (reference : BlobReference) : OwnerMap :=
  match owners !! owner_key reference with
  | Some _ => owners
  | None => <[owner_key reference := (reference, principal)]> owners
  end.
Definition own_all (principal : PrincipalDigest) (references : list BlobReference) (owners : OwnerMap) : OwnerMap :=
  foldl (own_first principal) owners references.

Record CoordinatorRecoveryLimits : Set := mk_recovery_limits {
  maximum_outcomes : Z;
  maximum_blob_owners : Z
}.
Definition CoordinatorRecoveryLimits_new (outcomes owners : Z) : result TxError CoordinatorRecoveryLimits :=
  if (MAX_OUTCOMES_PER_NAMESPACE <? outcomes) || (MAX_COMMITTED_BLOBS_PER_JOURNAL <? owners)
  then Err TxResourceLimit else Ok (mk_recovery_limits outcomes owners).
Definition CoordinatorRecoveryLimits_default : CoordinatorRecoveryLimits :=
  mk_recovery_limits MAX_OUTCOMES_PER_NAMESPACE MAX_COMMITTED_BLOBS_PER_JOURNAL.

(** [DiskCommitMetadata]: the answers of the disk base to the lookups of one
    commit, and the limits of the overlay. *)
Record DiskCommitMetadata {Limits : Type} := mk_disk_metadata {
  retry_from_journal : PrincipalDigest → IdempotencyKey → result TxError (option TransactionOutcome);
  transaction_from_journal : TransactionId → result TxError (option (PrincipalDigest * TransactionOutcome));
  owner_from_journal : BlobId → result TxError (option (BlobReference * PrincipalDigest));
  base_revision : CommitRevision;
  overlay : CoordinatorRecoveryLimits;
  storage : option Limits
}.
Arguments DiskCommitMetadata : clear implicits.

(** ** Errors *)
Definition map_apply_error (error : ApplyError) : TxError :=
  match error with
  | ApplyError.Conflict => TxConflict
  | ApplyError.SourceChanged => TxSourceChanged
  | ApplyError.InvalidRequest => TxInvalidRequest
  | ApplyError.ResourceLimit => TxResourceLimit
  | ApplyError.UnsupportedPredicate => TxUnsupportedPredicate
  end.
Definition map_commit_error (error : StorageError) : TxError :=
  match error with
  | StorageError.ResourceLimit => TxResourceLimit
  | StorageError.RevisionExhausted => TxRevisionExhausted
  | _ => TxOutcomeUnknown
  end.
Definition map_open_error (error : StorageError) : TxError :=
  match error with
  | StorageError.IntegrityFailure => TxIntegrityFailure
  | other => TxStorage other
  end.

Section coordinator.
Context {S J F : Type} `{TransactionState S, JournalStore J F} (sha256 : list byte → list byte).

Record CommitCoordinator := mk_commit_coordinator {
  cc_scope : NamespaceRef;
  cc_retention : Z;
  cc_journal : J;
  cc_state : S;
  cc_outcomes : OutcomeMap;
  cc_transactions : TransactionMap;
  cc_committed_blob_owners : OwnerMap;
  cc_recovered : bool;
  cc_uncertain : bool
}.
Definition set_journal (co : CommitCoordinator) (journal : J) (uncertain : bool) : CommitCoordinator :=
  mk_commit_coordinator (cc_scope co) (cc_retention co) journal (cc_state co) (cc_outcomes co) (cc_transactions co)
    (cc_committed_blob_owners co) (cc_recovered co) uncertain.

(** ** Admission *)
Record FreshCommitAdmission : Set := mk_fresh {
  fa_accepted_at : UtcInstant;
  fa_expires_at : UtcInstant;
  fa_revision : CommitRevision;
  fa_request_digest : list byte;
  fa_retry_key : RetryKey;
  fa_new_owners : list BlobReference
}.
Inductive CommitAdmission : Set :=
| Retry (outcome : TransactionOutcome)
| Fresh (admission : FreshCommitAdmission).

(** The loop that resolves first ownership against overlay and disk base. *)
Definition owner_of (co : CommitCoordinator) (disk : DiskCommitMetadata (@DiskBlobAppendLimits J F _))
    (reference : BlobReference) : result TxError (option (BlobReference * PrincipalDigest)) :=
  match cc_committed_blob_owners co !! owner_key reference with
  | Some owner => Ok (Some owner)
  | None => owner_from_journal disk (blob_id reference)
  end.
Definition admit_owner (co : CommitCoordinator) (disk : DiskCommitMetadata (@DiskBlobAppendLimits J F _))
    (new_owners : list BlobReference) (reference : BlobReference) : result TxError (list BlobReference) :=
  owner ← owner_of co disk reference;
  match owner with
  | Some (committed, _) =>
      if decide (committed = reference) then Ok new_owners else Err TxIntegrityFailure
  | None =>
      match checked_add (map_len (cc_committed_blob_owners co)) (zlen new_owners) with
      | Some count =>
          if maximum_blob_owners (overlay disk) <=? count then Err TxResourceLimit
          else Ok (new_owners ++ [reference])
      | None => Err TxResourceLimit
      end
  end.
Definition retry_or_conflict (previous : TransactionOutcome) (request : TransactionRequest)
    (request_digest : list byte) (accepted_at : UtcInstant) : result TxError CommitAdmission :=
  if negb (instant_lt accepted_at (out_expires_at previous)) then Err TxIdempotencyExpired
  else if bool_decide (out_request_digest previous = request_digest)
          && bool_decide (out_transaction_id previous = tr_transaction_id request)
  then Ok (Retry previous)
  else Err TxConflict.
(** The disk part of the checks between the retry lookup and cancellation. *)
Definition admit_disk (co : CommitCoordinator) (request : TransactionRequest)
    (disk : option (DiskCommitMetadata (@DiskBlobAppendLimits J F _))) : result TxError unit :=
  match disk with
  | None => Ok tt
  | Some disk =>
      known ← transaction_from_journal disk (tr_transaction_id request);
      match known with
      | Some _ => Err TxConflict
      | None =>
          if (maximum_outcomes (overlay disk) <=? map_len (cc_outcomes co))
             || match checked_add (base_revision disk) (map_len (cc_outcomes co)) with
                | Some count => MAX_OUTCOMES_PER_NAMESPACE <=? count
                | None => true
                end
          then Err TxResourceLimit else Ok tt
      end
  end.
Definition admit_new_owners (co : CommitCoordinator) (request : TransactionRequest)
    (disk : option (DiskCommitMetadata (@DiskBlobAppendLimits J F _))) : result TxError (list BlobReference) :=
  match disk with
  | None => Ok []
  | Some disk =>
      new_owners ← try_fold (admit_owner co disk) (inventory_references (tr_blob_inventory request)) [];
      match checked_add (map_len (cc_committed_blob_owners co)) (zlen new_owners) with
      | Some count => if maximum_blob_owners (overlay disk) <? count then Err TxResourceLimit else Ok new_owners
      | None => Err TxResourceLimit
      end
  end.
(** The two guards on the shape of the request. *)
Definition invalid_request (co : CommitCoordinator) (request : TransactionRequest) : bool :=
  match tr_canonical_request request with [] => true | _ => false end
  || (MAX_REQUEST_BYTES <? zlen (tr_canonical_request request))
  || match tr_blob_inventory request with Some inventory => inventory_is_empty inventory | None => false end
  || match tr_blob_inventory request with
     | Some inventory => negb (bool_decide (inv_scope inventory = cc_scope co))
     | None => false
     end.
(** [admit_commit]; [observed] is the clock's answer, [cancelled] the first
    answer of the cancellation source. *)
Definition admit_commit (co : CommitCoordinator) (request : TransactionRequest) (observed : option UtcInstant)
    (cancelled : bool) (disk : option (DiskCommitMetadata (@DiskBlobAppendLimits J F _))) :
    result TxError CommitAdmission :=
  if cc_uncertain co then Err TxOutcomeUnknown
  else if invalid_request co request then Err TxInvalidRequest
  else
    let request_digest := transaction_request_digest sha256 (tr_canonical_request request)
                            (inventory_digest (tr_blob_inventory request)) in
    accepted_at ← ok_or observed TxRetryableUnavailable;
    let retry_key := mk_retry_key (tr_principal request) (tr_idempotency_key request) in
    previous ← match cc_outcomes co !! retry_key, disk with
               | None, Some disk => retry_from_journal disk (tr_principal request) (tr_idempotency_key request)
               | previous, _ => Ok previous
               end;
    match previous with
    | Some previous => retry_or_conflict previous request request_digest accepted_at
    | None =>
        if bool_decide (is_Some (cc_transactions co !! tr_transaction_id request)) then Err TxConflict
        else
          admit_disk co request disk;;
          if MAX_OUTCOMES_PER_NAMESPACE <=? map_len (cc_outcomes co) then Err TxResourceLimit
          else if cancelled then Err TxCancelled
          else
            new_owners ← admit_new_owners co request disk;
            revision ← match journal_frontier (cc_journal co) with
                       | Some revision => map_err (λ _, TxRevisionExhausted) (CommitRevision_checked_next revision)
                       | None => Ok CommitRevision_FIRST
                       end;
            expires_at ← expiration accepted_at (cc_retention co);
            Ok (Fresh (mk_fresh accepted_at expires_at revision request_digest retry_key new_owners))
    end.

(** ** Commit *)
Definition append_commit (co : CommitCoordinator) (fs : F) (request : TransactionRequest)
    (disk : option (DiskCommitMetadata (@DiskBlobAppendLimits J F _))) (input : CommitInput) :
    J * F * result StorageError DurableCommit :=
  match tr_blob_inventory request with
  | Some inventory =>
      if negb (inventory_is_empty inventory) then
        match disk ≫= storage with
        | Some limits => journal_append_group_with_disk_inventory (cc_journal co) fs input inventory limits
        | None => journal_append_group_with_inventory (cc_journal co) fs input inventory
        end
      else journal_append_group (cc_journal co) fs input
  | None => journal_append_group (cc_journal co) fs input
  end.
(** The coordinator after a durable append: state published, outcome, transaction
    and blob owners recorded. *)
Definition publish_commit (co : CommitCoordinator) (journal : J) (state : S) (request : TransactionRequest)
    (admission : FreshCommitAdmission) (outcome : TransactionOutcome) (using_disk : bool) : CommitCoordinator :=
  let owners := foldl (λ owners reference, <[owner_key reference := (reference, tr_principal request)]> owners)
                  (cc_committed_blob_owners co) (fa_new_owners admission) in
  let owners := if using_disk then owners
                else own_all (tr_principal request) (inventory_references (tr_blob_inventory request)) owners in
  mk_commit_coordinator (cc_scope co) (cc_retention co) journal state
    (<[fa_retry_key admission := outcome]> (cc_outcomes co))
    (<[tr_transaction_id request := (tr_principal request, outcome)]> (cc_transactions co))
    owners (cc_recovered co) (cc_uncertain co).
(** [commit_with_preparation]; [cancelled] are the two answers of the cancellation
    source, at admission and before the append. *)
Definition commit_with_preparation (co : CommitCoordinator) (fs : F) (request : TransactionRequest)
    (observed : option UtcInstant) (cancelled : bool * bool)
    (disk : option (DiskCommitMetadata (@DiskBlobAppendLimits J F _)))
    (prepare : S → CommitRevision → option (result ApplyError Prepared)) :
    option (CommitCoordinator * F * result TxError TransactionOutcome) :=
  match admit_commit co request observed cancelled.1 disk with
  | Err error => Some (co, fs, Err error)
  | Ok (Retry outcome) => Some (co, fs, Ok outcome)
  | Ok (Fresh admission) =>
      if bool_decide (is_Some (tr_blob_inventory request)) && bool_decide (is_Some (disk ≫= storage))
         && journal_blob_metadata_resident (cc_journal co)
      then Some (co, fs, Err TxInvalidRequest)
      else
        match prepare (cc_state co) (fa_revision admission) with
        | None => None
        | Some (Err error) => Some (co, fs, Err (map_apply_error error))
        | Some (Ok prepared) =>
            let result_digest := state_result_digest prepared in
            if cancelled.2 then Some (co, fs, Err TxCancelled)
            else
              let outcome := mk_outcome (tr_transaction_id request) (fa_revision admission)
                               (fa_request_digest admission) result_digest (fa_expires_at admission) in
              match encode_group (cc_scope co) request (fa_accepted_at admission) outcome with
              | Err error => Some (co, fs, Err error)
              | Ok group =>
                  match append_commit co fs request disk (mk_commit_input group (sha256 group)) with
                  | (journal, fs, Err error) =>
                      let error := map_commit_error error in
                      let uncertain := match error with TxOutcomeUnknown => true | _ => cc_uncertain co end in
                      Some (set_journal co journal uncertain, fs, Err error)
                  | (journal, fs, Ok _) =>
                      state ← state_publish prepared (cc_state co);
                      Some (publish_commit co journal state request admission outcome
                              (bool_decide (is_Some disk)), fs, Ok outcome)
                  end
              end
        end
  end.
Definition commit (co : CommitCoordinator) (fs : F) (request : TransactionRequest)
    (observed : option UtcInstant) (cancelled : bool * bool) :
    option (CommitCoordinator * F * result TxError TransactionOutcome) :=
  commit_with_preparation co fs request observed cancelled None
    (λ state revision, state_prepare state (tr_canonical_request request) (tr_blob_inventory request) revision).
Definition commit_prepared `{!ExternallyPreparedTransactionState S} (co : CommitCoordinator) (fs : F)
    (request : TransactionRequest) (prepared : Prepared) (observed : option UtcInstant) (cancelled : bool * bool) :
    option (CommitCoordinator * F * result TxError TransactionOutcome) :=
  commit_with_preparation co fs request observed cancelled None
    (λ state revision,
       Some (state_validate_external_prepared state (tr_canonical_request request) (tr_blob_inventory request)
               revision prepared;; Ok prepared)).

(** ** Outcomes *)
Definition unexpired (now : UtcInstant) (outcome : option TransactionOutcome) :
    result TxError (option TransactionOutcome) :=
  match outcome with
  | Some outcome' => if negb (instant_lt now (out_expires_at outcome')) then Err TxIdempotencyExpired else Ok outcome
  | None => Ok None
  end.
Definition coordinator_outcome (co : CommitCoordinator) (principal : PrincipalDigest) (key : IdempotencyKey)
    (observed : option UtcInstant) : result TxError (option TransactionOutcome) :=
  if cc_uncertain co then Err TxOutcomeUnknown
  else
    now ← ok_or observed TxRetryableUnavailable;
    unexpired now (cc_outcomes co !! mk_retry_key principal key).
Definition transaction_outcome (co : CommitCoordinator) (transaction_id : TransactionId)
    (observed : option UtcInstant) : result TxError (option TransactionOutcome) :=
  if cc_uncertain co then Err TxOutcomeUnknown
  else
    now ← ok_or observed TxRetryableUnavailable;
    unexpired now (snd <$> cc_transactions co !! transaction_id).
Definition transaction_outcome_for (co : CommitCoordinator) (principal : PrincipalDigest)
    (transaction_id : TransactionId) (observed : option UtcInstant) :
    result TxError (option TransactionOutcome) :=
  if cc_uncertain co then Err TxOutcomeUnknown
  else
    now ← ok_or observed TxRetryableUnavailable;
    unexpired now
      (match cc_transactions co !! transaction_id with
       | Some (owner, outcome) => if decide (owner = principal) then Some outcome else None
       | None => None
       end).
Definition committed_blob_owner (co : CommitCoordinator) (reference : BlobReference) : option PrincipalDigest :=
  match cc_committed_blob_owners co !! owner_key reference with
  | Some (committed, principal) => if decide (committed = reference) then Some principal else None
  | None => None
  end.
Record ReadView := mk_txn_view { rv_revision : option CommitRevision; rv_snapshot : Snapshot }.
Definition read_view (co : CommitCoordinator) : result TxError ReadView :=
  if cc_uncertain co then Err TxOutcomeUnknown
  else Ok (mk_txn_view (journal_frontier (cc_journal co)) (state_snapshot (cc_state co))).

(** ** Replay *)
Record Recovery := mk_recovery {
  rc_state : S;
  rc_outcomes : OutcomeMap;
  rc_transactions : TransactionMap;
  rc_owners : OwnerMap
}.
Definition decode_recovered_group (scope : NamespaceRef) (group : RecoveredGroup) : result StorageError DecodedGroup :=
  if negb (bool_decide (sha256 (rg_encoded_group group) = rg_logical_event_digest group))
  then Err StorageError.IntegrityFailure
  else
    map_err (λ error, match error with TxResourceLimit => StorageError.ResourceLimit | _ => StorageError.IntegrityFailure end)
      (decode_group sha256 scope (rg_encoded_group group) (rg_revision group) (rg_blob_inventory_digest group)
         (rg_blob_inventory group)).
Definition record_decoded_group_metadata (r : Recovery) (decoded : DecodedGroup) : result StorageError Recovery :=
  let principal := rk_principal (dg_retry_key decoded) in
  let outcome := dg_outcome decoded in
  if MAX_OUTCOMES_PER_NAMESPACE <=? map_len (rc_outcomes r) then Err StorageError.ResourceLimit
  else if bool_decide (is_Some (rc_outcomes r !! dg_retry_key decoded))
          || bool_decide (is_Some (rc_transactions r !! out_transaction_id outcome))
  then Err StorageError.IntegrityFailure
  else
    Ok (mk_recovery (rc_state r) (<[dg_retry_key decoded := outcome]> (rc_outcomes r))
          (<[out_transaction_id outcome := (principal, outcome)]> (rc_transactions r))
          (own_all principal (inventory_references (dg_blob_inventory decoded)) (rc_owners r))).
Definition with_state (r : Recovery) (state : S) : Recovery :=
  mk_recovery state (rc_outcomes r) (rc_transactions r) (rc_owners r).
Definition replay_group (scope : NamespaceRef) (r : Recovery) (group : RecoveredGroup) :
    option (result StorageError Recovery) :=
  match decode_recovered_group scope group with
  | Err error => Some (Err error)
  | Ok decoded =>
      match state_prepare (rc_state r) (dg_request decoded) (dg_blob_inventory decoded) (rg_revision group) with
      | None => None
      | Some (Err _) => Some (Err StorageError.IntegrityFailure)
      | Some (Ok prepared) =>
          if negb (bool_decide (state_result_digest prepared = out_result_digest (dg_outcome decoded)))
          then Some (Err StorageError.IntegrityFailure)
          else
            match record_decoded_group_metadata r decoded with
            | Err error => Some (Err error)
            | Ok r => state ← state_publish prepared (rc_state r); Some (Ok (with_state r state))
            end
      end
  end.
Definition recovered_coordinator (scope : NamespaceRef) (retention : Z) (journal : J) (r : Recovery) : CommitCoordinator :=
  mk_commit_coordinator scope retention journal (rc_state r) (rc_outcomes r) (rc_transactions r) (rc_owners r) true false.
(** [open]. *)
Definition coordinator_open (fs : F) (scope : NamespaceRef) (retention : Z) (initial_state : S) :
    option (F * result TxError (CommitCoordinator * RecoveryReport)) :=
  '(fs, opened) ← journal_open fs (replay_group scope) (mk_recovery initial_state ∅ ∅ ∅);
  Some (fs, '(journal, report, r) ← map_err map_open_error opened;
            Ok (recovered_coordinator scope retention journal r, report)).
(** [create], after the journal exists. *)
Definition coordinator_create (scope : NamespaceRef) (retention : Z) (journal : J) (initial_state : S) :
    CommitCoordinator :=
  mk_commit_coordinator scope retention journal initial_state ∅ ∅ ∅ false false.
End coordinator.
