(* ===== verification/TxnGuarantees.v ===== *)
(** * What the coordinator guarantees

    A coordinator's memory is always the replay of its durable log.  The theorems
    are proved against the promises of the journal ([JournalLaws]) and of the
    reducer ([TransactionStateLaws]). *)
From S2P Require Import Prelude Ids Policy GraphState GraphCheckpoint GraphQuery Storage Blob Journal TxnGroup TxnCoordinator.

(** What the reducer promises: from a valid state, publishing what it prepared
    does not panic and keeps the state valid; digests have the width of the type. *)
Class TransactionStateLaws (S : Type) `{TransactionState S} := {
  reducer_valid : S → Prop;
  prepared_publishes s request inventory revision p : reducer_valid s →
    state_prepare s request inventory revision = Some (Ok p) → ∃ s', state_publish p s = Some s' ∧ reducer_valid s';
  result_digest_width s request inventory revision p :
    state_prepare s request inventory revision = Some (Ok p) → length (state_result_digest p) = 32%nat
}.

Section facts.
Context {S J F : Type} `{TransactionStateLaws S, JournalLaws J F} (sha256 : list byte → list byte).
Context (sha256_width : ∀ bytes, length (sha256 bytes) = 32%nat).
Implicit Types (co : CommitCoordinator (S := S) (J := J)) (log : list RecoveredGroup) (fs : F).

(** ** Memory is the replay of the log *)
Definition empty_recovery (init : S) : Recovery (S := S) := mk_recovery init ∅ ∅ ∅.
Definition replays (scope : NamespaceRef) (init : S) log (r : Recovery) : Prop :=
  visit_all (replay_group sha256 scope) log (empty_recovery init) = Some (Ok r).
Definition memory co : Recovery :=
  mk_recovery (cc_state co) (cc_outcomes co) (cc_transactions co) (cc_committed_blob_owners co).
Definition retention_ok (days : Z) : Prop := MIN_RETENTION_DAYS ≤ days ≤ MAX_RETENTION_DAYS.
(** A coordinator that knows the outcome of everything it started. *)
Definition certain_inv (init : S) co fs log : Prop :=
  cc_uncertain co = false ∧ reducer_valid init ∧ scope_ok (cc_scope co) ∧ retention_ok (cc_retention co)
  ∧ owns (cc_journal co) fs log ∧ replays (cc_scope co) init log (memory co).

Lemma replay_group_state scope r g r' : replay_group sha256 scope r g = Some (Ok r') →
  ∃ d p, decode_recovered_group sha256 scope g = Ok d ∧
    state_prepare (rc_state r) (dg_request d) (dg_blob_inventory d) (rg_revision g) = Some (Ok p) ∧
    state_publish p (rc_state r) = Some (rc_state r').
Proof.
  unfold replay_group. destruct (decode_recovered_group _ _ _) as [d|] eqn:Hd; [|done].
  destruct (state_prepare _ _ _ _) as [[p|]|] eqn:Hp; [|done..]. destruct (negb _); [done|].
  destruct (record_decoded_group_metadata r d) as [r1|] eqn:Hr; [|done].
  assert (rc_state r1 = rc_state r) as ->.
  { unfold record_decoded_group_metadata in Hr. case_match; [done|]. case_match; [done|]. by injection Hr as <-. }
  intros (s & Hs & [= <-])%bind_Some. by exists d, p.
Qed.
Lemma replays_valid scope init log r : reducer_valid init → replays scope init log r → reducer_valid (rc_state r).
Proof.
  intros Hv. unfold replays. revert r. induction log as [|g log IH] using rev_ind; intros r Hr; [by injection Hr as <-|].
  rewrite visit_all_app in Hr. destruct (visit_all _ log _) as [[r1|]|]; [|done..]. specialize (IH r1 eq_refl).
  cbn in Hr. destruct (replay_group _ _ _ _) as [[r2|]|] eqn:Hg; [|done..]. injection Hr as ->.
  apply replay_group_state in Hg as (d & p & _ & Hp & Hpub).
  destruct (prepared_publishes _ _ _ _ _ IH Hp) as (s' & Hs' & Hv'). congruence.
Qed.
Lemma transaction_request_digest_width request digest :
  length (transaction_request_digest sha256 request digest) = 32%nat.
Proof. unfold transaction_request_digest. case_decide; apply sha256_width. Qed.

(** ** Admission *)
Lemma valid_request co request : invalid_request co request = false →
  0 < zlen (tr_canonical_request request) ∧ zlen (tr_canonical_request request) ≤ MAX_REQUEST_BYTES
  ∧ ∀ i, tr_blob_inventory request = Some i → inv_scope i = cc_scope co ∧ inv_references i ≠ [].
Proof.
  unfold invalid_request. rewrite !orb_false_iff. intros (((Hne & Hmax%Z.ltb_ge) & Hempty) & Hsc). split_and!; [|done|].
  - destruct (tr_canonical_request request) as [|b bs]; [done|]. rewrite zlen_cons. pose proof (zlen_nonneg bs). lia.
  - intros i Hi. rewrite Hi in Hsc, Hempty. apply negb_false_iff, bool_decide_eq_true in Hsc. split; [done|].
    unfold inventory_is_empty in Hempty. by destruct (inv_references i).
Qed.
Lemma admit_fresh co request observed cancelled admission :
  admit_commit sha256 co request observed cancelled None = Ok (Fresh admission) →
  cc_uncertain co = false ∧ 0 < zlen (tr_canonical_request request) ≤ MAX_REQUEST_BYTES
  ∧ (∀ i, tr_blob_inventory request = Some i → inv_scope i = cc_scope co ∧ inv_references i ≠ [])
  ∧ observed = Some (fa_accepted_at admission) ∧ fa_new_owners admission = []
  ∧ fa_request_digest admission =
      transaction_request_digest sha256 (tr_canonical_request request) (inventory_digest (tr_blob_inventory request))
  ∧ fa_retry_key admission = mk_retry_key (tr_principal request) (tr_idempotency_key request)
  ∧ cc_outcomes co !! fa_retry_key admission = None
  ∧ cc_transactions co !! tr_transaction_id request = None
  ∧ map_len (cc_outcomes co) < MAX_OUTCOMES_PER_NAMESPACE
  ∧ cancelled = false
  ∧ fa_revision admission = revision_after (journal_frontier (cc_journal co))
  ∧ expiration (fa_accepted_at admission) (cc_retention co) = Ok (fa_expires_at admission).
Proof.
  unfold admit_commit. destruct (cc_uncertain co); [done|].
  destruct (invalid_request co request) eqn:Hval; [done|]. apply valid_request in Hval as (Hpos & Hmax & Hvinv).
  intros (accepted & ->%ok_or_Ok & (previous & Hprev & Hk)%bind_Ok)%bind_Ok.
  destruct (cc_outcomes co !! _) as [out|] eqn:Hout; injection Hprev as <-.
  { unfold retry_or_conflict in Hk. by repeat case_match. }
  case_bool_decide as Htx; [done|]. cbn [admit_disk admit_new_owners] in Hk. rewrite !result_bind_Ok in Hk.
  destruct (Z.leb_spec MAX_OUTCOMES_PER_NAMESPACE (map_len (cc_outcomes co))); [done|].
  destruct cancelled; [done|].
  apply bind_Ok in Hk as (rev & Hrev & (exp & Hexp & [= <-])%bind_Ok).
  cbn [fa_accepted_at fa_expires_at fa_revision fa_request_digest fa_retry_key fa_new_owners].
  split_and!; try done.
  - destruct (cc_transactions co !! _); [|done]. by destruct Htx.
  - unfold revision_after. destruct (journal_frontier (cc_journal co)) as [r|]; [|by injection Hrev as <-].
    apply map_err_Ok in Hrev. unfold CommitRevision_checked_next, checked_add, CommitRevision_new in Hrev.
    destruct (_ <=? _); [|done]. destruct (_ =? _); [done|]. by injection Hrev as <-.
Qed.
Lemma expiration_Err accepted days e : expiration accepted days = Err e → e = TxResourceLimit.
Proof.
  unfold expiration. destruct (i64_checked_mul _ _); cbn; [|congruence].
  destruct (i64_checked_add _ _); cbn; [|congruence]. destruct (UtcInstant_new _ _); cbn; congruence.
Qed.
Lemma admit_retry co request observed cancelled outcome :
  admit_commit sha256 co request observed cancelled None = Ok (Retry outcome) →
  cc_outcomes co !! mk_retry_key (tr_principal request) (tr_idempotency_key request) = Some outcome
  ∧ out_transaction_id outcome = tr_transaction_id request
  ∧ out_request_digest outcome =
      transaction_request_digest sha256 (tr_canonical_request request) (inventory_digest (tr_blob_inventory request))
  ∧ ∃ now, observed = Some now ∧ instant_lt now (out_expires_at outcome) = true.
Proof.
  unfold admit_commit. do 2 (case_match; [done|]).
  intros (accepted & ->%ok_or_Ok & (previous & Hprev & Hk)%bind_Ok)%bind_Ok.
  destruct (cc_outcomes co !! _) as [out|] eqn:Hout; injection Hprev as <-.
  - unfold retry_or_conflict in Hk. destruct (instant_lt _ _) eqn:Hlt; [|done]. cbn [negb] in Hk.
    destruct (_ && _) eqn:Hb; [|done]. injection Hk as <-.
    apply andb_true_iff in Hb as [Hb1%bool_decide_eq_true Hb2%bool_decide_eq_true].
    split_and!; [done..|by exists accepted].
  - case_bool_decide; [done|]. cbn [admit_disk admit_new_owners] in Hk. rewrite !result_bind_Ok in Hk.
    case_match; [done|]. case_match; [done|]. by apply bind_Ok in Hk as (rev & _ & (exp & _ & ?)%bind_Ok).
Qed.
Lemma admit_error co request observed cancelled e : cc_uncertain co = false →
  admit_commit sha256 co request observed cancelled None = Err e → e ≠ TxOutcomeUnknown.
Proof.
  intros Hu. unfold admit_commit. rewrite Hu. case_match; [by intros [= <-]|].
  intros [Hobs|(accepted & _ & [Hprev|(previous & _ & Hk)]%bind_Err)]%bind_Err.
  - destruct observed; [done|]. by injection Hobs as <-.
  - by destruct (cc_outcomes co !! _).
  - destruct previous as [previous|].
    + unfold retry_or_conflict in Hk. case_match; [by injection Hk as <-|]. case_match; [done|by injection Hk as <-].
    + case_bool_decide; [by injection Hk as <-|]. cbn [admit_disk admit_new_owners] in Hk. rewrite !result_bind_Ok in Hk.
      case_match; [by injection Hk as <-|]. case_match; [by injection Hk as <-|].
      apply bind_Err in Hk as [Hk|(rev & _ & [Hk|(exp & _ & ?)]%bind_Err)]; [|by apply expiration_Err in Hk as ->|done].
      destruct (journal_frontier _); [|done]. by destruct (CommitRevision_checked_next _); [|injection Hk as <-].
Qed.

(** ** One commit *)

(** The group a fresh commit encodes replays to exactly the memory the commit
    leaves. *)
Lemma fresh_replays co log fs request observed cancelled admission p group g init state input :
  certain_inv init co fs log → request_ok request → (∀ i, observed = Some i → instant_ok i) →
  admit_commit sha256 co request observed cancelled None = Ok (Fresh admission) →
  state_prepare (cc_state co) (tr_canonical_request request) (tr_blob_inventory request) (fa_revision admission)
    = Some (Ok p) →
  let outcome := mk_outcome (tr_transaction_id request) (fa_revision admission) (fa_request_digest admission)
                   (state_result_digest p) (fa_expires_at admission) in
  encode_group (cc_scope co) request (fa_accepted_at admission) outcome = Ok group →
  input = mk_commit_input group (sha256 group) →
  appended log input (tr_blob_inventory request) g →
  state_publish p (cc_state co) = Some state →
  ∀ journal, replays (cc_scope co) init (log ++ [g]) (memory (publish_commit co journal state request admission outcome false)).
Proof.
  intros (_ & _ & Hscope & Hret & Howns & Hreplay) Hreq Hobs Hadm Hprep outcome Hgroup -> (Hrev & Hbytes & Hdig & Hinv & Hidig) Hpub journal.
  apply admit_fresh in Hadm as (_ & Hlen & Hisc & -> & Hnew & Hrd & Hkey & Hout & Htx & Hcount & _ & Hfrev & Hexp).
  assert (rg_revision g = fa_revision admission) as Hgrev.
  { by rewrite Hrev, Hfrev, (owns_frontier _ _ _ Howns). }
  unfold replays. rewrite visit_all_app, Hreplay. cbn [visit_all].
  pose (d := mk_decoded (fa_retry_key admission) outcome (tr_canonical_request request) (tr_blob_inventory request)).
  assert (request_of d = request) as Hreqof.
  { unfold d, request_of. rewrite Hkey. by destruct request. }
  assert (decode_recovered_group sha256 (cc_scope co) g = Ok d) as Hdec.
  { unfold decode_recovered_group. rewrite Hbytes, Hdig. cbn [ci_encoded_group ci_logical_event_digest].
    rewrite bool_decide_true by done. cbn [negb]. apply map_err_Ok.
    apply (decode_group_complete sha256 _ _ _ _ _ _ (fa_accepted_at admission) (cc_retention co)); [done| |by rewrite Hreqof].
    apply expiration_Ok in Hexp; [|done|by apply Hobs]. pose proof Hexp as (_ & _ & Hexpok & _).
    unfold group_ok. rewrite Hreqof, Hinv, Hidig. split_and!; try done.
    - unfold outcome_ok. cbn. split_and!; [apply Hreq| |by apply result_digest_width in Hprep|apply Hexpok..].
      rewrite Hrd. apply transaction_request_digest_width.
    - apply Hlen.
    - apply Hlen.
    - intros i Hi. by apply Hisc. }
  unfold replay_group. rewrite Hdec. cbn [dg_request dg_blob_inventory d rc_state memory].
  rewrite Hgrev, Hprep, bool_decide_true by done. cbn [negb].
  unfold record_decoded_group_metadata. cbn [rc_outcomes rc_transactions rc_owners rc_state memory d dg_retry_key dg_outcome].
  rewrite (proj2 (Z.leb_gt _ _)), Hout by done. cbn [outcome out_transaction_id]. rewrite Htx, !bool_decide_false by (by intros []).
  cbn [orb rc_state mbind option_bind]. rewrite Hpub. cbn. unfold with_state, memory, publish_commit. cbn. by rewrite Hnew, Hkey.
Qed.

(** A coordinator that lost track of one append: the durable log is the one it
    knows, or that log with one more group that replays. *)
Definition uncertain_inv (init : S) co fs log : Prop :=
  cc_uncertain co = true ∧ reducer_valid init ∧ scope_ok (cc_scope co) ∧ retention_ok (cc_retention co)
  ∧ replays (cc_scope co) init log (memory co)
  ∧ (durable (journal_close (cc_journal co) fs) log ∨
       ∃ g r key o, durable (journal_close (cc_journal co) fs) (log ++ [g]) ∧ replays (cc_scope co) init (log ++ [g]) r
       ∧ cc_outcomes co !! key = None ∧ rc_outcomes r = <[key := o]> (cc_outcomes co)).

Lemma append_commit_law co fs log request input :
  owns (cc_journal co) fs log → (∀ i, tr_blob_inventory request = Some i → inv_references i ≠ []) →
  append_outcome owns durable log input (tr_blob_inventory request) (append_commit co fs request None input).
Proof.
  intros Ho Hi. unfold append_commit. destruct (tr_blob_inventory request) as [i|]; [|by apply append_law].
  specialize (Hi i eq_refl). unfold inventory_is_empty.
  destruct (inv_references i) eqn:Hr; [done|]. cbn. apply append_inventory_law; [done|]. by rewrite Hr.
Qed.
Definition retry_key_of (request : TransactionRequest) : RetryKey :=
  mk_retry_key (tr_principal request) (tr_idempotency_key request).
(** A commit that appends: what is durable, what is remembered, what is answered. *)
Lemma commit_cases init co fs log request observed cancelled co' fs' r :
  certain_inv init co fs log → request_ok request → (∀ i, observed = Some i → instant_ok i) →
  commit sha256 co fs request observed cancelled = Some (co', fs', r) →
  match r with
  | Ok o => co' = co ∧ fs' = fs ∧ cc_outcomes co !! retry_key_of request = Some o
      ∨ cc_outcomes co !! retry_key_of request = None ∧ cc_outcomes co' = <[retry_key_of request := o]> (cc_outcomes co)
        ∧ cc_transactions co' = <[tr_transaction_id request := (tr_principal request, o)]> (cc_transactions co)
        ∧ (∃ p, state_prepare (cc_state co) (tr_canonical_request request) (tr_blob_inventory request) (out_revision o)
              = Some (Ok p) ∧ state_result_digest p = out_result_digest o ∧ state_publish p (cc_state co) = Some (cc_state co'))
        ∧ ∃ g, rg_revision g = out_revision o ∧ out_revision o = revision_after (journal_frontier (cc_journal co))
            ∧ certain_inv init co' fs' (log ++ [g])
  | Err TxOutcomeUnknown => uncertain_inv init co' fs' log ∧ memory co' = memory co
  | Err _ => certain_inv init co' fs' log ∧ memory co' = memory co
  end ∧ cc_scope co' = cc_scope co ∧ cc_retention co' = cc_retention co.
Proof.
  intros Hinv Hreq Hobs. pose proof Hinv as (Hun & Hiv & Hsc & Hret & Howns & Hrep).
  pose proof (replays_valid _ _ _ _ Hiv Hrep : reducer_valid (cc_state co)) as Hsv.
  unfold commit, commit_with_preparation.
  destruct (admit_commit sha256 co request observed cancelled.1 None) as [[outcome|admission]|e] eqn:Hadm.
  { intros [= <- <- <-]. apply admit_retry in Hadm as [Hout _]. split; [|done]. by left. }
  2: { intros [= <- <- <-]. apply admit_error in Hadm; [|done]. split; [|done]. by destruct e. }
  cbn [mbind option_bind]. rewrite (bool_decide_false (is_Some None)) by (by intros []). rewrite andb_false_r. cbn [andb].
  destruct (state_prepare _ _ _ _) as [[p|e]|] eqn:Hprep; [|intros [= <- <- <-]; by destruct e|done].
  destruct cancelled.2; [by intros [= <- <- <-]|].
  set (outcome := mk_outcome _ _ _ _ _). destruct (encode_group _ _ _ _) as [group|e] eqn:Hgroup.
  2: { intros [= <- <- <-]. unfold encode_group in Hgroup. case_match; [|done]. by injection Hgroup as <-. }
  pose proof Hadm as (_ & _ & Hrefs & _ & _ & _ & Hkey & Hnone & _ & _ & _ & Hfrev & _)%admit_fresh.
  pose proof (append_commit_law co fs log request (mk_commit_input group (sha256 group)) Howns
    ltac:(intros i Hi; by apply Hrefs)) as Hlaw.
  destruct (append_commit co fs request None _) as [[journal fs1] [c|e]] eqn:Happ; cbn in Hlaw.
  - destruct Hlaw as (g & Hg & _ & _ & Howns'). destruct (prepared_publishes _ _ _ _ _ Hsv Hprep) as (state & Hpub & _).
    rewrite Hpub. cbn [mbind option_bind]. intros [= <- <- <-]. split; [|done]. right. unfold retry_key_of. rewrite <-Hkey. split; [done|].
    split; [done|]. split; [done|]. split; [by exists p|]. exists g.
    split; [cbn; rewrite Hfrev, (owns_frontier _ _ _ Howns); apply Hg|]. split; [done|]. split_and!; try done.
    exact (fresh_replays co log fs request observed cancelled.1 admission p group g init state _ Hinv Hreq Hobs Hadm Hprep
      Hgroup eq_refl Hg Hpub journal).
  - intros [= <- <- <-]. split; [|done].
    assert (∀ g state, appended log (mk_commit_input group (sha256 group)) (tr_blob_inventory request) g →
      state_publish p (cc_state co) = Some state → ∃ r, replays (cc_scope co) init (log ++ [g]) r ∧
      rc_outcomes r = <[retry_key_of request := outcome]> (cc_outcomes co)) as Hone.
    { intros g state Hg Hpub. eexists. split.
      - exact (fresh_replays co log fs request observed cancelled.1 admission p group g init state _ Hinv Hreq Hobs Hadm Hprep
          Hgroup eq_refl Hg Hpub (cc_journal co)).
      - unfold retry_key_of. by rewrite <-Hkey. }
    destruct (prepared_publishes _ _ _ _ _ Hsv Hprep) as (state & Hpub & _).
    assert (durable (journal_close journal fs1) log ∨ (∃ g, appended log (mk_commit_input group (sha256 group)) (tr_blob_inventory request) g ∧
      durable (journal_close journal fs1) (log ++ [g])) → uncertain_inv init (set_journal co journal true) fs1 log) as Hunc.
    { intros Hd. split_and!; try done. destruct Hd as [Hd|(g & Hg & Hd)]; [by left|]. right.
      destruct (Hone g state Hg Hpub) as (r & Hr & Ho). exists g, r, (retry_key_of request), outcome.
      split_and!; try done. unfold retry_key_of. by rewrite <-Hkey. }
    destruct e; cbn; first [split; [by apply Hunc|done] | by split].
Qed.

(** ** Reopening *)
Lemma open_exact init scope retention fs log r : reducer_valid init → scope_ok scope → retention_ok retention →
  durable fs log → replays scope init log r →
  ∃ fs' co report, coordinator_open sha256 fs scope retention init = Some (fs', Ok (co, report))
    ∧ memory co = r ∧ certain_inv init co fs' log ∧ rr_frontier report = log_frontier log
    ∧ cc_scope co = scope ∧ cc_retention co = retention.
Proof.
  intros Hiv Hsc Hret Hd Hr. destruct (open_law fs log Hd) as (fs' & j & report & Ho & Hf & Hopen).
  exists fs', (recovered_coordinator scope retention j r), report. unfold coordinator_open.
  specialize (Hopen _ (replay_group sha256 scope) (empty_recovery init)). unfold replays in Hr. rewrite Hr in Hopen.
  change (mk_recovery init ∅ ∅ ∅) with (empty_recovery init). rewrite Hopen. split; [done|]. assert (memory (recovered_coordinator scope retention j r) = r) as Hm by (by destruct r).
  split; [done|]. split; [|done]. split_and!; try done. by rewrite Hm.
Qed.

(** ** Executions *)
Inductive coordinator_step (init : S) : CommitCoordinator (S := S) (J := J) * F → CommitCoordinator * F → Prop :=
| step_commit co fs request observed cancelled co' fs' r :
    request_ok request → (∀ i, observed = Some i → instant_ok i) →
    commit sha256 co fs request observed cancelled = Some (co', fs', r) →
    coordinator_step init (co, fs) (co', fs')
| step_reopen co fs co' fs' report :
    coordinator_open sha256 (journal_close (cc_journal co) fs) (cc_scope co) (cc_retention co) init = Some (fs', Ok (co', report)) →
    coordinator_step init (co, fs) (co', fs').
(** From a freshly created coordinator over an empty journal, any sequence of
    commits - answered, refused or lost - and reopenings. *)
Definition coordinator_reachable (init : S) (s : CommitCoordinator (S := S) (J := J) * F) : Prop :=
  ∃ scope retention journal fs, reducer_valid init ∧ scope_ok scope ∧ retention_ok retention ∧ owns journal fs [] ∧
    rtc (coordinator_step init) (coordinator_create scope retention journal init, fs) s.
Definition coordinator_inv (init : S) co fs : Prop :=
  ∃ log, certain_inv init co fs log ∨ uncertain_inv init co fs log.

Lemma commit_uncertain co fs request observed cancelled : cc_uncertain co = true →
  commit sha256 co fs request observed cancelled = Some (co, fs, Err TxOutcomeUnknown).
Proof. intros Hu. unfold commit, commit_with_preparation, admit_commit. by rewrite Hu. Qed.
Lemma inv_durable init co fs : coordinator_inv init co fs →
  reducer_valid init ∧ scope_ok (cc_scope co) ∧ retention_ok (cc_retention co) ∧ 
  ∃ log r, durable (journal_close (cc_journal co) fs) log ∧ replays (cc_scope co) init log r ∧
    (r = memory co ∨ cc_uncertain co = true ∧
      ∃ g key o, replay_group sha256 (cc_scope co) (memory co) g = Some (Ok r) ∧
        cc_outcomes co !! key = None ∧ rc_outcomes r = <[key := o]> (cc_outcomes co)).
Proof.
  intros [log [(Hu & Hi & Hs & Hr & Ho & Hrep)|(Hu & Hi & Hs & Hr & Hrep & [Hd|(g & r & key & o & Hd & Hrep' & Hn & Hout)])]];
    do 3 (split; [done|]).
  - exists log, (memory co). split_and!; try done; [by apply owns_closes|by left].
  - exists log, (memory co). split_and!; try done. by left.
  - exists (log ++ [g]), r. split_and!; try done. right. split; [done|]. exists g, key, o. split_and!; try done.
    unfold replays in Hrep, Hrep'. rewrite visit_all_app, Hrep in Hrep'. cbn [visit_all] in Hrep'.
    destruct (replay_group _ _ _ _) as [[r'|]|]; [|done..]. by injection Hrep' as ->.
Qed.
Lemma step_inv init s s' : coordinator_step init s s' → coordinator_inv init s.1 s.2 →
  coordinator_inv init s'.1 s'.2 ∧ cc_outcomes s.1 ⊆ cc_outcomes s'.1.
Proof.
  intros [co fs request observed cancelled co' fs' r Hreq Hobs Hc|co fs co' fs' report Ho] Hinv; cbn in *.
  - destruct Hinv as [log [Hinv|Hinv]].
    + pose proof (commit_cases init co fs log request observed cancelled co' fs' r Hinv Hreq Hobs Hc) as [Hcases _]. destruct r as [o|e].
      * destruct Hcases as [(-> & -> & _)|(Hn & -> & _ & _ & g & _ & _ & Hg)]; [split; [|done]; exists log; by left|].
        split; [exists (log ++ [g]); by left|]. by apply insert_subseteq.
      * assert (coordinator_inv init co' fs' ∧ memory co' = memory co) as [? Hm].
        { destruct e; destruct Hcases as [Hc' Hm]; (split; [exists log; first [by left|by right]|exact Hm]). }
        split; [done|]. change (cc_outcomes co') with (rc_outcomes (memory co')). by rewrite Hm.
    + rewrite commit_uncertain in Hc by apply Hinv. injection Hc as <- <- <-. split; [|done]. exists log. by right.
  - apply inv_durable in Hinv as (Hi & Hs & Hr & log & r & Hd & Hrep & Hcase).
    destruct (open_exact init (cc_scope co) (cc_retention co) (journal_close (cc_journal co) fs) log r Hi Hs Hr Hd Hrep) as (fs1 & co1 & rep1 & Ho1 & Hm & Hc & _).
    rewrite Ho1 in Ho. injection Ho as <- <- <-. split; [exists log; by left|].
    assert (cc_outcomes co1 = rc_outcomes r) as -> by (by rewrite <-Hm).
    destruct Hcase as [->|(_ & g & key & o & _ & Hn & ->)]; [done|by apply insert_subseteq].
Qed.
End facts.

(** ** Atomic, exactly-once, recoverable commits

    The guarantees of the coordinator over every execution: any sequence of
    commits - answered, refused or lost in the journal - and reopenings. *)

Section guarantees.
Context {S J F : Type} `{TransactionStateLaws S, JournalLaws J F} (sha256 : list byte → list byte).
Implicit Types (co : CommitCoordinator (S := S) (J := J)) (fs : F).
Definition sha256_wide : Prop := ∀ bytes, length (sha256 bytes) = 32%nat.
Definition observes_instant (observed : option UtcInstant) : Prop := ∀ i, observed = Some i → instant_ok i.

Lemma create_inv scope retention journal fs init : reducer_valid init → scope_ok scope → retention_ok retention →
  owns journal fs [] → coordinator_inv sha256 init (coordinator_create scope retention journal init) fs.
Proof. intros Hv Hs Hr Ho. exists []. left. by split_and!. Qed.
Lemma steps_inv init s s' : sha256_wide → rtc (coordinator_step sha256 init) s s' → coordinator_inv sha256 init s.1 s.2 →
  coordinator_inv sha256 init s'.1 s'.2 ∧ cc_outcomes s.1 ⊆ cc_outcomes s'.1 ∧ cc_scope s'.1 = cc_scope s.1.
Proof.
  intros Hw. induction 1 as [s|s1 s2 s3 Hstep Hsteps IH]; [done|]. intros Hinv.
  assert (cc_scope s2.1 = cc_scope s1.1) as Hscope.
  { destruct Hstep as [co fs request observed cancelled co' fs' r Hreq Hobs Hc|co fs co' fs' report Ho]; cbn in *.
    - destruct Hinv as [log [Hinv|Hinv]].
      + by apply (commit_cases sha256 Hw init co fs log) in Hc as (_ & ? & _).
      + rewrite commit_uncertain in Hc by apply Hinv. by injection Hc as <- <- <-.
    - apply inv_durable in Hinv as (Hi & Hs & Hr & log & r & Hd & Hrep & _).
      destruct (open_exact sha256 init (cc_scope co) (cc_retention co) (journal_close (cc_journal co) fs) log r Hi Hs Hr Hd Hrep)
        as (fs1 & co1 & rep1 & Ho1 & _ & _ & _ & Hsc & _).
      rewrite Ho1 in Ho. injection Ho as <- <- <-. done. }
  destruct (step_inv sha256 Hw init s1 s2 Hstep Hinv) as [Hinv2 Hsub].
  destruct (IH Hinv2) as (Hinv3 & Hsub3 & Hsc3). split_and!; [done|by etrans|congruence].
Qed.
Lemma reachable_coordinator_inv init s : sha256_wide → coordinator_reachable sha256 init s → coordinator_inv sha256 init s.1 s.2.
Proof.
  intros Hw (scope & retention & journal & fs & Hv & Hs & Hr & Ho & Hsteps).
  apply (steps_inv init _ _ Hw Hsteps). by apply create_inv.
Qed.
Lemma reachable_certain init co fs : sha256_wide → coordinator_reachable sha256 init (co, fs) → cc_uncertain co = false →
  ∃ log, certain_inv sha256 init co fs log.
Proof.
  intros Hw Hr Hu. destruct (reachable_coordinator_inv init _ Hw Hr) as [log [Hc|Hc]]; [by exists log|].
  destruct Hc as [Hc _]. cbn in Hc. congruence.
Qed.

(** ** Answers *)
Lemma commit_answer co fs request observed cancelled co' fs' o :
  commit sha256 co fs request observed cancelled = Some (co', fs', Ok o) →
  out_transaction_id o = tr_transaction_id request ∧
  out_request_digest o =
    transaction_request_digest sha256 (tr_canonical_request request) (inventory_digest (tr_blob_inventory request)) ∧
  invalid_request co request = false.
Proof.
  unfold commit, commit_with_preparation. destruct (admit_commit _ _ _ _ _ _) as [[o'|adm]|] eqn:Hadm; [| |done].
  - intros [= _ _ <-]. pose proof Hadm as Hadm'. apply admit_retry in Hadm as (_ & Ht & Hd & _). split_and!; [done..|].
    unfold admit_commit in Hadm'. destruct (cc_uncertain co); [done|]. by destruct (invalid_request co request).
  - pose proof Hadm as Hadm'. apply admit_fresh in Hadm as (_ & _ & _ & _ & _ & Hd & _).
    cbn [mbind option_bind]. case_match; [done|]. destruct (state_prepare _ _ _ _) as [[p|]|]; [|done..].
    case_match; [done|]. destruct (encode_group _ _ _ _) as [g|]; [|done].
    destruct (append_commit _ _ _ _ _) as [[j f] [c|]]; [|done]. intros (st & _ & [= _ _ <-])%bind_Some.
    split_and!; [done..|]. unfold admit_commit in Hadm'. destruct (cc_uncertain co); [done|].
    by destruct (invalid_request co request).
Qed.
(** The digest of what a request asks for. *)
Definition content_digest_of (request : TransactionRequest) : list byte :=
  transaction_request_digest sha256 (tr_canonical_request request) (inventory_digest (tr_blob_inventory request)).
(** A request whose retry key has an outcome is answered from that outcome. *)
Lemma commit_recorded co fs request now cancelled o : cc_uncertain co = false → invalid_request co request = false →
  cc_outcomes co !! retry_key_of request = Some o →
  commit sha256 co fs request (Some now) cancelled = Some (co, fs,
    if negb (instant_lt now (out_expires_at o)) then Err TxIdempotencyExpired
    else if bool_decide (out_request_digest o =
              transaction_request_digest sha256 (tr_canonical_request request) (inventory_digest (tr_blob_inventory request)))
            && bool_decide (out_transaction_id o = tr_transaction_id request)
    then Ok o else Err TxConflict).
Proof.
  intros Hu Hv Ho. unfold commit, commit_with_preparation, admit_commit. rewrite Hu, Hv. cbn [ok_or]. rewrite result_bind_Ok.
  fold (retry_key_of request). rewrite Ho, result_bind_Ok. unfold retry_or_conflict.
  destruct (negb _); [done|]. by destruct (_ && _).
Qed.

(** C4: commits are exactly-once.  Once a request has been answered with an
    outcome, then in every later state - after any further commits, lost appends
    and reopenings - in which no outcome is unknown, repeating it within the
    retention period returns that same outcome, changes nothing and appends nothing;
    a request under the same key with another transaction identifier or another
    digest of its content is a conflict, and after the retention period the key is
    reported expired.  While an outcome is unknown every commit is refused. *)
Theorem commit_exactly_once init co fs request observed cancelled co1 fs1 o co2 fs2 :
  sha256_wide → coordinator_reachable sha256 init (co, fs) → request_ok request → observes_instant observed →
  commit sha256 co fs request observed cancelled = Some (co1, fs1, Ok o) →
  rtc (coordinator_step sha256 init) (co1, fs1) (co2, fs2) →
  ∀ now cancelled',
    if cc_uncertain co2 then
      ∀ request', commit sha256 co2 fs2 request' (Some now) cancelled' = Some (co2, fs2, Err TxOutcomeUnknown)
    else if instant_lt now (out_expires_at o) then
      commit sha256 co2 fs2 request (Some now) cancelled' = Some (co2, fs2, Ok o) ∧
      ∀ request', retry_key_of request' = retry_key_of request → invalid_request co2 request' = false →
        tr_transaction_id request' ≠ tr_transaction_id request ∨ content_digest_of request' ≠ content_digest_of request →
        commit sha256 co2 fs2 request' (Some now) cancelled' = Some (co2, fs2, Err TxConflict)
    else commit sha256 co2 fs2 request (Some now) cancelled' = Some (co2, fs2, Err TxIdempotencyExpired).
Proof.
  intros Hw Hr Hreq Hobs Hc Hsteps now cancelled'.
  pose proof (reachable_coordinator_inv init _ Hw Hr) as Hinv. cbn in Hinv.
  pose proof (commit_answer _ _ _ _ _ _ _ _ Hc) as (Ht & Hd & Hval).
  assert (coordinator_step sha256 init (co, fs) (co1, fs1)) as Hstep by (by eapply step_commit).
  destruct (step_inv sha256 Hw init _ _ Hstep Hinv) as [Hinv1 _]. cbn in Hinv1.
  assert (cc_outcomes co1 !! retry_key_of request = Some o) as Ho1.
  { destruct Hinv as [log [Hinv|Hinv]].
    - apply (commit_cases sha256 Hw init co fs log) in Hc as [Hc _]; [|done..].
      destruct Hc as [(-> & -> & Hc)|(_ & -> & _)]; [done|by apply lookup_insert_eq].
    - rewrite commit_uncertain in Hc by apply Hinv. done. }
  assert (cc_scope co1 = cc_scope co) as Hsc1.
  { by apply (steps_inv init (co, fs) (co1, fs1) Hw); [apply rtc_once|]. }
  destruct (steps_inv init _ _ Hw Hsteps Hinv1) as (_ & Hsub & Hsc2). cbn in Hsub, Hsc2.
  pose proof (lookup_weaken _ _ _ _ Ho1 Hsub) as Ho2.
  assert (invalid_request co2 request = false) as Hval2.
  { unfold invalid_request in *. by rewrite Hsc2, Hsc1. }
  destruct (cc_uncertain co2) eqn:Hu; [intros request'; by apply commit_uncertain|].
  destruct (instant_lt now (out_expires_at o)) eqn:Hlt; [|by rewrite (commit_recorded _ _ _ _ _ o Hu Hval2 Ho2), Hlt].
  split; [|intros request' Hk Hv Hne].
  - rewrite (commit_recorded _ _ _ _ _ o Hu Hval2 Ho2), Hlt. cbn [negb]. by rewrite !bool_decide_true.
  - rewrite <-Hk in Ho2. rewrite (commit_recorded _ _ _ _ _ o Hu Hv Ho2), Hlt. cbn [negb]. rewrite Ht, Hd.
    destruct Hne as [Hne|Hne]; [rewrite andb_comm|]; by rewrite (bool_decide_false (_ = _)) by (by apply not_eq_sym).
Qed.

(** C5: recovery is exact.  From every reachable state - also right after an
    append whose fate is unknown - closing the handle and reopening succeeds, and the
    new coordinator holds exactly the reducer state, outcomes, transactions and blob
    owners of the old one; only after an unknown outcome may it hold one commit more:
    it is then exactly the replay of one group on them, recorded with its outcome, so
    that every answered commit survives and none is half visible. *)
Theorem recovery_exact init co fs : sha256_wide → coordinator_reachable sha256 init (co, fs) →
  ∃ fs' co' report,
    coordinator_open sha256 (journal_close (cc_journal co) fs) (cc_scope co) (cc_retention co) init = Some (fs', Ok (co', report)) ∧
    cc_uncertain co' = false ∧ rr_frontier report = journal_frontier (cc_journal co') ∧
    (memory co' = memory co ∨
     cc_uncertain co = true ∧
       ∃ g key o, replay_group sha256 (cc_scope co) (memory co) g = Some (Ok (memory co')) ∧
         cc_outcomes co !! key = None ∧ cc_outcomes co' = <[key := o]> (cc_outcomes co)).
Proof.
  intros Hw Hr. pose proof (reachable_coordinator_inv init _ Hw Hr) as Hinv. cbn in Hinv.
  apply inv_durable in Hinv as (Hi & Hs & Hret & log & r & Hd & Hrep & Hcase).
  destruct (open_exact sha256 init (cc_scope co) (cc_retention co) (journal_close (cc_journal co) fs) log r Hi Hs Hret Hd Hrep)
    as (fs' & co' & report & Ho & Hm & Hc & Hf & _).
  exists fs', co', report. split; [done|]. split; [apply Hc|]. split.
  { destruct Hc as (_ & _ & _ & _ & Howns & _). by rewrite Hf, (owns_frontier _ _ _ Howns). }
  destruct Hcase as [->|(Hu & g & key & o & Hg & Hn & Ho')]; [by left|]. right. split; [done|]. exists g, key, o.
  rewrite <-Ho', Hm. split_and!; [done|done|]. by rewrite <-Hm.
Qed.

(** C6: commits are atomic.  While the reducer does not panic and no outcome is
    unknown, a commit always answers.  A success answers the request it was asked:
    if its key has an outcome, with that outcome and without any change; otherwise it
    has appended one group at the next revision to the durable log, published exactly
    the change the reducer prepared, and recorded the outcome.  A refusal leaves
    state, outcomes, transactions, owners and the log as they were; and when the
    outcome is unknown the memory is unchanged too and every later commit and read is
    refused until the journal is reopened. *)
Theorem commit_atomic init co fs request observed cancelled :
  sha256_wide → coordinator_reachable sha256 init (co, fs) → cc_uncertain co = false → request_ok request → observes_instant observed →
  (∀ revision, state_prepare (cc_state co) (tr_canonical_request request) (tr_blob_inventory request) revision ≠ None) →
  ∃ log co' fs' r, owns (cc_journal co) fs log ∧ commit sha256 co fs request observed cancelled = Some (co', fs', r) ∧
    match r with
    | Ok o => out_transaction_id o = tr_transaction_id request ∧ out_request_digest o = content_digest_of request ∧
        match cc_outcomes co !! retry_key_of request with
        | Some previous => o = previous ∧ co' = co ∧ fs' = fs
        | None => out_revision o = revision_after (journal_frontier (cc_journal co))
          ∧ journal_frontier (cc_journal co') = Some (out_revision o)
          ∧ cc_outcomes co' = <[retry_key_of request := o]> (cc_outcomes co)
          ∧ cc_transactions co' = <[tr_transaction_id request := (tr_principal request, o)]> (cc_transactions co)
          ∧ ∃ p g, state_prepare (cc_state co) (tr_canonical_request request) (tr_blob_inventory request) (out_revision o) = Some (Ok p)
            ∧ out_result_digest o = state_result_digest p ∧ state_publish p (cc_state co) = Some (cc_state co')
            ∧ owns (cc_journal co') fs' (log ++ [g]) ∧ replay_group sha256 (cc_scope co) (memory co) g = Some (Ok (memory co'))
        end
    | Err TxOutcomeUnknown => memory co' = memory co ∧ read_view co' = Err TxOutcomeUnknown ∧
        ∀ fs2 request2 observed2 cancelled2,
          commit sha256 co' fs2 request2 observed2 cancelled2 = Some (co', fs2, Err TxOutcomeUnknown)
    | Err _ => memory co' = memory co ∧ owns (cc_journal co') fs' log
    end.
Proof.
  intros Hw Hr Hu Hreq Hobs Hp. destruct (reachable_certain init co fs Hw Hr Hu) as [log Hinv].
  assert (is_Some (commit sha256 co fs request observed cancelled)) as [[[co' fs'] r] Hc].
  { pose proof Hinv as (_ & Hiv & _ & _ & _ & Hrep). pose proof (replays_valid _ _ _ _ _ Hiv Hrep) as Hsv. cbn in Hsv.
    unfold commit, commit_with_preparation. destruct (admit_commit _ _ _ _ _ _) as [[o|adm]|]; [done| |done].
    case_match; [done|]. specialize (Hp (fa_revision adm)).
    destruct (state_prepare _ _ _ _) as [[p|]|] eqn:Hprep; [|done..]. case_match; [done|].
    destruct (encode_group _ _ _ _); [|done]. destruct (append_commit _ _ _ _ _) as [[j f] [c|]]; [|done].
    destruct (prepared_publishes _ _ _ _ _ Hsv Hprep) as (s' & -> & _). done. }
  pose proof Hinv as (_ & _ & _ & _ & Howns & Hrep). exists log, co', fs', r. split; [done|]. split; [done|].
  destruct (commit_cases sha256 Hw init co fs log _ _ _ _ _ _ Hinv Hreq Hobs Hc) as [Hcase [Hscope _]]. destruct r as [o|e].
  - pose proof (commit_answer _ _ _ _ _ _ _ _ Hc) as (Ht & Hd & _). split; [done|]. split; [done|].
    destruct Hcase as [(-> & -> & ->)|(-> & Ho & Htx & (p & Hp1 & Hp3 & Hp2) & g & Hg & Hrev & (_ & _ & _ & _ & Howns' & Hrep'))]; [done|].
    split_and!; try done; [by rewrite (owns_frontier _ _ _ Howns'); unfold log_frontier; rewrite last_snoc; cbn; rewrite Hg|].
    exists p, g. split_and!; try done. unfold replays in Hrep'. rewrite visit_all_app in Hrep'. rewrite Hscope in Hrep'. unfold replays in Hrep. rewrite Hrep in Hrep'.
    cbn [visit_all] in Hrep'. destruct (replay_group _ _ _ g) as [[r|]|]; [|done..]. by injection Hrep' as ->.
  - destruct e; destruct Hcase as [Hinv' Hm]; (split; [done|]); try apply Hinv'.
    destruct Hinv' as [Hu' _]. split; [unfold read_view; by rewrite Hu'|]. intros. by apply commit_uncertain.
Qed.
End guarantees.
