(* ===== verification/TxnGraph.v ===== *)
(** * The graph reducer under the coordinator

    [impl TransactionState for GraphState] discharges what the coordinator asks of
    a reducer, so the guarantees of both compose: the graph a coordinator serves is
    always a reachable one, at the revision of its journal. *)
From S2P Require Import Prelude Ids Policy GraphRecord GraphCodec GraphState GraphCheckpoint GraphPublish GraphReachable GraphQuery GraphGuarantees Storage Blob Journal TxnGroup TxnCoordinator TxnGuarantees.

Section graph.
Context (sha256 : list byte → list byte) (sha256_width : sha256_wide sha256).
#[local] Instance graph_transaction_state : TransactionState GraphState := {
  Prepared := PreparedGraph;
  Snapshot := GraphSnapshot;
  state_prepare := prepare sha256;
  state_result_digest := p_result_digest;
  state_publish := publish;
  state_snapshot := id
}.
#[local] Instance graph_externally_prepared : ExternallyPreparedTransactionState GraphState := {
  state_validate_external_prepared := validate_external_prepared sha256
}.
Lemma graph_prepared_plan s request (inventory : option BlobInventory) revision p :
  prepare sha256 s request inventory revision = Some (Ok p) →
  ∃ tx d, prepare_transaction_with_digest sha256 s tx revision d = Some (Ok p).
Proof.
  unfold prepare. destruct inventory; [done|]. destruct (decode_transaction request) as [tx|]; [|done].
  destruct (negb _); [done|]. intros ([p'|] & Hp & Hr)%bind_Some; [|done]. injection Hr as ->. by eexists _, _.
Qed.
Lemma graph_result_width s tx revision d p : prepare_transaction_with_digest sha256 s tx revision d = Some (Ok p) →
  length (p_result_digest p) = 32%nat.
Proof.
  unfold prepare_transaction_with_digest. destruct (plan_transaction _ _ _ _ _) as [[[rd cs] pol]|]; [|done].
  intros (dg & Hd & [= <-])%bind_Some. unfold graph_result_digest in Hd.
  case_match; [|done]. case_match; [|done]. injection Hd as <-. apply sha256_width.
Qed.
#[local] Instance graph_transaction_laws : TransactionStateLaws GraphState.
Proof.
  refine {| reducer_valid := graph_inv |}.
  - intros s request inventory revision p Hi (tx & d & Hp)%graph_prepared_plan.
    destruct (commit_publish sha256 s tx revision d p Hi Hp) as (ps & s' & Hpub & Heff).
    exists s'. split; [done|]. by apply (commit_inv s tx revision p ps s').
  - intros s request inventory revision p (tx & d & Hp)%graph_prepared_plan. by apply graph_result_width in Hp.
Defined.

(** ** The graph a coordinator serves *)
Context {J F : Type} `{JournalLaws J F}.
Lemma published_revision p s s' : publish p s = Some s' → revision s' = Some (p_revision p).
Proof.
  unfold publish. destruct (can_publish s p); [|done].
  destruct (p_policy_change p); by intros [= <-].
Qed.
Lemma prepared_revision s tx rev d p : prepare_transaction_with_digest sha256 s tx rev d = Some (Ok p) → p_revision p = rev.
Proof.
  unfold prepare_transaction_with_digest. destruct (plan_transaction _ _ _ _ _) as [[[rd cs] pol]|]; [|done].
  by intros (dg & _ & [= <-])%bind_Some.
Qed.
Lemma replays_graph scope_ sc log r : replays sha256 scope_ (GraphState_new sc) log r →
  reachable sha256 sc (rc_state r) ∧ revision (rc_state r) = log_frontier log.
Proof.
  unfold replays. revert r. induction log as [|g log IH] using rev_ind; intros r Hr.
  { injection Hr as <-. split; [apply commits_refl|done]. }
  rewrite visit_all_app in Hr. destruct (visit_all _ log _) as [[r1|]|]; [|done..].
  destruct (IH r1 eq_refl) as [Hreach _]. cbn [visit_all] in Hr.
  destruct (replay_group _ _ _ _) as [[r2|]|] eqn:Hg; [|done..]. injection Hr as ->.
  apply replay_group_state in Hg as (d & p & _ & Hp & Hpub). cbn in Hp, Hpub.
  apply graph_prepared_plan in Hp as (tx & dg & Hp). split; [by eapply reachable_commit|].
  rewrite (published_revision _ _ _ Hpub), (prepared_revision _ _ _ _ _ Hp). unfold log_frontier. by rewrite last_snoc.
Qed.
(** C7: the engine composes.  In every execution of a coordinator over the graph
    reducer - commits, refusals, appends of unknown fate, reopenings, over any
    journal that keeps its promises - the graph in memory is one reachable by
    committing transactions, so all the guarantees of the reducer hold for it, and
    while no outcome is unknown its revision is the frontier of the journal. *)
Theorem durable_graph_reachable sc (co : CommitCoordinator (S := GraphState) (J := J)) (fs : F) :
  coordinator_reachable sha256 (GraphState_new sc) (co, fs) →
  reachable sha256 sc (cc_state co) ∧
  (cc_uncertain co = false → revision (cc_state co) = journal_frontier (cc_journal co)).
Proof.
  intros Hr. destruct (reachable_coordinator_inv sha256 _ _ sha256_width Hr) as [log Hinv]. cbn in Hinv.
  assert (replays sha256 (cc_scope co) (GraphState_new sc) log (memory co)) as Hrep by (destruct Hinv as [Hinv|Hinv]; apply Hinv).
  apply replays_graph in Hrep as [Hreach Hrev]. split; [done|]. intros Hu.
  destruct Hinv as [(_ & _ & _ & _ & Ho & _)|(Hu' & _)]; [|congruence]. by rewrite (owns_frontier _ _ _ Ho).
Qed.
End graph.
