(* ===== verification/TxnRecovery.v ===== *)
(** * Recovery from checkpoints and from prepared suffixes

    Models [CoordinatorRecoverySeed], [open_seeded] and
    [open_journal_anchored_prepared_bounded] of [crates/uste-txn/src/lib.rs]. *)
From S2P Require Import Prelude Ids Policy GraphState GraphCheckpoint GraphQuery Storage Blob Journal TxnGroup TxnCoordinator.
Import StorageError.

(** [RecoveredCheckpoint], as far as the coordinator reads it. *)
Record RecoveredCheckpoint : Set := mk_recovered_checkpoint {
  cp_scope : NamespaceRef;
  cp_revision : CommitRevision;
  cp_reducer_profile : list byte;
  cp_logical_state_digest : list byte;
  cp_certificate_digest : list byte
}.

Section recovery.
Context {S J F : Type} `{TransactionState S, JournalStore J F} (sha256 : list byte → list byte).

Record CoordinatorRecoverySeed := mk_seed {
  seed_scope : NamespaceRef;
  seed_revision : CommitRevision;
  seed_certificate_digest : list byte;
  seed_state : S;
  seed_outcomes : OutcomeMap;
  seed_transactions : TransactionMap;
  seed_owners : OwnerMap
}.
Definition map_checkpoint_error (error : CheckpointStateError) : TxError :=
  match error with
  | CheckpointStateError.ResourceLimit => TxResourceLimit
  | CheckpointStateError.Invalid | CheckpointStateError.UnsupportedProfile => TxIntegrityFailure
  end.
(** The loops over the outcomes and the owners of a checkpoint. *)
Definition seed_outcome (revision : CommitRevision) (maps : OutcomeMap * TransactionMap)
    (entry : PrincipalDigest * IdempotencyKey * TransactionOutcome) :
    result TxError (OutcomeMap * TransactionMap) :=
  let '(principal, key, outcome) := entry in
  let '(outcomes, transactions) := maps in
  let retry_key := mk_retry_key principal key in
  if map_len outcomes =? MAX_OUTCOMES_PER_NAMESPACE then Err TxResourceLimit
  else if (revision <? out_revision outcome) || bool_decide (is_Some (outcomes !! retry_key))
          || bool_decide (is_Some (transactions !! out_transaction_id outcome))
  then Err TxIntegrityFailure
  else Ok (<[retry_key := outcome]> outcomes,
           <[out_transaction_id outcome := (principal, outcome)]> transactions).
Definition seed_owner (scope : NamespaceRef) (owners : OwnerMap) (entry : BlobReference * PrincipalDigest) :
    result TxError OwnerMap :=
  let '(reference, principal) := entry in
  if map_len owners =? MAX_COMMITTED_BLOBS_PER_JOURNAL then Err TxResourceLimit
  else if negb (bool_decide (blob_scope reference = scope)) || bool_decide (is_Some (owners !! owner_key reference))
  then Err TxIntegrityFailure
  else Ok (<[owner_key reference := (reference, principal)]> owners).
Definition from_authenticated_checkpoint `{CheckpointState S} (checkpoint : RecoveredCheckpoint) (state : S)
    (outcomes : list (PrincipalDigest * IdempotencyKey * TransactionOutcome))
    (owners : list (BlobReference * PrincipalDigest)) : result TxError CoordinatorRecoverySeed :=
  let scope := cp_scope checkpoint in
  let revision := cp_revision checkpoint in
  if negb (bool_decide (current_checkpoint_scope state = scope))
     || negb (bool_decide (current_checkpoint_revision state = Some revision))
     || negb (bool_decide (cp_reducer_profile checkpoint = REDUCER_PROFILE (S := S)))
  then Err TxIntegrityFailure
  else
    digest ← map_err map_checkpoint_error (current_logical_state_digest state);
    if negb (bool_decide (digest = cp_logical_state_digest checkpoint)) then Err TxIntegrityFailure
    else
      '(outcome_map, transactions) ← try_fold (seed_outcome revision) outcomes (∅, ∅);
      owner_map ← try_fold (seed_owner scope) owners ∅;
      Ok (mk_seed scope revision (cp_certificate_digest checkpoint) state outcome_map transactions owner_map).

(** ** Opening from a seed *)

(** The maps of the seed that are still to be seen, those seen, and the reducer. *)
Record SeedReplay := mk_seed_replay {
  sr_expected : Recovery (S := S);
  sr_verified : Recovery (S := S);
  sr_anchor_verified : bool
}.
(** One blob reference of a group at or below the seed's revision. *)
Definition verify_owner (principal : PrincipalDigest) (owners : OwnerMap * OwnerMap) (reference : BlobReference) :
    result StorageError (OwnerMap * OwnerMap) :=
  let '(expected, verified) := owners in
  let key := owner_key reference in
  match verified !! key with
  | Some (committed, _) => if decide (committed = reference) then Ok owners else Err IntegrityFailure
  | None =>
      match expected !! key with
      | Some (committed, owner) =>
          if bool_decide (committed = reference) && bool_decide (owner = principal)
          then Ok (delete key expected, <[key := (committed, owner)]> verified)
          else Err IntegrityFailure
      | None => Err IntegrityFailure
      end
  end.
Definition replay_group_metadata_against_seed (scope : NamespaceRef) (expected verified : Recovery (S := S))
    (group : RecoveredGroup) : result StorageError (Recovery (S := S) * Recovery (S := S)) :=
  if negb (bool_decide (sha256 (rg_encoded_group group) = rg_logical_event_digest group)) then Err IntegrityFailure
  else
    decoded ← map_err (λ _, IntegrityFailure)
      (decode_group sha256 scope (rg_encoded_group group) (rg_revision group) (rg_blob_inventory_digest group)
         (rg_blob_inventory group));
    let key := dg_retry_key decoded in
    let outcome := dg_outcome decoded in
    let id := out_transaction_id outcome in
    let principal := rk_principal key in
    if negb (bool_decide (rc_outcomes expected !! key = Some outcome))
       || negb (bool_decide (rc_transactions expected !! id = Some (principal, outcome)))
       || bool_decide (is_Some (rc_outcomes verified !! key))
       || bool_decide (is_Some (rc_transactions verified !! id))
    then Err IntegrityFailure
    else
      '(expected_owners, verified_owners) ←
        try_fold (verify_owner principal) (inventory_references (dg_blob_inventory decoded))
          (rc_owners expected, rc_owners verified);
      Ok (mk_recovery (rc_state expected) (delete key (rc_outcomes expected)) (delete id (rc_transactions expected))
            expected_owners,
          mk_recovery (rc_state verified) (<[key := outcome]> (rc_outcomes verified))
            (<[id := (principal, outcome)]> (rc_transactions verified)) verified_owners).
(** The callback of [open_seeded]. *)
Definition replay_seeded (scope : NamespaceRef) (checkpoint_revision : CommitRevision)
    (checkpoint_certificate_digest : list byte) (sr : SeedReplay) (group : RecoveredGroup) :
    option (result StorageError SeedReplay) :=
  if rg_revision group <=? checkpoint_revision then
    Some ('(expected, verified) ← replay_group_metadata_against_seed scope (sr_expected sr) (sr_verified sr) group;
          if rg_revision group =? checkpoint_revision then
            if negb (bool_decide (rg_certificate_digest group = checkpoint_certificate_digest))
               || negb (bool_decide (rc_outcomes expected = ∅)) || negb (bool_decide (rc_transactions expected = ∅))
               || negb (bool_decide (rc_owners expected = ∅))
            then Err IntegrityFailure
            else Ok (mk_seed_replay
                       (mk_recovery (rc_state expected) (rc_outcomes verified) (rc_transactions verified) (rc_owners verified))
                       (mk_recovery (rc_state verified) ∅ ∅ ∅) true)
          else Ok (mk_seed_replay expected verified (sr_anchor_verified sr)))
  else
    match replay_group sha256 scope (sr_expected sr) group with
    | Some (Ok r) => Some (Ok (mk_seed_replay r (sr_verified sr) (sr_anchor_verified sr)))
    | Some (Err e) => Some (Err e)
    | None => None
    end.
Definition open_seeded (fs : F) (scope : NamespaceRef) (retention : Z) (seed : CoordinatorRecoverySeed) :
    option (F * result TxError (CommitCoordinator (S := S) (J := J) * RecoveryReport)) :=
  if negb (bool_decide (seed_scope seed = scope)) then Some (fs, Err TxIntegrityFailure)
  else
    let start := mk_recovery (seed_state seed) (seed_outcomes seed) (seed_transactions seed) (seed_owners seed) in
    '(fs, opened) ← journal_open fs (replay_seeded scope (seed_revision seed) (seed_certificate_digest seed))
                      (mk_seed_replay start (mk_recovery (seed_state seed) ∅ ∅ ∅) false);
    Some (fs,
      '(journal, report, sr) ← map_err map_open_error opened;
      if negb (sr_anchor_verified sr)
         || match rr_frontier report with Some frontier => frontier <? seed_revision seed | None => true end
      then Err TxIntegrityFailure
      else Ok (recovered_coordinator scope retention journal (sr_expected sr), report)).

(** ** Opening from a journal-anchored state and a prepared suffix *)
Record RecoveredFrontierTransaction : Set := mk_frontier_transaction {
  ft_scope : NamespaceRef;
  ft_revision : CommitRevision;
  ft_certificate_digest : list byte;
  ft_logical_event_digest : list byte;
  ft_blob_inventory_digest : list byte;
  ft_principal : PrincipalDigest;
  ft_idempotency_key : IdempotencyKey;
  ft_outcome : TransactionOutcome;
  ft_canonical_request : list byte;
  ft_blob_inventory : option BlobInventory
}.
Definition frontier_matches (t : RecoveredFrontierTransaction) (group : RecoveredGroup) (decoded : DecodedGroup) : bool :=
  (ft_revision t =? rg_revision group)
  && bool_decide (ft_certificate_digest t = rg_certificate_digest group)
  && bool_decide (ft_logical_event_digest t = rg_logical_event_digest group)
  && bool_decide (ft_blob_inventory_digest t = rg_blob_inventory_digest group)
  && bool_decide (ft_principal t = rk_principal (dg_retry_key decoded))
  && bool_decide (ft_idempotency_key t = rk_key (dg_retry_key decoded))
  && bool_decide (ft_outcome t = dg_outcome decoded)
  && bool_decide (ft_canonical_request t = dg_request decoded)
  && bool_decide (ft_blob_inventory t = dg_blob_inventory decoded).
Record RecoveredPreparedSuffix := mk_prepared_suffix {
  ps_transaction : RecoveredFrontierTransaction;
  ps_prepared : Prepared
}.
Definition admit_recovered_metadata (r : Recovery (S := S)) (decoded : DecodedGroup)
    (limits : CoordinatorRecoveryLimits) : result StorageError unit :=
  if maximum_outcomes limits <=? map_len (rc_outcomes r) then Err ResourceLimit
  else
    let additional := zlen (filter (λ reference, rc_owners r !! owner_key reference = None)
                              (inventory_references (dg_blob_inventory decoded))) in
    match checked_add (map_len (rc_owners r)) additional with
    | Some count => if maximum_blob_owners limits <? count then Err ResourceLimit else Ok tt
    | None => Err ResourceLimit
    end.
Record AnchoredReplay := mk_anchored_replay {
  ar_recovery : Recovery (S := S);
  ar_suffix : option RecoveredPreparedSuffix;
  ar_base_seen : bool;
  ar_suffix_seen : bool
}.
(** The callback of [open_journal_anchored_prepared_bounded]. *)
Definition replay_anchored `{!ExternallyPreparedTransactionState S} (scope : NamespaceRef) (base_revision : CommitRevision)
    (base_certificate_digest : list byte) (suffix_revision : option CommitRevision)
    (limits : CoordinatorRecoveryLimits) (ar : AnchoredReplay) (group : RecoveredGroup) :
    option (result StorageError AnchoredReplay) :=
  match (decoded ← decode_recovered_group sha256 scope group;
         admit_recovered_metadata (ar_recovery ar) decoded limits;; Ok decoded) with
  | Err e => Some (Err e)
  | Ok decoded =>
      if rg_revision group <=? base_revision then
        Some (if (rg_revision group =? base_revision)
                 && negb (bool_decide (rg_certificate_digest group = base_certificate_digest))
              then Err IntegrityFailure
              else
                r ← record_decoded_group_metadata (ar_recovery ar) decoded;
                Ok (mk_anchored_replay r (ar_suffix ar) (ar_base_seen ar || (rg_revision group =? base_revision))
                      (ar_suffix_seen ar)))
      else if negb (bool_decide (Some (rg_revision group) = suffix_revision)) || ar_suffix_seen ar
      then Some (Err IntegrityFailure)
      else
        match ar_suffix ar with
        | None => Some (Err IntegrityFailure)
        | Some suffix =>
            if negb (frontier_matches (ps_transaction suffix) group decoded) then Some (Err IntegrityFailure)
            else
              match state_validate_external_prepared (rc_state (ar_recovery ar)) (dg_request decoded)
                      (dg_blob_inventory decoded) (rg_revision group) (ps_prepared suffix) with
              | Err _ => Some (Err IntegrityFailure)
              | Ok _ =>
                  if negb (bool_decide (state_result_digest (ps_prepared suffix) = out_result_digest (dg_outcome decoded)))
                  then Some (Err IntegrityFailure)
                  else
                    match record_decoded_group_metadata (ar_recovery ar) decoded with
                    | Err e => Some (Err e)
                    | Ok r =>
                        state ← state_publish (ps_prepared suffix) (rc_state r);
                        Some (Ok (mk_anchored_replay (with_state r state) None (ar_base_seen ar) true))
                    end
              end
        end
  end.
Definition open_journal_anchored_prepared_bounded `{!ExternallyPreparedTransactionState S}
    `{!JournalAnchoredTransactionState S} (fs : F) (scope : NamespaceRef) (retention : Z) (state : S)
    (suffix : option RecoveredPreparedSuffix) (limits : CoordinatorRecoveryLimits) :
    option (F * result TxError (CommitCoordinator (S := S) (J := J) * RecoveryReport)) :=
  match map_err map_apply_error (state_journal_base_anchor state) with
  | Err e => Some (fs, Err e)
  | Ok (base_scope, base_revision, base_certificate_digest) =>
      if negb (bool_decide (base_scope = scope)) then Some (fs, Err TxIntegrityFailure)
      else
        match match suffix with
              | Some _ => Some <$> map_err (λ _, TxRevisionExhausted (StorageError := StorageError))
                                     (CommitRevision_checked_next base_revision)
              | None => Ok None
              end with
        | Err e => Some (fs, Err e)
        | Ok suffix_revision =>
            if match suffix with
               | Some suffix => negb (bool_decide (Some (ft_revision (ps_transaction suffix)) = suffix_revision))
               | None => false
               end
            then Some (fs, Err TxIntegrityFailure)
            else
              let expected_frontier := default base_revision suffix_revision in
              '(fs, opened) ← journal_open fs
                (replay_anchored scope base_revision base_certificate_digest suffix_revision limits)
                (mk_anchored_replay (mk_recovery state ∅ ∅ ∅) suffix false false);
              Some (fs,
                '(journal, report, ar) ← map_err (λ error, match error with
                                                           | ResourceLimit => TxResourceLimit
                                                           | other => map_open_error other
                                                           end) opened;
                if negb (ar_base_seen ar) || bool_decide (is_Some (ar_suffix ar))
                   || negb (bool_decide (rr_frontier report = Some expected_frontier))
                   || negb (Bool.eqb (ar_suffix_seen ar) (bool_decide (is_Some suffix_revision)))
                then Err TxIntegrityFailure
                else Ok (recovered_coordinator scope retention journal (ar_recovery ar), report))
        end
  end.
Definition open_journal_anchored_prepared `{!ExternallyPreparedTransactionState S}
    `{!JournalAnchoredTransactionState S} (fs : F) (scope : NamespaceRef) (retention : Z) (state : S)
    (suffix : option RecoveredPreparedSuffix) :
    option (F * result TxError (CommitCoordinator (S := S) (J := J) * RecoveryReport)) :=
  open_journal_anchored_prepared_bounded fs scope retention state suffix CoordinatorRecoveryLimits_default.
End recovery.
