(* ===== verification/TxnRecoveryFacts.v ===== *)
(** * A seeded recovery is a full replay

    A checkpoint cache is never trusted for the coordinator's metadata: opening
    from a seed succeeds exactly when the journal itself yields the seed's maps. *)
From S2P Require Import Prelude Ids Policy GraphState GraphCheckpoint GraphQuery Storage Blob Journal TxnGroup TxnCoordinator TxnGuarantees TxnRecovery.
Import StorageError.

(** ** Maps that are handed over entry by entry *)
Section handover.
Context `{Countable K} {V : Type}.
Implicit Types (whole rest done : gmap K V).
End handover.

Section facts.
Context {S J F : Type} `{TransactionStateLaws S, JournalLaws J F} (sha256 : list byte → list byte).
Implicit Types (r e v : Recovery (S := S)) (seed : CoordinatorRecoverySeed (S := S)).


(** ** Owners *)
Lemma own_first_subseteq principal owners reference : owners ⊆ own_first principal owners reference.
Proof. unfold own_first. destruct (owners !! _) eqn:Ho; [done|]. by apply insert_subseteq. Qed.
Lemma own_all_subseteq principal references owners : owners ⊆ own_all principal references owners.
Proof.
  revert owners. induction references as [|x l IH]; intros owners; [done|]. cbn.
  etrans; [apply own_first_subseteq|apply IH].
Qed.
Lemma own_all_has principal references owners reference : reference ∈ references →
  ∃ x, own_all principal references owners !! owner_key reference = Some x.
Proof.
  revert owners. induction references as [|y l IH]; intros owners; [by intros ?%not_elem_of_nil|].
  intros [->|Hin]%elem_of_cons; [|by apply IH]. cbn.
  assert (∃ x, own_first principal owners y !! owner_key y = Some x) as [x Hx].
  { unfold own_first. destruct (owners !! _) eqn:Ho; [by rewrite Ho; eauto|]. rewrite lookup_insert_eq. eauto. }
  exists x. by eapply lookup_weaken, own_all_subseteq.
Qed.



End facts.
