(* ===== verification/TxnSamples.v ===== *)
(** * Worked executions of the coordinator

    A journal kept in memory whose appends follow a script of faults, and the
    graph reducer over it.  The guarantees are applied to an execution that commits,
    loses its process, reopens and is asked again. *)
From S2P Require Import Prelude Ids Policy GraphRecord GraphCodec GraphState GraphCheckpoint GraphPublish GraphReachable GraphSamples GraphQuery GraphGuarantees GraphDurable Storage Blob Journal TxnGroup TxnCoordinator TxnGuarantees TxnGraph TxnRecovery TxnRecoveryFacts.
Import StorageError.

(** ** A journal in memory *)
Inductive AppendFault : Set := RefuseLimit | LoseBefore | LoseAfter | NoFault.
Record MemoryStore : Set := mk_memory { ms_log : list RecoveredGroup; ms_faults : list AppendFault; ms_locked : bool }.
Record MemoryJournal : Set := mk_memory_journal { mj_frontier : option CommitRevision; mj_poisoned : bool }.
Definition memory_append (j : MemoryJournal) (f : MemoryStore) (input : CommitInput)
    (inventory : option BlobInventory) : MemoryJournal * MemoryStore * result StorageError DurableCommit :=
  if mj_poisoned j then (j, f, Err NeedsRecovery)
  else
    let revision := revision_after (mj_frontier j) in
    let digest := ci_logical_event_digest input in
    let group := mk_recovered_group revision digest (ci_encoded_group input) (log_inventory_digest inventory)
                   inventory digest in
    let poisoned := mk_memory_journal (mj_frontier j) true in
    match ms_faults f with
    | RefuseLimit :: faults => (j, mk_memory (ms_log f) faults (ms_locked f), Err ResourceLimit)
    | LoseBefore :: faults => (poisoned, mk_memory (ms_log f) faults (ms_locked f), Err (Adapter Io))
    | LoseAfter :: faults => (poisoned, mk_memory (ms_log f ++ [group]) faults (ms_locked f), Err (Adapter Io))
    | faults => (mk_memory_journal (Some revision) false, mk_memory (ms_log f ++ [group]) (drop 1 faults) (ms_locked f),
                 Ok (mk_durable_commit revision digest))
    end.
Definition memory_open {A : Type} (f : MemoryStore) (visit : A → RecoveredGroup → option (result StorageError A)) (a : A) :
    option (MemoryStore * result StorageError (MemoryJournal * RecoveryReport * A)) :=
  if ms_locked f then Some (f, Err (Adapter OwnershipConflict))
  else
  match visit_all visit (ms_log f) a with
  | Some (Ok a') =>
      let frontier := log_frontier (ms_log f) in
      Some (mk_memory (ms_log f) (ms_faults f) true, Ok (mk_memory_journal frontier false, mk_recovery_report frontier [] 0 0, a'))
  | Some (Err e) => Some (f, Err e)
  | None => None
  end.
#[global] Instance memory_journal : JournalStore MemoryJournal MemoryStore := {
  journal_frontier := mj_frontier;
  journal_append_group j f input := memory_append j f input None;
  journal_append_group_with_inventory j f input inventory := memory_append j f input (Some inventory);
  DiskBlobAppendLimits := unit;
  journal_append_group_with_disk_inventory j f input inventory _ := memory_append j f input (Some inventory);
  journal_close j f := mk_memory (ms_log f) (ms_faults f) false;
  journal_blob_metadata_resident _ := true;
  journal_open A := memory_open
}.
Definition memory_durable (f : MemoryStore) (log : list RecoveredGroup) : Prop :=
  ms_log f = log ∧ log_numbered log ∧ ms_locked f = false.
Definition memory_owns (j : MemoryJournal) (f : MemoryStore) (log : list RecoveredGroup) : Prop :=
  ms_log f = log ∧ log_numbered log ∧ ms_locked f = true ∧ mj_frontier j = log_frontier log.
Lemma memory_append_law j f log input inventory : memory_owns j f log →
  append_outcome memory_owns memory_durable log input inventory (memory_append j f input inventory).
Proof.
  intros (<- & Hn & Hlock & Hf). unfold memory_append. destruct (mj_poisoned j); [by left|]. rewrite Hf.
  set (g := mk_recovered_group _ _ _ _ _ _).
  assert (appended (ms_log f) input inventory g) as Hg by done.
  assert (log_numbered (ms_log f ++ [g])) as Hn' by (by apply log_numbered_snoc).
  assert (Some (rg_revision g) = log_frontier (ms_log f ++ [g])) as Hl by (unfold log_frontier; by rewrite last_snoc).
  destruct (ms_faults f) as [|[] faults]; cbn.
  - exists g. by split_and!.
  - by split.
  - by left.
  - right. by exists g.
  - exists g. by split_and!.
Qed.
#[global] Instance memory_journal_laws : JournalLaws MemoryJournal MemoryStore.
Proof.
  refine {| durable := memory_durable; owns := memory_owns |}.
  - by intros f log (_ & Hn & _).
  - by intros j f log (Hd & Hn & _).
  - by intros j f log (_ & _ & _ & Hf).
  - intros j f log input Ho. by apply memory_append_law.
  - intros j f log input inventory Ho _. by apply memory_append_law.
  - intros j f log input inventory limits Ho _. by apply memory_append_law.
  - intros f log (<- & Hn & Hlock). exists (mk_memory (ms_log f) (ms_faults f) true), (mk_memory_journal (log_frontier (ms_log f)) false),
      (mk_recovery_report (log_frontier (ms_log f)) [] 0 0). split; [by split_and!|]. split; [done|]. intros A visit a.
    cbn [journal_open memory_journal]. unfold memory_open. rewrite Hlock.
    destruct (visit_all visit (ms_log f) a) as [[a'|e]|]; [done| |done]. exists f. split; [done|]. by split_and!.
Defined.

(** ** A reducer that counts request bytes *)
#[local] Instance counter_state : TransactionState Z := {
  Prepared := Z;
  Snapshot := Z;
  state_prepare s request inventory revision := Some (if s <? 100 then Ok (s + zlen request) else Err ApplyError.ResourceLimit);
  state_result_digest := be_bytes 32;
  state_publish p s := Some p;
  state_snapshot := id
}.
#[local] Instance counter_laws : TransactionStateLaws Z.
Proof.
  refine {| reducer_valid := λ _, True |}.
  - intros s request inventory revision p _ _. by exists p.
  - intros s request inventory revision p _. apply length_be_bytes.
Defined.

(** ** Executions *)
Definition sample_sha (bytes : list byte) : list byte := be_bytes 32 (zlen bytes).
Lemma sample_sha_wide : sha256_wide sample_sha.
Proof. intros b. apply length_be_bytes. Qed.
Definition sample_request : TransactionRequest :=
  mk_request (PrincipalDigest_from_bytes (be_bytes 32 1)) (from_bytes (be_bytes 16 2)) (from_bytes (be_bytes 16 3))
    (lit "add") None.
Definition sample_accepted : UtcInstant := mk_instant 1700000000 0.
Definition sample_later : UtcInstant := mk_instant 1700000500 0.
Definition sample_start (faults : list AppendFault) : CommitCoordinator (S := Z) (J := MemoryJournal) * MemoryStore :=
  (coordinator_create sample_txn_scope 30 (mk_memory_journal None false) 0, mk_memory [] faults true).
Lemma sample_start_reachable faults : coordinator_reachable sample_sha 0 (sample_start faults).
Proof.
  exists sample_txn_scope, 30, (mk_memory_journal None false), (mk_memory [] faults true).
  split; [done|]. split; [by split|]. split; [by split|]. split; [|apply rtc_refl].
  split; [done|]. split; [apply log_numbered_nil|done].
Qed.
Lemma sample_request_ok : request_ok sample_request.
Proof. by split_and!. Qed.
Lemma sample_observed : observes_instant (Some sample_accepted).
Proof. intros i [= <-]. unfold instant_ok, MIN_EPOCH_SECONDS, MAX_EPOCH_SECONDS. cbn. lia. Qed.
(** The commit of the sample request. *)
Definition sample_commit (faults : list AppendFault) :=
  commit sample_sha (sample_start faults).1 (sample_start faults).2 sample_request (Some sample_accepted) (false, false).
Definition answered (r : option (CommitCoordinator (S := Z) (J := MemoryJournal) * MemoryStore * result TxError TransactionOutcome)) : bool :=
  match r with
  | Some (co, _, Ok o) => bool_decide (inst_seconds (out_expires_at o) = 1702592000) && bool_decide (cc_state co = 3)
  | _ => false
  end.
(** Committed, the process lost, reopened, asked again. *)
Lemma commit_exactly_once_witness : ∃ co fs co2 fs2 o,
  sample_commit [NoFault] = Some (co, fs, Ok o) ∧
  coordinator_step sample_sha 0 (co, fs) (co2, fs2) ∧
  commit sample_sha co2 fs2 sample_request (Some sample_later) (false, false) = Some (co2, fs2, Ok o).
Proof.
  assert (answered (sample_commit [NoFault]) = true) as Ha by (vm_compute; reflexivity).
  destruct (sample_commit [NoFault]) as [[[co fs] [o|]]|] eqn:Hc; [|discriminate Ha..].
  apply andb_true_iff in Ha as [He%bool_decide_eq_true _].
  assert (coordinator_step sample_sha 0 (sample_start [NoFault]) (co, fs)) as Hstep.
  { eapply step_commit; [apply sample_request_ok|apply sample_observed|exact Hc]. }
  assert (coordinator_inv sample_sha 0 co fs) as Hinv.
  { apply (step_inv sample_sha sample_sha_wide 0 _ _ Hstep), (reachable_coordinator_inv sample_sha 0 _ sample_sha_wide),
      sample_start_reachable. }
  apply inv_durable in Hinv as (Hi & Hs & Hr & log & r & Hd & Hrep & _).
  destruct (open_exact sample_sha 0 _ _ (journal_close (cc_journal co) fs) log r Hi Hs Hr Hd Hrep) as (fs2 & co2 & report & Ho & _ & Hcert & _).
  exists co, fs, co2, fs2, o. split; [reflexivity|].
  assert (coordinator_step sample_sha 0 (co, fs) (co2, fs2)) as Hstep2 by (eapply step_reopen; exact Ho).
  split; [exact Hstep2|].
  pose proof (commit_exactly_once sample_sha 0 _ _ sample_request _ _ co fs o co2 fs2 sample_sha_wide
    (sample_start_reachable [NoFault]) sample_request_ok sample_observed Hc (rtc_once _ _ Hstep2) sample_later (false, false)) as Hanswer.
  rewrite (proj1 Hcert) in Hanswer. unfold instant_lt in Hanswer. rewrite He in Hanswer. exact (proj1 Hanswer).
Defined.
(** An append lost after it became durable: the reopened coordinator has the commit. *)
Lemma recovery_exact_witness : ∃ co fs fs' co' report,
  sample_commit [LoseAfter] = Some (co, fs, Err TxOutcomeUnknown) ∧
  coordinator_open sample_sha (journal_close (cc_journal co) fs) (cc_scope co) (cc_retention co) 0 = Some (fs', Ok (co', report)) ∧ cc_uncertain co' = false.
Proof.
  assert (match sample_commit [LoseAfter] with Some (_, _, Err TxOutcomeUnknown) => true | _ => false end = true) as Ha
    by (vm_compute; reflexivity).
  destruct (sample_commit [LoseAfter]) as [[[co fs] [o|e]]|] eqn:Hc; [discriminate Ha| |discriminate Ha].
  assert (e = TxOutcomeUnknown) as -> by (destruct e; first [reflexivity|discriminate Ha]).
  assert (coordinator_reachable sample_sha 0 (co, fs)) as Hr.
  { destruct (sample_start_reachable [LoseAfter]) as (sc & rt & j & f & Hv & Hs & Hrt & Ho & Hsteps).
    exists sc, rt, j, f. do 4 (split; [assumption|]). eapply rtc_r; [exact Hsteps|].
    eapply step_commit; [apply sample_request_ok|apply sample_observed|exact Hc]. }
  destruct (recovery_exact sample_sha 0 co fs sample_sha_wide Hr) as (fs' & co' & report & Ho & Hu & _).
  exists co, fs, fs', co', report. split_and!; [reflexivity|exact Ho|exact Hu].
Defined.
Lemma commit_atomic_witness : ∃ co fs o,
  sample_commit [NoFault] = Some (co, fs, Ok o) ∧ out_revision o = 1 ∧ journal_frontier (cc_journal co) = Some 1 ∧ cc_state co = 3.
Proof.
  destruct (commit_atomic sample_sha 0 (sample_start [NoFault]).1 (sample_start [NoFault]).2 sample_request
    (Some sample_accepted) (false, false) sample_sha_wide (sample_start_reachable [NoFault]) eq_refl sample_request_ok
    sample_observed ltac:(intros; discriminate)) as (log & co & fs & r & _ & Hc & Hcase).
  assert (answered (sample_commit [NoFault]) = true) as Ha by (vm_compute; reflexivity).
  unfold sample_commit in Ha. rewrite Hc in Ha. destruct r as [o|]; [|discriminate Ha].
  exists co, fs, o. split; [exact Hc|]. apply andb_true_iff in Ha as [_ Hst%bool_decide_eq_true].
  destruct Hcase as (_ & _ & Hrev & Hf & _). rewrite Hf, Hrev. split_and!; [reflexivity..|exact Hst].
Defined.

(** ** The graph engine *)
#[local] Instance graph_sample_state : TransactionState GraphState := graph_transaction_state graph_sha.
#[local] Instance graph_sample_laws : TransactionStateLaws GraphState := graph_transaction_laws graph_sha sample_sha_wide.
Definition graph_engine : CommitCoordinator (S := GraphState) (J := MemoryJournal) * MemoryStore :=
  (coordinator_create graph_scope 30 (mk_memory_journal None false) (GraphState_new graph_scope), mk_memory [] [LoseAfter] true).
Definition graph_create_request : TransactionRequest :=
  mk_request (PrincipalDigest_from_bytes (be_bytes 32 1)) (from_bytes (be_bytes 16 2)) (from_bytes (be_bytes 16 3))
    (match encode_transaction tx_create with Ok bytes => bytes | Err _ => [] end) None.
(** The append is lost after it became durable, the graph reopened. *)
Definition graph_commit_lost := commit graph_sha graph_engine.1 graph_engine.2 graph_create_request (Some sample_accepted) (false, false).
Definition graph_reopened := match graph_commit_lost with
  | Some (co, fs, Err TxOutcomeUnknown) => coordinator_open graph_sha (journal_close (cc_journal co) fs) (cc_scope co) (cc_retention co) (GraphState_new graph_scope)
  | _ => None
  end.
Lemma durable_graph_reachable_witness : ∃ co fs report,
  graph_reopened = Some (fs, Ok (co, report)) ∧
  reachable graph_sha graph_scope (cc_state co) ∧ revision (cc_state co) = Some 1.
Proof.
  assert (match graph_reopened with Some (_, Ok (co, _)) => bool_decide (mj_frontier (cc_journal co) = Some 1) && negb (cc_uncertain co) | _ => false end = true)
    as Hb by (vm_compute; reflexivity).
  unfold graph_reopened in *. destruct graph_commit_lost as [[[co fs] [o|e]]|] eqn:Hc; [discriminate Hb| |discriminate Hb].
  destruct e; try discriminate Hb.
  destruct (coordinator_open _ _ _ _ _) as [[fs' [[co' report]|]]|] eqn:Ho; [|discriminate Hb..].
  apply andb_true_iff in Hb as [Hf%bool_decide_eq_true Hu%negb_true_iff].
  exists co', fs', report. split; [reflexivity|].
  assert (coordinator_reachable graph_sha (GraphState_new graph_scope) (co', fs')) as Hr.
  { exists graph_scope, 30, (mk_memory_journal None false), (mk_memory [] [LoseAfter] true).
    split; [apply graph_inv_new|]. split; [by split|]. split; [by split|].
    split; [exact (conj eq_refl (conj log_numbered_nil (conj eq_refl eq_refl)))|].
    apply (rtc_l _ _ (co, fs)); [|apply rtc_once; by eapply step_reopen].
    eapply step_commit; [|apply sample_observed|exact Hc]. by split_and!. }
  destruct (durable_graph_reachable graph_sha sample_sha_wide graph_scope co' fs' Hr) as [Hreach Hrev].
  split; [exact Hreach|]. by rewrite (Hrev Hu), <-Hf.
Defined.
