(* ===== verification/Envelope.v ===== *)
(** * The cryptographic envelope

    Models [crates/uste-crypto/src/{context,key,envelope}.rs]: contexts and their
    canonical bytes, the padded object envelope and its public format, and the
    vault with its nonce session.  The cipher and the key derivation are
    third-party code: the class [Aead].  Diagnostic counters and the process-local
    session token are left out. *)
From S2P Require Import Prelude Ids Storage.
Import CryptoError.

(** ** Contexts *)
Abbreviation KeyEpoch := Z.
Definition KeyEpoch_FIRST : KeyEpoch := 1.
(** [KeyEpoch::new]; zero is the only value refused. *)
Definition KeyEpoch_new (value : Z) : option KeyEpoch := if value =? 0 then None else Some value.

Inductive Scope : Set := ScopeDatabase | ScopeNamespace (namespace : NamespaceId).
Inductive ObjectRole : Set :=
| JournalGroup | CommitCertificate | BlobChunk | Snapshot | IndexPage | Backup | TemporarySpill | WorkerOutput
| CreationManifest | RoleBlobInventory | BlobManifest | BlobInventoryName | IndexName.
#[global] Instance ObjectRole_eq_dec : EqDecision ObjectRole.
Proof. solve_decision. Defined.
Definition role_tag (role : ObjectRole) : byte :=
  match role with
  | JournalGroup => x01 | CommitCertificate => x02 | BlobChunk => x03 | Snapshot => x04 | IndexPage => x05
  | Backup => x06 | TemporarySpill => x07 | WorkerOutput => x08 | CreationManifest => x09
  | RoleBlobInventory => x0a | BlobManifest => x0b | BlobInventoryName => x0c | IndexName => x0d
  end.
Inductive FrameClass : Set := Small4KiB | Blob64KiB.
#[global] Instance FrameClass_eq_dec : EqDecision FrameClass.
Proof. solve_decision. Defined.
Definition frame_bytes (frame : FrameClass) : Z :=
  match frame with Small4KiB => 4 * 1024 | Blob64KiB => 64 * 1024 end.
Definition frame_tag (frame : FrameClass) : byte :=
  match frame with Small4KiB => x01 | Blob64KiB => x02 end.
Definition frame_from_tag (tag : byte) : option FrameClass :=
  match tag with x01 => Some Small4KiB | x02 => Some Blob64KiB | _ => None end.

Record CryptoContext : Set := mk_context {
  cx_database : DatabaseId;
  cx_scope : Scope;
  cx_epoch : KeyEpoch;
  cx_role : ObjectRole;
  cx_object : list byte;
  cx_sequence : Z;
  cx_writer : list byte;
  cx_major : byte;
  cx_minor : byte;
  cx_frame : FrameClass
}.
(** The scope takes bytes 16 to 33: a tag and the namespace, or zeros. *)
Definition scope_bytes (scope : Scope) : list byte :=
  match scope with
  | ScopeDatabase => [x00] ++ zeros 16
  | ScopeNamespace namespace => [x01] ++ as_bytes namespace
  end.
Definition canonical_bytes (c : CryptoContext) : list byte :=
  as_bytes (cx_database c) ++ scope_bytes (cx_scope c) ++ be_bytes 8 (cx_epoch c) ++ [role_tag (cx_role c)]
  ++ cx_object c ++ be_bytes 8 (cx_sequence c) ++ cx_writer c ++ [cx_major c] ++ [cx_minor c]
  ++ [frame_tag (cx_frame c)] ++ zeros 3.

(** ** The public format *)
Definition ENVELOPE_FORMAT_MAJOR : byte := x01.
Definition ENVELOPE_FORMAT_MINOR : byte := x00.
Definition OBJECT_ENVELOPE_KIND : byte := x80.
Definition XCHACHA20_POLY1305_HKDF_SHA256_SUITE : byte := x01.
Definition TAG_BYTES : Z := 16.
Definition NONCE_BYTES : nat := 24%nat.
Definition HEADER_BYTES : Z := 49.
Definition INNER_LENGTH_BYTES : Z := 8.
Definition MAGIC : list byte := lit "USTE".
Definition AAD_DOMAIN : list byte := lit "USTE crypto-v1 AEAD".
Definition MAX_PLAINTEXT_BYTES : Z := 16 * 1024 * 1024.
Definition MAX_NONCES_PER_WRITER_SESSION : Z := 1048576.

Record EncryptedEnvelope : Set := mk_envelope {
  ev_frame : FrameClass;
  ev_epoch : KeyEpoch;
  ev_nonce : list byte;
  ev_ciphertext : list byte
}.
#[global] Instance EncryptedEnvelope_eq_dec : EqDecision EncryptedEnvelope.
Proof. solve_decision. Defined.
Definition object_header (frame : FrameClass) (epoch : KeyEpoch) (nonce : list byte) (ciphertext_len : Z) :
    result CryptoError (list byte) :=
  if U64_MAX <? ciphertext_len then Err ResourceLimit
  else
    Ok (MAGIC ++ [OBJECT_ENVELOPE_KIND] ++ [ENVELOPE_FORMAT_MAJOR] ++ [ENVELOPE_FORMAT_MINOR]
        ++ [XCHACHA20_POLY1305_HKDF_SHA256_SUITE] ++ [frame_tag frame] ++ be_bytes 8 epoch ++ nonce
        ++ be_bytes 8 ciphertext_len).
Definition envelope_header (e : EncryptedEnvelope) : result CryptoError (list byte) :=
  object_header (ev_frame e) (ev_epoch e) (ev_nonce e) (zlen (ev_ciphertext e)).
Definition associated_data (header : list byte) (context : CryptoContext) : list byte :=
  AAD_DOMAIN ++ header ++ canonical_bytes context.
Definition padded_length (frame : FrameClass) (plaintext_len : Z) : result CryptoError Z :=
  needed ← ok_or (checked_add INNER_LENGTH_BYTES plaintext_len) ResourceLimit;
  length ← ok_or (checked_add needed (frame_bytes frame - 1)) ResourceLimit;
  Ok (length / frame_bytes frame * frame_bytes frame).
Definition validate_ciphertext_length (frame : FrameClass) (length : Z) : result CryptoError unit :=
  payload ← ok_or (checked_sub length TAG_BYTES) InvalidEnvelope;
  if (payload =? 0) || negb (payload mod frame_bytes frame =? 0) then Err InvalidEnvelope
  else
    padded ← padded_length frame MAX_PLAINTEXT_BYTES;
    maximum ← ok_or (checked_add padded TAG_BYTES) ResourceLimit;
    if maximum <? length then Err ResourceLimit else Ok tt.
Definition envelope_encode (e : EncryptedEnvelope) : result CryptoError (list byte) :=
  header ← envelope_header e;
  match checked_add HEADER_BYTES (zlen (ev_ciphertext e)) with
  | Some _ => Ok (header ++ ev_ciphertext e)
  | None => Err ResourceLimit
  end.
Definition envelope_decode (encoded : list byte) : result CryptoError EncryptedEnvelope :=
  if (zlen encoded <? HEADER_BYTES) || negb (bool_decide (slice 0 4 encoded = MAGIC)) then Err InvalidEnvelope
  else if negb (byte_is encoded 4 OBJECT_ENVELOPE_KIND) || negb (byte_is encoded 5 ENVELOPE_FORMAT_MAJOR)
          || negb (byte_is encoded 6 ENVELOPE_FORMAT_MINOR)
          || negb (byte_is encoded 7 XCHACHA20_POLY1305_HKDF_SHA256_SUITE)
  then Err UnsupportedProfile
  else
    frame ← ok_or (encoded !! 8%nat ≫= frame_from_tag) UnsupportedProfile;
    epoch ← ok_or (KeyEpoch_new (of_be_bytes (slice 9 8 encoded))) InvalidEnvelope;
    let nonce := slice 17 24 encoded in
    let ciphertext_len := of_be_bytes (slice 41 8 encoded) in
    validate_ciphertext_length frame ciphertext_len;;
    expected ← ok_or (checked_add HEADER_BYTES ciphertext_len) ResourceLimit;
    if negb (zlen encoded =? expected) then Err IntegrityFailure
    else Ok (mk_envelope frame epoch nonce (drop 49 encoded)).

(** ** Ciphers *)

(** XChaCha20-Poly1305 and HKDF-SHA-256.  [aead_encrypt] appends the tag;
    [aead_decrypt] is [None] when authentication fails. *)
Class Aead := {
  hkdf_expand : list byte → list byte → list (list byte) → nat → option (list byte);
  aead_encrypt : list byte → list byte → list byte → list byte → option (list byte);
  aead_decrypt : list byte → list byte → list byte → list byte → option (list byte)
}.
Definition HKDF_SALT : list byte := lit "USTE crypto-v1 HKDF-SHA256 extract".
Definition HKDF_INFO : list byte := lit "USTE crypto-v1 object-key".
Definition HKDF_PUBLIC_TOKEN_INFO : list byte := lit "USTE crypto-v1 public opaque token".

Section cipher.
Context `{Aead}.
Definition derive (master : list byte) (context : CryptoContext) : result CryptoError (list byte) :=
  ok_or (hkdf_expand HKDF_SALT master [HKDF_INFO; canonical_bytes context] 32) InvalidContext.
Definition derive_public_token (master : list byte) (context : CryptoContext) (input : list byte) :
    result CryptoError (list byte) :=
  ok_or (hkdf_expand HKDF_SALT master [HKDF_PUBLIC_TOKEN_INFO; canonical_bytes context; input] 32) InvalidContext.
(** The plaintext with its length in front, padded to whole frames. *)
Definition pad (plaintext : list byte) (padded_len : Z) : list byte :=
  be_bytes 8 (zlen plaintext) ++ plaintext
  ++ zeros (Z.to_nat (padded_len - (INNER_LENGTH_BYTES + zlen plaintext))).
Definition encrypt (master : list byte) (context : CryptoContext) (nonce plaintext : list byte) :
    result CryptoError EncryptedEnvelope :=
  let frame := cx_frame context in
  padded_len ← padded_length frame (zlen plaintext);
  ciphertext_len ← ok_or (checked_add padded_len TAG_BYTES) ResourceLimit;
  header ← object_header frame (cx_epoch context) nonce ciphertext_len;
  let aad := associated_data header context in
  key ← derive master context;
  ciphertext ← ok_or (aead_encrypt key nonce aad (pad plaintext padded_len)) IntegrityFailure;
  Ok (mk_envelope frame (cx_epoch context) nonce ciphertext).
(** The checks on the decrypted frame. *)
Definition unpad (padded : list byte) : result CryptoError (list byte) :=
  if zlen padded <? INNER_LENGTH_BYTES then Err IntegrityFailure
  else
    let actual := of_be_bytes (slice 0 8 padded) in
    if (MAX_PLAINTEXT_BYTES <? actual) || (zlen padded - INNER_LENGTH_BYTES <? actual) then Err IntegrityFailure
    else
      let end_ := (8 + Z.to_nat actual)%nat in
      if negb (all_zero (drop end_ padded)) then Err IntegrityFailure
      else Ok (slice 8 (Z.to_nat actual) padded).
Definition decrypt (master : list byte) (context : CryptoContext) (envelope : EncryptedEnvelope) :
    result CryptoError (list byte) :=
  if negb (cx_epoch context =? ev_epoch envelope) || negb (bool_decide (cx_frame context = ev_frame envelope))
  then Err IntegrityFailure
  else
    validate_ciphertext_length (ev_frame envelope) (zlen (ev_ciphertext envelope));;
    header ← envelope_header envelope;
    let aad := associated_data header context in
    key ← derive master context;
    padded ← ok_or (aead_decrypt key (ev_nonce envelope) aad (ev_ciphertext envelope)) IntegrityFailure;
    unpad padded.
End cipher.

(** ** The vault *)

(** [EntropySource::fill]: [None] is [EntropyFailure]. *)
Class EntropySource (E : Type) := entropy_fill : E → nat → E * option (list byte).
(** [KeyAdapter] over envelopes [W]. *)
Class KeyAdapter (A W : Type) := {
  adapter_wrap : ∀ {E : Type} `{EntropySource E}, A → DatabaseId → list byte → E → A * E * result CryptoError W;
  adapter_unwrap : A → DatabaseId → W → A * result CryptoError (list byte)
}.

Section vault.
Context {W E : Type} `{Aead, EntropySource E}.
Record KeyVault := mk_vault {
  kv_database : DatabaseId;
  kv_wrapped : W;
  kv_key : option (list byte);
  kv_entropy : E;
  kv_used_nonces : gset (list byte);
  kv_nonce_limit : Z
}.
Definition SecretKeyMaterial_generate (entropy : E) : E * result CryptoError (list byte) :=
  let '(entropy, bytes) := entropy_fill entropy 32 in (entropy, ok_or bytes RetryableUnavailable).
Definition KeyVault_create {A} `{KeyAdapter A W} (database : DatabaseId) (adapter : A) (entropy : E) :
    A * result CryptoError KeyVault :=
  match SecretKeyMaterial_generate entropy with
  | (_, Err error) => (adapter, Err error)
  | (entropy, Ok key) =>
      match adapter_wrap adapter database key entropy with
      | (adapter, _, Err error) => (adapter, Err error)
      | (adapter, entropy, Ok wrapped) =>
          (adapter, Ok (mk_vault database wrapped (Some key) entropy ∅ MAX_NONCES_PER_WRITER_SESSION))
      end
  end.
Definition from_locked (database : DatabaseId) (wrapped : W) (entropy : E) : KeyVault :=
  mk_vault database wrapped None entropy ∅ MAX_NONCES_PER_WRITER_SESSION.
Definition with_key (v : KeyVault) (key : option (list byte)) : KeyVault :=
  mk_vault (kv_database v) (kv_wrapped v) key (kv_entropy v) (kv_used_nonces v) (kv_nonce_limit v).
Definition unlock {A} `{KeyAdapter A W} (v : KeyVault) (adapter : A) : KeyVault * A * result CryptoError unit :=
  match kv_key v with
  | Some _ => (v, adapter, Ok tt)
  | None =>
      match adapter_unwrap adapter (kv_database v) (kv_wrapped v) with
      | (adapter, Ok key) => (with_key v (Some key), adapter, Ok tt)
      | (adapter, Err error) => (v, adapter, Err error)
      end
  end.
Definition vault_lock (v : KeyVault) : KeyVault := with_key v None.
Definition nonces_used (v : KeyVault) (entropy : E) (used : gset (list byte)) : KeyVault :=
  mk_vault (kv_database v) (kv_wrapped v) (kv_key v) entropy used (kv_nonce_limit v).
(** [KeyVault::encrypt]: a nonce is reserved before the cipher runs. *)
Definition vault_encrypt (v : KeyVault) (context : CryptoContext) (plaintext : list byte) :
    KeyVault * result CryptoError EncryptedEnvelope :=
  if negb (bool_decide (cx_database context = kv_database v)) then (v, Err InvalidContext)
  else if MAX_PLAINTEXT_BYTES <? zlen plaintext then (v, Err ResourceLimit)
  else
    match kv_key v with
    | None => (v, Err Locked)
    | Some key =>
        if kv_nonce_limit v <=? Z.of_nat (size (kv_used_nonces v)) then (v, Err NonceSessionExhausted)
        else
          match entropy_fill (kv_entropy v) NONCE_BYTES with
          | (entropy, None) => (nonces_used v entropy (kv_used_nonces v), Err RetryableUnavailable)
          | (entropy, Some nonce) =>
              if bool_decide (nonce ∈ kv_used_nonces v)
              then (nonces_used v entropy (kv_used_nonces v), Err IntegrityFailure)
              else (nonces_used v entropy ({[nonce]} ∪ kv_used_nonces v), encrypt key context nonce plaintext)
          end
    end.
Definition vault_decrypt (v : KeyVault) (context : CryptoContext) (envelope : EncryptedEnvelope) :
    result CryptoError (list byte) :=
  if negb (bool_decide (cx_database context = kv_database v)) then Err IntegrityFailure
  else key ← ok_or (kv_key v) Locked; decrypt key context envelope.
(** [nonce_report]: issued, limit, remaining. *)
Definition nonce_report (v : KeyVault) : Z * Z * Z :=
  let issued := Z.of_nat (size (kv_used_nonces v)) in (issued, kv_nonce_limit v, kv_nonce_limit v - issued).
Definition derive_opaque_identifier (v : KeyVault) (context : CryptoContext) (input : list byte) :
    result CryptoError (list byte) :=
  if negb (bool_decide (cx_database context = kv_database v))
     || negb (match cx_role context with BlobInventoryName | IndexName => true | _ => false end)
  then Err InvalidContext
  else key ← ok_or (kv_key v) Locked; derive_public_token key context input.
End vault.
Arguments KeyVault : clear implicits.

(** ** What the envelope guarantees

    Contexts are told apart by their bytes, the public format is exact, what a
    vault encrypts it decrypts, and a session never issues a nonce twice. *)

#[export] Instance Ok_inj {E T} : Inj (=) (=) (@Ok E T).
Proof. by intros a b [= ->]. Qed.

(** ** Contexts *)
Definition scope_wide (scope : Scope) : Prop :=
  match scope with ScopeDatabase => True | ScopeNamespace namespace => identity_ok namespace end.
(** The widths the types of the source give. *)
Definition context_ok (c : CryptoContext) : Prop :=
  identity_ok (cx_database c) ∧ scope_wide (cx_scope c) ∧ 0 < cx_epoch c ≤ U64_MAX
  ∧ length (cx_object c) = 16%nat ∧ 0 ≤ cx_sequence c ≤ U64_MAX ∧ length (cx_writer c) = 16%nat.
Lemma length_scope_bytes scope : scope_wide scope → length (scope_bytes scope) = 17%nat.
Proof. destruct scope; [done|]. unfold scope_wide, identity_ok. cbn. lia. Qed.
Lemma scope_bytes_inj s1 s2 : scope_wide s1 → scope_wide s2 → scope_bytes s1 = scope_bytes s2 → s1 = s2.
Proof. destruct s1, s2; try done. cbn. intros _ _ [= H]. f_equal. destruct namespace, namespace0. cbn in H. by subst. Qed.
Lemma role_tag_inj r1 r2 : role_tag r1 = role_tag r2 → r1 = r2.
Proof. by destruct r1, r2. Qed.
Lemma frame_tag_inj f1 f2 : frame_tag f1 = frame_tag f2 → f1 = f2.
Proof. by destruct f1, f2. Qed.
Lemma frame_from_tag_Some b f : frame_from_tag b = Some f ↔ b = frame_tag f.
Proof. split; [by destruct b; try done; intros [= <-]|by intros ->; destruct f]. Qed.
Lemma be_bytes_u64_inj a b : 0 ≤ a ≤ U64_MAX → 0 ≤ b ≤ U64_MAX → be_bytes 8 a = be_bytes 8 b → a = b.
Proof.
  unfold U64_MAX. intros Ha Hb H. apply (f_equal of_be_bytes) in H.
  rewrite !of_be_bytes_be in H by (change (256 ^ Z.of_nat 8) with (2 ^ 64); lia). done.
Qed.
Lemma length_canonical c : context_ok c → length (canonical_bytes c) = 88%nat.
Proof.
  intros (Hd & Hs & _ & Ho & _ & Hw). unfold identity_ok in Hd. unfold canonical_bytes.
  rewrite !length_app, !length_be_bytes, length_zeros, (length_scope_bytes _ Hs), Hd, Ho, Hw. done.
Qed.
(** Cut two equal concatenations after parts of equal length. *)
Ltac cut_equal H :=
  match type of H with
  | ?a ++ ?l = ?b ++ ?k =>
      let Hh := fresh "Hpart" in
      apply app_inj_1 in H as [Hh H]; [|first [done|by rewrite !length_be_bytes|congruence]]
  end.
Lemma canonical_bytes_inj c1 c2 : context_ok c1 → context_ok c2 → canonical_bytes c1 = canonical_bytes c2 → c1 = c2.
Proof.
  intros (Hd & Hs & He & Ho & Hq & Hw) (Hd' & Hs' & He' & Ho' & Hq' & Hw') H.
  unfold canonical_bytes, identity_ok in *. cut_equal H.
  apply app_inj_1 in H as [Hsc H]; [|by rewrite !length_scope_bytes]. do 8 cut_equal H.
  apply scope_bytes_inj in Hsc; [|done..]. apply be_bytes_u64_inj in Hpart0, Hpart3; [|lia..].
  injection Hpart1 as Hr%role_tag_inj. injection Hpart5 as Hma. injection Hpart6 as Hmi. injection Hpart7 as Hf%frame_tag_inj.
  destruct c1 as [[]], c2 as [[]]. cbn in *. by subst.
Qed.

(** ** The public format *)
Definition padded_ok (frame : FrameClass) (n : Z) : Prop :=
  0 < n ≤ MAX_PLAINTEXT_BYTES + frame_bytes frame ∧ n mod frame_bytes frame = 0.
Definition envelope_ok (e : EncryptedEnvelope) : Prop :=
  0 < ev_epoch e ≤ U64_MAX ∧ length (ev_nonce e) = 24%nat ∧ padded_ok (ev_frame e) (zlen (ev_ciphertext e) - TAG_BYTES).
Lemma frame_bytes_pos frame : 0 < frame_bytes frame ≤ 65536.
Proof. by destruct frame. Qed.
Lemma validate_length_iff frame n : 0 ≤ n → validate_ciphertext_length frame n = Ok tt ↔ padded_ok frame (n - TAG_BYTES).
Proof.
  intros Hn. unfold validate_ciphertext_length, checked_sub, TAG_BYTES, padded_ok.
  destruct (Z.leb_spec 16 n) as [H16|H16]; cbn [ok_or]; [rewrite result_bind_Ok|split; [done|lia]].
  destruct (Z.eqb_spec (n - 16) 0) as [H0|H0]; [cbn; split; [done|lia]|].
  destruct (Z.eqb_spec ((n - 16) mod frame_bytes frame) 0) as [Hm|Hm]; cbn [orb negb]; [|split; [done|naive_solver]].
  assert (∃ maximum, (padded ← padded_length frame MAX_PLAINTEXT_BYTES;
            maximum ← ok_or (checked_add padded 16) ResourceLimit;
            if maximum <? n then Err ResourceLimit else Ok ()) =
    (if maximum <? n then Err ResourceLimit else Ok ()) ∧ maximum = MAX_PLAINTEXT_BYTES + frame_bytes frame + 16)
    as (maximum & -> & ->) by (destruct frame; by eexists).
  destruct (Z.ltb_spec (MAX_PLAINTEXT_BYTES + frame_bytes frame + 16) n); split; try done; lia.
Qed.
Lemma object_header_ok frame epoch nonce n : 0 ≤ n ≤ U64_MAX → length nonce = 24%nat →
  ∃ header, object_header frame epoch nonce n = Ok header ∧ length header = 49%nat.
Proof.
  intros Hn Hl. unfold object_header. rewrite (proj2 (Z.ltb_ge _ _)) by lia. eexists. split; [done|].
  rewrite !length_app, !length_be_bytes, Hl. done.
Qed.
Lemma envelope_small e : envelope_ok e → zlen (ev_ciphertext e) ≤ 2 ^ 25.
Proof.
  intros (_ & _ & H & _). pose proof (frame_bytes_pos (ev_frame e)). unfold MAX_PLAINTEXT_BYTES, TAG_BYTES in *. lia.
Qed.
Definition ENVELOPE_WIDTHS : list nat := [4; 1; 1; 1; 1; 1; 8; 24; 8]%nat.
Lemma envelope_layout bytes : (49 ≤ length bytes)%nat → bytes = concat (slices 0 ENVELOPE_WIDTHS bytes) ++ drop 49 bytes.
Proof.
  intros Hl. rewrite <-(take_drop 49 bytes) at 1. f_equal.
  rewrite (layout_cut ENVELOPE_WIDTHS (take 49 bytes)) at 1 by (rewrite length_take; change (widths_sum ENVELOPE_WIDTHS) with 49%nat; lia).
  change (take 49 bytes) with (slice 0 49 bytes). unfold ENVELOPE_WIDTHS. cbn [slices Nat.add].
  by rewrite !slice_slice by lia.
Qed.
Lemma envelope_encode_exact e : envelope_ok e → envelope_encode e =
  Ok (MAGIC ++ [OBJECT_ENVELOPE_KIND] ++ [ENVELOPE_FORMAT_MAJOR] ++ [ENVELOPE_FORMAT_MINOR]
      ++ [XCHACHA20_POLY1305_HKDF_SHA256_SUITE] ++ [frame_tag (ev_frame e)] ++ be_bytes 8 (ev_epoch e) ++ ev_nonce e
      ++ be_bytes 8 (zlen (ev_ciphertext e)) ++ ev_ciphertext e).
Proof.
  intros Hok. pose proof (envelope_small e Hok). pose proof (zlen_nonneg (ev_ciphertext e)).
  unfold envelope_encode, envelope_header, object_header, checked_add, HEADER_BYTES, U64_MAX.
  rewrite (proj2 (Z.ltb_ge _ _)), result_bind_Ok, (proj2 (Z.leb_le _ _)) by lia. by rewrite <-!app_assoc.
Qed.
Lemma envelope_decode_complete e bytes : envelope_ok e → envelope_encode e = Ok bytes → envelope_decode bytes = Ok e.
Proof.
  intros Hok. pose proof Hok as (He & Hnonce & Hpad). pose proof (envelope_small e Hok).
  pose proof (zlen_nonneg (ev_ciphertext e)). rewrite (envelope_encode_exact e Hok). intros Hb. apply (inj Ok) in Hb as <-.
  match goal with |- envelope_decode ?b = _ => set (bytes := b) end. assert (zlen bytes = 49 + zlen (ev_ciphertext e)) as Hl.
  { unfold bytes, zlen. rewrite !length_app, !length_be_bytes, Hnonce. change (length MAGIC) with 4%nat. cbn. lia. }
  unfold envelope_decode, HEADER_BYTES. rewrite Hl, (proj2 (Z.ltb_ge _ _)) by lia.
  rewrite bool_decide_true by (unfold bytes; by repeat step_slice). cbn [orb negb].
  rewrite !(proj2 (byte_is_slice _ _ _)) by (unfold bytes; by repeat step_slice). cbn [orb negb].
  change (bytes !! 8%nat) with (Some (frame_tag (ev_frame e))). cbn [mbind option_bind].
  rewrite (proj2 (frame_from_tag_Some _ (ev_frame e))) by done. cbn [ok_or]. rewrite result_bind_Ok.
  assert (slice 9 8 bytes = be_bytes 8 (ev_epoch e) ∧ slice 17 24 bytes = ev_nonce e ∧
    slice 41 8 bytes = be_bytes 8 (zlen (ev_ciphertext e)) ∧ drop 49 bytes = ev_ciphertext e) as (-> & -> & -> & ->).
  { unfold bytes. split_and!; [by repeat step_slice..|].
    rewrite !app_assoc. apply drop_app_length'. rewrite !length_app, !length_be_bytes, Hnonce. done. }
  unfold U64_MAX in He. rewrite !of_be_bytes_be by (change (256 ^ Z.of_nat 8) with (2 ^ 64); lia).
  unfold KeyEpoch_new. rewrite (proj2 (Z.eqb_neq _ _)) by lia. cbn [ok_or]. rewrite result_bind_Ok.
  rewrite (proj2 (validate_length_iff _ _ ltac:(done)) Hpad), result_bind_Ok.
  unfold checked_add, U64_MAX. rewrite (proj2 (Z.leb_le _ _)) by lia. cbn [ok_or]. rewrite result_bind_Ok, Z.eqb_refl.
  by destruct e.
Qed.
Lemma envelope_decode_sound e bytes : envelope_decode bytes = Ok e → envelope_ok e ∧ envelope_encode e = Ok bytes.
Proof.
  unfold envelope_decode, HEADER_BYTES. destruct (Z.ltb_spec (zlen bytes) 49) as [|Hl]; [done|]. cbn [orb].
  destruct (bool_decide (slice 0 4 bytes = MAGIC)) eqn:Hm; [|done]. apply bool_decide_eq_true in Hm. cbn [negb].
  destruct (negb (byte_is bytes 4 _) || _ || _ || _) eqn:Hb; [done|].
  rewrite !orb_false_iff, !negb_false_iff, !byte_is_slice in Hb. destruct Hb as (((H4 & H5) & H6) & H7).
  intros (frame & (tag & H8 & ->%frame_from_tag_Some)%ok_or_Ok%bind_Some & Hk)%bind_Ok.
  apply bind_Ok in Hk as (epoch & Hepoch%ok_or_Ok & Hk). unfold KeyEpoch_new in Hepoch.
  destruct (Z.eqb_spec (of_be_bytes (slice 9 8 bytes)) 0) as [|Hne]; [done|]. injection Hepoch as <-.
  apply bind_Ok in Hk as ([] & Hval & Hk). apply bind_Ok in Hk as (expected & Hexp%ok_or_Ok & Hk).
  destruct (Z.eqb_spec (zlen bytes) expected) as [Heq|]; [|done]. injection Hk as <-.
  unfold zlen in Hl. assert (49 ≤ length bytes)%nat as Hl' by lia.
  pose proof (of_be_slice_range 8 bytes 9 ltac:(lia)) as Hr9. pose proof (of_be_slice_range 8 bytes 41 ltac:(lia)) as Hr41.
  change (256 ^ Z.of_nat 8) with (2 ^ 64) in *. unfold checked_add in Hexp. destruct (_ <=? _); [|done]. injection Hexp as <-.
  assert (zlen (drop 49 bytes) = of_be_bytes (slice 41 8 bytes)) as Hd.
  { unfold zlen in *. rewrite length_drop. lia. }
  assert (envelope_ok (mk_envelope frame (of_be_bytes (slice 9 8 bytes)) (slice 17 24 bytes) (drop 49 bytes))) as Hok.
  { unfold envelope_ok. cbn [ev_epoch ev_nonce ev_frame ev_ciphertext]. rewrite Hd. unfold U64_MAX.
    split_and!; [lia|lia|by apply length_slice; lia|]. apply validate_length_iff; [lia|done]. }
  split; [done|]. rewrite (envelope_encode_exact _ Hok). cbn [ev_epoch ev_nonce ev_frame ev_ciphertext]. rewrite Hd.
  rewrite !of_be_slice by lia. rewrite <-H4, <-H5, <-H6, <-H7, <-Hm.
  assert ([frame_tag frame] = slice 8 1 bytes) as -> by (symmetry; by apply byte_is_slice, bool_decide_eq_true).
  f_equal. symmetry. etrans; [apply envelope_layout, Hl'|]. unfold ENVELOPE_WIDTHS. cbn [slices concat Nat.add].
  by rewrite app_nil_r, <-!app_assoc.
Qed.

(** ** Ciphers *)

(** What the cipher and the key derivation promise: derivation succeeds for up to
    255 blocks and gives the asked width; a cipher call within its limit succeeds,
    appends a tag of 16 bytes, and decryption inverts it. *)
Class AeadLaws `{Aead} := {
  hkdf_width salt key info n : (n ≤ 255 * 32)%nat → ∃ out, hkdf_expand salt key info n = Some out ∧ length out = n;
  aead_correct key nonce aad p : length key = 32%nat → length nonce = 24%nat → zlen p ≤ 2 ^ 36 →
    ∃ c, aead_encrypt key nonce aad p = Some c ∧ zlen c = zlen p + TAG_BYTES ∧ aead_decrypt key nonce aad c = Some p
}.
(** [fill] fills the whole slice or fails. *)
Class EntropyLaws (E : Type) `{EntropySource E} :=
  entropy_width : ∀ e n e' bytes, entropy_fill e n = (e', Some bytes) → length bytes = n.

Lemma padded_length_Ok frame n : 0 ≤ n ≤ MAX_PLAINTEXT_BYTES →
  ∃ m, padded_length frame n = Ok m ∧ padded_ok frame m ∧ INNER_LENGTH_BYTES + n ≤ m.
Proof.
  intros Hn. pose proof (frame_bytes_pos frame) as Hf. unfold padded_length, checked_add, U64_MAX, INNER_LENGTH_BYTES, MAX_PLAINTEXT_BYTES in *.
  rewrite (proj2 (Z.leb_le _ _)) by lia. cbn [ok_or]. rewrite result_bind_Ok, (proj2 (Z.leb_le _ _)) by lia. cbn [ok_or]. rewrite result_bind_Ok.
  eexists. split; [done|]. set (F := frame_bytes frame) in *.
  pose proof (Z.div_mod (8 + n + (F - 1)) F ltac:(lia)) as Hdm. pose proof (Z.mod_pos_bound (8 + n + (F - 1)) F ltac:(lia)) as Hb.
  unfold padded_ok, MAX_PLAINTEXT_BYTES. fold F. rewrite Z_mod_mult. split; [|lia]. split; [|done]. split; [lia|].
  destruct frame; subst F; cbn [frame_bytes] in *; lia.
Qed.
Lemma unpad_pad plaintext m : zlen plaintext ≤ MAX_PLAINTEXT_BYTES → INNER_LENGTH_BYTES + zlen plaintext ≤ m →
  unpad (pad plaintext m) = Ok plaintext ∧ zlen (pad plaintext m) = m.
Proof.
  unfold INNER_LENGTH_BYTES, MAX_PLAINTEXT_BYTES. intros Hmax Hm. pose proof (zlen_nonneg plaintext) as Hp.
  assert (zlen (pad plaintext m) = m) as Hl.
  { unfold pad, zlen, INNER_LENGTH_BYTES in *. rewrite !length_app, length_be_bytes, length_zeros. lia. }
  split; [|done]. unfold unpad, INNER_LENGTH_BYTES, MAX_PLAINTEXT_BYTES. rewrite Hl, (proj2 (Z.ltb_ge _ _)) by lia.
  assert (of_be_bytes (slice 0 8 (pad plaintext m)) = zlen plaintext) as ->.
  { unfold pad. step_slice. apply of_be_bytes_be. change (256 ^ Z.of_nat 8) with (2 ^ 64). lia. }
  rewrite (proj2 (Z.ltb_ge _ (zlen plaintext))), (proj2 (Z.ltb_ge _ _)) by lia. cbn [orb].
  assert (Z.to_nat (zlen plaintext) = length plaintext) as -> by (unfold zlen; lia).
  unfold pad. rewrite app_assoc, drop_app_length' by (by rewrite length_app, length_be_bytes). rewrite all_zero_zeros. cbn [negb].
  rewrite <-app_assoc. f_equal. rewrite (slice_app_skip _ 8) by (by rewrite ?length_be_bytes). apply slice_app_here. done.
Qed.
Section ciphers.
Context `{AeadLaws}.
Lemma encrypt_correct key context nonce plaintext : length key = 32%nat → length nonce = 24%nat →
  context_ok context → zlen plaintext ≤ MAX_PLAINTEXT_BYTES →
  ∃ e, encrypt key context nonce plaintext = Ok e ∧ envelope_ok e ∧ ev_nonce e = nonce ∧ ev_frame e = cx_frame context
    ∧ ev_epoch e = cx_epoch context ∧ INNER_LENGTH_BYTES + zlen plaintext + TAG_BYTES ≤ zlen (ev_ciphertext e)
    ∧ decrypt key context e = Ok plaintext
    ∧ ∃ padded, padded_length (cx_frame context) (zlen plaintext) = Ok padded ∧ zlen (ev_ciphertext e) = padded + TAG_BYTES.
Proof.
  intros Hk Hn (Hdb & Hsc & Hep & Hrest) Hp. pose proof (zlen_nonneg plaintext) as Hp0.
  destruct (padded_length_Ok (cx_frame context) (zlen plaintext) ltac:(lia)) as (m & Hm & Hpad & Hle).
  pose proof Hpad as [Hmr _]. pose proof (frame_bytes_pos (cx_frame context)) as Hf.
  unfold MAX_PLAINTEXT_BYTES in Hmr. unfold encrypt. rewrite Hm, result_bind_Ok.
  unfold checked_add, TAG_BYTES, U64_MAX. rewrite (proj2 (Z.leb_le _ _)) by lia. cbn [ok_or]. rewrite result_bind_Ok.
  destruct (object_header_ok (cx_frame context) (cx_epoch context) nonce (m + 16) ltac:(unfold U64_MAX; lia) Hn) as (header & Hh & _).
  rewrite Hh, result_bind_Ok. unfold derive.
  destruct (hkdf_width HKDF_SALT key [HKDF_INFO; canonical_bytes context] 32 ltac:(lia)) as (dk & Hdk & Hdkl).
  rewrite Hdk. cbn [ok_or]. rewrite result_bind_Ok. destruct (unpad_pad plaintext m Hp Hle) as [Hunpad Hlen].
  destruct (aead_correct dk nonce (associated_data header context) (pad plaintext m) Hdkl Hn ltac:(lia)) as (c & Hc & Hcl & Hdc).
  rewrite Hc. cbn [ok_or]. rewrite result_bind_Ok. eexists. split; [done|]. unfold TAG_BYTES in Hcl.
  assert (zlen c = m + 16) as Hcm by lia. cbn [ev_nonce ev_frame ev_epoch ev_ciphertext]. rewrite Hcm.
  split; [|split_and!; [done..|unfold INNER_LENGTH_BYTES in *; lia| |by exists m]].
  { unfold envelope_ok. cbn [ev_nonce ev_frame ev_epoch ev_ciphertext]. rewrite Hcm. unfold TAG_BYTES.
    split_and!; [lia|lia|done|]. by replace (m + 16 - 16) with m by lia. }
  unfold decrypt. cbn [ev_nonce ev_frame ev_epoch ev_ciphertext]. rewrite Z.eqb_refl, bool_decide_true by done. cbn [negb orb].
  rewrite Hcm, (proj2 (validate_length_iff _ (m + 16) ltac:(lia))) by (unfold TAG_BYTES; by replace (m + 16 - 16) with m by lia).
  rewrite result_bind_Ok. unfold envelope_header. cbn [ev_nonce ev_frame ev_epoch ev_ciphertext]. rewrite Hcm, Hh, result_bind_Ok.
  unfold derive. rewrite Hdk. cbn [ok_or]. rewrite result_bind_Ok, Hdc. cbn [ok_or]. by rewrite result_bind_Ok.
Qed.
End ciphers.

(** ** The vault *)
Section vaults.
Context {W E : Type} `{AeadLaws, EntropyLaws E}.
Implicit Types v : KeyVault W E.
Definition vault_ok v : Prop :=
  (∀ key, kv_key v = Some key → length key = 32%nat)
  ∧ Z.of_nat (size (kv_used_nonces v)) ≤ kv_nonce_limit v ≤ MAX_NONCES_PER_WRITER_SESSION.
(** Two vaults that hold the same key of the same database. *)
Definition same_key v v' : Prop := kv_key v' = kv_key v ∧ kv_database v' = kv_database v.
Local Ltac refused := intros [= <- <-]; do 3 (split; [done|]); by left.
Lemma vault_encrypt_cases v context plaintext v' r : vault_encrypt v context plaintext = (v', r) →
  same_key v v' ∧ kv_nonce_limit v' = kv_nonce_limit v ∧
  match r with
  | Ok e => ∃ key, kv_key v = Some key ∧ cx_database context = kv_database v ∧ zlen plaintext ≤ MAX_PLAINTEXT_BYTES
      ∧ length (ev_nonce e) = 24%nat ∧ encrypt key context (ev_nonce e) plaintext = Ok e
      ∧ (ev_nonce e ∉ kv_used_nonces v) ∧ kv_used_nonces v' = {[ev_nonce e]} ∪ kv_used_nonces v
      ∧ Z.of_nat (size (kv_used_nonces v)) < kv_nonce_limit v
  | Err _ => kv_used_nonces v ⊆ kv_used_nonces v' ∧
      (kv_used_nonces v' = kv_used_nonces v ∨ (Z.of_nat (size (kv_used_nonces v')) ≤ kv_nonce_limit v)%Z)
  end.
Proof.
  unfold vault_encrypt. case_bool_decide as Hdb; cbn [negb]; [|refused].
  destruct (Z.ltb_spec MAX_PLAINTEXT_BYTES (zlen plaintext)); [refused|].
  destruct (kv_key v) as [key|] eqn:Hkey; [|refused].
  destruct (Z.leb_spec (kv_nonce_limit v) (Z.of_nat (size (kv_used_nonces v)))); [refused|].
  destruct (entropy_fill _ _) as [entropy [nonce|]] eqn:Hfill; [|refused].
  case_bool_decide as Hin; [refused|].
  assert (size ({[nonce]} ∪ kv_used_nonces v) = S (size (kv_used_nonces v))) as Hsize.
  { rewrite size_union, size_singleton by set_solver. done. }
  intros [= <- <-]. split; [done|]. split; [done|]. destruct (encrypt key context nonce plaintext) as [e|e] eqn:He.
  - assert (ev_nonce e = nonce) as Hn.
    { unfold encrypt in He. repeat (apply bind_Ok in He as (? & _ & He)). by injection He as <-. }
    exists key. rewrite Hn. split_and!; try done. by apply entropy_width in Hfill.
  - split; [cbn; set_solver|]. right. cbn. rewrite Hsize. lia.
Qed.
(** One use of a vault, with the nonce it put on an envelope. *)
Inductive vault_step : KeyVault W E → option (list byte) → KeyVault W E → Prop :=
| step_encrypt v context plaintext v' r : vault_encrypt v context plaintext = (v', r) →
    vault_step v (match r with Ok e => Some (ev_nonce e) | Err _ => None end) v'
| step_lock v : vault_step v None (vault_lock v)
| step_unlock {A} `{KeyAdapter A W} v (adapter : A) v' adapter' r : unlock v adapter = (v', adapter', r) →
    vault_step v None v'.
Inductive vault_run : KeyVault W E → list (list byte) → KeyVault W E → Prop :=
| run_done v : vault_run v [] v
| run_step v issued v' nonces v'' : vault_step v issued v' → vault_run v' nonces v'' →
    vault_run v (option_list issued ++ nonces) v''.
Lemma vault_step_nonces v issued v' : vault_step v issued v' →
  Z.of_nat (size (kv_used_nonces v)) ≤ kv_nonce_limit v →
  kv_nonce_limit v' = kv_nonce_limit v ∧ Z.of_nat (size (kv_used_nonces v')) ≤ kv_nonce_limit v' ∧
  kv_used_nonces v ⊆ kv_used_nonces v' ∧
  ∀ nonce, issued = Some nonce → (nonce ∉ kv_used_nonces v) ∧ nonce ∈ kv_used_nonces v'.
Proof.
  intros [v1 context plaintext v1' r He|v1|A HA v1 adapter v1' adapter' r Hu] Hs.
  - apply vault_encrypt_cases in He as (_ & Hlim & Hcase). split; [done|]. rewrite Hlim. destruct r as [e|e].
    + destruct Hcase as (key & _ & _ & _ & _ & _ & Hfresh & Hused & Hlt). rewrite Hused.
      rewrite size_union, size_singleton by set_solver. split; [lia|]. split; [set_solver|]. intros nonce [= <-]. set_solver.
    + destruct Hcase as [Hsub [Heq|Hle]]; [rewrite Heq|]; by split_and!.
  - by split_and!.
  - unfold unlock in Hu. destruct (kv_key v1); [injection Hu as <- <- <-; by split_and!|].
    destruct (adapter_unwrap _ _ _) as [ad [key|err]]; injection Hu as <- <- <-; by split_and!.
Qed.
Lemma vault_run_nonces v nonces v' : vault_run v nonces v' → Z.of_nat (size (kv_used_nonces v)) ≤ kv_nonce_limit v →
  NoDup nonces ∧ (∀ nonce, nonce ∈ nonces → nonce ∉ kv_used_nonces v) ∧ kv_used_nonces v ∪ list_to_set nonces ⊆ kv_used_nonces v' ∧
  kv_nonce_limit v' = kv_nonce_limit v ∧ Z.of_nat (size (kv_used_nonces v')) ≤ kv_nonce_limit v.
Proof.
  induction 1 as [v|v issued v1 nonces v2 Hstep Hrun IH]; intros Hs.
  { split_and!; [apply NoDup_nil_2|by intros ? ?%not_elem_of_nil|set_solver|done..]. }
  apply vault_step_nonces in Hstep as (Hlim & Hs1 & Hsub & Hnew); [|done].
  destruct (IH Hs1) as (Hnd & Hfresh & Hall & Hlim2 & Hs2). rewrite Hlim in Hlim2, Hs2.
  destruct issued as [nonce|]; cbn [option_list app].
  - destruct (Hnew nonce eq_refl) as [Hn1 Hn2]. split_and!; [|set_solver..|done|done].
    apply NoDup_cons_2; [|done]. intros Hin. by apply (Hfresh nonce).
  - split_and!; try done; set_solver.
Qed.

(** A locked vault answers every request with an error and keeps its state. *)
Lemma locked_refuses v context plaintext e : kv_key v = None →
  vault_encrypt v context plaintext = (v, Err (
    if decide (cx_database context = kv_database v)
    then if decide (zlen plaintext ≤ MAX_PLAINTEXT_BYTES) then Locked else ResourceLimit
    else InvalidContext)) ∧
  vault_decrypt v context e = Err (if decide (cx_database context = kv_database v) then Locked else IntegrityFailure).
Proof.
  intros Hk. unfold vault_encrypt, vault_decrypt. rewrite Hk.
  destruct (decide (cx_database context = kv_database v)) as [Hdb|Hdb];
    [rewrite bool_decide_true by done|by rewrite bool_decide_false by done]. cbn [negb]. split; [|done].
  destruct (decide (zlen plaintext ≤ MAX_PLAINTEXT_BYTES)) as [Hle|Hgt];
    [by rewrite (proj2 (Z.ltb_ge _ _) Hle)|rewrite (proj2 (Z.ltb_lt _ _)) by lia; done].
Qed.
Lemma padded_length_least frame n m : 0 ≤ n → padded_length frame n = Ok m →
  ∃ frames, m = frames * frame_bytes frame ∧
    (frames - 1) * frame_bytes frame < INNER_LENGTH_BYTES + n ≤ frames * frame_bytes frame.
Proof.
  intros Hn. pose proof (frame_bytes_pos frame) as Hf. unfold padded_length, checked_add. intros Hp.
  apply bind_Ok in Hp as (needed & Hneeded%ok_or_Ok & Hp). apply bind_Ok in Hp as (l & Hl%ok_or_Ok & [= <-]).
  destruct (_ <=? _); [|done]. injection Hneeded as <-. destruct (_ <=? _); [|done]. injection Hl as <-.
  eexists. split; [done|]. pose proof (Z.div_mod (INNER_LENGTH_BYTES + n + (frame_bytes frame - 1)) (frame_bytes frame) ltac:(lia)).
  pose proof (Z.mod_pos_bound (INNER_LENGTH_BYTES + n + (frame_bytes frame - 1)) (frame_bytes frame) ltac:(lia)). nia.
Qed.

(** C32: what a vault seals it opens.  An envelope issued for a context has one byte
    form, the only bytes that decode to it: a header, the plaintext and its length
    field padded to the least number of whole frames that hold them, and the tag.
    Every vault holding the same key of the same database - the one that issued it,
    later on, or the one of the next process - decrypts it under that context to
    exactly the plaintext; and contexts are never confused: the associated data of
    two different contexts differ.  Once locked, a vault opens and seals nothing:
    it answers [Locked], or the error that comes before it, and stays as it is. *)
Theorem vault_sealed v context plaintext v' e : vault_ok v → context_ok context →
  vault_encrypt v context plaintext = (v', Ok e) →
  (∃ bytes frames, envelope_encode e = Ok bytes ∧
     (∀ bytes', envelope_decode bytes' = Ok e ↔ bytes' = bytes) ∧
     zlen bytes = HEADER_BYTES + frames * frame_bytes (cx_frame context) + TAG_BYTES ∧
     (frames - 1) * frame_bytes (cx_frame context) < INNER_LENGTH_BYTES + zlen plaintext
       ≤ frames * frame_bytes (cx_frame context)) ∧
  (∀ v2, same_key v v2 → vault_decrypt v2 context e = Ok plaintext) ∧
  (∀ context' header header', context_ok context' → length header = length header' →
     associated_data header context = associated_data header' context' → context' = context) ∧
  ∀ context' plaintext' e',
    let locked := vault_lock v' in
    let right := decide (cx_database context' = kv_database v) in
    vault_encrypt locked context' plaintext' = (locked, Err (
      if right then if decide (zlen plaintext' ≤ MAX_PLAINTEXT_BYTES) then Locked else ResourceLimit
      else InvalidContext)) ∧
    vault_decrypt locked context' e' = Err (if right then Locked else IntegrityFailure).
Proof.
  intros [Hkw _] Hcx Henc. apply vault_encrypt_cases in Henc as ([_ Hdbv] & _ & key & Hkey & Hdb & Hlen & Hnl & He & _).
  destruct (encrypt_correct key context (ev_nonce e) plaintext (Hkw key Hkey) Hnl Hcx Hlen)
    as (e' & He' & Hok & _ & Hframe & _ & _ & Hdec & padded & Hpad & Hcl).
  rewrite He in He'. injection He' as <-. split; [|split; [|split]].
  - pose proof (envelope_encode_exact e Hok) as Hbytes.
    destruct (padded_length_least _ _ _ (zlen_nonneg plaintext) Hpad) as (frames & -> & Hleast).
    eexists _, frames. split; [exact Hbytes|]. split; [|split; [|done]].
    + intros bytes'. split; [|intros ->; by apply envelope_decode_complete].
      intros [_ Hd]%envelope_decode_sound. rewrite Hbytes in Hd. by apply (inj Ok) in Hd.
    + unfold zlen in *. rewrite !length_app, !length_be_bytes, Hnl. change (length MAGIC) with 4%nat. unfold HEADER_BYTES. cbn [length]. lia.
  - intros v2 [Hk2 Hd2]. unfold vault_decrypt. rewrite Hd2, bool_decide_true by done. cbn [negb]. by rewrite Hk2, Hkey.
  - intros context' header header' Hcx' Hl Haad. unfold associated_data in Haad.
    apply app_inv_head in Haad. apply app_inj_1 in Haad as [_ Haad]; [|done]. symmetry. by apply canonical_bytes_inj.
  - intros context' plaintext' e2. cbv zeta. rewrite <-Hdbv. by apply (locked_refuses (vault_lock v')).
Qed.

(** C33: a nonce is never used twice.  However a vault is used - encryptions that
    succeed or fail, locking, unlocking with any adapter - the nonces on the
    envelopes it issues are pairwise different and different from those issued
    before, and their number stays within the limit of the session. *)
Theorem nonces_unique v nonces v' : vault_ok v → vault_run v nonces v' →
  NoDup nonces ∧ (∀ nonce, nonce ∈ nonces → nonce ∉ kv_used_nonces v) ∧
  Z.of_nat (size (kv_used_nonces v)) + zlen nonces ≤ kv_nonce_limit v.
Proof.
  intros [_ Hs] Hrun. apply vault_run_nonces in Hrun as (Hnd & Hfresh & Hall & _ & Hsize); [|lia].
  split; [done|]. split; [done|]. apply subseteq_size in Hall. rewrite size_union in Hall by set_solver.
  rewrite size_list_to_set in Hall by done. unfold zlen. lia.
Qed.
End vaults.

(** ** A worked session

    A cipher that only appends a tag, and entropy that counts. *)
#[local] Instance sample_aead : Aead := {
  hkdf_expand salt key info n := if (n <=? 255 * 32)%nat then Some (take n (key ++ zeros n)) else None;
  aead_encrypt key nonce aad p := Some (p ++ be_bytes 16 (zlen aad));
  aead_decrypt key nonce aad c :=
    let n := (length c - 16)%nat in
    if bool_decide (drop n c = be_bytes 16 (zlen aad)) then Some (take n c) else None
}.
#[local] Instance sample_aead_laws : AeadLaws.
Proof.
  split.
  - intros salt key info n Hn. cbn [hkdf_expand sample_aead]. rewrite (proj2 (Nat.leb_le _ _) Hn). eexists. split; [done|].
    rewrite length_take, length_app, length_zeros. lia.
  - intros key nonce aad p _ _ _. eexists. split; [done|]. split.
    + unfold zlen. rewrite length_app, length_be_bytes. unfold TAG_BYTES. lia.
    + cbn [aead_decrypt sample_aead].
      replace (length (p ++ be_bytes 16 (zlen aad)) - 16)%nat with (length p) by (rewrite length_app, length_be_bytes; lia).
      by rewrite drop_app_length, bool_decide_true, take_app_length.
Qed.
#[local] Instance counting_entropy : EntropySource Z := λ e n, (e + 1, Some (be_bytes n e)).
#[local] Instance counting_entropy_laws : EntropyLaws Z.
Proof. intros e n e' bytes [= _ <-]. apply length_be_bytes. Qed.
#[local] Instance sample_adapter : KeyAdapter unit (list byte) := {
  adapter_wrap E _ a database key entropy := (a, entropy, Ok key);
  adapter_unwrap a database wrapped := (a, Ok wrapped)
}.
Definition sample_vault : KeyVault (list byte) Z :=
  mk_vault (from_bytes (repeat x01 16)) (repeat x07 32) (Some (repeat x07 32)) 5 ∅ MAX_NONCES_PER_WRITER_SESSION.
Definition sample_context : CryptoContext :=
  mk_context (from_bytes (repeat x01 16)) ScopeDatabase 1 JournalGroup (repeat x02 16) 9 (repeat x03 16) x01 x00 Small4KiB.
Lemma sample_vault_ok : vault_ok sample_vault.
Proof. split; [by intros key [= <-]|]. split; [|done]. by vm_compute. Qed.
Lemma sample_context_ok : context_ok sample_context.
Proof. unfold context_ok, sample_context, U64_MAX. cbn. split_and!; first [done|lia]. Qed.
Lemma vault_sealed_witness : ∃ v' e, vault_encrypt sample_vault sample_context (lit "group") = (v', Ok e) ∧
  zlen (ev_ciphertext e) = 4112 ∧ vault_decrypt (with_key v' (Some (repeat x07 32))) sample_context e = Ok (lit "group").
Proof.
  assert (match vault_encrypt sample_vault sample_context (lit "group") with
          | (_, Ok e) => zlen (ev_ciphertext e) =? 4112 | _ => false end = true) as Hb by (vm_compute; reflexivity).
  destruct (vault_encrypt sample_vault sample_context (lit "group")) as [v' [e|]] eqn:He; [|discriminate Hb].
  exists v', e. split; [reflexivity|]. split; [by apply Z.eqb_eq|].
  refine (proj1 (proj2 (vault_sealed sample_vault sample_context (lit "group") v' e sample_vault_ok sample_context_ok He)) _ _).
  destruct (vault_encrypt_cases _ _ _ _ _ He) as ((_ & Hdb) & _). by split.
Defined.
(** Two encryptions with the vault locked and unlocked between them. *)
Lemma nonces_unique_witness : ∃ nonces v', vault_run sample_vault nonces v' ∧ length nonces = 2%nat ∧ NoDup nonces.
Proof.
  assert (match vault_encrypt sample_vault sample_context (lit "one") with
          | (v1, Ok _) => match unlock (vault_lock v1) tt with
                          | (v2, _, _) => match vault_encrypt v2 sample_context (lit "two") with (_, Ok _) => true | _ => false end
                          end
          | _ => false end = true) as Hb by (vm_compute; reflexivity).
  destruct (vault_encrypt sample_vault sample_context (lit "one")) as [v1 [e1|]] eqn:H1; [|discriminate Hb].
  destruct (unlock (vault_lock v1) tt) as [[v2 a2] r2] eqn:H2.
  destruct (vault_encrypt v2 sample_context (lit "two")) as [v3 [e3|]] eqn:H3; [|discriminate Hb].
  exists [ev_nonce e1; ev_nonce e3], v3.
  assert (vault_run sample_vault [ev_nonce e1; ev_nonce e3] v3) as Hrun.
  { apply (run_step _ _ _ [ev_nonce e3] _ (step_encrypt _ _ _ _ _ H1)). apply (run_step _ None _ _ _ (step_lock v1)).
    apply (run_step _ None _ _ _ (step_unlock _ _ _ _ _ H2)). apply (run_step _ _ _ [] _ (step_encrypt _ _ _ _ _ H3)). apply run_done. }
  split; [exact Hrun|]. split; [reflexivity|]. exact (proj1 (nonces_unique _ _ _ sample_vault_ok Hrun)).
Defined.
