(* ===== verification/FileSystem.v ===== *)
(** * File systems

    Models [crates/uste-storage/src/adapter.rs], [memory.rs] and [fault.rs]: the
    capability interface of a file system, the checked read and write loops over
    it, the reference file system in memory that keeps what is visible apart from
    what is durable, and the decorator that injects faults at scripted calls. *)
From S2P Require Import Prelude Ids Policy Storage.

(** ** Entry names *)
Definition MAX_ENTRY_NAME_BYTES : Z := 255.
Inductive EntryNameError : Set := NameEmpty | NameTooLong | NameReserved | NameSeparatorOrNul.
Record EntryName : Set := mk_entry_name { entry_bytes : list byte }.
#[global] Instance EntryName_eq_dec : EqDecision EntryName.
Proof. solve_decision. Defined.
#[global] Instance EntryName_countable : Countable EntryName.
Proof. by apply (inj_countable' entry_bytes mk_entry_name); intros []. Defined.
Definition EntryName_new (value : list byte) : result EntryNameError EntryName :=
  match value with
  | [] => Err NameEmpty
  | _ =>
      if MAX_ENTRY_NAME_BYTES <? zlen value then Err NameTooLong
      else if bool_decide (value = lit ".") || bool_decide (value = lit "..") then Err NameReserved
      else if existsb (λ b, bool_decide (b = x2f) || bool_decide (b = x00)) value then Err NameSeparatorOrNul
      else Ok (mk_entry_name value)
  end.

(** ** The interface *)

(** [read_at] gives the count it reports and the bytes it put at the front of the
    output buffer. *)
Class FileSystem (F : Type) := {
  File : Type;
  Directory : Type;
  fs_root : F → Directory;
  create_directory : Directory → EntryName → F → F * result AdapterErrorKind Directory;
  open_directory : Directory → EntryName → F → F * result AdapterErrorKind Directory;
  create_new : Directory → EntryName → F → F * result AdapterErrorKind File;
  open_existing : Directory → EntryName → F → F * result AdapterErrorKind File;
  metadata : File → F → F * result AdapterErrorKind Z;
  read_at : File → Z → Z → F → F * result AdapterErrorKind (Z * list byte);
  write_at : File → Z → list byte → F → F * result AdapterErrorKind Z;
  set_len : File → Z → F → F * result AdapterErrorKind unit;
  sync_data : File → F → F * result AdapterErrorKind unit;
  sync_all : File → F → F * result AdapterErrorKind unit;
  rename_no_replace : Directory → EntryName → Directory → EntryName → F → F * result AdapterErrorKind unit;
  remove_file : Directory → EntryName → F → F * result AdapterErrorKind unit;
  sync_directory : Directory → F → F * result AdapterErrorKind unit
}.
Class OwnershipFileSystem (F : Type) `{FileSystem F} := {
  OwnershipGuard : Type;
  try_lock_exclusive : Directory → EntryName → F → F * result AdapterErrorKind OwnershipGuard;
  drop_guard : OwnershipGuard → F → F
}.
Class RestartableFileSystem (F : Type) := fs_restart : F → F * result AdapterErrorKind unit.

(** ** The checked loops

    An adapter may report [Interrupted] any number of times, so the loops take
    fuel; [None] is fuel that ran out. *)
Section loops.
Context {F : Type} `{FileSystem F}.
Fixpoint write_loop (fuel : nat) (file : File) (offset : Z) (input : list byte) (written : Z) (fs : F) :
    option (F * result AdapterErrorKind unit) :=
  if zlen input <=? written then Some (fs, Ok tt)
  else
    match fuel with
    | O => None
    | S fuel =>
        match checked_add offset written with
        | None => Some (fs, Err AdapterResourceLimit)
        | Some position =>
            match write_at file position (drop (Z.to_nat written) input) fs with
            | (fs, Ok count) =>
                if count =? 0 then Some (fs, Err ZeroProgress)
                else if count <=? zlen input - written then write_loop fuel file offset input (written + count) fs
                else Some (fs, Err AdapterContract)
            | (fs, Err Interrupted) => write_loop fuel file offset input written fs
            | (fs, Err error) => Some (fs, Err error)
            end
        end
    end.
Definition write_all_at (fuel : nat) (file : File) (offset : Z) (input : list byte) (fs : F) :
    option (F * result AdapterErrorKind unit) :=
  write_loop fuel file offset input 0 fs.
(** The buffer after [bytes] were put at [at_]. *)
Definition splice (buffer : list byte) (at_ : nat) (bytes : list byte) : list byte :=
  take at_ buffer ++ bytes ++ drop (at_ + length bytes) buffer.
Fixpoint read_loop (fuel : nat) (file : File) (offset : Z) (output : list byte) (read : Z) (fs : F) :
    option (F * result AdapterErrorKind (list byte)) :=
  if zlen output <=? read then Some (fs, Ok output)
  else
    match fuel with
    | O => None
    | S fuel =>
        match checked_add offset read with
        | None => Some (fs, Err AdapterResourceLimit)
        | Some position =>
            match read_at file position (zlen output - read) fs with
            | (fs, Ok (count, bytes)) =>
                if count =? 0 then Some (fs, Err UnexpectedEof)
                else if count <=? zlen output - read
                then read_loop fuel file offset (splice output (Z.to_nat read) bytes) (read + count) fs
                else Some (fs, Err AdapterContract)
            | (fs, Err Interrupted) => read_loop fuel file offset output read fs
            | (fs, Err error) => Some (fs, Err error)
            end
        end
    end.
(** [read_exact_at] into a zeroed buffer of [len] bytes. *)
Definition read_exact_at (fuel : nat) (file : File) (offset len : Z) (fs : F) :
    option (F * result AdapterErrorKind (list byte)) :=
  read_loop fuel file offset (zeros (Z.to_nat len)) 0 fs.
End loops.
