(* ===== verification/MemoryFs.v ===== *)
(** * The reference file system

    [crates/uste-storage/src/memory.rs]: file data and directory entries each in a
    volatile and a durable copy; [restart] keeps only what is durable. *)
From S2P Require Import Prelude Ids Policy Storage FileSystem.

Definition ROOT_NODE : Z := 1.
Definition DEFAULT_MEMORY_FILE_LIMIT : Z := 32 * 1024 * 1024.
Record MemoryFile : Set := mk_memory_file { mf_node : Z; mf_generation : Z }.
Record MemoryDirectory : Set := mk_memory_directory { md_node : Z; md_generation : Z }.
Inductive Node : Set := NodeFile (node : Z) | NodeDirectory (node : Z).
Record MemoryFileState : Set := mk_file_state {
  fst_volatile : list byte;
  fst_durable : list byte;
  fst_lock_generation : Z
}.
Definition MemoryFileState_default : MemoryFileState := mk_file_state [] [] 0.
Record MemoryOwnershipGuard : Set := mk_guard { og_node : Z; og_generation : Z }.
Record MemoryDirectoryState : Set := mk_directory_state {
  ds_volatile : gmap EntryName Node;
  ds_durable : gmap EntryName Node
}.
Record MemoryFileSystem : Set := mk_memory_fs {
  mem_generation : Z;
  mem_next_node : Z;
  mem_file_limit : Z;
  mem_files : gmap Z MemoryFileState;
  mem_directories : gmap Z MemoryDirectoryState
}.
Definition MemoryFileSystem_new (file_limit : Z) : MemoryFileSystem :=
  mk_memory_fs 1 (ROOT_NODE + 1) file_limit ∅ {[ROOT_NODE := mk_directory_state ∅ ∅]}.
Definition with_files (fs : MemoryFileSystem) (files : gmap Z MemoryFileState) : MemoryFileSystem :=
  mk_memory_fs (mem_generation fs) (mem_next_node fs) (mem_file_limit fs) files (mem_directories fs).
Definition with_directories (fs : MemoryFileSystem) (directories : gmap Z MemoryDirectoryState) : MemoryFileSystem :=
  mk_memory_fs (mem_generation fs) (mem_next_node fs) (mem_file_limit fs) (mem_files fs) directories.

Definition restart_file (file : MemoryFileState) : MemoryFileState :=
  mk_file_state (fst_durable file) (fst_durable file) 0.
Definition restart_directory (directory : MemoryDirectoryState) : MemoryDirectoryState :=
  mk_directory_state (ds_durable directory) (ds_durable directory).
Definition memory_restart (fs : MemoryFileSystem) : MemoryFileSystem * result AdapterErrorKind unit :=
  match checked_add (mem_generation fs) 1 with
  | None => (fs, Err AdapterResourceLimit)
  | Some generation =>
      (mk_memory_fs generation (mem_next_node fs) (mem_file_limit fs) (restart_file <$> mem_files fs)
         (restart_directory <$> mem_directories fs), Ok tt)
  end.
Definition allocate_node (fs : MemoryFileSystem) : MemoryFileSystem * result AdapterErrorKind Z :=
  match checked_add (mem_next_node fs) 1 with
  | None => (fs, Err AdapterResourceLimit)
  | Some next =>
      (mk_memory_fs (mem_generation fs) next (mem_file_limit fs) (mem_files fs) (mem_directories fs),
       Ok (mem_next_node fs))
  end.
Definition memory_directory (handle : MemoryDirectory) (fs : MemoryFileSystem) :
    result AdapterErrorKind MemoryDirectoryState :=
  if negb (md_generation handle =? mem_generation fs) then Err StaleHandle
  else ok_or (mem_directories fs !! md_node handle) NotFound.
Definition memory_file (handle : MemoryFile) (fs : MemoryFileSystem) : result AdapterErrorKind MemoryFileState :=
  if negb (mf_generation handle =? mem_generation fs) then Err StaleHandle
  else ok_or (mem_files fs !! mf_node handle) NotFound.
Definition put_file (handle : MemoryFile) (state : MemoryFileState) (fs : MemoryFileSystem) : MemoryFileSystem :=
  with_files fs (<[mf_node handle := state]> (mem_files fs)).
Definition put_directory (handle : MemoryDirectory) (state : MemoryDirectoryState) (fs : MemoryFileSystem) : MemoryFileSystem :=
  with_directories fs (<[md_node handle := state]> (mem_directories fs)).
(** [Vec::resize(len, 0)]. *)
Definition resize (len : nat) (bytes : list byte) : list byte := take len bytes ++ zeros (len - length bytes).

Definition memory_create_directory (parent : MemoryDirectory) (name : EntryName) (fs : MemoryFileSystem) :
    MemoryFileSystem * result AdapterErrorKind MemoryDirectory :=
  match memory_directory parent fs with
  | Err error => (fs, Err error)
  | Ok state =>
      if bool_decide (is_Some (ds_volatile state !! name)) then (fs, Err AlreadyExists)
      else
        match allocate_node fs with
        | (fs, Err error) => (fs, Err error)
        | (fs, Ok node) =>
            let fs := with_directories fs (<[node := mk_directory_state ∅ ∅]> (mem_directories fs)) in
            match memory_directory parent fs with
            | Err error => (fs, Err error)
            | Ok state =>
                (put_directory parent
                   (mk_directory_state (<[name := NodeDirectory node]> (ds_volatile state)) (ds_durable state)) fs,
                 Ok (mk_memory_directory node (mem_generation fs)))
            end
        end
  end.
Definition memory_open_directory (parent : MemoryDirectory) (name : EntryName) (fs : MemoryFileSystem) :
    MemoryFileSystem * result AdapterErrorKind MemoryDirectory :=
  (fs, state ← memory_directory parent fs;
       match ds_volatile state !! name with
       | Some (NodeDirectory node) => Ok (mk_memory_directory node (mem_generation fs))
       | _ => Err NotFound
       end).
Definition memory_create_new (directory : MemoryDirectory) (name : EntryName) (fs : MemoryFileSystem) :
    MemoryFileSystem * result AdapterErrorKind MemoryFile :=
  match memory_directory directory fs with
  | Err error => (fs, Err error)
  | Ok state =>
      if bool_decide (is_Some (ds_volatile state !! name)) then (fs, Err AlreadyExists)
      else
        match allocate_node fs with
        | (fs, Err error) => (fs, Err error)
        | (fs, Ok node) =>
            let fs := with_files fs (<[node := MemoryFileState_default]> (mem_files fs)) in
            match memory_directory directory fs with
            | Err error => (fs, Err error)
            | Ok state =>
                (put_directory directory
                   (mk_directory_state (<[name := NodeFile node]> (ds_volatile state)) (ds_durable state)) fs,
                 Ok (mk_memory_file node (mem_generation fs)))
            end
        end
  end.
Definition memory_open_existing (directory : MemoryDirectory) (name : EntryName) (fs : MemoryFileSystem) :
    MemoryFileSystem * result AdapterErrorKind MemoryFile :=
  (fs, state ← memory_directory directory fs;
       match ds_volatile state !! name with
       | Some (NodeFile node) => Ok (mk_memory_file node (mem_generation fs))
       | _ => Err NotFound
       end).
Definition memory_metadata (file : MemoryFile) (fs : MemoryFileSystem) : MemoryFileSystem * result AdapterErrorKind Z :=
  (fs, state ← memory_file file fs;
       if U64_MAX <? zlen (fst_volatile state) then Err AdapterResourceLimit else Ok (zlen (fst_volatile state))).
Definition memory_read_at (file : MemoryFile) (offset len : Z) (fs : MemoryFileSystem) :
    MemoryFileSystem * result AdapterErrorKind (Z * list byte) :=
  (fs, state ← memory_file file fs;
       let bytes := fst_volatile state in
       if zlen bytes <=? offset then Ok (0, [])
       else
         let count := Z.min len (zlen bytes - offset) in
         Ok (count, slice (Z.to_nat offset) (Z.to_nat count) bytes)).
Definition memory_write_at (file : MemoryFile) (offset : Z) (input : list byte) (fs : MemoryFileSystem) :
    MemoryFileSystem * result AdapterErrorKind Z :=
  match checked_add offset (zlen input) with
  | None => (fs, Err AdapterResourceLimit)
  | Some end_ =>
      if mem_file_limit fs <? end_ then (fs, Err NoSpace)
      else
        match memory_file file fs with
        | Err error => (fs, Err error)
        | Ok state =>
            let volatile := fst_volatile state in
            let volatile := if zlen volatile <? end_ then resize (Z.to_nat end_) volatile else volatile in
            (put_file file
               (mk_file_state (splice volatile (Z.to_nat offset) input) (fst_durable state) (fst_lock_generation state)) fs,
             Ok (zlen input))
        end
  end.
Definition memory_set_len (file : MemoryFile) (len : Z) (fs : MemoryFileSystem) :
    MemoryFileSystem * result AdapterErrorKind unit :=
  if mem_file_limit fs <? len then (fs, Err NoSpace)
  else
    match memory_file file fs with
    | Err error => (fs, Err error)
    | Ok state =>
        (put_file file
           (mk_file_state (resize (Z.to_nat len) (fst_volatile state)) (fst_durable state) (fst_lock_generation state)) fs,
         Ok tt)
    end.
Definition memory_sync_data (file : MemoryFile) (fs : MemoryFileSystem) : MemoryFileSystem * result AdapterErrorKind unit :=
  match memory_file file fs with
  | Err error => (fs, Err error)
  | Ok state =>
      (put_file file (mk_file_state (fst_volatile state) (fst_volatile state) (fst_lock_generation state)) fs, Ok tt)
  end.
Definition memory_rename_no_replace (source_directory : MemoryDirectory) (source : EntryName)
    (destination_directory : MemoryDirectory) (destination : EntryName) (fs : MemoryFileSystem) :
    MemoryFileSystem * result AdapterErrorKind unit :=
  match (state ← memory_directory source_directory fs; ok_or (ds_volatile state !! source) NotFound) with
  | Err error => (fs, Err error)
  | Ok source_node =>
      match memory_directory destination_directory fs with
      | Err error => (fs, Err error)
      | Ok target =>
          if bool_decide (is_Some (ds_volatile target !! destination)) then (fs, Err AlreadyExists)
          else
            match memory_directory source_directory fs with
            | Err error => (fs, Err error)
            | Ok state =>
                let fs := put_directory source_directory
                            (mk_directory_state (delete source (ds_volatile state)) (ds_durable state)) fs in
                match memory_directory destination_directory fs with
                | Err error => (fs, Err error)
                | Ok state =>
                    (put_directory destination_directory
                       (mk_directory_state (<[destination := source_node]> (ds_volatile state)) (ds_durable state)) fs,
                     Ok tt)
                end
            end
      end
  end.
Definition memory_remove_file (directory : MemoryDirectory) (name : EntryName) (fs : MemoryFileSystem) :
    MemoryFileSystem * result AdapterErrorKind unit :=
  match memory_directory directory fs with
  | Err error => (fs, Err error)
  | Ok state =>
      match ds_volatile state !! name with
      | None => (fs, Err NotFound)
      | Some (NodeFile _) =>
          (put_directory directory (mk_directory_state (delete name (ds_volatile state)) (ds_durable state)) fs, Ok tt)
      | Some (NodeDirectory _) => (fs, Err WrongEntryType)
      end
  end.
Definition memory_sync_directory (directory : MemoryDirectory) (fs : MemoryFileSystem) :
    MemoryFileSystem * result AdapterErrorKind unit :=
  match memory_directory directory fs with
  | Err error => (fs, Err error)
  | Ok state => (put_directory directory (mk_directory_state (ds_volatile state) (ds_volatile state)) fs, Ok tt)
  end.
Definition memory_try_lock_exclusive (directory : MemoryDirectory) (name : EntryName) (fs : MemoryFileSystem) :
    MemoryFileSystem * result AdapterErrorKind MemoryOwnershipGuard :=
  match memory_open_existing directory name fs with
  | (fs, Err error) => (fs, Err error)
  | (fs, Ok file) =>
      match memory_file file fs with
      | Err error => (fs, Err error)
      | Ok state =>
          if negb (fst_lock_generation state =? 0) then (fs, Err OwnershipConflict)
          else
            (put_file file (mk_file_state (fst_volatile state) (fst_durable state) (mem_generation fs)) fs,
             Ok (mk_guard (mf_node file) (mem_generation fs)))
      end
  end.
(** [Drop] of the guard. *)
Definition memory_drop_guard (guard : MemoryOwnershipGuard) (fs : MemoryFileSystem) : MemoryFileSystem :=
  match mem_files fs !! og_node guard with
  | Some state =>
      if fst_lock_generation state =? og_generation guard
      then with_files fs (<[og_node guard := mk_file_state (fst_volatile state) (fst_durable state) 0]> (mem_files fs))
      else fs
  | None => fs
  end.
#[global] Instance memory_fs : FileSystem MemoryFileSystem := {
  File := MemoryFile;
  Directory := MemoryDirectory;
  fs_root fs := mk_memory_directory ROOT_NODE (mem_generation fs);
  create_directory := memory_create_directory;
  open_directory := memory_open_directory;
  create_new := memory_create_new;
  open_existing := memory_open_existing;
  metadata := memory_metadata;
  read_at := memory_read_at;
  write_at := memory_write_at;
  set_len := memory_set_len;
  sync_data := memory_sync_data;
  sync_all := memory_sync_data;
  rename_no_replace := memory_rename_no_replace;
  remove_file := memory_remove_file;
  sync_directory := memory_sync_directory
}.
#[global] Instance memory_ownership : OwnershipFileSystem MemoryFileSystem := {
  OwnershipGuard := MemoryOwnershipGuard;
  try_lock_exclusive := memory_try_lock_exclusive;
  drop_guard := memory_drop_guard
}.
#[global] Instance memory_restartable : RestartableFileSystem MemoryFileSystem := memory_restart.
