(* ===== verification/FaultFs.v ===== *)
(** * Injected faults

    [crates/uste-storage/src/fault.rs]: a plan names the n-th call of an operation
    and what goes wrong there; a crash is sticky until the file system restarts. *)
From S2P Require Import Prelude Ids Policy Storage FileSystem.

Inductive Operation : Set :=
| OpCreateDirectory | OpOpenDirectory | OpCreateNew | OpOpenExisting | OpMetadata | OpReadAt | OpWriteAt | OpSetLen
| OpSyncData | OpSyncAll | OpRenameNoReplace | OpRemoveFile | OpSyncDirectory | OpTryLockExclusive.
#[global] Instance Operation_eq_dec : EqDecision Operation.
Proof. solve_decision. Defined.
Definition operation_index (operation : Operation) : nat :=
  match operation with
  | OpCreateDirectory => 0 | OpOpenDirectory => 1 | OpCreateNew => 2 | OpOpenExisting => 3 | OpMetadata => 4
  | OpReadAt => 5 | OpWriteAt => 6 | OpSetLen => 7 | OpSyncData => 8 | OpSyncAll => 9 | OpRenameNoReplace => 10
  | OpRemoveFile => 11 | OpSyncDirectory => 12 | OpTryLockExclusive => 13
  end.
Definition operation_at (index : nat) : option Operation :=
  [OpCreateDirectory; OpOpenDirectory; OpCreateNew; OpOpenExisting; OpMetadata; OpReadAt; OpWriteAt; OpSetLen;
   OpSyncData; OpSyncAll; OpRenameNoReplace; OpRemoveFile; OpSyncDirectory; OpTryLockExclusive] !! index.
#[global] Instance Operation_countable : Countable Operation.
Proof. by apply (inj_countable operation_index operation_at); intros []. Defined.

Inductive FaultAction : Set :=
| FaultError (kind : AdapterErrorKind)
| ShortWrite (maximum : Z)
| ShortRead (maximum : Z)
| FaultZeroProgress
| OverReport
| CrashBefore
| CrashAfter.
Record FaultPoint : Set := mk_fault_point { fp_operation : Operation; fp_occurrence : Z; fp_action : FaultAction }.
Abbreviation FaultPlan := (gmap (Operation * Z) FaultAction).
Definition fault_misplaced (operation : Operation) (action : FaultAction) : bool :=
  match action with
  | ShortWrite _ => negb (bool_decide (operation = OpWriteAt))
  | ShortRead _ => negb (bool_decide (operation = OpReadAt))
  | FaultZeroProgress | OverReport => negb (bool_decide (operation = OpReadAt) || bool_decide (operation = OpWriteAt))
  | FaultError _ | CrashBefore | CrashAfter => false
  end.
Definition FaultPlan_add (plan : FaultPlan) (point : FaultPoint) : result AdapterErrorKind FaultPlan :=
  let key := (fp_operation point, fp_occurrence point) in
  if (fp_occurrence point =? 0) || fault_misplaced (fp_operation point) (fp_action point)
     || match fp_action point with ShortWrite maximum | ShortRead maximum => maximum =? 0 | _ => false end
     || match fp_action point with FaultError InjectedCrash => true | _ => false end
     || bool_decide (is_Some (plan !! key))
  then Err AdapterContract
  else Ok (<[key := fp_action point]> plan).
Definition FaultPlan_new (points : list FaultPoint) : result AdapterErrorKind FaultPlan :=
  try_fold FaultPlan_add points ∅.

Record FaultFileSystem {F : Type} := mk_fault_fs {
  ff_inner : F;
  ff_plan : FaultPlan;
  ff_occurrences : gmap Operation Z;
  ff_crashed : bool
}.
Arguments FaultFileSystem : clear implicits.
Arguments mk_fault_fs {F} _ _ _ _.

Section fault.
Context {F : Type}.
Implicit Types fs : FaultFileSystem F.
Definition FaultFileSystem_new (inner : F) (plan : FaultPlan) : FaultFileSystem F := mk_fault_fs inner plan ∅ false.
Definition operation_count fs (operation : Operation) : Z := default 0 (ff_occurrences fs !! operation).
Definition arm (plan : FaultPlan) fs : FaultFileSystem F * result AdapterErrorKind unit :=
  if ff_crashed fs || negb (bool_decide (ff_plan fs = ∅)) then (fs, Err AdapterContract)
  else (mk_fault_fs (ff_inner fs) plan ∅ (ff_crashed fs), Ok tt).
Definition crash fs : FaultFileSystem F := mk_fault_fs (ff_inner fs) (ff_plan fs) (ff_occurrences fs) true.
Definition next_action (operation : Operation) fs : FaultFileSystem F * result AdapterErrorKind (option FaultAction) :=
  if ff_crashed fs then (fs, Err InjectedCrash)
  else
    match checked_add (operation_count fs operation) 1 with
    | None => (fs, Err AdapterResourceLimit)
    | Some occurrence =>
        (mk_fault_fs (ff_inner fs) (delete (operation, occurrence) (ff_plan fs))
           (<[operation := occurrence]> (ff_occurrences fs)) (ff_crashed fs),
         Ok (ff_plan fs !! (operation, occurrence)))
    end.
(** The outcome of [ordinary_action]: go on - and crash afterwards or not - or fail. *)
Definition ordinary_action (operation : Operation) fs :
    FaultFileSystem F * result AdapterErrorKind (bool * option AdapterErrorKind) :=
  match next_action operation fs with
  | (fs, Err error) => (fs, Err error)
  | (fs, Ok None) => (fs, Ok (false, None))
  | (fs, Ok (Some (FaultError kind))) => (fs, Ok (false, Some kind))
  | (fs, Ok (Some CrashBefore)) => (crash fs, Ok (false, Some InjectedCrash))
  | (fs, Ok (Some CrashAfter)) => (fs, Ok (true, None))
  | (fs, Ok (Some _)) => (fs, Err AdapterContract)
  end.
Definition fault_finish {T} (out : result AdapterErrorKind T) (crash_after : bool) fs :
    FaultFileSystem F * result AdapterErrorKind T :=
  if crash_after && is_ok out then (crash fs, Err InjectedCrash) else (fs, out).
(** Run an operation of the inner file system. *)
Definition on_inner {T} (run : F → F * result AdapterErrorKind T) (crash_after : bool) fs :
    FaultFileSystem F * result AdapterErrorKind T :=
  let '(inner, out) := run (ff_inner fs) in
  fault_finish out crash_after (mk_fault_fs inner (ff_plan fs) (ff_occurrences fs) (ff_crashed fs)).
Definition fault_ordinary {T} (operation : Operation) (run : F → F * result AdapterErrorKind T) fs :
    FaultFileSystem F * result AdapterErrorKind T :=
  match ordinary_action operation fs with
  | (fs, Err error) => (fs, Err error)
  | (fs, Ok (_, Some error)) => (fs, Err error)
  | (fs, Ok (crash_after, None)) => on_inner run crash_after fs
  end.
Definition fault_read_at `{FileSystem F} (file : File) (offset len : Z) fs :
    FaultFileSystem F * result AdapterErrorKind (Z * list byte) :=
  match next_action OpReadAt fs with
  | (fs, Err error) => (fs, Err error)
  | (fs, Ok None) => on_inner (read_at file offset len) false fs
  | (fs, Ok (Some (FaultError kind))) => (fs, Err kind)
  | (fs, Ok (Some (ShortRead maximum))) => on_inner (read_at file offset (Z.min maximum len)) false fs
  | (fs, Ok (Some FaultZeroProgress)) => (fs, Ok (0, []))
  | (fs, Ok (Some OverReport)) => (fs, Ok (saturating_add len 1, []))
  | (fs, Ok (Some CrashBefore)) => (crash fs, Err InjectedCrash)
  | (fs, Ok (Some CrashAfter)) => on_inner (read_at file offset len) true fs
  | (fs, Ok (Some (ShortWrite _))) => (fs, Err AdapterContract)
  end.
Definition fault_write_at `{FileSystem F} (file : File) (offset : Z) (input : list byte) fs :
    FaultFileSystem F * result AdapterErrorKind Z :=
  match next_action OpWriteAt fs with
  | (fs, Err error) => (fs, Err error)
  | (fs, Ok None) => on_inner (write_at file offset input) false fs
  | (fs, Ok (Some (FaultError kind))) => (fs, Err kind)
  | (fs, Ok (Some (ShortWrite maximum))) =>
      on_inner (write_at file offset (take (Z.to_nat (Z.min maximum (zlen input))) input)) false fs
  | (fs, Ok (Some FaultZeroProgress)) => (fs, Ok 0)
  | (fs, Ok (Some OverReport)) => (fs, Ok (saturating_add (zlen input) 1))
  | (fs, Ok (Some CrashBefore)) => (crash fs, Err InjectedCrash)
  | (fs, Ok (Some CrashAfter)) => on_inner (write_at file offset input) true fs
  | (fs, Ok (Some (ShortRead _))) => (fs, Err AdapterContract)
  end.
#[global] Instance fault_fs `{FileSystem F} : FileSystem (FaultFileSystem F) := {
  File := File (F := F);
  Directory := Directory (F := F);
  fs_root fs := fs_root (ff_inner fs);
  create_directory parent name := fault_ordinary OpCreateDirectory (create_directory parent name);
  open_directory parent name := fault_ordinary OpOpenDirectory (open_directory parent name);
  create_new directory name := fault_ordinary OpCreateNew (create_new directory name);
  open_existing directory name := fault_ordinary OpOpenExisting (open_existing directory name);
  metadata file := fault_ordinary OpMetadata (metadata file);
  read_at := fault_read_at;
  write_at := fault_write_at;
  set_len file len := fault_ordinary OpSetLen (set_len file len);
  sync_data file := fault_ordinary OpSyncData (sync_data file);
  sync_all file := fault_ordinary OpSyncAll (sync_all file);
  rename_no_replace sd s dd d := fault_ordinary OpRenameNoReplace (rename_no_replace sd s dd d);
  remove_file directory name := fault_ordinary OpRemoveFile (remove_file directory name);
  sync_directory directory := fault_ordinary OpSyncDirectory (sync_directory directory)
}.
(** [finish] drops the guard of a lock that was taken just before a crash. *)
Definition fault_try_lock_exclusive `{OwnershipFileSystem F} (directory : Directory) (name : EntryName) fs :
    FaultFileSystem F * result AdapterErrorKind (OwnershipGuard (F := F)) :=
  match ordinary_action OpTryLockExclusive fs with
  | (fs, Err error) => (fs, Err error)
  | (fs, Ok (_, Some error)) => (fs, Err error)
  | (fs, Ok (crash_after, None)) =>
      on_inner (λ inner,
        match try_lock_exclusive (F := F) directory name inner with
        | (inner, Ok guard) => (if crash_after then drop_guard guard inner else inner, Ok guard)
        | (inner, Err error) => (inner, Err error)
        end) crash_after fs
  end.
#[global] Instance fault_ownership `{OwnershipFileSystem F} : OwnershipFileSystem (FaultFileSystem F) := {
  OwnershipGuard := OwnershipGuard (F := F);
  try_lock_exclusive := fault_try_lock_exclusive;
  drop_guard guard fs := mk_fault_fs (drop_guard (F := F) guard (ff_inner fs)) (ff_plan fs) (ff_occurrences fs) (ff_crashed fs)
}.
(** [FaultFileSystem::restart]. *)
Definition fault_restart `{RestartableFileSystem F} fs : FaultFileSystem F * result AdapterErrorKind unit :=
  match fs_restart (ff_inner fs) with
  | (inner, Ok _) => (mk_fault_fs inner (ff_plan fs) (ff_occurrences fs) false, Ok tt)
  | (inner, Err error) => (mk_fault_fs inner (ff_plan fs) (ff_occurrences fs) (ff_crashed fs), Err error)
  end.
End fault.
