(* ===== verification/FileSystemFacts.v ===== *)
(** * What the checked loops do under faults *)
From S2P Require Import Prelude Ids Policy Storage FileSystem MemoryFs FaultFs.

(** ** Contents *)

(** [bytes] written over [old] at [offset]; a gap is filled with zeros. *)
Definition overwrite (old : list byte) (offset : nat) (bytes : list byte) : list byte :=
  take offset old ++ zeros (offset - length old) ++ bytes ++ drop (offset + length bytes) old.
Lemma overwrite_prefix_length (old : list byte) offset : length (take offset old ++ zeros (offset - length old)) = offset.
Proof. rewrite length_app, length_take, length_zeros. lia. Qed.
Lemma overwrite_app old offset b1 b2 :
  overwrite (overwrite old offset b1) (offset + length b1) b2 = overwrite old offset (b1 ++ b2).
Proof.
  unfold overwrite at 1. pose proof (overwrite_prefix_length old offset) as Hp.
  assert (overwrite old offset b1 = ((take offset old ++ zeros (offset - length old)) ++ b1) ++ drop (offset + length b1) old) as ->
    by (unfold overwrite; by rewrite !app_assoc).
  set (P := take offset old ++ zeros (offset - length old)) in *.
  rewrite take_app_length' by (rewrite length_app; lia).
  assert (offset + length b1 - length ((P ++ b1) ++ drop (offset + length b1) old) = 0)%nat as ->
    by (rewrite !length_app; lia).
  rewrite drop_app_ge by (rewrite length_app; lia). rewrite drop_drop, length_app, Hp.
  unfold overwrite. rewrite length_app, (app_assoc (take offset old)). fold P. cbn [zeros replicate app].
  rewrite <-!app_assoc. do 4 f_equal. lia.
Qed.
Lemma overwrite_end old bytes : overwrite old (length old) bytes = old ++ bytes.
Proof.
  unfold overwrite. rewrite firstn_all, Nat.sub_diag, drop_ge by lia. cbn [zeros replicate app]. by rewrite app_nil_r.
Qed.
Lemma splice_overwrite old offset bytes :
  splice (if zlen old <? Z.of_nat (offset + length bytes) then resize (offset + length bytes) old else old) offset bytes
  = overwrite old offset bytes.
Proof.
  unfold splice, overwrite, zlen. destruct (Z.ltb_spec (Z.of_nat (length old)) (Z.of_nat (offset + length bytes))).
  - assert (length (resize (offset + length bytes) old) = offset + length bytes)%nat as Hl
      by (unfold resize; rewrite length_app, length_take, length_zeros; lia).
    rewrite (drop_ge (resize _ _)) by lia. rewrite (drop_ge old) by lia. rewrite !app_nil_r.
    unfold resize. rewrite take_app, take_take, length_take, app_assoc. f_equal. f_equal; [f_equal; lia|].
    unfold zeros. rewrite take_replicate. f_equal. lia.
  - assert (offset - length old = 0)%nat as -> by lia. done.
Qed.

(** ** One call under faults *)

(** The actions a plan built by [FaultPlan_new] can hold. *)
Definition action_ok (action : FaultAction) : Prop :=
  match action with
  | ShortWrite maximum | ShortRead maximum => 0 < maximum
  | FaultError InjectedCrash => False
  | _ => True
  end.
Definition plan_ok (plan : FaultPlan) : Prop := ∀ at_ action, plan !! at_ = Some action → action_ok action.
Lemma plan_ok_subseteq plan plan' : plan' ⊆ plan → plan_ok plan → plan_ok plan'.
Proof. intros Hs Hp at_ action Ha. eapply Hp, lookup_weaken; eauto. Qed.
Lemma FaultPlan_new_ok points plan : (∀ p, p ∈ points → match fp_action p with ShortWrite n | ShortRead n => 0 ≤ n | _ => True end) →
  FaultPlan_new points = Ok plan → plan_ok plan.
Proof.
  unfold FaultPlan_new. assert (plan_ok ∅) as H by (intros at_ a; by rewrite lookup_empty).
  revert H. generalize (∅ : FaultPlan). induction points as [|p points IH]; intros start Hs Hwf; [by intros [= <-]|].
  cbn [try_fold]. intros (next & Hadd & Hrest)%bind_Ok. apply (IH next); [|set_solver|done].
  unfold FaultPlan_add in Hadd. destruct (_ || _) eqn:Hb; [done|]. rewrite !orb_false_iff in Hb.
  destruct Hb as ((((_ & _) & Hz) & Hc) & _). injection Hadd as <-. intros at_ a. rewrite lookup_insert_Some.
  intros [[_ <-]|[_ Ha]]; [|by apply (Hs at_)]. pose proof (Hwf p ltac:(set_solver)) as Hp. unfold action_ok.
  destruct (fp_action p) as [[]|m|m| | | |]; try done; apply Z.eqb_neq in Hz; lia.
Qed.

Section calls.
Context {F : Type}.
Implicit Types fs : FaultFileSystem F.
(** What a call may leave of the plan. *)
Definition plan_left fs fs' : Prop := ff_plan fs' ⊆ ff_plan fs.
#[export] Instance plan_left_preorder : PreOrder plan_left.
Proof. split; [by intros fs; unfold plan_left|]. intros fs1 fs2 fs3. unfold plan_left. by intros; etrans. Qed.
Lemma next_action_cases operation fs fs' r : next_action operation fs = (fs', r) →
  ff_inner fs' = ff_inner fs ∧ plan_left fs fs' ∧ ff_crashed fs' = ff_crashed fs ∧
  match r with
  | Ok None => ff_crashed fs = false
  | Ok (Some action) => ff_crashed fs = false ∧ (size (ff_plan fs') < size (ff_plan fs))%nat
      ∧ ∃ occurrence, ff_plan fs !! (operation, occurrence) = Some action
  | Err e => e ≠ Interrupted
  end.
Proof.
  unfold next_action, plan_left. destruct (ff_crashed fs) eqn:Hc; [by intros [= <- <-]|].
  destruct (checked_add _ _) as [n|]; [|by intros [= <- <-]]. intros [= <- <-]. cbn.
  split; [done|]. split; [apply delete_subseteq|]. split; [done|].
  destruct (ff_plan fs !! (operation, n)) as [a|] eqn:Ha; [|done]. split; [done|]. split; [|eauto].
  rewrite map_size_delete_Some by eauto. assert (size (ff_plan fs) ≠ 0)%nat; [|lia].
  intros H0%map_size_empty_inv. by rewrite H0, lookup_empty in Ha.
Qed.
(** An operation fails without effect, takes effect, or takes effect and crashes. *)
Lemma fault_ordinary_cases {T} operation (run : F → F * result AdapterErrorKind T) fs fs' r :
  fault_ordinary operation run fs = (fs', r) →
  plan_left fs fs' ∧
  ((ff_inner fs' = ff_inner fs ∧ ∃ e, r = Err e) ∨
   ∃ out, run (ff_inner fs) = (ff_inner fs', out) ∧ (r = out ∧ ff_crashed fs' = ff_crashed fs ∨ (∃ t, out = Ok t) ∧ r = Err InjectedCrash)).
Proof.
  unfold fault_ordinary, ordinary_action.
  destruct (next_action operation fs) as [fs1 [[action|]|e]] eqn:Hn;
    apply next_action_cases in Hn as (Hin & Hpl & Hcr & Hcase).
  - destruct action as [kind|m|m| | | |]; try (intros [= <- <-]; split; [done|left; split; [done|by eexists]]).
    unfold on_inner, fault_finish. rewrite Hin. destruct (run (ff_inner fs)) as [inner [t|e]]; cbn [andb is_ok];
      intros [= <- <-]; (split; [done|]); right; eexists; (split; [done|]); [right; eauto|left; by split].
  - unfold on_inner, fault_finish. rewrite Hin. destruct (run (ff_inner fs)) as [inner out]. cbn [andb].
    intros [= <- <-]. split; [done|]. right. eexists. split; [done|]. by left.
  - intros [= <- <-]. split; [done|]. left. eauto.
Qed.
(** A lock is refused without effect, taken, or taken and released in a crash. *)
Lemma fault_try_lock_cases `{OwnershipFileSystem F} directory name fs fs' r :
  fault_try_lock_exclusive directory name fs = (fs', r) →
  plan_left fs fs' ∧
  ((ff_inner fs' = ff_inner fs ∧ ∃ e, r = Err e) ∨ try_lock_exclusive directory name (ff_inner fs) = (ff_inner fs', r) ∨
   ∃ inner guard, try_lock_exclusive directory name (ff_inner fs) = (inner, Ok guard) ∧
     ff_inner fs' = drop_guard guard inner ∧ r = Err InjectedCrash).
Proof.
  unfold fault_try_lock_exclusive, ordinary_action.
  destruct (next_action OpTryLockExclusive fs) as [fs1 [[action|]|e]] eqn:Hn;
    apply next_action_cases in Hn as (Hin & Hpl & Hcr & Hcase).
  - destruct action as [kind|m|m| | | |]; try (intros [= <- <-]; split; [done|left; split; [done|by eexists]]).
    unfold on_inner, fault_finish. rewrite Hin. destruct (try_lock_exclusive directory name (ff_inner fs)) as [inner [guard|e]];
      cbn [andb is_ok]; intros [= <- <-]; (split; [done|]); right; [right|left]; by eauto.
  - unfold on_inner, fault_finish. rewrite Hin. destruct (try_lock_exclusive directory name (ff_inner fs)) as [inner [guard|e]];
      cbn [andb]; intros [= <- <-]; (split; [done|]); right; by left.
  - intros [= <- <-]. split; [done|]. left. eauto.
Qed.
(** Without faults the decorated operation is the operation. *)
Lemma fault_ordinary_clear {T} operation (run : F → F * result AdapterErrorKind T) fs :
  ff_crashed fs = false → ff_plan fs = ∅ → operation_count fs operation < U64_MAX →
  ∃ fs', fault_ordinary operation run fs = (fs', (run (ff_inner fs)).2) ∧ ff_inner fs' = (run (ff_inner fs)).1
    ∧ ff_crashed fs' = false ∧ ff_plan fs' = ∅.
Proof.
  intros Hc Hp Hn. unfold fault_ordinary, ordinary_action, next_action. rewrite Hc. unfold checked_add.
  rewrite (proj2 (Z.leb_le _ _)) by lia. rewrite Hp, lookup_empty. unfold on_inner, fault_finish. cbn [ff_inner].
  destruct (run (ff_inner fs)) as [inner out]. cbn [andb]. eexists. split; [done|]. cbn. by rewrite delete_empty.
Qed.
End calls.

(** ** Writing *)

(** The file system after [bytes] reached [file], which held [st]. *)
Definition wrote (file : MemoryFile) (st : MemoryFileState) (offset : nat) (bytes : list byte) (m : MemoryFileSystem) : MemoryFileSystem :=
  match bytes with
  | [] => m
  | _ => put_file file (mk_file_state (overwrite (fst_volatile st) offset bytes) (fst_durable st) (fst_lock_generation st)) m
  end.
Lemma memory_file_put file st m m0 : memory_file file m = Ok m0 → memory_file file (put_file file st m) = Ok st.
Proof.
  unfold memory_file, put_file. cbn. destruct (negb _); [done|]. intros _. by rewrite lookup_insert_eq.
Qed.
Lemma memory_file_wrote file st offset bytes m : memory_file file m = Ok st →
  memory_file file (wrote file st offset bytes m) =
  Ok (match bytes with [] => st | _ => mk_file_state (overwrite (fst_volatile st) offset bytes) (fst_durable st) (fst_lock_generation st) end).
Proof. intros H. destruct bytes; [done|]. by apply (memory_file_put _ _ _ st). Qed.
Lemma put_file_put file st st' m : put_file file st' (put_file file st m) = put_file file st' m.
Proof. unfold put_file, with_files. cbn. by rewrite insert_insert_eq. Qed.
Lemma memory_write_more file st offset b1 b2 m : memory_file file m = Ok st → b2 ≠ [] →
  memory_write_at file (Z.of_nat offset + zlen b1) b2 (wrote file st offset b1 m) =
  (wrote file st offset (b1 ++ b2) m, Ok (zlen b2)) ∧ Z.of_nat offset + zlen b1 + zlen b2 ≤ mem_file_limit m
  ∨ ∃ e, memory_write_at file (Z.of_nat offset + zlen b1) b2 (wrote file st offset b1 m)
      = (wrote file st offset b1 m, Err e) ∧ e ≠ Interrupted.
Proof.
  intros Hf Hne. unfold memory_write_at. destruct (checked_add _ _) as [end_|] eqn:Hend; [|right; by eexists].
  destruct (Z.ltb_spec (mem_file_limit (wrote file st offset b1 m)) end_) as [|Hlim]; [right; by eexists|]. left.
  rewrite (memory_file_wrote _ _ _ _ _ Hf). unfold checked_add in Hend. destruct (_ <=? _); [|done]. injection Hend as <-.
  assert (mem_file_limit (wrote file st offset b1 m) = mem_file_limit m) as Hsame by (by destruct b1).
  split; [|by rewrite <-Hsame].
  assert (Z.of_nat offset + zlen b1 + zlen b2 = Z.of_nat (offset + length b1 + length b2)) as -> by (unfold zlen; lia).
  assert (Z.to_nat (Z.of_nat offset + zlen b1) = offset + length b1)%nat as -> by (unfold zlen; lia).
  rewrite Nat2Z.id, splice_overwrite. f_equal. unfold wrote. destruct (b1 ++ b2) as [|x l] eqn:Happ.
  { by apply app_nil in Happ as [_ ?]. }
  rewrite <-Happ. destruct b1 as [|y b1]; [by rewrite Nat.add_0_r|]. rewrite put_file_put. cbn [fst_volatile fst_durable fst_lock_generation].
  by rewrite overwrite_app.
Qed.
Lemma fault_write_cases file offset input (fs fs' : FaultFileSystem MemoryFileSystem) r :
  plan_ok (ff_plan fs) → input ≠ [] → zlen input < U64_MAX → fault_write_at file offset input fs = (fs', r) →
  plan_left fs fs' ∧ (r = Err Interrupted → (size (ff_plan fs') < size (ff_plan fs))%nat ∨ memory_write_at file offset input (ff_inner fs) = (ff_inner fs', Err Interrupted)) ∧
  ((ff_inner fs' = ff_inner fs ∧ match r with Ok count => count = 0 ∨ zlen input < count | Err _ => True end) ∨
   ∃ part rest out, input = part ++ rest ∧ part ≠ [] ∧ memory_write_at file offset part (ff_inner fs) = (ff_inner fs', out)
     ∧ (r = out ∨ (∃ n, out = Ok n) ∧ r = Err InjectedCrash)).
Proof.
  intros Hok Hne Hmax. unfold fault_write_at.
  destruct (next_action OpWriteAt fs) as [fs1 [[action|]|e]] eqn:Hn;
    apply next_action_cases in Hn as (Hin & Hpl & Hcr & Hcase).
  - destruct Hcase as (_ & Hsz & occ & Hact). pose proof (Hok _ _ Hact) as Hpos.
    destruct action as [kind|m|m| | | |].
    + intros [= <- <-]. split; [done|]. split; [by left|]. by left.
    + unfold on_inner, fault_finish. rewrite Hin. cbn in Hpos. set (part := take _ input).
      destruct (memory_write_at file offset part (ff_inner fs)) as [inner out] eqn:Hw. cbn [write_at memory_fs]. rewrite Hw. cbn [andb].
      intros [= <- <-]. split; [done|]. split; [by left|]. right. exists part, (drop (Z.to_nat (Z.min m (zlen input))) input), out.
      split; [unfold part; by rewrite take_drop|]. split; [|split; [done|by left]]. destruct input as [|b input]; [done|]. unfold part.
      assert (Z.to_nat (Z.min m (zlen (b :: input))) ≠ 0%nat) by (rewrite zlen_cons; pose proof (zlen_nonneg input); lia).
      by destruct (Z.to_nat _).
    + intros [= <- <-]. split; [done|]. split; [by left|]. by left.
    + intros [= <- <-]. split; [done|]. split; [by left|]. left. split; [done|by left].
    + intros [= <- <-]. split; [done|]. split; [done|]. left. split; [done|]. right. unfold saturating_add. lia.
    + intros [= <- <-]. split; [done|]. split; [by left|]. by left.
    + unfold on_inner, fault_finish. rewrite Hin. cbn [write_at memory_fs].
      destruct (memory_write_at file offset input (ff_inner fs)) as [inner out] eqn:Hw.
      destruct out as [n|e]; cbn [andb is_ok]; intros [= <- <-]; (split; [done|]); (split; [by left|]); right;
        eexists input, [], _; rewrite app_nil_r; (split; [done|]); (split; [done|]); (split; [done|]); [right; eauto|by left].
  - unfold on_inner, fault_finish. rewrite Hin. cbn [write_at memory_fs].
    destruct (memory_write_at file offset input (ff_inner fs)) as [inner out] eqn:Hw. cbn [andb].
    intros [= <- <-]. split; [done|]. split; [intros ->; by right|]. right. exists input, [], out. rewrite app_nil_r. by split_and!; auto.
  - intros [= <- <-]. split; [done|]. split; [congruence|]. by left.
Qed.
Lemma write_loop_spec file st offset input m : memory_file file m = Ok st → zlen input < U64_MAX → ∀ fuel n (fs : FaultFileSystem MemoryFileSystem),
  plan_ok (ff_plan fs) → (n ≤ length input)%nat → ff_inner fs = wrote file st offset (take n input) m →
  n = 0%nat ∨ Z.of_nat (offset + n) ≤ mem_file_limit m →
  (length input - n + size (ff_plan fs) < fuel)%nat →
  ∃ fs' r k, write_loop (F := FaultFileSystem MemoryFileSystem) fuel file (Z.of_nat offset) input (Z.of_nat n) fs = Some (fs', r)
    ∧ (k ≤ length input)%nat ∧ ff_inner fs' = wrote file st offset (take k input) m ∧ plan_left fs fs'
    ∧ (r = Ok tt → k = length input) ∧ r ≠ Err Interrupted ∧ (k = 0%nat ∨ Z.of_nat (offset + k) ≤ mem_file_limit m).
Proof.
  intros Hf Hmax. induction fuel as [|fuel IH]; intros n fs Hok Hn Hin Hlim Hfuel; [lia|]. cbn [write_loop]. unfold zlen at 1.
  destruct (Z.leb_spec (Z.of_nat (length input)) (Z.of_nat n)) as [Hle|Hlt].
  { eexists _, _, n. split; [done|]. split_and!; try done. intros _. lia. }
  destruct (checked_add (Z.of_nat offset) (Z.of_nat n)) as [position|] eqn:Hpos.
  2: { eexists _, _, n. split; [done|]. by split_and!. }
  unfold checked_add in Hpos. destruct (_ <=? _) in Hpos; [|done]. injection Hpos as <-. rewrite Nat2Z.id.
  assert (drop n input ≠ []) as Hne by (intros H0%(f_equal length); rewrite length_drop in H0; cbn in H0; lia).
  assert (length (take n input) = n) as Htl by (rewrite length_take; lia).
  assert (zlen (drop n input) = Z.of_nat (length input - n)) as Hdl by (unfold zlen; by rewrite length_drop).
  cbn [write_at fault_fs].
  destruct (fault_write_at _ _ _ _) as [fs1 r] eqn:Hw.
  apply fault_write_cases in Hw as (Hpl & Hint & Hcase); [|done..|unfold zlen in *; rewrite Hdl; lia].
  pose proof (plan_ok_subseteq _ _ Hpl Hok) as Hok1. pose proof (map_subseteq_size _ _ Hpl) as Hsz.
  assert (Z.of_nat offset + Z.of_nat n = Z.of_nat offset + zlen (take n input)) as Hoff by (unfold zlen; by rewrite Htl).
  destruct Hcase as [[Hsame Hr]|(part & rest & out & Hsplit & Hpart & Hmw & Hr)].
  - rewrite <-Hsame in Hin. destruct r as [count|e].
    + destruct Hr as [->|Hr]; cbn [Z.eqb].
      * eexists _, _, n. split; [done|]. by split_and!.
      * rewrite (proj2 (Z.eqb_neq _ _)), (proj2 (Z.leb_gt _ _)) by (unfold zlen in *; lia).
        eexists _, _, n. split; [done|]. by split_and!.
    + destruct (decide (e = Interrupted)) as [->|Hnint].
      * destruct (Hint eq_refl) as [Hsmall|Hmw].
        -- destruct (IH n fs1 Hok1 Hn Hin Hlim ltac:(lia)) as (fs' & r' & k & Hloop & Hk & Hin' & Hpl' & Hok' & Hni & Hkl).
           eexists fs', r', k. split; [done|]. split_and!; try done. by etrans.
        -- exfalso. rewrite Hoff in Hmw.
           rewrite <-Hsame, Hin in Hmw. destruct (memory_write_more file st offset (take n input) (drop n input) m Hf Hne) as [[He _]|(e & He & Hne')];
             rewrite He in Hmw; congruence.
      * eexists _, _, n. split; [by destruct e|]. split_and!; try done. congruence.
  - rewrite Hin, Hoff in Hmw. destruct (memory_write_more file st offset (take n input) part m Hf Hpart) as [[He Hlim1]|(e & He & Hne')];
      rewrite He in Hmw; injection Hmw as Hin1 <-.
    + assert (zlen part ≤ Z.of_nat (length input - n)) as Hpl1.
      { rewrite <-Hdl, Hsplit, zlen_app. pose proof (zlen_nonneg rest). lia. }
      assert (0 < zlen part) as Hpos by (destruct part; [done|]; rewrite zlen_cons; pose proof (zlen_nonneg part); lia).
      assert (take n input ++ part = take (n + length part) input) as Hjoin.
      { rewrite <-(take_drop n input) at 2. rewrite Hsplit, take_app_ge by lia. rewrite Htl.
        replace (n + length part - n)%nat with (length part) by lia. by rewrite take_app_length. }
      destruct Hr as [->|[_ ->]].
      * rewrite (proj2 (Z.eqb_neq _ _)) by lia. rewrite (proj2 (Z.leb_le _ _)) by (unfold zlen in *; lia).
        replace (Z.of_nat n + zlen part) with (Z.of_nat (n + length part)) by (unfold zlen; lia).
        destruct (IH (n + length part)%nat fs1 Hok1 ltac:(unfold zlen in *; lia) ltac:(by rewrite <-Hin1, Hjoin)
          ltac:(unfold zlen in *; rewrite Htl in Hlim1; lia) ltac:(unfold zlen in *; lia)) as (fs' & r' & k & Hloop & Hk & Hin' & Hpl' & Hok' & Hni & Hkl).
        eexists fs', r', k. split; [done|]. split_and!; try done. by etrans.
      * eexists _, _, (n + length part)%nat. split; [done|]. rewrite <-Hjoin. split_and!; try done; unfold zlen in *; [lia|rewrite Htl in Hlim1; lia].
    + destruct Hr as [->|[[? ?] _]]; [|done]. eexists _, _, n. split; [by destruct e|]. split_and!; try done; congruence.
Qed.

(** ** Reading *)
Lemma read_exact_memory fuel file st offset len m : memory_file file m = Ok st → 0 ≤ offset → 0 ≤ len →
  offset + len ≤ zlen (fst_volatile st) ≤ U64_MAX →
  read_exact_at (F := MemoryFileSystem) (S fuel) file offset len m =
  Some (m, Ok (slice (Z.to_nat offset) (Z.to_nat len) (fst_volatile st))).
Proof.
  intros Hf Ho Hl Hb. unfold read_exact_at. cbn [read_loop].
  assert (zlen (zeros (Z.to_nat len)) = len) as Hzl by (unfold zlen; rewrite length_zeros; lia). rewrite Hzl.
  destruct (Z.leb_spec len 0).
  { assert (len = 0) as -> by lia. done. }
  unfold checked_add. rewrite Z.add_0_r, (proj2 (Z.leb_le _ _)), Z.sub_0_r by lia. cbn [read_at memory_fs].
  unfold memory_read_at. rewrite Hf, result_bind_Ok. rewrite (proj2 (Z.leb_gt _ _)) by lia. rewrite Z.min_l by lia.
  rewrite (proj2 (Z.eqb_neq _ _)), (proj2 (Z.leb_le _ _)) by lia.
  assert (length (slice (Z.to_nat offset) (Z.to_nat len) (fst_volatile st)) = Z.to_nat len) as Hsl
    by (apply length_slice; unfold zlen in *; lia).
  assert (splice (zeros (Z.to_nat len)) (Z.to_nat 0) (slice (Z.to_nat offset) (Z.to_nat len) (fst_volatile st))
    = slice (Z.to_nat offset) (Z.to_nat len) (fst_volatile st)) as ->.
  { unfold splice. cbn [Z.to_nat take app]. rewrite drop_ge, app_nil_r by (rewrite length_zeros; cbn; lia). done. }
  assert (zlen (slice (Z.to_nat offset) (Z.to_nat len) (fst_volatile st)) = len) as Hsz by (unfold zlen; rewrite Hsl; lia).
  destruct fuel; cbn [read_loop]; by rewrite Hsz, Z.add_0_l, (proj2 (Z.leb_le _ _)).
Qed.
Lemma memory_file_other file other st m : mf_node other ≠ mf_node file →
  memory_file other (put_file file st m) = memory_file other m.
Proof. intros Hne. unfold memory_file, put_file. cbn. by rewrite lookup_insert_ne. Qed.
Lemma memory_file_wrote_other file other st offset bytes m : mf_node other ≠ mf_node file →
  memory_file other (wrote file st offset bytes m) = memory_file other m.
Proof. intros Hne. destruct bytes; [done|]. by apply memory_file_other. Qed.
Lemma overwrite_slice old offset bytes : slice offset (length bytes) (overwrite old offset bytes) = bytes.
Proof.
  unfold overwrite. rewrite app_assoc. rewrite (slice_app_skip _ offset) by (by rewrite ?overwrite_prefix_length).
  rewrite Nat.sub_diag. by apply slice_app_here.
Qed.
Lemma length_overwrite old offset bytes : (offset + length bytes ≤ length (overwrite old offset bytes))%nat.
Proof. unfold overwrite. rewrite !length_app, length_take, length_zeros. lia. Qed.

(** A checked write is torn at most.  Whatever faults are injected - short
    writes, interruptions, errors, a crash before or after the call - the write loop
    ends within the given fuel; the file holds the old bytes with some prefix of the
    input over them, nothing durable and no other file changes, and when it reports
    success the whole input was written and reading it back returns it. *)
Theorem write_all_at_torn (fs : FaultFileSystem MemoryFileSystem) file st offset input fuel :
  memory_file file (ff_inner fs) = Ok st → plan_ok (ff_plan fs) → 0 ≤ offset → zlen input < U64_MAX →
  (length input + size (ff_plan fs) < fuel)%nat →
  ∃ fs' r k st', write_all_at (F := FaultFileSystem MemoryFileSystem) fuel file offset input fs = Some (fs', r)
    ∧ memory_file file (ff_inner fs') = Ok st' ∧ (k ≤ length input)%nat
    ∧ fst_volatile st' = match k with O => fst_volatile st | _ => overwrite (fst_volatile st) (Z.to_nat offset) (take k input) end
    ∧ fst_durable st' = fst_durable st
    ∧ (∀ other, mf_node other ≠ mf_node file → memory_file other (ff_inner fs') = memory_file other (ff_inner fs))
    ∧ (r = Ok tt → input ≠ [] → zlen (fst_volatile st') ≤ U64_MAX →
         read_exact_at (F := MemoryFileSystem) 1 file offset (zlen input) (ff_inner fs') = Some (ff_inner fs', Ok input)).
Proof.
  intros Hf Hok Ho Hmax Hfuel. unfold write_all_at.
  destruct (write_loop_spec file st (Z.to_nat offset) input (ff_inner fs) Hf Hmax fuel 0 fs Hok ltac:(lia) eq_refl ltac:(by left) ltac:(lia))
    as (fs' & r & k & Hw & Hk & Hin & _ & Hr & _ & _).
  rewrite Z2Nat.id in Hw by done. pose proof (memory_file_wrote file st (Z.to_nat offset) (take k input) (ff_inner fs) Hf) as Hst.
  rewrite <-Hin in Hst. eexists fs', r, k, _. split; [done|]. split; [exact Hst|]. split; [done|].
  assert (take k input = [] ↔ k = 0%nat ∨ input = []) as Hnil by (destruct k, input; cbn; naive_solver).
  split; [|split; [by destruct (take k input)|split]].
  - destruct k; [done|]. destruct input; [by cbn in Hk; lia|]. done.
  - intros other Hne. rewrite Hin. by apply memory_file_wrote_other.
  - intros Hrok Hne Hb. specialize (Hr Hrok). subst k. rewrite firstn_all in *. destruct input as [|b input]; [done|].
    erewrite (read_exact_memory 0); [|exact Hst|done|apply zlen_nonneg|].
    + cbn [fst_volatile]. replace (Z.to_nat (zlen (b :: input))) with (length (b :: input)) by (unfold zlen; lia).
      by rewrite overwrite_slice.
    + split; [|done]. cbn [fst_volatile]. pose proof (length_overwrite (fst_volatile st) (Z.to_nat offset) (b :: input)). unfold zlen. lia.
Qed.
(** A write cut short, then torn by a crash. *)
Definition torn_fs : FaultFileSystem MemoryFileSystem :=
  FaultFileSystem_new
    (mk_memory_fs 1 3 100 {[2 := mk_file_state (lit "abc") (lit "abc") 0]} {[ROOT_NODE := mk_directory_state ∅ ∅]})
    (<[(OpWriteAt, 1) := ShortWrite 2]> {[(OpWriteAt, 2) := CrashBefore]}).
Lemma write_all_at_torn_witness : ∃ fs' r st',
  write_all_at (F := FaultFileSystem MemoryFileSystem) 20 (mk_memory_file 2 1) 3 (lit "defg") torn_fs = Some (fs', r)
  ∧ memory_file (mk_memory_file 2 1) (ff_inner fs') = Ok st' ∧ fst_durable st' = lit "abc" ∧ r = Err InjectedCrash.
Proof.
  destruct (write_all_at_torn torn_fs (mk_memory_file 2 1) (mk_file_state (lit "abc") (lit "abc") 0) 3 (lit "defg") 20)
    as (fs' & r & k & st' & Hw & Hst & _ & _ & Hd & _).
  - reflexivity.
  - intros at_ a. cbn [ff_plan torn_fs FaultFileSystem_new]. rewrite lookup_insert_Some, lookup_singleton_Some.
    intros [[_ <-]|[_ [_ <-]]]; [reflexivity|exact I].
  - lia.
  - reflexivity.
  - vm_compute. lia.
  - exists fs', r, st'. split; [exact Hw|]. split; [exact Hst|]. split; [exact Hd|].
    assert (match write_all_at (F := FaultFileSystem MemoryFileSystem) 20 (mk_memory_file 2 1) 3 (lit "defg") torn_fs with
            | Some (_, Err InjectedCrash) => true | _ => false end = true) as Hb by (vm_compute; reflexivity).
    rewrite Hw in Hb. destruct r as [[]|[]]; first [discriminate Hb|reflexivity].
Defined.
