(* ===== verification/JournalFormat.v ===== *)
(** * The journal's records

    The fixed-size plaintexts of [crates/uste-storage/src/journal.rs]: the
    creation manifest, segment headers and commit certificates, with the contexts
    they are encrypted under and the names of their files. *)
From S2P Require Import Prelude Ids Storage Blob Envelope FileSystem.
Import StorageError.

Definition STORAGE_MAJOR : byte := x01.
Definition STORAGE_MINOR : byte := x00.
Definition SMALL_ENVELOPE_BYTES : Z := 4161.
Definition MANIFEST_PLAINTEXT_BYTES : Z := 128.
Definition CERTIFICATE_HEADER_PLAINTEXT_BYTES : Z := 64.
Definition SEGMENT_HEADER_PLAINTEXT_BYTES : Z := 80.
Definition CERTIFICATE_PLAINTEXT_BYTES : Z := 192.
Definition MAX_KEY_ENVELOPE_BYTES : Z := 64 * 1024.
Definition MAX_ENCODED_BLOB_INVENTORY_BYTES : Z := MAX_PLAINTEXT_BYTES + 8 * 1024.
Definition CERTIFICATE_LOG_LIMIT : Z := 1024 * 1024 * 1024.
Definition STORAGE_PROFILE_LINUX_LOCAL_V1 : byte := x01.
Definition CRYPTO_SUITE_V1 : byte := x01.
Definition SMALL_FRAME_TAG : byte := x01.
Definition RANDOM_ATTEMPTS : nat := 16%nat.
Definition JOURNAL_SEGMENT_LIMIT : Z := 256 * 1024 * 1024.

Definition storage_array (n : nat) (bytes : list byte) (offset : nat) : result StorageError (list byte) :=
  ok_or (read_array n bytes offset) IntegrityFailure.
Definition storage_u64 (bytes : list byte) (offset : nat) : result StorageError Z :=
  value ← storage_array 8 bytes offset; Ok (of_be_bytes value).

(** ** The manifest *)
Record Manifest : Set := mk_manifest {
  mn_database : DatabaseId;
  mn_writer : list byte;
  mn_epoch : KeyEpoch;
  mn_certificate_log_id : list byte;
  mn_initial_segment_id : list byte
}.
Definition Manifest_encode (m : Manifest) : list byte :=
  lit "UMAN" ++ [STORAGE_MAJOR] ++ [STORAGE_MINOR] ++ [x01] ++ [x00] ++ as_bytes (mn_database m) ++ mn_writer m
  ++ be_bytes 8 (mn_epoch m) ++ mn_certificate_log_id m ++ mn_initial_segment_id m
  ++ [STORAGE_PROFILE_LINUX_LOCAL_V1] ++ [CRYPTO_SUITE_V1] ++ [SMALL_FRAME_TAG] ++ [x00]
  ++ be_bytes 8 JOURNAL_SEGMENT_LIMIT ++ be_bytes 8 SMALL_ENVELOPE_BYTES ++ be_bytes 8 MAX_PLAINTEXT_BYTES ++ zeros 20.
Definition Manifest_decode (bytes : list byte) : result StorageError Manifest :=
  if negb (zlen bytes =? MANIFEST_PLAINTEXT_BYTES) || negb (bool_decide (slice 0 4 bytes = lit "UMAN"))
     || negb (bool_decide (slice 4 4 bytes = [STORAGE_MAJOR; STORAGE_MINOR; x01; x00]))
     || negb (byte_is bytes 80 STORAGE_PROFILE_LINUX_LOCAL_V1) || negb (byte_is bytes 81 CRYPTO_SUITE_V1)
     || negb (byte_is bytes 82 SMALL_FRAME_TAG) || negb (byte_is bytes 83 x00) || negb (all_zero (drop 108 bytes))
  then Err UnsupportedProfile
  else
    segment_limit ← storage_u64 bytes 84;
    small_envelope ← storage_u64 bytes 92;
    max_plaintext ← storage_u64 bytes 100;
    if negb (segment_limit =? JOURNAL_SEGMENT_LIMIT) || negb (small_envelope =? SMALL_ENVELOPE_BYTES)
       || negb (max_plaintext =? MAX_PLAINTEXT_BYTES)
    then Err UnsupportedProfile
    else
      epoch ← storage_u64 bytes 40;
      epoch ← ok_or (KeyEpoch_new epoch) IntegrityFailure;
      database ← storage_array 16 bytes 8;
      writer ← storage_array 16 bytes 24;
      certificate_log_id ← storage_array 16 bytes 48;
      initial_segment_id ← storage_array 16 bytes 64;
      if bool_decide (writer = zeros 16) || bool_decide (certificate_log_id = zeros 16)
         || bool_decide (initial_segment_id = zeros 16)
      then Err IntegrityFailure
      else Ok (mk_manifest (from_bytes database) writer epoch certificate_log_id initial_segment_id).

(** ** Segment headers *)
Record SegmentHeader : Set := mk_segment_header {
  sh_database : DatabaseId;
  sh_segment_id : list byte;
  sh_writer : list byte;
  sh_previous_segment_id : list byte;
  sh_first_revision : Z
}.
Definition SegmentHeader_encode (h : SegmentHeader) : list byte :=
  lit "USEG" ++ [STORAGE_MAJOR] ++ [STORAGE_MINOR] ++ zeros 2 ++ as_bytes (sh_database h) ++ sh_segment_id h
  ++ sh_writer h ++ sh_previous_segment_id h ++ be_bytes 8 (sh_first_revision h).
Definition SegmentHeader_decode (bytes : list byte) : result StorageError SegmentHeader :=
  if negb (zlen bytes =? SEGMENT_HEADER_PLAINTEXT_BYTES) || negb (bool_decide (slice 0 4 bytes = lit "USEG"))
     || negb (byte_is bytes 4 STORAGE_MAJOR) || negb (byte_is bytes 5 STORAGE_MINOR)
     || negb (bool_decide (slice 6 2 bytes = zeros 2))
  then Err IntegrityFailure
  else
    database ← storage_array 16 bytes 8;
    segment_id ← storage_array 16 bytes 24;
    writer ← storage_array 16 bytes 40;
    previous_segment_id ← storage_array 16 bytes 56;
    first_revision ← storage_u64 bytes 72;
    if bool_decide (segment_id = zeros 16) || bool_decide (writer = zeros 16) || (first_revision =? 0)
    then Err IntegrityFailure
    else Ok (mk_segment_header (from_bytes database) segment_id writer previous_segment_id first_revision).

(** ** Certificates *)
Record Certificate : Set := mk_certificate {
  ct_revision : Z;
  ct_previous_digest : list byte;
  ct_segment_id : list byte;
  ct_group_sequence : Z;
  ct_group_offset : Z;
  ct_group_length : Z;
  ct_group_digest : list byte;
  ct_blob_inventory_digest : list byte;
  ct_logical_event_digest : list byte
}.
Definition Certificate_encode (c : Certificate) : list byte :=
  lit "UCER" ++ [STORAGE_MAJOR] ++ [STORAGE_MINOR] ++ zeros 2 ++ be_bytes 8 (ct_revision c) ++ ct_previous_digest c
  ++ ct_segment_id c ++ be_bytes 8 (ct_group_sequence c) ++ be_bytes 8 (ct_group_offset c)
  ++ be_bytes 8 (ct_group_length c) ++ ct_group_digest c ++ ct_blob_inventory_digest c ++ ct_logical_event_digest c
  ++ zeros 8.
Definition Certificate_decode (bytes : list byte) : result StorageError Certificate :=
  if negb (zlen bytes =? CERTIFICATE_PLAINTEXT_BYTES) || negb (bool_decide (slice 0 4 bytes = lit "UCER"))
     || negb (byte_is bytes 4 STORAGE_MAJOR) || negb (byte_is bytes 5 STORAGE_MINOR)
     || negb (bool_decide (slice 6 2 bytes = zeros 2)) || negb (all_zero (drop 184 bytes))
  then Err IntegrityFailure
  else
    revision ← storage_u64 bytes 8;
    previous_digest ← storage_array 32 bytes 16;
    segment_id ← storage_array 16 bytes 48;
    group_sequence ← storage_u64 bytes 64;
    group_offset ← storage_u64 bytes 72;
    group_length ← storage_u64 bytes 80;
    group_digest ← storage_array 32 bytes 88;
    blob_inventory_digest ← storage_array 32 bytes 120;
    logical_event_digest ← storage_array 32 bytes 152;
    Ok (mk_certificate revision previous_digest segment_id group_sequence group_offset group_length group_digest
          blob_inventory_digest logical_event_digest).
Definition certificate_header (database : DatabaseId) (log_id writer : list byte) : list byte :=
  lit "UCLG" ++ [STORAGE_MAJOR] ++ [STORAGE_MINOR] ++ zeros 2 ++ as_bytes database ++ log_id ++ writer ++ zeros 8.

(** ** Contexts and names *)
Definition manifest_context (database : DatabaseId) (epoch : KeyEpoch) : CryptoContext :=
  mk_context database ScopeDatabase epoch CreationManifest (zeros 16) 0 (zeros 16) STORAGE_MAJOR STORAGE_MINOR Small4KiB.
Definition certificate_context (database : DatabaseId) (epoch : KeyEpoch) (certificate_log_id writer : list byte)
    (sequence : Z) : CryptoContext :=
  mk_context database ScopeDatabase epoch CommitCertificate certificate_log_id sequence writer STORAGE_MAJOR
    STORAGE_MINOR Small4KiB.
Definition segment_context (database : DatabaseId) (epoch : KeyEpoch) (segment_id writer : list byte) (sequence : Z) :
    CryptoContext :=
  mk_context database ScopeDatabase epoch JournalGroup segment_id sequence writer STORAGE_MAJOR STORAGE_MINOR Small4KiB.
Definition hex_digit (n : Z) : byte := default x00 (lit "0123456789abcdef" !! Z.to_nat n).
Definition hex_id (id : list byte) : list byte :=
  id ≫= λ b, let n := of_be_bytes [b] in [hex_digit (Z.shiftr n 4); hex_digit (Z.land n 15)].
Definition segment_name (id : list byte) : result StorageError EntryName :=
  map_err (λ _, IntegrityFailure) (EntryName_new (lit "j-" ++ hex_id id)).
Definition require_small_envelope (encoded : list byte) : result StorageError unit :=
  if zlen encoded =? SMALL_ENVELOPE_BYTES then Ok tt else Err IntegrityFailure.
Definition validate_group_encoded_length (len : Z) : result StorageError unit :=
  let minimum := SMALL_ENVELOPE_BYTES in
  maximum ← ok_or (checked_add MAX_PLAINTEXT_BYTES SMALL_ENVELOPE_BYTES) ResourceLimit;
  if (len <? minimum) || (maximum <? len) || negb ((len - 65) mod (4 * 1024) =? 0) then Err IntegrityFailure else Ok tt.
Definition recovery_adapter_error (error : AdapterErrorKind) : StorageError :=
  match error with
  | NotFound | UnexpectedEof | WrongEntryType => IntegrityFailure
  | kind => Adapter kind
  end.
Definition recovery_crypto_error (error : CryptoError) : StorageError :=
  match error with
  | CryptoError.UnsupportedProfile => UnsupportedProfile
  | CryptoError.ResourceLimit => ResourceLimit
  | _ => IntegrityFailure
  end.
Definition committed_crypto_error (_ : CryptoError) : StorageError := IntegrityFailure.

(** ** Each record has one byte form *)

Definition id16 (id : list byte) : Prop := length id = 16%nat.
Definition digest32 (digest : list byte) : Prop := length digest = 32%nat.
Definition u64_ok (z : Z) : Prop := 0 ≤ z ≤ U64_MAX.
Definition manifest_ok (m : Manifest) : Prop :=
  identity_ok (mn_database m) ∧ id16 (mn_writer m) ∧ mn_writer m ≠ zeros 16 ∧ u64_ok (mn_epoch m) ∧ mn_epoch m ≠ 0
  ∧ id16 (mn_certificate_log_id m) ∧ mn_certificate_log_id m ≠ zeros 16
  ∧ id16 (mn_initial_segment_id m) ∧ mn_initial_segment_id m ≠ zeros 16.
Definition segment_header_ok (h : SegmentHeader) : Prop :=
  identity_ok (sh_database h) ∧ id16 (sh_segment_id h) ∧ sh_segment_id h ≠ zeros 16
  ∧ id16 (sh_writer h) ∧ sh_writer h ≠ zeros 16 ∧ id16 (sh_previous_segment_id h)
  ∧ u64_ok (sh_first_revision h) ∧ sh_first_revision h ≠ 0.
Definition certificate_ok (c : Certificate) : Prop :=
  u64_ok (ct_revision c) ∧ digest32 (ct_previous_digest c) ∧ id16 (ct_segment_id c) ∧ u64_ok (ct_group_sequence c)
  ∧ u64_ok (ct_group_offset c) ∧ u64_ok (ct_group_length c) ∧ digest32 (ct_group_digest c)
  ∧ digest32 (ct_blob_inventory_digest c) ∧ digest32 (ct_logical_event_digest c).

(** ** Reading fields *)
Lemma storage_array_in n bytes off : (off + n ≤ length bytes)%nat → storage_array n bytes off = Ok (slice off n bytes).
Proof. intros Hl. unfold storage_array. by rewrite read_array_in. Qed.
Lemma storage_u64_in bytes off : (off + 8 ≤ length bytes)%nat → storage_u64 bytes off = Ok (of_be_bytes (slice off 8 bytes)).
Proof. intros Hl. unfold storage_u64. by rewrite storage_array_in. Qed.
Lemma u64_be z : u64_ok z → of_be_bytes (be_bytes 8 z) = z.
Proof. unfold u64_ok, U64_MAX. intros Hz. apply of_be_bytes_be. change (256 ^ Z.of_nat 8) with (2 ^ 64). lia. Qed.
Lemma u64_slice bytes off : (off + 8 ≤ length bytes)%nat → u64_ok (of_be_bytes (slice off 8 bytes)).
Proof.
  intros Hl. pose proof (of_be_slice_range 8 bytes off Hl) as Hr. change (256 ^ Z.of_nat 8) with (2 ^ 64) in Hr.
  unfold u64_ok, U64_MAX. lia.
Qed.
Lemma zeros_drop off n bytes : length bytes = (off + n)%nat → all_zero (drop off bytes) = true ↔ slice off n bytes = zeros n.
Proof.
  intros Hl. assert (slice off n bytes = drop off bytes) as -> by (unfold slice; apply take_ge; rewrite length_drop; lia).
  rewrite all_zero_iff, length_drop. by replace (length bytes - off)%nat with n by lia.
Qed.
(** Evaluate the reads of an encoding whose parts have known lengths. *)
Ltac read_fields Hbytes Hlen :=
  rewrite ?storage_array_in, ?storage_u64_in by lia; rewrite ?result_bind_Ok;
  repeat match goal with
  | |- context [slice ?off ?n ?b] =>
      lazymatch b with context [app] => fail | _ => idtac end;
      let v := fresh "v" in
      eassert (slice off n b = _) as -> by (rewrite Hbytes; repeat step_slice; reflexivity)
  end.

Lemma certificate_decode_complete c : certificate_ok c → Certificate_decode (Certificate_encode c) = Ok c.
Proof.
  intros (H1 & H2 & H3 & H4 & H5 & H6 & H7 & H8 & H9). unfold digest32, id16 in *.
  remember (Certificate_encode c) as bytes eqn:Hbytes. unfold Certificate_encode in Hbytes.
  assert (length bytes = 192%nat) as Hlen by (rewrite Hbytes, !length_app, !length_be_bytes, !length_zeros, H2, H3, H7, H8, H9; done).
  unfold Certificate_decode, zlen. rewrite Hlen. change (Z.of_nat 192 =? CERTIFICATE_PLAINTEXT_BYTES) with true.
  rewrite (proj2 (byte_is_slice bytes 4 _)), (proj2 (byte_is_slice bytes 5 _)), (proj2 (zeros_drop 184 8 bytes Hlen))
    by (rewrite Hbytes; by repeat step_slice).
  read_fields Hbytes Hlen. rewrite !u64_be by done. by destruct c.
Qed.
Lemma segment_header_decode_complete h : segment_header_ok h → SegmentHeader_decode (SegmentHeader_encode h) = Ok h.
Proof.
  intros (H1 & H2 & N2 & H3 & N3 & H4 & H5 & N5). unfold identity_ok, id16 in *.
  remember (SegmentHeader_encode h) as bytes eqn:Hbytes. unfold SegmentHeader_encode in Hbytes.
  assert (length bytes = 80%nat) as Hlen by (rewrite Hbytes, !length_app, !length_be_bytes, !length_zeros, H1, H2, H3, H4; done).
  unfold SegmentHeader_decode, zlen. rewrite Hlen. change (Z.of_nat 80 =? SEGMENT_HEADER_PLAINTEXT_BYTES) with true.
  rewrite (proj2 (byte_is_slice bytes 4 _)), (proj2 (byte_is_slice bytes 5 _)) by (rewrite Hbytes; by repeat step_slice).
  read_fields Hbytes Hlen. rewrite !u64_be, !bool_decide_true by done. cbn [negb orb].
  rewrite !bool_decide_false, (proj2 (Z.eqb_neq _ _)) by done. destruct h as [[] ? ? ? ?]. done.
Qed.
Lemma manifest_decode_complete m : manifest_ok m → Manifest_decode (Manifest_encode m) = Ok m.
Proof.
  intros (H1 & H2 & N2 & H3 & N3 & H4 & N4 & H5 & N5). unfold identity_ok, id16 in *.
  remember (Manifest_encode m) as bytes eqn:Hbytes. unfold Manifest_encode in Hbytes.
  assert (length bytes = 128%nat) as Hlen by (rewrite Hbytes, !length_app, !length_be_bytes, !length_zeros, H1, H2, H4, H5; done).
  unfold Manifest_decode, zlen. rewrite Hlen. change (Z.of_nat 128 =? MANIFEST_PLAINTEXT_BYTES) with true.
  rewrite (proj2 (byte_is_slice bytes 80 _)), (proj2 (byte_is_slice bytes 81 _)), (proj2 (byte_is_slice bytes 82 _)),
    (proj2 (byte_is_slice bytes 83 _)), (proj2 (zeros_drop 108 20 bytes Hlen)) by (rewrite Hbytes; by repeat step_slice).
  assert (slice 4 4 bytes = [STORAGE_MAJOR; STORAGE_MINOR; x01; x00]) as -> by (rewrite Hbytes; reflexivity).
  read_fields Hbytes Hlen. rewrite !bool_decide_true by done. rewrite !u64_be by (done || by vm_compute). rewrite !Z.eqb_refl. cbn [negb orb].
  unfold KeyEpoch_new. rewrite (proj2 (Z.eqb_neq _ _)) by done. cbn [ok_or]. rewrite result_bind_Ok.
  read_fields Hbytes Hlen. rewrite !bool_decide_false by done. destruct m as [[] ? ? ? ?]. done.
Qed.
Lemma certificate_decode_sound bytes c : Certificate_decode bytes = Ok c → certificate_ok c ∧ bytes = Certificate_encode c.
Proof.
  unfold Certificate_decode. destruct (negb (zlen bytes =? _) || _ || _ || _ || _ || _) eqn:Hb; [done|].
  rewrite !orb_false_iff, !negb_false_iff, !byte_is_slice, !bool_decide_eq_true, Z.eqb_eq in Hb.
  destruct Hb as (((((Hlen & Hm) & Hma) & Hmi) & Hr) & Hz). unfold zlen, CERTIFICATE_PLAINTEXT_BYTES in Hlen.
  assert (length bytes = 192)%nat as Hl by lia. rewrite (zeros_drop 184 8 bytes) in Hz by lia.
  rewrite !storage_u64_in, !storage_array_in by lia. rewrite !result_bind_Ok. intros [= <-]. split.
  - unfold certificate_ok, digest32, id16. cbn. rewrite !length_slice by lia. by split_and!; try apply u64_slice; try lia.
  - unfold Certificate_encode. cbn [ct_revision ct_previous_digest ct_segment_id ct_group_sequence ct_group_offset ct_group_length
      ct_group_digest ct_blob_inventory_digest ct_logical_event_digest]. rewrite !of_be_slice by lia. rewrite <-Hm, <-Hma, <-Hmi, <-Hr, <-Hz.
    rewrite (layout_cut [4; 1; 1; 2; 8; 32; 16; 8; 8; 8; 32; 32; 32; 8]%nat bytes) at 1 by (by rewrite Hl).
    cbn [slices concat Nat.add]. by rewrite app_nil_r.
Qed.
Lemma segment_header_decode_sound bytes h : SegmentHeader_decode bytes = Ok h → segment_header_ok h ∧ bytes = SegmentHeader_encode h.
Proof.
  unfold SegmentHeader_decode. destruct (negb (zlen bytes =? _) || _ || _ || _ || _) eqn:Hb; [done|].
  rewrite !orb_false_iff, !negb_false_iff, !byte_is_slice, !bool_decide_eq_true, Z.eqb_eq in Hb.
  destruct Hb as ((((Hlen & Hm) & Hma) & Hmi) & Hr). unfold zlen, SEGMENT_HEADER_PLAINTEXT_BYTES in Hlen.
  assert (length bytes = 80)%nat as Hl by lia.
  rewrite !storage_u64_in, !storage_array_in by lia. rewrite !result_bind_Ok. destruct (_ || _ || _) eqn:Hb; [done|].
  rewrite !orb_false_iff, !bool_decide_eq_false, Z.eqb_neq in Hb. destruct Hb as ((N1 & N2) & N3). intros [= <-]. split.
  - unfold segment_header_ok, identity_ok, id16. cbn. rewrite !length_slice by lia. by split_and!; try apply u64_slice; try lia.
  - unfold SegmentHeader_encode. cbn [sh_database sh_segment_id sh_writer sh_previous_segment_id sh_first_revision as_bytes].
    rewrite !of_be_slice by lia. rewrite <-Hm, <-Hma, <-Hmi, <-Hr.
    rewrite (layout_cut [4; 1; 1; 2; 16; 16; 16; 16; 8]%nat bytes) at 1 by (by rewrite Hl).
    cbn [slices concat Nat.add]. by rewrite app_nil_r.
Qed.
Lemma manifest_decode_sound bytes m : Manifest_decode bytes = Ok m → manifest_ok m ∧ bytes = Manifest_encode m.
Proof.
  unfold Manifest_decode. destruct (negb (zlen bytes =? _) || _ || _ || _ || _ || _ || _ || _) eqn:Hb; [done|].
  rewrite !orb_false_iff, !negb_false_iff, !byte_is_slice, !bool_decide_eq_true, Z.eqb_eq in Hb.
  destruct Hb as (((((((Hlen & Hm) & Hv) & Hp) & Hs) & Hf) & Hr) & Hz). unfold zlen, MANIFEST_PLAINTEXT_BYTES in Hlen.
  assert (length bytes = 128)%nat as Hl by lia. rewrite (zeros_drop 108 20 bytes) in Hz by lia.
  rewrite !storage_u64_in, !storage_array_in by lia. rewrite !result_bind_Ok. destruct (_ || _ || _) eqn:Hb; [done|].
  rewrite !orb_false_iff, !negb_false_iff, !Z.eqb_eq in Hb. destruct Hb as ((L1 & L2) & L3).
  intros (epoch & Hep%ok_or_Ok & Hk)%bind_Ok. unfold KeyEpoch_new in Hep.
  destruct (Z.eqb_spec (of_be_bytes (slice 40 8 bytes)) 0) as [|Hne]; [done|]. injection Hep as <-.
  rewrite ?storage_array_in in Hk by lia. rewrite ?result_bind_Ok in Hk. destruct (_ || _ || _) eqn:Hb; [done|].
  rewrite !orb_false_iff, !bool_decide_eq_false in Hb. destruct Hb as ((N1 & N2) & N3). injection Hk as <-. split.
  - unfold manifest_ok, identity_ok, id16. cbn. rewrite !length_slice by lia. by split_and!; try apply u64_slice; try lia.
  - unfold Manifest_encode. cbn [mn_database mn_writer mn_epoch mn_certificate_log_id mn_initial_segment_id as_bytes].
    assert (∀ l, [STORAGE_MAJOR] ++ [STORAGE_MINOR] ++ [x01] ++ [x00] ++ l = slice 4 4 bytes ++ l) as -> by (intros l; by rewrite Hv).
    rewrite <-L1, <-L2, <-L3, !of_be_slice by lia. rewrite <-Hm, <-Hp, <-Hs, <-Hf, <-Hr, <-Hz.
    rewrite (layout_cut [4; 4; 16; 16; 8; 16; 16; 1; 1; 1; 1; 8; 8; 8; 20]%nat bytes) at 1 by (by rewrite Hl).
    cbn [slices concat Nat.add]. by rewrite app_nil_r.
Qed.

(** C34: the journal's records are exact.  A commit certificate, a segment header and
    the creation manifest each decode exactly from their encoding and from nothing
    else, so an authenticated record says what its writer wrote, reserved bytes and
    limits included. *)
Theorem journal_records_exact bytes :
  (∀ c, Certificate_decode bytes = Ok c ↔ certificate_ok c ∧ bytes = Certificate_encode c)
  ∧ (∀ h, SegmentHeader_decode bytes = Ok h ↔ segment_header_ok h ∧ bytes = SegmentHeader_encode h)
  ∧ (∀ m, Manifest_decode bytes = Ok m ↔ manifest_ok m ∧ bytes = Manifest_encode m).
Proof.
  split_and!; intros r; (split; [auto using certificate_decode_sound, segment_header_decode_sound, manifest_decode_sound|]);
    intros [Hok ->]; auto using certificate_decode_complete, segment_header_decode_complete, manifest_decode_complete.
Qed.
