(* ===== verification/JournalStore.v ===== *)
(** * The journal store

    Models the writer of [crates/uste-storage/src/journal.rs]: creation, appending a
    group with its certificate, segment rollover, blob inventories, and the
    recovery scan that reopens the store - in the mode [create] and [open] use,
    where certificate anchors and blob metadata are resident.  The file system, the
    cipher, the key adapter and both entropy sources are interfaces; [fuel] bounds
    the retries of each read or write loop, and [None] is fuel that ran out or a
    visitor that panicked. *)
From S2P Require Import Prelude Ids Policy Storage Blob Journal Envelope FileSystem JournalFormat.
Import StorageError.

(** ** Effects: a state, failures, and running out of fuel *)
Definition eff (S T : Type) : Type := S → option (S * result StorageError T).
#[global] Instance eff_ret {S} : MRet (eff S) := λ T t s, Some (s, Ok t).
#[global] Instance eff_bind {S} : MBind (eff S) := λ T U k m s,
  match m s with
  | Some (s, Ok t) => k t s
  | Some (s, Err error) => Some (s, Err error)
  | None => None
  end.
Section effects.
Context {S : Type}.
Definition eff_lift {T} (r : result StorageError T) : eff S T := λ s, Some (s, r).
Definition eff_fail {T} (error : StorageError) : eff S T := λ s, Some (s, Err error).
Definition eff_get : eff S S := λ s, Some (s, Ok s).
(** A loop whose body may fail. *)
Fixpoint eff_fold {A B} (body : A → B → eff S A) (l : list B) (a : A) : eff S A :=
  match l with
  | [] => mret a
  | b :: l => a ← body a b; eff_fold body l a
  end.
End effects.

Definition checked_mul (a b : Z) : option Z := if a * b <=? U64_MAX then Some (a * b) else None.
Class DurableKeyEnvelope (W : Type) := {
  encode_durable : W → result CryptoError (list byte);
  decode_durable : list byte → result CryptoError W
}.
Definition entry (value : string) : EntryName := mk_entry_name (lit value).
Record CreationOptions : Set := mk_creation_options { co_database : DatabaseId; co_final_name : EntryName }.
Abbreviation BlobMap := (gmap (NamespaceRef * BlobId) BlobReference).
Definition blob_key (reference : BlobReference) : NamespaceRef * BlobId := (blob_scope reference, blob_id reference).
Record SegmentTail : Set := mk_segment_tail { sg_segment_id : list byte; sg_committed_end : Z; sg_extra_bytes : Z }.

(** ** Blob limits *)
Definition check_unique_blob_limit (count : Z) : result StorageError unit :=
  if MAX_COMMITTED_BLOBS_PER_JOURNAL <? count then Err ResourceLimit else Ok tt.
Definition check_blob_reference_binding_limit (count : Z) : result StorageError unit :=
  if MAX_BLOB_REFERENCE_BINDINGS_PER_JOURNAL <? count then Err ResourceLimit else Ok tt.
Definition check_namespace_blob_byte_limit (bytes : Z) : result StorageError unit :=
  if MAX_NAMESPACE_BLOB_BYTES <? bytes then Err ResourceLimit else Ok tt.
Definition capacity_step (committed_blobs : BlobMap)
    (acc : Z * gmap NamespaceRef Z * gset (NamespaceRef * BlobId)) (reference : BlobReference) :
    result StorageError (Z * gmap NamespaceRef Z * gset (NamespaceRef * BlobId)) :=
  let '(projected_count, additions, new_keys) := acc in
  let key := blob_key reference in
  match committed_blobs !! key with
  | Some existing => if decide (existing = reference) then Ok acc else Err IntegrityFailure
  | None =>
      if bool_decide (key ∈ new_keys) then Err IntegrityFailure
      else
        projected_count ← ok_or (checked_add projected_count 1) ResourceLimit;
        check_unique_blob_limit projected_count;;
        addition ← ok_or (checked_add (default 0 (additions !! blob_scope reference)) (byte_len reference)) ResourceLimit;
        Ok (projected_count, <[blob_scope reference := addition]> additions, {[key]} ∪ new_keys)
  end.
Definition check_blob_capacity (committed_blobs : BlobMap) (committed_blob_bytes : gmap NamespaceRef Z)
    (references : list BlobReference) : result StorageError unit :=
  '(_, additions, _) ← try_fold (capacity_step committed_blobs) references (map_len committed_blobs, ∅, ∅);
  try_fold (λ _ entry, let '(scope, addition) := entry in
              projected ← ok_or (checked_add (default 0 (committed_blob_bytes !! scope)) addition) ResourceLimit;
              check_namespace_blob_byte_limit projected) (btree_entries additions) tt.
Definition register_committed_blob (blobs : BlobMap * gmap NamespaceRef Z) (reference : BlobReference) :
    result StorageError (BlobMap * gmap NamespaceRef Z) :=
  let '(committed_blobs, committed_blob_bytes) := blobs in
  let key := blob_key reference in
  match committed_blobs !! key with
  | Some existing => if decide (existing = reference) then Ok blobs else Err IntegrityFailure
  | None =>
      count ← ok_or (checked_add (map_len committed_blobs) 1) ResourceLimit;
      check_unique_blob_limit count;;
      let current_bytes := default 0 (committed_blob_bytes !! blob_scope reference) in
      projected_bytes ← ok_or (checked_add current_bytes (byte_len reference)) ResourceLimit;
      check_namespace_blob_byte_limit projected_bytes;;
      Ok (<[key := reference]> committed_blobs, <[blob_scope reference := projected_bytes]> committed_blob_bytes)
  end.

Section store.
Context {F W E I : Type} `{OwnershipFileSystem F, Aead, !EntropySource E, !EntropySource I, DurableKeyEnvelope W}.
Context (sha256 : list byte → list byte) (fuel : nat).

(** ** Over the file system *)

(** A call whose error becomes a [StorageError] by [conv]. *)
Definition on_fs {T} (conv : AdapterErrorKind → StorageError) (call : F → F * result AdapterErrorKind T) : eff F T :=
  λ fs, let '(fs, r) := call fs in Some (fs, map_err conv r).
Definition on_loop {T} (conv : AdapterErrorKind → StorageError) (call : F → option (F * result AdapterErrorKind T)) : eff F T :=
  λ fs, '(fs, r) ← call fs; Some (fs, map_err conv r).
Definition read_bounded (file : File) (offset len : Z) : eff F (list byte) :=
  on_loop recovery_adapter_error (read_exact_at fuel file offset len).
Definition require_exact_len (file : File) (expected : Z) : eff F unit :=
  len ← on_fs Adapter (metadata file);
  if len =? expected then mret tt else eff_fail IntegrityFailure.
Definition open_required (directory : Directory) (name : EntryName) : eff F File :=
  on_fs recovery_adapter_error (open_existing directory name).
(** A new file with its contents, flushed. *)
Definition create_file (directory : Directory) (name : EntryName) (contents : list byte) : eff F File :=
  file ← on_fs Adapter (create_new directory name);
  on_loop Adapter (write_all_at fuel file 0 contents);;
  on_fs Adapter (sync_all file);;
  mret file.
(** The rest of a function that owns a guard: a failure drops it. *)
Definition holding {T} (ownership : OwnershipGuard) (m : eff F T) : eff F T := λ fs,
  match m fs with
  | Some (fs, Err error) => Some (drop_guard ownership fs, Err error)
  | r => r
  end.

(** ** Blobs *)
Definition inventory_context (database : DatabaseId) (epoch : KeyEpoch) (writer digest : list byte) : CryptoContext :=
  mk_context database ScopeDatabase epoch RoleBlobInventory (take 16 digest) 0 writer BLOB_FORMAT_MAJOR BLOB_FORMAT_MINOR
    Small4KiB.
Definition inventory_name (vault : KeyVault W E) (database : DatabaseId) (epoch : KeyEpoch) (writer digest : list byte) :
    result StorageError EntryName :=
  let context := mk_context database ScopeDatabase epoch BlobInventoryName (zeros 16) 0 writer BLOB_FORMAT_MAJOR
                   BLOB_FORMAT_MINOR Small4KiB in
  opaque ← map_err Crypto (derive_opaque_identifier vault context digest);
  map_err (λ _, IntegrityFailure) (EntryName_new (lit "i-" ++ hex_id opaque)).
Definition chunk_context (database : DatabaseId) (scope : NamespaceRef) (epoch : KeyEpoch) (writer : list byte)
    (blob : BlobId) (chunk : Z) : CryptoContext :=
  mk_context database (ScopeNamespace (ns_namespace scope)) epoch BlobChunk (blob_bytes blob) chunk writer
    BLOB_FORMAT_MAJOR BLOB_FORMAT_MINOR Blob64KiB.
Definition final_chunk_name (blob : BlobId) (chunk : Z) : result StorageError EntryName :=
  map_err (λ _, IntegrityFailure) (EntryName_new (lit "b-" ++ hex_id (blob_bytes blob) ++ lit "-" ++ hex_id (be_bytes 4 chunk))).
Definition expected_chunk_len (reference : BlobReference) (chunk : Z) : result StorageError Z :=
  if chunk_count reference <=? chunk then Err IntegrityFailure
  else
    start ← ok_or (checked_mul chunk BLOB_CHUNK_BYTES) ResourceLimit;
    Ok (Z.min (byte_len reference - start) BLOB_CHUNK_BYTES).
Definition MAX_ENCODED_CHUNK_BYTES : Z := BLOB_CHUNK_BYTES + 64 * 1024 + HEADER_BYTES + 16.
Definition decrypt_chunk (file : File) (vault : KeyVault W E) (scope : NamespaceRef) (epoch : KeyEpoch)
    (writer : list byte) (blob : BlobId) (chunk : Z) : eff F (list byte) :=
  len ← on_fs Adapter (metadata file);
  if (len =? 0) || (MAX_ENCODED_CHUNK_BYTES <? len) then eff_fail IntegrityFailure
  else
    encoded ← on_loop Adapter (read_exact_at fuel file 0 len);
    envelope ← eff_lift (map_err (λ _, IntegrityFailure) (envelope_decode encoded));
    eff_lift (map_err (λ _, IntegrityFailure)
      (vault_decrypt vault (chunk_context (ns_database scope) scope epoch writer blob chunk) envelope)).
Definition verify_chunk (directory : Directory) (vault : KeyVault W E) (epoch : KeyEpoch) (writer : list byte)
    (reference : BlobReference) (acc : list byte * Z) (chunk : Z) : eff F (list byte * Z) :=
  name ← eff_lift (final_chunk_name (blob_id reference) chunk);
  file ← on_fs (λ _, IntegrityFailure) (open_existing directory name);
  plaintext ← decrypt_chunk file vault (blob_scope reference) epoch writer (blob_id reference) chunk;
  expected ← eff_lift (expected_chunk_len reference chunk);
  if negb (zlen plaintext =? expected) then eff_fail IntegrityFailure
  else
    total ← eff_lift (ok_or (checked_add acc.2 (zlen plaintext)) ResourceLimit);
    mret (acc.1 ++ plaintext, total).
(** The incremental hash is that of the concatenated chunks. *)
Definition verify_reference (directory : Directory) (vault : KeyVault W E) (database : DatabaseId) (epoch : KeyEpoch)
    (writer : list byte) (reference : BlobReference) : eff F unit :=
  if negb (bool_decide (ns_database (blob_scope reference) = database)) || negb (valid_reference_shape reference)
  then eff_fail IntegrityFailure
  else
    '(content, total) ← eff_fold (verify_chunk directory vault epoch writer reference) (seqZ 0 (chunk_count reference)) ([], 0);
    if negb (total =? byte_len reference) || negb (bool_decide (sha256 content = content_digest reference))
    then eff_fail IntegrityFailure else mret tt.
Definition load_blob_inventory (vault : KeyVault W E) (directory : Directory) (database : DatabaseId) (epoch : KeyEpoch)
    (writer digest : list byte) (verify_blobs : bool) : eff F BlobInventory :=
  if bool_decide (digest = EMPTY_BLOB_INVENTORY_DIGEST) then eff_fail IntegrityFailure
  else
    name ← eff_lift (inventory_name vault database epoch writer digest);
    file ← on_fs (λ _, IntegrityFailure) (open_existing directory name);
    len ← on_fs Adapter (metadata file);
    if (len =? 0) || (MAX_ENCODED_BLOB_INVENTORY_BYTES <? len) then eff_fail IntegrityFailure
    else
      encoded ← read_bounded file 0 len;
      envelope ← eff_lift (map_err committed_crypto_error (envelope_decode encoded));
      plaintext ← eff_lift (map_err committed_crypto_error
                     (vault_decrypt vault (inventory_context database epoch writer digest) envelope));
      inventory ← eff_lift (BlobInventory_decode sha256 database plaintext);
      if negb (bool_decide (inv_digest inventory = digest)) then eff_fail IntegrityFailure
      else
        (if verify_blobs
         then eff_fold (λ _ reference, verify_reference directory vault database epoch writer reference)
                (inv_references inventory) tt
         else mret tt);;
        mret inventory.

(** ** Authenticated records *)
Definition verify_certificate_header (vault : KeyVault W E) (database : DatabaseId) (epoch : KeyEpoch)
    (log_id writer encoded : list byte) : result StorageError unit :=
  envelope ← map_err committed_crypto_error (envelope_decode encoded);
  plaintext ← map_err committed_crypto_error (vault_decrypt vault (certificate_context database epoch log_id writer 0) envelope);
  if bool_decide (plaintext = certificate_header database log_id writer) then Ok tt else Err IntegrityFailure.
Definition verify_segment_header (vault : KeyVault W E) (file : File) (database : DatabaseId) (epoch : KeyEpoch)
    (segment_id writer : list byte) : eff F SegmentHeader :=
  file_len ← on_fs Adapter (metadata file);
  if negb ((SMALL_ENVELOPE_BYTES <=? file_len) && (file_len <=? JOURNAL_SEGMENT_LIMIT)) then eff_fail IntegrityFailure
  else
    encoded ← read_bounded file 0 SMALL_ENVELOPE_BYTES;
    envelope ← eff_lift (map_err committed_crypto_error (envelope_decode encoded));
    plaintext ← eff_lift (map_err committed_crypto_error
                   (vault_decrypt vault (segment_context database epoch segment_id writer 0) envelope));
    header ← eff_lift (SegmentHeader_decode plaintext);
    if negb (bool_decide (sh_database header = database)) || negb (bool_decide (sh_segment_id header = segment_id))
       || negb (bool_decide (sh_writer header = writer))
    then eff_fail IntegrityFailure else mret header.
Definition decode_certificate (vault : KeyVault W E) (database : DatabaseId) (epoch : KeyEpoch)
    (log_id writer : list byte) (revision : CommitRevision) (encoded : list byte) : result StorageError Certificate :=
  envelope ← map_err committed_crypto_error (envelope_decode encoded);
  plaintext ← map_err committed_crypto_error
                (vault_decrypt vault (certificate_context database epoch log_id writer revision) envelope);
  Certificate_decode plaintext.

(** ** The open store *)
Record JournalHandle := mk_handle {
  jh_database : DatabaseId;
  jh_epoch : KeyEpoch;
  jh_writer : list byte;
  jh_certificate_log_id : list byte;
  jh_directory : Directory;
  jh_certificate_file : File;
  jh_segment_id : list byte;
  jh_segment_file : File;
  jh_segment_offset : Z;
  jh_frontier : option CommitRevision;
  jh_previous_digest : list byte;
  jh_anchors : gmap CommitRevision (list byte);
  jh_inventories : gset (list byte);
  jh_blobs : BlobMap;
  jh_blob_bytes : gmap NamespaceRef Z;
  jh_bindings : Z;
  jh_poisoned : bool;
  jh_vault : KeyVault W E;
  jh_identity_entropy : I;
  jh_ownership : OwnershipGuard
}.
(** The fields an append changes. *)
Definition set_vault (j : JournalHandle) (vault : KeyVault W E) : JournalHandle :=
  mk_handle (jh_database j) (jh_epoch j) (jh_writer j) (jh_certificate_log_id j) (jh_directory j) (jh_certificate_file j)
    (jh_segment_id j) (jh_segment_file j) (jh_segment_offset j) (jh_frontier j) (jh_previous_digest j) (jh_anchors j)
    (jh_inventories j) (jh_blobs j) (jh_blob_bytes j) (jh_bindings j) (jh_poisoned j) vault (jh_identity_entropy j) (jh_ownership j).
Definition set_poisoned (j : JournalHandle) (poisoned : bool) : JournalHandle :=
  mk_handle (jh_database j) (jh_epoch j) (jh_writer j) (jh_certificate_log_id j) (jh_directory j) (jh_certificate_file j)
    (jh_segment_id j) (jh_segment_file j) (jh_segment_offset j) (jh_frontier j) (jh_previous_digest j) (jh_anchors j)
    (jh_inventories j) (jh_blobs j) (jh_blob_bytes j) (jh_bindings j) poisoned (jh_vault j) (jh_identity_entropy j) (jh_ownership j).
Definition set_identity_entropy (j : JournalHandle) (entropy : I) : JournalHandle :=
  mk_handle (jh_database j) (jh_epoch j) (jh_writer j) (jh_certificate_log_id j) (jh_directory j) (jh_certificate_file j)
    (jh_segment_id j) (jh_segment_file j) (jh_segment_offset j) (jh_frontier j) (jh_previous_digest j) (jh_anchors j)
    (jh_inventories j) (jh_blobs j) (jh_blob_bytes j) (jh_bindings j) (jh_poisoned j) (jh_vault j) entropy (jh_ownership j).
Definition set_segment (j : JournalHandle) (id : list byte) (file : File) (offset : Z) : JournalHandle :=
  mk_handle (jh_database j) (jh_epoch j) (jh_writer j) (jh_certificate_log_id j) (jh_directory j) (jh_certificate_file j)
    id file offset (jh_frontier j) (jh_previous_digest j) (jh_anchors j)
    (jh_inventories j) (jh_blobs j) (jh_blob_bytes j) (jh_bindings j) (jh_poisoned j) (jh_vault j) (jh_identity_entropy j) (jh_ownership j).
Definition set_committed (j : JournalHandle) (offset : Z) (revision : CommitRevision) (digest : list byte)
    (inventories : gset (list byte)) : JournalHandle :=
  mk_handle (jh_database j) (jh_epoch j) (jh_writer j) (jh_certificate_log_id j) (jh_directory j) (jh_certificate_file j)
    (jh_segment_id j) (jh_segment_file j) offset (Some revision) digest (<[revision := digest]> (jh_anchors j))
    inventories (jh_blobs j) (jh_blob_bytes j) (jh_bindings j) false (jh_vault j) (jh_identity_entropy j) (jh_ownership j).
Definition set_blobs (j : JournalHandle) (blobs : BlobMap) (blob_bytes : gmap NamespaceRef Z) (bindings : Z) : JournalHandle :=
  mk_handle (jh_database j) (jh_epoch j) (jh_writer j) (jh_certificate_log_id j) (jh_directory j) (jh_certificate_file j)
    (jh_segment_id j) (jh_segment_file j) (jh_segment_offset j) (jh_frontier j) (jh_previous_digest j) (jh_anchors j)
    (jh_inventories j) blobs blob_bytes bindings (jh_poisoned j) (jh_vault j) (jh_identity_entropy j) (jh_ownership j).

(** Programs over the handle and the file system. *)
Abbreviation jeff := (eff (JournalHandle * F)).
Definition handle : jeff JournalHandle := λ s, Some (s, Ok s.1).
Definition update (f : JournalHandle → JournalHandle) : jeff unit := λ s, Some ((f s.1, s.2), Ok tt).
Definition io {X T} (m : eff F T) : eff (X * F) T := λ s, '(fs, r) ← m s.2; Some ((s.1, fs), r).
(** [vault.encrypt(context, plaintext)?.encode()?]. *)
Definition seal (context : CryptoContext) (plaintext : list byte) : jeff (list byte) := λ s,
  let '(vault, r) := vault_encrypt (jh_vault s.1) context plaintext in
  Some ((set_vault s.1 vault, s.2), map_err Crypto (envelope ← r; envelope_encode envelope)).
Fixpoint random_attempts (attempts : nat) (entropy : I) : I * result StorageError (list byte) :=
  match attempts with
  | O => (entropy, Err (Crypto CryptoError.IntegrityFailure))
  | S attempts =>
      match entropy_fill entropy 16 with
      | (entropy, None) => (entropy, Err (Crypto CryptoError.RetryableUnavailable))
      | (entropy, Some bytes) =>
          if bool_decide (bytes = zeros 16) then random_attempts attempts entropy else (entropy, Ok bytes)
      end
  end.
Definition random_nonzero_id (entropy : I) : I * result StorageError (list byte) := random_attempts RANDOM_ATTEMPTS entropy.
Definition fresh_id : jeff (list byte) := λ s,
  let '(entropy, r) := random_nonzero_id (jh_identity_entropy s.1) in
  Some ((set_identity_entropy s.1 entropy, s.2), r).

(** ** Appending *)
Definition rollover (first_revision : Z) : jeff unit :=
  next_segment_id ← fresh_id;
  j ← handle;
  if bool_decide (next_segment_id = jh_segment_id j) then eff_fail (Crypto CryptoError.IntegrityFailure)
  else
    let header := mk_segment_header (jh_database j) next_segment_id (jh_writer j) (jh_segment_id j) first_revision in
    encoded ← seal (segment_context (jh_database j) (jh_epoch j) next_segment_id (jh_writer j) 0) (SegmentHeader_encode header);
    eff_lift (require_small_envelope encoded);;
    name ← eff_lift (segment_name next_segment_id);
    file ← io (create_file (jh_directory j) name encoded);
    io (on_fs Adapter (sync_directory (jh_directory j)));;
    update (λ j, set_segment j next_segment_id file SMALL_ENVELOPE_BYTES).
(** The checks before anything is written: the next revision and the place of its
    certificate. *)
Definition append_place (j : JournalHandle) (input : CommitInput) : result StorageError (CommitRevision * Z) :=
  if jh_poisoned j then Err NeedsRecovery
  else if MAX_PLAINTEXT_BYTES <? zlen (ci_encoded_group input) then Err ResourceLimit
  else
    revision ← match jh_frontier j with
               | None => Ok CommitRevision_FIRST
               | Some current => map_err (λ _, RevisionExhausted) (CommitRevision_checked_next current)
               end;
    before ← ok_or (checked_mul (revision - 1) SMALL_ENVELOPE_BYTES) ResourceLimit;
    certificate_offset ← ok_or (checked_add SMALL_ENVELOPE_BYTES before) ResourceLimit;
    certificate_end ← ok_or (checked_add certificate_offset SMALL_ENVELOPE_BYTES) ResourceLimit;
    if CERTIFICATE_LOG_LIMIT <? certificate_end then Err ResourceLimit else Ok (revision, certificate_offset).
Definition seal_group (input : CommitInput) (sequence : Z) : jeff (list byte) :=
  j ← handle;
  seal (segment_context (jh_database j) (jh_epoch j) (jh_segment_id j) (jh_writer j) sequence) (ci_encoded_group input).
(** Roll over to a new segment when the group does not fit, and seal it again. *)
Definition make_room (input : CommitInput) (sequence : Z) (encoded_group : list byte) : jeff (list byte) :=
  j ← handle;
  projected_end ← eff_lift (ok_or (checked_add (jh_segment_offset j) (zlen encoded_group)) ResourceLimit);
  if JOURNAL_SEGMENT_LIMIT <? projected_end then
    update (λ j, set_poisoned j true);;
    rollover sequence;;
    seal_group input sequence
  else mret encoded_group.
(** The durable part: the group, then its certificate. *)
Definition append_rest (input : CommitInput) (blob_inventory_digest : list byte) (revision : CommitRevision) (certificate_offset : Z)
    (group_length : Z) (encoded_group : list byte) : jeff DurableCommit :=
  j ← handle;
  let sequence := revision in
  let group_offset := jh_segment_offset j in
  update (λ j, set_poisoned j true);;
  io (on_loop Adapter (write_all_at fuel (jh_segment_file j) group_offset encoded_group));;
  io (on_fs Adapter (sync_data (jh_segment_file j)));;
  let certificate := mk_certificate sequence (jh_previous_digest j) (jh_segment_id j) sequence group_offset group_length
                       (sha256 encoded_group) blob_inventory_digest (ci_logical_event_digest input) in
  encoded_certificate ← seal (certificate_context (jh_database j) (jh_epoch j) (jh_certificate_log_id j) (jh_writer j) sequence)
                          (Certificate_encode certificate);
  eff_lift (require_small_envelope encoded_certificate);;
  io (on_loop Adapter (write_all_at fuel (jh_certificate_file j) certificate_offset encoded_certificate));;
  io (on_fs Adapter (sync_data (jh_certificate_file j)));;
  let certificate_digest := sha256 encoded_certificate in
  update (λ j, set_committed j (group_offset + group_length) revision certificate_digest
                 (if bool_decide (blob_inventory_digest = EMPTY_BLOB_INVENTORY_DIGEST) then jh_inventories j
                  else {[blob_inventory_digest]} ∪ jh_inventories j));;
  mret (mk_durable_commit revision certificate_digest).
Definition append_group_internal (input : CommitInput) (blob_inventory_digest : list byte) : jeff DurableCommit :=
  j ← handle;
  '(revision, certificate_offset) ← eff_lift (append_place j input);
  let sequence := revision in
  encoded_group ← seal_group input sequence;
  let group_length := zlen encoded_group in
  eff_lift (validate_group_encoded_length group_length);;
  encoded_group ← make_room input sequence encoded_group;
  append_rest input blob_inventory_digest revision certificate_offset group_length encoded_group.
Definition append_group (input : CommitInput) : jeff DurableCommit :=
  append_group_internal input EMPTY_BLOB_INVENTORY_DIGEST.
Definition write_inventory (file : File) (encoded : list byte) : jeff unit :=
  io (on_loop Adapter (write_all_at fuel file 0 encoded));;
  io (on_fs Adapter (set_len file (zlen encoded)));;
  io (on_fs Adapter (sync_all file)).
Definition publish_blob_inventory (inventory : BlobInventory) (previously_committed : bool) : jeff unit :=
  j ← handle;
  io (eff_fold (λ _ reference, verify_reference (jh_directory j) (jh_vault j) (jh_database j) (jh_epoch j) (jh_writer j) reference)
        (inv_references inventory) tt);;
  let digest := inv_digest inventory in
  let context := inventory_context (jh_database j) (jh_epoch j) (jh_writer j) digest in
  name ← eff_lift (inventory_name (jh_vault j) (jh_database j) (jh_epoch j) (jh_writer j) digest);
  opened ← io (λ fs, let '(fs, r) := open_existing (jh_directory j) name fs in Some (fs, Ok r));
  match opened with
  | Ok file =>
      loaded ← io (λ fs, '(fs, r) ← load_blob_inventory (jh_vault j) (jh_directory j) (jh_database j) (jh_epoch j)
                                      (jh_writer j) digest true fs; Some (fs, Ok (is_ok r)));
      if loaded : bool then
        io (on_fs Adapter (sync_all file));;
        io (on_fs Adapter (sync_directory (jh_directory j)))
      else if previously_committed then eff_fail IntegrityFailure
      else
        io (on_fs Adapter (set_len file 0));;
        encoded ← seal context (inv_encoded inventory);
        write_inventory file encoded;;
        io (on_fs Adapter (sync_directory (jh_directory j)))
  | Err NotFound =>
      encoded ← seal context (inv_encoded inventory);
      file ← io (on_fs Adapter (create_new (jh_directory j) name));
      write_inventory file encoded;;
      io (on_fs Adapter (sync_directory (jh_directory j)))
  | Err error => eff_fail (Adapter error)
  end.
(** Recording the blobs of a durable commit: the maps so far, and whether all were
    registered; a failure poisons the store. *)
Fixpoint register_all (references : list BlobReference) (blobs : BlobMap * gmap NamespaceRef Z) :
    BlobMap * gmap NamespaceRef Z * bool :=
  match references with
  | [] => (blobs, true)
  | reference :: references =>
      match register_committed_blob blobs reference with
      | Ok blobs => register_all references blobs
      | Err _ => (blobs, false)
      end
  end.
Definition record_blobs (inventory : BlobInventory) (projected_bindings : Z) : jeff unit := λ s,
  match register_all (inv_references inventory) (jh_blobs s.1, jh_blob_bytes s.1) with
  | (blobs, blob_bytes, true) => Some ((set_blobs s.1 blobs blob_bytes projected_bindings, s.2), Ok tt)
  | (blobs, blob_bytes, false) =>
      Some ((set_poisoned (set_blobs s.1 blobs blob_bytes (jh_bindings s.1)) true, s.2), Err NeedsRecovery)
  end.
Definition append_group_with_inventory (input : CommitInput) (inventory : BlobInventory) : jeff DurableCommit :=
  j ← handle;
  if negb (bool_decide (ns_database (inv_scope inventory) = jh_database j)) then eff_fail InvalidState
  else if inventory_is_empty inventory then append_group input
  else if existsb (λ reference, match jh_blobs j !! blob_key reference with
                                | Some existing => negb (bool_decide (existing = reference))
                                | None => false
                                end) (inv_references inventory)
  then eff_fail IntegrityFailure
  else
    eff_lift (check_blob_capacity (jh_blobs j) (jh_blob_bytes j) (inv_references inventory));;
    projected_bindings ← eff_lift (ok_or (checked_add (jh_bindings j) (zlen (inv_references inventory))) ResourceLimit);
    eff_lift (check_blob_reference_binding_limit projected_bindings);;
    publish_blob_inventory inventory (bool_decide (inv_digest inventory ∈ jh_inventories j));;
    durable ← append_group_internal input (inv_digest inventory);
    record_blobs inventory projected_bindings;;
    mret durable.
End store.
