(* ===== verification/JournalRecovery.v ===== *)
(** * Creating and reopening the journal

    [create], [open] and [scan_certificates] of
    [crates/uste-storage/src/journal.rs]. *)
From S2P Require Import Prelude Ids Policy Storage Blob Journal Envelope FileSystem JournalFormat JournalStore.
Import StorageError.

Section recovery.
Context {F W E I : Type} `{OwnershipFileSystem F, Aead, !EntropySource E, !EntropySource I, DurableKeyEnvelope W}.
Context (sha256 : list byte → list byte) (fuel : nat).
Abbreviation Handle := (JournalHandle (F := F) (W := W) (E := E) (I := I)).

(** ** The scan *)
Record ScanState := mk_scan {
  sc_segment_id : list byte;
  sc_segment_file : File;
  sc_segment_offset : Z;
  sc_frontier : option CommitRevision;
  sc_previous_digest : list byte;
  sc_anchors : gmap CommitRevision (list byte);
  sc_inventories : gset (list byte);
  sc_blobs : BlobMap;
  sc_blob_bytes : gmap NamespaceRef Z;
  sc_bindings : Z;
  sc_verified : gmap (list byte) Z;
  sc_tails : list SegmentTail
}.
Definition record_uncommitted_tail (file : File) (segment_id : list byte) (committed_end : Z) (tails : list SegmentTail) :
    eff F (list SegmentTail) :=
  file_len ← on_fs Adapter (metadata file);
  if (file_len <? committed_end) || (JOURNAL_SEGMENT_LIMIT <? file_len) then eff_fail IntegrityFailure
  else if committed_end <? file_len
  then mret (tails ++ [mk_segment_tail segment_id committed_end (file_len - committed_end)])
  else mret tails.
(** The certificate of a revision. *)
Definition scan_certificate (vault : KeyVault W E) (certificate_file : File) (manifest : Manifest) (epoch : KeyEpoch)
    (writer : list byte) (sequence : Z) : eff F (CommitRevision * list byte * Certificate) :=
  revision ← eff_lift (map_err (λ _, IntegrityFailure) (CommitRevision_new sequence));
  before ← eff_lift (ok_or (checked_mul (sequence - 1) SMALL_ENVELOPE_BYTES) ResourceLimit);
  offset ← eff_lift (ok_or (checked_add SMALL_ENVELOPE_BYTES before) ResourceLimit);
  encoded_certificate ← read_bounded fuel certificate_file offset SMALL_ENVELOPE_BYTES;
  certificate ← eff_lift (decode_certificate vault (mn_database manifest) epoch (mn_certificate_log_id manifest) writer revision
                            encoded_certificate);
  mret (revision, encoded_certificate, certificate).
(** Enter the segment a certificate names. *)
Definition enter_segment (vault : KeyVault W E) (directory : Directory) (manifest : Manifest) (epoch : KeyEpoch)
    (writer : list byte) (sequence : Z) (certificate : Certificate) (s : ScanState) : eff F ScanState :=
  if bool_decide (ct_segment_id certificate = sc_segment_id s) then mret s
  else
    tails ← record_uncommitted_tail (sc_segment_file s) (sc_segment_id s) (sc_segment_offset s) (sc_tails s);
    name ← eff_lift (segment_name (ct_segment_id certificate));
    next_file ← open_required directory name;
    next_header ← verify_segment_header fuel vault next_file (mn_database manifest) epoch (ct_segment_id certificate) writer;
    if negb (bool_decide (sh_previous_segment_id next_header = sc_segment_id s)) || negb (sh_first_revision next_header =? sequence)
    then eff_fail IntegrityFailure
    else
      mret (mk_scan (ct_segment_id certificate) next_file SMALL_ENVELOPE_BYTES (sc_frontier s) (sc_previous_digest s)
              (sc_anchors s) (sc_inventories s) (sc_blobs s) (sc_blob_bytes s) (sc_bindings s) (sc_verified s) tails).
(** The group a certificate names, decrypted. *)
Definition scan_group (vault : KeyVault W E) (manifest : Manifest) (epoch : KeyEpoch) (writer : list byte) (sequence : Z)
    (certificate : Certificate) (s : ScanState) : eff F (list byte * Z) :=
  if negb (ct_group_sequence certificate =? sequence) || negb (ct_group_offset certificate =? sc_segment_offset s)
  then eff_fail IntegrityFailure
  else
    eff_lift (validate_group_encoded_length (ct_group_length certificate));;
    group_end ← eff_lift (ok_or (checked_add (ct_group_offset certificate) (ct_group_length certificate)) IntegrityFailure);
    if JOURNAL_SEGMENT_LIMIT <? group_end then eff_fail IntegrityFailure
    else
      file_len ← on_fs Adapter (metadata (sc_segment_file s));
      if file_len <? group_end then eff_fail IntegrityFailure
      else
        encoded_group ← read_bounded fuel (sc_segment_file s) (ct_group_offset certificate) (ct_group_length certificate);
        if negb (bool_decide (sha256 encoded_group = ct_group_digest certificate)) then eff_fail IntegrityFailure
        else
          envelope ← eff_lift (map_err committed_crypto_error (envelope_decode encoded_group));
          plaintext ← eff_lift (map_err committed_crypto_error
                        (vault_decrypt vault (segment_context (mn_database manifest) epoch (sc_segment_id s) writer sequence) envelope));
          if MAX_PLAINTEXT_BYTES <? zlen plaintext then eff_fail IntegrityFailure else mret (plaintext, group_end).
(** The inventory a certificate binds, loaded unless an earlier pass verified it
    and nobody looks at it. *)
Definition scan_inventory (vault : KeyVault W E) (directory : Directory) (manifest : Manifest) (epoch : KeyEpoch)
    (writer : list byte) (trusted : gmap (list byte) Z) (invoke_visitor : bool) (certificate : Certificate) (s : ScanState) :
    eff F (option BlobInventory * ScanState) :=
  let digest := ct_blob_inventory_digest certificate in
  if bool_decide (digest = EMPTY_BLOB_INVENTORY_DIGEST) then mret (None, s)
  else
    let trusted_count := match trusted !! digest with Some count => Some count | None => sc_verified s !! digest end in
    let already_verified := bool_decide (is_Some trusted_count) in
    inventory ← (if negb already_verified || invoke_visitor
                 then loaded ← load_blob_inventory sha256 fuel vault directory (mn_database manifest) epoch writer digest
                                 (negb already_verified); mret (Some loaded)
                 else mret None);
    verified ← eff_lift
      (match trusted_count, inventory with
       | None, Some inventory =>
           if U32_MAX <? zlen (inv_references inventory) then Err ResourceLimit
           else Ok (<[digest := zlen (inv_references inventory)]> (sc_verified s))
       | None, None => Err IntegrityFailure
       | Some count, Some inventory =>
           if zlen (inv_references inventory) =? count then Ok (sc_verified s) else Err IntegrityFailure
       | Some _, None => Ok (sc_verified s)
       end);
    let inventories := {[digest]} ∪ sc_inventories s in
    reference_count ← eff_lift (match inventory with
                                | Some inventory => Ok (zlen (inv_references inventory))
                                | None => ok_or trusted_count IntegrityFailure
                                end);
    bindings ← eff_lift (ok_or (checked_add (sc_bindings s) reference_count) ResourceLimit);
    eff_lift (check_blob_reference_binding_limit bindings);;
    blobs ← eff_lift (match inventory with
                      | Some inventory => try_fold register_committed_blob (inv_references inventory) (sc_blobs s, sc_blob_bytes s)
                      | None => Ok (sc_blobs s, sc_blob_bytes s)
                      end);
    mret (inventory, mk_scan (sc_segment_id s) (sc_segment_file s) (sc_segment_offset s) (sc_frontier s) (sc_previous_digest s)
                       (sc_anchors s) inventories blobs.1 blobs.2 bindings verified (sc_tails s)).

Section visits.
Context {A : Type} (visitor : A → RecoveredGroup → option (result StorageError A)).
Definition visit_group (invoke_visitor : bool) (group : RecoveredGroup) (a : A) : eff F A := λ fs,
  if invoke_visitor then r ← visitor a group; Some (fs, r) else Some (fs, Ok a).
(** The group of a certificate, its inventory, and the visit. *)
Definition scan_commit (vault : KeyVault W E) (directory : Directory) (manifest : Manifest) (epoch : KeyEpoch) (writer : list byte)
    (trusted : gmap (list byte) Z) (invoke_visitor : bool) (sequence : Z) (revision : CommitRevision)
    (encoded_certificate : list byte) (certificate : Certificate) (s : ScanState) (a : A) : eff F (ScanState * A) :=
  '(plaintext, group_end) ← scan_group vault manifest epoch writer sequence certificate s;
  '(inventory, s) ← scan_inventory vault directory manifest epoch writer trusted invoke_visitor certificate s;
  let certificate_digest := sha256 encoded_certificate in
  a ← visit_group invoke_visitor
        (mk_recovered_group revision certificate_digest plaintext (ct_blob_inventory_digest certificate) inventory
           (ct_logical_event_digest certificate)) a;
  mret (mk_scan (sc_segment_id s) (sc_segment_file s) group_end (Some revision) certificate_digest
          (<[revision := certificate_digest]> (sc_anchors s)) (sc_inventories s) (sc_blobs s) (sc_blob_bytes s)
          (sc_bindings s) (sc_verified s) (sc_tails s), a).
(** One certificate. *)
Definition scan_step (vault : KeyVault W E) (directory : Directory) (certificate_file : File) (manifest : Manifest)
    (epoch : KeyEpoch) (writer : list byte) (trusted : gmap (list byte) Z) (invoke_visitor : bool)
    (acc : ScanState * A) (sequence : Z) : eff F (ScanState * A) :=
  let '(s, a) := acc in
  '(revision, encoded_certificate, certificate) ← scan_certificate vault certificate_file manifest epoch writer sequence;
  if negb (ct_revision certificate =? sequence) || negb (bool_decide (ct_previous_digest certificate = sc_previous_digest s))
  then eff_fail IntegrityFailure
  else
    s ← enter_segment vault directory manifest epoch writer sequence certificate s;
    scan_commit vault directory manifest epoch writer trusted invoke_visitor sequence revision encoded_certificate certificate s a.
Definition scan_certificates (vault : KeyVault W E) (directory : Directory) (certificate_file initial_segment_file : File)
    (manifest : Manifest) (epoch : KeyEpoch) (writer : list byte) (certificate_count : Z) (trusted : gmap (list byte) Z)
    (invoke_visitor : bool) (a : A) : eff F (ScanState * A) :=
  '(s, a) ← eff_fold (scan_step vault directory certificate_file manifest epoch writer trusted invoke_visitor)
              (seqZ 1 certificate_count)
              (mk_scan (mn_initial_segment_id manifest) initial_segment_file SMALL_ENVELOPE_BYTES None (zeros 32) ∅ ∅ ∅ ∅ 0 ∅ [], a);
  tails ← record_uncommitted_tail (sc_segment_file s) (sc_segment_id s) (sc_segment_offset s) (sc_tails s);
  mret (mk_scan (sc_segment_id s) (sc_segment_file s) (sc_segment_offset s) (sc_frontier s) (sc_previous_digest s)
          (sc_anchors s) (sc_inventories s) (sc_blobs s) (sc_blob_bytes s) (sc_bindings s) (sc_verified s) tails, a).

(** ** Opening *)
Definition truncate_tail (directory : Directory) (ignored : Z) (tail : SegmentTail) : eff F Z :=
  name ← eff_lift (segment_name (sg_segment_id tail));
  file ← open_required directory name;
  on_fs Adapter (set_len file (sg_committed_end tail));;
  on_fs Adapter (sync_data file);;
  eff_lift (ok_or (checked_add ignored (sg_extra_bytes tail)) ResourceLimit).
(** A torn certificate is cut off, and the certificates are flushed again. *)
Definition repair_certificates (certificate_file : File) (repaired complete : Z) : eff F unit :=
  (if negb (repaired =? 0) then on_fs Adapter (set_len certificate_file (SMALL_ENVELOPE_BYTES + complete)) else mret tt);;
  on_fs Adapter (sync_data certificate_file).
(** The fields of two scans the code compares. *)
Definition scans_differ (x y : ScanState) : bool :=
  negb (bool_decide (sc_segment_id x = sc_segment_id y)) || negb (sc_segment_offset x =? sc_segment_offset y)
  || negb (bool_decide (sc_frontier x = sc_frontier y)) || negb (bool_decide (sc_previous_digest x = sc_previous_digest y))
  || negb (bool_decide (sc_anchors x = sc_anchors y)) || negb (bool_decide (sc_inventories x = sc_inventories y))
  || negb (bool_decide (sc_blobs x = sc_blobs y)) || negb (bool_decide (sc_blob_bytes x = sc_blob_bytes y))
  || negb (sc_bindings x =? sc_bindings y).
(** The key, the manifest and the certificate log: everything before the scan. *)
Definition open_vault {K} `{KeyAdapter K W} (directory : Directory) (database : DatabaseId) (vault_entropy : E) (adapter : K) :
    eff F (KeyVault W E) :=
  key_file ← open_required directory (entry "KEY");
  key_len ← on_fs Adapter (metadata key_file);
  if (key_len =? 0) || (MAX_KEY_ENVELOPE_BYTES <? key_len) then eff_fail IntegrityFailure
  else
    key_bytes ← read_bounded fuel key_file 0 key_len;
    wrapper ← eff_lift (map_err recovery_crypto_error (decode_durable key_bytes));
    let '(vault, _, unlocked) := unlock (from_locked database wrapper vault_entropy) adapter in
    eff_lift (map_err Crypto unlocked);;
    mret vault.
Definition open_manifest (directory : Directory) (database : DatabaseId) (vault : KeyVault W E) : eff F (Manifest * KeyEpoch) :=
  manifest_file ← open_required directory (entry "MANIFEST");
  require_exact_len manifest_file SMALL_ENVELOPE_BYTES;;
  manifest_encoded ← read_bounded fuel manifest_file 0 SMALL_ENVELOPE_BYTES;
  manifest_envelope ← eff_lift (map_err recovery_crypto_error (envelope_decode manifest_encoded));
  let epoch := ev_epoch manifest_envelope in
  manifest_plaintext ← eff_lift (map_err recovery_crypto_error (vault_decrypt vault (manifest_context database epoch) manifest_envelope));
  manifest ← eff_lift (Manifest_decode manifest_plaintext);
  if negb (bool_decide (mn_database manifest = database)) || negb (mn_epoch manifest =? epoch)
  then eff_fail IntegrityFailure else mret (manifest, epoch).
Definition open_certificates (directory : Directory) (database : DatabaseId) (vault : KeyVault W E) (manifest : Manifest)
    (epoch : KeyEpoch) : eff F (File * Z) :=
  certificate_file ← open_required directory (entry "CERTIFICATES");
  certificate_len ← on_fs Adapter (metadata certificate_file);
  if negb ((SMALL_ENVELOPE_BYTES <=? certificate_len) && (certificate_len <=? CERTIFICATE_LOG_LIMIT))
  then eff_fail IntegrityFailure
  else
    header_bytes ← read_bounded fuel certificate_file 0 SMALL_ENVELOPE_BYTES;
    eff_lift (verify_certificate_header vault database epoch (mn_certificate_log_id manifest) (mn_writer manifest) header_bytes);;
    mret (certificate_file, certificate_len).
Definition open_initial_segment (directory : Directory) (database : DatabaseId) (vault : KeyVault W E) (manifest : Manifest)
    (epoch : KeyEpoch) : eff F File :=
  name ← eff_lift (segment_name (mn_initial_segment_id manifest));
  file ← open_required directory name;
  header ← verify_segment_header fuel vault file database epoch (mn_initial_segment_id manifest) (mn_writer manifest);
  if negb (bool_decide (sh_previous_segment_id header = zeros 16)) || negb (sh_first_revision header =? 1)
  then eff_fail IntegrityFailure else mret file.
(** Everything after the guard is taken. *)
Definition open_owned {K} `{KeyAdapter K W} (directory : Directory) (ownership : OwnershipGuard) (expected_database : DatabaseId)
    (vault_entropy : E) (identity_entropy : I) (adapter : K) (a : A) : eff F (Handle * RecoveryReport * A) :=
  vault ← open_vault directory expected_database vault_entropy adapter;
  '(manifest, epoch) ← open_manifest directory expected_database vault;
  let writer := mn_writer manifest in
  '(certificate_file, certificate_len) ← open_certificates directory expected_database vault manifest epoch;
  initial_segment_file ← open_initial_segment directory expected_database vault manifest epoch;
  let certificate_payload_bytes := certificate_len - SMALL_ENVELOPE_BYTES in
  let complete_certificate_bytes := certificate_payload_bytes / SMALL_ENVELOPE_BYTES * SMALL_ENVELOPE_BYTES in
  let repaired_certificate_tail_bytes := certificate_payload_bytes - complete_certificate_bytes in
  let certificate_count := complete_certificate_bytes / SMALL_ENVELOPE_BYTES in
  '(validated, a) ← scan_certificates vault directory certificate_file initial_segment_file manifest epoch writer
                      certificate_count ∅ false a;
  repair_certificates certificate_file repaired_certificate_tail_bytes complete_certificate_bytes;;
  ignored ← eff_fold (truncate_tail directory) (sc_tails validated) 0;
  '(replayed, a) ← scan_certificates vault directory certificate_file initial_segment_file manifest epoch writer
                     certificate_count (sc_verified validated) true a;
  if scans_differ replayed validated then eff_fail IntegrityFailure
  else
    mret (mk_handle expected_database epoch writer (mn_certificate_log_id manifest) directory certificate_file
            (sc_segment_id replayed) (sc_segment_file replayed) (sc_segment_offset replayed) (sc_frontier replayed)
            (sc_previous_digest replayed) (sc_anchors replayed) (sc_inventories replayed) (sc_blobs replayed)
            (sc_blob_bytes replayed) (sc_bindings replayed) false vault identity_entropy ownership,
          mk_recovery_report (sc_frontier replayed) (sc_previous_digest replayed) repaired_certificate_tail_bytes ignored, a).
(** [open]. *)
Definition store_open {K} `{KeyAdapter K W} (final_name : EntryName) (expected_database : DatabaseId) (vault_entropy : E)
    (identity_entropy : I) (adapter : K) (a : A) : eff F (Handle * RecoveryReport * A) :=
  fs ← eff_get;
  directory ← on_fs recovery_adapter_error (open_directory (fs_root fs) final_name);
  ownership ← on_fs recovery_adapter_error (try_lock_exclusive directory (entry "LOCK"));
  holding ownership (open_owned directory ownership expected_database vault_entropy identity_entropy adapter a).
End visits.

(** ** Creating *)

(** Programs over the vault, the identity entropy and the file system. *)
Abbreviation ceff := (eff (KeyVault W E * I * F)).
Definition create_id : ceff (list byte) := λ '(vault, entropy, fs),
  let '(entropy, r) := random_nonzero_id entropy in Some ((vault, entropy, fs), r).
Definition create_seal (context : CryptoContext) (plaintext : list byte) : ceff (list byte) := λ '(vault, entropy, fs),
  let '(vault, r) := vault_encrypt vault context plaintext in
  Some ((vault, entropy, fs), map_err Crypto (envelope ← r; envelope_encode envelope)).
Fixpoint temporary_attempts (attempts : nat) (root : Directory) : ceff (EntryName * Directory) :=
  match attempts with
  | O => eff_fail ResourceLimit
  | S attempts =>
      random ← create_id;
      let candidate := mk_entry_name (lit ".uste-create-" ++ hex_id random) in
      created ← io (λ fs, let '(fs, r) := create_directory root candidate fs in Some (fs, Ok r));
      match created with
      | Ok directory => mret (candidate, directory)
      | Err AlreadyExists => temporary_attempts attempts root
      | Err error => eff_fail (Adapter error)
      end
  end.
Definition create_temporary_directory (root : Directory) : ceff (EntryName * Directory) :=
  temporary_attempts RANDOM_ATTEMPTS root.
(** A sealed record in a file of its own. *)
Definition create_sealed (directory : Directory) (name : result StorageError EntryName) (context : CryptoContext)
    (plaintext : list byte) : ceff File :=
  encoded ← create_seal context plaintext;
  eff_lift (require_small_envelope encoded);;
  name ← eff_lift name;
  io (create_file fuel directory name encoded).
(** The files of the database, and its publication under the final name. *)
Definition create_files (options : CreationOptions) (manifest : Manifest) (root directory : Directory)
    (temporary_name : EntryName) : ceff (File * File) :=
  '(vault, _, _) ← eff_get;
  let database := co_database options in
  let epoch := mn_epoch manifest in
  let log_id := mn_certificate_log_id manifest in
  let writer := mn_writer manifest in
  let segment_id := mn_initial_segment_id manifest in
  key_bytes ← eff_lift (map_err Crypto (encode_durable (kv_wrapped vault)));
  if (zlen key_bytes =? 0) || (MAX_KEY_ENVELOPE_BYTES <? zlen key_bytes) then eff_fail ResourceLimit
  else
    io (create_file fuel directory (entry "KEY") key_bytes);;
    create_sealed directory (Ok (entry "MANIFEST")) (manifest_context database epoch) (Manifest_encode manifest);;
    certificate_file ← create_sealed directory (Ok (entry "CERTIFICATES")) (certificate_context database epoch log_id writer 0)
                         (certificate_header database log_id writer);
    segment_file ← create_sealed directory (segment_name segment_id) (segment_context database epoch segment_id writer 0)
                     (SegmentHeader_encode (mk_segment_header database segment_id writer (zeros 16) 1));
    io (on_fs Adapter (sync_directory directory));;
    io (on_fs Adapter (rename_no_replace root temporary_name root (co_final_name options)));;
    io (on_fs Adapter (sync_directory root));;
    mret (certificate_file, segment_file).
Definition holding_io {X T} (ownership : OwnershipGuard) (m : eff (X * F) T) : eff (X * F) T := λ s,
  match m s with
  | Some (x, fs, Err error) => Some (x, drop_guard ownership fs, Err error)
  | r => r
  end.
Definition create_store (options : CreationOptions) : ceff Handle :=
  '(_, _, fs) ← eff_get;
  let root := fs_root fs in
  writer ← create_id;
  certificate_log_id ← create_id;
  initial_segment_id ← create_id;
  '(temporary_name, directory) ← create_temporary_directory root;
  lock_file ← io (on_fs Adapter (create_new directory (entry "LOCK")));
  io (on_fs Adapter (sync_all lock_file));;
  ownership ← io (on_fs Adapter (try_lock_exclusive directory (entry "LOCK")));
  let manifest := mk_manifest (co_database options) writer KeyEpoch_FIRST certificate_log_id initial_segment_id in
  '(certificate_file, segment_file) ← holding_io ownership (create_files options manifest root directory temporary_name);
  '(vault, entropy, _) ← eff_get;
  mret (mk_handle (co_database options) KeyEpoch_FIRST writer certificate_log_id directory certificate_file initial_segment_id
          segment_file SMALL_ENVELOPE_BYTES None (zeros 32) ∅ ∅ ∅ ∅ 0 false vault entropy ownership).
(** [create]. *)
Definition store_create (options : CreationOptions) (vault : KeyVault W E) (identity_entropy : I) : eff F Handle := λ fs,
  '(s, r) ← create_store options (vault, identity_entropy, fs); Some (s.2, r).
End recovery.
