(* ===== verification/StoreDisk.v ===== *)
(** * File systems over the memory file system

    The interface the journal's proofs use.  A file system is hosted by a memory
    file system when each of its calls does what the memory call does, or - where
    faults may happen - fails having done it or not; its checked loops return
    within a fuel that covers the data and the pending faults.  The memory file
    system itself and its fault-injecting wrapper are the two instances. *)
From stdpp Require Import functions.
From S2P Require Import Prelude Ids Policy Storage FileSystem MemoryFs FaultFs FileSystemFacts.

(** [op] on the hosted file system does what [mop] does on its host. *)
Definition mirrors {F T U} (hosted : F → MemoryFileSystem) (may_fail : Prop) (conv : T → U)
    (op : F → F * result AdapterErrorKind T) (mop : MemoryFileSystem → MemoryFileSystem * result AdapterErrorKind U)
    (ready : F → Prop) : Prop :=
  ∀ fs fs' r, ready fs → op fs = (fs', r) → ready fs' ∧
    (mop (hosted fs) = (hosted fs', conv <$> r)
     ∨ may_fail ∧ (∃ e, r = Err e) ∧ (hosted fs' = hosted fs ∨ (mop (hosted fs)).1 = hosted fs')).

Class HostedFileSystem (F : Type) `{OwnershipFileSystem F} := {
  hosted : F → MemoryFileSystem;
  (** At most [n] faults are pending. *)
  ready : nat → F → Prop;
  may_fail : Prop;
  file_of : File → MemoryFile;
  dir_of : Directory → MemoryDirectory;
  guard_of : OwnershipGuard → MemoryOwnershipGuard;
  hosted_root fs : dir_of (fs_root fs) = mk_memory_directory ROOT_NODE (mem_generation (hosted fs));
  hosted_create_directory n d name :
    mirrors hosted may_fail dir_of (create_directory d name) (memory_create_directory (dir_of d) name) (ready n);
  hosted_rename n d name d' name' :
    mirrors hosted may_fail id (rename_no_replace d name d' name') (memory_rename_no_replace (dir_of d) name (dir_of d') name') (ready n);
  hosted_open_directory n d name :
    mirrors hosted may_fail dir_of (open_directory d name) (memory_open_directory (dir_of d) name) (ready n);
  hosted_create_new n d name :
    mirrors hosted may_fail file_of (create_new d name) (memory_create_new (dir_of d) name) (ready n);
  hosted_open_existing n d name :
    mirrors hosted may_fail file_of (open_existing d name) (memory_open_existing (dir_of d) name) (ready n);
  hosted_metadata n file : mirrors hosted may_fail id (metadata file) (memory_metadata (file_of file)) (ready n);
  hosted_set_len n file len : mirrors hosted may_fail id (set_len file len) (memory_set_len (file_of file) len) (ready n);
  hosted_sync_data n file : mirrors hosted may_fail id (sync_data file) (memory_sync_data (file_of file)) (ready n);
  hosted_sync_all n file : mirrors hosted may_fail id (sync_all file) (memory_sync_data (file_of file)) (ready n);
  hosted_sync_directory n d :
    mirrors hosted may_fail id (sync_directory d) (memory_sync_directory (dir_of d)) (ready n);
  hosted_try_lock n d name :
    mirrors hosted may_fail guard_of (try_lock_exclusive d name) (memory_try_lock_exclusive (dir_of d) name) (ready n);
  hosted_drop_guard guard fs : hosted (drop_guard guard fs) = memory_drop_guard (guard_of guard) (hosted fs);
  ready_drop_guard n guard fs : ready n fs → ready n (drop_guard guard fs);
  hosted_write n fuel file st offset input fs : ready n fs → memory_file (file_of file) (hosted fs) = Ok st →
    0 ≤ offset → zlen input < U64_MAX → (length input + n < fuel)%nat →
    ∃ fs' r k, write_all_at fuel file offset input fs = Some (fs', r) ∧ ready n fs'
      ∧ hosted fs' = wrote (file_of file) st (Z.to_nat offset) (take k input) (hosted fs)
      ∧ (k ≤ length input)%nat ∧ (r = Ok tt → k = length input) ∧ (k = 0%nat ∨ offset + Z.of_nat k ≤ mem_file_limit (hosted fs));
  hosted_read n fuel file st offset len fs : ready n fs → memory_file (file_of file) (hosted fs) = Ok st →
    0 ≤ offset → 0 ≤ len < U64_MAX → offset + len ≤ zlen (fst_volatile st) ≤ U64_MAX → (Z.to_nat len + n < fuel)%nat →
    ∃ fs' r, read_exact_at fuel file offset len fs = Some (fs', r) ∧ ready n fs' ∧ hosted fs' = hosted fs
      ∧ (r = Ok (slice (Z.to_nat offset) (Z.to_nat len) (fst_volatile st)) ∨ may_fail ∧ ∃ e, r = Err e)
}.

(** ** The memory file system *)
Lemma mirrors_same {T} (op : MemoryFileSystem → MemoryFileSystem * result AdapterErrorKind T) :
  mirrors (λ fs, fs) False (λ t, t) op op (λ _, True).
Proof. intros fs fs' r _ ->. split; [done|]. left. by destruct r. Qed.
Lemma memory_write_loop file st offset input m : memory_file file m = Ok st → zlen input < U64_MAX → ∀ fuel,
  (0 < fuel)%nat →
  ∃ m' r k, write_all_at (F := MemoryFileSystem) fuel file (Z.of_nat offset) input m = Some (m', r)
    ∧ m' = wrote file st offset (take k input) m ∧ (k ≤ length input)%nat ∧ (r = Ok tt → k = length input)
    ∧ (k = 0%nat ∨ Z.of_nat offset + Z.of_nat k ≤ mem_file_limit m).
Proof.
  intros Hf Hmax [|fuel] Hfuel; [lia|]. unfold write_all_at. cbn [write_loop].
  destruct (Z.leb_spec (zlen input) 0) as [Hle|Hlt].
  { exists m, (Ok tt), 0%nat. split_and!; [done..|lia| |by left]. unfold zlen in Hle. lia. }
  destruct (checked_add (Z.of_nat offset) 0) as [position|] eqn:Hpos; [|exists m; eexists _, 0%nat; split_and!; [done..|lia|done|by left]].
  unfold checked_add in Hpos. destruct (_ <=? _) in Hpos; [|done]. injection Hpos as <-. change (drop (Z.to_nat 0) input) with input. cbn [write_at memory_fs].
  assert (input ≠ []) as Hne by (intros ->; by cbn in Hlt).
  pose proof (memory_write_more file st offset [] input m Hf Hne) as Hw. cbn [wrote app] in Hw. change (zlen []) with 0 in Hw.
  destruct Hw as [[Hw Hlim]|(e & Hw & He)]; rewrite Hw.
  - rewrite (proj2 (Z.eqb_neq _ _)), Z.sub_0_r, (proj2 (Z.leb_le _ _)), Z.add_0_l by lia.
    eexists _, (Ok tt), (length input). rewrite firstn_all. split; [|split_and!; [done..|right; unfold zlen in *; lia]]. destruct fuel; cbn [write_loop]; by rewrite (proj2 (Z.leb_le _ _)).
  - exists m, (Err e), 0%nat. split_and!; [by destruct e|done|lia|done|by left].
Qed.
#[global] Program Instance memory_hosted : HostedFileSystem MemoryFileSystem := {
  hosted fs := fs; ready _ _ := True; may_fail := False; file_of file := file; dir_of d := d; guard_of g := g
}.
Solve Obligations with (intros; try first [done | apply mirrors_same]).
Next Obligation.
  intros n fuel file st offset input fs _ Hf Ho Hmax Hfuel.
  destruct (memory_write_loop file st (Z.to_nat offset) input fs Hf Hmax fuel ltac:(lia)) as (m' & r & k & Hw & Hm & Hk & Hr & Hlim).
  rewrite Z2Nat.id in Hw, Hlim by done. by exists m', r, k.
Qed.
Next Obligation.
  intros n fuel file st offset len fs _ Hf Ho Hl Hb Hfuel. destruct fuel as [|fuel]; [lia|].
  eexists fs, _. split; [by apply read_exact_memory; [| |lia|]|]. split_and!; [done..|by left].
Qed.

(** ** The fault-injecting wrapper *)
Lemma mirrors_fault {T} n operation (op : MemoryFileSystem → MemoryFileSystem * result AdapterErrorKind T) :
  mirrors ff_inner True (λ t, t) (fault_ordinary operation op) op
    (λ fs, plan_ok (ff_plan fs) ∧ (size (ff_plan fs) ≤ n)%nat).
Proof.
  intros fs fs' r [Hok Hn] (Hpl & Hcase)%fault_ordinary_cases.
  split; [split; [by eapply plan_ok_subseteq|pose proof (map_subseteq_size _ _ Hpl); lia]|].
  destruct Hcase as [[Hin He]|(out & Hrun & [[-> _]|[_ ->]])].
  - right. split_and!; [done|done|by left].
  - left. rewrite Hrun. by destruct out.
  - right. split_and!; [done|eauto|]. right. by rewrite Hrun.
Qed.
(** Taking a lock and giving it back changes nothing. *)
Lemma memory_lock_release d name m m' guard : memory_try_lock_exclusive d name m = (m', Ok guard) → memory_drop_guard guard m' = m.
Proof.
  unfold memory_try_lock_exclusive. assert ((memory_open_existing d name m).1 = m) as Hopen
    by (unfold memory_open_existing; by repeat case_match).
  destruct (memory_open_existing d name m) as [m0 [file|]]; [|done]. cbn in Hopen. subst m0.
  destruct (memory_file file m) as [st|] eqn:Hf; [|done]. destruct (negb _) eqn:Hfree; [done|]. intros [= <- <-].
  unfold memory_file in Hf. destruct (negb (mf_generation file =? _)); [done|]. apply ok_or_Ok in Hf.
  apply negb_false_iff, Z.eqb_eq in Hfree. unfold memory_drop_guard, put_file. cbn. rewrite lookup_insert_eq. cbn. rewrite Z.eqb_refl.
  unfold with_files. cbn. rewrite insert_insert_eq, insert_id; [by destruct m|]. rewrite Hf. destruct st; cbn in *. by subst.
Qed.
Lemma mirrors_fault_lock n d name :
  mirrors ff_inner True (λ t, t) (fault_try_lock_exclusive (F := MemoryFileSystem) d name) (memory_try_lock_exclusive d name)
    (λ fs, plan_ok (ff_plan fs) ∧ (size (ff_plan fs) ≤ n)%nat).
Proof.
  intros fs fs' r [Hok Hn] (Hpl & Hcase)%fault_try_lock_cases.
  split; [split; [by eapply plan_ok_subseteq|pose proof (map_subseteq_size _ _ Hpl); lia]|].
  destruct Hcase as [[Hin He]|[Hrun|(inner & guard & Hrun & Hin & ->)]].
  - right. split_and!; [done|done|by left].
  - left. change (try_lock_exclusive d name (ff_inner fs)) with (memory_try_lock_exclusive d name (ff_inner fs)) in Hrun.
    rewrite Hrun. by destruct r.
  - right. split_and!; [done|eauto|]. left. rewrite Hin. by eapply memory_lock_release.
Qed.
Lemma fault_read_cases file st offset len (fs fs' : FaultFileSystem MemoryFileSystem) r :
  plan_ok (ff_plan fs) → memory_file file (ff_inner fs) = Ok st → 0 ≤ offset → 0 < len < U64_MAX →
  offset + len ≤ zlen (fst_volatile st) → fault_read_at file offset len fs = (fs', r) →
  plan_left fs fs' ∧ ff_inner fs' = ff_inner fs ∧ (r = Err Interrupted → (size (ff_plan fs') < size (ff_plan fs))%nat) ∧
  match r with
  | Ok (count, bytes) =>
      count = 0 ∨ len < count ∨ 0 < count ≤ len ∧ bytes = slice (Z.to_nat offset) (Z.to_nat count) (fst_volatile st)
  | Err _ => True
  end.
Proof.
  intros Hok Hf Ho Hl Hb. unfold fault_read_at.
  assert (∀ k, 0 < k ≤ len → memory_read_at file offset k (ff_inner fs) =
    (ff_inner fs, Ok (k, slice (Z.to_nat offset) (Z.to_nat k) (fst_volatile st)))) as Hread.
  { intros k Hk. unfold memory_read_at. rewrite Hf, result_bind_Ok, (proj2 (Z.leb_gt _ _)), Z.min_l by lia. done. }
  destruct (next_action OpReadAt fs) as [fs1 [[action|]|e]] eqn:Hn;
    apply next_action_cases in Hn as (Hin & Hpl & Hcr & Hcase).
  - destruct Hcase as (_ & Hsz & occ & Hact). pose proof (Hok _ _ Hact) as Hpos.
    destruct action as [kind|k|k| | | |]; try (intros [= <- <-]; by split_and!).
    + cbn in Hpos. unfold on_inner, fault_finish. rewrite Hin. cbn [read_at memory_fs]. rewrite Hread by lia. cbn [andb].
      intros [= <- <-]. split_and!; [done..|]. right; right. split; [lia|done].
    + intros [= <- <-]. split_and!; [done..|by left].
    + intros [= <- <-]. split_and!; [done..|]. right; left. unfold saturating_add. lia.
    + unfold on_inner, fault_finish. rewrite Hin. cbn [read_at memory_fs]. rewrite Hread by lia. cbn [andb is_ok].
      intros [= <- <-]. by split_and!.
  - unfold on_inner, fault_finish. rewrite Hin. cbn [read_at memory_fs]. rewrite Hread by lia. cbn [andb].
    intros [= <- <-]. split_and!; [done..|]. right; right. split; [lia|done].
  - intros [= <- <-]. split_and!; [done..|congruence|done].
Qed.
(** The buffer when [n] bytes have arrived. *)
Definition partial (n : nat) (bytes : list byte) : list byte := take n bytes ++ zeros (length bytes - n).
Lemma length_partial n bytes : (n ≤ length bytes)%nat → length (partial n bytes) = length bytes.
Proof. intros H. unfold partial. rewrite length_app, length_take, length_zeros. lia. Qed.
Lemma splice_partial n k bytes : (n + k ≤ length bytes)%nat →
  splice (partial n bytes) n (slice n k bytes) = partial (n + k) bytes.
Proof.
  intros H. unfold splice, partial. rewrite take_app_length' by (rewrite length_take; lia).
  rewrite length_slice by done. rewrite drop_app_ge by (rewrite length_take; lia). rewrite length_take, Nat.min_l by lia.
  unfold zeros. rewrite drop_replicate, app_assoc. f_equal; [|f_equal; lia]. unfold slice. by rewrite take_take_drop.
Qed.
Lemma read_loop_spec file st offset len : 0 ≤ len < U64_MAX → Z.of_nat offset + len ≤ zlen (fst_volatile st) ≤ U64_MAX →
  let full := slice offset (Z.to_nat len) (fst_volatile st) in
  ∀ fuel n (fs : FaultFileSystem MemoryFileSystem), memory_file file (ff_inner fs) = Ok st →
  plan_ok (ff_plan fs) → (n ≤ length full)%nat → (length full - n + size (ff_plan fs) < fuel)%nat →
  ∃ fs' r, read_loop (F := FaultFileSystem MemoryFileSystem) fuel file (Z.of_nat offset) (partial n full) (Z.of_nat n) fs = Some (fs', r)
    ∧ plan_left fs fs' ∧ ff_inner fs' = ff_inner fs ∧ (r = Ok full ∨ ∃ e, r = Err e).
Proof.
  intros Hl Hb full. assert (length full = Z.to_nat len) as Hfl by (apply length_slice; unfold zlen in *; lia).
  induction fuel as [|fuel IH]; intros n fs Hf Hok Hn Hfuel; [lia|]. cbn [read_loop].
  assert (zlen (partial n full) = Z.of_nat (length full)) as -> by (unfold zlen; by rewrite length_partial).
  destruct (Z.leb_spec (Z.of_nat (length full)) (Z.of_nat n)) as [Hle|Hlt].
  { exists fs, (Ok full). split; [|by split_and!; auto]. do 3 f_equal. unfold partial.
    rewrite take_ge by lia. replace (length full - n)%nat with 0%nat by lia. cbn. by rewrite app_nil_r. }
  unfold checked_add. rewrite (proj2 (Z.leb_le _ _)) by lia. cbn [read_at fault_fs].
  destruct (fault_read_at _ _ _ _) as [fs1 r] eqn:Hr.
  apply (fault_read_cases _ st) in Hr as (Hpl & Hin & Hint & Hcase); [|done|done|lia|lia|lia].
  pose proof (map_subseteq_size _ _ Hpl) as Hsz. pose proof (plan_ok_subseteq _ _ Hpl Hok) as Hok1.
  destruct r as [[count bytes]|e].
  - destruct Hcase as [->|[Hc|[Hc ->]]].
    + exists fs1, (Err UnexpectedEof). by split_and!; eauto.
    + rewrite (proj2 (Z.eqb_neq _ _)), (proj2 (Z.leb_gt _ _)) by lia. exists fs1, (Err AdapterContract). by split_and!; eauto.
    + rewrite (proj2 (Z.eqb_neq _ _)), (proj2 (Z.leb_le _ _)) by lia. rewrite Nat2Z.id.
      replace (Z.to_nat (Z.of_nat offset + Z.of_nat n)) with (offset + n)%nat by lia.
      rewrite <-(slice_slice offset (Z.to_nat len)) by lia. fold full. rewrite splice_partial by lia.
      replace (Z.of_nat n + count) with (Z.of_nat (n + Z.to_nat count)) by lia.
      destruct (IH (n + Z.to_nat count)%nat fs1 ltac:(by rewrite Hin) Hok1 ltac:(lia) ltac:(lia)) as (fs' & r' & -> & Hpl' & Hin' & Hr').
      exists fs', r'. split_and!; [done|by etrans|congruence|done].
  - destruct (decide (e = Interrupted)) as [->|Hne].
    + specialize (Hint eq_refl). destruct (IH n fs1 ltac:(by rewrite Hin) Hok1 Hn ltac:(lia)) as (fs' & r' & -> & Hpl' & Hin' & Hr').
      exists fs', r'. split_and!; [done|by etrans|congruence|done].
    + exists fs1, (Err e). split_and!; [by destruct e|done|done|eauto].
Qed.
#[global] Program Instance fault_hosted : HostedFileSystem (FaultFileSystem MemoryFileSystem) := {
  hosted := ff_inner; ready n fs := plan_ok (ff_plan fs) ∧ (size (ff_plan fs) ≤ n)%nat; may_fail := True;
  file_of file := file; dir_of d := d; guard_of g := g
}.
Solve Obligations with (intros; try first [done | apply mirrors_fault | apply mirrors_fault_lock]).
Next Obligation.
  intros n fuel file st offset input fs [Hok Hn] Hf Ho Hmax Hfuel. unfold write_all_at.
  destruct (write_loop_spec file st (Z.to_nat offset) input (ff_inner fs) Hf Hmax fuel 0 fs Hok ltac:(lia) eq_refl ltac:(by left) ltac:(lia))
    as (fs' & r & k & Hw & Hk & Hin & Hpl & Hr & _ & Hlim). rewrite Z2Nat.id in Hw by done. exists fs', r, k.
  split_and!; try done; [by eapply plan_ok_subseteq|pose proof (map_subseteq_size _ _ Hpl); lia|lia].
Qed.
Next Obligation.
  intros n fuel file st offset len fs [Hok Hn] Hf Ho Hl Hb Hfuel. unfold read_exact_at.
  pose proof (read_loop_spec file st (Z.to_nat offset) len Hl ltac:(lia) fuel 0 fs Hf Hok ltac:(lia)) as Hloop.
  assert (length (slice (Z.to_nat offset) (Z.to_nat len) (fst_volatile st)) = Z.to_nat len) as Hfl
    by (apply length_slice; unfold zlen in *; lia).
  destruct (Hloop ltac:(lia)) as (fs' & r & Hrun & Hpl & Hin & Hr). unfold partial in Hrun. rewrite Hfl, Nat.sub_0_r in Hrun.
  rewrite Z2Nat.id in Hrun by done. exists fs', r. split; [exact Hrun|]. split_and!; [by eapply plan_ok_subseteq|pose proof (map_subseteq_size _ _ Hpl); lia|done|].
  destruct Hr as [Hr|Hr]; [by left|by right].
Qed.

(** ** The database directory

    What the files of one directory of the memory file system hold - in memory and
    durably - and what each call changes of it. *)

(** ** Views *)
#[export] Instance Node_eq_dec : EqDecision Node.
Proof. solve_decision. Defined.

(** The files of a directory: their states, and whether the name itself is durable. *)
Abbreviation View := (EntryName → option (MemoryFileState * bool)).
Definition view (m : MemoryFileSystem) (d : Z) (name : EntryName) : option (MemoryFileState * bool) :=
  dir ← mem_directories m !! d;
  match ds_volatile dir !! name with
  | Some (NodeFile node) =>
      st ← mem_files m !! node; Some (st, bool_decide (ds_durable dir !! name = Some (NodeFile node)))
  | _ => None
  end.
(** The contents now, and those a restart leaves. *)
Definition vol (v : View) (name : EntryName) : option (list byte) := (λ x, fst_volatile x.1) <$> v name.
Definition dur (v : View) (name : EntryName) : option (list byte) :=
  match v name with Some (st, true) => Some (fst_durable st) | _ => None end.

(** The contents of a file fit the limit of the file system. *)
Definition sized (m : MemoryFileSystem) (st : MemoryFileState) : Prop :=
  zlen (fst_volatile st) ≤ mem_file_limit m ∧ zlen (fst_durable st) ≤ mem_file_limit m.
(** A name of the root directory that stands for directory [d]. *)
Definition named (final : EntryName) (d : Z) (root : MemoryDirectoryState) : Prop :=
  ds_volatile root !! final = Some (NodeDirectory d) ∧ ds_durable root !! final = Some (NodeDirectory d).
(** A directory of files under a root that satisfies [root_ok]. *)
Record published (m : MemoryFileSystem) (root_ok : MemoryDirectoryState → Prop) (d : Z) (dir : MemoryDirectoryState) : Prop := mk_published {
  pub_root : ∃ root, mem_directories m !! ROOT_NODE = Some root ∧ root_ok root;
  pub_dir : mem_directories m !! d = Some dir;
  pub_fresh : d ≠ ROOT_NODE;
  pub_names : ds_durable dir ⊆ ds_volatile dir;
  pub_files : ∀ name n, ds_volatile dir !! name = Some n →
    ∃ node, n = NodeFile node ∧ node < mem_next_node m ∧ is_Some (mem_files m !! node);
  pub_inj : ∀ name1 name2 node, ds_volatile dir !! name1 = Some (NodeFile node) →
    ds_volatile dir !! name2 = Some (NodeFile node) → name1 = name2;
  pub_limit : 0 ≤ mem_file_limit m ≤ U64_MAX ∧ 0 < mem_generation m;
  pub_sized : ∀ name node st, ds_volatile dir !! name = Some (NodeFile node) → mem_files m !! node = Some st → sized m st
}.
(** [file] is an open handle of the file called [name]. *)
Definition names (m : MemoryFileSystem) (d : Z) (name : EntryName) (file : MemoryFile) : Prop :=
  mf_generation file = mem_generation m ∧
  ∃ dir, mem_directories m !! d = Some dir ∧ ds_volatile dir !! name = Some (NodeFile (mf_node file)).
Definition opened (m : MemoryFileSystem) (d : Z) (handle : MemoryDirectory) : Prop :=
  md_node handle = d ∧ md_generation handle = mem_generation m.

Section memory.
Context (root_ok : MemoryDirectoryState → Prop) (d : Z).
Implicit Types m : MemoryFileSystem.
Definition db m : Prop := ∃ dir, published m root_ok d dir.

Lemma names_file m name file st linked : names m d name file → view m d name = Some (st, linked) → memory_file file m = Ok st.
Proof.
  intros [Hg (dir & Hd & Hn)] Hv. unfold view in Hv. rewrite Hd in Hv. cbn in Hv. rewrite Hn in Hv.
  unfold memory_file. rewrite Hg, Z.eqb_refl. cbn. destruct (mem_files m !! mf_node file); [by injection Hv as -> _|done].
Qed.
Lemma opened_directory m handle dir : published m root_ok d dir → opened m d handle → memory_directory handle m = Ok dir.
Proof. intros Hp [<- Hg]. unfold memory_directory. rewrite Hg, Z.eqb_refl. cbn. by rewrite (pub_dir _ _ _ _ Hp). Qed.
Lemma view_None m name : db m → view m d name = None → ∃ dir, published m root_ok d dir ∧ ds_volatile dir !! name = None.
Proof.
  intros [dir Hp] Hv. exists dir. split; [done|]. unfold view in Hv. rewrite (pub_dir _ _ _ _ Hp) in Hv. cbn in Hv.
  destruct (ds_volatile dir !! name) as [n|] eqn:Hn; [|done].
  destruct (pub_files _ _ _ _ Hp _ _ Hn) as (node & -> & _ & [st Hst]). by rewrite Hst in Hv.
Qed.

Lemma view_sized m name st linked : db m → view m d name = Some (st, linked) → sized m st ∧ 0 ≤ mem_file_limit m ≤ U64_MAX.
Proof.
  intros [dir Hp] Hv. split; [|apply Hp]. unfold view in Hv. rewrite (pub_dir _ _ _ _ Hp) in Hv. cbn in Hv.
  destruct (ds_volatile dir !! name) as [[node|]|] eqn:Hn; try done. destruct (mem_files m !! node) eqn:Hf; [|done].
  injection Hv as -> _. by eapply pub_sized.
Qed.
(** Changing the state of a file. *)
Definition keeps_handles m m' : Prop :=
  mem_generation m' = mem_generation m ∧ mem_file_limit m' = mem_file_limit m ∧ ∀ name file, names m d name file → names m' d name file.
#[export] Instance keeps_handles_preorder : PreOrder keeps_handles.
Proof.
  split; [by intros m; split|]. intros m1 m2 m3 (G1 & L1 & H1) (G2 & L2 & H2). split_and!; [congruence..|]. auto.
Qed.
Lemma put_node m node name st st' linked dir : published m root_ok d dir → ds_volatile dir !! name = Some (NodeFile node) →
  view m d name = Some (st, linked) → sized m st' →
  let m' := with_files m (<[node := st']> (mem_files m)) in
  db m' ∧ keeps_handles m m' ∧ ∀ n, view m' d n = (<[name := Some (st', linked)]> (view m d)) n.
Proof.
  intros Hp Hn Hv Hs m'. split; [|split].
  - exists dir. destruct Hp. split; try done.
    2: { intros n0 k x Hk. subst m'. cbn. rewrite lookup_insert_Some. intros [[<- <-]|[_ Hx]]; [done|by eapply pub_sized0]. }
    intros n0 k Hk. destruct (pub_files0 _ _ Hk) as (node' & -> & Hlt & Hst).
    exists node'. split_and!; [done..|]. subst m'. cbn. destruct (decide (node' = node)) as [->|];
      [by rewrite lookup_insert_eq|by rewrite lookup_insert_ne].
  - split_and!; [done..|]. by intros n0 file [Hg H].
  - intros n. unfold view in *. cbn [mem_directories mem_files m' with_files]. rewrite (pub_dir _ _ _ _ Hp) in *. cbn in *.
    destruct (decide (n = name)) as [->|Hne].
    + rewrite fn_lookup_insert, Hn in *. rewrite lookup_insert_eq. cbn.
      destruct (mem_files m !! node); [|done]. cbn in Hv. congruence.
    + rewrite fn_lookup_insert_ne by done. destruct (ds_volatile dir !! n) as [[node'|]|] eqn:Hn'; try done.
      rewrite lookup_insert_ne; [done|]. intros ->. by eapply Hne, pub_inj.
Qed.
Lemma put_file_view m file name st st' linked : db m → names m d name file → view m d name = Some (st, linked) → sized m st' →
  let m' := put_file file st' m in
  db m' ∧ keeps_handles m m' ∧ ∀ n, view m' d n = (<[name := Some (st', linked)]> (view m d)) n.
Proof.
  intros [dir Hp] [_ (dir' & Hd & Hn)] Hv Hs. rewrite (pub_dir _ _ _ _ Hp) in Hd. injection Hd as <-.
  by apply (put_node m _ _ st _ _ dir).
Qed.
Lemma open_existing_view m handle name x : db m → opened m d handle → view m d name = Some x →
  ∃ file, memory_open_existing handle name m = (m, Ok file) ∧ names m d name file.
Proof.
  intros [dir Hp] Ho Hv. unfold memory_open_existing. rewrite (opened_directory _ _ _ Hp Ho), result_bind_Ok.
  unfold view in Hv. rewrite (pub_dir _ _ _ _ Hp) in Hv. cbn in Hv.
  destruct (ds_volatile dir !! name) as [[node|]|] eqn:Hn; try done.
  eexists. split; [done|]. split; [done|]. exists dir. by split; [apply Hp|].
Qed.
Lemma create_new_view m handle name m' r : db m → opened m d handle → memory_create_new handle name m = (m', r) →
  (m' = m ∧ ∃ e, r = Err e) ∨
  view m d name = None ∧ ∃ file, r = Ok file ∧ db m' ∧ keeps_handles m m' ∧ names m' d name file
    ∧ ∀ n, view m' d n = (<[name := Some (MemoryFileState_default, false)]> (view m d)) n.
Proof.
  intros [dir Hp] Ho. unfold memory_create_new. rewrite (opened_directory _ _ _ Hp Ho).
  destruct (ds_volatile dir !! name) as [k|] eqn:Hname; [rewrite bool_decide_true by (by eexists); intros [= <- <-]; eauto|].
  rewrite bool_decide_false by (by intros [? ?]). unfold allocate_node.
  destruct (checked_add _ _) as [next|] eqn:Hnext; [|intros [= <- <-]; eauto].
  unfold memory_directory at 1. destruct Ho as [Hno Hgo]. cbn [with_files mem_generation mem_directories]. rewrite Hgo, Z.eqb_refl, Hno.
  cbn [negb]. rewrite (pub_dir _ _ _ _ Hp). cbn [ok_or]. intros [= <- <-]. right.
  unfold checked_add in Hnext. destruct (_ <=? _); [|done]. injection Hnext as <-.
  assert (∀ n k, ds_volatile dir !! n = Some (NodeFile k) → k ≠ mem_next_node m) as Hold.
  { intros n k Hk. destruct (pub_files _ _ _ _ Hp _ _ Hk) as (? & [= <-] & ? & _). lia. }
  split; [unfold view; by rewrite (pub_dir _ _ _ _ Hp); cbn; rewrite Hname|]. eexists. split; [done|]. split; [|split; [|split]].
  - eexists. split; cbn.
    + destruct (pub_root _ _ _ _ Hp) as (root & Hr & Hok). exists root. rewrite Hno, lookup_insert_ne by apply Hp. done.
    + by rewrite Hno, lookup_insert_eq.
    + apply Hp.
    + cbn. apply insert_subseteq_r; [|apply Hp]. eapply lookup_weaken_None; [done|apply Hp].
    + intros n k. cbn. rewrite lookup_insert_Some. intros [[<- <-]|[_ Hk]].
      * eexists. split; [done|]. split; [lia|]. by rewrite lookup_insert_eq.
      * destruct (pub_files _ _ _ _ Hp _ _ Hk) as (node & -> & Hlt & Hst). exists node. split_and!; [done|lia|].
        rewrite lookup_insert_ne by lia. done.
    + intros n1 n2 k. cbn. rewrite !lookup_insert_Some. intros [[<- [= <-]]|[? H1]] [[<- E2]|[? H2]]; try done.
      * by apply Hold in H2.
      * injection E2 as <-. by apply Hold in H1.
      * by eapply (pub_inj _ _ _ _ Hp).
    + apply Hp.
    + intros n k x. cbn. rewrite !lookup_insert_Some. pose proof (pub_limit _ _ _ _ Hp). intros [[<- [= <-]]|[_ Hk]].
      * intros [[_ <-]|[? ?]]; [split; cbn; unfold zlen; cbn; lia|done].
      * apply Hold in Hk as Hk'. intros [[? _]|[_ Hx]]; [done|]. by eapply (pub_sized _ _ _ _ Hp).
  - split_and!; [done..|]. intros n file [Hg (dir' & Hd' & Hn)]. split; [done|]. rewrite (pub_dir _ _ _ _ Hp) in Hd'. injection Hd' as <-.
    eexists. split; [cbn; by rewrite Hno, lookup_insert_eq|]. cbn. rewrite lookup_insert_ne by congruence. done.
  - split; [done|]. eexists. split; [cbn; by rewrite Hno, lookup_insert_eq|]. cbn. by rewrite lookup_insert_eq.
  - intros n. unfold view. cbn. rewrite Hno, lookup_insert_eq. cbn. rewrite (pub_dir _ _ _ _ Hp). cbn.
    destruct (decide (n = name)) as [->|Hne].
    + rewrite fn_lookup_insert, lookup_insert_eq, lookup_insert_eq. cbn. rewrite bool_decide_false; [done|].
      intros Hd. pose proof (lookup_weaken _ _ _ _ Hd (pub_names _ _ _ _ Hp)). congruence.
    + rewrite fn_lookup_insert_ne, lookup_insert_ne by done. destruct (ds_volatile dir !! n) as [[k|]|] eqn:Hk; try done.
      rewrite lookup_insert_ne; [done|]. intros Hk'. by eapply Hold.
Qed.
Lemma sync_directory_view m handle m' r : db m → opened m d handle → memory_sync_directory handle m = (m', r) →
  r = Ok tt ∧ db m' ∧ keeps_handles m m' ∧ ∀ n, view m' d n = (λ x, (x.1, true)) <$> view m d n.
Proof.
  intros [dir Hp] Ho. unfold memory_sync_directory. rewrite (opened_directory _ _ _ Hp Ho). destruct Ho as [Hno Hgo].
  intros [= <- <-]. split; [done|]. split; [|split].
  - eexists. split; cbn.
    + destruct (pub_root _ _ _ _ Hp) as (root & Hr & Hok). exists root. rewrite Hno, lookup_insert_ne by apply Hp. done.
    + by rewrite Hno, lookup_insert_eq.
    + apply Hp.
    + done.
    + intros n k Hk. by apply (pub_files _ _ _ _ Hp) in Hk.
    + intros n1 n2 k. apply (pub_inj _ _ _ _ Hp).
    + apply Hp.
    + intros n k x. apply (pub_sized _ _ _ _ Hp).
  - split_and!; [done..|]. intros n file [Hg (dir' & Hd' & Hn)]. split; [done|]. rewrite (pub_dir _ _ _ _ Hp) in Hd'. injection Hd' as <-.
    eexists. split; [cbn; by rewrite Hno, lookup_insert_eq|done].
  - intros n. unfold view. cbn. rewrite Hno, lookup_insert_eq, (pub_dir _ _ _ _ Hp). cbn.
    destruct (ds_volatile dir !! n) as [[k|]|] eqn:Hk; try done. destruct (mem_files m !! k); [|done]. cbn. by rewrite bool_decide_true.
Qed.
(** A restart leaves the durable names with their durable contents. *)
Lemma restart_view m m' : (∀ root, root_ok root → root_ok (restart_directory root)) → db m → memory_restart m = (m', Ok tt) →
  db m' ∧ ∀ n, view m' d n = match view m d n with Some (st, true) => Some (restart_file st, true) | _ => None end.
Proof.
  intros Hroot [dir Hp]. unfold memory_restart, checked_add. destruct (_ <=? _); [|done]. intros [= <-]. split.
  - eexists. split; cbn.
    + destruct (pub_root _ _ _ _ Hp) as (root & Hr & Hok). eexists. rewrite lookup_fmap, Hr. split; [done|by apply Hroot].
    + by rewrite lookup_fmap, (pub_dir _ _ _ _ Hp).
    + apply Hp.
    + done.
    + intros n k Hk. cbn in Hk. eapply lookup_weaken in Hk; [|apply Hp]. apply (pub_files _ _ _ _ Hp) in Hk as (node & -> & Hlt & Hst).
      exists node. split_and!; [done..|]. rewrite lookup_fmap. by apply fmap_is_Some.
    + intros n1 n2 k H1 H2. cbn in *. eapply (pub_inj _ _ _ _ Hp); (eapply lookup_weaken; [done|apply Hp]).
    + destruct (pub_limit _ _ _ _ Hp). split; [done|lia].
    + intros n k x Hk. cbn in Hk. eapply lookup_weaken in Hk; [|apply Hp]. rewrite lookup_fmap. destruct (mem_files m !! k) as [st|] eqn:Hst; [|done].
      intros [= <-]. destruct (pub_sized _ _ _ _ Hp _ _ _ Hk Hst) as [_ Hd]. by split.
  - intros n. unfold view. cbn. rewrite lookup_fmap, (pub_dir _ _ _ _ Hp). cbn.
    destruct (ds_durable dir !! n) as [k|] eqn:Hk.
    + pose proof (lookup_weaken _ _ _ _ Hk (pub_names _ _ _ _ Hp)) as Hv. rewrite Hv.
      destruct k as [k|k]; [|done]. rewrite lookup_fmap. destruct (mem_files m !! k); [|done]. cbn. by rewrite !bool_decide_true by done.
    + destruct (ds_volatile dir !! n) as [[k|]|]; try done. destruct (mem_files m !! k); [|done]. cbn. by rewrite bool_decide_false.
Qed.
End memory.
