(* ===== verification/StoreCalls.v ===== *)
(** * Reasoning about journal programs

    A weakest precondition for [eff], and the calls of a hosted file system as rules
    over the view of the database directory: each rule has a continuation for
    success and one for failure. *)
From stdpp Require Import functions.
From S2P Require Import Prelude Ids Policy Storage Journal Envelope FileSystem MemoryFs FaultFs FileSystemFacts JournalFormat JournalStore StoreDisk.

(** ** Weakest preconditions *)

(** [m] from [s] ends in [Q]; when it does not return, [panics] holds. *)
Definition wp {S T} (panics : Prop) (m : eff S T) (Q : S → result StorageError T → Prop) (s : S) : Prop :=
  match m s with Some (s', r) => Q s' r | None => panics end.
Section wp.
Context {S : Type} (P : Prop).
Implicit Types s : S.
Lemma wp_bind {T U} (m : eff S T) (k : T → eff S U) Q s :
  wp P m (λ s' r, match r with Ok t => wp P (k t) Q s' | Err e => Q s' (Err e) end) s → wp P (m ≫= k) Q s.
Proof. unfold wp, mbind, eff_bind. destruct (m s) as [[s' [t|e]]|]; done. Qed.
Lemma wp_ret {T} (t : T) Q s : Q s (Ok t) → wp P (mret t) Q s.
Proof. done. Qed.
Lemma wp_fail {T} e (Q : S → result StorageError T → Prop) s : Q s (Err e) → wp P (eff_fail e) Q s.
Proof. done. Qed.
Lemma wp_lift {T} (r : result StorageError T) Q s : Q s r → wp P (eff_lift r) Q s.
Proof. done. Qed.
Lemma wp_lift_Ok {T} (r : result StorageError T) t Q s : r = Ok t → Q s (Ok t) → wp P (eff_lift r) Q s.
Proof. by intros ->. Qed.
Lemma wp_mono {T} (m : eff S T) (Q Q' : S → result StorageError T → Prop) s :
  wp P m Q s → (∀ s' r, Q s' r → Q' s' r) → wp P m Q' s.
Proof. unfold wp. destruct (m s) as [[s' r]|]; auto. Qed.
Lemma eff_fold_app {A B} (body : A → B → eff S A) l k a s :
  eff_fold body (l ++ k) a s = (a ← eff_fold body l a; eff_fold body k a) s.
Proof.
  revert a s. induction l as [|b l IH]; intros a s; [done|]. cbn [app eff_fold].
  unfold mbind, eff_bind. destruct (body a b s) as [[s' [a'|e]]|]; [|done..]. by rewrite IH.
Qed.
End wp.
(** The steps of a program one at a time. *)
Ltac wp_step := first [apply wp_bind | apply wp_ret | apply wp_fail].

Section calls.
Context {F : Type} `{HostedFileSystem F} (pending : nat) (root_ok : MemoryDirectoryState → Prop) (d : Z) (P : Prop) (fuel : nat).
Implicit Types (fs : F) (v : View).
Definition disk fs v : Prop := ready pending fs ∧ db root_ok d (hosted fs) ∧ ∀ name, view (hosted fs) d name = v name.
Definition has fs (name : EntryName) (file : File) : Prop := names (hosted fs) d name (file_of file).
Definition in_dir fs (directory : Directory) : Prop := opened (hosted fs) d (dir_of directory).
Definition later fs fs' : Prop := keeps_handles d (hosted fs) (hosted fs').
#[export] Instance later_preorder : PreOrder later.
Proof. split; [by intros fs; unfold later|]. intros f1 f2 f3. unfold later. by intros; etrans. Qed.
Lemma has_later fs fs' name file : later fs fs' → has fs name file → has fs' name file.
Proof. intros (_ & _ & Hl). apply Hl. Qed.
Lemma in_dir_later fs fs' directory : later fs fs' → in_dir fs directory → in_dir fs' directory.
Proof. intros (Hg & _ & _) [Hn Hgen]. split; [done|congruence]. Qed.
Lemma disk_ext fs v v' : disk fs v → (∀ name, v name = v' name) → disk fs v'.
Proof. intros (? & ? & Hv) He. split_and!; [done..|]. intros name. by rewrite Hv. Qed.

Lemma wp_call {T U} conv (cv : T → U) (op : F → F * result AdapterErrorKind T) mop Q fs :
  mirrors hosted may_fail cv op mop (ready pending) → ready pending fs →
  (∀ fs' t, ready pending fs' → mop (hosted fs) = (hosted fs', Ok (cv t)) → Q fs' (Ok t)) →
  (∀ fs' e, ready pending fs' → mop (hosted fs) = (hosted fs', Err e)
     ∨ may_fail ∧ (hosted fs' = hosted fs ∨ (mop (hosted fs)).1 = hosted fs') → Q fs' (Err (conv e))) →
  wp P (on_fs conv op) Q fs.
Proof.
  intros Hm Hr HOk HErr. unfold wp, on_fs. destruct (op fs) as [fs' r] eqn:Hop. destruct (Hm _ _ _ Hr Hop) as [Hr' Hcase].
  destruct r as [t|e]; cbn [map_err].
  - destruct Hcase as [Hcase|(_ & [e ?] & _)]; [|done]. by apply HOk.
  - apply HErr; [done|]. destruct Hcase as [Hcase|(Hf & _ & Hcase)]; auto.
Qed.
Lemma disk_same fs fs' v : disk fs v → ready pending fs' → hosted fs' = hosted fs → disk fs' v ∧ later fs fs'.
Proof. intros (_ & Hd & Hv) Hr Hs. unfold disk, later. rewrite Hs. by split_and!. Qed.
(** A call that only looks. *)
Lemma wp_look {T U} conv (cv : T → U) (op : F → F * result AdapterErrorKind T) mop u v Q fs :
  mirrors hosted may_fail cv op mop (ready pending) → disk fs v → mop (hosted fs) = (hosted fs, Ok u) →
  (∀ fs' t, disk fs' v → later fs fs' → hosted fs' = hosted fs → cv t = u → Q fs' (Ok t)) →
  (∀ fs' e, may_fail → disk fs' v → later fs fs' → Q fs' (Err (conv e))) →
  wp P (on_fs conv op) Q fs.
Proof.
  intros Hm Hd Hrun HOk HErr. eapply wp_call; [done|apply Hd|..].
  - intros fs' t Hr. rewrite Hrun. intros [= Hs ->]. symmetry in Hs. destruct (disk_same _ _ _ Hd Hr Hs). by apply HOk.
  - intros fs' e Hr. rewrite Hrun. intros [[=]|[Hf [Hs|Hs]]]; [|cbn in Hs; symmetry in Hs];
      destruct (disk_same _ _ _ Hd Hr Hs); by apply HErr.
Qed.
Lemma wp_open_existing conv directory name x v Q fs : disk fs v → in_dir fs directory → v name = Some x →
  (∀ fs' file, disk fs' v → later fs fs' → has fs' name file → Q fs' (Ok file)) →
  (∀ fs' e, may_fail → disk fs' v → later fs fs' → Q fs' (Err (conv e))) →
  wp P (on_fs conv (open_existing directory name)) Q fs.
Proof.
  intros Hd Hin Hv HOk HErr. pose proof Hd as (_ & Hdb & Hview). rewrite <-Hview in Hv.
  destruct (open_existing_view _ _ _ _ _ _ Hdb Hin Hv) as (file & Hrun & Hn).
  eapply wp_look; [apply hosted_open_existing|done|done| |done]. intros fs' t Hd' Hl Hs Ht. apply HOk; [done..|].
  unfold has. by rewrite Ht, Hs.
Qed.
Lemma wp_metadata conv file name st linked v Q fs : disk fs v → has fs name file → v name = Some (st, linked) →
  (∀ fs', disk fs' v → later fs fs' → Q fs' (Ok (zlen (fst_volatile st)))) →
  (∀ fs' e, may_fail → disk fs' v → later fs fs' → Q fs' (Err (conv e))) →
  wp P (on_fs conv (metadata file)) Q fs.
Proof.
  intros Hd Hn Hv HOk HErr. pose proof Hd as (_ & Hdb & Hview). rewrite <-Hview in Hv.
  destruct (view_sized _ _ _ _ _ _ Hdb Hv) as [[Hs _] Hlim].
  eapply (wp_look _ _ _ _ (zlen (fst_volatile st))); [apply hosted_metadata|done| | |done].
  - unfold memory_metadata. rewrite (names_file _ _ _ _ _ _ Hn Hv), result_bind_Ok, (proj2 (Z.ltb_ge _ _)); [done|lia].
  - intros fs' t Hd' Hl _ Ht. unfold id in Ht. subst t. by apply HOk.
Qed.
Lemma wp_read conv file name st linked v (offset len : Z) Q fs : disk fs v → has fs name file → v name = Some (st, linked) →
  0 ≤ offset → 0 ≤ len → offset + len ≤ zlen (fst_volatile st) → (Z.to_nat len + pending < fuel)%nat → len < U64_MAX →
  (∀ fs', disk fs' v → later fs fs' → Q fs' (Ok (slice (Z.to_nat offset) (Z.to_nat len) (fst_volatile st)))) →
  (∀ fs' e, may_fail → disk fs' v → later fs fs' → Q fs' (Err (conv e))) →
  wp P (on_loop conv (read_exact_at fuel file offset len)) Q fs.
Proof.
  intros Hd Hn Hv Ho Hl Hb Hfuel Hmax HOk HErr. pose proof Hd as (Hr & Hdb & Hview). rewrite <-Hview in Hv.
  destruct (view_sized _ _ _ _ _ _ Hdb Hv) as [[Hs _] Hlim].
  destruct (hosted_read pending fuel file st offset len fs Hr (names_file _ _ _ _ _ _ Hn Hv) Ho ltac:(lia) ltac:(lia) Hfuel)
    as (fs' & r & Hrun & Hr' & Hsame & Hcase). unfold wp, on_loop. rewrite Hrun. cbn.
  destruct (disk_same _ _ _ Hd Hr' Hsame). destruct Hcase as [->|(Hf & e & ->)]; cbn; auto.
Qed.

(** A call that changes the state of one file. *)
Lemma disk_put fs fs' v name (file : MemoryFile) st st' linked : disk fs v → names (hosted fs) d name file → v name = Some (st, linked) →
  sized (hosted fs) st' → ready pending fs' → hosted fs' = put_file file st' (hosted fs) →
  disk fs' (<[name := Some (st', linked)]> v) ∧ later fs fs'.
Proof.
  intros (_ & Hdb & Hview) Hn Hv Hs Hr Heq. rewrite <-Hview in Hv.
  destruct (put_file_view _ _ _ _ _ _ st' _ Hdb Hn Hv Hs) as (Hdb' & Hk & Hv'). unfold disk, later. rewrite Heq.
  split_and!; [done..| |done]. intros n. rewrite Hv'. destruct (decide (n = name)) as [->|];
    [by rewrite !fn_lookup_insert|by rewrite !fn_lookup_insert_ne].
Qed.
Lemma wp_put {T U} conv (cv : T → U) (op : F → F * result AdapterErrorKind T) mop u v name (file : MemoryFile) st st' linked Q fs :
  mirrors hosted may_fail cv op mop (ready pending) → disk fs v → names (hosted fs) d name file → v name = Some (st, linked) →
  sized (hosted fs) st' → mop (hosted fs) = (put_file file st' (hosted fs), Ok u) →
  (∀ fs' t, disk fs' (<[name := Some (st', linked)]> v) → later fs fs' → cv t = u → Q fs' (Ok t)) →
  (∀ fs' e v', may_fail → v' = v ∨ v' = <[name := Some (st', linked)]> v → disk fs' v' → later fs fs' → Q fs' (Err (conv e))) →
  wp P (on_fs conv op) Q fs.
Proof.
  intros Hm Hd Hn Hv Hs Hrun HOk HErr. eapply wp_call; [done|apply Hd|..].
  - intros fs' t Hr. rewrite Hrun. intros [= Heq ->]. symmetry in Heq. destruct (disk_put _ _ _ _ _ _ _ _ Hd Hn Hv Hs Hr Heq). by apply HOk.
  - intros fs' e Hr. rewrite Hrun. intros [[=]|[Hf [Heq|Heq]]].
    + destruct (disk_same _ _ _ Hd Hr Heq). by apply (HErr _ _ v); auto.
    + cbn in Heq. symmetry in Heq. destruct (disk_put _ _ _ _ _ _ _ _ Hd Hn Hv Hs Hr Heq). by eapply HErr; auto.
Qed.
Definition synced (st : MemoryFileState) : MemoryFileState :=
  mk_file_state (fst_volatile st) (fst_volatile st) (fst_lock_generation st).
Lemma wp_sync conv (op : F → F * result AdapterErrorKind unit) file name st linked v Q fs :
  mirrors hosted may_fail id op (memory_sync_data (file_of file)) (ready pending) →
  disk fs v → has fs name file → v name = Some (st, linked) →
  (∀ fs', disk fs' (<[name := Some (synced st, linked)]> v) → later fs fs' → Q fs' (Ok tt)) →
  (∀ fs' e v', may_fail → v' = v ∨ v' = <[name := Some (synced st, linked)]> v → disk fs' v' → later fs fs' → Q fs' (Err (conv e))) →
  wp P (on_fs conv op) Q fs.
Proof.
  intros Hm Hd Hn Hv HOk HErr. pose proof Hd as (_ & Hdb & Hview). pose proof Hv as Hv'. rewrite <-Hview in Hv'.
  destruct (view_sized _ _ _ _ _ _ Hdb Hv') as [[Hs _] _].
  eapply (wp_put _ _ _ _ tt _ _ _ _ (synced st)); [done..|by split| | |done].
  - unfold memory_sync_data. by rewrite (names_file _ _ _ _ _ _ Hn Hv').
  - intros fs' []. auto.
Qed.
Definition cut (len : nat) (st : MemoryFileState) : MemoryFileState :=
  mk_file_state (resize len (fst_volatile st)) (fst_durable st) (fst_lock_generation st).
Lemma wp_set_len conv file name st linked v (len : Z) Q fs : disk fs v → has fs name file → v name = Some (st, linked) →
  0 ≤ len ≤ zlen (fst_volatile st) →
  (∀ fs', disk fs' (<[name := Some (cut (Z.to_nat len) st, linked)]> v) → later fs fs' → Q fs' (Ok tt)) →
  (∀ fs' e v', may_fail → v' = v ∨ v' = <[name := Some (cut (Z.to_nat len) st, linked)]> v → disk fs' v' → later fs fs' → Q fs' (Err (conv e))) →
  wp P (on_fs conv (set_len file len)) Q fs.
Proof.
  intros Hd Hn Hv Hlen HOk HErr. pose proof Hd as (_ & Hdb & Hview). pose proof Hv as Hv'. rewrite <-Hview in Hv'.
  destruct (view_sized _ _ _ _ _ _ Hdb Hv') as [[Hs Hs'] _].
  eapply (wp_put _ _ _ _ tt _ _ _ _ (cut (Z.to_nat len) st)); [apply hosted_set_len|done..| | | |done].
  - split; [|done]. cbn. unfold resize, zlen in *. rewrite length_app, length_take, length_zeros. lia.
  - unfold memory_set_len. rewrite (proj2 (Z.ltb_ge _ _)) by lia. by rewrite (names_file _ _ _ _ _ _ Hn Hv').
  - intros fs' []. auto.
Qed.
(** The lock file and its guard. *)
Definition locked_by (generation : Z) (st : MemoryFileState) : MemoryFileState :=
  mk_file_state (fst_volatile st) (fst_durable st) generation.
Definition lock_state v (generation : Z) : Prop := ∃ st linked, v (entry "LOCK") = Some (st, linked) ∧ fst_lock_generation st = generation.
Definition guard_held fs v (guard : OwnershipGuard) : Prop :=
  names (hosted fs) d (entry "LOCK") (mk_memory_file (og_node (guard_of guard)) (mem_generation (hosted fs)))
  ∧ lock_state v (og_generation (guard_of guard)) ∧ og_generation (guard_of guard) = mem_generation (hosted fs).
Lemma guard_later fs fs' v v' guard : later fs fs' → (∀ g, lock_state v g → lock_state v' g) → guard_held fs v guard → guard_held fs' v' guard.
Proof. intros (Hgen & _ & Hkeep) Hl (Hn & Hs & Hg). rewrite <-Hgen in Hg. split_and!; [|by apply Hl|done]. rewrite Hgen. by apply Hkeep. Qed.
Lemma guard_same fs fs' v guard : later fs fs' → guard_held fs v guard → guard_held fs' v guard.
Proof. intros Hl Hg. by eapply guard_later. Qed.
Lemma wp_try_lock conv directory st linked v Q fs : disk fs v → in_dir fs directory →
  v (entry "LOCK") = Some (st, linked) → fst_lock_generation st = 0 →
  (∀ fs' guard v', v' = <[entry "LOCK" := Some (locked_by (mem_generation (hosted fs)) st, linked)]> v →
     disk fs' v' → later fs fs' → guard_held fs' v' guard → Q fs' (Ok guard)) →
  (∀ fs' e v', may_fail → v' = v ∨ v' = <[entry "LOCK" := Some (locked_by (mem_generation (hosted fs)) st, linked)]> v →
     disk fs' v' → later fs fs' → Q fs' (Err (conv e))) →
  wp P (on_fs conv (try_lock_exclusive directory (entry "LOCK"))) Q fs.
Proof.
  intros Hd Hin Hv Hst HOk HErr. pose proof Hd as (_ & Hdb & Hview). pose proof Hv as Hv'. rewrite <-Hview in Hv'.
  destruct (view_sized _ _ _ _ _ _ Hdb Hv') as [Hs _].
  destruct (open_existing_view _ _ _ _ _ _ Hdb Hin Hv') as (file & Hopen & Hn).
  eapply (wp_put _ _ _ _ (mk_guard (mf_node file) (mem_generation (hosted fs))) _ _ file _ (locked_by (mem_generation (hosted fs)) st));
    [apply hosted_try_lock|done..| | |done].
  - unfold memory_try_lock_exclusive. rewrite Hopen, (names_file _ _ _ _ _ _ Hn Hv'), Hst. done.
  - intros fs' guard Hd' Hl Hg. eapply HOk; [done..|]. destruct Hl as (Hgen & _ & Hkeep). split_and!; rewrite Hg; cbn; [| |done].
    + apply Hkeep in Hn. destruct file as [node gen]. pose proof Hn as [Hfg _]. cbn in *. by rewrite <-Hfg.
    + exists (locked_by (mem_generation (hosted fs)) st), linked. by rewrite fn_lookup_insert.
Qed.
Lemma disk_drop_guard fs v guard st linked : disk fs v → guard_held fs v guard → v (entry "LOCK") = Some (st, linked) →
  disk (drop_guard guard fs) (<[entry "LOCK" := Some (locked_by 0 st, linked)]> v) ∧ later fs (drop_guard guard fs).
Proof.
  intros Hd [Hn [(st' & linked' & Hv' & Hg) _]] Hv. rewrite Hv in Hv'. injection Hv' as <- <-. pose proof Hd as (Hr & Hdb & Hview).
  rewrite <-Hview in Hv. destruct (view_sized _ _ _ _ _ _ Hdb Hv) as [Hs _]. rewrite Hview in Hv.
  eapply disk_put; [done|exact Hn|done|done|by apply ready_drop_guard|]. rewrite hosted_drop_guard. unfold memory_drop_guard.
  rewrite <-Hview in Hv. pose proof (names_file _ _ _ _ _ _ Hn Hv) as Hf. unfold memory_file in Hf. cbn in Hf.
  destruct (negb _); [done|]. destruct (mem_files (hosted fs) !! _) as [st0|]; [|done]. cbn in Hf. injection Hf as ->.
  by rewrite Hg, Z.eqb_refl.
Qed.
(** A checked write: some prefix of the input is in the file. *)
Definition written (st : MemoryFileState) (offset : nat) (bytes : list byte) : MemoryFileState :=
  match bytes with
  | [] => st
  | _ => mk_file_state (overwrite (fst_volatile st) offset bytes) (fst_durable st) (fst_lock_generation st)
  end.
Lemma zlen_overwrite old offset bytes : zlen (overwrite old offset bytes) = Z.max (zlen old) (Z.of_nat offset + zlen bytes).
Proof. unfold overwrite, zlen. rewrite !length_app, length_take, length_drop, length_zeros. lia. Qed.
Lemma wp_write conv file name st linked v (offset : Z) input Q fs : disk fs v → has fs name file → v name = Some (st, linked) →
  0 ≤ offset → zlen input < U64_MAX → (length input + pending < fuel)%nat →
  (∀ fs', disk fs' (<[name := Some (written st (Z.to_nat offset) input, linked)]> v) → later fs fs' → Q fs' (Ok tt)) →
  (∀ fs' e k, (k ≤ length input)%nat → disk fs' (<[name := Some (written st (Z.to_nat offset) (take k input), linked)]> v) →
     later fs fs' → Q fs' (Err (conv e))) →
  wp P (on_loop conv (write_all_at fuel file offset input)) Q fs.
Proof.
  intros Hd Hn Hv Ho Hmax Hfuel HOk HErr. pose proof Hd as (Hr & Hdb & Hview). pose proof Hv as Hv'. rewrite <-Hview in Hv'.
  destruct (view_sized _ _ _ _ _ _ Hdb Hv') as [[Hs Hs'] _].
  destruct (hosted_write pending fuel file st offset input fs Hr (names_file _ _ _ _ _ _ Hn Hv') Ho Hmax Hfuel)
    as (fs' & r & k & Hrun & Hr' & Heq & Hk & Hok & Hlim). unfold wp, on_loop. rewrite Hrun. cbn.
  assert (disk fs' (<[name := Some (written st (Z.to_nat offset) (take k input), linked)]> v) ∧ later fs fs') as [Hd' Hl].
  { destruct (take k input) as [|b bytes] eqn:Htake.
    - cbn in *. destruct (disk_same _ _ _ Hd Hr' Heq) as [Hd' Hl]. split; [|done]. eapply disk_ext; [done|]. intros n.
      destruct (decide (n = name)) as [->|]; [by rewrite fn_lookup_insert|by rewrite fn_lookup_insert_ne].
    - cbn [wrote] in Heq. eapply (disk_put _ _ _ _ _ _ (written st (Z.to_nat offset) (b :: bytes))); [done..| |done|exact Heq]. split; [|done].
      cbn [written fst_volatile]. rewrite zlen_overwrite, <-Htake. assert (zlen (take k input) ≤ Z.of_nat k) by (unfold zlen; rewrite length_take; lia).
      destruct Hlim as [->|]; [done|lia]. }
  destruct r as [[]|e]; cbn.
  - rewrite (Hok eq_refl), firstn_all in Hd'. by apply HOk.
  - by eapply HErr.
Qed.
Lemma wp_sync_directory conv directory v Q fs : disk fs v → in_dir fs directory →
  (∀ fs', disk fs' (λ n, (λ x, (x.1, true)) <$> v n) → later fs fs' → Q fs' (Ok tt)) →
  (∀ fs' e v', v' = v ∨ v' = (λ n, (λ x, (x.1, true)) <$> v n) → disk fs' v' → later fs fs' → Q fs' (Err (conv e))) →
  wp P (on_fs conv (sync_directory directory)) Q fs.
Proof.
  intros Hd Hin HOk HErr. pose proof Hd as (_ & Hdb & Hview).
  destruct (memory_sync_directory (dir_of directory) (hosted fs)) as [m r] eqn:Hrun.
  destruct (sync_directory_view _ _ _ _ _ _ Hdb Hin Hrun) as (-> & Hdb' & Hk & Hv').
  assert (∀ fs', ready pending fs' → hosted fs' = m → disk fs' (λ n, (λ x, (x.1, true)) <$> v n) ∧ later fs fs') as Hnew.
  { intros fs' Hr' Heq. unfold disk, later. rewrite Heq. split_and!; [done..| |done]. intros n. by rewrite Hv', Hview. }
  eapply wp_call; [apply hosted_sync_directory|apply Hd|..].
  - intros fs' [] Hr. rewrite Hrun. intros [= Heq]. symmetry in Heq. destruct (Hnew _ Hr Heq). by apply HOk.
  - intros fs' e Hr. rewrite Hrun. intros [[=]|[Hf [Heq|Heq]]].
    + destruct (disk_same _ _ _ Hd Hr Heq). by apply (HErr _ _ v); auto.
    + cbn in Heq. symmetry in Heq. destruct (Hnew _ Hr Heq). by eapply HErr; eauto.
Qed.
Lemma wp_create_new conv directory name v Q fs : disk fs v → in_dir fs directory →
  (∀ fs' file, v name = None → disk fs' (<[name := Some (MemoryFileState_default, false)]> v) → later fs fs' → has fs' name file → Q fs' (Ok file)) →
  (∀ fs' e v', v' = v ∨ v name = None ∧ v' = <[name := Some (MemoryFileState_default, false)]> v → disk fs' v' → later fs fs' → Q fs' (Err (conv e))) →
  wp P (on_fs conv (create_new directory name)) Q fs.
Proof.
  intros Hd Hin HOk HErr. pose proof Hd as (_ & Hdb & Hview).
  destruct (memory_create_new (dir_of directory) name (hosted fs)) as [m r] eqn:Hrun.
  pose proof (create_new_view _ _ _ _ _ _ _ Hdb Hin Hrun) as Hcase.
  eapply wp_call; [apply hosted_create_new|apply Hd|..].
  - intros fs' file Hr. rewrite Hrun. intros [= -> ->]. destruct Hcase as [(_ & e & ?)|(Hnone & file' & [= <-] & Hdb' & Hk & Hn & Hv')]; [done|].
    apply HOk; [by rewrite <-Hview| |done..]. split_and!; [done..|]. intros n. rewrite Hv'.
    destruct (decide (n = name)) as [->|]; [by rewrite !fn_lookup_insert|by rewrite !fn_lookup_insert_ne].
  - intros fs' e Hr. rewrite Hrun. intros Hwhich.
    assert (hosted fs' = hosted fs ∨ m = hosted fs') as [Heq|Heq].
    { destruct Hwhich as [[= -> _]|[_ [Heq|Heq]]]; auto. }
    + destruct (disk_same _ _ _ Hd Hr Heq). by apply (HErr _ _ v); auto.
    + subst m. destruct Hcase as [(Heq & _)|(Hnone & file' & _ & Hdb' & Hk & _ & Hv')].
      * destruct (disk_same _ _ _ Hd Hr Heq). by apply (HErr _ _ v); auto.
      * eapply HErr; [right; split; [by rewrite <-Hview|done]| |done]. split_and!; [done..|]. intros n. rewrite Hv'.
        destruct (decide (n = name)) as [->|]; [by rewrite !fn_lookup_insert|by rewrite !fn_lookup_insert_ne].
Qed.
(** A new file with flushed contents; a failure may leave the file in some state. *)
Lemma written_new contents : written MemoryFileState_default 0 contents = mk_file_state contents [] 0.
Proof.
  destruct contents as [|b contents]; [done|]. unfold written, overwrite, MemoryFileState_default. cbn [fst_volatile fst_durable fst_lock_generation].
  by rewrite take_nil, drop_nil, app_nil_r.
Qed.
Lemma wp_create_file directory name contents v Q fs : disk fs v → in_dir fs directory → zlen contents < U64_MAX → (length contents + pending < fuel)%nat →
  (∀ fs' file, v name = None → disk fs' (<[name := Some (mk_file_state contents contents 0, false)]> v) → later fs fs' → has fs' name file → Q fs' (Ok file)) →
  (∀ fs' e v', v' = v ∨ v name = None ∧ (∃ st, v' = <[name := Some (st, false)]> v) → disk fs' v' → later fs fs' → Q fs' (Err (StorageError.Adapter e))) →
  wp P (create_file fuel directory name contents) Q fs.
Proof.
  intros Hd Hin Hmax Hfuel HOk HErr. unfold create_file. apply wp_bind. eapply wp_create_new; [done..| |].
  2: { intros fs1 e v1 Hv1 Hd1 Hl1. eapply HErr; [|done..]. naive_solver. }
  intros fs1 file Hnone Hd1 Hl1 Hf1. cbn beta iota. apply wp_bind.
  assert (∀ x y fs', disk fs' (<[name := Some x]> (<[name := Some y]> v)) → disk fs' (<[name := Some x]> v)) as Hover.
  { intros x y fs' Hd'. eapply disk_ext; [exact Hd'|]. intros nm. destruct (decide (nm = name)) as [->|];
      [by rewrite !fn_lookup_insert|by rewrite !fn_lookup_insert_ne]. }
  eapply wp_write; [done|done|by rewrite fn_lookup_insert|done|done|done| |].
  2: { intros fs2 e k _ Hd2 Hl2. apply Hover in Hd2. eapply HErr; [|exact Hd2|by etrans]. eauto. }
  intros fs2 Hd2 Hl2. apply Hover in Hd2. change (Z.to_nat 0) with 0%nat in Hd2. rewrite written_new in Hd2. cbn beta iota. apply wp_bind.
  eapply wp_sync; [apply hosted_sync_all|done|by eapply has_later|by rewrite fn_lookup_insert|..].
  2: { intros fs3 e v3 Hm [->| ->] Hd3 Hl3; [|apply Hover in Hd3]; (eapply HErr; [|exact Hd3|by do 2 etrans]); eauto. }
  intros fs3 Hd3 Hl3. apply Hover in Hd3. cbn beta iota. apply wp_ret.
  apply HOk; [done|exact Hd3|by do 2 etrans|]. by apply (has_later _ _ _ _ Hl3), (has_later _ _ _ _ Hl2).
Qed.
End calls.
