(* ===== verification/StoreLog.v ===== *)
(** * The log a journal's files record

    [recorded] builds the files of a store from its commits: the committed bytes of
    every segment, the sealed certificates, and the groups they certify.  [holds]
    says that the files of a directory - in memory and after a restart - are those,
    up to uncommitted bytes at the end of segments and a torn last certificate. *)
From stdpp Require Import functions.
From S2P Require Import Prelude Ids Policy Storage Blob Journal Envelope FileSystem MemoryFs FileSystemFacts JournalFormat JournalStore StoreDisk StoreCalls.

(** Groups in the resident mode without blobs. *)
Section log.
Context `{AeadLaws} (sha256 : list byte → list byte) (manifest : Manifest) (key : list byte).
Abbreviation database := (mn_database manifest).
Abbreviation epoch := (mn_epoch manifest).
Abbreviation writer := (mn_writer manifest).
Abbreviation log_id := (mn_certificate_log_id manifest).

(** ** Sealed bytes *)
Definition sealed (context : CryptoContext) (bytes plaintext : list byte) : Prop :=
  ∃ e, envelope_decode bytes = Ok e ∧ decrypt key context e = Ok plaintext.
(** A vault that holds the key. *)
Definition holds_key {W E} (v : KeyVault W E) : Prop := kv_key v = Some key ∧ kv_database v = database.
Lemma holds_key_decrypt {W E} (v : KeyVault W E) context e : holds_key v → cx_database context = database →
  vault_decrypt v context e = decrypt key context e.
Proof. intros [Hk Hd] Hc. unfold vault_decrypt. by rewrite Hc, Hd, bool_decide_true, Hk by done. Qed.
(** Decoding and decrypting sealed bytes, as the readers do. *)
Lemma sealed_opens {W E T} (v : KeyVault W E) context bytes plaintext conv (k : list byte → result StorageError T) :
  holds_key v → cx_database context = database → sealed context bytes plaintext →
  (envelope ← map_err conv (envelope_decode bytes); p ← map_err conv (vault_decrypt v context envelope); k p) = k plaintext.
Proof.
  intros Hv Hc (e & Hd & Hp). rewrite Hd. cbn [map_err]. rewrite result_bind_Ok, (holds_key_decrypt v), Hp by done. done.
Qed.

(** What a vault with the key seals. *)
Lemma vault_seals {W E} `{EntropyLaws E} (v : KeyVault W E) context plaintext v' r : length key = 32%nat → holds_key v → context_ok context →
  vault_encrypt v context plaintext = (v', r) → holds_key v' ∧
  match r with
  | Ok e => ∃ bytes padded, envelope_encode e = Ok bytes ∧ envelope_decode bytes = Ok e ∧ decrypt key context e = Ok plaintext
      ∧ ev_epoch e = cx_epoch context ∧ zlen plaintext ≤ MAX_PLAINTEXT_BYTES
      ∧ padded_length (cx_frame context) (zlen plaintext) = Ok padded ∧ zlen bytes = padded + 65 ∧ padded_ok (cx_frame context) padded
  | Err _ => True
  end.
Proof.
  intros Hkw [Hk Hdb] Hcx Henc. apply vault_encrypt_cases in Henc as ([Hk' Hd'] & _ & Hcase). split; [split; congruence|].
  destruct r as [e|e]; [|done]. destruct Hcase as (key' & Hkey' & _ & Hlen & Hnl & He & _). rewrite Hk in Hkey'. injection Hkey' as <-.
  destruct (encrypt_correct key context (ev_nonce e) plaintext Hkw Hnl Hcx Hlen) as (e' & He' & Hok & _ & Hframe & Hep & _ & Hdec & m & Hm & Hcl).
  rewrite He in He'. injection He' as <-. pose proof (envelope_encode_exact e Hok) as Henc. eexists _, m.
  split; [exact Henc|]. split; [by apply envelope_decode_complete|]. split_and!; try done.
  - unfold TAG_BYTES, zlen in *. rewrite !length_app, !length_be_bytes, Hnl. change (length MAGIC) with 4%nat. cbn [length]. lia.
  - destruct Hok as (_ & _ & Hpad). rewrite Hframe in Hpad. unfold TAG_BYTES in *. by replace (zlen (ev_ciphertext e) - 16) with m in Hpad by lia.
Qed.

(** ** Commits *)
Definition certificate_of (n : Z) (prev seg : list byte) (offset : Z) (group logical : list byte) : Certificate :=
  mk_certificate n prev seg n offset (zlen group) (sha256 group) EMPTY_BLOB_INVENTORY_DIGEST logical.
(** Commit [n]: the sealed group at [offset] of segment [seg], its certificate after
    the one with digest [prev], and the group recovery reads back. *)
Record certified (n : Z) (prev seg : list byte) (offset : Z) (group c : list byte) (g : RecoveredGroup) : Prop := mk_certified {
  cf_group : g = mk_recovered_group n (sha256 c) (rg_encoded_group g) EMPTY_BLOB_INVENTORY_DIGEST None (rg_logical_event_digest g);
  cf_certificate : certificate_ok (certificate_of n prev seg offset group (rg_logical_event_digest g));
  cf_sealed : sealed (certificate_context database epoch log_id writer n) c
                (Certificate_encode (certificate_of n prev seg offset group (rg_logical_event_digest g)));
  cf_small : zlen c = SMALL_ENVELOPE_BYTES;
  cf_contents : sealed (segment_context database epoch seg writer n) group (rg_encoded_group g);
  cf_plaintext : zlen (rg_encoded_group g) ≤ MAX_PLAINTEXT_BYTES;
  cf_length : validate_group_encoded_length (zlen group) = Ok tt;
  cf_end : offset + zlen group ≤ JOURNAL_SEGMENT_LIMIT;
  cf_place : SMALL_ENVELOPE_BYTES * (n + 1) ≤ CERTIFICATE_LOG_LIMIT
}.
Record segment_header (seg prev : list byte) (first : Z) (header : list byte) : Prop := mk_segment_header_facts {
  hd_ok : segment_header_ok (mk_segment_header database seg writer prev first);
  hd_sealed : sealed (segment_context database epoch seg writer 0) header
                (SegmentHeader_encode (mk_segment_header database seg writer prev first));
  hd_small : zlen header = SMALL_ENVELOPE_BYTES
}.
(** The committed bytes of each segment, the certificates and the log, with the
    segment in use and the digest of the last certificate. *)
Abbreviation Segments := (gmap (list byte) (list byte)).
Inductive recorded : Segments → list (list byte) → list RecoveredGroup → list byte → list byte → Prop :=
| recorded_new header : segment_header (mn_initial_segment_id manifest) (zeros 16) 1 header →
    recorded {[mn_initial_segment_id manifest := header]} [] [] (mn_initial_segment_id manifest) (zeros 32)
| recorded_group segs cs log seg prev bytes group c g : recorded segs cs log seg prev → segs !! seg = Some bytes →
    certified (zlen log + 1) prev seg (zlen bytes) group c g →
    recorded (<[seg := bytes ++ group]> segs) (cs ++ [c]) (log ++ [g]) seg (sha256 c)
| recorded_rollover segs cs log seg prev next header group c g : recorded segs cs log seg prev → segs !! next = None →
    segment_header next seg (zlen log + 1) header → certified (zlen log + 1) prev next (zlen header) group c g →
    recorded (<[next := header ++ group]> segs) (cs ++ [c]) (log ++ [g]) next (sha256 c).

Lemma recorded_segment segs cs log seg prev : recorded segs cs log seg prev →
  ∃ bytes, segs !! seg = Some bytes ∧ SMALL_ENVELOPE_BYTES ≤ zlen bytes ≤ JOURNAL_SEGMENT_LIMIT.
Proof.
  intros Hrec. induction Hrec as [header [_ _ Hsm]|segs cs log seg prev bytes group c g _ (b & Hb & Hl) Hs Hc
    |segs cs log seg prev next header group c g _ _ Hs [_ _ Hsm] Hc]; eexists; (split; [by first [apply lookup_insert_eq|apply lookup_singleton_eq]|]).
  - rewrite Hsm. done.
  - rewrite Hs in Hb. injection Hb as <-. rewrite zlen_app. pose proof (cf_end _ _ _ _ _ _ _ Hc). pose proof (zlen_nonneg group). lia.
  - rewrite zlen_app, Hsm in *. pose proof (cf_end _ _ _ _ _ _ _ Hc). pose proof (zlen_nonneg group). lia.
Qed.
Lemma certified_revision n prev seg offset group c g : certified n prev seg offset group c g → rg_revision g = n.
Proof. intros [-> _ _ _ _ _ _ _ _]. done. Qed.
Lemma recorded_log segs cs log seg prev : recorded segs cs log seg prev →
  log_numbered log ∧ length cs = length log ∧ Forall (λ c, zlen c = SMALL_ENVELOPE_BYTES) cs.
Proof.
  intros Hrec.
  assert (∀ cs log c g prev seg offset group, log_numbered log ∧ length cs = length log ∧ Forall (λ c, zlen c = SMALL_ENVELOPE_BYTES) cs →
    certified (zlen log + 1) prev seg offset group c g → log_numbered (log ++ [g]) ∧ length (cs ++ [c]) = length (log ++ [g])
      ∧ Forall (λ c, zlen c = SMALL_ENVELOPE_BYTES) (cs ++ [c])) as Hsnoc.
  { clear. intros cs log c g prev seg offset group (Hn & Hl & Hf) Hc. split_and!.
    - apply log_numbered_snoc; [done|]. rewrite (certified_revision _ _ _ _ _ _ _ Hc). by rewrite log_frontier_length.
    - rewrite !length_app. cbn. lia.
    - rewrite Forall_app, Forall_singleton. split; [done|apply Hc]. }
  induction Hrec; [by split; [apply log_numbered_nil|]|by eapply Hsnoc..].
Qed.
(** The file systems of a prefix of the log. *)
Definition below (segs0 segs : Segments) : Prop := ∀ id b, segs0 !! id = Some b → ∃ tail, segs !! id = Some (b ++ tail).
#[export] Instance below_preorder : PreOrder below.
Proof.
  split; [intros segs id b ?; exists []; by rewrite app_nil_r|]. intros s1 s2 s3 H12 H23 id b [t1 [t2 Ht]%H23]%H12.
  exists (t1 ++ t2). by rewrite app_assoc.
Qed.
Lemma below_grow segs seg bytes more : segs !! seg = Some bytes → below segs (<[seg := bytes ++ more]> segs).
Proof.
  intros Hs id b Hb. destruct (decide (id = seg)) as [->|].
  - rewrite Hs in Hb. injection Hb as <-. exists more. by rewrite lookup_insert_eq.
  - exists []. by rewrite lookup_insert_ne, app_nil_r.
Qed.
Lemma below_new segs seg bytes : segs !! seg = None → below segs (<[seg := bytes]> segs).
Proof. intros Hs id b Hb. exists []. rewrite lookup_insert_ne, app_nil_r by congruence. done. Qed.
Lemma recorded_snoc segs cs c log seg prev : recorded segs (cs ++ [c]) log seg prev →
  ∃ segs0 log0 g seg0 prev0, log = log0 ++ [g] ∧ recorded segs0 cs log0 seg0 prev0 ∧ below segs0 segs.
Proof.
  inversion 1 as [?|? cs' ? ? ? ? ? c' ? Hr Hs Hc|? cs' ? ? ? ? ? ? c' ? Hr Hs Hh Hc]; subst; [by destruct cs|..].
  all: match goal with E : _ ++ [_] = _ ++ [_] |- _ => apply app_inj_tail in E as [-> ->] end.
  all: do 5 eexists; split_and!; [done|exact Hr|by auto using below_grow, below_new].
Qed.
Lemma concat_small (cs : list (list byte)) : Forall (λ c, zlen c = SMALL_ENVELOPE_BYTES) cs →
  zlen (concat cs) = SMALL_ENVELOPE_BYTES * zlen cs.
Proof.
  induction 1 as [|c cs Hc _ IH]; [done|]. cbn [concat]. rewrite zlen_app, zlen_cons, Hc, IH. lia.
Qed.

(** ** On disk *)
Abbreviation Image := (EntryName → option (list byte)).
Definition segments_in (im : Image) (segs : Segments) : Prop := ∀ id bytes, segs !! id = Some bytes →
  ∃ name tail, segment_name id = Ok name ∧ im name = Some (bytes ++ tail) ∧ zlen (bytes ++ tail) ≤ JOURNAL_SEGMENT_LIMIT.
Definition log_header (header : list byte) : Prop :=
  sealed (certificate_context database epoch log_id writer 0) header (certificate_header database log_id writer)
  ∧ zlen header = SMALL_ENVELOPE_BYTES.
Definition certificates_in (im : Image) (header : list byte) (cs : list (list byte)) (torn : list byte) : Prop :=
  im (entry "CERTIFICATES") = Some (header ++ concat cs ++ torn) ∧ zlen torn < SMALL_ENVELOPE_BYTES
  ∧ zlen (header ++ concat cs ++ torn) ≤ CERTIFICATE_LOG_LIMIT.
(** The key file unwraps to the key under [unwraps]. *)
Definition fixed_in (unwraps : list byte → Prop) (im : Image) : Prop :=
  ∃ wrapped sealed_manifest,
    im (entry "KEY") = Some wrapped ∧ 0 < zlen wrapped ≤ MAX_KEY_ENVELOPE_BYTES ∧ unwraps wrapped
    ∧ im (entry "MANIFEST") = Some sealed_manifest ∧ zlen sealed_manifest = SMALL_ENVELOPE_BYTES
    ∧ (∃ e, envelope_decode sealed_manifest = Ok e ∧ ev_epoch e = epoch
        ∧ decrypt key (manifest_context database epoch) e = Ok (Manifest_encode manifest))
    ∧ is_Some (im (entry "LOCK")).
(** The certificates that survive a restart: all but possibly the last. *)
Definition behind (cs csd : list (list byte)) : Prop := csd = cs ∨ ∃ c, cs = csd ++ [c].
Record holds (unwraps : list byte → Prop) (v : View) (header : list byte) (segs : Segments) (cs csd : list (list byte)) (torn : list byte) : Prop := mk_holds {
  hs_volatile_fixed : fixed_in unwraps (vol v);
  hs_durable_fixed : fixed_in unwraps (dur v);
  hs_volatile_segments : segments_in (vol v) segs;
  hs_durable_segments : segments_in (dur v) segs;
  hs_header : log_header header;
  hs_volatile : certificates_in (vol v) header cs torn;
  hs_durable : ∃ tornd, certificates_in (dur v) header csd tornd;
  hs_behind : behind cs csd
}.
Lemma segments_below im segs0 segs : below segs0 segs → segments_in im segs → segments_in im segs0.
Proof.
  intros Hb Hi id b [t Hid]%Hb. destruct (Hi _ _ Hid) as (name & tail & Hn & Him & Hl). rewrite <-app_assoc in *. eauto.
Qed.
End log.

(** ** How changes of one file change what a store holds *)

(** ** File names *)
Definition unhex (hi lo : byte) : option byte :=
  h ← list_find (eq hi) (lit "0123456789abcdef"); l ← list_find (eq lo) (lit "0123456789abcdef");
  Byte.of_N (N.of_nat (h.1 * 16 + l.1)).
Lemma unhex_hex b : let n := of_be_bytes [b] in unhex (hex_digit (Z.shiftr n 4)) (hex_digit (Z.land n 15)) = Some b.
Proof. by destruct b; vm_compute. Qed.
Lemma hex_id_inj id1 id2 : hex_id id1 = hex_id id2 → id1 = id2.
Proof.
  revert id2. induction id1 as [|b1 id1 IH]; intros [|b2 id2]; [done..|]. unfold hex_id. rewrite !bind_cons. cbn [app].
  intros [= Hhi Hlo Hrest]. f_equal; [|by apply IH]. pose proof (unhex_hex b1) as H1. pose proof (unhex_hex b2) as H2.
  cbn zeta in *. rewrite Hhi, Hlo in H1. congruence.
Qed.
Lemma segment_name_Ok id name : segment_name id = Ok name → name = mk_entry_name (lit "j-" ++ hex_id id).
Proof. unfold segment_name, EntryName_new. repeat case_match; cbn; try done; by intros [= <-]. Qed.
Lemma segment_name_inj id1 id2 name : segment_name id1 = Ok name → segment_name id2 = Ok name → id1 = id2.
Proof. intros H1%segment_name_Ok H2%segment_name_Ok. rewrite H1 in H2. apply hex_id_inj. by injection H2. Qed.
Lemma segment_name_other id name s : segment_name id = Ok name → head (lit s) ≠ head (lit "j-") → name ≠ entry s.
Proof. intros ->%segment_name_Ok Hs [= Heq]. by rewrite <-Heq in Hs. Qed.

(** ** Images *)
Lemma view_insert_insert (v : View) name x y n : (<[name := x]> (<[name := y]> v)) n = (<[name := x]> v) n.
Proof. destruct (decide (n = name)) as [->|]; [by rewrite !fn_lookup_insert|by rewrite !fn_lookup_insert_ne]. Qed.
Lemma vol_insert v name st linked n :
  vol (<[name := Some (st, linked)]> v) n = if decide (n = name) then Some (fst_volatile st) else vol v n.
Proof. unfold vol. case_decide as Hn; [subst; by rewrite fn_lookup_insert|by rewrite fn_lookup_insert_ne]. Qed.
Lemma dur_insert v name st (linked : bool) n :
  dur (<[name := Some (st, linked)]> v) n = if decide (n = name) then (if linked then Some (fst_durable st) else None) else dur v n.
Proof. unfold dur. case_decide as Hn; [subst; rewrite fn_lookup_insert; by destruct linked|by rewrite fn_lookup_insert_ne]. Qed.
Lemma dur_linked v name st linked b : v name = Some (st, linked) → dur v name = Some b → linked = true ∧ fst_durable st = b.
Proof. unfold dur. intros ->. destruct linked; [|done]. by intros [= <-]. Qed.

Section images.
Context `{AeadLaws} (manifest : Manifest) (key : list byte) (unwraps : list byte → Prop).
Abbreviation holds := (holds manifest key unwraps).
Abbreviation fixed_in := (fixed_in manifest key unwraps).
Implicit Types (v : View) (im : EntryName → option (list byte)).

Lemma fixed_in_ext im im' : (∀ s, s ∈ ["KEY"; "MANIFEST"; "LOCK"]%string → im' (entry s) = im (entry s)) → fixed_in im → fixed_in im'.
Proof.
  intros He (w & sm & Hk & Hkl & Hu & Hm & Hml & He' & Hl). exists w, sm. rewrite !He by set_solver. done.
Qed.
Lemma segments_in_ext im im' segs : (∀ id name, is_Some (segs !! id) → segment_name id = Ok name → im' name = im name) →
  segments_in im segs → segments_in im' segs.
Proof.
  intros He Hs id b Hb. destruct (Hs _ _ Hb) as (name & tail & Hn & Him & Hl). exists name, tail.
  split_and!; [done| |done]. rewrite (He id) by (by eauto). done.
Qed.
Lemma certificates_in_ext im im' header cs torn : im' (entry "CERTIFICATES") = im (entry "CERTIFICATES") →
  certificates_in im header cs torn → certificates_in im' header cs torn.
Proof. unfold certificates_in. by intros ->. Qed.
Lemma holds_ext v v' header segs cs csd torn : (∀ n, vol v' n = vol v n) → (∀ n, dur v' n = dur v n) →
  holds v header segs cs csd torn → holds v' header segs cs csd torn.
Proof.
  intros Hv Hd [F1 F2 S1 S2 Hh C1 (tornd & C2) Hb]. split; try done.
  - by apply (fixed_in_ext (vol v)).
  - by apply (fixed_in_ext (dur v)).
  - by apply (segments_in_ext (vol v)).
  - by apply (segments_in_ext (dur v)).
  - by apply (certificates_in_ext (vol v)).
  - exists tornd. by apply (certificates_in_ext (dur v)).
Qed.
(** A view that shows more. *)
Lemma holds_mono v v' header segs cs csd torn : (∀ n b, vol v n = Some b → vol v' n = Some b) →
  (∀ n b, dur v n = Some b → dur v' n = Some b) → holds v header segs cs csd torn → holds v' header segs cs csd torn.
Proof.
  intros Hv Hd [F1 F2 S1 S2 Hh C1 (tornd & C2) Hb].
  assert (∀ im im', (∀ n b, im n = Some b → im' n = Some b) → fixed_in im → fixed_in im') as Hfixed.
  { intros im im' Hi (w & sm & Hk & Hkl & Hu & Hm & Hml & He & [l Hl]). exists w, sm. split_and!; eauto; lia. }
  assert (∀ im im', (∀ n b, im n = Some b → im' n = Some b) → segments_in im segs → segments_in im' segs) as Hsegs.
  { intros im im' Hi Hs id b Hb'. destruct (Hs _ _ Hb') as (name & tail & Hn & Him & Hl). exists name, tail. eauto. }
  split; eauto.
  - destruct C1 as (C1 & Ht & Hl). split; eauto.
  - exists tornd. destruct C2 as (C2 & Ht & Hl). split; eauto.
Qed.
Lemma holds_link v header segs cs csd torn : holds v header segs cs csd torn →
  holds (λ n, (λ x, (x.1, true)) <$> v n) header segs cs csd torn.
Proof.
  apply holds_mono; intros n b; unfold vol, dur; destruct (v n) as [[st linked]|]; cbn; [done..| |done]. by destruct linked.
Qed.
(** The segments have grown. *)
Lemma holds_grow v header segs cs csd torn id name st bytes tail taild : holds v header segs cs csd torn →
  segment_name id = Ok name → v name = Some (st, true) → fst_volatile st = bytes ++ tail → fst_durable st = bytes ++ taild →
  zlen (bytes ++ tail) ≤ JOURNAL_SEGMENT_LIMIT → zlen (bytes ++ taild) ≤ JOURNAL_SEGMENT_LIMIT →
  holds v header (<[id := bytes]> segs) cs csd torn.
Proof.
  intros [F1 F2 S1 S2 Hh C1 C2 Hb] Hn Hv Hvol Hdur Hl1 Hl2. split; try done; intros id' b'; rewrite lookup_insert_Some; intros [[<- <-]|[_ Hb']]; eauto.
  - exists name, tail. split_and!; [done| |done]. unfold vol. by rewrite Hv, <-Hvol.
  - exists name, taild. split_and!; [done| |done]. unfold dur. by rewrite Hv, <-Hdur.
Qed.
(** A new state of the certificate file. *)
Lemma holds_certificates v header segs cs csd torn st linked st' cs' csd' torn' :
  holds v header segs cs csd torn → v (entry "CERTIFICATES") = Some (st, linked) →
  fst_volatile st' = header ++ concat cs' ++ torn' → zlen torn' < SMALL_ENVELOPE_BYTES →
  zlen (header ++ concat cs' ++ torn') ≤ CERTIFICATE_LOG_LIMIT →
  fst_durable st' = fst_durable st ∧ csd' = csd ∨ fst_durable st' = fst_volatile st' ∧ csd' = cs' →
  behind cs' csd' →
  holds (<[entry "CERTIFICATES" := Some (st', linked)]> v) header segs cs' csd' torn'.
Proof.
  intros [F1 F2 S1 S2 Hh C1 (tornd & C2) Hb] Hv Hvol Ht Hlim Hdur Hb'.
  destruct C2 as (C2 & Ht2 & Hlim2). destruct (dur_linked _ _ _ _ _ Hv C2) as [-> Hst].
  assert (∀ id name, is_Some (segs !! id) → segment_name id = Ok name → name ≠ entry "CERTIFICATES") as Hseg.
  { intros id name _ Hn. by eapply segment_name_other. }
  split; try done.
  - apply (segments_in_ext (vol v)); [|exact S1]. intros id name Hi Hn. rewrite vol_insert, decide_False; [done|by eapply Hseg].
  - apply (segments_in_ext (dur v)); [|exact S2]. intros id name Hi Hn. rewrite dur_insert, decide_False; [done|by eapply Hseg].
  - unfold certificates_in. rewrite vol_insert, decide_True, Hvol by done. done.
  - unfold certificates_in. rewrite dur_insert, decide_True by done. destruct Hdur as [[Hd ->]|[Hd ->]].
    + exists tornd. by rewrite Hd, Hst.
    + exists torn'. by rewrite Hd, Hvol.
Qed.
(** A new state of a file that is a segment's or none the store knows. *)
Lemma holds_segment v header segs cs csd torn id name x st' : 
  holds v header segs cs csd torn → segment_name id = Ok name → v name = x →
  match segs !! id with
  | Some bytes => ∃ st linked, x = Some (st, linked) ∧ st'.2 = linked
      ∧ (∃ tail, fst_volatile st'.1 = bytes ++ tail ∧ zlen (bytes ++ tail) ≤ JOURNAL_SEGMENT_LIMIT)
      ∧ (∃ tail, fst_durable st'.1 = bytes ++ tail ∧ zlen (bytes ++ tail) ≤ JOURNAL_SEGMENT_LIMIT)
  | None => True
  end →
  holds (<[name := Some st']> v) header segs cs csd torn.
Proof.
  intros [F1 F2 S1 S2 Hh C1 (tornd & C2) Hb] Hn Hx Hst. destruct st' as [st' linked'].
  assert (∀ s, head (lit s) ≠ head (lit "j-") → entry s ≠ name) as Hother by (intros s Hs Heq; by apply (segment_name_other id name s)).
  assert (∀ s, s ∈ ["KEY"; "MANIFEST"; "LOCK"]%string → entry s ≠ name) as Hfixed.
  { intros s Hs. apply Hother. set_unfold in Hs. by destruct Hs as [->|[->|[->|[]]]]. }
  assert (entry "CERTIFICATES" ≠ name) as Hcert by (by apply Hother).
  split; try done.
  - apply (fixed_in_ext (vol v)); [|exact F1]. intros s Hs. rewrite vol_insert, decide_False; [done|by apply Hfixed].
  - apply (fixed_in_ext (dur v)); [|exact F2]. intros s Hs. rewrite dur_insert, decide_False; [done|by apply Hfixed].
  - intros id' b Hb'. destruct (decide (id' = id)) as [->|Hne].
    + rewrite Hb' in Hst. destruct Hst as (st & linked & _ & _ & (tail & Htail & Hlim) & _). exists name, tail.
      split_and!; [done| |done]. rewrite vol_insert, decide_True by done. by rewrite <-Htail.
    + destruct (S1 _ _ Hb') as (name' & tail & Hn' & Him & Hlim). exists name', tail. split_and!; [done| |done].
      rewrite vol_insert, decide_False; [done|]. intros ->. apply Hne. by eapply segment_name_inj.
  - intros id' b Hb'. destruct (decide (id' = id)) as [->|Hne].
    + rewrite Hb' in Hst. destruct Hst as (st & linked & Hxs & Hlk & _ & (tail & Htail & Hlim)). exists name, tail.
      cbn in Hlk. split_and!; [done| |done]. rewrite dur_insert, decide_True by done.
      destruct (S2 _ _ Hb') as (name' & tail' & Hn' & Him & _). rewrite Hn in Hn'. injection Hn' as <-.
      rewrite Hxs in Hx. destruct (dur_linked _ _ _ _ _ Hx Him) as [-> _]. subst linked'. by rewrite <-Htail.
    + destruct (S2 _ _ Hb') as (name' & tail & Hn' & Him & Hlim). exists name', tail. split_and!; [done| |done].
      rewrite dur_insert, decide_False; [done|]. intros ->. apply Hne. by eapply segment_name_inj.
  - apply (certificates_in_ext (vol v)); [|exact C1]. by rewrite vol_insert, decide_False.
  - exists tornd. apply (certificates_in_ext (dur v)); [|exact C2]. by rewrite dur_insert, decide_False.
Qed.
(** A restart keeps the durable certificates. *)
Lemma holds_restart v v' header segs cs csd torn :
  (∀ n, v' n = match v n with Some (st, true) => Some (restart_file st, true) | _ => None end) →
  holds v header segs cs csd torn → ∃ tornd, holds v' header segs csd csd tornd.
Proof.
  intros He [F1 F2 S1 S2 Hh C1 (tornd & C2) Hb]. exists tornd.
  assert (∀ n, vol v' n = dur v n) as Hv by (intros n; unfold vol, dur; rewrite He; by destruct (v n) as [[? []]|]).
  assert (∀ n, dur v' n = dur v n) as Hd by (intros n; unfold dur; rewrite He; by destruct (v n) as [[? []]|]).
  split; try done.
  - by apply (fixed_in_ext (dur v)).
  - by apply (fixed_in_ext (dur v)).
  - by apply (segments_in_ext (dur v)).
  - by apply (segments_in_ext (dur v)).
  - by apply (certificates_in_ext (dur v)).
  - exists tornd. by apply (certificates_in_ext (dur v)).
  - by left.
Qed.
End images.
