(* ===== verification/StoreScan.v ===== *)
(** * The recovery scan reads the recorded log *)
From stdpp Require Import functions.
From S2P Require Import Prelude Ids Policy Storage Blob Journal Envelope FileSystem MemoryFs FileSystemFacts JournalFormat JournalStore JournalRecovery StoreDisk StoreCalls StoreLog.
Import StorageError.

Section scan.
Context {F W E : Type} `{AeadLaws, HostedFileSystem F, !EntropySource E}.
Context (sha256 : list byte → list byte) (fuel pending : nat) (root_ok : MemoryDirectoryState → Prop) (d : Z) (manifest : Manifest) (key : list byte).
Context (fuel_ok : MAX_PLAINTEXT_BYTES + SMALL_ENVELOPE_BYTES + Z.of_nat pending < Z.of_nat fuel).
Context (vault : KeyVault W E) (vault_key : holds_key manifest key vault).
Context {A : Type} (visitor : A → RecoveredGroup → option (result StorageError A)) (invoke : bool).
Context (directory : Directory (F := F)) (certificate_file : File (F := F)).
Abbreviation database := (mn_database manifest).
Abbreviation epoch := (mn_epoch manifest).
Abbreviation writer := (mn_writer manifest).
Abbreviation disk := (disk pending root_ok d).
Abbreviation has := (has d).
Abbreviation later := (later d).
Abbreviation sealed := (sealed key).
Abbreviation certified := (certified sha256 manifest key).
Abbreviation recorded := (recorded sha256 manifest key).
Implicit Types (fs : F) (v : View).

(** What the visitor makes of a log. *)
Definition visited (log : list RecoveredGroup) (a : A) : option (result StorageError A) :=
  if invoke then visit_all visitor log a else Some (Ok a).
Definition anchors_of (log : list RecoveredGroup) : gmap CommitRevision (list byte) :=
  foldl (λ anchors g, <[rg_revision g := rg_certificate_digest g]> anchors) ∅ log.
(** Where the scan is, with [k] bounding the number of tails. *)
Record placed fs (segs : gmap (list byte) (list byte)) (seg : list byte) (k : Z) (s : ScanState (F := F)) : Prop := mk_placed {
  pl_segment : sc_segment_id s = seg;
  pl_file : ∃ name, segment_name seg = Ok name ∧ has fs name (sc_segment_file s);
  pl_offset : ∃ bytes, segs !! seg = Some bytes ∧ sc_segment_offset s = zlen bytes;
  pl_tails : Forall (λ t, (∃ bytes, segs !! sg_segment_id t = Some bytes ∧ sg_committed_end t = zlen bytes)
    ∧ sg_segment_id t ≠ seg ∧ 0 ≤ sg_extra_bytes t ≤ JOURNAL_SEGMENT_LIMIT) (sc_tails s);
  pl_few_tails : zlen (sc_tails s) ≤ k
}.
(** What it has read. *)
Definition tally (log : list RecoveredGroup) (prev : list byte) (s : ScanState (F := F)) : Prop :=
  sc_frontier s = log_frontier log ∧ sc_previous_digest s = prev ∧ sc_anchors s = anchors_of log
  ∧ sc_inventories s = ∅ ∧ sc_blobs s = ∅ ∧ sc_blob_bytes s = ∅ ∧ sc_bindings s = 0 ∧ sc_verified s = ∅.
Lemma placed_later fs fs' segs seg k s : later fs fs' → placed fs segs seg k s → placed fs' segs seg k s.
Proof.
  intros Hl [? (name & Hn & Hf) ? ? ?]. split; try done. exists name. split; [done|]. by eapply has_later.
Qed.

(** ** One file at a time *)
Lemma read_small conv file name st linked v (n : Z) Q fs (P : Prop) : disk fs v → has fs name file → v name = Some (st, linked) →
  0 ≤ n → n + SMALL_ENVELOPE_BYTES ≤ zlen (fst_volatile st) →
  (∀ fs', disk fs' v → later fs fs' → Q fs' (Ok (slice (Z.to_nat n) (Z.to_nat SMALL_ENVELOPE_BYTES) (fst_volatile st)))) →
  (∀ fs' e, may_fail → disk fs' v → later fs fs' → Q fs' (Err e)) →
  wp P (on_loop conv (read_exact_at fuel file n SMALL_ENVELOPE_BYTES)) Q fs.
Proof.
  intros Hd Hf Hv Hn Hl HOk HErr. unfold SMALL_ENVELOPE_BYTES, MAX_PLAINTEXT_BYTES, U64_MAX in *.
  eapply wp_read; [done|done|done|lia|lia|lia|lia|done|done|intros; by apply HErr].
Qed.
Lemma wp_uncommitted_tail (P : Prop) file seg name bytes tail v tails Q fs : disk fs v → has fs name file →
  vol v name = Some (bytes ++ tail) → zlen (bytes ++ tail) ≤ JOURNAL_SEGMENT_LIMIT →
  (∀ fs' tails', disk fs' v → later fs fs' →
     tails' = tails ∨ tails' = tails ++ [mk_segment_tail seg (zlen bytes) (zlen tail)] →
     Q fs' (Ok tails')) →
  (∀ fs' e, may_fail → disk fs' v → later fs fs' → Q fs' (Err e)) →
  wp P (record_uncommitted_tail file seg (zlen bytes) tails) Q fs.
Proof.
  intros Hd Hf Hv Hl HOk HErr. unfold vol in Hv. destruct (v name) as [[st linked]|] eqn:Hn; [|done]. injection Hv as Hst.
  unfold record_uncommitted_tail. apply wp_bind. eapply wp_metadata; [done..| |].
  2: { intros fs' e Hm Hd' Hl'. by apply HErr. }
  intros fs' Hd' Hl'. cbn. rewrite Hst. pose proof (zlen_nonneg tail). rewrite zlen_app in *.
  rewrite (proj2 (Z.ltb_ge _ _)), (proj2 (Z.ltb_ge _ _)) by lia. cbn [orb].
  destruct (Z.ltb_spec (zlen bytes) (zlen bytes + zlen tail)); apply wp_ret; apply HOk; auto.
  right. by replace (zlen bytes + zlen tail - zlen bytes) with (zlen tail) by lia.
Qed.
Lemma wp_segment_header (P : Prop) file name seg prev first header rest v Q fs : disk fs v → has fs name file →
  vol v name = Some (header ++ rest) → zlen (header ++ rest) ≤ JOURNAL_SEGMENT_LIMIT →
  segment_header manifest key seg prev first header →
  (∀ fs', disk fs' v → later fs fs' → Q fs' (Ok (mk_segment_header database seg writer prev first))) →
  (∀ fs' e, may_fail → disk fs' v → later fs fs' → Q fs' (Err e)) →
  wp P (verify_segment_header fuel vault file database epoch seg writer) Q fs.
Proof.
  intros Hd Hf Hv Hlim [Hok (e & Hdec & Hplain) Hsm] HOk HErr. unfold vol in Hv.
  destruct (v name) as [[st linked]|] eqn:Hn; [|done]. injection Hv as Hst.
  assert (length header = Z.to_nat SMALL_ENVELOPE_BYTES) as Hhl by (unfold zlen in Hsm; lia).
  pose proof (zlen_nonneg rest). rewrite zlen_app, Hsm in Hlim. unfold verify_segment_header.
  apply wp_bind. eapply wp_metadata; [done..| |intros; by apply HErr].
  intros fs1 Hd1 Hl1. cbn. rewrite Hst, zlen_app, Hsm. rewrite (proj2 (Z.leb_le _ _)), (proj2 (Z.leb_le _ _)) by lia. cbn [andb negb].
  apply wp_bind. eapply (read_small _ _ _ _ _ _ 0); [done|by eapply has_later|done|done|rewrite Hst, zlen_app, Hsm; lia| |].
  2: { intros fs2 e2 Hm Hd2 Hl2. apply HErr; [done..|by etrans]. }
  intros fs2 Hd2 Hl2. cbn beta iota. rewrite Hst. change (Z.to_nat 0) with 0%nat. rewrite slice_app_here by done.
  apply wp_bind. apply wp_lift. rewrite Hdec. cbn [map_err]. apply wp_bind. apply wp_lift.
  rewrite (holds_key_decrypt manifest key) by done. rewrite Hplain. cbn [map_err]. apply wp_bind. apply wp_lift.
  rewrite segment_header_decode_complete by done. cbn. rewrite !bool_decide_true by done. cbn [negb orb]. apply wp_ret.
  apply HOk; [done|by etrans].
Qed.
(** The group of a certificate. *)
Lemma wp_scan_group (P : Prop) n prev seg bytes group c g tail name s v Q fs : disk fs v → has fs name (sc_segment_file s) →
  vol v name = Some ((bytes ++ group) ++ tail) → zlen ((bytes ++ group) ++ tail) ≤ JOURNAL_SEGMENT_LIMIT →
  certified n prev seg (zlen bytes) group c g → sc_segment_id s = seg → sc_segment_offset s = zlen bytes →
  (∀ fs', disk fs' v → later fs fs' → Q fs' (Ok (rg_encoded_group g, zlen (bytes ++ group)))) →
  (∀ fs' e, may_fail → disk fs' v → later fs fs' → Q fs' (Err e)) →
  wp P (scan_group sha256 fuel vault manifest epoch writer n (certificate_of sha256 n prev seg (zlen bytes) group (rg_logical_event_digest g)) s) Q fs.
Proof.
  intros Hd Hf Hv Hlim Hc Hseg Hoff HOk HErr. unfold vol in Hv.
  destruct (v name) as [[st linked]|] eqn:Hn; [|done]. injection Hv as Hst. destruct Hc as [_ _ _ _ (e & Hdec & Hplain) Hmax Hlen _ _].
  unfold scan_group, certificate_of. cbn [ct_group_sequence ct_group_offset ct_group_length ct_group_digest].
  rewrite Hoff, !Z.eqb_refl. cbn [negb orb]. apply wp_bind, wp_lift. rewrite Hlen.
  assert (SMALL_ENVELOPE_BYTES ≤ zlen group ≤ MAX_PLAINTEXT_BYTES + SMALL_ENVELOPE_BYTES) as Hgl.
  { revert Hlen. unfold validate_group_encoded_length. change (checked_add MAX_PLAINTEXT_BYTES SMALL_ENVELOPE_BYTES) with (Some (MAX_PLAINTEXT_BYTES + SMALL_ENVELOPE_BYTES)).
    cbn [ok_or]. rewrite result_bind_Ok. destruct (_ || _) eqn:Hb; [done|]. rewrite !orb_false_iff, !Z.ltb_ge in Hb. lia. }
  pose proof (zlen_nonneg tail). pose proof (zlen_nonneg bytes). rewrite !zlen_app in Hlim. apply wp_bind, wp_lift.
  assert (zlen bytes + zlen group ≤ U64_MAX) as Hu by (unfold JOURNAL_SEGMENT_LIMIT, U64_MAX in *; lia).
  unfold checked_add. rewrite (proj2 (Z.leb_le _ _)) by done. cbn [ok_or]. rewrite (proj2 (Z.ltb_ge _ _)) by lia.
  apply wp_bind. eapply wp_metadata; [done..| |intros; by apply HErr]. intros fs1 Hd1 Hl1. cbn beta iota.
  rewrite Hst, !zlen_app, (proj2 (Z.ltb_ge _ _)) by lia. apply wp_bind.
  unfold MAX_PLAINTEXT_BYTES, SMALL_ENVELOPE_BYTES, U64_MAX in *.
  eapply wp_read; [done|by eapply has_later|done|lia|lia|rewrite Hst, !zlen_app; lia|lia|unfold U64_MAX; lia| |].
  2: { intros fs2 e2 Hm Hd2 Hl2. apply HErr; [done..|by etrans]. }
  intros fs2 Hd2 Hl2. cbn beta iota. rewrite Hst.
  assert (slice (Z.to_nat (zlen bytes)) (Z.to_nat (zlen group)) ((bytes ++ group) ++ tail) = group) as ->.
  { unfold zlen. rewrite !Nat2Z.id, <-app_assoc, (slice_app_skip bytes (length bytes)), Nat.sub_diag by done. by apply slice_app_here. }
  rewrite bool_decide_true by done. cbn [negb]. apply wp_bind, wp_lift. rewrite Hdec. cbn [map_err].
  apply wp_bind, wp_lift. rewrite Hseg, (holds_key_decrypt manifest key) by done. rewrite Hplain. cbn [map_err].
  rewrite (proj2 (Z.ltb_ge _ _)) by lia. apply wp_ret. rewrite zlen_app in HOk. apply HOk; [done|by etrans].
Qed.
(** ** One certificate *)
Lemma wp_enter_segment (P : Prop) n segs seg k next header rest name cert s v Q fs : disk fs v → in_dir d fs directory →
  segments_in (vol v) segs → placed fs segs seg k s → segs !! next = None →
  segment_name next = Ok name → vol v name = Some (header ++ rest) → zlen (header ++ rest) ≤ JOURNAL_SEGMENT_LIMIT →
  segment_header manifest key next seg n header → ct_segment_id cert = next →
  (∀ fs' s', disk fs' v → later fs fs' → placed fs' (<[next := header]> segs) next (k + 1) s' →
     (∀ log prev, tally log prev s → tally log prev s') → Q fs' (Ok s')) →
  (∀ fs' e, may_fail → disk fs' v → later fs fs' → Q fs' (Err e)) →
  wp P (enter_segment fuel vault directory manifest epoch writer n cert s) Q fs.
Proof.
  intros Hd Hin Hsegs [Hseg (name0 & Hname0 & Hfile) (bytes & Hb & Hoff) Htails Hfew] Hnew Hname Hv Hlim Hhd Hcert HOk HErr.
  assert (next ≠ seg) as Hne by congruence. destruct (Hsegs _ _ Hb) as (name0' & tail & Hname0' & Hv0 & Hlim0).
  rewrite Hname0 in Hname0'. injection Hname0' as <-. unfold enter_segment. rewrite Hcert, Hseg, bool_decide_false by done.
  apply wp_bind. rewrite Hoff. eapply wp_uncommitted_tail; [done..| |intros; by apply HErr]. intros fs1 tails Hd1 Hl1 Ht. cbn beta iota.
  apply wp_bind, wp_lift. rewrite Hname. cbn beta iota. unfold vol in Hv. destruct (v name) as [x|] eqn:Hx; [|done].
  apply wp_bind. eapply wp_open_existing; [done|by eapply in_dir_later|done| |intros ??? ? ?; apply HErr; [done..|by etrans]].
  intros fs2 file Hd2 Hl2 Hfile2. cbn beta iota. apply wp_bind.
  eapply wp_segment_header; [done..|unfold vol; by rewrite Hx|done|done| |intros ??? ? ?; apply HErr; [done..|by do 2 etrans]].
  intros fs3 Hd3 Hl3. cbn beta iota. cbn [sh_previous_segment_id sh_first_revision]. rewrite bool_decide_true, Z.eqb_refl by done. cbn [negb orb].
  apply wp_ret, HOk; [done|by do 2 etrans| |done]. split; cbn.
  - done.
  - exists name. split; [done|by eapply has_later].
  - exists header. split; [by rewrite lookup_insert_eq|]. symmetry. apply Hhd.
  - assert (Forall (λ t, (∃ bytes0, <[next := header]> segs !! sg_segment_id t = Some bytes0 ∧ sg_committed_end t = zlen bytes0)
      ∧ sg_segment_id t ≠ next ∧ 0 ≤ sg_extra_bytes t ≤ JOURNAL_SEGMENT_LIMIT) (sc_tails s)) as Hold.
    { eapply Forall_impl; [exact Htails|]. cbn. intros t ((b & Htb & He) & Hts & Hx').
      assert (sg_segment_id t ≠ next) by congruence. split_and!; try done; [|lia..]. exists b. by rewrite lookup_insert_ne. }
    destruct Ht as [->| ->]; [done|]. rewrite Forall_app, Forall_singleton. cbn [sg_segment_id sg_committed_end sg_extra_bytes].
    split; [done|]. split; [exists bytes; by rewrite lookup_insert_ne|]. split; [done|]. rewrite zlen_app in Hlim0.
    pose proof (zlen_nonneg tail). pose proof (zlen_nonneg bytes). lia.
  - destruct Ht as [->| ->]; [lia|]. rewrite zlen_app. unfold zlen at 2. cbn. lia.
Qed.
(** The segments before and after a commit, and the one it is in. *)
Definition extends (segs : gmap (list byte) (list byte)) (seg : list byte) (n : Z) (bytes group : list byte)
    (segs' : gmap (list byte) (list byte)) (seg' : list byte) : Prop :=
  segs' = <[seg' := bytes ++ group]> segs ∧
  (seg' = seg ∧ segs !! seg = Some bytes ∨ segs !! seg' = None ∧ segment_header manifest key seg' seg n bytes).
Definition visit_one (a : A) (g : RecoveredGroup) : option (result StorageError A) := if invoke then visitor a g else Some (Ok a).
Definition certificate_at v (n : Z) (c : list byte) : Prop :=
  ∃ st linked, v (entry "CERTIFICATES") = Some (st, linked) ∧ SMALL_ENVELOPE_BYTES * (n + 1) ≤ zlen (fst_volatile st)
    ∧ slice (Z.to_nat (SMALL_ENVELOPE_BYTES * n)) (Z.to_nat SMALL_ENVELOPE_BYTES) (fst_volatile st) = c.
Lemma wp_certificate (P : Prop) n prev seg offset group c g v Q fs : disk fs v → has fs (entry "CERTIFICATES") certificate_file →
  certified n prev seg offset group c g → 0 < n → certificate_at v n c →
  (∀ fs', disk fs' v → later fs fs' →
     Q fs' (Ok (n, c, certificate_of sha256 n prev seg offset group (rg_logical_event_digest g)))) →
  (∀ fs' e, may_fail → disk fs' v → later fs fs' → Q fs' (Err e)) →
  wp P (scan_certificate fuel vault certificate_file manifest epoch writer n) Q fs.
Proof.
  intros Hd Hf Hc Hn (st & linked & Hv & Hlen & Hsl) HOk HErr. pose proof (cf_place _ _ _ _ _ _ _ _ _ _ Hc) as Hplace.
  assert (SMALL_ENVELOPE_BYTES * (n + 1) ≤ U64_MAX) as Hu by (unfold CERTIFICATE_LOG_LIMIT, U64_MAX in *; lia).
  unfold scan_certificate, checked_mul. apply wp_bind, wp_lift. unfold CommitRevision_new. rewrite (proj2 (Z.eqb_neq _ _)) by lia. cbn [map_err].
  unfold SMALL_ENVELOPE_BYTES in *. apply wp_bind, wp_lift.
  rewrite (proj2 (Z.leb_le _ _)) by lia. cbn [ok_or]. apply wp_bind, wp_lift. unfold checked_add. rewrite (proj2 (Z.leb_le _ _)) by lia.
  cbn [ok_or]. apply wp_bind. unfold read_bounded.
  eapply (read_small _ _ _ _ _ _ (4161 + (n - 1) * 4161)); [done..|lia|unfold SMALL_ENVELOPE_BYTES; lia| |intros; by apply HErr].
  intros fs1 Hd1 Hl1. cbn beta iota. replace (4161 + (n - 1) * 4161) with (4161 * n) by lia.
  fold SMALL_ENVELOPE_BYTES in *. change 4161 with SMALL_ENVELOPE_BYTES. rewrite Hsl. apply wp_bind, wp_lift. unfold decode_certificate.
  erewrite (sealed_opens manifest key); [|done|done|exact (cf_sealed _ _ _ _ _ _ _ _ _ _ Hc)].
  rewrite certificate_decode_complete by apply Hc. apply wp_ret. by apply HOk.
Qed.
Lemma wp_scan_commit (P : Prop) segs log seg prev k bytes group c g name tail s a v Q fs :
  disk fs v → segment_name seg = Ok name → vol v name = Some ((bytes ++ group) ++ tail) →
  zlen ((bytes ++ group) ++ tail) ≤ JOURNAL_SEGMENT_LIMIT → certified (zlen log + 1) prev seg (zlen bytes) group c g →
  placed fs (<[seg := bytes]> segs) seg k s → tally log prev s → (visit_one a g = None → P) →
  (∀ fs' s' a', visit_one a g = Some (Ok a') → disk fs' v → later fs fs' → placed fs' (<[seg := bytes ++ group]> segs) seg k s' →
     tally (log ++ [g]) (sha256 c) s' → Q fs' (Ok (s', a'))) →
  (∀ fs' e, may_fail ∨ visit_one a g = Some (Err e) → disk fs' v → later fs fs' → Q fs' (Err e)) →
  wp P (scan_commit sha256 fuel visitor vault directory manifest epoch writer ∅ invoke (zlen log + 1) (zlen log + 1) c
          (certificate_of sha256 (zlen log + 1) prev seg (zlen bytes) group (rg_logical_event_digest g)) s a) Q fs.
Proof.
  intros Hd Hname Hv Hlim Hc [Hseg (name2 & Hname2 & Hfile) (bytes2 & Hb2 & Hoff) Htails Hfew] Htl HP HOk HErr.
  rewrite lookup_insert_eq in Hb2. injection Hb2 as <-. rewrite Hname in Hname2. injection Hname2 as <-. unfold scan_commit.
  apply wp_bind. eapply wp_scan_group; [done..| |intros ??? ? ?; apply HErr; [by left|done..]].
  intros fs1 Hd1 Hl1. cbn beta iota. apply wp_bind. unfold scan_inventory. cbn [ct_blob_inventory_digest ct_logical_event_digest certificate_of].
  rewrite bool_decide_true by done. apply wp_ret. cbn beta iota. apply wp_bind.
  assert (mk_recovered_group (zlen log + 1) (sha256 c) (rg_encoded_group g) EMPTY_BLOB_INVENTORY_DIGEST None (rg_logical_event_digest g) = g)
    as -> by (symmetry; apply Hc).
  assert (∀ a', visit_one a g = Some (Ok a') → Q fs1 (Ok (mk_scan (sc_segment_id s) (sc_segment_file s) (zlen (bytes ++ group))
    (Some (zlen log + 1)) (sha256 c) (<[zlen log + 1 := sha256 c]> (sc_anchors s)) (sc_inventories s) (sc_blobs s) (sc_blob_bytes s)
    (sc_bindings s) (sc_verified s) (sc_tails s), a'))) as Hend.
  { intros a' Ha. destruct Htl as (_ & _ & Hanch & Hbl). apply HOk; [done..| |].
    - split; cbn; [done|exists name; split; [done|by eapply has_later]|exists (bytes ++ group); by rewrite lookup_insert_eq| |done].
      eapply Forall_impl; [exact Htails|]. cbn. intros t ((b & Htb & He) & Hts & Hx). split_and!; try done; [|lia..].
      exists b. rewrite lookup_insert_ne in * by done. done.
    - split; [|split; [done|split; [|done]]]; cbn.
      + unfold log_frontier. rewrite last_snoc. cbn. by rewrite (certified_revision _ _ _ _ _ _ _ _ _ _ Hc).
      + unfold anchors_of in *. rewrite foldl_snoc, <-Hanch. by rewrite (cf_group _ _ _ _ _ _ _ _ _ _ Hc). }
  unfold visit_one in *. unfold wp at 1, visit_group. destruct invoke; [|by apply Hend].
  destruct (visitor a g) as [[a'|e]|]; cbn; [by apply Hend|apply HErr; [by right|done..]|by apply HP].
Qed.
Lemma wp_scan_step (P : Prop) segs log seg prev k segs' seg' bytes group c g s a v Q fs :
  disk fs v → in_dir d fs directory → has fs (entry "CERTIFICATES") certificate_file → segments_in (vol v) segs' →
  extends segs seg (zlen log + 1) bytes group segs' seg' → certified (zlen log + 1) prev seg' (zlen bytes) group c g →
  certificate_at v (zlen log + 1) c → placed fs segs seg k s → tally log prev s →
  (visit_one a g = None → P) →
  (∀ fs' s' a', visit_one a g = Some (Ok a') → disk fs' v → later fs fs' → placed fs' segs' seg' (k + 1) s' →
     tally (log ++ [g]) (sha256 c) s' → Q fs' (Ok (s', a'))) →
  (∀ fs' e, may_fail ∨ visit_one a g = Some (Err e) → disk fs' v → later fs fs' → Q fs' (Err e)) →
  wp P (scan_step sha256 fuel visitor vault directory certificate_file manifest epoch writer ∅ invoke (s, a) (zlen log + 1)) Q fs.
Proof.
  intros Hd Hin Hcf Hsegs [-> Hext] Hc Hat Hpl Htl HP HOk HErr. pose proof (zlen_nonneg log) as Hn. unfold scan_step.
  apply wp_bind. eapply wp_certificate; [done..|lia|done| |intros ??? ? ?; by apply HErr; [left|..]].
  intros fs1 Hd1 Hl1. cbn beta iota. cbn [ct_revision ct_previous_digest certificate_of]. pose proof Htl as (_ & Hprev & _).
  rewrite Z.eqb_refl, Hprev, bool_decide_true by done. cbn [negb orb]. apply wp_bind.
  destruct (Hsegs seg' (bytes ++ group)) as (name & tail & Hname & Hv & Hlim); [by rewrite lookup_insert_eq|].
  assert (∀ fs2 s2, disk fs2 v → later fs fs2 → placed fs2 (<[seg' := bytes]> segs) seg' (k + 1) s2 → tally log prev s2 →
    wp P (scan_commit sha256 fuel visitor vault directory manifest epoch writer ∅ invoke (zlen log + 1) (zlen log + 1) c
          (certificate_of sha256 (zlen log + 1) prev seg' (zlen bytes) group (rg_logical_event_digest g)) s2 a) Q fs2) as Hrest.
  { intros fs2 s2 Hd2 Hl2 Hpl2 Htl2. eapply wp_scan_commit; [done..| |].
    - intros ???? ? ?. apply HOk; [done..|by etrans].
    - intros ??? ? ?. apply HErr; [done..|by etrans]. }
  destruct Hext as [[-> Hb]|[Hnew Hhd]].
  - unfold enter_segment. cbn [ct_segment_id certificate_of]. rewrite bool_decide_true by (symmetry; apply Hpl). apply wp_ret. cbn beta iota.
    eapply Hrest; [done|done| |done]. rewrite insert_id by done. destruct (placed_later _ fs1 _ _ _ _ Hl1 Hpl). split; try done. lia.
  - eapply (wp_enter_segment _ _ segs seg k seg' bytes (group ++ tail) name);
      [done|by eapply in_dir_later| |by eapply placed_later|done|done|by rewrite app_assoc|by rewrite app_assoc|done|done| |].
    + eapply segments_below; [|done]. by apply below_new.
    + intros fs2 s2 Hd2 Hl2 Hpl2 Hkeep. cbn beta iota. eapply Hrest; [done|by etrans|done|by apply Hkeep].
    + intros ??? ? ?. apply HErr; [by left|done|by etrans].
Qed.

(** ** All certificates *)
Lemma visited_snoc log g a : visited (log ++ [g]) a =
  match visited log a with Some (Ok a') => visit_one a' g | r => r end.
Proof.
  unfold visited, visit_one. destruct invoke; [|done]. rewrite visit_all_app. destruct (visit_all visitor log a) as [[a'|e]|]; [|done..].
  cbn. by destruct (visitor a' g) as [[]|].
Qed.
Definition scan_start (file : File (F := F)) : ScanState (F := F) :=
  mk_scan (mn_initial_segment_id manifest) file SMALL_ENVELOPE_BYTES None (zeros 32) ∅ ∅ ∅ ∅ 0 ∅ [].
Lemma recorded_extends segs cs c log g seg prev : recorded segs (cs ++ [c]) (log ++ [g]) seg prev →
  ∃ segs0 seg0 prev0 bytes group, recorded segs0 cs log seg0 prev0 ∧ extends segs0 seg0 (zlen log + 1) bytes group segs seg
    ∧ certified (zlen log + 1) prev0 seg (zlen bytes) group c g ∧ prev = sha256 c ∧ below segs0 segs.
Proof.
  inversion 1 as [?|? cs' ? ? ? ? ? c' ? Hr Hs Hc|? cs' ? ? ? ? ? ? c' ? Hr Hs Hh Hc]; subst; [by destruct cs|..].
  all: repeat match goal with E : _ ++ [_] = _ ++ [_] |- _ => apply app_inj_tail in E as [-> ->] end.
  - do 5 eexists. split_and!; [exact Hr|split; [done|by left]|done|done|by apply below_grow].
  - do 5 eexists. split_and!; [exact Hr|split; [done|by right]|done|done|by apply below_new].
Qed.
Lemma wp_scan_fold (P : Prop) cs : ∀ segs log seg prev v file name a Q fs, recorded segs cs log seg prev →
  disk fs v → in_dir d fs directory → has fs (entry "CERTIFICATES") certificate_file →
  segment_name (mn_initial_segment_id manifest) = Ok name → has fs name file →
  segments_in (vol v) segs → (∀ i c, cs !! i = Some c → certificate_at v (Z.of_nat i + 1) c) →
  (visited log a = None → P) →
  (∀ fs' s a', visited log a = Some (Ok a') → disk fs' v → later fs fs' → placed fs' segs seg (zlen log) s →
     tally log prev s → Q fs' (Ok (s, a'))) →
  (∀ fs' e, may_fail ∨ visited log a = Some (Err e) → disk fs' v → later fs fs' → Q fs' (Err e)) →
  wp P (eff_fold (scan_step sha256 fuel visitor vault directory certificate_file manifest epoch writer ∅ invoke)
          (seqZ 1 (zlen cs)) (scan_start file, a)) Q fs.
Proof.
  induction cs as [|c cs IH] using rev_ind; intros segs log seg prev v file name a Q fs Hrec Hd Hin Hcf Hname Hfile Hsegs Hcs HP HOk HErr.
  - inversion Hrec as [header Hh| |]; subst; [|by destruct cs..]. cbn. apply wp_ret. unfold visited in *. cbn in *.
    assert ((if invoke then Some (Ok a) else Some (Ok a)) = Some (Ok (E := StorageError) a)) as Hsame by (by destruct invoke).
    apply HOk; [done|done|done| |done]. split; cbn; [done|by exists name| |done|done].
    exists header. rewrite lookup_singleton_eq. split; [done|]. symmetry. apply Hh.
  - pose proof (recorded_log _ _ _ _ _ _ _ _ Hrec) as (_ & Hlen & _). destruct log as [|g log _] using rev_ind.
    { rewrite length_app in Hlen. cbn in Hlen. lia. }
    destruct (recorded_extends _ _ _ _ _ _ _ Hrec) as (segs0 & seg0 & prev0 & bytes & group & Hrec0 & Hext & Hc & -> & Hbelow).
    rewrite !length_app in Hlen. cbn in Hlen. assert (zlen cs = zlen log) as Hz by (unfold zlen; lia).
    rewrite zlen_app, Hz. change (zlen [c]) with 1. rewrite seqZ_app by (try lia; apply zlen_nonneg). change (seqZ (1 + zlen log) 1) with [1 + zlen log].
    unfold wp. rewrite eff_fold_app. fold (wp P (x ← eff_fold (scan_step sha256 fuel visitor vault directory certificate_file manifest epoch writer ∅ invoke)
       (seqZ 1 (zlen log)) (scan_start file, a); eff_fold (scan_step sha256 fuel visitor vault directory certificate_file manifest epoch writer ∅ invoke) [1 + zlen log] x) Q fs).
    apply wp_bind. rewrite <-Hz. eapply (IH segs0 log seg0 prev0 v file name); try done.
    + by eapply segments_below.
    + intros i c' Hi. apply Hcs. by apply lookup_app_l_Some.
    + intros Hv. apply HP. by rewrite visited_snoc, Hv.
    + intros fs1 s a1 Hv Hd1 Hl1 Hpl Htl. cbn [eff_fold]. rewrite visited_snoc, Hv in *. rewrite Hz, Z.add_comm. apply wp_bind.
      eapply (wp_scan_step _ segs0 log seg0 prev0); [done|by eapply in_dir_later|by eapply has_later|done|done|done| |done|done|done|..].
      * rewrite <-Hz. apply (Hcs (length cs)). by rewrite list_lookup_middle.
      * intros fs2 s2 a2 Hv2 Hd2 Hl2 Hpl2 Htl2. cbn beta iota. apply wp_ret. apply HOk; [done|done|by etrans| |done].
        by rewrite zlen_app.
      * intros ??? ? ?. apply HErr; [done..|by etrans].
    + intros fs1 e Hwhy Hd1 Hl1. apply HErr; [|done..]. destruct Hwhy as [?|Hv]; [by left|right]. by rewrite visited_snoc, Hv.
Qed.
(** The result of a whole scan. *)
Record scanned fs (segs : gmap (list byte) (list byte)) (log : list RecoveredGroup) (seg prev : list byte)
    (s : ScanState (F := F)) : Prop := mk_scanned {
  sn_segment : sc_segment_id s = seg;
  sn_file : ∃ name, segment_name seg = Ok name ∧ has fs name (sc_segment_file s);
  sn_offset : ∃ bytes, segs !! seg = Some bytes ∧ sc_segment_offset s = zlen bytes;
  sn_tally : tally log prev s;
  sn_tails : Forall (λ t, (∃ bytes, segs !! sg_segment_id t = Some bytes ∧ sg_committed_end t = zlen bytes)
    ∧ 0 ≤ sg_extra_bytes t ≤ JOURNAL_SEGMENT_LIMIT) (sc_tails s);
  sn_few_tails : zlen (sc_tails s) ≤ zlen log + 1
}.
Lemma wp_scan_certificates (P : Prop) segs cs log seg prev v file name a Q fs : recorded segs cs log seg prev →
  disk fs v → in_dir d fs directory → has fs (entry "CERTIFICATES") certificate_file →
  segment_name (mn_initial_segment_id manifest) = Ok name → has fs name file →
  segments_in (vol v) segs → (∀ i c, cs !! i = Some c → certificate_at v (Z.of_nat i + 1) c) →
  (visited log a = None → P) →
  (∀ fs' s a', visited log a = Some (Ok a') → disk fs' v → later fs fs' → scanned fs' segs log seg prev s → Q fs' (Ok (s, a'))) →
  (∀ fs' e, may_fail ∨ visited log a = Some (Err e) → disk fs' v → later fs fs' → Q fs' (Err e)) →
  wp P (scan_certificates sha256 fuel visitor vault directory certificate_file file manifest epoch writer (zlen cs) ∅ invoke a) Q fs.
Proof.
  intros Hrec Hd Hin Hcf Hname Hfile Hsegs Hcs HP HOk HErr. unfold scan_certificates. fold (scan_start file). apply wp_bind.
  eapply (wp_scan_fold _ cs); [done..| |done]. intros fs1 s a' Hv Hd1 Hl1 [Hseg (name1 & Hname1 & Hf1) (bytes & Hb & Hoff) Htails Hfew] Htl.
  cbn beta iota. destruct (Hsegs _ _ Hb) as (name1' & tail & Hname1' & Hv1 & Hlim). rewrite Hname1 in Hname1'. injection Hname1' as <-.
  apply wp_bind. rewrite Hoff. eapply wp_uncommitted_tail; [done..| |].
  2: { intros ??? ? ?. apply HErr; [by left|done|by etrans]. }
  intros fs2 tails Hd2 Hl2 Ht. cbn beta iota. apply wp_ret, HOk; [done|done|by etrans|]. split; cbn.
  - done.
  - exists name1. split; [done|]. by eapply has_later.
  - by exists bytes.
  - done.
  - assert (Forall (λ t, (∃ bytes, segs !! sg_segment_id t = Some bytes ∧ sg_committed_end t = zlen bytes)
      ∧ 0 ≤ sg_extra_bytes t ≤ JOURNAL_SEGMENT_LIMIT) (sc_tails s)) as Hold
      by (eapply Forall_impl; [exact Htails|]; naive_solver).
    destruct Ht as [->| ->]; [done|]. rewrite Forall_app, Forall_singleton. split; [done|]. cbn [sg_segment_id sg_committed_end sg_extra_bytes].
    split; [exists bytes; by rewrite Hseg|]. rewrite zlen_app in Hlim. pose proof (zlen_nonneg tail). pose proof (zlen_nonneg bytes). lia.
  - destruct Ht as [->| ->]; [lia|]. rewrite zlen_app. change (zlen [_]) with 1. lia.
Qed.
End scan.
