(* ===== verification/StoreOpen.v ===== *)
(** * Reopening a store

    [open] on the files of a recorded log reads exactly that log, makes every
    certificate it read durable, and cuts off what was never committed. *)
From stdpp Require Import functions.
From S2P Require Import Prelude Ids Policy Storage Blob Journal Envelope FileSystem MemoryFs FileSystemFacts JournalFormat JournalStore JournalRecovery StoreDisk StoreCalls StoreLog StoreScan.
Import StorageError.

Section open.
Context {F W E I K : Type} `{AeadLaws, HostedFileSystem F, !EntropySource E, !EntropySource I, DurableKeyEnvelope W, KeyAdapter K W}.
Context (sha256 : list byte → list byte) (fuel pending : nat) (final : EntryName) (d : Z) (manifest : Manifest) (key : list byte) (adapter : K).
Context (fuel_ok : MAX_PLAINTEXT_BYTES + SMALL_ENVELOPE_BYTES + Z.of_nat pending < Z.of_nat fuel).
Context (manifest_wf : manifest_ok manifest).
Abbreviation database := (mn_database manifest).
Abbreviation epoch := (mn_epoch manifest).
Abbreviation writer := (mn_writer manifest).
Abbreviation disk := (disk pending (named final d) d).
Abbreviation has := (has d).
Abbreviation later := (later d).
Abbreviation Handle := (JournalHandle (F := F) (W := W) (E := E) (I := I)).
Implicit Types (fs : F) (v : View) (j : Handle).

(** The adapter recovers the key from the key file. *)
Definition unwraps (wrapped : list byte) : Prop :=
  ∃ w, decode_durable wrapped = Ok w ∧ (adapter_unwrap adapter database w).2 = Ok key.
Abbreviation holds := (holds manifest key unwraps).
Abbreviation recorded := (recorded sha256 manifest key).

(** The open handle of a store that holds [segs] and [cs]. *)
Record owned fs v j (segs : gmap (list byte) (list byte)) (log : list RecoveredGroup) (seg prev : list byte) : Prop := mk_owned {
  ow_database : jh_database j = database;
  ow_epoch : jh_epoch j = epoch;
  ow_writer : jh_writer j = writer;
  ow_log_id : jh_certificate_log_id j = mn_certificate_log_id manifest;
  ow_directory : in_dir d fs (jh_directory j);
  ow_certificates : has fs (entry "CERTIFICATES") (jh_certificate_file j);
  ow_segment : jh_segment_id j = seg;
  ow_file : ∃ name, segment_name seg = Ok name ∧ has fs name (jh_segment_file j);
  ow_offset : ∃ bytes, segs !! seg = Some bytes ∧ jh_segment_offset j = zlen bytes;
  ow_frontier : jh_frontier j = log_frontier log;
  ow_previous : jh_previous_digest j = prev;
  ow_key : holds_key manifest key (jh_vault j);
  ow_guard : guard_held d fs v (jh_ownership j)
}.

(** ** The parts of [open] *)
Lemma vol_state v name b : vol v name = Some b → ∃ st linked, v name = Some (st, linked) ∧ fst_volatile st = b.
Proof. unfold vol. destruct (v name) as [[st linked]|]; [|done]. intros [= <-]. by exists st, linked. Qed.
Lemma wp_open_vault (P : Prop) directory vault_entropy v Q fs : disk fs v → in_dir d fs directory → fixed_in manifest key unwraps (vol v) →
  (∀ fs' (vault : KeyVault W E), disk fs' v → later fs fs' → holds_key manifest key vault → Q fs' (Ok vault)) →
  (∀ fs' e, may_fail → disk fs' v → later fs fs' → Q fs' (Err e)) →
  wp P (open_vault fuel directory database vault_entropy adapter) Q fs.
Proof.
  intros Hd Hin (wrapped & _ & Hk & Hkl & (w & Hdec & Hun) & _) HOk HErr. apply vol_state in Hk as (st & linked & Hv & Hst).
  unfold open_vault, open_required. apply wp_bind. eapply wp_open_existing; [done..| |intros; by apply HErr]. intros fs1 file Hd1 Hl1 Hf1. cbn beta iota.
  apply wp_bind. eapply wp_metadata; [done..| |intros ??? ? ?; apply HErr; [done..|by etrans]]. intros fs2 Hd2 Hl2. cbn beta iota.
  rewrite Hst, (proj2 (Z.eqb_neq _ _)), (proj2 (Z.ltb_ge _ _)) by lia. cbn [orb]. apply wp_bind.
  unfold MAX_KEY_ENVELOPE_BYTES, MAX_PLAINTEXT_BYTES, SMALL_ENVELOPE_BYTES in *.
  eapply wp_read; [done|by eapply has_later|done|lia|lia|rewrite Hst; lia|lia|unfold U64_MAX; lia| |intros ??? ? ?; apply HErr; [done..|by do 2 etrans]].
  intros fs3 Hd3 Hl3. cbn beta iota. change (Z.to_nat 0) with 0%nat. rewrite Hst. unfold zlen. rewrite Nat2Z.id, slice_all.
  apply wp_bind, wp_lift. rewrite Hdec. cbn [map_err]. unfold unlock. cbn [from_locked kv_key kv_database kv_wrapped].
  destruct (adapter_unwrap adapter database w) as [adapter' r]. cbn in Hun. subst r. apply wp_bind, wp_lift. cbn [map_err]. apply wp_ret.
  apply HOk; [done|by do 2 etrans|by split].
Qed.
Lemma wp_open_manifest (P : Prop) directory (vault : KeyVault W E) v Q fs : disk fs v → in_dir d fs directory →
  fixed_in manifest key unwraps (vol v) → holds_key manifest key vault →
  (∀ fs', disk fs' v → later fs fs' → Q fs' (Ok (manifest, epoch))) →
  (∀ fs' e, may_fail → disk fs' v → later fs fs' → Q fs' (Err e)) →
  wp P (open_manifest fuel directory database vault) Q fs.
Proof.
  intros Hd Hin (_ & bytes & _ & _ & _ & Hm & Hml & (e & Hdec & Hep & Hplain) & _) Hkey HOk HErr. apply vol_state in Hm as (st & linked & Hv & Hst).
  unfold open_manifest, open_required, require_exact_len. apply wp_bind. eapply wp_open_existing; [done..| |intros; by apply HErr].
  intros fs1 file Hd1 Hl1 Hf1. cbn beta iota. apply wp_bind, wp_bind.
  eapply wp_metadata; [done..| |intros ??? ? ?; apply HErr; [done..|by etrans]]. intros fs2 Hd2 Hl2. cbn beta iota.
  rewrite Hst, Hml, Z.eqb_refl. apply wp_ret. apply wp_bind.
  eapply (read_small fuel pending (named final d) d fuel_ok _ _ _ _ _ _ 0); [done|by eapply has_later|done|done|by rewrite Hst, Hml| |intros ??? ? ?; apply HErr; [done..|by do 2 etrans]].
  intros fs3 Hd3 Hl3. cbn beta iota. rewrite Hst, <-Hml. change (Z.to_nat 0) with 0%nat. unfold zlen. rewrite Nat2Z.id, slice_all.
  apply wp_bind, wp_lift. rewrite Hdec. cbn [map_err]. apply wp_bind, wp_lift. rewrite Hep, (holds_key_decrypt manifest key), Hplain by done.
  cbn [map_err]. apply wp_bind, wp_lift. rewrite manifest_decode_complete by done. rewrite bool_decide_true, Z.eqb_refl by done.
  cbn [negb orb]. apply wp_ret, HOk; [done|by do 2 etrans].
Qed.
Lemma wp_open_certificates (P : Prop) directory (vault : KeyVault W E) header cs torn v Q fs : disk fs v → in_dir d fs directory →
  certificates_in (vol v) header cs torn → log_header manifest key header → holds_key manifest key vault →
  (∀ fs' file, disk fs' v → later fs fs' → has fs' (entry "CERTIFICATES") file → Q fs' (Ok (file, zlen (header ++ concat cs ++ torn)))) →
  (∀ fs' e, may_fail → disk fs' v → later fs fs' → Q fs' (Err e)) →
  wp P (open_certificates fuel directory database vault manifest epoch) Q fs.
Proof.
  intros Hd Hin (Hc & _ & Hlim) [Hsealed Hhl] Hkey HOk HErr. apply vol_state in Hc as (st & linked & Hv & Hst).
  pose proof (zlen_nonneg (concat cs ++ torn)) as Hpos. unfold open_certificates, open_required. apply wp_bind.
  eapply wp_open_existing; [done..| |intros; by apply HErr]. intros fs1 file Hd1 Hl1 Hf1. cbn beta iota. apply wp_bind.
  eapply wp_metadata; [done..| |intros ??? ? ?; apply HErr; [done..|by etrans]]. intros fs2 Hd2 Hl2. cbn beta iota.
  rewrite Hst. rewrite (zlen_app header), Hhl in *. rewrite !(proj2 (Z.leb_le _ _)) by lia. cbn [andb negb]. apply wp_bind.
  eapply (read_small fuel pending (named final d) d fuel_ok _ _ _ _ _ _ 0); [done|by eapply has_later|done|done|rewrite Hst, zlen_app, Hhl; lia| |intros ??? ? ?; apply HErr; [done..|by do 2 etrans]].
  intros fs3 Hd3 Hl3. cbn beta iota. rewrite Hst. change (Z.to_nat 0) with 0%nat. rewrite slice_app_here by (unfold zlen in Hhl; lia).
  apply wp_bind, wp_lift. unfold verify_certificate_header.
  erewrite (sealed_opens manifest key); [|done|done|exact Hsealed]. rewrite bool_decide_true by done. cbn beta iota. apply wp_ret.
  apply HOk; [done|by do 2 etrans|]. by do 2 (eapply has_later; [done|]).
Qed.
Lemma recorded_first segs cs log seg prev : recorded segs cs log seg prev →
  ∃ header rest, segs !! mn_initial_segment_id manifest = Some (header ++ rest)
    ∧ segment_header manifest key (mn_initial_segment_id manifest) (zeros 16) 1 header.
Proof.
  induction 1 as [header Hh|segs cs log seg prev bytes group c g _ (header & rest & Hi & Hh) Hs _
    |segs cs log seg prev next header' group c g _ (header & rest & Hi & Hh) Hs _ _]; exists header.
  - exists []. by rewrite lookup_singleton_eq, app_nil_r.
  - destruct (below_grow segs seg bytes group Hs _ _ Hi) as [tail Ht]. exists (rest ++ tail). by rewrite Ht, app_assoc.
  - exists rest. rewrite lookup_insert_ne by congruence. done.
Qed.
Lemma wp_open_initial_segment (P : Prop) directory (vault : KeyVault W E) segs cs log seg prev v Q fs : disk fs v → in_dir d fs directory →
  segments_in (vol v) segs → recorded segs cs log seg prev → holds_key manifest key vault →
  (∀ fs' file name, disk fs' v → later fs fs' → segment_name (mn_initial_segment_id manifest) = Ok name → has fs' name file → Q fs' (Ok file)) →
  (∀ fs' e, may_fail → disk fs' v → later fs fs' → Q fs' (Err e)) →
  wp P (open_initial_segment fuel directory database vault manifest epoch) Q fs.
Proof.
  intros Hd Hin Hsegs (header & rest & Hi & Hh)%recorded_first Hkey HOk HErr.
  destruct (Hsegs _ _ Hi) as (name & tail & Hname & Hv & Hlim). pose proof Hv as (st & linked & Hvn & Hst)%vol_state.
  unfold open_initial_segment, open_required. apply wp_bind, wp_lift. rewrite Hname. cbn beta iota. apply wp_bind.
  eapply wp_open_existing; [done..| |intros; by apply HErr]. intros fs1 file Hd1 Hl1 Hf1. cbn beta iota. apply wp_bind.
  rewrite <-app_assoc in Hv, Hlim.
  eapply (wp_segment_header fuel pending (named final d) d manifest key fuel_ok vault Hkey); [done..| |intros ??? ? ?; apply HErr; [done..|by etrans]].
  intros fs2 Hd2 Hl2. cbn beta iota. cbn [sh_previous_segment_id sh_first_revision]. rewrite bool_decide_true, Z.eqb_refl by done.
  cbn [negb orb]. apply wp_ret. eapply HOk; [done|by etrans|done|by eapply has_later].
Qed.

(** ** Repairs *)

(** What a program that may have been cut short leaves of a store. *)
Definition survives fs v header segs cs csd fs' : Prop :=
  ∃ v' csd' torn', disk fs' v' ∧ later fs fs' ∧ holds v' header segs cs csd' torn' ∧ (csd' = csd ∨ csd' = cs)
    ∧ v' (entry "LOCK") = v (entry "LOCK").
Lemma survives_refl fs v header segs cs csd torn fs' : disk fs' v → later fs fs' → holds v header segs cs csd torn →
  survives fs v header segs cs csd fs'.
Proof. intros. exists v, csd, torn. by split_and!; auto. Qed.
Lemma survives_trans fs1 v1 header segs cs csd fs2 v2 csd2 fs3 : later fs1 fs2 → v2 (entry "LOCK") = v1 (entry "LOCK") →
  csd2 = csd ∨ csd2 = cs → survives fs2 v2 header segs cs csd2 fs3 → survives fs1 v1 header segs cs csd fs3.
Proof.
  intros Hl Hlock Hcsd (v' & csd' & torn' & Hd & Hl' & Hh & Hcsd' & Hlock'). exists v', csd', torn'.
  split_and!; [done|by etrans|done|naive_solver|congruence].
Qed.
Lemma resize_prefix (a b : list byte) : resize (length a) (a ++ b) = a.
Proof.
  unfold resize. rewrite take_app_length, length_app. replace (length a - (length a + length b))%nat with 0%nat by lia. apply app_nil_r.
Qed.
Lemma wp_repair (P : Prop) file header segs cs csd torn v Q fs : disk fs v → has fs (entry "CERTIFICATES") file →
  holds v header segs cs csd torn → Forall (λ c, zlen c = SMALL_ENVELOPE_BYTES) cs →
  (∀ fs' v', disk fs' v' → later fs fs' → holds v' header segs cs cs [] → v' (entry "LOCK") = v (entry "LOCK") → Q fs' (Ok tt)) →
  (∀ fs' e, may_fail → survives fs v header segs cs csd fs' → Q fs' (Err e)) →
  wp P (repair_certificates file (zlen torn) (SMALL_ENVELOPE_BYTES * zlen cs)) Q fs.
Proof.
  intros Hd Hf Hh Hsmall HOk HErr. pose proof Hh as [_ _ _ _ [_ Hhl] (Hc & Ht & Hlim) _ Hb]. apply vol_state in Hc as (st & linked & Hv & Hst).
  pose proof (zlen_nonneg torn) as Htp. assert (zlen (header ++ concat cs) = SMALL_ENVELOPE_BYTES + SMALL_ENVELOPE_BYTES * zlen cs) as Hlen
    by (by rewrite zlen_app, concat_small, Hhl). rewrite app_assoc in Hst, Hlim. rewrite zlen_app in Hlim.
  assert (∀ fs1 v1 st1, disk fs1 v1 → later fs fs1 → holds v1 header segs cs csd [] → v1 (entry "CERTIFICATES") = Some (st1, linked) →
    v1 (entry "LOCK") = v (entry "LOCK") → wp P (on_fs Adapter (sync_data file)) Q fs1) as Hsync.
  { intros fs1 v1 st1 Hd1 Hl1 Hh1 Hv1 Hlock. eapply wp_sync; [apply hosted_sync_data|done|by eapply has_later|done|..].
    - intros fs2 Hd2 Hl2. pose proof Hh1 as [_ _ _ _ _ (Hc1 & Ht1 & Hlim1) _ _]. unfold vol in Hc1. rewrite Hv1 in Hc1. injection Hc1 as Hc1.
      eapply HOk; [done|by etrans| |by rewrite fn_lookup_insert_ne]. eapply (holds_certificates manifest key unwraps); [done..| |by left]. by right.
    - intros fs2 e v2 Hm [->| ->] Hd2 Hl2; apply HErr; try done; [by exists v1, csd, []; split_and!; auto; etrans|].
      pose proof Hh1 as [_ _ _ _ _ (Hc1 & Ht1 & Hlim1) _ _]. unfold vol in Hc1. rewrite Hv1 in Hc1. injection Hc1 as Hc1.
      eexists _, cs, []. split_and!; [done|by etrans| |by right|by rewrite fn_lookup_insert_ne].
      eapply (holds_certificates manifest key unwraps); [done..| |by left]. by right. }
  unfold repair_certificates. destruct (Z.eqb_spec (zlen torn) 0) as [Hzero|Hne]; cbn [negb]; apply wp_bind.
  - apply wp_ret. destruct torn; [|by rewrite zlen_cons in Hzero; pose proof (zlen_nonneg torn); lia]. by eapply Hsync.
  - assert (Z.to_nat (SMALL_ENVELOPE_BYTES + SMALL_ENVELOPE_BYTES * zlen cs) = length (header ++ concat cs)) as Hn by (unfold zlen in Hlen at 1; lia).
    assert (holds (<[entry "CERTIFICATES" := Some (cut (length (header ++ concat cs)) st, linked)]> v) header segs cs csd []) as Hcut.
    { eapply (holds_certificates manifest key unwraps); [done..| | | |by left|done].
      - cbn. by rewrite Hst, resize_prefix, app_nil_r.
      - done.
      - rewrite app_nil_r. lia. }
    eapply wp_set_len; [done..| | |].
    + rewrite Hst, zlen_app, Hlen. pose proof (zlen_nonneg cs). unfold SMALL_ENVELOPE_BYTES in *. lia.
    + intros fs1 Hd1 Hl1. rewrite Hn in Hd1. eapply Hsync; [done|done|exact Hcut|by rewrite fn_lookup_insert|by rewrite fn_lookup_insert_ne].
    + intros fs1 e v1 Hm Hwhich Hd1 Hl1. apply HErr; [done|]. rewrite Hn in Hwhich. destruct Hwhich as [->| ->].
      * by eapply survives_refl.
      * eexists _, csd, []. by split_and!; [done|done|exact Hcut|left|rewrite fn_lookup_insert_ne].
Qed.
Definition tail_of (segs : gmap (list byte) (list byte)) (t : SegmentTail) : Prop :=
  (∃ bytes, segs !! sg_segment_id t = Some bytes ∧ sg_committed_end t = zlen bytes) ∧ 0 ≤ sg_extra_bytes t ≤ JOURNAL_SEGMENT_LIMIT.
Lemma wp_truncate_tail (P : Prop) directory header segs cs ignored t v Q fs : disk fs v → in_dir d fs directory →
  holds v header segs cs cs [] → tail_of segs t → 0 ≤ ignored → ignored + sg_extra_bytes t ≤ U64_MAX →
  (∀ fs' v', disk fs' v' → later fs fs' → holds v' header segs cs cs [] → v' (entry "LOCK") = v (entry "LOCK") →
     Q fs' (Ok (ignored + sg_extra_bytes t))) →
  (∀ fs' e, may_fail → survives fs v header segs cs cs fs' → Q fs' (Err e)) →
  wp P (truncate_tail directory ignored t) Q fs.
Proof.
  intros Hd Hin Hh ((bytes & Hb & Hend) & Hx) Hi Hsum HOk HErr. pose proof Hh as [_ _ S1 S2 _ _ _ _].
  destruct (S1 _ _ Hb) as (name & tail & Hname & Hv & Hlim). destruct (S2 _ _ Hb) as (name' & taild & Hname' & Hdur & Hlimd).
  rewrite Hname in Hname'. injection Hname' as <-. apply vol_state in Hv as (st & linked & Hv & Hst).
  destruct (dur_linked _ _ _ _ _ Hv Hdur) as [-> Hstd]. pose proof (segment_name_other _ _ "LOCK" Hname ltac:(done)) as Hlock.
  assert (∀ st', (∃ t, fst_volatile st' = bytes ++ t ∧ zlen (bytes ++ t) ≤ JOURNAL_SEGMENT_LIMIT) →
    (∃ t, fst_durable st' = bytes ++ t ∧ zlen (bytes ++ t) ≤ JOURNAL_SEGMENT_LIMIT) →
    holds (<[name := Some (st', true)]> v) header segs cs cs []) as Hput.
  { intros st' Hvol Hdu. eapply (holds_segment manifest key unwraps); [done..|]. rewrite Hb. by exists st, true. }
  assert (zlen bytes ≤ JOURNAL_SEGMENT_LIMIT) as Hbl by (rewrite zlen_app in Hlim; pose proof (zlen_nonneg tail); lia).
  assert (holds (<[name := Some (cut (length bytes) st, true)]> v) header segs cs cs []) as Hcut.
  { apply Hput; [|by exists taild]. exists []. rewrite app_nil_r. cbn. by rewrite Hst, resize_prefix. }
  unfold truncate_tail, open_required. apply wp_bind, wp_lift. rewrite Hname. cbn beta iota. apply wp_bind.
  eapply wp_open_existing; [done..| |intros ??? ? ?; apply HErr; [done|by eapply survives_refl]]. intros fs1 file Hd1 Hl1 Hf1. cbn beta iota.
  rewrite Hend. assert (Z.to_nat (zlen bytes) = length bytes) as Hn by (unfold zlen; lia). apply wp_bind.
  eapply wp_set_len; [done..| | |]; rewrite ?Hn.
  - rewrite Hst, zlen_app. pose proof (zlen_nonneg bytes). pose proof (zlen_nonneg tail). lia.
  - intros fs2 Hd2 Hl2. cbn beta iota. apply wp_bind.
    eapply wp_sync; [apply hosted_sync_data|done|by eapply has_later|by rewrite fn_lookup_insert|..].
    + intros fs3 Hd3 Hl3. cbn beta iota. apply wp_lift. unfold checked_add. rewrite (proj2 (Z.leb_le _ _)) by done. cbn [ok_or].
      eapply HOk; [eapply disk_ext; [done|]; intros n; by rewrite view_insert_insert|by do 2 etrans| |by rewrite fn_lookup_insert_ne].
      apply Hput; exists []; rewrite app_nil_r; cbn; by rewrite Hst, resize_prefix.
    + intros fs3 e v3 Hm [->| ->] Hd3 Hl3; apply HErr; try done.
      * eexists _, cs, []. by split_and!; [done|do 2 etrans|exact Hcut|left|rewrite fn_lookup_insert_ne].
      * eexists (<[name := Some (synced (cut (length bytes) st), true)]> v), cs, [].
        split_and!; [eapply disk_ext; [done|]; intros n; by rewrite view_insert_insert|by do 2 etrans| |by left|by rewrite fn_lookup_insert_ne].
        apply Hput; exists []; rewrite app_nil_r; cbn; by rewrite Hst, resize_prefix.
  - intros fs2 e v2 Hm [->| ->] Hd2 Hl2; apply HErr; try done.
    + eapply survives_refl; [done|by etrans|done].
    + eexists _, cs, []. by split_and!; [done|etrans|exact Hcut|left|rewrite fn_lookup_insert_ne].
Qed.
Lemma wp_truncate_tails (P : Prop) directory header segs cs tails : ∀ ignored v Q fs, disk fs v → in_dir d fs directory →
  holds v header segs cs cs [] → Forall (tail_of segs) tails → 0 ≤ ignored → ignored + JOURNAL_SEGMENT_LIMIT * zlen tails ≤ U64_MAX →
  (∀ fs' v' n, disk fs' v' → later fs fs' → holds v' header segs cs cs [] → v' (entry "LOCK") = v (entry "LOCK") → Q fs' (Ok n)) →
  (∀ fs' e, may_fail → survives fs v header segs cs cs fs' → Q fs' (Err e)) →
  wp P (eff_fold (truncate_tail directory) tails ignored) Q fs.
Proof.
  induction tails as [|t tails IH]; intros ignored v Q fs Hd Hin Hh Htails Hi Hsum HOk HErr; cbn [eff_fold].
  - apply wp_ret. by eapply HOk.
  - apply Forall_cons in Htails as [Ht Htails]. rewrite zlen_cons in Hsum. pose proof (zlen_nonneg tails). pose proof Ht as [_ Hx].
    unfold JOURNAL_SEGMENT_LIMIT in *. apply wp_bind. eapply wp_truncate_tail; [done..|lia| |done].
    intros fs1 v1 Hd1 Hl1 Hh1 Hlock1. cbn beta iota. eapply (IH _ v1); [done|by eapply in_dir_later|done|done|lia|lia|..].
    + intros fs2 v2 n Hd2 Hl2 Hh2 Hlock2. eapply HOk; [done|by etrans|done|congruence].
    + intros fs2 e Hm Hs. apply HErr; [done|]. eapply survives_trans; [done|done| |done]. by left.
Qed.

(** ** The whole of [open] *)
Lemma concat_lookup cs i c header torn : zlen header = SMALL_ENVELOPE_BYTES → Forall (λ c, zlen c = SMALL_ENVELOPE_BYTES) cs →
  cs !! i = Some c →
  SMALL_ENVELOPE_BYTES * (Z.of_nat i + 1 + 1) ≤ zlen (header ++ concat cs ++ torn) ∧
  slice (Z.to_nat (SMALL_ENVELOPE_BYTES * (Z.of_nat i + 1))) (Z.to_nat SMALL_ENVELOPE_BYTES) (header ++ concat cs ++ torn) = c.
Proof.
  intros Hh Hf Hi. apply take_drop_middle in Hi as Hsplit. rewrite <-Hsplit in Hf |- *. apply Forall_app in Hf as [Hf1 [Hc Hf2]%Forall_cons].
  set (A := take i cs) in *. assert (length A = i) as Hl by (unfold A; rewrite length_take; apply lookup_lt_Some in Hi; lia).
  assert (zlen (header ++ concat A) = SMALL_ENVELOPE_BYTES * (Z.of_nat i + 1)) as Hpre.
  { rewrite zlen_app, concat_small, Hh by done. unfold zlen. rewrite Hl. lia. }
  rewrite concat_app. cbn [concat]. rewrite <-!app_assoc, (app_assoc header). split.
  - rewrite zlen_app, Hpre, zlen_app, Hc. pose proof (zlen_nonneg (concat (drop (S i) cs) ++ torn)). lia.
  - assert (Z.to_nat (SMALL_ENVELOPE_BYTES * (Z.of_nat i + 1)) = length (header ++ concat A)) as -> by (unfold zlen in Hpre; lia).
    rewrite (slice_app_skip (header ++ concat A) (length (header ++ concat A))), Nat.sub_diag by done. apply slice_app_here. unfold zlen in Hc. lia.
Qed.
Lemma certificates_at v header cs torn : certificates_in (vol v) header cs torn → zlen header = SMALL_ENVELOPE_BYTES →
  Forall (λ c, zlen c = SMALL_ENVELOPE_BYTES) cs → ∀ i c, cs !! i = Some c → certificate_at v (Z.of_nat i + 1) c.
Proof.
  intros (Hc & _) Hh Hf i c Hi. apply vol_state in Hc as (st & linked & Hv & Hst). exists st, linked. rewrite Hst.
  destruct (concat_lookup _ _ _ _ torn Hh Hf Hi). done.
Qed.
Context {A : Type} (visitor : A → RecoveredGroup → option (result StorageError A)).
Lemma scanned_same fs fs' segs log seg prev s s' : scanned d fs segs log seg prev s → scanned d fs' segs log seg prev s' →
  scans_differ s' s = false.
Proof.
  intros [Hs _ (b & Hb & Ho) (F1 & P1 & A1 & I1 & B1 & Y1 & N1 & _) _ _] [Hs' _ (b' & Hb' & Ho') (F2 & P2 & A2 & I2 & B2 & Y2 & N2 & _) _ _].
  rewrite Hb in Hb'. injection Hb' as <-. unfold scans_differ.
  rewrite Hs, Hs', Ho, Ho', F1, F2, P1, P2, A1, A2, I1, I2, B1, B2, Y1, Y2, N1, N2, !bool_decide_true, !Z.eqb_refl by done. done.
Qed.
Lemma wp_open_owned (P : Prop) directory ownership vault_entropy identity_entropy a v header segs cs csd torn log seg prev Q fs :
  disk fs v → in_dir d fs directory → holds v header segs cs csd torn → recorded segs cs log seg prev → guard_held d fs v ownership →
  (visit_all visitor log a = None → P) →
  (∀ fs' v' j report a', visit_all visitor log a = Some (Ok a') → disk fs' v' → later fs fs' → holds v' header segs cs cs [] →
     owned fs' v' j segs log seg prev → jh_poisoned j = false → rr_frontier report = log_frontier log →
     rr_certificate_digest report = prev → Q fs' (Ok (j, report, a'))) →
  (∀ fs' e, may_fail ∨ visit_all visitor log a = Some (Err e) → survives fs v header segs cs csd fs' → Q fs' (Err e)) →
  wp P (open_owned sha256 fuel visitor directory ownership database vault_entropy identity_entropy adapter a) Q fs.
Proof.
  intros Hd Hin Hh Hrec Hguard HP HOk HErr. pose proof Hh as [Hfix _ Hsegs _ Hlh Hcert _ _]. pose proof Hlh as [_ Hhl].
  pose proof (recorded_log _ _ _ _ _ _ _ _ Hrec) as (Hnum & Hlen & Hsmall). pose proof (zlen_nonneg cs) as Hn0.
  assert (zlen cs = zlen log) as Hz by (unfold zlen; lia).
  unfold open_owned. apply wp_bind. eapply wp_open_vault; [done..| |intros ??? ? ?; apply HErr; [by left|by eapply survives_refl]].
  intros fs1 vault Hd1 Hl1 Hkey. cbn beta iota. apply wp_bind.
  eapply wp_open_manifest; [done|by eapply in_dir_later|done|done| |intros ??? ? ?; apply HErr; [by left|eapply survives_refl; [done|by etrans|done]]].
  intros fs2 Hd2 Hl2. cbn beta iota. assert (later fs fs2) as Hl02 by (by etrans). apply wp_bind.
  eapply wp_open_certificates; [done|by eapply in_dir_later|done|done|done| |intros ??? ? ?; apply HErr; [by left|eapply survives_refl; [done|by etrans|done]]].
  intros fs3 cfile Hd3 Hl3 Hcf. cbn beta iota. assert (later fs fs3) as Hl03 by (by etrans). apply wp_bind.
  eapply wp_open_initial_segment; [done|by eapply in_dir_later|done|done|done| |intros ??? ? ?; apply HErr; [by left|eapply survives_refl; [done|by etrans|done]]].
  intros fs4 sfile sname Hd4 Hl4 Hsname Hsf. cbn beta iota. assert (later fs fs4) as Hl04 by (by etrans).
  assert (zlen (header ++ concat cs ++ torn) - SMALL_ENVELOPE_BYTES = SMALL_ENVELOPE_BYTES * zlen cs + zlen torn) as ->.
  { rewrite !zlen_app, concat_small, Hhl by done. lia. }
  pose proof Hcert as (_ & Htorn & Hclim). pose proof (zlen_nonneg torn) as Ht0. rewrite !zlen_app, concat_small, Hhl in Hclim by done.
  assert ((SMALL_ENVELOPE_BYTES * zlen cs + zlen torn) / SMALL_ENVELOPE_BYTES = zlen cs) as ->.
  { symmetry. apply (Z.div_unique _ _ _ (zlen torn)); lia. }
  replace (zlen cs * SMALL_ENVELOPE_BYTES) with (SMALL_ENVELOPE_BYTES * zlen cs) by lia.
  replace (SMALL_ENVELOPE_BYTES * zlen cs + zlen torn - SMALL_ENVELOPE_BYTES * zlen cs) with (zlen torn) by lia.
  rewrite (Z.mul_comm SMALL_ENVELOPE_BYTES), Z.div_mul, (Z.mul_comm (zlen cs)) by done. apply wp_bind.
  eapply (wp_scan_certificates sha256 fuel pending (named final d) d manifest key fuel_ok vault Hkey visitor false directory cfile);
    [done|done|by eapply in_dir_later|by apply (has_later _ _ _ _ _ Hl4)|done|done|done|by eapply certificates_at|done| |intros ??? ? ?; apply HErr; [left; naive_solver|eapply survives_refl; [done|by etrans|done]]].
  intros fs5 s a1 Ha1 Hd5 Hl5 Hs5. injection Ha1 as <-. cbn beta iota. assert (later fs fs5) as Hl05 by (by etrans). apply wp_bind.
  eapply (wp_repair _ _ header segs cs csd torn v); [done|by apply (has_later _ _ _ _ _ Hl5), (has_later _ _ _ _ _ Hl4)|done|done| |].
  2: { intros fs6 e Hm Hsv. apply HErr; [by left|]. eapply survives_trans; [done|done| |done]. by left. }
  intros fs6 v6 Hd6 Hl6 Hh6 Hlock6. cbn beta iota. assert (later fs fs6) as Hl06 by (by etrans). apply wp_bind.
  assert (∀ fs' e, may_fail ∨ visit_all visitor log a = Some (Err e) → survives fs6 v6 header segs cs cs fs' → Q fs' (Err e)) as HErr6.
  { intros fs' e Hm Hsv. apply HErr; [done|]. eapply survives_trans; [done|done| |done]. by right. }
  eapply (wp_truncate_tails _ _ header segs cs); [done|by eapply in_dir_later|done|exact (sn_tails _ _ _ _ _ _ _ Hs5)|done| | |intros ?? ? ?; apply HErr6; [by left|done]].
  { pose proof (sn_few_tails _ _ _ _ _ _ _ Hs5) as Hfew. rewrite <-Hz in Hfew. unfold JOURNAL_SEGMENT_LIMIT, CERTIFICATE_LOG_LIMIT, SMALL_ENVELOPE_BYTES, U64_MAX in *. lia. }
  intros fs7 v7 ignored Hd7 Hl7 Hh7 Hlock7. cbn beta iota. assert (later fs fs7) as Hl07 by (by etrans). apply wp_bind.
  replace (sc_verified s) with (∅ : gmap (list byte) Z) by (symmetry; apply (sn_tally _ _ _ _ _ _ _ Hs5)).
  pose proof Hh7 as [_ _ Hsegs7 _ _ Hcert7 _ _].
  eapply (wp_scan_certificates sha256 fuel pending (named final d) d manifest key fuel_ok vault Hkey visitor true directory cfile);
    [done|done|by eapply in_dir_later| |done| |done|by eapply certificates_at|done| |].
  { by apply (has_later _ _ _ _ _ Hl7), (has_later _ _ _ _ _ Hl6), (has_later _ _ _ _ _ Hl5), (has_later _ _ _ _ _ Hl4). }
  { by apply (has_later _ _ _ _ _ Hl7), (has_later _ _ _ _ _ Hl6), (has_later _ _ _ _ _ Hl5). }
  2: { intros fs8 e Hwhy Hd8 Hl8. apply HErr6; [done|]. exists v7, cs, []. split_and!; [done|by etrans|done|by left|done]. }
  intros fs8 s8 a8 Ha8 Hd8 Hl8 Hs8. cbn beta iota. rewrite (scanned_same _ _ _ _ _ _ _ _ Hs5 Hs8). apply wp_ret.
  assert (later fs fs8) as Hl08 by (by etrans). pose proof Hs8 as [Hseg8 Hfile8 Hoff8 (Hfr8 & Hpr8 & _) _ _].
  eapply HOk; [done|done|done|done| |done|done|done]. split; cbn; try done.
  - by eapply in_dir_later.
  - by apply (has_later _ _ _ _ _ Hl8), (has_later _ _ _ _ _ Hl7), (has_later _ _ _ _ _ Hl6), (has_later _ _ _ _ _ Hl5), (has_later _ _ _ _ _ Hl4).
  - eapply guard_later; [exact Hl08| |exact Hguard]. intros g (st & linked & Hv & Hg). exists st, linked. by rewrite Hlock7, Hlock6.
Qed.
Lemma wp_holding {T} (P : Prop) ownership (m : eff F T) Q fs :
  wp P m (λ fs' r, match r with Ok t => Q fs' (Ok t) | Err e => Q (drop_guard ownership fs') (Err e) end) fs →
  wp P (holding ownership m) Q fs.
Proof. unfold wp, holding. by destruct (m fs) as [[fs' [t|e]]|]. Qed.
Lemma holds_lock v header segs cs csd torn st linked generation : holds v header segs cs csd torn → v (entry "LOCK") = Some (st, linked) →
  holds (<[entry "LOCK" := Some (locked_by generation st, linked)]> v) header segs cs csd torn.
Proof.
  intros Hh Hv. eapply (holds_ext manifest key unwraps); [| |exact Hh]; intros n.
  - rewrite vol_insert. case_decide as Hn; [|done]. subst n. unfold vol. by rewrite Hv.
  - rewrite dur_insert. case_decide as Hn; [|done]. subst n. unfold dur. rewrite Hv. by destruct linked.
Qed.
Lemma survives_drop fs v header segs cs csd fs' guard : survives fs v header segs cs csd fs' → guard_held d fs v guard →
  ∃ v' csd' torn', disk (drop_guard guard fs') v' ∧ holds v' header segs cs csd' torn' ∧ (csd' = csd ∨ csd' = cs) ∧ lock_state v' 0.
Proof.
  intros (v' & csd' & torn' & Hd & Hlater & Hh & Hcsd & Hlock) Hguard.
  assert (guard_held d fs' v' guard) as Hg.
  { eapply guard_later; [exact Hlater| |exact Hguard]. intros g (st & linked & Hv & Hl). exists st, linked. by rewrite Hlock. }
  pose proof Hg as (_ & (st & linked & Hv & _) & _). destruct (disk_drop_guard _ _ _ _ _ _ _ _ Hd Hg Hv) as [Hd' _].
  eexists _, csd', torn'. split; [exact Hd'|]. split; [by apply holds_lock|]. split; [done|]. eexists _, _. by rewrite fn_lookup_insert.
Qed.
Lemma wp_open_directory (P : Prop) v Q fs : disk fs v →
  (∀ fs' directory, disk fs' v → later fs fs' → in_dir d fs' directory → Q fs' (Ok directory)) →
  (∀ fs' e, may_fail → disk fs' v → later fs fs' → Q fs' (Err (recovery_adapter_error e))) →
  wp P (on_fs recovery_adapter_error (open_directory (fs_root fs) final)) Q fs.
Proof.
  intros Hd HOk HErr. pose proof Hd as (_ & [dir Hp] & _).
  eapply (wp_look _ _ _ _ _ _ _ _ (mk_memory_directory d (mem_generation (hosted fs)))); [apply hosted_open_directory|done| | |done].
  - unfold memory_open_directory, memory_directory. rewrite hosted_root. cbn [md_generation md_node]. rewrite Z.eqb_refl. cbn [negb].
    destruct (pub_root _ _ _ _ Hp) as (root & Hroot & Hvol & _). rewrite Hroot. cbn [ok_or]. by rewrite result_bind_Ok, Hvol.
  - intros fs1 directory Hd1 Hl1 Hs1 Hdir. apply HOk; [done..|]. split; by rewrite Hdir, ?Hs1.
Qed.
Lemma wp_store_open (P : Prop) vault_entropy identity_entropy a v header segs cs csd torn log seg prev Q fs :
  disk fs v → holds v header segs cs csd torn → recorded segs cs log seg prev → lock_state v 0 →
  (visit_all visitor log a = None → P) →
  (∀ fs' v' j report a', visit_all visitor log a = Some (Ok a') → disk fs' v' → holds v' header segs cs cs [] →
     owned fs' v' j segs log seg prev → jh_poisoned j = false → rr_frontier report = log_frontier log →
     rr_certificate_digest report = prev → Q fs' (Ok (j, report, a'))) →
  (∀ fs' e v' csd' torn', may_fail ∨ visit_all visitor log a = Some (Err e) → disk fs' v' → holds v' header segs cs csd' torn' →
     csd' = csd ∨ csd' = cs → may_fail ∨ lock_state v' 0 → Q fs' (Err e)) →
  wp P (store_open sha256 fuel visitor final database vault_entropy identity_entropy adapter a) Q fs.
Proof.
  intros Hd Hh Hrec (st & linked & Hv & Hlock) HP HOk HErr. unfold store_open.
  apply wp_bind. unfold wp at 1, eff_get. apply wp_bind.
  eapply wp_open_directory; [done| |].
  2: { intros fs1 e Hm Hd1 Hl1. eapply HErr; [by left|done|done|by left|by left]. }
  intros fs1 directory Hd1 Hl1 Hin. cbn beta iota. apply wp_bind.
  eapply wp_try_lock; [done..| |].
  2: { intros fs2 e v2 Hm [->| ->] Hd2 Hl2; (eapply HErr; [by left|done| |by left|by left]); [done|by apply holds_lock]. }
  intros fs2 guard v2 Hv2 Hd2 Hl2 Hguard. cbn beta iota. apply wp_holding.
  eapply (wp_open_owned _ _ _ _ _ _ v2 header segs cs csd torn log seg prev); [done|by eapply in_dir_later| |done..| |].
  { rewrite Hv2. by apply holds_lock. }
  { intros fs3 v3 j report a' Ha Hd3 Hl3 Hh3 Hown Hpoi Hfr Hpr. by eapply HOk. }
  intros fs3 e Hwhy Hsv. destruct (survives_drop _ _ _ _ _ _ _ _ Hsv Hguard) as (v3 & csd3 & torn3 & Hd3 & Hh3 & Hcsd3 & Hl3).
  eapply HErr; [done|exact Hd3|done|done|by right].
Qed.
(** A store in use cannot be opened. *)
Lemma wp_open_locked (P : Prop) (vault_entropy : E) (identity_entropy : I) a v generation (Q : F → result StorageError (Handle * RecoveryReport * A) → Prop) fs :
  disk fs v → lock_state v generation → generation ≠ 0 → (∀ fs' e, disk fs' v → later fs fs' → Q fs' (Err e)) →
  wp P (store_open sha256 fuel visitor final database vault_entropy identity_entropy adapter a) Q fs.
Proof.
  intros Hd (st & linked & Hv & Hlock) Hgen HErr. unfold store_open. apply wp_bind. unfold wp at 1, eff_get. apply wp_bind.
  eapply wp_open_directory; [done| |intros fs1 e _ Hd1 Hl1; by apply HErr]. intros fs1 directory Hd1 Hl1 Hin. cbn beta iota. apply wp_bind.
  pose proof Hd1 as (_ & Hdb & Hview). rewrite <-Hview in Hv. destruct (open_existing_view _ _ _ _ _ _ Hdb Hin Hv) as (file & Hopen & Hn).
  assert (memory_try_lock_exclusive (dir_of directory) (entry "LOCK") (hosted fs1) = (hosted fs1, Err OwnershipConflict)) as Hrun.
  { unfold memory_try_lock_exclusive. rewrite Hopen, (names_file _ _ _ _ _ _ Hn Hv), Hlock, (proj2 (Z.eqb_neq _ _)) by done. done. }
  eapply wp_call; [apply hosted_try_lock|apply Hd1|intros fs2 t _; by rewrite Hrun|].
  intros fs2 e Hr. rewrite Hrun. intros Hsame. assert (hosted fs2 = hosted fs1) as Heq.
  { destruct Hsame as [[= ->]|[_ [?|Heq]]]; [done..|by cbn in Heq]. }
  destruct (disk_same _ _ _ _ _ _ Hd1 Hr Heq). apply HErr; [done|by etrans].
Qed.
End open.
