(* ===== verification/StoreAppend.v ===== *)
(** * Appending to a store, and creating one

    ** Appending

    [append_group] over a file system that may fail at any call: what is on disk
    afterwards is the old log or the old log with the new group, and an
    acknowledged group is durable. *)
From stdpp Require Import functions.
From S2P Require Import Prelude Ids Policy Storage Blob Journal Envelope FileSystem MemoryFs FileSystemFacts JournalFormat JournalStore JournalRecovery StoreDisk StoreCalls StoreLog StoreScan StoreOpen.
Import StorageError.

(** Whether an append that failed with [e] may have left its group behind. *)
Definition uncertain (e : StorageError) : Prop := e ≠ ResourceLimit ∧ e ≠ RevisionExhausted ∧ e ≠ NeedsRecovery.
Section append.
Context {F W E I : Type} `{AeadLaws, HostedFileSystem F, !EntropySource E, !EntropyLaws E, !EntropySource I, !EntropyLaws I}.
Context (sha256 : list byte → list byte) (fuel pending : nat) (root_ok : MemoryDirectoryState → Prop) (d : Z) (manifest : Manifest) (key : list byte).
Context (unwraps : list byte → Prop).
Context (fuel_ok : MAX_PLAINTEXT_BYTES + SMALL_ENVELOPE_BYTES + Z.of_nat pending < Z.of_nat fuel).
Context (sha256_width : ∀ bytes, length (sha256 bytes) = 32%nat) (manifest_wf : manifest_ok manifest) (key_width : length key = 32%nat).
Abbreviation database := (mn_database manifest).
Abbreviation epoch := (mn_epoch manifest).
Abbreviation writer := (mn_writer manifest).
Abbreviation disk := (disk pending root_ok d).
Abbreviation has := (has d).
Abbreviation later := (later d).
Abbreviation Handle := (JournalHandle (F := F) (W := W) (E := E) (I := I)).
Abbreviation holds := (holds manifest key unwraps).
Abbreviation recorded := (recorded sha256 manifest key).
Abbreviation certified := (certified sha256 manifest key).
Abbreviation owned := (owned d manifest key).
Implicit Types (fs : F) (v : View) (j : Handle).

(** ** Steps over the handle *)
Lemma wp_io {X T} (P : Prop) (m : eff F T) Q (x : X) fs : wp P m (λ fs' r, Q (x, fs') r) fs → wp P (io m) Q (x, fs).
Proof. unfold wp, io. cbn. by destruct (m fs) as [[fs' r]|]. Qed.
Lemma wp_handle (P : Prop) Q j fs : Q (j, fs) (Ok j) → wp P handle Q (j, fs).
Proof. done. Qed.
Lemma wp_update (P : Prop) f Q j fs : Q (f j, fs) (Ok tt) → wp P (update f) Q (j, fs).
Proof. done. Qed.
(** The size of a sealed plaintext depends on its length only. *)
Definition sealed_size (plaintext bytes : list byte) : Prop :=
  ∃ padded, padded_length Small4KiB (zlen plaintext) = Ok padded ∧ zlen bytes = padded + 65 ∧ padded_ok Small4KiB padded.
Lemma sealed_size_eq plaintext b1 b2 : sealed_size plaintext b1 → sealed_size plaintext b2 → zlen b1 = zlen b2.
Proof. intros (p1 & Hp1 & -> & _) (p2 & Hp2 & -> & _). congruence. Qed.
Lemma sealed_size_bound plaintext bytes : sealed_size plaintext bytes → zlen bytes ≤ MAX_PLAINTEXT_BYTES + SMALL_ENVELOPE_BYTES.
Proof. intros (p & _ & -> & Hp & _). cbn in Hp. unfold SMALL_ENVELOPE_BYTES. lia. Qed.
Lemma wp_seal (P : Prop) context plaintext Q j fs : holds_key manifest key (jh_vault j) → context_ok context →
  cx_database context = database → cx_frame context = Small4KiB →
  (∀ vault bytes, holds_key manifest key vault → sealed key context bytes plaintext → sealed_size plaintext bytes →
     zlen plaintext ≤ MAX_PLAINTEXT_BYTES → Q (set_vault j vault, fs) (Ok bytes)) →
  (∀ vault e, holds_key manifest key vault → Q (set_vault j vault, fs) (Err (Crypto e))) →
  wp P (seal context plaintext) Q (j, fs).
Proof.
  intros Hkey Hcx Hc Hfr HOk HErr. unfold wp, seal. cbn [fst snd].
  destruct (vault_encrypt (jh_vault j) context plaintext) as [vault r] eqn:Henc.
  apply (vault_seals manifest key) in Henc as [Hkey' Hcase]; [|done..]. destruct r as [e|e]; [|by apply HErr].
  destruct Hcase as (bytes & m & Hb & Hd & Hp & _ & Hmax & Hm & Hlen & Hpad). rewrite result_bind_Ok, Hb. cbn [map_err].
  rewrite Hfr in Hm, Hpad. eapply HOk; [done|by exists e|by exists m|done].
Qed.
Lemma random_attempts_width n : ∀ entropy entropy' bytes, random_attempts (I := I) n entropy = (entropy', Ok bytes) →
  length bytes = 16%nat ∧ bytes ≠ zeros 16.
Proof.
  induction n as [|n IH]; intros entropy entropy' bytes; cbn [random_attempts]; [done|].
  destruct (entropy_fill entropy 16) as [e1 [b|]] eqn:Hf; [|done]. case_bool_decide as Hz; [apply IH|].
  intros [= _ <-]. split; [by eapply entropy_width|done].
Qed.
Lemma wp_fresh_id (P : Prop) Q j fs : 
  (∀ entropy bytes, length bytes = 16%nat → bytes ≠ zeros 16 → Q (set_identity_entropy j entropy, fs) (Ok bytes)) →
  (∀ entropy e, Q (set_identity_entropy j entropy, fs) (Err (Crypto e))) →
  wp P fresh_id Q (j, fs).
Proof.
  intros HOk HErr. unfold wp, fresh_id, random_nonzero_id. cbn [fst snd].
  destruct (random_attempts RANDOM_ATTEMPTS (jh_identity_entropy j)) as [entropy [bytes|e]] eqn:Hr.
  - destruct (random_attempts_width _ _ _ _ Hr). by apply HOk.
  - assert (∃ e', e = Crypto e') as [e' ->]; [|by apply HErr]. revert Hr. generalize (jh_identity_entropy j). generalize RANDOM_ATTEMPTS.
    intros n. induction n as [|n IH]; intros i; cbn [random_attempts]; [intros [= _ <-]; eauto|].
    destruct (entropy_fill i 16) as [e1 [b|]]; [|intros [= _ <-]; eauto]. case_bool_decide; [apply IH|done].
Qed.

(** ** The place of the next group *)
Lemma recorded_ids segs cs log seg prev : recorded segs cs log seg prev → id16 seg ∧ seg ≠ zeros 16 ∧ digest32 prev.
Proof.
  induction 1 as [header Hh|? ? ? ? ? ? ? ? ? _ (Hi & Hz & _) _ _|? ? ? ? ? ? ? ? ? ? _ _ _ Hh _].
  - destruct (hd_ok _ _ _ _ _ _ Hh) as (_ & Hi & Hz & _). by split_and!.
  - split_and!; [done..|apply sha256_width].
  - destruct (hd_ok _ _ _ _ _ _ Hh) as (_ & Hi & Hz & _). split_and!; [done..|apply sha256_width].
Qed.
Lemma append_place_spec j log input : jh_poisoned j = false → jh_frontier j = log_frontier log → log_numbered log →
  match append_place j input with
  | Ok (revision, offset) => revision = zlen log + 1 ∧ offset = SMALL_ENVELOPE_BYTES * revision
      ∧ SMALL_ENVELOPE_BYTES * (revision + 1) ≤ CERTIFICATE_LOG_LIMIT ∧ zlen (ci_encoded_group input) ≤ MAX_PLAINTEXT_BYTES
  | Err e => e = ResourceLimit ∨ e = RevisionExhausted
  end.
Proof.
  intros Hp Hf Hn. unfold append_place. rewrite Hp, Hf. destruct (Z.ltb_spec MAX_PLAINTEXT_BYTES (zlen (ci_encoded_group input))) as [|Hl]; [by left|].
  pose proof (log_frontier_length log Hn) as Hrev. pose proof (zlen_nonneg log).
  assert (∀ r, r = zlen log + 1 → match (before ← ok_or (checked_mul (r - 1) SMALL_ENVELOPE_BYTES) ResourceLimit;
    certificate_offset ← ok_or (checked_add SMALL_ENVELOPE_BYTES before) ResourceLimit;
    certificate_end ← ok_or (checked_add certificate_offset SMALL_ENVELOPE_BYTES) ResourceLimit;
    if CERTIFICATE_LOG_LIMIT <? certificate_end then Err ResourceLimit else Ok (r, certificate_offset)) with
  | Ok (revision, offset) => revision = zlen log + 1 ∧ offset = SMALL_ENVELOPE_BYTES * revision
      ∧ SMALL_ENVELOPE_BYTES * (revision + 1) ≤ CERTIFICATE_LOG_LIMIT ∧ zlen (ci_encoded_group input) ≤ MAX_PLAINTEXT_BYTES
  | Err e => e = ResourceLimit ∨ e = RevisionExhausted
  end) as Hplace.
  { intros r ->. unfold checked_mul, checked_add. destruct (_ <=? _); [|by left]. cbn [ok_or]. rewrite result_bind_Ok.
    destruct (_ <=? _); [|by left]. cbn [ok_or]. rewrite result_bind_Ok. destruct (_ <=? _); [|by left]. cbn [ok_or]. rewrite result_bind_Ok.
    destruct (Z.ltb_spec CERTIFICATE_LOG_LIMIT (SMALL_ENVELOPE_BYTES + (zlen log + 1 - 1) * SMALL_ENVELOPE_BYTES + SMALL_ENVELOPE_BYTES)); [by left|]. split_and!; [lia..|done]. }
  destruct (log_frontier log) as [r|] eqn:Hr; cbn in Hrev.
  - unfold CommitRevision_checked_next, checked_add. destruct (_ <=? _); [|by right]. unfold CommitRevision_new.
    rewrite (proj2 (Z.eqb_neq _ _)) by lia. cbn [map_err]. rewrite result_bind_Ok. apply Hplace. lia.
  - rewrite result_bind_Ok. apply Hplace. lia.
Qed.
Lemma segment_context_ok seg n : id16 seg → 0 ≤ n ≤ U64_MAX → context_ok (segment_context database epoch seg writer n).
Proof.
  clear - manifest_wf. intros Hs Hn. destruct manifest_wf as (H1' & H2' & _ & H3' & H4' & _). unfold context_ok, segment_context, u64_ok in *. cbn. split_and!; try done; lia.
Qed.
Lemma certificate_context_ok n : 0 ≤ n ≤ U64_MAX → context_ok (certificate_context database epoch (mn_certificate_log_id manifest) writer n).
Proof.
  clear - manifest_wf. intros Hn. destruct manifest_wf as (H1' & H2' & _ & H3' & H4' & H5' & _). unfold context_ok, certificate_context, u64_ok in *. cbn. split_and!; try done; lia.
Qed.
Lemma overwrite_tail (base tail bytes : list byte) : overwrite (base ++ tail) (length base) bytes = base ++ bytes ++ drop (length bytes) tail.
Proof.
  unfold overwrite. rewrite take_app_length, length_app. replace (length base - (length base + length tail))%nat with 0%nat by lia.
  cbn [zeros replicate app]. do 2 f_equal. rewrite drop_app_ge by lia. f_equal. lia.
Qed.
Lemma lock_insert v name x g : name ≠ entry "LOCK" → lock_state v g → lock_state (<[name := x]> v) g.
Proof. intros Hn (st & linked & Hv & Hg). exists st, linked. by rewrite fn_lookup_insert_ne. Qed.
Lemma lock_link v g : lock_state v g → lock_state (λ n, (λ x, (x.1, true)) <$> v n) g.
Proof. intros (st & linked & Hv & Hg). exists st, true. by rewrite Hv. Qed.

(** ** One append *)
Section run.
Context (header : list byte) (segs : gmap (list byte) (list byte)) (cs : list (list byte)) (log : list RecoveredGroup) (seg prev : list byte).
Context (input : CommitInput) (guard : OwnershipGuard (F := F)).
Context (rec : recorded segs cs log seg prev) (digest_width : digest32 (ci_logical_event_digest input)).
Abbreviation n := (zlen log + 1).
Context (place : SMALL_ENVELOPE_BYTES * (n + 1) ≤ CERTIFICATE_LOG_LIMIT).

(** Nothing committed, nothing lost. *)
Definition unchanged fs : Prop := ∃ v torn, disk fs v ∧ guard_held d fs v guard ∧ holds v header segs cs cs torn.
(** The parts of the handle every phase keeps. *)
Record bound fs j : Prop := mk_bound {
  bd_database : jh_database j = database;
  bd_epoch : jh_epoch j = epoch;
  bd_writer : jh_writer j = writer;
  bd_log_id : jh_certificate_log_id j = mn_certificate_log_id manifest;
  bd_directory : in_dir d fs (jh_directory j);
  bd_certificates : has fs (entry "CERTIFICATES") (jh_certificate_file j);
  bd_previous : jh_previous_digest j = prev;
  bd_key : holds_key manifest key (jh_vault j);
  bd_guard : jh_ownership j = guard
}.
Lemma bound_later fs fs' j : later fs fs' → bound fs j → bound fs' j.
Proof. intros Hl []. split; try done; [by eapply in_dir_later|by eapply has_later]. Qed.
(** The segment [seg'] is ready for the next group at the end of [base]. *)
Record staged fs v j (seg' base : list byte) : Prop := mk_staged {
  sg_disk : disk fs v;
  sg_guard : guard_held d fs v guard;
  sg_holds : holds v header segs cs cs [];
  sg_bound : bound fs j;
  sg_where : seg' = seg ∧ segs !! seg = Some base ∨ segs !! seg' = None ∧ segment_header manifest key seg' seg n base;
  sg_segment : jh_segment_id j = seg' ∧ jh_segment_offset j = zlen base;
  sg_file : ∃ name st tail taild, segment_name seg' = Ok name ∧ has fs name (jh_segment_file j) ∧ v name = Some (st, true)
    ∧ fst_volatile st = base ++ tail ∧ fst_durable st = base ++ taild
    ∧ zlen (base ++ tail) ≤ JOURNAL_SEGMENT_LIMIT ∧ zlen (base ++ taild) ≤ JOURNAL_SEGMENT_LIMIT
}.
Lemma revision_bound : 0 ≤ n ≤ U64_MAX.
Proof. pose proof (zlen_nonneg log). unfold SMALL_ENVELOPE_BYTES, CERTIFICATE_LOG_LIMIT, U64_MAX in *. lia. Qed.
Lemma unchanged_segment fs v id name x : disk fs v → guard_held d fs (<[name := Some x]> v) guard → holds v header segs cs cs [] →
  segment_name id = Ok name → segs !! id = None → ∀ fs', disk fs' (<[name := Some x]> v) → later fs fs' → unchanged fs'.
Proof.
  intros Hd Hg Hh Hn Hnone fs' Hd' Hl. exists (<[name := Some x]> v), []. split_and!; [done|by eapply guard_same|].
  eapply (holds_segment manifest key unwraps); [done..|]. by rewrite Hnone.
Qed.
Lemma wp_rollover (P : Prop) v Q j fs : disk fs v → guard_held d fs v guard → holds v header segs cs cs [] → bound fs j → jh_segment_id j = seg →
  (∀ fs' v' j' next base, staged fs' v' j' next base → zlen base = SMALL_ENVELOPE_BYTES → jh_poisoned j' = jh_poisoned j → Q (j', fs') (Ok tt)) →
  (∀ fs' j' e, uncertain e → jh_ownership j' = guard → jh_poisoned j' = jh_poisoned j → unchanged fs' → Q (j', fs') (Err e)) →
  wp P (rollover fuel n) Q (j, fs).
Proof.
  intros Hd Hg Hh [Hb1 Hb2 Hb3 Hb4 Hb5 Hb6 Hb7 Hb8 Hb9] Hseg HOk HErr. assert (unchanged fs) as Hsame by (by exists v, []).
  destruct (recorded_ids _ _ _ _ _ rec) as (Hid & Hnz & _). unfold rollover. apply wp_bind, wp_fresh_id.
  2: { intros entropy e. by apply HErr. }
  intros entropy next Hnl Hnz'. cbn beta iota. apply wp_bind, wp_handle. cbn [set_identity_entropy jh_segment_id jh_database jh_writer jh_epoch].
  rewrite Hb1, Hb2, Hb3, Hseg. case_bool_decide as Hne; [apply wp_fail; by apply HErr|]. apply wp_bind.
  eapply wp_seal; [done|by apply segment_context_ok; [|unfold U64_MAX]|done|done| |intros vault e _; by apply HErr].
  intros vault base Hkey Hsealed Hsize _. cbn beta iota. apply wp_bind, wp_lift. unfold require_small_envelope.
  destruct (Z.eqb_spec (zlen base) SMALL_ENVELOPE_BYTES) as [Hbl|]; [|by apply HErr]. apply wp_bind, wp_lift.
  destruct (segment_name next) as [name|e] eqn:Hname.
  2: { cbn beta iota. apply HErr; [|done..]. unfold segment_name in Hname. destruct (EntryName_new _); cbn in Hname; [done|]. by injection Hname as <-. }
  assert (name ≠ entry "LOCK") as Hlock by (by eapply segment_name_other).
  assert (v name = None → segs !! next = None) as Hunused.
  { intros Hnone. destruct (segs !! next) as [b|] eqn:Hb; [|done]. destruct (hs_volatile_segments _ _ _ _ _ _ _ _ _ Hh _ _ Hb) as (nm & tl & Hnm & Hv & _).
    rewrite Hname in Hnm. injection Hnm as <-. unfold vol in Hv. by rewrite Hnone in Hv. }
  assert (∀ x fs', v name = None → disk fs' (<[name := Some x]> v) → later fs fs' → unchanged fs') as Hleft.
  { intros x fs' Hnone Hd' Hl'. eapply (unchanged_segment fs v next name); [done| |done|done|by apply Hunused|done|done].
    eapply guard_later; [|intros g ?; by apply lock_insert|exact Hg]. done. }
  cbn beta iota. apply wp_bind, wp_io. unfold MAX_PLAINTEXT_BYTES, SMALL_ENVELOPE_BYTES in *.
  eapply wp_create_file; [done|done|unfold U64_MAX; lia|unfold zlen in Hbl; lia| |].
  2: { intros fs1 e v1 [->|[Hnone [st ->]]] Hd1 Hl1; apply HErr; try done; [|by eapply Hleft].
    exists v, []. split_and!; [done|by eapply guard_same|done]. }
  intros fs3 file Hnone Hd3 Hl03 Hf3. pose proof (Hunused Hnone) as Hfresh. cbn beta iota. apply wp_bind, wp_io. cbn [set_vault set_identity_entropy jh_directory].
  eapply wp_sync_directory; [done|by eapply in_dir_later|..].
  2: { intros fs4 e v4 [->| ->] Hd4 Hl4; apply HErr; try done; [eapply Hleft; [done|exact Hd4|by etrans]|].
    eexists _, []. split_and!; [exact Hd4| |apply holds_link; eapply (holds_segment manifest key unwraps); [done..|by rewrite Hfresh]].
    eapply guard_later; [|intros g Hs; by apply lock_link, lock_insert|exact Hg]. by etrans. }
  intros fs4 Hd4 Hl4. cbn beta iota. assert (later fs fs4) as Hl04 by (by etrans). apply wp_update. eapply HOk; [|done|done].
  split; [exact Hd4| | | | | |].
  - eapply guard_later; [exact Hl04|intros g Hs; by apply lock_link, lock_insert|exact Hg].
  - apply holds_link. eapply (holds_segment manifest key unwraps); [done..|by rewrite Hfresh].
  - split; cbn; try done; [by eapply in_dir_later|by eapply has_later].
  - right. split; [done|]. split; [|done|done]. destruct manifest_wf as (M1 & M2 & M3 & _). split_and!; cbn; try done.
    + apply revision_bound.
    + pose proof (zlen_nonneg log). lia.
  - cbn. split; [done|by rewrite Hbl].
  - eexists name, _, [], []. rewrite app_nil_r, Hbl. split_and!; [done| |by rewrite fn_lookup_insert|done..]. cbn. by apply (has_later _ _ _ _ _ Hl4).
Qed.
(** *** The group *)
Abbreviation group_context seg' := (segment_context database epoch seg' writer n).
Lemma wp_make_room (P : Prop) v base group Q j fs : staged fs v j seg base → sealed key (group_context seg) group (ci_encoded_group input) →
  sealed_size (ci_encoded_group input) group →
  (∀ fs' v' j' seg' base' group', staged fs' v' j' seg' base' → sealed key (group_context seg') group' (ci_encoded_group input) →
     zlen group' = zlen group → zlen base' + zlen group ≤ JOURNAL_SEGMENT_LIMIT → Q (j', fs') (Ok group')) →
  (∀ fs' j' e, uncertain e → jh_ownership j' = guard → jh_poisoned j' = true → unchanged fs' → Q (j', fs') (Err e)) →
  wp P (make_room fuel input n group) Q (j, fs).
Proof.
  intros Hst Hsealed Hsize HOk HErr. pose proof (sealed_size_bound _ _ Hsize) as Hgl. pose proof Hst as [Hd Hg Hh Hb _ [Hseg Hoff] (name & st & tail & taild & _ & _ & _ & _ & _ & Hlim & _)].
  rewrite zlen_app in Hlim. pose proof (zlen_nonneg tail). pose proof (zlen_nonneg base). pose proof (zlen_nonneg group).
  unfold make_room. apply wp_bind, wp_handle. apply wp_bind, wp_lift. rewrite Hoff. unfold checked_add.
  unfold MAX_PLAINTEXT_BYTES, SMALL_ENVELOPE_BYTES, JOURNAL_SEGMENT_LIMIT, U64_MAX in *.
  rewrite (proj2 (Z.leb_le _ _)) by lia. cbn [ok_or]. destruct (Z.ltb_spec (256 * 1024 * 1024) (zlen base + zlen group)) as [Hroom|Hroom].
  - apply wp_bind, wp_update. cbn beta iota. apply wp_bind. eapply (wp_rollover _ v); [done|done|done|by destruct Hb|by destruct Hb| |done].
    intros fs1 v1 j1 next base1 Hst1 Hbl Hpoi. cbn beta iota. unfold seal_group. apply wp_bind, wp_handle.
    pose proof Hst1 as [Hd1 Hg1 Hh1 [B1 B2 B3 B4 B5 B6 B7 B8 B9] Hwh1 [Hseg1 Hoff1] Hfile1].
    rewrite B1, B2, B3, Hseg1.
    assert (id16 next) as Hid.
    { destruct Hwh1 as [[-> _]|[_ Hhd]]; [by destruct (recorded_ids _ _ _ _ _ rec)|]. by destruct (hd_ok _ _ _ _ _ _ Hhd) as (_ & ? & _). }
    eapply wp_seal; [done|apply segment_context_ok; [done|apply revision_bound]|done|done| |].
    + intros vault group1 Hkey Hs1 Hz1 _. eapply (HOk _ v1 _ next base1); [|done|by eapply sealed_size_eq|unfold SMALL_ENVELOPE_BYTES, JOURNAL_SEGMENT_LIMIT in *; lia].
      split; try done.
    + intros vault e Hkey. apply HErr; try done. by exists v1, [].
  - apply wp_ret. eapply HOk; [exact Hst|done|done|unfold JOURNAL_SEGMENT_LIMIT; lia].
Qed.
(** The sealed group is durable at the end of the segment. *)
Record grouped fs v j (seg' base group : list byte) : Prop := mk_grouped {
  gr_disk : disk fs v;
  gr_guard : guard_held d fs v guard;
  gr_holds : holds v header (<[seg' := base ++ group]> segs) cs cs [];
  gr_below : below segs (<[seg' := base ++ group]> segs);
  gr_bound : bound fs j;
  gr_file : ∃ name, segment_name seg' = Ok name ∧ has fs name (jh_segment_file j)
}.
Lemma holds_below v segs' torn : below segs segs' → holds v header segs' cs cs torn → holds v header segs cs cs torn.
Proof. intros Hb [? ? S1 S2 ? ? ? ?]. split; try done; by eapply segments_below. Qed.
Lemma wp_write_group (P : Prop) v base seg' group (k : unit → eff (Handle * F) DurableCommit) Q j fs :
  staged fs v j seg' base → zlen base + zlen group ≤ JOURNAL_SEGMENT_LIMIT → zlen group ≤ MAX_PLAINTEXT_BYTES + SMALL_ENVELOPE_BYTES →
  (∀ fs' v', grouped fs' v' j seg' base group → wp P (k tt) Q (j, fs')) →
  (∀ fs' e, unchanged fs' → Q (j, fs') (Err (Adapter e))) →
  wp P (io (on_loop Adapter (write_all_at fuel (jh_segment_file j) (zlen base) group));;
        io (on_fs Adapter (sync_data (jh_segment_file j))) ≫= k) Q (j, fs).
Proof.
  intros [Hd Hg Hh Hb Hwh _ (name & st & tail & taild & Hname & Hf & Hv & Hst & Hstd & Hlim & Hlimd)] Hroom Hgl HOk HErr.
  assert (name ≠ entry "LOCK") as Hlock by (by eapply segment_name_other).
  rewrite zlen_app in Hlim. pose proof (zlen_nonneg base). pose proof (zlen_nonneg tail). pose proof (zlen_nonneg group).
  assert (Z.to_nat (zlen base) = length base) as Hnl by (unfold zlen; lia).
  assert (∀ bytes, zlen base + zlen bytes ≤ JOURNAL_SEGMENT_LIMIT → ∃ tail', fst_volatile (written st (length base) bytes) = base ++ bytes ++ tail'
    ∧ zlen (base ++ bytes ++ tail') ≤ JOURNAL_SEGMENT_LIMIT ∧ fst_durable (written st (length base) bytes) = base ++ taild) as Hwritten.
  { intros bytes Hbl. destruct bytes as [|b bytes]; [exists tail; by rewrite app_nil_l, zlen_app|]. cbn [written fst_volatile fst_durable].
    rewrite Hst, overwrite_tail. eexists. split; [done|]. split; [|done]. rewrite !zlen_app. unfold zlen in *. rewrite length_drop. cbn [length] in *. lia. }
  assert (∀ st', (∃ t, fst_volatile st' = base ++ t ∧ zlen (base ++ t) ≤ JOURNAL_SEGMENT_LIMIT) →
    (∃ t, fst_durable st' = base ++ t ∧ zlen (base ++ t) ≤ JOURNAL_SEGMENT_LIMIT) →
    holds (<[name := Some (st', true)]> v) header segs cs cs []) as Hput.
  { intros st' Hvol Hdu. eapply (holds_segment manifest key unwraps); [done..|]. destruct Hwh as [[-> Hs]|[Hs _]]; rewrite Hs; [|done].
    by exists st, true. }
  assert (∀ fs' st', disk fs' (<[name := Some (st', true)]> v) → later fs fs' →
    (∃ t, fst_volatile st' = base ++ t ∧ zlen (base ++ t) ≤ JOURNAL_SEGMENT_LIMIT) →
    (∃ t, fst_durable st' = base ++ t ∧ zlen (base ++ t) ≤ JOURNAL_SEGMENT_LIMIT) → unchanged fs') as Hleft.
  { intros fs' st' Hd' Hl' Hvol Hdu. eexists _, []. split_and!; [done| |by apply Hput].
    eapply guard_later; [done|intros g ?; by apply lock_insert|done]. }
  apply wp_bind, wp_io. unfold MAX_PLAINTEXT_BYTES, SMALL_ENVELOPE_BYTES in *.
  eapply wp_write; [done..|unfold U64_MAX; lia|unfold zlen in *; lia| |]; rewrite ?Hnl.
  2: { intros fs1 e i Hi Hd1 Hl1. apply HErr. destruct (Hwritten (take i group)) as (t & Ht1 & Ht2 & Ht3).
    { assert (zlen (take i group) ≤ zlen group) by (unfold zlen; rewrite length_take; lia). lia. }
    eapply Hleft; [done|done|by exists (take i group ++ t)|by exists taild]. }
  intros fs1 Hd1 Hl1. cbn beta iota. destruct (Hwritten group Hroom) as (tail' & Ht1 & Ht2 & Ht3). apply wp_bind, wp_io.
  assert (∀ x y fs', disk fs' (<[name := Some x]> (<[name := Some y]> v)) → disk fs' (<[name := Some x]> v)) as Hover.
  { intros x y fs' Hd'. eapply disk_ext; [exact Hd'|]. intros nm. apply view_insert_insert. }
  eapply wp_sync; [apply hosted_sync_data|done|by eapply has_later|by rewrite fn_lookup_insert|..].
  2: { intros fs2 e v2 Hm [->| ->] Hd2 Hl2; apply HErr.
    - eapply Hleft; [done|by etrans|by exists (group ++ tail')|by exists taild].
    - apply Hover in Hd2. eapply Hleft; [exact Hd2|by etrans|by exists (group ++ tail')|by exists (group ++ tail')]. }
  intros fs2 Hd2 Hl2. apply Hover in Hd2. cbn beta iota. assert (later fs fs2) as Hl02 by (by etrans). eapply HOk.
  split; [exact Hd2| | | |by eapply bound_later|exists name; split; [done|by eapply has_later]].
  - eapply guard_later; [done|intros g ?; by apply lock_insert|done].
  - rewrite app_assoc in Ht1, Ht2. eapply (holds_grow manifest key unwraps); [|done|by rewrite fn_lookup_insert|exact Ht1|exact Ht1|done|done].
    apply Hput; exists (group ++ tail'); rewrite app_assoc; done.
  - destruct Hwh as [[-> Hs]|[Hs _]]; [by apply below_grow|by apply below_new].
Qed.
(** *** The certificate *)

(** The new group is certified in memory; it may or may not survive a restart. *)
Definition in_doubt fs : Prop := ∃ v g c segs' seg' csd, recorded segs' (cs ++ [c]) (log ++ [g]) seg' (sha256 c)
  ∧ appended log input None g ∧ disk fs v ∧ guard_held d fs v guard ∧ holds v header segs' (cs ++ [c]) csd []
  ∧ (csd = cs ∨ csd = cs ++ [c]).
Definition recovered (c : list byte) : RecoveredGroup :=
  mk_recovered_group n (sha256 c) (ci_encoded_group input) EMPTY_BLOB_INVENTORY_DIGEST None (ci_logical_event_digest input).
Lemma appended_recovered c : appended log input None (recovered c).
Proof.
  split_and!; try done. cbn. symmetry. apply log_frontier_length. by destruct (recorded_log _ _ _ _ _ _ _ _ rec).
Qed.
Lemma recorded_commit base seg' group c : seg' = seg ∧ segs !! seg = Some base ∨ segs !! seg' = None ∧ segment_header manifest key seg' seg n base →
  sealed key (group_context seg') group (ci_encoded_group input) → zlen (ci_encoded_group input) ≤ MAX_PLAINTEXT_BYTES →
  validate_group_encoded_length (zlen group) = Ok tt → zlen base + zlen group ≤ JOURNAL_SEGMENT_LIMIT →
  sealed key (certificate_context database epoch (mn_certificate_log_id manifest) writer n) c
    (Certificate_encode (certificate_of sha256 n prev seg' (zlen base) group (ci_logical_event_digest input))) →
  zlen c = SMALL_ENVELOPE_BYTES →
  recorded (<[seg' := base ++ group]> segs) (cs ++ [c]) (log ++ [recovered c]) seg' (sha256 c).
Proof.
  intros Hwh Hg Hmax Hval Hroom Hc Hsm. destruct (recorded_ids _ _ _ _ _ rec) as (Hid & _ & Hprev).
  assert (id16 seg') as Hid'.
  { destruct Hwh as [[-> _]|[_ Hhd]]; [done|]. by destruct (hd_ok _ _ _ _ _ _ Hhd) as (_ & ? & _). }
  assert (certified n prev seg' (zlen base) group c (recovered c)) as Hcert.
  { split; try done. pose proof revision_bound. pose proof (zlen_nonneg base). pose proof (zlen_nonneg group).
    unfold certificate_ok, u64_ok, JOURNAL_SEGMENT_LIMIT, U64_MAX in *. cbn. split_and!; try done; try lia; apply sha256_width. }
  destruct Hwh as [[-> Hs]|[Hs Hhd]]; [by apply (recorded_group _ _ _ _ _ _ _ prev)|by apply (recorded_rollover _ _ _ _ _ _ seg prev)].
Qed.
Lemma wp_write_certificate (P : Prop) v base seg' group c (k : unit → eff (Handle * F) DurableCommit) Q j j0 fs :
  grouped fs v j0 seg' base group → jh_certificate_file j = jh_certificate_file j0 → zlen c = SMALL_ENVELOPE_BYTES →
  recorded (<[seg' := base ++ group]> segs) (cs ++ [c]) (log ++ [recovered c]) seg' (sha256 c) →
  (∀ fs' v', disk fs' v' → later fs fs' → guard_held d fs' v' guard → holds v' header (<[seg' := base ++ group]> segs) (cs ++ [c]) (cs ++ [c]) [] →
     wp P (k tt) Q (j, fs')) →
  (∀ fs' e, unchanged fs' ∨ in_doubt fs' → Q (j, fs') (Err (Adapter e))) →
  wp P (io (on_loop Adapter (write_all_at fuel (jh_certificate_file j) (SMALL_ENVELOPE_BYTES * n) c));;
        io (on_fs Adapter (sync_data (jh_certificate_file j))) ≫= k) Q (j, fs).
Proof.
  intros [Hd Hg Hh Hbelow Hb _] -> Hc Hrec HOk HErr. pose proof Hh as [_ _ _ _ [_ Hhl] (Hcert & _ & Hclim) _ _].
  apply vol_state in Hcert as (st & linked & Hv & Hst). rewrite app_nil_r in Hst, Hclim.
  destruct (recorded_log _ _ _ _ _ _ _ _ rec) as (_ & Hlen & Hsmall). pose proof (zlen_nonneg log).
  assert (zlen (header ++ concat cs) = SMALL_ENVELOPE_BYTES * n) as Hoff.
  { rewrite zlen_app, concat_small, Hhl by done. unfold zlen. rewrite Hlen. lia. }
  assert (Z.to_nat (SMALL_ENVELOPE_BYTES * n) = length (header ++ concat cs)) as Hnl by (unfold zlen in Hoff at 1; lia).
  assert (∀ bytes, fst_volatile (written st (length (header ++ concat cs)) bytes) = header ++ concat cs ++ bytes
    ∧ fst_durable (written st (length (header ++ concat cs)) bytes) = fst_durable st) as Hw.
  { intros [|b bytes]; [by rewrite app_nil_r|]. cbn [written fst_volatile fst_durable]. by rewrite Hst, overwrite_end, app_assoc. }
  assert (∀ v', (∀ g, lock_state v g → lock_state v' g) → ∀ fs', later fs fs' → guard_held d fs' v' guard) as Hguard
    by (intros v' Hl fs' Hlt; by eapply guard_later).
  assert (header ++ concat (cs ++ [c]) ++ [] = header ++ concat cs ++ c) as Hfull by (rewrite concat_app; cbn; by rewrite !app_nil_r).
  assert (zlen (header ++ concat (cs ++ [c]) ++ []) ≤ CERTIFICATE_LOG_LIMIT) as Hflim.
  { rewrite Hfull, app_assoc, zlen_app, Hoff, Hc. lia. }
  apply wp_bind, wp_io. unfold MAX_PLAINTEXT_BYTES, SMALL_ENVELOPE_BYTES in *.
  eapply wp_write; [done|apply Hb|done|lia|unfold U64_MAX; lia|unfold zlen in *; lia| |]; rewrite ?Hnl.
  2: { intros fs1 e i Hi Hd1 Hl1. apply HErr. destruct (Hw (take i c)) as [Hw1 Hw2]. destruct (decide (i = length c)) as [->|Hne].
    - rewrite firstn_all in *. right. eexists _, _, _, _, _, cs. split_and!; [exact Hrec|apply appended_recovered|exact Hd1| | |by left].
      + apply Hguard; [intros g ?; by apply lock_insert|done].
      + eapply (holds_certificates manifest key unwraps); [done..| |done|done|by left|by right; eexists]. by rewrite Hw1, Hfull.
    - left. eexists _, (take i c). split_and!; [exact Hd1|apply Hguard; [intros g ?; by apply lock_insert|done]|].
      eapply holds_below; [exact Hbelow|]. eapply (holds_certificates manifest key unwraps); [done..|exact Hw1| | |by left|by left].
      + unfold SMALL_ENVELOPE_BYTES, zlen in *. rewrite length_take. lia.
      + rewrite app_assoc, zlen_app, Hoff. assert (zlen (take i c) ≤ 4161) by (unfold zlen in *; rewrite length_take; lia). lia. }
  intros fs1 Hd1 Hl1. cbn beta iota. destruct (Hw c) as [Hw1 Hw2]. apply wp_bind, wp_io.
  assert (holds (<[entry "CERTIFICATES" := Some (written st (length (header ++ concat cs)) c, linked)]> v) header
    (<[seg' := base ++ group]> segs) (cs ++ [c]) cs []) as Hh1.
  { eapply (holds_certificates manifest key unwraps); [done..| |done|done|by left|by right; eexists]. by rewrite Hw1, Hfull. }
  assert (holds (<[entry "CERTIFICATES" := Some (synced (written st (length (header ++ concat cs)) c), linked)]> v) header
    (<[seg' := base ++ group]> segs) (cs ++ [c]) (cs ++ [c]) []) as Hh2.
  { eapply (holds_certificates manifest key unwraps); [done..| |done|done|by right|by left]. cbn. by rewrite Hw1, Hfull. }
  assert (∀ x y fs', disk fs' (<[entry "CERTIFICATES" := Some x]> (<[entry "CERTIFICATES" := Some y]> v)) → disk fs' (<[entry "CERTIFICATES" := Some x]> v)) as Hover.
  { intros x y fs' Hd'. eapply disk_ext; [exact Hd'|]. intros nm. apply view_insert_insert. }
  eapply wp_sync; [apply hosted_sync_data|done|eapply has_later; [done|apply Hb]|by rewrite fn_lookup_insert|..].
  2: { intros fs2 e v2 Hm [->| ->] Hd2 Hl2; apply HErr; right; [|apply Hover in Hd2];
    (eexists _, _, _, _, _, _; split_and!; [exact Hrec|apply appended_recovered|exact Hd2|apply Hguard; [intros g ?; by apply lock_insert|by etrans]|eassumption|]); [by left|by right]. }
  intros fs2 Hd2 Hl2. apply Hover in Hd2. cbn beta iota. eapply HOk; [exact Hd2|by etrans| |done].
  apply Hguard; [intros g ?; by apply lock_insert|by etrans].
Qed.
(** The handle is as good as before. *)
Definition still_owned fs j : Prop :=
  ∃ v, disk fs v ∧ holds v header segs cs cs [] ∧ owned fs v j segs log seg prev ∧ jh_poisoned j = false.
Definition committed fs j (commit : DurableCommit) : Prop := ∃ v g c segs' seg',
  recorded segs' (cs ++ [c]) (log ++ [g]) seg' (sha256 c) ∧ appended log input None g ∧ dc_revision commit = rg_revision g
  ∧ dc_certificate_digest commit = rg_certificate_digest g ∧ disk fs v ∧ holds v header segs' (cs ++ [c]) (cs ++ [c]) []
  ∧ owned fs v j segs' (log ++ [g]) seg' (sha256 c) ∧ jh_poisoned j = false.
Lemma owned_staged fs v j : disk fs v → holds v header segs cs cs [] → owned fs v j segs log seg prev → jh_ownership j = guard →
  ∃ base, staged fs v j seg base.
Proof.
  intros Hd Hh [O1 O2 O3 O4 O5 O6 O7 (name & Hname & Hf) (base & Hb & Hoff) O9 O10 O11 O12] Hguard. exists base.
  destruct (hs_volatile_segments _ _ _ _ _ _ _ _ _ Hh _ _ Hb) as (name1 & tail & Hn1 & Hv1 & Hl1).
  destruct (hs_durable_segments _ _ _ _ _ _ _ _ _ Hh _ _ Hb) as (name2 & taild & Hn2 & Hv2 & Hl2).
  rewrite Hname in Hn1, Hn2. injection Hn1 as <-. injection Hn2 as <-. apply vol_state in Hv1 as (st & linked & Hv & Hst).
  destruct (dur_linked _ _ _ _ _ Hv Hv2) as [-> Hstd].
  split; [done|by rewrite <-Hguard|done|by split|by left|done|]. by exists name, st, tail, taild.
Qed.
Lemma owned_vault fs v j vault : holds_key manifest key vault → owned fs v j segs log seg prev → owned fs v (set_vault j vault) segs log seg prev.
Proof. intros Hk []. by split. Qed.
Lemma wp_append_rest (P : Prop) v base seg' group Q j fs : staged fs v j seg' base →
  sealed key (group_context seg') group (ci_encoded_group input) → zlen (ci_encoded_group input) ≤ MAX_PLAINTEXT_BYTES →
  validate_group_encoded_length (zlen group) = Ok tt → zlen base + zlen group ≤ JOURNAL_SEGMENT_LIMIT →
  zlen group ≤ MAX_PLAINTEXT_BYTES + SMALL_ENVELOPE_BYTES →
  (∀ fs' j' commit, committed fs' j' commit → jh_ownership j' = guard → Q (j', fs') (Ok commit)) →
  (∀ fs' j' e, jh_ownership j' = guard → jh_poisoned j' = true → uncertain e →
     unchanged fs' ∨ in_doubt fs' → Q (j', fs') (Err e)) →
  wp P (append_rest sha256 fuel input EMPTY_BLOB_INVENTORY_DIGEST n (SMALL_ENVELOPE_BYTES * n) (zlen group) group) Q (j, fs).
Proof.
  intros Hst Hsealed Hmax Hval Hroom Hgl HOk HErr. pose proof Hst as [_ _ _ [B1 B2 B3 B4 B5 B6 B7 B8 B9] Hwh [Hseg Hoff] _].
  unfold append_rest. apply wp_bind, wp_handle. apply wp_bind, wp_update. cbn beta iota. rewrite Hoff.
  eapply (wp_write_group _ v base seg' group _ _ (set_poisoned j true)); [by destruct Hst; split|done|done| |intros fs1 e Hu; by apply HErr; auto].
  intros fs1 v1 Hgr. cbn beta iota. rewrite B1, B2, B3, B4, B7, Hseg. apply wp_bind.
  eapply wp_seal; [done|apply certificate_context_ok, revision_bound|done|done| |].
  2: { intros vault e Hkey. apply HErr; try done. left. destruct Hgr as [Hd Hg Hh Hbelow _ _]. exists v1, [].
    split_and!; [done|done|by eapply holds_below]. }
  intros vault c Hkey Hc _ _. cbn beta iota. apply wp_bind, wp_lift. unfold require_small_envelope.
  destruct (Z.eqb_spec (zlen c) SMALL_ENVELOPE_BYTES) as [Hsm|]; cbn beta iota.
  2: { apply HErr; try done. left. destruct Hgr as [Hd Hg Hh Hbelow _ _]. exists v1, []. split_and!; [done|done|by eapply holds_below]. }
  assert (recorded (<[seg' := base ++ group]> segs) (cs ++ [c]) (log ++ [recovered c]) seg' (sha256 c)) as Hrec by (by apply recorded_commit).
  change (jh_certificate_file j) with (jh_certificate_file (set_vault (set_poisoned j true) vault)).
  eapply (wp_write_certificate _ v1 base seg' group c); [exact Hgr|done|done|done| |intros fs2 e Hu; by apply HErr].
  intros fs2 v2 Hd2 Hl2 Hg2 Hh2. cbn beta iota. apply wp_bind, wp_update. cbn beta iota. apply wp_ret. apply HOk; [|done].
  exists v2, (recovered c), c, (<[seg' := base ++ group]> segs), seg'.
  split_and!; [done|apply appended_recovered|done|done|done|done| |done].
  destruct Hgr as [_ _ _ _ [G1 G2 G3 G4 G5 G6 G7 G8 G9] (name & Hname & Hf)]. cbn in *.
  split; cbn; try done.
  - by eapply in_dir_later.
  - by eapply has_later.
  - exists name. split; [done|by eapply has_later].
  - exists (base ++ group). rewrite lookup_insert_eq, zlen_app. done.
  - unfold log_frontier. by rewrite last_snoc.
  - by rewrite B9.
Qed.
End run.
(** Every outcome of an append by the handle of a store. *)
Lemma wp_append_group (P : Prop) header segs cs log seg prev input v Q j fs : recorded segs cs log seg prev →
  digest32 (ci_logical_event_digest input) → disk fs v → holds v header segs cs cs [] → owned fs v j segs log seg prev → jh_poisoned j = false →
  (∀ fs' j' commit, committed header cs log input fs' j' commit → jh_ownership j' = jh_ownership j → Q (j', fs') (Ok commit)) →
  (∀ fs' j' e, jh_ownership j' = jh_ownership j → still_owned header segs cs log seg prev fs' j' → Q (j', fs') (Err e)) →
  (∀ fs' j' e, jh_ownership j' = jh_ownership j → jh_poisoned j' = true → uncertain e →
     unchanged header segs cs (jh_ownership j) fs' ∨ in_doubt header cs log input (jh_ownership j) fs' → Q (j', fs') (Err e)) →
  wp P (append_group sha256 fuel input) Q (j, fs).
Proof.
  intros Hrec Hdig Hd Hh Hown Hpoi HOk HKeep HErr. unfold append_group, append_group_internal. apply wp_bind, wp_handle.
  destruct (recorded_log _ _ _ _ _ _ _ _ Hrec) as (Hnum & _ & _).
  pose proof (append_place_spec j log input Hpoi (ow_frontier _ _ _ _ _ _ _ _ _ _ Hown) Hnum) as Hplace.
  apply wp_bind, wp_lift. destruct (append_place j input) as [[revision offset]|e].
  2: { apply HKeep; [done|]. by exists v. }
  destruct Hplace as (-> & -> & Hroom & Hmax). destruct (owned_staged header segs cs log seg prev (jh_ownership j) fs v j Hd Hh Hown eq_refl) as [base Hst].
  cbn beta iota. apply wp_bind. unfold seal_group. apply wp_bind, wp_handle. pose proof Hown as [O1 O2 O3 _ _ _ O7 _ _ _ _ O11 _].
  rewrite O1, O2, O3, O7. destruct (recorded_ids _ _ _ _ _ Hrec) as (Hid & _ & _).
  eapply wp_seal; [done|apply segment_context_ok; [done|by apply revision_bound]|done|done| |].
  2: { intros vault e Hkey. apply HKeep; [done|]. exists v. split_and!; [done|done|by apply owned_vault|done]. }
  intros vault group Hkey Hsealed Hsize _. cbn beta iota. apply wp_bind, wp_lift.
  destruct (validate_group_encoded_length (zlen group)) as [[]|e] eqn:Hval; cbn beta iota.
  2: { apply HKeep; [done|]. exists v. split_and!; [done|done|by apply owned_vault|done]. }
  apply wp_bind. eapply (wp_make_room header segs cs log seg prev input (jh_ownership j) Hrec Hroom _ v base group); [|done|done| |].
  - destruct Hst as [? ? ? [] ? ? ?]. by split.
  - intros fs1 v1 j1 seg1 base1 group1 Hst1 Hsealed1 Hlen1 Hroom1. cbn beta iota. rewrite <-Hlen1 in *.
    eapply (wp_append_rest header segs cs log seg prev input (jh_ownership j) Hrec Hdig Hroom); [exact Hst1|done|done|done|done| | |].
    + rewrite Hlen1. by eapply sealed_size_bound.
    + intros fs2 j2 commit Hc Hguard2. by apply HOk.
    + intros fs2 j2 e Hg2 Hp2 He Hcase. by apply HErr.
  - intros fs1 j1 e He Hg1 Hp1 Hu. apply HErr; try done. by left.
Qed.
(** A poisoned handle refuses. *)
Lemma append_poisoned j fs input : jh_poisoned j = true → append_group sha256 fuel input (j, fs) = Some ((j, fs), Err NeedsRecovery).
Proof. intros Hp. unfold append_group, append_group_internal, append_place, mbind, eff_bind, handle, eff_lift. cbn. by rewrite Hp. Qed.
End append.

(** ** Creating a store

    When [create] succeeds, the files of the new database hold the empty log, in
    memory and durably, and the handle owns it. *)

(** ** The root directory *)
Definition root_wf (m : MemoryFileSystem) : Prop :=
  ROOT_NODE < mem_next_node m ∧ is_Some (mem_directories m !! ROOT_NODE) ∧ 0 ≤ mem_file_limit m ≤ U64_MAX ∧ 0 < mem_generation m.
(** [handle] is the root directory. *)
Definition root_handle (m : MemoryFileSystem) (handle : MemoryDirectory) : Prop :=
  md_node handle = ROOT_NODE ∧ md_generation handle = mem_generation m.
Definition shows (name : EntryName) (d : Z) (root : MemoryDirectoryState) : Prop := ds_volatile root !! name = Some (NodeDirectory d).
Lemma create_directory_view m handle name m' r : root_wf m → root_handle m handle → memory_create_directory handle name m = (m', r) →
  root_wf m' ∧ mem_generation m' = mem_generation m ∧
  ∀ dh, r = Ok dh → ∃ d, db (shows name d) d m' ∧ opened m' d dh ∧ ∀ n, view m' d n = None.
Proof.
  intros (Hnext & [root Hroot] & Hlim) [Hno Hgen]. unfold memory_create_directory, memory_directory. rewrite Hgen, Z.eqb_refl, Hno, Hroot. cbn [negb ok_or].
  case_bool_decide as Hname; [intros [= <- <-]; by split_and!; eauto|]. unfold allocate_node, checked_add.
  destruct (_ <=? _); [|intros [= <- <-]; by split_and!; eauto]. cbn [mem_generation mem_directories with_directories].
  rewrite ?Z.eqb_refl, ?Hno, lookup_insert_ne by lia. cbn [negb]. rewrite Hroot. cbn [ok_or]. intros [= <- <-].
  split; [unfold root_wf; cbn; split_and!; [lia|by rewrite Hno, lookup_insert_eq|lia..]|split; [done|]]. intros dh [= <-]. exists (mem_next_node m). split_and!.
  - eexists. split; cbn.
    + eexists. rewrite Hno, lookup_insert_eq. split; [done|]. unfold shows. cbn. by rewrite lookup_insert_eq.
    + by rewrite Hno, lookup_insert_ne, lookup_insert_eq by lia.
    + lia.
    + done.
    + by intros n k.
    + by intros n1 n2 k.
    + done.
    + by intros n k.
  - by split.
  - intros n. unfold view. cbn. rewrite Hno, lookup_insert_ne, lookup_insert_eq by lia. done.
Qed.
(** Changing the root directory leaves the others alone. *)
Lemma root_put R R' d m handle root' : db R d m → root_handle m handle → R' root' →
  let m' := put_directory handle root' m in db R' d m' ∧ keeps_handles d m m' ∧ ∀ n, view m' d n = view m d n.
Proof.
  intros [dir Hp] [Hno Hgen] HR m'. assert (mem_directories m' !! d = mem_directories m !! d) as Hsame.
  { subst m'. cbn. rewrite Hno, lookup_insert_ne; [done|]. intros Heq. by apply (pub_fresh _ _ _ _ Hp). }
  split; [|split].
  - exists dir. destruct Hp. split; try done.
    + exists root'. subst m'. cbn. by rewrite Hno, lookup_insert_eq.
    + by rewrite Hsame.
  - split_and!; [done..|]. intros n file [Hg (dir' & Hd & Hn)]. split; [done|]. exists dir'. by rewrite Hsame.
  - intros n. unfold view. by rewrite Hsame.
Qed.
Lemma rename_view d m handle name name' m' : db (shows name d) d m → root_handle m handle →
  memory_rename_no_replace handle name handle name' m = (m', Ok tt) →
  db (shows name' d) d m' ∧ keeps_handles d m m' ∧ (∀ n, view m' d n = view m d n) ∧ root_handle m' handle.
Proof.
  intros Hdb Hroot. pose proof Hdb as [dir Hp]. destruct (pub_root _ _ _ _ Hp) as (root & Hr & Hshow). destruct Hroot as [Hno Hgen].
  assert (memory_directory handle m = Ok root) as Hmd by (unfold memory_directory; by rewrite Hgen, Z.eqb_refl, Hno, Hr).
  unfold memory_rename_no_replace. rewrite Hmd, result_bind_Ok, Hshow. cbn [ok_or]. case_bool_decide; [done|].
  set (root1 := mk_directory_state _ _). assert (memory_directory handle (put_directory handle root1 m) = Ok root1) as ->.
  { unfold memory_directory, put_directory. cbn. by rewrite Hgen, Z.eqb_refl, lookup_insert_eq. }
  set (root2 := mk_directory_state _ _). intros [= <-].
  destruct (root_put _ (λ _, True) d m handle root1 Hdb ltac:(by split) I) as (Hdb1 & Hk1 & Hv1).
  destruct (root_put _ (shows name' d) d _ handle root2 Hdb1 ltac:(by split) ltac:(unfold shows; cbn; by rewrite lookup_insert_eq)) as (Hdb2 & Hk2 & Hv2).
  split_and!; [done|by etrans|by intros n; rewrite Hv2|by split].
Qed.
Lemma sync_root_view d m handle name m' : db (shows name d) d m → root_handle m handle →
  memory_sync_directory handle m = (m', Ok tt) → db (named name d) d m' ∧ keeps_handles d m m' ∧ ∀ n, view m' d n = view m d n.
Proof.
  intros Hdb Hroot. pose proof Hdb as [dir Hp]. destruct (pub_root _ _ _ _ Hp) as (root & Hr & Hshow). pose proof Hroot as [Hno Hgen].
  assert (memory_directory handle m = Ok root) as Hmd by (unfold memory_directory; by rewrite Hgen, Z.eqb_refl, Hno, Hr).
  unfold memory_sync_directory. rewrite Hmd. intros [= <-]. by apply (root_put _ (named name d) d m handle _ Hdb Hroot).
Qed.

Section create.
Context {F W E I : Type} `{AeadLaws, HostedFileSystem F, !EntropySource E, !EntropyLaws E, !EntropySource I, !EntropyLaws I, DurableKeyEnvelope W}.
Context (sha256 : list byte → list byte) (fuel pending : nat) (key : list byte) (unwraps : list byte → Prop) (options : CreationOptions).
Context (fuel_ok : MAX_PLAINTEXT_BYTES + SMALL_ENVELOPE_BYTES + Z.of_nat pending < Z.of_nat fuel) (key_width : length key = 32%nat).
Abbreviation Handle := (JournalHandle (F := F) (W := W) (E := E) (I := I)).
Abbreviation State := (KeyVault W E * I * F)%type.
Implicit Types (fs : F) (v : View) (vault : KeyVault W E) (entropy : I).

(** Only success is of interest here. *)
Definition success {T} (Q : State → T → Prop) (s : State) (r : result StorageError T) : Prop :=
  match r with Ok t => Q s t | Err _ => True end.
Lemma wp_create_id (P : Prop) Q vault entropy fs :
  (∀ entropy' bytes, length bytes = 16%nat → bytes ≠ zeros 16 → Q (vault, entropy', fs) bytes) → wp P create_id (success Q) (vault, entropy, fs).
Proof.
  intros HOk. unfold wp, create_id, random_nonzero_id.
  destruct (random_attempts RANDOM_ATTEMPTS entropy) as [entropy' [bytes|e]] eqn:Hr; [|done].
  destruct (random_attempts_width _ _ _ _ Hr). by apply HOk.
Qed.
Lemma wp_success_bind {T U} (P : Prop) (m : eff State T) (k : T → eff State U) Q s :
  wp P m (success (λ s' t, wp P (k t) (success Q) s')) s → wp P (m ≫= k) (success Q) s.
Proof. intros Hm. apply wp_bind. eapply wp_mono; [exact Hm|]. intros s' [t|e]; [done|]. done. Qed.

(** ** The directory *)
Lemma wp_temporary (P : Prop) root Q n : ∀ vault entropy fs, ready pending fs → root_wf (hosted fs) → root_handle (hosted fs) (dir_of root) →
  (∀ entropy' fs' name directory d, ready pending fs' → db (shows name d) d (hosted fs') → in_dir d fs' directory →
     root_handle (hosted fs') (dir_of root) → (∀ n, view (hosted fs') d n = None) → Q (vault, entropy', fs') (name, directory)) →
  wp P (temporary_attempts n root) (success Q) (vault, entropy, fs).
Proof.
  induction n as [|n IH]; intros vault entropy fs Hr Hwf Hroot HOk; cbn [temporary_attempts]; [by apply wp_fail|].
  apply wp_success_bind, wp_create_id. intros entropy' bytes _ _. cbn beta iota. set (candidate := mk_entry_name _).
  apply wp_success_bind. unfold wp, io. cbn [snd fst].
  destruct (create_directory root candidate fs) as [fs1 r] eqn:Hc. destruct (hosted_create_directory pending root candidate fs fs1 r Hr Hc) as [Hr1 Hcase].
  destruct (memory_create_directory (dir_of root) candidate (hosted fs)) as [m mr] eqn:Hm.
  destruct (create_directory_view _ _ _ _ _ Hwf Hroot Hm) as (Hwf' & Hgen & Hview). cbn beta iota.
  assert (root_wf (hosted fs1) ∧ root_handle (hosted fs1) (dir_of root)) as [Hwf1 Hroot1].
  { assert (hosted fs1 = hosted fs ∨ hosted fs1 = m) as [->| ->]; [|done|split; [done|destruct Hroot; split; congruence]].
    destruct Hcase as [[= -> _]|(_ & _ & [Heq|Heq])]; auto. }
  destruct r as [directory|e]; cbn [success].
  - destruct Hcase as [[= -> ->]|(_ & [? ?] & _)]; [|done]. destruct (Hview _ eq_refl) as (d & Hdb & Hop & Hnone). apply wp_ret. by eapply HOk.
  - destruct e; try (by apply wp_fail). by apply IH.
Qed.

(** ** The files *)
Section files.
Context (manifest : Manifest) (manifest_wf : manifest_ok manifest) (manifest_database : mn_database manifest = co_database options).
Context (root_ok : MemoryDirectoryState → Prop) (d : Z).
Abbreviation database := (mn_database manifest).
Abbreviation epoch := (mn_epoch manifest).
Abbreviation writer := (mn_writer manifest).
Abbreviation disk := (disk pending root_ok d).
Abbreviation has := (has d).
Abbreviation later := (later d).
Definition file_with (contents : list byte) : MemoryFileState := mk_file_state contents contents 0.
Lemma wp_create_plain (P : Prop) directory name contents v Q vault entropy fs : disk fs v → in_dir d fs directory →
  zlen contents ≤ MAX_PLAINTEXT_BYTES + SMALL_ENVELOPE_BYTES →
  (∀ fs' file, disk fs' (<[name := Some (file_with contents, false)]> v) → later fs fs' → has fs' name file → v name = None →
     Q (vault, entropy, fs') file) →
  wp P (io (create_file fuel directory name contents)) (success Q) (vault, entropy, fs).
Proof.
  intros Hd Hin Hlen HOk. apply wp_io. unfold MAX_PLAINTEXT_BYTES, SMALL_ENVELOPE_BYTES in *.
  eapply wp_create_file; [done|done|unfold U64_MAX; lia|unfold zlen in *; lia| |done].
  intros fs' file Hnone Hd' Hl Hf. by apply HOk.
Qed.
Lemma wp_create_sealed (P : Prop) directory name context plaintext v Q vault entropy fs : disk fs v → in_dir d fs directory →
  holds_key manifest key vault → context_ok context →
  (∀ vault' fs' nm file bytes e, holds_key manifest key vault' → name = Ok nm → v nm = None →
     disk fs' (<[nm := Some (file_with bytes, false)]> v) → later fs fs' → has fs' nm file → zlen bytes = SMALL_ENVELOPE_BYTES →
     envelope_decode bytes = Ok e → ev_epoch e = cx_epoch context → decrypt key context e = Ok plaintext →
     Q (vault', entropy, fs') file) →
  wp P (create_sealed fuel directory name context plaintext) (success Q) (vault, entropy, fs).
Proof.
  intros Hd Hin Hkey Hcx HOk. unfold create_sealed. apply wp_success_bind. unfold wp at 1, create_seal.
  destruct (vault_encrypt vault context plaintext) as [vault' r] eqn:Henc.
  apply (vault_seals manifest key) in Henc as [Hkey' Hcase]; [|done..]. destruct r as [e|e]; [|done].
  destruct Hcase as (bytes & m & Hb & Hdec & Hplain & Hep & _). rewrite result_bind_Ok, Hb. cbn [map_err success].
  apply wp_success_bind, wp_lift. unfold require_small_envelope. destruct (Z.eqb_spec (zlen bytes) SMALL_ENVELOPE_BYTES) as [Hsm|]; [|done].
  cbn [success]. apply wp_success_bind, wp_lift. destruct name as [nm|]; [|done]. cbn [success].
  eapply wp_create_plain; [done|done|rewrite Hsm; by unfold SMALL_ENVELOPE_BYTES, MAX_PLAINTEXT_BYTES; lia|].
  intros fs' file Hd' Hl Hf Hnone. by eapply HOk.
Qed.
(** The four files, all flushed. *)
Record written_files (lock : MemoryFileState) (v' : View) : Prop := mk_written_files {
  wf_lock : v' (entry "LOCK") = Some (lock, false);
  wf_key : ∃ wrapped, v' (entry "KEY") = Some (file_with wrapped, false) ∧ 0 < zlen wrapped ≤ MAX_KEY_ENVELOPE_BYTES ∧ unwraps wrapped;
  wf_manifest : ∃ bytes, v' (entry "MANIFEST") = Some (file_with bytes, false) ∧ zlen bytes = SMALL_ENVELOPE_BYTES
    ∧ ∃ e, envelope_decode bytes = Ok e ∧ ev_epoch e = epoch ∧ decrypt key (manifest_context database epoch) e = Ok (Manifest_encode manifest);
  wf_header : ∃ header, v' (entry "CERTIFICATES") = Some (file_with header, false) ∧ log_header manifest key header;
  wf_segment : ∃ name bytes, segment_name (mn_initial_segment_id manifest) = Ok name ∧ v' name = Some (file_with bytes, false)
    ∧ segment_header manifest key (mn_initial_segment_id manifest) (zeros 16) 1 bytes
}.
Definition linked (v : View) : View := λ n, (λ x, (x.1, true)) <$> v n.
Lemma written_holds lock v : written_files lock v → fst_volatile lock = [] → fst_durable lock = [] →
  ∃ header bytes, holds manifest key unwraps (linked v) header {[mn_initial_segment_id manifest := bytes]} [] [] []
    ∧ recorded sha256 manifest key {[mn_initial_segment_id manifest := bytes]} [] [] (mn_initial_segment_id manifest) (zeros 32)
    ∧ zlen bytes = SMALL_ENVELOPE_BYTES.
Proof.
  intros [Hl (wrapped & Hk & Hkl & Hu) (sm & Hm & Hml & He) (header & Hc & Hh) (name & bytes & Hn & Hs & Hsh)] Hlv Hld.
  assert (∀ n contents, v n = Some (file_with contents, false) → vol (linked v) n = Some contents ∧ dur (linked v) n = Some contents) as Hfile.
  { intros n contents Hv. unfold vol, dur, linked. by rewrite Hv. }
  destruct (Hfile _ _ Hk) as [K1 K2]. destruct (Hfile _ _ Hm) as [M1 M2]. destruct (Hfile _ _ Hc) as [C1 C2]. destruct (Hfile _ _ Hs) as [S1 S2].
  assert (vol (linked v) (entry "LOCK") = Some [] ∧ dur (linked v) (entry "LOCK") = Some []) as [L1 L2].
  { unfold vol, dur, linked. rewrite Hl. cbn. by rewrite Hlv, Hld. }
  pose proof Hh as [_ Hhl]. pose proof (hd_small _ _ _ _ _ _ Hsh) as Hsl. exists header, bytes. split_and!; [|by constructor|done].
  assert (zlen (header ++ concat [] ++ []) ≤ CERTIFICATE_LOG_LIMIT) as Hlim by (cbn; rewrite app_nil_r, Hhl; done).
  split; [exists wrapped, sm; split_and!; eauto; lia|exists wrapped, sm; split_and!; eauto; lia| | |done| |exists []|by left].
  - intros id b [<- <-]%lookup_singleton_Some. exists name, []. rewrite app_nil_r. split_and!; [done..|by rewrite Hsl].
  - intros id b [<- <-]%lookup_singleton_Some. exists name, []. rewrite app_nil_r. split_and!; [done..|by rewrite Hsl].
  - split; [cbn; by rewrite app_nil_r|done].
  - split; [cbn; by rewrite app_nil_r|done].
Qed.
End files.

(** ** Publication *)
Section publish.
Context (manifest : Manifest) (manifest_wf : manifest_ok manifest) (manifest_database : mn_database manifest = co_database options).
Context (d : Z) (temporary : EntryName).
Abbreviation later := (later d).
Abbreviation building := (disk pending (shows temporary d) d).
Abbreviation final := (co_final_name options).
Lemma wp_publish (P : Prop) root directory v Q (x : KeyVault W E * I) fs : building fs v → in_dir d fs directory → root_handle (hosted fs) (dir_of root) →
  (∀ fs', disk pending (named final d) d fs' (linked v) → later fs fs' → Q (x, fs')) →
  wp P (io (on_fs Adapter (sync_directory directory));; io (on_fs Adapter (rename_no_replace root temporary root final));;
        io (on_fs Adapter (sync_directory root))) (success (λ s _, Q s)) (x, fs).
Proof.
  intros Hd Hin Hroot HOk. apply wp_bind, wp_io. eapply wp_sync_directory; [done..| |done]. intros fs1 Hd1 Hl1. fold (linked v) in Hd1. cbn beta iota.
  assert (root_handle (hosted fs1) (dir_of root)) as Hroot1 by (destruct Hl1 as (Hg & _); destruct Hroot; split; congruence).
  pose proof Hd1 as (Hr1 & Hdb1 & Hv1). apply wp_bind, wp_io. eapply wp_call; [apply hosted_rename|done| |done].
  intros fs2 [] Hr2 Hrun. cbn beta iota. destruct (rename_view _ _ _ _ _ _ Hdb1 Hroot1 Hrun) as (Hdb2 & Hk2 & Hv2 & Hroot2).
  apply wp_io. eapply wp_call; [apply hosted_sync_directory|done| |done].
  intros fs3 [] Hr3 Hrun3. cbn [success]. destruct (sync_root_view _ _ _ _ _ Hdb2 Hroot2 Hrun3) as (Hdb3 & Hk3 & Hv3).
  apply HOk; [|by do 2 (etrans; [done|])]. split_and!; [done..|]. intros n. by rewrite Hv3, Hv2, Hv1.
Qed.
Lemma wp_create_files (P : Prop) root directory lock v Q vault entropy fs : building fs v → in_dir d fs directory →
  root_handle (hosted fs) (dir_of root) → holds_key manifest key vault → (∀ wrapped, encode_durable (kv_wrapped vault) = Ok wrapped → unwraps wrapped) →
  v (entry "LOCK") = Some (lock, false) →
  (∀ vault' fs' v' cfile sfile name, holds_key manifest key vault' → disk pending (named final d) d fs' (linked v') → later fs fs' →
     written_files manifest lock v' → has d fs' (entry "CERTIFICATES") cfile →
     segment_name (mn_initial_segment_id manifest) = Ok name → has d fs' name sfile → Q (vault', entropy, fs') (cfile, sfile)) →
  wp P (create_files fuel options manifest root directory temporary) (success Q) (vault, entropy, fs).
Proof.
  intros Hd Hin Hroot Hkey Hun Hlock HOk. pose proof manifest_wf as (M1 & M2 & M3 & M4 & M5 & M6 & M7 & M8 & M9).
  unfold create_files. apply wp_success_bind. unfold wp at 1, eff_get. cbn [success]. rewrite <-manifest_database.
  apply wp_success_bind, wp_lift. destruct (encode_durable (kv_wrapped vault)) as [wrapped|] eqn:Hw; [|done]. cbn [map_err success].
  specialize (Hun _ eq_refl). destruct (Z.eqb_spec (zlen wrapped) 0); [by apply wp_fail|]. destruct (Z.ltb_spec MAX_KEY_ENVELOPE_BYTES (zlen wrapped)); [by apply wp_fail|].
  cbn [orb]. pose proof (zlen_nonneg wrapped). apply wp_success_bind.
  eapply (wp_create_plain (shows temporary d) d); [done|done|unfold MAX_KEY_ENVELOPE_BYTES, MAX_PLAINTEXT_BYTES, SMALL_ENVELOPE_BYTES in *; lia|].
  intros fs1 kfile Hd1 Hl1 _ _. apply wp_success_bind.
  eapply (wp_create_sealed manifest (shows temporary d) d); [done|by eapply in_dir_later|done| |].
  { unfold context_ok, manifest_context, u64_ok in *. cbn. split_and!; try done; lia. }
  intros vault2 fs2 _ mfile mbytes me Hkey2 [= <-] _ Hd2 Hl2 _ Hml Hmd Hme Hmp. apply wp_success_bind.
  eapply (wp_create_sealed manifest (shows temporary d) d); [done|by do 2 (eapply in_dir_later; [done|])|done|by apply certificate_context_ok; [|unfold U64_MAX]|].
  intros vault3 fs3 _ cfile cbytes ce Hkey3 [= <-] _ Hd3 Hl3 Hcf Hcl Hcd _ Hcp. apply wp_success_bind.
  eapply (wp_create_sealed manifest (shows temporary d) d); [done|by do 3 (eapply in_dir_later; [done|])|done|by apply segment_context_ok; [|done|unfold U64_MAX]|].
  intros vault4 fs4 name sfile sbytes se Hkey4 Hname Hnone Hd4 Hl4 Hsf Hsl Hsd _ Hsp.
  assert (later fs fs4) as Hl04 by (etrans; [exact Hl1|]; etrans; [exact Hl2|]; etrans; [exact Hl3|]; exact Hl4).
  set (v4 := <[name := Some (file_with sbytes, false)]> _) in Hd4.
  assert (∀ s, head (lit s) ≠ head (lit "j-") → entry s ≠ name) as Hother by (intros s Hs Heq; by apply (segment_name_other _ name s Hname)).
  assert (written_files manifest lock v4) as Hwf.
  { split; unfold v4.
    - rewrite fn_lookup_insert_ne by (by apply not_eq_sym, Hother). by rewrite !fn_lookup_insert_ne.
    - exists wrapped. split; [|by split; [lia|]]. rewrite fn_lookup_insert_ne by (by apply not_eq_sym, Hother). rewrite !fn_lookup_insert_ne by done. by rewrite fn_lookup_insert.
    - exists mbytes. split; [|by eauto]. rewrite fn_lookup_insert_ne by (by apply not_eq_sym, Hother). rewrite !fn_lookup_insert_ne by done. by rewrite fn_lookup_insert.
    - exists cbytes. split; [|split; [by exists ce|done]]. rewrite fn_lookup_insert_ne by (by apply not_eq_sym, Hother). by rewrite fn_lookup_insert.
    - exists name, sbytes. split; [done|]. rewrite fn_lookup_insert. split; [done|]. split; [|by exists se|done].
      unfold segment_header_ok, u64_ok, U64_MAX. cbn. by split_and!. }
  assert (wp P (io (on_fs Adapter (sync_directory directory));; io (on_fs Adapter (rename_no_replace root temporary root final));;
        io (on_fs Adapter (sync_directory root))) (success (λ s _, Q s (cfile, sfile))) (vault4, entropy, fs4)) as Hpub.
  { eapply wp_publish; [exact Hd4|by eapply in_dir_later| |].
    - destruct Hl04 as (Hg & _). destruct Hroot. split; congruence.
    - intros fs5 Hd5 Hl5. eapply HOk; [done|exact Hd5|by etrans|done| |done|by eapply has_later].
      apply (has_later _ _ _ _ _ Hl5), (has_later _ _ _ _ _ Hl4), Hcf. }
  revert Hpub. unfold wp, mbind, eff_bind. clear. destruct (io _ _) as [[s1 [[]|e1]]|]; [|done..]. destruct (io _ _) as [[s2 [[]|e2]]|]; [|done..].
  by destruct (io _ _) as [[s3 [[]|e3]]|].
Qed.
End publish.

(** ** The new store *)

(** The handle of an empty log, whose files are on disk. *)
Definition fresh fs (j : Handle) : Prop := ∃ writer log_id seg d v header bytes,
  let manifest := mk_manifest (co_database options) writer KeyEpoch_FIRST log_id seg in
  manifest_ok manifest ∧ disk pending (named (co_final_name options) d) d fs v
  ∧ holds manifest key unwraps v header {[seg := bytes]} [] [] [] ∧ recorded sha256 manifest key {[seg := bytes]} [] [] seg (zeros 32)
  ∧ owned d manifest key fs v j {[seg := bytes]} [] seg (zeros 32) ∧ jh_poisoned j = false.
Lemma wp_holding_io {X T} (P : Prop) ownership (m : eff (X * F) T) (Q : X * F → T → Prop) s :
  wp P m (λ s r, match r with Ok t => Q s t | Err _ => True end) s →
  wp P (holding_io ownership m) (λ s r, match r with Ok t => Q s t | Err _ => True end) s.
Proof. unfold wp, holding_io. by destruct (m s) as [[[x fs] [t|e]]|]. Qed.
(** The lock file of the new directory, flushed and held. *)
Lemma wp_create_lock (P : Prop) directory v d root_ok Q (k : OwnershipGuard → eff State Handle) (x : KeyVault W E * I) fs :
  disk pending root_ok d fs v → in_dir d fs directory →
  (∀ fs' lock guard v', disk pending root_ok d fs' v' → later d fs fs' → guard_held d fs' v' guard → v' (entry "LOCK") = Some (lock, false) →
     fst_volatile lock = [] → fst_durable lock = [] → wp P (k guard) (success Q) (x, fs')) →
  wp P (lock_file ← io (on_fs Adapter (create_new directory (entry "LOCK"))); io (on_fs Adapter (sync_all lock_file));;
        io (on_fs Adapter (try_lock_exclusive directory (entry "LOCK"))) ≫= k) (success Q) (x, fs).
Proof.
  intros Hd Hin HOk. apply wp_bind, wp_io. eapply wp_create_new; [done..| |done]. intros fs1 file Hnone Hd1 Hl1 Hf1. cbn beta iota.
  apply wp_bind, wp_io. eapply wp_sync; [apply hosted_sync_all|done..|by rewrite fn_lookup_insert| |done]. intros fs2 Hd2 Hl2. cbn beta iota.
  apply wp_bind, wp_io. assert (in_dir d fs2 directory) as Hin2 by (by do 2 (eapply in_dir_later; [done|])).
  eapply wp_try_lock; [done|done|by rewrite fn_lookup_insert|done| |done]. intros fs3 guard v3 Hv3 Hd3 Hl3 Hg3. cbn beta iota.
  eapply HOk; [exact Hd3|by do 2 (etrans; [done|])|done|by rewrite Hv3, fn_lookup_insert|done..].
Qed.
Lemma wp_create_store (P : Prop) vault entropy fs : ready pending fs → root_wf (hosted fs) → identity_ok (co_database options) →
  kv_key vault = Some key → kv_database vault = co_database options →
  (∀ wrapped, encode_durable (kv_wrapped vault) = Ok wrapped → unwraps wrapped) →
  wp P (create_store fuel options) (success (λ s j, fresh s.2 j)) (vault, entropy, fs).
Proof.
  intros Hr Hwf Hdbid Hk Hdb Hun. unfold create_store. apply wp_success_bind. unfold wp at 1, eff_get. cbn [success].
  apply wp_success_bind, wp_create_id. intros entropy1 writer Hw1 Hw2. apply wp_success_bind, wp_create_id. intros entropy2 log_id Hi1 Hi2.
  apply wp_success_bind, wp_create_id. intros entropy3 seg Hs1 Hs2. apply wp_success_bind.
  eapply wp_temporary; [done|done|by rewrite hosted_root|]. clear Hr Hwf. set (root := fs_root fs). clearbody root.
  intros entropy4 fs1 temporary directory d Hr1 Hdb1 Hin1 Hroot1 Hempty. cbn beta iota.
  set (manifest := mk_manifest (co_database options) writer KeyEpoch_FIRST log_id seg).
  assert (manifest_ok manifest) as Hmf by (unfold manifest_ok, id16, u64_ok; cbn; by split_and!).
  eapply (wp_create_lock _ _ (λ _, None) d (shows temporary d)); [by split_and!|done|].
  intros fs2 lock guard v2 Hd2 Hl2 Hg2 Hlock Hlv Hld. apply wp_success_bind, wp_holding_io.
  eapply (wp_create_files manifest); [done|done|exact Hd2|by eapply in_dir_later| |by split|done|exact Hlock|].
  { destruct Hl2 as (Hg & _). destruct Hroot1. split; congruence. }
  intros vault3 fs3 v3 cfile sfile name Hkey3 Hd3 Hl3 Hwritten Hcf Hname Hsf. cbn beta iota.
  apply wp_success_bind. unfold wp at 1, eff_get. cbn [success]. apply wp_ret. cbn [success snd].
  destruct (written_holds _ _ _ Hwritten Hlv Hld) as (header & bytes & Hh & Hrec & Hlen).
  exists writer, log_id, seg, d, (linked v3), header, bytes. split_and!; [done..| |done].
  split; try done; cbn.
  - eapply in_dir_later; [exact Hl3|]. by eapply in_dir_later.
  - by exists name.
  - exists bytes. by rewrite lookup_singleton_eq.
  - eapply guard_later; [exact Hl3| |exact Hg2]. intros g (st & l & Hst & Hgen). rewrite Hlock in Hst. injection Hst as <- <-.
    exists lock, true. unfold linked. by rewrite (wf_lock _ _ _ Hwritten).
Qed.
Lemma store_create_fresh vault entropy fs fs' j : ready pending fs → root_wf (hosted fs) → identity_ok (co_database options) →
  kv_key vault = Some key → kv_database vault = co_database options →
  (∀ wrapped, encode_durable (kv_wrapped vault) = Ok wrapped → unwraps wrapped) →
  store_create fuel options vault entropy fs = Some (fs', Ok j) → fresh fs' j.
Proof.
  intros Hr Hwf Hid Hk Hdb Hun. pose proof (wp_create_store True vault entropy fs Hr Hwf Hid Hk Hdb Hun) as Hwp.
  unfold store_create, wp in *. destruct (create_store fuel options _) as [[s [j'|e]]|]; cbn; [|done..]. by intros [= <- <-].
Qed.
End create.
