(* ===== verification/StoreLifetime.v ===== *)
(** * The life of a store

    A store is created, appended to, closed, reopened and interrupted in any order,
    over a file system that fails as it likes and loses unflushed data when it
    restarts.  What a reopened store reads is explained by the operations so far:
    every acknowledged commit in order, and of the appends that failed each one
    wholly or not at all. *)
From stdpp Require Import functions.
From S2P Require Import Prelude Ids Policy Storage Blob Journal Envelope FileSystem MemoryFs FaultFs FileSystemFacts JournalFormat JournalStore JournalRecovery StoreDisk StoreCalls StoreLog StoreScan StoreOpen StoreAppend.
Import StorageError.

(** ** Histories *)
Inductive Event : Type :=
| Appended (input : CommitInput) (outcome : result StorageError DurableCommit)
| Opened (groups : list RecoveredGroup)
| OpenRefused (error : StorageError)
| Closed
| Restarted.
Inductive explained : list Event → list RecoveredGroup → Prop :=
| explained_new : explained [] []
| explained_committed es log input commit g : explained es log → appended log input None g →
    dc_revision commit = rg_revision g → dc_certificate_digest commit = rg_certificate_digest g →
    explained (es ++ [Appended input (Ok commit)]) (log ++ [g])
| explained_lost es log input e : explained es log → explained (es ++ [Appended input (Err e)]) log
| explained_kept es log input e g : explained es log → appended log input None g → uncertain e →
    explained (es ++ [Appended input (Err e)]) (log ++ [g])
| explained_opened es log : explained es log → explained (es ++ [Opened log]) log
| explained_refused es log e : explained es log → explained (es ++ [OpenRefused e]) log
| explained_closed es log : explained es log → explained (es ++ [Closed]) log
| explained_restarted es log : explained es log → explained (es ++ [Restarted]) log.

(** What the reader of a recovered log can rely on. *)
Definition includes (log : list RecoveredGroup) (input : CommitInput) (commit : DurableCommit) : Prop :=
  ∃ g, log !! Z.to_nat (dc_revision commit - 1) = Some g ∧ rg_revision g = dc_revision commit
    ∧ rg_certificate_digest g = dc_certificate_digest commit ∧ rg_encoded_group g = ci_encoded_group input
    ∧ rg_logical_event_digest g = ci_logical_event_digest input.
Lemma includes_app log more input commit : includes log input commit → includes (log ++ more) input commit.
Proof. intros (g & Hg & Hrest). exists g. split; [by apply lookup_app_l_Some|done]. Qed.
Lemma explained_numbered es log : explained es log → log_numbered log.
Proof.
  induction 1; try done;
    (apply log_numbered_snoc; [done|]; match goal with H : appended _ _ _ _ |- _ => destruct H as [-> _] end; done).
Qed.
(** Every acknowledged commit is in the log, at its revision. *)
Lemma explained_includes es log input commit : explained es log → Appended input (Ok commit) ∈ es → includes log input commit.
Proof.
  induction 1 as [|es log input' commit' g He IH (Hrev & Henc & Hlog & _) Hr Hd|es log input' e He IH|es log input' e g He IH Ha Hu
    |es log He IH|es log e He IH|es log He IH|es log He IH]; intros Hin; [by apply elem_of_nil in Hin|..];
    apply elem_of_app in Hin as [Hin|Hin%list_elem_of_singleton]; try discriminate Hin; try (by auto using includes_app).
  injection Hin as -> ->. exists g. rewrite Hr. split_and!; try done.
  pose proof (log_frontier_length _ (explained_numbered _ _ He)) as Hl. unfold zlen in Hl.
  rewrite Hrev, lookup_app_r, list_lookup_singleton_Some by lia. split; [lia|done].
Qed.

(** ** Worlds *)
Section lifetime.
Context {W E I K : Type} `{AeadLaws, !EntropySource E, !EntropyLaws E, !EntropySource I, !EntropyLaws I, DurableKeyEnvelope W, KeyAdapter K W}.
Context (sha256 : list byte → list byte) (fuel pending : nat) (options : CreationOptions) (adapter : K).
Abbreviation Fs := (FaultFileSystem MemoryFileSystem).
Abbreviation Handle := (JournalHandle (F := Fs) (W := W) (E := E) (I := I)).
Abbreviation World := (MemoryFileSystem * option Handle)%type.
(** The visitor that keeps every group. *)
Definition collect (groups : list RecoveredGroup) (g : RecoveredGroup) : option (result StorageError (list RecoveredGroup)) :=
  Some (Ok (groups ++ [g])).
(** [fs] is [m] with some faults ahead. *)
Definition faulty (m : MemoryFileSystem) (fs : Fs) : Prop := ff_inner fs = m ∧ ready pending fs.
Inductive step : World → Event → World → Prop :=
| step_append m fs fs' j j' input r : faulty m fs → digest32 (ci_logical_event_digest input) →
    append_group sha256 fuel input (j, fs) = Some ((j', fs'), r) → step (m, Some j) (Appended input r) (ff_inner fs', Some j')
| step_open m h fs fs' j report groups (vault_entropy : E) (identity_entropy : I) : faulty m fs →
    store_open sha256 fuel collect (co_final_name options) (co_database options) vault_entropy identity_entropy adapter [] fs
      = Some (fs', Ok (j, report, groups)) → step (m, h) (Opened groups) (ff_inner fs', Some j)
| step_open_refused m h fs fs' e (vault_entropy : E) (identity_entropy : I) : faulty m fs →
    store_open sha256 fuel collect (co_final_name options) (co_database options) vault_entropy identity_entropy adapter [] fs
      = Some (fs', Err e) → step (m, h) (OpenRefused e) (ff_inner fs', h)
| step_close m j : step (m, Some j) Closed (memory_drop_guard (jh_ownership j) m, None)
| step_restart m h m' : memory_restart m = (m', Ok tt) → step (m, h) Restarted (m', None).
Inductive lifetime (w : World) : list Event → World → Prop :=
| lifetime_start : lifetime w [] w
| lifetime_step es w' e w'' : lifetime w es w' → step w' e w'' → lifetime w (es ++ [e]) w''.

Lemma faulty_calm m : faulty m (FaultFileSystem_new m ∅).
Proof. split; [done|]. split; [by intros ? ?|]. cbn [FaultFileSystem_new ff_plan]. rewrite map_size_empty. lia. Qed.

(** ** The invariant *)
Section invariant.
Context (d : Z) (manifest : Manifest) (key : list byte).
Context (fuel_ok : MAX_PLAINTEXT_BYTES + SMALL_ENVELOPE_BYTES + Z.of_nat pending < Z.of_nat fuel) (key_width : length key = 32%nat).
Context (sha256_width : ∀ bytes, length (sha256 bytes) = 32%nat) (manifest_wf : manifest_ok manifest).
Context (database_ok : mn_database manifest = co_database options).
Abbreviation root_ok := (named (co_final_name options) d).
Abbreviation holds := (holds manifest key (unwraps manifest key adapter)).
Abbreviation recorded := (recorded sha256 manifest key).
Abbreviation owned := (owned d manifest key).
(** The file system with no faults ahead. *)
Abbreviation calm m := (FaultFileSystem_new m ∅ : Fs).
Implicit Types (m : MemoryFileSystem) (fs : Fs) (v : View) (j : Handle).

(** What the handle in use knows. *)
Definition in_use m v (j : Handle) (segs : gmap (list byte) (list byte)) (cs csd : list (list byte)) (torn : list byte) (log : list RecoveredGroup) (seg prev : list byte) : Prop :=
  guard_held d (calm m) v (jh_ownership j)
  ∧ (jh_poisoned j = true ∨ jh_poisoned j = false ∧ csd = cs ∧ torn = [] ∧ owned (calm m) v j segs log seg prev).
(** The last group may not survive a restart. *)
Definition settled (es : list Event) (cs csd : list (list byte)) (log : list RecoveredGroup) : Prop :=
  explained es log ∧ (csd = cs ∨ ∃ log0 g, log = log0 ++ [g] ∧ explained es log0).
Definition consistent (es : list Event) (w : World) : Prop := ∃ v header segs cs csd torn log seg prev,
  db root_ok d w.1 ∧ (∀ n, view w.1 d n = v n) ∧ holds v header segs cs csd torn ∧ recorded segs cs log seg prev ∧ settled es cs csd log
  ∧ match w.2 with None => True | Some j => in_use w.1 v j segs cs csd torn log seg prev end.

Lemma owned_later fs fs' v j segs log seg prev : later d fs fs' → owned fs v j segs log seg prev → owned fs' v j segs log seg prev.
Proof.
  intros Hl [O1 O2 O3 O4 O5 O6 O7 (name & Hname & Hf) O9 O10 O11 O12 O13]. split; try done; [by eapply in_dir_later|by eapply has_later| |by eapply guard_same].
  exists name. split; [done|by eapply has_later].
Qed.
Lemma owned_moves fs fs' v j segs log seg prev : hosted fs' = hosted fs → owned fs v j segs log seg prev → owned fs' v j segs log seg prev.
Proof. intros Hs. apply owned_later. unfold later. by rewrite Hs. Qed.
Lemma guard_moves fs fs' v guard : hosted fs' = hosted fs → guard_held d fs v guard → guard_held d fs' v guard.
Proof. intros Hs. unfold guard_held. by rewrite Hs. Qed.
Lemma faulty_disk m fs v : faulty m fs → db root_ok d m → (∀ n, view m d n = v n) → disk pending root_ok d fs v.
Proof. intros [<- Hr] Hd Hv. by split_and!. Qed.
(** A handle that is not poisoned has the log of the disk. *)
Lemma consistent_owned es fs v header segs cs log seg prev j : disk pending root_ok d fs v → holds v header segs cs cs [] →
  recorded segs cs log seg prev → explained es log → owned fs v j segs log seg prev → jh_poisoned j = false → consistent es (hosted fs, Some j).
Proof.
  intros (_ & Hd & Hv) Hh Hrec He Hown Hp. exists v, header, segs, cs, cs, [], log, seg, prev. split_and!; [done..|by split; [|left]|].
  split; [eapply (guard_moves fs); [done|apply Hown]|]. right. split_and!; [done..|]. by eapply (owned_moves fs).
Qed.
Lemma consistent_poisoned es fs v header segs cs csd torn log seg prev j : disk pending root_ok d fs v → holds v header segs cs csd torn →
  recorded segs cs log seg prev → settled es cs csd log → guard_held d fs v (jh_ownership j) → jh_poisoned j = true →
  consistent es (hosted fs, Some j).
Proof.
  intros (_ & Hd & Hv) Hh Hrec He Hg Hp. exists v, header, segs, cs, csd, torn, log, seg, prev. split_and!; [done..|].
  split; [by eapply (guard_moves fs)|by left].
Qed.

(** ** Each step *)
Lemma wp_append_consistent es m fs j input : consistent es (m, Some j) → faulty m fs → digest32 (ci_logical_event_digest input) →
  wp False (append_group sha256 fuel input) (λ s r, consistent (es ++ [Appended input r]) (ff_inner s.2, Some s.1)) (j, fs).
Proof.
  intros (v & header & segs & cs & csd & torn & log & seg & prev & Hdb & Hv & Hh & Hrec & [He Hdoubt] & Hguard & Huse) Hf Hdig. cbn in *.
  pose proof (faulty_disk _ _ _ Hf Hdb Hv) as Hd. pose proof Hf as [Hin _].
  assert (hosted fs = hosted (calm m)) as Hsame by done. destruct Huse as [Hp|(Hp & -> & -> & Hown)].
  - unfold wp. rewrite append_poisoned by done.
    eapply (consistent_poisoned _ fs); [done..| |by eapply guard_moves|done]. split; [by constructor|].
    destruct Hdoubt as [?|(log0 & g & ? & ?)]; [by left|right]. exists log0, g. split; [done|by constructor].
  - apply (owned_moves _ fs) in Hown; [|done].
    eapply wp_append_group; [exact fuel_ok|done|exact manifest_wf|exact key_width|exact Hrec|done|exact Hd|exact Hh|exact Hown|done| | |].
    + intros fs1 j1 commit (v1 & g & c & segs1 & seg1 & Hrec1 & Happ & Hr & Hdg & Hd1 & Hh1 & Hown1 & Hp1) _.
      eapply (consistent_owned _ fs1); [done..| |done|done]. by apply (explained_committed _ _ _ _ _ He).
    + intros fs1 j1 e _ (v1 & Hd1 & Hh1 & Hown1 & Hp1). eapply (consistent_owned _ fs1); [done..| |done|done]. by constructor.
    + intros fs1 j1 e Hg1 Hp1 Hu [(v1 & torn1 & Hd1 & Hguard1 & Hh1)|(v1 & g & c & segs1 & seg1 & csd1 & Hrec1 & Happ & Hd1 & Hguard1 & Hh1 & Hcsd)];
        (eapply (consistent_poisoned _ fs1); [done..| |by cbn; rewrite Hg1|done]).
      * split; [by constructor|by left].
      * split; [by eapply explained_kept|]. right. exists log, g. split; [done|by constructor].
Qed.
Lemma collect_all log groups : visit_all collect log groups = Some (Ok (groups ++ log)).
Proof.
  revert groups. induction log as [|g log IH]; intros groups; cbn; [by rewrite app_nil_r|]. rewrite IH. by rewrite <-app_assoc.
Qed.
Lemma restart_consistent es m h m' : consistent es (m, h) → memory_restart m = (m', Ok tt) → consistent (es ++ [Restarted]) (m', None).
Proof.
  intros (v & header & segs & cs & csd & torn & log & seg & prev & Hdb & Hv & Hh & Hrec & [He Hdoubt] & _) Hm. cbn in *.
  destruct (restart_view root_ok d m m' ltac:(by intros root [_ ?]; split) Hdb Hm) as [Hdb' Hv'].
  destruct (holds_restart manifest key (unwraps manifest key adapter) v (view m' d) header segs cs csd torn) as [tornd Hh'];
    [by intros n; rewrite Hv', Hv|done|].
  assert (csd = cs ∨ csd ≠ cs) as [->|Hne] by (destruct (decide (csd = cs)); auto).
  { exists (view m' d), header, segs, cs, cs, tornd, log, seg, prev. split_and!; try done. by split; [constructor|left]. }
  destruct Hdoubt as [?|(log0 & g & -> & He0)]; [done|]. destruct (hs_behind _ _ _ _ _ _ _ _ _ Hh) as [?|[c ->]]; [done|].
  destruct (recorded_snoc _ _ _ _ _ _ _ _ _ Hrec) as (segs0 & log0' & g' & seg0 & prev0 & [-> ->]%app_inj_tail & Hrec0 & Hbelow).
  exists (view m' d), header, segs0, csd, csd, tornd, log0', seg0, prev0. split_and!; try done; [by eapply holds_below|].
  by split; [constructor|left].
Qed.
Lemma close_consistent es m j : consistent es (m, Some j) → consistent (es ++ [Closed]) (memory_drop_guard (jh_ownership j) m, None).
Proof.
  intros (v & header & segs & cs & csd & torn & log & seg & prev & Hdb & Hv & Hh & Hrec & [He Hdoubt] & Hguard & _). cbn in *.
  pose proof (faulty_disk _ _ _ (faulty_calm m) Hdb Hv) as Hd.
  pose proof Hguard as (_ & (st & linked & Hlock & _) & _).
  destruct (disk_drop_guard _ _ _ _ _ _ _ _ Hd Hguard Hlock) as [(_ & Hdb' & Hv') _].
  eexists _, header, segs, cs, csd, torn, log, seg, prev. split_and!; [exact Hdb'|exact Hv'|by apply holds_lock|done| |done].
  split; [by constructor|]. destruct Hdoubt as [?|(log0 & g & ? & ?)]; [by left|right]. exists log0, g. split; [done|by constructor].
Qed.
(** The lock is held exactly by the handle in use. *)
Lemma consistent_lock m h v header segs cs csd torn log seg prev : db root_ok d m → holds v header segs cs csd torn →
  match h with None => True | Some j => in_use m v j segs cs csd torn log seg prev end → ∃ g, lock_state v g ∧ (g = 0 → h = None).
Proof.
  intros [dir Hp] Hh Huse. destruct (hs_volatile_fixed _ _ _ _ _ _ _ _ _ Hh) as (? & ? & _ & _ & _ & _ & _ & _ & [b Hlock]).
  apply vol_state in Hlock as (st & linked & Hv & _). exists (fst_lock_generation st). split; [by exists st, linked|]. intros Hz.
  destruct h as [j|]; [|done]. destruct Huse as [(_ & (st' & linked' & Hv' & Hg) & Hgen) _]. rewrite Hv in Hv'. injection Hv' as <- <-.
  destruct (pub_limit _ _ _ _ Hp). rewrite Hz in Hg. rewrite <-Hg in Hgen. cbn in Hgen. lia.
Qed.
Definition reopened es (h : option Handle) fs (r : result StorageError (Handle * RecoveryReport * list RecoveredGroup)) : Prop :=
  match r with
  | Ok (j, _, groups) => h = None ∧ consistent (es ++ [Opened groups]) (ff_inner fs, Some j)
  | Err e => consistent (es ++ [OpenRefused e]) (ff_inner fs, h)
  end.
Lemma settled_refused es cs csd csd' log e : settled es cs csd log → csd' = csd ∨ csd' = cs → settled (es ++ [OpenRefused e]) cs csd' log.
Proof.
  intros [He Hd] Hcsd. split; [by constructor|]. destruct Hcsd as [->| ->]; [|by left].
  destruct Hd as [?|(log0 & g & ? & ?)]; [by left|right]. exists log0, g. split; [done|by constructor].
Qed.
Lemma wp_open_consistent es m h fs vault_entropy identity_entropy : consistent es (m, h) → faulty m fs →
  wp False (store_open sha256 fuel collect (co_final_name options) (co_database options) vault_entropy identity_entropy adapter [])
    (reopened es h) fs.
Proof.
  intros (v & header & segs & cs & csd & torn & log & seg & prev & Hdb & Hv & Hh & Hrec & Hset & Huse) Hf. cbn in *.
  pose proof (faulty_disk _ _ _ Hf Hdb Hv) as Hd. pose proof Hf as [Hin _].
  destruct (consistent_lock _ _ _ _ _ _ _ _ _ _ _ Hdb Hh Huse) as (g & Hlock & Hfree). rewrite <-database_ok.
  destruct (decide (g = 0)) as [->|Hg].
  - rewrite (Hfree eq_refl) in *. eapply wp_store_open; [exact fuel_ok|exact manifest_wf|exact Hd|exact Hh|exact Hrec|exact Hlock| | |].
    + rewrite collect_all. done.
    + intros fs1 v1 j report groups Hall Hd1 Hh1 Hown Hp _ _. rewrite collect_all in Hall. injection Hall as <-. split; [done|].
      eapply (consistent_owned _ fs1); [done..| |done|done]. constructor. apply Hset.
    + intros fs1 e v1 csd1 torn1 _ (_ & Hdb1 & Hv1) Hh1 Hcsd _. exists v1, header, segs, cs, csd1, torn1, log, seg, prev.
      split_and!; [done..|by eapply settled_refused|done].
  - eapply (wp_open_locked _ _ pending); [exact Hd|exact Hlock|done|]. intros fs1 e (_ & Hdb1 & Hv1) Hl1. cbn.
    exists v, header, segs, cs, csd, torn, log, seg, prev. split_and!; [done..|by eapply settled_refused; [|left]|].
    destruct h as [j|]; [|done]. destruct Huse as [Hguard Huse]. assert (later d (calm m) (calm (ff_inner fs1))) as Hl.
    { unfold later in *. cbn in *. by rewrite <-Hin. }
    split; [by eapply (guard_same _ (calm m))|]. destruct Huse as [?|(? & ? & ? & Hown)]; [by left|right].
    split_and!; [done..|]. by eapply (owned_later (calm m)).
Qed.
(** A restart releases the lock, and so does the handle. *)
Lemma restart_idle es m h m' : consistent es (m, h) → memory_restart m = (m', Ok tt) → lock_state (view m' d) 0.
Proof.
  intros (v & header & segs & cs & csd & torn & log & seg & prev & Hdb & Hv & Hh & _) Hm. cbn in *.
  destruct (restart_view root_ok d m m' ltac:(by intros root [_ ?]; split) Hdb Hm) as [_ Hv'].
  destruct (hs_durable_fixed _ _ _ _ _ _ _ _ _ Hh) as (? & ? & _ & _ & _ & _ & _ & _ & [b Hlock]).
  unfold dur in Hlock. destruct (v (entry "LOCK")) as [[st []]|] eqn:Hl; try done.
  exists (restart_file st), true. by rewrite Hv', Hv, Hl.
Qed.
Lemma close_idle es m j : consistent es (m, Some j) → lock_state (view (memory_drop_guard (jh_ownership j) m) d) 0.
Proof.
  intros (v & header & segs & cs & csd & torn & log & seg & prev & Hdb & Hv & _ & _ & _ & Hguard & _). cbn in *.
  pose proof (faulty_disk _ _ _ (faulty_calm m) Hdb Hv) as Hd. pose proof Hguard as (_ & (st & linked & Hlock & _) & _).
  destruct (disk_drop_guard _ _ _ _ _ _ _ _ Hd Hguard Hlock) as [(_ & _ & Hv') _].
  exists (locked_by 0 st), linked. cbn in Hv'. by rewrite Hv', fn_lookup_insert.
Qed.
Lemma open_calm es m (vault_entropy : E) (identity_entropy : I) : consistent es (m, None) → lock_state (view m d) 0 →
  ∃ m' opened report groups, store_open (F := MemoryFileSystem) (I := I) sha256 fuel collect (co_final_name options) (co_database options)
    vault_entropy identity_entropy adapter [] m = Some (m', Ok (opened, report, groups))
  ∧ explained es groups ∧ rr_frontier report = log_frontier groups.
Proof.
  intros (v & header & segs & cs & csd & torn & log & seg & prev & Hdb & Hv & Hh & Hrec & [He _] & _) (st & linked & Hst & Hfree). cbn in *.
  assert (wp False (store_open (F := MemoryFileSystem) (I := I) sha256 fuel collect (co_final_name options) (co_database options)
    vault_entropy identity_entropy adapter []) (λ _ r, ∃ opened report, r = Ok (opened, report, log) ∧ rr_frontier report = log_frontier log) m) as Hwp.
  - rewrite <-database_ok. eapply (wp_store_open (F := MemoryFileSystem)); [exact fuel_ok|exact manifest_wf| |exact Hh|exact Hrec| | | |].
    + by split_and!.
    + exists st, linked. by rewrite <-Hv.
    + by rewrite collect_all.
    + intros m1 v1 opened report groups Hall _ _ _ _ Hfr _. rewrite collect_all in Hall. injection Hall as <-. by exists opened, report.
    + intros m1 e v1 csd1 torn1 [[]|Hall]. by rewrite collect_all in Hall.
  - unfold wp in Hwp. destruct (store_open _ _ _ _ _ _ _ _ _ m) as [[m' r]|]; [|done]. destruct Hwp as (opened & report & -> & Hfr).
    by exists m', opened, report, log.
Qed.
(** ** Every history *)
Lemma lifetime_consistent w es w' : consistent [] w → lifetime w es w' → consistent es w'.
Proof.
  intros Hstart Hlife. induction Hlife as [|es w' e w'' _ IH Hstep]; [done|].
  destruct Hstep as [m fs fs' j j' input r Hf Hdig Hrun|m h fs fs' j report groups ve ie Hf Hrun|m h fs fs' e ve ie Hf Hrun|m j|m h m' Hm].
  - pose proof (wp_append_consistent _ _ _ _ input IH Hf Hdig) as Hwp. unfold wp in Hwp. by rewrite Hrun in Hwp.
  - pose proof (wp_open_consistent _ _ _ _ ve ie IH Hf) as Hwp. unfold wp in Hwp. rewrite Hrun in Hwp. apply Hwp.
  - pose proof (wp_open_consistent _ _ _ _ ve ie IH Hf) as Hwp. unfold wp in Hwp. by rewrite Hrun in Hwp.
  - by apply close_consistent.
  - by eapply restart_consistent.
Qed.
End invariant.

(** ** Guarantees *)
Section guarantees.
Context (key : list byte) (vault : KeyVault W E) (entropy : I) (fs0 fs1 : Fs) (j0 : Handle).
Context (fuel_ok : MAX_PLAINTEXT_BYTES + SMALL_ENVELOPE_BYTES + Z.of_nat pending < Z.of_nat fuel).
Context (sha256_width : ∀ bytes, length (sha256 bytes) = 32%nat) (key_width : length key = 32%nat).
Context (host_ready : ready pending fs0) (host_root : root_wf (ff_inner fs0)) (database_wf : identity_ok (co_database options)).
Context (vault_key : kv_key vault = Some key) (vault_database : kv_database vault = co_database options).
Context (key_file : ∀ wrapped, encode_durable (kv_wrapped vault) = Ok wrapped →
  ∃ w, decode_durable wrapped = Ok w ∧ (adapter_unwrap adapter (co_database options) w).2 = Ok key).
Context (created : store_create fuel options vault entropy fs0 = Some (fs1, Ok j0)).
Abbreviation start := (ff_inner fs1, Some j0).
Lemma created_consistent : ∃ d manifest, manifest_ok manifest ∧ mn_database manifest = co_database options ∧ consistent d manifest key [] start.
Proof.
  apply (store_create_fresh sha256 fuel pending key (λ wrapped, ∃ w, decode_durable wrapped = Ok w ∧ (adapter_unwrap adapter (co_database options) w).2 = Ok key))
    in created as (writer & log_id & seg & d & v & header & bytes & Hmf & Hd & Hh & Hrec & Hown & Hp); [|done..].
  exists d, (mk_manifest (co_database options) writer KeyEpoch_FIRST log_id seg). split_and!; [done..|].
  eapply (consistent_owned _ _ _ _ fs1); [exact Hd|exact Hh|exact Hrec|constructor|done|done].
Qed.
Lemma history_consistent es w : lifetime start es w →
  ∃ d manifest, manifest_ok manifest ∧ mn_database manifest = co_database options ∧ consistent d manifest key es w.
Proof.
  intros Hlife. destruct created_consistent as (d & manifest & Hmf & Hdb & Hc). exists d, manifest. split_and!; [done..|].
  by eapply lifetime_consistent.
Qed.
(** C3: The journal is crash safe.  Whatever a store has been through - appends that
    fail or crash at any call, failed reopenings, restarts that lose everything not
    flushed - once it is closed or the system has restarted, [open] succeeds and
    reads a log that its history explains: the acknowledged commits in order with
    the bytes, revisions and certificate digests they were acknowledged with, in
    between only whole groups of appends that failed, and an extension of every
    log read before. *)
Theorem store_crash_safe es e m (vault_entropy : E) (identity_entropy : I) :
  lifetime start (es ++ [e]) (m, None) → e = Closed ∨ e = Restarted →
  ∃ m' opened report groups, store_open (F := MemoryFileSystem) (I := I) sha256 fuel collect (co_final_name options) (co_database options)
      vault_entropy identity_entropy adapter [] m = Some (m', Ok (opened, report, groups))
    ∧ explained (es ++ [e]) groups ∧ rr_frontier report = log_frontier groups
    ∧ (∀ input commit, Appended input (Ok commit) ∈ es → includes groups input commit).
Proof.
  intros Hlife He. inversion Hlife as [|es' w' e' w'' Hlife' Hstep Heq]. apply app_inj_tail in Heq as [-> ->]. subst w''.
  destruct (history_consistent _ _ Hlife') as (d & manifest & Hmf & Hdb & Hc).
  assert (consistent d manifest key (es ++ [e]) (m, None) ∧ lock_state (view m d) 0) as [Hc' Hidle].
  { destruct He as [-> | ->]; inversion Hstep; subst; split.
    - by eapply close_consistent.
    - by eapply close_idle.
    - by eapply restart_consistent.
    - by eapply restart_idle. }
  destruct (open_calm d manifest key ltac:(done) Hmf Hdb _ _ vault_entropy identity_entropy Hc' Hidle) as (m' & opened & report & groups & Hrun & Hex & Hfr).
  exists m', opened, report, groups. split_and!; [done..|]. intros input commit Hin. eapply explained_includes; [exact Hex|].
  apply elem_of_app. by left.
Qed.
(** C31: Every operation on a store in use returns, whatever faults the file system
    injects, and a store that is in use cannot be opened a second time. *)
Theorem store_exclusive es m h fs : lifetime start es (m, h) → faulty m fs →
  (∀ (vault_entropy : E) (identity_entropy : I), ∃ fs' r,
     store_open sha256 fuel collect (co_final_name options) (co_database options) vault_entropy identity_entropy adapter [] fs = Some (fs', r)
     ∧ (is_Some h → ∃ e, r = Err e))
  ∧ ∀ j input, h = Some j → digest32 (ci_logical_event_digest input) → ∃ s r, append_group sha256 fuel input (j, fs) = Some (s, r).
Proof.
  intros (d & manifest & Hmf & Hdb & Hc)%history_consistent Hf. split.
  - intros ve ie. unshelve epose proof (wp_open_consistent d manifest key _ _ _ _ _ _ _ _ ve ie Hc Hf) as Hwp; [done..|]. unfold wp in Hwp.
    destruct (store_open _ _ _ _ _ _ _ _ _ fs) as [[fs' r]|]; [|done]. exists fs', r. split; [done|]. intros [j ->].
    destruct r as [[[? ?] ?]|e]; [by destruct Hwp|by exists e].
  - intros j input -> Hdig. pose proof (wp_append_consistent d manifest key ltac:(done) ltac:(done) ltac:(done) Hmf _ _ _ _ input Hc Hf Hdig) as Hwp. unfold wp in Hwp.
    destruct (append_group _ _ _ _) as [[s r]|]; [by exists s, r|done].
Qed.
End guarantees.
End lifetime.
