(* ===== verification/StoreSamples.v ===== *)
(** * A worked store

    A store with the sample cipher: created, appended to, interrupted. *)
From S2P Require Import Prelude Ids Policy Storage Blob Journal Envelope FileSystem MemoryFs FaultFs FileSystemFacts JournalFormat JournalStore JournalRecovery StoreDisk StoreAppend StoreLifetime.
#[local] Existing Instance sample_aead.
#[local] Existing Instance sample_aead_laws.
#[local] Existing Instance counting_entropy.
#[local] Existing Instance counting_entropy_laws.
#[local] Existing Instance sample_adapter.
#[local] Instance sample_key_file : DurableKeyEnvelope (list byte) := { encode_durable w := Ok w; decode_durable w := Ok w }.
Definition sample_sha256 (bytes : list byte) : list byte := take 32 (bytes ++ zeros 32).
Definition sample_options : CreationOptions := mk_creation_options (from_bytes (repeat x01 16)) (entry "graph").
Definition sample_host : FaultFileSystem MemoryFileSystem := FaultFileSystem_new (MemoryFileSystem_new DEFAULT_MEMORY_FILE_LIMIT) ∅.
Definition first_input : CommitInput := mk_commit_input (lit "first group") (repeat x09 32).
Definition second_input : CommitInput := mk_commit_input (lit "second group") (repeat x0a 32).

(** The loops of this run use less than forty steps of their fuel. *)
Definition lots (fuel : nat) : nat := 40 + fuel.
Abbreviation SampleFs := (FaultFileSystem MemoryFileSystem).
Abbreviation SampleHandle := (JournalHandle (F := SampleFs) (W := list byte) (E := Z) (I := Z)).
Definition sample_create (fuel : nat) : option (SampleFs * result StorageError SampleHandle) :=
  store_create fuel sample_options sample_vault 1 sample_host.
(** The first append succeeds; the second crashes when it flushes its certificate. *)
Definition crash_plan : FaultPlan := {[ (OpSyncData, 1) := CrashBefore ]}.
Record SampleRun := mk_sample_run {
  sr_created : SampleFs * SampleHandle;
  sr_first : SampleHandle * SampleFs * DurableCommit;
  sr_second : SampleHandle * SampleFs * StorageError;
  sr_restarted : MemoryFileSystem
}.
Definition sample_run (fuel : nat) : option SampleRun :=
  match sample_create fuel with
  | Some (fs, Ok j) =>
      match append_group sample_sha256 fuel first_input (j, FaultFileSystem_new (ff_inner fs) ∅) with
      | Some (j1, fs1, Ok commit) =>
          match append_group sample_sha256 fuel second_input (j1, FaultFileSystem_new (ff_inner fs1) crash_plan) with
          | Some (j2, fs2, Err e) =>
              match memory_restart (ff_inner fs2) with
              | (m, Ok _) => Some (mk_sample_run (fs, j) (j1, fs1, commit) (j2, fs2, e) m)
              | _ => None
              end
          | _ => None
          end
      | _ => None
      end
  | _ => None
  end.
Lemma sample_run_ok n : match sample_run (lots n) with Some _ => true | None => false end = true.
Proof. vm_compute. reflexivity. Qed.
(** Enough fuel for every loop. *)
Definition ample : nat := lots (Z.to_nat (2 ^ 25)).
Lemma ample_ok : MAX_PLAINTEXT_BYTES + SMALL_ENVELOPE_BYTES + Z.of_nat 1 < Z.of_nat ample.
Proof. unfold ample, lots, MAX_PLAINTEXT_BYTES, SMALL_ENVELOPE_BYTES. lia. Qed.
Lemma sample_sha256_width bytes : length (sample_sha256 bytes) = 32%nat.
Proof. unfold sample_sha256. rewrite length_take, length_app, length_zeros. lia. Qed.
Lemma sample_host_ready : ready 1 sample_host.
Proof. split; [by intros ? ?|]. cbn [sample_host FaultFileSystem_new ff_plan]. rewrite map_size_empty. lia. Qed.
Lemma crash_ready m : faulty 1 m (FaultFileSystem_new m crash_plan).
Proof.
  split; [done|]. split; cbn [FaultFileSystem_new ff_plan]; [|unfold crash_plan; by rewrite map_size_singleton].
  unfold crash_plan. intros point action [<- <-]%lookup_singleton_Some. done.
Qed.
Lemma sample_root : root_wf (ff_inner sample_host).
Proof. unfold root_wf. split_and!; first [by eexists|by vm_compute]. Qed.
Lemma sample_key_opens wrapped : encode_durable (kv_wrapped sample_vault) = Ok wrapped →
  ∃ w, decode_durable (W := list byte) wrapped = Ok w ∧ (adapter_unwrap tt (co_database sample_options) w).2 = Ok (repeat x07 32).
Proof. intros [= <-]. by eexists. Qed.
(** The history of this run. *)
Lemma sample_history : ∃ r e, sample_run ample = Some r ∧ sample_create ample = Some ((sr_created r).1, Ok (sr_created r).2) ∧
  lifetime sample_sha256 ample 1 sample_options tt (ff_inner (sr_created r).1, Some (sr_created r).2)
    ([Appended first_input (Ok (sr_first r).2); Appended second_input (Err e)] ++ [Restarted]) (sr_restarted r, None).
Proof.
  assert (∀ m, faulty 1 m (FaultFileSystem_new m ∅)) as Hcalm by (intros m; apply faulty_calm).
  pose proof (sample_run_ok (Z.to_nat (2 ^ 25))) as Hok. fold ample in Hok. destruct (sample_run ample) as [r|] eqn:Hr; [|done].
  exists r. revert Hr. unfold sample_run. destruct (sample_create ample) as [[fs [j|]]|]; [|done..].
  destruct (append_group _ _ _ (j, _)) as [[[j1 fs1] [commit|]]|] eqn:H1; [|done..].
  destruct (append_group _ _ _ (j1, _)) as [[[j2 fs2] [|e]]|] eqn:H2; [done| |done].
  destruct (memory_restart (ff_inner fs2)) as [m [[]|]] eqn:H3; [|done]. intros [= <-]. exists e. cbn. split_and!; [done..|].
  change [_; _; _] with (([Appended first_input (Ok commit)] ++ [Appended second_input (Err e)]) ++ [Restarted]).
  eapply lifetime_step; [|by constructor]. eapply lifetime_step; [eapply (lifetime_step _ _ _ _ _ _ []); [constructor|]|].
  - by eapply step_append; [apply Hcalm| |exact H1].
  - by eapply step_append; [apply crash_ready| |exact H2].
Qed.
Lemma store_crash_safe_witness : ∃ r m' opened report groups, sample_run ample = Some r ∧
  store_open (F := MemoryFileSystem) (I := Z) sample_sha256 ample collect (entry "graph") (from_bytes (repeat x01 16)) 70 80 tt [] (sr_restarted r)
    = Some (m', Ok (opened, report, groups)) ∧ includes groups first_input (sr_first r).2.
Proof.
  destruct sample_history as (r & e & Hr & Hc & Hlife).
  destruct (store_crash_safe sample_sha256 ample 1 sample_options tt (repeat x07 32) sample_vault 1 sample_host (sr_created r).1 (sr_created r).2
    ample_ok sample_sha256_width eq_refl sample_host_ready sample_root eq_refl eq_refl eq_refl sample_key_opens Hc
    _ _ _ 70 80 Hlife (or_intror eq_refl)) as (m' & opened & report & groups & Hrun & _ & _ & Hall).
  exists r, m', opened, report, groups. split; [exact Hr|]. split; [exact Hrun|]. apply Hall. left.
Defined.
Lemma store_exclusive_witness : ∃ r fs' e, sample_run ample = Some r ∧
  store_open (I := Z) sample_sha256 ample collect (entry "graph") (from_bytes (repeat x01 16)) 70 80 tt []
    (FaultFileSystem_new (ff_inner (sr_created r).1) ∅) = Some (fs', Err e).
Proof.
  destruct sample_history as (r & _ & Hr & Hc & _). exists r.
  destruct (store_exclusive sample_sha256 ample 1 sample_options tt (repeat x07 32) sample_vault 1 sample_host (sr_created r).1 (sr_created r).2
    ample_ok sample_sha256_width eq_refl sample_host_ready sample_root eq_refl eq_refl eq_refl sample_key_opens Hc
    _ _ _ _ (lifetime_start _ _ _ _ _ _) (faulty_calm 1 _)) as [Hopen _].
  destruct (Hopen 70 80) as (fs' & r' & Hrun & Hbusy). destruct (Hbusy (ex_intro _ _ eq_refl)) as [e ->]. exists fs', e. split; [exact Hr|exact Hrun].
Defined.
