(* ===== verification/SpatialModel.v ===== *)
(** * The spatial model

    ** Spatial primitives

    Models [crates/uste-types/src/spatial.rs]: fixed-point coordinates, boxes,
    versions and coordinate profiles.  The newtypes [Nanometres] (an [i128]),
    [NonNegativeNanometres] (a [u128]), [LongitudeNanodegrees] and
    [LatitudeNanodegrees] (an [i64]) and [SpatialVersion] (a nonzero [u64]) are
    their numbers. *)
From S2P Require Import Prelude Ids Value TimeModel.

Definition SPACE_PROFILE : list byte := lit "space-v1".
Definition MAX_FRAME_DEPTH : Z := 32.
Definition HALF_TURN_NANODEGREES : Z := 180000000000.
Definition QUARTER_TURN_NANODEGREES : Z := 90000000000.

Module SpatialPrimitiveError.
Inductive spatial_primitive_error : Set :=
| InvalidVersion | VersionExhausted | InvalidLatitude | InvalidLongitude | InvalidBounds.
End SpatialPrimitiveError.
Abbreviation SpatialPrimitiveError := SpatialPrimitiveError.spatial_primitive_error.

(** ** Versions *)
Abbreviation SpatialVersion := Z (only parsing).
Definition SpatialVersion_FIRST : SpatialVersion := 1.
Definition SpatialVersion_new (value : Z) : result SpatialPrimitiveError SpatialVersion :=
  if value =? 0 then Err SpatialPrimitiveError.InvalidVersion else Ok value.
Definition SpatialVersion_checked_next (version : SpatialVersion) : result SpatialPrimitiveError SpatialVersion :=
  match checked_add version 1 with
  | Some value => SpatialVersion_new value
  | None => Err SpatialPrimitiveError.VersionExhausted
  end.
Record VersionedRecordRef : Set := VersionedRecordRef_new {
  vr_record : RecordRef;
  vr_version : SpatialVersion
}.
#[global] Instance VersionedRecordRef_eq_dec : EqDecision VersionedRecordRef.
Proof. solve_decision. Defined.

(** ** Coordinates *)
Abbreviation Nanometres := Z (only parsing).
Abbreviation NonNegativeNanometres := Z (only parsing).
Abbreviation LongitudeNanodegrees := Z (only parsing).
Abbreviation LatitudeNanodegrees := Z (only parsing).
Definition LongitudeNanodegrees_new (value : Z) : result SpatialPrimitiveError LongitudeNanodegrees :=
  if (value <? - HALF_TURN_NANODEGREES) || (HALF_TURN_NANODEGREES <? value) then Err SpatialPrimitiveError.InvalidLongitude
  else if value =? HALF_TURN_NANODEGREES then Ok (- HALF_TURN_NANODEGREES) else Ok value.
Definition LatitudeNanodegrees_new (value : Z) : result SpatialPrimitiveError LatitudeNanodegrees :=
  if (value <? - QUARTER_TURN_NANODEGREES) || (QUARTER_TURN_NANODEGREES <? value) then Err SpatialPrimitiveError.InvalidLatitude
  else Ok value.
Definition is_pole (latitude : LatitudeNanodegrees) : bool :=
  (latitude =? - QUARTER_TURN_NANODEGREES) || (latitude =? QUARTER_TURN_NANODEGREES).
Record LocalPoint2 : Set := mk_local_point2 { p2_x : Nanometres; p2_y : Nanometres }.
Record LocalPoint3 : Set := mk_local_point3 { p3_x : Nanometres; p3_y : Nanometres; p3_z : Nanometres }.
Record GeographicPoint : Set := mk_geographic_point {
  gp_longitude : LongitudeNanodegrees;
  gp_latitude : LatitudeNanodegrees;
  gp_height : option Nanometres
}.
(** At a pole every longitude names the same point: zero is the canonical one. *)
Definition GeographicPoint_new (longitude : LongitudeNanodegrees) (latitude : LatitudeNanodegrees)
    (height : option Nanometres) : GeographicPoint :=
  mk_geographic_point (if is_pole latitude then 0 else longitude) latitude height.
#[global] Instance LocalPoint2_eq_dec : EqDecision LocalPoint2.
Proof. solve_decision. Defined.
#[global] Instance LocalPoint3_eq_dec : EqDecision LocalPoint3.
Proof. solve_decision. Defined.
#[global] Instance GeographicPoint_eq_dec : EqDecision GeographicPoint.
Proof. solve_decision. Defined.

(** ** Boxes *)
Record LocalBox2 : Set := mk_local_box2 { b2_min : LocalPoint2; b2_max : LocalPoint2 }.
Definition LocalBox2_new (min max : LocalPoint2) : result SpatialPrimitiveError LocalBox2 :=
  if (p2_x max <? p2_x min) || (p2_y max <? p2_y min) then Err SpatialPrimitiveError.InvalidBounds
  else Ok (mk_local_box2 min max).
Record LocalBox3 : Set := mk_local_box3 { b3_min : LocalPoint3; b3_max : LocalPoint3 }.
Definition LocalBox3_new (min max : LocalPoint3) : result SpatialPrimitiveError LocalBox3 :=
  if (p3_x max <? p3_x min) || (p3_y max <? p3_y min) || (p3_z max <? p3_z min) then Err SpatialPrimitiveError.InvalidBounds
  else Ok (mk_local_box3 min max).
Record GeographicBox : Set := mk_geographic_box {
  gb_west : LongitudeNanodegrees;
  gb_east : LongitudeNanodegrees;
  gb_south : LatitudeNanodegrees;
  gb_north : LatitudeNanodegrees
}.
Definition GeographicBox_new (west east : LongitudeNanodegrees) (south north : LatitudeNanodegrees) :
    result SpatialPrimitiveError GeographicBox :=
  if north <? south then Err SpatialPrimitiveError.InvalidBounds else Ok (mk_geographic_box west east south north).
#[global] Instance LocalBox2_eq_dec : EqDecision LocalBox2.
Proof. solve_decision. Defined.
#[global] Instance LocalBox3_eq_dec : EqDecision LocalBox3.
Proof. solve_decision. Defined.
#[global] Instance GeographicBox_eq_dec : EqDecision GeographicBox.
Proof. solve_decision. Defined.

Inductive SpatialPosition : Set :=
| Local2 (point : LocalPoint2)
| Local3 (point : LocalPoint3)
| Geographic (point : GeographicPoint).
#[global] Instance SpatialPosition_eq_dec : EqDecision SpatialPosition.
Proof. solve_decision. Defined.

(** ** Coordinate profiles *)
Inductive CoordinateSystem : Set := GeographicWgs84 | LocalCartesian2 | LocalCartesian3.
Inductive AxisOrder : Set := LongitudeLatitude | Xy | Xyz.
Inductive Handedness : Set := Right.
Inductive LengthUnit : Set := Nanometre.
Inductive AngularUnit : Set := Nanodegree.
Inductive VerticalReference : Set := Wgs84Ellipsoid.
#[global] Instance CoordinateSystem_eq_dec : EqDecision CoordinateSystem.
Proof. solve_decision. Defined.
Record CoordinateProfile : Set := CoordinateProfile_new { cpr_system : CoordinateSystem }.
#[global] Instance CoordinateProfile_eq_dec : EqDecision CoordinateProfile.
Proof. solve_decision. Defined.
Definition axis_order (profile : CoordinateProfile) : AxisOrder :=
  match cpr_system profile with
  | GeographicWgs84 => LongitudeLatitude
  | LocalCartesian2 => Xy
  | LocalCartesian3 => Xyz
  end.
Definition handedness (profile : CoordinateProfile) : option Handedness :=
  match cpr_system profile with GeographicWgs84 => None | LocalCartesian2 | LocalCartesian3 => Some Right end.
Definition length_unit (profile : CoordinateProfile) : LengthUnit := Nanometre.
Definition angular_unit (profile : CoordinateProfile) : option AngularUnit :=
  match cpr_system profile with GeographicWgs84 => Some Nanodegree | LocalCartesian2 | LocalCartesian3 => None end.
Definition vertical_reference (profile : CoordinateProfile) : option VerticalReference :=
  match cpr_system profile with GeographicWgs84 => Some Wgs84Ellipsoid | LocalCartesian2 | LocalCartesian3 => None end.
Definition profile_accepts (profile : CoordinateProfile) (position : SpatialPosition) : bool :=
  match cpr_system profile, position with
  | GeographicWgs84, Geographic _ | LocalCartesian2, Local2 _ | LocalCartesian3, Local3 _ => true
  | _, _ => false
  end.

(** ** Spatial records

    Models [crates/uste-spatial/src/model.rs]: worlds, frames, geometries and
    position observations, with their checked constructors. *)

Definition SPATIAL_PROFILE : list byte := lit "uste-spatial-record-v1".
Definition MAX_SESSION_BYTES : Z := 255.
Definition MAX_OBSERVATIONS_PER_RESULT : Z := 100000.
Definition MAX_SPATIAL_BATCH_RECORDS : Z := 10000.
Definition MAX_SPATIAL_CATALOG_ENTRIES : Z := 1000000.
Definition MAX_SPATIAL_CATALOG_LOGICAL_BYTES : Z := 64 * 1024 * 1024.

Module SpatialError.
Inductive spatial_error : Set :=
| InvalidVersion | VersionExhausted | VersionConflict | ScopeMismatch | MissingWorld | MissingFrame | MissingFrameVersion
| MissingGeometryVersion | MissingObservation | InvalidRootFrame | InvalidPredecessor | InvalidSession | InvalidObservation
| InvalidCorrection | IncompatibleFrame | FrameCycle | ResourceLimit | DuplicateRecord | SourceEventConflict | InvalidEncoding
| UnsupportedProfile.
Definition from_primitive (error : SpatialPrimitiveError) : spatial_error :=
  match error with
  | SpatialPrimitiveError.InvalidVersion => InvalidVersion
  | SpatialPrimitiveError.VersionExhausted => VersionExhausted
  | SpatialPrimitiveError.InvalidLatitude | SpatialPrimitiveError.InvalidLongitude
  | SpatialPrimitiveError.InvalidBounds => InvalidEncoding
  end.
End SpatialError.
Abbreviation SpatialError := SpatialError.spatial_error.
Import SpatialError.

Definition same_scope (left right : RecordRef) : result SpatialError unit :=
  if bool_decide (ref_database left = ref_database right) && bool_decide (ref_namespace left = ref_namespace right)
  then Ok tt else Err ScopeMismatch.
Definition same_source_scope (left : RecordRef) (right : SourceEventRef) : result SpatialError unit :=
  if bool_decide (ref_database left = ref_database right) && bool_decide (ref_namespace left = ref_namespace right)
  then Ok tt else Err ScopeMismatch.

(** ** Worlds and frames *)
Record WorldDefinition : Set := mk_world {
  w_id : RecordRef;
  w_version : SpatialVersion;
  w_root_frame : VersionedRecordRef
}.
Definition WorldDefinition_new (id : RecordRef) (version : SpatialVersion) (root_frame : VersionedRecordRef) :
    result SpatialError WorldDefinition :=
  same_scope id (vr_record root_frame);; Ok (mk_world id version root_frame).
Record FrameParent : Set := mk_frame_parent { fp_frame : VersionedRecordRef; fp_transform : VersionedRecordRef }.
Record FrameDefinition : Set := mk_frame {
  f_id : RecordRef;
  f_version : SpatialVersion;
  f_world : RecordRef;
  f_profile : CoordinateProfile;
  f_parent : option FrameParent
}.
Definition f_kind (frame : FrameDefinition) : CoordinateSystem := cpr_system (f_profile frame).
Definition check_parent (id : RecordRef) (parent : FrameParent) : result SpatialError unit :=
  same_scope id (vr_record (fp_frame parent));;
  same_scope id (vr_record (fp_transform parent));;
  if decide (vr_record (fp_frame parent) = id) then Err FrameCycle else Ok tt.
Definition FrameDefinition_new (id : RecordRef) (version : SpatialVersion) (world : RecordRef) (kind : CoordinateSystem)
    (parent : option FrameParent) : result SpatialError FrameDefinition :=
  same_scope id world;;
  match parent with Some parent => check_parent id parent | None => Ok tt end;;
  Ok (mk_frame id version world (CoordinateProfile_new kind) parent).

(** ** Geometries *)
Inductive Geometry : Set :=
| GeometryPoint2 (point : LocalPoint2)
| GeometryPoint3 (point : LocalPoint3)
| GeometryGeographicPoint (point : GeographicPoint)
| GeometryBox2 (box : LocalBox2)
| GeometryBox3 (box : LocalBox3)
| GeometryGeographicBox (box : GeographicBox).
Definition geometry_point (geometry : Geometry) : option SpatialPosition :=
  match geometry with
  | GeometryPoint2 value => Some (Local2 value)
  | GeometryPoint3 value => Some (Local3 value)
  | GeometryGeographicPoint value => Some (Geographic value)
  | GeometryBox2 _ | GeometryBox3 _ | GeometryGeographicBox _ => None
  end.
Definition accepts_geometry (kind : CoordinateSystem) (geometry : Geometry) : bool :=
  match kind, geometry with
  | GeographicWgs84, (GeometryGeographicPoint _ | GeometryGeographicBox _)
  | LocalCartesian2, (GeometryPoint2 _ | GeometryBox2 _)
  | LocalCartesian3, (GeometryPoint3 _ | GeometryBox3 _) => true
  | _, _ => false
  end.
Inductive PositionUncertainty : Set := Unknown | Radial (radius : NonNegativeNanometres).
Record GeometryVersion : Set := mk_geometry {
  g_id : RecordRef;
  g_version : SpatialVersion;
  g_world : RecordRef;
  g_frame : VersionedRecordRef;
  g_geometry : Geometry;
  g_precision : PositionUncertainty;
  g_predecessor : option VersionedRecordRef
}.
Definition GeometryVersion_new (id : RecordRef) (version : SpatialVersion) (world : RecordRef) (frame : VersionedRecordRef)
    (geometry : Geometry) (precision : PositionUncertainty) (predecessor : option VersionedRecordRef) :
    result SpatialError GeometryVersion :=
  same_scope id world;;
  same_scope id (vr_record frame);;
  if match predecessor with
     | Some predecessor => negb (bool_decide (vr_record predecessor = id)) || (version <=? vr_version predecessor)
     | None => false
     end
  then Err InvalidPredecessor
  else Ok (mk_geometry id version world frame geometry precision predecessor).

(** ** Observations *)
Record ObservationKey : Set := mk_observation_key {
  ok_source : RecordRef;
  ok_session : list byte;
  ok_event : SourceEventRef
}.
Definition ObservationKey_new (source : RecordRef) (session : list byte) (event : SourceEventRef) :
    result SpatialError ObservationKey :=
  same_source_scope source event;;
  if (zlen session =? 0) || (MAX_SESSION_BYTES <? zlen session) then Err InvalidSession
  else
    session ← map_err (λ _, ResourceLimit) (BoundedString_new session);
    Ok (mk_observation_key source session event).
Record PositionObservation : Set := mk_observation {
  o_id : RecordRef;
  o_entity : RecordRef;
  o_world : RecordRef;
  o_frame : VersionedRecordRef;
  o_key : ObservationKey;
  o_evidence : RecordRef;
  o_source_time : TimestampEnvelope;
  o_position : SpatialPosition;
  o_uncertainty : PositionUncertainty;
  o_correction_of : option RecordRef
}.
Definition PositionObservation_new (id entity world : RecordRef) (frame : VersionedRecordRef) (key : ObservationKey)
    (evidence : RecordRef) (source_time : TimestampEnvelope) (position : SpatialPosition) (uncertainty : PositionUncertainty)
    (correction_of : option RecordRef) : result SpatialError PositionObservation :=
  try_each (same_scope id) [entity; world; vr_record frame; ok_source key; evidence];;
  same_source_scope id (ok_event key);;
  if negb (bool_decide (env_role source_time = SourceEvent))
     || negb (bool_decide (src_artifact (env_source source_time) = evidence))
  then Err InvalidObservation
  else
    match correction_of with
    | Some previous => same_scope id previous;; if decide (previous = id) then Err InvalidCorrection else Ok tt
    | None => Ok tt
    end;;
    Ok (mk_observation id entity world frame key evidence source_time position uncertainty correction_of).

(** ** Results *)
Definition dedup_step (r : RecordRef) (rest : list RecordRef) : list RecordRef :=
  match rest with
  | next :: _ => if decide (r = next) then rest else r :: rest
  | [] => [r]
  end.
Definition ObservationReferences_new (observations : list RecordRef) : result SpatialError (list RecordRef) :=
  if MAX_OBSERVATIONS_PER_RESULT <? zlen observations then Err ResourceLimit
  else
    let observations := foldr dedup_step [] (merge_sort key_le observations) in
    if zlen observations <? 2 then Err InvalidObservation else Ok observations.
Inductive PositionKnowledge : Set :=
| KnowledgeUnknown
| KnowledgeObserved (observation : RecordRef)
| KnowledgeEstimated (trajectory : RecordRef)
| KnowledgeSimulated (branch : RecordRef)
| KnowledgeConflicting (observations : list RecordRef).
Definition is_unknown (knowledge : PositionKnowledge) : bool :=
  match knowledge with KnowledgeUnknown => true | _ => false end.

(** ** Records *)

(** [SpatialRecord] and its borrowed view [SpatialRecordRef]. *)
Inductive SpatialRecord : Set :=
| SWorld (world : WorldDefinition)
| SFrame (frame : FrameDefinition)
| SGeometry (geometry : GeometryVersion)
| SObservation (observation : PositionObservation).
Definition srecord_id (record : SpatialRecord) : RecordRef :=
  match record with SWorld v => w_id v | SFrame v => f_id v | SGeometry v => g_id v | SObservation v => o_id v end.
Definition order_key (record : SpatialRecord) : Z * RecordRef * Z :=
  match record with
  | SWorld v => (0, w_id v, w_version v)
  | SFrame v => (1, f_id v, f_version v)
  | SGeometry v => (2, g_id v, g_version v)
  | SObservation v => (3, o_id v, 0)
  end.
#[global] Instance FrameParent_eq_dec : EqDecision FrameParent.
Proof. solve_decision. Defined.
#[global] Instance WorldDefinition_eq_dec : EqDecision WorldDefinition.
Proof. solve_decision. Defined.
#[global] Instance FrameDefinition_eq_dec : EqDecision FrameDefinition.
Proof. solve_decision. Defined.
#[global] Instance Geometry_eq_dec : EqDecision Geometry.
Proof. solve_decision. Defined.
#[global] Instance PositionUncertainty_eq_dec : EqDecision PositionUncertainty.
Proof. solve_decision. Defined.
#[global] Instance GeometryVersion_eq_dec : EqDecision GeometryVersion.
Proof. solve_decision. Defined.
#[global] Instance ObservationKey_eq_dec : EqDecision ObservationKey.
Proof. solve_decision. Defined.
#[global] Instance ObservationKey_countable : Countable ObservationKey.
Proof.
  refine (inj_countable' (λ k, (ok_source k, ok_session k, ok_event k)) (λ '(a, b, c), mk_observation_key a b c) _).
  by intros [].
Qed.
#[global] Instance PositionObservation_eq_dec : EqDecision PositionObservation.
Proof. solve_decision. Defined.
