(* ===== verification/SpatialCodec.v ===== *)
(** * The spatial record codec

    Models [crates/uste-spatial/src/codec.rs] over the helpers of [FieldCodec].
    Encoders build their parts in the order the code does. *)
From S2P Require Import Prelude Ids Value Codec GraphCodec TimeModel FieldCodec TimeCodec SpatialModel.
Import SpatialError.

#[global] Instance spatial_field_error : FieldError SpatialError := {
  shape_error := InvalidEncoding;
  limit_error := ResourceLimit;
  profile_error := UnsupportedProfile
}.
Abbreviation sresult := (result SpatialError) (only parsing).
Definition primitive {A} (r : result SpatialPrimitiveError A) : sresult A := map_err from_primitive r.

(** ** Versions and names *)
Definition encode_version (version : SpatialVersion) : Value := VUnsigned version.
Definition decode_version (value : Value) : sresult SpatialVersion :=
  value ← read_u64 value; primitive (SpatialVersion_new value).
Definition encode_versioned (value : VersionedRecordRef) : sresult Value :=
  value_map [(lit "record", VRecordRef (vr_record value)); (lit "version", encode_version (vr_version value))].
Definition decode_versioned (value : Value) : sresult VersionedRecordRef :=
  fields ← field_map value;
  '(record, fields) ← read_field (lit "record") read_record fields;
  '(version, fields) ← read_field (lit "version") decode_version fields;
  finish_fields fields;;
  Ok (VersionedRecordRef_new record version).
Definition coordinate_name (value : CoordinateSystem) : list byte :=
  match value with
  | GeographicWgs84 => lit "wgs84_lon_lat"
  | LocalCartesian2 => lit "local_cartesian_2"
  | LocalCartesian3 => lit "local_cartesian_3"
  end.
Definition decode_coordinate (value : list byte) : sresult CoordinateSystem :=
  if decide (value = lit "wgs84_lon_lat") then Ok GeographicWgs84
  else if decide (value = lit "local_cartesian_2") then Ok LocalCartesian2
  else if decide (value = lit "local_cartesian_3") then Ok LocalCartesian3
  else Err InvalidEncoding.

(** ** Points *)
Definition encode_local2 (kind : list byte) (value : LocalPoint2) : sresult Value :=
  kind ← value_text kind;
  value_map [(lit "kind", kind); (lit "x", VSigned (p2_x value)); (lit "y", VSigned (p2_y value))].
Definition decode_local2_fields (fields : FieldMap) : sresult LocalPoint2 :=
  '(x, fields) ← read_field (lit "x") read_i128 fields;
  '(y, fields) ← read_field (lit "y") read_i128 fields;
  finish_fields fields;;
  Ok (mk_local_point2 x y).
Definition decode_local2 (value : Value) : sresult LocalPoint2 :=
  fields ← field_map value;
  '(_, fields) ← read_field (lit "kind") (read_profile (lit "point")) fields;
  decode_local2_fields fields.
Definition encode_local3 (kind : list byte) (value : LocalPoint3) : sresult Value :=
  kind ← value_text kind;
  value_map [(lit "kind", kind); (lit "x", VSigned (p3_x value)); (lit "y", VSigned (p3_y value)); (lit "z", VSigned (p3_z value))].
Definition decode_local3_fields (fields : FieldMap) : sresult LocalPoint3 :=
  '(x, fields) ← read_field (lit "x") read_i128 fields;
  '(y, fields) ← read_field (lit "y") read_i128 fields;
  '(z, fields) ← read_field (lit "z") read_i128 fields;
  finish_fields fields;;
  Ok (mk_local_point3 x y z).
Definition decode_local3 (value : Value) : sresult LocalPoint3 :=
  fields ← field_map value;
  '(_, fields) ← read_field (lit "kind") (read_profile (lit "point")) fields;
  decode_local3_fields fields.
(** [i64::try_from(take_i128(value)?)]. *)
Definition read_i64 (value : Value) : sresult Z :=
  value ← read_i128 value; if (I64_MIN <=? value) && (value <=? I64_MAX) then Ok value else Err InvalidEncoding.
Definition longitude (value : Value) : sresult LongitudeNanodegrees :=
  value ← read_i64 value;
  canonical ← primitive (LongitudeNanodegrees_new value);
  if canonical =? value then Ok canonical else Err InvalidEncoding.
Definition latitude (value : Value) : sresult LatitudeNanodegrees :=
  value ← read_i64 value; primitive (LatitudeNanodegrees_new value).
Definition encode_height (height : option Nanometres) : Value :=
  match height with Some height => VSigned height | None => VNull end.
Definition encode_geo_point (kind : list byte) (value : GeographicPoint) : sresult Value :=
  kind ← value_text kind;
  value_map [(lit "height", encode_height (gp_height value)); (lit "kind", kind);
             (lit "latitude", VSigned (gp_latitude value)); (lit "longitude", VSigned (gp_longitude value))].
Definition decode_geo_fields (fields : FieldMap) : sresult GeographicPoint :=
  '(height, fields) ← read_field (lit "height") (read_optional read_i128) fields;
  '(latitude, fields) ← read_field (lit "latitude") latitude fields;
  '(longitude, fields) ← read_field (lit "longitude") longitude fields;
  finish_fields fields;;
  let point := GeographicPoint_new longitude latitude height in
  if gp_longitude point =? longitude then Ok point else Err InvalidEncoding.

(** ** Geometries and positions *)
Definition encode_geometry (value : Geometry) : sresult Value :=
  match value with
  | GeometryPoint2 value => encode_local2 (lit "local_point_2") value
  | GeometryPoint3 value => encode_local3 (lit "local_point_3") value
  | GeometryGeographicPoint value => encode_geo_point (lit "geographic_point") value
  | GeometryBox2 value =>
      kind ← value_text (lit "local_box_2");
      max ← encode_local2 (lit "point") (b2_max value);
      min ← encode_local2 (lit "point") (b2_min value);
      value_map [(lit "kind", kind); (lit "max", max); (lit "min", min)]
  | GeometryBox3 value =>
      kind ← value_text (lit "local_box_3");
      max ← encode_local3 (lit "point") (b3_max value);
      min ← encode_local3 (lit "point") (b3_min value);
      value_map [(lit "kind", kind); (lit "max", max); (lit "min", min)]
  | GeometryGeographicBox value =>
      kind ← value_text (lit "geographic_box");
      value_map [(lit "east", VSigned (gb_east value)); (lit "kind", kind); (lit "north", VSigned (gb_north value));
                 (lit "south", VSigned (gb_south value)); (lit "west", VSigned (gb_west value))]
  end.
Definition decode_box2 (fields : FieldMap) : sresult LocalBox2 :=
  '(max, fields) ← read_field (lit "max") decode_local2 fields;
  '(min, fields) ← read_field (lit "min") decode_local2 fields;
  finish_fields fields;;
  primitive (LocalBox2_new min max).
Definition decode_box3 (fields : FieldMap) : sresult LocalBox3 :=
  '(max, fields) ← read_field (lit "max") decode_local3 fields;
  '(min, fields) ← read_field (lit "min") decode_local3 fields;
  finish_fields fields;;
  primitive (LocalBox3_new min max).
Definition decode_geo_box (fields : FieldMap) : sresult GeographicBox :=
  '(east, fields) ← read_field (lit "east") longitude fields;
  '(north, fields) ← read_field (lit "north") latitude fields;
  '(south, fields) ← read_field (lit "south") latitude fields;
  '(west, fields) ← read_field (lit "west") longitude fields;
  finish_fields fields;;
  primitive (GeographicBox_new west east south north).
Definition decode_geometry (value : Value) : sresult Geometry :=
  fields ← field_map value;
  '(kind, fields) ← read_field (lit "kind") read_text fields;
  if decide (kind = lit "local_point_2") then GeometryPoint2 <$> decode_local2_fields fields
  else if decide (kind = lit "local_point_3") then GeometryPoint3 <$> decode_local3_fields fields
  else if decide (kind = lit "geographic_point") then GeometryGeographicPoint <$> decode_geo_fields fields
  else if decide (kind = lit "local_box_2") then GeometryBox2 <$> decode_box2 fields
  else if decide (kind = lit "local_box_3") then GeometryBox3 <$> decode_box3 fields
  else if decide (kind = lit "geographic_box") then GeometryGeographicBox <$> decode_geo_box fields
  else Err InvalidEncoding.
Definition encode_position (value : SpatialPosition) : sresult Value :=
  match value with
  | Local2 value => encode_local2 (lit "local_2") value
  | Local3 value => encode_local3 (lit "local_3") value
  | Geographic value => encode_geo_point (lit "geographic") value
  end.
Definition decode_position (value : Value) : sresult SpatialPosition :=
  fields ← field_map value;
  '(kind, fields) ← read_field (lit "kind") read_text fields;
  if decide (kind = lit "local_2") then Local2 <$> decode_local2_fields fields
  else if decide (kind = lit "local_3") then Local3 <$> decode_local3_fields fields
  else if decide (kind = lit "geographic") then Geographic <$> decode_geo_fields fields
  else Err InvalidEncoding.
Definition encode_position_uncertainty (value : PositionUncertainty) : sresult Value :=
  match value with
  | Unknown => kind ← value_text (lit "unknown"); value_map [(lit "kind", kind); (lit "radial_nanometres", VNull)]
  | Radial value => kind ← value_text (lit "radial"); value_map [(lit "kind", kind); (lit "radial_nanometres", VUnsigned value)]
  end.
Definition decode_position_uncertainty (value : Value) : sresult PositionUncertainty :=
  fields ← field_map value;
  '(kind, fields) ← read_field (lit "kind") read_text fields;
  '(radial, fields) ← read_field (lit "radial_nanometres") read_value fields;
  finish_fields fields;;
  match radial with
  | VNull => if decide (kind = lit "unknown") then Ok Unknown else Err InvalidEncoding
  | VUnsigned value => if decide (kind = lit "radial") then Ok (Radial value) else Err InvalidEncoding
  | _ => Err InvalidEncoding
  end.

(** ** Keys *)
Definition read_id (value : Value) : sresult (list byte) :=
  match value with
  | VBytes value => if decide (length value = 16%nat) then Ok value else Err InvalidEncoding
  | _ => Err InvalidEncoding
  end.
Definition encode_source_event (value : SourceEventRef) : sresult Value :=
  database ← value_bytes (as_bytes (ref_database value));
  event ← value_bytes (as_bytes (ref_id value));
  namespace ← value_bytes (as_bytes (ref_namespace value));
  value_map [(lit "database", database); (lit "event", event); (lit "namespace", namespace)].
Definition decode_source_event (value : Value) : sresult SourceEventRef :=
  fields ← field_map value;
  '(database, fields) ← read_field (lit "database") read_id fields;
  '(event, fields) ← read_field (lit "event") read_id fields;
  '(namespace, fields) ← read_field (lit "namespace") read_id fields;
  finish_fields fields;;
  Ok (scoped_ref_new (from_bytes database) (from_bytes namespace) (from_bytes event)).
Definition encode_key (value : ObservationKey) : sresult Value :=
  event ← encode_source_event (ok_event value);
  session ← value_text (ok_session value);
  value_map [(lit "event", event); (lit "session", session); (lit "source", VRecordRef (ok_source value))].
Definition decode_key (value : Value) : sresult ObservationKey :=
  fields ← field_map value;
  '(event, fields) ← read_field (lit "event") decode_source_event fields;
  '(session, fields) ← read_field (lit "session") read_text fields;
  '(source, fields) ← read_field (lit "source") read_record fields;
  finish_fields fields;;
  ObservationKey_new source session event.

(** ** Records *)
Definition encode_world (value : WorldDefinition) : sresult Value :=
  root_frame ← encode_versioned (w_root_frame value);
  value_map [(lit "id", VRecordRef (w_id value)); (lit "root_frame", root_frame); (lit "version", encode_version (w_version value))].
Definition decode_world (value : Value) : sresult WorldDefinition :=
  fields ← field_map value;
  '(id, fields) ← read_field (lit "id") read_record fields;
  '(root, fields) ← read_field (lit "root_frame") decode_versioned fields;
  '(version, fields) ← read_field (lit "version") decode_version fields;
  finish_fields fields;;
  WorldDefinition_new id version root.
Definition encode_parent (value : FrameParent) : sresult Value :=
  frame ← encode_versioned (fp_frame value);
  transform ← encode_versioned (fp_transform value);
  value_map [(lit "frame", frame); (lit "transform", transform)].
Definition decode_parent (value : Value) : sresult FrameParent :=
  fields ← field_map value;
  '(frame, fields) ← read_field (lit "frame") decode_versioned fields;
  '(transform, fields) ← read_field (lit "transform") decode_versioned fields;
  finish_fields fields;;
  Ok (mk_frame_parent frame transform).
Definition encode_frame (value : FrameDefinition) : sresult Value :=
  kind ← value_text (coordinate_name (f_kind value));
  parent ← write_optional encode_parent (f_parent value);
  value_map [(lit "coordinate_system", kind); (lit "id", VRecordRef (f_id value)); (lit "parent", parent);
             (lit "version", encode_version (f_version value)); (lit "world", VRecordRef (f_world value))].
Definition decode_frame (value : Value) : sresult FrameDefinition :=
  fields ← field_map value;
  '(kind, fields) ← read_field (lit "coordinate_system") (λ value, text ← read_text value; decode_coordinate text) fields;
  '(id, fields) ← read_field (lit "id") read_record fields;
  '(parent, fields) ← read_field (lit "parent") (read_optional decode_parent) fields;
  '(version, fields) ← read_field (lit "version") decode_version fields;
  '(world, fields) ← read_field (lit "world") read_record fields;
  finish_fields fields;;
  FrameDefinition_new id version world kind parent.
Definition encode_geometry_version (value : GeometryVersion) : sresult Value :=
  frame ← encode_versioned (g_frame value);
  geometry ← encode_geometry (g_geometry value);
  predecessor ← write_optional encode_versioned (g_predecessor value);
  precision ← encode_position_uncertainty (g_precision value);
  value_map [(lit "frame", frame); (lit "geometry", geometry); (lit "id", VRecordRef (g_id value)); (lit "predecessor", predecessor);
             (lit "precision", precision); (lit "version", encode_version (g_version value)); (lit "world", VRecordRef (g_world value))].
Definition decode_geometry_version (value : Value) : sresult GeometryVersion :=
  fields ← field_map value;
  '(frame, fields) ← read_field (lit "frame") decode_versioned fields;
  '(geometry, fields) ← read_field (lit "geometry") decode_geometry fields;
  '(id, fields) ← read_field (lit "id") read_record fields;
  '(predecessor, fields) ← read_field (lit "predecessor") (read_optional decode_versioned) fields;
  '(precision, fields) ← read_field (lit "precision") decode_position_uncertainty fields;
  '(version, fields) ← read_field (lit "version") decode_version fields;
  '(world, fields) ← read_field (lit "world") read_record fields;
  finish_fields fields;;
  GeometryVersion_new id version world frame geometry precision predecessor.
Definition encode_source_time (value : TimestampEnvelope) : sresult Value :=
  map_err (λ _, InvalidObservation) (envelope_to_value value).
Definition decode_source_time (value : Value) : sresult TimestampEnvelope :=
  map_err (λ _, InvalidObservation) (envelope_from_value value).
Definition encode_correction (value : option RecordRef) : Value :=
  match value with Some record => VRecordRef record | None => VNull end.
Definition encode_observation (value : PositionObservation) : sresult Value :=
  frame ← encode_versioned (o_frame value);
  key ← encode_key (o_key value);
  position ← encode_position (o_position value);
  source_time ← encode_source_time (o_source_time value);
  uncertainty ← encode_position_uncertainty (o_uncertainty value);
  value_map [(lit "correction_of", encode_correction (o_correction_of value)); (lit "entity", VRecordRef (o_entity value));
             (lit "evidence", VRecordRef (o_evidence value)); (lit "frame", frame); (lit "id", VRecordRef (o_id value)); (lit "key", key);
             (lit "position", position); (lit "source_time", source_time); (lit "uncertainty", uncertainty);
             (lit "world", VRecordRef (o_world value))].
Definition decode_observation (value : Value) : sresult PositionObservation :=
  fields ← field_map value;
  '(correction, fields) ← read_field (lit "correction_of") (read_optional read_record) fields;
  '(entity, fields) ← read_field (lit "entity") read_record fields;
  '(evidence, fields) ← read_field (lit "evidence") read_record fields;
  '(frame, fields) ← read_field (lit "frame") decode_versioned fields;
  '(id, fields) ← read_field (lit "id") read_record fields;
  '(key, fields) ← read_field (lit "key") decode_key fields;
  '(position, fields) ← read_field (lit "position") decode_position fields;
  '(source_time, fields) ← read_field (lit "source_time") decode_source_time fields;
  '(uncertainty, fields) ← read_field (lit "uncertainty") decode_position_uncertainty fields;
  '(world, fields) ← read_field (lit "world") read_record fields;
  finish_fields fields;;
  PositionObservation_new id entity world frame key evidence source_time position uncertainty correction.
Definition srecord_body (record : SpatialRecord) : sresult (list byte * Value) :=
  match record with
  | SWorld value => body ← encode_world value; Ok (lit "world", body)
  | SFrame value => body ← encode_frame value; Ok (lit "frame", body)
  | SGeometry value => body ← encode_geometry_version value; Ok (lit "geometry", body)
  | SObservation value => body ← encode_observation value; Ok (lit "observation", body)
  end.
(** [record_ref_to_value]. *)
Definition srecord_to_value (record : SpatialRecord) : sresult Value :=
  '(kind, body) ← srecord_body record;
  kind ← value_text kind;
  profile ← value_text SPATIAL_PROFILE;
  value_map [(lit "body", body); (lit "kind", kind); (lit "profile", profile); (lit "schema_version", VUnsigned 1)].
Definition srecord_from_value (value : Value) : sresult SpatialRecord :=
  fields ← field_map value;
  '(body, fields) ← read_field (lit "body") read_value fields;
  '(kind, fields) ← read_field (lit "kind") read_text fields;
  '(_, fields) ← read_field (lit "profile") (read_profile SPATIAL_PROFILE) fields;
  '(schema, fields) ← read_field (lit "schema_version") read_u128 fields;
  if negb (schema =? 1) then Err UnsupportedProfile
  else
    finish_fields fields;;
    if decide (kind = lit "world") then SWorld <$> decode_world body
    else if decide (kind = lit "frame") then SFrame <$> decode_frame body
    else if decide (kind = lit "geometry") then SGeometry <$> decode_geometry_version body
    else if decide (kind = lit "observation") then SObservation <$> decode_observation body
    else Err UnsupportedProfile.
Definition spatial_encode_error (error : EncodeError) : SpatialError :=
  match error with EncodeError.ResourceLimit => ResourceLimit | _ => InvalidEncoding end.
Definition encode_srecord (record : SpatialRecord) : sresult (list byte) :=
  value ← srecord_to_value record; map_err spatial_encode_error (encode_value value).
Definition decode_srecord (input : list byte) : sresult SpatialRecord :=
  value ← map_err (λ _, InvalidEncoding) (decode_value input); srecord_from_value value.
