(* ===== verification/SpatialCodecExact.v ===== *)
(** * The spatial record codec is exact

    Each part has one encoding, and so has each record. *)
From S2P Require Import Prelude Ids Value Codec CodecFacts CodecFrame GraphCodec GraphCodecFacts TimeModel FieldCodec TimeCodec TimeEnvelope SpatialModel SpatialCodec.
Import SpatialError.

#[local] Arguments value_map : simpl never.
#[local] Arguments value_text : simpl never.
#[local] Arguments value_bytes : simpl never.
#[local] Arguments lit : simpl never.
#[local] Arguments read_field : simpl never.

(** ** Ranges *)
Definition spatial_version_ok (version : SpatialVersion) : Prop := 1 ≤ version ≤ U64_MAX.
Definition versioned_ok (r : VersionedRecordRef) : Prop := ref_ok (vr_record r) ∧ spatial_version_ok (vr_version r).
Definition nanometres_ok (n : Nanometres) : Prop := - 2 ^ 127 ≤ n ≤ I128_MAX.
Definition longitude_ok (l : LongitudeNanodegrees) : Prop := - HALF_TURN_NANODEGREES ≤ l < HALF_TURN_NANODEGREES.
Definition latitude_ok (l : LatitudeNanodegrees) : Prop := - QUARTER_TURN_NANODEGREES ≤ l ≤ QUARTER_TURN_NANODEGREES.
Definition point2_ok (p : LocalPoint2) : Prop := nanometres_ok (p2_x p) ∧ nanometres_ok (p2_y p).
Definition point3_ok (p : LocalPoint3) : Prop := nanometres_ok (p3_x p) ∧ nanometres_ok (p3_y p) ∧ nanometres_ok (p3_z p).
Definition geographic_ok (p : GeographicPoint) : Prop :=
  longitude_ok (gp_longitude p) ∧ latitude_ok (gp_latitude p) ∧ opt_ok nanometres_ok (gp_height p)
  ∧ (is_pole (gp_latitude p) = true → gp_longitude p = 0).
Definition box2_ok (b : LocalBox2) : Prop :=
  point2_ok (b2_min b) ∧ point2_ok (b2_max b) ∧ p2_x (b2_min b) ≤ p2_x (b2_max b) ∧ p2_y (b2_min b) ≤ p2_y (b2_max b).
Definition box3_ok (b : LocalBox3) : Prop :=
  point3_ok (b3_min b) ∧ point3_ok (b3_max b) ∧ p3_x (b3_min b) ≤ p3_x (b3_max b) ∧ p3_y (b3_min b) ≤ p3_y (b3_max b)
  ∧ p3_z (b3_min b) ≤ p3_z (b3_max b).
Definition geobox_ok (b : GeographicBox) : Prop :=
  longitude_ok (gb_west b) ∧ longitude_ok (gb_east b) ∧ latitude_ok (gb_south b) ∧ latitude_ok (gb_north b)
  ∧ gb_south b ≤ gb_north b.
Definition position_ok (p : SpatialPosition) : Prop :=
  match p with Local2 p => point2_ok p | Local3 p => point3_ok p | Geographic p => geographic_ok p end.

(** The constructors produce exactly the values in range. *)
Lemma longitude_new_iff value l : LongitudeNanodegrees_new value = Ok l ↔
  longitude_ok l ∧ (l = value ∨ value = HALF_TURN_NANODEGREES ∧ l = - HALF_TURN_NANODEGREES).
Proof.
  unfold LongitudeNanodegrees_new, longitude_ok, HALF_TURN_NANODEGREES.
  destruct (Z.ltb_spec value (- (180000000000))), (Z.ltb_spec 180000000000 value), (Z.eqb_spec value 180000000000); cbn;
    (split; [intros He; simplify_eq; lia|]); intros; first [exfalso; lia|f_equal; lia].
Qed.
Lemma latitude_new_iff value l : LatitudeNanodegrees_new value = Ok l ↔ l = value ∧ latitude_ok l.
Proof.
  unfold LatitudeNanodegrees_new, latitude_ok, QUARTER_TURN_NANODEGREES.
  destruct (Z.ltb_spec value (- (90000000000))), (Z.ltb_spec 90000000000 value); cbn;
    (split; [intros He; simplify_eq; lia|]); intros; first [exfalso; lia|f_equal; lia].
Qed.
Lemma geographic_new_ok longitude latitude height : longitude_ok longitude → latitude_ok latitude → opt_ok nanometres_ok height →
  geographic_ok (GeographicPoint_new longitude latitude height).
Proof.
  intros Hl Ht Hh. unfold geographic_ok, GeographicPoint_new. cbn. split_and!; [|done..|].
  - destruct (is_pole latitude); [|done]. unfold longitude_ok, HALF_TURN_NANODEGREES. lia.
  - by destruct (is_pole latitude).
Qed.

(** ** Leaves *)
Lemma version_exact : vexact (λ n, Ok (encode_version n)) decode_version spatial_version_ok.
Proof.
  split.
  - intros n v Hn [= <-]. unfold spatial_version_ok, encode_version in *. split; [apply valid_unsigned; unfold U128_MAX, U64_MAX in *; lia|].
    unfold decode_version. rewrite read_u64_put by lia. cbn. unfold SpatialVersion_new. by rewrite (proj2 (Z.eqb_neq _ _)) by lia.
  - intros n v Hv Hd. unfold decode_version in Hd. apply bind_Ok in Hd as (m & Hm & Hd).
    apply (proj2 u64_exact) in Hm as [Hm [= <-]]; [|done]. apply map_err_Ok in Hd. unfold SpatialVersion_new in Hd.
    destruct (Z.eqb_spec m 0); [done|]. injection Hd as <-. split; [unfold spatial_version_ok; lia|done].
Qed.
Lemma version_put n : spatial_version_ok n → value_valid (VUnsigned n) ∧ decode_version (VUnsigned n) = Ok n.
Proof. intros Hn. by apply (proj1 version_exact n). Qed.
(** The ranges of the leaves of a record being written. *)
Ltac put_versions := repeat match goal with H : spatial_version_ok ?n |- _ => destruct (version_put n H); clear H end.
Lemma versioned_exact : vexact encode_versioned decode_versioned versioned_ok.
Proof.
  split.
  - intros [r n] v [Hr Hn] He. unfold encode_versioned, encode_version in He. cbn [vr_record vr_version] in *.
    put_versions. open_value_map He. split; [done|]. unfold decode_versioned. run_read. done.
  - intros r v Hv Hd. unfold decode_versioned in Hd. open_read Hd. injection Hd as <-. chain_perm. children_valid.
    part_bwd (record_exact (E := SpatialError)). part_bwd version_exact. split; [by split|].
    unfold encode_versioned. cbn [vr_record vr_version]. close_write.
Qed.
Lemma coordinate_exact : vexact (λ k, value_text (coordinate_name k)) (λ v, s ← read_text v; decode_coordinate s) (λ _, True).
Proof. unfold decode_coordinate. name_exactness. Qed.
Lemma read_i64_iff v n : read_i64 v = Ok n ↔ v = VSigned n ∧ I64_MIN ≤ n ≤ I64_MAX.
Proof.
  unfold read_i64. split.
  - destruct v as [| | |z| | | | | |]; try done. cbn. destruct (_ && _) eqn:Hb; [|done]. intros [= <-]. split; [done|lia].
  - intros [-> Hn]. cbn. by rewrite !(proj2 (Z.leb_le _ _)) by lia.
Qed.
Lemma longitude_exact : vexact (λ n, Ok (VSigned n)) longitude longitude_ok.
Proof.
  unfold longitude. split.
  - intros n v Hn [= <-]. pose proof Hn as Hr. unfold longitude_ok, HALF_TURN_NANODEGREES in Hr.
    split; [apply valid_signed; unfold I128_MAX; lia|]. rewrite (proj2 (read_i64_iff (VSigned n) n)) by (unfold I64_MIN, I64_MAX; split; [done|lia]).
    rewrite result_bind_Ok, (proj2 (longitude_new_iff n n)) by auto. unfold primitive. cbn [map_err]. by rewrite result_bind_Ok, Z.eqb_refl.
  - intros n v Hv (m & [-> _]%read_i64_iff & Hd)%bind_Ok. apply bind_Ok in Hd as (c & Hc%map_err_Ok & Hd).
    apply longitude_new_iff in Hc as [Hc _]. destruct (Z.eqb_spec c m); [|done]. injection Hd as <-. by subst.
Qed.
Lemma latitude_exact : vexact (λ n, Ok (VSigned n)) latitude latitude_ok.
Proof.
  unfold latitude. split.
  - intros n v Hn [= <-]. pose proof Hn as Hr. unfold latitude_ok, QUARTER_TURN_NANODEGREES in Hr.
    split; [apply valid_signed; unfold I128_MAX; lia|]. rewrite (proj2 (read_i64_iff (VSigned n) n)) by (unfold I64_MIN, I64_MAX; split; [done|lia]).
    unfold primitive. by rewrite result_bind_Ok, (proj2 (latitude_new_iff n n)).
  - intros n v Hv (m & [-> _]%read_i64_iff & Hd)%bind_Ok. apply map_err_Ok, latitude_new_iff in Hd as [-> Hn]. done.
Qed.
Lemma nanometres_put n : nanometres_ok n → value_valid (VSigned n).
Proof. intros Hn. by apply valid_signed. Qed.
Lemma longitude_put n : longitude_ok n → value_valid (VSigned n) ∧ longitude (VSigned n) = Ok n.
Proof. intros Hn. by apply (proj1 longitude_exact n). Qed.
Lemma latitude_put n : latitude_ok n → value_valid (VSigned n) ∧ latitude (VSigned n) = Ok n.
Proof. intros Hn. by apply (proj1 latitude_exact n). Qed.
Ltac put_coordinates :=
  repeat match goal with
  | H : nanometres_ok ?n |- _ => apply nanometres_put in H
  | H : longitude_ok ?n |- _ => apply longitude_put in H; destruct H
  | H : latitude_ok ?n |- _ => apply latitude_put in H; destruct H
  end.
Lemma read_i128_iff v n : read_i128 (E := SpatialError) v = Ok n ↔ v = VSigned n.
Proof. split; [destruct v; try done; by intros [= ->]|by intros ->]. Qed.
Lemma read_text_iff v s : read_text (E := SpatialError) v = Ok s ↔ v = VString s.
Proof. split; [destruct v; try done; by intros [= ->]|by intros ->]. Qed.
Lemma read_profile_iff s v u : read_profile (E := SpatialError) s v = Ok u ↔ v = VString s ∧ u = tt.
Proof.
  destruct u. unfold read_profile. split.
  - intros (t & ->%read_text_iff & Hd)%bind_Ok. by case_decide; subst.
  - intros [-> _]. cbn. by rewrite decide_True.
Qed.
Ltac inv_texts :=
  repeat match goal with
  | H : read_text _ = Ok _ |- _ => apply read_text_iff in H; subst
  | H : read_profile _ _ = Ok _ |- _ => apply read_profile_iff in H; destruct H; subst
  | H : read_i128 _ = Ok _ |- _ => apply read_i128_iff in H; subst
  end.

(** ** Points *)
Lemma local2_fields fs p : decode_local2_fields fs = Ok p → fs ≡ₚ [(lit "x", VSigned (p2_x p)); (lit "y", VSigned (p2_y p))].
Proof. unfold decode_local2_fields. intros Hd. open_read Hd. injection Hd as <-. inv_texts. by chain_perm. Qed.
Lemma local3_fields fs p : decode_local3_fields fs = Ok p →
  fs ≡ₚ [(lit "x", VSigned (p3_x p)); (lit "y", VSigned (p3_y p)); (lit "z", VSigned (p3_z p))].
Proof. unfold decode_local3_fields. intros Hd. open_read Hd. injection Hd as <-. inv_texts. by chain_perm. Qed.
Lemma geo_fields fs p : decode_geo_fields fs = Ok p → Forall value_valid fs.*2 →
  fs ≡ₚ [(lit "height", encode_height (gp_height p)); (lit "latitude", VSigned (gp_latitude p)); (lit "longitude", VSigned (gp_longitude p))]
  ∧ geographic_ok p.
Proof.
  unfold decode_geo_fields. intros Hd Hv. open_read Hd. destruct (Z.eqb_spec (gp_longitude (GeographicPoint_new a1 a0 a)) a1) as [He|]; [|done].
  injection Hd as <-. chain_perm. rewrite Hp in Hv. cbn in Hv. apply Forall_cons in Hv as [Hv1 [Hv2 [Hv3 _]%Forall_cons]%Forall_cons].
  apply (proj2 latitude_exact) in Hd1 as [Hlat [= <-]]; [|done]. apply (proj2 longitude_exact) in Hd2 as [Hlon [= <-]]; [|done].
  assert (v = encode_height a ∧ opt_ok nanometres_ok a) as [-> Ha].
  { unfold read_optional in Hd0. destruct v; try (apply fmap_Ok in Hd0 as (k & Hk & ->); try done).
    - by injection Hd0 as <-.
    - injection Hk as <-. split; [done|]. by apply valid_signed. }
  split; [|by apply geographic_new_ok]. by rewrite He.
Qed.
Lemma geo_write p : geographic_ok p →
  decode_geo_fields [(lit "height", encode_height (gp_height p)); (lit "latitude", VSigned (gp_latitude p)); (lit "longitude", VSigned (gp_longitude p))] = Ok p.
Proof.
  destruct p as [lon lat h]. intros (Hlon & Hlat & Hh & Hpole). cbn in *. put_coordinates.
  unfold decode_geo_fields.
  rewrite (read_field_eval (lit "height") _ _ (encode_height h) [(lit "latitude", VSigned lat); (lit "longitude", VSigned lon)]) by (vm_compute; reflexivity).
  assert (read_optional read_i128 (encode_height h) = Ok (E := SpatialError) h) as -> by (by destruct h). step_bind. run_read.
  unfold GeographicPoint_new. cbn [gp_longitude]. destruct (is_pole lat); [rewrite Hpole by done|]; by rewrite Z.eqb_refl.
Qed.
(** A point under a [kind] of its own. *)
Lemma local2_encoded kind p v : str_okb kind = true → point2_ok p → encode_local2 kind p = Ok v →
  v = VMap [(lit "kind", VString kind); (lit "x", VSigned (p2_x p)); (lit "y", VSigned (p2_y p))] ∧ value_valid v.
Proof.
  intros Hk [Hx Hy] He. unfold encode_local2 in He. open_write He. apply value_text_Ok in Hx0 as [-> _]. put_coordinates.
  apply value_map_Ok in He; [done|by vm_compute|]. cbn. repeat (apply Forall_cons; split); first [done|by apply valid_string].
Qed.
Lemma local3_encoded kind p v : str_okb kind = true → point3_ok p → encode_local3 kind p = Ok v →
  v = VMap [(lit "kind", VString kind); (lit "x", VSigned (p3_x p)); (lit "y", VSigned (p3_y p)); (lit "z", VSigned (p3_z p))] ∧ value_valid v.
Proof.
  intros Hk (Hx & Hy & Hz) He. unfold encode_local3 in He. open_write He. apply value_text_Ok in Hx0 as [-> _]. put_coordinates.
  apply value_map_Ok in He; [done|by vm_compute|]. cbn. repeat (apply Forall_cons; split); first [done|by apply valid_string].
Qed.
Lemma geo_encoded kind p v : str_okb kind = true → geographic_ok p → encode_geo_point kind p = Ok v →
  v = VMap [(lit "height", encode_height (gp_height p)); (lit "kind", VString kind); (lit "latitude", VSigned (gp_latitude p));
            (lit "longitude", VSigned (gp_longitude p))] ∧ value_valid v.
Proof.
  intros Hk (Hlon & Hlat & Hh & _) He. unfold encode_geo_point in He. open_write He. apply value_text_Ok in Hx as [-> _]. put_coordinates.
  apply value_map_Ok in He; [done|by vm_compute|]. cbn. repeat (apply Forall_cons; split); try first [done|by apply valid_string].
  destruct (gp_height p); [by apply nanometres_put|apply valid_null].
Qed.
(** And back: what was read re-encodes to the map it was read from. *)
Lemma text_str kind v : value_valid v → v = VString kind → value_text (E := SpatialError) kind = Ok v ∧ str_okb kind = true.
Proof.
  intros Hv ->. apply valid_string in Hv. split; [|done]. apply value_text_Ok. split; [done|]. by apply andb_true_iff in Hv as [? _].
Qed.
Lemma local2_read es kind fs p : value_valid (VMap es) → es ≡ₚ (lit "kind", VString kind) :: fs → decode_local2_fields fs = Ok p →
  point2_ok p ∧ encode_local2 kind p = Ok (VMap es).
Proof.
  intros Hv Hp Hd%local2_fields. rewrite Hd in Hp. children_valid. apply valid_signed in Hval0, Hval1. split; [done|].
  unfold encode_local2. destruct (text_str kind _ Hval eq_refl) as [-> _]. step_bind. close_value_map.
Qed.
Lemma local3_read es kind fs p : value_valid (VMap es) → es ≡ₚ (lit "kind", VString kind) :: fs → decode_local3_fields fs = Ok p →
  point3_ok p ∧ encode_local3 kind p = Ok (VMap es).
Proof.
  intros Hv Hp Hd%local3_fields. rewrite Hd in Hp. children_valid. apply valid_signed in Hval0, Hval1, Hval2. split; [done|].
  unfold encode_local3. destruct (text_str kind _ Hval eq_refl) as [-> _]. step_bind. close_value_map.
Qed.
Lemma geo_read es kind fs p : value_valid (VMap es) → es ≡ₚ (lit "kind", VString kind) :: fs → decode_geo_fields fs = Ok p →
  geographic_ok p ∧ encode_geo_point kind p = Ok (VMap es).
Proof.
  intros Hv Hp Hd. pose proof (entries_valid _ _ Hv Hp) as Hall. cbn in Hall. apply Forall_cons in Hall as [Hk Hall].
  apply geo_fields in Hd as [Hfs Hok]; [|done]. rewrite Hfs in Hp. split; [done|].
  unfold encode_geo_point. destruct (text_str kind _ Hk eq_refl) as [-> _]. step_bind. close_value_map.
Qed.
Lemma point2_exact : vexact (encode_local2 (lit "point")) decode_local2 point2_ok.
Proof.
  split.
  - intros p v Hp He. apply local2_encoded in He as [-> Hv]; [|by vm_compute|done]. split; [done|].
    unfold decode_local2. destruct p. by vm_compute.
  - intros p v Hv Hd. unfold decode_local2 in Hd. apply field_map_bind in Hd as (es & -> & Hd). apply read_bind in Hd as (v & a & fs & Hp & Ha & Hd).
    inv_texts. by eapply local2_read.
Qed.
Lemma point3_exact : vexact (encode_local3 (lit "point")) decode_local3 point3_ok.
Proof.
  split.
  - intros p v Hp He. apply local3_encoded in He as [-> Hv]; [|by vm_compute|done]. split; [done|].
    unfold decode_local3. destruct p. by vm_compute.
  - intros p v Hv Hd. unfold decode_local3 in Hd. apply field_map_bind in Hd as (es & -> & Hd). apply read_bind in Hd as (v & a & fs & Hp & Ha & Hd).
    inv_texts. by eapply local3_read.
Qed.

(** ** Geometries *)
Definition geometry_ok (g : Geometry) : Prop :=
  match g with
  | GeometryPoint2 p => point2_ok p
  | GeometryPoint3 p => point3_ok p
  | GeometryGeographicPoint p => geographic_ok p
  | GeometryBox2 b => box2_ok b
  | GeometryBox3 b => box3_ok b
  | GeometryGeographicBox b => geobox_ok b
  end.
Ltac new_box Hb :=
  lazymatch type of Hb with
  | _ ∧ _ => first [by destruct Hb as [-> _]|destruct Hb as [? Hb]; subst; cbn in Hb; lia]
  | _ => injection Hb as <-; cbn; by split_and!
  end.
Lemma box2_new_iff min max b : point2_ok min → point2_ok max → LocalBox2_new min max = Ok b ↔ b = mk_local_box2 min max ∧ box2_ok b.
Proof.
  intros Hmin Hmax. unfold LocalBox2_new, box2_ok.
  destruct (Z.ltb_spec (p2_x max) (p2_x min)), (Z.ltb_spec (p2_y max) (p2_y min)); cbn; split; intros Hb; try discriminate Hb;
    new_box Hb.
Qed.
Lemma box3_new_iff min max b : point3_ok min → point3_ok max → LocalBox3_new min max = Ok b ↔ b = mk_local_box3 min max ∧ box3_ok b.
Proof.
  intros Hmin Hmax. unfold LocalBox3_new, box3_ok.
  destruct (Z.ltb_spec (p3_x max) (p3_x min)), (Z.ltb_spec (p3_y max) (p3_y min)), (Z.ltb_spec (p3_z max) (p3_z min)); cbn;
    split; intros Hb; try discriminate Hb; new_box Hb.
Qed.
Lemma geobox_new_iff west east south north b : longitude_ok west → longitude_ok east → latitude_ok south → latitude_ok north →
  GeographicBox_new west east south north = Ok b ↔ b = mk_geographic_box west east south north ∧ geobox_ok b.
Proof.
  intros H1 H2 H3 H4. unfold GeographicBox_new, geobox_ok. destruct (Z.ltb_spec north south); split; intros Hb; try discriminate Hb;
    new_box Hb.
Qed.
(** Decide between literal names. *)
Ltac decide_names := rewrite ?decide_False by (vm_compute; discriminate); rewrite decide_True by reflexivity.
Ltac inv_kind H := repeat (destruct (decide _) as [->|] in H; [apply fmap_Ok in H; destruct H as (? & H & ->)|]); try discriminate H.
Lemma geometry_exact : vexact encode_geometry decode_geometry geometry_ok.
Proof.
  split.
  - intros g v Hok He. destruct g as [p|p|p|[min max]|[min max]|[west east south north]]; cbn [encode_geometry geometry_ok] in He, Hok.
    + apply local2_encoded in He as [-> Hv]; [|by vm_compute|done]. split; [done|]. destruct p. by vm_compute.
    + apply local3_encoded in He as [-> Hv]; [|by vm_compute|done]. split; [done|]. destruct p. by vm_compute.
    + apply geo_encoded in He as [-> Hv]; [|by vm_compute|done]. split; [done|]. unfold decode_geometry. run_read. decide_names.
      by rewrite geo_write.
    + pose proof Hok as (Hmin & Hmax & _). cbn [b2_min b2_max] in *. open_write He. apply value_text_Ok in Hx as [-> _]. part_fwd point2_exact.
      open_value_map He. split; [done|]. unfold decode_geometry. run_read. decide_names. unfold decode_box2. run_read.
      by rewrite (proj2 (box2_new_iff min max (mk_local_box2 min max) Hmin Hmax)).
    + pose proof Hok as (Hmin & Hmax & _). cbn [b3_min b3_max] in *. open_write He. apply value_text_Ok in Hx as [-> _]. part_fwd point3_exact.
      open_value_map He. split; [done|]. unfold decode_geometry. run_read. decide_names. unfold decode_box3. run_read.
      by rewrite (proj2 (box3_new_iff min max (mk_local_box3 min max) Hmin Hmax)).
    + pose proof Hok as (H1 & H2 & H3 & H4 & _). cbn in *. pose proof (geobox_new_iff west east south north) as Hnew. specialize (Hnew (mk_geographic_box west east south north) H1 H2 H3 H4).
      open_write He. apply value_text_Ok in Hx as [-> _]. put_coordinates. open_value_map He. split; [done|].
      unfold decode_geometry. run_read. decide_names. unfold decode_geo_box. run_read. by rewrite (proj2 Hnew).
  - intros g v Hv Hd. unfold decode_geometry in Hd. apply field_map_bind in Hd as (es & -> & Hd). apply read_bind in Hd as (v & a & fs & Hp & Ha & Hd).
    inv_texts. inv_kind Hd; cbn [encode_geometry geometry_ok].
    + by eapply local2_read.
    + by eapply local3_read.
    + by eapply geo_read.
    + unfold decode_box2 in Hd. open_read Hd. chain_perm. children_valid. part_bwd point2_exact.
      apply map_err_Ok, box2_new_iff in Hd as [-> Hb]; [|done..]. split; [done|]. cbn [b2_min b2_max]. close_write.
    + unfold decode_box3 in Hd. open_read Hd. chain_perm. children_valid. part_bwd point3_exact.
      apply map_err_Ok, box3_new_iff in Hd as [-> Hb]; [|done..]. split; [done|]. cbn [b3_min b3_max]. close_write.
    + unfold decode_geo_box in Hd. open_read Hd. chain_perm. children_valid. part_bwd longitude_exact. part_bwd latitude_exact.
      apply map_err_Ok, geobox_new_iff in Hd as [-> Hb]; [|done..]. split; [done|]. cbn [gb_west gb_east gb_south gb_north]. close_write.
Qed.
Lemma position_exact : vexact encode_position decode_position position_ok.
Proof.
  split.
  - intros [p|p|p] v Hok He; cbn [encode_position position_ok] in He, Hok.
    + apply local2_encoded in He as [-> Hv]; [|by vm_compute|done]. split; [done|]. destruct p. by vm_compute.
    + apply local3_encoded in He as [-> Hv]; [|by vm_compute|done]. split; [done|]. destruct p. by vm_compute.
    + apply geo_encoded in He as [-> Hv]; [|by vm_compute|done]. split; [done|]. unfold decode_position. run_read. decide_names.
      by rewrite geo_write.
  - intros g v Hv Hd. unfold decode_position in Hd. apply field_map_bind in Hd as (es & -> & Hd). apply read_bind in Hd as (v & a & fs & Hp & Ha & Hd).
    inv_texts. inv_kind Hd; cbn [encode_position position_ok]; [by eapply local2_read|by eapply local3_read|by eapply geo_read].
Qed.
Definition accuracy_ok (u : PositionUncertainty) : Prop := match u with Unknown => True | Radial r => 0 ≤ r ≤ U128_MAX end.
Lemma accuracy_exact : vexact encode_position_uncertainty decode_position_uncertainty accuracy_ok.
Proof.
  split.
  - intros [|r] v Hok He; cbn in Hok; unfold encode_position_uncertainty in He; open_write He; apply value_text_Ok in Hx as [-> _];
      open_value_map He; try (by apply valid_unsigned); (split; [done|]); unfold decode_position_uncertainty; run_read; by decide_names.
  - intros u v Hv Hd. unfold decode_position_uncertainty in Hd. open_read Hd. chain_perm. children_valid. inv_texts. injection Hd1 as ->.
    unfold encode_position_uncertainty. destruct a0; try done; (destruct (decide _) as [->|] in Hd; [|done]); injection Hd as <-.
    + split; [done|]. close_write.
    + apply valid_unsigned in Hval0. split; [done|]. close_write.
Qed.

(** ** Keys *)
Lemma id_exact : vexact (λ b, value_bytes b) read_id (λ b, length b = 16%nat).
Proof.
  split.
  - intros b v Hb [-> Hi]%value_bytes_Ok. split; [by apply valid_bytes|]. cbn. by rewrite decide_True.
  - intros b v Hv Hd. destruct v; try done. cbn in Hd. case_decide; [|done]. injection Hd as <-. apply valid_bytes in Hv.
    split; [done|]. by apply value_bytes_Ok.
Qed.
Lemma source_event_exact : vexact encode_source_event decode_source_event ref_ok.
Proof.
  split.
  - intros [[d n] e] v ([Hd Hn] & He) Hw. unfold encode_source_event, ref_database, ref_namespace in Hw. cbn in Hw, Hd, Hn, He. unfold identity_ok in *.
    open_write Hw. part_fwd id_exact. open_value_map Hw. split; [done|]. unfold decode_source_event. run_read. by destruct d, n, e.
  - intros e v Hv Hd. unfold decode_source_event in Hd. open_read Hd. injection Hd as <-. chain_perm. children_valid. part_bwd id_exact.
    split; [done|]. unfold encode_source_event, ref_database, ref_namespace. cbn. close_write.
Qed.
Definition in_scope {k} (left : RecordRef) (right : scoped_ref k) : Prop := ref_scope left = ref_scope right.
Lemma same_scope_iff (l r : RecordRef) u : same_scope l r = Ok u ↔ in_scope l r.
Proof.
  destruct u. unfold same_scope, in_scope, ref_database, ref_namespace. destruct l as [[d n] i], r as [[d' n'] i']. cbn.
  destruct (bool_decide_reflect (d = d')), (bool_decide_reflect (n = n')); cbn; naive_solver.
Qed.
Lemma same_source_scope_iff l r u : same_source_scope l r = Ok u ↔ in_scope l r.
Proof.
  destruct u. unfold same_source_scope, in_scope, ref_database, ref_namespace. destruct l as [[d n] i], r as [[d' n'] i']. cbn.
  destruct (bool_decide_reflect (d = d')), (bool_decide_reflect (n = n')); cbn; naive_solver.
Qed.
Definition key_ok (k : ObservationKey) : Prop :=
  ref_ok (ok_source k) ∧ str_okb (ok_session k) = true ∧ 0 < zlen (ok_session k) ≤ MAX_SESSION_BYTES ∧ ref_ok (ok_event k)
  ∧ in_scope (ok_source k) (ok_event k).
Lemma key_new_iff source session event k : ObservationKey_new source session event = Ok k ↔
  k = mk_observation_key source session event ∧ in_scope source event ∧ 0 < zlen session ≤ MAX_SESSION_BYTES.
Proof.
  unfold ObservationKey_new. rewrite bind_Ok. setoid_rewrite same_source_scope_iff. pose proof (zlen_nonneg session).
  destruct (Z.eqb_spec (zlen session) 0); [cbn; naive_solver lia|]. destruct (Z.ltb_spec MAX_SESSION_BYTES (zlen session)); [cbn; naive_solver lia|].
  cbn [orb]. rewrite (proj2 (BoundedString_new_Ok session session)); [cbn; naive_solver lia|].
  split; [done|]. unfold inline_okb, MAX_SESSION_BYTES, MAX_INLINE_BYTES in *. lia.
Qed.

(** ** Records

    Bytes decode to a record exactly when the record satisfies the checks of its
    constructor with every part in range and the bytes are its encoding. *)


Lemma key_exact : vexact encode_key decode_key key_ok.
Proof.
  split.
  - intros [so se ev] v (Hso & Hse & Hlen & Hev & Hsc) He. unfold encode_key in He. cbn in *. open_write He.
    part_fwd source_event_exact. part_fwd (text_exact (E := SpatialError)). open_value_map He. split; [done|].
    unfold decode_key. run_read. by apply key_new_iff.
  - intros k v Hv Hd. unfold decode_key in Hd. open_read Hd. chain_perm. children_valid. apply key_new_iff in Hd as (-> & Hsc & Hlen & Hlen').
    part_bwd source_event_exact. part_bwd (text_exact (E := SpatialError)). part_bwd (record_exact (E := SpatialError)).
    split; [by split_and!|]. unfold encode_key. cbn [ok_source ok_session ok_event]. close_write.
Qed.
Definition world_ok (w : WorldDefinition) : Prop :=
  ref_ok (w_id w) ∧ spatial_version_ok (w_version w) ∧ versioned_ok (w_root_frame w) ∧ in_scope (w_id w) (vr_record (w_root_frame w)).
Lemma world_exact : vexact encode_world decode_world world_ok.
Proof.
  split.
  - intros [id n root] v (Hi & Hn & Hr & Hs) He. unfold encode_world, encode_version in He. cbn in *. open_write He.
    part_fwd versioned_exact. put_versions. open_value_map He. split; [done|]. unfold decode_world. run_read.
    unfold WorldDefinition_new. by rewrite (proj2 (same_scope_iff _ _ tt)).
  - intros w v Hv Hd. unfold decode_world in Hd. open_read Hd. chain_perm. children_valid. unfold WorldDefinition_new in Hd.
    apply bind_Ok in Hd as ([] & Hs%same_scope_iff & [= <-]). part_bwd versioned_exact. part_bwd version_exact. part_bwd (record_exact (E := SpatialError)).
    split; [by split_and!|]. unfold encode_world. cbn [w_id w_version w_root_frame]. close_write.
Qed.
Definition parent_ok (p : FrameParent) : Prop := versioned_ok (fp_frame p) ∧ versioned_ok (fp_transform p).
Lemma parent_exact : vexact encode_parent decode_parent parent_ok.
Proof.
  split.
  - intros [f t] v [Hf Ht] He. unfold encode_parent in He. cbn in *. open_write He. part_fwd versioned_exact. open_value_map He.
    split; [done|]. unfold decode_parent. by run_read.
  - intros p v Hv Hd. unfold decode_parent in Hd. open_read Hd. injection Hd as <-. chain_perm. children_valid. part_bwd versioned_exact.
    split; [by split|]. unfold encode_parent. cbn [fp_frame fp_transform]. close_write.
Qed.
Lemma optional_parent_exact : vexact (write_optional encode_parent) (read_optional decode_parent) (opt_ok parent_ok).
Proof. apply field_optional_exact; [apply parent_exact|]. intros p v He. unfold encode_parent in He. open_write He. by apply value_map_not_null in He. Qed.
Lemma optional_versioned_exact : vexact (write_optional encode_versioned) (read_optional decode_versioned) (opt_ok versioned_ok).
Proof. apply field_optional_exact; [apply versioned_exact|]. intros p v He. unfold encode_versioned in He. by apply value_map_not_null in He. Qed.
(** The parent is of the frame's scope and another frame. *)
Definition parent_fits (id : RecordRef) (p : FrameParent) : Prop :=
  in_scope id (vr_record (fp_frame p)) ∧ in_scope id (vr_record (fp_transform p)) ∧ vr_record (fp_frame p) ≠ id.
Lemma check_parent_iff id p u : check_parent id p = Ok u ↔ parent_fits id p.
Proof.
  destruct u. unfold check_parent, parent_fits. rewrite bind_Ok. setoid_rewrite bind_Ok. setoid_rewrite same_scope_iff.
  case_decide; naive_solver.
Qed.
Definition frame_ok (f : FrameDefinition) : Prop :=
  ref_ok (f_id f) ∧ spatial_version_ok (f_version f) ∧ ref_ok (f_world f) ∧ opt_ok parent_ok (f_parent f)
  ∧ in_scope (f_id f) (f_world f) ∧ opt_ok (parent_fits (f_id f)) (f_parent f).
Lemma frame_new_iff id version world kind parent f : FrameDefinition_new id version world kind parent = Ok f ↔
  f = mk_frame id version world (CoordinateProfile_new kind) parent ∧ in_scope id world ∧ opt_ok (parent_fits id) parent.
Proof.
  unfold FrameDefinition_new. rewrite bind_Ok. setoid_rewrite bind_Ok. setoid_rewrite same_scope_iff.
  destruct parent as [p|]; cbn; [setoid_rewrite check_parent_iff|]; naive_solver.
Qed.
Lemma frame_exact : vexact encode_frame decode_frame frame_ok.
Proof.
  split.
  - intros [id n w [k] p] v (Hi & Hn & Hw & Hp & Hs & Hf) He. unfold encode_frame, encode_version, f_kind in He. cbn in *. open_write He.
    part_fwd coordinate_exact. part_fwd optional_parent_exact. put_versions. open_value_map He. split; [done|]. unfold decode_frame. run_read.
    by apply frame_new_iff.
  - intros f v Hv Hd. unfold decode_frame in Hd. open_read Hd. chain_perm. children_valid. apply frame_new_iff in Hd as (-> & Hs & Hf).
    part_bwd coordinate_exact. part_bwd optional_parent_exact. part_bwd version_exact. part_bwd (record_exact (E := SpatialError)).
    split; [by split_and!|]. unfold encode_frame, f_kind. cbn [f_id f_version f_world f_profile f_parent cpr_system]. close_write.
Qed.
Definition predecessor_fits (id : RecordRef) (version : SpatialVersion) (p : VersionedRecordRef) : Prop := vr_record p = id ∧ vr_version p < version.
Definition geometry_version_ok (g : GeometryVersion) : Prop :=
  ref_ok (g_id g) ∧ spatial_version_ok (g_version g) ∧ ref_ok (g_world g) ∧ versioned_ok (g_frame g) ∧ geometry_ok (g_geometry g)
  ∧ accuracy_ok (g_precision g) ∧ opt_ok versioned_ok (g_predecessor g) ∧ in_scope (g_id g) (g_world g)
  ∧ in_scope (g_id g) (vr_record (g_frame g)) ∧ opt_ok (predecessor_fits (g_id g) (g_version g)) (g_predecessor g).
Lemma geometry_new_iff id version world frame geometry precision predecessor g :
  GeometryVersion_new id version world frame geometry precision predecessor = Ok g ↔
  g = mk_geometry id version world frame geometry precision predecessor ∧ in_scope id world ∧ in_scope id (vr_record frame)
  ∧ opt_ok (predecessor_fits id version) predecessor.
Proof.
  unfold GeometryVersion_new. rewrite bind_Ok. setoid_rewrite bind_Ok. setoid_rewrite same_scope_iff.
  destruct predecessor as [p|]; cbn; [|naive_solver]. unfold predecessor_fits.
  destruct (bool_decide_reflect (vr_record p = id)), (Z.leb_spec version (vr_version p)); cbn; naive_solver lia.
Qed.
(** The encoder lists [predecessor] before [precision]; the map sorts its keys. *)
Lemma encode_geometry_version_sorted g : encode_geometry_version g =
  (frame ← encode_versioned (g_frame g);
   geometry ← encode_geometry (g_geometry g);
   predecessor ← write_optional encode_versioned (g_predecessor g);
   precision ← encode_position_uncertainty (g_precision g);
   value_map [(lit "frame", frame); (lit "geometry", geometry); (lit "id", VRecordRef (g_id g)); (lit "precision", precision);
              (lit "predecessor", predecessor); (lit "version", encode_version (g_version g)); (lit "world", VRecordRef (g_world g))]).
Proof.
  unfold encode_geometry_version.
  destruct (encode_versioned _); [rewrite !result_bind_Ok|done]. destruct (encode_geometry _); [rewrite !result_bind_Ok|done].
  destruct (write_optional _ _); [rewrite !result_bind_Ok|done]. destruct (encode_position_uncertainty _); [rewrite !result_bind_Ok|done].
  apply value_map_swap; [solve_perm|by vm_compute].
Qed.
Lemma geometry_version_exact : vexact encode_geometry_version decode_geometry_version geometry_version_ok.
Proof.
  split.
  - intros [id n w f g a p] v (Hi & Hn & Hw & Hf & Hg & Ha & Hp & Hs) He. rewrite encode_geometry_version_sorted in He. unfold encode_version in He. cbn in *. open_write He.
    part_fwd versioned_exact. part_fwd geometry_exact. part_fwd optional_versioned_exact. part_fwd accuracy_exact. put_versions.
    open_value_map He. split; [done|]. unfold decode_geometry_version. run_read. by apply geometry_new_iff.
  - intros g v Hv Hd. unfold decode_geometry_version in Hd. open_read Hd. chain_perm. children_valid. apply geometry_new_iff in Hd as (-> & Hs & Hs' & Hp').
    part_bwd versioned_exact. part_bwd geometry_exact. part_bwd optional_versioned_exact. part_bwd accuracy_exact. part_bwd version_exact.
    part_bwd (record_exact (E := SpatialError)). split; [by split_and!|].
    rewrite encode_geometry_version_sorted. cbn [g_id g_version g_world g_frame g_geometry g_precision g_predecessor]. close_write.
Qed.

(** ** Observations *)
Lemma source_time_exact : vexact encode_source_time decode_source_time envelope_ok.
Proof.
  unfold encode_source_time, decode_source_time. destruct envelope_exact as [Hf Hb]. split.
  - intros e v Hok He%map_err_Ok. rewrite map_err_Ok. by apply Hf.
  - intros e v Hv Hd%map_err_Ok. rewrite map_err_Ok. by apply Hb.
Qed.
Lemma correction_exact : vexact (λ c, Ok (encode_correction c)) (read_optional read_record) (opt_ok ref_ok).
Proof.
  destruct (field_optional_exact (E := SpatialError) _ _ _ (record_exact (E := SpatialError))) as [Hf Hb]; [by intros a v [= <-]|].
  split.
  - intros c v Hok [= <-]. apply Hf; [done|]. by destruct c.
  - intros c v Hv Hd. destruct (Hb _ _ Hv Hd) as [Hok He]. split; [done|]. by destruct c.
Qed.
Lemma correction_put c : opt_ok ref_ok c → value_valid (encode_correction c) ∧ read_optional read_record (encode_correction c) = Ok (E := SpatialError) c.
Proof. intros Hc. by apply (proj1 correction_exact c). Qed.
(** Everything an observation names is of its scope, its time was given by the
    source of its evidence, and it does not correct itself. *)
Definition correction_fits (id previous : RecordRef) : Prop := in_scope id previous ∧ previous ≠ id.
Definition observation_fits (o : PositionObservation) : Prop :=
  Forall (in_scope (o_id o)) [o_entity o; o_world o; vr_record (o_frame o); ok_source (o_key o); o_evidence o]
  ∧ in_scope (o_id o) (ok_event (o_key o)) ∧ env_role (o_source_time o) = SourceEvent
  ∧ src_artifact (env_source (o_source_time o)) = o_evidence o ∧ opt_ok (correction_fits (o_id o)) (o_correction_of o).
Lemma observation_new_iff id entity world frame key evidence time position uncertainty correction o :
  PositionObservation_new id entity world frame key evidence time position uncertainty correction = Ok o ↔
  o = mk_observation id entity world frame key evidence time position uncertainty correction ∧ observation_fits o.
Proof.
  unfold PositionObservation_new, observation_fits.
  assert (∀ l u, try_each (same_scope id) l = Ok u ↔ Forall (in_scope id) l) as Hall.
  { intros l []. rewrite try_each_Ok. apply Forall_iff. intros r. apply same_scope_iff. }
  rewrite bind_Ok. setoid_rewrite Hall. setoid_rewrite bind_Ok. setoid_rewrite same_source_scope_iff.
  assert (∀ u, match correction with
    | Some previous => same_scope id previous;; if decide (previous = id) then Err InvalidCorrection else Ok tt
    | None => Ok tt end = Ok u ↔ opt_ok (correction_fits id) correction) as Hc.
  { intros []. destruct correction as [previous|]; cbn; [|by split]. rewrite bind_Ok. setoid_rewrite same_scope_iff.
    unfold correction_fits. case_decide; naive_solver. }
  destruct (bool_decide_reflect (env_role time = SourceEvent)) as [Hr|Hr]; cbn [negb orb]; [|naive_solver].
  destruct (bool_decide_reflect (src_artifact (env_source time) = evidence)) as [Ha|Ha]; cbn [negb]; [|naive_solver].
  setoid_rewrite bind_Ok. setoid_rewrite Hc. naive_solver.
Qed.
Definition observation_ok (o : PositionObservation) : Prop :=
  ref_ok (o_id o) ∧ ref_ok (o_entity o) ∧ ref_ok (o_world o) ∧ versioned_ok (o_frame o) ∧ key_ok (o_key o) ∧ ref_ok (o_evidence o)
  ∧ envelope_ok (o_source_time o) ∧ position_ok (o_position o) ∧ accuracy_ok (o_uncertainty o) ∧ opt_ok ref_ok (o_correction_of o)
  ∧ observation_fits o.
Lemma observation_exact : vexact encode_observation decode_observation observation_ok.
Proof.
  split.
  - intros o v (H1 & H2 & H3 & H4 & H5 & H6 & H7 & H8 & H9 & H10 & Hf) He. unfold encode_observation in He. open_write He.
    part_fwd versioned_exact. part_fwd key_exact. part_fwd position_exact. part_fwd source_time_exact. part_fwd accuracy_exact.
    destruct (correction_put _ H10). set (w := encode_correction _) in *. clearbody w. open_value_map He. split; [done|]. unfold decode_observation. run_read.
    apply observation_new_iff. by destruct o.
  - intros o v Hv Hd. unfold decode_observation in Hd. open_read Hd. chain_perm. children_valid. apply observation_new_iff in Hd as (-> & Hf).
    part_bwd versioned_exact. part_bwd key_exact. part_bwd position_exact. part_bwd source_time_exact. part_bwd accuracy_exact.
    part_bwd correction_exact. part_bwd (record_exact (E := SpatialError)). split; [by split_and!|]. unfold encode_observation.
    cbn [o_id o_entity o_world o_frame o_key o_evidence o_source_time o_position o_uncertainty o_correction_of]. close_write.
Qed.

(** ** Records *)
Definition srecord_ok (record : SpatialRecord) : Prop :=
  match record with
  | SWorld v => world_ok v
  | SFrame v => frame_ok v
  | SGeometry v => geometry_version_ok v
  | SObservation v => observation_ok v
  end.
Lemma spatial_profile_exact : vexact (E := SpatialError) (λ _ : unit, value_text SPATIAL_PROFILE) (read_profile SPATIAL_PROFILE) (λ _, True).
Proof. by apply profile_exact. Qed.
(** The body under its kind. *)
Lemma srecord_body_fwd r kind body : srecord_ok r → srecord_body r = Ok (kind, body) →
  value_valid body ∧ str_okb kind = true ∧
  (if decide (kind = lit "world") then SWorld <$> decode_world body
   else if decide (kind = lit "frame") then SFrame <$> decode_frame body
   else if decide (kind = lit "geometry") then SGeometry <$> decode_geometry_version body
   else if decide (kind = lit "observation") then SObservation <$> decode_observation body
   else Err UnsupportedProfile) = Ok r.
Proof.
  intros Hok Hb. destruct r as [w|f|g|o]; cbn [srecord_body srecord_ok] in Hb, Hok; apply bind_Ok in Hb as (b & Hb & [= <- <-]).
  - apply world_exact in Hb as [Hv Hd]; [|done]. split_and!; [done..|]. decide_names. by rewrite Hd.
  - apply frame_exact in Hb as [Hv Hd]; [|done]. split_and!; [done..|]. decide_names. by rewrite Hd.
  - apply geometry_version_exact in Hb as [Hv Hd]; [|done]. split_and!; [done..|]. decide_names. by rewrite Hd.
  - apply observation_exact in Hb as [Hv Hd]; [|done]. split_and!; [done..|]. decide_names. by rewrite Hd.
Qed.
Lemma srecord_exact : vexact srecord_to_value srecord_from_value srecord_ok.
Proof.
  split.
  - intros r v Hok He. unfold srecord_to_value in He. apply bind_Ok in He as ([kind body] & Hb & He). apply srecord_body_fwd in Hb as (Hbody & Hk & Hd); [|done].
    open_write He. apply (proj1 spatial_profile_exact tt) in Hx0 as [Hpv Hpd]; [|done].
    part_fwd (text_exact (E := SpatialError)). open_value_map He. split; [done|]. unfold srecord_from_value. run_read.
    change (read_u128 (VUnsigned 1)) with (Ok (E := SpatialError) 1). step_bind. cbn [Z.eqb Pos.eqb negb finish_fields]. step_bind. exact Hd.
  - intros r v Hv Hd. unfold srecord_from_value in Hd. open_read Hd. destruct (Z.eqb_spec a2 1) as [->|]; [|done]. cbn [negb] in Hd. open_read Hd.
    chain_perm. children_valid. part_bwd (u128_exact (E := SpatialError)). part_bwd (text_exact (E := SpatialError)). part_bwd spatial_profile_exact.
    part_bwd (value_exact (E := SpatialError)). unfold srecord_to_value.
    repeat (destruct (decide _) as [->|] in Hd; [apply fmap_Ok in Hd as (x & Hd & ->)|]); try done; cbn [srecord_body srecord_ok].
    + apply world_exact in Hd as [Hok' Hw]; [|done]. split; [done|]. rewrite Hw. step_bind. close_write.
    + apply frame_exact in Hd as [Hok' Hw]; [|done]. split; [done|]. rewrite Hw. step_bind. close_write.
    + apply geometry_version_exact in Hd as [Hok' Hw]; [|done]. split; [done|]. rewrite Hw. step_bind. close_write.
    + apply observation_exact in Hd as [Hok' Hw]; [|done]. split; [done|]. rewrite Hw. step_bind. close_write.
Qed.
Lemma srecord_iff b r : zlen b ≤ I64_MAX → decode_srecord b = Ok r ↔ srecord_ok r ∧ encode_srecord r = Ok b.
Proof.
  intros Hlen. destruct srecord_exact as [Hf Hb]. unfold decode_srecord, encode_srecord.
  rewrite !bind_Ok. setoid_rewrite map_err_Ok. split.
  - intros (v & (Hv & Hl & ->)%decode_value_frame & Hd); [|done].
    apply Hb in Hd as [Hok He]; [|done]. split; [done|]. exists v. split; [done|].
    by apply encode_value_frame.
  - intros (Hok & v & He & Hfr). destruct (Hf _ _ Hok He) as [Hv Hd]. exists v. split; [|done].
    apply encode_value_frame in Hfr as [Hl ->]; [|done]. by apply decode_value_frame.
Qed.
