(* ===== verification/SpatialCatalog.v ===== *)
(** * The spatial catalog

    Models [crates/uste-spatial/src/catalog.rs]: the retained history of worlds,
    frames, geometries and observations, the preparation of a batch as an overlay
    over a borrowed base, and its publication.  An assertion that fails is
    [None]; reservations of memory succeed. *)
From S2P Require Import Prelude Ids Value GraphCodec TimeModel SpatialModel SpatialCodec.
Import SpatialError.

Inductive ObservationOutcome : Set := Inserted (id : RecordRef) | Duplicate (existing : RecordRef).
Record HistoryEntry {T : Type} := mk_entry { he_revision : CommitRevision; he_value : T }.
Arguments HistoryEntry : clear implicits.
Arguments mk_entry {T} _ _.
Abbreviation Histories T := (gmap RecordRef (list (HistoryEntry T))) (only parsing).

Record SpatialCatalog := mk_catalog {
  sc_worlds : Histories WorldDefinition;
  sc_frames : Histories FrameDefinition;
  sc_geometries : Histories GeometryVersion;
  sc_observations : gmap RecordRef (HistoryEntry PositionObservation);
  sc_source_events : gmap ObservationKey RecordRef;
  sc_last_revision : option CommitRevision;
  sc_entry_count : Z;
  sc_logical_bytes : Z;
  sc_content_anchor : list byte
}.
Definition SpatialCatalog_new : SpatialCatalog := mk_catalog ∅ ∅ ∅ ∅ ∅ None 0 0 (replicate 32 x00).

Record PreparedCatalogBatch := mk_prepared_batch {
  pb_base_revision : option CommitRevision;
  pb_base_entry_count : Z;
  pb_base_logical_bytes : Z;
  pb_base_content_anchor : list byte;
  pb_revision : CommitRevision;
  pb_inserted : list SpatialRecord;
  pb_outcomes : list ObservationOutcome;
  pb_effect_revisions : list CommitRevision;
  pb_resulting_entry_count : Z;
  pb_resulting_logical_bytes : Z;
  pb_resulting_content_anchor : list byte
}.
Definition inserted_count (prepared : PreparedCatalogBatch) : Z := zlen (pb_inserted prepared).

(** ** Histories *)
Class HasVersion (T : Type) := version_of : T → SpatialVersion.
#[global] Instance world_version : HasVersion WorldDefinition := w_version.
#[global] Instance frame_version : HasVersion FrameDefinition := f_version.
#[global] Instance geometry_version : HasVersion GeometryVersion := g_version.
Definition check_next_value {T} `{HasVersion T} (previous : option T) (version : SpatialVersion) : sresult unit :=
  match previous with
  | None => if version =? SpatialVersion_FIRST then Ok tt else Err VersionConflict
  | Some previous =>
      next ← primitive (SpatialVersion_checked_next (version_of previous));
      if next =? version then Ok tt else Err VersionConflict
  end.
Definition history_entry {T} (history : option (list (HistoryEntry T))) (version : SpatialVersion) : option (HistoryEntry T) :=
  index ← checked_sub version 1; history ← history; history !! Z.to_nat index.
Definition visible_entry {T} (entry : option (HistoryEntry T)) (revision : CommitRevision) (missing : SpatialError) : sresult T :=
  match entry with
  | Some entry => if he_revision entry <=? revision then Ok (he_value entry) else Err missing
  | None => Err missing
  end.
(** [map.entry(id).or_default().push(value)]. *)
Definition push_entry {T} (id : RecordRef) (value : T) (m : gmap RecordRef (list T)) : gmap RecordRef (list T) :=
  <[id := default [] (m !! id) ++ [value]]> m.
Definition latest {T} (history : option (list (HistoryEntry T))) : option T := he_value <$> (history ≫= last).

Definition world_at (c : SpatialCatalog) (reference : VersionedRecordRef) (knowledge : CommitRevision) : sresult WorldDefinition :=
  visible_entry (history_entry (sc_worlds c !! vr_record reference) (vr_version reference)) knowledge MissingWorld.
Definition frame_at (c : SpatialCatalog) (reference : VersionedRecordRef) (knowledge : CommitRevision) : sresult FrameDefinition :=
  visible_entry (history_entry (sc_frames c !! vr_record reference) (vr_version reference)) knowledge MissingFrameVersion.
Definition geometry_at (c : SpatialCatalog) (reference : VersionedRecordRef) (knowledge : CommitRevision) : sresult GeometryVersion :=
  visible_entry (history_entry (sc_geometries c !! vr_record reference) (vr_version reference)) knowledge MissingGeometryVersion.
Definition observation_at (c : SpatialCatalog) (id : RecordRef) (knowledge : CommitRevision) : sresult PositionObservation :=
  visible_entry (sc_observations c !! id) knowledge MissingObservation.
Definition frame_history_len (c : SpatialCatalog) (id : RecordRef) : Z :=
  match sc_frames c !! id with Some history => zlen history | None => 0 end.

(** Visit every retained version in canonical order. *)
Section visit.
Context {E S : Type} (visitor : S → CommitRevision → SpatialRecord → result E S).
Definition visit_entry {T} (record : T → SpatialRecord) (s : S) (entry : HistoryEntry T) : result E S :=
  visitor s (he_revision entry) (record (he_value entry)).
Definition visit_histories {T} (record : T → SpatialRecord) (histories : Histories T) (s : S) : result E S :=
  try_fold (λ s entries, try_fold (visit_entry record) entries s) (btree_values histories) s.
Definition visit_records (c : SpatialCatalog) (s : S) : result E S :=
  s ← visit_histories SWorld (sc_worlds c) s;
  s ← visit_histories SFrame (sc_frames c) s;
  s ← visit_histories SGeometry (sc_geometries c) s;
  try_fold (visit_entry SObservation) (btree_values (sc_observations c)) s.
End visit.

(** ** Publication *)
Definition publish_record (revision : CommitRevision) (c : SpatialCatalog) (record : SpatialRecord) : SpatialCatalog :=
  match record with
  | SWorld v =>
      mk_catalog (push_entry (w_id v) (mk_entry revision v) (sc_worlds c)) (sc_frames c) (sc_geometries c) (sc_observations c)
        (sc_source_events c) (sc_last_revision c) (sc_entry_count c) (sc_logical_bytes c) (sc_content_anchor c)
  | SFrame v =>
      mk_catalog (sc_worlds c) (push_entry (f_id v) (mk_entry revision v) (sc_frames c)) (sc_geometries c) (sc_observations c)
        (sc_source_events c) (sc_last_revision c) (sc_entry_count c) (sc_logical_bytes c) (sc_content_anchor c)
  | SGeometry v =>
      mk_catalog (sc_worlds c) (sc_frames c) (push_entry (g_id v) (mk_entry revision v) (sc_geometries c)) (sc_observations c)
        (sc_source_events c) (sc_last_revision c) (sc_entry_count c) (sc_logical_bytes c) (sc_content_anchor c)
  | SObservation v =>
      mk_catalog (sc_worlds c) (sc_frames c) (sc_geometries c) (<[o_id v := mk_entry revision v]> (sc_observations c))
        (<[o_key v := o_id v]> (sc_source_events c)) (sc_last_revision c) (sc_entry_count c) (sc_logical_bytes c) (sc_content_anchor c)
  end.
Definition catalog_can_publish (c : SpatialCatalog) (prepared : PreparedCatalogBatch) : bool :=
  bool_decide ((sc_last_revision c, sc_entry_count c, sc_logical_bytes c, sc_content_anchor c)
    = (pb_base_revision prepared, pb_base_entry_count prepared, pb_base_logical_bytes prepared, pb_base_content_anchor prepared)).
Definition publish_prepared (c : SpatialCatalog) (prepared : PreparedCatalogBatch) : option (SpatialCatalog * list ObservationOutcome) :=
  if catalog_can_publish c prepared then
    let c := foldl (publish_record (pb_revision prepared)) c (pb_inserted prepared) in
    Some (mk_catalog (sc_worlds c) (sc_frames c) (sc_geometries c) (sc_observations c) (sc_source_events c) (Some (pb_revision prepared))
            (pb_resulting_entry_count prepared) (pb_resulting_logical_bytes prepared) (pb_resulting_content_anchor prepared),
          pb_outcomes prepared)
  else None.

(** ** Preparation *)
Inductive Category : Set := CategoryWorld | CategoryFrame | CategoryGeometry | CategoryObservation.
#[global] Instance Category_eq_dec : EqDecision Category.
Proof. solve_decision. Defined.
Record CatalogPreparation := mk_preparation {
  cp_base : SpatialCatalog;
  cp_revision : CommitRevision;
  cp_worlds : gmap RecordRef (list WorldDefinition);
  cp_frames : gmap RecordRef (list FrameDefinition);
  cp_geometries : gmap RecordRef (list GeometryVersion);
  cp_observations : gmap RecordRef PositionObservation;
  cp_source_events : gmap ObservationKey RecordRef;
  cp_inserted_indices : list nat;
  cp_outcomes : list ObservationOutcome;
  cp_effect_revisions : list CommitRevision;
  cp_new_logical_bytes : Z;
  cp_resulting_content_anchor : list byte
}.
Definition CatalogPreparation_new (base : SpatialCatalog) (revision : CommitRevision) : CatalogPreparation :=
  mk_preparation base revision ∅ ∅ ∅ ∅ ∅ [] [] [] 0 (sc_content_anchor base).

Definition has_key {T} (m : gmap RecordRef T) (id : RecordRef) : bool := bool_decide (is_Some (m !! id)).
Definition category (p : CatalogPreparation) (id : RecordRef) : option Category :=
  if has_key (cp_worlds p) id || has_key (sc_worlds (cp_base p)) id then Some CategoryWorld
  else if has_key (cp_frames p) id || has_key (sc_frames (cp_base p)) id then Some CategoryFrame
  else if has_key (cp_geometries p) id || has_key (sc_geometries (cp_base p)) id then Some CategoryGeometry
  else if has_key (cp_observations p) id || has_key (sc_observations (cp_base p)) id then Some CategoryObservation
  else None.
Definition ensure_category (p : CatalogPreparation) (id : RecordRef) (expected : Category) : sresult unit :=
  match category p id with
  | None => Ok tt
  | Some actual => if decide (actual = expected) then Ok tt else Err DuplicateRecord
  end.
Definition or_else {T} (a b : option T) : option T := match a with Some _ => a | None => b end.
Definition latest_world (p : CatalogPreparation) (id : RecordRef) : option WorldDefinition :=
  or_else (cp_worlds p !! id ≫= last) (latest (sc_worlds (cp_base p) !! id)).
Definition latest_frame (p : CatalogPreparation) (id : RecordRef) : option FrameDefinition :=
  or_else (cp_frames p !! id ≫= last) (latest (sc_frames (cp_base p) !! id)).
Definition latest_geometry (p : CatalogPreparation) (id : RecordRef) : option GeometryVersion :=
  or_else (cp_geometries p !! id ≫= last) (latest (sc_geometries (cp_base p) !! id)).
Definition world_visible (p : CatalogPreparation) (id : RecordRef) : sresult WorldDefinition :=
  ok_or (latest_world p id) MissingWorld.
Definition prepared_frame_at (p : CatalogPreparation) (reference : VersionedRecordRef) : sresult FrameDefinition :=
  ok_or
    (or_else (cp_frames p !! vr_record reference ≫= λ history, snd <$> list_find (λ frame, f_version frame = vr_version reference) history)
       (he_value <$> history_entry (sc_frames (cp_base p) !! vr_record reference) (vr_version reference)))
    MissingFrameVersion.
Definition prepared_observation (p : CatalogPreparation) (id : RecordRef) : option (CommitRevision * PositionObservation) :=
  or_else ((λ value, (cp_revision p, value)) <$> cp_observations p !! id)
    ((λ entry, (he_revision entry, he_value entry)) <$> sc_observations (cp_base p) !! id).
Definition source_event (p : CatalogPreparation) (key : ObservationKey) : option RecordRef :=
  or_else (cp_source_events p !! key) (sc_source_events (cp_base p) !! key).

(** *** Staging *)
Section catalog.
Context (sha256 : list byte → list byte).
Definition entry_anchor (revision : CommitRevision) (encoded : list byte) : list byte :=
  sha256 (lit "USTE-SPATIAL-CATALOG-ENTRY-V1" ++ [x00] ++ be_bytes 8 revision ++ be_bytes 8 (zlen encoded) ++ encoded).
Definition xor_byte (a b : byte) : byte := byte_of (Z.lxor (u8 a) (u8 b)).
(** Both arrays are 32 bytes. *)
Definition xor_anchor (anchor entry : list byte) : list byte := zip_with xor_byte anchor entry.
Definition charge (index : nat) (record : SpatialRecord) (p : CatalogPreparation) : sresult CatalogPreparation :=
  resulting_entry_count ←
    ok_or (count ← checked_add (sc_entry_count (cp_base p)) (zlen (cp_inserted_indices p)); checked_add count 1) ResourceLimit;
  encoded ← encode_srecord record;
  new_logical_bytes ← ok_or (bytes ← checked_add (cp_new_logical_bytes p) 12; checked_add bytes (zlen encoded)) ResourceLimit;
  resulting_logical_bytes ← ok_or (checked_add (sc_logical_bytes (cp_base p)) new_logical_bytes) ResourceLimit;
  if (MAX_SPATIAL_CATALOG_ENTRIES <? resulting_entry_count) || (MAX_SPATIAL_CATALOG_LOGICAL_BYTES <? resulting_logical_bytes)
  then Err ResourceLimit
  else Ok (mk_preparation (cp_base p) (cp_revision p) (cp_worlds p) (cp_frames p) (cp_geometries p) (cp_observations p) (cp_source_events p)
             (cp_inserted_indices p ++ [index]) (cp_outcomes p) (cp_effect_revisions p ++ [cp_revision p]) new_logical_bytes
             (xor_anchor (cp_resulting_content_anchor p) (entry_anchor (cp_revision p) encoded))).
(** The field updates of the staging functions. *)
Definition with_world (v : WorldDefinition) (p : CatalogPreparation) : CatalogPreparation :=
  mk_preparation (cp_base p) (cp_revision p) (push_entry (w_id v) v (cp_worlds p)) (cp_frames p) (cp_geometries p) (cp_observations p)
    (cp_source_events p) (cp_inserted_indices p) (cp_outcomes p) (cp_effect_revisions p) (cp_new_logical_bytes p) (cp_resulting_content_anchor p).
Definition with_frame (v : FrameDefinition) (p : CatalogPreparation) : CatalogPreparation :=
  mk_preparation (cp_base p) (cp_revision p) (cp_worlds p) (push_entry (f_id v) v (cp_frames p)) (cp_geometries p) (cp_observations p)
    (cp_source_events p) (cp_inserted_indices p) (cp_outcomes p) (cp_effect_revisions p) (cp_new_logical_bytes p) (cp_resulting_content_anchor p).
Definition with_geometry (v : GeometryVersion) (p : CatalogPreparation) : CatalogPreparation :=
  mk_preparation (cp_base p) (cp_revision p) (cp_worlds p) (cp_frames p) (push_entry (g_id v) v (cp_geometries p)) (cp_observations p)
    (cp_source_events p) (cp_inserted_indices p) (cp_outcomes p) (cp_effect_revisions p) (cp_new_logical_bytes p) (cp_resulting_content_anchor p).
Definition with_observation (v : PositionObservation) (p : CatalogPreparation) : CatalogPreparation :=
  mk_preparation (cp_base p) (cp_revision p) (cp_worlds p) (cp_frames p) (cp_geometries p) (<[o_id v := v]> (cp_observations p))
    (<[o_key v := o_id v]> (cp_source_events p)) (cp_inserted_indices p) (cp_outcomes p ++ [Inserted (o_id v)]) (cp_effect_revisions p)
    (cp_new_logical_bytes p) (cp_resulting_content_anchor p).
Definition with_duplicate (existing : RecordRef) (recorded : CommitRevision) (p : CatalogPreparation) : CatalogPreparation :=
  mk_preparation (cp_base p) (cp_revision p) (cp_worlds p) (cp_frames p) (cp_geometries p) (cp_observations p) (cp_source_events p)
    (cp_inserted_indices p) (cp_outcomes p ++ [Duplicate existing]) (cp_effect_revisions p ++ [recorded])
    (cp_new_logical_bytes p) (cp_resulting_content_anchor p).

Definition stage_world (index : nat) (world : WorldDefinition) (p : CatalogPreparation) : sresult CatalogPreparation :=
  ensure_category p (w_id world) CategoryWorld;;
  let previous := latest_world p (w_id world) in
  check_next_value previous (w_version world);;
  if match previous with
     | Some previous => negb (bool_decide (vr_record (w_root_frame previous) = vr_record (w_root_frame world)))
     | None => false
     end
  then Err InvalidRootFrame
  else with_world world <$> charge index (SWorld world) p.
Definition stage_frame (index : nat) (frame : FrameDefinition) (p : CatalogPreparation) : sresult CatalogPreparation :=
  ensure_category p (f_id frame) CategoryFrame;;
  let previous := latest_frame p (f_id frame) in
  check_next_value previous (f_version frame);;
  if match previous with
     | Some previous => negb (bool_decide (f_world previous = f_world frame)) || negb (bool_decide (f_kind previous = f_kind frame))
     | None => false
     end
  then Err VersionConflict
  else with_frame frame <$> charge index (SFrame frame) p.
Definition stage_geometry (index : nat) (geometry : GeometryVersion) (p : CatalogPreparation) : sresult CatalogPreparation :=
  ensure_category p (g_id geometry) CategoryGeometry;;
  let previous := latest_geometry p (g_id geometry) in
  check_next_value previous (g_version geometry);;
  if match previous, g_predecessor geometry with
     | None, None => true
     | Some previous, Some reference => bool_decide (vr_record reference = g_id geometry) && (vr_version reference =? g_version previous)
     | _, _ => false
     end
  then with_geometry geometry <$> charge index (SGeometry geometry) p
  else Err InvalidPredecessor.
Definition stage_observation (index : nat) (observation : PositionObservation) (p : CatalogPreparation) : sresult CatalogPreparation :=
  ensure_category p (o_id observation) CategoryObservation;;
  match prepared_observation p (o_id observation) with
  | Some (recorded, existing) =>
      if decide (existing = observation) then Ok (with_duplicate (o_id observation) recorded p) else Err DuplicateRecord
  | None =>
      match source_event p (o_key observation) with
      | Some existing_id =>
          '(recorded, existing) ← ok_or (prepared_observation p existing_id) InvalidObservation;
          if decide (existing = observation) then Ok (with_duplicate existing_id recorded p) else Err SourceEventConflict
      | None => with_observation observation <$> charge index (SObservation observation) p
      end
  end.
Definition stage (p : CatalogPreparation) (item : nat * SpatialRecord) : sresult CatalogPreparation :=
  match item.2 with
  | SWorld value => stage_world item.1 value p
  | SFrame value => stage_frame item.1 value p
  | SGeometry value => stage_geometry item.1 value p
  | SObservation value => stage_observation item.1 value p
  end.
Definition finish (records : list SpatialRecord) (p : CatalogPreparation) : sresult PreparedCatalogBatch :=
  if negb (length (cp_effect_revisions p) =? length records)%nat then Err InvalidEncoding
  else
    inserted ← try_map (λ index, ok_or (records !! index) InvalidEncoding) (cp_inserted_indices p);
    resulting_entry_count ← ok_or (checked_add (sc_entry_count (cp_base p)) (zlen inserted)) ResourceLimit;
    resulting_logical_bytes ← ok_or (checked_add (sc_logical_bytes (cp_base p)) (cp_new_logical_bytes p)) ResourceLimit;
    Ok (mk_prepared_batch (sc_last_revision (cp_base p)) (sc_entry_count (cp_base p)) (sc_logical_bytes (cp_base p))
          (sc_content_anchor (cp_base p)) (cp_revision p) inserted (cp_outcomes p) (cp_effect_revisions p) resulting_entry_count
          resulting_logical_bytes (cp_resulting_content_anchor p)).

(** *** Validation *)

(** The loop of [validate_frame]: [depth] iterations are left. *)
Fixpoint follow_parents (p : CatalogPreparation) (world : WorldDefinition) (frame : FrameDefinition) (depth : nat)
    (seen : gset RecordRef) (parent : FrameParent) : sresult unit :=
  match depth with
  | O => Err ResourceLimit
  | S depth =>
      if decide (vr_record (fp_frame parent) ∈ seen) then Err FrameCycle
      else
        next ← prepared_frame_at p (fp_frame parent);
        if negb (bool_decide (f_world next = f_world frame)) then Err ScopeMismatch
        else
          match f_parent next with
          | Some next_parent => follow_parents p world frame depth ({[vr_record (fp_frame parent)]} ∪ seen) next_parent
          | None => if decide (f_id next = vr_record (w_root_frame world)) then Ok tt else Err InvalidRootFrame
          end
  end.
Definition validate_frame (p : CatalogPreparation) (frame : FrameDefinition) : sresult unit :=
  world ← world_visible p (f_world frame);
  if decide (vr_record (w_root_frame world) = f_id frame) then
    match f_parent frame with Some _ => Err InvalidRootFrame | None => Ok tt end
  else
    parent ← ok_or (f_parent frame) MissingFrame;
    follow_parents p world frame (Z.to_nat MAX_FRAME_DEPTH) {[f_id frame]} parent.
Definition validate_srecord (p : CatalogPreparation) (revision : CommitRevision) (record : SpatialRecord) : sresult unit :=
  match record with
  | SWorld world =>
      root ← prepared_frame_at p (w_root_frame world);
      if negb (bool_decide (f_world root = w_id world)) || bool_decide (is_Some (f_parent root)) then Err InvalidRootFrame else Ok tt
  | SFrame frame => validate_frame p frame
  | SGeometry geometry =>
      world_visible p (g_world geometry);;
      frame ← prepared_frame_at p (g_frame geometry);
      if negb (bool_decide (f_world frame = g_world geometry)) || negb (accepts_geometry (f_kind frame) (g_geometry geometry))
      then Err IncompatibleFrame else Ok tt
  | SObservation observation =>
      world_visible p (o_world observation);;
      frame ← prepared_frame_at p (o_frame observation);
      if negb (bool_decide (f_world frame = o_world observation)) || negb (profile_accepts (f_profile frame) (o_position observation))
      then Err IncompatibleFrame
      else
        match o_correction_of observation with
        | Some previous_id =>
            '(_, previous) ← ok_or (previous ← prepared_observation p previous_id; if previous.1 <? revision then Some previous else None)
              InvalidCorrection;
            if negb (bool_decide (o_entity previous = o_entity observation)) || negb (bool_decide (o_world previous = o_world observation))
            then Err InvalidCorrection else Ok tt
        | None => Ok tt
        end
  end.

(** *** Batches *)
Definition prepare_batch (c : SpatialCatalog) (revision : CommitRevision) (records : list SpatialRecord) : sresult PreparedCatalogBatch :=
  if MAX_SPATIAL_BATCH_RECORDS <? zlen records then Err ResourceLimit
  else if (zlen records =? 0) || match sc_last_revision c with Some previous => revision <=? previous | None => false end
  then Err VersionConflict
  else
    preparation ← try_fold stage (imap pair records) (CatalogPreparation_new c revision);
    try_each (validate_srecord preparation revision) records;;
    finish records preparation.
Definition apply_batch (c : SpatialCatalog) (revision : CommitRevision) (records : list SpatialRecord) :
    option (result SpatialError (SpatialCatalog * list ObservationOutcome)) :=
  match prepare_batch c revision records with
  | Ok prepared => Ok <$> publish_prepared c prepared
  | Err error => Some (Err error)
  end.
End catalog.
