(* ===== verification/SpatialAdmit.v ===== *)
(** * The catalog's reference semantics

    Admitting a batch record by record, each into a catalog of its own, and
    checking every record against the catalog that results.  The preparation of
    [catalog.rs], an overlay over a borrowed base that is published later, computes
    exactly this, errors included. *)
From S2P Require Import Prelude Ids Value GraphCodec TimeModel SpatialModel SpatialCodec SpatialCatalog.
Import SpatialError.

(** ** The reference *)
Definition catalog_category (c : SpatialCatalog) (id : RecordRef) : option Category :=
  if has_key (sc_worlds c) id then Some CategoryWorld
  else if has_key (sc_frames c) id then Some CategoryFrame
  else if has_key (sc_geometries c) id then Some CategoryGeometry
  else if has_key (sc_observations c) id then Some CategoryObservation
  else None.
Definition category_free (c : SpatialCatalog) (id : RecordRef) (expected : Category) : sresult unit :=
  match catalog_category c id with
  | None => Ok tt
  | Some actual => if decide (actual = expected) then Ok tt else Err DuplicateRecord
  end.
(** What the next version of a record must keep. *)
Definition world_follows (previous : option WorldDefinition) (v : WorldDefinition) : bool :=
  match previous with Some p => bool_decide (vr_record (w_root_frame p) = vr_record (w_root_frame v)) | None => true end.
Definition frame_follows (previous : option FrameDefinition) (v : FrameDefinition) : bool :=
  match previous with Some p => bool_decide (f_world p = f_world v) && bool_decide (f_kind p = f_kind v) | None => true end.
Definition geometry_follows (previous : option GeometryVersion) (v : GeometryVersion) : bool :=
  match previous, g_predecessor v with
  | None, None => true
  | Some p, Some reference => bool_decide (vr_record reference = g_id v) && (vr_version reference =? g_version p)
  | _, _ => false
  end.
Definition recorded_observation (c : SpatialCatalog) (id : RecordRef) : option (CommitRevision * PositionObservation) :=
  (λ e, (he_revision e, he_value e)) <$> sc_observations c !! id.
Definition counted (count bytes : Z) (anchor : list byte) (c : SpatialCatalog) : SpatialCatalog :=
  mk_catalog (sc_worlds c) (sc_frames c) (sc_geometries c) (sc_observations c) (sc_source_events c) (sc_last_revision c) count bytes anchor.
Definition committed (revision : CommitRevision) (c : SpatialCatalog) : SpatialCatalog :=
  mk_catalog (sc_worlds c) (sc_frames c) (sc_geometries c) (sc_observations c) (sc_source_events c) (Some revision)
    (sc_entry_count c) (sc_logical_bytes c) (sc_content_anchor c).
Record Admission := mk_admission {
  ad_catalog : SpatialCatalog;
  ad_outcomes : list ObservationOutcome;
  ad_effects : list CommitRevision
}.
(** The bytes a record is charged with. *)
Definition entry_bytes (encoded : list byte) : Z := 12 + zlen encoded.
Definition catalog_check (c : SpatialCatalog) (revision : CommitRevision) (record : SpatialRecord) : sresult unit :=
  validate_srecord (CatalogPreparation_new c revision) revision record.

Section reference.
Context (sha256 : list byte → list byte) (revision : CommitRevision).
Definition retain (c : SpatialCatalog) (record : SpatialRecord) : sresult SpatialCatalog :=
  encoded ← encode_srecord record;
  if (MAX_SPATIAL_CATALOG_ENTRIES <? sc_entry_count c + 1) || (MAX_SPATIAL_CATALOG_LOGICAL_BYTES <? sc_logical_bytes c + entry_bytes encoded)
  then Err ResourceLimit
  else Ok (counted (sc_entry_count c + 1) (sc_logical_bytes c + entry_bytes encoded)
             (xor_anchor (sc_content_anchor c) (entry_anchor sha256 revision encoded)) (publish_record revision c record)).
Definition keep (a : Admission) (record : SpatialRecord) (outcomes : list ObservationOutcome) : sresult Admission :=
  c ← retain (ad_catalog a) record; Ok (mk_admission c (ad_outcomes a ++ outcomes) (ad_effects a ++ [revision])).
Definition skip (a : Admission) (existing : RecordRef) (recorded : CommitRevision) : Admission :=
  mk_admission (ad_catalog a) (ad_outcomes a ++ [Duplicate existing]) (ad_effects a ++ [recorded]).
Definition admit_version {T} `{HasVersion T} (a : Admission) (category : Category) (id : RecordRef) (previous : option T) (v : T)
    (follows : option T → T → bool) (error : SpatialError) (record : SpatialRecord) : sresult Admission :=
  category_free (ad_catalog a) id category;;
  check_next_value previous (version_of v);;
  if follows previous v then keep a record [] else Err error.
Definition admit_observation (a : Admission) (o : PositionObservation) : sresult Admission :=
  category_free (ad_catalog a) (o_id o) CategoryObservation;;
  match recorded_observation (ad_catalog a) (o_id o) with
  | Some (recorded, existing) => if decide (existing = o) then Ok (skip a (o_id o) recorded) else Err DuplicateRecord
  | None =>
      match sc_source_events (ad_catalog a) !! o_key o with
      | Some existing_id =>
          '(recorded, existing) ← ok_or (recorded_observation (ad_catalog a) existing_id) InvalidObservation;
          if decide (existing = o) then Ok (skip a existing_id recorded) else Err SourceEventConflict
      | None => keep a (SObservation o) [Inserted (o_id o)]
      end
  end.
Definition admit_record (a : Admission) (record : SpatialRecord) : sresult Admission :=
  match record with
  | SWorld v => admit_version a CategoryWorld (w_id v) (latest (sc_worlds (ad_catalog a) !! w_id v)) v world_follows InvalidRootFrame record
  | SFrame v => admit_version a CategoryFrame (f_id v) (latest (sc_frames (ad_catalog a) !! f_id v)) v frame_follows VersionConflict record
  | SGeometry v =>
      admit_version a CategoryGeometry (g_id v) (latest (sc_geometries (ad_catalog a) !! g_id v)) v geometry_follows InvalidPredecessor record
  | SObservation v => admit_observation a v
  end.
Definition admit_batch (c : SpatialCatalog) (records : list SpatialRecord) : sresult Admission :=
  if MAX_SPATIAL_BATCH_RECORDS <? zlen records then Err ResourceLimit
  else if (zlen records =? 0) || match sc_last_revision c with Some previous => revision <=? previous | None => false end
  then Err VersionConflict
  else
    a ← try_fold admit_record records (mk_admission c [] []);
    try_each (catalog_check (ad_catalog a) revision) records;;
    Ok (mk_admission (committed revision (ad_catalog a)) (ad_outcomes a) (ad_effects a)).
End reference.

(** ** Overlays *)

(** A staged history over a base history. *)
Definition joined {T} (revision : CommitRevision) (staged : option (list T)) (base : option (list (HistoryEntry T))) :
    option (list (HistoryEntry T)) :=
  match staged with Some new => Some (default [] base ++ (mk_entry revision <$> new)) | None => base end.
(** The version of an entry is its position. *)
Definition indexed {T} `{HasVersion T} (es : list (HistoryEntry T)) : Prop :=
  ∀ (i : nat) e, es !! i = Some e → version_of (he_value e) = Z.of_nat i + 1.

Section joined.
Context {T : Type} (revision : CommitRevision).
Implicit Types (staged : option (list T)) (base : option (list (HistoryEntry T))).
Lemma joined_push staged base v :
  joined revision (Some (default [] staged ++ [v])) base = Some (default [] (joined revision staged base) ++ [mk_entry revision v]).
Proof. destruct staged as [new|]; cbn; [|done]. by rewrite fmap_app, (assoc_L _). Qed.
Lemma latest_joined staged base : staged ≠ Some [] → or_else (staged ≫= last) (latest base) = latest (joined revision staged base).
Proof.
  destruct staged as [new|]; [|done]. intros Hne. destruct new as [|v new _] using rev_ind; [done|]. cbn.
  unfold latest. cbn. rewrite last_snoc, fmap_app, (assoc_L _), fmap_cons, fmap_nil, last_snoc. done.
Qed.
Lemma joined_Some staged base : is_Some (joined revision staged base) ↔ is_Some staged ∨ is_Some base.
Proof. unfold joined, is_Some. destruct staged, base; naive_solver. Qed.
Lemma history_entry_lookup (es : list (HistoryEntry T)) version :
  history_entry (Some es) version = if 1 <=? version then es !! Z.to_nat (version - 1) else None.
Proof. unfold history_entry, checked_sub. by destruct (1 <=? version). Qed.
Lemma find_joined `{HasVersion T} staged base version : (∀ es, joined revision staged base = Some es → indexed es) →
  or_else (staged ≫= λ history, snd <$> list_find (λ v, version_of v = version) history) (he_value <$> history_entry base version)
  = he_value <$> history_entry (joined revision staged base) version.
Proof.
  destruct staged as [new|]; [|done]. cbn. intros Hi. specialize (Hi _ eq_refl). set (b := default [] base) in *.
  assert (history_entry base version = history_entry (Some b) version) as -> by (subst b; destruct base; [done|]; rewrite history_entry_lookup; unfold history_entry, checked_sub; destruct (1 <=? version); done).
  rewrite !history_entry_lookup. destruct (list_find _ new) as [[j v]|] eqn:Hf; cbn.
  - apply list_find_Some in Hf as (Hj & Hv & _).
    assert ((b ++ (mk_entry revision <$> new)) !! (length b + j)%nat = Some (mk_entry revision v)) as Hl.
    { rewrite lookup_app_r by lia. replace (length b + j - length b)%nat with j by lia. by rewrite list_lookup_fmap, Hj. }
    pose proof (Hi _ _ Hl) as Hver. cbn in Hver. rewrite Hv in Hver. rewrite (proj2 (Z.leb_le _ _)) by lia.
    replace (Z.to_nat (version - 1)) with (length b + j)%nat by lia. by rewrite Hl.
  - destruct (Z.leb_spec 1 version) as [Hle|]; [|done]. destruct (decide (Z.to_nat (version - 1) < length b)%nat).
    { by rewrite lookup_app_l. }
    rewrite (lookup_ge_None_2 b) by lia. destruct ((b ++ _) !! _) as [e|] eqn:Hl; [|done]. exfalso.
    pose proof (Hi _ _ Hl) as Hver. rewrite lookup_app_r in Hl by lia. rewrite list_lookup_fmap in Hl.
    apply fmap_Some in Hl as (v & Hv & ->). cbn in Hver. apply list_find_None in Hf. rewrite Forall_forall in Hf.
    apply (Hf v); [by apply list_elem_of_lookup_2 in Hv|]. lia.
Qed.
End joined.

Lemma next_indexed {T} `{HasVersion T} (history : option (list (HistoryEntry T))) revision v :
  (∀ es, history = Some es → indexed es) → check_next_value (latest history) (version_of v) = Ok tt →
  indexed (default [] history ++ [mk_entry revision v]).
Proof.
  intros Hi Hc i e [Hl|[Hn He]]%lookup_app_Some.
  { destruct history; [by apply (Hi _ eq_refl)|done]. }
  apply list_lookup_singleton_Some in He as [Hz <-]. cbn. set (es := default [] history) in *.
  assert (indexed es) as Hes by (subst es; destruct history; [by apply Hi|done]).
  assert (latest history = he_value <$> last es) as Hlast by (subst es; by destruct history). rewrite Hlast in Hc.
  destruct es as [|x es _] using rev_ind.
  { cbn in *. destruct (Z.eqb_spec (version_of v) SpatialVersion_FIRST) as [E|]; [|done]. rewrite E. unfold SpatialVersion_FIRST. lia. }
  rewrite last_snoc in Hc. cbn in Hc. assert (version_of (he_value x) = zlen es + 1) as Hx.
  { unfold zlen. apply Hes. by apply list_lookup_middle. }
  apply bind_Ok in Hc as (n & Hn'%map_err_Ok & Hc). destruct (Z.eqb_spec n (version_of v)) as [->|]; [|done].
  unfold SpatialVersion_checked_next, checked_add, SpatialVersion_new in Hn'. rewrite length_app in *. cbn [length] in *.
  unfold zlen in *. destruct (_ <=? _); [|done]. destruct (_ =? 0); [done|]. injection Hn' as Hn'. lia.
Qed.

(** ** Validation reads three views *)
Record same_views (p q : CatalogPreparation) : Prop := {
  sv_world id : latest_world p id = latest_world q id;
  sv_frame reference : prepared_frame_at p reference = prepared_frame_at q reference;
  sv_observation id : prepared_observation p id = prepared_observation q id
}.
Lemma follow_parents_views p q world frame depth seen parent : same_views p q →
  follow_parents p world frame depth seen parent = follow_parents q world frame depth seen parent.
Proof.
  intros Hv. revert seen parent. induction depth as [|depth IH]; intros seen parent; [done|]. cbn [follow_parents].
  case_decide; [done|]. rewrite (sv_frame _ _ Hv). destruct (prepared_frame_at q _) as [next|]; [|done]. rewrite !result_bind_Ok.
  destruct (negb _); [done|]. destruct (f_parent next); [apply IH|done].
Qed.
Lemma validate_views p q revision record : same_views p q → validate_srecord p revision record = validate_srecord q revision record.
Proof.
  intros Hv. destruct record as [w|f|g|o]; cbn [validate_srecord].
  - by rewrite (sv_frame _ _ Hv).
  - unfold validate_frame, world_visible. rewrite (sv_world _ _ Hv). destruct (ok_or (latest_world q _) _); [|done]. rewrite !result_bind_Ok.
    case_decide; [done|]. destruct (f_parent f); [|done]. cbn [ok_or]. rewrite !result_bind_Ok. by apply follow_parents_views.
  - unfold world_visible. by rewrite (sv_world _ _ Hv), (sv_frame _ _ Hv).
  - unfold world_visible. rewrite (sv_world _ _ Hv), (sv_frame _ _ Hv). destruct (o_correction_of o) as [c|]; [|done].
    by rewrite (sv_observation _ _ Hv).
Qed.

(** ** Refinement *)
Definition within_limits (c : SpatialCatalog) : Prop :=
  0 ≤ sc_entry_count c ≤ MAX_SPATIAL_CATALOG_ENTRIES ∧ 0 ≤ sc_logical_bytes c ≤ MAX_SPATIAL_CATALOG_LOGICAL_BYTES.
Definition frames_indexed (c : SpatialCatalog) : Prop := ∀ id es, sc_frames c !! id = Some es → indexed es.
Section refinement.
Context (sha256 : list byte → list byte) (base : SpatialCatalog) (revision : CommitRevision) (records : list SpatialRecord).
(** The preparation holds, as an overlay over its base, what the reference has
    admitted: [ins] are the records it retained. *)
Record stages (p : CatalogPreparation) (a : Admission) (ins : list SpatialRecord) : Prop := {
  st_base : cp_base p = base;
  st_revision : cp_revision p = revision;
  st_worlds id : sc_worlds (ad_catalog a) !! id = joined revision (cp_worlds p !! id) (sc_worlds base !! id);
  st_frames id : sc_frames (ad_catalog a) !! id = joined revision (cp_frames p !! id) (sc_frames base !! id);
  st_geometries id : sc_geometries (ad_catalog a) !! id = joined revision (cp_geometries p !! id) (sc_geometries base !! id);
  st_observations id :
    sc_observations (ad_catalog a) !! id = or_else (mk_entry revision <$> cp_observations p !! id) (sc_observations base !! id);
  st_events key : sc_source_events (ad_catalog a) !! key = or_else (cp_source_events p !! key) (sc_source_events base !! key);
  st_worlds_ne id : cp_worlds p !! id ≠ Some [];
  st_frames_ne id : cp_frames p !! id ≠ Some [];
  st_geometries_ne id : cp_geometries p !! id ≠ Some [];
  st_catalog : ad_catalog a = counted (sc_entry_count base + zlen ins) (sc_logical_bytes base + cp_new_logical_bytes p)
                 (cp_resulting_content_anchor p) (foldl (publish_record revision) base ins);
  st_indices : Forall2 (λ i r, records !! i = Some r) (cp_inserted_indices p) ins;
  st_outcomes : cp_outcomes p = ad_outcomes a;
  st_effects : cp_effect_revisions p = ad_effects a;
  st_new : 0 ≤ cp_new_logical_bytes p ∧ 0 ≤ sc_logical_bytes base;
  st_indexed : frames_indexed (ad_catalog a);
  st_limits : within_limits (ad_catalog a)
}.
Lemma stages_new : frames_indexed base → within_limits base → stages (CatalogPreparation_new base revision) (mk_admission base [] []) [].
Proof.
  intros Hf Hl. constructor; try done; try (intros; by rewrite lookup_empty); [|split; [done|apply Hl]].
  unfold CatalogPreparation_new, counted. cbn. destruct base as [? ? ? ? ? ? n b an]. cbn. by rewrite !Z.add_0_r.
Qed.

Section step.
Context (p : CatalogPreparation) (a : Admission) (ins : list SpatialRecord) (Hst : stages p a ins).
Lemma stages_world id : latest_world p id = latest (sc_worlds (ad_catalog a) !! id).
Proof. unfold latest_world. rewrite (st_base _ _ _ Hst), (st_worlds _ _ _ Hst). apply latest_joined, (st_worlds_ne _ _ _ Hst). Qed.
Lemma stages_frame id : latest_frame p id = latest (sc_frames (ad_catalog a) !! id).
Proof. unfold latest_frame. rewrite (st_base _ _ _ Hst), (st_frames _ _ _ Hst). apply latest_joined, (st_frames_ne _ _ _ Hst). Qed.
Lemma stages_geometry id : latest_geometry p id = latest (sc_geometries (ad_catalog a) !! id).
Proof. unfold latest_geometry. rewrite (st_base _ _ _ Hst), (st_geometries _ _ _ Hst). apply latest_joined, (st_geometries_ne _ _ _ Hst). Qed.
Lemma stages_observation id : prepared_observation p id = recorded_observation (ad_catalog a) id.
Proof.
  unfold prepared_observation, recorded_observation. rewrite (st_base _ _ _ Hst), (st_revision _ _ _ Hst), (st_observations _ _ _ Hst).
  by destruct (cp_observations p !! id).
Qed.
Lemma stages_event key : source_event p key = sc_source_events (ad_catalog a) !! key.
Proof. unfold source_event. by rewrite (st_base _ _ _ Hst), (st_events _ _ _ Hst). Qed.
Lemma stages_frame_at reference :
  prepared_frame_at p reference = ok_or (he_value <$> history_entry (sc_frames (ad_catalog a) !! vr_record reference) (vr_version reference)) MissingFrameVersion.
Proof.
  unfold prepared_frame_at. rewrite (st_base _ _ _ Hst). pose proof (st_indexed _ _ _ Hst (vr_record reference)) as Hi.
  rewrite (st_frames _ _ _ Hst) in *. f_equal. by apply find_joined.
Qed.
Lemma stages_views : same_views p (CatalogPreparation_new (ad_catalog a) revision).
Proof.
  split.
  - intros id. rewrite stages_world. unfold latest_world. cbn. by rewrite lookup_empty.
  - intros reference. rewrite stages_frame_at. unfold prepared_frame_at. cbn. by rewrite lookup_empty.
  - intros id. rewrite stages_observation. unfold prepared_observation. cbn. by rewrite lookup_empty.
Qed.
Lemma has_joined {T} (m : gmap RecordRef T) `(b : gmap RecordRef U) `(c : gmap RecordRef V) id :
  (is_Some (c !! id) ↔ is_Some (m !! id) ∨ is_Some (b !! id)) → has_key m id || has_key b id = has_key c id.
Proof. intros Hc. unfold has_key. rewrite <-bool_decide_or. by apply bool_decide_ext. Qed.
Lemma stages_category id : category p id = catalog_category (ad_catalog a) id.
Proof.
  unfold category, catalog_category. rewrite (st_base _ _ _ Hst).
  rewrite (has_joined _ _ (sc_worlds (ad_catalog a))) by (rewrite (st_worlds _ _ _ Hst); apply joined_Some).
  rewrite (has_joined _ _ (sc_frames (ad_catalog a))) by (rewrite (st_frames _ _ _ Hst); apply joined_Some).
  rewrite (has_joined _ _ (sc_geometries (ad_catalog a))) by (rewrite (st_geometries _ _ _ Hst); apply joined_Some).
  rewrite (has_joined _ _ (sc_observations (ad_catalog a))); [done|]. rewrite (st_observations _ _ _ Hst).
  unfold or_else, is_Some. destruct (cp_observations p !! id); cbn; naive_solver.
Qed.
Lemma stages_ensure id expected : ensure_category p id expected = category_free (ad_catalog a) id expected.
Proof. unfold ensure_category, category_free. by rewrite stages_category. Qed.

(** A charge is what the reference retains. *)
Definition charged (index : nat) (encoded : list byte) : CatalogPreparation :=
  mk_preparation (cp_base p) (cp_revision p) (cp_worlds p) (cp_frames p) (cp_geometries p) (cp_observations p) (cp_source_events p)
    (cp_inserted_indices p ++ [index]) (cp_outcomes p) (cp_effect_revisions p ++ [revision]) (cp_new_logical_bytes p + entry_bytes encoded)
    (xor_anchor (cp_resulting_content_anchor p) (entry_anchor sha256 revision encoded)).
Lemma stages_counts : sc_entry_count (ad_catalog a) = sc_entry_count base + zlen (cp_inserted_indices p)
  ∧ sc_logical_bytes (ad_catalog a) = sc_logical_bytes base + cp_new_logical_bytes p
  ∧ sc_content_anchor (ad_catalog a) = cp_resulting_content_anchor p.
Proof.
  rewrite (st_catalog _ _ _ Hst). cbn. split_and!; try done. unfold zlen. by rewrite (Forall2_length _ _ _ (st_indices _ _ _ Hst)).
Qed.
Lemma charge_retain index record : charge sha256 index record p =
  (encoded ← encode_srecord record; _ ← retain sha256 revision (ad_catalog a) record; Ok (charged index encoded)).
Proof.
  destruct stages_counts as (Hc & Hb & Ha). pose proof (st_limits _ _ _ Hst) as [Hl1 Hl2]. pose proof (st_new _ _ _ Hst) as [Hn Hn'].
  unfold charge, retain, charged. rewrite (st_base _ _ _ Hst), (st_revision _ _ _ Hst).
  unfold checked_add, MAX_SPATIAL_CATALOG_ENTRIES, MAX_SPATIAL_CATALOG_LOGICAL_BYTES, entry_bytes in *.
  rewrite <-Hc. rewrite (proj2 (Z.leb_le (sc_entry_count (ad_catalog a)) U64_MAX)) by (unfold U64_MAX; lia). cbn [mbind option_bind].
  rewrite (proj2 (Z.leb_le (sc_entry_count (ad_catalog a) + 1) U64_MAX)) by (unfold U64_MAX; lia). cbn [ok_or]. rewrite result_bind_Ok.
  destruct (encode_srecord record) as [encoded|]; [rewrite !result_bind_Ok|done]. pose proof (zlen_nonneg encoded).
  destruct (Z.leb_spec (cp_new_logical_bytes p + 12) U64_MAX) as [H1|H1]; cbn [mbind option_bind ok_or].
  2: { rewrite (proj2 (Z.ltb_lt (64 * 1024 * 1024) _)) by (unfold U64_MAX in *; lia). by rewrite orb_true_r. }
  destruct (Z.leb_spec (cp_new_logical_bytes p + 12 + zlen encoded) U64_MAX) as [H2|H2]; cbn [ok_or].
  2: { rewrite (proj2 (Z.ltb_lt (64 * 1024 * 1024) _)) by (unfold U64_MAX in *; lia). by rewrite orb_true_r. }
  rewrite result_bind_Ok. destruct (Z.leb_spec (sc_logical_bytes base + (cp_new_logical_bytes p + 12 + zlen encoded)) U64_MAX) as [H3|H3]; cbn [ok_or].
  2: { rewrite (proj2 (Z.ltb_lt (64 * 1024 * 1024) _)) by (unfold U64_MAX in *; lia). by rewrite orb_true_r. }
  rewrite result_bind_Ok.
  replace (sc_logical_bytes base + (cp_new_logical_bytes p + 12 + zlen encoded)) with (sc_logical_bytes (ad_catalog a) + (12 + zlen encoded)) by lia.
  destruct (_ || _); [done|]. rewrite result_bind_Ok. by rewrite Z.add_assoc.
Qed.
Lemma retain_Ok record c' : retain sha256 revision (ad_catalog a) record = Ok c' → ∃ encoded,
  encode_srecord record = Ok encoded
  ∧ c' = counted (sc_entry_count base + zlen (ins ++ [record])) (sc_logical_bytes base + (cp_new_logical_bytes p + entry_bytes encoded))
           (xor_anchor (cp_resulting_content_anchor p) (entry_anchor sha256 revision encoded))
           (foldl (publish_record revision) base (ins ++ [record]))
  ∧ within_limits c' ∧ 0 ≤ cp_new_logical_bytes p + entry_bytes encoded.
Proof.
  intros (encoded & He & Hc)%bind_Ok. destruct (_ || _) eqn:Hg in Hc; [done|]. injection Hc as <-.
  apply orb_false_iff in Hg as [Hg1%Z.ltb_ge Hg2%Z.ltb_ge]. exists encoded.
  pose proof (st_limits _ _ _ Hst) as [Hl1 Hl2]. pose proof (st_new _ _ _ Hst) as [Hn Hn'].
  assert (0 ≤ entry_bytes encoded) as Hpos by (unfold entry_bytes; pose proof (zlen_nonneg encoded); lia).
  split_and!; [done| |split; cbn; lia|lia].
  rewrite foldl_app, zlen_app, zlen_cons, zlen_nil, (st_catalog _ _ _ Hst). cbn [foldl].
  destruct (foldl _ base ins), record; unfold counted; cbn; f_equal; lia.
Qed.
(** Staging a record and admitting it, when both keep it. *)
Lemma keeps index record outcomes (f : CatalogPreparation → CatalogPreparation) :
  (∀ encoded c', retain sha256 revision (ad_catalog a) record = Ok c' → encode_srecord record = Ok encoded →
    stages (f (charged index encoded)) (mk_admission c' (ad_outcomes a ++ outcomes) (ad_effects a ++ [revision])) (ins ++ [record])) →
  match f <$> charge sha256 index record p, keep sha256 revision a record outcomes with
  | Ok p', Ok a' => ∃ ins', stages p' a' ins'
  | Err e, Err e' => e = e'
  | _, _ => False
  end.
Proof.
  intros Hk. rewrite charge_retain. unfold keep. destruct (retain _ _ _ record) as [c'|e] eqn:Hr.
  - pose proof (retain_Ok _ _ Hr) as (encoded & He & _). rewrite He, !result_bind_Ok. cbn. eexists. by apply Hk.
  - unfold retain in Hr. destruct (encode_srecord record) as [encoded|]; [|by injection Hr as ->].
    rewrite !result_bind_Ok in *. done.
Qed.
Lemma push_joined {T} (m : gmap RecordRef (list T)) (b c : Histories T) id v :
  (∀ id, c !! id = joined revision (m !! id) (b !! id)) →
  ∀ id', push_entry id (mk_entry revision v) c !! id' = joined revision (push_entry id v m !! id') (b !! id').
Proof.
  intros Hc id'. unfold push_entry. destruct (decide (id = id')) as [<-|]; [|by rewrite !lookup_insert_ne].
  rewrite !lookup_insert_eq, Hc. symmetry. apply joined_push.
Qed.
Lemma push_nonempty {T} (m : gmap RecordRef (list T)) id v : (∀ id, m !! id ≠ Some []) → ∀ id', push_entry id v m !! id' ≠ Some [].
Proof.
  intros Hm id'. unfold push_entry. destruct (decide (id = id')) as [<-|]; [|by rewrite lookup_insert_ne].
  rewrite lookup_insert_eq. by destruct (m !! id) as [[|]|].
Qed.
(** The fields of a stage step that are not the record's own. *)
Lemma fields_before : sc_worlds (foldl (publish_record revision) base ins) = sc_worlds (ad_catalog a)
  ∧ sc_frames (foldl (publish_record revision) base ins) = sc_frames (ad_catalog a)
  ∧ sc_geometries (foldl (publish_record revision) base ins) = sc_geometries (ad_catalog a)
  ∧ sc_observations (foldl (publish_record revision) base ins) = sc_observations (ad_catalog a)
  ∧ sc_source_events (foldl (publish_record revision) base ins) = sc_source_events (ad_catalog a).
Proof. by rewrite (st_catalog _ _ _ Hst). Qed.
Lemma indices_snoc index record : records !! index = Some record →
  Forall2 (λ i r, records !! i = Some r) (cp_inserted_indices p ++ [index]) (ins ++ [record]).
Proof. intros Hr. apply Forall2_app; [apply Hst|]. by constructor. Qed.
Ltac stage_fields Hc He :=
  apply retain_Ok in Hc as (? & He' & -> & Hl & Hn); rewrite He in He'; injection He' as <-;
  destruct fields_before as (F1 & F2 & F3 & F4 & F5);
  constructor; cbn [ad_catalog ad_outcomes ad_effects]; try done; try (apply Hst); rewrite ?foldl_app; cbn; rewrite ?F1, ?F2, ?F3, ?F4, ?F5;
  try (apply Hst); try (by apply indices_snoc);
  try (by rewrite ?app_nil_r, ?(st_outcomes _ _ _ Hst), ?(st_effects _ _ _ Hst));
  try (split; [done|apply Hst]).
Lemma keeps_world index v encoded c' : records !! index = Some (SWorld v) →
  retain sha256 revision (ad_catalog a) (SWorld v) = Ok c' → encode_srecord (SWorld v) = Ok encoded →
  stages (with_world v (charged index encoded)) (mk_admission c' (ad_outcomes a ++ []) (ad_effects a ++ [revision])) (ins ++ [SWorld v]).
Proof.
  intros Hr Hc He. stage_fields Hc He; [apply push_joined; apply Hst|apply push_nonempty; apply Hst].
Qed.
Lemma keeps_frame index v encoded c' : records !! index = Some (SFrame v) →
  check_next_value (latest (sc_frames (ad_catalog a) !! f_id v)) (f_version v) = Ok tt →
  retain sha256 revision (ad_catalog a) (SFrame v) = Ok c' → encode_srecord (SFrame v) = Ok encoded →
  stages (with_frame v (charged index encoded)) (mk_admission c' (ad_outcomes a ++ []) (ad_effects a ++ [revision])) (ins ++ [SFrame v]).
Proof.
  intros Hr Hnext Hc He. stage_fields Hc He; [apply push_joined; apply Hst|apply push_nonempty; apply Hst|].
  intros id es. cbn. unfold push_entry. destruct (decide (f_id v = id)) as [<-|]; [|rewrite lookup_insert_ne by done; apply Hst].
  rewrite lookup_insert_eq. intros [= <-]. apply next_indexed; [apply Hst|done].
Qed.
Lemma keeps_geometry index v encoded c' : records !! index = Some (SGeometry v) →
  retain sha256 revision (ad_catalog a) (SGeometry v) = Ok c' → encode_srecord (SGeometry v) = Ok encoded →
  stages (with_geometry v (charged index encoded)) (mk_admission c' (ad_outcomes a ++ []) (ad_effects a ++ [revision])) (ins ++ [SGeometry v]).
Proof.
  intros Hr Hc He. stage_fields Hc He; [apply push_joined; apply Hst|apply push_nonempty; apply Hst].
Qed.
Lemma keeps_observation index v encoded c' : records !! index = Some (SObservation v) →
  retain sha256 revision (ad_catalog a) (SObservation v) = Ok c' → encode_srecord (SObservation v) = Ok encoded →
  stages (with_observation v (charged index encoded)) (mk_admission c' (ad_outcomes a ++ [Inserted (o_id v)]) (ad_effects a ++ [revision])) (ins ++ [SObservation v]).
Proof.
  intros Hr Hc He. stage_fields Hc He.
  - intros id. destruct (decide (o_id v = id)) as [<-|]; [by rewrite !lookup_insert_eq|]. rewrite !lookup_insert_ne by done. apply Hst.
  - intros key. destruct (decide (o_key v = key)) as [<-|]; [by rewrite !lookup_insert_eq|]. rewrite !lookup_insert_ne by done. apply Hst.
Qed.
Lemma skips existing recorded : stages (with_duplicate existing recorded p) (skip a existing recorded) ins.
Proof.
  constructor; cbn; try apply Hst; [by rewrite (st_outcomes _ _ _ Hst)|by rewrite (st_effects _ _ _ Hst)].
Qed.
(** One record. *)
Definition agree (x : sresult CatalogPreparation) (y : sresult Admission) : Prop :=
  match x, y with
  | Ok p', Ok a' => ∃ ins', stages p' a' ins'
  | Err e, Err e' => e = e'
  | _, _ => False
  end.
Lemma agree_then (x : sresult unit) k k' : (x = Ok tt → agree k k') → agree (x;; k) (x;; k').
Proof. destruct x as [[]|]; [auto|done]. Qed.
Lemma stage_admit index record : records !! index = Some record →
  agree (stage sha256 p (index, record)) (admit_record sha256 revision a record).
Proof.
  intros Hr. unfold stage, admit_record, admit_version. cbn [fst snd]. destruct record as [v|v|v|v].
  - unfold stage_world. rewrite stages_ensure, stages_world. apply agree_then. intros _. apply agree_then. intros _.
    unfold world_follows. destruct (latest _) as [w|]; [destruct (bool_decide _)|]; cbn [negb]; try done; apply keeps; intros; by apply keeps_world.
  - unfold stage_frame. rewrite stages_ensure, stages_frame. apply agree_then. intros _. apply agree_then. intros Hn.
    unfold frame_follows. destruct (latest _) as [w|] eqn:Hw; [destruct (bool_decide _), (bool_decide _)|]; cbn [negb orb andb]; try done;
      apply keeps; intros; (apply keeps_frame; [done|by rewrite Hw|done..]).
  - unfold stage_geometry. rewrite stages_ensure, stages_geometry. apply agree_then. intros _. apply agree_then. intros _.
    unfold geometry_follows. destruct (latest _) as [w|], (g_predecessor v) as [r|]; try done; [destruct (_ && _); [|done]|]; apply keeps; intros; by apply keeps_geometry.
  - unfold stage_observation, admit_observation. rewrite stages_ensure, stages_observation, stages_event. apply agree_then. intros _.
    destruct (recorded_observation _ (o_id v)) as [[recorded existing]|].
    { case_decide; [|done]. exists ins. apply skips. }
    destruct (sc_source_events _ !! _) as [existing_id|]; [|apply keeps; intros; by apply keeps_observation].
    rewrite stages_observation. destruct (recorded_observation _ existing_id) as [[recorded existing]|]; [|done]. cbn [ok_or].
    rewrite !result_bind_Ok. case_decide; [|done]. exists ins. apply skips.
Qed.
End step.

(** The batch. *)
Lemma stage_admit_all pre rest p a ins : records = pre ++ rest → stages p a ins →
  agree (try_fold (stage sha256) (imap (λ i r, ((length pre + i)%nat, r)) rest) p) (try_fold (admit_record sha256 revision) rest a).
Proof.
  revert pre p a ins. induction rest as [|r rest IH]; intros pre p a ins Hrec Hst; [by exists ins|]. cbn [imap try_fold].
  rewrite Nat.add_0_r. assert (records !! length pre = Some r) as Hr by (rewrite Hrec; by apply list_lookup_middle).
  pose proof (stage_admit p a ins Hst _ _ Hr) as Hs. unfold agree in Hs.
  destruct (stage _ p _) as [p'|], (admit_record _ _ a r) as [a'|]; try done. destruct Hs as [ins' Hs]. rewrite !result_bind_Ok.
  specialize (IH (pre ++ [r]) p' a' ins'). rewrite <-(assoc_L _) in IH. specialize (IH Hrec Hs).
  rewrite length_app in IH. cbn [length] in IH.
  replace (imap _ rest) with (imap (λ i r, ((length pre + 1 + i)%nat, r)) rest); [exact IH|].
  apply imap_ext. intros i x _. cbn. f_equal. lia.
Qed.
Lemma finish_stages p a ins : stages p a ins → length (ad_effects a) = length records →
  ∃ prepared, finish records p = Ok prepared
    ∧ publish_prepared base prepared = Some (committed revision (ad_catalog a), ad_outcomes a)
    ∧ pb_effect_revisions prepared = ad_effects a ∧ pb_outcomes prepared = ad_outcomes a ∧ pb_revision prepared = revision
    ∧ catalog_can_publish base prepared = true.
Proof.
  intros Hst Hlen. pose proof (st_limits _ _ _ Hst) as [Hl1 Hl2]. rewrite (st_catalog _ _ _ Hst) in Hl1, Hl2. cbn in Hl1, Hl2.
  unfold finish. rewrite (st_effects _ _ _ Hst), Hlen, Nat.eqb_refl. cbn [negb].
  assert (try_map (λ index, ok_or (records !! index) InvalidEncoding) (cp_inserted_indices p) = Ok ins) as ->.
  { pose proof (st_indices _ _ _ Hst) as Hi. clear -Hi. induction Hi as [|i r il rl Hi _ IH]; [done|]. cbn [try_map]. rewrite Hi. cbn [ok_or]. rewrite result_bind_Ok, IH. done. }
  rewrite result_bind_Ok, (st_base _ _ _ Hst), (st_revision _ _ _ Hst), (st_outcomes _ _ _ Hst). unfold checked_add.
  rewrite !(proj2 (Z.leb_le _ _)) by (unfold MAX_SPATIAL_CATALOG_ENTRIES, MAX_SPATIAL_CATALOG_LOGICAL_BYTES, U64_MAX in *; lia).
  cbn [ok_or]. rewrite !result_bind_Ok. eexists. split; [done|]. unfold publish_prepared.
  assert (∀ p', pb_base_revision p' = sc_last_revision base → pb_base_entry_count p' = sc_entry_count base →
    pb_base_logical_bytes p' = sc_logical_bytes base → pb_base_content_anchor p' = sc_content_anchor base → catalog_can_publish base p' = true) as Hcan.
  { intros p' H1 H2 H3 H4. unfold catalog_can_publish. by rewrite H1, H2, H3, H4, bool_decide_eq_true_2. }
  rewrite !Hcan by done. split_and!; try done. rewrite (st_catalog _ _ _ Hst). unfold committed, counted. done.
Qed.
End refinement.
(** Every admitted record has an effect. *)
Lemma keep_effects sha256 revision a record outcomes a' : keep sha256 revision a record outcomes = Ok a' →
  length (ad_effects a') = S (length (ad_effects a)).
Proof. intros (c & _ & [= <-])%bind_Ok. cbn. rewrite length_app. cbn. lia. Qed.
Lemma skip_effects a existing recorded : length (ad_effects (skip a existing recorded)) = S (length (ad_effects a)).
Proof. cbn. rewrite length_app. cbn. lia. Qed.
Lemma admit_effects sha256 revision a record a' : admit_record sha256 revision a record = Ok a' → length (ad_effects a') = S (length (ad_effects a)).
Proof.
  destruct record; unfold admit_record, admit_version, admit_observation;
    try (intros ([] & _ & ([] & _ & Hk)%bind_Ok)%bind_Ok; case_match; [by apply keep_effects in Hk|done]).
  intros ([] & _ & Hk)%bind_Ok. destruct (recorded_observation _ _) as [[r e]|].
  { case_decide; [|done]. injection Hk as <-. apply skip_effects. }
  destruct (_ !! _); [|by apply keep_effects in Hk]. apply bind_Ok in Hk as ([r e] & _ & Hk). case_decide; [|done]. injection Hk as <-.
  apply skip_effects.
Qed.
Lemma admit_all_effects sha256 revision records a a' : try_fold (admit_record sha256 revision) records a = Ok a' →
  length (ad_effects a') = (length (ad_effects a) + length records)%nat.
Proof.
  revert a. induction records as [|r records IH]; intros a Ha; [injection Ha as <-; cbn; lia|].
  apply bind_Ok in Ha as (a1 & H1%admit_effects & Ha%IH). cbn. lia.
Qed.

(** ** The overlay computes the reference *)
Lemma prepare_admits sha256 c revision records : frames_indexed c → within_limits c →
  match prepare_batch sha256 c revision records, admit_batch sha256 revision c records with
  | Ok prepared, Ok a => publish_prepared c prepared = Some (ad_catalog a, ad_outcomes a)
      ∧ pb_effect_revisions prepared = ad_effects a ∧ pb_outcomes prepared = ad_outcomes a ∧ pb_revision prepared = revision
      ∧ catalog_can_publish c prepared = true ∧ frames_indexed (ad_catalog a) ∧ within_limits (ad_catalog a)
  | Err e, Err e' => e = e'
  | _, _ => False
  end.
Proof.
  intros Hf Hl. unfold prepare_batch, admit_batch. destruct (_ <? _); [done|]. destruct (_ || _); [done|].
  pose proof (stage_admit_all sha256 c revision records [] records _ _ _ eq_refl (stages_new c revision records Hf Hl)) as Hs.
  cbn [length Nat.add] in Hs. change (λ i r, (i, r)) with (@pair nat SpatialRecord) in Hs. unfold agree in Hs.
  destruct (try_fold (stage _) _ _) as [p|], (try_fold (admit_record _ _) _ _) as [a|] eqn:Ha; try done. destruct Hs as [ins Hst].
  rewrite !result_bind_Ok. unfold catalog_check.
  assert (try_each (validate_srecord p revision) records = try_each (validate_srecord (CatalogPreparation_new (ad_catalog a) revision) revision) records) as ->.
  { pose proof (stages_views _ _ _ _ _ _ Hst) as Hv. clear -Hv. induction records as [|r rs IH]; [done|]. cbn [try_each]. by rewrite (validate_views _ _ _ _ Hv), IH. }
  destruct (try_each _ _) as [[]|]; [|done]. rewrite !result_bind_Ok. apply admit_all_effects in Ha. cbn in Ha.
  destruct (finish_stages _ _ _ _ _ _ Hst Ha) as (prepared & -> & Hp). pose proof (st_indexed _ _ _ _ _ _ Hst). pose proof (st_limits _ _ _ _ _ _ Hst). naive_solver.
Qed.
