(* ===== verification/SpatialInvariant.v ===== *)
(** * The invariant of the catalog

    What every catalog reached by committing batches satisfies: each history is a
    chain of consecutive versions, identifiers have one category, the counters and
    the content anchor are those of the retained records, and every record was
    valid in the catalog as of its revision. *)
From S2P Require Import Prelude Ids Value GraphCodec TimeModel SpatialModel SpatialCodec SpatialCatalog SpatialAdmit.
Import SpatialError.

(** ** Retained records *)
Definition entry_of {T} (record : T → SpatialRecord) (e : HistoryEntry T) : CommitRevision * SpatialRecord :=
  (he_revision e, record (he_value e)).
Definition histories_records {T} (record : T → SpatialRecord) (m : Histories T) : list (CommitRevision * SpatialRecord) :=
  btree_values m ≫= λ es, entry_of record <$> es.
Definition catalog_records (c : SpatialCatalog) : list (CommitRevision * SpatialRecord) :=
  histories_records SWorld (sc_worlds c) ++ histories_records SFrame (sc_frames c) ++ histories_records SGeometry (sc_geometries c)
  ++ (entry_of SObservation <$> btree_values (sc_observations c)).

(** Visiting is folding over the retained records. *)
Section visit.
Context {E S : Type} (visitor : S → CommitRevision → SpatialRecord → result E S).
Lemma visit_entries {T} (record : T → SpatialRecord) es s :
  try_fold (visit_entry visitor record) es s = try_fold (λ s e, visitor s e.1 e.2) (entry_of record <$> es) s.
Proof.
  revert s. induction es as [|e es IH]; intros s; [done|]. rewrite fmap_cons. cbn [try_fold].
  change (visit_entry visitor record s e) with (visitor s (entry_of record e).1 (entry_of record e).2).
  destruct (visitor _ _ _); [apply IH|done].
Qed.
Lemma visit_histories_fold {T} (record : T → SpatialRecord) m s :
  visit_histories visitor record m s = try_fold (λ s e, visitor s e.1 e.2) (histories_records record m) s.
Proof.
  unfold visit_histories, histories_records. generalize (btree_values m) as l. intros l. revert s.
  induction l as [|es l IH]; intros s; [done|]. cbn [try_fold]. rewrite bind_cons, try_fold_app, visit_entries.
  destruct (try_fold _ _ s); [|done]. rewrite !result_bind_Ok. apply IH.
Qed.
Lemma visit_records_fold c s : visit_records visitor c s = try_fold (λ s e, visitor s e.1 e.2) (catalog_records c) s.
Proof.
  unfold visit_records, catalog_records. rewrite !try_fold_app, visit_histories_fold.
  destruct (try_fold _ (histories_records SWorld _) _); [rewrite !result_bind_Ok|done]. rewrite try_fold_app, visit_histories_fold.
  destruct (try_fold _ (histories_records SFrame _) _); [rewrite !result_bind_Ok|done]. rewrite try_fold_app, visit_histories_fold.
  destruct (try_fold _ (histories_records SGeometry _) _); [rewrite !result_bind_Ok|done]. apply visit_entries.
Qed.
End visit.

#[global] Instance zlen_perm {A} : Proper ((≡ₚ) ==> (=)) (@zlen A).
Proof. intros l k Hp. unfold zlen. by rewrite Hp. Qed.
(** Publishing a record adds it. *)
Lemma histories_records_perm {T} (record : T → SpatialRecord) (m : Histories T) :
  histories_records record m ≡ₚ (map_to_list m).*2 ≫= λ es, entry_of record <$> es.
Proof. unfold histories_records, btree_values. by rewrite btree_entries_Permutation. Qed.
Lemma histories_records_push {T} (record : T → SpatialRecord) (m : Histories T) id e :
  histories_records record (push_entry id e m) ≡ₚ entry_of record e :: histories_records record m.
Proof.
  rewrite !histories_records_perm. unfold push_entry. rewrite <-insert_delete_eq, map_to_list_insert by apply lookup_delete_eq.
  rewrite fmap_cons, bind_cons. cbn [snd]. destruct (m !! id) as [es|] eqn:Hm; cbn [default from_option].
  - rewrite <-(map_to_list_delete m id es Hm), fmap_cons, bind_cons. cbn [snd]. rewrite fmap_app. cbn [fmap list_fmap]. solve_Permutation.
  - rewrite delete_id by done. done.
Qed.
Lemma observations_records_insert (m : gmap RecordRef (HistoryEntry PositionObservation)) id e : m !! id = None →
  entry_of SObservation <$> btree_values (<[id := e]> m) ≡ₚ entry_of SObservation e :: (entry_of SObservation <$> btree_values m).
Proof.
  intros Hm. unfold btree_values. by rewrite !btree_entries_Permutation, map_to_list_insert.
Qed.
Lemma publish_records revision c record :
  match record with SObservation o => sc_observations c !! o_id o = None | _ => True end →
  catalog_records (publish_record revision c record) ≡ₚ (revision, record) :: catalog_records c.
Proof.
  intros Hf. unfold catalog_records. destruct record; cbn [publish_record sc_worlds sc_frames sc_geometries sc_observations];
    rewrite ?histories_records_push, ?observations_records_insert by done; unfold entry_of at 1; cbn [he_revision he_value]; solve_Permutation.
Qed.

(** ** The content anchor does not depend on the order of the records *)
Lemma lxor_byte a b : 0 ≤ a < 256 → 0 ≤ b < 256 → 0 ≤ Z.lxor a b < 256.
Proof.
  intros Ha Hb. assert (0 ≤ Z.lxor a b) as Hn by (apply Z.lxor_nonneg; lia). split; [done|].
  destruct (Z.eq_dec (Z.lxor a b) 0) as [->|Hne]; [lia|]. change 256 with (2 ^ 8). apply Z.log2_lt_pow2; [lia|].
  pose proof (Z.log2_lxor a b ltac:(lia) ltac:(lia)) as Hl.
  assert (∀ x, 0 ≤ x < 256 → Z.log2 x < 8) as Hb8 by (intros x Hx; destruct (Z.eq_dec x 0) as [->|]; [done|]; apply Z.log2_lt_pow2; lia).
  pose proof (Hb8 a Ha). pose proof (Hb8 b Hb). lia.
Qed.
Lemma u8_xor a b : u8 (xor_byte a b) = Z.lxor (u8 a) (u8 b).
Proof. unfold xor_byte. rewrite u8_byte_of. apply Z.mod_small, lxor_byte; apply u8_range. Qed.
Lemma xor_byte_swap a b c : xor_byte (xor_byte a b) c = xor_byte (xor_byte a c) b.
Proof. apply u8_inj. rewrite !u8_xor, !Z.lxor_assoc. f_equal. apply Z.lxor_comm. Qed.
Lemma xor_anchor_swap a b c : xor_anchor (xor_anchor a b) c = xor_anchor (xor_anchor a c) b.
Proof.
  unfold xor_anchor. revert b c. induction a as [|x a IH]; intros [|y b] [|z c]; try done. cbn. by rewrite xor_byte_swap, IH.
Qed.

(** ** Well-formedness *)
Section chained.
Context {T : Type} `{HasVersion T} (idf : T → RecordRef) (follows : option T → T → bool).
(** A history: versions of one record, each following the one before it. *)
Inductive chained (id : RecordRef) : list (HistoryEntry T) → Prop :=
| chained_nil : chained id []
| chained_snoc es revision v :
    chained id es → idf v = id → check_next_value (he_value <$> last es) (version_of v) = Ok tt →
    follows (he_value <$> last es) v = true → Forall (λ e, he_revision e ≤ revision) es →
    chained id (es ++ [mk_entry revision v]).
Lemma chained_prefix id es es' : chained id (es ++ es') → chained id es.
Proof.
  revert es. induction es' as [|e es' IH] using rev_ind; intros es Hc; [by rewrite app_nil_r in Hc|].
  rewrite (assoc_L _) in Hc. apply IH. inversion Hc as [Hn|es0 r v H1 H2 H3 H4 H5 Heq].
  - symmetry in Hn. apply app_nil in Hn as [_ Hn]. done.
  - apply app_inj_tail in Heq as [<- _]. done.
Qed.
Lemma chained_last id es e : chained id (es ++ [e]) →
  idf (he_value e) = id ∧ check_next_value (he_value <$> last es) (version_of (he_value e)) = Ok tt
  ∧ follows (he_value <$> last es) (he_value e) = true ∧ Forall (λ x, he_revision x ≤ he_revision e) es.
Proof.
  intros Hc. inversion Hc as [Hn|es0 r v H1 H2 H3 H4 H5 Heq].
  - symmetry in Hn. by apply app_nil in Hn as [_ Hn].
  - apply app_inj_tail in Heq as [<- <-]. done.
Qed.
Lemma chained_at id es i e : chained id es → es !! i = Some e →
  idf (he_value e) = id ∧ check_next_value (he_value <$> last (take i es)) (version_of (he_value e)) = Ok tt
  ∧ follows (he_value <$> last (take i es)) (he_value e) = true.
Proof.
  intros Hc Hi. rewrite <-(take_drop_middle _ _ _ Hi) in Hc. change (e :: drop (S i) es) with ([e] ++ drop (S i) es) in Hc.
  rewrite (assoc_L _) in Hc. apply chained_prefix, chained_last in Hc as (H1 & H2 & H3 & _). done.
Qed.
Lemma chained_indexed id es : chained id es → indexed es.
Proof.
  induction 1 as [|es r v Hc IH Hid Hn Hf Hr]; [done|]. apply (next_indexed (Some es)); [by intros ? [= <-]|done].
Qed.
Lemma chained_sorted id es : chained id es → StronglySorted (λ a b, he_revision a ≤ he_revision b) es.
Proof.
  induction 1 as [|es r v Hc IH Hid Hn Hf Hr]; [constructor|]. apply StronglySorted_app_2; [|done|repeat constructor].
  intros a b Ha Hb%list_elem_of_singleton. subst. rewrite Forall_forall in Hr. by apply Hr.
Qed.
End chained.

Definition encoded_bytes (e : CommitRevision * SpatialRecord) : Z :=
  match encode_srecord e.2 with Ok encoded => entry_bytes encoded | Err _ => 0 end.
Definition total_bytes (l : list (CommitRevision * SpatialRecord)) : Z := foldr (λ e total, total + encoded_bytes e) 0 l.
Section invariant.
Context (sha256 : list byte → list byte).
Definition anchor_entry (e : CommitRevision * SpatialRecord) (anchor : list byte) : list byte :=
  match encode_srecord e.2 with Ok encoded => xor_anchor anchor (entry_anchor sha256 e.1 encoded) | Err _ => anchor end.
Definition anchor_of (l : list (CommitRevision * SpatialRecord)) : list byte := foldr anchor_entry (replicate 32 x00) l.
#[global] Instance total_bytes_perm : Proper ((≡ₚ) ==> (=)) total_bytes.
Proof. intros l k Hp. unfold total_bytes. induction Hp; cbn; lia. Qed.
#[global] Instance anchor_of_perm : Proper ((≡ₚ) ==> (=)) anchor_of.
Proof.
  intros l k Hp. unfold anchor_of. induction Hp as [|e l k _ IH|e f l|l k m _ IH1 _ IH2]; cbn [foldr]; [done|by rewrite IH| |congruence].
  unfold anchor_entry. destruct (encode_srecord e.2), (encode_srecord f.2); try done. apply xor_anchor_swap.
Qed.

(** The shape of a catalog whose revisions are at most [bound]. *)
Record catalog_wf (bound : CommitRevision) (c : SpatialCatalog) : Prop := {
  cw_worlds id es : sc_worlds c !! id = Some es → es ≠ [] ∧ chained w_id world_follows id es;
  cw_frames id es : sc_frames c !! id = Some es → es ≠ [] ∧ chained f_id frame_follows id es;
  cw_geometries id es : sc_geometries c !! id = Some es → es ≠ [] ∧ chained g_id geometry_follows id es;
  cw_observations id e : sc_observations c !! id = Some e → o_id (he_value e) = id ∧ sc_source_events c !! o_key (he_value e) = Some id;
  cw_events key id : sc_source_events c !! key = Some id → ∃ e, sc_observations c !! id = Some e ∧ o_key (he_value e) = key;
  cw_disjoint : dom (sc_worlds c) ## dom (sc_frames c) ∧ dom (sc_worlds c) ## dom (sc_geometries c)
    ∧ dom (sc_worlds c) ## dom (sc_observations c) ∧ dom (sc_frames c) ## dom (sc_geometries c)
    ∧ dom (sc_frames c) ## dom (sc_observations c) ∧ dom (sc_geometries c) ## dom (sc_observations c);
  cw_revisions : Forall (λ e, 1 ≤ e.1 ≤ bound) (catalog_records c);
  cw_encodes : Forall (λ e, is_ok (encode_srecord e.2) = true) (catalog_records c);
  cw_count : sc_entry_count c = zlen (catalog_records c);
  cw_bytes : sc_logical_bytes c = total_bytes (catalog_records c);
  cw_anchor : sc_content_anchor c = anchor_of (catalog_records c);
  cw_limits : within_limits c
}.
Lemma catalog_wf_new bound : catalog_wf bound SpatialCatalog_new.
Proof. split; cbn; try done; set_solver. Qed.

(** ** What admission asks of a record *)
Definition outside (c : SpatialCatalog) (id : RecordRef) (category : Category) : Prop :=
  (category ≠ CategoryWorld → id ∉ dom (sc_worlds c)) ∧ (category ≠ CategoryFrame → id ∉ dom (sc_frames c))
  ∧ (category ≠ CategoryGeometry → id ∉ dom (sc_geometries c)) ∧ (category ≠ CategoryObservation → id ∉ dom (sc_observations c)).
Lemma has_key_dom {T} (m : gmap RecordRef T) id : has_key m id = bool_decide (id ∈ dom m).
Proof. unfold has_key. apply bool_decide_ext. by rewrite elem_of_dom. Qed.
Lemma category_free_iff bound c id category u : catalog_wf bound c → category_free c id category = Ok u ↔ outside c id category.
Proof.
  intros Hw. destruct u. pose proof (cw_disjoint _ _ Hw) as (D1 & D2 & D3 & D4 & D5 & D6).
  unfold category_free, catalog_category, outside. rewrite !has_key_dom.
  do 4 (case_bool_decide; [destruct category; (case_decide; [|naive_solver]); (split; [|done]); intros _; set_solver|]).
  naive_solver.
Qed.
(** A record the catalog does not hold and may retain. *)
Definition acceptable (c : SpatialCatalog) (record : SpatialRecord) : Prop :=
  match record with
  | SWorld v => outside c (w_id v) CategoryWorld ∧ check_next_value (latest (sc_worlds c !! w_id v)) (version_of v) = Ok tt
      ∧ world_follows (latest (sc_worlds c !! w_id v)) v = true
  | SFrame v => outside c (f_id v) CategoryFrame ∧ check_next_value (latest (sc_frames c !! f_id v)) (version_of v) = Ok tt
      ∧ frame_follows (latest (sc_frames c !! f_id v)) v = true
  | SGeometry v => outside c (g_id v) CategoryGeometry ∧ check_next_value (latest (sc_geometries c !! g_id v)) (version_of v) = Ok tt
      ∧ geometry_follows (latest (sc_geometries c !! g_id v)) v = true
  | SObservation v => outside c (o_id v) CategoryObservation ∧ sc_observations c !! o_id v = None ∧ sc_source_events c !! o_key v = None
  end.
(** An observation the catalog already holds. *)
Definition retained (c : SpatialCatalog) (record : SpatialRecord) : Prop :=
  match record with SObservation o => ∃ recorded, sc_observations c !! o_id o = Some (mk_entry recorded o) | _ => False end.
Definition kept_outcomes (record : SpatialRecord) : list ObservationOutcome :=
  match record with SObservation o => [Inserted (o_id o)] | _ => [] end.
Lemma recorded_Some c id recorded o : recorded_observation c id = Some (recorded, o) ↔ sc_observations c !! id = Some (mk_entry recorded o).
Proof.
  unfold recorded_observation. destruct (sc_observations c !! id) as [[r v]|]; cbn; naive_solver.
Qed.
Lemma recorded_None c id : recorded_observation c id = None ↔ sc_observations c !! id = None.
Proof. unfold recorded_observation. destruct (sc_observations c !! id); cbn; naive_solver. Qed.
Lemma admit_acceptable bound revision a record : catalog_wf bound (ad_catalog a) → acceptable (ad_catalog a) record →
  admit_record sha256 revision a record = keep sha256 revision a record (kept_outcomes record).
Proof.
  intros Hw Ha. destruct record as [v|v|v|v]; unfold admit_record, admit_version, admit_observation; cbn in Ha |- *;
    destruct Ha as (Ho%(category_free_iff _ _ _ _ tt Hw) & H2 & H3); rewrite Ho, result_bind_Ok.
  1-3: rewrite H2, result_bind_Ok, H3; done.
  apply recorded_None in H2. by rewrite H2, H3.
Qed.
Lemma admit_cases bound revision a record a' : catalog_wf bound (ad_catalog a) → admit_record sha256 revision a record = Ok a' →
  (acceptable (ad_catalog a) record ∧ keep sha256 revision a record (kept_outcomes record) = Ok a')
  ∨ (retained (ad_catalog a) record ∧ ad_catalog a' = ad_catalog a).
Proof.
  intros Hw. destruct record as [v|v|v|v]; unfold admit_record, admit_version, admit_observation; cbn [kept_outcomes acceptable retained].
  1-3: intros ([] & Ho%(category_free_iff _ _ _ _ tt Hw) & ([] & Hn & Hk)%bind_Ok)%bind_Ok; left; case_match; done.
  intros ([] & Ho%(category_free_iff _ _ _ _ tt Hw) & Hk)%bind_Ok. destruct (recorded_observation _ (o_id v)) as [[r e]|] eqn:Hr.
  { case_decide as He; [|done]. injection Hk as <-. subst e. apply recorded_Some in Hr. right. split; [by exists r|done]. }
  apply recorded_None in Hr. destruct (sc_source_events _ !! _) as [id|] eqn:He; [|by left].
  apply bind_Ok in Hk as ([r e] & Hrec%ok_or_Ok & Hk). case_decide as Hev; [|done]. injection Hk as <-. subst e.
  apply recorded_Some in Hrec. right. destruct (cw_observations _ _ Hw _ _ Hrec) as [Hid _]. cbn in Hid. subst id. congruence.
Qed.

(** ** Admission preserves well-formedness *)
Lemma push_chained {T} `{HasVersion T} (idf : T → RecordRef) follows (m : Histories T) revision v :
  (∀ id es, m !! id = Some es → es ≠ [] ∧ chained idf follows id es) →
  (∀ es, m !! idf v = Some es → Forall (λ e, he_revision e ≤ revision) es) →
  check_next_value (latest (m !! idf v)) (version_of v) = Ok tt → follows (latest (m !! idf v)) v = true →
  ∀ id es, push_entry (idf v) (mk_entry revision v) m !! id = Some es → es ≠ [] ∧ chained idf follows id es.
Proof.
  intros Hm Hb Hn Hf id es. unfold push_entry. destruct (decide (idf v = id)) as [<-|]; [|rewrite lookup_insert_ne by done; apply Hm].
  rewrite lookup_insert_eq. intros [= <-]. split; [by destruct (default [] _)|]. destruct (m !! idf v) as [es|] eqn:Hl; cbn in *.
  - apply chained_snoc; [by apply Hm|done..|by apply Hb].
  - apply (chained_snoc _ _ _ []); try done. constructor.
Qed.
Lemma histories_revisions {T} (record : T → SpatialRecord) (m : Histories T) (P : CommitRevision * SpatialRecord → Prop) id es :
  Forall P (histories_records record m) → m !! id = Some es → Forall (λ e, P (entry_of record e)) es.
Proof.
  rewrite !Forall_forall. intros Hall Hm e He. apply Hall. unfold histories_records. apply list_elem_of_bind.
  exists es. split; [|apply elem_of_btree_values; by exists id]. apply list_elem_of_fmap. by exists e.
Qed.
Lemma wf_history_bounds bound c : catalog_wf bound c →
  (∀ id es, sc_worlds c !! id = Some es → Forall (λ e, he_revision e ≤ bound) es)
  ∧ (∀ id es, sc_frames c !! id = Some es → Forall (λ e, he_revision e ≤ bound) es)
  ∧ (∀ id es, sc_geometries c !! id = Some es → Forall (λ e, he_revision e ≤ bound) es)
  ∧ (∀ id e, sc_observations c !! id = Some e → he_revision e ≤ bound).
Proof.
  intros Hw. pose proof (cw_revisions _ _ Hw) as Hr. unfold catalog_records in Hr.
  apply Forall_app in Hr as [H1 [H2 [H3 H4]%Forall_app]%Forall_app].
  split_and!; intros id es Hid; [| | |rewrite Forall_fmap, Forall_forall in H4; apply H4, elem_of_btree_values; by exists id];
    (eapply Forall_impl; [eapply histories_revisions; [|exact Hid]; eassumption|]); cbn; lia.
Qed.
Lemma dom_push {T} (m : gmap RecordRef (list T)) id v : dom (push_entry id v m) = {[id]} ∪ dom m.
Proof. apply dom_insert_L. Qed.
Ltac disjoint_grow :=
  rewrite ?dom_push, ?dom_insert_L, ?disjoint_union_l, ?disjoint_union_r, ?disjoint_singleton_l, ?disjoint_singleton_r;
  split_and!; auto.
Lemma retain_wf revision c record c' : 1 ≤ revision → catalog_wf revision c → acceptable c record → retain sha256 revision c record = Ok c' →
  catalog_wf revision c'.
Proof.
  intros Hrev Hw Ha (encoded & He & Hc)%bind_Ok. destruct (_ || _) eqn:Hg in Hc; [done|]. injection Hc as <-.
  apply orb_false_iff in Hg as [Hg1%Z.ltb_ge Hg2%Z.ltb_ge].
  assert (catalog_records (counted (sc_entry_count c + 1) (sc_logical_bytes c + entry_bytes encoded)
    (xor_anchor (sc_content_anchor c) (entry_anchor sha256 revision encoded)) (publish_record revision c record))
    ≡ₚ (revision, record) :: catalog_records c) as Hp.
  { apply publish_records. destruct record; [done..|]. apply Ha. }
  destruct (wf_history_bounds _ _ Hw) as (B1 & B2 & B3 & B4). pose proof (cw_disjoint _ _ Hw) as (D1 & D2 & D3 & D4 & D5 & D6).
  pose proof (cw_limits _ _ Hw) as [L1 L2].
  assert (0 ≤ entry_bytes encoded) as Hpos by (unfold entry_bytes; pose proof (zlen_nonneg encoded); lia).
  constructor.
  1-6: clear Hp; destruct record as [v|v|v|v]; cbn [publish_record counted sc_worlds sc_frames sc_geometries sc_observations sc_source_events];
    try apply Hw; cbn in Ha; destruct Ha as ((O1 & O2 & O3 & O4) & H2 & H3).
  - apply push_chained; [apply Hw|apply B1|done..].
  - apply push_chained; [apply Hw|apply B2|done..].
  - apply push_chained; [apply Hw|apply B3|done..].
  - intros id e. destruct (decide (o_id v = id)) as [<-|Hne].
    + rewrite lookup_insert_eq. intros [= <-]. cbn. by rewrite lookup_insert_eq.
    + rewrite lookup_insert_ne by done. intros Hid. destruct (cw_observations _ _ Hw _ _ Hid) as [Hoid Hk]. split; [done|].
      rewrite lookup_insert_ne; [done|]. intros Hkey. congruence.
  - intros key id. destruct (decide (o_key v = key)) as [<-|Hne].
    + rewrite lookup_insert_eq. intros [= <-]. exists (mk_entry revision v). by rewrite lookup_insert_eq.
    + rewrite lookup_insert_ne by done. intros Hk. destruct (cw_events _ _ Hw _ _ Hk) as (e & Hid & Hkey). exists e. split; [|done].
      rewrite lookup_insert_ne; [done|]. intros Hoid. congruence.
  - by disjoint_grow.
  - by disjoint_grow.
  - by disjoint_grow.
  - by disjoint_grow.
  - rewrite Hp. constructor; [cbn; lia|apply Hw].
  - rewrite Hp. constructor; [cbn; by rewrite He|apply Hw].
  - rewrite Hp, zlen_cons. cbn. rewrite (cw_count _ _ Hw). lia.
  - rewrite Hp. cbn. unfold encoded_bytes. cbn. by rewrite He, (cw_bytes _ _ Hw).
  - rewrite Hp. cbn [anchor_of foldr]. unfold anchor_entry at 1. cbn. by rewrite He, (cw_anchor _ _ Hw).
  - split; cbn; lia.
Qed.

(** ** The catalog as of a revision *)
Definition cut {T} (r : CommitRevision) (es : list (HistoryEntry T)) : list (HistoryEntry T) := filter (λ e, he_revision e ≤ r) es.
Definition history_as_of {T} (r : CommitRevision) (es : list (HistoryEntry T)) : option (list (HistoryEntry T)) :=
  match cut r es with [] => None | es' => Some es' end.
Definition as_of (r : CommitRevision) (c : SpatialCatalog) : SpatialCatalog :=
  mk_catalog (omap (history_as_of r) (sc_worlds c)) (omap (history_as_of r) (sc_frames c)) (omap (history_as_of r) (sc_geometries c))
    (filter (λ e, he_revision e.2 ≤ r) (sc_observations c)) (sc_source_events c) (sc_last_revision c) (sc_entry_count c)
    (sc_logical_bytes c) (sc_content_anchor c).
(** What the checks of a record read. *)
Definition same_maps (c d : SpatialCatalog) : Prop :=
  sc_worlds c = sc_worlds d ∧ sc_frames c = sc_frames d ∧ sc_geometries c = sc_geometries d ∧ sc_observations c = sc_observations d.
Lemma catalog_check_maps c d revision record : same_maps c d → catalog_check c revision record = catalog_check d revision record.
Proof.
  intros (H1 & H2 & H3 & H4). apply validate_views. split; intros; unfold latest_world, prepared_frame_at, prepared_observation; cbn;
    by rewrite ?H1, ?H2, ?H4.
Qed.
Lemma cut_later {T} r revision (es : list (HistoryEntry T)) v : r < revision → cut r (es ++ [mk_entry revision v]) = cut r es.
Proof. intros Hr. unfold cut. rewrite filter_app, filter_cons_False, filter_nil, app_nil_r; [done|]. cbn. lia. Qed.
Lemma cut_all {T} r (es : list (HistoryEntry T)) : Forall (λ e, he_revision e ≤ r) es → cut r es = es.
Proof. unfold cut. induction 1 as [|e es He _ IH]; [done|]. rewrite filter_cons_True by done. by rewrite IH. Qed.
Lemma as_of_push {T} r revision id (v : T) (m : Histories T) : r < revision →
  omap (history_as_of r) (push_entry id (mk_entry revision v) m) = omap (history_as_of r) m.
Proof.
  intros Hr. apply map_eq. intros id'. rewrite !lookup_omap. unfold push_entry.
  destruct (decide (id = id')) as [<-|]; [|by rewrite lookup_insert_ne]. rewrite lookup_insert_eq. cbn. unfold history_as_of.
  rewrite cut_later by done. by destruct (m !! id).
Qed.
Lemma as_of_publish r revision c record n b an : r < revision →
  match record with SObservation o => sc_observations c !! o_id o = None | _ => True end →
  same_maps (as_of r (counted n b an (publish_record revision c record))) (as_of r c).
Proof.
  intros Hr Hf. destruct record as [v|v|v|v]; split_and!; cbn; rewrite ?as_of_push by done; try done.
  rewrite map_filter_insert_False by (cbn; lia). by rewrite delete_id.
Qed.
Lemma as_of_all r c : catalog_wf r c → same_maps (as_of r c) c.
Proof.
  intros Hw. destruct (wf_history_bounds _ _ Hw) as (B1 & B2 & B3 & B4).
  assert (∀ T (m : Histories T), (∀ id es, m !! id = Some es → es ≠ []) → (∀ id es, m !! id = Some es → Forall (λ e, he_revision e ≤ r) es) →
    omap (history_as_of r) m = m) as Hm.
  { intros T m Hne Hb. apply map_eq. intros id. rewrite lookup_omap. destruct (m !! id) as [es|] eqn:Hes; [|done]. cbn.
    unfold history_as_of. rewrite cut_all by (by eapply Hb). specialize (Hne _ _ Hes). by destruct es. }
  split_and!; cbn.
  1-3: apply Hm; [|done]; intros id es Hes; by apply Hw in Hes as [? _].
  apply map_filter_id. intros id e. apply B4.
Qed.

(** ** A batch *)
Definition stamp (revision : CommitRevision) (records : list SpatialRecord) : list (CommitRevision * SpatialRecord) := pair revision <$> records.
(** The catalog [c'] is [c] with the records [ins] retained at [revision]. *)
Record extends (revision : CommitRevision) (ins : list SpatialRecord) (c c' : SpatialCatalog) : Prop := {
  ex_records : catalog_records c' ≡ₚ stamp revision ins ++ catalog_records c;
  ex_as_of r : r < revision → same_maps (as_of r c') (as_of r c);
  ex_last : sc_last_revision c' = sc_last_revision c
}.
Lemma same_maps_trans c d e : same_maps c d → same_maps d e → same_maps c e.
Proof. unfold same_maps. intros (->&->&->&->). done. Qed.
Lemma retain_extends revision c record c' : acceptable c record → retain sha256 revision c record = Ok c' → extends revision [record] c c'.
Proof.
  intros Ha (encoded & He & Hc)%bind_Ok. destruct (_ || _) in Hc; [done|]. injection Hc as <-.
  assert (match record with SObservation o => sc_observations c !! o_id o = None | _ => True end) as Hf by (destruct record; [done..|]; apply Ha).
  split; [by apply publish_records|intros r Hr; by apply as_of_publish|by destruct record].
Qed.
Lemma admit_all_extends revision records a a' : 1 ≤ revision → catalog_wf revision (ad_catalog a) →
  try_fold (admit_record sha256 revision) records a = Ok a' →
  catalog_wf revision (ad_catalog a') ∧ ∃ ins, extends revision ins (ad_catalog a) (ad_catalog a') ∧ sublist ins records.
Proof.
  intros Hrev. revert a. induction records as [|record records IH]; intros a Hw Ha.
  { injection Ha as <-. split; [done|]. exists []. split; [|constructor]. by split. }
  apply bind_Ok in Ha as (a1 & H1 & Ha). destruct (admit_cases _ _ _ _ _ Hw H1) as [[Hacc (c' & Hret & [= <-])%bind_Ok]|[_ Hsame]].
  - pose proof (retain_wf _ _ _ _ Hrev Hw Hacc Hret) as Hw1. apply IH in Ha as (Hw' & ins & Hex & Hsub); [|exact Hw1]. split; [done|]. exists (record :: ins).
    split; [|by constructor]. apply retain_extends in Hret; [|done]. cbn in Hex. split.
    + rewrite (ex_records _ _ _ _ Hex), (ex_records _ _ _ _ Hret). cbn. by rewrite Permutation_middle.
    + intros r Hr. eapply same_maps_trans; [by apply Hex|by apply Hret].
    + rewrite (ex_last _ _ _ _ Hex). apply Hret.
  - rewrite <-Hsame in Hw. destruct (IH _ Hw Ha) as (Hw' & ins & Hex & Hsub). split; [done|]. exists ins. rewrite Hsame in Hex.
    split; [done|by constructor].
Qed.

(** ** Committed catalogs *)
Definition known (c : SpatialCatalog) : CommitRevision := default 0 (sc_last_revision c).
Record catalog_inv (c : SpatialCatalog) : Prop := {
  ci_wf : catalog_wf (known c) c;
  ci_checked r record : (r, record) ∈ catalog_records c → catalog_check (as_of r c) r record = Ok tt;
  ci_batches r : zlen (filter (λ e, e.1 = r) (catalog_records c)) ≤ MAX_SPATIAL_BATCH_RECORDS
}.
Lemma catalog_inv_new : catalog_inv SpatialCatalog_new.
Proof. split; [apply catalog_wf_new|by intros r record Hin%elem_of_nil|done]. Qed.
Lemma catalog_wf_mono b b' c : b ≤ b' → catalog_wf b c → catalog_wf b' c.
Proof. intros Hb Hw. split; try apply Hw. apply (Forall_impl _ _ _ (cw_revisions _ _ Hw)). intros e. lia. Qed.
Lemma inv_frames_indexed c : catalog_inv c → frames_indexed c.
Proof. intros Hi id es Hes. destruct (cw_frames _ _ (ci_wf _ Hi) _ _ Hes) as [_ Hc]. by eapply chained_indexed. Qed.
Lemma admit_batch_Ok revision c records a : admit_batch sha256 revision c records = Ok a →
  zlen records ≤ MAX_SPATIAL_BATCH_RECORDS ∧ match sc_last_revision c with Some l => l < revision | None => True end ∧
  ∃ a0, try_fold (admit_record sha256 revision) records (mk_admission c [] []) = Ok a0 ∧
    Forall (λ record, catalog_check (ad_catalog a0) revision record = Ok tt) records ∧
    a = mk_admission (committed revision (ad_catalog a0)) (ad_outcomes a0) (ad_effects a0).
Proof.
  unfold admit_batch. destruct (Z.ltb_spec MAX_SPATIAL_BATCH_RECORDS (zlen records)); [done|]. destruct (_ || _) eqn:Hg; [done|].
  apply orb_false_iff in Hg as [_ Hg]. intros (a0 & H0 & ([] & H1%try_each_Ok & [= <-])%bind_Ok)%bind_Ok. split_and!; [lia| |by exists a0].
  destruct (sc_last_revision c); [|done]. by apply Z.leb_gt.
Qed.
Lemma filter_stamp revision r (ins : list SpatialRecord) :
  filter (λ e, e.1 = r) (stamp revision ins) = if decide (revision = r) then stamp revision ins else [].
Proof.
  unfold stamp. case_decide as Hr; induction ins as [|x ins IH]; try done; rewrite fmap_cons.
  - by rewrite filter_cons_True, IH.
  - by rewrite filter_cons_False.
Qed.
Lemma batch_extends revision c records a : 1 ≤ revision → catalog_inv c → admit_batch sha256 revision c records = Ok a →
  known c < revision ∧ catalog_wf revision (ad_catalog a) ∧ known (ad_catalog a) = revision ∧
  ∃ ins, sublist ins records ∧ catalog_records (ad_catalog a) ≡ₚ stamp revision ins ++ catalog_records c ∧
    (∀ r, r < revision → same_maps (as_of r (ad_catalog a)) (as_of r c)).
Proof.
  intros Hrev Hi (Hlen & Hlast & a0 & Hadm & Hchk & ->)%admit_batch_Ok.
  assert (known c < revision) as Hk by (unfold known; destruct (sc_last_revision c); cbn in *; lia).
  pose proof (catalog_wf_mono _ _ _ (Z.lt_le_incl _ _ Hk) (ci_wf _ Hi)) as Hw.
  destruct (admit_all_extends _ _ (mk_admission c [] []) _ Hrev Hw Hadm) as (Hw0 & ins & Hex & Hsub). cbn in *.
  split_and!; [done| |done|]; [by destruct Hw0; split|]. exists ins. split_and!; [done|apply Hex|apply Hex].
Qed.
Lemma admit_batch_inv revision c records a : 1 ≤ revision → catalog_inv c → admit_batch sha256 revision c records = Ok a →
  catalog_inv (ad_catalog a).
Proof.
  intros Hrev Hi Hb. destruct (batch_extends _ _ _ _ Hrev Hi Hb) as (Hk & Hw & Hlast & ins & Hsub & Hrec & Has).
  apply admit_batch_Ok in Hb as (Hlen & _ & a0 & Hadm & Hchk & ->). cbn [ad_catalog] in *.
  assert (∀ r record, (r, record) ∈ catalog_records c → r ≤ known c) as Hold.
  { intros r record Hin. pose proof (cw_revisions _ _ (ci_wf _ Hi)) as Hr. rewrite Forall_forall in Hr. apply Hr in Hin. cbn in Hin. lia. }
  split; [by rewrite Hlast|..].
  - intros r record. rewrite Hrec, elem_of_app. intros [Hin|Hin].
    + apply list_elem_of_fmap in Hin as (x & [= -> ->] & Hin). rewrite (catalog_check_maps _ (ad_catalog a0)).
      * rewrite Forall_forall in Hchk. apply Hchk. by eapply elem_of_sublist.
      * by apply (as_of_all _ (committed revision (ad_catalog a0))).
    + rewrite (catalog_check_maps _ (as_of r c)); [by apply Hi|]. apply Has. apply Hold in Hin. lia.
  - intros r. rewrite Hrec, filter_app, filter_stamp, zlen_app. case_decide as Hr.
    + assert (filter (λ e, e.1 = r) (catalog_records c) = []) as ->.
      { destruct (filter _ _) as [|[q x] l] eqn:Hf; [done|]. exfalso.
        assert ((q, x) ∈ filter (λ e, e.1 = r) (catalog_records c)) as Hin by (rewrite Hf; by left).
        apply list_elem_of_filter in Hin as [Hq Hin]. apply Hold in Hin. cbn in Hq. lia. }
      apply sublist_length in Hsub. unfold zlen, stamp in *. rewrite length_fmap. cbn. lia.
    + cbn. rewrite zlen_nil. apply Hi.
Qed.
End invariant.
