(* ===== verification/SpatialState.v ===== *)
(** * The spatial reducer

    Models [crates/uste-spatial/src/state.rs]: spatial transactions and their
    encoding, [impl TransactionState for SpatialState] and its checkpoints.  A
    [Cursor] is the bytes it has left; its offset stays below the 256 MiB an input
    is checked against, so advancing it by a [u32] does not overflow. *)
From S2P Require Import Prelude Ids Value GraphCodec GraphState GraphCheckpoint TimeModel SpatialModel SpatialCodec SpatialCatalog.
Import SpatialError.

Definition TRANSACTION_MAGIC : list byte := lit "USTX" ++ [x00; x01; x00; x00].
Definition CHECKPOINT_MAGIC : list byte := lit "USCP" ++ [x00; x01; x00; x00].
Definition MAX_SPATIAL_CHECKPOINT_BYTES : Z := 256 * 1024 * 1024.
Definition MAX_SPATIAL_TRANSACTION_BYTES : Z := 16 * 1024 * 1024.
Definition SPATIAL_REDUCER_PROFILE : list byte := lit "uste-spatial-reducer-v1" ++ replicate 8 x00 ++ [x01].

(** ** Cursors and errors *)
Definition sc_take (length : Z) (c : list byte) : sresult (list byte * list byte) :=
  if length <=? zlen c then Ok (take (Z.to_nat length) c, drop (Z.to_nat length) c) else Err InvalidEncoding.
Definition sc_u32 (c : list byte) : sresult (Z * list byte) := '(bytes, c) ← sc_take 4 c; Ok (of_be_bytes bytes, c).
Definition sc_u64 (c : list byte) : sresult (Z * list byte) := '(bytes, c) ← sc_take 8 c; Ok (of_be_bytes bytes, c).
Definition push_u32 (output : list byte) (value : Z) : sresult (list byte) :=
  if value <=? U32_MAX then Ok (output ++ be_bytes 4 value) else Err ResourceLimit.
Definition spatial_apply_error (error : SpatialError) : ApplyError :=
  match error with
  | ResourceLimit => ApplyError.ResourceLimit
  | VersionConflict | DuplicateRecord | SourceEventConflict => ApplyError.Conflict
  | _ => ApplyError.InvalidRequest
  end.
Definition spatial_checkpoint_error (error : SpatialError) : CheckpointStateError :=
  match error with
  | ResourceLimit => CheckpointStateError.ResourceLimit
  | UnsupportedProfile => CheckpointStateError.UnsupportedProfile
  | _ => CheckpointStateError.Invalid
  end.

(** ** Transactions *)
Record SpatialTransaction : Set := mk_spatial_transaction { stx_scope : NamespaceRef; stx_records : list SpatialRecord }.
Definition record_outside (scope : NamespaceRef) (record : SpatialRecord) : bool :=
  negb (bool_decide (ref_database (srecord_id record) = ns_database scope))
  || negb (bool_decide (ref_namespace (srecord_id record) = ns_namespace scope)).
Definition SpatialTransaction_new (scope : NamespaceRef) (records : list SpatialRecord) : sresult SpatialTransaction :=
  if (zlen records =? 0) || (MAX_SPATIAL_BATCH_RECORDS <? zlen records) then Err ResourceLimit
  else if existsb (record_outside scope) records then Err ScopeMismatch
  else Ok (mk_spatial_transaction scope records).
(** The payloads and the length of the transaction so far. *)
Definition encode_payload (acc : Z * list (list byte)) (record : SpatialRecord) : sresult (Z * list (list byte)) :=
  encoded ← encode_srecord record;
  total ← ok_or (value ← checked_add acc.1 4; checked_add value (zlen encoded)) ResourceLimit;
  if MAX_SPATIAL_TRANSACTION_BYTES <? total then Err ResourceLimit else Ok (total, acc.2 ++ [encoded]).
Definition push_payload (output encoded : list byte) : sresult (list byte) :=
  output ← push_u32 output (zlen encoded); Ok (output ++ encoded).
Definition encode_spatial_transaction (transaction : SpatialTransaction) : sresult (list byte) :=
  '(_, payloads) ← try_fold encode_payload (stx_records transaction) (8 + 16 + 16 + 4, []);
  output ← push_u32 (TRANSACTION_MAGIC ++ as_bytes (ns_database (stx_scope transaction)) ++ as_bytes (ns_namespace (stx_scope transaction)))
    (zlen (stx_records transaction));
  try_fold push_payload payloads output.
Fixpoint read_srecords (count : nat) (c : list byte) : sresult (list SpatialRecord * list byte) :=
  match count with
  | O => Ok ([], c)
  | S count =>
      '(length, c) ← sc_u32 c;
      '(bytes, c) ← sc_take length c;
      record ← decode_srecord bytes;
      '(records, c) ← read_srecords count c;
      Ok (record :: records, c)
  end.
Definition decode_spatial_transaction (input : list byte) : sresult SpatialTransaction :=
  if MAX_SPATIAL_TRANSACTION_BYTES <? zlen input then Err ResourceLimit
  else
    '(magic, c) ← sc_take 8 input;
    if negb (bool_decide (magic = TRANSACTION_MAGIC)) then Err InvalidEncoding
    else
      '(database, c) ← sc_take 16 c;
      '(namespace, c) ← sc_take 16 c;
      '(count, c) ← sc_u32 c;
      if (count =? 0) || (MAX_SPATIAL_BATCH_RECORDS <? count) || (zlen c / 4 <? count) then Err ResourceLimit
      else
        '(records, c) ← read_srecords (Z.to_nat count) c;
        if negb (zlen c =? 0) then Err InvalidEncoding
        else SpatialTransaction_new (NamespaceRef_new (from_bytes database) (from_bytes namespace)) records.

(** ** States *)

(** [SpatialSnapshot]; a [SpatialState] holds the current one. *)
Record SpatialState := mk_spatial_state {
  ss_scope : NamespaceRef;
  ss_revision : option CommitRevision;
  ss_catalog : SpatialCatalog
}.
Abbreviation SpatialSnapshot := SpatialState (only parsing).
Definition SpatialState_new (scope : NamespaceRef) : SpatialState := mk_spatial_state scope None SpatialCatalog_new.
Record PreparedSpatial := mk_prepared_spatial {
  psp_scope : NamespaceRef;
  psp_base_revision : option CommitRevision;
  psp_revision : CommitRevision;
  psp_catalog : PreparedCatalogBatch;
  psp_result_digest : list byte
}.
Definition inserted_record_count (prepared : PreparedSpatial) : Z := inserted_count (psp_catalog prepared).
Definition spatial_can_publish (s : SpatialState) (prepared : PreparedSpatial) : bool :=
  bool_decide (psp_scope prepared = ss_scope s) && bool_decide (psp_base_revision prepared = ss_revision s)
  && match psp_base_revision prepared with Some base => base <? psp_revision prepared | None => true end
  && catalog_can_publish (ss_catalog s) (psp_catalog prepared).
Definition spatial_publish (prepared : PreparedSpatial) (s : SpatialState) : option SpatialState :=
  if spatial_can_publish s prepared then
    '(catalog, _) ← publish_prepared (ss_catalog s) (psp_catalog prepared);
    Some (mk_spatial_state (ss_scope s) (Some (psp_revision prepared)) catalog)
  else None.

(** ** Digests *)
Definition record_ref_bytes (reference : RecordRef) : list byte :=
  as_bytes (ref_database reference) ++ as_bytes (ref_namespace reference) ++ as_bytes (ref_id reference).
Definition record_kind_byte (record : SpatialRecord) : byte :=
  match record with SWorld _ => x00 | SFrame _ => x01 | SGeometry _ => x02 | SObservation _ => x03 end.
Definition outcome_bytes (outcome : ObservationOutcome) : list byte :=
  match outcome with
  | Inserted id => x00 :: record_ref_bytes id
  | Duplicate existing => x01 :: record_ref_bytes existing
  end.
(** The outcome of an observation, from the outcomes left. *)
Definition next_outcome (record : SpatialRecord) (outcomes : list ObservationOutcome) : sresult (list byte * list ObservationOutcome) :=
  match record with
  | SObservation _ =>
      match outcomes with outcome :: outcomes => Ok (outcome_bytes outcome, outcomes) | [] => Err InvalidEncoding end
  | _ => Ok ([], outcomes)
  end.
Fixpoint effect_bytes (items : list (SpatialRecord * CommitRevision)) (outcomes : list ObservationOutcome) : sresult (list byte) :=
  match items with
  | [] => match outcomes with [] => Ok [] | _ => Err InvalidEncoding end
  | (stored, recorded) :: items =>
      '(outcome, outcomes) ← next_outcome stored outcomes;
      encoded ← encode_srecord stored;
      rest ← effect_bytes items outcomes;
      Ok ([record_kind_byte stored] ++ be_bytes 8 recorded ++ outcome ++ be_bytes 8 (zlen encoded) ++ encoded ++ rest)
  end.
Definition digest_entry (bytes : list byte) (recorded : CommitRevision) (record : SpatialRecord) : sresult (list byte) :=
  encoded ← encode_srecord record; Ok (bytes ++ be_bytes 8 recorded ++ be_bytes 8 (zlen encoded) ++ encoded).
Definition LOGICAL_STATE_DOMAIN : list byte := lit "USTE-SPATIAL-LOGICAL-STATE-V1" ++ [x00].

Section state.
Context (sha256 : list byte → list byte).
Definition digest_effects (revision : CommitRevision) (canonical_request : list byte) (records : list SpatialRecord)
    (effect_revisions : list CommitRevision) (outcomes : list ObservationOutcome) : sresult (list byte) :=
  if negb (length effect_revisions =? length records)%nat then Err InvalidEncoding
  else
    effects ← effect_bytes (zip records effect_revisions) outcomes;
    Ok (sha256 (lit "USTE-SPATIAL-RESULT-V1" ++ [x00] ++ be_bytes 8 revision ++ be_bytes 8 (zlen canonical_request) ++ canonical_request
                ++ be_bytes 8 (zlen records) ++ effects)).
Definition digest_snapshot (snapshot : SpatialSnapshot) (domain : list byte) : sresult (list byte) :=
  bytes ← visit_records digest_entry (ss_catalog snapshot)
    (domain ++ as_bytes (ns_database (ss_scope snapshot)) ++ as_bytes (ns_namespace (ss_scope snapshot))
     ++ be_bytes 8 (default 0 (ss_revision snapshot)) ++ be_bytes 8 (sc_entry_count (ss_catalog snapshot)));
  Ok (sha256 bytes).
Definition logical_state_digest (snapshot : SpatialSnapshot) : result CheckpointStateError (list byte) :=
  map_err spatial_checkpoint_error (digest_snapshot snapshot LOGICAL_STATE_DOMAIN).
Definition spatial_prepare {B} (s : SpatialState) (canonical_request : list byte) (blob_inventory : option B) (revision : CommitRevision) :
    result ApplyError PreparedSpatial :=
  match blob_inventory with
  | Some _ => Err ApplyError.InvalidRequest
  | None =>
      transaction ← map_err spatial_apply_error (decode_spatial_transaction canonical_request);
      if negb (bool_decide (stx_scope transaction = ss_scope s))
         || match ss_revision s with Some previous => revision <=? previous | None => false end
      then Err ApplyError.Conflict
      else
        catalog ← map_err spatial_apply_error (prepare_batch sha256 (ss_catalog s) revision (stx_records transaction));
        result_digest ← map_err spatial_apply_error
          (digest_effects revision canonical_request (stx_records transaction) (pb_effect_revisions catalog) (pb_outcomes catalog));
        Ok (mk_prepared_spatial (ss_scope s) (ss_revision s) revision catalog result_digest)
  end.

(** ** Checkpoints *)
Definition checkpoint_entry (output : list byte) (recorded : CommitRevision) (record : SpatialRecord) : result CheckpointStateError (list byte) :=
  encoded ← map_err spatial_checkpoint_error (encode_srecord record);
  additional ← ok_or (checked_add (8 + 4) (zlen encoded)) CheckpointStateError.ResourceLimit;
  next_length ← ok_or (checked_add (zlen output) additional) CheckpointStateError.ResourceLimit;
  if MAX_SPATIAL_CHECKPOINT_BYTES <? next_length then Err CheckpointStateError.ResourceLimit
  else
    output ← map_err spatial_checkpoint_error (push_u32 (output ++ be_bytes 8 recorded) (zlen encoded));
    Ok (output ++ encoded).
Definition encode_spatial_checkpoint (snapshot : SpatialSnapshot) : result CheckpointStateError (list byte) :=
  revision ← ok_or (ss_revision snapshot) CheckpointStateError.Invalid;
  let entry_count := sc_entry_count (ss_catalog snapshot) in
  if (entry_count =? 0) || (MAX_SPATIAL_CATALOG_ENTRIES <? entry_count) then Err CheckpointStateError.ResourceLimit
  else
    visit_records checkpoint_entry (ss_catalog snapshot)
      (CHECKPOINT_MAGIC ++ as_bytes (ns_database (ss_scope snapshot)) ++ as_bytes (ns_namespace (ss_scope snapshot))
       ++ be_bytes 8 revision ++ be_bytes 8 entry_count).
Abbreviation SpatialKey := (Z * RecordRef * Z)%type (only parsing).
(** One entry, above the previous key. *)
Definition read_entry (scope : NamespaceRef) (revision : CommitRevision) (previous_key : option SpatialKey) (c : list byte) :
    result CheckpointStateError (CommitRevision * SpatialRecord * list byte) :=
  '(recorded, c) ← map_err spatial_checkpoint_error (sc_u64 c);
  recorded ← map_err (λ _, CheckpointStateError.Invalid) (CommitRevision_new recorded);
  if revision <? recorded then Err CheckpointStateError.Invalid
  else
    '(length, c) ← map_err spatial_checkpoint_error (sc_u32 c);
    '(bytes, c) ← map_err spatial_checkpoint_error (sc_take length c);
    record ← map_err spatial_checkpoint_error (decode_srecord bytes);
    if record_outside scope record then Err CheckpointStateError.Invalid
    else if match previous_key with Some previous => bool_decide (key_le (order_key record) previous) | None => false end
    then Err CheckpointStateError.Invalid
    else Ok (recorded, record, c).
Fixpoint read_entries (scope : NamespaceRef) (revision : CommitRevision) (count : nat) (previous_key : option SpatialKey) (c : list byte) :
    result CheckpointStateError (list (CommitRevision * SpatialRecord) * list byte) :=
  match count with
  | O => Ok ([], c)
  | S count =>
      '(recorded, record, c) ← read_entry scope revision previous_key c;
      '(entries, c) ← read_entries scope revision count (Some (order_key record)) c;
      Ok ((recorded, record) :: entries, c)
  end.
Definition restore_key (entry : CommitRevision * SpatialRecord) : Z * SpatialKey := (entry.1, order_key entry.2).
Definition restore_le (a b : CommitRevision * SpatialRecord) : Prop := key_le (restore_key a) (restore_key b).
#[global] Instance restore_le_dec : RelDecision restore_le.
Proof. intros a b. unfold restore_le. apply _. Defined.
(** The records that follow with the same revision. *)
Fixpoint take_group (recorded : CommitRevision) (records : list SpatialRecord) (entries : list (CommitRevision * SpatialRecord)) :
    result CheckpointStateError (list SpatialRecord * list (CommitRevision * SpatialRecord)) :=
  match entries with
  | [] => Ok (records, [])
  | (next_revision, record) :: rest =>
      if next_revision =? recorded then
        if zlen records =? MAX_SPATIAL_BATCH_RECORDS then Err CheckpointStateError.ResourceLimit
        else take_group recorded (records ++ [record]) rest
      else Ok (records, entries)
  end.
(** A batch per revision; every iteration takes at least one entry, so as many
    iterations as there are entries are enough. *)
Fixpoint rebuild (fuel : nat) (entries : list (CommitRevision * SpatialRecord)) (catalog : SpatialCatalog) :
    option (result CheckpointStateError SpatialCatalog) :=
  match entries, fuel with
  | [], _ => Some (Ok catalog)
  | _, O => None
  | (recorded, first) :: entries, S fuel =>
      match take_group recorded [first] entries with
      | Err error => Some (Err error)
      | Ok (records, entries) =>
          match map_err spatial_checkpoint_error (prepare_batch sha256 catalog recorded records) with
          | Err error => Some (Err error)
          | Ok prepared => '(catalog, _) ← publish_prepared catalog prepared; rebuild fuel entries catalog
          end
      end
  end.
Definition read_checkpoint (scope : NamespaceRef) (revision : CommitRevision) (encoded : list byte) :
    result CheckpointStateError (Z * list (CommitRevision * SpatialRecord)) :=
  if MAX_SPATIAL_CHECKPOINT_BYTES <? zlen encoded then Err CheckpointStateError.ResourceLimit
  else
    '(magic, c) ← map_err spatial_checkpoint_error (sc_take 8 encoded);
    if negb (bool_decide (magic = CHECKPOINT_MAGIC)) then Err CheckpointStateError.UnsupportedProfile
    else
      '(database, c) ← map_err spatial_checkpoint_error (sc_take 16 c);
      '(namespace, c) ← map_err spatial_checkpoint_error (sc_take 16 c);
      if negb (bool_decide (NamespaceRef_new (from_bytes database) (from_bytes namespace) = scope)) then Err CheckpointStateError.Invalid
      else
        '(stored, c) ← map_err spatial_checkpoint_error (sc_u64 c);
        if negb (stored =? revision) then Err CheckpointStateError.Invalid
        else
          '(count, c) ← map_err spatial_checkpoint_error (sc_u64 c);
          if (count =? 0) || (MAX_SPATIAL_CATALOG_ENTRIES <? count) || (zlen c / 12 <? count) then Err CheckpointStateError.ResourceLimit
          else
            '(entries, c) ← read_entries scope revision (Z.to_nat count) None c;
            if negb (zlen c =? 0) then Err CheckpointStateError.Invalid else Ok (count, entries).
Definition decode_spatial_checkpoint (scope : NamespaceRef) (revision : CommitRevision) (encoded : list byte) :
    option (result CheckpointStateError SpatialState) :=
  match read_checkpoint scope revision encoded with
  | Err error => Some (Err error)
  | Ok (count, entries) =>
      catalog ← rebuild (length entries) (merge_sort restore_le entries) SpatialCatalog_new;
      Some (catalog ← catalog;
            if negb (sc_entry_count catalog =? count) then Err CheckpointStateError.Invalid
            else Ok (mk_spatial_state scope (Some revision) catalog))
  end.
End state.
