(* ===== verification/SpatialDurable.v ===== *)
(** * Spatial transactions and checkpoints round-trip

    ** A catalog is determined by its records

    The records of a well-formed catalog, sorted by revision and canonical key,
    list each history in order.  Committing them again, a batch per revision, is
    accepted and rebuilds the catalog. *)
From S2P Require Import Prelude Ids Value Codec GraphCodec GraphState GraphCheckpoint TimeModel SpatialModel SpatialCodec SpatialCodecExact SpatialCatalog SpatialAdmit SpatialInvariant SpatialState.
Import SpatialError.

Abbreviation entry := (CommitRevision * SpatialRecord)%type (only parsing).

(** ** Sorted lists by position *)
Lemma StronglySorted_lookup_iff {A} (R : relation A) l :
  StronglySorted R l ↔ ∀ i j x y, (i < j)%nat → l !! i = Some x → l !! j = Some y → R x y.
Proof.
  split.
  - intros Hs i j x y Hij Hi Hj. rewrite <-(take_drop_middle _ _ _ Hi) in Hs. apply StronglySorted_app in Hs as (_ & _ & [Hs _]%StronglySorted_cons).
    rewrite Forall_forall in Hs. apply Hs. apply (list_elem_of_lookup_2 _ (j - S i)). rewrite lookup_drop. by replace (S i + (j - S i))%nat with j by lia.
  - induction l as [|a l IH]; intros Hl; [constructor|]. constructor.
    + apply IH. intros i j x y Hij Hi Hj. apply (Hl (S i) (S j) x y); [lia|done..].
    + apply Forall_forall. intros b [j Hj]%list_elem_of_lookup_1. by apply (Hl 0%nat (S j)); [lia|..].
Qed.

Lemma StronglySorted_omap {A B} (R : relation A) (R' : relation B) (f : A → option B) l :
  (∀ a b x y, R a b → f a = Some x → f b = Some y → R' x y) → StronglySorted R l → StronglySorted R' (omap f l).
Proof.
  intros Hf. induction 1 as [|a l Hl IH Ha]; [constructor|]. cbn. destruct (f a) as [x|] eqn:Hx; [|done]. constructor; [done|].
  apply Forall_forall. intros y (b & Hb & Hy)%list_elem_of_omap. rewrite Forall_forall in Ha. by eapply Hf; [apply Ha|..].
Qed.
(** The order of restoring: by revision, then by canonical key. *)
Lemma restore_le_cases a b : restore_le a b → a.1 < b.1 ∨ (a.1 = b.1 ∧ key_le (order_key a.2) (order_key b.2)).
Proof.
  unfold restore_le, restore_key, key_le at 1, lexico, prod_lexico. cbn. unfold lexico at 1, Z_lexico at 1. intros Hn.
  destruct (Z.lt_trichotomy a.1 b.1) as [|[Heq|]]; [by left| |tauto]. right. split; [done|]. intros Hk. apply Hn. right. by split.
Qed.

(** ** Histories of a list of records *)
Section histories.
Context {T : Type} `{HasVersion T} (record : T → SpatialRecord) (project : SpatialRecord → option T) (idf : T → RecordRef) (k : Z).
Context (project_record : ∀ v, project (record v) = Some v) (record_project : ∀ r v, project r = Some v → r = record v)
  (key_record : ∀ v, order_key (record v) = (k, idf v, version_of v)).
Definition select (id : RecordRef) (e : entry) : option (HistoryEntry T) :=
  v ← project e.2; if decide (idf v = id) then Some (mk_entry e.1 v) else None.
Definition history_of (id : RecordRef) (l : list entry) : list (HistoryEntry T) := omap (select id) l.
Lemma history_of_app id l l' : history_of id (l ++ l') = history_of id l ++ history_of id l'.
Proof. apply omap_app. Qed.
Lemma elem_of_history id l e : e ∈ history_of id l ↔ (he_revision e, record (he_value e)) ∈ l ∧ idf (he_value e) = id.
Proof.
  unfold history_of, select. rewrite list_elem_of_omap. split.
  - intros ([r x] & Hin & (v & Hv & Hd)%bind_Some). case_decide; [|done]. injection Hd as <-. cbn in *. apply record_project in Hv as ->. done.
  - intros [Hin Hid]. eexists. split; [done|]. cbn. rewrite project_record. cbn. rewrite decide_True by done. by destruct e.
Qed.
Lemma history_foreign id l : Forall (λ e, project e.2 = None) l → history_of id l = [].
Proof. induction 1 as [|e l He _ IH]; [done|]. cbn. unfold select at 1. by rewrite He. Qed.
Lemma history_own id es : Forall (λ e, idf (he_value e) = id) es → history_of id (entry_of record <$> es) = es.
Proof.
  induction 1 as [|[r v] es He _ IH]; [done|]. cbn in *. unfold select at 1. cbn. rewrite project_record. cbn. rewrite decide_True by done.
  unfold history_of in IH. by rewrite IH.
Qed.
Lemma history_other id es : Forall (λ e, idf (he_value e) ≠ id) es → history_of id (entry_of record <$> es) = [].
Proof.
  induction 1 as [|[r v] es He _ IH]; [done|]. cbn in *. unfold select at 1. cbn. rewrite project_record. cbn. rewrite decide_False by done. apply IH.
Qed.
Lemma history_of_bind id (l : list (list (HistoryEntry T))) :
  history_of id (l ≫= λ es, entry_of record <$> es) = l ≫= λ es, history_of id (entry_of record <$> es).
Proof. induction l as [|es l IH]; [done|]. rewrite !bind_cons, history_of_app. by rewrite IH. Qed.
Lemma history_of_histories id (m : Histories T) : (∀ id es, m !! id = Some es → Forall (λ e, idf (he_value e) = id) es) →
  history_of id (histories_records record m) ≡ₚ default [] (m !! id).
Proof.
  intros Hm. unfold history_of. rewrite histories_records_perm. fold (history_of id ((map_to_list m).*2 ≫= λ es, entry_of record <$> es)).
  rewrite history_of_bind.
  assert (∀ l : list (RecordRef * list (HistoryEntry T)), (∀ p, p ∈ l → p.1 ≠ id ∧ Forall (λ e, idf (he_value e) = p.1) p.2) →
    (l.*2 ≫= λ es, history_of id (entry_of record <$> es)) = []) as Hnone.
  { induction l as [|[id' es] l IH]; intros Hl; [done|]. rewrite fmap_cons, bind_cons, IH, app_nil_r by (intros; apply Hl; by right).
    destruct (Hl (id', es) ltac:(by left)) as [Hne Hes]. apply history_other. cbn in *. apply (Forall_impl _ _ _ Hes). congruence. }
  destruct (m !! id) as [es|] eqn:Hes; cbn [default from_option].
  - rewrite <-(map_to_list_delete m id es Hes), fmap_cons, bind_cons, Hnone, app_nil_r, history_own; [done|by apply Hm|].
    intros [id' es'] Hin%elem_of_map_to_list. apply lookup_delete_Some in Hin as [Hne Hin]. cbn. split; [done|by apply Hm].
  - rewrite Hnone; [done|]. intros [id' es'] Hin%elem_of_map_to_list. cbn. split; [congruence|by apply Hm].
Qed.

(** A permutation of a history that is sorted by revision and version is it. *)
Lemma sorted_history_eq (h es : list (HistoryEntry T)) : h ≡ₚ es → indexed es →
  StronglySorted (λ a b, he_revision a ≤ he_revision b) es →
  StronglySorted (λ a b, he_revision a < he_revision b ∨ (he_revision a = he_revision b ∧ version_of (he_value a) ≤ version_of (he_value b))) h →
  h = es.
Proof.
  intros Hp Hi Hs Hh. set (ver := λ e : HistoryEntry T, version_of (he_value e)).
  assert (∀ a b, a ∈ es → b ∈ es → he_revision a < he_revision b → ver a ≤ ver b) as Hmono.
  { intros a b [i Ha]%list_elem_of_lookup_1 [j Hb]%list_elem_of_lookup_1 Hlt. pose proof (Hi _ _ Ha). pose proof (Hi _ _ Hb). unfold ver.
    destruct (decide (j < i)%nat) as [Hji|]; [|lia]. pose proof (proj1 (StronglySorted_lookup_iff _ _) Hs j i b a Hji Hb Ha). cbn in *. lia. }
  apply (StronglySorted_unique_strong (λ a b, ver a ≤ ver b)); [| | |done].
  - intros a b Ha Hb Hab Hba. rewrite Hp in Ha. apply list_elem_of_lookup_1 in Ha as [i Ha], Hb as [j Hb].
    pose proof (Hi _ _ Ha). pose proof (Hi _ _ Hb). unfold ver in *. assert (i = j) as -> by lia. congruence.
  - assert (∀ e, e ∈ h → e ∈ es) as Hsub by (intros e; by rewrite Hp). apply StronglySorted_lookup_iff. intros i j a b Hij Ha Hb.
    destruct (proj1 (StronglySorted_lookup_iff _ _) Hh i j a b Hij Ha Hb) as [Hlt|[_ Hle]]; [|done].
    apply Hmono; [by eapply Hsub, list_elem_of_lookup_2..|done].
  - apply StronglySorted_lookup_iff. intros i j a b Hij Ha Hb. pose proof (Hi _ _ Ha). pose proof (Hi _ _ Hb). unfold ver. lia.
Qed.
Lemma key_le_version id (v w : T) : idf v = id → idf w = id → key_le (order_key (record v)) (order_key (record w)) → version_of v ≤ version_of w.
Proof.
  intros Hv Hw. rewrite !key_record, Hv, Hw. unfold key_le. intros Hn. destruct (decide (version_of w < version_of v)) as [Hlt|]; [|lia].
  exfalso. apply Hn. right. split; [done|]. exact Hlt.
Qed.
Lemma history_sorted id l : StronglySorted restore_le l →
  StronglySorted (λ a b, he_revision a < he_revision b ∨ (he_revision a = he_revision b ∧ version_of (he_value a) ≤ version_of (he_value b)))
    (history_of id l).
Proof.
  apply StronglySorted_omap. intros [r x] [q y] a b Hle (v & Hv & Ha)%bind_Some (w & Hw & Hb)%bind_Some. cbn in Hv, Hw.
  apply record_project in Hv as ->, Hw as ->. do 2 (case_decide; [|done]). injection Ha as <-. injection Hb as <-. cbn.
  apply restore_le_cases in Hle. cbn in Hle. destruct Hle as [|[? Hk]]; [by left|right]. split; [done|]. by eapply key_le_version.
Qed.
(** The sorted records list each history as the catalog has it. *)
Lemma history_restored id l (m : Histories T) follows (foreign : list entry) :
  (∀ id es, m !! id = Some es → es ≠ [] ∧ chained idf follows id es) → Forall (λ e, project e.2 = None) foreign →
  l ≡ₚ histories_records record m ++ foreign → StronglySorted restore_le l → history_of id l = default [] (m !! id).
Proof.
  intros Hm Hf Hp Hs.
  assert (∀ id es, m !! id = Some es → Forall (λ e, idf (he_value e) = id) es) as Hids.
  { intros id' es Hes. apply Forall_lookup. intros i e He. destruct (Hm _ _ Hes) as [_ Hc]. by apply (chained_at _ _ _ _ _ _ Hc He). }
  assert (history_of id l ≡ₚ default [] (m !! id)) as Hperm.
  { unfold history_of. rewrite Hp. fold (history_of id (histories_records record m ++ foreign)).
    rewrite history_of_app, (history_foreign _ foreign), app_nil_r by done. by apply history_of_histories. }
  destruct (m !! id) as [es|] eqn:Hes; cbn [default from_option] in *; [|by apply Permutation_nil_r in Hperm].
  destruct (Hm _ _ Hes) as [_ Hc]. apply sorted_history_eq; [done|by eapply chained_indexed|by eapply chained_sorted|by apply history_sorted].
Qed.
End histories.

(** ** The histories of a catalog *)
Definition as_world (r : SpatialRecord) : option WorldDefinition := match r with SWorld v => Some v | _ => None end.
Definition as_frame (r : SpatialRecord) : option FrameDefinition := match r with SFrame v => Some v | _ => None end.
Definition as_geometry (r : SpatialRecord) : option GeometryVersion := match r with SGeometry v => Some v | _ => None end.
Definition as_observation (r : SpatialRecord) : option PositionObservation := match r with SObservation v => Some v | _ => None end.
Abbreviation worlds_of := (history_of as_world w_id).
Abbreviation frames_of := (history_of as_frame f_id).
Abbreviation geometries_of := (history_of as_geometry g_id).
Abbreviation observations_of := (history_of as_observation o_id).
Lemma histories_foreign {T U} (record : T → SpatialRecord) (m : Histories T) (project : SpatialRecord → option U) :
  (∀ v, project (record v) = None) → Forall (λ e, project e.2 = None) (histories_records record m).
Proof.
  intros Hp. apply Forall_forall. intros e (es & He & _)%list_elem_of_bind. apply list_elem_of_fmap in He as (x & -> & _). apply Hp.
Qed.
Lemma observations_foreign {U} (l : list (HistoryEntry PositionObservation)) (project : SpatialRecord → option U) :
  (∀ v, project (SObservation v) = None) → Forall (λ e, project e.2 = None) (entry_of SObservation <$> l).
Proof. intros Hp. apply Forall_fmap, Forall_forall. intros e _. apply Hp. Qed.
Lemma observations_histories (m : gmap RecordRef (HistoryEntry PositionObservation)) :
  entry_of SObservation <$> btree_values m ≡ₚ histories_records SObservation ((λ e, [e]) <$> m).
Proof.
  rewrite histories_records_perm, map_to_list_fmap. unfold btree_values. rewrite btree_entries_Permutation.
  induction (map_to_list m) as [|[id e] l IH]; [done|]. cbn. by rewrite IH.
Qed.
Section catalog.
Context (sha256 : list byte → list byte).
Record lists_catalog (l : list entry) (c : SpatialCatalog) : Prop := {
  lc_worlds id : worlds_of id l = default [] (sc_worlds c !! id);
  lc_frames id : frames_of id l = default [] (sc_frames c !! id);
  lc_geometries id : geometries_of id l = default [] (sc_geometries c !! id);
  lc_observations id : observations_of id l = option_list (sc_observations c !! id)
}.
Ltac foreign := repeat (apply Forall_app; split); first [by apply histories_foreign|by apply observations_foreign].
Lemma wf_lists bound c l : catalog_wf sha256 bound c → l ≡ₚ catalog_records c → StronglySorted restore_le l → lists_catalog l c.
Proof.
  intros Hw Hp Hs. unfold catalog_records in Hp. split; intros id.
  - eapply (history_restored SWorld as_world w_id 0); [done|by intros [] ? [= <-]|done|apply Hw| |exact Hp|done]. foreign.
  - eapply (history_restored SFrame as_frame f_id 1); [done|by intros [] ? [= <-]|done|apply Hw| |rewrite Hp; apply Permutation_app_swap_app|done]. foreign.
  - eapply (history_restored SGeometry as_geometry g_id 2); [done|by intros [] ? [= <-]|done|apply Hw|
      |rewrite Hp, (assoc_L (++)); apply Permutation_app_swap_app|done]. foreign.
  - assert (observations_of id l ≡ₚ option_list (sc_observations c !! id)) as Hperm.
    { unfold history_of. rewrite Hp, observations_histories. rewrite !(assoc_L (++)), omap_app.
      rewrite <-(assoc_L (++)). fold (observations_of id (histories_records SWorld (sc_worlds c) ++ histories_records SFrame (sc_frames c)
        ++ histories_records SGeometry (sc_geometries c))).
      rewrite (history_foreign as_observation o_id) by foreign. cbn [app].
      fold (observations_of id (histories_records SObservation ((λ e, [e]) <$> sc_observations c))).
      rewrite (history_of_histories SObservation as_observation o_id); [|done|].
      - rewrite lookup_fmap. by destruct (sc_observations c !! id).
      - intros id' es. rewrite lookup_fmap. intros (e & He & ->)%fmap_Some. constructor; [|constructor]. by apply Hw. }
    destruct (sc_observations c !! id); cbn in *; [by apply Permutation_singleton_r in Hperm|by apply Permutation_nil_r in Hperm].
Qed.
Lemma default_eq {T} (o o' : option (list T)) : o ≠ Some [] → o' ≠ Some [] → default [] o = default [] o' → o = o'.
Proof. destruct o, o'; cbn; naive_solver. Qed.
Lemma option_list_inj {T} (o o' : option T) : option_list o = option_list o' → o = o'.
Proof. destruct o, o'; cbn; naive_solver. Qed.
(** Two catalogs with the same records differ at most in their last revision. *)
Lemma wf_unique b b' c d : catalog_wf sha256 b c → catalog_wf sha256 b' d → catalog_records c ≡ₚ catalog_records d →
  d = mk_catalog (sc_worlds c) (sc_frames c) (sc_geometries c) (sc_observations c) (sc_source_events c) (sc_last_revision d)
        (sc_entry_count c) (sc_logical_bytes c) (sc_content_anchor c).
Proof.
  intros Hc Hd Hp. set (l := merge_sort restore_le (catalog_records c)).
  assert (StronglySorted restore_le l) as Hs.
  { apply StronglySorted_merge_sort; [intros x y z; unfold restore_le; by etrans|intros x y; unfold restore_le; apply (total key_le)]. }
  pose proof (wf_lists _ c l Hc (merge_sort_Permutation _ _) Hs) as Lc.
  assert (lists_catalog l d) as Ld by (eapply wf_lists; [done|by rewrite <-Hp; apply merge_sort_Permutation|done]).
  assert (sc_observations d = sc_observations c) as Hobs.
  { apply map_eq. intros id. apply option_list_inj. by rewrite <-(lc_observations _ _ Lc), <-(lc_observations _ _ Ld). }
  assert (∀ T (m m' : Histories T), (∀ id es, m !! id = Some es → es ≠ []) → (∀ id es, m' !! id = Some es → es ≠ []) →
    (∀ id, default [] (m !! id) = default [] (m' !! id)) → m = m') as Hext.
  { intros T m m' Hm Hm' Heq. apply map_eq. intros id. apply default_eq; [intros Hn; by apply Hm in Hn|intros Hn; by apply Hm' in Hn|done]. }
  destruct d as [dw df dg do de dl dn db da]. cbn in *. f_equal.
  - apply Hext; [intros ?? H%(cw_worlds _ _ _ Hd); by destruct H|intros ?? H%(cw_worlds _ _ _ Hc); by destruct H|].
    intros id. by rewrite <-(lc_worlds _ _ Lc), <-(lc_worlds _ _ Ld).
  - apply Hext; [intros ?? H%(cw_frames _ _ _ Hd); by destruct H|intros ?? H%(cw_frames _ _ _ Hc); by destruct H|].
    intros id. by rewrite <-(lc_frames _ _ Lc), <-(lc_frames _ _ Ld).
  - apply Hext; [intros ?? H%(cw_geometries _ _ _ Hd); by destruct H|intros ?? H%(cw_geometries _ _ _ Hc); by destruct H|].
    intros id. by rewrite <-(lc_geometries _ _ Lc), <-(lc_geometries _ _ Ld).
  - done.
  - apply map_eq. intros key. apply option_eq. intros id. split.
    + intros (e & He & <-)%(cw_events _ _ _ Hd). cbn in He. rewrite Hobs in He. by apply (cw_observations _ _ _ Hc).
    + intros (e & He & <-)%(cw_events _ _ _ Hc). rewrite <-Hobs in He. by apply (cw_observations _ _ _ Hd).
  - pose proof (cw_count _ _ _ Hd) as H. cbn in H. by rewrite H, (cw_count _ _ _ Hc), Hp.
  - pose proof (cw_bytes _ _ _ Hd) as H. cbn in H. by rewrite H, (cw_bytes _ _ _ Hc), Hp.
  - pose proof (cw_anchor _ _ _ Hd) as H. cbn in H. by rewrite H, (cw_anchor _ _ _ Hc), Hp.
Qed.

(** ** The next record is acceptable *)
Lemma next_version {T} `{HasVersion T} (idf : T → RecordRef) follows id (es h rest : list (HistoryEntry T)) r v :
  chained idf follows id es → h ++ mk_entry r v :: rest = es →
  check_next_value (he_value <$> last h) (version_of v) = Ok tt ∧ follows (he_value <$> last h) v = true.
Proof.
  intros Hc <-. assert ((h ++ mk_entry r v :: rest) !! length h = Some (mk_entry r v)) as Hl by by apply list_lookup_middle.
  destruct (chained_at _ _ _ _ _ _ Hc Hl) as (_ & Hn & Hf). by rewrite take_app_length in Hn, Hf.
Qed.
Lemma latest_default {T} (o : option (list (HistoryEntry T))) : latest o = he_value <$> last (default [] o).
Proof. by destruct o. Qed.
Lemma default_dom {T} (m : gmap RecordRef (list T)) id : default [] (m !! id) ≠ [] → id ∈ dom m.
Proof. intros Hne. apply elem_of_dom. destruct (m !! id); [by eexists|done]. Qed.
Section next.
Context (b b' : CommitRevision) (c d : SpatialCatalog) (P R : list entry) (r : CommitRevision) (x : SpatialRecord).
Context (Hc : catalog_wf sha256 b c) (Hd : catalog_wf sha256 b' d) (Lc : lists_catalog (P ++ (r, x) :: R) c) (Ld : lists_catalog P d).
Lemma prefix_doms : dom (sc_worlds d) ⊆ dom (sc_worlds c) ∧ dom (sc_frames d) ⊆ dom (sc_frames c)
  ∧ dom (sc_geometries d) ⊆ dom (sc_geometries c) ∧ dom (sc_observations d) ⊆ dom (sc_observations c).
Proof.
  split_and!; intros id Hin; [..|].
  - apply default_dom. rewrite <-(lc_worlds _ _ Lc), history_of_app, (lc_worlds _ _ Ld). apply elem_of_dom in Hin as [es Hes].
    rewrite Hes. apply (cw_worlds _ _ _ Hd) in Hes as [Hne _]. by destruct es.
  - apply default_dom. rewrite <-(lc_frames _ _ Lc), history_of_app, (lc_frames _ _ Ld). apply elem_of_dom in Hin as [es Hes].
    rewrite Hes. apply (cw_frames _ _ _ Hd) in Hes as [Hne _]. by destruct es.
  - apply default_dom. rewrite <-(lc_geometries _ _ Lc), history_of_app, (lc_geometries _ _ Ld). apply elem_of_dom in Hin as [es Hes].
    rewrite Hes. apply (cw_geometries _ _ _ Hd) in Hes as [Hne _]. by destruct es.
  - apply elem_of_dom in Hin as [e He]. pose proof (lc_observations _ _ Lc id) as Ho. rewrite history_of_app, (lc_observations _ _ Ld), He in Ho.
    apply elem_of_dom. destruct (sc_observations c !! id); [by eexists|done].
Qed.
Lemma next_outside id category : match category with
  | CategoryWorld => id ∈ dom (sc_worlds c) | CategoryFrame => id ∈ dom (sc_frames c)
  | CategoryGeometry => id ∈ dom (sc_geometries c) | CategoryObservation => id ∈ dom (sc_observations c) end → outside d id category.
Proof.
  destruct prefix_doms as (S1 & S2 & S3 & S4). pose proof (cw_disjoint _ _ _ Hc) as (D1 & D2 & D3 & D4 & D5 & D6). clear Hc Hd Lc Ld.
  intros Hin. destruct category; (split_and!; intros Hne); try done; intros Hin'; set_solver.
Qed.
Lemma next_acceptable : acceptable d x.
Proof.
  pose proof next_outside as Hout. destruct x as [v|v|v|v]; cbn [acceptable].
  - pose proof (lc_worlds _ _ Lc (w_id v)) as He. rewrite history_of_app, (lc_worlds _ _ Ld) in He. cbn in He. unfold select at 1 in He. cbn in He.
    rewrite decide_True in He by done. split; [apply Hout, default_dom; rewrite <-He; by destruct (default [] _)|]. rewrite latest_default.
    destruct (sc_worlds c !! w_id v) as [es|] eqn:Hes; [|by destruct (default [] (sc_worlds d !! _))].
    destruct (cw_worlds _ _ _ Hc _ _ Hes) as [_ Hch]. by eapply next_version.
  - pose proof (lc_frames _ _ Lc (f_id v)) as He. rewrite history_of_app, (lc_frames _ _ Ld) in He. cbn in He. unfold select at 1 in He. cbn in He.
    rewrite decide_True in He by done. split; [apply Hout, default_dom; rewrite <-He; by destruct (default [] _)|]. rewrite latest_default.
    destruct (sc_frames c !! f_id v) as [es|] eqn:Hes; [|by destruct (default [] (sc_frames d !! _))].
    destruct (cw_frames _ _ _ Hc _ _ Hes) as [_ Hch]. by eapply next_version.
  - pose proof (lc_geometries _ _ Lc (g_id v)) as He. rewrite history_of_app, (lc_geometries _ _ Ld) in He. cbn in He. unfold select at 1 in He. cbn in He.
    rewrite decide_True in He by done. split; [apply Hout, default_dom; rewrite <-He; by destruct (default [] _)|]. rewrite latest_default.
    destruct (sc_geometries c !! g_id v) as [es|] eqn:Hes; [|by destruct (default [] (sc_geometries d !! _))].
    destruct (cw_geometries _ _ _ Hc _ _ Hes) as [_ Hch]. by eapply next_version.
  - pose proof (lc_observations _ _ Lc (o_id v)) as He. rewrite history_of_app, (lc_observations _ _ Ld) in He. cbn in He. unfold select at 1 in He. cbn in He.
    rewrite decide_True in He by done.
    destruct (sc_observations c !! o_id v) as [e|] eqn:Hoc; [|by destruct (sc_observations d !! o_id v)].
    destruct (sc_observations d !! o_id v) as [e'|] eqn:Hod; [done|]. cbn in He. injection He as <-.
    split; [apply Hout, elem_of_dom; by eexists|]. split; [done|]. destruct (sc_source_events d !! o_key v) as [id|] eqn:Hev; [|done].
    exfalso. destruct (cw_events _ _ _ Hd _ _ Hev) as (e & Hid & Hkey).
    pose proof (lc_observations _ _ Lc id) as Ho. rewrite history_of_app, (lc_observations _ _ Ld), Hid in Ho. cbn in Ho.
    destruct (sc_observations c !! id) as [e0|] eqn:Hc0; [|done]. cbn in Ho. injection Ho as <- _.
    destruct (cw_observations _ _ _ Hc _ _ Hc0) as [_ H1]. destruct (cw_observations _ _ _ Hc _ _ Hoc) as [_ H2]. cbn in H2. congruence.
Qed.
End next.

(** ** Committing the records again *)
Lemma total_bytes_app l l' : total_bytes (l ++ l') = total_bytes l + total_bytes l'.
Proof. unfold total_bytes. induction l as [|e l IH]; cbn; [done|]. lia. Qed.
Lemma encoded_bytes_nonneg e : 0 ≤ encoded_bytes e.
Proof. unfold encoded_bytes, entry_bytes. destruct (encode_srecord e.2) as [b|]; [pose proof (zlen_nonneg b)|]; lia. Qed.
Lemma total_bytes_nonneg l : 0 ≤ total_bytes l.
Proof. unfold total_bytes. induction l as [|e l IH]; cbn; [done|]. pose proof (encoded_bytes_nonneg e). lia. Qed.
Lemma sorted_prefix l l' : StronglySorted restore_le (l ++ l') → StronglySorted restore_le l.
Proof. apply StronglySorted_app_1_l. Qed.
Section restore.
Context (c : SpatialCatalog) (L : list entry) (Hc : catalog_inv sha256 c) (HL : L ≡ₚ catalog_records c) (Hs : StronglySorted restore_le L).
(** The catalog rebuilt from a prefix of the sorted records. *)
Definition built (bound : CommitRevision) (P : list entry) (d : SpatialCatalog) : Prop := catalog_wf sha256 bound d ∧ catalog_records d ≡ₚ P.
Lemma built_lists bound P R d : built bound P d → P ++ R = L → lists_catalog P d.
Proof. intros [Hd HP] HPL. eapply wf_lists; [done|by rewrite HP|]. rewrite <-HPL in Hs. by eapply sorted_prefix. Qed.
Lemma whole_lists : lists_catalog L c.
Proof. eapply wf_lists; [apply Hc|done|done]. Qed.
Lemma retain_next r P x R d : built r P d → P ++ (r, x) :: R = L → ∃ d', retain sha256 r d x = Ok d'.
Proof.
  intros [Hd HP] HPL. pose proof (ci_wf _ _ Hc) as Hw.
  assert ((r, x) ∈ catalog_records c) as Hin by (rewrite <-HL, <-HPL; apply elem_of_app; right; by left).
  pose proof (cw_encodes _ _ _ Hw) as He. rewrite Forall_forall in He. apply He in Hin. cbn in Hin.
  destruct (encode_srecord x) as [encoded|] eqn:Hx; [|done]. unfold retain. rewrite Hx, result_bind_Ok.
  pose proof (cw_limits _ _ _ Hw) as [L1 L2]. rewrite (cw_count _ _ _ Hw), (cw_bytes _ _ _ Hw), <-HL, <-HPL, zlen_app, zlen_cons, total_bytes_app in *.
  pose proof (zlen_nonneg R). pose proof (total_bytes_nonneg R) as HR.
  change (total_bytes ((r, x) :: R)) with (total_bytes R + encoded_bytes (r, x)) in L2. unfold encoded_bytes in L2. cbn in L2. rewrite Hx in L2.
  assert (sc_entry_count d = zlen P) as -> by (by rewrite (cw_count _ _ _ Hd), HP).
  assert (sc_logical_bytes d = total_bytes P) as -> by (by rewrite (cw_bytes _ _ _ Hd), HP).
  rewrite !(proj2 (Z.ltb_ge _ _)) by lia. by eexists.
Qed.
Lemma admit_group r rs P R a : 1 ≤ r → built r P (ad_catalog a) → P ++ stamp r rs ++ R = L →
  ∃ a', try_fold (admit_record sha256 r) rs a = Ok a' ∧ built r (P ++ stamp r rs) (ad_catalog a') ∧ sc_last_revision (ad_catalog a') = sc_last_revision (ad_catalog a).
Proof.
  intros Hr. revert P a. induction rs as [|x rs IH]; intros P a Hb HPL; [exists a; by rewrite app_nil_r|].
  cbn [stamp fmap list_fmap app] in HPL. destruct (retain_next _ _ _ _ _ Hb HPL) as [d' Hret].
  assert (acceptable (ad_catalog a) x) as Hacc.
  { eapply next_acceptable; [apply Hc|apply Hb| |by eapply built_lists]. rewrite HPL. apply whole_lists. }
  cbn [try_fold]. rewrite (admit_acceptable _ r) by (done || apply Hb). unfold keep. rewrite Hret, !result_bind_Ok.
  pose proof (retain_extends _ _ _ _ _ Hacc Hret) as Hex.
  destruct (IH (P ++ [(r, x)]) (mk_admission d' (ad_outcomes a ++ kept_outcomes x) (ad_effects a ++ [r]))) as (a' & Ha & Hb' & Hl).
  - split; [by eapply retain_wf; [| apply Hb | |]|]. cbn. rewrite (ex_records _ _ _ _ Hex). destruct Hb as [_ HP]. rewrite HP. cbn. by rewrite Permutation_cons_append.
  - by rewrite <-(assoc_L _).
  - exists a'. split; [done|]. rewrite <-(assoc_L _) in Hb'. split; [done|]. rewrite Hl. apply Hex.
Qed.
(** The rebuilt catalog is the original as of the revision it has reached. *)
Lemma history_cut {T} (project : SpatialRecord → option T) idf id r (P R : list entry) :
  Forall (λ e, e.1 ≤ r) P → Forall (λ e, r < e.1) R → history_of project idf id P = cut r (history_of project idf id (P ++ R)).
Proof.
  intros HP HR. rewrite history_of_app. unfold cut. rewrite filter_app.
  assert (∀ l, Forall (λ e, e.1 ≤ r) l → Forall (λ e, he_revision e ≤ r) (history_of project idf id l)) as H1.
  { intros l Hl. apply Forall_forall. intros e (y & Hy & Hsel)%list_elem_of_omap. rewrite Forall_forall in Hl. apply Hl in Hy.
    apply bind_Some in Hsel as (v & _ & Hsel). case_decide; [|done]. by injection Hsel as <-. }
  assert (∀ l, Forall (λ e, r < e.1) l → Forall (λ e, r < he_revision e) (history_of project idf id l)) as H2.
  { intros l Hl. apply Forall_forall. intros e (y & Hy & Hsel)%list_elem_of_omap. rewrite Forall_forall in Hl. apply Hl in Hy.
    apply bind_Some in Hsel as (v & _ & Hsel). case_decide; [|done]. by injection Hsel as <-. }
  specialize (H1 _ HP). specialize (H2 _ HR).
  fold (cut r (history_of project idf id P)). rewrite (cut_all r _ H1).
  assert (filter (λ e, he_revision e ≤ r) (history_of project idf id R) = []) as ->; [|by rewrite app_nil_r].
  induction H2 as [|e l He _ IH]; [done|]. rewrite filter_cons_False by lia. done.
Qed.
Lemma built_as_of r P R d : built r P d → P ++ R = L → Forall (λ e, e.1 ≤ r) P → Forall (λ e, r < e.1) R → same_maps (as_of r c) d.
Proof.
  intros Hb HPL HP HR. pose proof (built_lists _ _ _ _ Hb HPL) as Ld. pose proof whole_lists as Lc. destruct Hb as [Hd _].
  assert (∀ T (m : Histories T) (m' : Histories T), (∀ id es, m' !! id = Some es → es ≠ []) →
    (∀ id, default [] (m' !! id) = cut r (default [] (m !! id))) → omap (history_as_of r) m = m') as Hext.
  { intros T m m' Hne Heq. apply map_eq. intros id. rewrite lookup_omap. specialize (Heq id). unfold history_as_of.
    destruct (m' !! id) as [es|] eqn:Hes, (m !! id) as [es0|]; cbn [default from_option mbind option_bind Datatypes.id] in *; [|by apply Hne in Hes| |done].
    - rewrite <-Heq. apply Hne in Hes. by destruct es.
    - by rewrite <-Heq. }
  rewrite <-HPL in Lc. split_and!; cbn.
  - apply Hext; [intros ?? H%(cw_worlds _ _ _ Hd); by destruct H|]. intros id. rewrite <-(lc_worlds _ _ Lc), <-(lc_worlds _ _ Ld). by apply history_cut.
  - apply Hext; [intros ?? H%(cw_frames _ _ _ Hd); by destruct H|]. intros id. rewrite <-(lc_frames _ _ Lc), <-(lc_frames _ _ Ld). by apply history_cut.
  - apply Hext; [intros ?? H%(cw_geometries _ _ _ Hd); by destruct H|]. intros id. rewrite <-(lc_geometries _ _ Lc), <-(lc_geometries _ _ Ld). by apply history_cut.
  - apply map_eq. intros id. apply option_list_inj. rewrite <-(lc_observations _ _ Ld), (history_cut _ _ _ r P R HP HR), (lc_observations _ _ Lc).
    rewrite map_lookup_filter. destruct (sc_observations c !! id) as [e|]; [|done]. cbn [mbind option_bind snd]. unfold cut. change (option_list (Some e)) with [e].
    destruct (decide (he_revision e ≤ r)); [rewrite filter_cons_True, option_guard_True by done|rewrite filter_cons_False, option_guard_False by done]; done.
Qed.

(** *** Groups *)
Lemma take_group_split r acc rs R : Forall (λ e, r < e.1) R → zlen acc + zlen rs ≤ MAX_SPATIAL_BATCH_RECORDS →
  take_group r acc (stamp r rs ++ R) = Ok (acc ++ rs, R).
Proof.
  intros HR. revert acc. induction rs as [|x rs IH]; intros acc Hlen.
  - cbn [stamp fmap list_fmap app]. rewrite app_nil_r. destruct R as [|[q y] R]; [done|]. cbn [take_group].
    apply Forall_cons in HR as [Hq _]. cbn in Hq. by rewrite (proj2 (Z.eqb_neq _ _)) by lia.
  - cbn [stamp fmap list_fmap app take_group]. rewrite Z.eqb_refl, zlen_cons in *. pose proof (zlen_nonneg rs).
    rewrite (proj2 (Z.eqb_neq _ _)) by lia. fold (stamp r rs). rewrite IH by (rewrite zlen_app, zlen_cons, zlen_nil; lia). by rewrite <-(assoc_L _).
Qed.
Lemma restore_le_revision a b : restore_le a b → a.1 ≤ b.1.
Proof. intros [?|[? _]]%restore_le_cases; lia. Qed.
Lemma split_revision r l : Forall (λ e, r ≤ e.1) l → StronglySorted restore_le l → ∃ rs R, l = stamp r rs ++ R ∧ Forall (λ e, r < e.1) R.
Proof.
  intros Hr Hl. induction Hl as [|[q x] l Hl IH Hall]; [by exists [], []|]. apply Forall_cons in Hr as [Hq Hr]. cbn in Hq.
  destruct (decide (q = r)) as [->|Hne].
  - destruct (IH Hr) as (rs & R & -> & HR). by exists (x :: rs), R.
  - exists [], ((q, x) :: l). split; [done|]. constructor; [cbn; lia|]. apply (Forall_impl _ _ _ Hall). intros e He%restore_le_revision. cbn in He. lia.
Qed.
Lemma group_size r rs P R : P ++ stamp r rs ++ R = L → zlen rs ≤ MAX_SPATIAL_BATCH_RECORDS.
Proof.
  intros HPL. pose proof (ci_batches _ _ Hc r) as Hb. rewrite <-HL, <-HPL, !filter_app, filter_stamp, decide_True, !zlen_app in Hb by done.
  unfold stamp in Hb at 1. unfold zlen in *. rewrite length_fmap in Hb. lia.
Qed.
Lemma in_original e : e ∈ L → 1 ≤ e.1 ∧ catalog_check (as_of e.1 c) e.1 e.2 = Ok tt.
Proof.
  rewrite HL. intros Hin. split; [|by destruct e; apply Hc]. pose proof (cw_revisions _ _ _ (ci_wf _ _ Hc)) as Hr. rewrite Forall_forall in Hr.
  apply Hr in Hin. lia.
Qed.
(** One batch of the rebuild. *)
Lemma admit_rebuilt r rs P R d : rs ≠ [] → P ++ stamp r rs ++ R = L → Forall (λ e, e.1 < r) P → Forall (λ e, r < e.1) R →
  built (known d) P d → sc_last_revision d = fst <$> last P →
  ∃ d' outcomes effects, admit_batch sha256 r d rs = Ok (mk_admission d' outcomes effects)
    ∧ built r (P ++ stamp r rs) d' ∧ sc_last_revision d' = Some r.
Proof.
  intros Hne HPL HP HR Hb Hlast.
  assert (∀ x, x ∈ rs → 1 ≤ r ∧ catalog_check (as_of r c) r x = Ok tt) as Hin.
  { intros x Hx. apply (in_original (r, x)). rewrite <-HPL, !elem_of_app. right. left. apply list_elem_of_fmap. by exists x. }
  assert (1 ≤ r) as Hr by (destruct rs as [|x rs']; [done|]; by apply (Hin x); left).
  assert (match sc_last_revision d with Some l => l < r | None => True end) as Hl.
  { rewrite Hlast. destruct (last P) as [e|] eqn:He; [|done]. cbn. apply last_Some_elem_of in He. rewrite Forall_forall in HP. by apply HP. }
  assert (known d ≤ r) as Hk by (unfold known; destruct (sc_last_revision d); cbn; lia).
  destruct (admit_group r rs P R (mk_admission d [] [])) as (a & Ha & Hb' & Hla); [done|destruct Hb; split; [by eapply catalog_wf_mono|done]|done|].
  exists (committed r (ad_catalog a)), (ad_outcomes a), (ad_effects a). cbn in Hla. split_and!; [|destruct Hb' as [Hw Hp]; split; [by destruct Hw; split|done]|done].
  unfold admit_batch. rewrite (proj2 (Z.ltb_ge _ _)) by (by eapply group_size).
  assert ((zlen rs =? 0) = false) as -> by (destruct rs; [done|]; rewrite zlen_cons; pose proof (zlen_nonneg rs); lia).
  assert (match sc_last_revision d with Some previous => r <=? previous | None => false end = false) as ->.
  { destruct (sc_last_revision d); [|done]. by apply Z.leb_gt. }
  cbn [orb]. rewrite Ha, result_bind_Ok.
  assert (same_maps (as_of r c) (ad_catalog a)) as Hmaps.
  { eapply built_as_of; [exact Hb'|by rewrite <-(assoc_L _)| |done]. apply Forall_app. split; [apply (Forall_impl _ _ _ HP); lia|].
    apply Forall_fmap, Forall_forall. cbn. lia. }
  rewrite (proj2 (try_each_Ok _ _)); [done|]. apply Forall_forall. intros x Hx. rewrite <-(catalog_check_maps _ _ _ _ Hmaps). by apply Hin.
Qed.
Lemma built_prepares r rs P d d' outcomes effects : built (known d) P d → admit_batch sha256 r d rs = Ok (mk_admission d' outcomes effects) →
  ∃ prepared, prepare_batch sha256 d r rs = Ok prepared ∧ publish_prepared d prepared = Some (d', outcomes).
Proof.
  intros [Hd _] Ha. pose proof (prepare_admits sha256 d r rs) as Hp. rewrite Ha in Hp.
  destruct (prepare_batch _ d r rs) as [prepared|]; [|destruct Hp; [|apply Hd]].
  - exists prepared. split; [done|]. apply Hp; [|apply Hd]. intros id es Hes. apply (cw_frames _ _ _ Hd) in Hes as [_ Hch]. by eapply chained_indexed.
  - intros id es Hes. apply (cw_frames _ _ _ Hd) in Hes as [_ Hch]. by eapply chained_indexed.
Qed.
Lemma rebuild_restores fuel P R d : (length R ≤ fuel)%nat → P ++ R = L → (∀ e e', e ∈ P → e' ∈ R → e.1 < e'.1) →
  built (known d) P d → sc_last_revision d = fst <$> last P →
  ∃ d', rebuild sha256 fuel R d = Some (Ok d') ∧ built (known d') L d' ∧ sc_last_revision d' = fst <$> last L.
Proof.
  revert P R d. induction fuel as [|fuel IH]; intros P R d Hfuel HPL Hlt Hb Hlast.
  { destruct R; [|cbn in Hfuel; lia]. rewrite app_nil_r in HPL. subst P. exists d. by split_and!. }
  destruct R as [|[r x] R]; [rewrite app_nil_r in HPL; subst P; exists d; by split_and!|]. cbn [rebuild].
  assert (StronglySorted restore_le ((r, x) :: R)) as [Hx HsR]%StronglySorted_cons by (rewrite <-HPL in Hs; by apply StronglySorted_app_1_r in Hs).
  destruct (split_revision r R) as (rs & R' & -> & HR'); [apply (Forall_impl _ _ _ Hx); intros e He%restore_le_revision; done|done|].
  change ((r, x) :: stamp r rs ++ R') with (stamp r (x :: rs) ++ R') in *.
  assert (Forall (λ e, e.1 < r) P) as HP by (apply Forall_forall; intros e He; apply (Hlt e (r, x) He); by left).
  pose proof (group_size _ _ _ _ HPL) as Hsize. rewrite take_group_split by (done || (rewrite ?zlen_cons, ?zlen_nil in *; lia)). cbn [app].
  destruct (admit_rebuilt r (x :: rs) P R' d) as (d' & outcomes & effects & Ha & Hb' & Hl'); try done.
  destruct (built_prepares _ _ _ _ _ _ _ Hb Ha) as (prepared & Hprep & Hpub). rewrite Hprep. cbn [map_err]. rewrite Hpub. cbn [mbind option_bind].
  apply (IH (P ++ stamp r (x :: rs))).
  - cbn in Hfuel. rewrite length_app in Hfuel. lia.
  - by rewrite <-(assoc_L _).
  - intros e e' He He'. rewrite Forall_forall in HR'. specialize (HR' _ He'). apply elem_of_app in He as [He|He].
    + rewrite Forall_forall in HP. specialize (HP _ He). lia.
    + apply list_elem_of_fmap in He as (y & -> & _). done.
  - unfold known. by rewrite Hl'.
  - rewrite Hl', last_app. unfold stamp. rewrite fmap_last. by destruct (last (x :: rs)) eqn:E; [|apply last_None in E].
Qed.
End restore.
End catalog.

(** ** Transactions and checkpoints *)

(** ** Cursors *)
Lemma sc_take_app v rest : sc_take (zlen v) (v ++ rest) = Ok (v, rest).
Proof.
  unfold sc_take. rewrite (proj2 (Z.leb_le _ _)) by (rewrite zlen_app; pose proof (zlen_nonneg rest); lia).
  unfold zlen. by rewrite Nat2Z.id, take_app_length, drop_app_length.
Qed.
Lemma sc_take_len n v rest : zlen v = n → sc_take n (v ++ rest) = Ok (v, rest).
Proof. intros <-. apply sc_take_app. Qed.
Lemma sc_take_Ok n c v rest : 0 ≤ n → sc_take n c = Ok (v, rest) → c = v ++ rest ∧ zlen v = n.
Proof.
  unfold sc_take. intros Hn. destruct (Z.leb_spec n (zlen c)) as [Hle|]; [|done]. intros [= <- <-]. split; [by rewrite take_drop|].
  unfold zlen in *. rewrite length_take. lia.
Qed.
Lemma zlen_be n z : zlen (be_bytes n z) = Z.of_nat n.
Proof. unfold zlen. by rewrite length_be_bytes. Qed.
Lemma sc_u32_app n rest : 0 ≤ n ≤ U32_MAX → sc_u32 (be_bytes 4 n ++ rest) = Ok (n, rest).
Proof. intros Hn. unfold sc_u32. rewrite (sc_take_len 4) by done. rewrite result_bind_Ok, of_be_bytes_be; [done|]. unfold U32_MAX in Hn. lia. Qed.
Lemma sc_u64_app n rest : 0 ≤ n ≤ U64_MAX → sc_u64 (be_bytes 8 n ++ rest) = Ok (n, rest).
Proof. intros Hn. unfold sc_u64. rewrite (sc_take_len 8) by done. rewrite result_bind_Ok, of_be_bytes_be; [done|]. unfold U64_MAX in Hn. lia. Qed.
Lemma sc_u32_Ok c n rest : sc_u32 c = Ok (n, rest) → c = be_bytes 4 n ++ rest ∧ 0 ≤ n ≤ U32_MAX.
Proof.
  intros ([v r] & [-> Hl]%sc_take_Ok & [= <- <-])%bind_Ok; [|done]. pose proof (of_be_bytes_range v) as Hr. rewrite Hl in Hr.
  split; [|unfold U32_MAX; lia]. f_equal. rewrite <-(be_bytes_of_be v) at 1. f_equal. unfold zlen in Hl. lia.
Qed.

(** ** Records of a transaction *)
Definition in_namespace (scope : NamespaceRef) (record : SpatialRecord) : Prop := ref_scope (srecord_id record) = scope.
Lemma record_outside_iff scope record : record_outside scope record = false ↔ in_namespace scope record.
Proof.
  unfold record_outside, in_namespace, ref_database, ref_namespace. destruct scope as [d n], (srecord_id record) as [[d' n'] i]. cbn.
  destruct (bool_decide_reflect (d' = d)), (bool_decide_reflect (n' = n)); cbn; naive_solver.
Qed.
(** A record under its length. *)
Definition payload (encoded : list byte) : list byte := be_bytes 4 (zlen encoded) ++ encoded.
Definition encodes (records : list SpatialRecord) (payloads : list (list byte)) : Prop :=
  Forall2 (λ r b, encode_srecord r = Ok b) records payloads.
Definition payload_bytes (payloads : list (list byte)) : Z := zlen (payloads ≫= payload).
Lemma payload_bytes_cons b ps : payload_bytes (b :: ps) = 4 + zlen b + payload_bytes ps.
Proof. unfold payload_bytes, payload. rewrite bind_cons, !zlen_app, zlen_be. lia. Qed.
Lemma encode_payloads records t ps t' ps' : 0 ≤ t ≤ MAX_SPATIAL_TRANSACTION_BYTES →
  try_fold encode_payload records (t, ps) = Ok (t', ps') ↔
  ∃ qs, encodes records qs ∧ ps' = ps ++ qs ∧ t' = t + payload_bytes qs ∧ t' ≤ MAX_SPATIAL_TRANSACTION_BYTES.
Proof.
  revert t ps. induction records as [|r records IH]; intros t ps Ht.
  { cbn. split.
    - intros [= <- <-]. exists []. rewrite app_nil_r. split_and!; [constructor|done|unfold payload_bytes; cbn; rewrite zlen_nil; lia|lia].
    - intros (qs & He & -> & -> & Hle). apply Forall2_nil_inv_l in He as ->. unfold payload_bytes. cbn. by rewrite app_nil_r, zlen_nil, Z.add_0_r. }
  cbn [try_fold].
  change (encode_payload (t, ps) r) with
    (encoded ← encode_srecord r;
     total ← ok_or (value ← checked_add t 4; checked_add value (zlen encoded)) ResourceLimit;
     if MAX_SPATIAL_TRANSACTION_BYTES <? total then Err ResourceLimit else Ok (total, ps ++ [encoded])).
  destruct (encode_srecord r) as [b|e] eqn:Hr.
  2: { split; [done|]. intros (qs & He & _). inversion He as [|? b ? ? Hb]; subst. congruence. }
  rewrite result_bind_Ok. pose proof (zlen_nonneg b) as Hb. unfold checked_add, MAX_SPATIAL_TRANSACTION_BYTES in *.
  rewrite (proj2 (Z.leb_le (t + 4) U64_MAX)) by (unfold U64_MAX; lia). cbn [mbind option_bind].
  assert (∀ qs, encodes (r :: records) qs → ∃ qs', qs = b :: qs' ∧ encodes records qs') as Hinv.
  { intros qs He. inversion He as [|? b' ? qs' Hb' Hq]; subst. exists qs'. split; [congruence|done]. }
  assert (∀ qs, encodes (r :: records) qs → t + payload_bytes qs ≤ 16 * 1024 * 1024 → t + 4 + zlen b ≤ 16 * 1024 * 1024) as Hbound.
  { intros qs (qs' & -> & _)%Hinv Hle. rewrite payload_bytes_cons in Hle. unfold payload_bytes in Hle. pose proof (zlen_nonneg (qs' ≫= payload)). lia. }
  destruct (Z.leb_spec (t + 4 + zlen b) U64_MAX) as [H1|H1]; cbn [ok_or].
  2: { split; [done|]. intros (qs & He & _ & -> & Hle). apply Hbound in Hle; [|done]. unfold U64_MAX in H1. lia. }
  rewrite result_bind_Ok. destruct (Z.ltb_spec (16 * 1024 * 1024) (t + 4 + zlen b)) as [H2|H2].
  { split; [done|]. intros (qs & He & _ & -> & Hle). apply Hbound in Hle; [|done]. lia. }
  rewrite result_bind_Ok, IH by lia. split.
  - intros (qs & He & -> & -> & Hle). exists (b :: qs). rewrite <-(assoc_L _), payload_bytes_cons. split_and!; [by constructor|done|lia|lia].
  - intros (qs & He & -> & -> & Hle). apply Hinv in He as (qs' & -> & He). exists qs'. rewrite <-(assoc_L _).
    rewrite payload_bytes_cons in *. split_and!; [done|done|lia|lia].
Qed.
Lemma push_payloads ps output : Forall (λ b, zlen b ≤ U32_MAX) ps → try_fold push_payload ps output = Ok (output ++ (ps ≫= payload)).
Proof.
  intros Hps. revert output. induction Hps as [|b ps Hb _ IH]; intros output; [cbn; by rewrite app_nil_r|].
  cbn [try_fold]. assert (push_payload output b = Ok (output ++ payload b)) as ->.
  { unfold push_payload, push_u32, payload. rewrite (proj2 (Z.leb_le _ _)) by done. by rewrite result_bind_Ok, (assoc_L _). }
  by rewrite result_bind_Ok, IH, bind_cons, (assoc_L _).
Qed.
Lemma read_payloads rs ps rest : encodes rs ps → Forall srecord_ok rs → Forall (λ b, zlen b ≤ U32_MAX) ps →
  read_srecords (length rs) ((ps ≫= payload) ++ rest) = Ok (rs, rest).
Proof.
  intros He Hok Hps. induction He as [|r b rs ps Hr _ IH]; [done|]. apply Forall_cons in Hok as [Hro Hok], Hps as [Hb Hps].
  cbn [length read_srecords]. rewrite bind_cons. unfold payload at 1. rewrite <-!(assoc_L _). pose proof (zlen_nonneg b).
  rewrite sc_u32_app by lia. rewrite result_bind_Ok, sc_take_app, result_bind_Ok.
  rewrite (proj2 (srecord_iff b r ltac:(unfold U32_MAX, I64_MAX in *; lia))) by done. by rewrite result_bind_Ok, IH.
Qed.
Lemma read_payloads_inv n c rs rest : zlen c ≤ I64_MAX → read_srecords n c = Ok (rs, rest) →
  ∃ ps, c = (ps ≫= payload) ++ rest ∧ encodes rs ps ∧ Forall srecord_ok rs ∧ length rs = n ∧ Forall (λ b, zlen b ≤ U32_MAX) ps.
Proof.
  revert c rs. induction n as [|n IH]; intros c rs Hc Hr; cbn [read_srecords] in Hr.
  { injection Hr as <- <-. exists []. split_and!; done || constructor. }
  apply bind_Ok in Hr as ([len c1] & [-> Hlen]%sc_u32_Ok & Hr). apply bind_Ok in Hr as ([b c2] & Ht & Hr).
  apply sc_take_Ok in Ht as [-> Hb]; [|lia]. apply bind_Ok in Hr as (r & Hd & Hr). apply bind_Ok in Hr as ([rs' c3] & Hrs & [= <- <-]).
  rewrite !zlen_app in Hc. pose proof (zlen_nonneg (be_bytes 4 len)). pose proof (zlen_nonneg c2). pose proof (zlen_nonneg b).
  apply srecord_iff in Hd as [Hok He]; [|lia]. apply IH in Hrs as (ps & -> & Hes & Hoks & <- & Hps); [|lia].
  exists (b :: ps). rewrite bind_cons. unfold payload at 2. rewrite Hb, <-!(assoc_L _). split_and!; try done; [by constructor..|constructor; [lia|done]].
Qed.

(** ** Transactions *)
Definition transaction_ok (tx : SpatialTransaction) : Prop :=
  scope_ok (stx_scope tx) ∧ 0 < zlen (stx_records tx) ≤ MAX_SPATIAL_BATCH_RECORDS
  ∧ Forall srecord_ok (stx_records tx) ∧ Forall (in_namespace (stx_scope tx)) (stx_records tx).
Lemma transaction_new_iff scope records tx : SpatialTransaction_new scope records = Ok tx ↔
  tx = mk_spatial_transaction scope records ∧ 0 < zlen records ≤ MAX_SPATIAL_BATCH_RECORDS ∧ Forall (in_namespace scope) records.
Proof.
  unfold SpatialTransaction_new. pose proof (zlen_nonneg records).
  destruct (Z.eqb_spec (zlen records) 0); [cbn; naive_solver lia|]. destruct (Z.ltb_spec MAX_SPATIAL_BATCH_RECORDS (zlen records)); [cbn; naive_solver lia|].
  cbn [orb]. destruct (existsb _ _) eqn:He.
  - split; [done|]. intros (_ & _ & Hall). apply existsb_exists in He as (r & Hr%list_elem_of_In & Ho). rewrite Forall_forall in Hall.
    apply Hall, record_outside_iff in Hr. congruence.
  - assert (Forall (in_namespace scope) records) as Hall; [|naive_solver lia]. apply Forall_forall. intros r Hr. apply record_outside_iff.
    apply not_true_iff_false. intros Ho. apply not_true_iff_false in He. apply He. apply existsb_exists. exists r. by rewrite <-list_elem_of_In.
Qed.
Definition transaction_header (scope : NamespaceRef) (count : Z) : list byte :=
  TRANSACTION_MAGIC ++ as_bytes (ns_database scope) ++ as_bytes (ns_namespace scope) ++ be_bytes 4 count.
Lemma payloads_short ps b : b ∈ ps → zlen b + 4 ≤ payload_bytes ps.
Proof.
  induction ps as [|x ps IH]; [by intros ?%elem_of_nil|]. rewrite payload_bytes_cons. intros [->|Hin]%elem_of_cons.
  - unfold payload_bytes. pose proof (zlen_nonneg (ps ≫= payload)). lia.
  - apply IH in Hin. pose proof (zlen_nonneg x). lia.
Qed.
Lemma encode_transaction_iff tx b : transaction_ok tx → encode_spatial_transaction tx = Ok b ↔
  ∃ ps, encodes (stx_records tx) ps ∧ 44 + payload_bytes ps ≤ MAX_SPATIAL_TRANSACTION_BYTES
    ∧ b = transaction_header (stx_scope tx) (zlen (stx_records tx)) ++ (ps ≫= payload).
Proof.
  destruct tx as [scope records]. intros ([Hd Hn] & [Hl1 Hl2] & _). cbn [stx_scope stx_records] in *. unfold encode_spatial_transaction, push_u32. cbn [stx_records stx_scope].
  assert (zlen records ≤ U32_MAX) as Hu by (unfold MAX_SPATIAL_BATCH_RECORDS, U32_MAX in *; lia).
  rewrite (proj2 (Z.leb_le _ _)) by done. rewrite bind_Ok.
  assert (∀ ps, 44 + payload_bytes ps ≤ MAX_SPATIAL_TRANSACTION_BYTES → Forall (λ b, zlen b ≤ U32_MAX) ps) as Hshort.
  { intros ps Hps. apply Forall_forall. intros x Hx%payloads_short. unfold MAX_SPATIAL_TRANSACTION_BYTES, U32_MAX in *. lia. }
  split.
  - intros ([t ps] & Hp & Hb). apply encode_payloads in Hp as (qs & He & -> & -> & Hle); [|unfold MAX_SPATIAL_TRANSACTION_BYTES; lia].
    rewrite result_bind_Ok, push_payloads in Hb by (by apply Hshort). injection Hb as <-. exists qs. split_and!; [done..|].
    unfold transaction_header. by rewrite <-!(assoc_L _).
  - intros (ps & He & Hle & ->). exists (44 + payload_bytes ps, ps). split.
    + apply encode_payloads; [unfold MAX_SPATIAL_TRANSACTION_BYTES; lia|]. exists ps. by split_and!.
    + rewrite result_bind_Ok, push_payloads by (by apply Hshort). unfold transaction_header. by rewrite <-!(assoc_L _).
Qed.
Lemma transaction_iff tx b : decode_spatial_transaction b = Ok tx ↔ transaction_ok tx ∧ encode_spatial_transaction tx = Ok b.
Proof.
  split.
  - unfold decode_spatial_transaction. destruct (Z.ltb_spec MAX_SPATIAL_TRANSACTION_BYTES (zlen b)) as [|Hlen]; [done|].
    intros ([magic c1] & [-> Hm]%sc_take_Ok & Hd)%bind_Ok; [|done]. destruct (bool_decide_reflect (magic = TRANSACTION_MAGIC)) as [->|]; [|done]. cbn [negb] in Hd.
    apply bind_Ok in Hd as ([db c2] & [-> Hdb]%sc_take_Ok & Hd); [|done]. apply bind_Ok in Hd as ([ns c3] & [-> Hns]%sc_take_Ok & Hd); [|done].
    apply bind_Ok in Hd as ([count c4] & [-> Hcount]%sc_u32_Ok & Hd). destruct (_ || _) eqn:Hg in Hd; [done|].
    apply bind_Ok in Hd as ([records c5] & Hr & Hd). rewrite !zlen_app in Hlen. pose proof (zlen_nonneg (be_bytes 4 count)).
    apply read_payloads_inv in Hr as (ps & -> & He & Hok & Hlr & Hps).
    2: { unfold MAX_SPATIAL_TRANSACTION_BYTES, I64_MAX in *. pose proof (zlen_nonneg TRANSACTION_MAGIC). lia. }
    destruct (Z.eqb_spec (zlen c5) 0) as [Hz|]; [|done]. apply transaction_new_iff in Hd as (-> & Hbounds & Hns').
    assert (c5 = []) as -> by (destruct c5; [done|]; rewrite zlen_cons in Hz; pose proof (zlen_nonneg c5); lia). rewrite app_nil_r in *.
    assert (transaction_ok (mk_spatial_transaction (NamespaceRef_new (from_bytes db) (from_bytes ns)) records)) as Htx.
    { unfold transaction_ok. cbn. split_and!; try done; try apply Hbounds. unfold scope_ok, identity_ok. cbn. unfold zlen in *. lia. }
    split; [done|]. apply encode_transaction_iff; [done|]. exists ps. split_and!; [done| |].
    + unfold payload_bytes. rewrite Hdb, Hns, zlen_be, Hm in Hlen. lia.
    + unfold transaction_header. cbn [stx_scope stx_records ns_database ns_namespace as_bytes]. rewrite <-!(assoc_L _).
      assert (zlen records = count) as -> by (unfold zlen; lia). done.
  - intros [Htx (ps & He & Hle & ->)%encode_transaction_iff]; [|done]. pose proof Htx as ([Hd Hn] & [Hl1 Hl2] & Hok & Hns). destruct tx as [scope records]. cbn [stx_scope stx_records] in *.
    assert (zlen (as_bytes (ns_database scope)) = 16) as Z1 by (unfold zlen; by rewrite Hd).
    assert (zlen (as_bytes (ns_namespace scope)) = 16) as Z2 by (unfold zlen; by rewrite Hn).
    assert (zlen records * 4 ≤ payload_bytes ps) as Hmin.
    { clear -He. induction He as [|r b rs ps _ _ IH]; [done|]. rewrite payload_bytes_cons, zlen_cons. pose proof (zlen_nonneg b). lia. }
    unfold decode_spatial_transaction, transaction_header. rewrite <-!(assoc_L _).
    rewrite (proj2 (Z.ltb_ge _ _)) by (rewrite !zlen_app, Z1, Z2, zlen_be; change (zlen TRANSACTION_MAGIC) with 8; unfold payload_bytes in Hle; lia).
    rewrite (sc_take_len 8), result_bind_Ok, bool_decide_eq_true_2 by done. cbn [negb].
    rewrite (sc_take_len 16), result_bind_Ok by done. rewrite (sc_take_len 16), result_bind_Ok by done.
    rewrite sc_u32_app by (unfold MAX_SPATIAL_BATCH_RECORDS, U32_MAX in *; lia). rewrite result_bind_Ok.
    rewrite (proj2 (Z.eqb_neq _ _)), (proj2 (Z.ltb_ge MAX_SPATIAL_BATCH_RECORDS _)) by lia. cbn [orb].
    rewrite (proj2 (Z.ltb_ge _ _)) by (apply Z.div_le_lower_bound; [lia|]; unfold payload_bytes in Hmin; lia).
    assert (Forall (λ b, zlen b ≤ U32_MAX) ps) as Hps.
    { apply Forall_forall. intros x Hx%payloads_short. unfold MAX_SPATIAL_TRANSACTION_BYTES, U32_MAX in *. lia. }
    pose proof (read_payloads records ps [] He Hok Hps) as Hread. rewrite app_nil_r in Hread.
    replace (Z.to_nat (zlen records)) with (length records) by (unfold zlen; lia). rewrite Hread, result_bind_Ok. cbn [Z.eqb negb zlen length Z.of_nat].
    apply transaction_new_iff. split_and!; try done; [by destruct scope as [[?] [?]]|by destruct scope as [[?] [?]]].
Qed.

(** ** The canonical order *)
Definition entry_key (e : CommitRevision * SpatialRecord) : Z * RecordRef * Z := order_key e.2.
Definition ascending_keys (l : list (CommitRevision * SpatialRecord)) : Prop := StronglySorted (λ a b, lexico (entry_key a) (entry_key b)) l.
Section keys.
Context {T : Type} `{HasVersion T} (record : T → SpatialRecord) (idf : T → RecordRef) (k : Z).
Context (key_record : ∀ v, order_key (record v) = (k, idf v, version_of v)).
Lemma history_ascending id es : Forall (λ e, idf (he_value e) = id) es → indexed es → ascending_keys (entry_of record <$> es).
Proof.
  intros Hid Hi. apply StronglySorted_lookup_iff. intros i j x y Hij Hx Hy. rewrite list_lookup_fmap in Hx, Hy.
  apply fmap_Some in Hx as (a & Ha & ->), Hy as (b & Hb & ->). unfold entry_key, entry_of. cbn. rewrite !key_record.
  rewrite Forall_forall in Hid. rewrite (Hid a), (Hid b) by (by eapply list_elem_of_lookup_2). right. split; [done|].
  change (version_of (he_value a) < version_of (he_value b)). rewrite (Hi _ _ Ha), (Hi _ _ Hb). lia.
Qed.
Lemma histories_ascending (l : list (RecordRef * list (HistoryEntry T))) : StronglySorted lexico l.*1 →
  Forall (λ p, Forall (λ e, idf (he_value e) = p.1) p.2 ∧ indexed p.2) l → ascending_keys (l.*2 ≫= λ es, entry_of record <$> es).
Proof.
  intros Hs Hl. induction Hl as [|[id es] l [Hid Hi] Hl IH]; [constructor|]. rewrite !fmap_cons, bind_cons. cbn in *.
  apply StronglySorted_cons in Hs as [Hlt Hs]. apply StronglySorted_app_2; [|by eapply history_ascending|by apply IH].
  intros x y (a & -> & Ha)%list_elem_of_fmap Hy. apply list_elem_of_bind in Hy as (es' & Hy & Hes'). apply list_elem_of_fmap in Hy as (b & -> & Hb).
  apply list_elem_of_fmap in Hes' as ([id' es''] & -> & Hp). cbn in Hb. unfold entry_key, entry_of. cbn. rewrite !key_record.
  pose proof (proj1 (Forall_forall _ _) Hl _ Hp) as [Hid' _]. cbn in Hid'. rewrite Forall_forall in Hid, Hid'. rewrite (Hid a), (Hid' b) by done.
  left. right. split; [done|]. apply (proj1 (Forall_forall _ _) Hlt). apply list_elem_of_fmap. by exists (id', es'').
Qed.
Lemma catalog_histories_ascending follows (m : Histories T) : (∀ id es, m !! id = Some es → es ≠ [] ∧ chained idf follows id es) →
  ascending_keys (histories_records record m) ∧ Forall (λ e, (entry_key e).1.1 = k) (histories_records record m).
Proof.
  intros Hm. split.
  - apply histories_ascending; [apply btree_keys_sorted|]. apply Forall_forall. intros [id es] Hes%elem_of_btree_entries. destruct (Hm _ _ Hes) as [_ Hc].
    cbn. split; [|by eapply chained_indexed]. apply Forall_lookup. intros i e He. by apply (chained_at _ _ _ _ _ _ Hc He).
  - apply Forall_forall. intros e (es & He & _)%list_elem_of_bind. apply list_elem_of_fmap in He as (x & -> & _). unfold entry_key. cbn. by rewrite key_record.
Qed.
End keys.
Lemma ascending_app a b l l' : a < b → Forall (λ e, (entry_key e).1.1 = a) l → Forall (λ e, b ≤ (entry_key e).1.1) l' →
  ascending_keys l → ascending_keys l' → ascending_keys (l ++ l').
Proof.
  intros Hab Hl Hl' H1 H2. apply StronglySorted_app_2; [|done..]. intros x y Hx Hy. rewrite Forall_forall in Hl, Hl'. apply Hl in Hx. apply Hl' in Hy.
  left. destruct (entry_key x) as [[kx ?] ?], (entry_key y) as [[ky ?] ?]. cbn in Hx, Hy. left. change (kx < ky). lia.
Qed.
Lemma observations_ascending (m : gmap RecordRef (HistoryEntry PositionObservation)) : (∀ id e, m !! id = Some e → o_id (he_value e) = id) →
  ascending_keys (entry_of SObservation <$> btree_values m) ∧ Forall (λ e, (entry_key e).1.1 = 3) (entry_of SObservation <$> btree_values m).
Proof.
  intros Hm. split; [|apply Forall_fmap, Forall_forall; by intros].
  pose proof (btree_keys_sorted m) as Hs. unfold btree_keys in Hs. unfold btree_values.
  assert (∀ p, p ∈ btree_entries m → o_id (he_value p.2) = p.1) as Hp by (intros [id e] He%elem_of_btree_entries; by apply Hm).
  induction (btree_entries m) as [|[id e] l IH]; [constructor|]. rewrite !fmap_cons in *. apply StronglySorted_cons in Hs as [Hlt Hs]. cbn in *.
  constructor; [apply IH; [done|]; intros; apply Hp; by right|]. rewrite !Forall_fmap. apply Forall_forall.
  intros q Hq. unfold entry_key. cbn. left. right. split; [done|]. pose proof (Hp (id, e) ltac:(left)) as He. cbn in He. rewrite He, (Hp q) by (by right).
  apply (proj1 (Forall_forall _ _) Hlt). apply list_elem_of_fmap. by exists q.
Qed.
Lemma catalog_ascending sha256 bound c : catalog_wf sha256 bound c → ascending_keys (catalog_records c).
Proof.
  intros Hw. unfold catalog_records.
  destruct (catalog_histories_ascending SWorld w_id 0 ltac:(done) _ _ (cw_worlds _ _ _ Hw)) as [A1 B1].
  destruct (catalog_histories_ascending SFrame f_id 1 ltac:(done) _ _ (cw_frames _ _ _ Hw)) as [A2 B2].
  destruct (catalog_histories_ascending SGeometry g_id 2 ltac:(done) _ _ (cw_geometries _ _ _ Hw)) as [A3 B3].
  destruct (observations_ascending (sc_observations c)) as [A4 B4]; [intros id e He; by apply Hw|].
  apply (ascending_app 0 1); [done..| |done|].
  { repeat (apply Forall_app; split); (eapply Forall_impl; [eassumption|]); cbn; lia. }
  apply (ascending_app 1 2); [done..| |done|].
  { repeat (apply Forall_app; split); (eapply Forall_impl; [eassumption|]); cbn; lia. }
  apply (ascending_app 2 3); [done..| |done|done]. eapply Forall_impl; [exact B4|]. cbn. lia.
Qed.

(** ** Checkpoint entries *)
Definition entry_frame (e : CommitRevision * SpatialRecord) : list byte :=
  match encode_srecord e.2 with Ok encoded => be_bytes 8 e.1 ++ payload encoded | Err _ => [] end.
Lemma zlen_entry_frame e : zlen (entry_frame e) = encoded_bytes e.
Proof.
  unfold entry_frame, encoded_bytes, entry_bytes, payload. destruct (encode_srecord e.2); [rewrite !zlen_app, !zlen_be; lia|apply zlen_nil].
Qed.
Lemma zlen_entry_frames l : zlen (l ≫= entry_frame) = total_bytes l.
Proof.
  induction l as [|e l IH]; [done|]. rewrite bind_cons, zlen_app, IH, zlen_entry_frame. change (total_bytes (e :: l)) with (total_bytes l + encoded_bytes e). lia.
Qed.
Lemma write_entry out e : is_ok (encode_srecord e.2) = true → zlen out + encoded_bytes e ≤ MAX_SPATIAL_CHECKPOINT_BYTES →
  checkpoint_entry out e.1 e.2 = Ok (out ++ entry_frame e).
Proof.
  unfold checkpoint_entry, entry_frame, encoded_bytes, entry_bytes, MAX_SPATIAL_CHECKPOINT_BYTES, checked_add.
  destruct (encode_srecord e.2) as [b|]; [|done]. intros _ Hlen. pose proof (zlen_nonneg out). pose proof (zlen_nonneg b).
  cbn [map_err]. rewrite result_bind_Ok. rewrite (proj2 (Z.leb_le _ _)) by (unfold U64_MAX; lia). cbn [ok_or]. rewrite result_bind_Ok.
  rewrite (proj2 (Z.leb_le _ _)) by (unfold U64_MAX; lia). cbn [ok_or]. rewrite result_bind_Ok.
  rewrite (proj2 (Z.ltb_ge _ _)) by lia. unfold push_u32. rewrite (proj2 (Z.leb_le _ _)) by (unfold U32_MAX; lia). cbn [map_err].
  rewrite !result_bind_Ok. unfold payload. by rewrite <-!(assoc_L _).
Qed.
Lemma write_entries l out : Forall (λ e, is_ok (encode_srecord e.2) = true) l → zlen out + total_bytes l ≤ MAX_SPATIAL_CHECKPOINT_BYTES →
  try_fold (λ s e, checkpoint_entry s e.1 e.2) l out = Ok (out ++ (l ≫= entry_frame)).
Proof.
  intros Hl. revert out. induction Hl as [|e l He _ IH]; intros out Hlen; [cbn; by rewrite app_nil_r|].
  change (total_bytes (e :: l)) with (total_bytes l + encoded_bytes e) in Hlen. pose proof (total_bytes_nonneg l).
  cbn [try_fold]. rewrite write_entry by (done || lia). rewrite result_bind_Ok, IH by (rewrite zlen_app, zlen_entry_frame; lia).
  by rewrite bind_cons, (assoc_L _).
Qed.
(** Records a checkpoint may hold. *)
Definition storable (scope : NamespaceRef) (revision : CommitRevision) (e : CommitRevision * SpatialRecord) : Prop :=
  1 ≤ e.1 ≤ revision ∧ srecord_ok e.2 ∧ in_namespace scope e.2 ∧ ∃ b, encode_srecord e.2 = Ok b ∧ zlen b ≤ U32_MAX.
Lemma read_frames scope revision l previous rest : revision ≤ U64_MAX → Forall (storable scope revision) l → ascending_keys l →
  match previous with Some k => Forall (λ e, lexico k (entry_key e)) l | None => True end →
  read_entries scope revision (length l) previous ((l ≫= entry_frame) ++ rest) = Ok (l, rest).
Proof.
  intros Hrev Hl. revert previous. induction Hl as [|[r x] l (Hr & Hok & Hns & b & Hb & Hlen) _ IH]; intros previous Ha Hp; [done|].
  apply StronglySorted_cons in Ha as [Hx Ha]. cbn [length read_entries]. rewrite bind_cons. cbn [fst snd] in *.
  assert (entry_frame (r, x) = be_bytes 8 r ++ payload b) as -> by (unfold entry_frame; cbn; by rewrite Hb).
  unfold payload. rewrite <-!(assoc_L _). unfold read_entry. rewrite sc_u64_app by lia. cbn [map_err]. rewrite result_bind_Ok.
  unfold CommitRevision_new. rewrite (proj2 (Z.eqb_neq _ _)) by lia. cbn [map_err]. rewrite result_bind_Ok, (proj2 (Z.ltb_ge _ _)) by lia.
  pose proof (zlen_nonneg b). rewrite sc_u32_app by lia. cbn [map_err]. rewrite result_bind_Ok, sc_take_app. cbn [map_err]. rewrite result_bind_Ok.
  rewrite (proj2 (srecord_iff b x ltac:(unfold U32_MAX, I64_MAX in *; lia))) by done. cbn [map_err]. rewrite result_bind_Ok.
  rewrite (proj2 (record_outside_iff _ _) Hns).
  assert (match previous with Some k => bool_decide (key_le (order_key x) k) | None => false end = false) as ->.
  { destruct previous as [k|]; [|done]. apply bool_decide_eq_false. intros Hk. apply Forall_cons in Hp as [Hp _]. by apply Hk. }
  by rewrite result_bind_Ok, IH.
Qed.

(** ** States *)
Section states.
Context (sha256 : list byte → list byte).
Record spatial_inv (s : SpatialState) : Prop := {
  si_catalog : catalog_inv sha256 (ss_catalog s);
  si_known : known (ss_catalog s) ≤ default 0 (ss_revision s);
  si_revision : match ss_revision s with Some r => 1 ≤ r ∧ catalog_records (ss_catalog s) ≠ [] | None => True end;
  si_records : Forall (λ e, srecord_ok e.2 ∧ in_namespace (ss_scope s) e.2) (catalog_records (ss_catalog s))
}.
Lemma spatial_inv_new scope : spatial_inv (SpatialState_new scope).
Proof. split; [apply catalog_inv_new|done..|constructor]. Qed.
(** What a restored state has: the catalog, with the revision of its last record. *)
Definition latest_record (c : SpatialCatalog) : option CommitRevision := fst <$> last (merge_sort restore_le (catalog_records c)).
Definition restored (s : SpatialState) : SpatialState :=
  mk_spatial_state (ss_scope s) (ss_revision s)
    (mk_catalog (sc_worlds (ss_catalog s)) (sc_frames (ss_catalog s)) (sc_geometries (ss_catalog s)) (sc_observations (ss_catalog s))
       (sc_source_events (ss_catalog s)) (latest_record (ss_catalog s)) (sc_entry_count (ss_catalog s)) (sc_logical_bytes (ss_catalog s))
       (sc_content_anchor (ss_catalog s))).
Lemma merge_sort_restore_sorted l : StronglySorted restore_le (merge_sort restore_le l).
Proof. apply StronglySorted_merge_sort; [intros x y z; unfold restore_le; by etrans|intros x y; unfold restore_le; apply (total key_le)]. Qed.
Lemma rebuild_original c : catalog_inv sha256 c →
  ∃ d, rebuild sha256 (length (catalog_records c)) (merge_sort restore_le (catalog_records c)) SpatialCatalog_new = Some (Ok d)
    ∧ d = mk_catalog (sc_worlds c) (sc_frames c) (sc_geometries c) (sc_observations c) (sc_source_events c) (latest_record c)
            (sc_entry_count c) (sc_logical_bytes c) (sc_content_anchor c).
Proof.
  intros Hc. set (L := merge_sort restore_le (catalog_records c)).
  assert (L ≡ₚ catalog_records c) as HL by apply merge_sort_Permutation.
  destruct (rebuild_restores sha256 c L Hc HL (merge_sort_restore_sorted _) (length (catalog_records c)) [] L SpatialCatalog_new) as (d & Hd & [Hw Hp] & Hl);
    [by rewrite HL|done|by intros ?? ?%elem_of_nil|split; [apply catalog_wf_new|done]|done|].
  exists d. split; [done|]. rewrite (wf_unique sha256 _ _ c d (ci_wf _ _ Hc) Hw) by (by rewrite Hp, HL). by rewrite Hl.
Qed.

(** *** The round trip *)
Lemma inv_storable s r : spatial_inv s → ss_revision s = Some r → Forall (storable (ss_scope s) r) (catalog_records (ss_catalog s)).
Proof.
  intros Hi Hr. pose proof (ci_wf _ _ (si_catalog _ Hi)) as Hw. pose proof (si_records _ Hi) as Hok. pose proof (si_known _ Hi) as Hk. rewrite Hr in Hk. cbn in Hk.
  pose proof (cw_revisions _ _ _ Hw) as Hrev. pose proof (cw_encodes _ _ _ Hw) as Henc. pose proof (cw_limits _ _ _ Hw) as [_ Hlim].
  rewrite (cw_bytes _ _ _ Hw) in Hlim. rewrite Forall_forall in Hok, Hrev, Henc |- *. intros e He. destruct (Hok e He) as [Ho1 Ho2].
  specialize (Hrev e He). specialize (Henc e He). split_and!; [lia|lia|done|done|]. destruct (encode_srecord e.2) as [b|] eqn:Hb; [|done].
  exists b. split; [done|]. apply elem_of_Permutation in He as [l Hl]. rewrite Hl in Hlim.
  change (total_bytes (e :: l)) with (total_bytes l + encoded_bytes e) in Hlim. unfold encoded_bytes, entry_bytes in Hlim. rewrite Hb in Hlim.
  pose proof (total_bytes_nonneg l). unfold MAX_SPATIAL_CATALOG_LOGICAL_BYTES, U32_MAX in *. lia.
Qed.
Definition written_checkpoint (s : SpatialState) (r : CommitRevision) : list byte :=
  CHECKPOINT_MAGIC ++ as_bytes (ns_database (ss_scope s)) ++ as_bytes (ns_namespace (ss_scope s))
  ++ be_bytes 8 r ++ be_bytes 8 (zlen (catalog_records (ss_catalog s))) ++ (catalog_records (ss_catalog s) ≫= entry_frame).
Lemma encode_checkpoint_Ok s r : spatial_inv s → scope_ok (ss_scope s) → ss_revision s = Some r →
  encode_spatial_checkpoint s = Ok (written_checkpoint s r).
Proof.
  intros Hi [Hd Hn] Hr. pose proof (ci_wf _ _ (si_catalog _ Hi)) as Hw. pose proof (si_revision _ Hi) as Hrev. rewrite Hr in Hrev. destruct Hrev as [_ Hne].
  pose proof (cw_limits _ _ _ Hw) as [Hl1 Hl2]. unfold encode_spatial_checkpoint. rewrite Hr. cbn [ok_or]. rewrite result_bind_Ok. cbv zeta.
  rewrite (cw_count _ _ _ Hw), (cw_bytes _ _ _ Hw) in *.
  assert (0 < zlen (catalog_records (ss_catalog s))) as Hpos.
  { destruct (catalog_records (ss_catalog s)); [done|]. rewrite zlen_cons. pose proof (zlen_nonneg l). lia. }
  rewrite (proj2 (Z.eqb_neq _ _)), (proj2 (Z.ltb_ge _ _)) by lia. cbn [orb]. rewrite visit_records_fold, write_entries; [|apply Hw|].
  - unfold written_checkpoint. by rewrite <-!(assoc_L _).
  - rewrite !zlen_app, !zlen_be. unfold zlen at 2 3. rewrite Hd, Hn. change (zlen CHECKPOINT_MAGIC) with 8.
    unfold MAX_SPATIAL_CATALOG_LOGICAL_BYTES, MAX_SPATIAL_CHECKPOINT_BYTES in *. lia.
Qed.
Lemma total_bytes_min l : Forall (λ e, is_ok (encode_srecord e.2) = true) l → zlen l * 12 ≤ total_bytes l.
Proof.
  induction 1 as [|e l He _ IH]; [done|]. rewrite zlen_cons. change (total_bytes (e :: l)) with (total_bytes l + encoded_bytes e).
  unfold encoded_bytes, entry_bytes. destruct (encode_srecord e.2) as [b|]; [|done]. pose proof (zlen_nonneg b). lia.
Qed.
Lemma read_written_checkpoint s r : spatial_inv s → scope_ok (ss_scope s) → ss_revision s = Some r → nonzero_u64 r →
  read_checkpoint (ss_scope s) r (written_checkpoint s r) = Ok (zlen (catalog_records (ss_catalog s)), catalog_records (ss_catalog s)).
Proof.
  intros Hi Hsc Hr Hr64. unfold written_checkpoint.
  pose proof (ci_wf _ _ (si_catalog _ Hi)) as Hw. pose proof Hsc as [Hd Hn].
  pose proof (si_revision _ Hi) as Hrev. rewrite Hr in Hrev. destruct Hrev as [_ Hne]. unfold nonzero_u64 in Hr64.
  pose proof (cw_limits _ _ _ Hw) as [Hl1 Hl2]. rewrite (cw_count _ _ _ Hw), (cw_bytes _ _ _ Hw) in *.
  pose proof (total_bytes_min _ (cw_encodes _ _ _ Hw)) as Hmin.
  set (l := catalog_records (ss_catalog s)) in *. set (scope := ss_scope s) in *.
  assert (zlen (as_bytes (ns_database scope)) = 16) as Z1 by (unfold zlen; by rewrite Hd).
  assert (zlen (as_bytes (ns_namespace scope)) = 16) as Z2 by (unfold zlen; by rewrite Hn).
  assert (0 < zlen l) as Hpos by (destruct l as [|? l']; [done|]; rewrite zlen_cons; pose proof (zlen_nonneg l'); lia).
  unfold MAX_SPATIAL_CATALOG_LOGICAL_BYTES, MAX_SPATIAL_CATALOG_ENTRIES in *.
  unfold read_checkpoint. rewrite (proj2 (Z.ltb_ge _ _)) by (rewrite !zlen_app, Z1, Z2, !zlen_be, zlen_entry_frames; change (zlen CHECKPOINT_MAGIC) with 8;
    unfold MAX_SPATIAL_CHECKPOINT_BYTES; lia).
  rewrite (sc_take_len 8) by done. cbn [map_err]. rewrite result_bind_Ok, bool_decide_eq_true_2 by done. cbn [negb].
  rewrite (sc_take_len 16) by done. cbn [map_err]. rewrite result_bind_Ok. rewrite (sc_take_len 16) by done. cbn [map_err]. rewrite result_bind_Ok.
  rewrite bool_decide_eq_true_2 by (by destruct scope as [[?] [?]]). cbn [negb]. rewrite sc_u64_app by lia. cbn [map_err]. rewrite result_bind_Ok, Z.eqb_refl.
  cbn [negb]. rewrite sc_u64_app by (unfold U64_MAX; lia). cbn [map_err]. rewrite result_bind_Ok, (proj2 (Z.eqb_neq _ _)) by lia.
  rewrite (proj2 (Z.ltb_ge MAX_SPATIAL_CATALOG_ENTRIES _)) by (unfold MAX_SPATIAL_CATALOG_ENTRIES; lia). cbn [orb].
  rewrite (proj2 (Z.ltb_ge _ _)) by (rewrite zlen_entry_frames; apply Z.div_le_lower_bound; lia).
  replace (Z.to_nat (zlen l)) with (length l) by (unfold zlen; lia). rewrite <-(app_nil_r (l ≫= entry_frame)).
  rewrite (read_frames scope r l None []); [done|lia|by apply inv_storable|by eapply catalog_ascending|done].
Qed.
Lemma checkpoint_restores s r : spatial_inv s → scope_ok (ss_scope s) → ss_revision s = Some r → nonzero_u64 r →
  ∃ b, encode_spatial_checkpoint s = Ok b ∧ decode_spatial_checkpoint sha256 (ss_scope s) r b = Some (Ok (restored s)).
Proof.
  intros Hi Hsc Hr Hr64. exists (written_checkpoint s r). split; [by apply encode_checkpoint_Ok|].
  unfold decode_spatial_checkpoint. rewrite (read_written_checkpoint s r Hi Hsc Hr Hr64).
  destruct (rebuild_original _ (si_catalog _ Hi)) as (d & -> & Hd). cbn [mbind option_bind result_bind]. subst d. cbn [sc_entry_count].
  rewrite (cw_count _ _ _ (ci_wf _ _ (si_catalog _ Hi))), Z.eqb_refl. cbn [negb]. unfold restored.
  by rewrite Hr, (cw_count _ _ _ (ci_wf _ _ (si_catalog _ Hi))).
Qed.
End states.
