(* ===== verification/SpatialGuarantees.v ===== *)
(** * What the spatial reducer guarantees

    ** Reachable spatial states

    Committing encoded transactions and restoring checkpoints, of whatever bytes,
    keep the invariant of the reducer. *)
From S2P Require Import Prelude Ids Value Codec GraphCodec GraphState GraphCheckpoint TimeModel SpatialModel SpatialCodec SpatialCodecExact SpatialCatalog SpatialAdmit SpatialInvariant SpatialState SpatialDurable.
Import SpatialError.

Section reachable.
Context (sha256 : list byte → list byte).

(** ** Every record of a batch is in the catalog afterwards *)
Lemma retained_record c record : retained c record → ∃ r, (r, record) ∈ catalog_records c.
Proof.
  destruct record as [| | |o]; [done..|]. intros [r Hr]. exists r. unfold catalog_records. rewrite !elem_of_app. right. right. right.
  apply list_elem_of_fmap. exists (mk_entry r o). split; [done|]. apply elem_of_btree_values. by exists (o_id o).
Qed.
Lemma admit_present revision a record a' : catalog_wf sha256 revision (ad_catalog a) → admit_record sha256 revision a record = Ok a' →
  ∃ r, (r, record) ∈ catalog_records (ad_catalog a').
Proof.
  intros Hw Ha. destruct (admit_cases _ _ _ _ _ _ Hw Ha) as [[Hacc (c' & Hret & [= <-])%bind_Ok]|[Hret ->]].
  - exists revision. cbn. rewrite (ex_records _ _ _ _ (retain_extends _ _ _ _ _ Hacc Hret)). by left.
  - by apply retained_record.
Qed.
Lemma admit_all_present revision records a a' : 1 ≤ revision → catalog_wf sha256 revision (ad_catalog a) →
  try_fold (admit_record sha256 revision) records a = Ok a' → ∀ record, record ∈ records → ∃ r, (r, record) ∈ catalog_records (ad_catalog a').
Proof.
  intros Hrev. revert a. induction records as [|x records IH]; intros a Hw Ha record Hin; [by apply elem_of_nil in Hin|].
  apply bind_Ok in Ha as (a1 & H1 & Ha). assert (try_fold (admit_record sha256 revision) [x] a = Ok a1) as Hone by (cbn; by rewrite H1).
  destruct (admit_all_extends _ _ _ _ _ Hrev Hw Hone) as [Hw1 _]. apply elem_of_cons in Hin as [->|Hin]; [|by eapply IH].
  destruct (admit_present _ _ _ _ Hw H1) as [r Hr]. exists r.
  destruct (admit_all_extends _ _ _ _ _ Hrev Hw1 Ha) as (_ & ins & Hex & _). rewrite (ex_records _ _ _ _ Hex). apply elem_of_app. by right.
Qed.
Lemma batch_present revision c records a record : 1 ≤ revision → catalog_inv sha256 c → admit_batch sha256 revision c records = Ok a →
  record ∈ records → ∃ r, (r, record) ∈ catalog_records (ad_catalog a).
Proof.
  intros Hrev Hi Hb Hin. destruct (batch_extends _ _ _ _ _ Hrev Hi Hb) as (Hk & _). apply admit_batch_Ok in Hb as (_ & _ & a0 & Ha & _ & ->).
  refine (admit_all_present revision records (mk_admission c [] []) a0 Hrev _ Ha record Hin). apply (catalog_wf_mono _ (known c)); [lia|apply Hi].
Qed.

(** ** Commits *)
Lemma prepare_batch_admit c revision records prepared : catalog_inv sha256 c → prepare_batch sha256 c revision records = Ok prepared →
  ∃ a, admit_batch sha256 revision c records = Ok a ∧ publish_prepared c prepared = Some (ad_catalog a, ad_outcomes a)
    ∧ catalog_can_publish c prepared = true.
Proof.
  intros Hi Hp. pose proof (prepare_admits sha256 c revision records (inv_frames_indexed _ _ Hi) (cw_limits _ _ _ (ci_wf _ _ Hi))) as Ha.
  rewrite Hp in Ha. destruct (admit_batch sha256 revision c records) as [a|]; [|done]. exists a. naive_solver.
Qed.
Lemma spatial_prepare_Ok {B} s request (inventory : option B) revision p : spatial_prepare sha256 s request inventory revision = Ok p →
  ∃ tx catalog digest, decode_spatial_transaction request = Ok tx ∧ stx_scope tx = ss_scope s
    ∧ match ss_revision s with Some r => r < revision | None => True end
    ∧ prepare_batch sha256 (ss_catalog s) revision (stx_records tx) = Ok catalog
    ∧ digest_effects sha256 revision request (stx_records tx) (pb_effect_revisions catalog) (pb_outcomes catalog) = Ok digest
    ∧ p = mk_prepared_spatial (ss_scope s) (ss_revision s) revision catalog digest.
Proof.
  unfold spatial_prepare. destruct inventory; [done|]. intros (tx & Htx%map_err_Ok & Hp)%bind_Ok. destruct (_ || _) eqn:Hg in Hp; [done|].
  apply orb_false_iff in Hg as [Hs%negb_false_iff%bool_decide_eq_true Hr].
  apply bind_Ok in Hp as (catalog & Hc%map_err_Ok & Hp). apply bind_Ok in Hp as (digest & Hd%map_err_Ok & [= <-]).
  exists tx, catalog, digest. split_and!; try done. destruct (ss_revision s); [|done]. by apply Z.leb_gt.
Qed.
Lemma spatial_commit {B} s request (inventory : option B) revision p : spatial_inv sha256 s → 1 ≤ revision →
  spatial_prepare sha256 s request inventory revision = Ok p →
  ∃ tx a, decode_spatial_transaction request = Ok tx ∧ stx_scope tx = ss_scope s
    ∧ admit_batch sha256 revision (ss_catalog s) (stx_records tx) = Ok a
    ∧ spatial_publish p s = Some (mk_spatial_state (ss_scope s) (Some revision) (ad_catalog a)).
Proof.
  intros Hi Hrev (tx & catalog & digest & Htx & Hs & Hlt & Hc & _ & ->)%spatial_prepare_Ok.
  destruct (prepare_batch_admit _ _ _ _ (si_catalog _ _ Hi) Hc) as (a & Ha & Hpub & Hcan). exists tx, a. split_and!; try done.
  unfold spatial_publish, spatial_can_publish. cbn. rewrite !bool_decide_eq_true_2, Hcan by done. cbn [andb].
  assert (match ss_revision s with Some base => base <? revision | None => true end = true) as ->.
  { destruct (ss_revision s); [|done]. by apply Z.ltb_lt. }
  cbn [andb]. by rewrite Hpub.
Qed.
Lemma spatial_commit_inv s revision tx a : spatial_inv sha256 s → 1 ≤ revision → transaction_ok tx → stx_scope tx = ss_scope s →
  admit_batch sha256 revision (ss_catalog s) (stx_records tx) = Ok a →
  spatial_inv sha256 (mk_spatial_state (ss_scope s) (Some revision) (ad_catalog a)).
Proof.
  intros Hi Hrev1 (_ & [Hne _] & Hok & Hns) Hs Ha. pose proof (si_catalog _ _ Hi) as Hc.
  destruct (batch_extends _ _ _ _ _ Hrev1 Hc Ha) as (Hk & Hw & Hlast & ins & Hsub & Hrec & _). split; cbn.
  - by eapply admit_batch_inv.
  - lia.
  - split; [done|]. destruct (stx_records tx) as [|x rs] eqn:Hrs; [done|].
    destruct (batch_present _ _ _ _ x Hrev1 Hc Ha) as [r Hr]; [by left|]. intros He. rewrite He in Hr. by apply elem_of_nil in Hr.
  - rewrite Hrec. apply Forall_app. split; [|apply Hi]. apply Forall_fmap, Forall_forall. intros x Hx. cbn. apply (elem_of_sublist _ _ _ Hx) in Hsub.
    rewrite Forall_forall in Hok, Hns. split; [by apply Hok|]. rewrite <-Hs. by apply Hns.
Qed.

(** ** Checkpoints of any bytes *)
Lemma take_group_Ok r acc entries records rest : take_group r acc entries = Ok (records, rest) →
  ∃ rs, records = acc ++ rs ∧ entries = stamp r rs ++ rest.
Proof.
  revert acc. induction entries as [|[q x] entries IH]; intros acc Ht; cbn [take_group] in Ht.
  { injection Ht as <- <-. exists []. by rewrite app_nil_r. }
  destruct (Z.eqb_spec q r) as [->|]; [|injection Ht as <- <-; exists []; by rewrite app_nil_r].
  destruct (_ =? _); [done|]. apply IH in Ht as (rs & -> & ->). exists (x :: rs). by rewrite <-(assoc_L _).
Qed.
Lemma rebuild_inv revision fuel entries c d : catalog_inv sha256 c → known c ≤ revision → Forall (λ e, 1 ≤ e.1 ≤ revision) entries →
  rebuild sha256 fuel entries c = Some (Ok d) →
  catalog_inv sha256 d ∧ known d ≤ revision ∧ ∀ e, e ∈ catalog_records d → e ∈ catalog_records c ∨ e ∈ entries.
Proof.
  revert entries c. induction fuel as [|fuel IH]; intros entries c Hi Hk He Hr; destruct entries as [|[r x] entries]; cbn [rebuild] in Hr; try done.
  1-2: injection Hr as <-; split_and!; [done..|auto].
  destruct (take_group r [x] entries) as [[records rest]|] eqn:Ht; [|done]. apply take_group_Ok in Ht as (rs & -> & ->).
  apply Forall_cons in He as [Hx He]. cbn in Hx. destruct (map_err _ _) as [prepared|] eqn:Hp; [|done]. apply map_err_Ok in Hp.
  destruct (prepare_batch_admit _ _ _ _ Hi Hp) as (a & Ha & Hpub & _). rewrite Hpub in Hr. cbn [mbind option_bind] in Hr.
  destruct (batch_extends _ _ _ _ _ (proj1 Hx) Hi Ha) as (_ & _ & Hlast & ins & Hsub & Hrec & _).
  apply IH in Hr as (Hd & Hkd & Hall); [|by eapply admit_batch_inv; [apply Hx|..]|lia|by apply Forall_app in He as [_ ?]].
  split_and!; [done..|]. intros e [He'|He']%Hall; [|right; right; apply elem_of_app; by right]. rewrite Hrec in He'. apply elem_of_app in He' as [He'|]; [|by left].
  right. apply list_elem_of_fmap in He' as (y & -> & Hy). apply (elem_of_sublist _ _ _ Hy) in Hsub. cbn in Hsub.
  apply elem_of_cons in Hsub as [->|Hsub]; [by left|]. right. apply elem_of_app. left. apply list_elem_of_fmap. by exists y.
Qed.
Lemma read_entry_Ok scope revision previous c recorded record rest : zlen c ≤ I64_MAX →
  read_entry scope revision previous c = Ok (recorded, record, rest) →
  1 ≤ recorded ≤ revision ∧ srecord_ok record ∧ in_namespace scope record ∧ zlen rest ≤ zlen c.
Proof.
  intros Hc. unfold read_entry. intros ([n c1] & H1%map_err_Ok & H)%bind_Ok. unfold sc_u64 in H1.
  apply bind_Ok in H1 as ([b0 c1'] & [-> Hb0]%sc_take_Ok & [= <- <-]); [|done].
  apply bind_Ok in H as (q & Hq%map_err_Ok & H). unfold CommitRevision_new in Hq. destruct (Z.eqb_spec (of_be_bytes b0) 0); [done|]. injection Hq as <-.
  pose proof (of_be_bytes_range b0). destruct (Z.ltb_spec revision (of_be_bytes b0)); [done|].
  apply bind_Ok in H as ([len c2] & H2%map_err_Ok & H). apply sc_u32_Ok in H2 as [-> Hlen].
  apply bind_Ok in H as ([b c3] & H3%map_err_Ok & H). apply sc_take_Ok in H3 as [-> Hb]; [|lia].
  apply bind_Ok in H as (x & Hx%map_err_Ok & H). rewrite !zlen_app in *. pose proof (zlen_nonneg b0). pose proof (zlen_nonneg b). pose proof (zlen_nonneg c3).
  pose proof (zlen_nonneg (be_bytes 4 len)). apply srecord_iff in Hx as [Hok _]; [|lia].
  destruct (record_outside scope x) eqn:Ho; [done|]. destruct (match previous with Some _ => _ | None => _ end); [done|]. injection H as <- <- <-.
  apply record_outside_iff in Ho. split_and!; [lia|lia|done|done|lia].
Qed.
Lemma read_entries_Ok scope revision count previous c entries rest : zlen c ≤ I64_MAX → read_entries scope revision count previous c = Ok (entries, rest) →
  Forall (λ e, 1 ≤ e.1 ≤ revision ∧ srecord_ok e.2 ∧ in_namespace scope e.2) entries ∧ length entries = count.
Proof.
  revert previous c entries. induction count as [|count IH]; intros previous c entries Hc Hr; cbn [read_entries] in Hr.
  { injection Hr as <- <-. by split. }
  apply bind_Ok in Hr as ([[recorded record] c1] & (He & Hok & Hns & Hlen)%read_entry_Ok & Hr); [|done].
  apply bind_Ok in Hr as ([es c2] & Hes & [= <- <-]). apply IH in Hes as [Hes Hl]; [|lia]. split; [by constructor|cbn; lia].
Qed.
Lemma read_checkpoint_Ok scope revision b count entries : read_checkpoint scope revision b = Ok (count, entries) →
  0 ≤ revision → scope_ok scope ∧ revision ≤ U64_MAX ∧ count ≠ 0 ∧ Forall (λ e, 1 ≤ e.1 ≤ revision ∧ srecord_ok e.2 ∧ in_namespace scope e.2) entries.
Proof.
  intros Hr Hrev. unfold read_checkpoint in Hr. destruct (Z.ltb_spec MAX_SPATIAL_CHECKPOINT_BYTES (zlen b)) as [|Hlen]; [done|].
  apply bind_Ok in Hr as ([magic c1] & H1%map_err_Ok & Hr). apply sc_take_Ok in H1 as [-> _]; [|done]. destruct (negb _); [done|].
  apply bind_Ok in Hr as ([db c2] & H2%map_err_Ok & Hr). apply sc_take_Ok in H2 as [-> Hdb]; [|done].
  apply bind_Ok in Hr as ([ns c3] & H3%map_err_Ok & Hr). apply sc_take_Ok in H3 as [-> Hns]; [|done].
  destruct (bool_decide_reflect (NamespaceRef_new (from_bytes db) (from_bytes ns) = scope)) as [<-|]; [|done]. cbn [negb] in Hr.
  apply bind_Ok in Hr as ([stored c4] & H4%map_err_Ok & Hr). unfold sc_u64 in H4. apply bind_Ok in H4 as ([b4 c4'] & [-> Hb4]%sc_take_Ok & [= <- <-]); [|done].
  pose proof (of_be_bytes_range b4) as Hrange. rewrite Hb4 in Hrange. destruct (Z.eqb_spec (of_be_bytes b4) revision) as [<-|]; [|done]. cbn [negb] in Hr.
  apply bind_Ok in Hr as ([n c5] & H5%map_err_Ok & Hr). unfold sc_u64 in H5. apply bind_Ok in H5 as ([b5 c5'] & [-> Hb5]%sc_take_Ok & [= <- <-]); [|done].
  destruct (_ || _) eqn:Hg in Hr; [done|]. apply orb_false_iff in Hg as [[Hz%Z.eqb_neq _]%orb_false_iff _].
  apply bind_Ok in Hr as ([es c6] & He & Hr). destruct (negb _); [done|]. injection Hr as <- <-.
  apply read_entries_Ok in He as [He _].
  2: { rewrite !zlen_app in Hlen. pose proof (zlen_nonneg magic). pose proof (zlen_nonneg b4). pose proof (zlen_nonneg b5). unfold MAX_SPATIAL_CHECKPOINT_BYTES, I64_MAX in *. lia. }
  split_and!; [|unfold U64_MAX; lia|done|done]. unfold scope_ok, identity_ok. cbn. unfold zlen in *. lia.
Qed.
(** Whatever bytes are restored, the state satisfies the invariant. *)
Lemma decode_checkpoint_inv scope revision b s : 1 ≤ revision → decode_spatial_checkpoint sha256 scope revision b = Some (Ok s) →
  spatial_inv sha256 s ∧ ss_scope s = scope ∧ ss_revision s = Some revision.
Proof.
  intros Hrev Hd. unfold decode_spatial_checkpoint in Hd. destruct (read_checkpoint scope revision b) as [[count entries]|] eqn:Hr; [|done].
  apply read_checkpoint_Ok in Hr as (Hsc & _ & Hcount & He); [|lia].
  apply bind_Some in Hd as (r & Hreb & Hd). injection Hd as Hd. apply bind_Ok in Hd as (c & -> & Hd).
  destruct (Z.eqb_spec (sc_entry_count c) count) as [Hn|]; [|done]. cbn [negb] in Hd. injection Hd as <-.
  assert (Forall (λ e, 1 ≤ e.1 ≤ revision ∧ srecord_ok e.2 ∧ in_namespace scope e.2) (merge_sort restore_le entries)) as He' by (by rewrite merge_sort_Permutation).
  assert (Forall (λ e, 1 ≤ e.1 ≤ revision) (merge_sort restore_le entries)) as Hbounds by (eapply Forall_impl; [exact He'|]; by intros e [? _]).
  destruct (rebuild_inv revision _ _ _ _ (catalog_inv_new sha256) ltac:(cbn; lia) Hbounds Hreb) as (Hi & Hk & Hall).
  split_and!; [|done..]. split; cbn; [done|done| |].
  - split; [done|]. intros Hnil. rewrite (cw_count _ _ _ (ci_wf _ _ Hi)), Hnil in Hn. rewrite zlen_nil in Hn. by symmetry in Hn.
  - apply Forall_forall. intros e [Hin|Hin]%Hall; [by apply elem_of_nil in Hin|]. rewrite Forall_forall in He'. by apply He'.
Qed.

(** Restoring never panics: every batch publishes on the catalog it was prepared
    for, and there are no more batches than entries. *)
Lemma take_group_length r acc entries records rest : take_group r acc entries = Ok (records, rest) → (length rest ≤ length entries)%nat.
Proof. intros (rs & _ & ->)%take_group_Ok. rewrite length_app. lia. Qed.
Lemma rebuild_total fuel entries c : catalog_inv sha256 c → Forall (λ e, 1 ≤ e.1) entries → (length entries ≤ fuel)%nat →
  ∃ r, rebuild sha256 fuel entries c = Some r.
Proof.
  revert entries c. induction fuel as [|fuel IH]; intros entries c Hi He Hlen; destruct entries as [|[r x] entries]; cbn [rebuild]; [by eexists|cbn in Hlen; lia|by eexists|].
  destruct (take_group r [x] entries) as [[records rest]|] eqn:Ht; [|by eexists]. pose proof (take_group_length _ _ _ _ _ Ht) as Hrest.
  apply take_group_Ok in Ht as (rs & -> & ->). apply Forall_cons in He as [Hx He]. cbn in Hx.
  destruct (map_err _ _) as [prepared|] eqn:Hp; [|by eexists]. apply map_err_Ok in Hp.
  destruct (prepare_batch_admit _ _ _ _ Hi Hp) as (a & Ha & Hpub & _). rewrite Hpub. cbn [mbind option_bind].
  apply IH; [by eapply admit_batch_inv|by apply Forall_app in He as [_ ?]|cbn in Hlen; lia].
Qed.
Lemma decode_checkpoint_total scope revision b : 1 ≤ revision → ∃ r, decode_spatial_checkpoint sha256 scope revision b = Some r.
Proof.
  intros Hrev. unfold decode_spatial_checkpoint. destruct (read_checkpoint scope revision b) as [[count entries]|] eqn:Hr; [|by eexists].
  apply read_checkpoint_Ok in Hr as (_ & _ & _ & He); [|lia].
  destruct (rebuild_total (length entries) (merge_sort restore_le entries) SpatialCatalog_new) as [r Hreb].
  - apply catalog_inv_new.
  - rewrite merge_sort_Permutation. apply (Forall_impl _ _ _ He). by intros e [[? _] _].
  - by rewrite merge_sort_Permutation.
  - rewrite Hreb. by eexists.
Qed.

(** ** Reachable states *)
Inductive spatial_reachable (scope : NamespaceRef) : SpatialState → Prop :=
| spatial_new : spatial_reachable scope (SpatialState_new scope)
| spatial_committed s request revision p s' :
    spatial_reachable scope s → 1 ≤ revision → spatial_prepare (B := unit) sha256 s request None revision = Ok p →
    spatial_publish p s = Some s' → spatial_reachable scope s'
| spatial_restored revision b s :
    1 ≤ revision → decode_spatial_checkpoint sha256 scope revision b = Some (Ok s) → spatial_reachable scope s.
Lemma spatial_reachable_inv scope s : spatial_reachable scope s → spatial_inv sha256 s ∧ ss_scope s = scope.
Proof.
  induction 1 as [|s request revision p s' _ [Hi Hs] Hrev Hp Hpub|revision b s Hrev Hd].
  - split; [apply spatial_inv_new|done].
  - destruct (spatial_commit s request None revision p Hi Hrev Hp) as (tx & a & Htx & Hsc & Ha & Hpub').
    rewrite Hpub in Hpub'. injection Hpub' as ->. split; [|done]. apply transaction_iff in Htx as [Htx _]. by eapply spatial_commit_inv.
  - apply decode_checkpoint_inv in Hd as (Hi & Hs & _); done.
Qed.
End reachable.

(** ** Guarantees of reachable states *)

(** ** Histories as of a revision *)
Lemma cut_prefix {T} r (es : list (HistoryEntry T)) : StronglySorted (λ a b, he_revision a ≤ he_revision b) es →
  ∃ later, es = cut r es ++ later ∧ Forall (λ e, r < he_revision e) later.
Proof.
  intros Hs. induction Hs as [|e es Hs IH He]; [by exists []|]. unfold cut. destruct (decide (he_revision e ≤ r)) as [Hle|Hgt].
  - rewrite filter_cons_True by done. destruct IH as (later & Hes & Hl). exists later. split; [|done]. cbn. f_equal. exact Hes.
  - exists (e :: es). rewrite filter_cons_False by done. split.
    + assert (filter (λ e, he_revision e ≤ r) es = []) as ->; [|done]. clear IH Hs. induction He as [|x es Hx _ IH]; [done|]. by rewrite filter_cons_False by lia.
    + constructor; [lia|]. apply (Forall_impl _ _ _ He). intros x. lia.
Qed.
Lemma lookup_cut {T} r (es : list (HistoryEntry T)) i e : StronglySorted (λ a b, he_revision a ≤ he_revision b) es →
  cut r es !! i = Some e ↔ es !! i = Some e ∧ he_revision e ≤ r.
Proof.
  intros (later & Hes & Hl)%(cut_prefix r). split.
  - intros Hi. split; [rewrite Hes; by apply lookup_app_l_Some|]. apply list_elem_of_lookup_2 in Hi. unfold cut in Hi.
    by apply list_elem_of_filter in Hi as [? _].
  - rewrite Hes at 1. intros [[Hi|[_ Hi]]%lookup_app_Some Hr]; [done|]. apply list_elem_of_lookup_2 in Hi. rewrite Forall_forall in Hl. apply Hl in Hi. lia.
Qed.
Section as_of.
Context {T : Type} (m : Histories T).
Context (Hm : ∀ id es, m !! id = Some es → StronglySorted (λ a b, he_revision a ≤ he_revision b) es).
Lemma history_as_of_lookup r id version e :
  history_entry (omap (history_as_of r) m !! id) version = Some e ↔ history_entry (m !! id) version = Some e ∧ he_revision e ≤ r.
Proof.
  rewrite lookup_omap. destruct (m !! id) as [es|] eqn:Hes; cbn [mbind option_bind].
  2: { unfold history_entry. destruct (checked_sub _ _); cbn; naive_solver. }
  assert (history_entry (history_as_of r es) version = history_entry (Some (cut r es)) version) as ->.
  { unfold history_as_of. destruct (cut r es) eqn:Hc; [|done]. unfold history_entry. by destruct (checked_sub _ _). }
  rewrite !history_entry_lookup. destruct (1 <=? version); [|naive_solver]. by apply lookup_cut, (Hm id).
Qed.
(** A read at a revision is a read of the history as of it. *)
Lemma visible_as_of r id version missing :
  visible_entry (history_entry (m !! id) version) r missing = ok_or (he_value <$> history_entry (omap (history_as_of r) m !! id) version) missing.
Proof.
  destruct (history_entry (omap (history_as_of r) m !! id) version) as [e|] eqn:Ha.
  - apply history_as_of_lookup in Ha as [-> Hr]. cbn. by rewrite (proj2 (Z.leb_le _ _)).
  - destruct (history_entry (m !! id) version) as [e|] eqn:He; [|done]. cbn. destruct (Z.leb_spec (he_revision e) r) as [Hle|]; [|done].
    assert (history_entry (omap (history_as_of r) m !! id) version = Some e) by (by apply history_as_of_lookup). congruence.
Qed.
End as_of.
Lemma visible_observation (m : gmap RecordRef (HistoryEntry PositionObservation)) r id missing :
  visible_entry (m !! id) r missing = ok_or (he_value <$> filter (λ e, he_revision e.2 ≤ r) m !! id) missing.
Proof.
  rewrite map_lookup_filter. destruct (m !! id) as [e|]; [|done]. cbn [visible_entry mbind option_bind snd].
  destruct (Z.leb_spec (he_revision e) r); [rewrite option_guard_True by done|rewrite option_guard_False by lia]; done.
Qed.
Lemma wf_sorted sha256 bound c : catalog_wf sha256 bound c →
  (∀ id es, sc_worlds c !! id = Some es → StronglySorted (λ a b, he_revision a ≤ he_revision b) es)
  ∧ (∀ id es, sc_frames c !! id = Some es → StronglySorted (λ a b, he_revision a ≤ he_revision b) es)
  ∧ (∀ id es, sc_geometries c !! id = Some es → StronglySorted (λ a b, he_revision a ≤ he_revision b) es).
Proof.
  intros Hw. split_and!; intros id es Hes; apply Hw in Hes as [_ Hc]; by eapply chained_sorted.
Qed.

(** ** Reads of the past are stable *)
Definition same_reads (k : CommitRevision) (c d : SpatialCatalog) : Prop :=
  (∀ reference, world_at c reference k = world_at d reference k) ∧ (∀ reference, frame_at c reference k = frame_at d reference k)
  ∧ (∀ reference, geometry_at c reference k = geometry_at d reference k) ∧ (∀ id, observation_at c id k = observation_at d id k).
Lemma as_of_reads sha256 b b' k c d : catalog_wf sha256 b c → catalog_wf sha256 b' d → same_maps (as_of k c) (as_of k d) → same_reads k c d.
Proof.
  intros (C1 & C2 & C3)%wf_sorted (D1 & D2 & D3)%wf_sorted (H1 & H2 & H3 & H4). cbn in *.
  split_and!; intros x; unfold world_at, frame_at, geometry_at, observation_at; rewrite ?(visible_as_of _ C1), ?(visible_as_of _ D1),
    ?(visible_as_of _ C2), ?(visible_as_of _ D2), ?(visible_as_of _ C3), ?(visible_as_of _ D3); try congruence.
  by rewrite !visible_observation, H4.
Qed.

(** ** Frames descend from the root of their world *)
Definition exact_frame (c : SpatialCatalog) (reference : VersionedRecordRef) : option FrameDefinition :=
  he_value <$> history_entry (sc_frames c !! vr_record reference) (vr_version reference).
(** The chain of exact ancestor versions, up to a frame without parent. *)
Inductive ancestors (c : SpatialCatalog) : FrameParent → list FrameDefinition → Prop :=
| ancestors_root parent f : exact_frame c (fp_frame parent) = Some f → f_parent f = None → ancestors c parent [f]
| ancestors_step parent f next path :
    exact_frame c (fp_frame parent) = Some f → f_parent f = Some next → ancestors c next path → ancestors c parent (f :: path).
Definition root_of (w : WorldDefinition) : RecordRef := vr_record (w_root_frame w).
(** A frame of a world: its root, or below it within the depth the catalog allows. *)
Definition descends (c : SpatialCatalog) (w : WorldDefinition) (f : FrameDefinition) : Prop :=
  (f_id f = root_of w ∧ f_parent f = None)
  ∨ ∃ parent path, f_parent f = Some parent ∧ ancestors c parent path ∧ zlen path ≤ MAX_FRAME_DEPTH
      ∧ NoDup (f_id f :: (f_id <$> path)) ∧ Forall (λ g, f_world g = f_world f) path ∧ f_id <$> last path = Some (root_of w).
Section lineage.
Context (sha256 : list byte → list byte).
Lemma new_frame_at c revision reference :
  prepared_frame_at (CatalogPreparation_new c revision) reference = ok_or (exact_frame c reference) MissingFrameVersion.
Proof. unfold prepared_frame_at, exact_frame. cbn. by rewrite lookup_empty. Qed.
Lemma new_world c revision id : latest_world (CatalogPreparation_new c revision) id = latest (sc_worlds c !! id).
Proof. unfold latest_world. cbn. by rewrite lookup_empty. Qed.
Lemma new_observation c revision id : prepared_observation (CatalogPreparation_new c revision) id = recorded_observation c id.
Proof. unfold prepared_observation, recorded_observation. cbn. by rewrite lookup_empty. Qed.
Lemma exact_frame_id bound c reference f : catalog_wf sha256 bound c → exact_frame c reference = Some f → f_id f = vr_record reference.
Proof.
  intros Hw. unfold exact_frame. intros (e & He & ->)%fmap_Some. destruct (sc_frames c !! vr_record reference) as [es|] eqn:Hes.
  2: { unfold history_entry in He. by destruct (checked_sub _ _). }
  rewrite history_entry_lookup in He. destruct (1 <=? _); [|done]. destruct (cw_frames _ _ _ Hw _ _ Hes) as [_ Hc]. by apply (chained_at _ _ _ _ _ _ Hc He).
Qed.
Lemma follow_ancestors c revision w f depth seen parent : (∀ reference g, exact_frame c reference = Some g → f_id g = vr_record reference) →
  follow_parents (CatalogPreparation_new c revision) w f depth seen parent = Ok tt →
  ∃ path, ancestors c parent path ∧ (length path ≤ depth)%nat ∧ NoDup (f_id <$> path) ∧ Forall (λ g, f_id g ∉ seen) path
    ∧ Forall (λ g, f_world g = f_world f) path ∧ f_id <$> last path = Some (root_of w).
Proof.
  intros Hid. revert seen parent. induction depth as [|depth IH]; intros seen parent Hf; [done|]. cbn [follow_parents] in Hf.
  case_decide as Hseen; [done|]. rewrite new_frame_at in Hf. apply bind_Ok in Hf as (g & Hg%ok_or_Ok & Hf).
  destruct (bool_decide_reflect (f_world g = f_world f)) as [Hw|]; [|done]. cbn [negb] in Hf. pose proof (Hid _ _ Hg) as Hgid.
  destruct (f_parent g) as [next|] eqn:Hp.
  - apply IH in Hf as (path & Ha & Hl & Hnd & Hns & Hws & Hlast). exists (g :: path). split_and!.
    + by eapply ancestors_step.
    + cbn. lia.
    + rewrite fmap_cons. constructor; [|done]. intros (x & Hx & Hin)%list_elem_of_fmap. rewrite Forall_forall in Hns.
      apply (Hns x Hin), elem_of_union_l, elem_of_singleton. congruence.
    + constructor; [by rewrite Hgid|]. apply (Forall_impl _ _ _ Hns). intros x Hx Hin. by apply Hx, elem_of_union_r.
    + by constructor.
    + rewrite <-Hlast. by destruct path.
  - case_decide as Hroot; [|done]. exists [g]. split_and!; [by apply ancestors_root|cbn; lia|apply NoDup_singleton|..].
    + constructor; [by rewrite Hgid|constructor].
    + by constructor.
    + cbn. by rewrite Hroot.
Qed.
Lemma check_descends c revision f : (∀ reference g, exact_frame c reference = Some g → f_id g = vr_record reference) → catalog_check c revision (SFrame f) = Ok tt →
  ∃ w, latest (sc_worlds c !! f_world f) = Some w ∧ descends c w f.
Proof.
  intros Hid. unfold catalog_check, validate_srecord, validate_frame, world_visible. rewrite new_world.
  intros (w & Hw%ok_or_Ok & Hf)%bind_Ok. exists w. split; [done|]. case_decide as Hroot.
  { left. destruct (f_parent f); [done|]. by rewrite <-Hroot. }
  apply bind_Ok in Hf as (parent & Hp%ok_or_Ok & Hf). right.
  apply follow_ancestors in Hf as (path & Ha & Hl & Hnd & Hns & Hws & Hlast); [|done].
  exists parent, path. split_and!; try done; [unfold zlen, MAX_FRAME_DEPTH in *; lia|]. constructor; [|done].
  intros (x & Hx & Hin)%list_elem_of_fmap. rewrite Forall_forall in Hns. by apply (Hns x Hin), elem_of_singleton.
Qed.
(** The versions of a world share its root. *)
Lemma chained_root id es a b : chained w_id world_follows id es → a ∈ es → b ∈ es → root_of (he_value a) = root_of (he_value b).
Proof.
  assert (∀ es, chained w_id world_follows id es → ∀ x, last es = Some x → Forall (λ e, root_of (he_value e) = root_of (he_value x)) es) as Hgen.
  { induction 1 as [|es' r v Hc IH _ _ Hf _]; intros x Hx; [done|]. rewrite last_snoc in Hx. injection Hx as <-.
    apply Forall_app. split; [|by repeat constructor]. destruct (last es') as [y|] eqn:Hy.
    - cbn in Hf. apply bool_decide_eq_true in Hf. apply (Forall_impl _ _ _ (IH y eq_refl)). intros e ->. exact Hf.
    - apply last_None in Hy as ->. constructor. }
  intros Hc Ha Hb. destruct (last es) as [x|] eqn:Hx; [|apply last_None in Hx as ->; by apply elem_of_nil in Ha].
  pose proof (Hgen _ Hc _ Hx) as Hall. rewrite Forall_forall in Hall. by rewrite (Hall a), (Hall b).
Qed.
Lemma latest_as_of bound c r id w : catalog_wf sha256 bound c → latest (omap (history_as_of r) (sc_worlds c) !! id) = Some w →
  ∃ w', latest (sc_worlds c !! id) = Some w' ∧ root_of w' = root_of w.
Proof.
  intros Hw. rewrite lookup_omap. destruct (sc_worlds c !! id) as [es|] eqn:Hes; [|done]. destruct (cw_worlds _ _ _ Hw _ _ Hes) as [Hne Hc].
  unfold latest. cbn [mbind option_bind]. intros (e & (es' & Hes' & He)%bind_Some & ->)%fmap_Some.
  assert (e ∈ es) as Hin.
  { unfold history_as_of in Hes'. destruct (cut r es) eqn:Hcut; [done|]. injection Hes' as <-. apply last_Some_elem_of in He. rewrite <-Hcut in He.
    unfold cut in He. by apply list_elem_of_filter in He as [_ ?]. }
  destruct (last es) as [x|] eqn:Hx; [|apply last_None in Hx; done]. exists (he_value x). split; [done|].
  apply (chained_root _ _ _ _ Hc); [|done]. by apply last_Some_elem_of.
Qed.
Lemma exact_frame_as_of bound c r reference f : catalog_wf sha256 bound c → exact_frame (as_of r c) reference = Some f → exact_frame c reference = Some f.
Proof.
  intros (_ & Hs & _)%wf_sorted. unfold exact_frame. cbn. intros (e & He & ->)%fmap_Some.
  apply (history_as_of_lookup _ Hs) in He as [-> _]. done.
Qed.
Lemma ancestors_mono c d parent path : (∀ reference f, exact_frame c reference = Some f → exact_frame d reference = Some f) →
  ancestors c parent path → ancestors d parent path.
Proof. intros Hm. induction 1; [apply ancestors_root|eapply ancestors_step]; eauto. Qed.
Lemma wf_as_of_frames bound c r reference f : catalog_wf sha256 bound c → exact_frame (as_of r c) reference = Some f → f_id f = vr_record reference.
Proof. intros Hw Hf. by eapply exact_frame_id, exact_frame_as_of. Qed.
Lemma inv_descends c r f : catalog_inv sha256 c → (r, SFrame f) ∈ catalog_records c →
  ∃ w, latest (sc_worlds c !! f_world f) = Some w ∧ descends c w f.
Proof.
  intros Hi Hin. pose proof (ci_wf _ _ Hi) as Hw. apply (ci_checked _ _ Hi) in Hin.
  apply check_descends in Hin as (w & Hlatest & Hd); [|intros; by eapply wf_as_of_frames].
  apply (latest_as_of _ _ _ _ _ Hw) in Hlatest as (w' & Hlatest & Hroot). exists w'. split; [done|]. unfold descends in *. rewrite Hroot.
  destruct Hd as [|(parent & path & Hp & Ha & Hrest)]; [by left|right]. exists parent, path. split_and!; try done; try apply Hrest.
  eapply ancestors_mono; [|exact Ha]. intros reference g Hg. by eapply exact_frame_as_of.
Qed.
End lineage.

(** ** Retries *)
Section retry.
Context (sha256 : list byte → list byte) (c : SpatialCatalog) (Hi : catalog_inv sha256 c).
Lemma retained_checks revision o r : sc_observations c !! o_id o = Some (mk_entry r o) → known c < revision →
  catalog_check c revision (SObservation o) = Ok tt.
Proof.
  intros Ho Hlt. pose proof (ci_wf _ _ Hi) as Hw. assert ((r, SObservation o) ∈ catalog_records c) as Hin.
  { unfold catalog_records. rewrite !elem_of_app. do 3 right. apply list_elem_of_fmap. exists (mk_entry r o). split; [done|].
    apply elem_of_btree_values. by exists (o_id o). }
  pose proof (cw_revisions _ _ _ Hw) as Hrev. rewrite Forall_forall in Hrev. specialize (Hrev _ Hin). cbn in Hrev.
  apply (ci_checked _ _ Hi) in Hin. revert Hin. unfold catalog_check, validate_srecord, world_visible. rewrite !new_world, !new_frame_at.
  intros (w & (w' & -> & _)%ok_or_Ok%(latest_as_of sha256 _ _ _ _ _ Hw) & Hf)%bind_Ok. cbn [ok_or]. rewrite result_bind_Ok.
  apply bind_Ok in Hf as (f & ->%ok_or_Ok%(exact_frame_as_of sha256 _ _ _ _ _ Hw) & Hf). cbn [ok_or]. rewrite result_bind_Ok.
  destruct (_ || _); [done|]. destruct (o_correction_of o) as [previous|]; [|done].
  apply bind_Ok in Hf as ([q x] & Hx%ok_or_Ok & Hf). apply bind_Some in Hx as ([q' x'] & Hx & Hq). rewrite new_observation in Hx |- *.
  destruct (Z.ltb_spec (q', x').1 r) as [Hqr|]; [|done]. injection Hq as -> ->. cbn in Hqr.
  apply recorded_Some in Hx. cbn in Hx. apply map_lookup_filter_Some in Hx as [Hx _]. apply recorded_Some in Hx. rewrite Hx. cbn [mbind option_bind fst].
  rewrite (proj2 (Z.ltb_lt q revision)) by lia. cbn [ok_or]. rewrite result_bind_Ok. exact Hf.
Qed.
Lemma admit_retained revision a o r : ad_catalog a = c → sc_observations c !! o_id o = Some (mk_entry r o) →
  admit_record sha256 revision a (SObservation o) = Ok (skip a (o_id o) r).
Proof.
  intros Ha Ho. pose proof (ci_wf _ _ Hi) as Hw. unfold admit_record, admit_observation. rewrite Ha.
  assert (category_free c (o_id o) CategoryObservation = Ok tt) as ->.
  { eapply category_free_iff; [done|]. pose proof (cw_disjoint _ _ _ Hw) as (D1 & D2 & D3 & D4 & D5 & D6).
    assert (o_id o ∈ dom (sc_observations c)) as Hin by (apply elem_of_dom; by eexists).
    split_and!; intros Hne Hin'; [by apply (D3 (o_id o))|by apply (D5 (o_id o))|by apply (D6 (o_id o))|done]. }
  rewrite result_bind_Ok. apply recorded_Some in Ho. rewrite Ho. by rewrite decide_True.
Qed.
(** The observations as they are retained. *)
Definition held (observations : list PositionObservation) (revisions : list CommitRevision) : Prop :=
  Forall2 (λ o r, sc_observations c !! o_id o = Some (mk_entry r o)) observations revisions.
Lemma admit_all_retained revision observations revisions a : ad_catalog a = c → held observations revisions →
  try_fold (admit_record sha256 revision) (SObservation <$> observations) a
  = Ok (mk_admission c (ad_outcomes a ++ (Duplicate ∘ o_id <$> observations)) (ad_effects a ++ revisions)).
Proof.
  intros Ha Hh. revert a Ha. induction Hh as [|o r os rs Ho _ IH]; intros a Ha.
  { cbn. rewrite !app_nil_r. destruct a. cbn in Ha. by subst. }
  rewrite fmap_cons. cbn [try_fold]. rewrite (admit_retained _ _ _ r) by done. rewrite result_bind_Ok, IH by done. cbn [skip ad_outcomes ad_effects].
  by rewrite fmap_cons, <-!(assoc_L _).
Qed.
Lemma retry_batch revision observations revisions : held observations revisions → 0 < zlen observations ≤ MAX_SPATIAL_BATCH_RECORDS →
  match sc_last_revision c with Some l => l < revision | None => 1 ≤ revision end →
  admit_batch sha256 revision c (SObservation <$> observations)
  = Ok (mk_admission (committed revision c) (Duplicate ∘ o_id <$> observations) revisions).
Proof.
  intros Hh Hlen Hl. unfold admit_batch. assert (zlen (SObservation <$> observations) = zlen observations) as -> by (unfold zlen; by rewrite length_fmap).
  rewrite (proj2 (Z.ltb_ge _ _)), (proj2 (Z.eqb_neq _ _)) by lia.
  assert (match sc_last_revision c with Some previous => revision <=? previous | None => false end = false) as ->.
  { destruct (sc_last_revision c); [|done]. by apply Z.leb_gt. }
  cbn [orb]. rewrite (admit_all_retained revision observations revisions) by done. rewrite result_bind_Ok. cbn [ad_catalog ad_outcomes ad_effects app].
  rewrite (proj2 (try_each_Ok _ _)); [done|]. apply Forall_fmap. assert (known c < revision) as Hk.
  { unfold known. destruct (sc_last_revision c); cbn; lia. }
  unfold held in Hh. induction Hh as [|o r os rs Ho _ IH]; [constructor|]. constructor; [by eapply retained_checks|].
  destruct os; [constructor|]. apply IH. rewrite zlen_cons in Hlen. rewrite zlen_cons in *. pose proof (zlen_nonneg os). lia.
Qed.
End retry.

(** ** Guarantees *)
Section guarantees.
Context (sha256 : list byte → list byte).
(** The spatial transaction codec is exact: bytes decode to a transaction exactly
    when its scope and records are within their bounds, every record belongs to the
    scope and satisfies the checks of its constructor, and the bytes are its
    canonical encoding.  Oversized requests, trailing bytes and second encodings of
    a record are refused. *)
Theorem spatial_transaction_exact b tx :
  decode_spatial_transaction b = Ok tx ↔ transaction_ok tx ∧ encode_spatial_transaction tx = Ok b.
Proof. apply transaction_iff. Qed.
(** C23: preparing a batch as an overlay over the borrowed catalog and publishing it
    later computes exactly what admitting its records one by one and checking each
    against the resulting catalog would, with the same outcomes, counters and
    content anchor and the same error when it is refused; the publication's
    assertion never fails. *)
Theorem apply_batch_refines scope s revision records : spatial_reachable sha256 scope s →
  apply_batch sha256 (ss_catalog s) revision records
  = Some ((λ a, (ad_catalog a, ad_outcomes a)) <$> admit_batch sha256 revision (ss_catalog s) records).
Proof.
  intros [Hi _]%spatial_reachable_inv. pose proof (si_catalog _ _ Hi) as Hc.
  pose proof (prepare_admits sha256 _ revision records (inv_frames_indexed _ _ Hc) (cw_limits _ _ _ (ci_wf _ _ Hc))) as Hp. unfold apply_batch.
  destruct (prepare_batch _ _ _ _) as [prepared|e], (admit_batch _ _ _ _) as [a|e']; try done; [|by subst]. destruct Hp as (-> & _). done.
Qed.
(** C24: in every reachable state - committed to, or restored from a checkpoint of
    whatever bytes - each retained frame version belongs to a known world and is a
    parentless version of the world's root frame, or its exact ancestor versions all
    exist, lie in the same world, repeat no frame, and lead to the root within the
    allowed depth. *)
Theorem spatial_frames_rooted scope s r f : spatial_reachable sha256 scope s → (r, SFrame f) ∈ catalog_records (ss_catalog s) →
  ∃ w, latest (sc_worlds (ss_catalog s) !! f_world f) = Some w ∧ descends (ss_catalog s) w f.
Proof. intros [Hi _]%spatial_reachable_inv Hin. eapply inv_descends; [apply Hi|done]. Qed.
(** A commit never changes what a read at an earlier revision returns, whether
    the read finds a world, frame, geometry or observation or misses it. *)
Theorem spatial_history_stable scope s request revision p s' k : spatial_reachable sha256 scope s → 1 ≤ revision →
  spatial_prepare (B := unit) sha256 s request None revision = Ok p → spatial_publish p s = Some s' → k < revision →
  same_reads k (ss_catalog s') (ss_catalog s).
Proof.
  intros [Hi _]%spatial_reachable_inv Hrev Hp Hpub Hk. destruct (spatial_commit sha256 s request None revision p Hi Hrev Hp) as (tx & a & _ & _ & Ha & Hpub').
  rewrite Hpub in Hpub'. injection Hpub' as ->. pose proof (si_catalog _ _ Hi) as Hc.
  destruct (batch_extends sha256 revision _ _ _ ltac:(lia) Hc Ha) as (_ & Hw & _ & _ & _ & _ & Has). cbn.
  eapply as_of_reads; [exact Hw|apply Hc|by apply Has].
Qed.
(** C25: checkpoints round-trip: the checkpoint of every reachable state that has
    committed can be written, and decoding it gives back the state, its catalog,
    counters and content anchor included; only the catalog's own last revision
    becomes that of the last retained record, which a commit of retries alone does
    not advance, and the restored state has the same checkpoint. *)
Theorem spatial_checkpoint_roundtrip scope s r : spatial_reachable sha256 scope s → scope_ok scope → ss_revision s = Some r → nonzero_u64 r →
  ∃ b, encode_spatial_checkpoint s = Ok b ∧ decode_spatial_checkpoint sha256 scope r b = Some (Ok (restored s))
    ∧ encode_spatial_checkpoint (restored s) = Ok b.
Proof.
  intros [Hi <-]%spatial_reachable_inv Hsc Hr Hr64. destruct (checkpoint_restores sha256 s r Hi Hsc Hr Hr64) as (b & He & Hd). exists b. split_and!; [done..|].
  rewrite <-He. reflexivity.
Qed.
(** C26: restoring a checkpoint of any bytes returns a state or an error: the rebuild
    ends and no assertion of it fails. *)
Theorem spatial_restore_total scope revision b : 1 ≤ revision → ∃ r, decode_spatial_checkpoint sha256 scope revision b = Some r.
Proof. apply decode_checkpoint_total. Qed.
(** C27: retries are idempotent: committing again observations the catalog retains,
    at any later revision, is accepted, reports each as a duplicate and leaves every
    record, counter and the content anchor as they were. *)
Theorem spatial_retry_idempotent scope s revision observations revisions : spatial_reachable sha256 scope s →
  held (ss_catalog s) observations revisions → 0 < zlen observations ≤ MAX_SPATIAL_BATCH_RECORDS →
  match sc_last_revision (ss_catalog s) with Some l => l < revision | None => 1 ≤ revision end →
  apply_batch sha256 (ss_catalog s) revision (SObservation <$> observations)
  = Some (Ok (committed revision (ss_catalog s), Duplicate ∘ o_id <$> observations)).
Proof.
  intros [Hi _]%spatial_reachable_inv Hh Hlen Hl. pose proof (si_catalog _ _ Hi) as Hc.
  pose proof (prepare_admits sha256 _ revision (SObservation <$> observations) (inv_frames_indexed _ _ Hc) (cw_limits _ _ _ (ci_wf _ _ Hc))) as Hp.
  rewrite (retry_batch sha256 _ Hc revision observations revisions Hh Hlen Hl) in Hp. unfold apply_batch.
  destruct (prepare_batch _ _ _ _) as [prepared|]; [|done]. by destruct Hp as (-> & _).
Qed.
End guarantees.
