(* ===== verification/TxnSpatial.v ===== *)
(** * The spatial reducer under the coordinator

    [impl TransactionState for SpatialState] and [impl CheckpointState for
    SpatialState] discharge what the coordinator asks of a reducer. *)
From S2P Require Import Prelude Ids Policy GraphState GraphCheckpoint GraphQuery Storage Blob Journal TxnGroup TxnCoordinator TxnGuarantees SpatialModel SpatialCodec SpatialCatalog SpatialAdmit SpatialInvariant SpatialState SpatialDurable SpatialGuarantees.

Section spatial.
Context (sha256 : list byte → list byte) (sha256_width : sha256_wide sha256).
#[local] Instance spatial_transaction_state : TransactionState SpatialState := {
  Prepared := PreparedSpatial;
  Snapshot := SpatialState;
  state_prepare s request inventory revision := Some (spatial_prepare sha256 s request inventory revision);
  state_result_digest := psp_result_digest;
  state_publish := spatial_publish;
  state_snapshot := id
}.
#[local] Instance spatial_checkpoint_state : CheckpointState SpatialState := {
  REDUCER_PROFILE := SPATIAL_REDUCER_PROFILE;
  current_checkpoint_scope := ss_scope;
  current_checkpoint_revision := ss_revision;
  current_logical_state_digest := logical_state_digest sha256
}.
(** What publishing relies on. *)
Definition publishable (s : SpatialState) : Prop := frames_indexed (ss_catalog s) ∧ within_limits (ss_catalog s).
Lemma publishable_new scope : publishable (SpatialState_new scope).
Proof. by split. Qed.
Lemma prepared_spatial_publishes s request (inventory : option BlobInventory) revision p : publishable s →
  spatial_prepare sha256 s request inventory revision = Ok p →
  ∃ s', spatial_publish p s = Some s' ∧ publishable s' ∧ ss_revision s' = Some revision.
Proof.
  intros [Hf Hl] (tx & catalog & digest & _ & _ & Hlt & Hc & _ & ->)%spatial_prepare_Ok.
  pose proof (prepare_admits sha256 (ss_catalog s) revision (stx_records tx) Hf Hl) as Hp. rewrite Hc in Hp.
  destruct (admit_batch _ _ _ _) as [a|]; [|done]. destruct Hp as (Hpub & _ & _ & _ & Hcan & Hf' & Hl').
  exists (mk_spatial_state (ss_scope s) (Some revision) (ad_catalog a)). split_and!; [|done..].
  unfold spatial_publish, spatial_can_publish. cbn. rewrite !bool_decide_eq_true_2, Hcan by done. cbn [andb].
  assert (match ss_revision s with Some base => base <? revision | None => true end = true) as ->.
  { destruct (ss_revision s); [|done]. by apply Z.ltb_lt. }
  cbn [andb]. by rewrite Hpub.
Qed.
#[local] Instance spatial_transaction_laws : TransactionStateLaws SpatialState.
Proof.
  refine {| reducer_valid := publishable |}.
  - intros s request inventory revision p Hv [= Hp]. destruct (prepared_spatial_publishes _ _ _ _ _ Hv Hp) as (s' & Hs & Hv' & _). by exists s'.
  - intros s request inventory revision p [= Hp]. apply spatial_prepare_Ok in Hp as (tx & catalog & digest & _ & _ & _ & _ & Hd & ->). cbn.
    unfold digest_effects in Hd. destruct (negb _); [done|]. apply bind_Ok in Hd as (effects & _ & [= <-]). apply sha256_width.
Defined.

(** ** The space a coordinator serves *)
Context {J F : Type} `{JournalLaws J F}.
(** A space that has committed [n] encoded transactions, one after the other from the
    empty space, at the revisions [1] to [n]. *)
Inductive spatial_serves (sc : NamespaceRef) : Z → SpatialState → Prop :=
| serves_new : spatial_serves sc 0 (SpatialState_new sc)
| serves_commit n s request p s' :
    spatial_serves sc n s → spatial_prepare (B := unit) sha256 s request None (n + 1) = Ok p →
    spatial_publish p s = Some s' → spatial_serves sc (n + 1) s'.
Lemma serves_nonneg sc n s : spatial_serves sc n s → 0 ≤ n.
Proof. induction 1; lia. Qed.
Lemma serves_reachable sc n s : spatial_serves sc n s → spatial_reachable sha256 sc s.
Proof.
  induction 1 as [|n s request p s' Hs IH Hp Hpub]; [apply spatial_new|]. apply serves_nonneg in Hs.
  eapply (spatial_committed _ _ _ _ (n + 1)); [exact IH|lia|exact Hp|exact Hpub].
Qed.
Lemma serves_revision sc n s : spatial_serves sc n s → ss_revision s = if decide (n = 0) then None else Some n.
Proof.
  destruct 1 as [|n s request p s' Hs Hp Hpub]; [done|]. apply serves_nonneg in Hs. rewrite decide_False by lia.
  unfold spatial_publish in Hpub. destruct (spatial_can_publish _ _); [|done].
  apply bind_Some in Hpub as ([c o] & _ & [= <-]). apply spatial_prepare_Ok in Hp as (? & ? & ? & _ & _ & _ & _ & _ & ->). done.
Qed.
Lemma replays_spatial scope_ sc log r : log_numbered log → replays sha256 scope_ (SpatialState_new sc) log r →
  spatial_serves sc (zlen log) (rc_state r).
Proof.
  unfold replays. revert r. induction log as [|g log IH] using rev_ind; intros r Hn Hr.
  { injection Hr as <-. apply serves_new. }
  rewrite visit_all_app in Hr. destruct (visit_all _ log _) as [[r1|]|]; [|done..].
  assert (spatial_serves sc (zlen log) (rc_state r1)) as Hs by (apply IH; [intros i x Hi; apply Hn; by apply lookup_app_l_Some|done]).
  cbn [visit_all] in Hr.
  destruct (replay_group _ _ _ _) as [[r2|]|] eqn:Hg; [|done..]. injection Hr as ->.
  apply replay_group_state in Hg as (d & p & _ & Hp & Hpub). cbn in Hp, Hpub. injection Hp as Hp.
  assert (rg_revision g = zlen log + 1) as Hrev by (apply (Hn (length log)); by apply list_lookup_middle).
  rewrite Hrev in Hp. rewrite zlen_app, zlen_cons, zlen_nil. eapply serves_commit; [exact Hs| |exact Hpub].
  unfold spatial_prepare in Hp. by destruct (dg_blob_inventory d).
Qed.
Lemma numbered_frontier log : log_numbered log → log_frontier log = if decide (zlen log = 0) then None else Some (zlen log).
Proof.
  intros Hn. destruct log as [|g log] using rev_ind; [done|]. clear IHlog.
  assert (rg_revision g = zlen log + 1) as Hg by (apply (Hn (length log)); by apply list_lookup_middle).
  unfold log_frontier. rewrite last_snoc, zlen_app, zlen_cons, zlen_nil. pose proof (zlen_nonneg log).
  rewrite decide_False by lia. cbn. by rewrite Hg.
Qed.
(** The spatial engine composes.  In every execution of a coordinator over the
    spatial reducer - commits, refusals, appends of unknown fate, reopenings, over
    any journal that keeps its promises - the spatial state in memory is one that
    committing encoded transactions one after the other from the empty space
    reaches, at the consecutive revisions from one on, so every guarantee of the
    reducer holds for it; and while no outcome is unknown its revision, the number
    of those commits, is the frontier of the journal. *)
Theorem durable_spatial_reachable sc (co : CommitCoordinator (S := SpatialState) (J := J)) (fs : F) :
  coordinator_reachable sha256 (SpatialState_new sc) (co, fs) →
  ∃ n, spatial_serves sc n (cc_state co) ∧ spatial_reachable sha256 sc (cc_state co) ∧
  ss_revision (cc_state co) = (if decide (n = 0) then None else Some n) ∧
  (cc_uncertain co = false → journal_frontier (cc_journal co) = if decide (n = 0) then None else Some n).
Proof.
  intros Hr. destruct (reachable_coordinator_inv sha256 _ _ sha256_width Hr) as [log Hinv]. cbn in Hinv.
  assert (replays sha256 (cc_scope co) (SpatialState_new sc) log (memory co)) as Hrep by (destruct Hinv as [Hinv|Hinv]; apply Hinv).
  assert (log_numbered log) as Hn.
  { destruct Hinv as [(_ & _ & _ & _ & Ho & _)|(_ & _ & _ & _ & _ & [Hd|(g & r & key & o & Hd & _)])].
    - by eapply durable_numbered, owns_closes.
    - by eapply durable_numbered.
    - apply durable_numbered in Hd. intros i x Hi. apply Hd. by apply lookup_app_l_Some. }
  apply (replays_spatial _ _ _ _ Hn) in Hrep. exists (zlen log). split; [done|]. split; [by eapply serves_reachable|].
  split; [by eapply serves_revision|]. intros Hu.
  destruct Hinv as [(_ & _ & _ & _ & Ho & _)|(Hu' & _)]; [|congruence]. by rewrite (owns_frontier _ _ _ Ho), numbered_frontier.
Qed.
End spatial.
