(* ===== verification/SpatialSamples.v ===== *)
(** * Executions of the spatial reducer *)
From S2P Require Import Prelude Ids Value Codec Policy GraphCodec GraphCodecExact GraphState GraphCheckpoint GraphSamples GraphQuery TimeModel TimeNormalize TimeCodec Storage Blob Journal TxnGroup TxnCoordinator TxnGuarantees TxnSamples SpatialModel SpatialCodec SpatialCodecExact SpatialCatalog SpatialAdmit SpatialInvariant SpatialState SpatialDurable SpatialGuarantees TxnSpatial.

(** ** A world with two frames and an observation *)
Definition space_scope : NamespaceRef := NamespaceRef_new (from_bytes (replicate 16 x01)) (from_bytes (replicate 16 x02)).
Definition space_ref (n : Z) : RecordRef := scoped_ref_new (ns_database space_scope) (ns_namespace space_scope) (from_bytes (be_bytes 16 n)).
Definition space_world : WorldDefinition := mk_world (space_ref 1) 1 (VersionedRecordRef_new (space_ref 2) 1).
Definition space_root : FrameDefinition := mk_frame (space_ref 2) 1 (space_ref 1) (CoordinateProfile_new LocalCartesian2) None.
Definition space_parent : FrameParent :=
  mk_frame_parent (VersionedRecordRef_new (space_ref 2) 1) (VersionedRecordRef_new (space_ref 9) 1).
Definition space_frame (version : SpatialVersion) : FrameDefinition :=
  mk_frame (space_ref 3) version (space_ref 1) (CoordinateProfile_new LocalCartesian2) (Some space_parent).
Definition space_time : TimestampEnvelope :=
  mk_envelope (mk_source (space_ref 6) 1 (lit "line 7")) SourceEvent (lit "-1500")
    (mk_interpretation PosixUtc (Some Milliseconds) None None None)
    (Resolved (mk_instant (-2) 500000000) 0) (EpochUnitPrecision Milliseconds) UnknownUncertainty [] None.
Definition space_key : ObservationKey :=
  mk_observation_key (space_ref 7) (lit "session") (scoped_ref_new (ns_database space_scope) (ns_namespace space_scope) (from_bytes (be_bytes 16 8))).
Definition space_observation : PositionObservation :=
  mk_observation (space_ref 4) (space_ref 5) (space_ref 1) (VersionedRecordRef_new (space_ref 3) 1) space_key (space_ref 6) space_time
    (Local2 (mk_local_point2 10 (-20))) (Radial 3) None.
Definition space_records : list SpatialRecord :=
  [SFrame (space_frame 1); SObservation space_observation; SWorld space_world; SFrame space_root].
Definition space_request (records : list SpatialRecord) : list byte :=
  ok_bytes (encode_spatial_transaction (mk_spatial_transaction space_scope records)).
Definition spatial_serve (s : SpatialState) (request : list byte) (revision : CommitRevision) : option SpatialState :=
  match spatial_prepare (B := unit) sample_sha s request None revision with Ok p => spatial_publish p s | Err _ => None end.
Lemma spatial_served scope s request revision s' : spatial_reachable sample_sha scope s → 1 ≤ revision →
  spatial_serve s request revision = Some s' → spatial_reachable sample_sha scope s'.
Proof.
  unfold spatial_serve. intros Hs Hr H. destruct (spatial_prepare _ _ _ _ _) as [p|] eqn:Hp; [|done]. by eapply spatial_committed.
Qed.
Definition space_first : SpatialState := default (SpatialState_new space_scope) (spatial_serve (SpatialState_new space_scope) (space_request space_records) 1).
(** A second version of the child frame, and the observation again. *)
Definition space_second : SpatialState :=
  default space_first (spatial_serve space_first (space_request [SFrame (space_frame 2); SObservation space_observation]) 2).
Lemma space_first_reachable : spatial_reachable sample_sha space_scope space_first.
Proof.
  apply (spatial_served _ (SpatialState_new space_scope) (space_request space_records) 1); [apply spatial_new|done|].
  apply some_default. vm_compute. reflexivity.
Qed.
Lemma space_second_reachable : spatial_reachable sample_sha space_scope space_second.
Proof.
  apply (spatial_served _ space_first (space_request [SFrame (space_frame 2); SObservation space_observation]) 2); [apply space_first_reachable|done|].
  apply some_default. vm_compute. reflexivity.
Qed.

(** ** Witnesses *)
Lemma apply_batch_refines_witness : ∃ a, admit_batch sample_sha 3 (ss_catalog space_second) [SFrame (space_frame 3)] = Ok a ∧
  apply_batch sample_sha (ss_catalog space_second) 3 [SFrame (space_frame 3)] = Some (Ok (ad_catalog a, [])) ∧
  frame_history_len (ad_catalog a) (space_ref 3) = 3.
Proof.
  assert (match admit_batch sample_sha 3 (ss_catalog space_second) [SFrame (space_frame 3)] with
    Ok a => bool_decide (ad_outcomes a = []) && (frame_history_len (ad_catalog a) (space_ref 3) =? 3) | Err _ => false end = true) as Ho by (vm_compute; reflexivity).
  pose proof (apply_batch_refines sample_sha space_scope space_second 3 [SFrame (space_frame 3)] space_second_reachable) as H.
  destruct (admit_batch sample_sha 3 (ss_catalog space_second) [SFrame (space_frame 3)]) as [a|]; [|discriminate Ho].
  exists a. split; [reflexivity|]. apply andb_true_iff in Ho as [Ho%bool_decide_eq_true Hl%Z.eqb_eq]. split; [|exact Hl]. rewrite <-Ho. exact H.
Defined.
Lemma spatial_frames_rooted_witness : ∃ w, latest (sc_worlds (ss_catalog space_second) !! space_ref 1) = Some w ∧
  descends (ss_catalog space_second) w (space_frame 2).
Proof.
  apply (spatial_frames_rooted sample_sha space_scope space_second 2 (space_frame 2) space_second_reachable).
  apply (list_elem_of_lookup_2 _ 3). vm_compute. reflexivity.
Defined.
Lemma spatial_history_stable_witness : same_reads 1 (ss_catalog space_second) (ss_catalog space_first) ∧
  frame_at (ss_catalog space_second) (VersionedRecordRef_new (space_ref 3) 2) 1 = Err SpatialError.MissingFrameVersion ∧
  frame_at (ss_catalog space_second) (VersionedRecordRef_new (space_ref 3) 2) 2 = Ok (space_frame 2).
Proof.
  split; [|split; vm_compute; reflexivity].
  assert (spatial_serve space_first (space_request [SFrame (space_frame 2); SObservation space_observation]) 2 = Some space_second) as Hs
    by (apply some_default; vm_compute; reflexivity).
  unfold spatial_serve in Hs. destruct (spatial_prepare _ _ _ _ _) as [p|] eqn:Hp; [|discriminate Hs].
  eapply (spatial_history_stable sample_sha space_scope space_first); [exact space_first_reachable| |exact Hp|exact Hs|]; lia.
Defined.
Lemma spatial_checkpoint_roundtrip_witness : ∃ b, encode_spatial_checkpoint space_second = Ok b
  ∧ decode_spatial_checkpoint sample_sha space_scope 2 b = Some (Ok (restored space_second)) ∧ encode_spatial_checkpoint (restored space_second) = Ok b.
Proof.
  apply (spatial_checkpoint_roundtrip sample_sha space_scope space_second 2 space_second_reachable); [by split|vm_compute; reflexivity|].
  unfold nonzero_u64, U64_MAX. lia.
Defined.
Lemma spatial_restore_total_witness : ∃ r, decode_spatial_checkpoint sample_sha space_scope 1 (CHECKPOINT_MAGIC ++ replicate 60 x01) = Some r.
Proof. apply (spatial_restore_total sample_sha space_scope 1). lia. Defined.
Lemma spatial_retry_idempotent_witness :
  apply_batch sample_sha (ss_catalog space_second) 3 [SObservation space_observation]
  = Some (Ok (committed 3 (ss_catalog space_second), [Duplicate (space_ref 4)])).
Proof.
  apply (spatial_retry_idempotent sample_sha space_scope space_second 3 [space_observation] [1] space_second_reachable).
  - constructor; [vm_compute; reflexivity|constructor].
  - by split.
  - vm_compute. reflexivity.
Defined.

(** ** The spatial engine *)
#[local] Instance spatial_sample_state : TransactionState SpatialState := spatial_transaction_state sample_sha.
#[local] Instance spatial_sample_laws : TransactionStateLaws SpatialState := spatial_transaction_laws sample_sha sample_sha_wide.
Definition spatial_engine : CommitCoordinator (S := SpatialState) (J := MemoryJournal) * MemoryStore :=
  (coordinator_create space_scope 30 (mk_memory_journal None false) (SpatialState_new space_scope), mk_memory [] [LoseAfter] true).
Definition spatial_engine_request : TransactionRequest :=
  mk_request (PrincipalDigest_from_bytes (be_bytes 32 1)) (from_bytes (be_bytes 16 2)) (from_bytes (be_bytes 16 3)) (space_request space_records) None.
(** The append is lost after it became durable, the space reopened. *)
Definition spatial_commit_lost := commit sample_sha spatial_engine.1 spatial_engine.2 spatial_engine_request (Some sample_accepted) (false, false).
Definition spatial_reopened := match spatial_commit_lost with
  | Some (co, fs, Err TxOutcomeUnknown) => coordinator_open sample_sha (journal_close (cc_journal co) fs) (cc_scope co) (cc_retention co) (SpatialState_new space_scope)
  | _ => None
  end.
Lemma durable_spatial_reachable_witness : ∃ co fs report,
  spatial_reopened = Some (fs, Ok (co, report)) ∧
  spatial_serves sample_sha space_scope 1 (cc_state co) ∧ ss_revision (cc_state co) = Some 1.
Proof.
  assert (match spatial_reopened with Some (_, Ok (co, _)) => bool_decide (mj_frontier (cc_journal co) = Some 1) && negb (cc_uncertain co) | _ => false end = true)
    as Hb by (vm_compute; reflexivity).
  unfold spatial_reopened in *. destruct spatial_commit_lost as [[[co fs] [o|e]]|] eqn:Hc; [discriminate Hb| |discriminate Hb].
  destruct e; try discriminate Hb.
  destruct (coordinator_open _ _ _ _ _) as [[fs' [[co' report]|]]|] eqn:Ho; [|discriminate Hb..].
  apply andb_true_iff in Hb as [Hf%bool_decide_eq_true Hu%negb_true_iff].
  exists co', fs', report. split; [reflexivity|].
  assert (coordinator_reachable sample_sha (SpatialState_new space_scope) (co', fs')) as Hr.
  { exists space_scope, 30, (mk_memory_journal None false), (mk_memory [] [LoseAfter] true).
    split; [apply publishable_new|]. split; [by split|]. split; [by split|].
    split; [exact (conj eq_refl (conj log_numbered_nil (conj eq_refl eq_refl)))|].
    apply (rtc_l _ _ (co, fs)); [|apply rtc_once; by eapply step_reopen].
    eapply step_commit; [|apply sample_observed|exact Hc]. by split_and!. }
  destruct (durable_spatial_reachable sample_sha sample_sha_wide space_scope co' fs' Hr) as (n & Hserves & _ & Hrev & Hfront).
  specialize (Hfront Hu). change (journal_frontier (cc_journal co')) with (mj_frontier (cc_journal co')) in Hfront.
  rewrite Hf in Hfront. destruct (decide (n = 0)); [discriminate Hfront|]. injection Hfront as <-.
  split; [exact Hserves|exact Hrev].
Defined.
