(* ===== verification/IngestModel.v ===== *)
(** * Imports

    Models [crates/uste-ingest/src/model.rs]: bindings of a source and a mapping,
    import checkpoints and how a batch advances them, batches and engine
    transactions.  A [NonZeroU64] is a [Z]; a [MappingProfile] has one value. *)
From S2P Require Import Prelude Ids Storage Blob.

Module ImportError.
Inductive import_error : Set :=
| InvalidEncoding | UnsupportedProfile | InvalidVersion | VersionExhausted | ScopeMismatch | InvalidBatch | InvalidCheckpoint
| MissingJob | JobExists | JobCompleted | SourceChanged | BatchConflict | SourceEventConflict | MissingReference | WrongReferenceKind
| InventoryMismatch | ResourceLimit.
End ImportError.
Abbreviation ImportError := ImportError.import_error.
Abbreviation iresult := (result ImportError).
Import ImportError.

Definition MAX_ROWS_PER_BATCH : Z := 10000.
Definition MAX_IMPORT_ROWS : Z := 1000000000.
Definition MAX_IMPORT_JOBS : Z := 10000.
Definition MAX_IMPORT_BATCHES : Z := 1000000.
Definition NonZeroU64_new (value : Z) : option Z := if value =? 0 then None else Some value.

(** ** Bindings *)
Inductive MappingProfile : Set := TypedRecordsV1.
#[global] Instance MappingProfile_eq_dec : EqDecision MappingProfile.
Proof. solve_decision. Defined.
Record SourceBinding : Set := mk_source_binding { sb_evidence : RecordRef; sb_version : Z; sb_blob : BlobReference }.
#[global] Instance SourceBinding_eq_dec : EqDecision SourceBinding.
Proof. solve_decision. Defined.
Record MappingBinding : Set := mk_mapping_binding {
  mb_evidence : RecordRef; mb_version : Z; mb_blob : BlobReference; mb_profile : MappingProfile
}.
#[global] Instance MappingBinding_eq_dec : EqDecision MappingBinding.
Proof. solve_decision. Defined.
Definition blob_outside (evidence : RecordRef) (blob : BlobReference) : bool :=
  negb (bool_decide (ns_database (blob_scope blob) = ref_database evidence))
  || negb (bool_decide (ns_namespace (blob_scope blob) = ref_namespace evidence)).
Definition SourceBinding_new (evidence : RecordRef) (version : Z) (blob : BlobReference) : iresult SourceBinding :=
  if blob_outside evidence blob then Err ScopeMismatch
  else version ← ok_or (NonZeroU64_new version) InvalidVersion; Ok (mk_source_binding evidence version blob).
Definition MappingBinding_new (evidence : RecordRef) (version : Z) (blob : BlobReference) (profile : MappingProfile) :
    iresult MappingBinding :=
  if blob_outside evidence blob then Err ScopeMismatch
  else version ← ok_or (NonZeroU64_new version) InvalidVersion; Ok (mk_mapping_binding evidence version blob profile).

(** ** Cursors, batch identities and receipts *)
Record ImportCursor : Set := mk_import_cursor { next_row : Z }.
#[global] Instance ImportCursor_eq_dec : EqDecision ImportCursor.
Proof. solve_decision. Defined.
Definition ImportCursor_START : ImportCursor := mk_import_cursor 0.
Definition ImportCursor_new (next_row : Z) : iresult ImportCursor :=
  if next_row <=? MAX_IMPORT_ROWS then Ok (mk_import_cursor next_row) else Err ResourceLimit.
Record ImportBatchId : Set := mk_batch_id { bi_job : RecordRef; bi_sequence : Z }.
#[global] Instance ImportBatchId_eq_dec : EqDecision ImportBatchId.
Proof. solve_decision. Defined.
Definition ImportBatchId_new (job : RecordRef) (sequence : Z) : iresult ImportBatchId :=
  sequence ← ok_or (NonZeroU64_new sequence) InvalidVersion; Ok (mk_batch_id job sequence).
Record MappedRowReceipt : Set := mk_row { row_event : SourceEventRef; row_digest : list byte }.
#[global] Instance MappedRowReceipt_eq_dec : EqDecision MappedRowReceipt.
Proof. solve_decision. Defined.

(** ** Checkpoints of a job *)
Inductive ImportJobStatus : Set := JobOpen | JobFinished.
#[global] Instance ImportJobStatus_eq_dec : EqDecision ImportJobStatus.
Proof. solve_decision. Defined.
Record ImportCheckpoint : Set := mk_checkpoint {
  ick_job : RecordRef;
  ick_version : Z;
  ick_source : SourceBinding;
  ick_mapping : MappingBinding;
  ick_next_batch : Z;
  ick_cursor : ImportCursor;
  ick_accepted_rows : Z;
  ick_first_revision : CommitRevision;
  ick_last_revision : CommitRevision;
  ick_status : ImportJobStatus;
  ick_chain_digest : list byte
}.
#[global] Instance ImportCheckpoint_eq_dec : EqDecision ImportCheckpoint.
Proof. solve_decision. Defined.
Definition started (job : RecordRef) (source : SourceBinding) (mapping : MappingBinding) (revision : CommitRevision)
    (chain_digest : list byte) : ImportCheckpoint :=
  mk_checkpoint job 1 source mapping 1 ImportCursor_START 0 revision revision JobOpen chain_digest.
Definition advanced (c : ImportCheckpoint) (rows : Z) (revision : CommitRevision) (completed : bool) (chain_digest : list byte) :
    iresult ImportCheckpoint :=
  accepted_rows ← ok_or (checked_add (ick_accepted_rows c) rows) ResourceLimit;
  next ← ok_or (checked_add (next_row (ick_cursor c)) rows) ResourceLimit;
  if (MAX_IMPORT_ROWS <? accepted_rows) || (MAX_IMPORT_ROWS <? next) then Err ResourceLimit
  else
    version ← ok_or (checked_add (ick_version c) 1 ≫= NonZeroU64_new) VersionExhausted;
    next_batch ← ok_or (checked_add (ick_next_batch c) 1 ≫= NonZeroU64_new) VersionExhausted;
    cursor ← ImportCursor_new next;
    Ok (mk_checkpoint (ick_job c) version (ick_source c) (ick_mapping c) next_batch cursor accepted_rows (ick_first_revision c) revision
          (if completed then JobFinished else JobOpen) chain_digest).
Definition from_parts (job : RecordRef) (version : Z) (source : SourceBinding) (mapping : MappingBinding) (next_batch : Z)
    (cursor : ImportCursor) (accepted_rows : Z) (first_revision last_revision : CommitRevision) (status : ImportJobStatus)
    (chain_digest : list byte) : iresult ImportCheckpoint :=
  if (MAX_IMPORT_ROWS <? accepted_rows) || negb (accepted_rows =? next_row cursor) || (last_revision <? first_revision)
  then Err InvalidCheckpoint
  else
    version ← ok_or (NonZeroU64_new version) InvalidCheckpoint;
    next_batch ← ok_or (NonZeroU64_new next_batch) InvalidCheckpoint;
    Ok (mk_checkpoint job version source mapping next_batch cursor accepted_rows first_revision last_revision status chain_digest).

(** ** Batches and transactions *)
Record ImportBatch : Set := mk_batch {
  ib_id : ImportBatchId;
  ib_expected : ImportCheckpoint;
  ib_start : ImportCursor;
  ib_rows : list MappedRowReceipt;
  ib_graph_request : list byte;
  ib_spatial_request : option (list byte);
  ib_final : bool
}.
#[global] Instance ImportBatch_eq_dec : EqDecision ImportBatch.
Proof. solve_decision. Defined.
Definition ImportBatch_new (id : ImportBatchId) (expected : ImportCheckpoint) (start : ImportCursor) (rows : list MappedRowReceipt)
    (graph_request : list byte) (spatial_request : option (list byte)) (final_batch : bool) : iresult ImportBatch :=
  if (zlen rows =? 0) || (MAX_ROWS_PER_BATCH <? zlen rows) then Err ResourceLimit
  else if negb (bool_decide (bi_job id = ick_job expected)) || negb (bool_decide (start = ick_cursor expected))
          || (zlen graph_request =? 0)
  then Err InvalidBatch
  else Ok (mk_batch id expected start rows graph_request spatial_request final_batch).
Record ImportStart : Set := mk_start {
  is_job : RecordRef; is_source : SourceBinding; is_mapping : MappingBinding; is_graph_request : list byte
}.
#[global] Instance ImportStart_eq_dec : EqDecision ImportStart.
Proof. solve_decision. Defined.
Definition ImportStart_new (job : RecordRef) (source : SourceBinding) (mapping : MappingBinding) (graph_request : list byte) :
    iresult ImportStart :=
  if zlen graph_request =? 0 then Err InvalidBatch else Ok (mk_start job source mapping graph_request).
Inductive ImportAction : Set := StartJob (start : ImportStart) | ApplyBatch (batch : ImportBatch).
#[global] Instance ImportAction_eq_dec : EqDecision ImportAction.
Proof. solve_decision. Defined.
Inductive EngineTransaction : Set :=
| EngineGraph (scope : NamespaceRef) (graph_request : list byte)
| EngineImport (scope : NamespaceRef) (action : ImportAction).
#[global] Instance EngineTransaction_eq_dec : EqDecision EngineTransaction.
Proof. solve_decision. Defined.
Definition engine_scope (transaction : EngineTransaction) : NamespaceRef :=
  match transaction with EngineGraph scope _ | EngineImport scope _ => scope end.
Inductive ImportBatchOutcome : Set :=
| GraphCommitted
| JobStarted (checkpoint : ImportCheckpoint)
| BatchCommitted (id : ImportBatchId) (revision : CommitRevision) (accepted : Z) (checkpoint : ImportCheckpoint).

(** ** Reads *)
Record ImportJob : Set := mk_job { job_checkpoint : ImportCheckpoint }.
Inductive ImportReadRequest : Set := ReadJob (id : RecordRef).
Inductive ImportReadOutput : Set := JobRead (job : option ImportJob).
