(* ===== verification/IngestCodec.v ===== *)
(** * The codec of engine transactions

    Models [crates/uste-ingest/src/codec.rs].  A [Cursor] is the offset reached and
    the bytes left after it; the bytes a writer appends are returned. *)
From S2P Require Import Prelude Ids Storage Blob IngestModel.
Import ImportError.

Definition REQUEST_MAGIC : list byte := lit "UIRQ" ++ [x00; x01; x00; x00].
Definition MAX_IMPORT_REQUEST_BYTES : Z := 16 * 1024 * 1024.

(** ** Cursors *)
Record Cursor : Set := mk_cursor { cur_offset : Z; cur_rest : list byte }.
Abbreviation reader A := (Cursor → iresult (A * Cursor)).
Definition Cursor_new (input : list byte) : Cursor := mk_cursor 0 input.
Definition remaining (c : Cursor) : Z := zlen (cur_rest c).
Definition ic_take (length : Z) : reader (list byte) := λ c,
  end_ ← ok_or (checked_add (cur_offset c) length) ResourceLimit;
  if length <=? remaining c
  then Ok (take (Z.to_nat length) (cur_rest c), mk_cursor end_ (drop (Z.to_nat length) (cur_rest c)))
  else Err InvalidEncoding.
Definition ic_array (n : nat) : reader (list byte) := ic_take (Z.of_nat n).
Definition ic_u8 : reader Z := λ c, '(bytes, c) ← ic_array 1 c; Ok (of_be_bytes bytes, c).
Definition ic_u32 : reader Z := λ c, '(bytes, c) ← ic_array 4 c; Ok (of_be_bytes bytes, c).
Definition ic_u64 : reader Z := λ c, '(bytes, c) ← ic_array 8 c; Ok (of_be_bytes bytes, c).
Definition ic_zeros (length : nat) : reader unit := λ c,
  '(bytes, c) ← ic_array length c; if all_zero bytes then Ok (tt, c) else Err InvalidEncoding.
Definition ic_frame : reader (list byte) := λ c, '(length, c) ← ic_u64 c; ic_take length c.
(** A value that the bytes read determine. *)
Definition ic_lift {A} (r : iresult A) : reader A := λ c, a ← r; Ok (a, c).

(** ** References *)
Definition encode_scope (scope : NamespaceRef) : list byte := as_bytes (ns_database scope) ++ as_bytes (ns_namespace scope).
Definition decode_scope : reader NamespaceRef := λ c,
  '(database, c) ← ic_array 16 c;
  '(namespace, c) ← ic_array 16 c;
  Ok (NamespaceRef_new (from_bytes database) (from_bytes namespace), c).
Definition encode_record_ref (value : RecordRef) : list byte :=
  encode_scope (NamespaceRef_new (ref_database value) (ref_namespace value)) ++ as_bytes (ref_id value).
Definition decode_record_ref : reader RecordRef := λ c,
  '(scope, c) ← decode_scope c;
  '(record, c) ← ic_array 16 c;
  Ok (scoped_ref_new (ns_database scope) (ns_namespace scope) (from_bytes record), c).
Definition encode_source_event (value : SourceEventRef) : list byte :=
  encode_scope (NamespaceRef_new (ref_database value) (ref_namespace value)) ++ as_bytes (ref_id value).
Definition decode_source_event : reader SourceEventRef := λ c,
  '(scope, c) ← decode_scope c;
  '(event, c) ← ic_array 16 c;
  Ok (scoped_ref_new (ns_database scope) (ns_namespace scope) (from_bytes event), c).
Definition encode_blob (value : BlobReference) : list byte :=
  encode_scope (blob_scope value) ++ blob_bytes (blob_id value) ++ be_bytes 8 (byte_len value) ++ be_bytes 4 (chunk_count value)
  ++ zeros 4 ++ content_digest value.
Definition decode_blob : reader BlobReference := λ c,
  '(scope, c) ← decode_scope c;
  '(id, c) ← ic_array 16 c;
  '(byte_len, c) ← ic_u64 c;
  '(chunk_count, c) ← ic_u32 c;
  '(_, c) ← ic_zeros 4 c;
  '(content_digest, c) ← ic_array 32 c;
  ic_lift (map_err (λ _, InvalidEncoding) (BlobReference_new scope (BlobId_from_bytes id) byte_len chunk_count content_digest)) c.

(** ** Bindings and checkpoints *)
Definition encode_source (value : SourceBinding) : list byte :=
  encode_record_ref (sb_evidence value) ++ be_bytes 8 (sb_version value) ++ encode_blob (sb_blob value).
Definition decode_source : reader SourceBinding := λ c,
  '(evidence, c) ← decode_record_ref c;
  '(version, c) ← ic_u64 c;
  '(blob, c) ← decode_blob c;
  ic_lift (SourceBinding_new evidence version blob) c.
Definition encode_mapping (value : MappingBinding) : list byte :=
  encode_record_ref (mb_evidence value) ++ be_bytes 8 (mb_version value) ++ encode_blob (mb_blob value)
  ++ [match mb_profile value with TypedRecordsV1 => x00 end] ++ zeros 7.
Definition decode_mapping : reader MappingBinding := λ c,
  '(evidence, c) ← decode_record_ref c;
  '(version, c) ← ic_u64 c;
  '(blob, c) ← decode_blob c;
  '(tag, c) ← ic_u8 c;
  profile ← (if tag =? 0 then Ok TypedRecordsV1 else Err UnsupportedProfile);
  '(_, c) ← ic_zeros 7 c;
  ic_lift (MappingBinding_new evidence version blob profile) c.
Definition import_revision (value : Z) : iresult CommitRevision := map_err (λ _, InvalidCheckpoint) (CommitRevision_new value).
Definition encode_import_checkpoint (value : ImportCheckpoint) : list byte :=
  encode_record_ref (ick_job value) ++ be_bytes 8 (ick_version value) ++ encode_source (ick_source value)
  ++ encode_mapping (ick_mapping value) ++ be_bytes 8 (ick_next_batch value) ++ be_bytes 8 (next_row (ick_cursor value))
  ++ be_bytes 8 (ick_accepted_rows value) ++ be_bytes 8 (ick_first_revision value) ++ be_bytes 8 (ick_last_revision value)
  ++ [match ick_status value with JobOpen => x00 | JobFinished => x01 end] ++ zeros 7 ++ ick_chain_digest value.
Definition decode_status (tag : Z) : iresult ImportJobStatus :=
  if tag =? 0 then Ok JobOpen else if tag =? 1 then Ok JobFinished else Err InvalidCheckpoint.
Definition decode_import_checkpoint : reader ImportCheckpoint := λ c,
  '(job, c) ← decode_record_ref c;
  '(version, c) ← ic_u64 c;
  '(source, c) ← decode_source c;
  '(mapping, c) ← decode_mapping c;
  '(next_batch, c) ← ic_u64 c;
  '(position, c) ← ic_u64 c;
  position ← ImportCursor_new position;
  '(accepted_rows, c) ← ic_u64 c;
  '(first_revision, c) ← ic_u64 c;
  first_revision ← import_revision first_revision;
  '(last_revision, c) ← ic_u64 c;
  last_revision ← import_revision last_revision;
  '(tag, c) ← ic_u8 c;
  status ← decode_status tag;
  '(_, c) ← ic_zeros 7 c;
  '(chain_digest, c) ← ic_array 32 c;
  ic_lift (from_parts job version source mapping next_batch position accepted_rows first_revision last_revision status chain_digest) c.

(** ** Batches and transactions *)

(** [encode_frame] and [encode_batch] extend [output]. *)
Definition encode_frame (output bytes : list byte) : iresult (list byte) :=
  next ← ok_or (value ← checked_add (zlen output) 8; checked_add value (zlen bytes)) ResourceLimit;
  if MAX_IMPORT_REQUEST_BYTES <? next then Err ResourceLimit else Ok (output ++ be_bytes 8 (zlen bytes) ++ bytes).
Definition encode_row (row : MappedRowReceipt) : list byte := encode_source_event (row_event row) ++ row_digest row.
Definition encode_batch (output : list byte) (batch : ImportBatch) : iresult (list byte) :=
  let output := output ++ encode_record_ref (bi_job (ib_id batch)) ++ be_bytes 8 (bi_sequence (ib_id batch))
    ++ encode_import_checkpoint (ib_expected batch) ++ be_bytes 8 (next_row (ib_start batch)) in
  if U32_MAX <? zlen (ib_rows batch) then Err ResourceLimit
  else
    let output := output ++ be_bytes 4 (zlen (ib_rows batch)) ++ zeros 4 ++ concat (map encode_row (ib_rows batch)) in
    output ← encode_frame output (ib_graph_request batch);
    output ←
      match ib_spatial_request batch with
      | None => Ok (output ++ zeros 8)
      | Some bytes => encode_frame (output ++ [x01] ++ zeros 7) bytes
      end;
    Ok (output ++ [if ib_final batch then x01 else x00] ++ zeros 7).
Fixpoint decode_rows (count : nat) (c : Cursor) : iresult (list MappedRowReceipt * Cursor) :=
  match count with
  | O => Ok ([], c)
  | S count =>
      '(event, c) ← decode_source_event c;
      '(digest, c) ← ic_array 32 c;
      '(rows, c) ← decode_rows count c;
      Ok (mk_row event digest :: rows, c)
  end.
Definition decode_spatial_request : reader (option (list byte)) := λ c,
  '(tag, c) ← ic_u8 c;
  if tag =? 0 then '(_, c) ← ic_zeros 7 c; Ok (None, c)
  else if tag =? 1 then '(_, c) ← ic_zeros 7 c; '(bytes, c) ← ic_frame c; Ok (Some bytes, c)
  else Err InvalidEncoding.
Definition decode_batch : reader ImportBatch := λ c,
  '(job, c) ← decode_record_ref c;
  '(sequence, c) ← ic_u64 c;
  id ← ImportBatchId_new job sequence;
  '(expected, c) ← decode_import_checkpoint c;
  '(start, c) ← ic_u64 c;
  start ← ImportCursor_new start;
  '(count, c) ← ic_u32 c;
  '(_, c) ← ic_zeros 4 c;
  if (count =? 0) || (MAX_ROWS_PER_BATCH <? count) || (remaining c / 80 <? count) then Err ResourceLimit
  else
    '(rows, c) ← decode_rows (Z.to_nat count) c;
    '(graph_request, c) ← ic_frame c;
    '(spatial_request, c) ← decode_spatial_request c;
    '(tag, c) ← ic_u8 c;
    final_batch ← (if tag =? 0 then Ok false else if tag =? 1 then Ok true else Err InvalidEncoding);
    '(_, c) ← ic_zeros 7 c;
    ic_lift (ImportBatch_new id expected start rows graph_request spatial_request final_batch) c.
Definition encode_engine_transaction (transaction : EngineTransaction) : iresult (list byte) :=
  let output := REQUEST_MAGIC ++ encode_scope (engine_scope transaction) in
  output ←
    match transaction with
    | EngineGraph _ graph_request => encode_frame (output ++ zeros 8) graph_request
    | EngineImport _ action =>
        let output := output ++ [x01] ++ zeros 7 in
        match action with
        | StartJob start =>
            encode_frame (output ++ zeros 8 ++ encode_record_ref (is_job start) ++ encode_source (is_source start)
                          ++ encode_mapping (is_mapping start)) (is_graph_request start)
        | ApplyBatch batch => encode_batch (output ++ [x01] ++ zeros 7) batch
        end
    end;
  if MAX_IMPORT_REQUEST_BYTES <? zlen output then Err ResourceLimit else Ok output.
Definition decode_start : reader ImportStart := λ c,
  '(job, c) ← decode_record_ref c;
  '(source, c) ← decode_source c;
  '(mapping, c) ← decode_mapping c;
  '(graph_request, c) ← ic_frame c;
  ic_lift (ImportStart_new job source mapping graph_request) c.
Definition decode_action : reader ImportAction := λ c,
  '(tag, c) ← ic_u8 c;
  if tag =? 0 then '(_, c) ← ic_zeros 7 c; '(start, c) ← decode_start c; Ok (StartJob start, c)
  else if tag =? 1 then '(_, c) ← ic_zeros 7 c; '(batch, c) ← decode_batch c; Ok (ApplyBatch batch, c)
  else Err UnsupportedProfile.
Definition decode_body (scope : NamespaceRef) (kind : Z) : reader EngineTransaction := λ c,
  if kind =? 0 then '(graph_request, c) ← ic_frame c; Ok (EngineGraph scope graph_request, c)
  else if kind =? 1 then '(action, c) ← decode_action c; Ok (EngineImport scope action, c)
  else Err UnsupportedProfile.
Definition decode_engine_transaction (input : list byte) : iresult EngineTransaction :=
  if MAX_IMPORT_REQUEST_BYTES <? zlen input then Err ResourceLimit
  else
    '(magic, c) ← ic_take 8 (Cursor_new input);
    if negb (bool_decide (magic = REQUEST_MAGIC)) then Err UnsupportedProfile
    else
      '(scope, c) ← decode_scope c;
      '(kind, c) ← ic_u8 c;
      '(_, c) ← ic_zeros 7 c;
      '(transaction, c) ← decode_body scope kind c;
      if negb (remaining c =? 0) then Err InvalidEncoding
      else
        encoded ← encode_engine_transaction transaction;
        if bool_decide (encoded = input) then Ok transaction else Err InvalidEncoding.

(** ** Readers and the bytes they read *)

(** [read] takes exactly [bytes] and returns [a]. *)
Definition reads {A} (bytes : list byte) (read : reader A) (a : A) : Prop :=
  ∀ off rest, 0 ≤ off → off + zlen (bytes ++ rest) ≤ U64_MAX →
    read (mk_cursor off (bytes ++ rest)) = Ok (a, mk_cursor (off + zlen bytes) rest).
(** Whatever [read] returns satisfies [P]. *)
Definition yields {A} (read : reader A) (P : A → Prop) : Prop := ∀ c a c', read c = Ok (a, c') → P a.
Lemma reads_bind {A B} b1 b2 (r1 : reader A) (r2 : A → reader B) a b :
  reads b1 r1 a → reads b2 (r2 a) b → reads (b1 ++ b2) (λ c, '(a, c) ← r1 c; r2 a c) b.
Proof.
  intros H1 H2 off rest Ho Hl. pose proof (zlen_nonneg b1). rewrite !zlen_app in Hl. rewrite <-(assoc_L _).
  rewrite H1 by (rewrite ?zlen_app; lia). rewrite result_bind_Ok, H2 by (rewrite ?zlen_app; lia). by rewrite zlen_app, Z.add_assoc.
Qed.
Lemma reads_map {A B} bytes (r : reader A) (f : A → B) a b : reads bytes r a → f a = b → reads bytes (λ c, '(a, c) ← r c; Ok (f a, c)) b.
Proof. intros H <- off rest Ho Hl. by rewrite H. Qed.
Lemma reads_last {A B} bytes (r : reader A) (f : A → iresult B) a b : reads bytes r a → f a = Ok b →
  reads bytes (λ c, '(a, c) ← r c; ic_lift (f a) c) b.
Proof. intros H Hf off rest Ho Hl. unfold ic_lift. by rewrite H, result_bind_Ok, Hf. Qed.
Lemma reads_check {A B} bytes (r : iresult A) (k : A → reader B) a b : r = Ok a → reads bytes (k a) b → reads bytes (λ c, a ← r; k a c) b.
Proof. intros -> H. exact H. Qed.
Lemma reads_lift {A} (r : iresult A) a : r = Ok a → reads [] (ic_lift r) a.
Proof. intros -> off rest _ _. cbn. by rewrite Z.add_0_r. Qed.
Lemma yields_bind {A B} (r1 : reader A) (r2 : A → reader B) P Q : yields r1 P → (∀ a, P a → yields (r2 a) Q) →
  yields (λ c, '(a, c) ← r1 c; r2 a c) Q.
Proof. intros H1 H2 c b c' ([a c1] & Ha & Hb)%bind_Ok. eapply H2; [|exact Hb]. by eapply H1. Qed.
Lemma yields_check {A B} (r : iresult A) (k : A → reader B) Q : (∀ a, r = Ok a → yields (k a) Q) → yields (λ c, a ← r; k a c) Q.
Proof. intros H c b c' (a & Ha & Hb)%bind_Ok. by eapply H. Qed.
Lemma yields_lift {A} (r : iresult A) (Q : A → Prop) : (∀ a, r = Ok a → Q a) → yields (ic_lift r) Q.
Proof. intros H c b c' (a & Ha & [= <- _])%bind_Ok. by apply H. Qed.
Lemma yields_ret {A} (a : A) (Q : A → Prop) : Q a → yields (λ c, Ok (a, c)) Q.
Proof. intros H c b c' [= <- _]. done. Qed.

(** *** Fields *)
Lemma ic_array_reads n bytes : length bytes = n → reads bytes (ic_array n) bytes.
Proof.
  intros <- off rest Ho Hl. unfold ic_array, ic_take, remaining. cbn [cur_offset cur_rest]. rewrite zlen_app in Hl. pose proof (zlen_nonneg rest).
  change (Z.of_nat (length bytes)) with (zlen bytes).
  assert (checked_add off (zlen bytes) = Some (off + zlen bytes)) as -> by (unfold checked_add; by rewrite (proj2 (Z.leb_le _ _)) by lia).
  cbn [ok_or]. rewrite result_bind_Ok.
  rewrite (proj2 (Z.leb_le _ _)) by (rewrite zlen_app; lia). unfold zlen. by rewrite Nat2Z.id, take_app_length, drop_app_length.
Qed.
Lemma ic_take_reads bytes : reads bytes (ic_take (zlen bytes)) bytes.
Proof. by apply (ic_array_reads (length bytes)). Qed.
Lemma ic_take_width n : 0 ≤ n → yields (ic_take n) (λ bytes, zlen bytes = n).
Proof.
  intros Hn c bytes c'. unfold ic_take, remaining. intros (e & _ & H)%bind_Ok. destruct (Z.leb_spec n (zlen (cur_rest c))) as [Hle|]; [|done]. injection H as <- _.
  unfold zlen in *. rewrite length_take. lia.
Qed.
Lemma ic_array_width n : yields (ic_array n) (λ bytes, length bytes = n).
Proof. intros c bytes c' H. apply ic_take_width in H; [|lia]. unfold zlen in H. lia. Qed.
Lemma be_reads n z : 0 ≤ z < 256 ^ Z.of_nat n → reads (be_bytes n z) (λ c, '(bytes, c) ← ic_array n c; Ok (of_be_bytes bytes, c)) z.
Proof.
  intros Hz. apply (reads_map _ _ of_be_bytes (be_bytes n z)); [apply ic_array_reads, length_be_bytes|by apply of_be_bytes_be].
Qed.
Lemma ic_u64_reads z : 0 ≤ z ≤ U64_MAX → reads (be_bytes 8 z) ic_u64 z.
Proof. intros Hz. apply be_reads. unfold U64_MAX in Hz. cbn. lia. Qed.
Lemma ic_u32_reads z : 0 ≤ z ≤ U32_MAX → reads (be_bytes 4 z) ic_u32 z.
Proof. intros Hz. apply be_reads. unfold U32_MAX in Hz. cbn. lia. Qed.
Lemma ic_u8_reads b : reads [b] ic_u8 (u8 b).
Proof. apply (reads_map [b] (ic_array 1) of_be_bytes [b]); [by apply ic_array_reads|]. unfold of_be_bytes. cbn. lia. Qed.
Lemma ic_zeros_reads n : reads (zeros n) (ic_zeros n) tt.
Proof.
  intros off rest Ho Hl. unfold ic_zeros. rewrite (ic_array_reads n (zeros n) (length_zeros n)), result_bind_Ok, all_zero_zeros by done. done.
Qed.
Lemma be_yields n : yields (λ c, '(bytes, c) ← ic_array n c; Ok (of_be_bytes bytes, c)) (λ z, 0 ≤ z < 256 ^ Z.of_nat n).
Proof.
  eapply yields_bind; [apply ic_array_width|]. intros bytes <-. apply yields_ret. apply of_be_bytes_range.
Qed.
Lemma ic_u64_yields : yields ic_u64 (λ z, 0 ≤ z ≤ U64_MAX).
Proof. intros c z c' H. apply (be_yields 8) in H. unfold U64_MAX. cbn in H. lia. Qed.
Lemma ic_u32_yields : yields ic_u32 (λ z, 0 ≤ z ≤ U32_MAX).
Proof. intros c z c' H. apply (be_yields 4) in H. unfold U32_MAX. cbn in H. lia. Qed.
Lemma frame_reads bytes : zlen bytes ≤ U64_MAX → reads (be_bytes 8 (zlen bytes) ++ bytes) ic_frame bytes.
Proof.
  intros Hl. apply (reads_bind (be_bytes 8 (zlen bytes)) bytes ic_u64 (λ length, ic_take length) (zlen bytes)); [|apply ic_take_reads].
  apply ic_u64_reads. pose proof (zlen_nonneg bytes). lia.
Qed.
Lemma ic_zeros_yields n : yields (ic_zeros n) (λ _, True).
Proof. by intros c [] c'. Qed.
Lemma frame_yields : yields ic_frame (λ bytes, zlen bytes ≤ U64_MAX).
Proof.
  unfold ic_frame. eapply yields_bind; [apply ic_u64_yields|]. intros n [Hn Hm] c bytes c' H. apply ic_take_width in H; [by rewrite H|done].
Qed.
Create HintDb ingest_codec.
#[export] Hint Resolve ic_zeros_yields frame_yields : ingest_codec.
#[export] Hint Resolve ic_u64_reads ic_u32_reads ic_u8_reads ic_zeros_reads frame_reads : ingest_codec.
#[export] Hint Resolve ic_u64_yields ic_u32_yields ic_array_width : ingest_codec.

(** A reader returns well-formed values, and reads back what is written of one. *)
Record exact_reader {A} (ok : A → Prop) (write : A → list byte) (read : reader A) : Prop := {
  er_yields : yields read ok;
  er_reads a : ok a → reads (write a) read a
}.
Ltac yielding := repeat first
  [ eapply yields_bind; [solve [eauto with ingest_codec]|]; intros ? ?
  | apply yields_check; intros ? ? | apply yields_lift; intros ? ? | apply yields_ret ].
Ltac reading :=
  lazymatch goal with
  | |- reads (_ ++ _) _ _ => eapply reads_bind; [solve [eauto with ingest_codec]|reading]
  | |- reads _ _ _ => first [eapply reads_last; [solve [eauto with ingest_codec]|] | eapply reads_map; [solve [eauto with ingest_codec]|]]
  end.
Lemma identity_reads {k} (i : identity k) : identity_ok i → reads (as_bytes i) (ic_array 16) (as_bytes i).
Proof. intros Hi. by apply ic_array_reads. Qed.
#[export] Hint Resolve identity_reads : ingest_codec.
#[export] Hint Extern 1 (reads _ (ic_array _) _) => apply ic_array_reads; assumption : ingest_codec.

(** *** References *)
Lemma scope_exact : exact_reader scope_ok encode_scope decode_scope.
Proof.
  split; [unfold decode_scope; yielding; by split|]. intros [[database] [namespace]] [Hd Hn]. unfold encode_scope, decode_scope. cbn in *. reading. done.
Qed.
#[export] Hint Resolve er_yields er_reads scope_exact : ingest_codec.
Lemma record_ref_exact : exact_reader ref_ok encode_record_ref decode_record_ref.
Proof.
  split; [unfold decode_record_ref; yielding; by split|]. intros [[[database] [namespace]] [record]] [Hs Hi].
  unfold encode_record_ref, decode_record_ref. cbn [ref_database ref_namespace ref_scope ref_id ns_database ns_namespace as_bytes] in *. reading. done.
Qed.
Lemma event_ref_exact : exact_reader ref_ok encode_source_event decode_source_event.
Proof.
  split; [unfold decode_source_event; yielding; by split|]. intros [[[database] [namespace]] [record]] [Hs Hi].
  unfold encode_source_event, decode_source_event. cbn [ref_database ref_namespace ref_scope ref_id ns_database ns_namespace as_bytes] in *. reading. done.
Qed.
Definition blob_ok (r : BlobReference) : Prop :=
  scope_ok (blob_scope r) ∧ blob_reference_ok (blob_scope r) r ∧ valid_reference_shape r = true.
Lemma blob_exact : exact_reader blob_ok encode_blob decode_blob.
Proof.
  split.
  - unfold decode_blob; yielding. match goal with H : _ = Ok ?b |- _ => apply map_err_Ok in H; unfold BlobReference_new in H; destruct (valid_reference_shape _) eqn:Hv; [injection H as <-|done] end.
    by split_and!.
  - intros [scope [id] len chunks digest] (Hs & (_ & Hi & Hl & Hc & Hd) & Hv). unfold encode_blob, decode_blob.
    cbn [blob_scope blob_id blob_bytes byte_len chunk_count content_digest] in *. reading.
    unfold BlobReference_new. by rewrite Hv.
Qed.
#[export] Hint Resolve record_ref_exact event_ref_exact blob_exact : ingest_codec.

(** *** Bindings and checkpoints *)
Lemma NonZeroU64_new_Some v w : 0 ≤ v ≤ U64_MAX → NonZeroU64_new v = Some w ↔ w = v ∧ nonzero_u64 v.
Proof. intros Hv. unfold NonZeroU64_new, nonzero_u64. destruct (Z.eqb_spec v 0); split; intros H; try done; simplify_eq; [lia|split; lia|by destruct H as [-> _]]. Qed.
Lemma nonzero_new v : nonzero_u64 v → NonZeroU64_new v = Some v.
Proof. intros Hv. apply NonZeroU64_new_Some; [unfold nonzero_u64 in Hv; lia|done]. Qed.
Lemma nonzero_range v : nonzero_u64 v → 0 ≤ v ≤ U64_MAX.
Proof. unfold nonzero_u64. lia. Qed.
#[export] Hint Resolve nonzero_range : ingest_codec.
Definition source_ok (b : SourceBinding) : Prop :=
  ref_ok (sb_evidence b) ∧ nonzero_u64 (sb_version b) ∧ blob_ok (sb_blob b) ∧ blob_outside (sb_evidence b) (sb_blob b) = false.
Definition mapping_ok (b : MappingBinding) : Prop :=
  ref_ok (mb_evidence b) ∧ nonzero_u64 (mb_version b) ∧ blob_ok (mb_blob b) ∧ blob_outside (mb_evidence b) (mb_blob b) = false.
Lemma source_exact : exact_reader source_ok encode_source decode_source.
Proof.
  split.
  - unfold decode_source. yielding. unfold SourceBinding_new in *. destruct (blob_outside _ _) eqn:Ho; [done|].
    match goal with H : _ = Ok _ |- _ => apply bind_Ok in H as (v & Hv%ok_or_Ok & [= <-]) end. apply NonZeroU64_new_Some in Hv as [-> ?]; [|done]. by split_and!.
  - intros [evidence version blob] (He & Hv & Hb & Ho). unfold encode_source, decode_source. cbn [sb_evidence sb_version sb_blob] in *. reading.
    unfold SourceBinding_new. rewrite Ho, nonzero_new by done. done.
Qed.
Lemma mapping_exact : exact_reader mapping_ok encode_mapping decode_mapping.
Proof.
  split.
  - unfold decode_mapping. eapply yields_bind; [eauto with ingest_codec|]. intros evidence He. eapply yields_bind; [eauto with ingest_codec|]. intros version Hv.
    eapply yields_bind; [eauto with ingest_codec|]. intros blob Hb. eapply (yields_bind _ _ (λ _, True)); [done|]. intros tag _. yielding.
    unfold MappingBinding_new in *. destruct (blob_outside _ _) eqn:Ho; [done|].
    match goal with H : _ ≫= _ = Ok _ |- _ => apply bind_Ok in H as (v & Hv'%ok_or_Ok & [= <-]) end. apply NonZeroU64_new_Some in Hv' as [-> ?]; [|done]. by split_and!.
  - intros [evidence version blob []] (He & Hv & Hb & Ho). unfold encode_mapping, decode_mapping. cbn [mb_evidence mb_version mb_blob mb_profile] in *.
    do 3 (eapply reads_bind; [solve [eauto with ingest_codec]|]). eapply reads_bind; [apply ic_u8_reads|]. eapply reads_check; [done|]. reading.
    unfold MappingBinding_new. rewrite Ho, nonzero_new by done. done.
Qed.
#[export] Hint Resolve source_exact mapping_exact : ingest_codec.
Definition import_checkpoint_ok (c : ImportCheckpoint) : Prop :=
  ref_ok (ick_job c) ∧ nonzero_u64 (ick_version c) ∧ source_ok (ick_source c) ∧ mapping_ok (ick_mapping c) ∧ nonzero_u64 (ick_next_batch c)
  ∧ 0 ≤ next_row (ick_cursor c) ≤ MAX_IMPORT_ROWS ∧ ick_accepted_rows c = next_row (ick_cursor c)
  ∧ nonzero_u64 (ick_first_revision c) ∧ nonzero_u64 (ick_last_revision c) ∧ ick_first_revision c ≤ ick_last_revision c
  ∧ length (ick_chain_digest c) = 32%nat.
Lemma ImportCursor_new_Ok n c : ImportCursor_new n = Ok c ↔ c = mk_import_cursor n ∧ n ≤ MAX_IMPORT_ROWS.
Proof. unfold ImportCursor_new. destruct (Z.leb_spec n MAX_IMPORT_ROWS); split; intros Hc; [by simplify_eq|by destruct Hc as [-> _]|done|lia]. Qed.
Lemma import_revision_Ok n r : 0 ≤ n ≤ U64_MAX → import_revision n = Ok r ↔ r = n ∧ nonzero_u64 n.
Proof.
  intros Hn. unfold import_revision, CommitRevision_new, nonzero_u64. destruct (Z.eqb_spec n 0); split; intros H; try done; simplify_eq/=; [lia|split; lia|by destruct H as [-> _]].
Qed.
Lemma checkpoint_exact : exact_reader import_checkpoint_ok encode_import_checkpoint decode_import_checkpoint.
Proof.
  split.
  - unfold decode_import_checkpoint. do 5 (eapply yields_bind; [solve [eauto with ingest_codec]|]; intros ? ?).
    eapply yields_bind; [eauto with ingest_codec|]. intros n Hn. apply yields_check. intros position [-> Hp]%ImportCursor_new_Ok.
    eapply yields_bind; [eauto with ingest_codec|]. intros accepted Ha. eapply yields_bind; [eauto with ingest_codec|]. intros first Hf.
    apply yields_check. intros first' [-> Hf']%import_revision_Ok; [|done]. eapply yields_bind; [eauto with ingest_codec|]. intros last Hl.
    apply yields_check. intros last' [-> Hl']%import_revision_Ok; [|done]. eapply (yields_bind _ _ (λ _, True)); [done|]. intros tag _. yielding.
    match goal with H : from_parts _ _ _ _ _ _ _ _ _ _ _ = Ok _ |- _ => rename H into Hparts end.
    unfold from_parts in Hparts. destruct (_ || _) eqn:Hc; [done|].
    apply bind_Ok in Hparts as (v & Hv%ok_or_Ok & Hparts). apply bind_Ok in Hparts as (w & Hw%ok_or_Ok & [= <-]).
    apply NonZeroU64_new_Some in Hv as [-> ?]; [|done]. apply NonZeroU64_new_Some in Hw as [-> ?]; [|done].
    apply orb_false_iff in Hc as [[Hmax Heq]%orb_false_iff Hle]. apply negb_false_iff, Z.eqb_eq in Heq. apply Z.ltb_ge in Hle. cbn in Heq.
    unfold import_checkpoint_ok. cbn beta in *. cbn. split_and!; try done; lia.
  - intros [job version source mapping next [position] accepted first last status chain] (Hj & Hv & Hs & Hm & Hn & Hp & Ha & Hf & Hl & Hle & Hc).
    unfold encode_import_checkpoint, decode_import_checkpoint. cbn [ick_job ick_version ick_source ick_mapping ick_next_batch ick_cursor next_row
      ick_accepted_rows ick_first_revision ick_last_revision ick_status ick_chain_digest] in *. subst accepted.
    assert (0 ≤ position ≤ U64_MAX) by (unfold MAX_IMPORT_ROWS, U64_MAX in *; lia).
    do 5 (eapply reads_bind; [solve [eauto with ingest_codec]|]). eapply reads_bind; [eauto with ingest_codec|].
    eapply (reads_check _ _ _ (mk_import_cursor position)); [apply ImportCursor_new_Ok; split; [done|lia]|]. eapply reads_bind; [eauto with ingest_codec|].
    eapply reads_bind; [eauto with ingest_codec|]. eapply (reads_check _ _ _ first); [apply import_revision_Ok; eauto with ingest_codec|].
    eapply reads_bind; [eauto with ingest_codec|]. eapply (reads_check _ _ _ last); [apply import_revision_Ok; eauto with ingest_codec|]. eapply reads_bind; [apply ic_u8_reads|].
    eapply (reads_check _ _ _ status); [by destruct status|]. reading.
    unfold from_parts. rewrite (proj2 (Z.ltb_ge _ _)), Z.eqb_refl, (proj2 (Z.ltb_ge last first)) by (cbn; lia). cbn [orb negb].
    by rewrite !nonzero_new.
Qed.
#[export] Hint Resolve checkpoint_exact : ingest_codec.

(** *** Batches *)
Definition import_frame (bytes : list byte) : list byte := be_bytes 8 (zlen bytes) ++ bytes.
Definition spatial_bytes (request : option (list byte)) : list byte :=
  match request with None => zeros 8 | Some bytes => [x01] ++ zeros 7 ++ import_frame bytes end.
Definition batch_bytes (b : ImportBatch) : list byte :=
  encode_record_ref (bi_job (ib_id b)) ++ be_bytes 8 (bi_sequence (ib_id b)) ++ encode_import_checkpoint (ib_expected b)
  ++ be_bytes 8 (next_row (ib_start b)) ++ be_bytes 4 (zlen (ib_rows b)) ++ zeros 4 ++ concat (map encode_row (ib_rows b))
  ++ import_frame (ib_graph_request b) ++ spatial_bytes (ib_spatial_request b) ++ [if ib_final b then x01 else x00] ++ zeros 7.
Lemma Ok_inj {E A} (a b : A) : @Ok E A a = Ok b → a = b.
Proof. by intros [= ->]. Qed.
Lemma encode_frame_Ok output bytes output' : encode_frame output bytes = Ok output' ↔
  output' = output ++ import_frame bytes ∧ zlen output' ≤ MAX_IMPORT_REQUEST_BYTES.
Proof.
  assert (zlen (output ++ import_frame bytes) = zlen output + 8 + zlen bytes) as Hl.
  { unfold import_frame. rewrite !zlen_app. assert (zlen (be_bytes 8 (zlen bytes)) = 8) as -> by (unfold zlen at 1; by rewrite length_be_bytes). lia. }
  pose proof (zlen_nonneg output). pose proof (zlen_nonneg bytes). unfold encode_frame, checked_add.
  destruct (Z.leb_spec (zlen output + 8) U64_MAX) as [Ha|Ha]; cbn [mbind option_bind ok_or].
  2: { split; [done|]. intros [-> Hm]. unfold MAX_IMPORT_REQUEST_BYTES, U64_MAX in *. lia. }
  destruct (Z.leb_spec (zlen output + 8 + zlen bytes) U64_MAX) as [Hb|Hb].
  2: { split; [done|]. intros [-> Hm]. unfold MAX_IMPORT_REQUEST_BYTES, U64_MAX in *. lia. }
  cbn [ok_or]. rewrite result_bind_Ok. destruct (Z.ltb_spec MAX_IMPORT_REQUEST_BYTES (zlen output + 8 + zlen bytes)); split; intros Hx.
  - done.
  - destruct Hx as [-> Hx]. lia.
  - assert (output' = output ++ import_frame bytes) as -> by (unfold import_frame; congruence). split; [done|lia].
  - by destruct Hx as [-> _].
Qed.
Lemma encode_batch_Ok output b output' : encode_batch output b = Ok output' → output' = output ++ batch_bytes b.
Proof.
  unfold encode_batch, batch_bytes. destruct (_ <? _); [done|]. intros (o1 & [-> _]%encode_frame_Ok & H)%bind_Ok. apply bind_Ok in H as (o2 & H2 & H).
  apply Ok_inj in H as <-. destruct (ib_spatial_request b) as [bytes|]; [apply encode_frame_Ok in H2 as [-> _]|apply Ok_inj in H2 as <-]; cbn [spatial_bytes];
    by rewrite <-!(assoc_L _).
Qed.
Definition row_ok (row : MappedRowReceipt) : Prop := ref_ok (row_event row) ∧ length (row_digest row) = 32%nat.
Definition batch_ok (b : ImportBatch) : Prop :=
  ref_ok (bi_job (ib_id b)) ∧ nonzero_u64 (bi_sequence (ib_id b)) ∧ import_checkpoint_ok (ib_expected b) ∧ 0 < zlen (ib_rows b) ≤ MAX_ROWS_PER_BATCH
  ∧ Forall row_ok (ib_rows b) ∧ bi_job (ib_id b) = ick_job (ib_expected b) ∧ ib_start b = ick_cursor (ib_expected b) ∧ 0 < zlen (ib_graph_request b).
Lemma length_scope scope : scope_ok scope → length (encode_scope scope) = 32%nat.
Proof. intros [Hd Hn]. unfold encode_scope. by rewrite length_app, Hd, Hn. Qed.
Lemma length_row row : row_ok row → length (encode_row row) = 80%nat.
Proof.
  intros [[Hs Hi] Hd]. unfold encode_row, encode_source_event. rewrite !length_app, length_scope, Hi, Hd; [done|]. by destruct (row_event row) as [[]].
Qed.
Lemma rows_reads rows : Forall row_ok rows → reads (concat (map encode_row rows)) (decode_rows (length rows)) rows.
Proof.
  induction 1 as [|[event digest] rows [He Hd] _ IH]; [intros off rest _ _; cbn; by rewrite Z.add_0_r|]. cbn [map concat length decode_rows].
  unfold encode_row. cbn [row_event row_digest] in *. rewrite <-!(assoc_L _). eapply reads_bind; [eauto with ingest_codec|]. eapply reads_bind; [eauto with ingest_codec|].
  eapply reads_map; [exact IH|done].
Qed.
Lemma rows_yields n : yields (decode_rows n) (λ rows, length rows = n ∧ Forall row_ok rows).
Proof.
  induction n as [|n IH]; cbn [decode_rows]; [by apply yields_ret|]. eapply yields_bind; [eauto with ingest_codec|]. intros event He.
  eapply yields_bind; [eauto with ingest_codec|]. intros digest Hd. eapply yields_bind; [exact IH|]. intros rows [<- Hr]. apply yields_ret. split; [done|]. constructor; [by split|done].
Qed.
Lemma length_rows rows : Forall row_ok rows → zlen (concat (map encode_row rows)) = 80 * zlen rows.
Proof.
  induction 1 as [|row rows Hr _ IH]; [done|]. cbn [map concat]. rewrite zlen_app, zlen_cons, IH. unfold zlen at 1. rewrite (length_row _ Hr). lia.
Qed.
Lemma spatial_reads request : (∀ bytes, request = Some bytes → zlen bytes ≤ U64_MAX) → reads (spatial_bytes request) decode_spatial_request request.
Proof.
  intros Hr. destruct request as [bytes|]; cbn [spatial_bytes]; unfold decode_spatial_request.
  - eapply reads_bind; [apply ic_u8_reads|]. change (u8 x01) with 1. cbn [Z.eqb]. eapply reads_bind; [eauto with ingest_codec|].
    eapply reads_map; [apply frame_reads; by apply Hr|done].
  - change (zeros 8) with ([x00] ++ zeros 7). eapply reads_bind; [apply ic_u8_reads|]. change (u8 x00) with 0. cbn [Z.eqb].
    eapply (reads_map _ (ic_zeros 7) (λ _, None)); [eauto with ingest_codec|done].
Qed.
Lemma reads_counted {A} bytes n (k : reader A) a : 0 < n ≤ MAX_ROWS_PER_BATCH → 80 * n ≤ zlen bytes → reads bytes k a →
  reads bytes (λ c, if (n =? 0) || (MAX_ROWS_PER_BATCH <? n) || (remaining c / 80 <? n) then Err ResourceLimit else k c) a.
Proof.
  intros Hn Hl Hk off rest Ho Hb. rewrite <-(Hk off rest Ho Hb). rewrite (proj2 (Z.eqb_neq _ _)), (proj2 (Z.ltb_ge _ _)) by lia. cbn [orb].
  rewrite (proj2 (Z.ltb_ge _ _)); [done|]. unfold remaining. cbn [cur_rest]. rewrite zlen_app. pose proof (zlen_nonneg rest). apply Z.div_le_lower_bound; lia.
Qed.
Lemma batch_reads b : batch_ok b → zlen (ib_graph_request b) ≤ U64_MAX → (∀ bytes, ib_spatial_request b = Some bytes → zlen bytes ≤ U64_MAX) →
  reads (batch_bytes b) decode_batch b.
Proof.
  destruct b as [[job sequence] expected [start] rows graph spatial final]. unfold batch_ok, batch_bytes, decode_batch.
  cbn [ib_id ib_expected ib_start ib_rows ib_graph_request ib_spatial_request ib_final bi_job bi_sequence next_row].
  intros (Hj & Hs & He & Hn & Hr & Hje & Hst & Hg) Hgl Hsl. pose proof He as (_ & _ & _ & _ & _ & Hp & _). rewrite <-Hst in Hp. cbn [next_row] in Hp.
  assert (0 ≤ start ≤ U64_MAX) by (unfold MAX_IMPORT_ROWS, U64_MAX in *; lia). assert (0 ≤ zlen rows ≤ U32_MAX) by (unfold MAX_ROWS_PER_BATCH, U32_MAX in *; lia).
  do 2 (eapply reads_bind; [eauto with ingest_codec|]). eapply (reads_check _ _ _ (mk_batch_id job sequence)); [unfold ImportBatchId_new; by rewrite nonzero_new|].
  do 2 (eapply reads_bind; [eauto with ingest_codec|]). eapply (reads_check _ _ _ (mk_import_cursor start)); [apply ImportCursor_new_Ok; split; [done|lia]|].
  do 2 (eapply reads_bind; [eauto with ingest_codec|]). apply reads_counted; [done| |].
  { rewrite zlen_app, length_rows by done. pose proof (zlen_nonneg (import_frame graph ++ spatial_bytes spatial ++ [if final then x01 else x00] ++ zeros 7)). lia. }
  unfold zlen at 1. rewrite Nat2Z.id. eapply reads_bind; [by apply rows_reads|]. eapply reads_bind; [by apply frame_reads|]. eapply reads_bind; [by apply spatial_reads|].
  eapply reads_bind; [apply ic_u8_reads|]. eapply (reads_check _ _ _ final); [by destruct final|]. reading.
  unfold ImportBatch_new. cbn [bi_job]. rewrite (proj2 (Z.eqb_neq _ _)), (proj2 (Z.ltb_ge _ _)), !bool_decide_eq_true_2, (proj2 (Z.eqb_neq _ _)) by (done || lia). done.
Qed.
Lemma ImportBatch_new_Ok id expected start rows graph spatial final b : ImportBatch_new id expected start rows graph spatial final = Ok b →
  b = mk_batch id expected start rows graph spatial final ∧ 0 < zlen rows ≤ MAX_ROWS_PER_BATCH ∧ bi_job id = ick_job expected
  ∧ start = ick_cursor expected ∧ 0 < zlen graph.
Proof.
  unfold ImportBatch_new. destruct (_ || _) eqn:Hr; [done|]. destruct (_ || _ || _) eqn:Hc; [done|]. intros [= <-].
  apply orb_false_iff in Hr as [Hz%Z.eqb_neq Hm%Z.ltb_ge]. apply orb_false_iff in Hc as [[Hj Hs]%orb_false_iff Hg%Z.eqb_neq].
  apply negb_false_iff, bool_decide_eq_true in Hj, Hs. pose proof (zlen_nonneg rows). pose proof (zlen_nonneg graph). split_and!; try done; lia.
Qed.
Lemma batch_yields : yields decode_batch batch_ok.
Proof.
  unfold decode_batch. eapply yields_bind; [eauto with ingest_codec|]. intros job Hj. eapply yields_bind; [eauto with ingest_codec|]. intros sequence Hs.
  apply yields_check. intros id (v & Hv%ok_or_Ok & [= <-])%bind_Ok. apply NonZeroU64_new_Some in Hv as [-> Hv]; [|done]. eapply yields_bind; [eauto with ingest_codec|]. intros expected He.
  eapply yields_bind; [eauto with ingest_codec|]. intros start _. apply yields_check. intros start' _. eapply yields_bind; [eauto with ingest_codec|]. intros count _.
  eapply yields_bind; [eauto with ingest_codec|]. intros _ _. intros c b c'. destruct (_ || _); [done|]. revert c b c'.
  eapply yields_bind; [apply rows_yields|]. intros rows [_ Hr]. eapply yields_bind; [eauto with ingest_codec|]. intros graph _.
  eapply (yields_bind _ _ (λ _, True)); [done|]. intros spatial _. eapply (yields_bind _ _ (λ _, True)); [done|]. intros tag _. apply yields_check. intros final _.
  eapply yields_bind; [eauto with ingest_codec|]. intros _ _. apply yields_lift. intros b (-> & Hn & Hje & Hst & Hg)%ImportBatch_new_Ok. unfold batch_ok. cbn [ib_id ib_expected ib_start ib_rows ib_graph_request bi_job bi_sequence] in *. split_and!; done || apply Hn.
Qed.

(** *** Transactions *)
Definition start_ok (s : ImportStart) : Prop :=
  ref_ok (is_job s) ∧ source_ok (is_source s) ∧ mapping_ok (is_mapping s) ∧ 0 < zlen (is_graph_request s).
Definition engine_transaction_ok (tx : EngineTransaction) : Prop :=
  scope_ok (engine_scope tx)
  ∧ match tx with
    | EngineGraph _ _ => True
    | EngineImport _ (StartJob start) => start_ok start
    | EngineImport _ (ApplyBatch batch) => batch_ok batch
    end.
Definition start_bytes (s : ImportStart) : list byte :=
  encode_record_ref (is_job s) ++ encode_source (is_source s) ++ encode_mapping (is_mapping s) ++ import_frame (is_graph_request s).
Definition body_bytes (tx : EngineTransaction) : list byte :=
  match tx with
  | EngineGraph _ graph_request => [x00] ++ zeros 7 ++ import_frame graph_request
  | EngineImport _ (StartJob start) => [x01] ++ zeros 7 ++ [x00] ++ zeros 7 ++ start_bytes start
  | EngineImport _ (ApplyBatch batch) => [x01] ++ zeros 7 ++ [x01] ++ zeros 7 ++ batch_bytes batch
  end.
Lemma encode_engine_Ok tx b : encode_engine_transaction tx = Ok b →
  b = REQUEST_MAGIC ++ encode_scope (engine_scope tx) ++ body_bytes tx ∧ zlen b ≤ MAX_IMPORT_REQUEST_BYTES.
Proof.
  unfold encode_engine_transaction. intros (o & Ho & H)%bind_Ok. destruct (Z.ltb_spec MAX_IMPORT_REQUEST_BYTES (zlen o)) as [|Hl]; [done|]. apply Ok_inj in H as ->.
  split; [|done]. destruct tx as [scope graph|scope [start|batch]]; cbn [engine_scope body_bytes] in *.
  - apply encode_frame_Ok in Ho as [-> _]. change (zeros 8) with ([x00] ++ zeros 7). by rewrite <-!(assoc_L _).
  - apply encode_frame_Ok in Ho as [-> _]. change (zeros 8) with ([x00] ++ zeros 7). unfold start_bytes. by rewrite <-!(assoc_L _).
  - apply encode_batch_Ok in Ho as ->. by rewrite <-!(assoc_L _).
Qed.
Lemma start_exact : yields decode_start start_ok ∧ ∀ s, start_ok s → zlen (is_graph_request s) ≤ U64_MAX → reads (start_bytes s) decode_start s.
Proof.
  split.
  - unfold decode_start. yielding. unfold ImportStart_new in *. destruct (Z.eqb_spec (zlen a2) 0); [done|]. simplify_eq. pose proof (zlen_nonneg a2). split_and!; try done. cbn. lia.
  - intros [job source mapping graph] (Hj & Hs & Hm & Hg) Hl. unfold start_bytes, decode_start. cbn [is_job is_source is_mapping is_graph_request] in *.
    do 3 (eapply reads_bind; [eauto with ingest_codec|]). eapply reads_last; [by apply frame_reads|]. unfold ImportStart_new. by rewrite (proj2 (Z.eqb_neq _ _)) by lia.
Qed.
(** The frames of a transaction. *)
Definition frames (tx : EngineTransaction) : list (list byte) :=
  match tx with
  | EngineGraph _ graph_request => [graph_request]
  | EngineImport _ (StartJob start) => [is_graph_request start]
  | EngineImport _ (ApplyBatch batch) => ib_graph_request batch :: match ib_spatial_request batch with Some bytes => [bytes] | None => [] end
  end.
Ltac zlen_parts := rewrite !zlen_app; repeat match goal with |- context [zlen ?l] =>
  lazymatch goal with _ : 0 ≤ zlen l |- _ => fail | _ => pose proof (zlen_nonneg l) end end; lia.
Lemma frames_bounded tx : Forall (λ bytes, zlen bytes ≤ zlen (body_bytes tx)) (frames tx).
Proof.
  destruct tx as [scope graph|scope [start|batch]]; cbn [frames body_bytes]; unfold start_bytes, batch_bytes;
    repeat constructor; try destruct (ib_spatial_request batch) as [bytes|]; repeat constructor; cbn [spatial_bytes]; unfold import_frame; by zlen_parts.
Qed.
Lemma body_reads scope tx : engine_transaction_ok tx → Forall (λ bytes, zlen bytes ≤ U64_MAX) (frames tx) → engine_scope tx = scope →
  reads (body_bytes tx) (λ c, '(kind, c) ← ic_u8 c; '(_, c) ← ic_zeros 7 c; decode_body scope kind c) tx.
Proof.
  destruct tx as [sc graph|sc [start|batch]]; cbn [engine_scope frames body_bytes]; intros [Hs Ho] Hf ->;
    (eapply reads_bind; [apply ic_u8_reads|]); (eapply reads_bind; [apply ic_zeros_reads|]); unfold decode_body.
  - change (u8 x00) with 0. cbn [Z.eqb]. apply Forall_cons in Hf as [Hf _]. eapply reads_map; [by apply frame_reads|done].
  - change (u8 x01) with 1. cbn [Z.eqb]. apply Forall_cons in Hf as [Hf _]. eapply (reads_map _ decode_action); [|done]. unfold decode_action.
    eapply reads_bind; [apply ic_u8_reads|]. change (u8 x00) with 0. cbn [Z.eqb]. eapply reads_bind; [apply ic_zeros_reads|].
    eapply reads_map; [by apply start_exact|done].
  - change (u8 x01) with 1. cbn [Z.eqb]. apply Forall_cons in Hf as [Hg Hsp]. eapply (reads_map _ decode_action); [|done]. unfold decode_action.
    eapply reads_bind; [apply ic_u8_reads|]. change (u8 x01) with 1. cbn [Z.eqb]. eapply reads_bind; [apply ic_zeros_reads|].
    eapply reads_map; [apply batch_reads; [done..|]|done]. intros bytes Hb. rewrite Hb in Hsp. by apply Forall_cons in Hsp as [? _].
Qed.
Lemma action_yields : yields decode_action (λ action, match action with StartJob start => start_ok start | ApplyBatch batch => batch_ok batch end).
Proof.
  unfold decode_action. eapply (yields_bind _ _ (λ _, True)); [done|]. intros tag _. destruct (tag =? 0); [|destruct (tag =? 1); [|done]].
  - eapply yields_bind; [apply ic_zeros_yields|]. intros _ _. eapply yields_bind; [apply start_exact|]. intros start Hs. by apply yields_ret.
  - eapply yields_bind; [apply ic_zeros_yields|]. intros _ _. eapply yields_bind; [apply batch_yields|]. intros batch Hb. by apply yields_ret.
Qed.
Lemma body_yields scope kind : scope_ok scope → yields (decode_body scope kind) engine_transaction_ok.
Proof.
  intros Hs. unfold decode_body. destruct (kind =? 0); [|destruct (kind =? 1); [|done]].
  - eapply yields_bind; [apply frame_yields|]. intros graph _. by apply yields_ret.
  - eapply yields_bind; [apply action_yields|]. intros action Ha. by apply yields_ret.
Qed.
Lemma engine_transaction_iff b tx : decode_engine_transaction b = Ok tx ↔ engine_transaction_ok tx ∧ encode_engine_transaction tx = Ok b.
Proof.
  unfold decode_engine_transaction. split.
  - destruct (_ <? _); [done|]. intros ([magic c] & _ & H)%bind_Ok. destruct (negb _); [done|]. apply bind_Ok in H as ([scope c1] & Hsc & H).
    apply (er_yields _ _ _ scope_exact) in Hsc. apply bind_Ok in H as ([kind c2] & _ & H). apply bind_Ok in H as ([[] c3] & _ & H).
    apply bind_Ok in H as ([tx' c4] & Htx & H). apply body_yields in Htx; [|done]. destruct (negb _); [done|].
    apply bind_Ok in H as (encoded & He & H). destruct (bool_decide_reflect (encoded = b)) as [->|]; [|done]. apply Ok_inj in H as ->. done.
  - intros [Hok He]. pose proof (encode_engine_Ok _ _ He) as [-> Hl]. rewrite (proj2 (Z.ltb_ge _ _)) by done.
    assert (zlen (body_bytes tx) ≤ U64_MAX) as Hb. { rewrite !zlen_app in Hl. pose proof (zlen_nonneg REQUEST_MAGIC).
      pose proof (zlen_nonneg (encode_scope (engine_scope tx))). unfold MAX_IMPORT_REQUEST_BYTES, U64_MAX in *. lia. }
    set (scope := engine_scope tx) in *. assert (zlen (encode_scope scope) = 32) as Hsl by (unfold zlen; by rewrite (length_scope scope (proj1 Hok))).
    assert (zlen (body_bytes tx) + 40 ≤ U64_MAX) as Hall. { rewrite !zlen_app, Hsl in Hl. change (zlen REQUEST_MAGIC) with 8 in Hl. unfold MAX_IMPORT_REQUEST_BYTES, U64_MAX in *. lia. }
    pose proof (body_reads scope tx Hok (Forall_impl _ _ _ (frames_bounded tx) (λ x Hx, Z.le_trans _ _ _ Hx Hb)) eq_refl 40 [] ltac:(done)) as Hbody.
    rewrite app_nil_r in Hbody. specialize (Hbody ltac:(lia)). cbn beta in Hbody. apply bind_Ok in Hbody as ([kind c2] & Hkind & Hbody).
    apply bind_Ok in Hbody as ([[] c3] & Hzeros & Hbody).
    unfold Cursor_new. change 8 with (zlen REQUEST_MAGIC) at 1. rewrite (ic_take_reads REQUEST_MAGIC 0) by (rewrite ?zlen_app, ?Hsl; change (zlen REQUEST_MAGIC) with 8; lia).
    rewrite result_bind_Ok, bool_decide_eq_true_2 by done. cbn [negb]. change (0 + zlen REQUEST_MAGIC) with 8.
    rewrite (er_reads _ _ _ scope_exact scope (proj1 Hok)) by (rewrite ?zlen_app, ?Hsl; lia). rewrite result_bind_Ok, Hsl. change (8 + 32) with 40.
    rewrite Hkind, result_bind_Ok, Hzeros, result_bind_Ok, Hbody, result_bind_Ok. cbn [remaining cur_rest]. rewrite He, result_bind_Ok. by rewrite bool_decide_eq_true_2.
Qed.
