(* ===== verification/IngestState.v ===== *)
(** * The ingest reducer

    Models [crates/uste-ingest/src/state.rs]: one reducer that commits a graph
    transaction, a spatial transaction and the ledger of import jobs together.
    [None] is a panic: of the graph reducer, or of an assertion of [publish]. *)
From S2P Require Import Prelude Ids Value Policy GraphRecord GraphCodec GraphIndex GraphState GraphCheckpoint GraphQuery Storage Blob SpatialModel SpatialCatalog SpatialState IngestModel IngestCodec.
Import ImportError.

Definition INGEST_REDUCER_PROFILE : list byte := lit "uste-ingest-v1" ++ replicate 17 x00 ++ [x01].
Definition INGEST_CHECKPOINT_MAGIC : list byte := lit "UICP" ++ [x00; x01; x00; x00].
Definition MAX_CHECKPOINT_BYTES : Z := 256 * 1024 * 1024.

(** ** States *)
Record BatchReceipt : Set := mk_receipt {
  rc_request_digest : list byte; rc_revision : CommitRevision; rc_row_count : Z; rc_checkpoint : ImportCheckpoint
}.
#[global] Instance BatchReceipt_eq_dec : EqDecision BatchReceipt.
Proof. solve_decision. Defined.
Record JobState : Set := mk_job_state {
  js_checkpoint : ImportCheckpoint; js_batches : gmap Z BatchReceipt; js_source_events : gmap SourceEventRef (list byte)
}.
Abbreviation Jobs := (gmap RecordRef JobState).
Record EngineSnapshot := mk_engine_snapshot {
  es_scope : NamespaceRef;
  es_revision : option CommitRevision;
  es_graph : GraphSnapshot;
  es_spatial : SpatialSnapshot;
  es_jobs : Jobs;
  es_batch_count : Z
}.
Definition snapshot_job (s : EngineSnapshot) (id : RecordRef) : option ImportJob := (λ job, mk_job (js_checkpoint job)) <$> es_jobs s !! id.
Record IngestState := mk_ingest_state {
  in_scope : NamespaceRef;
  in_revision : option CommitRevision;
  in_graph : GraphState;
  in_spatial : SpatialState;
  in_jobs : Jobs;
  in_source_events : gmap SourceEventRef RecordRef;
  in_batch_count : Z
}.
Definition IngestState_new (scope : NamespaceRef) : IngestState :=
  mk_ingest_state scope None (GraphState_new scope) (SpatialState_new scope) ∅ ∅ 0.
Definition ingest_snapshot (s : IngestState) : EngineSnapshot :=
  mk_engine_snapshot (in_scope s) (in_revision s) (in_graph s) (in_spatial s) (in_jobs s) (in_batch_count s).
Inductive PreparedJobMutation : Set :=
| NoMutation
| MutationStart (job : RecordRef) (state : JobState)
| MutationBatch (job : RecordRef) (expected : ImportCheckpoint) (sequence : Z) (receipt : BatchReceipt)
    (rows : list (SourceEventRef * list byte)).
Definition changed_entries (m : PreparedJobMutation) : Z :=
  match m with NoMutation => 0 | MutationStart _ _ => 1 | MutationBatch _ _ _ _ rows => saturating_add (zlen rows) 1 end.
Record PreparedIngest := mk_prepared_ingest {
  pi_base_revision : option CommitRevision;
  pi_revision : CommitRevision;
  pi_graph : PreparedGraph;
  pi_spatial : option PreparedSpatial;
  pi_job_mutation : PreparedJobMutation;
  pi_outcome : ImportBatchOutcome;
  pi_result_digest : list byte
}.
Definition graph_change_count (p : PreparedIngest) : Z := zlen (p_changes (pi_graph p)).
Definition job_change_count (p : PreparedIngest) : Z := changed_entries (pi_job_mutation p).
Definition has_spatial_change (p : PreparedIngest) : bool := bool_decide (is_Some (pi_spatial p)).
Definition spatial_change_count (p : PreparedIngest) : Z :=
  match pi_spatial p with Some spatial => inserted_record_count spatial | None => 0 end.
Record ImportPreview := mk_preview {
  pv_base_revision : option CommitRevision; pv_proposed_revision : CommitRevision; pv_outcome : ImportBatchOutcome; pv_result_digest : list byte
}.

(** ** Errors *)
Definition map_import_apply (error : ImportError) : ApplyError :=
  match error with
  | SourceChanged => ApplyError.SourceChanged
  | JobExists | BatchConflict | InvalidCheckpoint | SourceEventConflict => ApplyError.Conflict
  | ResourceLimit | VersionExhausted => ApplyError.ResourceLimit
  | _ => ApplyError.InvalidRequest
  end.
Definition map_component_apply (error : ApplyError) : ImportError :=
  match error with
  | ApplyError.Conflict => BatchConflict
  | ApplyError.SourceChanged => SourceChanged
  | ApplyError.ResourceLimit => ResourceLimit
  | ApplyError.InvalidRequest | ApplyError.UnsupportedPredicate => InvalidBatch
  end.
Definition map_import_checkpoint (error : ImportError) : CheckpointStateError :=
  match error with
  | UnsupportedProfile => CheckpointStateError.UnsupportedProfile
  | ResourceLimit | VersionExhausted => CheckpointStateError.ResourceLimit
  | _ => CheckpointStateError.Invalid
  end.
(** Continue with the value of a computation that may panic or fail. *)
Definition or_panic {E A B} (m : option (result E A)) (k : A → result E B) : option (result E B) :=
  r ← m; Some (a ← r; k a).

(** ** Checks against a graph *)
Definition require_scope (scope : NamespaceRef) (id : RecordRef) : iresult unit :=
  if bool_decide (ref_database id = ns_database scope) && bool_decide (ref_namespace id = ns_namespace scope) then Ok tt else Err ScopeMismatch.
Definition require_binding_scope (scope : NamespaceRef) (source : SourceBinding) (mapping : MappingBinding) : iresult unit :=
  require_scope scope (sb_evidence source);;
  require_scope scope (mb_evidence mapping);;
  if negb (bool_decide (blob_scope (sb_blob source) = scope)) || negb (bool_decide (blob_scope (mb_blob mapping) = scope))
  then Err ScopeMismatch else Ok tt.
(** What a record found must be. *)
Definition expect_entity (record : option GRecord) : iresult unit :=
  match record with
  | Some (REntity entity) => if decide (e_lifecycle entity = Active) then Ok tt else Err WrongReferenceKind
  | Some _ => Err WrongReferenceKind
  | None => Err MissingReference
  end.
Definition expect_evidence (record : option GRecord) : iresult unit :=
  match record with Some (REvidence _) => Ok tt | Some _ => Err WrongReferenceKind | None => Err MissingReference end.
Definition expect_bound (version : Z) (blob : BlobReference) (record : option GRecord) : iresult unit :=
  match record with
  | Some (REvidence evidence) =>
      if (ev_version evidence =? version) && bool_decide (ev_digest evidence = content_digest blob) then Ok tt else Err WrongReferenceKind
  | Some _ => Err WrongReferenceKind
  | None => Err MissingReference
  end.
(** The records a spatial record refers to, each checked to be an active entity or
    evidence. *)
Definition external_record (entity evidence : RecordRef → iresult unit) (record : SpatialRecord) : iresult unit :=
  entity (srecord_id record);;
  match record with
  | SWorld value => entity (vr_record (w_root_frame value))
  | SFrame value =>
      entity (f_world value);;
      match f_parent value with
      | Some parent => entity (vr_record (fp_frame parent));; entity (vr_record (fp_transform parent))
      | None => Ok tt
      end
  | SGeometry value =>
      entity (g_world value);;
      entity (vr_record (g_frame value));;
      match g_predecessor value with Some predecessor => entity (vr_record predecessor) | None => Ok tt end
  | SObservation value =>
      entity (o_entity value);;
      entity (o_world value);;
      entity (vr_record (o_frame value));;
      entity (ok_source (o_key value));;
      evidence (o_evidence value);;
      match o_correction_of value with Some previous => entity previous | None => Ok tt end
  end.
Class CurrentGraphLookup (G : Type) := current_record : G → RecordRef → option GRecord.
#[global] Instance GraphSnapshot_lookup : CurrentGraphLookup GraphSnapshot := λ s id, records s !! id.
#[global] Instance PreparedGraphView_lookup : CurrentGraphLookup PreparedGraphView := view_record.
Section current.
Context {G} `{CurrentGraphLookup G} (graph : G).
Definition require_active_entity (id : RecordRef) : iresult unit := expect_entity (current_record graph id).
Definition require_evidence (id : RecordRef) : iresult unit := expect_evidence (current_record graph id).
Definition require_bound_evidence (binding : SourceBinding) : iresult unit :=
  expect_bound (sb_version binding) (sb_blob binding) (current_record graph (sb_evidence binding)).
Definition require_bound_mapping (binding : MappingBinding) : iresult unit :=
  expect_bound (mb_version binding) (mb_blob binding) (current_record graph (mb_evidence binding)).
Definition validate_external_record (record : SpatialRecord) : iresult unit := external_record require_active_entity require_evidence record.
Definition validate_external_closure (records : list SpatialRecord) : iresult unit := try_each validate_external_record records.
Definition validate_job_closure (jobs : Jobs) : iresult unit :=
  try_each (λ entry : RecordRef * JobState,
    require_active_entity entry.1;;
    require_bound_evidence (ick_source (js_checkpoint entry.2));;
    require_bound_mapping (ick_mapping (js_checkpoint entry.2))) (btree_entries jobs).
Definition validate_catalog_closure_import (catalog : SpatialCatalog) : iresult unit :=
  visit_records (λ _ _ record, validate_external_record record) catalog tt.
End current.

(** ** Checks against a revision of the graph *)
Section past.
Context (graph : GraphSnapshot) (revision : CommitRevision).
Definition past_record (id : RecordRef) : iresult (option GRecord) := map_err (λ _, MissingReference) (snapshot_record_at graph revision id).
Definition require_active_entity_at (id : RecordRef) : iresult unit := record ← past_record id; expect_entity record.
Definition require_evidence_at (id : RecordRef) : iresult unit := record ← past_record id; expect_evidence record.
Definition require_bound_evidence_at (binding : SourceBinding) : iresult unit :=
  record ← past_record (sb_evidence binding); expect_bound (sb_version binding) (sb_blob binding) record.
Definition require_bound_mapping_at (binding : MappingBinding) : iresult unit :=
  record ← past_record (mb_evidence binding); expect_bound (mb_version binding) (mb_blob binding) record.
Definition validate_external_record_at (record : SpatialRecord) : iresult unit :=
  external_record require_active_entity_at require_evidence_at record.
End past.

(** ** Preparation *)

(** The derived order of [BlobReference]. *)
Definition blob_sort_key (r : BlobReference) : NamespaceRef * BlobId * Z * Z * list byte :=
  (blob_scope r, blob_id r, byte_len r, chunk_count r, content_digest r).
Definition blob_sort_le (a b : BlobReference) : Prop := key_le (blob_sort_key a) (blob_sort_key b).
#[global] Instance blob_sort_le_dec : RelDecision blob_sort_le.
Proof. intros a b. unfold blob_sort_le. apply _. Defined.
Definition dedup_blob (r : BlobReference) (rest : list BlobReference) : list BlobReference :=
  match rest with next :: _ => if decide (r = next) then rest else r :: rest | [] => [r] end.
Definition validate_inventory (inventory : option BlobInventory) (values : list BlobReference) : iresult unit :=
  inventory ← ok_or inventory InventoryMismatch;
  let expected := merge_sort blob_sort_le values in
  if windows2_any (λ a b, bool_decide (blob_id a = blob_id b) && negb (bool_decide (a = b))) expected then Err InventoryMismatch
  else if bool_decide (inv_references inventory = foldr dedup_blob [] expected) then Ok tt else Err InventoryMismatch.
Definition validate_row (scope : NamespaceRef) (existing : gmap SourceEventRef RecordRef) (seen : gset SourceEventRef) (row : MappedRowReceipt) :
    iresult (gset SourceEventRef) :=
  let event := row_event row in
  if negb (bool_decide (ref_database event = ns_database scope)) || negb (bool_decide (ref_namespace event = ns_namespace scope))
     || bool_decide (event ∈ seen)
  then Err SourceEventConflict
  else if bool_decide (is_Some (existing !! event)) then Err SourceEventConflict
  else Ok ({[event]} ∪ seen).
Definition validate_rows (scope : NamespaceRef) (batch : ImportBatch) (existing : gmap SourceEventRef RecordRef) : iresult unit :=
  try_fold (validate_row scope existing) (ib_rows batch) ∅;;
  match checked_add (next_row (ib_start batch)) (zlen (ib_rows batch)) with
  | Some value => if value <=? MAX_IMPORT_ROWS then Ok tt else Err ResourceLimit
  | None => Err ResourceLimit
  end.
Definition is_deletion (operation : Operation) : bool := match operation with DeleteEntity _ _ _ _ => true | _ => false end.

Section state.
Context (sha256 : list byte → list byte).
Definition prepare_graph (graph : GraphState) (scope : NamespaceRef) (request : list byte) (revision : CommitRevision) (allow_policy : bool) :
    option (iresult (PreparedGraph * list byte)) :=
  if zlen request =? 0 then Some (Err InvalidBatch)
  else
    match map_err (λ _, InvalidEncoding) (decode_transaction request) with
    | Err e => Some (Err e)
    | Ok transaction =>
        if negb (bool_decide (tx_scope transaction = scope))
           || (negb allow_policy && bool_decide (is_Some (tx_policy_mutation transaction)))
           || (negb allow_policy && existsb is_deletion (tx_operations transaction))
        then Some (Err InvalidBatch)
        else
          prepared ← prepare sha256 (B := BlobInventory) graph request None revision;
          Some (prepared ← map_err map_component_apply prepared; Ok (prepared, p_result_digest prepared))
    end.
Definition digest_chain (previous request : list byte) (revision : CommitRevision) (graph : list byte) (spatial : option (list byte)) : list byte :=
  sha256 (lit "USTE-IMPORT-CHAIN-V1" ++ [x00] ++ previous ++ request ++ be_bytes 8 revision ++ graph ++ default (zeros 32) spatial).
Definition outcome_digest_bytes (outcome : ImportBatchOutcome) : list byte :=
  match outcome with
  | GraphCommitted => [x00]
  | JobStarted checkpoint => [x01] ++ ick_chain_digest checkpoint
  | BatchCommitted id revision accepted checkpoint =>
      [x02] ++ be_bytes 8 (bi_sequence id) ++ be_bytes 8 revision ++ be_bytes 4 accepted ++ ick_chain_digest checkpoint
  end.
Definition digest_result (revision : CommitRevision) (request graph : list byte) (spatial : option (list byte)) (outcome : ImportBatchOutcome) :
    list byte :=
  sha256 (lit "USTE-INGEST-RESULT-V1" ++ [x00] ++ be_bytes 8 revision ++ request ++ graph ++ default (zeros 32) spatial
          ++ outcome_digest_bytes outcome).
Abbreviation PreparedDomain := (ImportBatchOutcome * PreparedGraph * option PreparedSpatial * PreparedJobMutation * list byte * option (list byte))%type.
Section domain.
Context (s : IngestState).
(** [EngineTransaction::Graph]. *)
Definition prepare_engine_graph (graph_request : list byte) (blob_inventory : option BlobInventory) (revision : CommitRevision) :
    option (iresult PreparedDomain) :=
  match blob_inventory with
  | Some _ => Some (Err InventoryMismatch)
  | None =>
      or_panic (prepare_graph (in_graph s) (in_scope s) graph_request revision true) (λ '(graph, graph_digest),
        view ← map_err (λ _, InvalidCheckpoint) (prepared_view (in_graph s) graph);
        validate_catalog_closure_import view (ss_catalog (in_spatial s));;
        validate_job_closure view (in_jobs s);;
        Ok (GraphCommitted, graph, None, NoMutation, graph_digest, None))
  end.
Definition check_start (start : ImportStart) (blob_inventory : option BlobInventory) : iresult unit :=
  require_scope (in_scope s) (is_job start);;
  require_binding_scope (in_scope s) (is_source start) (is_mapping start);;
  if bool_decide (is_Some (in_jobs s !! is_job start)) then Err JobExists
  else if map_len (in_jobs s) =? MAX_IMPORT_JOBS then Err ResourceLimit
  else validate_inventory blob_inventory [sb_blob (is_source start); mb_blob (is_mapping start)].
Definition prepare_start (start : ImportStart) (blob_inventory : option BlobInventory) (request_digest : list byte) (revision : CommitRevision) :
    option (iresult PreparedDomain) :=
  match check_start start blob_inventory with
  | Err e => Some (Err e)
  | Ok _ =>
      or_panic (prepare_graph (in_graph s) (in_scope s) (is_graph_request start) revision false) (λ '(graph, graph_digest),
        view ← map_err (λ _, InvalidCheckpoint) (prepared_view (in_graph s) graph);
        require_active_entity view (is_job start);;
        require_bound_evidence view (is_source start);;
        require_bound_mapping view (is_mapping start);;
        let chain_digest := digest_chain (zeros 32) request_digest revision graph_digest None in
        let checkpoint := started (is_job start) (is_source start) (is_mapping start) revision chain_digest in
        Ok (JobStarted checkpoint, graph, None, MutationStart (is_job start) (mk_job_state checkpoint ∅ ∅), graph_digest, None))
  end.
(** The checks of [prepare_batch] before the graph is prepared; the job is returned. *)
Definition check_batch (batch : ImportBatch) (blob_inventory : option BlobInventory) : iresult JobState :=
  if match blob_inventory with Some inventory => negb (inventory_is_empty inventory) | None => false end then Err InventoryMismatch
  else
    require_scope (in_scope s) (bi_job (ib_id batch));;
    job ← ok_or (in_jobs s !! bi_job (ib_id batch)) MissingJob;
    let checkpoint := js_checkpoint job in
    require_active_entity (in_graph s) (bi_job (ib_id batch));;
    require_bound_evidence (in_graph s) (ick_source checkpoint);;
    require_bound_mapping (in_graph s) (ick_mapping checkpoint);;
    if negb (bool_decide (ick_source (ib_expected batch) = ick_source checkpoint))
       || negb (bool_decide (ick_mapping (ib_expected batch) = ick_mapping checkpoint))
    then Err SourceChanged
    else if bi_sequence (ib_id batch) <? ick_next_batch checkpoint then Err BatchConflict
    else if negb (bi_sequence (ib_id batch) =? ick_next_batch checkpoint) || negb (bool_decide (ib_expected batch = checkpoint))
            || negb (bool_decide (ib_start batch = ick_cursor checkpoint))
    then Err InvalidCheckpoint
    else if negb (bool_decide (ick_status checkpoint = JobOpen)) then Err JobCompleted
    else if in_batch_count s =? MAX_IMPORT_BATCHES then Err ResourceLimit
    else validate_rows (in_scope s) batch (in_source_events s);; Ok job.
Definition prepare_batch_spatial (request : option (list byte)) (revision : CommitRevision) :
    iresult (option PreparedSpatial * option (list byte)) :=
  match request with
  | Some request =>
      prepared ← map_err map_component_apply (spatial_prepare sha256 (B := BlobInventory) (in_spatial s) request None revision);
      Ok (Some prepared, Some (psp_result_digest prepared))
  | None => Ok (None, None)
  end.
Definition decode_batch_spatial (request : option (list byte)) : iresult (option SpatialTransaction) :=
  match request with
  | Some request => Some <$> map_err (λ _, InvalidEncoding) (decode_spatial_transaction request)
  | None => Ok None
  end.
Definition finish_batch (batch : ImportBatch) (job : JobState) (request_digest : list byte) (revision : CommitRevision)
    (graph : PreparedGraph) (graph_digest : list byte) : iresult PreparedDomain :=
  graph_view ← map_err (λ _, InvalidCheckpoint) (prepared_view (in_graph s) graph);
  spatial_transaction ← decode_batch_spatial (ib_spatial_request batch);
  '(spatial, spatial_digest) ← prepare_batch_spatial (ib_spatial_request batch) revision;
  let checkpoint := js_checkpoint job in
  require_bound_evidence graph_view (ick_source checkpoint);;
  require_bound_mapping graph_view (ick_mapping checkpoint);;
  match spatial_transaction with Some transaction => validate_external_closure graph_view (stx_records transaction) | None => Ok tt end;;
  let chain_digest := digest_chain (ick_chain_digest checkpoint) request_digest revision graph_digest spatial_digest in
  if U32_MAX <? zlen (ib_rows batch) then Err ResourceLimit
  else
    let row_count := zlen (ib_rows batch) in
    next ← advanced checkpoint row_count revision (ib_final batch) chain_digest;
    let receipt := mk_receipt request_digest revision row_count next in
    Ok (BatchCommitted (ib_id batch) revision row_count next, graph, spatial,
        MutationBatch (bi_job (ib_id batch)) checkpoint (bi_sequence (ib_id batch)) receipt (map (λ row, (row_event row, row_digest row)) (ib_rows batch)),
        graph_digest, spatial_digest).
Definition ingest_prepare_batch (batch : ImportBatch) (blob_inventory : option BlobInventory) (request_digest : list byte) (revision : CommitRevision) :
    option (iresult PreparedDomain) :=
  match check_batch batch blob_inventory with
  | Err e => Some (Err e)
  | Ok job =>
      or_panic (prepare_graph (in_graph s) (in_scope s) (ib_graph_request batch) revision false) (λ '(graph, graph_digest),
        finish_batch batch job request_digest revision graph graph_digest)
  end.
Definition next_ingest_revision : iresult CommitRevision :=
  match in_revision s with
  | Some current => map_err (λ _, VersionExhausted) (CommitRevision_checked_next current)
  | None => Ok CommitRevision_FIRST
  end.
Definition prepare_action (transaction : EngineTransaction) (blob_inventory : option BlobInventory) (request_digest : list byte) (revision : CommitRevision) :
    option (iresult PreparedDomain) :=
  match transaction with
  | EngineGraph _ graph_request => prepare_engine_graph graph_request blob_inventory revision
  | EngineImport _ (StartJob start) => prepare_start start blob_inventory request_digest revision
  | EngineImport _ (ApplyBatch batch) => ingest_prepare_batch batch blob_inventory request_digest revision
  end.
Definition prepare_domain (transaction : EngineTransaction) (canonical_request : list byte) (blob_inventory : option BlobInventory)
    (revision : CommitRevision) : option (iresult PreparedIngest) :=
  match next_ingest_revision with
  | Err e => Some (Err e)
  | Ok expected_revision =>
      if negb (bool_decide (engine_scope transaction = in_scope s)) || negb (revision =? expected_revision) then Some (Err InvalidCheckpoint)
      else
        let request_digest := sha256 canonical_request in
        or_panic (prepare_action transaction blob_inventory request_digest revision)
          (λ '(outcome, graph, spatial, job_mutation, graph_digest, spatial_digest),
            Ok (mk_prepared_ingest (in_revision s) revision graph spatial job_mutation outcome
                  (digest_result revision request_digest graph_digest spatial_digest outcome)))
  end.
Definition preview (transaction : EngineTransaction) (blob_inventory : option BlobInventory) : option (iresult ImportPreview) :=
  match revision ← next_ingest_revision; canonical_request ← encode_engine_transaction transaction; Ok (revision, canonical_request) with
  | Err e => Some (Err e)
  | Ok (revision, canonical_request) =>
      or_panic (prepare_domain transaction canonical_request blob_inventory revision)
        (λ prepared, Ok (mk_preview (in_revision s) revision (pi_outcome prepared) (pi_result_digest prepared)))
  end.
Definition ingest_prepare (canonical_request : list byte) (blob_inventory : option BlobInventory) (revision : CommitRevision) :
    option (result ApplyError PreparedIngest) :=
  match map_err map_import_apply (decode_engine_transaction canonical_request) with
  | Err e => Some (Err e)
  | Ok transaction => map_err map_import_apply <$> prepare_domain transaction canonical_request blob_inventory revision
  end.
End domain.
End state.

(** ** Publication *)
Definition mutation_fits (s : IngestState) (mutation : PreparedJobMutation) : bool :=
  match mutation with
  | NoMutation => true
  | MutationStart job _ => negb (bool_decide (is_Some (in_jobs s !! job)))
  | MutationBatch job expected sequence _ rows =>
      match in_jobs s !! job with
      | Some current =>
          bool_decide (js_checkpoint current = expected) && negb (bool_decide (is_Some (js_batches current !! sequence)))
          && forallb (λ row : SourceEventRef * list byte, negb (bool_decide (is_Some (in_source_events s !! row.1)))) rows
      | None => false
      end
  end.
(** The ledger after a mutation: jobs, source events and batch count. *)
Definition insert_row (job : RecordRef) (acc : gmap SourceEventRef (list byte) * gmap SourceEventRef RecordRef) (row : SourceEventRef * list byte) :
    gmap SourceEventRef (list byte) * gmap SourceEventRef RecordRef :=
  (<[row.1 := row.2]> acc.1, <[row.1 := job]> acc.2).
Definition apply_mutation (s : IngestState) (mutation : PreparedJobMutation) : option (Jobs * gmap SourceEventRef RecordRef * Z) :=
  match mutation with
  | NoMutation => Some (in_jobs s, in_source_events s, in_batch_count s)
  | MutationStart job state => Some (<[job := state]> (in_jobs s), in_source_events s, in_batch_count s)
  | MutationBatch job _ sequence receipt rows =>
      state ← in_jobs s !! job;
      let '(events, source_events) := foldl (insert_row job) (js_source_events state, in_source_events s) rows in
      batch_count ← checked_add (in_batch_count s) 1;
      Some (<[job := mk_job_state (rc_checkpoint receipt) (<[sequence := receipt]> (js_batches state)) events]> (in_jobs s), source_events, batch_count)
  end.
Definition publish_spatial (prepared : option PreparedSpatial) (s : SpatialState) : option SpatialState :=
  match prepared with Some prepared => spatial_publish prepared s | None => Some s end.
Definition ingest_publish (p : PreparedIngest) (s : IngestState) : option IngestState :=
  if bool_decide ((in_revision s, revision (in_graph s)) = (pi_base_revision p, pi_base_revision p))
     && can_publish (in_graph s) (pi_graph p)
     && match pi_spatial p with Some spatial => spatial_can_publish (in_spatial s) spatial | None => true end
     && mutation_fits s (pi_job_mutation p)
  then
    graph ← publish (pi_graph p) (in_graph s);
    spatial ← publish_spatial (pi_spatial p) (in_spatial s);
    '(jobs, source_events, batch_count) ← apply_mutation s (pi_job_mutation p);
    Some (mk_ingest_state (in_scope s) (Some (pi_revision p)) graph spatial jobs source_events batch_count)
  else None.

(** ** Authorization *)
#[global] Instance Target_eq_dec : EqDecision Target.
Proof. solve_decision. Defined.
#[global] Instance Target_countable : Countable Target.
Proof.
  refine (inj_countable' (λ t, match t with TNamespace scope => inl scope | TRecord record => inr record end)
    (λ x, match x with inl scope => TNamespace scope | inr record => TRecord record end) _); by intros [].
Defined.
#[global] Instance Target_lexico : Lexico Target := λ a b,
  match a, b with
  | TNamespace x, TNamespace y => lexico x y
  | TNamespace _, TRecord _ => True
  | TRecord x, TRecord y => lexico x y
  | TRecord _, TNamespace _ => False
  end.
#[global] Instance Target_lexico_po : StrictOrder (@lexico Target _).
Proof.
  split.
  - intros [x|x] H; by apply (irreflexivity lexico x).
  - intros [x|x] [y|y] [z|z]; unfold lexico, Target_lexico; try done; by intros; trans y.
Qed.
#[global] Instance Target_lexico_trichotomy : TrichotomyT (@lexico Target _).
Proof.
  red; refine (λ a b,
    match a, b with
    | TNamespace x, TNamespace y => cast_trichotomy (trichotomyT lexico x y)
    | TNamespace _, TRecord _ => inleft (left I)
    | TRecord _, TNamespace _ => inright I
    | TRecord x, TRecord y => cast_trichotomy (trichotomyT lexico x y)
    end); abstract (unfold lexico, Target_lexico; first [done|congruence]).
Defined.
Abbreviation target_set := (gset (Action * Target)).
Definition demand (pairs : list (Action * Target)) (output : target_set) : target_set := foldl (λ out p, {[p]} ∪ out) output pairs.
(** The identities a spatial record is checked to be readable for. *)
Definition spatial_reads_of (record : SpatialRecord) : list RecordRef :=
  srecord_id record ::
  match record with
  | SWorld value => [vr_record (w_root_frame value)]
  | SFrame value =>
      f_world value :: match f_parent value with Some parent => [vr_record (fp_frame parent); vr_record (fp_transform parent)] | None => [] end
  | SGeometry value =>
      g_world value :: vr_record (g_frame value) :: match g_predecessor value with Some predecessor => [vr_record predecessor] | None => [] end
  | SObservation value =>
      o_entity value :: o_world value :: vr_record (o_frame value) :: ok_source (o_key value) :: o_evidence value
      :: match o_correction_of value with Some previous => [previous] | None => [] end
  end.
Definition collect_spatial_requirements (scope : NamespaceRef) (output : target_set) (record : SpatialRecord) : iresult target_set :=
  let read : gset RecordRef := list_to_set (spatial_reads_of record) in
  try_fold (λ output id, require_scope scope id;; Ok (demand [(ReadRecord, TRecord id)] output)) (btree_elements read)
    (demand [(Commit, TRecord (srecord_id record))] output).
(** The job, bindings and requests of an action, with its inventory checked. *)
Definition action_parts (action : ImportAction) (blob_inventory : option BlobInventory) :
    iresult (RecordRef * SourceBinding * MappingBinding * list byte * option (list byte)) :=
  match action with
  | StartJob start =>
      validate_inventory blob_inventory [sb_blob (is_source start); mb_blob (is_mapping start)];;
      Ok (is_job start, is_source start, is_mapping start, is_graph_request start, None)
  | ApplyBatch batch =>
      if match blob_inventory with Some inventory => negb (inventory_is_empty inventory) | None => false end then Err InventoryMismatch
      else Ok (bi_job (ib_id batch), ick_source (ib_expected batch), ick_mapping (ib_expected batch), ib_graph_request batch, ib_spatial_request batch)
  end.
Definition collect_import_requirements (scope : NamespaceRef) (action : ImportAction) (blob_inventory : option BlobInventory) (output : target_set) :
    iresult target_set :=
  '(job, source, mapping, graph_request, spatial_request) ← action_parts action blob_inventory;
  require_scope scope job;;
  require_binding_scope scope source mapping;;
  let output := demand [(Commit, TRecord job); (ReadRecord, TRecord job); (ReadRecord, TRecord (sb_evidence source));
                        (ReadRecord, TRecord (mb_evidence mapping))] output in
  if zlen graph_request =? 0 then Err InvalidBatch
  else
    graph ← map_err (λ _, InvalidEncoding) (decode_transaction graph_request);
    if negb (bool_decide (tx_scope graph = scope)) || bool_decide (is_Some (tx_policy_mutation graph)) || existsb is_deletion (tx_operations graph)
    then Err InvalidBatch
    else
      requirements ← map_err map_component_apply (authorization_requirements (B := BlobInventory) graph_request None);
      let output := demand (map (λ requirement, (req_action requirement, req_target requirement)) requirements) output in
      match spatial_request with
      | Some bytes =>
          transaction ← map_err (λ _, InvalidEncoding) (decode_spatial_transaction bytes);
          if negb (bool_decide (stx_scope transaction = scope)) then Err ScopeMismatch
          else try_fold (collect_spatial_requirements scope) (stx_records transaction) output
      | None => Ok output
      end.
Definition ingest_authorization_requirements (canonical_request : list byte) (blob_inventory : option BlobInventory) :
    result ApplyError (list AuthorizationRequirement) :=
  transaction ← map_err map_import_apply (decode_engine_transaction canonical_request);
  match transaction with
  | EngineGraph _ graph_request => authorization_requirements graph_request blob_inventory
  | EngineImport scope action =>
      requirements ← map_err map_import_apply
        (collect_import_requirements scope action blob_inventory (demand [(Import, TNamespace scope); (Commit, TNamespace scope)] ∅));
      map_err (λ _, ApplyError.ResourceLimit)
        (AuthorizationRequirements_new (map (λ p : Action * Target, mk_requirement p.1 p.2) (btree_elements requirements)))
  end.
Definition ingest_durable_namespace_policy (s : EngineSnapshot) : option NamespacePolicy := policy (es_graph s).
Definition ingest_durable_policy_change (canonical_request : list byte) : result ApplyError (option (PolicyVersion * NamespacePolicy)) :=
  transaction ← map_err map_import_apply (decode_engine_transaction canonical_request);
  match transaction with EngineGraph _ graph_request => durable_policy_change graph_request | EngineImport _ _ => Ok None end.
Definition ingest_read_requirements (request : ImportReadRequest) : result ApplyError (list AuthorizationRequirement) :=
  let 'ReadJob id := request in
  let namespace := TNamespace (NamespaceRef_new (ref_database id) (ref_namespace id)) in
  map_err (λ _, ApplyError.ResourceLimit)
    (AuthorizationRequirements_new [mk_requirement Import namespace; mk_requirement ReadRecord (TRecord id); mk_requirement ReadBlob namespace]).
Definition ingest_read_authorized (s : EngineSnapshot) (request : ImportReadRequest) (authorize_candidate : Action → Target → bool) :
    iresult ImportReadOutput :=
  let 'ReadJob id := request in
  require_scope (es_scope s) id;;
  match (if authorize_candidate ReadRecord (TRecord id) then snapshot_job s id else None) with
  | None => Ok (JobRead None)
  | Some job =>
      let checkpoint := job_checkpoint job in
      if authorize_candidate ReadRecord (TRecord (sb_evidence (ick_source checkpoint)))
         && authorize_candidate ReadRecord (TRecord (mb_evidence (ick_mapping checkpoint)))
         && authorize_candidate ReadBlob (TNamespace (es_scope s))
      then Ok (JobRead (Some job)) else Ok (JobRead None)
  end.
