(* ===== verification/IngestCheckpoint.v ===== *)
(** * Checkpoints of the ingest reducer

    Models the [CheckpointState] half of [crates/uste-ingest/src/state.rs].  The
    decoder reads the components and checks the ledger of every job against them;
    [None] is a panic of the spatial restore. *)
From S2P Require Import Prelude Ids Value Policy GraphRecord GraphCodec GraphIndex GraphState GraphCheckpoint GraphQuery Storage Blob SpatialModel SpatialCatalog SpatialState IngestModel IngestCodec IngestState.
Import CheckpointStateError.

Abbreviation cresult := (result CheckpointStateError).

(** ** Writing *)
Definition checkpoint_extend (bytes output : list byte) : cresult (list byte) :=
  next ← ok_or (checked_add (zlen output) (zlen bytes)) ResourceLimit;
  if MAX_CHECKPOINT_BYTES <? next then Err ResourceLimit else Ok (output ++ bytes).
Definition checkpoint_u64 (value : Z) (output : list byte) : cresult (list byte) := checkpoint_extend (be_bytes 8 value) output.
Definition checkpoint_u32 (value : Z) (output : list byte) : cresult (list byte) := checkpoint_extend (be_bytes 4 value) output.
Definition checkpoint_frame (bytes output : list byte) : cresult (list byte) :=
  output ← checkpoint_u64 (zlen bytes) output; checkpoint_extend bytes output.
Definition write_receipt (output : list byte) (entry : Z * BatchReceipt) : cresult (list byte) :=
  output ← checkpoint_u64 entry.1 output;
  output ← checkpoint_extend (rc_request_digest entry.2) output;
  output ← checkpoint_u64 (rc_revision entry.2) output;
  output ← checkpoint_u32 (rc_row_count entry.2) output;
  output ← checkpoint_extend (zeros 4) output;
  checkpoint_extend (encode_import_checkpoint (rc_checkpoint entry.2)) output.
Definition write_event (output : list byte) (entry : SourceEventRef * list byte) : cresult (list byte) :=
  output ← checkpoint_extend (encode_source_event entry.1) output;
  checkpoint_extend entry.2 output.
Definition write_job (output : list byte) (job : JobState) : cresult (list byte) :=
  output ← checkpoint_extend (encode_import_checkpoint (js_checkpoint job)) output;
  output ← checkpoint_u64 (map_len (js_batches job)) output;
  output ← try_fold write_receipt (btree_entries (js_batches job)) output;
  output ← checkpoint_u64 (map_len (js_source_events job)) output;
  try_fold write_event (btree_entries (js_source_events job)) output.
Definition encode_ingest_checkpoint (s : EngineSnapshot) : cresult (list byte) :=
  revision ← ok_or (es_revision s) Invalid;
  if (MAX_IMPORT_JOBS <? map_len (es_jobs s)) || (MAX_IMPORT_BATCHES <? es_batch_count s) then Err ResourceLimit
  else
    graph ← encode_graph_checkpoint (es_graph s);
    '(spatial_revision, spatial) ←
      match ss_revision (es_spatial s) with
      | Some value => spatial ← encode_spatial_checkpoint (es_spatial s); Ok (value, spatial)
      | None => Ok (0, [])
      end;
    output ← checkpoint_extend INGEST_CHECKPOINT_MAGIC [];
    output ← checkpoint_extend (encode_scope (es_scope s)) output;
    output ← checkpoint_u64 revision output;
    output ← checkpoint_u64 spatial_revision output;
    output ← checkpoint_frame graph output;
    output ← checkpoint_frame spatial output;
    output ← checkpoint_u64 (map_len (es_jobs s)) output;
    output ← checkpoint_u64 (es_batch_count s) output;
    try_fold write_job (btree_values (es_jobs s)) output.

(** ** Reading *)
Abbreviation creader A := (Cursor → cresult (A * Cursor)).
Definition importing {A} (read : reader A) : creader A := λ c, map_err map_import_checkpoint (read c).
Definition checkpoint_count (maximum : Z) : creader Z := λ c,
  '(value, c) ← importing ic_u64 c;
  if maximum <? value then Err ResourceLimit else Ok (value, c).
Definition checkpoint_revision : creader CommitRevision := λ c,
  '(value, c) ← importing ic_u64 c;
  revision ← map_err (λ _, Invalid) (CommitRevision_new value);
  Ok (revision, c).
(** The receipts of a job read so far. *)
Record ReceiptLoad := mk_receipt_load {
  rl_batches : gmap Z BatchReceipt;
  rl_accepted_rows : Z;
  rl_previous_revision : CommitRevision;
  rl_last_receipt : option ImportCheckpoint;
  rl_import_revisions : gset CommitRevision;
  rl_batch_revisions : gset CommitRevision
}.
Definition receipt_mismatch (revision : CommitRevision) (checkpoint : ImportCheckpoint) (batch_count index : Z) (l : ReceiptLoad)
    (sequence row_count accepted_rows : Z) (receipt_revision : CommitRevision) (receipt_checkpoint : ImportCheckpoint) : bool :=
  negb (sequence =? index + 1) || (row_count =? 0) || (MAX_ROWS_PER_BATCH <? row_count) || (receipt_revision <=? rl_previous_revision l)
  || (revision <? receipt_revision) || negb (bool_decide (ick_job receipt_checkpoint = ick_job checkpoint))
  || negb (bool_decide (ick_source receipt_checkpoint = ick_source checkpoint))
  || negb (bool_decide (ick_mapping receipt_checkpoint = ick_mapping checkpoint))
  || negb (ick_version receipt_checkpoint =? saturating_add sequence 1) || negb (ick_next_batch receipt_checkpoint =? saturating_add sequence 1)
  || negb (ick_accepted_rows receipt_checkpoint =? accepted_rows) || negb (next_row (ick_cursor receipt_checkpoint) =? accepted_rows)
  || negb (ick_first_revision receipt_checkpoint =? ick_first_revision checkpoint)
  || negb (ick_last_revision receipt_checkpoint =? receipt_revision)
  || ((index + 1 <? batch_count) && negb (bool_decide (ick_status receipt_checkpoint = JobOpen)))
  || bool_decide (receipt_revision ∈ rl_import_revisions l).
Definition read_receipt (revision : CommitRevision) (checkpoint : ImportCheckpoint) (batch_count index : Z) (l : ReceiptLoad) : creader ReceiptLoad := λ c,
  '(sequence, c) ← importing ic_u64 c;
  ok_or (checked_add index 1) ResourceLimit;;
  '(request_digest, c) ← importing (ic_array 32) c;
  '(receipt_revision, c) ← checkpoint_revision c;
  '(row_count, c) ← importing ic_u32 c;
  '(_, c) ← importing (ic_zeros 4) c;
  '(receipt_checkpoint, c) ← importing decode_import_checkpoint c;
  accepted_rows ← ok_or (checked_add (rl_accepted_rows l) row_count) ResourceLimit;
  if receipt_mismatch revision checkpoint batch_count index l sequence row_count accepted_rows receipt_revision receipt_checkpoint then Err Invalid
  else Ok (mk_receipt_load (<[sequence := mk_receipt request_digest receipt_revision row_count receipt_checkpoint]> (rl_batches l)) accepted_rows
             receipt_revision (Some receipt_checkpoint) ({[receipt_revision]} ∪ rl_import_revisions l) ({[receipt_revision]} ∪ rl_batch_revisions l), c).
Fixpoint read_receipts (revision : CommitRevision) (checkpoint : ImportCheckpoint) (batch_count index : Z) (count : nat) (l : ReceiptLoad) :
    creader ReceiptLoad := λ c,
  match count with
  | O => Ok (l, c)
  | S count =>
      '(l, c) ← read_receipt revision checkpoint batch_count index l c;
      read_receipts revision checkpoint batch_count (index + 1) count l c
  end.
(** The source events of a job: its own and the index of all. *)
Definition read_event (scope : NamespaceRef) (job : RecordRef) (previous : option SourceEventRef)
    (events : gmap SourceEventRef (list byte)) (index : gmap SourceEventRef RecordRef) :
    creader (SourceEventRef * (gmap SourceEventRef (list byte) * gmap SourceEventRef RecordRef)) := λ c,
  '(event, c) ← importing decode_source_event c;
  '(digest, c) ← importing (ic_array 32) c;
  if negb (bool_decide (ref_database event = ns_database scope)) || negb (bool_decide (ref_namespace event = ns_namespace scope))
     || match previous with Some previous => bool_decide (key_le event previous) | None => false end
     || bool_decide (is_Some (index !! event))
  then Err Invalid
  else Ok ((event, (<[event := digest]> events, <[event := job]> index)), c).
Fixpoint read_events (scope : NamespaceRef) (job : RecordRef) (count : nat) (previous : option SourceEventRef)
    (events : gmap SourceEventRef (list byte)) (index : gmap SourceEventRef RecordRef) :
    creader (gmap SourceEventRef (list byte) * gmap SourceEventRef RecordRef) := λ c,
  match count with
  | O => Ok ((events, index), c)
  | S count =>
      '((event, (events, index)), c) ← read_event scope job previous events index c;
      read_events scope job count (Some event) events index c
  end.
(** The jobs read so far. *)
Record JobLoad := mk_job_load {
  jl_jobs : Jobs;
  jl_source_events : gmap SourceEventRef RecordRef;
  jl_previous_job : option RecordRef;
  jl_batch_count : Z;
  jl_import_revisions : gset CommitRevision;
  jl_batch_revisions : gset CommitRevision
}.
Definition job_mismatch (scope : NamespaceRef) (revision : CommitRevision) (graph : GraphSnapshot) (l : JobLoad) (checkpoint : ImportCheckpoint) : bool :=
  match jl_previous_job l with Some previous => bool_decide (key_le (ick_job checkpoint) previous) | None => false end
  || negb (is_ok (require_scope scope (ick_job checkpoint)))
  || negb (is_ok (require_binding_scope scope (ick_source checkpoint) (ick_mapping checkpoint)))
  || (revision <? ick_last_revision checkpoint)
  || negb (is_ok (require_active_entity graph (ick_job checkpoint)))
  || negb (is_ok (require_bound_evidence graph (ick_source checkpoint)))
  || negb (is_ok (require_bound_mapping graph (ick_mapping checkpoint)))
  || negb (is_ok (require_active_entity_at graph (ick_first_revision checkpoint) (ick_job checkpoint)))
  || negb (is_ok (require_bound_evidence_at graph (ick_first_revision checkpoint) (ick_source checkpoint)))
  || negb (is_ok (require_bound_mapping_at graph (ick_first_revision checkpoint) (ick_mapping checkpoint))).
(** Without receipts a job is as it started. *)
Definition unstarted_mismatch (checkpoint : ImportCheckpoint) : bool :=
  negb (ick_version checkpoint =? 1) || negb (ick_next_batch checkpoint =? 1) || negb (ick_accepted_rows checkpoint =? 0)
  || negb (bool_decide (ick_cursor checkpoint = ImportCursor_START))
  || negb (ick_first_revision checkpoint =? ick_last_revision checkpoint) || negb (bool_decide (ick_status checkpoint = JobOpen)).
Definition read_job (scope : NamespaceRef) (revision : CommitRevision) (graph : GraphSnapshot) (l : JobLoad) : creader JobLoad := λ c,
  '(checkpoint, c) ← importing decode_import_checkpoint c;
  if job_mismatch scope revision graph l checkpoint then Err Invalid
  else if bool_decide (ick_first_revision checkpoint ∈ jl_import_revisions l) then Err Invalid
  else
    '(batch_count, c) ← checkpoint_count MAX_IMPORT_BATCHES c;
    actual ← ok_or (checked_add (jl_batch_count l) batch_count) ResourceLimit;
    if (MAX_IMPORT_BATCHES <? actual) || (remaining c / 504 <? batch_count) then Err ResourceLimit
    else
      '(receipts, c) ← read_receipts revision checkpoint batch_count 0 (Z.to_nat batch_count)
        (mk_receipt_load ∅ 0 (ick_first_revision checkpoint) None ({[ick_first_revision checkpoint]} ∪ jl_import_revisions l) (jl_batch_revisions l)) c;
      if match rl_last_receipt receipts with
         | Some last => negb (bool_decide (last = checkpoint))
         | None => unstarted_mismatch checkpoint
         end
      then Err Invalid
      else
        '(event_count, c) ← importing ic_u64 c;
        if negb (event_count =? rl_accepted_rows receipts) then Err Invalid
        else if remaining c / 80 <? event_count then Err ResourceLimit
        else
          '((events, index), c) ← read_events scope (ick_job checkpoint) (Z.to_nat event_count) None ∅ (jl_source_events l) c;
          Ok (mk_job_load (<[ick_job checkpoint := mk_job_state checkpoint (rl_batches receipts) events]> (jl_jobs l)) index (Some (ick_job checkpoint))
                actual (rl_import_revisions receipts) (rl_batch_revisions receipts), c).
Fixpoint read_jobs (scope : NamespaceRef) (revision : CommitRevision) (graph : GraphSnapshot) (count : nat) (l : JobLoad) : creader JobLoad := λ c,
  match count with
  | O => Ok (l, c)
  | S count => '(l, c) ← read_job scope revision graph l c; read_jobs scope revision graph count l c
  end.
Definition validate_catalog_closure (graph : GraphSnapshot) (catalog : SpatialCatalog) (batch_revisions : gset CommitRevision) : cresult unit :=
  visit_records (λ _ recorded_revision record,
    if negb (bool_decide (recorded_revision ∈ batch_revisions)) then Err Invalid
    else
      map_err (λ _, Invalid) (validate_external_record graph record);;
      map_err (λ _, Invalid) (validate_external_record_at graph recorded_revision record)) catalog tt.
(** The header: both component frames, with their revisions checked. *)
Definition read_ingest_header (expected_scope : NamespaceRef) (expected_revision : CommitRevision) (encoded : list byte) :
    cresult (Z * list byte * list byte * Cursor) :=
  if MAX_CHECKPOINT_BYTES <? zlen encoded then Err ResourceLimit
  else
    '(magic, c) ← importing (ic_take 8) (Cursor_new encoded);
    if negb (bool_decide (magic = INGEST_CHECKPOINT_MAGIC)) then Err UnsupportedProfile
    else
      '(scope, c) ← importing decode_scope c;
      '(revision, c) ← checkpoint_revision c;
      '(spatial_revision, c) ← importing ic_u64 c;
      if negb (bool_decide (scope = expected_scope)) || negb (revision =? expected_revision) || (revision <? spatial_revision) then Err Invalid
      else
        '(graph_bytes, c) ← importing ic_frame c;
        '(spatial_bytes, c) ← importing ic_frame c;
        Ok (spatial_revision, graph_bytes, spatial_bytes, c).
Section checkpoint.
Context (sha256 : list byte → list byte).
Definition decode_ingest_spatial (scope : NamespaceRef) (spatial_revision : Z) (spatial_bytes : list byte) : option (cresult SpatialState) :=
  if spatial_revision =? 0 then
    if negb (zlen spatial_bytes =? 0) then Some (Err Invalid) else Some (Ok (SpatialState_new scope))
  else
    match map_err (λ _, Invalid) (CommitRevision_new spatial_revision) with
    | Err e => Some (Err e)
    | Ok spatial_revision => decode_spatial_checkpoint sha256 scope spatial_revision spatial_bytes
    end.
Definition read_ledger (scope : NamespaceRef) (revision : CommitRevision) (graph : GraphState) (spatial : SpatialState) (c : Cursor) : cresult IngestState :=
  '(job_count, c) ← checkpoint_count MAX_IMPORT_JOBS c;
  '(declared_batch_count, c) ← checkpoint_count MAX_IMPORT_BATCHES c;
  if remaining c / 464 <? job_count then Err ResourceLimit
  else
    '(l, c) ← read_jobs scope revision graph (Z.to_nat job_count) (mk_job_load ∅ ∅ None 0 ∅ ∅) c;
    if negb (remaining c =? 0) || negb (jl_batch_count l =? declared_batch_count) then Err Invalid
    else
      validate_catalog_closure graph (ss_catalog spatial) (jl_batch_revisions l);;
      Ok (mk_ingest_state scope (Some revision) graph spatial (jl_jobs l) (jl_source_events l) (jl_batch_count l)).
Definition decode_ingest_checkpoint (expected_scope : NamespaceRef) (expected_revision : CommitRevision) (encoded : list byte) :
    option (cresult IngestState) :=
  match read_ingest_header expected_scope expected_revision encoded with
  | Err e => Some (Err e)
  | Ok (spatial_revision, graph_bytes, spatial_bytes, c) =>
      match decode_graph_checkpoint expected_scope expected_revision graph_bytes with
      | Err e => Some (Err e)
      | Ok graph =>
          spatial ← decode_ingest_spatial expected_scope spatial_revision spatial_bytes;
          Some (spatial ← spatial; read_ledger expected_scope expected_revision graph spatial c)
      end
  end.
(** ** The logical digest *)
Definition digest_receipt (entry : Z * BatchReceipt) : list byte :=
  be_bytes 8 entry.1 ++ rc_request_digest entry.2 ++ be_bytes 8 (rc_revision entry.2) ++ be_bytes 4 (rc_row_count entry.2)
  ++ encode_import_checkpoint (rc_checkpoint entry.2).
Definition digest_job (job : JobState) : list byte :=
  encode_import_checkpoint (js_checkpoint job) ++ be_bytes 8 (map_len (js_batches job)) ++ concat (map digest_receipt (btree_entries (js_batches job)))
  ++ be_bytes 8 (map_len (js_source_events job))
  ++ concat (map (λ entry : SourceEventRef * list byte, encode_source_event entry.1 ++ entry.2) (btree_entries (js_source_events job))).
Definition ingest_logical_state_digest (s : EngineSnapshot) : cresult (list byte) :=
  graph ← digest_graph_snapshot sha256 (es_graph s);
  spatial ← logical_state_digest sha256 (es_spatial s);
  Ok (sha256 (lit "USTE-INGEST-LOGICAL-STATE-V1" ++ [x00] ++ encode_scope (es_scope s) ++ be_bytes 8 (default 0 (es_revision s)) ++ graph ++ spatial
              ++ be_bytes 8 (map_len (es_jobs s)) ++ be_bytes 8 (es_batch_count s) ++ concat (map digest_job (btree_values (es_jobs s))))).
End checkpoint.
