(* ===== verification/IngestInvariant.v ===== *)
(** * The invariant of the ingest reducer

    What a commit of the graph keeps for the ledger above it, the ledger of a job as
    the chain of its receipts, and the invariant that every commit of the reducer
    preserves. *)
From S2P Require Import Prelude Ids Value Codec Policy GraphRecord GraphCodec GraphCodecFacts GraphCodecExact GraphIndex GraphState GraphValidity GraphCheckpoint GraphOperations GraphPublish GraphReachable GraphQuery GraphGuarantees GraphDurable Storage Blob SpatialModel SpatialCodec SpatialCatalog SpatialAdmit SpatialInvariant SpatialState SpatialDurable SpatialGuarantees IngestModel IngestCodec IngestState IngestCheckpoint.
Import ImportError.

(** ** Operations other than deletions keep entities active *)
Section operations.
Context (rev : CommitRevision).
Lemma kept_active ov op ov' aff : keyed (ov_map ov) → is_deletion op = false → apply_operation op rev (ov, ∅) = Ok (ov', aff) →
  ∀ id e, id ∈ aff → ov_map ov' !! id = Some (REntity e) → e_lifecycle e = Active.
Proof.
  intros Hk. destruct op as [exp n|t exp props|t exp act corr cexp|t exp act corr cexp|t exp p d]; intros Hd Ha id e Hid He; [| | | |done].
  - cbn [apply_operation] in Ha. unfold create_record in Ha. cbn [fst] in Ha. destruct (overlay_contains _ _); [done|].
    apply bind_Ok in Ha as (r & Hr & [= <- <-]). cbn [fst snd] in *. assert (id = new_record_id n) as -> by set_solver.
    rewrite ov_map_insert, lookup_insert_eq in He. injection He as ->. destruct n; cbn in Hr; repeat (destruct (negb _); [done|]); by simplify_eq.
  - eapply replace_written in Ha as (_ & -> & e' & He' & Hact); [|done]. apply elem_of_singleton in Hid as ->. congruence.
  - apply (assertion_action_written rev ov Hk t exp act corr cexp) in Ha as (_ & Hk'). by destruct (Hk' _ _ Hid He).
  - apply (relationship_action_written rev ov Hk t exp act corr cexp) in Ha as (_ & Hk'). by destruct (Hk' _ _ Hid He).
Qed.
Lemma operation_keeps_active ov op ov' aff id : keyed (ov_map ov) → reverse_ok (ov_base ov) (ov_base_reverse ov) → is_deletion op = false →
  apply_operation op rev (ov, ∅) = Ok (ov', aff) → expect_entity (ov_map ov !! id) = Ok tt → expect_entity (ov_map ov' !! id) = Ok tt.
Proof.
  intros Hk Hr Hd Ha He. destruct (apply_operation_written rev ov Hk Hr op ov' aff Ha) as [Hw _].
  destruct (ov_map ov !! id) as [r|] eqn:Hrec; [|done]. destruct r as [e| | |]; try done.
  destruct (written_kind _ _ _ _ _ _ _ Hw Hrec) as (r' & Hr' & Hkind). rewrite Hr'. destruct r' as [e'| | |]; try done. cbn in *.
  destruct (decide (id ∈ aff)) as [Hid|Hid].
  - rewrite decide_True; [done|]. by eapply kept_active.
  - rewrite (written_map _ _ _ _ _ _ Hw Hid), Hrec in Hr'. by injection Hr' as <-.
Qed.
Lemma operations_keep_active base rv ops ps ps' id : keyed base → reverse_ok base rv → existsb is_deletion ops = false →
  loop_ok rev base rv ps → try_fold (prepare_operation rev) ops ps = Ok ps' →
  expect_entity (ov_map (ps_records ps) !! id) = Ok tt → expect_entity (ov_map (ps_records ps') !! id) = Ok tt.
Proof.
  intros Hk Hr. revert ps. induction ops as [|op ops IH]; intros ps Hd Hl H He; [by injection H as <-|].
  cbn [existsb] in Hd. apply orb_false_iff in Hd as [Hd1 Hd]. cbn [try_fold] in H. apply bind_Ok in H as (ps1 & H1 & H).
  eapply IH; [done| |done|]; [by eapply (loop_step rev base rv Hk Hr)|].
  apply prepare_operation_Ok in H1 as (ov & aff & Ha & _ & _ & ->). cbn [ps_records].
  eapply operation_keeps_active; [by eapply (loop_keyed rev base rv Hk)| |done|done|done].
  by rewrite (lo_base _ _ _ _ Hl), (lo_reverse _ _ _ _ Hl).
Qed.
End operations.

(** ** A commit of the graph *)
Record graph_step (deletes : bool) (g : GraphState) (rev : CommitRevision) (p : PreparedGraph) (g' : GraphState) : Prop := {
  gs_inv : graph_inv g';
  gs_durable : durable g';
  gs_scope : scope g' = scope g;
  gs_revision : revision g' = Some rev;
  gs_next : rev = current g + 1 ∧ rev ≤ U64_MAX;
  gs_view : prepared_view g p = Ok (mk_view g (p_changes p));
  gs_shows id : view_record (mk_view g (p_changes p)) id = records g' !! id;
  gs_past q id : q ≤ current g → record_at (history g') id q = record_at (history g) id q;
  gs_evidence id x : records g !! id = Some (REvidence x) → records g' !! id = Some (REvidence x);
  gs_active id : deletes = false → expect_entity (records g !! id) = Ok tt → expect_entity (records g' !! id) = Ok tt
}.
Lemma commit_step sha256 g tx rev d p : graph_inv g → durable g → GraphCodecExact.transaction_ok tx →
  prepare_transaction_with_digest sha256 g tx rev d = Some (Ok p) →
  ∃ g', publish p g = Some g' ∧ graph_step (existsb is_deletion (tx_operations tx)) g rev p g'.
Proof.
  intros Hi Hd Htx Hp. destruct (commit_publish _ _ _ _ _ _ Hi Hp) as (ps & g' & Hpub & Hc). exists g'. split; [done|].
  pose proof (ce_loop _ _ _ _ _ _ Hc) as Hl. split.
  - by eapply commit_inv.
  - by eapply commit_durable.
  - apply Hc.
  - apply Hc.
  - apply (ce_revision _ _ _ _ _ _ Hc).
  - by eapply published_view.
  - intros id. unfold view_record. cbn [view_changes view_base]. rewrite (ce_records _ _ _ _ _ _ Hc), (ce_changes _ _ _ _ _ _ Hc).
    pose proof (find_change (ps_records ps) id) as Hf. destruct (list_find _ _) as [[i c]|].
    + destruct Hf as [_ Hm]. symmetry. by apply next_changed.
    + symmetry. by eapply next_same.
  - intros q id. by eapply commit_past.
  - intros id x Hx. pose proof (commit_record _ _ _ _ _ _ id Hc) as Hr. rewrite Hx in Hr. destruct Hr as (r' & Hr' & [->|Hs]); [done|]. inversion Hs.
  - intros id Hdel He. rewrite (ce_records _ _ _ _ _ _ Hc). destruct (gi_indexes _ Hi) as (_ & _ & _ & Hrv).
    eapply operations_keep_active; [apply (gi_keyed _ Hi)|exact Hrv|exact Hdel|apply (loop_start rev _ _ (gi_keyed _ Hi) Hrv)|apply Hc|].
    cbn. unfold ov_map. cbn. by rewrite (left_id_L ∅ _).
Qed.
Lemma prepare_any {B B'} sha256 g request rev : prepare sha256 (B := B) g request None rev = prepare sha256 (B := B') g request None rev.
Proof. done. Qed.
Lemma or_panic_Ok {E A B} (m : option (result E A)) (k : A → result E B) b : or_panic m k = Some (Ok b) ↔ ∃ a, m = Some (Ok a) ∧ k a = Ok b.
Proof.
  unfold or_panic. destruct m as [[a|e]|]; cbn; [|naive_solver..]. split; [intros [= H]; eauto|]. by intros (a' & [= <-] & ->).
Qed.
(** What the graph reducer does for the ledger: it publishes what it prepared, and
    no import deletes entities or changes policies. *)
Lemma prepare_graph_step sha256 g scope request rev allow p digest : graph_inv g → durable g → zlen request ≤ I64_MAX →
  prepare_graph sha256 g scope request rev allow = Some (Ok (p, digest)) →
  ∃ g' deletes, publish p g = Some g' ∧ graph_step deletes g rev p g' ∧ (allow = false → deletes = false) ∧ digest = p_result_digest p
    ∧ prepare sha256 (B := unit) g request None rev = Some (Ok p).
Proof.
  intros Hi Hd Hlen. unfold prepare_graph. destruct (zlen request =? 0); [done|]. destruct (decode_transaction request) as [tx|] eqn:Htx; [|done].
  cbn [map_err]. destruct (_ || _) eqn:Hg; [done|]. apply orb_false_iff in Hg as [_ Hdel].
  intros (r & Hp & Hr)%bind_Some. destruct r as [p'|]; [|done]. injection Hr as <- <-. rewrite (prepare_any (B' := unit)) in Hp.
  pose proof Hp as (tx' & Htx' & Hplan)%prepare_request. rewrite Htx in Htx'. injection Htx' as <-.
  apply (framed_exact _ _ _ _ _ encode_transaction_exact Hlen) in Htx as [Htx _].
  destruct (commit_step _ _ _ _ _ _ Hi Hd Htx Hplan) as (g' & Hpub & Hs). exists g', (existsb is_deletion (tx_operations tx)).
  split_and!; try done. by intros ->.
Qed.

(** ** Closures *)
Definition shown (g : GraphState) : RecordRef → option GRecord := λ id, records g !! id.
Lemma external_record_mono entity entity' evidence evidence' record : (∀ id, entity id = Ok tt → entity' id = Ok tt) → (∀ id, evidence id = Ok tt → evidence' id = Ok tt) →
  external_record entity evidence record = Ok tt → external_record entity' evidence' record = Ok tt.
Proof.
  intros He Hv. unfold external_record. rewrite !then_Ok. intros [H0 H]. split; [by apply He|].
  destruct record as [w|f|g|o]; cbn [mbind] in *.
  - by apply He.
  - rewrite !then_Ok in *. destruct H as [Hw H]. split; [by apply He|]. destruct (f_parent f); [|done]. rewrite !then_Ok in *. naive_solver.
  - rewrite !then_Ok in *. destruct H as (Hw & Hf & H). split_and!; [by apply He..|]. destruct (g_predecessor g); [|done]. by apply He.
  - rewrite !then_Ok in *. destruct H as (H1 & H2 & H3 & H4 & H5 & H). split_and!; [by apply He..|by apply Hv|]. destruct (o_correction_of o); [|done]. by apply He.
Qed.
(** What is active and what is evidence stay so. *)
Definition keeps (f f' : RecordRef → option GRecord) : Prop :=
  (∀ id, expect_entity (f id) = Ok tt → expect_entity (f' id) = Ok tt) ∧ (∀ id x, f id = Some (REvidence x) → f' id = Some (REvidence x)).
Lemma keeps_evidence f f' id : keeps f f' → expect_evidence (f id) = Ok tt → expect_evidence (f' id) = Ok tt.
Proof. intros [_ Hk] H. destruct (f id) as [[]|] eqn:Hf; try done. by rewrite (Hk _ _ Hf). Qed.
Lemma bound_kept (f f' : RecordRef → option GRecord) version blob id : (∀ x, f id = Some (REvidence x) → f' id = Some (REvidence x)) →
  expect_bound version blob (f id) = Ok tt → expect_bound version blob (f' id) = Ok tt.
Proof. intros Hk H. destruct (f id) as [[]|] eqn:Hf; try done. by rewrite (Hk _ eq_refl). Qed.
Lemma past_record_Ok g q id r : past_record g q id = Ok r ↔
  ref_scope id = scope g ∧ (revision g ≠ None ∧ q ≤ current g) ∧ record_at (history g) id q = r.
Proof. unfold past_record. rewrite map_err_Ok. apply reads_known. Qed.
Lemma past_step deletes g rev p g' q id r : graph_step deletes g rev p g' → past_record g q id = Ok r → past_record g' q id = Ok r.
Proof.
  intros Hs (Hsc & [Hne Hq] & Hr)%past_record_Ok. apply past_record_Ok. rewrite (gs_scope _ _ _ _ _ Hs), (gs_revision _ _ _ _ _ Hs).
  split_and!; [done|done| |by rewrite (gs_past _ _ _ _ _ Hs)]. destruct (gs_next _ _ _ _ _ Hs) as [Hn _].
  unfold current at 1. rewrite (gs_revision _ _ _ _ _ Hs). cbn. lia.
Qed.
Lemma past_now g rev id r : graph_inv g → durable g → revision g = Some rev → records g !! id = Some r → past_record g rev id = Ok (Some r).
Proof.
  intros Hi Hd Hrev Hr. assert (current g = rev) as Hcur by (unfold current; by rewrite Hrev). apply past_record_Ok.
  rewrite Hrev. split_and!; [|done|lia|by rewrite <-Hcur, record_at_current].
  destruct (history g !! id) as [vs|] eqn:Hh; [by eapply history_keys|]. apply (history_None _ Hi) in Hh. congruence.
Qed.
(** A check of what is found, now and at a revision. *)
Lemma check_now g rev id (check : option GRecord → iresult unit) e : graph_inv g → durable g → revision g = Some rev → check None = Err e →
  check (records g !! id) = Ok tt → (record ← past_record g rev id; check record) = Ok tt.
Proof.
  intros Hi Hd Hrev Hnone H. destruct (records g !! id) as [r|] eqn:Hr; [|congruence]. by rewrite (past_now _ _ _ _ Hi Hd Hrev Hr).
Qed.
Lemma check_past deletes g rev p g' q id (check : option GRecord → iresult unit) : graph_step deletes g rev p g' →
  (record ← past_record g q id; check record) = Ok tt → (record ← past_record g' q id; check record) = Ok tt.
Proof. intros Hs (r & Hr & Hc)%bind_Ok. by rewrite (past_step _ _ _ _ _ _ _ _ Hs Hr). Qed.

(** ** The ledger of a job *)

(** A receipt that may follow a checkpoint. *)
Record next_receipt (c : ImportCheckpoint) (r : BatchReceipt) : Prop := {
  nr_open : ick_status c = JobOpen;
  nr_rows : 0 < rc_row_count r ≤ MAX_ROWS_PER_BATCH;
  nr_later : ick_last_revision c < rc_revision r;
  nr_request : length (rc_request_digest r) = 32%nat;
  nr_advanced : ∃ final chain, length chain = 32%nat ∧ advanced c (rc_row_count r) (rc_revision r) final chain = Ok (rc_checkpoint r)
}.
Fixpoint receipt_chain (c : ImportCheckpoint) (rs : list BatchReceipt) (c' : ImportCheckpoint) : Prop :=
  match rs with [] => c = c' | r :: rs => next_receipt c r ∧ receipt_chain (rc_checkpoint r) rs c' end.
(** Receipts under their sequence numbers. *)
Fixpoint numbered (i : Z) (rs : list BatchReceipt) : list (Z * BatchReceipt) :=
  match rs with [] => [] | r :: rs => (i + 1, r) :: numbered (i + 1) rs end.

Lemma advanced_Ok c rows revision final chain c' : advanced c rows revision final chain = Ok c' →
  ick_accepted_rows c + rows ≤ MAX_IMPORT_ROWS ∧ next_row (ick_cursor c) + rows ≤ MAX_IMPORT_ROWS
  ∧ ick_version c + 1 ≤ U64_MAX ∧ ick_next_batch c + 1 ≤ U64_MAX
  ∧ c' = mk_checkpoint (ick_job c) (ick_version c + 1) (ick_source c) (ick_mapping c) (ick_next_batch c + 1)
           (mk_import_cursor (next_row (ick_cursor c) + rows)) (ick_accepted_rows c + rows) (ick_first_revision c) revision
           (if final then JobFinished else JobOpen) chain.
Proof.
  unfold advanced, checked_add. intros (a & Ha%ok_or_Ok & H)%bind_Ok. destruct (Z.leb_spec (ick_accepted_rows c + rows) U64_MAX); [injection Ha as <-|done].
  apply bind_Ok in H as (n & Hn%ok_or_Ok & H). destruct (Z.leb_spec (next_row (ick_cursor c) + rows) U64_MAX); [injection Hn as <-|done].
  destruct (_ || _) eqn:Hg; [done|]. apply orb_false_iff in Hg as [Hg1%Z.ltb_ge Hg2%Z.ltb_ge].
  apply bind_Ok in H as (v & Hv%ok_or_Ok & H). apply bind_Ok in H as (w & Hw%ok_or_Ok & H). unfold NonZeroU64_new in *.
  destruct (Z.leb_spec (ick_version c + 1) U64_MAX); [|done]. cbn in Hv. destruct (_ =? 0); [done|]. injection Hv as <-.
  destruct (Z.leb_spec (ick_next_batch c + 1) U64_MAX); [|done]. cbn in Hw. destruct (_ =? 0); [done|]. injection Hw as <-.
  apply bind_Ok in H as (cu & [-> _]%ImportCursor_new_Ok & [= <-]). by split_and!.
Qed.
Lemma advanced_ok c rows revision final chain c' : import_checkpoint_ok c → 0 < rows → ick_last_revision c < revision ≤ U64_MAX → length chain = 32%nat →
  advanced c rows revision final chain = Ok c' → import_checkpoint_ok c'.
Proof.
  intros (Hj & Hv & Hs & Hm & Hn & Hp & Ha & Hf & Hl & Hle & _) Hrows Hrev Hchain (Hb1 & Hb2 & Hb3 & Hb4 & ->)%advanced_Ok.
  unfold import_checkpoint_ok, nonzero_u64 in *. cbn. split_and!; try done; lia.
Qed.
(** The fields a chain keeps and how it advances the others. *)
Lemma chain_fields c rs c' : receipt_chain c rs c' →
  ick_job c' = ick_job c ∧ ick_source c' = ick_source c ∧ ick_mapping c' = ick_mapping c ∧ ick_first_revision c' = ick_first_revision c
  ∧ ick_version c' = ick_version c + zlen rs ∧ ick_next_batch c' = ick_next_batch c + zlen rs
  ∧ ick_last_revision c ≤ ick_last_revision c' ∧ Forall (λ r, ick_last_revision c < rc_revision r ≤ ick_last_revision c') rs.
Proof.
  revert c. induction rs as [|r rs IH]; intros c; cbn [receipt_chain].
  { intros <-. rewrite zlen_nil, !Z.add_0_r. split_and!; done || constructor. }
  intros [[_ _ Hl _ (final & chain & _ & (_ & _ & _ & _ & Hc)%advanced_Ok)] H]. apply IH in H as (H1 & H2 & H3 & H4 & H5 & H6 & H7 & H8).
  rewrite Hc in *. cbn in *. rewrite zlen_cons. split_and!; try done; [lia..|]. constructor; [lia|]. eapply Forall_impl; [exact H8|]. cbn. lia.
Qed.
Lemma chain_ok c rs c' : import_checkpoint_ok c → receipt_chain c rs c' → ick_last_revision c' ≤ U64_MAX →
  import_checkpoint_ok c' ∧ Forall (λ r, import_checkpoint_ok (rc_checkpoint r)) rs.
Proof.
  revert c. induction rs as [|r rs IH]; intros c Hc H Hle; cbn [receipt_chain] in H.
  { by subst. }
  destruct H as [Hn H]. pose proof (chain_fields _ _ _ H) as (_ & _ & _ & _ & _ & _ & Hl & _).
  destruct Hn as [_ [Hr _] Hlt _ (final & chain & Hch & Ha)]. pose proof (advanced_Ok _ _ _ _ _ _ Ha) as (_ & _ & _ & _ & Heq).
  assert (ick_last_revision (rc_checkpoint r) = rc_revision r) as Hlast by (by rewrite Heq).
  apply advanced_ok in Ha; [|done..|lia|done]. destruct (IH _ Ha H Hle). split; [done|]. by constructor.
Qed.
Lemma chain_snoc c rs c' r : receipt_chain c rs c' → next_receipt c' r → receipt_chain c (rs ++ [r]) (rc_checkpoint r).
Proof. revert c. induction rs as [|x rs IH]; intros c; cbn; [by intros <-|]. intros [? ?] ?. split; [done|]. by apply IH. Qed.
Lemma numbered_snoc i rs r : numbered i (rs ++ [r]) = numbered i rs ++ [(i + zlen rs + 1, r)].
Proof.
  revert i. induction rs as [|x rs IH]; intros i; cbn [numbered app].
  - by rewrite zlen_nil, Z.add_0_r.
  - rewrite IH, zlen_cons. do 4 f_equal. lia.
Qed.
Lemma numbered_keys i rs : Forall (λ k, i < k ≤ i + zlen rs) (numbered i rs).*1.
Proof.
  revert i. induction rs as [|x rs IH]; intros i; [constructor|]. cbn [numbered]. rewrite zlen_cons. pose proof (zlen_nonneg rs). constructor; [cbn; lia|].
  eapply Forall_impl; [apply IH|]. cbn. lia.
Qed.
Lemma numbered_values i rs : (numbered i rs).*2 = rs.
Proof. revert i. induction rs as [|x rs IH]; intros i; cbn; [done|]. by rewrite IH. Qed.
Record job_inv (scope : NamespaceRef) (g : GraphState) (id : RecordRef) (job : JobState) : Prop := {
  ji_job : ick_job (js_checkpoint job) = id;
  ji_scope : require_scope scope id = Ok tt;
  ji_bindings : require_binding_scope scope (ick_source (js_checkpoint job)) (ick_mapping (js_checkpoint job)) = Ok tt;
  ji_active : require_active_entity g id = Ok tt;
  ji_source : require_bound_evidence g (ick_source (js_checkpoint job)) = Ok tt;
  ji_mapping : require_bound_mapping g (ick_mapping (js_checkpoint job)) = Ok tt;
  ji_active_at : require_active_entity_at g (ick_first_revision (js_checkpoint job)) id = Ok tt;
  ji_source_at : require_bound_evidence_at g (ick_first_revision (js_checkpoint job)) (ick_source (js_checkpoint job)) = Ok tt;
  ji_mapping_at : require_bound_mapping_at g (ick_first_revision (js_checkpoint job)) (ick_mapping (js_checkpoint job)) = Ok tt;
  ji_last : ick_last_revision (js_checkpoint job) ≤ current g;
  ji_ledger : ∃ start rs, import_checkpoint_ok start ∧ unstarted_mismatch start = false ∧ receipt_chain start rs (js_checkpoint job)
    ∧ btree_entries (js_batches job) = numbered 0 rs;
  ji_events : map_len (js_source_events job) = ick_accepted_rows (js_checkpoint job);
  ji_event : map_Forall (λ event digest, ref_ok event ∧ ref_scope event = scope ∧ length digest = 32%nat) (js_source_events job)
}.
(** The revisions a job was started and extended at. *)
Definition job_revisions (job : JobState) : list CommitRevision := ick_first_revision (js_checkpoint job) :: (rc_revision <$> btree_values (js_batches job)).
Definition batch_total (jobs : list JobState) : Z := foldr (λ job n, map_len (js_batches job) + n) 0 jobs.
Record ledger_inv (scope : NamespaceRef) (g : GraphState) (jobs : Jobs) (events : gmap SourceEventRef RecordRef) (count : Z) : Prop := {
  li_jobs : map_Forall (job_inv scope g) jobs;
  li_index event id : events !! event = Some id ↔ ∃ job, jobs !! id = Some job ∧ is_Some (js_source_events job !! event);
  li_revisions id id' job job' r : jobs !! id = Some job → jobs !! id' = Some job' → r ∈ job_revisions job → r ∈ job_revisions job' → id = id';
  li_count : count = batch_total (btree_values jobs);
  li_bounds : map_len jobs ≤ MAX_IMPORT_JOBS ∧ count ≤ MAX_IMPORT_BATCHES
}.
(** What every retained spatial record has: its references, now and when it was
    recorded, by a batch. *)
Definition record_inv (g : GraphState) (jobs : Jobs) (e : CommitRevision * SpatialRecord) : Prop :=
  validate_external_record g e.2 = Ok tt ∧ validate_external_record_at g e.1 e.2 = Ok tt
  ∧ ∃ id job, jobs !! id = Some job ∧ e.1 ∈ rc_revision <$> btree_values (js_batches job).
Record ingest_inv (sha256 : list byte → list byte) (scope : NamespaceRef) (s : IngestState) : Prop := {
  ii_scope : in_scope s = scope;
  ii_graph : graph_inv (in_graph s);
  ii_durable : durable (in_graph s);
  ii_graph_scope : GraphState.scope (in_graph s) = scope;
  ii_revision : in_revision s = revision (in_graph s);
  ii_spatial : spatial_inv sha256 (in_spatial s);
  ii_spatial_scope : ss_scope (in_spatial s) = scope;
  ii_spatial_revision : default 0 (ss_revision (in_spatial s)) ≤ current (in_graph s);
  ii_spatial_new : ss_revision (in_spatial s) = None → in_spatial s = SpatialState_new scope;
  ii_ledger : ledger_inv scope (in_graph s) (in_jobs s) (in_source_events s) (in_batch_count s);
  ii_records : Forall (record_inv (in_graph s) (in_jobs s)) (catalog_records (ss_catalog (in_spatial s)))
}.
Lemma ingest_inv_new sha256 scope : ingest_inv sha256 scope (IngestState_new scope).
Proof.
  split; cbn; try first [done|apply graph_inv_new|apply durable_new|apply spatial_inv_new|by constructor]. split; try done.
  intros event id. rewrite lookup_empty. split; [done|]. by intros (job & Hj & _).
Qed.

(** ** A commit of the graph keeps the ledger *)
Lemma step_current deletes g rev p g' : graph_step deletes g rev p g' → current g' = rev ∧ current g < rev.
Proof. intros Hs. destruct (gs_next _ _ _ _ _ Hs). unfold current at 1. rewrite (gs_revision _ _ _ _ _ Hs). cbn. lia. Qed.
Lemma step_bound deletes g rev p g' version blob id : graph_step deletes g rev p g' →
  expect_bound version blob (records g !! id) = Ok tt → expect_bound version blob (records g' !! id) = Ok tt.
Proof. intros Hs. apply (bound_kept (shown g) (shown g')). by apply (gs_evidence _ _ _ _ _ Hs). Qed.
Section graph_step.
Context (deletes : bool) (g : GraphState) (rev : CommitRevision) (p : PreparedGraph) (g' : GraphState).
Context (Hs : graph_step deletes g rev p g').
Lemma job_step scope id job : job_inv scope g id job → require_active_entity g' id = Ok tt → job_inv scope g' id job.
Proof.
  intros [] Hact. split; try done.
  - by apply (step_bound _ _ _ _ _ _ _ _ Hs).
  - by apply (step_bound _ _ _ _ _ _ _ _ Hs).
  - by apply (check_past _ _ _ _ _ _ _ _ Hs).
  - by apply (check_past _ _ _ _ _ _ _ _ Hs).
  - by apply (check_past _ _ _ _ _ _ _ _ Hs).
  - destruct (step_current _ _ _ _ _ Hs). lia.
Qed.
Lemma ledger_step scope jobs events count : ledger_inv scope g jobs events count →
  (∀ id, is_Some (jobs !! id) → require_active_entity g' id = Ok tt) → ledger_inv scope g' jobs events count.
Proof. intros [] Hact. split; try done. intros id job Hj. apply job_step; [by apply li_jobs0|]. apply Hact. by eexists. Qed.
Lemma record_step_past record q : validate_external_record_at g q record = Ok tt → validate_external_record_at g' q record = Ok tt.
Proof. apply external_record_mono; intros id; by apply (check_past _ _ _ _ _ _ _ _ Hs). Qed.
Lemma record_step_kept record : deletes = false → validate_external_record g record = Ok tt → validate_external_record g' record = Ok tt.
Proof.
  intros Hd. apply external_record_mono; intros id.
  - by apply (gs_active _ _ _ _ _ Hs).
  - unfold require_evidence, current_record, GraphSnapshot_lookup. intros He. destruct (records g !! id) as [[]|] eqn:Hr; try done.
    by rewrite (gs_evidence _ _ _ _ _ Hs _ _ Hr).
Qed.
Lemma record_step_now record : validate_external_record g' record = Ok tt → validate_external_record_at g' rev record = Ok tt.
Proof.
  apply external_record_mono; intros id He; eapply check_now; try done; first [apply (gs_inv _ _ _ _ _ Hs)|apply (gs_durable _ _ _ _ _ Hs)|apply (gs_revision _ _ _ _ _ Hs)].
Qed.
(** The prepared view shows the state after publication. *)
Lemma view_shows {A} (check : option GRecord → iresult A) id : check (current_record (mk_view g (p_changes p)) id) = check (current_record g' id).
Proof. unfold current_record, PreparedGraphView_lookup. by rewrite (gs_shows _ _ _ _ _ Hs). Qed.
Lemma view_record_valid record : validate_external_record (mk_view g (p_changes p)) record = Ok tt → validate_external_record g' record = Ok tt.
Proof. apply external_record_mono; intros id; unfold require_active_entity, require_evidence; by rewrite view_shows. Qed.
Lemma view_catalog_valid catalog : validate_catalog_closure_import (mk_view g (p_changes p)) catalog = Ok tt →
  Forall (λ e, validate_external_record g' e.2 = Ok tt) (catalog_records catalog).
Proof.
  unfold validate_catalog_closure_import. rewrite visit_records_fold. induction (catalog_records catalog) as [|e l IH]; [constructor|].
  cbn [try_fold]. intros ([] & He & H)%bind_Ok. constructor; [by apply view_record_valid|by apply IH].
Qed.
Lemma view_jobs_valid jobs : validate_job_closure (mk_view g (p_changes p)) jobs = Ok tt → ∀ id, is_Some (jobs !! id) → require_active_entity g' id = Ok tt.
Proof.
  unfold validate_job_closure. rewrite try_each_Ok, Forall_forall. intros H id [job Hj]. specialize (H (id, job)). cbn [fst snd] in H.
  rewrite elem_of_btree_entries in H. apply H in Hj as [Hj _]%then_Ok. unfold require_active_entity in *. by rewrite view_shows in Hj.
Qed.
End graph_step.
