(* ===== verification/IngestCommit.v ===== *)
(** * Commits of the ingest reducer

    Every transaction that prepares publishes without a panic, and keeps the
    invariant: by a graph commit, by the start of a job and by a batch. *)
From S2P Require Import Prelude Ids Value Codec Policy GraphRecord GraphCodec GraphCodecFacts GraphCodecExact GraphIndex GraphState GraphValidity GraphCheckpoint GraphOperations GraphPublish GraphReachable GraphQuery GraphGuarantees GraphDurable Storage Blob SpatialModel SpatialCodec SpatialCatalog SpatialAdmit SpatialInvariant SpatialState SpatialDurable SpatialGuarantees IngestModel IngestCodec IngestState IngestCheckpoint IngestInvariant.
Import ImportError.

(** ** What preparation checked *)
Lemma require_scope_Ok scope id : require_scope scope id = Ok tt ↔ ref_scope id = scope.
Proof.
  unfold require_scope. destruct id as [[d n] i], scope as [d' n']. unfold ref_database, ref_namespace. cbn. split.
  - destruct (_ && _) eqn:H; [|done]. apply andb_true_iff in H as [->%bool_decide_eq_true ->%bool_decide_eq_true]. done.
  - intros [= -> ->]. by rewrite !bool_decide_eq_true_2.
Qed.
Lemma validate_row_Ok scope existing seen row seen' : validate_row scope existing seen row = Ok seen' →
  ref_scope (row_event row) = scope ∧ (row_event row ∉ seen) ∧ existing !! row_event row = None ∧ seen' = {[row_event row]} ∪ seen.
Proof.
  unfold validate_row. cbv zeta. destruct (_ || _) eqn:Hg; [done|]. apply orb_false_iff in Hg as [[Hd%negb_false_iff%bool_decide_eq_true Hn%negb_false_iff%bool_decide_eq_true]%orb_false_iff Hs%bool_decide_eq_false].
  case_bool_decide as He; [done|]. intros [= <-]. split_and!; [|done|by apply eq_None_not_Some|done].
  clear -Hd Hn. destruct (row_event row) as [[d n] i], scope as [d' n']. unfold ref_database, ref_namespace in *. cbn in *. congruence.
Qed.
Lemma validate_rows_loop scope existing rows seen seen' : try_fold (validate_row scope existing) rows seen = Ok seen' →
  NoDup (row_event <$> rows) ∧ Forall (λ row, ref_scope (row_event row) = scope ∧ (row_event row ∉ seen) ∧ existing !! row_event row = None) rows.
Proof.
  revert seen. induction rows as [|row rows IH]; intros seen H; [by split; [constructor|]|]. cbn [try_fold] in H.
  apply bind_Ok in H as (seen1 & (Hs & Hin & He & ->)%validate_row_Ok & H). destruct (IH _ H) as [Hnd Hall]. split.
  - cbn. constructor; [|done]. intros (row' & Heq & Hr)%list_elem_of_fmap. rewrite Forall_forall in Hall. destruct (Hall _ Hr) as (_ & Hn & _). set_solver.
  - constructor; [done|]. eapply Forall_impl; [exact Hall|]. cbn. intros r (? & ? & ?). split_and!; [done|set_solver|done].
Qed.
Lemma validate_rows_Ok scope batch existing : validate_rows scope batch existing = Ok tt →
  NoDup (row_event <$> ib_rows batch) ∧ Forall (λ row, ref_scope (row_event row) = scope ∧ existing !! row_event row = None) (ib_rows batch).
Proof.
  unfold validate_rows. intros (seen & [Hnd Hall]%validate_rows_loop & _)%bind_Ok. split; [done|]. eapply Forall_impl; [exact Hall|]. by intros r (? & _ & ?).
Qed.
Section prepared.
Context (sha256 : list byte → list byte) (s : IngestState).
Lemma check_start_Ok start inventory : check_start s start inventory = Ok tt →
  require_scope (in_scope s) (is_job start) = Ok tt ∧ require_binding_scope (in_scope s) (is_source start) (is_mapping start) = Ok tt
  ∧ in_jobs s !! is_job start = None ∧ map_len (in_jobs s) ≠ MAX_IMPORT_JOBS.
Proof.
  unfold check_start. rewrite !then_Ok. intros (H1 & H2 & H). case_bool_decide as Hj; [done|]. destruct (Z.eqb_spec (map_len (in_jobs s)) MAX_IMPORT_JOBS); [done|].
  split_and!; try done. by apply eq_None_not_Some.
Qed.
Lemma check_batch_Ok batch inventory job : check_batch s batch inventory = Ok job →
  in_jobs s !! bi_job (ib_id batch) = Some job ∧ bi_sequence (ib_id batch) = ick_next_batch (js_checkpoint job) ∧ ib_expected batch = js_checkpoint job
  ∧ ick_status (js_checkpoint job) = JobOpen ∧ in_batch_count s ≠ MAX_IMPORT_BATCHES ∧ validate_rows (in_scope s) batch (in_source_events s) = Ok tt.
Proof.
  unfold check_batch. destruct (match inventory with Some _ => _ | None => _ end); [done|]. rewrite then_Ok. intros [_ (job' & Hj%ok_or_Ok & H)%bind_Ok].
  cbv zeta in H. rewrite !then_Ok in H. destruct H as (_ & _ & _ & H). destruct (_ || _); [done|]. destruct (_ <? _); [done|].
  destruct (_ || _) eqn:Hg; [done|]. apply orb_false_iff in Hg as [[Hseq%negb_false_iff%Z.eqb_eq Hexp%negb_false_iff%bool_decide_eq_true]%orb_false_iff _].
  destruct (negb _) eqn:Ho; [done|]. apply negb_false_iff, bool_decide_eq_true in Ho. destruct (Z.eqb_spec (in_batch_count s) MAX_IMPORT_BATCHES); [done|].
  apply then_Ok in H as [Hr [= <-]]. by split_and!.
Qed.
Lemma ingest_prepare_Ok request inventory rev p : ingest_prepare sha256 s request inventory rev = Some (Ok p) →
  ∃ tx outcome graph spatial mutation graph_digest spatial_digest,
    engine_transaction_ok tx ∧ decode_engine_transaction request = Ok tx ∧ engine_scope tx = in_scope s ∧ next_ingest_revision s = Ok rev
    ∧ prepare_action sha256 s tx inventory (sha256 request) rev = Some (Ok (outcome, graph, spatial, mutation, graph_digest, spatial_digest))
    ∧ p = mk_prepared_ingest (in_revision s) rev graph spatial mutation outcome (digest_result sha256 rev (sha256 request) graph_digest spatial_digest outcome)
    ∧ Forall (λ bytes, zlen bytes ≤ I64_MAX) (frames tx).
Proof.
  unfold ingest_prepare. destruct (decode_engine_transaction request) as [tx|] eqn:Htx; [|done]. cbn [map_err]. intros (r & Hr & Hp)%fmap_Some.
  destruct r as [p'|]; [|done]. injection Hp as <-. unfold prepare_domain in Hr. destruct (next_ingest_revision s) as [expected|] eqn:Hn; [|done].
  destruct (_ || _) eqn:Hg; [done|]. apply orb_false_iff in Hg as [Hs%negb_false_iff%bool_decide_eq_true Hv%negb_false_iff%Z.eqb_eq]. subst expected.
  apply or_panic_Ok in Hr as ([[[[[outcome graph] spatial] mutation] gd] sd] & Ha & [= <-]).
  apply engine_transaction_iff in Htx as Hok. destruct Hok as [Hok [Hb Hlen]%encode_engine_Ok].
  exists tx, outcome, graph, spatial, mutation, gd, sd. split_and!; try done. eapply Forall_impl; [apply frames_bounded|]. intros bytes Hl. cbn in Hl.
  rewrite Hb, !zlen_app in Hlen. pose proof (zlen_nonneg REQUEST_MAGIC). pose proof (zlen_nonneg (encode_scope (engine_scope tx))).
  unfold MAX_IMPORT_REQUEST_BYTES in Hlen. unfold I64_MAX. lia.
Qed.
End prepared.

(** ** Publication *)
Lemma publish_can p g g' : publish p g = Some g' → can_publish g p = true.
Proof. unfold publish. by destruct (can_publish g p). Qed.
Lemma spatial_publish_can p s s' : spatial_publish p s = Some s' → spatial_can_publish s p = true.
Proof. unfold spatial_publish. by destruct (spatial_can_publish s p). Qed.
Lemma ingest_published s rev graph spatial mutation outcome digest g' sp' jobs events count : in_revision s = revision (in_graph s) →
  publish graph (in_graph s) = Some g' → publish_spatial spatial (in_spatial s) = Some sp' → mutation_fits s mutation = true →
  apply_mutation s mutation = Some (jobs, events, count) →
  ingest_publish (mk_prepared_ingest (in_revision s) rev graph spatial mutation outcome digest) s =
  Some (mk_ingest_state (in_scope s) (Some rev) g' sp' jobs events count).
Proof.
  intros Hrev Hg Hsp Hfit Hm. unfold ingest_publish. cbn [pi_base_revision pi_revision pi_graph pi_spatial pi_job_mutation].
  rewrite <-Hrev, bool_decide_eq_true_2, (publish_can _ _ _ Hg), Hfit by done.
  assert (match spatial with Some spatial => spatial_can_publish (in_spatial s) spatial | None => true end = true) as ->.
  { destruct spatial; [by eapply spatial_publish_can|done]. }
  cbn [andb]. by rewrite Hg, Hsp, Hm.
Qed.

(** ** The rows of a batch *)
Lemma insert_rows job rows ev idx : NoDup rows.*1 →
  foldl (insert_row job) (ev, idx) rows = (list_to_map rows ∪ ev, ((λ _, job) <$> (list_to_map rows : gmap SourceEventRef (list byte))) ∪ idx).
Proof.
  revert ev idx. induction rows as [|[e d] rows IH]; intros ev idx Hnd.
  { cbn. by rewrite fmap_empty, !(left_id_L ∅ _). }
  cbn in Hnd. apply NoDup_cons in Hnd as [He Hnd]. cbn [foldl]. unfold insert_row at 2. cbn [fst snd]. rewrite IH by done.
  assert ((list_to_map rows : gmap SourceEventRef (list byte)) !! e = None) as Hn by (by apply not_elem_of_list_to_map).
  cbn [list_to_map foldr uncurry fst snd]. rewrite fmap_insert. f_equal.
  - change (foldr _ ∅ rows) with (list_to_map rows : gmap SourceEventRef (list byte)). rewrite <-insert_union_l, insert_union_r; done.
  - change (foldr _ ∅ rows) with (list_to_map rows : gmap SourceEventRef (list byte)). rewrite <-insert_union_l, insert_union_r; [done|]. by rewrite lookup_fmap, Hn.
Qed.
Lemma rows_lookup (rows : list (SourceEventRef * list byte)) e : is_Some ((list_to_map rows : gmap SourceEventRef (list byte)) !! e) ↔ e ∈ rows.*1.
Proof.
  rewrite <-not_eq_None_Some. rewrite <-not_elem_of_list_to_map. destruct (decide (e ∈ rows.*1)); naive_solver.
Qed.

(** ** The batches of all jobs *)
Lemma batch_total_perm l l' : l ≡ₚ l' → batch_total l = batch_total l'.
Proof. unfold batch_total. induction 1; cbn [foldr]; lia. Qed.
Lemma batch_total_insert (jobs : Jobs) id job : batch_total (btree_values (<[id := job]> jobs)) = map_len (js_batches job) + batch_total (btree_values (delete id jobs)).
Proof.
  unfold btree_values. rewrite <-insert_delete_eq. rewrite (batch_total_perm _ (((id, job) :: map_to_list (delete id jobs)).*2)).
  - cbn. f_equal. apply batch_total_perm. by rewrite btree_entries_Permutation.
  - by rewrite btree_entries_Permutation, map_to_list_insert by apply lookup_delete_eq.
Qed.
Lemma batch_total_delete (jobs : Jobs) id job : jobs !! id = Some job →
  batch_total (btree_values jobs) = map_len (js_batches job) + batch_total (btree_values (delete id jobs)).
Proof. intros Hj. rewrite <-batch_total_insert. by rewrite insert_id. Qed.

(** ** Each action *)
Section actions.
Context (sha256 : list byte → list byte) (sha256_width : ∀ bytes, length (sha256 bytes) = 32%nat).
Context (scope : NamespaceRef) (s : IngestState) (Hi : ingest_inv sha256 scope s).
Abbreviation published tx inventory rev P := (∀ request outcome graph spatial mutation gd sd digest,
  prepare_action sha256 s tx inventory (sha256 request) rev = Some (Ok (outcome, graph, spatial, mutation, gd, sd)) →
  ∃ s', ingest_publish (mk_prepared_ingest (in_revision s) rev graph spatial mutation outcome digest) s = Some s' ∧ ingest_inv sha256 scope s' ∧ P request outcome s').
Lemma ledger_revisions id job r : in_jobs s !! id = Some job → r ∈ job_revisions job → r ≤ current (in_graph s).
Proof.
  intros Hj Hr. pose proof (li_jobs _ _ _ _ _ (ii_ledger _ _ _ Hi) _ _ Hj) as [].
  destruct ji_ledger as (start & rs & _ & _ & (_ & _ & _ & Hf & _ & _ & Hl & Hall)%chain_fields & Hb). unfold job_revisions, btree_values in Hr.
  rewrite Hb, numbered_values in Hr. rewrite Forall_forall in Hall. apply elem_of_cons in Hr as [->|(x & -> & Hx)%list_elem_of_fmap].
  - pose proof (past_record_Ok (in_graph s) (ick_first_revision (js_checkpoint job)) id) as Hp. unfold require_active_entity_at in ji_active_at.
    apply bind_Ok in ji_active_at as (r & Hr & _). apply Hp in Hr as (_ & [_ ?] & _). done.
  - destruct (Hall _ Hx). lia.
Qed.
(** The commit of a graph transaction. *)
Lemma graph_commit sc request inventory rev : zlen request ≤ I64_MAX →
  published (EngineGraph sc request) inventory rev (λ _ outcome s', outcome = GraphCommitted ∧ ∃ p g', prepare sha256 (B := unit) (in_graph s) request None rev = Some (Ok p)
    ∧ publish p (in_graph s) = Some g' ∧ s' = mk_ingest_state scope (Some rev) g' (in_spatial s) (in_jobs s) (in_source_events s) (in_batch_count s)).
Proof.
  intros Hlen canonical outcome graph spatial mutation gd sd digest. cbn [prepare_action]. unfold prepare_engine_graph. destruct inventory; [done|].
  intros ([p d] & Hp & H)%or_panic_Ok. destruct Hi as []. rewrite ii_scope in Hp.
  destruct (prepare_graph_step _ _ _ _ _ _ _ _ ii_graph ii_durable Hlen Hp) as (g' & deletes & Hpub & Hs & _ & _ & Hprep).
  rewrite (gs_view _ _ _ _ _ Hs) in H. cbn [map_err] in H. rewrite result_bind_Ok, !then_Ok in H. destruct H as (Hcat & Hjobs & [= <- <- <- <- <- <-]).
  destruct (step_current _ _ _ _ _ Hs) as [Hcur Hlt].
  eexists. split; [eapply ingest_published; [done|exact Hpub|done|done|done]|]. rewrite ii_scope. split; [|by eauto 10]. split; cbn; try done.
  - apply (gs_inv _ _ _ _ _ Hs).
  - apply (gs_durable _ _ _ _ _ Hs).
  - by rewrite (gs_scope _ _ _ _ _ Hs).
  - symmetry. apply (gs_revision _ _ _ _ _ Hs).
  - lia.
  - eapply ledger_step; [exact Hs|done|]. by eapply view_jobs_valid.
  - apply (view_catalog_valid _ _ _ _ _ Hs) in Hcat. rewrite Forall_forall in *. intros e He. destruct (ii_records e He) as (_ & Hat & Hin).
    split_and!; [by apply Hcat|by apply (record_step_past _ _ _ _ _ Hs)|done].
Qed.
(** A job that starts. *)
Definition started_job (start : ImportStart) (rev : CommitRevision) (chain : list byte) : JobState :=
  mk_job_state (started (is_job start) (is_source start) (is_mapping start) rev chain) ∅ ∅.
Lemma started_inv g p g' start rev chain : graph_step false g rev p g' → GraphState.scope g = scope → 0 ≤ current g → start_ok start → length chain = 32%nat →
  require_scope scope (is_job start) = Ok tt → require_binding_scope scope (is_source start) (is_mapping start) = Ok tt →
  require_active_entity g' (is_job start) = Ok tt → require_bound_evidence g' (is_source start) = Ok tt → require_bound_mapping g' (is_mapping start) = Ok tt →
  job_inv scope g' (is_job start) (started_job start rev chain).
Proof.
  intros Hs Hsc Hpos (Hj & Hsrc & Hmap & _) Hch H1 H2 H3 H4 H5. destruct (step_current _ _ _ _ _ Hs) as [Hcur Hlt]. destruct (gs_next _ _ _ _ _ Hs) as [_ Hmax].
  pose proof (gs_inv _ _ _ _ _ Hs) as Hi'. pose proof (gs_durable _ _ _ _ _ Hs) as Hd'. pose proof (gs_revision _ _ _ _ _ Hs) as Hr'.
  assert (nonzero_u64 rev) as Hnz by (unfold nonzero_u64; lia).
  split; cbn; try done; try (by eapply check_now); [lia|].
  exists (started (is_job start) (is_source start) (is_mapping start) rev chain), []. split_and!; [|by unfold unstarted_mismatch; cbn [started ick_version ick_next_batch ick_accepted_rows ick_cursor ick_first_revision ick_last_revision ick_status]; rewrite !Z.eqb_refl|done|by rewrite btree_entries_empty].
  unfold import_checkpoint_ok. cbn. by split_and!.
Qed.
Lemma ledger_insert_new g jobs events count id job : ledger_inv scope g jobs events count → jobs !! id = None → job_inv scope g id job → js_source_events job = ∅ → js_batches job = ∅ →
  (∀ id' job', jobs !! id' = Some job' → ick_first_revision (js_checkpoint job) ∉ job_revisions job') → map_len jobs < MAX_IMPORT_JOBS →
  ledger_inv scope g (<[id := job]> jobs) events count.
Proof.
  intros [Hjobs Hidx Hrevs Hcount [Hmax Hb]] Hnew Hjob Hev Hba Hfresh Hlt.
  assert (∀ r, r ∈ job_revisions job → r = ick_first_revision (js_checkpoint job)) as Hone.
  { intros r. unfold job_revisions, btree_values. rewrite Hba, btree_entries_empty. cbn. set_solver. }
  split.
  - by apply map_Forall_insert_2.
  - intros event id'. rewrite Hidx. split.
    + intros (job' & Hj & He). exists job'. split; [|done]. rewrite lookup_insert_ne; [done|]. intros <-. congruence.
    + intros (job' & Hj & He). destruct (decide (id = id')) as [<-|Hne].
      * rewrite lookup_insert_eq in Hj. injection Hj as <-. rewrite Hev, lookup_empty in He. by destruct He.
      * rewrite lookup_insert_ne in Hj by done. by exists job'.
  - intros id1 id2 job1 job2 r. rewrite !lookup_insert_Some. intros [[<- <-]|[Hn1 Hj1]] [[<- <-]|[Hn2 Hj2]] Hr1 Hr2; [done|..|by eapply Hrevs].
    + apply Hone in Hr1 as ->. by destruct (Hfresh _ _ Hj2).
    + apply Hone in Hr2 as ->. by destruct (Hfresh _ _ Hj1).
  - rewrite batch_total_insert, Hba, delete_id by done. unfold map_len at 1. rewrite map_size_empty. cbn. lia.
  - split; [|done]. unfold map_len in *. rewrite map_size_insert_None by done. lia.
Qed.
Lemma record_inv_jobs g jobs jobs' e : (∀ id job, jobs !! id = Some job → ∃ job', jobs' !! id = Some job' ∧ ∀ k v, js_batches job !! k = Some v → js_batches job' !! k = Some v) →
  record_inv g jobs e → record_inv g jobs' e.
Proof.
  intros Hk (H1 & H2 & id & job & Hj & (r & Hr & (k & Hv)%elem_of_btree_values)%list_elem_of_fmap). split_and!; [done..|].
  destruct (Hk _ _ Hj) as (job' & Hj' & Hb). exists id, job'. split; [done|]. apply list_elem_of_fmap. exists r. split; [done|].
  apply elem_of_btree_values. eauto.
Qed.
Lemma current_nonneg g : graph_inv g → 0 ≤ current g ≤ U64_MAX.
Proof. intros Hg. pose proof (gi_revision _ Hg) as H. unfold current. destruct (revision g); cbn; [lia|]. unfold U64_MAX. lia. Qed.
Lemma record_inv_step p g g' rev jobs e : graph_step false g rev p g' → record_inv g jobs e → record_inv g' jobs e.
Proof. intros Hs (H1 & H2 & H3). split_and!; [by apply (record_step_kept _ _ _ _ _ Hs)|by apply (record_step_past _ _ _ _ _ Hs)|done]. Qed.
(** The commit that starts a job. *)
Lemma start_commit sc start inventory rev : start_ok start → zlen (is_graph_request start) ≤ I64_MAX →
  published (EngineImport sc (StartJob start)) inventory rev (λ canonical outcome s', ∃ p g' chain, prepare sha256 (B := unit) (in_graph s) (is_graph_request start) None rev = Some (Ok p)
    ∧ publish p (in_graph s) = Some g' ∧ in_jobs s !! is_job start = None
    ∧ chain = digest_chain sha256 (zeros 32) (sha256 canonical) rev (p_result_digest p) None
    ∧ outcome = JobStarted (js_checkpoint (started_job start rev chain))
    ∧ s' = mk_ingest_state scope (Some rev) g' (in_spatial s) (<[is_job start := started_job start rev chain]> (in_jobs s)) (in_source_events s) (in_batch_count s)).
Proof.
  intros Hok Hlen canonical outcome graph spatial mutation gd sd digest. cbn [prepare_action]. unfold prepare_start.
  destruct (check_start s start inventory) as [[]|] eqn:Hcheck; [|done]. apply check_start_Ok in Hcheck as (Hsc & Hbs & Hnew & Hmax).
  intros ([p d] & Hp & H)%or_panic_Ok. pose proof ledger_revisions as Hold. destruct Hi as []. rewrite ii_scope in *.
  destruct (prepare_graph_step _ _ _ _ _ _ _ _ ii_graph ii_durable Hlen Hp) as (g' & deletes & Hpub & Hs & Hdel & -> & Hprep). rewrite (Hdel eq_refl) in Hs.
  rewrite (gs_view _ _ _ _ _ Hs) in H. cbn [map_err] in H. rewrite result_bind_Ok, !then_Ok in H. unfold require_active_entity, require_bound_evidence, require_bound_mapping in H.
  rewrite !(view_shows _ _ _ _ _ Hs) in H. destruct H as (Hact & Hsrc & Hmap & H). cbv zeta in H. injection H as <- <- <- <- <- <-.
  destruct (step_current _ _ _ _ _ Hs) as [Hcur Hlt]. set (chain := digest_chain _ _ _ _ _ _).
  assert (length chain = 32%nat) as Hch by apply sha256_width. pose proof (current_nonneg _ ii_graph) as Hpos.
  pose proof (started_inv _ _ _ start rev chain Hs ii_graph_scope (proj1 Hpos) Hok Hch Hsc Hbs Hact Hsrc Hmap) as Hjob.
  eexists. split; [eapply ingest_published; [done|exact Hpub|done| |done]|].
  { cbn. by rewrite Hnew. }
  rewrite ii_scope. split; [|by exists p, g', chain]. split; cbn; try done.
  - apply (gs_inv _ _ _ _ _ Hs).
  - apply (gs_durable _ _ _ _ _ Hs).
  - by rewrite (gs_scope _ _ _ _ _ Hs).
  - symmetry. apply (gs_revision _ _ _ _ _ Hs).
  - lia.
  - apply ledger_insert_new; try done.
    + eapply ledger_step; [exact Hs|done|]. intros id [job Hj]. apply (gs_active _ _ _ _ _ Hs); [done|]. by apply (ji_active _ _ _ _ (li_jobs _ _ _ _ _ ii_ledger _ _ Hj)).
    + intros id job Hj Hr. apply (Hold _ _ _ Hj) in Hr. cbn in Hr. lia.
    + destruct (li_bounds _ _ _ _ _ ii_ledger). lia.
  - eapply Forall_impl; [exact ii_records|]. intros e He. apply (record_inv_step _ _ _ _ _ _ Hs) in He. revert He. apply record_inv_jobs.
    intros id job Hj. exists job. split; [|done]. rewrite lookup_insert_ne; [done|]. intros <-. congruence.
Qed.
(** The spatial transaction of a batch. *)
Lemma spatial_step (g' : GraphState) request rev tx spatial sd : 1 ≤ rev → decode_batch_spatial request = Ok tx → prepare_batch_spatial sha256 s request rev = Ok (spatial, sd) →
  match tx with Some tx => Forall (λ record, validate_external_record g' record = Ok tt) (stx_records tx) | None => True end →
  ∃ sp', publish_spatial spatial (in_spatial s) = Some sp' ∧ spatial_inv sha256 sp' ∧ ss_scope sp' = scope
    ∧ (ss_revision sp' = Some rev ∨ sp' = in_spatial s)
    ∧ Forall (λ e, e ∈ catalog_records (ss_catalog (in_spatial s)) ∨ e.1 = rev ∧ validate_external_record g' e.2 = Ok tt) (catalog_records (ss_catalog sp')).
Proof.
  intros Hrev Htx Hp Hval. destruct Hi as []. destruct request as [request|]; cbn [decode_batch_spatial prepare_batch_spatial] in Htx, Hp.
  2:{ injection Hp as <- <-. injection Htx as <-. exists (in_spatial s). split_and!; try done; [by right|]. apply Forall_forall. intros e He. by left. }
  destruct (decode_spatial_transaction request) as [tx'|] eqn:Hdec; [|done]. injection Htx as <-. apply bind_Ok in Hp as (prepared & Hp%map_err_Ok & [= <- <-]).
  destruct (spatial_commit _ _ _ _ _ _ ii_spatial Hrev Hp) as (tx0 & a & Hdec' & Hsc & Ha & Hpub). rewrite Hdec in Hdec'. injection Hdec' as <-.
  eexists. split; [exact Hpub|]. apply transaction_iff in Hdec as [Htx _]. split_and!; [by eapply spatial_commit_inv|done|by left|].
  destruct (batch_extends _ _ _ _ _ Hrev (si_catalog _ _ ii_spatial) Ha) as (_ & _ & _ & ins & Hsub & Hrec & _). cbn [ss_catalog]. rewrite Hrec.
  apply Forall_app. split; [|apply Forall_forall; by left]. apply Forall_fmap, Forall_forall. intros x Hx. right. cbn. split; [done|].
  rewrite Forall_forall in Hval. by apply Hval, (elem_of_sublist _ _ _ Hx Hsub).
Qed.
(** A job that a batch extends. *)
Lemma unstarted_fields c : unstarted_mismatch c = false →
  ick_version c = 1 ∧ ick_next_batch c = 1 ∧ ick_accepted_rows c = 0 ∧ ick_cursor c = ImportCursor_START ∧ ick_first_revision c = ick_last_revision c ∧ ick_status c = JobOpen.
Proof.
  unfold unstarted_mismatch. rewrite !orb_false_iff, !negb_false_iff, !Z.eqb_eq, !bool_decide_eq_true. tauto.
Qed.
Lemma extended_inv g p g' rev id job receipt events : graph_step false g rev p g' → job_inv scope g id job → rc_revision receipt = rev →
  next_receipt (js_checkpoint job) receipt → map_len events = map_len (js_source_events job) + rc_row_count receipt →
  map_Forall (λ event digest, ref_ok event ∧ ref_scope event = scope ∧ length digest = 32%nat) events →
  job_inv scope g' id (mk_job_state (rc_checkpoint receipt) (<[ick_next_batch (js_checkpoint job) := receipt]> (js_batches job)) events).
Proof.
  intros Hs Hjob Hrev Hnext Hlen Hev. apply (job_step _ _ _ _ _ Hs) in Hjob; [|by apply (gs_active _ _ _ _ _ Hs), (ji_active _ _ _ _ Hjob)].
  destruct Hjob as []. destruct (nr_advanced _ _ Hnext) as (final & chain & Hch & (_ & _ & _ & _ & Heq)%advanced_Ok).
  split; cbn [js_checkpoint js_batches js_source_events]; rewrite ?Heq; cbn [ick_job ick_source ick_mapping ick_first_revision ick_last_revision ick_accepted_rows]; try done.
  - rewrite Hrev. destruct (step_current _ _ _ _ _ Hs). lia.
  - destruct ji_ledger as (start & rs & Hok & Hst & Hchain & Hb). exists start, (rs ++ [receipt]). rewrite <-Heq. split_and!; [done|done|by apply (chain_snoc _ _ (js_checkpoint job))|].
    pose proof (chain_fields _ _ _ Hchain) as (_ & _ & _ & _ & _ & Hnb & _). apply unstarted_fields in Hst as (_ & Hone & _).
    rewrite btree_entries_snoc, Hb, numbered_snoc, Hnb, Hone; [by rewrite (Z.add_comm 1)|]. unfold btree_keys. rewrite Hb, Hnb, Hone.
    eapply Forall_impl; [apply numbered_keys|]. intros k Hk. cbn in Hk. unfold lexico, Z_lexico. lia.
  - lia.
Qed.
Lemma ledger_extend g jobs idx count id job checkpoint receipt seq (rows : list (SourceEventRef * list byte)) :
  ledger_inv scope g jobs idx count → jobs !! id = Some job → js_batches job !! seq = None → count < MAX_IMPORT_BATCHES →
  Forall (λ e, idx !! e = None) rows.*1 → ick_first_revision checkpoint = ick_first_revision (js_checkpoint job) →
  (∀ id' job', jobs !! id' = Some job' → rc_revision receipt ∉ job_revisions job') →
  job_inv scope g id (mk_job_state checkpoint (<[seq := receipt]> (js_batches job)) (list_to_map rows ∪ js_source_events job)) →
  ledger_inv scope g (<[id := mk_job_state checkpoint (<[seq := receipt]> (js_batches job)) (list_to_map rows ∪ js_source_events job)]> jobs)
    (((λ _, id) <$> (list_to_map rows : gmap SourceEventRef (list byte))) ∪ idx) (count + 1).
Proof.
  intros [Hjobs Hidx Hrevs Hcount [Hmax Hb]] Hj Hseq Hlt Hnew Hfirst Hfresh Hjob. set (job1 := mk_job_state checkpoint _ _) in *.
  rewrite Forall_forall in Hnew. assert (∀ r, r ∈ job_revisions job1 → r ∈ job_revisions job ∨ r = rc_revision receipt) as Hone.
  { intros r. unfold job_revisions. rewrite !elem_of_cons. intros [->|(x & -> & (k & Hx)%elem_of_btree_values)%list_elem_of_fmap]; [by left; left|].
    cbn in Hx. apply lookup_insert_Some in Hx as [[_ <-]|[_ Hx]]; [by right|]. left. right. apply list_elem_of_fmap. exists x. split; [done|].
    apply elem_of_btree_values. by exists k. }
  split.
  - by apply map_Forall_insert_2.
  - intros event id'. rewrite lookup_union_Some_raw, lookup_fmap. split.
    + intros [He|[_ He]].
      * destruct (list_to_map rows !! event) as [d|] eqn:Hd; [|done]. injection He as <-. exists job1. rewrite lookup_insert_eq. split; [done|].
        unfold job1. cbn [js_source_events]. rewrite lookup_union, Hd. by destruct (js_source_events job !! event).
      * apply Hidx in He as (job' & Hj' & He). destruct (decide (id = id')) as [<-|Hne].
        -- rewrite Hj in Hj'. injection Hj' as <-. exists job1. rewrite lookup_insert_eq. split; [done|]. unfold job1. cbn [js_source_events].
           rewrite lookup_union. destruct He as [d ->]. by destruct (list_to_map rows !! event).
        -- exists job'. by rewrite lookup_insert_ne.
    + intros (job' & Hj' & He). destruct (decide (id = id')) as [<-|Hne].
      * rewrite lookup_insert_eq in Hj'. injection Hj' as <-. unfold job1 in He. cbn [js_source_events] in He. rewrite lookup_union in He.
        destruct (list_to_map rows !! event) as [d|] eqn:Hd; [by left|]. right. split; [done|]. apply Hidx. exists job. by rewrite (left_id_L None _) in He.
      * rewrite lookup_insert_ne in Hj' by done. assert (idx !! event = Some id') as Hin by (apply Hidx; by exists job').
        right. split; [|done]. destruct (list_to_map rows !! event) as [d|] eqn:Hd; [|done]. exfalso. assert (event ∈ rows.*1) as Hr by (apply rows_lookup; by eexists).
        apply Hnew in Hr. congruence.
  - intros id1 id2 job2 job3 r. rewrite !lookup_insert_Some. intros [[<- <-]|[Hn1 Hj1]] [[<- <-]|[Hn2 Hj2]] Hr1 Hr2; [done|..|by eapply Hrevs].
    + apply Hone in Hr1 as [Hr1| ->]; [by eapply (Hrevs id id2)|]. by destruct (Hfresh _ _ Hj2).
    + apply Hone in Hr2 as [Hr2| ->]; [by eapply (Hrevs id1 id)|]. by destruct (Hfresh _ _ Hj1).
  - rewrite batch_total_insert, Hcount, (batch_total_delete _ _ _ Hj). unfold job1. cbn [js_batches]. unfold map_len. rewrite map_size_insert_None by done. lia.
  - split; [|lia]. unfold map_len in *. by rewrite map_size_insert_Some by (by eexists).
Qed.
(** What a batch prepared. *)
Definition row_pairs (batch : ImportBatch) : list (SourceEventRef * list byte) := map (λ row, (row_event row, row_digest row)) (ib_rows batch).
Lemma row_pairs_events batch : (row_pairs batch).*1 = row_event <$> ib_rows batch.
Proof. unfold row_pairs. induction (ib_rows batch) as [|row rows IH]; cbn; [done|]. by f_equal. Qed.
Lemma finish_batch_Ok batch job request_digest rev graph gd view outcome graph' spatial mutation gd' sd : prepared_view (in_graph s) graph = Ok view →
  finish_batch sha256 s batch job request_digest rev graph gd = Ok (outcome, graph', spatial, mutation, gd', sd) →
  ∃ tx chain next, graph' = graph ∧ outcome = BatchCommitted (ib_id batch) rev (zlen (ib_rows batch)) next
    ∧ chain = digest_chain sha256 (ick_chain_digest (js_checkpoint job)) request_digest rev gd sd ∧ decode_batch_spatial (ib_spatial_request batch) = Ok tx ∧ prepare_batch_spatial sha256 s (ib_spatial_request batch) rev = Ok (spatial, sd)
    ∧ match tx with Some tx => Forall (λ record, validate_external_record view record = Ok tt) (stx_records tx) | None => True end
    ∧ length chain = 32%nat ∧ advanced (js_checkpoint job) (zlen (ib_rows batch)) rev (ib_final batch) chain = Ok next
    ∧ mutation = MutationBatch (bi_job (ib_id batch)) (js_checkpoint job) (bi_sequence (ib_id batch))
                   (mk_receipt request_digest rev (zlen (ib_rows batch)) next) (row_pairs batch).
Proof.
  intros Hv. unfold finish_batch. rewrite Hv. cbn [map_err]. rewrite result_bind_Ok. intros (tx & Htx & H)%bind_Ok. apply bind_Ok in H as ([sp d] & Hsp & H).
  cbv zeta in H. rewrite !then_Ok in H. destruct H as (_ & _ & Hval & H). destruct (_ <? _); [done|]. apply bind_Ok in H as (next & Hnext & H).
  injection H as <- <- <- <- <- <-. eexists tx, _, next. split_and!; [done|done|done|done|done| |apply sha256_width|exact Hnext|done].
  destruct tx; [|done]. by apply try_each_Ok.
Qed.
Definition spatial_effect (request : option (list byte)) (rev : CommitRevision) (sp sp' : SpatialState) (digest : option (list byte)) : Prop :=
  match request with
  | Some request => ∃ p, spatial_prepare sha256 (B := unit) sp request None rev = Ok p ∧ spatial_publish p sp = Some sp' ∧ digest = Some (psp_result_digest p)
  | None => sp' = sp ∧ digest = None
  end.
(** What a batch leaves: the graph and the space after their own commits, the job
    with one more receipt, and its rows. *)
Definition batch_effect (batch : ImportBatch) (rev : CommitRevision) (canonical : list byte) (outcome : ImportBatchOutcome) (s' : IngestState) : Prop :=
  ∃ p g' sp' digest job next receipt, prepare sha256 (B := unit) (in_graph s) (ib_graph_request batch) None rev = Some (Ok p) ∧ publish p (in_graph s) = Some g'
    ∧ spatial_effect (ib_spatial_request batch) rev (in_spatial s) sp' digest
    ∧ in_jobs s !! bi_job (ib_id batch) = Some job ∧ ib_expected batch = js_checkpoint job ∧ bi_sequence (ib_id batch) = ick_next_batch (js_checkpoint job)
    ∧ advanced (js_checkpoint job) (zlen (ib_rows batch)) rev (ib_final batch)
        (digest_chain sha256 (ick_chain_digest (js_checkpoint job)) (sha256 canonical) rev (p_result_digest p) digest) = Ok next
    ∧ receipt = mk_receipt (sha256 canonical) rev (zlen (ib_rows batch)) next
    ∧ outcome = BatchCommitted (ib_id batch) rev (zlen (ib_rows batch)) next
    ∧ NoDup (row_event <$> ib_rows batch) ∧ Forall (λ row, in_source_events s !! row_event row = None) (ib_rows batch)
    ∧ s' = mk_ingest_state scope (Some rev) g' sp'
        (<[bi_job (ib_id batch) := mk_job_state (rc_checkpoint receipt) (<[bi_sequence (ib_id batch) := receipt]> (js_batches job)) (list_to_map (row_pairs batch) ∪ js_source_events job)]> (in_jobs s))
        (((λ _, bi_job (ib_id batch)) <$> (list_to_map (row_pairs batch) : gmap SourceEventRef (list byte))) ∪ in_source_events s) (in_batch_count s + 1).
Lemma batch_rows_fit batch job : in_jobs s !! bi_job (ib_id batch) = Some job → batch_ok batch →
  validate_rows (in_scope s) batch (in_source_events s) = Ok tt →
  map_len (list_to_map (row_pairs batch) ∪ js_source_events job) = map_len (js_source_events job) + zlen (ib_rows batch)
  ∧ map_Forall (λ event digest, ref_ok event ∧ ref_scope event = scope ∧ length digest = 32%nat) (list_to_map (row_pairs batch) ∪ js_source_events job)
  ∧ NoDup (row_pairs batch).*1 ∧ Forall (λ e, in_source_events s !! e = None) (row_pairs batch).*1.
Proof.
  intros Hj (_ & _ & _ & _ & Hrows & _) [Hnd Hall]%validate_rows_Ok. pose proof (li_jobs _ _ _ _ _ (ii_ledger _ _ _ Hi) _ _ Hj) as Hjob.
  rewrite (ii_scope _ _ _ Hi) in Hall. rewrite <-row_pairs_events in Hnd.
  assert (Forall (λ e, in_source_events s !! e = None) (row_pairs batch).*1) as Hnew.
  { rewrite row_pairs_events. apply Forall_fmap. eapply Forall_impl; [exact Hall|]. by intros row [_ ?]. }
  split_and!; [| |done|done].
  - unfold map_len. rewrite map_size_disj_union.
    + rewrite <-(length_map_to_list (list_to_map (row_pairs batch))), map_to_list_to_map by done. unfold row_pairs. rewrite length_map. unfold zlen. lia.
    + apply map_disjoint_spec. intros e d d' Hd Hd'. assert (e ∈ (row_pairs batch).*1) as He by (apply rows_lookup; by eexists).
      rewrite Forall_forall in Hnew. apply Hnew in He. assert (in_source_events s !! e = Some (bi_job (ib_id batch))) as Hin; [|congruence].
      apply (li_index _ _ _ _ _ (ii_ledger _ _ _ Hi)). exists job. split; [done|]. by eexists.
  - apply map_Forall_union_2; [|apply (ji_event _ _ _ _ Hjob)]. intros e d Hd%elem_of_list_to_map_2. unfold row_pairs in Hd.
    apply list_elem_of_In, in_map_iff in Hd as (row & [= <- <-] & Hr%list_elem_of_In). rewrite Forall_forall in Hall, Hrows.
    destruct (Hall _ Hr), (Hrows _ Hr). by split_and!.
Qed.
Lemma fresh_sequence scope' g id job : job_inv scope' g id job → js_batches job !! ick_next_batch (js_checkpoint job) = None.
Proof.
  intros Hjob. destruct (ji_ledger _ _ _ _ Hjob) as (start & rs & _ & (_ & Hone & _)%unstarted_fields & (_ & _ & _ & _ & _ & Hnb & _)%chain_fields & Hb).
  destruct (js_batches job !! _) as [r|] eqn:Hr; [|done]. apply elem_of_btree_entries in Hr. rewrite Hb in Hr.
  pose proof (numbered_keys 0 rs) as Hk. rewrite Forall_forall in Hk. assert (ick_next_batch (js_checkpoint job) ∈ (numbered 0 rs).*1) as Hin.
  { apply list_elem_of_fmap. by exists (ick_next_batch (js_checkpoint job), r). }
  apply Hk in Hin. cbn in Hin. lia.
Qed.
Lemma spatial_any sp request rev : spatial_prepare sha256 (B := BlobInventory) sp request None rev = spatial_prepare sha256 (B := unit) sp request None rev.
Proof. done. Qed.
Lemma spatial_published request rev spatial sd sp' : prepare_batch_spatial sha256 s request rev = Ok (spatial, sd) →
  publish_spatial spatial (in_spatial s) = Some sp' → spatial_effect request rev (in_spatial s) sp' sd.
Proof.
  destruct request as [request|]; cbn [prepare_batch_spatial spatial_effect]; [|by intros [= <- <-] [= <-]].
  intros (p & Hp%map_err_Ok & [= <- <-])%bind_Ok Hpub. exists p. by rewrite <-spatial_any.
Qed.
(** The state a batch leaves. *)
Section batch.
Context (batch : ImportBatch) (rev : CommitRevision) (p : PreparedGraph) (g' : GraphState) (sp' : SpatialState) (job : JobState) (receipt : BatchReceipt).
Context (Hs : graph_step false (in_graph s) rev p g') (Hok : batch_ok batch) (Hj : in_jobs s !! bi_job (ib_id batch) = Some job).
Context (Hseq : bi_sequence (ib_id batch) = ick_next_batch (js_checkpoint job)) (Hmax : in_batch_count s ≠ MAX_IMPORT_BATCHES).
Context (Hrows : validate_rows (in_scope s) batch (in_source_events s) = Ok tt).
Lemma batch_mutation : let mutation := MutationBatch (bi_job (ib_id batch)) (js_checkpoint job) (bi_sequence (ib_id batch)) receipt (row_pairs batch) in
  mutation_fits s mutation = true ∧ apply_mutation s mutation = Some
    (<[bi_job (ib_id batch) := mk_job_state (rc_checkpoint receipt) (<[bi_sequence (ib_id batch) := receipt]> (js_batches job)) (list_to_map (row_pairs batch) ∪ js_source_events job)]> (in_jobs s),
     ((λ _, bi_job (ib_id batch)) <$> (list_to_map (row_pairs batch) : gmap SourceEventRef (list byte))) ∪ in_source_events s, in_batch_count s + 1).
Proof.
  pose proof (ii_ledger _ _ _ Hi) as Hled. pose proof (fresh_sequence _ _ _ _ (li_jobs _ _ _ _ _ Hled _ _ Hj)) as Hfresh. rewrite <-Hseq in Hfresh.
  pose proof (batch_rows_fit _ _ Hj Hok Hrows) as (_ & _ & Hnd & Hnew). split.
  - cbn. rewrite Hj, bool_decide_eq_true_2, Hfresh by done. cbn. apply forallb_forall. intros row Hr%list_elem_of_In. rewrite Forall_forall in Hnew.
    rewrite bool_decide_eq_false_2; [done|]. rewrite Hnew; [by intros []|]. apply list_elem_of_fmap. by eexists.
  - cbn [apply_mutation]. rewrite Hj. cbn [mbind option_bind]. rewrite insert_rows by done. unfold checked_add.
    destruct (Z.leb_spec (in_batch_count s + 1) U64_MAX) as [|Hbig]; [done|]. exfalso. destruct (li_bounds _ _ _ _ _ Hled) as [_ Hb].
    unfold MAX_IMPORT_BATCHES, U64_MAX in *. lia.
Qed.
Context (Hspi : spatial_inv sha256 sp') (Hspsc : ss_scope sp' = scope) (Hsprev : ss_revision sp' = Some rev ∨ sp' = in_spatial s).
Context (Hsprec : Forall (λ e, e ∈ catalog_records (ss_catalog (in_spatial s)) ∨ e.1 = rev ∧ validate_external_record g' e.2 = Ok tt) (catalog_records (ss_catalog sp'))).
Context (Hnr : next_receipt (js_checkpoint job) receipt) (Hrev : rc_revision receipt = rev) (Hcount : rc_row_count receipt = zlen (ib_rows batch)).
Lemma batch_keeps : ingest_inv sha256 scope (mk_ingest_state scope (Some rev) g' sp'
    (<[bi_job (ib_id batch) := mk_job_state (rc_checkpoint receipt) (<[bi_sequence (ib_id batch) := receipt]> (js_batches job)) (list_to_map (row_pairs batch) ∪ js_source_events job)]> (in_jobs s))
    (((λ _, bi_job (ib_id batch)) <$> (list_to_map (row_pairs batch) : gmap SourceEventRef (list byte))) ∪ in_source_events s) (in_batch_count s + 1)).
Proof.
  pose proof (batch_rows_fit _ _ Hj Hok Hrows) as (Hsize & Hev & Hnd & Hnew). rewrite <-Hcount in Hsize. pose proof ledger_revisions as Hold. pose proof Hi as [].
  destruct (step_current _ _ _ _ _ Hs) as [Hcur Hlt]. pose proof (li_jobs _ _ _ _ _ ii_ledger _ _ Hj) as Hjob.
  pose proof (fresh_sequence _ _ _ _ Hjob) as Hfresh. rewrite <-Hseq in Hfresh.
  pose proof (extended_inv _ _ _ _ _ _ receipt _ Hs Hjob Hrev Hnr Hsize Hev) as Hjob'. rewrite <-Hseq in Hjob'.
  split; cbn; try done; [apply (gs_inv _ _ _ _ _ Hs)|apply (gs_durable _ _ _ _ _ Hs)|by rewrite (gs_scope _ _ _ _ _ Hs)|symmetry; apply (gs_revision _ _ _ _ _ Hs)|..].
  - destruct Hsprev as [-> | ->]; cbn; lia.
  - by destruct Hsprev as [-> | ->].
  - apply ledger_extend; try done.
    + eapply ledger_step; [exact Hs|done|]. intros id [job' Hj']. apply (gs_active _ _ _ _ _ Hs); [done|]. by apply (ji_active _ _ _ _ (li_jobs _ _ _ _ _ ii_ledger _ _ Hj')).
    + destruct (li_bounds _ _ _ _ _ ii_ledger). lia.
    + destruct (nr_advanced _ _ Hnr) as (final & chain & _ & (_ & _ & _ & _ & ->)%advanced_Ok). done.
    + intros id' job' Hj' Hr. apply (Hold _ _ _ Hj') in Hr. lia.
  - eapply Forall_impl; [exact Hsprec|]. intros e [He|[He1 He2]].
    + rewrite Forall_forall in ii_records. apply ii_records, (record_inv_step _ _ _ _ _ _ Hs) in He. revert He. apply record_inv_jobs. intros id job0 Hj0.
      destruct (decide (bi_job (ib_id batch) = id)) as [<-|Hne]; [|exists job0; by rewrite lookup_insert_ne]. rewrite Hj in Hj0. injection Hj0 as <-.
      eexists. rewrite lookup_insert_eq. split; [done|]. cbn. intros k v Hv. rewrite lookup_insert_ne; [done|]. intros <-. congruence.
    + split_and!; [done|rewrite He1; by apply (record_step_now _ _ _ _ _ Hs)|]. exists (bi_job (ib_id batch)). eexists. rewrite lookup_insert_eq. split; [done|]. rewrite He1, <-Hrev.
      apply list_elem_of_fmap. exists receipt. split; [done|]. apply elem_of_btree_values. exists (bi_sequence (ib_id batch)). cbn. by rewrite lookup_insert_eq.
Qed.
End batch.
(** The commit of a batch. *)
Lemma batch_commit sc batch inventory rev : batch_ok batch → zlen (ib_graph_request batch) ≤ I64_MAX →
  published (EngineImport sc (ApplyBatch batch)) inventory rev (batch_effect batch rev).
Proof.
  intros Hok Hlen canonical outcome graph spatial mutation gd sd digest. cbn [prepare_action]. unfold ingest_prepare_batch.
  destruct (check_batch s batch inventory) as [job|] eqn:Hcheck; [|done]. apply check_batch_Ok in Hcheck as (Hj & Hseq & Hexp & Hopen & Hmax & Hrows).
  intros ([p d] & Hp & H)%or_panic_Ok. rewrite (ii_scope _ _ _ Hi) in Hp. pose proof (ii_graph _ _ _ Hi) as Hgi.
  destruct (prepare_graph_step _ _ _ _ _ _ _ _ Hgi (ii_durable _ _ _ Hi) Hlen Hp) as (g' & deletes & Hpub & Hs & Hdel & -> & Hprep).
  rewrite (Hdel eq_refl) in Hs. apply (finish_batch_Ok _ _ _ _ _ _ _ _ _ _ _ _ _ (gs_view _ _ _ _ _ Hs)) in H as (tx & chain & next & -> & -> & Hchain & Htx & Hsp & Hval & Hch & Hnext & ->).
  destruct (step_current _ _ _ _ _ Hs) as [Hcur Hlt]. pose proof (current_nonneg _ Hgi) as Hpos.
  destruct (spatial_step g' (ib_spatial_request batch) rev tx spatial sd) as (sp' & Hpubs & Hspi & Hspsc & Hsprev & Hsprec); [lia|done|done| |].
  { destruct tx; [|done]. eapply Forall_impl; [exact Hval|]. intros record. by apply (view_record_valid _ _ _ _ _ Hs). }
  set (receipt := mk_receipt _ rev _ next). pose proof (ji_last _ _ _ _ (li_jobs _ _ _ _ _ (ii_ledger _ _ _ Hi) _ _ Hj)) as Hlast.
  pose proof Hok as (_ & _ & _ & Hrange & _). assert (next_receipt (js_checkpoint job) receipt) as Hnr.
  { split; [done|exact Hrange|unfold receipt; cbn; lia|apply sha256_width|]. by exists (ib_final batch), chain. }
  destruct (batch_mutation _ job receipt Hok Hj Hseq Hmax Hrows) as [Hfit Happ].
  eexists. split; [by eapply ingest_published; [apply Hi|..]|]. rewrite (ii_scope _ _ _ Hi). split; [by eapply batch_keeps|].
  destruct (batch_rows_fit _ _ Hj Hok Hrows) as (_ & _ & Hnd & Hnew). exists p, g', sp', sd, job, next, receipt.
  split_and!; try done; [by eapply spatial_published|by rewrite <-Hchain|by rewrite <-row_pairs_events|]. rewrite row_pairs_events in Hnew. by apply Forall_fmap in Hnew.
Qed.
End actions.

(** ** Every commit *)
Section commits.
Context (sha256 : list byte → list byte) (sha256_width : ∀ bytes, length (sha256 bytes) = 32%nat) (scope : NamespaceRef).
(** What a transaction does: the component commits and the ledger. *)
Definition ingest_effect (s : IngestState) (tx : EngineTransaction) (rev : CommitRevision) (canonical : list byte) (outcome : ImportBatchOutcome) (s' : IngestState) : Prop :=
  match tx with
  | EngineGraph _ request => outcome = GraphCommitted ∧ ∃ p g', prepare sha256 (B := unit) (in_graph s) request None rev = Some (Ok p) ∧ publish p (in_graph s) = Some g'
      ∧ s' = mk_ingest_state scope (Some rev) g' (in_spatial s) (in_jobs s) (in_source_events s) (in_batch_count s)
  | EngineImport _ (StartJob start) => ∃ p g' chain, prepare sha256 (B := unit) (in_graph s) (is_graph_request start) None rev = Some (Ok p)
      ∧ publish p (in_graph s) = Some g' ∧ in_jobs s !! is_job start = None
      ∧ chain = digest_chain sha256 (zeros 32) (sha256 canonical) rev (p_result_digest p) None
      ∧ outcome = JobStarted (js_checkpoint (started_job start rev chain))
      ∧ s' = mk_ingest_state scope (Some rev) g' (in_spatial s) (<[is_job start := started_job start rev chain]> (in_jobs s)) (in_source_events s) (in_batch_count s)
  | EngineImport _ (ApplyBatch batch) => batch_effect sha256 scope s batch rev canonical outcome s'
  end.
Lemma effect_revision s tx rev canonical outcome s' : ingest_effect s tx rev canonical outcome s' → in_revision s' = Some rev.
Proof.
  destruct tx as [sc request|sc [start|batch]].
  - by intros (_ & p & g' & _ & _ & ->).
  - by intros (p & g' & chain & _ & _ & _ & _ & _ & ->).
  - by intros (p & g' & sp' & digest & job & next & receipt & _ & _ & _ & _ & _ & _ & _ & _ & _ & _ & _ & ->).
Qed.
Lemma ingest_commit s request inventory rev p : ingest_inv sha256 scope s → ingest_prepare sha256 s request inventory rev = Some (Ok p) →
  ∃ tx s', decode_engine_transaction request = Ok tx ∧ engine_scope tx = scope ∧ next_ingest_revision s = Ok rev ∧ ingest_publish p s = Some s'
    ∧ ingest_inv sha256 scope s' ∧ ingest_effect s tx rev request (pi_outcome p) s'.
Proof.
  intros Hi (tx & outcome & graph & spatial & mutation & gd & sd & Hok & Htx & Hsc & Hnext & Ha & -> & Hlen)%ingest_prepare_Ok. exists tx. rewrite (ii_scope _ _ _ Hi) in Hsc.
  destruct tx as [sc graph_request|sc [start|batch]]; cbn [frames] in Hlen; apply Forall_cons in Hlen as [Hlen _]; destruct Hok as [_ Hok].
  - destruct (graph_commit _ _ _ Hi _ _ _ _ Hlen _ _ _ _ _ _ _ (digest_result sha256 rev (sha256 request) gd sd outcome) Ha) as (s' & Hpub & Hi' & He). by exists s'.
  - destruct (start_commit _ sha256_width _ _ Hi _ _ _ _ Hok Hlen _ _ _ _ _ _ _ (digest_result sha256 rev (sha256 request) gd sd outcome) Ha) as (s' & Hpub & Hi' & He). by exists s'.
  - destruct (batch_commit _ sha256_width _ _ Hi _ _ _ _ Hok Hlen _ _ _ _ _ _ _ (digest_result sha256 rev (sha256 request) gd sd outcome) Ha) as (s' & Hpub & Hi' & He). by exists s'.
Qed.
End commits.
