(* ===== verification/IngestDurable.v ===== *)
(** * Checkpoints of the ingest reducer round-trip

    What the encoder writes, the decoder reads back: the components through their own
    round trips, and the ledger job by job, its checks following from the invariant. *)
From S2P Require Import Prelude Ids Value Codec Policy GraphRecord GraphCodec GraphCodecFacts GraphCodecExact GraphIndex GraphState GraphValidity GraphCheckpoint GraphOperations GraphPublish GraphReachable GraphQuery GraphGuarantees GraphDurable Storage Blob SpatialModel SpatialCodec SpatialCatalog SpatialAdmit SpatialInvariant SpatialState SpatialDurable SpatialGuarantees IngestModel IngestCodec IngestState IngestCheckpoint IngestInvariant IngestCommit.
Import CheckpointStateError.

(** ** Writers *)

(** A step of the encoder appends [bytes], within the limit. *)
Definition appends (write : list byte → cresult (list byte)) (bytes : list byte) : Prop :=
  ∀ out out', zlen out ≤ MAX_CHECKPOINT_BYTES → write out = Ok out' → out' = out ++ bytes ∧ zlen out' ≤ MAX_CHECKPOINT_BYTES.
Lemma appends_extend bytes : appends (checkpoint_extend bytes) bytes.
Proof.
  intros out out' _. unfold checkpoint_extend. intros (n & Hn%ok_or_Ok & H)%bind_Ok. unfold checked_add in Hn. destruct (_ <=? U64_MAX); [|done]. injection Hn as <-.
  destruct (Z.ltb_spec MAX_CHECKPOINT_BYTES (zlen out + zlen bytes)); [done|]. injection H as <-. split; [done|]. by rewrite zlen_app.
Qed.
Lemma appends_bind w1 w2 b1 b2 : appends w1 b1 → appends w2 b2 → appends (λ out, out ← w1 out; w2 out) (b1 ++ b2).
Proof.
  intros H1 H2 out out' Hout (out1 & Ha & Hb)%bind_Ok. apply H1 in Ha as [-> Hl]; [|done]. apply H2 in Hb as [-> Hl']; [|done]. split; [|done]. by rewrite (assoc_L _).
Qed.
Lemma appends_fold {A} (write : list byte → A → cresult (list byte)) (bytes : A → list byte) l : (∀ a, appends (λ out, write out a) (bytes a)) →
  appends (try_fold write l) (concat (map bytes l)).
Proof.
  intros Hw. induction l as [|a l IH]; cbn [map concat].
  - intros out out' Hout [= <-]. by rewrite app_nil_r.
  - apply (appends_bind (λ out, write out a)); [apply Hw|exact IH].
Qed.
Definition receipt_bytes (e : Z * BatchReceipt) : list byte :=
  be_bytes 8 e.1 ++ rc_request_digest e.2 ++ be_bytes 8 (rc_revision e.2) ++ be_bytes 4 (rc_row_count e.2) ++ zeros 4 ++ encode_import_checkpoint (rc_checkpoint e.2).
Definition event_bytes (e : SourceEventRef * list byte) : list byte := encode_source_event e.1 ++ e.2.
Definition job_bytes (job : JobState) : list byte :=
  encode_import_checkpoint (js_checkpoint job) ++ be_bytes 8 (map_len (js_batches job)) ++ concat (map receipt_bytes (btree_entries (js_batches job)))
  ++ be_bytes 8 (map_len (js_source_events job)) ++ concat (map event_bytes (btree_entries (js_source_events job))).
Ltac appending := repeat first [apply appends_extend | apply appends_bind].
Lemma receipt_appends e : appends (λ out, write_receipt out e) (receipt_bytes e).
Proof. unfold write_receipt, receipt_bytes, checkpoint_u64, checkpoint_u32. appending. Qed.
Lemma event_appends e : appends (λ out, write_event out e) (event_bytes e).
Proof. unfold write_event, event_bytes. appending. Qed.
Lemma job_appends job : appends (λ out, write_job out job) (job_bytes job).
Proof.
  unfold write_job, job_bytes, checkpoint_u64. appending.
  - apply appends_fold, receipt_appends.
  - apply appends_fold, event_appends.
Qed.

(** ** Readers *)
Definition creads {A} (bytes : list byte) (read : creader A) (a : A) : Prop :=
  ∀ off rest, 0 ≤ off → off + zlen (bytes ++ rest) ≤ U64_MAX → read (mk_cursor off (bytes ++ rest)) = Ok (a, mk_cursor (off + zlen bytes) rest).
Lemma creads_importing {A} bytes (read : reader A) a : reads bytes read a → creads bytes (importing read) a.
Proof. intros H off rest Ho Hl. unfold importing. by rewrite H. Qed.
Lemma creads_bind {A B} b1 b2 (r1 : creader A) (r2 : A → creader B) a b : creads b1 r1 a → creads b2 (r2 a) b → creads (b1 ++ b2) (λ c, '(a, c) ← r1 c; r2 a c) b.
Proof.
  intros H1 H2 off rest Ho Hl. pose proof (zlen_nonneg b1). rewrite !zlen_app in Hl. rewrite <-(assoc_L _).
  rewrite H1 by (rewrite ?zlen_app; lia). rewrite result_bind_Ok, H2 by (rewrite ?zlen_app; lia). by rewrite zlen_app, Z.add_assoc.
Qed.
Lemma creads_ret {A} (a : A) : creads [] (λ c, Ok (a, c)) a.
Proof. intros off rest _ _. by rewrite zlen_nil, Z.add_0_r. Qed.
Lemma creads_check {A B} bytes (r : cresult A) (k : A → creader B) a b : r = Ok a → creads bytes (k a) b → creads bytes (λ c, a ← r; k a c) b.
Proof. intros -> H. exact H. Qed.
Lemma creads_then {A B} bytes (r : cresult A) (k : creader B) a b : r = Ok a → creads bytes k b → creads bytes (λ c, r;; k c) b.
Proof. intros -> H. exact H. Qed.
Lemma creads_unless {A} bytes (guard : bool) e (k : creader A) a : guard = false → creads bytes k a → creads bytes (λ c, if guard then Err e else k c) a.
Proof. intros ->. done. Qed.
(** A count is checked against the bytes left. *)
Lemma creads_room {A} bytes (guard : bool) width n e (k : creader A) a : guard = false → 0 < width → width * n ≤ zlen bytes → creads bytes k a →
  creads bytes (λ c, if guard || (remaining c / width <? n) then Err e else k c) a.
Proof.
  intros -> Hw Hl Hk off rest Ho Hb. rewrite <-(Hk off rest Ho Hb). cbn [orb]. rewrite (proj2 (Z.ltb_ge _ _)); [done|].
  unfold remaining. cbn [cur_rest]. rewrite zlen_app. pose proof (zlen_nonneg rest). apply Z.div_le_lower_bound; lia.
Qed.
Lemma creads_last {A B} bytes (r1 : creader A) (r2 : A → creader B) a b : creads bytes r1 a → creads [] (r2 a) b → creads bytes (λ c, '(a, c) ← r1 c; r2 a c) b.
Proof. intros H1 H2. rewrite <-(app_nil_r bytes). by eapply creads_bind. Qed.
Lemma revision_reads r : nonzero_u64 r → creads (be_bytes 8 r) checkpoint_revision r.
Proof.
  intros Hr. unfold checkpoint_revision. eapply creads_last; [apply creads_importing, ic_u64_reads; by apply nonzero_range|].
  apply (creads_check _ _ (λ revision c, Ok (revision, c)) r); [|apply creads_ret]. unfold CommitRevision_new. unfold nonzero_u64 in Hr. rewrite (proj2 (Z.eqb_neq _ _)) by lia. done.
Qed.
Lemma count_reads n maximum : 0 ≤ n ≤ maximum → n ≤ U64_MAX → creads (be_bytes 8 n) (checkpoint_count maximum) n.
Proof.
  intros Hn Hu. unfold checkpoint_count. eapply creads_last; [apply creads_importing, ic_u64_reads; lia|]. rewrite (proj2 (Z.ltb_ge _ _)) by lia. apply creads_ret.
Qed.
Lemma creads_eq {A} bytes bytes' (read : creader A) a a' : creads bytes read a → bytes' = bytes → a' = a → creads bytes' read a'.
Proof. by intros H -> ->. Qed.

(** ** Widths *)
Lemma width_ref {k} (r : scoped_ref k) : ref_ok r → length (as_bytes (ref_database r)) = 16%nat ∧ length (as_bytes (ref_namespace r)) = 16%nat ∧ length (as_bytes (ref_id r)) = 16%nat.
Proof. destruct r as [[]]. by intros [[? ?] ?]. Qed.
Lemma width_record_ref r : ref_ok r → length (encode_record_ref r) = 48%nat.
Proof. intros (H1 & H2 & H3)%width_ref. unfold encode_record_ref, encode_scope. cbn [ns_database ns_namespace]. rewrite !length_app. lia. Qed.
Lemma width_event e d : ref_ok e → length d = 32%nat → zlen (event_bytes (e, d)) = 80.
Proof.
  intros (H1 & H2 & H3)%width_ref Hd. unfold event_bytes, encode_source_event, encode_scope, zlen. cbn [fst snd ns_database ns_namespace]. rewrite !length_app. lia.
Qed.
Lemma width_blob b : blob_ok b → length (encode_blob b) = 96%nat.
Proof.
  intros ([Hd Hn] & (_ & Hi & _ & _ & Hdig) & _). unfold encode_blob, encode_scope. rewrite !length_app, !length_be_bytes, length_zeros. unfold identity_ok in *. lia.
Qed.
Lemma width_checkpoint c : import_checkpoint_ok c → zlen (encode_import_checkpoint c) = 448.
Proof.
  intros (Hj & _ & (He & _ & Hb & _) & (He' & _ & Hb' & _) & _ & _ & _ & _ & _ & _ & Hd). unfold encode_import_checkpoint, encode_source, encode_mapping, zlen.
  rewrite !length_app, !length_be_bytes, !length_zeros, !width_record_ref, !width_blob, Hd by done. done.
Qed.
Lemma width_receipt e : length (rc_request_digest e.2) = 32%nat → import_checkpoint_ok (rc_checkpoint e.2) → zlen (receipt_bytes e) = 504.
Proof.
  intros Hd Hc. unfold receipt_bytes. rewrite !zlen_app, (width_checkpoint _ Hc). unfold zlen. rewrite !length_be_bytes, length_zeros, Hd. done.
Qed.
Lemma width_concat {A} (bytes : A → list byte) width l : Forall (λ a, zlen (bytes a) = width) l → zlen (concat (map bytes l)) = width * zlen l.
Proof. induction 1 as [|a l Ha _ IH]; cbn [map concat]; [unfold zlen; cbn; lia|]. rewrite zlen_app, zlen_cons, Ha, IH. lia. Qed.

(** ** Receipts *)
Definition load_receipt (l : ReceiptLoad) (e : Z * BatchReceipt) : ReceiptLoad :=
  mk_receipt_load (<[e.1 := e.2]> (rl_batches l)) (rl_accepted_rows l + rc_row_count e.2) (rc_revision e.2) (Some (rc_checkpoint e.2))
    ({[rc_revision e.2]} ∪ rl_import_revisions l) ({[rc_revision e.2]} ∪ rl_batch_revisions l).
Section receipts.
Context (revision : CommitRevision) (checkpoint : ImportCheckpoint) (batch_count : Z) (Hmax : 0 ≤ batch_count ≤ MAX_IMPORT_BATCHES).
(** The checkpoint a receipt follows, among the receipts of the job. *)
Record reading_at (index : Z) (c : ImportCheckpoint) (l : ReceiptLoad) : Prop := {
  ra_ok : import_checkpoint_ok c;
  ra_job : ick_job c = ick_job checkpoint ∧ ick_source c = ick_source checkpoint ∧ ick_mapping c = ick_mapping checkpoint ∧ ick_first_revision c = ick_first_revision checkpoint;
  ra_version : 0 ≤ index ∧ ick_version c = index + 1 ∧ ick_next_batch c = index + 1;
  ra_rows : rl_accepted_rows l = ick_accepted_rows c;
  ra_revision : rl_previous_revision l = ick_last_revision c
}.
Lemma reading_next index c l r : reading_at index c l → next_receipt c r → rc_revision r ≤ U64_MAX → reading_at (index + 1) (rc_checkpoint r) (load_receipt l (index + 1, r)).
Proof.
  intros [Hok (H1 & H2 & H3 & H4) (H5 & H6 & H7) H8 H9] [Hopen [Hr _] Hlt _ (final & chain & Hch & Ha)] Hle. pose proof (advanced_ok _ _ _ _ _ _ Hok Hr (conj Hlt Hle) Hch Ha).
  apply advanced_Ok in Ha as (_ & _ & _ & _ & Heq). split; rewrite ?Heq; cbn; [by rewrite <-Heq|done|lia|lia|done].
Qed.
Lemma receipt_fits index c l r : reading_at index c l → next_receipt c r → rc_revision r ≤ revision ≤ U64_MAX → rc_revision r ∉ rl_import_revisions l →
  (index + 1 < batch_count → ick_status (rc_checkpoint r) = JobOpen) →
  receipt_mismatch revision checkpoint batch_count index l (index + 1) (rc_row_count r) (rl_accepted_rows l + rc_row_count r) (rc_revision r) (rc_checkpoint r) = false.
Proof.
  intros [Hok (H1 & H2 & H3 & H4) (H5 & H6 & H7) H8 H9] [Hopen [Hr Hr'] Hlt _ (final & chain & Hch & Ha)] [Hle Hu] Hfresh Hst.
  pose proof Hok as (_ & _ & _ & _ & _ & _ & Hcur & _). apply advanced_Ok in Ha as (Hb1 & Hb2 & Hb3 & Hb4 & Heq).
  rewrite Heq in Hst. cbn in Hst. unfold receipt_mismatch, saturating_add. rewrite !orb_false_iff. split_and!.
  all: rewrite ?negb_false_iff, ?Z.eqb_eq, ?Z.eqb_neq, ?Z.ltb_ge, ?Z.leb_gt, ?bool_decide_eq_true, ?bool_decide_eq_false; try (rewrite Heq; cbn); try done; try lia; try congruence.
  destruct (Z.ltb_spec (index + 1) batch_count) as [Hlt'|]; [|done]. rewrite Hst by done. done.
Qed.
Lemma receipt_reads index c l r : reading_at index c l → next_receipt c r → rc_revision r ≤ revision ≤ U64_MAX → rc_revision r ∉ rl_import_revisions l → index < batch_count →
  (index + 1 < batch_count → ick_status (rc_checkpoint r) = JobOpen) →
  creads (receipt_bytes (index + 1, r)) (read_receipt revision checkpoint batch_count index l) (load_receipt l (index + 1, r)).
Proof.
  intros Ha Hn Hle Hfresh Hidx Hst. pose proof (receipt_fits _ _ _ _ Ha Hn Hle Hfresh Hst) as Hfit.
  pose proof (reading_next _ _ _ _ Ha Hn ltac:(lia)) as [Hok' _ _ Hrows' _]. pose proof Hok' as (_ & _ & _ & _ & _ & Hcur & Hacc & _).
  pose proof (ra_ok _ _ _ Ha) as (_ & _ & _ & _ & _ & Hcur0 & Hacc0 & _ & Hlast & _). pose proof (ra_rows _ _ _ Ha) as Hrows. cbn [rl_accepted_rows load_receipt snd] in Hrows'.
  destruct (ra_version _ _ _ Ha) as (Hi0 & Hv & _). destruct Hn as [_ [Hr Hr'] Hlt Hd _]. unfold MAX_IMPORT_BATCHES, MAX_ROWS_PER_BATCH, MAX_IMPORT_ROWS, nonzero_u64 in *.
  unfold receipt_bytes, read_receipt. cbn [fst snd]. eapply creads_bind; [apply creads_importing, ic_u64_reads; unfold U64_MAX; lia|].
  eapply (creads_then _ _ _ (index + 1)); [unfold checked_add; destruct (Z.leb_spec (index + 1) U64_MAX); [done|unfold U64_MAX in *; lia]|].
  eapply creads_bind; [apply creads_importing, ic_array_reads; exact Hd|].
  eapply creads_bind; [apply revision_reads; unfold nonzero_u64; lia|].
  eapply creads_bind; [apply creads_importing, ic_u32_reads; unfold U32_MAX; lia|].
  eapply creads_bind; [apply creads_importing, ic_zeros_reads|].
  eapply creads_last; [apply creads_importing, (er_reads _ _ _ checkpoint_exact); exact Hok'|].
  eapply (creads_check _ _ _ (rl_accepted_rows l + rc_row_count r)).
  { unfold checked_add. destruct (Z.leb_spec (rl_accepted_rows l + rc_row_count r) U64_MAX); [done|unfold U64_MAX in *; lia]. }
  rewrite Hfit. cbn [fst snd]. destruct r. apply creads_ret.
Qed.
Lemma receipts_reads rs index c c' l : reading_at index c l → receipt_chain c rs c' → index + zlen rs = batch_count → ick_last_revision c' ≤ revision ≤ U64_MAX →
  Forall (λ r, rc_revision r ∉ rl_import_revisions l) rs →
  creads (concat (map receipt_bytes (numbered index rs))) (read_receipts revision checkpoint batch_count index (length rs) l) (foldl load_receipt l (numbered index rs)).
Proof.
  revert index c l. induction rs as [|r rs IH]; intros index c l Ha Hc Hn Hle Hfresh; [apply creads_ret|].
  cbn [numbered map concat length read_receipts foldl]. cbn [receipt_chain] in Hc. destruct Hc as [Hnr Hc]. apply Forall_cons in Hfresh as [Hf Hfresh]. rewrite zlen_cons in Hn.
  pose proof (zlen_nonneg rs) as Hpos. pose proof (chain_fields _ _ _ Hc) as (_ & _ & _ & _ & _ & _ & Hl & Hall).
  assert (ick_last_revision (rc_checkpoint r) = rc_revision r) as Hlast.
  { destruct (nr_advanced _ _ Hnr) as (? & ? & _ & (_ & _ & _ & _ & ->)%advanced_Ok). done. }
  pose proof (reading_next _ _ _ _ Ha Hnr ltac:(lia)) as Hnext. eapply creads_bind.
  - apply (receipt_reads _ c); [done|done|lia|done|lia|]. intros Hlt. destruct rs as [|r' rs]; [rewrite zlen_nil in Hn; lia|]. cbn in Hc. apply Hc.
  - eapply IH; [exact Hnext|exact Hc|lia|done|]. rewrite Hlast in Hall. rewrite Forall_forall in *. intros x Hx. cbn. specialize (Hall x Hx). specialize (Hfresh x Hx).
    rewrite elem_of_union, elem_of_singleton. intros [He|He]; [lia|done].
Qed.
End receipts.
(** What the receipts read amount to. *)
Lemma loaded_receipts es l : foldl load_receipt l es =
  mk_receipt_load (load_entries es (rl_batches l)) (rl_accepted_rows (foldl load_receipt l es)) (rl_previous_revision (foldl load_receipt l es))
    (match last es with Some e => Some (rc_checkpoint e.2) | None => rl_last_receipt l end)
    (list_to_set (rc_revision <$> es.*2) ∪ rl_import_revisions l) (list_to_set (rc_revision <$> es.*2) ∪ rl_batch_revisions l).
Proof.
  induction es as [|e es IH] using rev_ind; cbn.
  { rewrite !(left_id_L ∅ (∪)). by destruct l. }
  rewrite last_snoc. unfold load_entries in *. rewrite !foldl_app, !fmap_app, !list_to_set_app_L. cbn [foldl fmap list_fmap list_to_set]. rewrite IH.
  unfold load_receipt. cbn [rl_batches rl_accepted_rows rl_previous_revision rl_last_receipt rl_import_revisions rl_batch_revisions]. f_equal; set_solver.
Qed.
Lemma loaded_last i rs : match last (numbered i rs) with Some e => Some (rc_checkpoint e.2) | None => None end = rc_checkpoint <$> last rs.
Proof.
  destruct rs as [|r rs _] using rev_ind; [done|]. rewrite numbered_snoc, !last_snoc. done.
Qed.
Lemma chain_last c rs c' : receipt_chain c rs c' → match last rs with Some r => rc_checkpoint r = c' | None => c = c' end.
Proof.
  revert c. induction rs as [|r rs IH]; intros c; [done|]. cbn [receipt_chain]. intros [_ H%IH]. rewrite last_cons. by destruct (last rs).
Qed.
Lemma loaded_rows rs i l c c' : receipt_chain c rs c' → rl_accepted_rows l = ick_accepted_rows c →
  rl_accepted_rows (foldl load_receipt l (numbered i rs)) = ick_accepted_rows c'.
Proof.
  revert i l c. induction rs as [|r rs IH]; intros i l c Hc Hl; cbn in *; [by subst|]. destruct Hc as [Hn Hc]. eapply IH; [done|]. cbn.
  destruct (nr_advanced _ _ Hn) as (? & ? & _ & (_ & _ & _ & _ & ->)%advanced_Ok). cbn. lia.
Qed.

(** ** Source events *)
Definition with_job (job : RecordRef) (l : list (SourceEventRef * list byte)) : list (SourceEventRef * RecordRef) := (λ e, (e.1, job)) <$> l.
Lemma events_reads scope job l previous events index : ascending previous l →
  Forall (λ e, ref_ok e.1 ∧ ref_scope e.1 = scope ∧ length e.2 = 32%nat) l → Forall (λ e, index !! e.1 = None) l →
  creads (concat (map event_bytes l)) (read_events scope job (length l) previous events index) (load_entries l events, load_entries (with_job job l) index).
Proof.
  revert previous events index. induction l as [|[e d] l IH]; intros previous events index Hasc Hok Hnew; [apply creads_ret|].
  apply Forall_cons in Hok as [(Hr & Hs & Hd) Hok]. apply Forall_cons in Hnew as [Hn Hnew]. cbn [fst snd] in *. pose proof (ascending_cons _ _ _ _ Hasc) as [Hasc' Hlt].
  cbn [map concat length read_events]. apply (creads_bind _ _ _ (λ p c, let '(event, (events, index)) := p in read_events scope job (length l) (Some event) events index c) (e, (<[e := d]> events, <[e := job]> index))).
  - unfold read_event, event_bytes. cbn [fst snd]. eapply creads_bind; [apply creads_importing, (er_reads _ _ _ event_ref_exact); exact Hr|].
    eapply creads_last; [apply creads_importing, ic_array_reads; exact Hd|]. apply creads_unless; [|apply creads_ret].
    rewrite !bool_decide_eq_true_2 by (rewrite <-Hs; by destruct e as [[]]). cbn [negb orb]. rewrite Hn. apply orb_false_iff. split; [|by apply bool_decide_eq_false_2; intros []].
    destruct previous as [k|]; [|done]. apply bool_decide_eq_false_2. intros Hk. by apply Hk.
  - apply (IH (Some e)); [done|done|]. rewrite Forall_forall in *. intros [e' d'] He'. cbn. rewrite lookup_insert_ne; [by apply (Hnew (e', d'))|].
    intros <-. destruct Hasc' as [_ Hgt]. rewrite Forall_forall in Hgt. apply (irreflexivity lexico e), Hgt. apply list_elem_of_fmap. by exists (e, d').
Qed.

(** ** Jobs *)
Lemma zlen_btree_entries {K V} `{Countable K, Lexico K, !TrichotomyT (@lexico K _), !StrictOrder (@lexico K _)} (m : gmap K V) : zlen (btree_entries m) = map_len m.
Proof. unfold zlen, map_len. by rewrite length_btree_entries. Qed.
Lemma map_len_nonneg {K V} `{Countable K} (m : gmap K V) : 0 ≤ map_len m.
Proof. unfold map_len. lia. Qed.
Definition receipt_revisions (job : JobState) : gset CommitRevision := list_to_set (rc_revision <$> btree_values (js_batches job)).
Definition load_job (l : JobLoad) (e : RecordRef * JobState) : JobLoad :=
  mk_job_load (<[e.1 := e.2]> (jl_jobs l)) (load_entries (with_job e.1 (btree_entries (js_source_events e.2))) (jl_source_events l)) (Some e.1)
    (jl_batch_count l + map_len (js_batches e.2)) (receipt_revisions e.2 ∪ ({[ick_first_revision (js_checkpoint e.2)]} ∪ jl_import_revisions l))
    (receipt_revisions e.2 ∪ jl_batch_revisions l).
Section jobs.
Context (scope : NamespaceRef) (g : GraphState) (revision : CommitRevision) (Hi : graph_inv g) (Hrev : GraphState.revision g = Some revision).
Record readable (l : JobLoad) (id : RecordRef) (job : JobState) : Prop := {
  rd_job : job_inv scope g id job;
  rd_previous : match jl_previous_job l with Some p => lexico p id | None => True end;
  rd_revisions r : r ∈ job_revisions job → r ∉ jl_import_revisions l;
  rd_events : map_Forall (λ event _, jl_source_events l !! event = None) (js_source_events job);
  rd_count : 0 ≤ jl_batch_count l ∧ jl_batch_count l + map_len (js_batches job) ≤ MAX_IMPORT_BATCHES
}.
Lemma current_revision : current g = revision ∧ 1 ≤ revision ≤ U64_MAX.
Proof. pose proof (gi_revision _ Hi) as H. unfold current. rewrite Hrev in *. by cbn. Qed.
Lemma job_fits l id job : readable l id job → job_mismatch scope revision g l (js_checkpoint job) = false.
Proof.
  intros [[] Hprev _ _ _]. unfold job_mismatch. rewrite ji_job, ji_scope, ji_bindings, ji_active, ji_source, ji_mapping, ji_active_at, ji_source_at, ji_mapping_at.
  cbn [is_ok negb]. rewrite !orb_false_r. apply orb_false_iff. split; [|apply Z.ltb_ge; by rewrite <-(proj1 current_revision)].
  destruct (jl_previous_job l); [|done]. apply bool_decide_eq_false_2. intros Hk. by apply Hk.
Qed.
Lemma job_ledger id job : job_inv scope g id job → ∃ start rs, import_checkpoint_ok start ∧ unstarted_mismatch start = false ∧ receipt_chain start rs (js_checkpoint job)
  ∧ btree_entries (js_batches job) = numbered 0 rs ∧ import_checkpoint_ok (js_checkpoint job) ∧ map_len (js_batches job) = zlen rs
  ∧ zlen (concat (map receipt_bytes (numbered 0 rs))) = 504 * zlen rs.
Proof.
  intros Hjob. pose proof (ji_last _ _ _ _ Hjob) as Hl. destruct (ji_ledger _ _ _ _ Hjob) as (start & rs & Hok & Hst & Hc & Hb). exists start, rs.
  destruct current_revision as [Hcur Hr]. destruct (chain_ok _ _ _ Hok Hc ltac:(lia)) as [Hok' Hall].
  assert (zlen (numbered 0 rs) = zlen rs) as Hlen by (unfold zlen; rewrite <-(numbered_values 0 rs) at 2; by rewrite length_fmap).
  split_and!; try done.
  - by rewrite <-zlen_btree_entries, Hb.
  - rewrite <-Hlen. apply width_concat. assert (Forall (λ r, length (rc_request_digest r) = 32%nat) rs) as Hd.
    { clear -Hc. revert start Hc. induction rs as [|r rs IH]; intros start Hc; [constructor|]. destruct Hc as [Hn Hc]. constructor; [apply Hn|by eapply IH]. }
    rewrite <-(numbered_values 0 rs) in Hall, Hd. rewrite Forall_fmap in Hall, Hd. rewrite Forall_forall in *. intros e He. by apply width_receipt; [apply Hd|apply Hall].
Qed.
Lemma event_entries id job : job_inv scope g id job → zlen (concat (map event_bytes (btree_entries (js_source_events job)))) = 80 * ick_accepted_rows (js_checkpoint job).
Proof.
  intros Hjob. rewrite <-(ji_events _ _ _ _ Hjob), <-zlen_btree_entries. apply width_concat, Forall_forall. intros [e d] He%elem_of_btree_entries.
  apply (ji_event _ _ _ _ Hjob) in He as (? & _ & ?). by apply width_event.
Qed.
(** The receipts of a job, read. *)
Definition job_receipts (l : JobLoad) (job : JobState) : ReceiptLoad :=
  foldl load_receipt (mk_receipt_load ∅ 0 (ick_first_revision (js_checkpoint job)) None ({[ick_first_revision (js_checkpoint job)]} ∪ jl_import_revisions l) (jl_batch_revisions l))
    (btree_entries (js_batches job)).
Lemma job_receipts_load l id job : job_inv scope g id job →
  rl_batches (job_receipts l job) = js_batches job ∧ rl_accepted_rows (job_receipts l job) = ick_accepted_rows (js_checkpoint job)
  ∧ rl_import_revisions (job_receipts l job) = receipt_revisions job ∪ ({[ick_first_revision (js_checkpoint job)]} ∪ jl_import_revisions l)
  ∧ rl_batch_revisions (job_receipts l job) = receipt_revisions job ∪ jl_batch_revisions l
  ∧ match rl_last_receipt (job_receipts l job) with Some last => negb (bool_decide (last = js_checkpoint job)) | None => unstarted_mismatch (js_checkpoint job) end = false.
Proof.
  intros Hjob. destruct (job_ledger _ _ Hjob) as (start & rs & Hok & Hst & Hc & Hb & _). unfold job_receipts. rewrite loaded_receipts.
  cbn [rl_batches rl_accepted_rows rl_import_revisions rl_batch_revisions rl_last_receipt]. split_and!; [apply load_entries_all| |done|done|].
  - rewrite Hb. apply (loaded_rows _ _ _ start); [done|]. cbn. by apply unstarted_fields in Hst as (_ & _ & -> & _).
  - rewrite Hb, loaded_last. apply chain_last in Hc. destruct (last rs); cbn; [by rewrite bool_decide_eq_true_2|by subst].
Qed.
Lemma job_receipts_reads l id job : readable l id job →
  creads (concat (map receipt_bytes (btree_entries (js_batches job))))
    (read_receipts revision (js_checkpoint job) (map_len (js_batches job)) 0 (Z.to_nat (map_len (js_batches job)))
      (mk_receipt_load ∅ 0 (ick_first_revision (js_checkpoint job)) None ({[ick_first_revision (js_checkpoint job)]} ∪ jl_import_revisions l) (jl_batch_revisions l)))
    (job_receipts l job).
Proof.
  intros [Hjob _ Hfresh _ Hcount]. destruct (job_ledger _ _ Hjob) as (start & rs & Hok & Hst & Hc & Hb & _ & Hlen & _). unfold job_receipts. rewrite Hb, Hlen in *.
  pose proof (unstarted_fields _ Hst) as (Hv & Hn & Hrows & _ & Hfl & _). pose proof (chain_fields _ _ _ Hc) as (H1 & H2 & H3 & H4 & _ & _ & _ & Hall).
  destruct current_revision as [Hcur Hr]. pose proof (ji_last _ _ _ _ Hjob) as Hlast.
  replace (Z.to_nat (zlen rs)) with (length rs) by (unfold zlen; lia). pose proof (zlen_nonneg rs).
  apply (receipts_reads revision (js_checkpoint job) (zlen rs) ltac:(lia) rs 0 start (js_checkpoint job)); [|done|lia|lia|].
  - split; cbn; [done|by rewrite H1, H2, H3, H4|lia|lia|lia].
  - rewrite Forall_forall in *. intros r Hin. cbn. specialize (Hall r Hin). rewrite elem_of_union, elem_of_singleton. intros [He|He]; [lia|].
    revert He. apply Hfresh. right. unfold btree_values. rewrite Hb, numbered_values. apply list_elem_of_fmap. by exists r.
Qed.
Lemma job_reads l id job : readable l id job → creads (job_bytes job) (read_job scope revision g l) (load_job l (id, job)).
Proof.
  intros Hrd. pose proof (job_fits _ _ _ Hrd) as Hfit. pose proof (job_receipts_reads _ _ _ Hrd) as Hreceipts. destruct Hrd as [Hjob Hprev Hfresh Hev [Hc1 Hc2]].
  destruct (job_ledger _ _ Hjob) as (start & rs & _ & _ & _ & Hb & Hok & Hlen & Hwidth). pose proof (event_entries _ _ Hjob) as Hwidth'. rewrite <-Hb in Hwidth.
  destruct (job_receipts_load l _ _ Hjob) as (L1 & L2 & L3 & L4 & L5). pose proof Hok as (_ & _ & _ & _ & _ & Hcur & Hacc & _).
  pose proof (ji_job _ _ _ _ Hjob) as Hid. pose proof (zlen_nonneg rs) as Hpos. unfold MAX_IMPORT_BATCHES, MAX_IMPORT_ROWS in *.
  unfold read_job, job_bytes. eapply creads_bind; [apply creads_importing, (er_reads _ _ _ checkpoint_exact); exact Hok|].
  apply creads_unless; [exact Hfit|]. apply creads_unless; [apply bool_decide_eq_false_2, Hfresh; by left|].
  eapply creads_bind; [apply count_reads; unfold MAX_IMPORT_BATCHES, U64_MAX; lia|].
  eapply (creads_check _ _ _ (jl_batch_count l + map_len (js_batches job))).
  { unfold checked_add. destruct (Z.leb_spec (jl_batch_count l + map_len (js_batches job)) U64_MAX); [done|unfold U64_MAX in *; lia]. }
  apply creads_room; [apply Z.ltb_ge; unfold MAX_IMPORT_BATCHES; lia|lia|rewrite zlen_app, Hwidth, Hlen; match goal with |- context [zlen (?x ++ ?y)] => pose proof (zlen_nonneg (x ++ y)) end; lia|].
  eapply creads_bind; [exact Hreceipts|]. apply creads_unless; [exact L5|]. rewrite L2.
  eapply creads_bind; [apply creads_importing, ic_u64_reads; rewrite (ji_events _ _ _ _ Hjob); unfold U64_MAX; lia|]. rewrite (ji_events _ _ _ _ Hjob).
  apply creads_unless; [by rewrite Z.eqb_refl|]. apply (creads_room _ false 80); [done|lia|lia|].
  rewrite <-(ji_events _ _ _ _ Hjob), zlen_entries, Hid.
  apply (creads_last _ _ (λ p c, let '(events, index) := p in _) (js_source_events job, load_entries (with_job id (btree_entries (js_source_events job))) (jl_source_events l))).
  - rewrite <-(load_entries_all (js_source_events job)) at 3. apply events_reads; [by apply ascending_entries|..].
    + apply Forall_forall. intros [e d] He%elem_of_btree_entries. by apply (ji_event _ _ _ _ Hjob) in He.
    + apply Forall_forall. intros [e d] He%elem_of_btree_entries. by apply Hev in He.
  - unfold load_job. cbn [fst snd]. rewrite L1, L3, L4. destruct job. apply creads_ret.
Qed.
End jobs.
(** A list of jobs that may be read after [l]. *)
Section loads.
Context (scope : NamespaceRef) (g : GraphState).
Record loadable (l : JobLoad) (es : list (RecordRef * JobState)) : Prop := {
  ld_jobs : Forall (λ e, job_inv scope g e.1 e.2) es;
  ld_ascending : ascending (jl_previous_job l) es;
  ld_revisions e r : e ∈ es → r ∈ job_revisions e.2 → r ∉ jl_import_revisions l;
  ld_distinct e e' r : e ∈ es → e' ∈ es → r ∈ job_revisions e.2 → r ∈ job_revisions e'.2 → e.1 = e'.1;
  ld_events e event : e ∈ es → is_Some (js_source_events e.2 !! event) → jl_source_events l !! event = None;
  ld_owned e e' event : e ∈ es → e' ∈ es → is_Some (js_source_events e.2 !! event) → is_Some (js_source_events e'.2 !! event) → e.1 = e'.1;
  ld_count : 0 ≤ jl_batch_count l ∧ jl_batch_count l + batch_total es.*2 ≤ MAX_IMPORT_BATCHES
}.
Lemma batch_total_cons job l : batch_total (job :: l) = map_len (js_batches job) + batch_total l.
Proof. done. Qed.
Lemma batch_total_nonneg l : 0 ≤ batch_total l.
Proof. unfold batch_total. induction l as [|j l IH]; cbn [foldr]; [done|]. pose proof (map_len_nonneg (js_batches j)). lia. Qed.
Lemma loadable_head l id job es : loadable l ((id, job) :: es) → readable scope g l id job.
Proof.
  intros [Hj Ha Hr _ He _ [Hc1 Hc2]]. split.
  - by apply Forall_cons in Hj as [? _].
  - by apply ascending_cons in Ha as [_ ?].
  - intros r. apply (Hr (id, job)). by left.
  - intros event d Hd. apply (He (id, job)); [by left|by eexists].
  - split; [done|]. pose proof (batch_total_nonneg es.*2). rewrite fmap_cons, batch_total_cons in Hc2. cbn [snd] in Hc2. lia.
Qed.
Lemma with_job_lookup id (es : list (SourceEventRef * list byte)) (m : gmap SourceEventRef RecordRef) event :
  load_entries (with_job id es) m !! event = if decide (event ∈ es.*1) then Some id else m !! event.
Proof.
  revert m. induction es as [|[e d] es IH]; intros m; [done|]. change (load_entries (with_job id ((e, d) :: es)) m) with (load_entries (with_job id es) (<[e := id]> m)). rewrite IH.
  destruct (decide (event ∈ es.*1)) as [Hin|Hn]; [by rewrite decide_True by (by right)|]. destruct (decide (e = event)) as [->|Hne].
  - by rewrite lookup_insert_eq, decide_True by (by left).
  - rewrite lookup_insert_ne, decide_False; [done|by intros [?|?]%elem_of_cons|done].
Qed.
Lemma loaded_event l id job event : jl_source_events (load_job l (id, job)) !! event =
  if decide (is_Some (js_source_events job !! event)) then Some id else jl_source_events l !! event.
Proof. cbn [load_job jl_source_events fst snd]. rewrite with_job_lookup. by apply decide_ext, elem_of_btree_keys. Qed.
Lemma loaded_revision l id job r : r ∈ jl_import_revisions (load_job l (id, job)) → r ∈ job_revisions job ∨ r ∈ jl_import_revisions l.
Proof. cbn. unfold receipt_revisions, job_revisions. set_solver. Qed.
Lemma loadable_tail l id job es : loadable l ((id, job) :: es) → loadable (load_job l (id, job)) es.
Proof.
  intros [Hj Ha Hr Hd He Ho [Hc1 Hc2]]. pose proof (ascending_cons _ _ _ _ Ha) as [Ha' _].
  assert (∀ e, e ∈ es → e.1 ≠ id) as Hne.
  { intros e Hin <-. destruct Ha' as [_ Hgt]. rewrite Forall_forall in Hgt. apply (irreflexivity lexico e.1), Hgt. by apply list_elem_of_fmap_2. }
  split.
  - by apply Forall_cons in Hj as [_ ?].
  - exact Ha'.
  - intros e r Hin Hre [Hr'|Hr']%loaded_revision.
    + apply (Hne e Hin). apply (Hd e (id, job) r); [by right|by left|done|done].
    + revert Hr'. apply (Hr e); [by right|done].
  - intros e e' r H1 H2. apply Hd; by right.
  - intros e event Hin Hev. rewrite loaded_event, decide_False; [apply (He e); [by right|done]|]. intros Hev'. apply (Hne e Hin), (Ho e (id, job) event); [by right|by left|done|done].
  - intros e e' event H1 H2. apply Ho; by right.
  - rewrite fmap_cons, batch_total_cons in Hc2. cbn [snd] in Hc2. cbn [load_job jl_batch_count snd]. pose proof (map_len_nonneg (js_batches job)). lia.
Qed.
End loads.
Section reads.
Context (scope : NamespaceRef) (g : GraphState) (revision : CommitRevision) (Hi : graph_inv g) (Hrev : GraphState.revision g = Some revision).
Lemma jobs_reads l es : loadable scope g l es → creads (concat (map job_bytes es.*2)) (read_jobs scope revision g (length es) l) (foldl load_job l es).
Proof.
  revert l. induction es as [|[id job] es IH]; intros l Hl; [apply creads_ret|].
  cbn [fmap list_fmap fst snd map concat length read_jobs foldl]. eapply creads_bind; [by eapply (job_reads scope g revision Hi Hrev), loadable_head|]. by apply IH, (loadable_tail scope g).
Qed.
Lemma job_width id job : job_inv scope g id job → 464 ≤ zlen (job_bytes job).
Proof.
  intros Hjob. destruct (job_ledger scope g revision Hi Hrev _ _ Hjob) as (_ & _ & _ & _ & _ & _ & Hok & _). unfold job_bytes. rewrite !zlen_app, (width_checkpoint _ Hok), !zlen_be.
  pose proof (zlen_nonneg (concat (map receipt_bytes (btree_entries (js_batches job))))). pose proof (zlen_nonneg (concat (map event_bytes (btree_entries (js_source_events job))))). lia.
Qed.
Lemma jobs_width es : Forall (λ e, job_inv scope g e.1 e.2) es → 464 * zlen es ≤ zlen (concat (map job_bytes es.*2)).
Proof.
  induction 1 as [|[id job] es Hj _ IH]; [done|]. rewrite fmap_cons. cbn [snd map concat]. rewrite zlen_app, zlen_cons. pose proof (job_width _ _ Hj : 464 ≤ zlen (job_bytes job)). lia.
Qed.
End reads.

(** ** The ledger *)
Lemma loaded_jobs es l : jl_jobs (foldl load_job l es) = load_entries es (jl_jobs l) ∧ jl_batch_count (foldl load_job l es) = jl_batch_count l + batch_total es.*2.
Proof.
  revert l. induction es as [|e es IH]; intros l; [cbn; split; [done|lia]|]. cbn [foldl]. rewrite fmap_cons, batch_total_cons. destruct (IH (load_job l e)) as [-> ->].
  split; [done|]. cbn [load_job jl_batch_count]. lia.
Qed.
Lemma loaded_batch_revisions es l r : r ∈ jl_batch_revisions (foldl load_job l es) ↔ (∃ e, e ∈ es ∧ r ∈ receipt_revisions e.2) ∨ r ∈ jl_batch_revisions l.
Proof.
  revert l. induction es as [|e es IH]; intros l; cbn [foldl].
  - split; [by right|]. intros [(e & He & _)|?]; [by apply elem_of_nil in He|done].
  - rewrite IH. cbn [load_job jl_batch_revisions]. rewrite elem_of_union. split.
    + intros [(e' & He & Hr)|[Hr|Hr]]; [left; exists e'; split; [by right|done]|left; exists e; split; [by left|done]|by right].
    + intros [(e' & [->|He]%elem_of_cons & Hr)|Hr]; [by right; left|left; by exists e'|by right; right].
Qed.
Lemma loaded_events scope g es l event id : loadable scope g l es →
  jl_source_events (foldl load_job l es) !! event = Some id ↔ (∃ job, (id, job) ∈ es ∧ is_Some (js_source_events job !! event)) ∨ jl_source_events l !! event = Some id.
Proof.
  revert l. induction es as [|[id0 job0] es IH]; intros l Hl; cbn [foldl].
  - split; [by right|]. intros [(job & Hj & _)|?]; [by apply elem_of_nil in Hj|done].
  - rewrite IH by (by apply (loadable_tail scope g)). rewrite loaded_event. pose proof (ld_events _ _ _ _ Hl (id0, job0) event ltac:(by left)) as Hnone. cbn in Hnone. split.
    + intros [(job & Hj & He)|H]; [left; exists job; split; [by right|done]|]. case_decide as Hd; [|by right]. injection H as <-. left. exists job0. split; [by left|done].
    + intros [(job & [[= -> ->]|Hj]%elem_of_cons & He)|H].
      * right. by rewrite decide_True.
      * left. by exists job.
      * right. rewrite decide_False; [done|]. intros Hd. rewrite (Hnone Hd) in H. done.
Qed.
Lemma creads_step {A B} bytes (r : creader A) a off rest (k : A * Cursor → cresult B) res : creads bytes r a → 0 ≤ off → off + zlen (bytes ++ rest) ≤ U64_MAX →
  k (a, mk_cursor (off + zlen bytes) rest) = res → (x ← r (mk_cursor off (bytes ++ rest)); k x) = res.
Proof. intros H Ho Hl <-. by rewrite H. Qed.
Section ledger.
Context (scope : NamespaceRef) (g : GraphState) (jobs : Jobs) (events : gmap SourceEventRef RecordRef) (count : Z).
Context (Hl : ledger_inv scope g jobs events count).
Abbreviation empty_load := (mk_job_load ∅ ∅ None 0 ∅ ∅).
Lemma ledger_loadable : loadable scope g empty_load (btree_entries jobs).
Proof.
  destruct Hl as [Hjobs Hidx Hrevs Hcount [_ Hmax]]. split; cbn [jl_previous_job jl_import_revisions jl_source_events jl_batch_count].
  - apply Forall_forall. intros [id job] H%elem_of_btree_entries. by apply Hjobs.
  - apply ascending_entries.
  - set_solver.
  - intros [id job] [id' job'] r H1%elem_of_btree_entries H2%elem_of_btree_entries. by apply Hrevs.
  - intros e event _ _. apply lookup_empty.
  - intros [id job] [id' job'] event H1%elem_of_btree_entries H2%elem_of_btree_entries He He'. cbn in *.
    assert (events !! event = Some id) as E1 by (apply Hidx; by exists job). assert (events !! event = Some id') as E2 by (apply Hidx; by exists job'). congruence.
  - unfold btree_values in Hcount. lia.
Qed.
Lemma ledger_loaded : let l := foldl load_job empty_load (btree_entries jobs) in
  jl_jobs l = jobs ∧ jl_source_events l = events ∧ jl_batch_count l = count
  ∧ ∀ r id job, jobs !! id = Some job → r ∈ rc_revision <$> btree_values (js_batches job) → r ∈ jl_batch_revisions l.
Proof.
  cbv zeta. destruct (loaded_jobs (btree_entries jobs) empty_load) as [-> ->]. cbn [jl_jobs jl_batch_count]. split_and!.
  - apply load_entries_all.
  - apply map_eq. intros event. apply option_eq. intros id. rewrite (loaded_events scope g) by apply ledger_loadable. cbn [jl_source_events]. rewrite lookup_empty.
    rewrite (li_index _ _ _ _ _ Hl). split.
    + intros [(job & Hj%elem_of_btree_entries & He)|?]; [by exists job|done].
    + intros (job & Hj%elem_of_btree_entries & He). left. by exists job.
  - by rewrite (li_count _ _ _ _ _ Hl).
  - intros r id job Hj Hr. apply loaded_batch_revisions. left. exists (id, job). split; [by apply elem_of_btree_entries|]. unfold receipt_revisions. by apply elem_of_list_to_set.
Qed.
End ledger.

(** ** The checkpoint *)
Definition frame_bytes_of (bytes : list byte) : list byte := be_bytes 8 (zlen bytes) ++ bytes.
Section roundtrip.
Context (sha256 : list byte → list byte) (scope : NamespaceRef) (s : IngestState) (Hi : ingest_inv sha256 scope s).
Context (rev : CommitRevision) (Hrev : in_revision s = Some rev) (Hsc : scope_ok scope).
Definition ledger_bytes : list byte :=
  be_bytes 8 (map_len (in_jobs s)) ++ be_bytes 8 (in_batch_count s) ++ concat (map job_bytes (btree_values (in_jobs s))).
Definition ingest_bytes (graph : list byte) (spatial_revision : Z) (spatial : list byte) : list byte :=
  INGEST_CHECKPOINT_MAGIC ++ encode_scope scope ++ be_bytes 8 rev ++ be_bytes 8 spatial_revision
  ++ frame_bytes_of graph ++ frame_bytes_of spatial ++ ledger_bytes.
(** The spatial component and the revision written for it. *)
Definition spatial_part (spatial_revision : Z) (spatial : list byte) : Prop :=
  match ss_revision (in_spatial s) with
  | Some value => spatial_revision = value ∧ encode_spatial_checkpoint (in_spatial s) = Ok spatial
  | None => spatial_revision = 0 ∧ spatial = []
  end.
Lemma encode_ingest_Ok b : encode_ingest_checkpoint (ingest_snapshot s) = Ok b →
  ∃ graph spatial_revision spatial, encode_graph_checkpoint (in_graph s) = Ok graph ∧ spatial_part spatial_revision spatial
    ∧ b = ingest_bytes graph spatial_revision spatial ∧ zlen b ≤ MAX_CHECKPOINT_BYTES.
Proof.
  unfold encode_ingest_checkpoint. cbn [ingest_snapshot es_revision es_jobs es_batch_count es_graph es_spatial es_scope]. rewrite Hrev. cbn [ok_or]. rewrite result_bind_Ok.
  destruct (_ || _); [done|]. intros (graph & Hg & H)%bind_Ok. apply bind_Ok in H as ([sr spatial] & Hsp & H). exists graph, sr, spatial. split; [done|]. split.
  { unfold spatial_part. destruct (ss_revision (in_spatial s)); [|by injection Hsp as <- <-]. by apply bind_Ok in Hsp as (x & Hx & [= <- <-]). }
  assert (appends (λ output, output ← checkpoint_extend INGEST_CHECKPOINT_MAGIC output; output ← checkpoint_extend (encode_scope (in_scope s)) output;
    output ← checkpoint_u64 rev output; output ← checkpoint_u64 sr output; output ← checkpoint_frame graph output; output ← checkpoint_frame spatial output;
    output ← checkpoint_u64 (map_len (in_jobs s)) output; output ← checkpoint_u64 (in_batch_count s) output;
    try_fold write_job (btree_values (in_jobs s)) output) (ingest_bytes graph sr spatial)) as Ha.
  { unfold ingest_bytes, ledger_bytes, frame_bytes_of, checkpoint_frame, checkpoint_u64. rewrite <-(ii_scope _ _ _ Hi). appending. apply appends_fold, job_appends. }
  destruct (Ha [] b) as [-> Hl]; [done|exact H|]. done.
Qed.
Lemma revision_range : nonzero_u64 rev ∧ 0 ≤ default 0 (ss_revision (in_spatial s)) ≤ rev.
Proof.
  pose proof (ii_revision _ _ _ Hi) as Hg. rewrite Hrev in Hg. destruct (current_revision (in_graph s) rev (ii_graph _ _ _ Hi) (eq_sym Hg)) as [Hcur Hr].
  pose proof (ii_spatial_revision _ _ _ Hi) as Hle. pose proof (si_revision _ _ (ii_spatial _ _ _ Hi)) as Hsr. split; [exact Hr|].
  rewrite Hcur in Hle. destruct (ss_revision (in_spatial s)); cbn in *; lia.
Qed.
Lemma spatial_part_revision spatial_revision spatial : spatial_part spatial_revision spatial → spatial_revision = default 0 (ss_revision (in_spatial s)).
Proof. unfold spatial_part. destruct (ss_revision (in_spatial s)); by intros [-> _]. Qed.
Local Ltac field L := eapply creads_step; [exact L|rewrite ?zlen_app, ?zlen_be; lia|rewrite ?zlen_app, ?zlen_be, ?zlen_nil; lia|].
Lemma header_reads graph spatial_revision spatial : zlen (ingest_bytes graph spatial_revision spatial) ≤ MAX_CHECKPOINT_BYTES →
  0 ≤ spatial_revision ≤ rev → ∃ off, 0 ≤ off ∧ off + zlen ledger_bytes ≤ U64_MAX ∧
  read_ingest_header scope rev (ingest_bytes graph spatial_revision spatial) = Ok (spatial_revision, graph, spatial, mk_cursor off ledger_bytes).
Proof.
  intros Hmax Hsr. destruct revision_range as [Hr _]. pose proof Hr as Hr'. unfold nonzero_u64 in Hr'. unfold read_ingest_header. rewrite (proj2 (Z.ltb_ge _ _)) by done.
  unfold ingest_bytes in *. pose proof (zlen_nonneg graph) as Hg. pose proof (zlen_nonneg spatial) as Hs. pose proof (zlen_nonneg ledger_bytes) as Hl.
  assert (MAX_CHECKPOINT_BYTES ≤ U64_MAX) as Hu by done. unfold Cursor_new. set (led := ledger_bytes) in *. clearbody led.
  assert (zlen INGEST_CHECKPOINT_MAGIC = 8) as Hm by done. pose proof (zlen_nonneg (encode_scope scope)) as Hes.
  unfold frame_bytes_of in *. rewrite !zlen_app, !zlen_be in Hmax.
  assert (∀ bytes, zlen bytes ≤ U64_MAX → creads (be_bytes 8 (zlen bytes) ++ bytes) (importing ic_frame) bytes) as Hframe
    by (intros bytes Hb; by apply creads_importing, frame_reads).
  eexists. split; [|split; [|]]; cycle 2.
  - field (creads_importing _ _ _ (ic_take_reads INGEST_CHECKPOINT_MAGIC)). rewrite bool_decide_true by done. cbn [negb].
    field (creads_importing _ _ _ (er_reads _ _ _ scope_exact _ Hsc)). field (revision_reads _ Hr).
    field (creads_importing _ _ _ (ic_u64_reads spatial_revision ltac:(lia))).
    rewrite bool_decide_true, Z.eqb_refl, (proj2 (Z.ltb_ge _ _)) by (done || lia). cbn [negb orb].
    field (Hframe graph ltac:(lia)). field (Hframe spatial ltac:(lia)). reflexivity.
  - rewrite !zlen_app, !zlen_be. lia.
  - rewrite !zlen_app, !zlen_be. lia.
Qed.
Lemma spatial_restores spatial_revision spatial : spatial_part spatial_revision spatial →
  decode_ingest_spatial sha256 scope spatial_revision spatial = Some (Ok (restored (in_spatial s))).
Proof.
  unfold spatial_part, decode_ingest_spatial. pose proof (si_revision _ _ (ii_spatial _ _ _ Hi)) as Hsr. pose proof (ii_spatial_new _ _ _ Hi) as Hnew.
  destruct revision_range as [Hr Hle]. destruct (ss_revision (in_spatial s)) as [value|] eqn:Hv.
  - intros [-> He]. cbn in Hle. destruct (checkpoint_restores sha256 (in_spatial s) value) as (b & Hb & Hd); [apply Hi|by rewrite (ii_spatial_scope _ _ _ Hi)|done|
      unfold nonzero_u64 in *; lia|]. rewrite He in Hb. injection Hb as <-. rewrite (proj2 (Z.eqb_neq _ _)) by lia. unfold CommitRevision_new.
    rewrite (proj2 (Z.eqb_neq _ _)) by lia. cbn [map_err]. by rewrite <-(ii_spatial_scope _ _ _ Hi).
  - intros [-> ->]. rewrite (Hnew eq_refl). reflexivity.
Qed.
Lemma closure_holds : validate_catalog_closure (in_graph s) (ss_catalog (restored (in_spatial s)))
  (jl_batch_revisions (foldl load_job (mk_job_load ∅ ∅ None 0 ∅ ∅) (btree_entries (in_jobs s)))) = Ok tt.
Proof.
  unfold validate_catalog_closure. rewrite visit_records_fold. change (catalog_records (ss_catalog (restored (in_spatial s)))) with (catalog_records (ss_catalog (in_spatial s))).
  destruct (ledger_loaded _ _ _ _ _ (ii_ledger _ _ _ Hi)) as (_ & _ & _ & Hbatch). pose proof (ii_records _ _ _ Hi) as Hall.
  induction Hall as [|e l (H1 & H2 & id & job & Hj & Hin) _ IH]; [done|]. cbn [try_fold]. rewrite bool_decide_true by (by eapply Hbatch). cbn [negb].
  rewrite H1, H2. exact IH.
Qed.
Lemma ledger_reads off : 0 ≤ off → off + zlen ledger_bytes ≤ U64_MAX →
  read_ledger scope rev (in_graph s) (restored (in_spatial s)) (mk_cursor off ledger_bytes) =
  Ok (mk_ingest_state scope (Some rev) (in_graph s) (restored (in_spatial s)) (in_jobs s) (in_source_events s) (in_batch_count s)).
Proof.
  intros Ho Hl. pose proof (ii_ledger _ _ _ Hi) as Hled. destruct (li_bounds _ _ _ _ _ Hled) as [Hjobs Hbatches]. pose proof (li_count _ _ _ _ _ Hled) as Hcount.
  pose proof (batch_total_nonneg (btree_values (in_jobs s))) as Hpos. pose proof (map_len_nonneg (in_jobs s)) as Hpos'.
  pose proof (ii_revision _ _ _ Hi) as Hg. rewrite Hrev in Hg. pose proof (ledger_loadable _ _ _ _ _ Hled) as Hload.
  pose proof (jobs_reads scope (in_graph s) rev (ii_graph _ _ _ Hi) (eq_sym Hg) _ _ Hload) as Hread.
  pose proof (jobs_width scope (in_graph s) rev (ii_graph _ _ _ Hi) (eq_sym Hg) _ (ld_jobs _ _ _ _ Hload)) as Hwidth.
  rewrite zlen_btree_entries in Hwidth. unfold MAX_IMPORT_JOBS, MAX_IMPORT_BATCHES in *.
  unfold read_ledger, ledger_bytes in *. rewrite !zlen_app, !zlen_be in Hl.
  field (count_reads (map_len (in_jobs s)) MAX_IMPORT_JOBS ltac:(unfold MAX_IMPORT_JOBS; lia) ltac:(unfold U64_MAX; lia)).
  change (btree_entries (in_jobs s)).*2 with (btree_values (in_jobs s)) in *. rewrite <-(app_nil_r (concat _)).
  field (count_reads (in_batch_count s) MAX_IMPORT_BATCHES ltac:(unfold MAX_IMPORT_BATCHES; lia) ltac:(unfold U64_MAX; lia)).
  rewrite (proj2 (Z.ltb_ge _ _)).
  2: { unfold remaining. cbn [cur_rest]. rewrite zlen_app, zlen_nil. apply Z.div_le_lower_bound; lia. }
  replace (Z.to_nat (map_len (in_jobs s))) with (length (btree_entries (in_jobs s))) by (rewrite length_btree_entries; unfold map_len; lia).
  field Hread. cbv beta iota. unfold remaining. cbn [cur_rest]. rewrite zlen_nil.
  destruct (ledger_loaded _ _ _ _ _ Hled) as (-> & -> & -> & _). rewrite !Z.eqb_refl. cbn [negb orb]. by rewrite closure_holds.
Qed.
Lemma ingest_restores b : encode_ingest_checkpoint (ingest_snapshot s) = Ok b →
  decode_ingest_checkpoint sha256 scope rev b =
  Some (Ok (mk_ingest_state scope (Some rev) (in_graph s) (restored (in_spatial s)) (in_jobs s) (in_source_events s) (in_batch_count s))).
Proof.
  intros (graph & sr & spatial & Hg & Hsp & -> & Hmax)%encode_ingest_Ok. pose proof (spatial_part_revision _ _ Hsp) as Hsr. destruct revision_range as [_ Hle].
  destruct (header_reads graph sr spatial Hmax ltac:(lia)) as (off & Ho & Hl & Hhead). unfold decode_ingest_checkpoint. rewrite Hhead.
  pose proof (ii_revision _ _ _ Hi) as Hgr. rewrite Hrev in Hgr. pose proof (ii_graph_scope _ _ _ Hi) as Hgs.
  assert (decode_graph_checkpoint scope rev graph = Ok (in_graph s)) as ->.
  { rewrite <-Hgs. apply encoded_decodes; [apply Hi|apply Hi|by rewrite Hgs|done|done]. }
  rewrite (spatial_restores _ _ Hsp). cbn [mbind option_bind]. f_equal. by apply ledger_reads.
Qed.
End roundtrip.
