(* ===== verification/IngestGuarantees.v ===== *)
(** * What the ingest reducer guarantees

    The states a sequence of engine transactions reaches, and what holds of them: a
    commit does exactly what its transaction says in the graph, the space and the
    ledger together, the ledger accounts for every row, no row is imported twice and
    checkpoints restore the state. *)
From S2P Require Import Prelude Ids Value Codec Policy GraphRecord GraphCodec GraphIndex GraphState GraphValidity GraphCheckpoint GraphReachable GraphQuery GraphGuarantees GraphDurable Storage Blob Journal TxnGroup TxnCoordinator TxnGuarantees SpatialModel SpatialCodec SpatialCatalog SpatialInvariant SpatialState SpatialDurable SpatialGuarantees IngestModel IngestCodec IngestState IngestCheckpoint IngestInvariant IngestCommit IngestDurable.

(** ** Ledgers *)
Lemma elem_of_numbered i rs n : n ∈ (numbered i rs).*1 ↔ i < n ≤ i + zlen rs.
Proof.
  revert i. induction rs as [|r rs IH]; intros i; cbn [numbered].
  - rewrite zlen_nil. split; [by intros ?%elem_of_nil|lia].
  - rewrite fmap_cons, elem_of_cons, IH, zlen_cons. pose proof (zlen_nonneg rs). cbn. lia.
Qed.
(** The rows a list of receipts accounts for. *)
Definition receipt_rows (rs : list BatchReceipt) : Z := foldr (λ r n, rc_row_count r + n) 0 rs.
Lemma chain_rows c rs c' : receipt_chain c rs c' →
  ick_accepted_rows c' = ick_accepted_rows c + receipt_rows rs ∧ next_row (ick_cursor c') = next_row (ick_cursor c) + receipt_rows rs.
Proof.
  revert c. induction rs as [|r rs IH]; intros c; cbn [receipt_chain receipt_rows foldr]; [intros ->; lia|].
  intros [Hn [-> ->]%IH]. destruct (nr_advanced _ _ Hn) as (final & chain & _ & (_ & _ & _ & _ & ->)%advanced_Ok). cbn. unfold receipt_rows. lia.
Qed.
(** What the ledger says of a job. *)
Record job_accounts (g : GraphState) (id : RecordRef) (job : JobState) : Prop := {
  ja_job : ick_job (js_checkpoint job) = id;
  ja_active : require_active_entity g id = Ok tt;
  ja_source : require_bound_evidence g (ick_source (js_checkpoint job)) = Ok tt;
  ja_mapping : require_bound_mapping g (ick_mapping (js_checkpoint job)) = Ok tt;
  ja_batches n : is_Some (js_batches job !! n) ↔ 1 ≤ n < ick_next_batch (js_checkpoint job);
  ja_rows : ick_accepted_rows (js_checkpoint job) = receipt_rows (btree_values (js_batches job));
  ja_cursor : next_row (ick_cursor (js_checkpoint job)) = ick_accepted_rows (js_checkpoint job);
  ja_events : map_len (js_source_events job) = ick_accepted_rows (js_checkpoint job)
}.
Lemma job_inv_accounts scope g id job : job_inv scope g id job → job_accounts g id job.
Proof.
  intros []. destruct ji_ledger as (start & rs & _ & Hst & Hc & Hb). apply unstarted_fields in Hst as (_ & Hn & Ha & Hcur & _ & _).
  pose proof (chain_rows _ _ _ Hc) as [Hrows Hnext]. pose proof (chain_fields _ _ _ Hc) as (_ & _ & _ & _ & _ & Hbatch & _).
  rewrite Hcur in Hnext. cbn in Hnext. split; try done.
  - intros n. rewrite <-elem_of_btree_keys. unfold btree_keys. rewrite Hb, elem_of_numbered. lia.
  - unfold btree_values. rewrite Hb, numbered_values. lia.
  - lia.
Qed.

(** ** Reachable states *)
Section reachable.
Context (sha256 : list byte → list byte) (sha256_width : ∀ bytes, length (sha256 bytes) = 32%nat) (scope : NamespaceRef).
Definition ingest_step (s s' : IngestState) : Prop :=
  ∃ request inventory rev p, ingest_prepare sha256 s request inventory rev = Some (Ok p) ∧ ingest_publish p s = Some s'.
Definition ingest_reachable (s : IngestState) : Prop := rtc ingest_step (IngestState_new scope) s.
Lemma step_ingest_inv s s' : ingest_step s s' → ingest_inv sha256 scope s →
  ingest_inv sha256 scope s' ∧ ∃ tx rev request outcome, ingest_effect sha256 scope s tx rev request outcome s'.
Proof.
  intros (request & inventory & rev & p & Hp & Hpub) Hi. destruct (ingest_commit _ sha256_width _ _ _ _ _ _ Hi Hp) as (tx & s1 & _ & _ & _ & Hpub' & Hi' & He).
  rewrite Hpub in Hpub'. injection Hpub' as <-. split; [done|]. by exists tx, rev, request, (pi_outcome p).
Qed.
Lemma ingest_reachable_inv s : ingest_reachable s → ingest_inv sha256 scope s.
Proof.
  unfold ingest_reachable. intros H. assert (ingest_inv sha256 scope (IngestState_new scope)) as Hi by apply ingest_inv_new. revert Hi.
  induction H as [s|s1 s2 s3 Hstep _ IH]; [done|]. intros Hi. by apply IH, (step_ingest_inv _ _ Hstep).
Qed.
(** A job keeps its receipts and its rows. *)
Definition job_kept (job job' : JobState) : Prop := js_batches job ⊆ js_batches job' ∧ js_source_events job ⊆ js_source_events job'.
#[local] Instance job_kept_preorder : PreOrder job_kept.
Proof. split; [by split|]. intros a b c [] []. split; by etrans. Qed.
Lemma effect_keeps s tx rev request outcome s' : ingest_inv sha256 scope s → ingest_effect sha256 scope s tx rev request outcome s' →
  ∀ id job, in_jobs s !! id = Some job → ∃ job', in_jobs s' !! id = Some job' ∧ job_kept job job'.
Proof.
  intros Hi He id job Hj. pose proof (ii_ledger _ _ _ Hi) as Hled. destruct tx as [sc graph_request|sc [start|batch]].
  - destruct He as (_ & p & g' & _ & _ & ->). by exists job.
  - destruct He as (p & g' & chain & _ & _ & Hnew & _ & _ & ->). cbn [in_jobs]. exists job. rewrite lookup_insert_ne; [done|]. intros <-. congruence.
  - destruct He as (p & g' & sp' & digest & job0 & next & receipt & _ & _ & _ & Hj0 & _ & Hseq & _ & _ & _ & _ & Hnew & ->). cbn [in_jobs].
    destruct (decide (bi_job (ib_id batch) = id)) as [<-|Hne]; [|exists job; by rewrite lookup_insert_ne].
    rewrite Hj0 in Hj. injection Hj as ->. eexists. rewrite lookup_insert_eq. split; [done|].
    pose proof (job_inv_accounts _ _ _ _ (li_jobs _ _ _ _ _ Hled _ _ Hj0)) as Hacc. split; cbn [js_batches js_source_events].
    + apply insert_subseteq, eq_None_not_Some. rewrite (ja_batches _ _ _ Hacc), Hseq. lia.
    + apply map_union_subseteq_r, map_disjoint_spec. intros e d d' Hd Hd'. assert (in_source_events s !! e = Some (bi_job (ib_id batch))) as Hidx
        by (apply (li_index _ _ _ _ _ Hled); exists job; by eauto).
      assert (e ∈ (row_pairs batch).*1) as Hin by (apply rows_lookup; by eexists). rewrite row_pairs_events in Hin.
      apply list_elem_of_fmap in Hin as (row & -> & Hrow). rewrite Forall_forall in Hnew. rewrite (Hnew _ Hrow) in Hidx. done.
Qed.
Lemma steps_keep s s' : rtc ingest_step s s' → ingest_inv sha256 scope s → ingest_inv sha256 scope s' ∧
  ∀ id job, in_jobs s !! id = Some job → ∃ job', in_jobs s' !! id = Some job' ∧ job_kept job job'.
Proof.
  induction 1 as [s|s1 s2 s3 Hstep _ IH]; intros Hi; [split; [done|]; intros id job Hj; by exists job|].
  destruct (step_ingest_inv _ _ Hstep Hi) as [Hi2 (tx & rev & request & outcome & He)]. destruct (IH Hi2) as [Hi3 Hk]. split; [done|]. intros id job Hj.
  destruct (effect_keeps _ _ _ _ _ _ Hi He _ _ Hj) as (job2 & Hj2 & Hk2). destruct (Hk _ _ Hj2) as (job3 & Hj3 & Hk3). exists job3. split; [done|]. by etrans.
Qed.
End reachable.

(** ** Guarantees *)
Section guarantees.
Context (sha256 : list byte → list byte) (sha256_width : sha256_wide sha256) (scope : NamespaceRef).

(** C19: An engine commit is one commit.  A request that could be prepared on a reachable
    state is the encoding of one transaction of that scope at the next revision; it
    always publishes, and the state after it is exactly what the transaction says:
    the graph after the graph request it carries, the space after the spatial request
    it carries if any, and the ledger with the job started or extended by one receipt
    and the rows of the batch - none of them seen before - all at that revision. *)
Theorem ingest_commit_exact s request inventory rev p : ingest_reachable sha256 scope s →
  ingest_prepare sha256 s request inventory rev = Some (Ok p) →
  ∃ tx s', decode_engine_transaction request = Ok tx ∧ engine_scope tx = scope ∧ next_ingest_revision s = Ok rev ∧
    ingest_publish p s = Some s' ∧ in_revision s' = Some rev ∧ revision (in_graph s') = Some rev ∧
    ingest_effect sha256 scope s tx rev request (pi_outcome p) s'.
Proof.
  intros Hi%(ingest_reachable_inv _ sha256_width) Hp. destruct (ingest_commit _ sha256_width _ _ _ _ _ _ Hi Hp) as (tx & s' & Htx & Hsc & Hnext & Hpub & Hi' & He).
  exists tx, s'. pose proof (effect_revision _ _ _ _ _ _ _ _ He) as Hrev. split_and!; try done. by rewrite <-(ii_revision _ _ _ Hi').
Qed.

(** C21: The ledger accounts for everything.  In every reachable state the index of
    source events is that of the jobs; each job is an active entity bound to its
    source and mapping, its receipts are numbered from one without gaps, and its
    accepted rows are at once the rows of the receipts, the position of the cursor
    and the number of events it holds; and every spatial record was recorded by a
    batch, with references that were right then and are right now. *)
Theorem ingest_ledger_accounts s : ingest_reachable sha256 scope s →
  (∀ event id, in_source_events s !! event = Some id ↔ ∃ job, in_jobs s !! id = Some job ∧ is_Some (js_source_events job !! event)) ∧
  map_Forall (job_accounts (in_graph s)) (in_jobs s) ∧
  in_batch_count s = batch_total (btree_values (in_jobs s)) ∧ in_batch_count s ≤ MAX_IMPORT_BATCHES ∧ map_len (in_jobs s) ≤ MAX_IMPORT_JOBS ∧
  ∀ r record, (r, record) ∈ catalog_records (ss_catalog (in_spatial s)) →
    validate_external_record (in_graph s) record = Ok tt ∧ validate_external_record_at (in_graph s) r record = Ok tt ∧
    ∃ id job n receipt, in_jobs s !! id = Some job ∧ js_batches job !! n = Some receipt ∧ rc_revision receipt = r.
Proof.
  intros Hi%(ingest_reachable_inv _ sha256_width). pose proof (ii_ledger _ _ _ Hi) as [Hjobs Hidx _ Hcount [Hmax Hb]]. split_and!; try done.
  - intros id job Hj. by eapply job_inv_accounts, Hjobs.
  - intros r record Hin. pose proof (ii_records _ _ _ Hi) as Hrec. rewrite Forall_forall in Hrec.
    destruct (Hrec _ Hin) as (H1 & H2 & id & job & Hj & (receipt & Hr & (n & Hn)%elem_of_btree_values)%list_elem_of_fmap).
    split_and!; [done|done|]. by exists id, job, n, receipt.
Qed.

(** C20: No row is imported twice.  Once a source event has been imported by a job it stays
    with that job, with the digest it was imported with, in every later state, and no
    batch with a row of that event can be prepared any more, by that job or another,
    under that or any other sequence number. *)
Theorem rows_imported_once s s' event id : ingest_reachable sha256 scope s → in_source_events s !! event = Some id →
  rtc (ingest_step sha256) s s' →
  (∃ job job' digest, in_jobs s !! id = Some job ∧ in_jobs s' !! id = Some job' ∧
     js_source_events job !! event = Some digest ∧ js_source_events job' !! event = Some digest) ∧
  in_source_events s' !! event = Some id ∧
  ∀ request inventory rev sc batch p, decode_engine_transaction request = Ok (EngineImport sc (ApplyBatch batch)) →
    event ∈ row_event <$> ib_rows batch → ingest_prepare sha256 s' request inventory rev ≠ Some (Ok p).
Proof.
  intros Hi%(ingest_reachable_inv _ sha256_width) Hev Hsteps. destruct (steps_keep _ sha256_width scope _ _ Hsteps Hi) as [Hi' Hk].
  apply (li_index _ _ _ _ _ (ii_ledger _ _ _ Hi)) in Hev as (job & Hj & [digest Hd]). destruct (Hk _ _ Hj) as (job' & Hj' & _ & Hsub).
  pose proof (lookup_weaken _ _ _ _ Hd Hsub) as Hd'. assert (in_source_events s' !! event = Some id) as Hev'
    by (apply (li_index _ _ _ _ _ (ii_ledger _ _ _ Hi')); exists job'; by eauto).
  split; [by exists job, job', digest|]. split; [done|]. intros request inventory rev sc batch p Htx Hin Hp.
  destruct (ingest_commit _ sha256_width _ _ _ _ _ _ Hi' Hp) as (tx & s2 & Htx' & _ & _ & _ & _ & He). rewrite Htx in Htx'. injection Htx' as <-.
  destruct He as (p1 & g' & sp' & dg & job0 & next & receipt & _ & _ & _ & _ & _ & _ & _ & _ & _ & _ & Hnew & _).
  apply list_elem_of_fmap in Hin as (row & -> & Hrow). rewrite Forall_forall in Hnew. rewrite (Hnew _ Hrow) in Hev'. done.
Qed.

(** C22: Checkpoints restore the engine.  When a reachable state that has committed can be
    written as a checkpoint, decoding the bytes under its scope and revision gives that
    state back - graph, ledger and index exactly, the space with the last revision of its
    catalog that of its last retained record - and the restored state has the same
    checkpoint. *)
Theorem ingest_checkpoint_roundtrip s rev b : ingest_reachable sha256 scope s → scope_ok scope → in_revision s = Some rev →
  encode_ingest_checkpoint (ingest_snapshot s) = Ok b →
  let s' := mk_ingest_state (in_scope s) (in_revision s) (in_graph s) (restored (in_spatial s)) (in_jobs s) (in_source_events s) (in_batch_count s) in
  decode_ingest_checkpoint sha256 scope rev b = Some (Ok s') ∧ encode_ingest_checkpoint (ingest_snapshot s') = Ok b.
Proof.
  intros Hi%(ingest_reachable_inv _ sha256_width) Hsc Hrev He. cbv zeta. rewrite Hrev, (ii_scope _ _ _ Hi). split; [by apply (ingest_restores _ _ _ Hi)|].
  rewrite <-He. unfold ingest_snapshot. cbn [in_scope in_revision in_graph in_spatial in_jobs in_batch_count]. by rewrite Hrev, (ii_scope _ _ _ Hi).
Qed.
End guarantees.

(** ** The engine under the coordinator *)
Section engine.
Context (sha256 : list byte → list byte) (sha256_width : sha256_wide sha256).
#[local] Instance ingest_transaction_state : TransactionState IngestState := {
  Prepared := PreparedIngest;
  Snapshot := EngineSnapshot;
  state_prepare := ingest_prepare sha256;
  state_result_digest := pi_result_digest;
  state_publish := ingest_publish;
  state_snapshot := ingest_snapshot
}.
#[local] Instance ingest_transaction_laws : TransactionStateLaws IngestState.
Proof.
  refine {| reducer_valid := λ s, ∃ scope, ingest_inv sha256 scope s |}.
  - intros s request inventory revision p [scope Hi] Hp.
    destruct (ingest_commit _ sha256_width _ _ _ _ _ _ Hi Hp) as (tx & s' & _ & _ & _ & Hpub & Hi' & _). exists s'. by eauto.
  - intros s request inventory revision p Hp. apply ingest_prepare_Ok in Hp as (tx & outcome & graph & spatial & mutation & gd & sd & _ & _ & _ & _ & _ & -> & _).
    apply sha256_width.
Defined.
Context {J F : Type} `{JournalLaws J F}.
Lemma replays_ingest scope_ sc log r : replays sha256 scope_ (IngestState_new sc) log r →
  ingest_reachable sha256 sc (rc_state r) ∧ in_revision (rc_state r) = log_frontier log.
Proof.
  unfold replays. revert r. induction log as [|g log IH] using rev_ind; intros r Hr; [injection Hr as <-; split; [apply rtc_refl|done]|].
  rewrite visit_all_app in Hr. destruct (visit_all _ log _) as [[r1|]|]; [|done..]. destruct (IH r1 eq_refl) as [Hreach _]. cbn [visit_all] in Hr.
  destruct (replay_group _ _ _ _) as [[r2|]|] eqn:Hg; [|done..]. injection Hr as ->. apply replay_group_state in Hg as (d & p & _ & Hp & Hpub). cbn in Hp, Hpub.
  split; [eapply rtc_r; [exact Hreach|]; eexists _, _, _, p; split; [exact Hp|exact Hpub]|]. unfold log_frontier. rewrite last_snoc. cbn [fmap option_fmap option_map].
  destruct (ingest_commit _ sha256_width _ _ _ _ _ _ (ingest_reachable_inv _ sha256_width _ _ Hreach) Hp) as (tx & s' & _ & _ & _ & Hpub' & _ & He).
  rewrite Hpub in Hpub'. injection Hpub' as <-. by eapply effect_revision.
Qed.
(** C8: The whole engine composes.  In every execution of a coordinator over the ingest
    reducer - commits, refusals, appends of unknown fate, reopenings, over any journal
    that keeps its promises - the engine state in memory is one that committing engine
    transactions from the empty state reaches, and while no outcome is unknown its
    revision is the frontier of the journal. *)
Theorem durable_ingest_reachable sc (co : CommitCoordinator (S := IngestState) (J := J)) (fs : F) :
  coordinator_reachable sha256 (IngestState_new sc) (co, fs) →
  ingest_reachable sha256 sc (cc_state co) ∧
  (cc_uncertain co = false → in_revision (cc_state co) = journal_frontier (cc_journal co)).
Proof.
  intros Hr. destruct (reachable_coordinator_inv sha256 _ _ sha256_width Hr) as [log Hinv]. cbn in Hinv.
  assert (replays sha256 (cc_scope co) (IngestState_new sc) log (memory co)) as Hrep by (destruct Hinv as [Hinv|Hinv]; apply Hinv).
  apply replays_ingest in Hrep as [Hreach Hrev]. split; [done|]. intros Hu.
  destruct Hinv as [(_ & _ & _ & _ & Ho & _)|(Hu' & _)]; [|congruence]. by rewrite (owns_frontier _ _ _ Ho).
Qed.
End engine.
(** C37: the codec of engine transactions is exact: bytes decode to a transaction
    exactly when the transaction satisfies every constructor check and bound and the
    bytes are its encoding, so no two requests carry the same transaction. *)
Theorem engine_transaction_exact b tx :
  decode_engine_transaction b = Ok tx ↔ engine_transaction_ok tx ∧ encode_engine_transaction tx = Ok b.
Proof. apply engine_transaction_iff. Qed.
