(* ===== verification/IngestSamples.v ===== *)
(** * Executions of the ingest reducer

    An engine that creates the records an import needs, starts the import and takes
    one batch with a row and a spatial transaction. *)
From S2P Require Import Prelude Ids Value Codec Policy GraphRecord GraphCodec GraphCodecExact GraphState GraphCheckpoint GraphSamples GraphQuery Storage Blob Journal TxnGroup TxnCoordinator TxnGuarantees TxnSamples SpatialModel SpatialCodec SpatialCatalog SpatialState SpatialDurable SpatialSamples IngestModel IngestCodec IngestState IngestCheckpoint IngestInvariant IngestCommit IngestGuarantees.

Definition engine_entity (n : Z) : Operation := Create Absent (NEntity (mk_new_entity (space_ref n) (lit "thing") 1 (VMap []))).
Definition engine_evidence (n : Z) (b : byte) : Operation := Create Absent (NEvidence (mk_new_evidence (space_ref n) (repeat b 32) (lit "blob"))).
Definition engine_graph (operations : list Operation) : list byte := ok_bytes (encode_transaction (GraphTransaction_new space_scope operations)).
Definition engine_bytes (tx : EngineTransaction) : list byte := match encode_engine_transaction tx with Ok bytes => bytes | Err _ => [] end.
Definition engine_blob (n : Z) (b : byte) : BlobReference := mk_blob_reference space_scope (BlobId_from_bytes (be_bytes 16 n)) 10 1 (repeat b 32).
Definition engine_start : ImportStart :=
  mk_start (space_ref 20) (mk_source_binding (space_ref 21) 1 (engine_blob 1 x07)) (mk_mapping_binding (space_ref 22) 1 (engine_blob 2 x08) TypedRecordsV1)
    (engine_graph [engine_entity 23]).
Definition engine_inventory : BlobInventory := mk_inventory space_scope [engine_blob 1 x07; engine_blob 2 x08] [] [].
Definition engine_event : SourceEventRef := scoped_ref_new (ns_database space_scope) (ns_namespace space_scope) (from_bytes (be_bytes 16 40)).
Definition engine_create : list byte := engine_bytes (EngineGraph space_scope
  (engine_graph [engine_entity 1; engine_entity 2; engine_entity 20; engine_evidence 21 x07; engine_evidence 22 x08])).
Definition engine_begin : list byte := engine_bytes (EngineImport space_scope (StartJob engine_start)).
(** Prepare and publish. *)
Definition ingest_serve (s : IngestState) (request : list byte) (inventory : option BlobInventory) (rev : CommitRevision) : option IngestState :=
  match ingest_prepare sample_sha s request inventory rev with Some (Ok p) => ingest_publish p s | _ => None end.
Definition engine_one := default (IngestState_new space_scope) (ingest_serve (IngestState_new space_scope) engine_create None 1).
Definition engine_two := default engine_one (ingest_serve engine_one engine_begin (Some engine_inventory) 2).
Definition engine_batch : ImportBatch :=
  mk_batch (mk_batch_id (space_ref 20) 1) (match in_jobs engine_two !! space_ref 20 with Some job => js_checkpoint job | None => started (space_ref 20) (is_source engine_start) (is_mapping engine_start) 2 [] end)
    ImportCursor_START [mk_row engine_event (repeat x09 32)] (engine_graph [engine_entity 24]) (Some (space_request [SWorld space_world; SFrame space_root])) false.
Definition engine_import : list byte := engine_bytes (EngineImport space_scope (ApplyBatch engine_batch)).
Definition engine_three := default engine_two (ingest_serve engine_two engine_import None 3).
Lemma served_step s request inventory rev s' : ingest_serve s request inventory rev = Some s' → ingest_step sample_sha s s'.
Proof.
  unfold ingest_serve. intros H. destruct (ingest_prepare _ _ _ _ _) as [[p|]|] eqn:Hp; [|done..]. by exists request, inventory, rev, p.
Qed.
Lemma engine_one_step : ingest_step sample_sha (IngestState_new space_scope) engine_one.
Proof. apply (served_step _ engine_create None 1), some_default. vm_compute. reflexivity. Qed.
Lemma engine_two_step : ingest_step sample_sha engine_one engine_two.
Proof. apply (served_step _ engine_begin (Some engine_inventory) 2), some_default. vm_compute. reflexivity. Qed.
Lemma engine_three_step : ingest_step sample_sha engine_two engine_three.
Proof. apply (served_step _ engine_import None 3), some_default. vm_compute. reflexivity. Qed.
Lemma engine_two_reachable : ingest_reachable sample_sha space_scope engine_two.
Proof. eapply rtc_l; [exact engine_one_step|]. apply rtc_once, engine_two_step. Qed.
Lemma engine_three_reachable : ingest_reachable sample_sha space_scope engine_three.
Proof. eapply rtc_r; [exact engine_two_reachable|exact engine_three_step]. Qed.

(** ** Witnesses *)
Lemma ingest_commit_exact_witness : ∃ p s', ingest_prepare sample_sha engine_two engine_import None 3 = Some (Ok p) ∧
  ingest_publish p engine_two = Some s' ∧ in_revision s' = Some 3.
Proof.
  assert (match ingest_prepare sample_sha engine_two engine_import None 3 with Some (Ok _) => true | _ => false end = true) as Hb by (vm_compute; reflexivity).
  destruct (ingest_prepare sample_sha engine_two engine_import None 3) as [[p|]|] eqn:Hp; [|discriminate Hb..].
  destruct (ingest_commit_exact sample_sha sample_sha_wide space_scope engine_two engine_import None 3 p engine_two_reachable Hp)
    as (tx & s' & _ & _ & _ & Hpub & Hrev & _). exists p, s'. split; [reflexivity|]. split; [exact Hpub|exact Hrev].
Defined.
Lemma ingest_ledger_accounts_witness : ∃ job, in_jobs engine_three !! space_ref 20 = Some job ∧ ick_next_batch (js_checkpoint job) = 2 ∧
  is_Some (js_batches job !! 1) ∧ ∃ id, in_source_events engine_three !! engine_event = Some id.
Proof.
  assert (match in_jobs engine_three !! space_ref 20 with
          | Some job => (ick_next_batch (js_checkpoint job) =? 2) && bool_decide (is_Some (js_source_events job !! engine_event)) | None => false end = true) as Hb
    by (vm_compute; reflexivity).
  destruct (in_jobs engine_three !! space_ref 20) as [job|] eqn:Hj; [|discriminate Hb]. apply andb_true_iff in Hb as [Hn%Z.eqb_eq He%bool_decide_eq_true].
  destruct (ingest_ledger_accounts sample_sha sample_sha_wide space_scope engine_three engine_three_reachable) as (Hidx & Hall & _).
  exists job. split; [reflexivity|]. split; [exact Hn|]. split.
  - apply (ja_batches _ _ _ (Hall _ _ Hj)). rewrite Hn. lia.
  - exists (space_ref 20). apply Hidx. exists job. by split.
Defined.
(** The batch sent again. *)
Lemma rows_imported_once_witness : in_source_events engine_three !! engine_event = Some (space_ref 20) ∧
  ∀ p, ingest_prepare sample_sha engine_three engine_import None 4 ≠ Some (Ok p).
Proof.
  assert (in_source_events engine_three !! engine_event = Some (space_ref 20)) as He by (vm_compute; reflexivity). split; [exact He|]. intros p.
  refine (proj2 (proj2 (rows_imported_once sample_sha sample_sha_wide space_scope engine_three engine_three engine_event (space_ref 20)
    engine_three_reachable He (rtc_refl _ _))) engine_import None 4 space_scope engine_batch p _ _).
  - vm_compute. reflexivity.
  - apply list_elem_of_fmap. exists (mk_row engine_event (repeat x09 32)). split; [reflexivity|]. apply list_elem_of_singleton. reflexivity.
Defined.
Definition engine_restored : IngestState :=
  mk_ingest_state (in_scope engine_three) (in_revision engine_three) (in_graph engine_three) (restored (in_spatial engine_three))
    (in_jobs engine_three) (in_source_events engine_three) (in_batch_count engine_three).
Lemma ingest_checkpoint_roundtrip_witness : ∃ b, encode_ingest_checkpoint (ingest_snapshot engine_three) = Ok b ∧
  decode_ingest_checkpoint sample_sha space_scope 3 b = Some (Ok engine_restored).
Proof.
  assert (is_ok (encode_ingest_checkpoint (ingest_snapshot engine_three)) && bool_decide (in_revision engine_three = Some 3) = true) as Hb by (vm_compute; reflexivity).
  apply andb_true_iff in Hb as [Hb Hr%bool_decide_eq_true].
  destruct (encode_ingest_checkpoint (ingest_snapshot engine_three)) as [b|] eqn:He; [|discriminate Hb].
  destruct (ingest_checkpoint_roundtrip sample_sha sample_sha_wide space_scope engine_three 3 b engine_three_reachable ltac:(by split) Hr He) as [Hd _].
  exists b. split; [reflexivity|exact Hd].
Defined.

(** ** The engine under a coordinator *)
#[local] Instance ingest_sample_state : TransactionState IngestState := ingest_transaction_state sample_sha.
#[local] Instance ingest_sample_laws : TransactionStateLaws IngestState := ingest_transaction_laws sample_sha sample_sha_wide.
Definition ingest_engine : CommitCoordinator (S := IngestState) (J := MemoryJournal) * MemoryStore :=
  (coordinator_create space_scope 30 (mk_memory_journal None false) (IngestState_new space_scope), mk_memory [] [LoseAfter] true).
Definition ingest_engine_request : TransactionRequest :=
  mk_request (PrincipalDigest_from_bytes (be_bytes 32 1)) (from_bytes (be_bytes 16 2)) (from_bytes (be_bytes 16 3)) engine_create None.
(** The append is lost after it became durable, the engine reopened. *)
Definition ingest_commit_lost := commit sample_sha ingest_engine.1 ingest_engine.2 ingest_engine_request (Some sample_accepted) (false, false).
Definition ingest_reopened := match ingest_commit_lost with
  | Some (co, fs, Err TxOutcomeUnknown) => coordinator_open sample_sha (journal_close (cc_journal co) fs) (cc_scope co) (cc_retention co) (IngestState_new space_scope)
  | _ => None
  end.
Lemma durable_ingest_reachable_witness : ∃ co fs report,
  ingest_reopened = Some (fs, Ok (co, report)) ∧ ingest_reachable sample_sha space_scope (cc_state co) ∧ in_revision (cc_state co) = Some 1.
Proof.
  assert (match ingest_reopened with Some (_, Ok (co, _)) => bool_decide (mj_frontier (cc_journal co) = Some 1) && negb (cc_uncertain co) | _ => false end = true)
    as Hb by (vm_compute; reflexivity).
  unfold ingest_reopened in *. destruct ingest_commit_lost as [[[co fs] [o|e]]|] eqn:Hc; [discriminate Hb| |discriminate Hb].
  destruct e; try discriminate Hb.
  destruct (coordinator_open _ _ _ _ _) as [[fs' [[co' report]|]]|] eqn:Ho; [|discriminate Hb..].
  apply andb_true_iff in Hb as [Hf%bool_decide_eq_true Hu%negb_true_iff].
  exists co', fs', report. split; [reflexivity|].
  assert (coordinator_reachable sample_sha (IngestState_new space_scope) (co', fs')) as Hr.
  { exists space_scope, 30, (mk_memory_journal None false), (mk_memory [] [LoseAfter] true).
    split; [exists space_scope; apply IngestInvariant.ingest_inv_new|]. split; [by split|]. split; [by split|].
    split; [exact (conj eq_refl (conj log_numbered_nil (conj eq_refl eq_refl)))|].
    apply (rtc_l _ _ (co, fs)); [|apply rtc_once; by eapply step_reopen].
    eapply step_commit; [|apply sample_observed|exact Hc]. by split_and!. }
  destruct (durable_ingest_reachable sample_sha sample_sha_wide space_scope co' fs' Hr) as [Hreach Hrev].
  split; [exact Hreach|]. by rewrite (Hrev Hu), <-Hf.
Defined.
